(* ===== verification/_CoqProject ===== *)
-Q . S2P
Prelude.v
Text.v
Interfaces.v
CircuitBreaker.v
Retry.v
StreamTypes.v
ByteRanges.v
ChunkCache.v
StreamPipe.v
Metrics.v
WorkerPool.v
WorkerFetch.v
Music.v
StreamEngine.v
Filename.v
ZipPlan.v
Priority.v
RipQueue.v
StartTask.v
Settings.v
Captions.v
Storage.v
ZipState.v
ZipArchive.v
OrderedDispatch.v
Delivery.v
DeliverySeq.v
UploadLane.v
JobResolve.v
JobPlan.v
JobRun.v
Streaming.v
Ripper.v
RipperFacts.v
MirrorPolicy.v
Bytes.v
Boxes.v
Acquisition.v
WrapperPlaylist.v
PlaylistFacts.v
CachedLane.v
RipLane.v
UploadWait.v
Finalize.v
FinalizeFacts.v
PlaybackSync.v
TrackRuns.v
Senc.v
CencStrip.v
FragmentLayout.v
CencDecrypt.v
StartTime.v
InitSegment.v
Normalize.v
FairPlay.v
FragmentScan.v
Widevine.v
WrapperClient.v
WrapperEngine.v
Programs.v
Sessions.v
Auth.v
Tickets.v
Lookup.v
BotText.v
Stages.v
ServerTasks.v
TelegramSink.v
DumpCaption.v
Store.v
IndexSync.v
