(* ===== verification/Prelude.v ===== *)
(** * Peerless server: a verification library

    Peerless is a music server: requests from a Telegram bot or an HTTP client become rip jobs, whose
    tracks are downloaded, archived, uploaded to a Telegram dump chat and streamed back from there in
    byte ranges.  This library models the core of its Rust workspace ([src/crates]) and proves what
    makes it correct.  Functions are written in the order and with the names of the source; [src] files
    are named at the top of each file below.

    ** Conventions

    - Machine integers are [Z] with the overflow behaviour of each operation written out ([wrap],
      [saturating_add], [checked_add], ...); [usize] has 64 bits.  Text is the list of its Unicode
      scalar values, with UTF-8 byte lengths and offsets (Text.v).  Durations are nanoseconds or
      milliseconds, as each file says, and the clock is an argument.
    - A fallible function returns [result] (or [option]); a panic of the source is a value too
      ([None], [Panic], [Panicked]) and the theorems exclude it.
    - Concurrent code is a step relation ([steps]) with one step per critical section or completed
      await; the theorems hold in every reachable state, hence for every interleaving.  A single
      task that awaits meets the outside world through an environment that says, turn by turn, what
      each await yields and what the other tasks did meanwhile.
    - Third-party code (the MTProto client, moka, SHA-256, serde, the ZIP writer, the URL parser) is a
      parameter, and so is the database where its tables are not modelled (Sessions.v and Store.v do).  Where code relies on them, their documented contract is a class or
      a hypothesis and an instance shows that it can hold.
    - Fields marked ghost record history for the statements; no definition reads them.
    - A property's witness, named after it with the suffix [_witness], applies it to a concrete run.

    ** Files, by component

    Shared
    - Prelude.v: results, machine integers, tactics, step relations and list lemmas.
    - Text.v: strings, number formatting and parsing, UTF-8.
    - Interfaces.v: the classes between components. [WorkerGate] (admission of workers; promised by
      CircuitBreaker.v, used by WorkerPool.v and WorkerFetch.v), [ScorePolicy] (ageing scores; Priority.v
      to RipQueue.v), [Backoff] (delays that never shrink; Retry.v to Storage.v).
    - Bytes.v, Boxes.v (crates/media, crates/apple): buffers with checked reads and in-place writes, and the
      boxes of ISO media files with their rendering and their walks.
    - Programs.v: programs over a signature of requests (a free monad), systems of such programs that
      interleave, and a logic for what each has behind it.

    Streaming (crates/stream, with crates/core/src/retry.rs)
    - CircuitBreaker.v (circuit_breaker.rs): quarantine of workers, refined to the last report on each.
    - Retry.v (core/src/retry.rs, limits.rs): delays, budgets from the environment, the jitter in
      binary64 through the standard library's [SpecFloat].
    - StreamTypes.v, ByteRanges.v (lib.rs, pipe.rs): errors; parsing of the [Range] header.
    - ChunkCache.v (cache.rs): the block cache over any map with moka's contract.
    - StreamPipe.v (pipe.rs, [create_stream_pipe]): the prefetching task that sends a range.
    - Metrics.v (metrics.rs): counters that wrap, and the exported snapshot.
    - WorkerPool.v (worker_pool.rs): choice of a worker, upload leases on shared gates, construction.
    - WorkerFetch.v (worker_pool.rs, [fetch_chunk_with_budget]): one chunk, with retries, flood waits,
      migrations, quarantine and the last attempt on the primary client.
    - StreamEngine.v (engine.rs; pipe.rs, [fetch_chunk_with_refresh]): metadata, response headers, and
      the refresh of an expired file reference.

    A rip job (crates/engine, crates/music, crates/core)
    - Music.v (music/src/lib.rs, url.rs): codecs, renditions, work plans, percent encoding.
    - Filename.v (engine/src/filename.rs): bounded portable names.
    - ZipPlan.v, ZipArchive.v (engine/src/zip.rs): the split of an album into parts; the builder, in a
      state and error monad over a file system in which any operation may fail.
    - ZipState.v (orchestrator/zip_state.rs): the archive's label and its ledger of messages.
    - Priority.v, RipQueue.v (orchestrator/priority.rs, queue.rs): scores, and the queue with its worker
      and its abort watchers.
    - StartTask.v (orchestrator/mod.rs, inflight.rs, events.rs): the life of a job, cancellation, and
      the table that deduplicates targets, over all the jobs.
    - JobResolve.v, JobPlan.v, JobRun.v (orchestrator/job_run.rs): targets to tracks and a header, the plan
      against the cache, and the body of the job.
    - OrderedDispatch.v (orchestrator/dispatch.rs, rip_lane.rs): the producer that rips or finds the
      tracks of a job and the dispatcher that hands them to the upload lane in order.
    - CachedLane.v, RipLane.v, UploadLane.v (cached_lane.rs, rip_lane.rs, upload_lane.rs): one track from the
      cache, one fresh track, one upload with its publication and its retraction.
    - Delivery.v, DeliverySeq.v (deps/delivery.rs, upload_lane.rs): the batches delivered in track order.
    - UploadWait.v, Finalize.v, FinalizeFacts.v (finalize.rs): the wait for the uploads, the archives of a
      job and its summary; the facts are in the third.
    - Ripper.v, RipperFacts.v, Streaming.v (ripper.rs, streaming/): one attempt at a track with its files,
      its retries, and the HTTP source.
    - Stages.v (orchestrator/types.rs): what a job shows of its work.
    - Settings.v, Captions.v, Storage.v (core/src/settings.rs, orchestrator/helpers.rs,
      core/src/cache.rs): gates and endpoint, text helpers, storage retries.

    Apple's streams (crates/apple, crates/media)
    - MirrorPolicy.v, Acquisition.v (mirror_policy.rs, mirror_http.rs, acquisition.rs): which mirror to ask,
      and the rounds of attempts that end with a stream.
    - WrapperPlaylist.v, PlaylistFacts.v, WrapperClient.v, WrapperEngine.v, Widevine.v (wrapper/): playlists
      and the choice of a variant, the decryption service, a rip from its playlists to its file, the licence.
    - FragmentScan.v, TrackRuns.v, Senc.v, FragmentLayout.v, StartTime.v, InitSegment.v, CencStrip.v,
      CencDecrypt.v, Normalize.v, FairPlay.v (wrapper/decryptor.rs, cenc.rs; media/src/fragmented.rs):
      fragments, their runs and tables; times moved to zero, protection removed, samples decrypted in place,
      sizes and offsets rewritten.

    The server and the bot (crates/server, crates/db, crates/bot)
    - Sessions.v (db/src/session.rs, auth.rs): login codes, sessions and users over their tables.
    - Auth.v (server/src/auth.rs, error.rs): who a request comes from, with the cache of tokens.
    - Tickets.v (server/src/streaming.rs): signed addresses for playback, and the stream's handler.
    - Lookup.v (server/src/lookup.rs): what of a request is in the cache.
    - Store.v (db/src/tracks.rs, albums.rs, with the schema): the tables of tracks and archives, their
      constraints, and every statement on them.
    - BotText.v (bot/src/html.rs, main.rs): headers read back from their HTML.
    - TelegramSink.v (bot/src/telegram_sink.rs): the delivery port over Telegram: the watch over an upload, the
      attempts of a publication on the clients of WorkerPool.v, deliveries to a chat, retraction.
    - DumpCaption.v (bot/src/caption.rs): the JSON records in the captions of the dump chat.
    - IndexSync.v (bot/src/handlers/index.rs): the command that rebuilds the tables of Store.v from the chat.
    - ServerTasks.v (server/src/task_registry.rs, rip_tasks.rs, rip_task_rpc.rs, lib.rs; bot/src/main.rs): the
      rip tasks of clients, and the handler that follows the orchestrator's events.
    - PlaybackSync.v (server/src/playback_sync.rs): the rooms of a user's devices.

    ** What the theorems show

    - Delivery: a client of a valid range gets exactly its bytes in order, or the bytes below the first
      failed chunk and one error; the headers announce what is sent; the cache never serves a wrong
      block; a result of a fetch was answered by Telegram.
    - Bounds and termination: a fetch ends within its attempts or its deadline and sends at most four
      RPCs, none to a quarantined worker; the pipe starts at most two chunks ahead; storage calls, rips,
      acquisitions and delays stay within their policies; parts, names and ranges within their limits.
    - Concurrency: the rip queue runs one job at a time, loses none, drains, takes the best score and
      starves nobody; aborts reach their item; a job ends once and a cancelled one ends cancelled;
      uploads hold distinct sessions; a job's tracks are handed over in order, none is lost, and the two
      tasks cannot block each other; archives wait for the uploads; ended tasks leave the registry.
    - Publication: an archive appears whole or not at all; a plan holds every track once; finalisation
      accounts for every message it sent, and what it records is found again; an upload is dropped only when it
      stalls and always ends, a publication gives its permits back, a track's landed in the dump chat; archives are
      replaced by compare-and-swap; a sync leaves the tracks of the chat.
    - Access: a request that is served as a user has a session, a login code or a young cache entry behind
      it; a revocation lasts; nothing is streamed without a ticket that the server issued for that track;
      only an owner or the administrator cancels a task.
    - Media: decryption, the removal of protection and the rewriting of runs do to the bytes of a fragment
      what they should do to the boxes, and to nothing else.
    - Round trips and equivalences: ranges, names, HTML, headers, playlists, percent encoding, codecs, sample
      tables, licences, tickets, logins, captions (of at most 1024 code units); an archive is whole exactly when its parts are numbered one to n.
    - Where the code falls short of what it means to do, a theorem says so. Jobs: [inflight_dedup_race],
      [duplicate_wakeup_lost] (StartTask.v), [unreported_track_blocks_rest],
      [failed_delivery_loses_other_track] (DeliverySeq.v), [plain_caption_never_tried],
      [failed_copy_requeues_batch] (UploadLane.v, JobRun.v), [transient_failure_drops_row] (CachedLane.v),
      [wakeup_lost] (UploadWait.v), [conflict_delivers_twice], [partial_atmos_recorded] (FinalizeFacts.v),
      [plan_part_exceeds_limit], [planned_parts_pass_builder] (ZipPlan.v), [name_serde_roundtrip]
      (Filename.v), [jitter_multiplier_reaches_upper_bound] (Retry.v). Streams:
      [empty_file_announces_one_byte] (StreamEngine.v), [cancelled_lookup_opens_circuit],
      [probing_keeps_circuit_open] (MirrorPolicy.v), [resolution_preference_ignored],
      [bit_depth_not_ranked], [odd_group_fails_playlist], [range_without_offset_restarts]
      (PlaylistFacts.v), [wrapping_range_panics], [cenc_reads_first_file] (WrapperEngine.v),
      [key_rejection_not_recognised] (WrapperClient.v). Media: [find_child_box_spins], [senc_ambiguous],
      [strip_corrupts_run_without_offset], [normalize_forgets_durations], [derived_sizes_lost],
      [stamp_truncates_long_duration], [stamp_ignores_movie_timescale], [clear_segment_keeps_key],
      [groups_next_to_protected_entry]. Server: [ghost_active_device] (PlaybackSync.v),
      [code_exchanged_twice], [untrimmed_logout_keeps_cache], [revoked_while_verifying] (Auth.v),
      [cancelled_before_created_runs_on], [create_joins_failed_task] (ServerTasks.v),
      [title_with_by_misread] (BotText.v), [synced_archive_deleted], [older_copy_wins] (IndexSync.v),
      [zip_lands_anywhere] (TelegramSink.v).

    ** Fuel

    Every fuelled loop has a theorem that enough fuel gives a result, or is given a bound that its
    argument cannot exceed: [create_stream_pipe] one turn per chunk and one more
    ([pipe_terminates_bounded]); the fetch loop the attempts and the time left
    ([fetch_chunk_terminates]); the storage loop the policy's attempts ([storage_retry_correct]); the copy
    loop the length of the file ([copy_chunks_complete]); walks over boxes the length of the buffer and one
    more, since a box has at least eight bytes; the reservation of a directory the number of files and two
    more; a rip its retries and one more ([rip_correct]); the acquisition its rounds; a protobuf number ten
    bytes and a message one field per byte; the key template three attempts; the undoing of entities one
    character a turn; the shortening of a caption the length of its strings and one more
    ([caption_within_limit]); the scan of the dump chat a turn for every message ([index_matches_chat]).

    ** Not modelled

    - The catalogue of Apple (apple/src/catalog, parser.rs, playlist.rs): requests and JSON decoding, which
      are parameters of JobResolve.v, and regular expressions of a third-party crate.
    - Decoding, remuxing and tagging of media files (media/src/remux.rs, tags.rs): calls of FFmpeg and a tag
      library; they are parameters of Ripper.v.
    - The repositories of playlists, settings, statistics and worker sessions and the backup of the tables
      (crates/db): SQL, met through its answers. Playlist sharing, the Last.fm integration, health and probe endpoints of the server.
    - The bot's messages, album details, dashboards and reports, and the display of progress: text for people.
    - Memory exhaustion, and the arithmetic of counters far from their bounds where no width is written. *)
From Stdlib Require Export ZArith Lia.
From stdpp Require Export base numbers gmap strings option.
From stdpp Require Export list_basics list_relations list_monad list_misc list_tactics list_numbers list.

Declare Scope rust_scope.
Delimit Scope rust_scope with rust.

#[global] Open Scope Z_scope.

(** ** Fallible results *)

(** Rust's [Result<A, E>], with the error first so that [result E] is a monad. *)
Inductive result (E A : Type) : Type :=
| Ok (a : A)
| Err (e : E).
Arguments Ok {E A} a.
Arguments Err {E A} e.

#[global] Instance result_ret {E} : MRet (result E) := fun A a => Ok a.

#[global] Instance result_bind {E} : MBind (result E) :=
  fun A B f m => match m with Ok a => f a | Err e => Err e end.

#[global] Instance result_fmap {E} : FMap (result E) :=
  fun A B f m => match m with Ok a => Ok (f a) | Err e => Err e end.

(** [Result::ok], [Result::is_ok], [Option::ok_or] and [Result::map_err]. *)
Definition ok {E A} (r : result E A) : option A :=
  match r with Ok a => Some a | Err _ => None end.

Definition is_ok {E A} (r : result E A) : bool :=
  match r with Ok _ => true | Err _ => false end.

Definition ok_or {E A} (o : option A) (e : E) : result E A :=
  match o with Some a => Ok a | None => Err e end.

Definition map_err {E F A} (f : E -> F) (r : result E A) : result F A :=
  match r with Ok a => Ok a | Err e => Err (f e) end.

#[global] Instance result_eq_dec {E A} `{EqDecision E} `{EqDecision A} : EqDecision (result E A).
Proof. solve_decision. Defined.

(** ** Machine integers *)

(** A [w]-bit unsigned integer is a [Z] in [[0, 2^w)]; the operations below write the
    standard library's overflow behaviour out. [usize] is 64 bits wide. *)
Definition umax (w : Z) : Z := 2 ^ w - 1.
Abbreviation u64_max := (umax 64).
Abbreviation usize_max := (umax 64).
Abbreviation u32_max := (umax 32).
Abbreviation i64_max := (2 ^ 63 - 1).

Definition in_u (w x : Z) : Prop := 0 <= x < 2 ^ w.

Definition saturating_sub (a b : Z) : Z := Z.max 0 (a - b).
Definition saturating_add (w a b : Z) : Z := Z.min (umax w) (a + b).
Definition saturating_mul (w a b : Z) : Z := Z.min (umax w) (a * b).
Definition checked_add (w a b : Z) : option Z :=
  if a + b <=? umax w then Some (a + b) else None.
Definition checked_mul (w a b : Z) : option Z :=
  if a * b <=? umax w then Some (a * b) else None.

(** [fetch_add], [as uN] and release-mode [+] wrap around. *)
Definition wrap (w x : Z) : Z := x mod 2 ^ w.

(** The two's complement reinterpretation [as iN]. *)
Definition swrap (w x : Z) : Z := (x + 2 ^ (w - 1)) mod 2 ^ w - 2 ^ (w - 1).

Notation "a ⊖ b" := (saturating_sub a b) (at level 50, left associativity) : rust_scope.

Lemma saturating_sub_nonneg a b : 0 <= saturating_sub a b.
Proof. unfold saturating_sub; lia. Qed.

Lemma saturating_sub_le a b : 0 <= a -> 0 <= b -> saturating_sub a b <= a.
Proof. unfold saturating_sub; lia. Qed.

Lemma saturating_sub_exact a b : b <= a -> saturating_sub a b = a - b.
Proof. unfold saturating_sub; lia. Qed.

Lemma wrap_small w x : in_u w x -> wrap w x = x.
Proof. intros H. unfold wrap. apply Z.mod_small, H. Qed.

Lemma swrap_small w x : 0 < w -> - 2 ^ (w - 1) <= x < 2 ^ (w - 1) -> swrap w x = x.
Proof.
  intros Hw H. unfold swrap. assert (2 ^ w = 2 * 2 ^ (w - 1)) by (rewrite <-Z.pow_succ_r by lia; f_equal; lia).
  rewrite Z.mod_small; lia.
Qed.
Lemma wrap_range w x : 0 <= w -> in_u w (wrap w x).
Proof. intros. apply Z.mod_pos_bound. lia. Qed.

Lemma checked_add_Some w a b c :
  checked_add w a b = Some c <-> c = a + b /\ a + b <= umax w.
Proof. unfold checked_add. destruct (Z.leb_spec (a + b) (umax w)); split; intros Hx; [|destruct Hx| |destruct Hx]; simplify_eq; auto; lia. Qed.

Lemma checked_mul_Some w a b c :
  checked_mul w a b = Some c <-> c = a * b /\ a * b <= umax w.
Proof. unfold checked_mul. destruct (Z.leb_spec (a * b) (umax w)); split; intros Hx; [|destruct Hx| |destruct Hx]; simplify_eq; auto; lia. Qed.

Lemma umax_64 : umax 64 = 18446744073709551615.
Proof. reflexivity. Qed.

Lemma umax_32 : umax 32 = 4294967295.
Proof. reflexivity. Qed.

(** ** Tactics *)

(** Reads boolean comparisons as propositions, then closes linear goals. *)
Ltac to_prop :=
  repeat match goal with
  | H : (_ <=? _) = true |- _ => apply Z.leb_le in H
  | H : (_ <=? _) = false |- _ => apply Z.leb_gt in H
  | H : (_ <? _) = true |- _ => apply Z.ltb_lt in H
  | H : (_ <? _) = false |- _ => apply Z.ltb_ge in H
  | H : (_ =? _) = true |- _ => apply Z.eqb_eq in H
  | H : (_ =? _) = false |- _ => apply Z.eqb_neq in H
  | H : negb _ = true |- _ => apply negb_true_iff in H
  | H : negb _ = false |- _ => apply negb_false_iff in H
  | H : (_ && _)%bool = true |- _ => apply andb_true_iff in H as [? ?]
  | H : (_ && _)%bool = false |- _ => apply andb_false_iff in H as [?|?]
  | H : (_ || _)%bool = true |- _ => apply orb_true_iff in H as [?|?]
  | H : (_ || _)%bool = false |- _ => apply orb_false_iff in H as [? ?]
  end.

Ltac zb := to_prop; unfold saturating_sub, in_u in *; try lia.

(** Splits every [match] of the goal, keeping the equations. *)
Ltac split_match := repeat case_match; simplify_eq/=.

Create HintDb peerless.
Create Rewrite HintDb peerless_rw.
#[export] Hint Resolve saturating_sub_nonneg saturating_sub_le : peerless.
#[export] Hint Rewrite @length_app @length_map @length_rev @length_cons : peerless_rw.

(** ** Step relations *)

(** Reflexive transitive closure, used for the interleaved components. *)
Inductive steps {S : Type} (R : S -> S -> Prop) : S -> S -> Prop :=
| steps_refl s : steps R s s
| steps_cons s1 s2 s3 : R s1 s2 -> steps R s2 s3 -> steps R s1 s3.
#[export] Hint Constructors steps : peerless.

Lemma steps_invariant {S} (R : S -> S -> Prop) (I : S -> Prop) :
  (forall s s', I s -> R s s' -> I s') ->
  forall s s', steps R s s' -> I s -> I s'.
Proof. intros Hstep s s' Hs. induction Hs; eauto. Qed.

Lemma steps_trans {S} (R : S -> S -> Prop) s1 s2 s3 :
  steps R s1 s2 -> steps R s2 s3 -> steps R s1 s3.
Proof. induction 1; eauto with peerless. Qed.

(** ** Lists *)

(** [Iterator::find_map]: the first [Some] the function returns. *)
Fixpoint find_map {A B} (f : A -> option B) (l : list A) : option B :=
  match l with
  | [] => None
  | a :: l' => match f a with Some b => Some b | None => find_map f l' end
  end.

Lemma find_map_Some {A B} (f : A -> option B) (l : list A) b :
  find_map f l = Some b ->
  exists l1 a l2, l = l1 ++ a :: l2 /\ f a = Some b /\ Forall (fun x => f x = None) l1.
Proof.
  induction l as [|x l IH]; simpl; [done|]. destruct (f x) eqn:E; intros H.
  - simplify_eq. exists [], x, l. eauto.
  - destruct (IH H) as (l1 & a & l2 & -> & Ha & HF).
    exists (x :: l1), a, l2. split_and!; auto.
Qed.

Lemma find_map_None {A B} (f : A -> option B) (l : list A) :
  find_map f l = None <-> Forall (fun x => f x = None) l.
Proof.
  induction l as [|x l IH]; simpl; [split; auto|].
  rewrite Forall_cons. destruct (f x); naive_solver.
Qed.

(** Sum of a list of sizes. *)
Definition sumZ (l : list Z) : Z := foldr Z.add 0 l.

Lemma sumZ_app l1 l2 : sumZ (l1 ++ l2) = sumZ l1 + sumZ l2.
Proof. induction l1; simpl; [done|]. unfold sumZ in *. simpl. lia. Qed.

Lemma sumZ_nonneg l : Forall (fun x => 0 <= x) l -> 0 <= sumZ l.
Proof. induction 1; simpl; unfold sumZ in *; simpl; lia. Qed.
#[export] Hint Rewrite sumZ_app : peerless_rw.

#[export] Instance sumZ_proper : Proper ((≡ₚ) ==> (=)) sumZ.
Proof. induction 1; unfold sumZ in *; cbn [foldr]; lia. Qed.

(** Indexing by a [usize]: [slice::get] and the write through [get_mut].  The index stays a [Z], so
    the sentinel [usize::MAX] the worker pool uses can be evaluated. *)
Fixpoint get {A} (l : list A) (i : Z) : option A :=
  match l with
  | [] => None
  | x :: l' => if i =? 0 then Some x else get l' (i - 1)
  end.

Fixpoint set_at {A} (l : list A) (i : Z) (a : A) : list A :=
  match l with
  | [] => []
  | x :: l' => if i =? 0 then a :: l' else x :: set_at l' (i - 1) a
  end.

Lemma get_lookup {A} (l : list A) i : 0 <= i -> get l i = l !! Z.to_nat i.
Proof.
  revert i. induction l as [|x l IH]; intros i Hi; simpl; [done|].
  destruct (Z.eqb_spec i 0) as [->|Hn]; [done|].
  rewrite IH by lia. replace (Z.to_nat i) with (S (Z.to_nat (i - 1))) by lia. done.
Qed.

Lemma get_range {A} (l : list A) i a : get l i = Some a -> 0 <= i < Z.of_nat (length l).
Proof.
  revert i. induction l as [|x l IH]; intros i; simpl; [done|].
  destruct (Z.eqb_spec i 0) as [->|Hn]; [lia|]. intros H%IH. lia.
Qed.

Lemma get_Some_iff {A} (l : list A) i : is_Some (get l i) <-> 0 <= i < Z.of_nat (length l).
Proof.
  split; [intros [a H]; by eapply get_range|]. intros [H0 H1].
  rewrite get_lookup by done. apply lookup_lt_is_Some. lia.
Qed.

Lemma set_at_length {A} (l : list A) i a : length (set_at l i a) = length l.
Proof. revert i. induction l as [|x l IH]; intros i; simpl; [done|]. case_match; simpl; [done|by rewrite IH]. Qed.

Lemma get_set_at_eq {A} (l : list A) i a : is_Some (get l i) -> get (set_at l i a) i = Some a.
Proof.
  revert i. induction l as [|x l IH]; intros i; simpl; [by intros []|].
  destruct (i =? 0) eqn:E; simpl; rewrite E; auto.
Qed.

Lemma get_set_at_ne {A} (l : list A) i j a : i <> j -> get (set_at l i a) j = get l j.
Proof.
  revert i j. induction l as [|x l IH]; intros i j Hij; simpl; [done|].
  destruct (Z.eqb_spec i 0) as [->|Hi]; simpl; destruct (Z.eqb_spec j 0) as [->|Hj];
    try done; try lia. apply IH. lia.
Qed.

Lemma set_at_none {A} (l : list A) i a : get l i = None -> set_at l i a = l.
Proof.
  revert i. induction l as [|x l IH]; intros i; simpl; [done|].
  destruct (i =? 0); [done|]. intros H. by rewrite IH.
Qed.
#[export] Hint Rewrite @set_at_length : peerless_rw.

(** The first best element: the scan that keeps the incumbent on ties, which the worker selection
    and the queue's dequeue share. *)
Section Best.
Context {A : Type} (admits : A -> bool) (key : A -> Z).

Definition best_step (acc : option A) (a : A) : option A :=
  if admits a then
    match acc with
    | Some b => if key a <? key b then Some a else acc
    | None => Some a
    end
  else acc.

Definition is_first_best (l : list A) (b : A) : Prop :=
  exists l1 l2, l = l1 ++ b :: l2 /\ admits b = true /\
    (forall x, x ∈ l1 -> admits x = true -> key b < key x) /\
    (forall x, x ∈ l2 -> admits x = true -> key b <= key x).

Lemma best_spec l :
  match foldl best_step None l with
  | Some b => is_first_best l b
  | None => Forall (fun x => admits x = false) l
  end.
Proof.
  induction l as [|a l IH] using rev_ind; simpl; [constructor|].
  rewrite foldl_app. simpl. unfold best_step at 1. destruct (admits a) eqn:Ha.
  - destruct (foldl best_step None l) as [b|].
    + destruct IH as (l1 & l2 & -> & Hb & H1 & H2). destruct (Z.ltb_spec (key a) (key b)) as [Hlt|Hge].
      * exists (l1 ++ b :: l2), []. split_and!; [done|done| |intros x Hx; by apply not_elem_of_nil in Hx].
        intros x [Hx|[->|Hx]%elem_of_cons]%elem_of_app Hp; [specialize (H1 x Hx Hp)| |specialize (H2 x Hx Hp)]; lia.
      * exists l1, (l2 ++ [a]). split_and!; [by rewrite <-app_assoc|done|done|].
        intros x [Hx| ->%list_elem_of_singleton]%elem_of_app Hp; [by apply H2|lia].
    + exists l, []. split_and!; [done|done| |intros x Hx; by apply not_elem_of_nil in Hx].
      intros x Hx Hp. rewrite Forall_forall in IH. by rewrite IH in Hp.
  - destruct (foldl best_step None l) as [b|].
    + destruct IH as (l1 & l2 & -> & Hb & H1 & H2). exists l1, (l2 ++ [a]).
      split_and!; [by rewrite <-app_assoc|done|done|].
      intros x [Hx| ->%list_elem_of_singleton]%elem_of_app Hp; [by apply H2|congruence].
    + apply Forall_app; split; [done|by constructor].
Qed.

Lemma first_best_le l b x : is_first_best l b -> x ∈ l -> admits x = true -> key b <= key x.
Proof.
  intros (l1 & l2 & -> & _ & H1 & H2) [Hx|[->|Hx]%elem_of_cons]%elem_of_app Hp;
    [specialize (H1 x Hx Hp); lia|lia|by apply H2].
Qed.

Lemma first_best_elem l b : is_first_best l b -> b ∈ l /\ admits b = true.
Proof. intros (l1 & l2 & -> & Hb & _). split; [set_solver|done]. Qed.
End Best.

Lemma list_filter_iff_in {A} (P Q : A -> Prop) `{forall x, Decision (P x)} `{forall x, Decision (Q x)}
    (l : list A) :
  (forall x, x ∈ l -> P x <-> Q x) -> filter P l = filter Q l.
Proof.
  induction l as [|a l IH]; intros Hl; [done|]. rewrite !filter_cons, IH by (intros; apply Hl; by right).
  specialize (Hl a ltac:(left)). repeat case_decide; tauto.
Qed.
