(* ===== verification/Text.v ===== *)
(** * Text: the part of Rust's [str] and integer formatting the server uses

    A [str] is the list of its Unicode scalar values; byte lengths and byte offsets are those of
    the UTF-8 encoding.  The file models the standard library only, so it carries no claims of its
    own: the components state theirs with these operations. *)
From S2P Require Import Prelude.

(** A Rust [char] is its scalar value, a [String] or [&str] the list of its chars. *)
Abbreviation rchar := Z.
Abbreviation str := (list Z).

(** String literals, which are ASCII in the sources the development models. *)
Definition lit (s : string) : str :=
  (fun a => Z.of_N (Ascii.N_of_ascii a)) <$> String.list_ascii_of_string s.

(** [char::len_utf8] and [str::len]. *)
Definition len_utf8 (c : rchar) : Z :=
  if c <? 128 then 1 else if c <? 2048 then 2 else if c <? 65536 then 3 else 4.

Definition byte_len (s : str) : Z := sumZ (len_utf8 <$> s).

(** [char::len_utf16]. *)
Definition len_utf16 (c : rchar) : Z := if c <? 65536 then 1 else 2.

Definition utf16_len (s : str) : Z := sumZ (len_utf16 <$> s).

(** [char::is_whitespace] (the Unicode property White_Space) and [char::is_control] (Cc). *)
Definition is_whitespace (c : rchar) : bool :=
  ((9 <=? c) && (c <=? 13)) || (c =? 32) || (c =? 133) || (c =? 160) || (c =? 5760) ||
  ((8192 <=? c) && (c <=? 8202)) || (c =? 8232) || (c =? 8233) || (c =? 8239) ||
  (c =? 8287) || (c =? 12288).

Definition is_control (c : rchar) : bool :=
  ((0 <=? c) && (c <=? 31)) || ((127 <=? c) && (c <=? 159)).

Definition is_ascii_digit (c : rchar) : bool := (48 <=? c) && (c <=? 57).
Definition is_ascii_upper (c : rchar) : bool := (65 <=? c) && (c <=? 90).
Definition is_ascii_lower (c : rchar) : bool := (97 <=? c) && (c <=? 122).

Definition to_ascii_lowercase (s : str) : str :=
  (fun c => if is_ascii_upper c then c + 32 else c) <$> s.

(** [trim_start_matches], [trim_end_matches] and [trim]. *)
Fixpoint trim_start_by (p : rchar -> bool) (s : str) : str :=
  match s with
  | [] => []
  | c :: s' => if p c then trim_start_by p s' else s
  end.

Definition trim_end_by (p : rchar -> bool) (s : str) : str :=
  reverse (trim_start_by p (reverse s)).

Definition trim (s : str) : str := trim_end_by is_whitespace (trim_start_by is_whitespace s).

(** [starts_with] / [strip_prefix] and [ends_with] / [strip_suffix]. *)
Fixpoint strip_prefix (p s : str) : option str :=
  match p, s with
  | [], _ => Some s
  | a :: p', b :: s' => if a =? b then strip_prefix p' s' else None
  | _ :: _, [] => None
  end.

Definition strip_suffix (p s : str) : option str :=
  reverse <$> strip_prefix (reverse p) (reverse s).

Definition ends_with (p s : str) : bool :=
  match strip_suffix p s with Some _ => true | None => false end.

(** [contains]. *)
Fixpoint contains (p s : str) : bool :=
  match strip_prefix p s, s with
  | Some _, _ => true
  | None, [] => false
  | None, _ :: s' => contains p s'
  end.

(** [s.split(c)] collected. *)
Fixpoint split_on (c : rchar) (s : str) : list str :=
  match s with
  | [] => [[]]
  | x :: s' =>
      if x =? c then [] :: split_on c s'
      else match split_on c s' with
           | [] => [[x]]
           | w :: ws => (x :: w) :: ws
           end
  end.

(** [str::parse] at an unsigned width: an optional [+], at least one digit, no overflow. *)
Fixpoint parse_digits (w acc : Z) (s : str) : option Z :=
  match s with
  | [] => Some acc
  | c :: s' =>
      if is_ascii_digit c then
        match checked_mul w acc 10 with
        | Some m =>
            match checked_add w m (c - 48) with
            | Some a => parse_digits w a s'
            | None => None
            end
        | None => None
        end
      else None
  end.

Definition parse_u (w : Z) (s : str) : option Z :=
  match s with
  | [] => None
  | [43] => None
  | 43 :: s' => parse_digits w 0 s'
  | _ => parse_digits w 0 s
  end.

(** [format!("{n}")] of a non-negative integer: [fuel] digits are written at most. *)
Fixpoint show_digits (fuel : nat) (n : Z) (acc : str) : str :=
  match fuel with
  | O => acc
  | S f =>
      let acc' := (48 + n mod 10) :: acc in
      if n <? 10 then acc' else show_digits f (n / 10) acc'
  end.

(** Twenty digits are enough for every [u64]. *)
Definition show_u (n : Z) : str := show_digits 20 n [].

Definition show_i (n : Z) : str := if n <? 0 then 45 :: show_u (- n) else show_u n.

(** The UTF-8 bytes of a text ([str::bytes]); [scalar] is what a Rust [char] can hold. *)
Definition scalar (c : rchar) : Prop := 0 <= c < 1114112.

Definition encode_utf8 (c : rchar) : list Z :=
  if c <? 128 then [c]
  else if c <? 2048 then [192 + c / 64; 128 + c mod 64]
  else if c <? 65536 then [224 + c / 4096; 128 + c / 64 mod 64; 128 + c mod 64]
  else [240 + c / 262144; 128 + c / 4096 mod 64; 128 + c / 64 mod 64; 128 + c mod 64].

Definition as_bytes (s : str) : list Z := concat (encode_utf8 <$> s).

(** ** Byte lengths *)

Lemma len_utf8_pos c : 1 <= len_utf8 c <= 4.
Proof. unfold len_utf8. repeat case_match; lia. Qed.

Lemma len_utf16_pos c : 1 <= len_utf16 c <= 2.
Proof. unfold len_utf16. case_match; lia. Qed.

Lemma byte_len_nil : byte_len [] = 0.
Proof. done. Qed.

Lemma byte_len_cons c s : byte_len (c :: s) = len_utf8 c + byte_len s.
Proof. done. Qed.

Lemma byte_len_app s1 s2 : byte_len (s1 ++ s2) = byte_len s1 + byte_len s2.
Proof. unfold byte_len. by rewrite fmap_app, sumZ_app. Qed.
#[export] Hint Rewrite byte_len_nil byte_len_cons byte_len_app : peerless_rw.

Lemma byte_len_nonneg s : 0 <= byte_len s.
Proof. induction s as [|c s IH]; autorewrite with peerless_rw; [lia|]. pose proof (len_utf8_pos c). lia. Qed.
#[export] Hint Resolve byte_len_nonneg : peerless.

Lemma byte_len_zero s : byte_len s = 0 <-> s = [].
Proof.
  destruct s as [|c s]; autorewrite with peerless_rw; [done|].
  pose proof (len_utf8_pos c). pose proof (byte_len_nonneg s). split; [lia|done].
Qed.

Lemma encode_utf8_length c : Z.of_nat (length (encode_utf8 c)) = len_utf8 c.
Proof. unfold encode_utf8, len_utf8. by repeat case_match. Qed.

Lemma encode_utf8_byte c : scalar c -> Forall (fun b => 0 <= b < 256) (encode_utf8 c).
Proof.
  unfold scalar, encode_utf8. intros H. repeat case_match; to_prop;
    repeat (apply Forall_cons; split); try apply Forall_nil; try done; try lia;
    Z.to_euclidean_division_equations; lia.
Qed.

Lemma as_bytes_byte s : Forall scalar s -> Forall (fun b => 0 <= b < 256) (as_bytes s).
Proof.
  unfold as_bytes. induction 1 as [|c s Hc _ IH]; csimpl; [done|].
  apply Forall_app. split; [by apply encode_utf8_byte|done].
Qed.

(** UTF-8 is a prefix code: the first byte tells the length, the others the char. *)
Lemma encode_utf8_inj a b r1 r2 :
  scalar a -> scalar b -> encode_utf8 a ++ r1 = encode_utf8 b ++ r2 -> a = b /\ r1 = r2.
Proof.
  unfold scalar, encode_utf8. intros Ha Hb.
  repeat case_match; to_prop; simpl; intros [=]; subst; (split; [|done || exfalso]);
    Z.to_euclidean_division_equations; lia.
Qed.

Lemma as_bytes_inj s1 s2 :
  Forall scalar s1 -> Forall scalar s2 -> as_bytes s1 = as_bytes s2 -> s1 = s2.
Proof.
  assert (Hne : forall c, encode_utf8 c <> []) by (intros c; unfold encode_utf8; by repeat case_match).
  unfold as_bytes. intros H. revert s2.
  induction H as [|a s1 Ha _ IH]; intros s2 H2; destruct H2 as [|b s2 Hb H2]; csimpl; intros E.
  - done.
  - symmetry in E. apply app_eq_nil in E as [E _]. by apply Hne in E.
  - apply app_eq_nil in E as [E _]. by apply Hne in E.
  - apply encode_utf8_inj in E as [-> E]; [|done..]. f_equal. by apply IH.
Qed.

Lemma utf16_len_cons c s : utf16_len (c :: s) = len_utf16 c + utf16_len s.
Proof. done. Qed.

Lemma utf16_len_app s1 s2 : utf16_len (s1 ++ s2) = utf16_len s1 + utf16_len s2.
Proof. unfold utf16_len. by rewrite fmap_app, sumZ_app. Qed.

Lemma utf16_len_nonneg s : 0 <= utf16_len s.
Proof. induction s as [|c s IH]; [done|]. rewrite utf16_len_cons. pose proof (len_utf16_pos c). lia. Qed.
#[export] Hint Rewrite utf16_len_cons utf16_len_app : peerless_rw.
#[export] Hint Resolve utf16_len_nonneg : peerless.

(** ** Prefixes, suffixes and trimming *)

Lemma strip_prefix_Some p s r : strip_prefix p s = Some r <-> s = p ++ r.
Proof.
  revert s. induction p as [|a p IH]; intros [|b s]; simpl; [naive_solver..|].
  destruct (Z.eqb_spec a b) as [->|Hn]; [rewrite IH; naive_solver|naive_solver].
Qed.

Lemma contains_spec p s : contains p s = true <-> exists a b, s = a ++ p ++ b.
Proof.
  induction s as [|c s IH]; cbn [contains]; destruct (strip_prefix p _) as [r|] eqn:E.
  - apply strip_prefix_Some in E. split; [|done]. intros _. by exists [], r.
  - split; [done|]. intros (a & b & Hs). symmetry in Hs. apply app_nil in Hs as [-> Hs]. apply app_nil in Hs as [-> ->]. done.
  - apply strip_prefix_Some in E. split; [|done]. intros _. by exists [], r.
  - rewrite IH. split.
    + intros (a & b & ->). by exists (c :: a), b.
    + intros ([|x a] & b & Hs); cbn in Hs.
      * rewrite Hs in E. by rewrite (proj2 (strip_prefix_Some p _ b) eq_refl) in E.
      * injection Hs as -> ->. by exists a, b.
Qed.

Lemma strip_suffix_Some p s r : strip_suffix p s = Some r <-> s = r ++ p.
Proof.
  unfold strip_suffix. rewrite fmap_Some. split.
  - intros (q & Hq & ->). apply strip_prefix_Some in Hq.
    rewrite <-(reverse_involutive s), Hq, reverse_app, reverse_involutive. done.
  - intros ->. exists (reverse r). rewrite reverse_involutive. split; [|done].
    apply strip_prefix_Some. by rewrite reverse_app.
Qed.

Lemma ends_with_spec p s : ends_with p s = true <-> exists r, s = r ++ p.
Proof.
  unfold ends_with. destruct (strip_suffix p s) as [r|] eqn:E.
  - apply strip_suffix_Some in E. naive_solver.
  - split; [done|]. intros [r Hr]. by apply strip_suffix_Some in Hr; simplify_eq.
Qed.

Lemma trim_start_by_suffix p s : exists l, s = l ++ trim_start_by p s /\ Forall (fun c => p c = true) l.
Proof.
  induction s as [|c s (l & Hs & Hl)]; simpl; [by exists []|].
  destruct (p c) eqn:E; [|by exists []].
  exists (c :: l). simpl. split; [by f_equal|by constructor].
Qed.

Lemma trim_start_by_id p c s : p c = false -> trim_start_by p (c :: s) = c :: s.
Proof. intros H. simpl. by rewrite H. Qed.

Lemma trim_end_by_id p s c : p c = false -> trim_end_by p (s ++ [c]) = s ++ [c].
Proof.
  intros H. unfold trim_end_by. rewrite reverse_snoc, trim_start_by_id by done.
  by rewrite reverse_cons, reverse_involutive.
Qed.

Lemma trim_end_by_prefix p s : exists l, s = trim_end_by p s ++ l.
Proof.
  destruct (trim_start_by_suffix p (reverse s)) as (l & Hs & _). exists (reverse l).
  unfold trim_end_by. by rewrite <-reverse_app, <-Hs, reverse_involutive.
Qed.

Lemma trim_sublist s : exists l1 l2, s = l1 ++ trim s ++ l2.
Proof.
  unfold trim. destruct (trim_start_by_suffix is_whitespace s) as (l1 & Hs & _).
  destruct (trim_end_by_prefix is_whitespace (trim_start_by is_whitespace s)) as (l2 & H2).
  exists l1, l2. by rewrite <-H2.
Qed.

Lemma trim_Forall P s : Forall P s -> Forall P (trim s).
Proof. destruct (trim_sublist s) as (l1 & l2 & Hs). rewrite Hs at 1. rewrite !Forall_app. naive_solver. Qed.

Lemma trim_byte_len s : byte_len (trim s) <= byte_len s.
Proof.
  destruct (trim_sublist s) as (l1 & l2 & Hs). rewrite Hs at 2. autorewrite with peerless_rw.
  pose proof (byte_len_nonneg l1). pose proof (byte_len_nonneg l2). lia.
Qed.
#[export] Hint Resolve trim_Forall trim_byte_len : peerless.

(** A text whose first and last chars are not white space is its own [trim]. *)
Lemma trim_id a s b :
  is_whitespace a = false -> is_whitespace b = false -> trim (a :: s ++ [b]) = a :: s ++ [b].
Proof.
  intros Ha Hb. unfold trim. rewrite trim_start_by_id by done.
  change (a :: s ++ [b]) with ((a :: s) ++ [b]). by apply trim_end_by_id.
Qed.

Lemma trim_no_ws s : Forall (fun c => is_whitespace c = false) s -> trim s = s.
Proof.
  intros H. destruct s as [|a s]; [done|]. destruct s as [|b s] using rev_ind.
  - apply Forall_inv in H. unfold trim. rewrite trim_start_by_id by done.
    by apply (trim_end_by_id _ []).
  - apply trim_id; [by inversion H|]. inversion H as [|? ? ? Hs]; subst.
    apply Forall_app in Hs as [_ Hb]. by inversion Hb.
Qed.
#[export] Hint Resolve trim_no_ws : peerless.

(** ** Splitting *)

Lemma split_on_none c s : Forall (fun x => x <> c) s -> split_on c s = [s].
Proof.
  induction 1 as [|x s Hx _ IH]; simpl; [done|]. rewrite IH.
  by rewrite (proj2 (Z.eqb_neq x c) Hx).
Qed.

Lemma split_on_app c s1 s2 :
  Forall (fun x => x <> c) s1 -> split_on c (s1 ++ c :: s2) = s1 :: split_on c s2.
Proof.
  induction 1 as [|x s Hx _ IH]; simpl; [by rewrite Z.eqb_refl|]. rewrite IH.
  by rewrite (proj2 (Z.eqb_neq x c) Hx).
Qed.

(** ** Decimal numerals *)

Lemma parse_digits_range w s acc n :
  in_u w acc -> parse_digits w acc s = Some n -> acc <= n /\ in_u w n.
Proof.
  revert acc. induction s as [|c s IH]; simpl; intros acc Ha H; [simplify_eq; split; [lia|done]|].
  destruct (is_ascii_digit c) eqn:Hd; [|done].
  destruct (checked_mul w acc 10) as [m|] eqn:Hm; [|done].
  destruct (checked_add w m (c - 48)) as [a|] eqn:Hc; [|done].
  apply checked_mul_Some in Hm as [-> Hm]. apply checked_add_Some in Hc as [-> Hc].
  unfold is_ascii_digit in Hd. unfold in_u, umax in *. to_prop.
  destruct (IH (acc * 10 + (c - 48))) as [? ?]; [lia|done|]. lia.
Qed.

Lemma parse_u_range w s n : 0 <= w -> parse_u w s = Some n -> in_u w n.
Proof.
  intros Hw H. assert (H0 : in_u w 0) by (unfold in_u; lia).
  unfold parse_u in H. repeat case_match; simplify_eq; try by eapply parse_digits_range.
Qed.

(** Parsing the digits of [n] leaves [n] in the accumulator. *)
Lemma parse_show_digits w f n tail :
  0 <= n < 10 ^ Z.of_nat f -> (0 < f)%nat -> n <= umax w ->
  parse_digits w 0 (show_digits f n tail) = parse_digits w n tail.
Proof.
  intros Hn Hf Hw. revert n tail Hn Hw. induction f as [|f IH]; intros n tail Hn Hw; [lia|].
  cbn [show_digits].
  assert (Hd : 0 <= n mod 10 < 10) by (apply Z.mod_pos_bound; lia).
  pose proof (Z.div_mod n 10 ltac:(lia)) as Hdm.
  assert (Hstep : forall a, 0 <= a -> a * 10 + n mod 10 = n ->
    parse_digits w a ((48 + n mod 10) :: tail) = parse_digits w n tail).
  { intros a Ha Hsum. cbn [parse_digits]. unfold is_ascii_digit.
    rewrite !(proj2 (Z.leb_le _ _)) by lia. cbn [andb].
    unfold checked_mul. rewrite (proj2 (Z.leb_le _ _)) by lia.
    unfold checked_add. rewrite (proj2 (Z.leb_le _ _)) by lia.
    f_equal. lia. }
  destruct (Z.ltb_spec n 10) as [Hlt|Hge].
  - apply Hstep; [lia|]. rewrite Z.mod_small by lia. lia.
  - destruct f as [|f]; [simpl in Hn; lia|].
    rewrite IH; [apply Hstep; lia|lia| |lia].
    rewrite Nat2Z.inj_succ, Z.pow_succ_r in Hn by lia.
    split; [apply Z.div_pos; lia|apply Z.div_lt_upper_bound; lia].
Qed.

Lemma show_digits_digits f n acc :
  0 <= n -> Forall (fun c => is_ascii_digit c = true) acc ->
  Forall (fun c => is_ascii_digit c = true) (show_digits f n acc).
Proof.
  revert n acc. induction f as [|f IH]; intros n acc Hn Hacc; [done|]. cbn [show_digits].
  assert (Hd : 0 <= n mod 10 < 10) by (apply Z.mod_pos_bound; lia).
  assert (Hc : Forall (fun c => is_ascii_digit c = true) ((48 + n mod 10) :: acc)).
  { constructor; [|done]. unfold is_ascii_digit. rewrite !(proj2 (Z.leb_le _ _)) by lia. done. }
  destruct (n <? 10); [done|]. apply IH; [apply Z.div_pos; lia|done].
Qed.

Lemma show_digits_ne f n acc : (0 < f)%nat -> show_digits f n acc <> [].
Proof.
  intros Hf. destruct f as [|f]; [lia|]. clear Hf. revert n acc.
  induction f as [|f IH]; intros n acc; cbn [show_digits]; case_match; try done. apply IH.
Qed.

Lemma show_u_digits n : 0 <= n -> Forall (fun c => is_ascii_digit c = true) (show_u n).
Proof. intros. by apply show_digits_digits. Qed.

Lemma show_i_chars n : Forall (fun c => c = 45 \/ is_ascii_digit c = true) (show_i n).
Proof.
  unfold show_i. destruct (Z.ltb_spec n 0); [apply Forall_cons; split; [by left|]|];
    (eapply Forall_impl; [apply show_u_digits; lia|by right]).
Qed.

Lemma show_u_ne n : show_u n <> [].
Proof. apply show_digits_ne. lia. Qed.
#[export] Hint Resolve show_u_digits show_u_ne : peerless.

Lemma show_digits_length f n acc : (length (show_digits f n acc) <= f + length acc)%nat.
Proof.
  revert n acc. induction f as [|f IH]; intros n acc; cbn [show_digits]; [lia|].
  case_match; [simpl; lia|]. etransitivity; [apply IH|simpl; lia].
Qed.

Lemma digits_byte_len s : Forall (fun c => is_ascii_digit c = true) s -> byte_len s = Z.of_nat (length s).
Proof.
  induction 1 as [|c s Hc _ IH]; [done|]. rewrite byte_len_cons, IH. unfold is_ascii_digit in Hc. to_prop.
  unfold len_utf8. rewrite (proj2 (Z.ltb_lt c 128)), length_cons by lia. lia.
Qed.

Lemma show_u_byte_len n : 0 <= n -> byte_len (show_u n) <= 20.
Proof.
  intros Hn. rewrite digits_byte_len by auto with peerless.
  unfold show_u. assert (H : (length (show_digits 20 n []) <= 20)%nat); [|lia].
  etransitivity; [apply show_digits_length|done].
Qed.
#[export] Hint Resolve show_u_byte_len : peerless.

(** The last run of digits of a text is unambiguous. *)
Lemma digits_tail_inj c x y d1 d2 :
  is_ascii_digit c = false -> Forall (fun c => is_ascii_digit c = true) d1 ->
  Forall (fun c => is_ascii_digit c = true) d2 -> x ++ c :: d1 = y ++ c :: d2 -> d1 = d2.
Proof.
  intros Hc H1 H2. revert d2 H2. induction d1 as [|a d1 IH] using rev_ind; intros d2 H2 E;
    destruct d2 as [|b d2 _] using rev_ind; [done|..].
  - rewrite app_comm_cons, app_assoc in E. apply app_inj_tail in E as [_ <-].
    apply Forall_app in H2 as [_ H2]. apply Forall_inv in H2. congruence.
  - rewrite app_comm_cons, app_assoc in E. apply app_inj_tail in E as [_ ->].
    apply Forall_app in H1 as [_ H1]. apply Forall_inv in H1. congruence.
  - rewrite !app_comm_cons, !app_assoc in E. apply app_inj_tail in E as [E ->]. f_equal.
    apply Forall_app in H1 as [H1 _], H2 as [H2 _]. by apply IH.
Qed.

(** [format!("{n}").parse::<u64>() == Ok(n)]. *)
Lemma parse_show_u n : in_u 64 n -> parse_u 64 (show_u n) = Some n.
Proof.
  intros Hn. pose proof (show_u_digits n ltac:(apply Hn)) as Hdig.
  transitivity (parse_digits 64 0 (show_u n)).
  - pose proof (show_u_ne n). unfold parse_u. destruct (show_u n) as [|c s]; [done|].
    inversion Hdig as [|? ? Hc]; subst. unfold is_ascii_digit in Hc. to_prop.
    repeat case_match; try done; lia.
  - unfold show_u. rewrite (parse_show_digits 64 20 n []); [done| |lia|].
    + unfold in_u in Hn. change (10 ^ Z.of_nat 20) with 100000000000000000000. lia.
    + unfold in_u in Hn. rewrite umax_64. lia.
Qed.

Lemma digit_not_ws c : is_ascii_digit c = true -> is_whitespace c = false.
Proof.
  unfold is_ascii_digit, is_whitespace. intros H. to_prop.
  rewrite (proj2 (Z.leb_gt c 13)), (proj2 (Z.leb_gt 8192 c)), !(proj2 (Z.eqb_neq c _)) by lia.
  by rewrite andb_false_r.
Qed.
#[export] Hint Resolve digit_not_ws : peerless.

(** [trim] is idempotent. *)
Lemma trim_trim s : trim (trim s) = trim s.
Proof.
  assert (Hs : forall s, trim_start_by is_whitespace (trim_start_by is_whitespace s) =
    trim_start_by is_whitespace s).
  { induction s0 as [|c u IH]; simpl; [done|]. destruct (is_whitespace c) eqn:E; simpl; [done|by rewrite E]. }
  unfold trim. set (u := trim_start_by is_whitespace s).
  assert (Hu : u = [] \/ exists c v, u = c :: v /\ is_whitespace c = false).
  { unfold u. clear u. induction s as [|c s IH]; simpl; [by left|].
    destruct (is_whitespace c) eqn:E; [done|]. right. by exists c, s. }
  destruct Hu as [->|(c & v & -> & Hc)]; [done|].
  assert (Hend : exists w, trim_end_by is_whitespace (c :: v) = c :: w).
  { unfold trim_end_by. rewrite reverse_cons. generalize (reverse v) as l. intros l.
    induction l as [|b l IH]; simpl; [rewrite Hc; by exists []|].
    destruct (is_whitespace b); [done|]. rewrite reverse_cons, reverse_app. by eexists. }
  destruct Hend as [w Hw]. rewrite Hw, trim_start_by_id, <-Hw by done. unfold trim_end_by.
  by rewrite reverse_involutive, Hs.
Qed.
