(* ===== verification/Interfaces.v ===== *)
(** * Interfaces: what one component of the server promises another

    The worker pool selects workers through [WorkerGate], which the circuit breaker implements
    (CircuitBreaker.v); the rip queue orders its items through [ScorePolicy], which
    orchestrator/priority.rs implements (Priority.v); the retry loops draw their delays from
    [Backoff], which core/retry.rs implements (Retry.v). *)
From S2P Require Import Prelude.

(** Admission of workers over time.  [gate_open g t i] tells whether worker [i] may be used at
    time [t], [gate_remaining g t i] how long it stays closed, [gate_close] and [gate_reopen] are
    the failure and success reports. *)
Class WorkerGate (G : Type) := {
  gate_open : G -> Z -> Z -> bool;
  gate_remaining : G -> Z -> Z -> option Z;
  gate_close : G -> Z -> Z -> Z -> G;
  gate_reopen : G -> Z -> G;
  gate_knows : G -> Z -> bool;
  gate_available_count : G -> Z -> nat;
  gate_remaining_pos g t i d : gate_remaining g t i = Some d -> 0 < d;
  gate_remaining_open g t i :
    gate_knows g i = true -> gate_open g t i = negb (bool_decide (is_Some (gate_remaining g t i)));
  gate_available_count_zero g t :
    gate_available_count g t = 0%nat <-> forall i, gate_open g t i = false;
  gate_open_knows g t i : gate_open g t i = true -> gate_knows g i = true;
  gate_close_spec g now d i t j :
    gate_open (gate_close g now d i) t j =
      if (i =? j) && gate_knows g i then now + d <=? t else gate_open g t j;
  gate_reopen_spec g i t j :
    gate_open (gate_reopen g i) t j = if (i =? j) && gate_knows g i then true else gate_open g t j;
}.

(** A base score is an [i16]. *)
Definition in_i16 (b : Z) : Prop := - 2 ^ 15 <= b < 2 ^ 15.

(** Scores that age: an item's score rises while it waits, a better base ranks higher after the
    same wait, and a wait longer by [aging_gap b1 b2] makes up for any worse base. *)
Class ScorePolicy (score : Z -> Z -> Z) := {
  aging_gap : Z -> Z -> Z;
  score_mono b w1 w2 : in_i16 b -> 0 <= w1 <= w2 -> w2 < 2 ^ 60 -> score b w1 <= score b w2;
  score_rank b1 b2 w : in_i16 b1 -> in_i16 b2 -> b1 < b2 -> 0 <= w < 2 ^ 60 -> score b1 w < score b2 w;
  score_catches_up b1 b2 w1 w2 :
    in_i16 b1 -> in_i16 b2 -> 0 <= w2 -> w1 < 2 ^ 60 -> w2 + aging_gap b1 b2 <= w1 -> 0 <= aging_gap b1 b2 ->
    score b2 w2 <= score b1 w1;
}.

(** Delays between attempts: never negative, never shorter than the one before, and bounded. *)
Class Backoff (delay : Z -> Z -> Z) := {
  backoff_nonneg base i : 0 <= base -> 0 <= i -> 0 <= delay base i;
  backoff_mono base i j : 0 <= base -> 0 <= i <= j -> delay base i <= delay base j;
}.
