(* ===== verification/CircuitBreaker.v ===== *)
(** * CircuitBreaker: quarantine of stream workers (crates/stream/src/circuit_breaker.rs)

    The [RwLock<Vec<WorkerState>>] is a list of worker states indexed by worker id; each method of
    the source takes the lock once, so it is one atomic function here.  [Instant::now()] is the
    argument [now]; instants and durations are nanoseconds.  The instance at the end discharges the
    [WorkerGate] interface the worker pool is verified against. *)
From S2P Require Import Prelude Interfaces.

Inductive WorkerState : Type :=
| Healthy
| Quarantined (until : Z).

#[export] Instance WorkerState_eq_dec : EqDecision WorkerState.
Proof. solve_decision. Defined.

Abbreviation breaker := (list WorkerState).

Definition new (worker_count : nat) : breaker := replicate worker_count Healthy.

(** The guard the source repeats in [is_available] and [available_count]. *)
Definition state_available (now : Z) (s : WorkerState) : bool :=
  match s with
  | Healthy => true
  | Quarantined until => until <=? now
  end.

Definition is_available (cb : breaker) (now worker_id : Z) : bool :=
  match get cb worker_id with
  | Some Healthy => true
  | Some (Quarantined until) => until <=? now
  | None => false
  end.

Definition quarantine (cb : breaker) (now duration worker_id : Z) : breaker :=
  let until := now + duration in
  match get cb worker_id with
  | Some _ => set_at cb worker_id (Quarantined until)
  | None => cb
  end.

Definition record_success (cb : breaker) (worker_id : Z) : breaker :=
  match get cb worker_id with
  | Some (Quarantined _) => set_at cb worker_id Healthy
  | _ => cb
  end.

Definition quarantine_remaining (cb : breaker) (now worker_id : Z) : option Z :=
  match get cb worker_id with
  | Some (Quarantined until) => if now <? until then Some (until - now) else None
  | _ => None
  end.

Definition available_count (cb : breaker) (now : Z) : nat :=
  length (filter (fun s => state_available now s = true) cb).

Definition healthy_worker_count (cb : breaker) (now : Z) : nat := available_count cb now.

(** The calls the rest of the server makes, as a sequence. *)
Inductive breaker_op : Type :=
| OpQuarantine (now duration worker_id : Z)
| OpSuccess (worker_id : Z).

Definition apply_op (cb : breaker) (op : breaker_op) : breaker :=
  match op with
  | OpQuarantine now duration id => quarantine cb now duration id
  | OpSuccess id => record_success cb id
  end.

Definition run_ops (cb : breaker) (ops : list breaker_op) : breaker := foldl apply_op cb ops.

(** ** The abstract contract

    A worker is described by the instant up to which it is blocked, if any; the latest report about
    a worker decides. *)
Fixpoint blocked_until (ops : list breaker_op) (worker_id : Z) (start : option Z) : option Z :=
  match ops with
  | [] => start
  | OpQuarantine now duration id :: ops' =>
      blocked_until ops' worker_id (if id =? worker_id then Some (now + duration) else start)
  | OpSuccess id :: ops' =>
      blocked_until ops' worker_id (if id =? worker_id then None else start)
  end.

Definition spec_available (blocked : option Z) (now : Z) : bool :=
  match blocked with Some until => until <=? now | None => true end.

(** ** Lemmas *)

Definition abs_state (s : WorkerState) : option Z :=
  match s with Healthy => None | Quarantined u => Some u end.

Lemma is_available_abs cb now id s :
  get cb id = Some s -> is_available cb now id = spec_available (abs_state s) now.
Proof. unfold is_available. intros ->. by destruct s. Qed.

Lemma quarantine_abs cb t d i id start :
  abs_state <$> get cb id = Some start ->
  abs_state <$> get (quarantine cb t d i) id = Some (if i =? id then Some (t + d) else start).
Proof.
  unfold quarantine. intros Hg. destruct (get cb i) as [s|] eqn:E;
    destruct (Z.eqb_spec i id) as [->|Hne]; try done.
  - by rewrite get_set_at_eq by (rewrite E; eauto).
  - by rewrite get_set_at_ne.
  - by rewrite E in Hg.
Qed.

Lemma record_success_abs cb i id start :
  abs_state <$> get cb id = Some start ->
  abs_state <$> get (record_success cb i) id = Some (if i =? id then None else start).
Proof.
  unfold record_success. intros Hg. destruct (get cb i) as [[|u]|] eqn:E;
    destruct (Z.eqb_spec i id) as [->|Hne]; try done.
  - by rewrite E.
  - by rewrite get_set_at_eq by (rewrite E; eauto).
  - by rewrite get_set_at_ne.
  - by rewrite E in Hg.
Qed.

Lemma apply_op_length cb op : length (apply_op cb op) = length cb.
Proof. destruct op; unfold apply_op, quarantine, record_success; repeat case_match; by autorewrite with peerless_rw. Qed.

Lemma run_ops_length cb ops : length (run_ops cb ops) = length cb.
Proof. revert cb. induction ops as [|op ops IH]; intros cb; simpl; [done|]. by rewrite IH, apply_op_length. Qed.

Lemma is_available_known cb now id :
  is_available cb now id = true -> 0 <= id < Z.of_nat (length cb).
Proof. unfold is_available. destruct (get cb id) eqn:E; [intros _; by eapply get_range|done]. Qed.

Lemma is_available_quarantine cb now d i t j :
  is_available (quarantine cb now d i) t j =
    if (i =? j) && bool_decide (is_Some (get cb i)) then now + d <=? t else is_available cb t j.
Proof.
  unfold is_available, quarantine. destruct (get cb i) eqn:E; [|by rewrite andb_false_r].
  rewrite andb_true_r. destruct (Z.eqb_spec i j) as [->|Hij].
  - by rewrite get_set_at_eq by (rewrite E; eauto).
  - by rewrite get_set_at_ne.
Qed.

Lemma is_available_record_success cb i t j :
  is_available (record_success cb i) t j =
    if (i =? j) && bool_decide (is_Some (get cb i)) then true else is_available cb t j.
Proof.
  unfold is_available, record_success.
  destruct (get cb i) as [[|u]|] eqn:E; simpl; rewrite ?andb_true_r, ?andb_false_r; [|..|done].
  - destruct (Z.eqb_spec i j) as [->|]; [by rewrite E|done].
  - destruct (Z.eqb_spec i j) as [->|Hij].
    + by rewrite get_set_at_eq by (rewrite E; eauto).
    + by rewrite get_set_at_ne.
Qed.

Lemma quarantine_remaining_pos cb now id d : quarantine_remaining cb now id = Some d -> 0 < d.
Proof. unfold quarantine_remaining. repeat case_match; intros; simplify_eq; zb. Qed.

Lemma quarantine_remaining_available cb now id :
  is_Some (get cb id) ->
  is_available cb now id = negb (bool_decide (is_Some (quarantine_remaining cb now id))).
Proof.
  intros [s Hs]. unfold is_available, quarantine_remaining. rewrite Hs.
  destruct s as [|u]; [done|]. destruct (Z.ltb_spec now u); simpl; [by apply Z.leb_gt|by apply Z.leb_le].
Qed.

Lemma available_count_pos cb now :
  (0 < available_count cb now)%nat <-> exists id, is_available cb now id = true.
Proof.
  unfold available_count. split.
  - destruct (filter _ cb) as [|s l] eqn:E; simpl; [lia|]. intros _.
    assert (Hs : s ∈ filter (fun s => state_available now s = true) cb) by (rewrite E; left).
    apply list_elem_of_filter in Hs as [Hs [i Hi]%list_elem_of_lookup].
    exists (Z.of_nat i). unfold is_available. rewrite get_lookup, Nat2Z.id, Hi by lia. by destruct s.
  - intros [id H]. unfold is_available in H. destruct (get cb id) as [s|] eqn:E; [|done].
    pose proof (get_range _ _ _ E) as Hr. rewrite get_lookup in E by lia.
    apply list_elem_of_lookup_2 in E.
    assert (Hf : s ∈ filter (fun s => state_available now s = true) cb).
    { apply list_elem_of_filter. split; [by destruct s|done]. }
    destruct (filter _ cb); [by apply not_elem_of_nil in Hf|simpl; lia].
Qed.

Lemma available_count_zero cb now :
  available_count cb now = 0%nat <-> forall id, is_available cb now id = false.
Proof.
  pose proof (available_count_pos cb now) as H. split.
  - intros H0 id. apply not_true_iff_false. intros Hid.
    pose proof (proj2 H (ex_intro _ id Hid)). lia.
  - intros Hall. destruct (available_count cb now) as [|m] eqn:E; [done|].
    destruct H as [[id Hid] _]; [lia|]. by rewrite Hall in Hid.
Qed.

(** The breaker as a [WorkerGate]. *)
#[export] Program Instance breaker_gate : WorkerGate breaker := {|
  gate_open := is_available;
  gate_remaining := quarantine_remaining;
  gate_close := quarantine;
  gate_reopen := record_success;
  gate_knows g i := bool_decide (is_Some (get g i));
  gate_available_count := available_count;
|}.
Next Obligation. eauto using quarantine_remaining_pos. Qed.
Next Obligation. intros g t i H%bool_decide_eq_true. by apply quarantine_remaining_available. Qed.
Next Obligation. intros g t. apply available_count_zero. Qed.
Next Obligation.
  intros g t i H. apply bool_decide_eq_true, get_Some_iff. by eapply is_available_known.
Qed.
Next Obligation. intros. apply is_available_quarantine. Qed.
Next Obligation. intros. apply is_available_record_success. Qed.

(** ** Properties *)

(** After any sequence of reports, a worker of the pool is available exactly when the latest
    report about it is a success, or a quarantine whose end is not after [now]; a worker outside
    the pool is never available. *)
Theorem breaker_refines_last_report n ops id now :
  is_available (run_ops (new n) ops) now id =
    (bool_decide (0 <= id < Z.of_nat n)) && spec_available (blocked_until ops id None) now.
Proof.
  assert (Hget : forall cb start,
    length cb = n -> abs_state <$> get cb id = Some start ->
    abs_state <$> get (run_ops cb ops) id = Some (blocked_until ops id start)).
  { induction ops as [|op ops IH]; intros cb start Hlen Hg; [done|]. simpl.
    destruct op as [t d i|i]; apply IH; rewrite ?apply_op_length; try done; simpl.
    - by apply quarantine_abs.
    - by apply record_success_abs. }
  assert (Hlen : length (new n) = n) by apply length_replicate.
  case_bool_decide as Hin; simpl.
  - specialize (Hget (new n) None Hlen). unfold new in *.
    rewrite get_lookup, lookup_replicate_2 in Hget by lia. specialize (Hget eq_refl).
    destruct (get (run_ops _ ops) id) as [s|] eqn:E; simplify_eq/=.
    by rewrite (is_available_abs _ _ _ _ E), Hget.
  - apply not_true_iff_false. intros H%is_available_known.
    rewrite run_ops_length, Hlen in H. lia.
Qed.

(** [available_count] counts the workers [is_available] lets through: the pool's decision to
    wait for a worker and its decision to use one look at the same states. *)
Theorem available_count_exact cb now :
  available_count cb now =
    length (filter (fun id => is_available cb now id = true) (seqZ 0 (Z.of_nat (length cb)))).
Proof.
  induction cb as [|s cb IH] using rev_ind; [done|].
  unfold available_count in *. rewrite filter_app, !length_app, IH. simpl length.
  replace (Z.of_nat (length cb + 1)) with (Z.of_nat (length cb) + 1) by lia.
  rewrite seqZ_app by lia. rewrite filter_app, length_app. f_equal.
  - f_equal. apply list_filter_iff_in. intros id Hid%elem_of_seqZ. unfold is_available.
    by rewrite !get_lookup, lookup_app_l by lia.
  - assert (Hg : get (cb ++ [s]) (0 + Z.of_nat (length cb)) = Some s).
    { rewrite get_lookup, lookup_app_r by lia. by replace (Z.to_nat _ - length cb)%nat with 0%nat by lia. }
    change (seqZ (0 + Z.of_nat (length cb)) 1) with [0 + Z.of_nat (length cb)].
    rewrite !filter_cons. unfold is_available. rewrite Hg.
    destruct s; simpl; by repeat case_decide.
Qed.

(** A quarantined worker becomes available exactly when the reported remaining time has
    passed, and not earlier. *)
Theorem quarantine_remaining_exact cb now id d t :
  quarantine_remaining cb now id = Some d ->
  is_available cb now id = false /\ (is_available cb t id = true <-> now + d <= t).
Proof.
  unfold quarantine_remaining, is_available. repeat case_match; intros; simplify_eq. to_prop.
  split; [by apply Z.leb_gt|]. rewrite Z.leb_le. lia.
Qed.

Lemma quarantine_remaining_exact_witness :
  quarantine_remaining [Healthy; Quarantined 50] 20 1 = Some 30 /\
  is_available [Healthy; Quarantined 50] 20 1 = false /\
  (is_available [Healthy; Quarantined 50] 50 1 = true <-> 20 + 30 <= 50).
Proof. split; [reflexivity|]. apply quarantine_remaining_exact. reflexivity. Defined.
