(* ===== verification/Retry.v ===== *)
(** * Retry: shared backoff, jitter and retry budgets (crates/core/src/retry.rs, limits.rs)

    Durations are milliseconds here, the unit the source computes in.  The jitter is computed in
    IEEE binary64 with the standard library's executable [SpecFloat], since its rounding is what
    decides whether the documented interval is respected.  The process-wide [STATE] of the
    generator is passed explicitly; the wall clock that seeds it is an argument. *)
From Stdlib Require Import SpecFloat.
From S2P Require Import Prelude Text Interfaces.

Definition MAX_RETRIES : Z := 10.
Definition MAX_RETRY_BASE_MS : Z := 60000.
Definition DEFAULT_RETRIES : Z := 3.
Definition DEFAULT_RETRY_BASE_MS : Z := 2000.
Definition MAX_BACKOFF_EXPONENT : Z := 31.

Definition ENV_MAX_RETRIES : str := lit "ALAC_MAX_RETRIES".
Definition ENV_RETRY_BASE_MS : str := lit "ALAC_RETRY_BASE_MS".

(** [1_u64.checked_shl(n)]. *)
Definition checked_shl_one (n : Z) : option Z :=
  if n <? 64 then Some (wrap 64 (Z.shiftl 1 n)) else None.

Definition exponential_delay (base_delay_ms retry_index : Z) : Z :=
  let multiplier := default u64_max (checked_shl_one (Z.min retry_index MAX_BACKOFF_EXPONENT)) in
  saturating_mul 64 base_delay_ms multiplier.

(** ** Jitter *)

(** [state << n] on a [u64] drops the high bits. *)
Definition shl64 (x n : Z) : Z := wrap 64 (Z.shiftl x n).

Definition xorshift (s : Z) : Z :=
  let s := Z.lxor s (shl64 s 13) in
  let s := Z.lxor s (Z.shiftr s 7) in
  Z.lxor s (shl64 s 17).

(** The state the load produces: the stored one, or the clock's nanoseconds made odd ([now] is
    [None] for a clock before the epoch). *)
Definition jitter_seed (now : option Z) : Z :=
  Z.lor (match now with Some ns => wrap 64 ns | None => 11400714819323198485 end) 1.

Definition jitter_state (stored : Z) (now : option Z) : Z :=
  if stored =? 0 then jitter_seed now else stored.

(** binary64 values; [f64_of_u] is [as f64]. *)
Abbreviation f64 := spec_float.
Definition f64_add : f64 -> f64 -> f64 := SFadd 53 1024.
Definition f64_mul : f64 -> f64 -> f64 := SFmul 53 1024.
Definition f64_div : f64 -> f64 -> f64 := SFdiv 53 1024.
Definition f64_of_u (n : Z) : f64 := binary_normalize 53 1024 n 0 false.
Definition f64_dec (num den : Z) : f64 := f64_div (f64_of_u num) (f64_of_u den).

(** The new state and the sample [(state >> 11) as f64 / (1u64 << 53) as f64]. *)
Definition jitter_fraction (stored : Z) (now : option Z) : Z * f64 :=
  let state := xorshift (jitter_state stored now) in
  (state, f64_div (f64_of_u (Z.shiftr state 11)) (f64_of_u (Z.shiftl 1 53))).

(** [0.8 + jitter_fraction() * 0.4]. *)
Definition jitter_multiplier (stored : Z) (now : option Z) : Z * f64 :=
  let '(state, fraction) := jitter_fraction stored now in
  (state, f64_add (f64_dec 8 10) (f64_mul fraction (f64_dec 4 10))).

(** ** Budgets *)

Record RetryPolicy := mkRetryPolicy { total_attempts : Z; policy_base_delay_ms : Z }.

Definition RetryPolicy_test : RetryPolicy := mkRetryPolicy 3 0.
Definition RetryPolicy_default : RetryPolicy := mkRetryPolicy 3 500.

Definition delay_before_retry (p : RetryPolicy) (retry_index : Z) : Z :=
  exponential_delay (policy_base_delay_ms p) retry_index.

Record RetryConfig := mkRetryConfig { retries : Z; base_delay_ms : Z }.

Definition RetryConfig_DEFAULT : RetryConfig := mkRetryConfig DEFAULT_RETRIES DEFAULT_RETRY_BASE_MS.

(** [.and_then(parse).filter(<= cap).unwrap_or(default)] for one variable. *)
Definition capped_setting (w cap dflt : Z) (value : option str) : Z :=
  match value ≫= parse_u w with
  | Some v => if v <=? cap then v else dflt
  | None => dflt
  end.

Definition from_lookup (lookup_env : str -> option str) : RetryConfig :=
  mkRetryConfig
    (capped_setting 32 MAX_RETRIES DEFAULT_RETRIES (lookup_env ENV_MAX_RETRIES))
    (capped_setting 64 MAX_RETRY_BASE_MS DEFAULT_RETRY_BASE_MS (lookup_env ENV_RETRY_BASE_MS)).

Definition config_total_attempts (c : RetryConfig) : Z := saturating_add 32 (retries c) 1.

Definition policy (c : RetryConfig) : RetryPolicy :=
  mkRetryPolicy (config_total_attempts c) (base_delay_ms c).

(** ** Lemmas *)

Lemma checked_shl_one_small n : 0 <= n <= 31 -> checked_shl_one n = Some (2 ^ n).
Proof.
  intros Hn. unfold checked_shl_one. rewrite (proj2 (Z.ltb_lt n 64)) by lia.
  rewrite Z.shiftl_1_l. f_equal. apply wrap_small. split; [apply Z.pow_nonneg; lia|].
  apply Z.pow_lt_mono_r; lia.
Qed.

Lemma exponential_delay_unfold base i :
  0 <= i -> exponential_delay base i = Z.min u64_max (base * 2 ^ Z.min i 31).
Proof.
  intros Hi. unfold exponential_delay, MAX_BACKOFF_EXPONENT, saturating_mul.
  rewrite checked_shl_one_small by lia. done.
Qed.

Lemma exponential_delay_mono base i j :
  0 <= base -> 0 <= i <= j -> exponential_delay base i <= exponential_delay base j.
Proof.
  intros Hb Hij. rewrite !exponential_delay_unfold by lia.
  assert (2 ^ Z.min i 31 <= 2 ^ Z.min j 31) by (apply Z.pow_le_mono_r; lia).
  assert (base * 2 ^ Z.min i 31 <= base * 2 ^ Z.min j 31) by nia. lia.
Qed.

Lemma exponential_delay_nonneg base i : 0 <= base -> 0 <= i -> 0 <= exponential_delay base i.
Proof.
  intros Hb Hi. rewrite exponential_delay_unfold by lia. rewrite umax_64.
  pose proof (Z.pow_nonneg 2 (Z.min i 31)). nia.
Qed.
#[export] Hint Resolve exponential_delay_mono exponential_delay_nonneg : peerless.

#[export] Instance exponential_backoff : Backoff exponential_delay.
Proof. split; eauto with peerless. Qed.

(** A bit of [x] that a shift by [k] copies is a bit of [x] [k] places away: a word equal to its
    own shift is zero. *)
Lemma shl64_fixpoint_zero x k : in_u 64 x -> 0 < k -> x = shl64 x k -> x = 0.
Proof.
  intros Hx Hk Heq. apply Z.bits_inj'. intros n Hn. rewrite Z.bits_0.
  induction n as [n IH] using (well_founded_induction (Z.lt_wf 0)). rewrite Heq. unfold shl64, wrap.
  destruct (Z.lt_ge_cases n 64); [|by rewrite Z.mod_pow2_bits_high by lia].
  rewrite Z.mod_pow2_bits_low, Z.shiftl_spec by lia.
  destruct (Z.lt_ge_cases n k); [by apply Z.testbit_neg_r; lia|]. apply IH; lia.
Qed.

Lemma shr_fixpoint_zero x k : in_u 64 x -> 0 < k -> x = Z.shiftr x k -> x = 0.
Proof.
  intros [Hx _] Hk Heq. destruct (Z.eq_dec x 0) as [|Hne]; [done|].
  rewrite Z.shiftr_div_pow2 in Heq by lia.
  pose proof (Z.div_lt x (2 ^ k) ltac:(lia) ltac:(apply Z.pow_gt_1; lia)). lia.
Qed.

Lemma lxor_in_u64 x y : in_u 64 x -> in_u 64 y -> in_u 64 (Z.lxor x y).
Proof.
  intros [Hx0 Hx] [Hy0 Hy]. assert (H0 : 0 <= Z.lxor x y) by (apply Z.lxor_nonneg; lia).
  split; [done|]. destruct (Z.eq_dec (Z.lxor x y) 0) as [->|Hn]; [lia|].
  apply Z.log2_lt_pow2; [lia|]. eapply Z.le_lt_trans; [by apply Z.log2_lxor|].
  assert (Hlog : forall z, 0 <= z < 2 ^ 64 -> Z.log2 z < 64).
  { intros z Hz. destruct (Z.eq_dec z 0) as [->|]; [done|]. apply Z.log2_lt_pow2; lia. }
  apply Z.max_lub_lt; apply Hlog; lia.
Qed.

Lemma shr_in_u64 x k : in_u 64 x -> 0 <= k -> in_u 64 (Z.shiftr x k).
Proof.
  intros [H0 H] Hk. rewrite Z.shiftr_div_pow2 by done. assert (0 < 2 ^ k) by (apply Z.pow_pos_nonneg; lia).
  split; [apply Z.div_pos; lia|]. eapply Z.le_lt_trans; [|exact H]. apply Z.div_le_upper_bound; nia.
Qed.

Lemma xorshift_in_u64 s : in_u 64 s -> in_u 64 (xorshift s).
Proof.
  intros H. unfold xorshift, shl64.
  repeat (apply lxor_in_u64 || apply shr_in_u64 || apply wrap_range); auto; try lia.
Qed.

Lemma xorshift_nonzero s : in_u 64 s -> s <> 0 -> xorshift s <> 0.
Proof.
  intros Hs Hn. unfold xorshift. set (a := Z.lxor s (shl64 s 13)). set (b := Z.lxor a (Z.shiftr a 7)).
  assert (Ha : in_u 64 a) by (apply lxor_in_u64; [done|apply wrap_range; lia]).
  assert (Hb : in_u 64 b) by (apply lxor_in_u64; [done|apply shr_in_u64; [done|lia]]).
  intros H0. apply Z.lxor_eq in H0. apply shl64_fixpoint_zero in H0; [|done|lia].
  apply Z.lxor_eq, shr_fixpoint_zero in H0; [|done|lia].
  apply Z.lxor_eq, shl64_fixpoint_zero in H0; [done..|lia].
Qed.

Lemma jitter_state_nonzero stored now :
  in_u 64 stored -> in_u 64 (jitter_state stored now) /\ jitter_state stored now <> 0.
Proof.
  intros Hs. unfold jitter_state. destruct (Z.eqb_spec stored 0) as [->|Hne]; [|done].
  assert (H1 : in_u 64 (match now with Some ns => wrap 64 ns | None => 11400714819323198485 end)).
  { destruct now; [apply wrap_range; lia|unfold in_u; lia]. }
  unfold jitter_seed. set (x := match now with Some ns => _ | None => _ end) in *. split.
  - split; [apply Z.lor_nonneg; unfold in_u in H1; lia|].
    destruct (Z.eq_dec (Z.lor x 1) 0) as [->|Hn]; [lia|].
    apply Z.log2_lt_pow2; [pose proof (proj2 (Z.lor_nonneg x 1)); unfold in_u in H1; lia|].
    rewrite Z.log2_lor by (unfold in_u in H1; lia).
    apply Z.max_lub_lt; [|done]. destruct (Z.eq_dec x 0) as [->|]; [done|].
    apply Z.log2_lt_pow2; unfold in_u in H1; lia.
  - intros H0. assert (Hb : Z.testbit (Z.lor x 1) 0 = true) by (rewrite Z.lor_spec; apply orb_true_r).
    by rewrite H0 in Hb.
Qed.

(** ** Properties *)

(** [exponential_delay base i] is [base * 2^min(i,31)] capped at [u64::MAX], so it doubles at
    each retry until it saturates, whatever the index. *)
Theorem exponential_delay_doubles base i :
  in_u 64 base -> in_u 32 i ->
  exponential_delay base 0 = base /\
  (i < 31 -> exponential_delay base (i + 1) = saturating_mul 64 2 (exponential_delay base i)) /\
  (31 <= i -> exponential_delay base i = exponential_delay base 31).
Proof.
  intros [Hb0 Hb] [Hi0 _]. rewrite !exponential_delay_unfold by lia. split_and!.
  - change (2 ^ Z.min 0 31) with 1. rewrite umax_64. lia.
  - intros Hi. rewrite (Z.min_l i), (Z.min_l (i + 1)) by lia. unfold saturating_mul.
    rewrite Z.pow_add_r by lia. change (2 ^ 1) with 2.
    pose proof (Z.pow_pos_nonneg 2 i ltac:(lia) Hi0).
    replace (base * (2 ^ i * 2)) with (2 * (base * 2 ^ i)) by lia. rewrite umax_64. nia.
  - intros Hi. by rewrite (Z.min_r i) by lia.
Qed.

Lemma exponential_delay_doubles_witness :
  exponential_delay 500 0 = 500 /\
  (3 < 31 -> exponential_delay 500 (3 + 1) = saturating_mul 64 2 (exponential_delay 500 3)) /\
  (31 <= 3 -> exponential_delay 500 3 = exponential_delay 500 31).
Proof. apply exponential_delay_doubles; unfold in_u; lia. Defined.

(** Whatever the environment holds, the configured budget stays within the documented caps:
    at most ten retries, hence eleven attempts, and a base delay of at most a minute. *)
Theorem from_lookup_within_caps lookup_env :
  let c := from_lookup lookup_env in
  0 <= retries c <= MAX_RETRIES /\ 0 <= base_delay_ms c <= MAX_RETRY_BASE_MS /\
  total_attempts (policy c) = retries c + 1 /\
  (forall i, 0 <= i -> delay_before_retry (policy c) i <= MAX_RETRY_BASE_MS * 2 ^ 31).
Proof.
  assert (Hc : forall w cap d v, 0 <= w -> 0 <= d <= cap -> 0 <= capped_setting w cap d v <= cap).
  { intros w cap d v Hw Hd. unfold capped_setting. destruct (v ≫= parse_u w) as [n|] eqn:E; [|lia].
    apply bind_Some in E as (s & _ & Hp). apply parse_u_range in Hp; [|done]. unfold in_u in Hp.
    destruct (Z.leb_spec n cap); lia. }
  intros c. assert (H1 : 0 <= retries c <= 10) by (apply Hc; done || (split; done)).
  assert (H2 : 0 <= base_delay_ms c <= 60000) by (apply Hc; done || (split; done)).
  split_and!; [unfold MAX_RETRIES, MAX_RETRY_BASE_MS; lia..| |].
  - change (Z.min (umax 32) (retries c + 1) = retries c + 1). clearbody c. rewrite umax_32. lia.
  - intros i Hi. change (exponential_delay (base_delay_ms c) i <= 60000 * 2 ^ 31). rewrite exponential_delay_unfold by done.
    assert (2 ^ Z.min i 31 <= 2 ^ 31) by (apply Z.pow_le_mono_r; lia).
    etransitivity; [apply Z.le_min_r|]. apply Z.mul_le_mono_nonneg; try lia.
Qed.

(** The generator never falls back to the zero state, so the clock seeds it once, and every
    sample is a 53-bit numerator: the fraction lies in [0, 1). *)
Theorem jitter_state_invariant stored now :
  in_u 64 stored ->
  let state := fst (jitter_fraction stored now) in
  in_u 64 state /\ state <> 0 /\ jitter_state state now = state /\ 0 <= Z.shiftr state 11 < 2 ^ 53.
Proof.
  intros Hs. destruct (jitter_state_nonzero stored now Hs) as [Hr Hn]. simpl.
  pose proof (xorshift_in_u64 _ Hr) as Hx. pose proof (xorshift_nonzero _ Hr Hn) as Hz.
  split_and!; try done.
  - unfold jitter_state at 1. by rewrite (proj2 (Z.eqb_neq _ _) Hz).
  - apply Z.shiftr_nonneg. apply Hx.
  - rewrite Z.shiftr_div_pow2 by lia. apply Z.div_lt_upper_bound; [done|].
    destruct Hx as [_ Hx]. change (2 ^ 11 * 2 ^ 53) with (2 ^ 64). done.
Qed.

Lemma jitter_state_invariant_witness :
  let state := fst (jitter_fraction 7650297886450228676 None) in
  in_u 64 state /\ state <> 0 /\ jitter_state state None = state /\ 0 <= Z.shiftr state 11 < 2 ^ 53.
Proof. apply jitter_state_invariant. unfold in_u. lia. Defined.

(** The documented interval [[0.8, 1.2)] of [jitter_multiplier] is not respected: a reachable
    generator state makes the binary64 sum round up to the literal [1.2] itself. *)
Theorem jitter_multiplier_reaches_upper_bound :
  exists stored, in_u 64 stored /\ stored <> 0 /\
    SFltb (snd (jitter_multiplier stored None)) (f64_dec 12 10) = false /\
    snd (jitter_multiplier stored None) = f64_dec 12 10.
Proof.
  exists 7650297886450228676. split; [unfold in_u; lia|]. split; [done|].
  split; vm_compute; reflexivity.
Qed.
