(* ===== verification/StreamTypes.v ===== *)
(** * StreamTypes: errors and identifiers of crates/stream (lib.rs, cache.rs, worker_pool.rs)

    The MTProto client's [InvocationError] is third-party; the crate observes it only through
    [kind()] and its [Display], so it is the pair of the two.  [ErrorKind] lists the kinds
    worker_pool.rs distinguishes; every other kind is [KOther]. *)
From S2P Require Import Prelude Text.

Abbreviation bytes := (list Byte.byte).
#[export] Instance byte_eq_dec : EqDecision Byte.byte := Byte.byte_eq_dec.

Inductive ErrorKind : Type :=
| KFileReferenceExpired
| KFloodWait (secs : Z)
| KRpc (name : str)
| KMigration (new_dc : Z)
| KNetwork
| KTransfer
| KOther.

Record InvocationError := mkInvocationError { kind : ErrorKind; display : str }.

(** [StreamError]; [Connect] and [Db] carry foreign errors seen only through [Display]. *)
Inductive StreamError : Type :=
| FileReferenceExpired
| FloodWait (secs : Z)
| AllWorkersUnavailable
| UnsupportedCdnRedirect
| ChunkFetchFailed (msg : str)
| Connect (msg : str)
| Telegram (e : InvocationError)
| Db (msg : str)
| TrackNotFound (id : Z)
| NoMediaDocument (id : Z)
| InvalidRange (msg : str).

#[export] Instance ErrorKind_eq_dec : EqDecision ErrorKind.
Proof. solve_decision. Defined.
#[export] Instance InvocationError_eq_dec : EqDecision InvocationError.
Proof. solve_decision. Defined.
#[export] Instance StreamError_eq_dec : EqDecision StreamError.
Proof. solve_decision. Defined.

Definition is_stale_file_reference_error (e : InvocationError) : bool :=
  match kind e with KFileReferenceExpired => true | _ => false end.

Definition CHUNK_SIZE : Z := 512 * 1024.

Record ChunkKey := mkChunkKey { document_id : Z; chunk_index : Z }.

#[export] Instance ChunkKey_eq_dec : EqDecision ChunkKey.
Proof. solve_decision. Defined.
#[export] Instance ChunkKey_countable : Countable ChunkKey.
Proof.
  refine (inj_countable' (fun k => (document_id k, chunk_index k)) (fun p => mkChunkKey p.1 p.2) _).
  by intros [].
Defined.

(** The bytes of a file that chunk [i] holds. *)
Definition file_chunk (file : bytes) (i : Z) : bytes :=
  take (Z.to_nat CHUNK_SIZE) (drop (Z.to_nat (i * CHUNK_SIZE)) file).

Lemma CHUNK_SIZE_pos : 0 < CHUNK_SIZE.
Proof. done. Qed.
#[export] Hint Resolve CHUNK_SIZE_pos : peerless.
