(* ===== verification/ByteRanges.v ===== *)
(** * ByteRanges: HTTP byte ranges (crates/stream/src/pipe.rs, [ByteRange]) *)
From S2P Require Import Prelude Text StreamTypes.

Module ByteRange.

Record ByteRange := mkByteRange { start : Z; end_ : Z }.

#[export] Instance ByteRange_eq_dec : EqDecision ByteRange.
Proof. solve_decision. Defined.

(** [end.saturating_sub(start) + 1] (the addition cannot overflow below [u64::MAX]). *)
Definition length (r : ByteRange) : Z := saturating_sub (end_ r) (start r) + 1.

Definition parse_num (header val : str) : result StreamError Z :=
  ok_or (parse_u 64 val) (InvalidRange header).

(** The three forms [-suffix], [start-] and [start-end] of a range already split at the dash. *)
Definition parse_bounds (header : str) (file_size : Z) (first second : str) :
    result StreamError (Z * Z) :=
  match trim first, trim second with
  | [], end_str =>
      suffix ← parse_num header end_str;
      Ok (saturating_sub file_size suffix, saturating_sub file_size 1)
  | start_str, [] =>
      s ← parse_num header start_str;
      Ok (s, saturating_sub file_size 1)
  | start_str, end_str =>
      s ← parse_num header start_str;
      e ← parse_num header end_str;
      Ok (s, e)
  end.

Definition out_of_bounds (s e file_size : Z) : str :=
  lit "Range out of bounds: start=" ++ show_u s ++ lit ", end=" ++ show_u e ++
  lit ", file_size=" ++ show_u file_size.

Definition parse (header : str) (file_size : Z) : result StreamError ByteRange :=
  let s := trim header in
  let s := default s (strip_prefix (lit "bytes=") s) in
  match split_on 45 s with
  | [first; second] =>
      '(s, e) ← parse_bounds header file_size first second;
      if (e <? s) || (file_size <=? s) then Err (InvalidRange (out_of_bounds s e file_size))
      else Ok (mkByteRange s (Z.min e (saturating_sub file_size 1)))
  | _ => Err (InvalidRange (lit "Malformed range: " ++ header))
  end.

(** A range that addresses bytes of a file of [file_size] bytes. *)
Definition valid_range (file_size : Z) (r : ByteRange) : Prop :=
  0 <= start r <= end_ r /\ end_ r < file_size.

(** The header a client sends for a closed range. *)
Definition range_header (s e : Z) : str := lit "bytes=" ++ show_u s ++ 45 :: show_u e.

(** ** Lemmas *)

Lemma parse_num_ok header v n : parse_num header v = Ok n -> in_u 64 n.
Proof.
  unfold parse_num. destruct (parse_u 64 v) as [m|] eqn:E; simpl; [|done].
  intros; simplify_eq. by eapply parse_u_range.
Qed.

Lemma parse_bounds_nonneg header fs a b s e :
  0 <= fs -> parse_bounds header fs a b = Ok (s, e) -> 0 <= s /\ 0 <= e.
Proof.
  intros Hfs. unfold parse_bounds.
  assert (Hn : forall v n, parse_num header v = Ok n -> 0 <= n)
    by (intros v n H%parse_num_ok; apply H).
  destruct (trim a) as [|ca sa], (trim b) as [|cb sb];
    repeat match goal with
    | |- context [parse_num header ?v] =>
        destruct (parse_num header v) eqn:?; simpl
    end; intros; simplify_eq; split; eauto using saturating_sub_nonneg.
Qed.

Lemma parse_closed_bounds header fs s e :
  in_u 64 s -> in_u 64 e -> parse_bounds header fs (show_u s) (show_u e) = Ok (s, e).
Proof.
  intros Hs He. unfold parse_bounds, parse_num.
  assert (Ht : forall n, in_u 64 n -> trim (show_u n) = show_u n).
  { intros n Hn. apply trim_no_ws. eapply Forall_impl; [apply show_u_digits, Hn|].
    intros c Hc. by apply digit_not_ws. }
  rewrite !Ht by done.
  pose proof (parse_show_u s Hs) as Ps. pose proof (parse_show_u e He) as Pe.
  pose proof (show_u_ne s). pose proof (show_u_ne e).
  destruct (show_u s), (show_u e); try done. by rewrite Ps, Pe.
Qed.

Lemma show_u_no_dash n : 0 <= n -> Forall (fun x => x <> 45) (show_u n).
Proof.
  intros Hn. eapply Forall_impl; [by apply show_u_digits|].
  intros c Hc ->. done.
Qed.

Lemma range_header_trim s e : 0 <= s -> 0 <= e -> trim (range_header s e) = range_header s e.
Proof.
  intros Hs He. apply trim_no_ws. unfold range_header. rewrite Forall_app, Forall_app, Forall_cons.
  assert (Hd : forall n, 0 <= n -> Forall (fun c => is_whitespace c = false) (show_u n)).
  { intros n Hn. eapply Forall_impl; [by apply show_u_digits|]. intros c Hc. by apply digit_not_ws. }
  split_and!; auto. repeat constructor.
Qed.

Lemma parse_range_header s e fs :
  in_u 64 s -> in_u 64 e ->
  parse (range_header s e) fs =
    if (e <? s) || (fs <=? s) then Err (InvalidRange (out_of_bounds s e fs))
    else Ok (mkByteRange s (Z.min e (saturating_sub fs 1))).
Proof.
  intros Hs He. pose proof Hs as [Hs0 _]. pose proof He as [He0 _].
  unfold parse. rewrite range_header_trim by done.
  rewrite (proj2 (strip_prefix_Some (lit "bytes=") (range_header s e) (show_u s ++ 45 :: show_u e))) by done.
  simpl default. rewrite split_on_app by (by apply show_u_no_dash).
  rewrite split_on_none by (by apply show_u_no_dash).
  by rewrite parse_closed_bounds.
Qed.

Lemma parse_in_range header file_size r :
  in_u 64 file_size -> parse header file_size = Ok r -> valid_range file_size r.
Proof.
  intros [Hfs _] H. unfold parse in H.
  destruct (split_on 45 _) as [|a [|b []]]; try done.
  destruct (parse_bounds header file_size a b) as [[s e]|] eqn:E; simpl in H; [|done].
  apply parse_bounds_nonneg in E as [? ?]; [|done].
  destruct ((e <? s) || (file_size <=? s)) eqn:C; [done|]. simplify_eq. to_prop.
  unfold valid_range. simpl. rewrite (saturating_sub_exact file_size 1) by lia. lia.
Qed.

(** ** Properties *)

(** Every range [ByteRange::parse] accepts lies inside the file, so its length is the number
    of bytes it addresses and never exceeds the file size. *)
Theorem parse_valid header file_size r :
  in_u 64 file_size -> parse header file_size = Ok r ->
  valid_range file_size r /\ length r = end_ r - start r + 1 /\ 0 < length r <= file_size.
Proof.
  intros Hfs H. pose proof (parse_in_range header file_size r Hfs H) as Hv. split; [done|].
  unfold valid_range in Hv. unfold length. rewrite saturating_sub_exact by lia. lia.
Qed.

Lemma parse_valid_witness :
  valid_range 1000 (mkByteRange 900 999) /\ length (mkByteRange 900 999) = 999 - 900 + 1 /\
  0 < length (mkByteRange 900 999) <= 1000.
Proof. apply (parse_valid (lit "bytes=-100")); [unfold in_u; lia|reflexivity]. Defined.

(** Round trip with the [Content-Range] convention: the header [bytes=s-e] of a valid closed
    range parses back to exactly that range. *)
Theorem parse_roundtrip file_size r :
  in_u 64 file_size -> valid_range file_size r ->
  parse (range_header (start r) (end_ r)) file_size = Ok r.
Proof.
  intros [Hf0 Hf] [[Hs Hse] He]. destruct r as [s e]; simpl in *.
  rewrite parse_range_header by (unfold in_u; lia).
  rewrite (proj2 (Z.ltb_ge e s)), (proj2 (Z.leb_gt file_size s)) by lia. simpl.
  rewrite saturating_sub_exact by lia. by rewrite Z.min_l by lia.
Qed.

Lemma parse_roundtrip_witness :
  parse (range_header 524288 600000) 700000 = Ok (mkByteRange 524288 600000).
Proof.
  apply (parse_roundtrip 700000 (mkByteRange 524288 600000)); unfold in_u, valid_range; simpl; lia.
Defined.

End ByteRange.
