(* ===== verification/ChunkCache.v ===== *)
(** * ChunkCache: the 512 KB block cache (crates/stream/src/cache.rs)

    The [moka] cache underneath is third-party: the file is parametric in its operations, with the
    documented guarantees of a cache as the laws of [MokaCache] (an entry is the last value
    inserted under its key, or evicted).  A map-backed cache shows the laws can hold. *)
From S2P Require Import Prelude Text StreamTypes.

(** [Cache::get] and [Cache::insert] with moka's contract; eviction may drop entries at will. *)
Class MokaCache (K V C : Type) `{EqDecision K} := {
  cache_empty : C;
  cache_get : C -> K -> option V;
  cache_insert : C -> K -> V -> C;
  cache_get_empty k : cache_get cache_empty k = None;
  cache_get_insert c k v k' v' :
    cache_get (cache_insert c k v) k' = Some v' ->
    if decide (k = k') then v' = v else cache_get c k' = Some v';
}.

#[export] Program Instance gmap_cache {K V} `{Countable K} : MokaCache K V (gmap K V) := {|
  cache_empty := ∅;
  cache_get c k := c !! k;
  cache_insert c k v := <[k := v]> c;
|}.
Next Obligation. intros. apply lookup_empty. Qed.
Next Obligation. intros K V ?? c k v k' v'. simpl. rewrite lookup_insert. case_decide; naive_solver. Qed.

Record ChunkCacheMetricsSnapshot := mkCacheMetrics { hits : Z; misses : Z }.

Section ChunkCache.
Context {C : Type} `{!MokaCache ChunkKey bytes C}.

(** The value cache and its two relaxed atomic counters. *)
Record ChunkCache := mkChunkCache { cache : C; metrics : ChunkCacheMetricsSnapshot }.

Definition new_cache : ChunkCache := mkChunkCache cache_empty (mkCacheMetrics 0 0).

Definition get_by_key (c : ChunkCache) (key : ChunkKey) : option bytes * ChunkCache :=
  let value := cache_get (cache c) key in
  let m := metrics c in
  let m' := match value with
            | Some _ => mkCacheMetrics (wrap 64 (hits m + 1)) (misses m)
            | None => mkCacheMetrics (hits m) (wrap 64 (misses m + 1))
            end in
  (value, mkChunkCache (cache c) m').

Definition insert_by_key (c : ChunkCache) (key : ChunkKey) (data : bytes) : ChunkCache :=
  mkChunkCache (cache_insert (cache c) key data) (metrics c).

Definition cache_get_chunk (c : ChunkCache) (document_id chunk_index : Z) :=
  get_by_key c (mkChunkKey document_id chunk_index).

Definition cache_insert_chunk (c : ChunkCache) (document_id chunk_index : Z) (data : bytes) :=
  insert_by_key c (mkChunkKey document_id chunk_index) data.

(** [try_get_with]: the cached value, or the fetch, whose success alone is cached.  [fetch] runs
    in the world [W] and is not run at all when a value is found. *)
Definition try_get_with {W E : Type} (c : ChunkCache) (key : ChunkKey)
    (fetch : W -> result E bytes * W) (w : W) : result E bytes * ChunkCache * W :=
  match cache_get (cache c) key with
  | Some v => (Ok v, c, w)
  | None =>
      match fetch w with
      | (Ok v, w') => (Ok v, insert_by_key c key v, w')
      | (Err e, w') => (Err e, c, w')
      end
  end.

Definition get_or_fetch {W E : Type} (c : ChunkCache) (document_id chunk_index : Z)
    (fetch : W -> result E bytes * W) (w : W) : result E bytes * ChunkCache * W :=
  let key := mkChunkKey document_id chunk_index in
  match get_by_key c key with
  | (Some value, c') => (Ok value, c', w)
  | (None, c') => try_get_with c' key fetch w
  end.

(** Every cached block is the block the key names. *)
Definition coherent (content : ChunkKey -> bytes) (c : ChunkCache) : Prop :=
  forall key data, cache_get (cache c) key = Some data -> data = content key.

Definition fetches {W E : Type} (content : ChunkKey -> bytes) (key : ChunkKey)
    (fetch : W -> result E bytes * W) : Prop :=
  forall w data w', fetch w = (Ok data, w') -> data = content key.

Lemma insert_coherent content c key :
  coherent content c -> coherent content (insert_by_key c key (content key)).
Proof.
  intros Hc k d H. apply cache_get_insert in H. case_decide; [by subst|by apply Hc].
Qed.

Lemma get_by_key_cache c key :
  cache (snd (get_by_key c key)) = cache c /\ fst (get_by_key c key) = cache_get (cache c) key.
Proof. done. Qed.

End ChunkCache.
Arguments ChunkCache C : clear implicits.

Section Properties.
Context {C : Type} `{!MokaCache ChunkKey bytes C} {W E : Type}.
Implicit Types c : ChunkCache C.

(** The cache never serves a wrong block: starting from a coherent cache, whatever
    [get_or_fetch] returns is the block its key names and the cache stays coherent, provided the
    fetch itself returns that block when it succeeds. *)
Theorem get_or_fetch_coherent (content : ChunkKey -> bytes) c doc i
    (fetch : W -> result E bytes * W) (w : W) :
  coherent content c -> fetches content (mkChunkKey doc i) fetch ->
  let '(r, c', _) := get_or_fetch c doc i fetch w in
  coherent content c' /\ (forall data, r = Ok data -> data = content (mkChunkKey doc i)).
Proof.
  intros Hc Hf. unfold get_or_fetch, get_by_key, try_get_with.
  destruct (cache_get (cache c) (mkChunkKey doc i)) as [v|] eqn:E1; simpl; [naive_solver|].
  rewrite E1. destruct (fetch w) as [[v|e] w'] eqn:E2; [|naive_solver].
  apply Hf in E2 as ->. split; [by apply (insert_coherent content (mkChunkCache _ _))|naive_solver].
Qed.

(** A hit is served without running the fetch and is counted as one hit; a miss runs it once
    and is counted as one miss. *)
Theorem get_or_fetch_hit_miss c doc i (fetch : W -> result E bytes * W) (w : W) :
  match cache_get (cache c) (mkChunkKey doc i) with
  | Some v =>
      exists c', get_or_fetch c doc i fetch w = (Ok v, c', w) /\ cache c' = cache c /\
        hits (metrics c') = wrap 64 (hits (metrics c) + 1) /\ misses (metrics c') = misses (metrics c)
  | None =>
      exists c', get_or_fetch c doc i fetch w = (fst (fetch w), c', snd (fetch w)) /\
        hits (metrics c') = hits (metrics c) /\
        misses (metrics c') = wrap 64 (misses (metrics c) + 1)
  end.
Proof.
  unfold get_or_fetch, get_by_key, try_get_with.
  destruct (cache_get (cache c) (mkChunkKey doc i)) as [v|] eqn:E1; simpl; [by eexists|].
  rewrite E1. destruct (fetch w) as [[v|e] w']; simpl; by eexists.
Qed.

End Properties.

Lemma get_or_fetch_coherent_witness :
  let c := new_cache (C := gmap ChunkKey bytes) in
  let fetch := fun w : nat => (@Ok StreamError bytes [Byte.x2a], S w) in
  let '(r, c', _) := get_or_fetch c 7 0 fetch 0%nat in
  coherent (fun _ => [Byte.x2a]) c' /\ (forall data, r = Ok data -> data = [Byte.x2a]).
Proof.
  apply (get_or_fetch_coherent (fun _ => [Byte.x2a])); [by intros k d H|].
  intros w data w' H. by simplify_eq.
Defined.
