(* ===== verification/StreamPipe.v ===== *)
(** * StreamPipe: ordered, prefetching delivery of a byte range (crates/stream/src/pipe.rs)

    [create_stream_pipe] spawns a task that walks the chunks of a range, keeps at most
    [STREAM_PREFETCH_CHUNKS] fetches pending in a [FuturesOrdered] and sends one slice per chunk
    over a bounded channel.  The model is the task's loop: [step] is one turn of the outer
    [while], [run] iterates it.  The outside world is three parameters: [results i], the outcome of
    the future of chunk [i] (a [get_or_fetch] of ChunkCache.v); [closed k], whether the client was
    gone when the [k]-th result arrived; [send_ok k], whether the send that follows succeeded.
    A slice with bad bounds panics in the source, which is the status [Panicked]. *)
From S2P Require Import Prelude Text StreamTypes ByteRanges.

Definition STREAM_PREFETCH_CHUNKS : nat := 2.

(** [&f[a..b]] without the bounds check. *)
Definition sub {A} (f : list A) (a b : Z) : list A :=
  take (Z.to_nat (b - a)) (drop (Z.to_nat a) f).

(** [Bytes::slice(a..b)], which panics out of bounds. *)
Definition slice (data : bytes) (a b : Z) : option bytes :=
  if (a <=? b) && (b <=? Z.of_nat (length data)) then Some (sub data a b) else None.

Inductive status : Type := Running | Finished | Panicked.

(** The local variables of the spawned task, the items sent, and (ghost) the fetches started. *)
Record pipe := mkPipe {
  next_chunk : Z;
  pending : list Z;
  started : list Z;
  turns : nat;
  sent : list (result str bytes);
  bytes_enqueued : Z;
  first_chunk : bool;
}.

Section Pipe.
Variable range : ByteRange.ByteRange.
Variable results : Z -> result str bytes.
Variables closed send_ok : nat -> bool.

Definition start_chunk : Z := ByteRange.start range / CHUNK_SIZE.
Definition end_chunk : Z := ByteRange.end_ range / CHUNK_SIZE.

Definition init : pipe := mkPipe start_chunk [] [] 0 [] 0 true.

(** The inner [while]: start fetches until two are pending or the last chunk is started. *)
Fixpoint refill (fuel : nat) (p : pipe) : pipe :=
  match fuel with
  | O => p
  | S f =>
      if (next_chunk p <=? end_chunk) && (length (pending p) <? STREAM_PREFETCH_CHUNKS)%nat then
        refill f (mkPipe (next_chunk p + 1) (pending p ++ [next_chunk p])
                         (started p ++ [next_chunk p]) (turns p) (sent p)
                         (bytes_enqueued p) (first_chunk p))
      else p
  end.

Definition slice_start (chunk_idx : Z) : Z :=
  if chunk_idx =? start_chunk
  then saturating_sub (ByteRange.start range) (chunk_idx * CHUNK_SIZE) else 0.

Definition slice_end (chunk_idx : Z) (chunk_data : bytes) : Z :=
  if chunk_idx =? end_chunk
  then saturating_sub (ByteRange.end_ range) (chunk_idx * CHUNK_SIZE) + 1
  else Z.of_nat (length chunk_data).

Definition fetch_failed (chunk_idx : Z) (err : str) : str :=
  lit "Failed to fetch stream chunk " ++ show_u chunk_idx ++ lit ": " ++ err.

Definition push_item (p : pipe) (item : result str bytes) (n : Z) (first : bool) : pipe :=
  mkPipe (next_chunk p) (pending p) (started p) (turns p) (sent p ++ [item])
         (wrap 64 (bytes_enqueued p + n)) first.

(** The handling of one finished future, after [pending.next()]. *)
Definition deliver (k : nat) (chunk_idx : Z) (p : pipe) : pipe * status :=
  if closed k then (p, Finished)
  else match results chunk_idx with
  | Err err =>
      (if send_ok k then push_item p (Err (fetch_failed chunk_idx err)) 0 (first_chunk p) else p,
       Finished)
  | Ok chunk_data =>
      let s := slice_start chunk_idx in
      let len := Z.of_nat (length chunk_data) in
      if s <? len then
        match slice chunk_data s (Z.min (slice_end chunk_idx chunk_data) len) with
        | None => (p, Panicked)
        | Some sliced =>
            if send_ok k
            then (push_item p (Ok sliced) (Z.of_nat (length sliced)) false, Running)
            else (p, Finished)
        end
      else (p, Running)
  end.

Definition step (p : pipe) : pipe * status :=
  if (next_chunk p <=? end_chunk) || negb (bool_decide (pending p = [])) then
    let p := refill (S STREAM_PREFETCH_CHUNKS) p in
    match pending p with
    | [] => (p, Finished)
    | chunk_idx :: rest =>
        deliver (turns p) chunk_idx
          (mkPipe (next_chunk p) rest (started p) (S (turns p)) (sent p)
                  (bytes_enqueued p) (first_chunk p))
    end
  else (p, Finished).

Fixpoint run_from (fuel : nat) (p : pipe) : pipe * status :=
  match fuel with
  | O => (p, Running)
  | S f => match step p with
           | (p', Running) => run_from f p'
           | stop => stop
           end
  end.

(** One turn per chunk of the range, and one to find the loop condition false. *)
Definition chunk_count : nat := Z.to_nat (end_chunk - start_chunk + 1).

Definition create_stream_pipe : pipe * status := run_from (S chunk_count) init.

(** ** Lemmas *)

(** The task has handled the chunks below [i]; those from [i] on that are started are pending. *)
Definition in_order (p : pipe) (i : Z) : Prop :=
  i = start_chunk + Z.of_nat (turns p) /\
  i <= next_chunk p <= end_chunk + 1 /\ next_chunk p <= i + 2 /\
  pending p = seqZ i (next_chunk p - i) /\
  started p = seqZ start_chunk (next_chunk p - start_chunk).

Definition same_output (p p' : pipe) : Prop :=
  sent p' = sent p /\ turns p' = turns p /\ bytes_enqueued p' = bytes_enqueued p.

Lemma seqZ_snoc a n : 0 <= n -> seqZ a (n + 1) = seqZ a n ++ [a + n].
Proof. intros Hn. by rewrite seqZ_app by lia. Qed.

Lemma refill_in_order f p i :
  in_order p i ->
  in_order (refill f p) i /\ same_output p (refill f p) /\ next_chunk p <= next_chunk (refill f p) /\
  (f <> 0%nat -> i <= end_chunk -> i < next_chunk (refill f p)).
Proof.
  revert p. induction f as [|f IH]; intros p Hp; [simpl; unfold same_output; naive_solver lia|].
  destruct Hp as (Hi & Hn & H2 & Hpend & Hst). cbn [refill].
  assert (Hlen : Z.of_nat (length (pending p)) = next_chunk p - i).
  { rewrite Hpend, length_seqZ. lia. }
  destruct (Z.leb_spec (next_chunk p) end_chunk) as [Hle|Hgt]; simpl.
  - destruct (Nat.ltb_spec (length (pending p)) STREAM_PREFETCH_CHUNKS) as [Hlt|Hge];
      unfold STREAM_PREFETCH_CHUNKS in *.
    + edestruct (IH (mkPipe (next_chunk p + 1) (pending p ++ [next_chunk p])
        (started p ++ [next_chunk p]) (turns p) (sent p) (bytes_enqueued p) (first_chunk p)))
        as (Ha & Hb & Hc & Hd); [|split_and!; [exact Ha|exact Hb|simpl in Hc; lia|simpl in Hc; lia]].
      unfold in_order. simpl. split_and!; try lia.
      * rewrite Hpend. replace (next_chunk p + 1 - i) with (next_chunk p - i + 1) by lia.
        rewrite seqZ_snoc by lia. do 2 f_equal. lia.
      * rewrite Hst. replace (next_chunk p + 1 - start_chunk) with (next_chunk p - start_chunk + 1) by lia.
        rewrite seqZ_snoc by lia. do 2 f_equal. lia.
    + unfold in_order, same_output. split_and!; auto; lia.
  - unfold in_order, same_output. split_and!; auto; lia.
Qed.

Lemma deliver_frame k idx p :
  let '(p', _) := deliver k idx p in
  next_chunk p' = next_chunk p /\ pending p' = pending p /\ started p' = started p /\
  turns p' = turns p.
Proof. unfold deliver. repeat case_match; simplify_eq/=; done. Qed.

(** One turn either ends the loop without touching the output, or handles chunk [i]. *)
Lemma step_cases p i :
  in_order p i ->
  (end_chunk < i /\ step p = (p, Finished)) \/
  (i <= end_chunk /\ exists q, step p = deliver (turns p) i q /\ sent q = sent p /\
     bytes_enqueued q = bytes_enqueued p /\ in_order q (i + 1)).
Proof.
  intros Hp. pose proof Hp as (Hi & Hn & H2 & Hpend & Hst). unfold step.
  destruct (Z.leb_spec i end_chunk) as [Hie|Hie].
  - right. split; [done|].
    assert (Hc : (next_chunk p <=? end_chunk) || negb (bool_decide (pending p = [])) = true).
    { destruct (Z.leb_spec (next_chunk p) end_chunk); [done|]. simpl.
      rewrite Hpend, seqZ_cons by lia. by rewrite bool_decide_eq_false_2. }
    rewrite Hc.
    destruct (refill_in_order (S STREAM_PREFETCH_CHUNKS) p i Hp)
      as ((Ri & Rn & R2 & Rp & Rs) & (So & St & Sb) & Rm & Rlt).
    specialize (Rlt ltac:(done) Hie). set (r := refill _ p) in *.
    rewrite Rp, seqZ_cons by lia. eexists. split; [by rewrite St|]. simpl. split_and!; [done|done|].
    unfold in_order. simpl. split_and!; try lia; [|done].
    f_equal; lia.
  - left. split; [done|]. rewrite (proj2 (Z.leb_gt _ _)) by lia.
    rewrite Hpend, seqZ_nil by lia. done.
Qed.

Lemma init_in_order : start_chunk <= end_chunk + 1 -> in_order init start_chunk.
Proof. intros H. unfold in_order, init. simpl. rewrite Z.sub_diag. split_and!; try done; lia. Qed.

(** Rule induction over the turns of the loop: [Q] holds of the output after the chunks below [i],
    [F] of the output when the loop stops early. *)
Lemma run_invariant (Q : Z -> pipe -> Prop) (F : pipe -> status -> Prop) :
  (forall p i, Q i p -> i = end_chunk + 1 -> F p Finished) ->
  (forall p q i, Q i p -> start_chunk <= i <= end_chunk -> in_order q (i + 1) -> sent q = sent p ->
     bytes_enqueued q = bytes_enqueued p ->
     let '(p', st) := deliver (turns p) i q in
     if st is Running then Q (i + 1) p' else F p' st) ->
  forall fuel p i, in_order p i -> Q i p -> (Z.to_nat (end_chunk - i + 1) < fuel)%nat ->
  let '(p', st) := run_from fuel p in st <> Running /\ F p' st.
Proof.
  intros Hdone Hdeliver. induction fuel as [|f IH]; intros p i Hp HQ Hf; [lia|]. cbn [run_from].
  destruct (step_cases p i Hp) as [[Hi ->]|(Hi & q & -> & Hs & Hb & Hq)].
  - split; [done|]. apply (Hdone p i HQ). destruct Hp as (_ & ? & _). lia.
  - specialize (Hdeliver p q i HQ). pose proof (deliver_frame (turns p) i q) as Hfr.
    destruct (deliver (turns p) i q) as [p' st] eqn:Hd.
    assert (Hr : start_chunk <= i <= end_chunk) by (destruct Hp as (? & _); lia).
    specialize (Hdeliver Hr Hq Hs Hb). destruct st; [|by split..].
    apply (IH p' (i + 1)); [|done|lia].
    destruct Hfr as (E1 & E2 & E3 & E4). unfold in_order in *. by rewrite E1, E2, E3, E4.
Qed.

End Pipe.

Lemma sub_app {A} (f : list A) a b c : 0 <= a <= b -> b <= c -> sub f a b ++ sub f b c = sub f a c.
Proof.
  intros Ha Hb. unfold sub.
  replace (Z.to_nat (c - a)) with (Z.to_nat (b - a) + Z.to_nat (c - b))%nat by lia.
  replace (drop (Z.to_nat b) f) with (drop (Z.to_nat (b - a)) (drop (Z.to_nat a) f)).
  - by rewrite take_take_drop.
  - rewrite drop_drop. f_equal. lia.
Qed.

Lemma sub_length {A} (f : list A) a b :
  0 <= a <= b -> b <= Z.of_nat (length f) -> Z.of_nat (length (sub f a b)) = b - a.
Proof. intros. unfold sub. rewrite length_take, length_drop. lia. Qed.

Lemma sub_sub {A} (f : list A) a b s e :
  0 <= a -> 0 <= s -> s <= e -> a + e <= b -> sub (sub f a b) s e = sub f (a + s) (a + e).
Proof.
  intros Ha Hs Hse Hb. unfold sub.
  replace (Z.to_nat (b - a)) with (Z.to_nat s + Z.to_nat (b - a - s))%nat by lia.
  rewrite <-take_drop_commute, take_take, drop_drop. f_equal; [lia|f_equal; lia].
Qed.

Lemma sub_empty {A} (f : list A) a : sub f a a = [].
Proof. unfold sub. by rewrite Z.sub_diag. Qed.
#[export] Hint Rewrite @sub_empty : peerless_rw.

(** *** The bytes of a range, cut at chunk boundaries *)

Section Delivery.
Variable file : bytes.
Variable range : ByteRange.ByteRange.
Hypothesis range_valid : ByteRange.valid_range (Z.of_nat (length file)) range.
Local Abbreviation first := (start_chunk range).
Local Abbreviation last := (end_chunk range).

(** The bytes of the range that the chunks below [i] hold end here. *)
Definition cut (i : Z) : Z :=
  Z.max (ByteRange.start range) (Z.min (ByteRange.end_ range + 1) (i * CHUNK_SIZE)).

Lemma chunk_bounds :
  0 <= first <= last /\ first * CHUNK_SIZE <= ByteRange.start range < (first + 1) * CHUNK_SIZE /\
  last * CHUNK_SIZE <= ByteRange.end_ range < (last + 1) * CHUNK_SIZE.
Proof.
  destruct range_valid as [[Hs Hse] He]. unfold start_chunk, end_chunk.
  pose proof CHUNK_SIZE_pos as HC.
  pose proof (Z.div_mod (ByteRange.start range) CHUNK_SIZE ltac:(lia)).
  pose proof (Z.mod_pos_bound (ByteRange.start range) CHUNK_SIZE HC).
  pose proof (Z.div_mod (ByteRange.end_ range) CHUNK_SIZE ltac:(lia)).
  pose proof (Z.mod_pos_bound (ByteRange.end_ range) CHUNK_SIZE HC).
  pose proof (Z.div_pos (ByteRange.start range) CHUNK_SIZE Hs HC).
  pose proof (Z.div_le_mono _ _ CHUNK_SIZE HC Hse). lia.
Qed.

Lemma cut_first : cut first = ByteRange.start range.
Proof. unfold cut. pose proof chunk_bounds. lia. Qed.

Lemma cut_end : cut (last + 1) = ByteRange.end_ range + 1.
Proof. unfold cut. pose proof chunk_bounds. destruct range_valid. lia. Qed.

Lemma cut_mono i : 0 <= i -> cut i <= cut (i + 1).
Proof. unfold cut. intros. pose proof CHUNK_SIZE_pos. lia. Qed.

Lemma file_chunk_sub i : 0 <= i -> file_chunk file i = sub file (i * CHUNK_SIZE) ((i + 1) * CHUNK_SIZE).
Proof. intros Hi. unfold file_chunk, sub. do 2 f_equal. lia. Qed.

Lemma length_file_chunk i :
  first <= i <= last ->
  Z.of_nat (length (file_chunk file i)) =
    Z.min CHUNK_SIZE (Z.of_nat (length file) - i * CHUNK_SIZE) /\
  i * CHUNK_SIZE < Z.of_nat (length file).
Proof.
  intros Hi. pose proof chunk_bounds as (? & ? & ?). pose proof CHUNK_SIZE_pos.
  destruct range_valid as [? ?]. assert (i * CHUNK_SIZE <= last * CHUNK_SIZE) by nia.
  unfold file_chunk. rewrite length_take, length_drop. nia.
Qed.

(** The slice arithmetic of the source selects exactly the bytes between two cuts. *)
Lemma deliver_ok results closed send_ok k i p :
  first <= i <= last -> results i = Ok (file_chunk file i) -> closed k = false ->
  let piece := sub file (cut i) (cut (i + 1)) in
  deliver range results closed send_ok k i p =
    (if send_ok k then (push_item p (Ok piece) (Z.of_nat (length piece)) false, Running)
     else (p, Finished)) /\
  Z.of_nat (length piece) = cut (i + 1) - cut i.
Proof.
  intros Hi Hr Hc piece. pose proof chunk_bounds as (H0 & Hf & Hl). pose proof CHUNK_SIZE_pos as HC.
  destruct (length_file_chunk i Hi) as [Hlen Hin]. destruct range_valid as [[? ?] ?].
  assert (Hcut : 0 <= cut i /\ cut i <= cut (i + 1) /\ cut (i + 1) <= Z.of_nat (length file)).
  { unfold cut. nia. }
  split; [|unfold piece; apply sub_length; lia].
  unfold deliver. rewrite Hc, Hr.
  assert (Hs : slice_start range i = cut i - i * CHUNK_SIZE).
  { unfold slice_start, cut. destruct (Z.eqb_spec i first) as [->|Hne].
    - rewrite saturating_sub_exact by lia. lia.
    - assert (first * CHUNK_SIZE + CHUNK_SIZE <= i * CHUNK_SIZE) by nia.
      assert (i * CHUNK_SIZE <= last * CHUNK_SIZE) by nia. lia. }
  assert (He : Z.min (slice_end range i (file_chunk file i)) (Z.of_nat (length (file_chunk file i)))
               = cut (i + 1) - i * CHUNK_SIZE).
  { unfold slice_end. rewrite Hlen. unfold cut. destruct (Z.eqb_spec i last) as [->|Hne].
    - rewrite saturating_sub_exact by lia. lia.
    - assert (i * CHUNK_SIZE + CHUNK_SIZE <= last * CHUNK_SIZE) by nia.
      assert (first * CHUNK_SIZE <= i * CHUNK_SIZE) by nia. lia. }
  assert (Hlt : slice_start range i < Z.of_nat (length (file_chunk file i))).
  { rewrite Hs, Hlen. unfold cut. nia. }
  rewrite (proj2 (Z.ltb_lt _ _) Hlt), Hs, He. unfold slice.
  rewrite (proj2 (Z.leb_le _ _)) by lia. rewrite (proj2 (Z.leb_le _ _)) by (rewrite <-He; lia).
  simpl. rewrite file_chunk_sub by lia. rewrite sub_sub; [|unfold cut in *; nia..].
  replace (i * CHUNK_SIZE + (cut i - i * CHUNK_SIZE)) with (cut i) by lia.
  by replace (i * CHUNK_SIZE + (cut (i + 1) - i * CHUNK_SIZE)) with (cut (i + 1)) by lia.
Qed.

(** The [Ok] items of the channel, joined. *)
Definition received (items : list (result str bytes)) : bytes :=
  mjoin (default [] ∘ ok <$> items).

Lemma received_snoc items item : received (items ++ [item]) = received items ++ default [] (ok item).
Proof. unfold received. rewrite fmap_app, join_app. simpl. by rewrite app_nil_r. Qed.

(** Output after the chunks below [i]. *)
Definition delivered_upto (i : Z) (p : pipe) : Prop :=
  Forall (fun x => is_ok x = true) (sent p) /\
  received (sent p) = sub file (ByteRange.start range) (cut i) /\
  bytes_enqueued p = wrap 64 (cut i - ByteRange.start range).

Lemma delivered_step results closed send_ok k i p q :
  delivered_upto i p -> first <= i <= last -> results i = Ok (file_chunk file i) ->
  closed k = false -> send_ok k = true -> sent q = sent p -> bytes_enqueued q = bytes_enqueued p ->
  exists p', deliver range results closed send_ok k i q = (p', Running) /\ delivered_upto (i + 1) p'.
Proof.
  intros (Hok & Hrec & Hb) Hi Hr Hc Hso Hs Hq.
  destruct (deliver_ok results closed send_ok k i q Hi Hr Hc) as [Hd Hlen]. rewrite Hso in Hd.
  eexists. split; [exact Hd|]. pose proof chunk_bounds as (? & ? & ?). destruct range_valid as [[? ?] ?].
  assert (ByteRange.start range <= cut i) by (unfold cut; lia).
  unfold delivered_upto, push_item. simpl. rewrite Hs, Hq, received_snoc, Hrec, Hb, Hlen. split_and!.
  - apply Forall_app; split; [done|by repeat constructor].
  - simpl. apply sub_app; [lia|]. apply cut_mono. lia.
  - unfold wrap. rewrite Zplus_mod_idemp_l. f_equal. lia.
Qed.

Lemma delivered_init : delivered_upto first (init range).
Proof.
  unfold delivered_upto, init. simpl. rewrite cut_first, sub_empty, Z.sub_diag. split_and!; done.
Qed.

End Delivery.

(** ** Properties *)

(** C1: the client of a valid range receives exactly the bytes of the range, in order and without
    an error item, and the byte counter advances by the announced content length; this holds for
    every way the range falls on chunk boundaries. *)
Theorem pipe_delivers_range file range results closed send_ok :
  ByteRange.valid_range (Z.of_nat (length file)) range ->
  (forall i, start_chunk range <= i <= end_chunk range -> results i = Ok (file_chunk file i)) ->
  (forall k, closed k = false) -> (forall k, send_ok k = true) ->
  let '(p, st) := create_stream_pipe range results closed send_ok in
  st = Finished /\ Forall (fun x => is_ok x = true) (sent p) /\
  received (sent p) = sub file (ByteRange.start range) (ByteRange.end_ range + 1) /\
  bytes_enqueued p = wrap 64 (ByteRange.length range).
Proof.
  intros Hv Hr Hc Hso. pose proof (chunk_bounds _ _ Hv) as (H0 & _ & _).
  assert (Hrun := run_invariant range results closed send_ok
    (delivered_upto file range)
    (fun p st => st = Finished /\ delivered_upto file range (end_chunk range + 1) p)).
  specialize (Hrun ltac:(by intros p i H ->)).
  unfold create_stream_pipe.
  specialize (fun H => Hrun H (S (chunk_count range)) (init range) (start_chunk range)
    (init_in_order range ltac:(lia)) (delivered_init _ _ Hv) ltac:(unfold chunk_count; lia)).
  destruct (run_from _ _ _ _ _ _) as [p st]. destruct Hrun as (_ & -> & Hok & Hrec & Hb).
  - intros p' q i HQ Hi _ Hs Hb.
    edestruct (delivered_step file range Hv results closed send_ok (turns p') i p' q)
      as (r & -> & Hr'); eauto.
  - rewrite (cut_end file range Hv) in Hrec, Hb. split_and!; [done..|].
    rewrite Hb. unfold ByteRange.length. destruct Hv as [[? ?] ?].
    rewrite saturating_sub_exact by lia. f_equal. lia.
Qed.

(** The loop always stops, never panics on a slice, and keeps at most two fetches pending: for
    every outcome of the fetches and of the client, the task ends within one turn per chunk, having
    started the chunks in order, each once, and at most two ahead of the last one handled. *)
Theorem pipe_terminates_bounded file range results closed send_ok :
  ByteRange.valid_range (Z.of_nat (length file)) range ->
  (forall i data, results i = Ok data -> data = file_chunk file i) ->
  let '(p, st) := create_stream_pipe range results closed send_ok in
  st = Finished /\ (turns p <= chunk_count range)%nat /\
  exists n, started p = seqZ (start_chunk range) n /\
    0 <= n <= Z.of_nat (turns p) + 2 /\ n <= end_chunk range - start_chunk range + 1.
Proof.
  intros Hv Hr. pose proof (chunk_bounds _ _ Hv) as (H0 & _ & _).
  assert (Hrun := run_invariant range results closed send_ok
    (fun i p => in_order range p i)
    (fun p st => st = Finished /\ exists i, in_order range p i)).
  unfold create_stream_pipe.
  specialize (fun A B => Hrun A B (S (chunk_count range)) (init range) (start_chunk range)
    (init_in_order range ltac:(lia)) (init_in_order range ltac:(lia)) ltac:(unfold chunk_count; lia)).
  destruct (run_from _ _ _ _ _ _) as [p st].
  destruct Hrun as (_ & -> & i & Hi & Hn & H2 & _ & Hst); [by eauto| |].
  - intros p' q i HQ Hi Hq Hs Hb. pose proof (deliver_frame range results closed send_ok (turns p') i q) as Hfr.
    assert (Hst : snd (deliver range results closed send_ok (turns p') i q) <> Panicked).
    { destruct (closed (turns p')) eqn:Hc; [unfold deliver; by rewrite Hc|].
      destruct (results i) as [data|e] eqn:Hres; [|unfold deliver; rewrite Hc, Hres; by destruct (send_ok _)].
      rewrite (Hr _ _ Hres) in Hres.
      destruct (deliver_ok file range Hv results closed send_ok (turns p') i q Hi Hres Hc) as [-> _].
      by destruct (send_ok _). }
    destruct (deliver _ _ _ _ _ _ _) as [p'' st''].
    assert (Hq' : in_order range p'' (i + 1)).
    { destruct Hfr as (E1 & E2 & E3 & E4). unfold in_order in *. by rewrite E1, E2, E3, E4. }
    destruct st''; [done|eauto|done].
  - split_and!; [done|unfold chunk_count; lia|]. exists (next_chunk p - start_chunk range).
    split_and!; [done|lia..].
Qed.

(** Fail-stop: if the fetch of chunk [j] fails, the client receives exactly the bytes of the
    range below that chunk, then one error item, and nothing after it. *)
Theorem pipe_fail_stop file range results closed send_ok j err :
  ByteRange.valid_range (Z.of_nat (length file)) range ->
  start_chunk range <= j <= end_chunk range -> results j = Err err ->
  (forall i, start_chunk range <= i < j -> results i = Ok (file_chunk file i)) ->
  (forall k, closed k = false) -> (forall k, send_ok k = true) ->
  let '(p, st) := create_stream_pipe range results closed send_ok in
  st = Finished /\ exists items, sent p = items ++ [Err (fetch_failed j err)] /\
    Forall (fun x => is_ok x = true) items /\
    received items = sub file (ByteRange.start range) (cut range j).
Proof.
  intros Hv Hj He Hr Hc Hso. pose proof (chunk_bounds _ _ Hv) as (H0 & _ & _).
  assert (Hrun := run_invariant range results closed send_ok
    (fun i p => i <= j /\ delivered_upto file range i p)
    (fun p st => st = Finished /\ exists items, sent p = items ++ [Err (fetch_failed j err)] /\
      Forall (fun x => is_ok x = true) items /\
      received items = sub file (ByteRange.start range) (cut range j))).
  unfold create_stream_pipe.
  specialize (fun A B => Hrun A B (S (chunk_count range)) (init range) (start_chunk range)
    (init_in_order range ltac:(lia)) (conj (proj1 Hj) (delivered_init _ _ Hv)) ltac:(unfold chunk_count; lia)).
  destruct (run_from _ _ _ _ _ _) as [p st]. destruct Hrun as (_ & HF); [lia| |done].
  intros p' q i [Hij HQ] Hi _ Hs Hb. destruct (decide (i = j)) as [->|Hne].
  - unfold deliver. rewrite Hc, He, Hso. split; [done|]. exists (sent p'). simpl. rewrite Hs.
    by destruct HQ as (? & ? & _).
  - edestruct (delivered_step file range Hv results closed send_ok (turns p') i p' q)
      as (r & -> & Hr'); eauto; [apply Hr; lia|]. split; [lia|done].
Qed.

(** A file of three bytes, all in chunk 0, streamed from its second byte. *)
Definition demo_file : bytes := [Byte.x61; Byte.x62; Byte.x63].
Definition demo_range : ByteRange.ByteRange := ByteRange.mkByteRange 1 2.

Lemma demo_range_valid : ByteRange.valid_range (Z.of_nat (length demo_file)) demo_range.
Proof. unfold ByteRange.valid_range. simpl. lia. Qed.

Lemma pipe_delivers_range_witness :
  let '(p, st) := create_stream_pipe demo_range (fun i => Ok (file_chunk demo_file i))
                    (fun _ => false) (fun _ => true) in
  st = Finished /\ Forall (fun x => is_ok x = true) (sent p) /\
  received (sent p) = [Byte.x62; Byte.x63] /\
  bytes_enqueued p = wrap 64 (ByteRange.length demo_range).
Proof. exact (pipe_delivers_range demo_file demo_range _ _ _ demo_range_valid
  (fun _ _ => eq_refl) (fun _ => eq_refl) (fun _ => eq_refl)). Defined.

Lemma pipe_terminates_bounded_witness :
  let '(p, st) := create_stream_pipe demo_range (fun i => Ok (file_chunk demo_file i))
                    (fun k => (0 <? k)%nat) (fun _ => true) in
  st = Finished /\ (turns p <= chunk_count demo_range)%nat /\
  exists n, started p = seqZ (start_chunk demo_range) n /\
    0 <= n <= Z.of_nat (turns p) + 2 /\ n <= end_chunk demo_range - start_chunk demo_range + 1.
Proof. apply (pipe_terminates_bounded demo_file); [apply demo_range_valid|]. by intros i d [= <-]. Defined.

Lemma pipe_fail_stop_witness :
  let '(p, st) := create_stream_pipe demo_range (fun _ => Err (lit "gone"))
                    (fun _ => false) (fun _ => true) in
  st = Finished /\ exists items, sent p = items ++ [Err (fetch_failed 0 (lit "gone"))] /\
    Forall (fun x => is_ok x = true) items /\
    received items = sub demo_file (ByteRange.start demo_range) (cut demo_range 0).
Proof.
  apply (pipe_fail_stop demo_file); [apply demo_range_valid|done|done| |done|done].
  intros i Hi. exfalso. change (start_chunk demo_range) with 0 in Hi. lia.
Defined.
