(* ===== verification/Metrics.v ===== *)
(** * Metrics: relaxed atomic counters of the stream crate (crates/stream/src/metrics.rs)

    [StreamMetrics] is a struct of [AtomicU64]s, one per [counter]; a [fetch_add] wraps at 64 bits.
    Durations are nanoseconds. *)
From S2P Require Import Prelude.

Inductive RetryReason : Type :=
| Network
| Timeout_
| FloodWait_
| ConnectionNotInited
| DcMigration
| PrimaryFallback.

Inductive counter : Type :=
| streams_started | streams_with_first_chunk
| first_chunk_latency_micros_total | first_chunk_latency_micros_max
| chunk_fetches | chunk_fetch_failures
| chunk_fetch_latency_micros_total | chunk_fetch_latency_micros_max
| rpc_attempts | retries
| network_retries | timeout_retries | flood_wait_retries
| connection_not_inited_retries | dc_migration_retries | primary_fallback_retries
| telegram_bytes_received | bytes_enqueued | file_reference_refreshes
| worker_lock_waits | worker_lock_wait_micros_total | worker_lock_wait_micros_max
| rpc_slot_waits | rpc_slot_wait_micros_total | rpc_slot_wait_micros_max.

#[export] Instance counter_eq_dec : EqDecision counter.
Proof. solve_decision. Defined.

(** The struct, and its [Default]. *)
Definition StreamMetrics : Type := counter -> Z.
Definition metrics_default : StreamMetrics := fun _ => 0.

Definition fetch_add (c : counter) (n : Z) (m : StreamMetrics) : StreamMetrics :=
  fun c' => if decide (c = c') then wrap 64 (m c + n) else m c'.

Definition fetch_max (c : counter) (n : Z) (m : StreamMetrics) : StreamMetrics :=
  fun c' => if decide (c = c') then Z.max (m c) n else m c'.

(** [duration.as_micros().min(u64::MAX) as u64]. *)
Definition duration_micros (duration : Z) : Z := Z.min (duration / 1000) u64_max.

Definition average_millis (total_micros count : Z) : option Z :=
  if 0 <? count then Some (total_micros / count / 1000) else None.

Definition nonzero_millis (micros count : Z) : option Z :=
  if 0 <? count then Some (micros / 1000) else None.

(** The shape shared by the latency recorders: one count, one total, one maximum. *)
Definition record_latency (count total max : counter) (elapsed : Z) (m : StreamMetrics) : StreamMetrics :=
  let micros := duration_micros elapsed in
  fetch_max max micros (fetch_add total micros (fetch_add count 1 m)).

Definition record_stream_started (m : StreamMetrics) : StreamMetrics := fetch_add streams_started 1 m.

Definition record_first_chunk (elapsed : Z) (m : StreamMetrics) : StreamMetrics :=
  record_latency streams_with_first_chunk first_chunk_latency_micros_total
    first_chunk_latency_micros_max elapsed m.

Definition record_chunk_fetch (elapsed : Z) (succeeded : bool) (m : StreamMetrics) : StreamMetrics :=
  let micros := duration_micros elapsed in
  let m := fetch_add chunk_fetches 1 m in
  let m := if succeeded then m else fetch_add chunk_fetch_failures 1 m in
  fetch_max chunk_fetch_latency_micros_max micros
    (fetch_add chunk_fetch_latency_micros_total micros m).

Definition record_rpc_attempt (m : StreamMetrics) : StreamMetrics := fetch_add rpc_attempts 1 m.

Definition reason_counter (reason : RetryReason) : counter :=
  match reason with
  | Network => network_retries
  | Timeout_ => timeout_retries
  | FloodWait_ => flood_wait_retries
  | ConnectionNotInited => connection_not_inited_retries
  | DcMigration => dc_migration_retries
  | PrimaryFallback => primary_fallback_retries
  end.

Definition record_retry (reason : RetryReason) (m : StreamMetrics) : StreamMetrics :=
  fetch_add (reason_counter reason) 1 (fetch_add retries 1 m).

Definition record_telegram_bytes (n : Z) (m : StreamMetrics) : StreamMetrics :=
  fetch_add telegram_bytes_received n m.

Definition record_bytes_enqueued (n : Z) (m : StreamMetrics) : StreamMetrics :=
  fetch_add bytes_enqueued n m.

Definition record_file_reference_refresh (m : StreamMetrics) : StreamMetrics :=
  fetch_add file_reference_refreshes 1 m.

Definition record_worker_lock_wait (elapsed : Z) (m : StreamMetrics) : StreamMetrics :=
  record_latency worker_lock_waits worker_lock_wait_micros_total worker_lock_wait_micros_max elapsed m.

Definition record_rpc_slot_wait (elapsed : Z) (m : StreamMetrics) : StreamMetrics :=
  record_latency rpc_slot_waits rpc_slot_wait_micros_total rpc_slot_wait_micros_max elapsed m.

(** The derived fields of [snapshot()]; the others are the counters themselves. *)
Record LatencySnapshot := mkLatency { avg_ms : option Z; max_ms : option Z }.

Definition latency_snapshot (count total max : counter) (m : StreamMetrics) : LatencySnapshot :=
  mkLatency (average_millis (m total) (m count)) (nonzero_millis (m max) (m count)).

Record StreamMetricsSnapshot := mkSnapshot {
  counters : counter -> Z;
  first_chunk_latency : LatencySnapshot;
  chunk_fetch_latency : LatencySnapshot;
  worker_lock_wait : LatencySnapshot;
  rpc_slot_wait : LatencySnapshot;
}.

Definition snapshot (m : StreamMetrics) : StreamMetricsSnapshot := mkSnapshot m
  (latency_snapshot streams_with_first_chunk first_chunk_latency_micros_total
     first_chunk_latency_micros_max m)
  (latency_snapshot chunk_fetches chunk_fetch_latency_micros_total chunk_fetch_latency_micros_max m)
  (latency_snapshot worker_lock_waits worker_lock_wait_micros_total worker_lock_wait_micros_max m)
  (latency_snapshot rpc_slot_waits rpc_slot_wait_micros_total rpc_slot_wait_micros_max m).

(** The calls the stream code makes. *)
Inductive metric_op : Type :=
| MStreamStarted
| MFirstChunk (elapsed : Z)
| MChunkFetch (elapsed : Z) (succeeded : bool)
| MRpcAttempt
| MRetry (reason : RetryReason)
| MTelegramBytes (n : Z)
| MBytesEnqueued (n : Z)
| MRefresh
| MWorkerLockWait (elapsed : Z)
| MRpcSlotWait (elapsed : Z).

Definition record (op : metric_op) (m : StreamMetrics) : StreamMetrics :=
  match op with
  | MStreamStarted => record_stream_started m
  | MFirstChunk e => record_first_chunk e m
  | MChunkFetch e s => record_chunk_fetch e s m
  | MRpcAttempt => record_rpc_attempt m
  | MRetry r => record_retry r m
  | MTelegramBytes n => record_telegram_bytes n m
  | MBytesEnqueued n => record_bytes_enqueued n m
  | MRefresh => record_file_reference_refresh m
  | MWorkerLockWait e => record_worker_lock_wait e m
  | MRpcSlotWait e => record_rpc_slot_wait e m
  end.

Definition record_all (ops : list metric_op) (m : StreamMetrics) : StreamMetrics :=
  foldl (fun m op => record op m) m ops.

(** ** Lemmas *)

Lemma fetch_add_eq c n m : fetch_add c n m c = wrap 64 (m c + n).
Proof. unfold fetch_add. by rewrite decide_True. Qed.

Lemma fetch_add_ne c c' n m : c <> c' -> fetch_add c n m c' = m c'.
Proof. intros. unfold fetch_add. by rewrite decide_False. Qed.

Lemma fetch_max_eq c n m : fetch_max c n m c = Z.max (m c) n.
Proof. unfold fetch_max. by rewrite decide_True. Qed.

Lemma fetch_max_ne c c' n m : c <> c' -> fetch_max c n m c' = m c'.
Proof. intros. unfold fetch_max. by rewrite decide_False. Qed.
#[export] Hint Rewrite fetch_add_eq fetch_max_eq : peerless_rw.
#[export] Hint Rewrite fetch_add_ne fetch_max_ne using done : peerless_rw.

(** Sum of the per-reason counters. *)
Definition by_reason (m : StreamMetrics) : Z :=
  m network_retries + m timeout_retries + m flood_wait_retries +
  m connection_not_inited_retries + m dc_migration_retries + m primary_fallback_retries.

Lemma wrap_add_eq a b n : wrap 64 a = wrap 64 b -> wrap 64 (a + n) = wrap 64 (b + n).
Proof. unfold wrap. intros H. by rewrite <-Zplus_mod_idemp_l, H, Zplus_mod_idemp_l. Qed.

Lemma wrap_wrap a : wrap 64 (wrap 64 a) = wrap 64 a.
Proof. unfold wrap. by rewrite Zmod_mod. Qed.

Lemma wrap_multiple x : exists k, wrap 64 x = x + k * 2 ^ 64.
Proof. exists (- (x / 2 ^ 64)). unfold wrap. rewrite Z.mod_eq; lia. Qed.

(** The fetch durations recorded by [ops], in microseconds. *)
Definition fetch_durations (ops : list metric_op) : list Z :=
  omap (fun op => match op with MChunkFetch e _ => Some (duration_micros e) | _ => None end) ops.

Lemma duration_micros_range e : 0 <= e -> in_u 64 (duration_micros e).
Proof. intros He. unfold duration_micros, in_u. rewrite umax_64. pose proof (Z.div_pos e 1000). lia. Qed.

(** Exact accounting of the fetch counters as long as nothing overflows. *)
Definition fetch_account (n f : Z) (ds : list Z) (m : StreamMetrics) : Prop :=
  m chunk_fetches = n /\ m chunk_fetch_failures = f /\ 0 <= f <= n /\
  m chunk_fetch_latency_micros_total = sumZ ds /\ n = Z.of_nat (length ds) /\
  0 <= m chunk_fetch_latency_micros_max /\
  Forall (fun d => 0 <= d <= m chunk_fetch_latency_micros_max) ds.

Definition valid_op (op : metric_op) : Prop :=
  match op with
  | MFirstChunk e | MChunkFetch e _ | MWorkerLockWait e | MRpcSlotWait e => 0 <= e
  | MTelegramBytes n | MBytesEnqueued n => 0 <= n
  | _ => True
  end.

Lemma record_other_fetch op m :
  (forall e s, op <> MChunkFetch e s) ->
  record op m chunk_fetches = m chunk_fetches /\
  record op m chunk_fetch_failures = m chunk_fetch_failures /\
  record op m chunk_fetch_latency_micros_total = m chunk_fetch_latency_micros_total /\
  record op m chunk_fetch_latency_micros_max = m chunk_fetch_latency_micros_max.
Proof. intros H. destruct op as [| |e s| |[]| | | | |]; try done. by destruct (H e s). Qed.

Lemma sumZ_le_bound ds b : Forall (fun d => 0 <= d <= b) ds -> sumZ ds <= b * Z.of_nat (length ds).
Proof. induction 1; cbn [sumZ foldr length]; [lia|]. unfold sumZ in *. simpl in *. lia. Qed.

Lemma fetch_durations_app l1 l2 : fetch_durations (l1 ++ l2) = fetch_durations l1 ++ fetch_durations l2.
Proof. apply omap_app. Qed.

(** The recorder of a fetch, counter by counter. *)
Lemma record_chunk_fetch_spec e s m (m' := record_chunk_fetch e s m) :
  m' chunk_fetches = wrap 64 (m chunk_fetches + 1) /\
  m' chunk_fetch_failures = (if s then m chunk_fetch_failures else wrap 64 (m chunk_fetch_failures + 1)) /\
  m' chunk_fetch_latency_micros_total = wrap 64 (m chunk_fetch_latency_micros_total + duration_micros e) /\
  m' chunk_fetch_latency_micros_max = Z.max (m chunk_fetch_latency_micros_max) (duration_micros e).
Proof. unfold m', record_chunk_fetch. destruct s; autorewrite with peerless_rw; by split_and!. Qed.

Lemma record_step_account op m n f ds :
  fetch_account n f ds m -> valid_op op ->
  sumZ (ds ++ fetch_durations [op]) <= u64_max -> n + 1 <= u64_max ->
  exists n' f', n' <= n + 1 /\ fetch_account n' f' (ds ++ fetch_durations [op]) (record op m).
Proof.
  intros (Hn & Hf & Hfn & Ht & Hl & Hm & Hall) Hv Hs Hn1.
  destruct op as [|e|e s| |r|b|b| |e|e] eqn:Hop.
  3: {
    destruct (record_chunk_fetch_spec e s m) as (E1 & E2 & E3 & E4).
    pose proof (duration_micros_range e Hv) as Hd. unfold in_u in Hd.
    assert (H0 : 0 <= sumZ ds) by (apply sumZ_nonneg; eapply Forall_impl; [exact Hall|simpl; lia]).
    cbn [fetch_durations omap list_omap] in *. rewrite sumZ_app in *.
    change (sumZ [duration_micros e]) with (duration_micros e + 0) in *. rewrite umax_64 in *.
    exists (n + 1), (if s then f else f + 1). split; [lia|].
    unfold fetch_account. cbn [record]. rewrite E1, E2, E3, E4, Hn, Hf, Ht, sumZ_app, length_app.
    change (sumZ [duration_micros e]) with (duration_micros e + 0).
    rewrite !wrap_small by (unfold in_u; lia). split_and!; try (simpl; lia); try (destruct s; lia).
    apply Forall_app; split; [|repeat constructor; lia].
    eapply Forall_impl; [exact Hall|]. simpl. lia. }
  all: exists n, f; split; [lia|]; unfold fetch_account; simpl fetch_durations;
    rewrite app_nil_r;
    match goal with |- context [record ?o ?k] =>
      destruct (record_other_fetch o k ltac:(done)) as (-> & -> & -> & ->) end; split_and!; done || lia.
Qed.

Lemma record_all_account ops : forall m n f ds,
  fetch_account n f ds m -> Forall valid_op ops ->
  sumZ (ds ++ fetch_durations ops) <= u64_max -> n + Z.of_nat (length ops) <= u64_max ->
  exists n' f', fetch_account n' f' (ds ++ fetch_durations ops) (record_all ops m).
Proof.
  induction ops as [|op ops IH]; intros m n f ds Hacc Hv Hs Hn.
  { exists n, f. change (fetch_durations []) with (@nil Z). by rewrite app_nil_r. }
  apply Forall_cons in Hv as [Hv Hvs]. cbn [length] in Hn.
  change (op :: ops) with ([op] ++ ops) in *. rewrite fetch_durations_app, app_assoc in *.
  assert (Hnn : Forall (fun d => 0 <= d) (fetch_durations ops)).
  { clear -Hvs. induction Hvs as [|o l Ho _ IH]; [constructor|].
    change (o :: l) with ([o] ++ l). rewrite fetch_durations_app. apply Forall_app; split; [|done].
    destruct o; try constructor; [|constructor]. by apply duration_micros_range. }
  apply sumZ_nonneg in Hnn. rewrite sumZ_app in Hs.
  destruct (record_step_account op m n f ds Hacc Hv ltac:(lia) ltac:(lia)) as (n' & f' & Hle & Hacc').
  cbn [record_all foldl app]. apply (IH _ n' f'); [done|done|by rewrite sumZ_app|lia].
Qed.

(** ** Properties *)

(** The retry total is the sum of the per-reason counters, for every sequence of recorded
    events and whatever wraps. *)
Theorem retries_by_reason ops :
  let m := record_all ops metrics_default in
  wrap 64 (m retries) = wrap 64 (by_reason m).
Proof.
  unfold record_all. assert (H0 : wrap 64 (metrics_default retries) = wrap 64 (by_reason metrics_default)) by done.
  revert H0. generalize metrics_default. induction ops as [|op ops IH]; intros m Hm; [done|].
  simpl. apply IH. destruct op as [|e|e []| |r|b|b| |e|e]; try exact Hm.
  assert (Hr : record_retry r m retries = wrap 64 (m retries + 1)) by (by destruct r).
  assert (Hb : wrap 64 (by_reason (record_retry r m)) = wrap 64 (by_reason m + 1)).
  { unfold by_reason. destruct r; cbn [record_retry reason_counter]; unfold record_retry;
      cbn [reason_counter]; autorewrite with peerless_rw;
      match goal with |- context [wrap 64 (m ?c + 1)] =>
        destruct (wrap_multiple (m c + 1)) as [k ->] end;
      unfold wrap; rewrite <-(Z_mod_plus_full (_ + 1) k); f_equal; lia. }
  change (record (MRetry r) m) with (record_retry r m). rewrite Hr, Hb, wrap_wrap.
  by apply wrap_add_eq.
Qed.

(** As long as the 64-bit accumulators do not overflow, the exported fetch statistics are
    consistent: failures never exceed fetches, the average is the mean of the recorded latencies
    and it never exceeds the exported maximum. *)
Theorem fetch_statistics_consistent ops :
  Forall valid_op ops -> sumZ (fetch_durations ops) <= u64_max -> Z.of_nat (length ops) <= u64_max ->
  let m := record_all ops metrics_default in
  let n := Z.of_nat (length (fetch_durations ops)) in
  0 <= m chunk_fetch_failures <= m chunk_fetches /\ m chunk_fetches = n /\
  match chunk_fetch_latency (snapshot m) with
  | mkLatency (Some avg) (Some max) =>
      avg = sumZ (fetch_durations ops) / n / 1000 /\ avg <= max
  | mkLatency None None => n = 0
  | _ => False
  end.
Proof.
  intros Hv Hs Hl m n.
  assert (Hinit : fetch_account 0 0 [] metrics_default) by (unfold fetch_account; split_and!; done || constructor).
  destruct (record_all_account ops _ _ _ _ Hinit Hv Hs ltac:(lia)) as (n' & f' & Hacc).
  destruct Hacc as (Hn & Hf & Hfn & Ht & Hln & Hm & Hall). simpl app in *. fold m in Hn, Hf, Ht, Hm, Hall.
  fold n in Hln. split_and!; [lia..|]. unfold snapshot, latency_snapshot. simpl.
  unfold average_millis, nonzero_millis. rewrite Hn, Ht, Hln.
  destruct (Z.ltb_spec 0 n); [|lia]. split; [done|].
  apply Z.div_le_mono; [lia|]. apply Z.div_le_upper_bound; [lia|].
  pose proof (sumZ_le_bound _ _ Hall) as Hb. fold n in Hb. lia.
Qed.

Lemma fetch_statistics_consistent_witness :
  let ops := [MChunkFetch 5000000 true; MRpcAttempt; MChunkFetch 3000000 false] in
  let m := record_all ops metrics_default in
  0 <= m chunk_fetch_failures <= m chunk_fetches /\ m chunk_fetches = 2 /\
  match chunk_fetch_latency (snapshot m) with
  | mkLatency (Some avg) (Some max) => avg = 8000 / 2 / 1000 /\ avg <= max
  | mkLatency None None => 2 = 0
  | _ => False
  end.
Proof.
  apply (fetch_statistics_consistent [MChunkFetch 5000000 true; MRpcAttempt; MChunkFetch 3000000 false]).
  - repeat constructor; simpl; lia.
  - rewrite umax_64. vm_compute. discriminate.
  - rewrite umax_64. simpl. lia.
Defined.
