(* ===== verification/WorkerPool.v ===== *)
(** * WorkerPool: worker selection and upload leases (crates/stream/src/worker_pool.rs)

    The state of [StreamWorkerPool] with its atomics as fields.  The upload gates are
    [Arc<Semaphore>]s that several workers may share (the primary client's gate is also handed to
    direct uploads), so a worker holds the name of its gate and the pool holds the store of permits.
    The circuit breaker is any [WorkerGate]: the theorems of this file use the interface only. *)
From Stdlib Require Import Sorted.
From S2P Require Import Prelude Text Interfaces StreamTypes Metrics CircuitBreaker.

(** [usize::MAX], the id of the primary fallback worker. *)
Definition PRIMARY_ID : Z := usize_max.

Record WorkerInstance := mkWorker {
  id : Z;
  in_flight : Z;
  home_dc : Z;
  slow_until : option Z;
  slow_locked : bool;       (* another task holds the [slow_until] mutex *)
  upload_slot : nat;        (* name of the semaphore behind the [Arc] *)
}.

Section Pool.
Context {G : Type} `{!WorkerGate G}.

Record StreamWorkerPool := mkPool {
  workers : list WorkerInstance;
  circuit_breaker : G;
  rr_cursor : Z;
  primary_fallback : option WorkerInstance;
  metrics : StreamMetrics;
  primary_upload_slot : nat;
  slots : nat -> Z;         (* available permits of every semaphore *)
}.

(** Field updates. *)
Definition with_workers (f : list WorkerInstance -> list WorkerInstance) (p : StreamWorkerPool) :=
  mkPool (f (workers p)) (circuit_breaker p) (rr_cursor p) (primary_fallback p) (metrics p)
    (primary_upload_slot p) (slots p).
Definition with_breaker (f : G -> G) (p : StreamWorkerPool) :=
  mkPool (workers p) (f (circuit_breaker p)) (rr_cursor p) (primary_fallback p) (metrics p)
    (primary_upload_slot p) (slots p).
Definition with_primary (f : WorkerInstance -> WorkerInstance) (p : StreamWorkerPool) :=
  mkPool (workers p) (circuit_breaker p) (rr_cursor p) (f <$> primary_fallback p) (metrics p)
    (primary_upload_slot p) (slots p).
Definition with_metrics (f : StreamMetrics -> StreamMetrics) (p : StreamWorkerPool) :=
  mkPool (workers p) (circuit_breaker p) (rr_cursor p) (primary_fallback p) (f (metrics p))
    (primary_upload_slot p) (slots p).
Definition with_slots (f : (nat -> Z) -> (nat -> Z)) (p : StreamWorkerPool) :=
  mkPool (workers p) (circuit_breaker p) (rr_cursor p) (primary_fallback p) (metrics p)
    (primary_upload_slot p) (f (slots p)).

Definition set_in_flight (n : Z) (w : WorkerInstance) : WorkerInstance :=
  mkWorker (id w) n (home_dc w) (slow_until w) (slow_locked w) (upload_slot w).
Definition set_slow_until (t : option Z) (w : WorkerInstance) : WorkerInstance :=
  mkWorker (id w) (in_flight w) (home_dc w) t (slow_locked w) (upload_slot w).

(** An update of the worker a reference points to, found by its id as in [worker_by_id]. *)
Definition update_worker (worker_id : Z) (f : WorkerInstance -> WorkerInstance)
    (p : StreamWorkerPool) : StreamWorkerPool :=
  let upd := fun w => if id w =? worker_id then f w else w in
  with_primary upd (with_workers (fmap upd) p).

(** [fetch_add(1)] of an [InFlightGuard] or a lease, and the [fetch_sub(1)] of its drop. *)
Definition in_flight_add (worker_id n : Z) : StreamWorkerPool -> StreamWorkerPool :=
  update_worker worker_id (fun w => set_in_flight (wrap 64 (in_flight w + n)) w).

Definition empty (breaker0 : G) : StreamWorkerPool :=
  mkPool [] breaker0 0 None metrics_default 0 (fun _ => 1).

Definition worker_count (p : StreamWorkerPool) : nat := length (workers p).

(** One turn of the scan in [pick_least_loaded]; the accumulator is [(best_worker, min_in_flight)]. *)
Definition scan_worker (now : Z) (p : StreamWorkerPool) (acc : option Z * Z) (w : WorkerInstance) :
    option Z * Z :=
  let '(best_worker, min_in_flight) := acc in
  if gate_open (circuit_breaker p) now (id w) then
    if in_flight w <? min_in_flight then (Some (id w), in_flight w) else acc
  else acc.

(** The workers in the order [(start + offset) % n] visits them. *)
Definition rotation {A} (start : nat) (l : list A) : list A := drop start l ++ take start l.

Definition pick_least_loaded (now : Z) (p : StreamWorkerPool) :
    result StreamError Z * StreamWorkerPool :=
  let n := Z.of_nat (length (workers p)) in
  if n =? 0 then (Err AllWorkersUnavailable, p)
  else
    let start := Z.to_nat (rr_cursor p mod n) in
    let p' := mkPool (workers p) (circuit_breaker p) (wrap 64 (rr_cursor p + 1)) (primary_fallback p)
                (metrics p) (primary_upload_slot p) (slots p) in
    let '(best_worker, _) :=
      foldl (scan_worker now p) (None, usize_max) (rotation start (workers p)) in
    (ok_or best_worker AllWorkersUnavailable, p').

Definition select_worker_for_stream (now : Z) (p : StreamWorkerPool) :
    result StreamError Z * StreamWorkerPool :=
  match pick_least_loaded now p with
  | (Ok w, p') => (Ok w, p')
  | (Err error, p') =>
      (match primary_fallback p' with Some _ => Ok PRIMARY_ID | None => Err error end, p')
  end.

Definition worker_by_id (p : StreamWorkerPool) (worker_id : Z) : option WorkerInstance :=
  match List.find (fun w => id w =? worker_id) (workers p) with
  | Some w => Some w
  | None => match primary_fallback p with
            | Some w => if id w =? worker_id then Some w else None
            | None => None
            end
  end.

(** ** Uploads *)

(** [try_lock] on [slow_until]: a lock held elsewhere counts as not slow. *)
Definition not_slow (now : Z) (w : WorkerInstance) : bool :=
  if slow_locked w then true
  else match slow_until w with Some until => until <=? now | None => true end.

(** [sort_by_key], which is stable. *)
Fixpoint insert_by {A} (key : A -> Z) (a : A) (l : list A) : list A :=
  match l with
  | [] => [a]
  | b :: l' => if key b <=? key a then b :: insert_by key a l' else a :: l
  end.

Definition sort_by_key {A} (key : A -> Z) (l : list A) : list A :=
  foldl (fun acc a => insert_by key a acc) [] l.

Definition eligible_workers (now : Z) (p : StreamWorkerPool) : list WorkerInstance :=
  sort_by_key in_flight
    (filter (fun w => gate_open (circuit_breaker p) now (id w) && not_slow now w = true) (workers p))
  ++ match primary_fallback p with
     | Some primary => if not_slow now primary then [primary] else []
     | None => []
     end.

(** The first candidate whose semaphore has a permit, which is taken. *)
Definition claim_upload_worker (permits : nat -> Z) (candidates : list WorkerInstance) :
    option WorkerInstance :=
  find_map (fun w => if 0 <? permits (upload_slot w) then Some w else None) candidates.

Definition take_permit (s : nat) (permits : nat -> Z) : nat -> Z :=
  fun s' => if decide (s = s') then permits s - 1 else permits s'.
Definition give_permit (s : nat) (permits : nat -> Z) : nat -> Z :=
  fun s' => if decide (s = s') then permits s + 1 else permits s'.

Record UploadWorkerLease := mkLease { lease_worker : Z; lease_dc : Z; lease_slot : nat }.

Definition lease_upload_worker (now : Z) (p : StreamWorkerPool) :
    result StreamError UploadWorkerLease * StreamWorkerPool :=
  match claim_upload_worker (slots p) (eligible_workers now p) with
  | Some w => (Ok (mkLease (id w) (home_dc w) (upload_slot w)),
               in_flight_add (id w) 1 (with_slots (take_permit (upload_slot w)) p))
  | None => (Err AllWorkersUnavailable, p)
  end.

(** [Drop for UploadWorkerLease], then the drop of the permit it owns. *)
Definition drop_lease (l : UploadWorkerLease) (p : StreamWorkerPool) : StreamWorkerPool :=
  with_slots (give_permit (lease_slot l)) (in_flight_add (lease_worker l) (-1) p).

(** An upload through the main bot takes the same gate ([primary_upload_slot().try_acquire()]). *)
Definition acquire_primary (p : StreamWorkerPool) : option StreamWorkerPool :=
  if 0 <? slots p (primary_upload_slot p)
  then Some (with_slots (take_permit (primary_upload_slot p)) p) else None.

Definition count_upload_sessions (primary : nat) (worker_slots : list nat) : nat :=
  1 + length (filter (fun slot => negb (Nat.eqb slot primary) = true) worker_slots).

Definition upload_session_count (p : StreamWorkerPool) : nat :=
  count_upload_sessions (primary_upload_slot p) (upload_slot <$> workers p).

Definition mark_worker_slow (now duration worker_id : Z) (p : StreamWorkerPool) : StreamWorkerPool :=
  match worker_by_id p worker_id with
  | Some _ => update_worker worker_id (set_slow_until (Some (now + duration))) p
  | None => p
  end.

(** ** Construction

    What [StreamWorkerPool::new] learns from the MTProto client and the session store. *)
Record PoolEnv := mkEnv {
  primary_client : option (option str);        (* the client given, with its exported session *)
  session_store : option (str -> result str (option str));  (* get_session by token hash *)
  hash_bot_token : str -> str;
  connect_saved : str -> bool;                 (* connect and get_me with a saved session *)
  sign_in : str -> result StreamError unit;    (* create_fresh_client_and_sign_in *)
  exported : str -> option str;                (* export_session_string of the token's client *)
  decode_url_safe : str -> option bytes;       (* base64 engines *)
  decode_standard : str -> option bytes;
}.

Definition extract_dc_from_session_str (env : PoolEnv) (session_str : str) : option Z :=
  let s := trim session_str in
  let decoded := match decode_url_safe env s with
                 | Some d => Some d
                 | None => decode_standard env s
                 end in
  match decoded with
  | Some (_ :: b :: _) => Some (Z.of_N (Byte.to_N b))
  | _ => None
  end.

Definition primary_dc (env : PoolEnv) (session : option str) : Z :=
  default 0 (session ≫= extract_dc_from_session_str env).

(** One turn of the loop over the tokens: the client of the token is connected, or signed in. *)
Definition init_worker (env : PoolEnv) (idx : nat) (token : str) : result StreamError WorkerInstance :=
  let saved_session :=
    match session_store env with
    | Some get_session =>
        match get_session (hash_bot_token env token) with Ok s => s | Err _ => None end
    | None => None
    end in
  let home_dc := primary_dc env saved_session in
  _ ← match saved_session with
      | Some data => if connect_saved env data then Ok tt else sign_in env token
      | None => sign_in env token
      end;
  let home_dc := if home_dc =? 0 then primary_dc env (exported env token) else home_dc in
  Ok (mkWorker (Z.of_nat idx) 0 home_dc None false (S idx)).

Fixpoint init_workers (env : PoolEnv) (idx : nat) (tokens : list str) :
    result StreamError (list WorkerInstance) :=
  match tokens with
  | [] => Ok []
  | token :: rest =>
      w ← init_worker env idx token;
      ws ← init_workers env (S idx) rest;
      Ok (w :: ws)
  end.

Definition valid_tokens (tokens : list str) : list str :=
  filter (fun t => bool_decide (t = []) = false) (trim <$> tokens).

(** [new]; the second component is the initial number of RPC permits. *)
Definition new (breaker_new : nat -> G) (env : PoolEnv) (tokens : list str) :
    result StreamError (StreamWorkerPool * Z) :=
  '(workers, primary_worker) ←
    match valid_tokens tokens with
    | [] =>
        match primary_client env with
        | Some session => Ok ([mkWorker 0 0 (primary_dc env session) None false 0], None)
        | None => Err AllWorkersUnavailable
        end
    | toks =>
        let primary_worker :=
          (fun session => mkWorker PRIMARY_ID 0 (primary_dc env session) None false 0)
            <$> primary_client env in
        workers ← init_workers env 0 toks;
        Ok (workers, primary_worker)
    end;
  let primary_slot := match primary_worker with Some _ => 1 | None => 0 end in
  Ok (mkPool workers (breaker_new (length workers)) 0 primary_worker metrics_default 0 (fun _ => 1),
      Z.max (Z.of_nat (length workers) + primary_slot) 1).

(** ** Invariants *)

(** Workers carry their index as id, the primary carries the sentinel, and the breaker watches
    exactly the workers. *)
Definition pool_ok (p : StreamWorkerPool) : Prop :=
  (forall i w, workers p !! i = Some w -> id w = Z.of_nat i /\ 0 <= in_flight w < usize_max) /\
  (forall w, primary_fallback p = Some w -> id w = PRIMARY_ID /\
     upload_slot w = primary_upload_slot p) /\
  Z.of_nat (length (workers p)) < PRIMARY_ID.

(** ** The upload protocol

    The leases and the direct main-bot upload that hold a permit, next to the pool. *)
Record upload_state := mkUpload {
  pool : StreamWorkerPool;
  leases : list UploadWorkerLease;
  direct : bool;
}.

(** Anything else the server does to the pool keeps its gates. *)
Definition same_gates (p p' : StreamWorkerPool) : Prop :=
  slots p' = slots p /\ primary_upload_slot p' = primary_upload_slot p /\
  upload_slot <$> workers p' = upload_slot <$> workers p /\
  upload_slot <$> primary_fallback p' = upload_slot <$> primary_fallback p.

Inductive upload_step : upload_state -> upload_state -> Prop :=
| US_lease now p p' ls d l :
    lease_upload_worker now p = (Ok l, p') -> upload_step (mkUpload p ls d) (mkUpload p' (l :: ls) d)
| US_drop p ls1 l ls2 d :
    upload_step (mkUpload p (ls1 ++ l :: ls2) d) (mkUpload (drop_lease l p) (ls1 ++ ls2) d)
| US_acquire p p' ls :
    acquire_primary p = Some p' -> upload_step (mkUpload p ls false) (mkUpload p' ls true)
| US_release p ls :
    upload_step (mkUpload p ls true)
      (mkUpload (with_slots (give_permit (primary_upload_slot p)) p) ls false)
| US_other p p' ls d : same_gates p p' -> upload_step (mkUpload p ls d) (mkUpload p' ls d).

(** The gates currently held. *)
Definition held (u : upload_state) : list nat :=
  (if direct u then [primary_upload_slot (pool u)] else []) ++ (lease_slot <$> leases u).

Definition holders (u : upload_state) (s : nat) : Z :=
  Z.of_nat (length (filter (fun s' => s' = s) (held u))).

Definition gates (p : StreamWorkerPool) : list nat := primary_upload_slot p :: (upload_slot <$> workers p).

Definition upload_inv (u : upload_state) : Prop :=
  (forall s, 0 <= slots (pool u) s /\ slots (pool u) s + holders u s = 1) /\
  (forall s, s ∈ held u -> s ∈ gates (pool u)) /\
  (forall w, primary_fallback (pool u) = Some w -> upload_slot w = primary_upload_slot (pool u)).

(** ** Lemmas *)

Lemma worker_in_pool p w : pool_ok p -> w ∈ workers p ->
  exists i, workers p !! i = Some w /\ id w = Z.of_nat i /\ 0 <= in_flight w < usize_max.
Proof. intros [H _] [i Hi]%list_elem_of_lookup. exists i. by destruct (H i w Hi). Qed.

Lemma rotation_perm {A} k (l : list A) : rotation k l ≡ₚ l.
Proof. unfold rotation. rewrite Permutation_app_comm. by rewrite take_drop. Qed.

Lemma elem_of_drop {A} (x : A) n l : x ∈ drop n l -> x ∈ l.
Proof. intros [i Hi]%list_elem_of_lookup. rewrite lookup_drop in Hi. by eapply list_elem_of_lookup_2. Qed.

Definition open_at (now : Z) (p : StreamWorkerPool) (w : WorkerInstance) : bool :=
  gate_open (circuit_breaker p) now (id w).

(** The scan of the source, whose accumulator holds an id and a load, finds the first least loaded
    open worker. *)
Lemma scan_is_best now p l :
  Forall (fun w => in_flight w < usize_max) l ->
  forall acc acc',
  acc' = match acc with Some w => (Some (id w), in_flight w) | None => (None, usize_max) end ->
  foldl (scan_worker now p) acc' l =
    match foldl (best_step (open_at now p) in_flight) acc l with
    | Some w => (Some (id w), in_flight w)
    | None => (None, usize_max)
    end.
Proof.
  induction 1 as [|w l Hw _ IH]; intros acc acc' ->; [by destruct acc|]. simpl. apply IH.
  unfold best_step, scan_worker, open_at.
  destruct acc as [b|]; destruct (gate_open _ now (id w)); try done.
  - by destruct (in_flight w <? in_flight b).
  - by rewrite (proj2 (Z.ltb_lt _ _) Hw).
Qed.

Lemma pick_least_loaded_best now p :
  pool_ok p -> workers p <> [] ->
  let order := rotation (Z.to_nat (rr_cursor p mod Z.of_nat (length (workers p)))) (workers p) in
  fst (pick_least_loaded now p) =
    ok_or (id <$> foldl (best_step (open_at now p) in_flight) None order) AllWorkersUnavailable.
Proof.
  intros Hp Hne. unfold pick_least_loaded.
  destruct (Z.eqb_spec (Z.of_nat (length (workers p))) 0) as [H0|H0];
    [destruct (workers p); simpl in H0; [done|lia]|].
  rewrite (scan_is_best now p _ ) with (acc := None); [|apply Forall_forall|done].
  - by destruct (foldl _ None _).
  - intros w Hw. rewrite rotation_perm in Hw.
    destruct (worker_in_pool p w Hp Hw) as (? & ? & ? & ?). lia.
Qed.

Lemma worker_by_id_lookup p i w :
  pool_ok p -> workers p !! i = Some w -> worker_by_id p (Z.of_nat i) = Some w.
Proof.
  intros Hp Hi. unfold worker_by_id.
  destruct (List.find _ (workers p)) as [w'|] eqn:E.
  - apply List.find_some in E as [Hin Hid]. apply list_elem_of_In in Hin. to_prop.
    destruct (worker_in_pool p w' Hp Hin) as (j & Hj & Hw' & _).
    assert (j = i) by lia. by simplify_eq.
  - apply list_elem_of_lookup_2 in Hi as Hin. apply list_elem_of_In in Hin.
    apply (List.find_none _ _ E) in Hin. destruct Hp as [Hp _].
    destruct (Hp i w Hi) as [Hid _]. to_prop. lia.
Qed.

Lemma update_worker_frame k f p :
  circuit_breaker (update_worker k f p) = circuit_breaker p /\
  slots (update_worker k f p) = slots p /\ metrics (update_worker k f p) = metrics p /\
  primary_upload_slot (update_worker k f p) = primary_upload_slot p /\
  length (workers (update_worker k f p)) = length (workers p).
Proof. unfold update_worker. simpl. by rewrite length_fmap. Qed.

Lemma update_worker_slots k f p :
  (forall w, upload_slot (f w) = upload_slot w) ->
  upload_slot <$> workers (update_worker k f p) = upload_slot <$> workers p.
Proof.
  intros Hf. unfold update_worker. simpl. rewrite <-list_fmap_compose.
  apply list_fmap_ext. intros i w _. simpl. by case_match.
Qed.

Lemma insert_by_perm {A} (key : A -> Z) a l : insert_by key a l ≡ₚ a :: l.
Proof.
  induction l as [|b l IH]; simpl; [done|]. case_match; [|done].
  rewrite IH. apply perm_swap.
Qed.

Lemma sort_by_key_perm {A} (key : A -> Z) l : sort_by_key key l ≡ₚ l.
Proof.
  unfold sort_by_key. rewrite <-(app_nil_r l) at 2. generalize (@nil A) as acc.
  induction l as [|a l IH]; intros acc; simpl; [done|].
  rewrite IH, insert_by_perm. by rewrite Permutation_middle.
Qed.

Definition sorted_by {A} (key : A -> Z) (l : list A) : Prop :=
  StronglySorted (fun x y => key x <= key y) l.

Lemma insert_by_sorted {A} (key : A -> Z) a l :
  sorted_by key l -> sorted_by key (insert_by key a l).
Proof.
  induction 1 as [|b l Hs IH Hb]; simpl; [repeat constructor|].
  destruct (Z.leb_spec (key b) (key a)) as [Hle|Hgt].
  - constructor; [done|]. rewrite insert_by_perm. by constructor.
  - constructor; [by constructor|]. constructor; [lia|].
    eapply Forall_impl; [exact Hb|]. simpl. lia.
Qed.

Lemma sort_by_key_sorted {A} (key : A -> Z) l : sorted_by key (sort_by_key key l).
Proof.
  unfold sort_by_key. assert (H0 : sorted_by key (@nil A)) by constructor. revert H0.
  generalize (@nil A) as acc. induction l as [|a l IH]; intros acc Hacc; simpl; [done|].
  apply IH. by apply insert_by_sorted.
Qed.

Lemma claim_spec permits ws w :
  claim_upload_worker permits ws = Some w ->
  0 < permits (upload_slot w) /\ exists l1 l2, ws = l1 ++ w :: l2 /\
    Forall (fun x => permits (upload_slot x) <= 0) l1.
Proof.
  unfold claim_upload_worker. intros (l1 & a & l2 & -> & Ha & H1)%find_map_Some.
  destruct (Z.ltb_spec 0 (permits (upload_slot a))); [simplify_eq|done]. split; [done|].
  exists l1, l2. split; [done|]. eapply Forall_impl; [exact H1|]. intros x Hx. simpl in Hx.
  destruct (Z.ltb_spec 0 (permits (upload_slot x))); [done|lia].
Qed.

Lemma eligible_elem now p w :
  w ∈ eligible_workers now p <->
  (w ∈ workers p /\ gate_open (circuit_breaker p) now (id w) = true /\ not_slow now w = true) \/
  (primary_fallback p = Some w /\ not_slow now w = true).
Proof.
  unfold eligible_workers. rewrite elem_of_app, sort_by_key_perm, list_elem_of_filter, andb_true_iff.
  assert (Hp : w ∈ match primary_fallback p with
      Some primary => if not_slow now primary then [primary] else [] | None => [] end <->
    primary_fallback p = Some w /\ not_slow now w = true).
  { destruct (primary_fallback p) as [w'|]; [|set_solver].
    destruct (not_slow now w') eqn:E; [rewrite list_elem_of_singleton; naive_solver|].
    split; [by intros ?%not_elem_of_nil|intros [[= ->] ?]; congruence]. }
  rewrite Hp. naive_solver.
Qed.

Lemma holders_app s l1 l2 : length (filter (fun s' => s' = s) (l1 ++ l2)) =
  (length (filter (fun s' : nat => s' = s) l1) + length (filter (fun s' => s' = s) l2))%nat.
Proof. by rewrite filter_app, length_app. Qed.

Lemma holders_cons s s' l : Z.of_nat (length (filter (fun x => x = s) (s' :: l))) =
  (if decide (s' = s) then 1 else 0) + Z.of_nat (length (filter (fun x : nat => x = s) l)).
Proof. rewrite filter_cons. case_decide; simpl; lia. Qed.

Lemma lease_slots now p l p' :
  lease_upload_worker now p = (Ok l, p') ->
  slots p' = take_permit (lease_slot l) (slots p) /\ 0 < slots p (lease_slot l) /\
  primary_upload_slot p' = primary_upload_slot p /\
  upload_slot <$> workers p' = upload_slot <$> workers p /\
  upload_slot <$> primary_fallback p' = upload_slot <$> primary_fallback p /\
  exists w, w ∈ eligible_workers now p /\ lease_slot l = upload_slot w.
Proof.
  unfold lease_upload_worker. destruct (claim_upload_worker _ _) as [w|] eqn:E; [|done].
  intros; simplify_eq/=. apply claim_spec in E as (Hpos & l1 & l2 & Hw & _).
  split_and!; try done.
  - rewrite <-list_fmap_compose. apply list_fmap_ext. intros i x _. simpl. by case_match.
  - destruct (primary_fallback p); simpl; [|done]. by case_match.
  - exists w. rewrite Hw. set_solver.
Qed.

Lemma held_le_gates (l : list nat) primary ws :
  NoDup l -> (forall s, s ∈ l -> s ∈ primary :: ws) ->
  (length l <= count_upload_sessions primary ws)%nat.
Proof.
  intros Hnd Hin. unfold count_upload_sessions.
  change (1 + length (filter (fun slot => negb (Nat.eqb slot primary) = true) ws))%nat
    with (length (primary :: filter (fun slot => negb (Nat.eqb slot primary) = true) ws)).
  apply submseteq_length, NoDup_submseteq; [done|].
  intros s Hs. apply Hin in Hs as [->|Hs]%elem_of_cons; [left|].
  destruct (decide (s = primary)) as [->|Hne]; [left|right].
  apply list_elem_of_filter. split; [|done]. by rewrite (proj2 (Nat.eqb_neq _ _) Hne).
Qed.

Lemma count_elem (s : nat) l : 1 <= Z.of_nat (length (filter (fun s' => s' = s) l)) <-> s ∈ l.
Proof.
  induction l as [|a l IH]; [simpl; split; [lia|by intros ?%not_elem_of_nil]|].
  rewrite holders_cons, elem_of_cons, <-IH. case_decide; [|naive_solver lia].
  split; [by left|lia].
Qed.

Lemma NoDup_of_counts (l : list nat) :
  (forall s, Z.of_nat (length (filter (fun s' => s' = s) l)) <= 1) -> NoDup l.
Proof.
  induction l as [|a l IH]; intros H; constructor.
  - specialize (H a). rewrite holders_cons, decide_True in H by done.
    intros Ha%count_elem. lia.
  - apply IH. intros s. specialize (H s). rewrite holders_cons in H. case_decide; lia.
Qed.

(** In a list sorted by load followed by the primary, the first candidate with a free gate is no
    more loaded than any listed worker with a free gate. *)
Lemma first_free_sorted (ws prim : list WorkerInstance) w w' l1 l2 (free load : WorkerInstance -> Z) :
  ws ++ prim = l1 ++ w :: l2 -> Forall (fun x => free x <= 0) l1 -> sorted_by load ws ->
  w' ∈ ws -> 0 < free w' -> w ∈ ws /\ load w <= load w'.
Proof.
  intros Hl H1 Hs Hw' Hf. revert l1 Hl H1. induction ws as [|a ws IH]; intros l1 Hl H1.
  { by apply not_elem_of_nil in Hw'. }
  inversion Hs as [|? ? Hs' Ha]; subst. destruct l1 as [|b l1]; simplify_eq/=.
  - split; [left|]. apply elem_of_cons in Hw' as [->|Hw']; [lia|].
    rewrite Forall_forall in Ha. by apply Ha.
  - apply Forall_cons in H1 as [Hb H1]. apply elem_of_cons in Hw' as [->|Hw']; [lia|].
    destruct (IH Hs' Hw' l1) as [? ?]; auto. split; [by right|done].
Qed.

Lemma init_worker_spec env idx t w :
  init_worker env idx t = Ok w -> id w = Z.of_nat idx /\ in_flight w = 0 /\ upload_slot w = S idx.
Proof.
  unfold init_worker. destruct (match session_store env with Some _ => _ | None => _ end) as [d|];
    [destruct (connect_saved env d); simpl; [by intros [= <-]|]|simpl];
    destruct (sign_in env t); simpl; by intros [= <-].
Qed.

Lemma init_workers_spec env idx tokens ws :
  init_workers env idx tokens = Ok ws ->
  length ws = length tokens /\
  forall i w, ws !! i = Some w -> id w = Z.of_nat (idx + i) /\ in_flight w = 0 /\
    upload_slot w = S (idx + i).
Proof.
  revert idx ws. induction tokens as [|t ts IH]; intros idx ws; simpl; [by intros [= <-]|].
  destruct (init_worker env idx t) as [w0|] eqn:E0; simpl; [|done].
  destruct (init_workers env (S idx) ts) as [ws'|] eqn:E1; simpl; [|done]. intros [= <-].
  apply init_worker_spec in E0 as (H1 & H2 & H3). destruct (IH _ _ E1) as [Hl Hi].
  split; [simpl; by rewrite Hl|]. intros [|i] w Hw; simplify_eq/=.
  - rewrite Nat.add_0_r. done.
  - destruct (Hi _ _ Hw) as (-> & -> & ->). split_and!; lia.
Qed.

Lemma list_filter_all {A} (P : A -> Prop) `{forall x, Decision (P x)} (l : list A) :
  (forall x, x ∈ l -> P x) -> filter P l = l.
Proof.
  induction l as [|a l IH]; intros Hl; [done|]. rewrite filter_cons_True by (apply Hl; left).
  f_equal. apply IH. intros x Hx. apply Hl. by right.
Qed.

Lemma take_permit_at s permits s' :
  take_permit s permits s' = permits s' - (if decide (s = s') then 1 else 0).
Proof. unfold take_permit. case_decide; subst; lia. Qed.

Lemma give_permit_at s permits s' :
  give_permit s permits s' = permits s' + (if decide (s = s') then 1 else 0).
Proof. unfold give_permit. case_decide; subst; lia. Qed.

Lemma upload_step_inv u u' : upload_inv u -> upload_step u u' -> upload_inv u'.
Proof.
  intros (Hbal & Hin & Hprim) Hstep.
  destruct Hstep as [now p p' ls d l Hl|p ls1 l ls2 d|p p' ls Ha|p ls|p p' ls d Hg];
    unfold upload_inv, holders, held in *; csimpl in *.
  - apply lease_slots in Hl as (Hs & Hpos & Hp & Hw & Hf & w & Hel & Hlw).
    assert (Hgate : lease_slot l ∈ gates p).
    { rewrite Hlw. apply eligible_elem in Hel as [(Hw' & _)|(Hw' & _)].
      - right. apply list_elem_of_fmap. eauto.
      - rewrite (Hprim _ Hw'). left. }
    unfold gates in *. rewrite Hs, Hp, Hw. split_and!.
    + intros s. specialize (Hbal s). rewrite take_permit_at. rewrite holders_app in *.
      rewrite Nat2Z.inj_add, holders_cons in *. case_decide; subst; lia.
    + intros s. rewrite elem_of_app, elem_of_cons. specialize (Hin s).
      rewrite elem_of_app in Hin. naive_solver.
    + intros x Hx. rewrite Hx in Hf. destruct (primary_fallback p) as [y|]; [|done].
      injection Hf as ->. by apply Hprim.
  - split_and!; [intros s|intros s Hs|].
    + specialize (Hbal s). rewrite give_permit_at. rewrite !fmap_app, fmap_cons, !holders_app in *.
      rewrite !Nat2Z.inj_add, holders_cons in *. case_decide; lia.
    + unfold gates. simpl. pose proof (update_worker_slots (lease_worker l)
        (fun w => set_in_flight (wrap 64 (in_flight w + -1)) w) p ltac:(done)) as E. simpl in E.
      rewrite E. apply Hin. rewrite fmap_app in *. set_solver.
    + intros w Hw. destruct (primary_fallback p) as [x|]; simpl in Hw; [|done].
      simplify_eq. specialize (Hprim x eq_refl). destruct (id x =? lease_worker l); exact Hprim.
  - unfold acquire_primary in Ha. destruct (Z.ltb_spec 0 (slots p (primary_upload_slot p))); [|done].
    simplify_eq. simpl. split_and!; [intros s|intros s|done].
    + specialize (Hbal s). rewrite take_permit_at, holders_cons. case_decide; subst; lia.
    + specialize (Hin s). unfold gates in *. set_solver.
  - split_and!; [intros s|intros s Hs|done].
    + specialize (Hbal s). rewrite give_permit_at. rewrite holders_cons in Hbal. case_decide; lia.
    + apply Hin. by right.
  - destruct Hg as (Hs & Hp & Hw & Hf). unfold gates in *. rewrite Hs, Hp, Hw. split_and!; [done|done|].
    intros x Hx. rewrite Hx in Hf. destruct (primary_fallback p) as [y|]; [|done].
    injection Hf as ->. by apply Hprim.
Qed.

End Pool.
Arguments StreamWorkerPool G : clear implicits.
Arguments upload_state G : clear implicits.

(** ** Properties *)

Section Properties.
Context {G : Type} `{!WorkerGate G}.
Implicit Types p : StreamWorkerPool G.

(** [pick_least_loaded] returns an available worker no other available worker is less loaded
    than, and fails exactly when no worker of the pool is available. *)
Theorem pick_least_loaded_correct now p :
  pool_ok p ->
  match fst (pick_least_loaded now p) with
  | Ok i => exists w, worker_by_id p i = Some w /\ w ∈ workers p /\
      gate_open (circuit_breaker p) now i = true /\
      (forall w', w' ∈ workers p -> gate_open (circuit_breaker p) now (id w') = true ->
         in_flight w <= in_flight w')
  | Err e => e = AllWorkersUnavailable /\
      forall w, w ∈ workers p -> gate_open (circuit_breaker p) now (id w) = false
  end.
Proof.
  intros Hp. destruct (decide (workers p = [])) as [Hnil|Hne].
  { unfold pick_least_loaded. rewrite Hnil. simpl. split; [done|]. intros w Hw. by apply not_elem_of_nil in Hw. }
  rewrite pick_least_loaded_best by done.
  set (k := Z.to_nat _). pose proof (best_spec (open_at now p) in_flight (rotation k (workers p))) as H.
  destruct (foldl (best_step _ _) None _) as [w|]; simpl.
  - apply first_best_elem in H as Hel. destruct Hel as [Hel Ho]. rewrite rotation_perm in Hel.
    destruct (worker_in_pool p w Hp Hel) as (i & Hi & Hid & _).
    exists w. split_and!; [rewrite Hid; by eapply worker_by_id_lookup|done|done|].
    intros w' Hw' Ho'. eapply first_best_le; [exact H| |done]. by rewrite rotation_perm.
  - split; [done|]. intros w Hw. rewrite Forall_forall in H. apply H. by rewrite rotation_perm.
Qed.

(** With every worker available and equally loaded the selection is round robin: the cursor
    names the worker and moves on by one. *)
Theorem pick_round_robin now p c :
  pool_ok p -> workers p <> [] ->
  (forall w, w ∈ workers p -> gate_open (circuit_breaker p) now (id w) = true /\ in_flight w = c) ->
  fst (pick_least_loaded now p) = Ok (rr_cursor p mod Z.of_nat (length (workers p))) /\
  rr_cursor (snd (pick_least_loaded now p)) = wrap 64 (rr_cursor p + 1).
Proof.
  intros Hp Hne Hall.
  assert (Hlen : 0 < Z.of_nat (length (workers p))) by (destruct (workers p); simpl; [done|lia]).
  pose proof (Z.mod_pos_bound (rr_cursor p) _ Hlen) as Hr. split.
  - rewrite pick_least_loaded_best by done. set (r := rr_cursor p mod _) in *.
    destruct (lookup_lt_is_Some_2 (workers p) (Z.to_nat r)) as [w Hw]; [lia|].
    unfold rotation. rewrite (drop_S _ w) by done. simpl.
    assert (Hop : forall x, x ∈ workers p -> open_at now p x = true /\ in_flight x = c) by done.
    destruct (Hop w ltac:(by eapply list_elem_of_lookup_2)) as [Hw1 Hw2].
    unfold best_step at 2. rewrite Hw1.
    assert (Hstay : forall l, (forall x, x ∈ l -> x ∈ workers p) ->
      foldl (best_step (open_at now p) in_flight) (Some w) l = Some w).
    { induction l as [|x l IH]; intros Hl; [done|]. simpl.
      destruct (Hop x) as [Hx1 Hx2]; [apply Hl; left|].
      unfold best_step at 2. rewrite Hx1, Hx2, Hw2, Z.ltb_irrefl. apply IH. set_solver. }
    rewrite Hstay.
    + simpl. destruct Hp as [Hp _]. destruct (Hp _ _ Hw) as [-> _]. simpl. f_equal. lia.
    + intros x [Hx|Hx]%elem_of_app; [by eapply elem_of_drop|].
      apply elem_of_take in Hx as (i & Hi & _). by eapply list_elem_of_lookup_2.
  - unfold pick_least_loaded. rewrite (proj2 (Z.eqb_neq _ _)) by lia. by destruct (foldl _ _ _).
Qed.

(** An MTProto session carries one upload at a time: in every state reachable from a pool with
    all gates free, the leases and the direct main-bot upload hold pairwise distinct gates, and
    there are at most [upload_session_count] of them. *)
Theorem uploads_exclusive u u' :
  upload_inv u -> steps upload_step u u' ->
  NoDup (held u') /\ (length (held u') <= upload_session_count (pool u'))%nat /\
  (forall s, slots (pool u') s = 0 <-> s ∈ held u').
Proof.
  intros Hinv Hsteps.
  assert (H : upload_inv u') by (eapply steps_invariant; eauto using upload_step_inv).
  destruct H as (Hbal & Hin & _). unfold holders in Hbal.
  assert (Hcount : forall s, Z.of_nat (length (filter (fun s' => s' = s) (held u'))) <= 1)
    by (intros s; specialize (Hbal s); lia).
  assert (Hnd : NoDup (held u')) by (by apply NoDup_of_counts).
  split_and!; [done|by apply held_le_gates|].
  intros s. specialize (Hbal s). rewrite <-count_elem. lia.
Qed.

(** A lease goes to an eligible session whose gate is free, and to the primary only when the
    gate of every eligible worker is taken; among the workers it goes to a least loaded one with a
    free gate.  Without a free eligible gate the call fails and changes nothing. *)
Theorem lease_upload_worker_correct now p :
  match lease_upload_worker now p with
  | (Ok l, p') => exists w, w ∈ eligible_workers now p /\ lease_worker l = id w /\
      lease_slot l = upload_slot w /\ 0 < slots p (upload_slot w) /\
      slots p' (upload_slot w) = slots p (upload_slot w) - 1 /\
      (forall w', w' ∈ workers p -> gate_open (circuit_breaker p) now (id w') = true ->
         not_slow now w' = true -> 0 < slots p (upload_slot w') ->
         w ∈ workers p /\ in_flight w <= in_flight w')
  | (Err e, p') => e = AllWorkersUnavailable /\ p' = p /\
      forall w, w ∈ eligible_workers now p -> slots p (upload_slot w) <= 0
  end.
Proof.
  unfold lease_upload_worker. destruct (claim_upload_worker _ _) as [w|] eqn:E.
  - apply claim_spec in E as (Hpos & l1 & l2 & Hl & Hl1). exists w. simpl.
    split_and!; try done; [rewrite Hl; set_solver|rewrite take_permit_at; by rewrite decide_True|].
    intros w' Hw' Ho Hs Hfree. unfold eligible_workers in Hl.
    set (ws := sort_by_key _ _) in Hl.
    assert (Hin : w' ∈ ws).
    { unfold ws. rewrite sort_by_key_perm. apply list_elem_of_filter. by rewrite Ho, Hs. }
    assert (Hsub : forall x, x ∈ ws -> x ∈ workers p).
    { intros x. unfold ws. rewrite sort_by_key_perm, list_elem_of_filter. naive_solver. }
    pose proof (sort_by_key_sorted in_flight (filter (fun w => gate_open (circuit_breaker p) now (id w)
      && not_slow now w = true) (workers p))) as Hsorted. fold ws in Hsorted.
    destruct (first_free_sorted ws _ w w' l1 l2 (fun x => slots p (upload_slot x)) in_flight
      Hl Hl1 Hsorted Hin Hfree) as [Hw Hle]. by split; [apply Hsub|].
  - split_and!; [done..|]. apply find_map_None in E. rewrite Forall_forall in E.
    intros w Hw. specialize (E w Hw). simpl in E.
    destruct (Z.ltb_spec 0 (slots p (upload_slot w))); [done|lia].
Qed.

(** Dropping a lease undoes it: permits and in-flight counts are those before the lease. *)
Theorem lease_drop_roundtrip now p l p' :
  pool_ok p -> lease_upload_worker now p = (Ok l, p') ->
  (forall w, primary_fallback p = Some w -> 0 <= in_flight w < usize_max) ->
  (forall s, slots (drop_lease l p') s = slots p s) /\
  workers (drop_lease l p') = workers p /\
  primary_fallback (drop_lease l p') = primary_fallback p.
Proof.
  intros Hp Hl Hprim. pose proof (lease_slots now p l p' Hl) as (Hs & _).
  unfold lease_upload_worker in Hl. destruct (claim_upload_worker _ _) as [w|] eqn:E; [|done].
  simplify_eq. simpl.
  set (inc := fun w0 => if id w0 =? id w then set_in_flight (wrap 64 (in_flight w0 + 1)) w0 else w0).
  set (dec := fun w0 => if id w0 =? id w then set_in_flight (wrap 64 (in_flight w0 + -1)) w0 else w0).
  assert (Hid : forall x, 0 <= in_flight x < usize_max -> dec (inc x) = x).
  { intros x Hx. unfold dec, inc. destruct (id x =? id w) eqn:Ex; simpl; rewrite Ex; [|done].
    destruct x as [i n h sl lk us]. unfold set_in_flight. simpl in *. f_equal.
    rewrite umax_64 in Hx. rewrite (wrap_small 64 (n + 1)) by (unfold in_u; lia).
    rewrite wrap_small by (unfold in_u; lia). lia. }
  split_and!.
  - intros s. rewrite give_permit_at, take_permit_at. case_decide; lia.
  - rewrite <-list_fmap_compose. rewrite <-(list_fmap_id (workers p)) at 2.
    apply list_fmap_ext. intros i x Hx. simpl. apply Hid. by destruct (proj1 Hp i x Hx).
  - destruct (primary_fallback p) as [x|]; simpl; [|done]. f_equal. apply Hid. by apply Hprim.
Qed.

(** A pool built by [new] is well formed, its gates are all free with the primary's gate
    shared as the source shares it, and RPCs get one permit per session (at least one). *)
Theorem new_establishes_invariants (breaker_new : nat -> G) env tokens p permits :
  new breaker_new env tokens = Ok (p, permits) ->
  Z.of_nat (length tokens) < PRIMARY_ID -> 1 < PRIMARY_ID ->
  pool_ok p /\ upload_inv (mkUpload p [] false) /\ workers p <> [] /\
  circuit_breaker p = breaker_new (length (workers p)) /\
  permits = Z.of_nat (length (workers p)) +
    (match primary_fallback p with Some _ => 1 | None => 0 end) /\
  upload_session_count p = (if decide (valid_tokens tokens = []) then 1 else 1 + length (workers p))%nat.
Proof.
  intros H Hlen H1. unfold new in H. destruct (valid_tokens tokens) as [|t ts] eqn:Ht.
  - destruct (primary_client env) as [sess|]; simpl in H; [|done]. simplify_eq. simpl.
    unfold pool_ok, upload_inv, holders, held, gates. simpl. split_and!; try done; try lia.
    + intros [|i] w Hw; simpl in Hw; simplify_eq. simpl. rewrite umax_64. lia.
    + by intros s Hs%not_elem_of_nil.
  - destruct (init_workers env 0 (t :: ts)) as [ws|] eqn:Hws; simpl in H; [|done]. simplify_eq.
    pose proof (init_workers_spec _ _ _ _ Hws) as (Hl & Hi).
    assert (Hle : (length (t :: ts) <= length tokens)%nat).
    { rewrite <-Ht. unfold valid_tokens. rewrite length_filter. by rewrite length_fmap. }
    assert (Hgate : forall w, w ∈ ws -> upload_slot w <> 0%nat).
    { intros w [i Hw]%list_elem_of_lookup. destruct (Hi i w Hw) as (_ & _ & ->). lia. }
    unfold pool_ok, upload_inv, holders, held, gates, upload_session_count, count_upload_sessions.
    simpl. split_and!; try done; try lia.
    + intros i w Hw. destruct (Hi i w Hw) as (-> & -> & _). rewrite umax_64. lia.
    + intros w Hw. destruct (primary_client env); simplify_eq/=. done.
    + by intros s Hs%not_elem_of_nil.
    + intros w Hw. destruct (primary_client env); simplify_eq/=. done.
    + by destruct ws.
    + destruct (primary_client env); simpl; destruct ws; simpl in *; try done; lia.
    + f_equal. rewrite list_filter_all.
      * by rewrite length_fmap.
      * intros s (w & -> & Hw)%list_elem_of_fmap. specialize (Hgate w Hw).
        by rewrite (proj2 (Nat.eqb_neq _ _) Hgate).
Qed.

End Properties.

(** *** Witnesses: a pool of two workers and a primary, watched by the circuit breaker *)

Definition demo_pool : StreamWorkerPool breaker :=
  mkPool [mkWorker 0 3 2 None false 1; mkWorker 1 1 4 None false 2]
    [Healthy; Healthy] 0 (Some (mkWorker PRIMARY_ID 0 2 None false 0)) metrics_default 0 (fun _ => 1).

Lemma demo_pool_ok : pool_ok demo_pool.
Proof.
  unfold pool_ok. split_and!; simpl; [|by intros w [= <-]|done].
  intros [|[|i]] w Hw; simplify_eq/=; rewrite umax_64; lia.
Qed.

Definition even_pool : StreamWorkerPool breaker :=
  mkPool [mkWorker 0 1 2 None false 1; mkWorker 1 1 4 None false 2]
    [Healthy; Healthy] 5 None metrics_default 0 (fun _ => 1).

Lemma even_pool_ok : pool_ok even_pool.
Proof.
  unfold pool_ok. split_and!; simpl; [|done|done].
  intros [|[|i]] w Hw; simplify_eq/=; rewrite umax_64; lia.
Qed.

Lemma demo_upload_inv : upload_inv (mkUpload demo_pool [] false).
Proof.
  split_and!; simpl; [by intros s; unfold holders|by intros s Hs%not_elem_of_nil|by intros w [= <-]].
Qed.

Lemma pick_least_loaded_correct_witness :
  match fst (pick_least_loaded 0 demo_pool) with
  | Ok i => i = 1 /\ exists w, worker_by_id demo_pool i = Some w /\ w ∈ workers demo_pool /\
      gate_open (circuit_breaker demo_pool) 0 i = true /\
      (forall w', w' ∈ workers demo_pool -> gate_open (circuit_breaker demo_pool) 0 (id w') = true ->
         in_flight w <= in_flight w')
  | Err e => False
  end.
Proof. split; [reflexivity|exact (pick_least_loaded_correct 0 demo_pool demo_pool_ok)]. Defined.

Lemma pick_round_robin_witness :
  fst (pick_least_loaded 0 even_pool) = Ok 1 /\ rr_cursor (snd (pick_least_loaded 0 even_pool)) = wrap 64 (5 + 1).
Proof.
  apply (pick_round_robin 0 even_pool 1); [exact even_pool_ok|done|].
  intros w [->|[->|Hw%not_elem_of_nil]%elem_of_cons]%elem_of_cons; done.
Defined.

Lemma uploads_exclusive_witness :
  let u' := mkUpload (snd (lease_upload_worker 0 demo_pool)) [mkLease 1 4 2] false in
  NoDup (held u') /\ (length (held u') <= upload_session_count (pool u'))%nat /\
  (forall s, slots (pool u') s = 0 <-> s ∈ held u').
Proof.
  apply (uploads_exclusive (mkUpload demo_pool [] false)); [exact demo_upload_inv|].
  eapply steps_cons; [|apply steps_refl]. apply (US_lease 0). reflexivity.
Defined.

Lemma lease_drop_roundtrip_witness :
  let p' := snd (lease_upload_worker 0 demo_pool) in
  (forall s, slots (drop_lease (mkLease 1 4 2) p') s = slots demo_pool s) /\
  workers (drop_lease (mkLease 1 4 2) p') = workers demo_pool /\
  primary_fallback (drop_lease (mkLease 1 4 2) p') = primary_fallback demo_pool.
Proof.
  apply (lease_drop_roundtrip 0); [exact demo_pool_ok|reflexivity|].
  intros w [= <-]. rewrite umax_64. simpl. lia.
Defined.

(** Two tokens (one blank), a primary client and no session store. *)
Definition demo_env : PoolEnv :=
  mkEnv (Some None) None (fun t => t) (fun _ => true) (fun _ => Ok tt) (fun _ => Some [120])
    (fun _ => Some [Byte.x02; Byte.x04]) (fun _ => None).

Lemma new_establishes_invariants_witness :
  exists p permits, new CircuitBreaker.new demo_env [lit "a"; lit "  "; lit "b"] = Ok (p, permits) /\
    permits = 3 /\ pool_ok p.
Proof.
  eexists _, _. split; [reflexivity|]. split; [reflexivity|].
  eapply (new_establishes_invariants CircuitBreaker.new demo_env [lit "a"; lit "  "; lit "b"]);
    [reflexivity|done|done].
Defined.
