(* ===== verification/WorkerFetch.v ===== *)
(** * WorkerFetch: the chunk fetch with its retry budget (crates/stream/src/worker_pool.rs,
      [fetch_chunk_with_budget])

    [turn] is one turn of the [while] loop and [run_loop] iterates it with fuel; the final attempt
    on the primary client is [primary_attempt].  What the outside world does during a turn is a
    [TurnEnv]: the outcome and duration of each await, the random bits of the backoff, and what the
    other tasks did to the pool meanwhile.  Times are nanoseconds.  [requests] is a ghost trace of
    the RPCs sent. *)
From S2P Require Import Prelude Text Interfaces StreamTypes Metrics Retry CircuitBreaker WorkerPool.

Definition MAX_FETCH_ATTEMPTS : Z := 4.
Definition MS : Z := 1000000.
Definition SEC : Z := 1000 * MS.
Definition CHUNK_FETCH_DEADLINE : Z := 25 * SEC.
Definition RPC_TIMEOUT : Z := 12 * SEC.
Definition FETCH_RETRY_BASE_MS : Z := 200.
Definition MAX_RETRY_BACKOFF_MS : Z := 2000.

(** [retry_backoff], with the random [u64] as an argument; nanoseconds. *)
Definition retry_backoff (attempt rnd : Z) : Z :=
  let backoff := exponential_delay FETCH_RETRY_BASE_MS (saturating_sub attempt 1) in
  let capped_ms := Z.min backoff MAX_RETRY_BACKOFF_MS in
  let jitter_ms := rnd mod (capped_ms / 2 + 1) in
  (capped_ms / 2 + jitter_ms) * MS.

Definition retry_summary (attempts : Z) (last_error : option str) : str :=
  match last_error with
  | Some error => show_u attempts ++ lit " RPC attempts; last error: " ++ error
  | None => show_u attempts ++ lit " RPC attempts; deadline or attempt limit reached"
  end.

Inductive SlotOutcome : Type := SlotAcquired | SlotClosed | SlotTimedOut.

Inductive RpcOutcome : Type :=
| RpcTimedOut
| RpcFile (data : bytes)
| RpcCdnRedirect
| RpcErr (e : InvocationError).

Inductive await_point : Type := AtSlot | AtLock | AtRpc | AtSleep.

(** An RPC sent: to which worker and data centre, chosen when, and whether the worker was the
    primary or let through by the breaker at that moment. *)
Record request := mkRequest {
  rq_worker : Z; rq_dc : Z; rq_primary : bool; rq_open : bool;
}.

Section Fetch.
Context {G : Type} `{!WorkerGate G}.

Record TurnEnv := mkTurn {
  slot : SlotOutcome; slot_elapsed : Z;
  lock_ok : bool; lock_elapsed : Z;
  rpc : RpcOutcome; rpc_elapsed : Z;
  rnd : Z; sleep_extra : Z;
  others : await_point -> StreamWorkerPool G -> StreamWorkerPool G;
}.

(** The locals of the function, the shared [dc_id] cell, the clock and the pool. *)
Record fetch_state := mkFetch {
  now : Z;
  attempts : Z;
  target_dc : Z;
  dc_id : Z;
  primary_attempted : bool;
  last_error : option str;
  last_flood_wait : option Z;
  fpool : StreamWorkerPool G;
  requests : list request;
}.

Inductive flow : Type :=
| Continue
| Break
| Return (r : result StreamError bytes)
| Panic.

(** Field updates. *)
Definition on_pool (f : StreamWorkerPool G -> StreamWorkerPool G) (s : fetch_state) : fetch_state :=
  mkFetch (now s) (attempts s) (target_dc s) (dc_id s) (primary_attempted s) (last_error s)
    (last_flood_wait s) (f (fpool s)) (requests s).
Definition on_metrics (f : StreamMetrics -> StreamMetrics) : fetch_state -> fetch_state :=
  on_pool (with_metrics f).
Definition elapse (d : Z) (a : await_point) (e : TurnEnv) (s : fetch_state) : fetch_state :=
  mkFetch (now s + d) (attempts s) (target_dc s) (dc_id s) (primary_attempted s) (last_error s)
    (last_flood_wait s) (others e a (fpool s)) (requests s).
Definition fail_with (error : str) (flood : option Z) (s : fetch_state) : fetch_state :=
  mkFetch (now s) (attempts s) (target_dc s) (dc_id s) (primary_attempted s) (Some error)
    flood (fpool s) (requests s).
Definition set_primary_attempted (s : fetch_state) : fetch_state :=
  mkFetch (now s) (attempts s) (target_dc s) (dc_id s) true (last_error s)
    (last_flood_wait s) (fpool s) (requests s).
Definition migrate (dc : Z) (s : fetch_state) : fetch_state :=
  mkFetch (now s) (attempts s) dc dc (primary_attempted s) (last_error s)
    (last_flood_wait s) (fpool s) (requests s).
Definition send_request (r : request) (s : fetch_state) : fetch_state :=
  mkFetch (now s) (attempts s + 1) (target_dc s) (dc_id s) (primary_attempted s) (last_error s)
    (last_flood_wait s) (with_metrics record_rpc_attempt (fpool s)) (requests s ++ [r]).

Section WithDeadline.
Variable deadline : Z.

Definition sleep_before_retry (delay : Z) (e : TurnEnv) (s : fetch_state) : bool * fetch_state :=
  let remaining := saturating_sub deadline (now s) in
  if (remaining <=? delay) || (remaining =? 0) then (false, s)
  else (true, elapse (delay + sleep_extra e) AtSleep e s).

(** [if attempts >= limit || !sleep(..) { break } record_retry(reason); continue]. *)
Definition backoff_or_break (limit : Z) (reason : RetryReason) (e : TurnEnv) (s : fetch_state) :
    fetch_state * flow :=
  if limit <=? attempts s then (s, Break)
  else match sleep_before_retry (retry_backoff (attempts s) (rnd e)) e s with
       | (false, s) => (s, Break)
       | (true, s) => (on_metrics (record_retry reason) s, Continue)
       end.

(** [ErrorKind::FloodWait(secs)] inside the loop. *)
Definition flood_wait (limit secs worker_id : Z) (is_primary : bool) (err : InvocationError)
    (e : TurnEnv) (s : fetch_state) : fetch_state * flow :=
  let s := fail_with (display err) (Some secs) s in
  let s := if is_primary then s
           else on_pool (with_breaker (fun b => gate_close b (now s) ((secs + 1) * SEC) worker_id)) s in
  let retry s := (on_metrics (record_retry FloodWait_) s, Continue) in
  if limit <=? attempts s then (s, Break)
  else if Nat.eqb (gate_available_count (circuit_breaker (fpool s)) (now s)) 0
  then match sleep_before_retry (saturating_add 64 secs 1 * SEC) e s with
       | (false, s) => (s, Break)
       | (true, s) =>
           retry (if is_primary then s
                  else on_pool (with_breaker (fun b => gate_reopen b worker_id)) s)
       end
  else retry s.

(** The [match] on the RPC's result inside the loop. *)
Definition handle_result (limit : Z) (worker_id : Z) (is_primary : bool) (out : RpcOutcome)
    (e : TurnEnv) (s : fetch_state) : fetch_state * flow :=
  match out with
  | RpcTimedOut =>
      backoff_or_break limit Timeout_ e (fail_with (lit "upload.getFile request timed out") None s)
  | RpcFile data =>
      let s := on_metrics (record_telegram_bytes (Z.of_nat (length data))) s in
      let s := if is_primary then s
               else on_pool (with_breaker (fun b => gate_reopen b worker_id)) s in
      (s, Return (Ok data))
  | RpcCdnRedirect => (s, Return (Err UnsupportedCdnRedirect))
  | RpcErr err =>
      if is_stale_file_reference_error err then (s, Return (Err FileReferenceExpired))
      else match kind err with
      | KFloodWait secs => flood_wait limit secs worker_id is_primary err e s
      | KMigration new_dc =>
          let s := migrate new_dc (fail_with (display err) None s) in
          if limit <=? attempts s then (s, Break)
          else (on_metrics (record_retry DcMigration) s, Continue)
      | KNetwork => backoff_or_break limit Network e (fail_with (display err) None s)
      | KRpc name =>
          if bool_decide (name = lit "CONNECTION_NOT_INITED")
          then backoff_or_break limit ConnectionNotInited e (fail_with (display err) None s)
          else (s, Return (Err (Telegram err)))
      | _ => (s, Return (Err (Telegram err)))
      end
  end.

Inductive selection : Type :=
| Selected (w : WorkerInstance) (is_primary : bool)
| WaitFor (d : Z)
| SelectFailed
| SelectPanics.

Definition min_remaining (t : Z) (p : StreamWorkerPool G) : Z :=
  match omap (fun w => gate_remaining (circuit_breaker p) t (id w)) (workers p) with
  | [] => 500 * MS
  | d :: ds => foldl Z.min d ds
  end.

Definition is_primary_id (p : StreamWorkerPool G) (worker_id : Z) : bool :=
  match primary_fallback p with Some w => id w =? worker_id | None => false end.

(** The choice of the worker: the pinned one, or the least loaded, or the primary once. *)
Definition select (pinned_worker_id : option Z) (s : fetch_state) : selection * fetch_state :=
  let p := fpool s in
  match pinned_worker_id with
  | Some worker_id =>
      match worker_by_id p worker_id with
      | None => (SelectFailed, s)
      | Some w =>
          let is_primary := is_primary_id p worker_id in
          if negb is_primary && negb (gate_open (circuit_breaker p) (now s) worker_id)
          then (WaitFor (default (500 * MS) (gate_remaining (circuit_breaker p) (now s) worker_id)), s)
          else (Selected w is_primary, s)
      end
  | None =>
      let '(picked, p') := pick_least_loaded (now s) p in
      let s := on_pool (fun _ => p') s in
      match picked with
      | Ok worker_id =>
          match get (workers p') worker_id with
          | Some w => (Selected w false, s)
          | None => (SelectPanics, s)
          end
      | Err _ =>
          let no_workers := bool_decide (workers p' = []) in
          match primary_fallback p' with
          | Some primary =>
              if negb (primary_attempted s) || no_workers then (Selected primary true, s)
              else (WaitFor (min_remaining (now s) p'), s)
          | None =>
              if no_workers then (SelectFailed, s) else (WaitFor (min_remaining (now s) p'), s)
          end
      end
  end.

(** The in-flight guard, the wait for the worker's lock and the RPC itself. *)
Definition invoke (limit : Z) (w : WorkerInstance) (is_primary : bool) (e : TurnEnv)
    (s : fetch_state) : fetch_state * flow :=
  let open := gate_open (circuit_breaker (fpool s)) (now s) (id w) in
  let s := if is_primary then set_primary_attempted s else s in
  let s := on_pool (in_flight_add (id w) 1) s in
  let s := elapse (lock_elapsed e) AtLock e s in
  let s := on_metrics (record_worker_lock_wait (lock_elapsed e)) s in
  if negb (lock_ok e) then
    (fail_with (lit "timed out waiting for the worker lock") (last_flood_wait s)
       (on_pool (in_flight_add (id w) (-1)) s), Break)
  else
    let s := send_request (mkRequest (id w) (target_dc s) is_primary open) s in
    let s := elapse (rpc_elapsed e) AtRpc e s in
    let s := on_pool (in_flight_add (id w) (-1)) s in
    handle_result limit (id w) is_primary (rpc e) e s.

Definition turn (limit : Z) (pinned_worker_id : option Z) (e : TurnEnv) (s : fetch_state) :
    fetch_state * flow :=
  let s := elapse (slot_elapsed e) AtSlot e s in
  match slot e with
  | SlotClosed => (s, Return (Err AllWorkersUnavailable))
  | SlotTimedOut =>
      (fail_with (lit "timed out waiting for an RPC slot") (last_flood_wait s)
         (on_metrics (record_rpc_slot_wait (slot_elapsed e)) s), Break)
  | SlotAcquired =>
      let s := on_metrics (record_rpc_slot_wait (slot_elapsed e)) s in
      match select pinned_worker_id s with
      | (SelectFailed, s) => (s, Return (Err AllWorkersUnavailable))
      | (SelectPanics, s) => (s, Panic)
      | (WaitFor d, s) =>
          match sleep_before_retry d e s with
          | (false, s) => (s, Break)
          | (true, s) => (s, Continue)
          end
      | (Selected w is_primary, s) => invoke limit w is_primary e s
      end
  end.

(** The loop: turn [k] meets [env k].  [None]: the fuel ran out. *)
Fixpoint run_loop (fuel : nat) (limit : Z) (pinned : option Z) (env : nat -> TurnEnv) (k : nat)
    (s : fetch_state) : option (nat * fetch_state * flow) :=
  if (attempts s <? limit) && (now s <? deadline) then
    match fuel with
    | O => None
    | S f =>
        match turn limit pinned (env k) s with
        | (s', Continue) => run_loop f limit pinned env (S k) s'
        | (s', fl) => Some (S k, s', fl)
        end
    end
  else Some (k, s, Break).

(** The last attempt, on the primary client. *)
Definition primary_attempt (primary : WorkerInstance) (e : TurnEnv) (s : fetch_state) :
    fetch_state * flow :=
  let failed s := (s, Return (Err (ChunkFetchFailed (retry_summary (attempts s) (last_error s))))) in
  let s := elapse (slot_elapsed e) AtSlot e s in
  match slot e with
  | SlotClosed => (s, Return (Err AllWorkersUnavailable))
  | SlotTimedOut =>
      failed (fail_with (lit "timed out waiting for an RPC slot") (last_flood_wait s)
                (on_metrics (record_rpc_slot_wait (slot_elapsed e)) s))
  | SlotAcquired =>
      let s := on_metrics (record_rpc_slot_wait (slot_elapsed e)) s in
      let s := on_pool (in_flight_add (id primary) 1) s in
      let s := elapse (lock_elapsed e) AtLock e s in
      let s := on_metrics (record_worker_lock_wait (lock_elapsed e)) s in
      if negb (lock_ok e) then
        failed (fail_with (lit "timed out waiting for the primary worker lock") (last_flood_wait s)
                  (on_pool (in_flight_add (id primary) (-1)) s))
      else
        let s := if 0 <? attempts s then on_metrics (record_retry PrimaryFallback) s else s in
        let s := send_request (mkRequest (id primary) (target_dc s) true
                   (gate_open (circuit_breaker (fpool s)) (now s) (id primary))) s in
        let s := elapse (rpc_elapsed e) AtRpc e s in
        let s := on_pool (in_flight_add (id primary) (-1)) s in
        match rpc e with
        | RpcTimedOut =>
            failed (fail_with (lit "primary upload.getFile request timed out") (last_flood_wait s) s)
        | RpcFile data =>
            (on_metrics (record_telegram_bytes (Z.of_nat (length data))) s, Return (Ok data))
        | RpcCdnRedirect => (s, Return (Err UnsupportedCdnRedirect))
        | RpcErr err =>
            if is_stale_file_reference_error err then (s, Return (Err FileReferenceExpired))
            else match kind err with
                 | KFloodWait secs => (s, Return (Err (FloodWait secs)))
                 | KNetwork => (fail_with (display err) None s, Break)
                 | _ => (s, Return (Err (Telegram err)))
                 end
        end
  end.

Definition worker_attempt_limit (pinned : option Z) (p : StreamWorkerPool G) : Z :=
  match pinned with
  | Some _ => MAX_FETCH_ATTEMPTS
  | None =>
      match primary_fallback p with
      | Some _ => if bool_decide (workers p = []) then MAX_FETCH_ATTEMPTS else MAX_FETCH_ATTEMPTS - 1
      | None => MAX_FETCH_ATTEMPTS
      end
  end.

(** [if let Some(secs) = last_flood_wait ..]: the error of an exhausted budget. *)
Definition fetch_exhausted (s : fetch_state) : result StreamError bytes :=
  match last_flood_wait s with
  | Some secs => Err (FloodWait secs)
  | None => Err (ChunkFetchFailed (retry_summary (attempts s) (last_error s)))
  end.

Definition init_fetch (t dc : Z) (p : StreamWorkerPool G) : fetch_state :=
  mkFetch t 0 dc dc false None None p [].

(** [None]: out of fuel, or a panic. *)
Definition fetch_chunk_with_budget (fuel : nat) (pinned : option Z) (env : nat -> TurnEnv)
    (t dc : Z) (p : StreamWorkerPool G) : option (result StreamError bytes * fetch_state) :=
  match run_loop fuel (worker_attempt_limit pinned p) pinned env 0 (init_fetch t dc p) with
  | None | Some (_, _, Panic) | Some (_, _, Continue) => None
  | Some (_, s, Return r) => Some (r, s)
  | Some (k, s, Break) =>
      match pinned, primary_fallback (fpool s) with
      | None, Some primary =>
          if negb (primary_attempted s) && (attempts s <? MAX_FETCH_ATTEMPTS) && (now s <? deadline)
          then match primary_attempt primary (env k) s with
               | (s, Return r) => Some (r, s)
               | (s, _) => Some (fetch_exhausted s, s)
               end
          else Some (fetch_exhausted s, s)
      | _, _ => Some (fetch_exhausted s, s)
      end
  end.

End WithDeadline.

(** [fetch_chunk_until_on_worker] records the outcome around the call. *)
Definition fetch_chunk_until_on_worker (fuel : nat) (worker_id : Z) (deadline : Z)
    (env : nat -> TurnEnv) (t dc : Z) (p : StreamWorkerPool G) :
    option (result StreamError bytes * fetch_state) :=
  match fetch_chunk_with_budget deadline fuel (Some worker_id) env t dc p with
  | Some (r, s) => Some (r, on_metrics (record_chunk_fetch (now s - t) (is_ok r)) s)
  | None => None
  end.

Definition fetch_chunk_until (fuel : nat) (deadline : Z) (env : nat -> TurnEnv) (t dc : Z)
    (p : StreamWorkerPool G) : option (result StreamError bytes * fetch_state) :=
  match fetch_chunk_with_budget deadline fuel None env t dc p with
  | Some (r, s) => Some (r, on_metrics (record_chunk_fetch (now s - t) (is_ok r)) s)
  | None => None
  end.

Definition fetch_chunk (fuel : nat) (env : nat -> TurnEnv) (t dc : Z) (p : StreamWorkerPool G) :=
  fetch_chunk_until fuel (t + CHUNK_FETCH_DEADLINE) env t dc p.

(** ** Reasoning vocabulary *)

(** Worker ids are indices, as [new] makes them ([new_establishes_invariants]). *)
Definition ids_ok (p : StreamWorkerPool G) : Prop :=
  forall i w, workers p !! i = Some w -> id w = Z.of_nat i.

(** Time does not run backwards, and the other tasks do not renumber the workers. *)
Record benign (e : TurnEnv) : Prop := {
  be_slot : 0 <= slot_elapsed e;
  be_lock : 0 <= lock_elapsed e;
  be_rpc : 0 <= rpc_elapsed e;
  be_sleep : 0 <= sleep_extra e;
  be_others a p : ids_ok p -> ids_ok (others e a p);
  be_flood err secs : rpc e = RpcErr err -> kind err = KFloodWait secs -> 0 <= secs;
}.

(** What the environment answered to some RPC. *)
Definition answered (env : nat -> TurnEnv) (out : RpcOutcome) : Prop := exists k, rpc (env k) = out.

(** A result is backed by an answer of Telegram. *)
Definition backed (env : nat -> TurnEnv) (r : result StreamError bytes) : Prop :=
  match r with
  | Ok data => answered env (RpcFile data)
  | Err FileReferenceExpired =>
      exists err, answered env (RpcErr err) /\ kind err = KFileReferenceExpired
  | Err (FloodWait secs) => exists err, answered env (RpcErr err) /\ kind err = KFloodWait secs
  | Err UnsupportedCdnRedirect => answered env RpcCdnRedirect
  | Err (Telegram err) => answered env (RpcErr err)
  | Err AllWorkersUnavailable | Err (ChunkFetchFailed _) => True
  | Err _ => False
  end.

Definition flood_backed (env : nat -> TurnEnv) (s : fetch_state) : Prop :=
  forall secs, last_flood_wait s = Some secs -> backed env (Err (FloodWait secs)).

(** A request respects the pin, and the breaker unless it goes to the primary. *)
Definition allowed (pinned : option Z) (rq : request) : Prop :=
  (rq_primary rq = false -> rq_open rq = true) /\
  (forall worker_id, pinned = Some worker_id -> rq_worker rq = worker_id).

(** [s'] continues [s] without sending an RPC. *)
Record ext (env : nat -> TurnEnv) (s s' : fetch_state) : Prop := {
  ext_now : now s <= now s';
  ext_attempts : attempts s' = attempts s;
  ext_requests : requests s' = requests s;
  ext_ids : ids_ok (fpool s) -> ids_ok (fpool s');
  ext_flood : flood_backed env s -> flood_backed env s';
}.

(** One turn: at most one RPC, allowed; progress whenever the loop goes on. *)
Record turn_ok (env : nat -> TurnEnv) (pinned : option Z) (s s' : fetch_state) (fl : flow) : Prop := {
  to_now : now s <= now s';
  to_requests :
    (attempts s' = attempts s /\ requests s' = requests s) \/
    (exists rq, attempts s' = attempts s + 1 /\ requests s' = requests s ++ [rq] /\ allowed pinned rq);
  to_progress : fl = Continue -> attempts s < attempts s' \/ now s < now s';
  to_ids : ids_ok (fpool s');
  to_flood : flood_backed env s';
  to_result r : fl = Return r -> backed env r;
  to_no_panic : fl <> Panic;
}.

(** ** Lemmas *)

Lemma in_flight_add_ids k n p : ids_ok p -> ids_ok (in_flight_add k n p).
Proof.
  intros H i w. unfold in_flight_add, update_worker, with_primary, with_workers.
  cbn [workers]. rewrite list_lookup_fmap. intros (w' & Hw' & ->)%fmap_Some.
  specialize (H i w' Hw'). by destruct (id w' =? k).
Qed.

Section Env.
Variable env : nat -> TurnEnv.

Lemma ext_refl s : ext env s s.
Proof. by split. Qed.

Lemma ext_trans s1 s2 s3 : ext env s1 s2 -> ext env s2 s3 -> ext env s1 s3.
Proof. intros [] []. split; try congruence; try lia; auto. Qed.

Lemma ext_on_pool f s : (ids_ok (fpool s) -> ids_ok (f (fpool s))) -> ext env s (on_pool f s).
Proof. intros Hf. by split. Qed.

Lemma ext_on_metrics f s : ext env s (on_metrics f s).
Proof. by apply ext_on_pool. Qed.

Lemma ext_breaker f s : ext env s (on_pool (with_breaker f) s).
Proof. by apply ext_on_pool. Qed.

Lemma ext_in_flight k n s : ext env s (on_pool (in_flight_add k n) s).
Proof. apply ext_on_pool. apply in_flight_add_ids. Qed.

Lemma ext_elapse d a e s : benign e -> 0 <= d -> ext env s (elapse d a e s).
Proof. intros Hb Hd. split; simpl; try done; [lia|]. by apply be_others. Qed.

Lemma ext_fail_none msg s : ext env s (fail_with msg None s).
Proof. by split. Qed.

Lemma ext_fail_same msg s : ext env s (fail_with msg (last_flood_wait s) s).
Proof. by split. Qed.

Lemma ext_fail_flood msg secs s :
  backed env (Err (FloodWait secs)) -> ext env s (fail_with msg (Some secs) s).
Proof. intros H. split; try done. by intros _ secs' [= <-]. Qed.

Lemma ext_primary s : ext env s (set_primary_attempted s).
Proof. by split. Qed.

Lemma ext_migrate dc s : ext env s (migrate dc s).
Proof. by split. Qed.

Lemma retry_backoff_nonneg a r : 0 <= retry_backoff a r.
Proof.
  unfold retry_backoff, FETCH_RETRY_BASE_MS, MAX_RETRY_BACKOFF_MS, MS.
  pose proof (exponential_delay_nonneg 200 (saturating_sub a 1) ltac:(lia) (saturating_sub_nonneg _ _)).
  set (c := Z.min _ 2000). assert (0 <= c) by lia.
  assert (0 <= c / 2) by (apply Z.div_pos; lia).
  pose proof (Z.mod_pos_bound r (c / 2 + 1) ltac:(lia)). lia.
Qed.

Lemma sleep_spec deadline d e s :
  benign e -> 0 <= d ->
  let '(b, s') := sleep_before_retry deadline d e s in
  ext env s s' /\ (b = true -> now s + d <= now s').
Proof.
  intros Hb Hd. unfold sleep_before_retry.
  destruct (_ || _); [split; [apply ext_refl|done]|].
  pose proof (be_sleep e Hb). split; [apply ext_elapse; [done|lia]|simpl; lia].
Qed.

Create HintDb fetch.
Hint Resolve ext_refl ext_on_metrics ext_breaker ext_elapse ext_fail_none ext_fail_same
  ext_fail_flood ext_primary ext_migrate retry_backoff_nonneg be_slot be_lock be_rpc be_sleep : fetch.

Lemma backoff_spec deadline limit reason e s s' fl :
  benign e -> backoff_or_break deadline limit reason e s = (s', fl) ->
  ext env s s' /\ (fl = Break \/ fl = Continue).
Proof.
  intros Hb. unfold backoff_or_break. destruct (limit <=? attempts s); [intros; simplify_eq; auto with fetch|].
  pose proof (sleep_spec deadline (retry_backoff (attempts s) (rnd e)) e s Hb ltac:(auto with fetch)) as Hs.
  destruct (sleep_before_retry _ _ _ _) as [[] s1]; intros; simplify_eq; destruct Hs as [Hs _]; [|auto].
  split; [|auto]. eapply ext_trans; [exact Hs|]. auto with fetch.
Qed.

Lemma flood_wait_spec deadline limit secs k prim err e s s' fl :
  benign e -> 0 <= secs -> backed env (Err (FloodWait secs)) ->
  flood_wait deadline limit secs k prim err e s = (s', fl) ->
  ext env s s' /\ (fl = Break \/ fl = Continue).
Proof.
  intros Hb Hsecs Hk. unfold flood_wait.
  set (s1 := fail_with _ _ s). set (s2 := if prim then s1 else _).
  assert (H2 : ext env s s2).
  { apply (ext_trans _ s1); [by apply ext_fail_flood|]. unfold s2. destruct prim; auto with fetch. }
  destruct (limit <=? attempts s2); [intros; simplify_eq; auto|].
  destruct (Nat.eqb _ 0); [|intros; simplify_eq; split; [eapply ext_trans; [exact H2|auto with fetch]|auto]].
  assert (Hd : 0 <= saturating_add 64 secs 1 * SEC).
  { unfold saturating_add, SEC, MS. rewrite umax_64. lia. }
  pose proof (sleep_spec deadline _ e s2 Hb Hd) as Hs.
  destruct (sleep_before_retry _ _ _ _) as [[] s3]; destruct Hs as [Hs _]; intros; simplify_eq;
    (split; [|auto]).
  - eapply ext_trans; [exact H2|]. eapply ext_trans; [exact Hs|].
    eapply ext_trans; [|apply ext_on_metrics]. destruct prim; auto with fetch.
  - by eapply ext_trans.
Qed.

Lemma handle_result_spec deadline limit k prim e s s' fl :
  benign e -> answered env (rpc e) -> flood_backed env s ->
  handle_result deadline limit k prim (rpc e) e s = (s', fl) ->
  ext env s s' /\ fl <> Panic /\ (forall r, fl = Return r -> backed env r).
Proof.
  intros Hb Hans Hf. pose proof (be_flood e Hb) as Hsecs.
  assert (Hbk : forall limit reason s1,
    ext env s s1 -> backoff_or_break deadline limit reason e s1 = (s', fl) ->
    ext env s s' /\ fl <> Panic /\ (forall r, fl = Return r -> backed env r)).
  { intros l reason s1 Hs1 H. apply backoff_spec in H as [He Hfl]; [|done].
    split; [by eapply ext_trans|]. destruct Hfl as [-> | ->]; done. }
  unfold handle_result. destruct (rpc e) as [|data| |err] eqn:Hrpc.
  - apply Hbk. auto with fetch.
  - intros; simplify_eq. split_and!; [|done|intros r [= <-]; done].
    eapply ext_trans; [apply ext_on_metrics|]. destruct prim; auto with fetch.
  - intros; simplify_eq. split_and!; [auto with fetch|done|intros r [= <-]; done].
  - unfold is_stale_file_reference_error. specialize (Hsecs err).
    destruct (kind err) as [|secs|name|dc| | |] eqn:Hk;
      try (intros; simplify_eq; split_and!; [auto with fetch|done|intros r [= <-]; simpl; eauto]; fail).
    + intros H. apply flood_wait_spec in H as [He Hfl]; [|done|by apply Hsecs|simpl; eauto].
      split; [done|]. destruct Hfl as [-> | ->]; done.
    + case_bool_decide; [apply Hbk; auto with fetch|].
      intros; simplify_eq; split_and!; [auto with fetch|done|intros r [= <-]; simpl; eauto].
    + assert (Hm : ext env s (migrate dc (fail_with (display err) None s)))
        by (eapply ext_trans; [apply ext_fail_none|apply ext_migrate]).
      destruct (limit <=? _); intros; simplify_eq; (split; [|done]); [done|].
      eapply ext_trans; [exact Hm|auto with fetch].
    + apply Hbk. auto with fetch.
Qed.

Lemma min_remaining_pos t (p : StreamWorkerPool G) : 0 < min_remaining t p.
Proof.
  unfold min_remaining. set (f := fun w => gate_remaining (circuit_breaker p) t (id w)).
  assert (Hall : forall d, d ∈ omap f (workers p) -> 0 < d).
  { intros d (w & _ & Hw)%list_elem_of_omap. by eapply gate_remaining_pos. }
  destruct (omap f (workers p)) as [|d ds]; [done|].
  assert (Hd : 0 < d) by (apply Hall; left).
  assert (Hds : Forall (fun x => 0 < x) ds) by (apply Forall_forall; intros; apply Hall; by right).
  clear Hall. revert d Hd. induction Hds as [|x ds Hx _ IH]; intros d Hd; simpl; [done|].
  apply IH. lia.
Qed.

Lemma scan_open t (p : StreamWorkerPool G) l acc :
  (forall i, fst acc = Some i -> gate_open (circuit_breaker p) t i = true) ->
  forall i, fst (foldl (scan_worker t p) acc l) = Some i -> gate_open (circuit_breaker p) t i = true.
Proof.
  revert acc. induction l as [|w l IH]; intros acc Hacc; [done|]. simpl. apply IH.
  unfold scan_worker. destruct acc as [b m]. destruct (gate_open _ t (id w)) eqn:E; [|done].
  destruct (in_flight w <? m); [|done]. intros i [= <-]. done.
Qed.

Lemma pick_open t (p : StreamWorkerPool G) i p' :
  pick_least_loaded t p = (Ok i, p') ->
  gate_open (circuit_breaker p) t i = true /\ workers p' = workers p /\
  circuit_breaker p' = circuit_breaker p /\ primary_fallback p' = primary_fallback p /\
  exists w, w ∈ workers p /\ id w = i.
Proof.
  unfold pick_least_loaded. case_match; [done|].
  set (r := rotation _ _). pose proof (scan_open t p r (None, usize_max) ltac:(done)) as Ho.
  destruct (foldl _ _ r) as [[b|] m] eqn:E; intros; simplify_eq/=. split_and!; try done; [by apply Ho|].
  assert (Hin : forall l acc, (forall b, fst acc = Some b -> exists w, w ∈ workers p /\ id w = b) ->
    (forall x, x ∈ l -> x ∈ workers p) ->
    forall b, fst (foldl (scan_worker t p) acc l) = Some b -> exists w, w ∈ workers p /\ id w = b).
  { induction l as [|x l IH]; intros acc Hacc Hl; [done|]. simpl. apply IH; [|set_solver].
    unfold scan_worker. destruct acc as [b' m']. destruct (gate_open _ _ _); [|done].
    destruct (in_flight x <? m'); [|done]. intros b'' [= <-]. exists x. split; [apply Hl; left|done]. }
  apply (Hin r (None, usize_max)); [done| |by rewrite E].
  intros x. unfold r. by rewrite rotation_perm.
Qed.

Lemma worker_by_id_id (p : StreamWorkerPool G) k w : worker_by_id p k = Some w -> id w = k.
Proof.
  unfold worker_by_id. destruct (List.find _ _) as [x|] eqn:E.
  - intros [= <-]. apply List.find_some in E as [_ E]. by to_prop.
  - destruct (primary_fallback p) as [x|]; [|done]. case_match; [|done]. intros [= <-]. by to_prop.
Qed.

(** What [select] promises to [turn]. *)
Lemma select_spec pinned s sel s' :
  ids_ok (fpool s) -> select pinned s = (sel, s') ->
  ext env s s' /\ now s' = now s /\
  match sel with
  | Selected w prim =>
      (prim = false -> gate_open (circuit_breaker (fpool s')) (now s') (id w) = true) /\
      (forall k, pinned = Some k -> id w = k)
  | WaitFor d => 0 < d
  | SelectFailed => True
  | SelectPanics => False
  end.
Proof.
  intros Hids. unfold select. destruct pinned as [k|].
  - destruct (worker_by_id (fpool s) k) as [w|] eqn:Hw; [|intros; simplify_eq; auto with fetch].
    destruct (negb _ && negb _) eqn:Hc; intros; simplify_eq; (split; [auto with fetch|split; [done|]]).
    + destruct (gate_remaining _ _ k) eqn:Hr; simpl; [by eapply gate_remaining_pos|done].
    + apply worker_by_id_id in Hw as <-. split; [|by intros k [= ->]].
      intros Hp. rewrite Hp in Hc. simpl in Hc. by apply negb_false_iff in Hc.
  - destruct (pick_least_loaded (now s) (fpool s)) as [[i|e] p'] eqn:Hp.
    + apply pick_open in Hp as (Ho & Hw & Hb & Hpf & w & Hin & Hid). rewrite Hw.
      assert (Hg : exists w', get (workers (fpool s)) i = Some w' /\ id w' = i).
      { apply list_elem_of_lookup in Hin as [j Hj]. pose proof (Hids j w Hj) as Hj'.
        exists w. split; [|done]. rewrite get_lookup by lia. by replace (Z.to_nat i) with j by lia. }
      destruct Hg as (w' & Hg & Hid'). rewrite Hg. intros; simplify_eq.
      assert (He : ext env s (on_pool (fun _ => p') s)).
      { apply ext_on_pool. unfold ids_ok. by rewrite Hw. }
      split_and!; [done|done| |done]. simpl. by rewrite Hb, Hid'.
    + assert (He : ext env s (on_pool (fun _ => p') s)).
      { apply ext_on_pool. unfold pick_least_loaded in Hp. revert Hp. destruct (_ =? 0); [by intros [= _ <-]|].
        destruct (foldl _ _ _) as [b m]. by intros [= _ <-]. }
      pose proof (min_remaining_pos (now s) p') as Hm. cbn [now on_pool] in *.
      destruct (primary_fallback p') as [primary|]; repeat case_match;
        intros; simplify_eq; split_and!; try done; eauto with fetch.
Qed.

Lemma invoke_spec deadline limit pinned w prim e s s' fl :
  invoke deadline limit w prim e s = (s', fl) ->
  benign e -> answered env (rpc e) ->
  (prim = false -> gate_open (circuit_breaker (fpool s)) (now s) (id w) = true) ->
  (forall k, pinned = Some k -> id w = k) -> ids_ok (fpool s) -> flood_backed env s ->
  (ext env s s' /\ fl <> Continue /\ fl <> Panic /\ (forall r, fl = Return r -> backed env r)) \/
  (exists rq, attempts s' = attempts s + 1 /\ requests s' = requests s ++ [rq] /\ now s <= now s' /\
     allowed pinned rq /\ ids_ok (fpool s') /\ flood_backed env s' /\ fl <> Panic /\
     (forall r, fl = Return r -> backed env r)).
Proof.
  intros H Hb Hans Hopen Hpin Hids Hflood. unfold invoke in H.
  pose proof (be_lock e Hb) as Hl. pose proof (be_rpc e Hb) as Hr.
  set (op := gate_open (circuit_breaker (fpool s)) (now s) (id w)) in H.
  set (s1 := if prim then set_primary_attempted s else s) in H.
  set (s2 := on_metrics _ (elapse _ AtLock e (on_pool (in_flight_add (id w) 1) s1))) in H.
  assert (H2 : ext env s s2).
  { apply (ext_trans _ s1); [unfold s1; destruct prim; auto with fetch|].
    unfold s2. eapply ext_trans; [|apply ext_on_metrics].
    eapply ext_trans; [|by apply ext_elapse]. apply ext_in_flight. }
  destruct (negb (lock_ok e)).
  - left. simplify_eq. split_and!; try done. eapply ext_trans; [exact H2|].
    eapply ext_trans; [|apply (ext_fail_same _ (on_pool _ s2))]. apply ext_in_flight.
  - right. clearbody s2. set (rq := mkRequest _ _ _ _) in H. set (s3 := send_request rq s2) in H.
    set (s4 := on_pool _ _) in H.
    assert (H4 : ext env s3 s4).
    { unfold s4. eapply ext_trans; [|apply ext_in_flight]. by apply ext_elapse. }
    destruct H2 as [Hn2 Ha2 Hq2 Hi2 Hf2]. specialize (Hi2 Hids). specialize (Hf2 Hflood).
    assert (Hf3 : flood_backed env s3) by done. assert (Hi3 : ids_ok (fpool s3)) by done.
    apply handle_result_spec in H as (H5 & Hnp & Hres); [|done|done|by apply (ext_flood _ _ _ H4)].
    assert (H35 : ext env s3 s') by (by eapply ext_trans). destruct H35 as [Hn Ha Hq Hi Hf].
    exists rq. unfold s3, send_request in Hn, Ha, Hq. simpl in Hn, Ha, Hq.
    split_and!; [lia|by rewrite Hq, Hq2|lia| |auto|auto|done|done].
    split; simpl; auto.
Qed.

Lemma turn_spec deadline limit pinned e s s' fl :
  benign e -> answered env (rpc e) -> ids_ok (fpool s) -> flood_backed env s ->
  turn deadline limit pinned e s = (s', fl) -> turn_ok env pinned s s' fl.
Proof.
  intros Hb Hans Hids Hflood. unfold turn.
  pose proof (be_slot e Hb) as Hslot. set (s1 := elapse _ AtSlot e s).
  assert (H1 : ext env s s1) by (by apply ext_elapse).
  assert (Hquit : forall s2 f, ext env s s2 -> f <> Continue -> f <> Panic ->
    (forall r, f = Return r -> backed env r) -> turn_ok env pinned s s2 f).
  { intros s2 f [] Hf Hf' Hr. split; auto; try done. }
  destruct (slot e); [|intros; simplify_eq; apply Hquit; try done; by intros r [= <-]|].
  2: { intros; simplify_eq. apply Hquit; try done. eapply ext_trans; [exact H1|].
       apply (ext_trans _ (on_metrics (record_rpc_slot_wait (slot_elapsed e)) s1));
         [apply ext_on_metrics|apply (ext_fail_same _ (on_metrics _ s1))]. }
  set (s2 := on_metrics _ s1). assert (H2 : ext env s s2) by (eapply ext_trans; [exact H1|apply ext_on_metrics]).
  destruct (select pinned s2) as [sel s3] eqn:Hsel.
  apply select_spec in Hsel as (H3 & Hnow & Hs); [|by apply (ext_ids _ _ _ H2)].
  assert (H23 : ext env s s3) by (by eapply ext_trans).
  destruct sel as [w prim|d| |];
    [| |intros; simplify_eq; apply Hquit; [done|done|done|by intros r [= <-]]|done].
  - intros Hi. destruct Hs as [Hopen Hpin].
    destruct (invoke_spec _ _ pinned _ _ _ _ _ _ Hi Hb Hans Hopen Hpin (ext_ids _ _ _ H23 Hids)
      (ext_flood _ _ _ H23 Hflood)) as [(He & Hne & Hnp & Hr)|
      (rq & Hatt & Hreq & Hnow' & Hall & Hi' & Hf & Hnp & Hr)].
    + apply Hquit; try done. by eapply ext_trans.
    + destruct H23. split; try done; try lia.
      right. exists rq. split; [lia|split; [congruence|done]].
  - pose proof (sleep_spec deadline d e s3 Hb ltac:(lia)) as Hsl.
    destruct (sleep_before_retry deadline d e s3) as [b s4]. destruct Hsl as [H4 Hsleep].
    assert (H04 : ext env s s4) by (by eapply ext_trans).
    destruct b; intros; simplify_eq; [|by apply Hquit].
    specialize (Hsleep eq_refl). destruct H23, H04. split; auto; try done. intros _. right. lia.
Qed.

Lemma primary_attempt_spec primary e s s' fl :
  benign e -> answered env (rpc e) -> flood_backed env s ->
  primary_attempt primary e s = (s', fl) ->
  ((attempts s' = attempts s /\ requests s' = requests s) \/
   (exists rq, attempts s' = attempts s + 1 /\ requests s' = requests s ++ [rq] /\ allowed None rq)) /\
  flood_backed env s' /\ (forall r, fl = Return r -> backed env r).
Proof.
  intros Hb Hans Hf. unfold primary_attempt. destruct (slot e).
  2-3: intros; simplify_eq; split; [by left|split; [done|by intros r [= <-]]].
  destruct (negb (lock_ok e)); [intros; simplify_eq; split; [by left|split; [done|by intros r [= <-]]]|].
  match goal with |- context [send_request ?rq ?st] => set (rq0 := rq); set (s1 := st) end.
  assert (H1 : attempts s1 = attempts s /\ requests s1 = requests s /\ last_flood_wait s1 = last_flood_wait s).
  { unfold s1. by destruct (0 <? _). }
  assert (Hrq : allowed None rq0) by (by split). clearbody s1 rq0. destruct H1 as (Ha & Hq & Hw).
  assert (Hreq : forall s2, attempts s2 = attempts s1 + 1 -> requests s2 = requests s1 ++ [rq0] ->
    (attempts s2 = attempts s /\ requests s2 = requests s) \/
    (exists rq, attempts s2 = attempts s + 1 /\ requests s2 = requests s ++ [rq] /\ allowed None rq)).
  { intros s2 -> ->. right. exists rq0. by rewrite Ha, Hq. }
  assert (Hf1 : forall s2, last_flood_wait s2 = last_flood_wait s1 -> flood_backed env s2).
  { intros s2 E secs. rewrite E, Hw. apply Hf. }
  destruct (rpc e) as [|data| |err];
    [intros; simplify_eq; split; [by apply Hreq|split; [by apply Hf1|by intros r [= <-]]]..|].
  unfold is_stale_file_reference_error. destruct (kind err) eqn:Hk;
    intros; simplify_eq; (split; [by apply Hreq|split; [|intros r; try (intros [= <-]; simpl; eauto)]]);
    solve [by apply Hf1|done].
Qed.

Definition loop_inv (t limit : Z) (pinned : option Z) (s : fetch_state) : Prop :=
  0 <= attempts s <= limit /\ Z.of_nat (length (requests s)) = attempts s /\
  Forall (allowed pinned) (requests s) /\ ids_ok (fpool s) /\ flood_backed env s /\ t <= now s.

(** Attempts left, and nanoseconds to the deadline: each turn uses some of either. *)
Definition budget (deadline limit : Z) (s : fetch_state) : nat :=
  Z.to_nat (limit - attempts s + saturating_sub deadline (now s)).

Lemma requests_step (t limit : Z) pinned s s' :
  loop_inv t limit pinned s ->
  (attempts s' = attempts s /\ requests s' = requests s) \/
  (exists rq, attempts s' = attempts s + 1 /\ requests s' = requests s ++ [rq] /\ allowed pinned rq) ->
  attempts s <= attempts s' <= attempts s + 1 /\
  Z.of_nat (length (requests s')) = attempts s' /\ Forall (allowed pinned) (requests s').
Proof.
  intros (Ha & Hl & Hall & _) [[-> ->]|(rq & -> & -> & Hrq)]; [split_and!; [lia..|done]|].
  rewrite length_app, Forall_app. simpl. split_and!; try lia; [done|by apply Forall_singleton].
Qed.

Hypothesis Henv : forall k, benign (env k).

Lemma run_loop_spec t deadline limit pinned fuel : forall k s,
  loop_inv t limit pinned s -> (budget deadline limit s <= fuel)%nat ->
  exists k' s' fl, run_loop deadline fuel limit pinned env k s = Some (k', s', fl) /\
    loop_inv t limit pinned s' /\
    (fl = Break \/ exists r, fl = Return r /\ backed env r).
Proof.
  induction fuel as [|f IH]; intros k s Hinv Hf; cbn [run_loop];
    (destruct ((attempts s <? limit) && (now s <? deadline)) eqn:Hg; [|by exists k, s, Break; auto]);
    to_prop; pose proof Hinv as (Ha & _ & _ & Hids & Hflood & Ht0); unfold budget, saturating_sub in Hf; [lia|].
  destruct (turn deadline limit pinned (env k) s) as [s' fl] eqn:Ht.
  destruct (turn_spec deadline limit pinned (env k) s s' fl (Henv k) (ex_intro _ k eq_refl) Hids Hflood Ht)
    as [Hnow Hreq Hprog Hids' Hfl' Hres Hnp].
  destruct (requests_step t limit pinned s s' Hinv Hreq) as (Ha' & Hl' & Hall').
  assert (Hinv' : loop_inv t limit pinned s') by (split_and!; done || lia).
  destruct fl as [| |r|];
    [|exists (S k), s', Break; by auto|exists (S k), s', (Return r); split_and!; try done; right; by eauto|done].
  apply IH; [done|]. specialize (Hprog eq_refl). unfold budget, saturating_sub. lia.
Qed.

Lemma fetch_chunk_spec deadline pinned fuel t dc (p : StreamWorkerPool G) :
  ids_ok p -> (Z.to_nat (MAX_FETCH_ATTEMPTS + saturating_sub deadline t) <= fuel)%nat ->
  exists r s, fetch_chunk_with_budget deadline fuel pinned env t dc p = Some (r, s) /\
    backed env r /\ attempts s <= MAX_FETCH_ATTEMPTS /\
    Z.of_nat (length (requests s)) = attempts s /\ Forall (allowed pinned) (requests s) /\
    (forall worker_id, pinned = Some worker_id -> ids_ok (fpool s) /\ t <= now s).
Proof.
  intros Hids Hfuel. set (limit := worker_attempt_limit pinned p).
  assert (Hlim : 0 <= limit <= MAX_FETCH_ATTEMPTS).
  { unfold limit, worker_attempt_limit, MAX_FETCH_ATTEMPTS. repeat case_match; lia. }
  destruct (run_loop_spec t deadline limit pinned fuel 0 (init_fetch t dc p))
    as (k & s & fl & Hrun & Hinv & Hfl).
  - unfold loop_inv, init_fetch. simpl. split_and!; done || lia || constructor.
  - unfold budget, init_fetch. simpl. lia.
  - unfold fetch_chunk_with_budget. fold limit. rewrite Hrun.
    pose proof Hinv as (Ha & Hl & Hall & Hids' & Hf & Hnow).
    assert (Hgive : forall s, flood_backed env s -> backed env (fetch_exhausted s)).
    { intros s1 H1. unfold fetch_exhausted. destruct (last_flood_wait s1) eqn:E; [by apply H1|done]. }
    destruct Hfl as [->|(r & -> & Hr)]; [|eexists _, _; split_and!; try done; lia].
    assert (Hend : exists r s1, Some (fetch_exhausted s, s) = Some (r, s1) /\ backed env r /\
      attempts s1 <= MAX_FETCH_ATTEMPTS /\ Z.of_nat (length (requests s1)) = attempts s1 /\
      Forall (allowed pinned) (requests s1) /\
      (forall worker_id, pinned = Some worker_id -> ids_ok (fpool s1) /\ t <= now s1)).
    { eexists _, _. split_and!; try done; [by apply Hgive|lia]. }
    destruct pinned as [w|]; [done|]. destruct (primary_fallback (fpool s)) as [primary|]; [|done].
    destruct (_ && _ && _) eqn:Hg; [|done]. to_prop.
    destruct (primary_attempt primary (env k) s) as [s' fl] eqn:Hp.
    apply primary_attempt_spec in Hp as (Hreq & Hf' & Hres); [|done|by exists k|done].
    destruct (requests_step t limit None s s' Hinv Hreq) as (Ha' & Hl' & Hall').
    destruct fl; eexists _, _; (split; [done|]); split_and!; auto; try lia; by intros ? [=].
Qed.

End Env.
End Fetch.
Arguments TurnEnv G : clear implicits.
Arguments fetch_state G : clear implicits.

(** ** Properties *)

Section Properties.
Context {G : Type} `{!WorkerGate G}.
Implicit Types p : StreamWorkerPool G.


(** C4: the fetch sends at most [MAX_FETCH_ATTEMPTS] RPCs; none goes to a worker the breaker held
    in quarantine when it was chosen (the primary is exempt), and a pinned fetch only ever uses the
    pinned worker. *)
Theorem fetch_chunk_discipline deadline pinned fuel env t dc p r s :
  (forall k, benign (env k)) -> ids_ok p ->
  (Z.to_nat (MAX_FETCH_ATTEMPTS + saturating_sub deadline t) <= fuel)%nat ->
  fetch_chunk_with_budget deadline fuel pinned env t dc p = Some (r, s) ->
  Z.of_nat (length (requests s)) = attempts s /\ attempts s <= MAX_FETCH_ATTEMPTS /\
  forall rq, rq ∈ requests s ->
    (rq_primary rq = false -> rq_open rq = true) /\
    (forall worker_id, pinned = Some worker_id -> rq_worker rq = worker_id).
Proof.
  intros He Hp Hf H.
  destruct (fetch_chunk_spec env He deadline pinned fuel t dc p Hp Hf) as (r' & s' & H' & _ & Ha & Hl & Hall & _).
  rewrite H in H'. simplify_eq. split_and!; [done|done|]. by apply Forall_forall.
Qed.

(** No result is made up: bytes, an expired file reference, a CDN redirect, a flood wait and a
    Telegram error are each returned only if Telegram answered that to one of the RPCs. *)
Theorem fetch_chunk_backed deadline pinned fuel env t dc p r s :
  (forall k, benign (env k)) -> ids_ok p ->
  (Z.to_nat (MAX_FETCH_ATTEMPTS + saturating_sub deadline t) <= fuel)%nat ->
  fetch_chunk_with_budget deadline fuel pinned env t dc p = Some (r, s) -> backed env r.
Proof.
  intros He Hp Hf H.
  destruct (fetch_chunk_spec env He deadline pinned fuel t dc p Hp Hf) as (r' & s' & H' & Hb & _).
  rewrite H in H'. by simplify_eq.
Qed.

End Properties.

(** *** Witnesses: worker 0 is rate limited once, the pool then uses worker 1 *)

Definition demo_turn (out : RpcOutcome) : TurnEnv breaker :=
  mkTurn SlotAcquired 1 true 1 out 5 7 0 (fun _ p => p).

Definition demo_turns (k : nat) : TurnEnv breaker :=
  match k with
  | O => demo_turn (RpcErr (mkInvocationError (KFloodWait 3) (lit "FLOOD_WAIT_3")))
  | _ => demo_turn (RpcFile [Byte.x2a])
  end.

Lemma demo_turns_benign k : benign (demo_turns k).
Proof. destruct k; split; simpl; try done; intros; simplify_eq/=; try done; lia. Qed.

Lemma demo_pool_ids : ids_ok demo_pool.
Proof. intros i w Hw. by apply demo_pool_ok. Qed.

Lemma demo_fuel : (Z.to_nat (MAX_FETCH_ATTEMPTS + saturating_sub 100 0) <= 104)%nat.
Proof. vm_compute. lia. Qed.


Definition demo_state : fetch_state breaker :=
  Eval vm_compute in
    match fetch_chunk_with_budget 100 104 None demo_turns 0 2 demo_pool with
    | Some (_, s) => s
    | None => init_fetch 0 0 demo_pool
    end.

Lemma demo_run :
  fetch_chunk_with_budget 100 104 None demo_turns 0 2 demo_pool = Some (Ok [Byte.x2a], demo_state).
Proof. vm_compute. reflexivity. Qed.

Lemma fetch_chunk_discipline_witness :
  rq_worker <$> requests demo_state = [1; 0] /\
  Z.of_nat (length (requests demo_state)) = attempts demo_state.
Proof.
  split; [reflexivity|].
  apply (fetch_chunk_discipline 100 None 104 demo_turns 0 2 demo_pool (Ok [Byte.x2a]) demo_state);
    [exact demo_turns_benign|exact demo_pool_ids|exact demo_fuel|exact demo_run].
Defined.

Lemma fetch_chunk_backed_witness : backed demo_turns (Ok [Byte.x2a]).
Proof.
  apply (fetch_chunk_backed 100 None 104 demo_turns 0 2 demo_pool (Ok [Byte.x2a]) demo_state);
    [exact demo_turns_benign|exact demo_pool_ids|exact demo_fuel|exact demo_run].
Defined.
