(* ===== verification/Music.v ===== *)
(** * Music: codecs, renditions and work plans (crates/music/src/lib.rs), and the query encoder
      (crates/music/src/url.rs)

    The enumerations, their textual forms and parsers, the expansion of a list of tracks into the
    units of work a rendition policy asks for, and percent encoding. *)
From S2P Require Import Prelude Text.

(** ** Codecs *)

Inductive Codec : Type := Alac | Ec3 | Aac.
#[export] Instance Codec_eq_dec : EqDecision Codec.
Proof. solve_decision. Defined.
#[export] Instance Codec_countable : Countable Codec.
Proof.
  refine (inj_countable' (fun c => match c with Alac => 0%nat | Ec3 => 1%nat | Aac => 2%nat end)
    (fun n => match n with 0%nat => Alac | 1%nat => Ec3 | _ => Aac end) _).
  by intros [].
Defined.

Inductive CodecPreference : Type := HighestQuality | HiRes192 | HiRes96 | LosslessCd | PreferAtmos.
#[export] Instance CodecPreference_eq_dec : EqDecision CodecPreference.
Proof. solve_decision. Defined.

(** [match value { "a" | "b" => .., .. }]. *)
Definition one_of (options : list string) (value : str) : bool :=
  existsb (fun o => bool_decide (value = lit o)) options.

Definition CodecPreference_parse (s : str) : option CodecPreference :=
  let clean := to_ascii_lowercase (trim_start_by (Z.eqb 45) (trim s)) in
  if one_of ["highest"; "max"; "best"]%string clean then Some HighestQuality
  else if one_of ["hires"; "hires192"; "24-192"; "192"]%string clean then Some HiRes192
  else if one_of ["hires96"; "24-96"; "96"]%string clean then Some HiRes96
  else if one_of ["lossless"; "cd"; "16-44"]%string clean then Some LosslessCd
  else if one_of ["atmos"]%string clean then Some PreferAtmos
  else None.

Definition mime_type (c : Codec) : str := lit "audio/mp4".

Definition as_str (c : Codec) : str :=
  match c with Alac => lit "alac" | Ec3 => lit "ec-3" | Aac => lit "aac" end.

Definition display_name (c : Codec) : str :=
  match c with Alac => lit "ALAC" | Ec3 => lit "Dolby Atmos" | Aac => lit "AAC" end.

(** [Codec::from_str]. *)
Definition Codec_from_str (value : str) : result str Codec :=
  let v := to_ascii_lowercase (trim value) in
  if one_of ["alac"]%string v then Ok Alac
  else if one_of ["ec-3"; "ec3"; "atmos"; "dolby"; "dolby atmos"; "eac3"]%string v then Ok Ec3
  else if one_of ["aac"; "mp4a.40.2"; "mp4a.40.5"; "heaac"]%string v then Ok Aac
  else Err (lit "unknown codec: " ++ v).

(** ** Renditions *)

Inductive Rendition : Type := Primary | Atmos.
#[export] Instance Rendition_eq_dec : EqDecision Rendition.
Proof. solve_decision. Defined.
#[export] Instance Rendition_countable : Countable Rendition.
Proof.
  refine (inj_countable' (fun r => match r with Primary => 0%nat | Atmos => 1%nat end)
    (fun n => match n with 0%nat => Primary | _ => Atmos end) _).
  by intros [].
Defined.

Inductive RenditionPolicy : Type := PrimaryOnly | PrimaryWithOptionalAtmos.

Definition codec_preference (r : Rendition) : CodecPreference :=
  match r with Primary => HighestQuality | Atmos => PreferAtmos end.

Definition required (r : Rendition) : bool := match r with Primary => true | Atmos => false end.

Definition accepted_cache_codecs (r : Rendition) : list Codec :=
  match r with Primary => [Alac; Aac] | Atmos => [Ec3] end.

Definition renditions (p : RenditionPolicy) : list Rendition :=
  match p with PrimaryOnly => [Primary] | PrimaryWithOptionalAtmos => [Primary; Atmos] end.

Record RenditionWorkUnit := mkUnit { unit_track_id : str; unit_rendition : Rendition }.

(** The two nested loops of [work_plan], pushing onto [units]. *)
Definition push_units (p : RenditionPolicy) (units : list RenditionWorkUnit) (track_id : str) :
    list RenditionWorkUnit :=
  foldl (fun units rendition => units ++ [mkUnit track_id rendition]) units (renditions p).

Definition work_plan (p : RenditionPolicy) (track_ids : list str) : list RenditionWorkUnit :=
  foldl (push_units p) [] track_ids.

(** ** Targets *)

Inductive TargetKind : Type := KTrack | KAlbum | KPlaylist | KArtist.
#[export] Instance TargetKind_eq_dec : EqDecision TargetKind.
Proof. solve_decision. Defined.

Record ParsedTargetItem := mkTarget { target_id : str; target_kind : TargetKind; storefront : option str }.

(** ** Catalogue records *)

Record TrackMeta := mkTrackMeta {
  meta_id : str; title : str; artist : str; album : str; album_artist : str;
  genre : option str; release_date : str; composer : option str;
  track_number : option Z; track_count : option Z; disc_number : option Z; disc_count : option Z;
  duration_secs : Z; explicit : bool; content_advisory : option str; artwork_url : str;
  album_id : option str; artist_id : option str; isrc : option str; record_label : option str;
  copyright : option str; upc : option str; is_streamable : option bool;
}.

(** ** Percent encoding *)

Definition unreserved (b : Z) : bool :=
  is_ascii_upper b || is_ascii_lower b || is_ascii_digit b ||
  (b =? 45) || (b =? 95) || (b =? 46) || (b =? 126).

(** One upper case hexadecimal digit. *)
Definition hex_upper (n : Z) : Z := if n <? 10 then 48 + n else 55 + n.

Definition encode_byte (b : Z) : str :=
  if unreserved b then [b] else [37; hex_upper (b / 16); hex_upper (b mod 16)].

Definition urlencode (value : str) : str :=
  foldl (fun encoded byte => encoded ++ encode_byte byte) [] (as_bytes value).

(** The reference decoder (RFC 3986): the specification [urlencode] is proved against. *)
Definition unhex (c : Z) : option Z :=
  if is_ascii_digit c then Some (c - 48)
  else if (65 <=? c) && (c <=? 70) then Some (c - 55)
  else if (97 <=? c) && (c <=? 102) then Some (c - 87) else None.

Fixpoint percent_decode (s : str) : option (list Z) :=
  match s with
  | [] => Some []
  | 37 :: h :: l :: rest =>
      match unhex h, unhex l, percent_decode rest with
      | Some a, Some b, Some bs => Some (16 * a + b :: bs)
      | _, _, _ => None
      end
  | c :: rest => if c =? 37 then None else cons c <$> percent_decode rest
  end.

(** ** Lemmas *)

Lemma foldl_snoc_flat {A B} (f : A -> list B) l acc :
  foldl (fun acc a => acc ++ f a) acc l = acc ++ concat (f <$> l).
Proof.
  revert acc. induction l as [|a l IH]; intros acc; csimpl; [by rewrite app_nil_r|].
  by rewrite IH, app_assoc.
Qed.

Lemma push_units_eq p us t : push_units p us t = us ++ (mkUnit t <$> renditions p).
Proof.
  unfold push_units. rewrite (foldl_snoc_flat (fun r => [mkUnit t r])). f_equal.
  by induction (renditions p) as [|r rs IH]; csimpl; [|rewrite IH].
Qed.

Lemma work_plan_eq p ids : work_plan p ids = concat ((fun t => mkUnit t <$> renditions p) <$> ids).
Proof.
  unfold work_plan. rewrite <-(app_nil_l (concat _)), <-foldl_snoc_flat.
  generalize (@nil RenditionWorkUnit). induction ids as [|t ids IH]; intros acc; simpl; [done|].
  by rewrite push_units_eq, IH.
Qed.

Lemma urlencode_eq v : urlencode v = concat (encode_byte <$> as_bytes v).
Proof. unfold urlencode. by rewrite foldl_snoc_flat. Qed.

Lemma unreserved_range b : unreserved b = true -> b <> 37.
Proof. intros H ->. by vm_compute in H. Qed.

(** A property of the hexadecimal digits is checked on the sixteen of them. *)
Lemma nibble_cases (P : Z -> bool) :
  forallb P (seqZ 0 16) = true -> forall n, 0 <= n < 16 -> P n = true.
Proof.
  intros H n Hn. rewrite List.forallb_forall in H. apply H. apply list_elem_of_In, elem_of_seqZ. lia.
Qed.

Lemma unhex_hex n : 0 <= n < 16 -> unhex (hex_upper n) = Some n.
Proof.
  intros H. apply (nibble_cases (fun n => bool_decide (unhex (hex_upper n) = Some n))) in H; [|done].
  by apply bool_decide_eq_true in H.
Qed.

Lemma percent_decode_cons c s : c <> 37 -> percent_decode (c :: s) = cons c <$> percent_decode s.
Proof.
  intros Hc. pose proof (proj2 (Z.eqb_neq c 37) Hc) as E. cbn [percent_decode]. rewrite E.
  repeat case_match; try done; congruence.
Qed.

Lemma percent_decode_byte b s :
  0 <= b < 256 -> percent_decode (encode_byte b ++ s) = cons b <$> percent_decode s.
Proof.
  intros Hb. unfold encode_byte. destruct (unreserved b) eqn:E.
  - apply percent_decode_cons. by apply unreserved_range.
  - cbn [app percent_decode]. rewrite !unhex_hex by (Z.to_euclidean_division_equations; lia).
    destruct (percent_decode s) as [bs|]; [|done]. csimpl. do 2 f_equal.
    Z.to_euclidean_division_equations; lia.
Qed.

(** What a query string may hold unescaped. *)
Lemma hex_upper_unreserved n : 0 <= n < 16 -> unreserved (hex_upper n) = true.
Proof. by apply (nibble_cases (fun n => unreserved (hex_upper n))). Qed.

Lemma encode_byte_safe b :
  0 <= b < 256 -> Forall (fun c => unreserved c = true \/ c = 37) (encode_byte b).
Proof.
  intros H. unfold encode_byte. destruct (unreserved b) eqn:E;
    repeat (apply Forall_cons; split); try apply Forall_nil; auto;
    left; apply hex_upper_unreserved; Z.to_euclidean_division_equations; lia.
Qed.

(** ** Properties *)

(** Percent encoding loses nothing and leaks nothing: a standard decoder gives back the UTF-8
    bytes of the text, so two different texts never share an encoding, and the encoding holds only
    unreserved characters and percent signs. *)
Theorem urlencode_roundtrip v :
  Forall scalar v ->
  percent_decode (urlencode v) = Some (as_bytes v) /\
  Forall (fun c => unreserved c = true \/ c = 37) (urlencode v) /\
  (forall v', Forall scalar v' -> urlencode v' = urlencode v -> v' = v).
Proof.
  assert (Hdec : forall v, Forall scalar v -> percent_decode (urlencode v) = Some (as_bytes v)).
  { intros u Hu%as_bytes_byte. rewrite urlencode_eq.
    induction Hu as [|b bs Hb _ IH]; csimpl; [done|]. by rewrite percent_decode_byte, IH. }
  intros Hv. split; [by apply Hdec|]. split.
  - rewrite urlencode_eq. apply as_bytes_byte in Hv.
    induction Hv as [|b bs Hb _ IH]; csimpl; [done|]. apply Forall_app. split; [by apply encode_byte_safe|done].
  - intros v' Hv' E. apply as_bytes_inj; [done..|].
    pose proof (Hdec v Hv) as H1. pose proof (Hdec v' Hv') as H2. congruence.
Qed.

Lemma urlencode_roundtrip_witness :
  percent_decode (urlencode (lit "a b/" ++ [233; 127925])) =
    Some [97; 32; 98; 47; 195; 169; 240; 159; 142; 181].
Proof.
  apply (urlencode_roundtrip (lit "a b/" ++ [233; 127925])).
  repeat (apply Forall_cons; split; [by vm_compute|]). apply Forall_nil_2.
Defined.

(** A codec is read back from its stored form and from its display name, and a stored codec is
    accepted by exactly one rendition, the required one for every codec but Dolby Atmos. *)
Theorem codec_roundtrip (c : Codec) :
  Codec_from_str (as_str c) = Ok c /\ Codec_from_str (display_name c) = Ok c /\
  exists! r, c ∈ accepted_cache_codecs r /\ (required r = true <-> c <> Ec3).
Proof.
  split; [by destruct c|]. split; [by destruct c|].
  exists (match c with Ec3 => Atmos | _ => Primary end). split.
  - destruct c; simpl; split; try done; set_solver.
  - intros [] [Hc _]; destruct c; simpl in Hc; set_solver.
Qed.

(** A work plan visits the tracks in the order asked for, and for each one the renditions of
    the policy, the required primary first; nothing is left out or planned twice. *)
Theorem work_plan_order p ids i j t r :
  ids !! i = Some t -> renditions p !! j = Some r ->
  work_plan p ids !! (i * length (renditions p) + j)%nat = Some (mkUnit t r) /\
  length (work_plan p ids) = (length ids * length (renditions p))%nat /\
  (j = 0%nat <-> required r = true).
Proof.
  intros Hi Hj. rewrite work_plan_eq. split_and!.
  - revert i Hi. induction ids as [|t' ids IH]; intros [|i] Hi; csimpl; simplify_eq/=.
    + rewrite lookup_app_l by (rewrite length_fmap; by eapply lookup_lt_Some).
      by rewrite list_lookup_fmap, Hj.
    + rewrite lookup_app_r by (rewrite length_fmap; lia). rewrite <-(IH i) by done.
      f_equal. rewrite length_fmap. lia.
  - clear Hi. induction ids as [|t' ids IH]; csimpl; [done|]. rewrite length_app, IH, length_fmap. lia.
  - destruct p; simpl in Hj; repeat (destruct j as [|j]; simplify_eq/=; try done).
Qed.

Lemma work_plan_order_witness :
  work_plan PrimaryWithOptionalAtmos [lit "a"; lit "b"] !! 2%nat = Some (mkUnit (lit "b") Primary).
Proof.
  apply (work_plan_order PrimaryWithOptionalAtmos [lit "a"; lit "b"] 1 0 (lit "b") Primary); reflexivity.
Defined.
