(* ===== verification/StreamEngine.v ===== *)
(** * StreamEngine: opening a stream (crates/stream/src/engine.rs) and refreshing an expired file
      reference in the middle of one (crates/stream/src/pipe.rs, [fetch_chunk_with_refresh])

    The track repository and the Telegram client are met through functions of the number of loads
    made so far, so that they may answer differently each time; the metadata cache is a
    [MokaCache]. *)
From S2P Require Import Prelude Text Interfaces StreamTypes Music ByteRanges ChunkCache StreamPipe Metrics WorkerPool WorkerFetch CircuitBreaker.

Record TrackMediaMetadata := mkMeta {
  meta_document_id : Z; access_hash : Z; file_reference : bytes; dc_id : Z;
  file_size : Z; meta_mime_type : str; codec : Codec;
}.

(** [InputDocumentFileLocation] without its constant thumbnail size. *)
Record InputFileLocation := mkLocation { loc_id : Z; loc_access_hash : Z; loc_file_reference : bytes }.

Definition input_location (m : TrackMediaMetadata) : InputFileLocation :=
  mkLocation (meta_document_id m) (access_hash m) (file_reference m).

Record AudioStreamHeaders := mkHeaders {
  status : Z; content_type : str; content_length : Z; content_range : option str; accept_ranges : str;
}.

(** What the repository and Telegram return. *)
Record track_row := mkRow { message_id : Z; row_codec : Codec }.
Record document := mkDocument {
  doc_id : Z; doc_access_hash : Z; doc_file_reference : bytes; doc_dc_id : Z; doc_size : Z; doc_mime_type : str;
}.

Section Engine.
Context {C : Type} `{!MokaCache (Z * Z) TrackMediaMetadata C}.

(** The outside world; the first argument counts the loads. *)
Variable find_track_by_id : nat -> Z -> result StreamError (option track_row).
Variable primary_get_messages : option (nat -> Z -> result StreamError (list (option document))).
Variable get_messages_for_worker : nat -> Z -> Z -> result StreamError (list (option document)).

Record engine := mkEngine { metadata_cache : C; loads : nat }.

Definition load_track_media (db_track_id worker_id : Z) (e : engine) :
    result StreamError TrackMediaMetadata * engine :=
  let n := loads e in
  let loaded :=
    row ← find_track_by_id n db_track_id;
    track ← ok_or row (TrackNotFound db_track_id);
    messages ←
      (if worker_id =? usize_max then
         get ← ok_or primary_get_messages AllWorkersUnavailable;
         get n (message_id track)
       else get_messages_for_worker n worker_id (message_id track));
    message ← ok_or (head messages) (NoMediaDocument db_track_id);
    document ← ok_or message (NoMediaDocument db_track_id);
    let mime := if bool_decide (doc_mime_type document = []) then mime_type (row_codec track)
                else doc_mime_type document in
    Ok (mkMeta (doc_id document) (doc_access_hash document) (doc_file_reference document)
          (doc_dc_id document) (wrap 64 (doc_size document)) mime (row_codec track)) in
  match loaded with
  | Ok m => (Ok m, mkEngine (cache_insert (metadata_cache e) (db_track_id, worker_id) m) (S n))
  | Err err => (Err err, mkEngine (metadata_cache e) (S n))
  end.

Definition resolve_track_media_for_worker (db_track_id worker_id : Z) (force_refresh : bool) (e : engine) :
    result StreamError TrackMediaMetadata * engine :=
  match (if force_refresh then None else cache_get (metadata_cache e) (db_track_id, worker_id)) with
  | Some cached => (Ok cached, e)
  | None => load_track_media db_track_id worker_id e
  end.

Definition resolve_track_media (db_track_id : Z) (force_refresh : bool) (e : engine) :=
  resolve_track_media_for_worker db_track_id usize_max force_refresh e.

(** Under the lock of the track and worker. *)
Definition refresh_track_media_if_stale (db_track_id worker_id : Z) (stale : bytes) (e : engine) :
    result StreamError TrackMediaMetadata * engine :=
  match cache_get (metadata_cache e) (db_track_id, worker_id) with
  | Some cached =>
      if negb (bool_decide (file_reference cached = stale)) then (Ok cached, e)
      else load_track_media db_track_id worker_id e
  | None => load_track_media db_track_id worker_id e
  end.

(** The range, the status and the [Content-Range] of a request. *)
Definition plan_range (range_header : option str) (m : TrackMediaMetadata) :
    result StreamError (ByteRange.ByteRange * Z * option str) :=
  match range_header with
  | Some header =>
      r ← ByteRange.parse header (file_size m);
      Ok (r, 206, Some (lit "bytes " ++ show_u (ByteRange.start r) ++ lit "-" ++
                        show_u (ByteRange.end_ r) ++ lit "/" ++ show_u (file_size m)))
  | None => Ok (ByteRange.mkByteRange 0 (saturating_sub (file_size m) 1), 200, None)
  end.

Definition prepare_stream (db_track_id : Z) (range_header : option str) (worker_id : Z) (e : engine) :
    result StreamError (TrackMediaMetadata * AudioStreamHeaders * ByteRange.ByteRange) * engine :=
  let '(meta, e) := resolve_track_media_for_worker db_track_id worker_id false e in
  (m ← meta;
   '(range, status, content_range) ← plan_range range_header m;
   Ok (m, mkHeaders status (meta_mime_type m) (ByteRange.length range) content_range (lit "bytes"), range),
   e).

Definition open_stream_headers (db_track_id : Z) (range_header : option str) (e : engine) :
    result StreamError AudioStreamHeaders * engine :=
  let '(r, e) := prepare_stream db_track_id range_header usize_max e in
  (('(_, headers, _) ← r; Ok headers), e).

(** [open_stream]: the worker chosen, the headers, and the parameters of the pipe: the range, the
    document, its location and data centre. *)
Record AudioStreamResponse := mkResponse {
  response_headers : AudioStreamHeaders; pipe_worker_id : Z; pipe_range : ByteRange.ByteRange;
  pipe_document_id : Z; pipe_location : InputFileLocation; pipe_dc_id : Z;
}.

Definition open_stream {G : Type} `{!WorkerGate G} (now db_track_id : Z) (range_header : option str)
    (p : StreamWorkerPool G) (e : engine) : result StreamError AudioStreamResponse * StreamWorkerPool G * engine :=
  match select_worker_for_stream now p with
  | (Err error, p) => (Err error, p, e)
  | (Ok worker_id, p) =>
      match prepare_stream db_track_id range_header worker_id e with
      | (Err error, e) => (Err error, p, e)
      | (Ok (meta, headers, range), e) =>
          (Ok (mkResponse headers worker_id range (meta_document_id meta) (input_location meta) (dc_id meta)),
           with_metrics record_stream_started p, e)
      end
  end.

End Engine.

(** ** The refresh in the middle of a stream *)

Section Refresh.
Context {G : Type} `{!WorkerGate G}.

(** The refresher, if the stream has one: how long it takes, and its outcome unless it times out. *)
Record refresher := mkRefresher { refresh_elapsed : Z; refresh_outcome : option (result StreamError InputFileLocation) }.

Record refresh_fetch := mkRefreshFetch {
  chunk : result StreamError bytes;
  location : InputFileLocation;            (* the shared location afterwards *)
  first_fetch : fetch_state G;
  second_fetch : option (fetch_state G);
}.

Definition refresh_timed_out : StreamError :=
  ChunkFetchFailed (lit "timed out refreshing the Telegram file reference").

(** [env l k]: turn [k] of a fetch at location [l]; [t] is the time of the call. *)
Definition fetch_chunk_with_refresh (fuel : nat) (worker_id : Z) (env : InputFileLocation -> nat -> TurnEnv G)
    (refresh_location : option refresher) (t dc : Z) (loc : InputFileLocation) (p : StreamWorkerPool G) :
    option refresh_fetch :=
  let deadline := t + CHUNK_FETCH_DEADLINE in
  match fetch_chunk_until_on_worker fuel worker_id deadline (env loc) t dc p with
  | None => None
  | Some (Err FileReferenceExpired, s) =>
      match refresh_location with
      | None => Some (mkRefreshFetch (Err FileReferenceExpired) loc s None)
      | Some refresh =>
          let s := on_metrics record_file_reference_refresh s in
          match refresh_outcome refresh with
          | None => Some (mkRefreshFetch (Err refresh_timed_out) loc s None)
          | Some (Err e) => Some (mkRefreshFetch (Err e) loc s None)
          | Some (Ok new_location) =>
              match fetch_chunk_until_on_worker fuel worker_id deadline (env new_location)
                      (now s + refresh_elapsed refresh) (WorkerFetch.dc_id s) (fpool s) with
              | None => None
              | Some (r, s2) => Some (mkRefreshFetch r new_location s (Some s2))
              end
          end
      end
  | Some (r, s) => Some (mkRefreshFetch r loc s None)
  end.

(** What the call promises about its outcome. *)
Record refresh_ok (worker_id : Z) (env : InputFileLocation -> nat -> TurnEnv G) (refresh : option refresher)
    (loc : InputFileLocation) (out : refresh_fetch) : Prop := {
  (* at most two budgets of RPCs, all to the stream's worker *)
  ro_requests :
    let sent := requests (first_fetch out) ++ match second_fetch out with Some s => requests s | None => [] end in
    Z.of_nat (length sent) <= 2 * MAX_FETCH_ATTEMPTS /\ Forall (fun rq => rq_worker rq = worker_id) sent;
  (* bytes come from an answer at the old location, or at the new one if there was a second fetch *)
  ro_data data : chunk out = Ok data ->
    answered (env loc) (RpcFile data) \/
    is_Some (second_fetch out) /\ answered (env (location out)) (RpcFile data);
  (* the location changes exactly with the second fetch, to the refresher's *)
  ro_location :
    match second_fetch out with
    | None => location out = loc
    | Some _ => exists r, refresh = Some r /\ refresh_outcome r = Some (Ok (location out))
    end;
}.

(** ** Lemmas *)

(** What one pinned fetch guarantees, [fetch_chunk_spec] with the call's own metrics. *)
Lemma pinned_fetch_spec fuel worker_id deadline env t dc p :
  (forall k, benign (env k)) -> ids_ok p ->
  (Z.to_nat (MAX_FETCH_ATTEMPTS + saturating_sub deadline t) <= fuel)%nat ->
  exists r s, fetch_chunk_until_on_worker fuel worker_id deadline env t dc p = Some (r, s) /\
    backed env r /\ Z.of_nat (length (requests s)) <= MAX_FETCH_ATTEMPTS /\
    Forall (fun rq => rq_worker rq = worker_id) (requests s) /\ ids_ok (fpool s) /\ t <= now s.
Proof.
  intros He Hp Hf. unfold fetch_chunk_until_on_worker.
  destruct (fetch_chunk_spec env He deadline (Some worker_id) fuel t dc p Hp Hf)
    as (r & s & -> & Hb & Ha & Hl & Hall & Hids).
  destruct (Hids worker_id eq_refl) as [Hi Ht]. eexists _, _. split; [done|]. cbn.
  split_and!; [done|lia| |done|done]. eapply Forall_impl; [exact Hall|]. intros rq [_ H]. by apply H.
Qed.

Lemma refresh_ok_one worker_id env refresh loc res (s : fetch_state G) :
  Z.of_nat (length (requests s)) <= MAX_FETCH_ATTEMPTS ->
  Forall (fun rq => rq_worker rq = worker_id) (requests s) ->
  (forall data, res = Ok data -> answered (env loc) (RpcFile data)) ->
  refresh_ok worker_id env refresh loc (mkRefreshFetch res loc s None).
Proof.
  intros Hn Hw Hres. split; cbn; [|by left; auto|done]. rewrite app_nil_r.
  unfold MAX_FETCH_ATTEMPTS in *. split; [lia|done].
Qed.

Lemma fetch_with_refresh_spec fuel worker_id env refresh t dc loc p :
  (forall l k, benign (env l k)) -> ids_ok p ->
  (forall r, refresh = Some r -> 0 <= refresh_elapsed r) ->
  (Z.to_nat (MAX_FETCH_ATTEMPTS + CHUNK_FETCH_DEADLINE) <= fuel)%nat ->
  exists out, fetch_chunk_with_refresh fuel worker_id env refresh t dc loc p = Some out /\
    refresh_ok worker_id env refresh loc out.
Proof.
  intros He Hp Hr Hfuel. unfold fetch_chunk_with_refresh.
  destruct (pinned_fetch_spec fuel worker_id (t + CHUNK_FETCH_DEADLINE) (env loc) t dc p (He loc) Hp)
    as (r & s & -> & Hb & Hn & Hw & Hids & Hnow).
  { unfold saturating_sub, CHUNK_FETCH_DEADLINE, SEC, MS in *. lia. }
  assert (Hone : refresh_ok worker_id env refresh loc (mkRefreshFetch r loc s None)).
  { apply refresh_ok_one; [done..|]. by intros data ->. }
  destruct r as [data|[]]; try (eexists; split; [reflexivity|exact Hone]).
  destruct refresh as [r|]; [|eexists; split; [reflexivity|exact Hone]]. specialize (Hr r eq_refl).
  destruct (refresh_outcome r) as [[new|e]|] eqn:Ho;
    [|eexists; (split; [reflexivity|]); (apply refresh_ok_one; [done..|]; by intros data)..].
  destruct (pinned_fetch_spec fuel worker_id (t + CHUNK_FETCH_DEADLINE) (env new)
    (now s + refresh_elapsed r) (WorkerFetch.dc_id s) (with_metrics record_file_reference_refresh (fpool s)) (He new))
    as (r2 & s2 & Hrun & Hb2 & Hn2 & Hw2 & _ & _); [done| |].
  { unfold saturating_sub, CHUNK_FETCH_DEADLINE, SEC, MS in *. lia. }
  cbn in Hrun |- *. rewrite Hrun. eexists. split; [reflexivity|]. split; cbn.
  - rewrite length_app, Forall_app. unfold MAX_FETCH_ATTEMPTS in *. split; [lia|done].
  - intros data ->. right. split; [by eexists|done].
  - by exists r.
Qed.

End Refresh.

(** ** Properties *)

Section Properties.
Context {C : Type} `{!MokaCache (Z * Z) TrackMediaMetadata C}.
Variable find_track_by_id : nat -> Z -> result StreamError (option track_row).
Variable primary_get_messages : option (nat -> Z -> result StreamError (list (option document))).
Variable get_messages_for_worker : nat -> Z -> Z -> result StreamError (list (option document)).
Local Abbreviation refresh := (refresh_track_media_if_stale find_track_by_id primary_get_messages get_messages_for_worker).
Local Abbreviation prepare := (prepare_stream find_track_by_id primary_get_messages get_messages_for_worker).

(** A stale file reference is loaded anew at most once for all the streams that notice it: once
    a different reference is cached, further refreshes with the old one return it without a load,
    and a refresh never answers with the stale reference from the cache. *)
Theorem refresh_single_flight db_track_id worker_id stale (e : engine) m e' :
  refresh db_track_id worker_id stale e = (Ok m, e') ->
  (loads e' = loads e /\ e' = e /\ file_reference m <> stale \/ loads e' = S (loads e)) /\
  (file_reference m <> stale -> cache_get (metadata_cache e') (db_track_id, worker_id) = Some m ->
     refresh db_track_id worker_id stale e' = (Ok m, e')).
Proof.
  intros H. split.
  - unfold refresh_track_media_if_stale, load_track_media in H.
    set (loaded := mbind _ _) in H.
    destruct (cache_get (metadata_cache e) (db_track_id, worker_id)) as [cached|].
    + case_bool_decide; cbn in H; [destruct loaded; simplify_eq; by right|]. simplify_eq. by left.
    + destruct loaded; simplify_eq; by right.
  - intros Hne Hc. unfold refresh_track_media_if_stale. rewrite Hc, bool_decide_eq_false_2 by done. done.
Qed.

(** The headers tell the truth about the body: for a file that is not empty, an accepted request
    is given a range inside the file, the content length is the number of bytes of that range,
    206 goes with a [Content-Range] that states it, and 200 with the whole file. *)
Theorem headers_match_body db_track_id range_header worker_id (e e' : engine) m headers range (file : bytes) :
  prepare db_track_id range_header worker_id e = (Ok (m, headers, range), e') ->
  file_size m = Z.of_nat (length file) -> in_u 64 (file_size m) -> file <> [] ->
  ByteRange.valid_range (file_size m) range /\
  content_length headers = Z.of_nat (length (sub file (ByteRange.start range) (ByteRange.end_ range + 1))) /\
  match range_header with
  | Some _ => status headers = 206 /\ content_range headers = Some (lit "bytes " ++
      show_u (ByteRange.start range) ++ lit "-" ++ show_u (ByteRange.end_ range) ++ lit "/" ++ show_u (file_size m))
  | None => status headers = 200 /\ content_range headers = None /\
      sub file (ByteRange.start range) (ByteRange.end_ range + 1) = file
  end.
Proof.
  intros H Hsize Hu Hne. unfold prepare_stream in H.
  destruct (resolve_track_media_for_worker _ _ _ _ _ _ _) as [[meta|] e1]; cbn in H; [|done].
  assert (0 < file_size m) by (rewrite Hsize; destruct file; [done|simpl; lia]).
  assert (Hrange : exists st cr, plan_range range_header meta = Ok (range, st, cr) /\ m = meta /\
    headers = mkHeaders st (meta_mime_type meta) (ByteRange.length range) cr (lit "bytes")).
  { destruct (plan_range range_header meta) as [[[r st] cr]|]; cbn in H; [|done]. simplify_eq. by eexists _, _. }
  destruct Hrange as (st & cr & Hplan & <- & ->).
  assert (Hvalid : ByteRange.valid_range (file_size m) range).
  { unfold plan_range in Hplan. destruct range_header as [h|].
    - destruct (ByteRange.parse h (file_size m)) as [r|] eqn:Hp; cbn in Hplan; [|done]. simplify_eq.
      by eapply ByteRange.parse_in_range.
    - simplify_eq. unfold ByteRange.valid_range, saturating_sub. cbn. lia. }
  split; [done|]. unfold ByteRange.valid_range in Hvalid. split.
  - unfold sub, ByteRange.length, saturating_sub. cbn. rewrite length_take, length_drop. lia.
  - unfold plan_range in Hplan. destruct range_header as [h|].
    + destruct (ByteRange.parse h (file_size m)) as [r|]; cbn in Hplan; [|done]. by simplify_eq.
    + simplify_eq. cbn. split_and!; [done|done|]. unfold sub, saturating_sub. cbn.
      rewrite skipn_O || rewrite drop_0. apply take_ge. lia.
Qed.

End Properties.

(** An empty file is announced with one byte: without a [Range] header the range is [0-0], whose
    length is 1, while the file has nothing to send. *)
Theorem empty_file_announces_one_byte (m : TrackMediaMetadata) :
  file_size m = 0 ->
  exists range, plan_range None m = Ok (range, 200, None) /\ ByteRange.length range = 1 /\
    ~ ByteRange.valid_range (file_size m) range /\
    forall file : bytes, length file = 0%nat -> sub file (ByteRange.start range) (ByteRange.end_ range + 1) = [].
Proof.
  intros H. unfold plan_range. rewrite H. eexists. split; [done|]. split; [done|]. split.
  - unfold ByteRange.valid_range. cbn. lia.
  - intros [|]; done.
Qed.

(** An expired file reference is refreshed at most once per chunk: the call always returns, and
    within two budgets of RPCs, all to the stream's worker; bytes come from an answer at the
    old location, or at the refreshed one, and the shared location follows the second fetch. *)
Theorem fetch_with_refresh_correct {G : Type} `{!WorkerGate G} fuel worker_id
    (env : InputFileLocation -> nat -> TurnEnv G) refresh t dc loc p :
  (forall l k, benign (env l k)) -> ids_ok p ->
  (forall r, refresh = Some r -> 0 <= refresh_elapsed r) ->
  (Z.to_nat (MAX_FETCH_ATTEMPTS + CHUNK_FETCH_DEADLINE) <= fuel)%nat ->
  exists out, fetch_chunk_with_refresh fuel worker_id env refresh t dc loc p = Some out /\
    refresh_ok worker_id env refresh loc out.
Proof. apply fetch_with_refresh_spec. Qed.

(** *** Witnesses *)

Definition demo_meta : TrackMediaMetadata :=
  mkMeta 7 8 [Byte.x01] 2 3 (lit "audio/mp4") Alac.

(** The repository knows one track, whose document gets a new reference at every load. *)
Definition demo_find (n : nat) (id : Z) : result StreamError (option track_row) := Ok (Some (mkRow 5 Alac)).
Definition demo_get (n : nat) (w m : Z) : result StreamError (list (option document)) :=
  Ok [Some (mkDocument 7 8 (if (n =? 0)%nat then [Byte.x01] else [Byte.x02]) 2 3 [])].

Definition demo_engine : engine (C := gmap (Z * Z) TrackMediaMetadata) :=
  mkEngine (<[(1, 0) := demo_meta]> ∅) 1.

Lemma refresh_single_flight_witness :
  exists m e', refresh_track_media_if_stale demo_find None demo_get 1 0 [Byte.x01] demo_engine = (Ok m, e') /\
    loads e' = 2%nat /\ refresh_track_media_if_stale demo_find None demo_get 1 0 [Byte.x01] e' = (Ok m, e').
Proof.
  destruct (refresh_track_media_if_stale demo_find None demo_get 1 0 [Byte.x01] demo_engine) as [[m|err] e'] eqn:E;
    [|vm_compute in E; discriminate].
  exists m, e'. split; [done|].
  assert (Hm : file_reference m = [Byte.x02] /\ loads e' = 2%nat /\
    cache_get (metadata_cache e') (1, 0) = Some m) by (vm_compute in E; injection E as <- <-; by vm_compute).
  destruct Hm as (Hm & Hl & Hc). split; [done|].
  apply (refresh_single_flight demo_find None demo_get 1 0 [Byte.x01] demo_engine m e' E); [by rewrite Hm|done].
Defined.

Lemma headers_match_body_witness :
  exists m headers range e', prepare_stream demo_find None demo_get 1 (Some (lit "bytes=1-")) 0 demo_engine
      = (Ok (m, headers, range), e') /\ content_length headers = 2 /\
    ByteRange.valid_range (file_size m) range.
Proof.
  destruct (prepare_stream demo_find None demo_get 1 (Some (lit "bytes=1-")) 0 demo_engine)
    as [[[[m headers] range]|err] e'] eqn:E; [|vm_compute in E; discriminate].
  exists m, headers, range, e'. split; [done|].
  assert (Hm : file_size m = 3 /\ content_length headers = 2)
    by (vm_compute in E; injection E as <- <- <- <-; by vm_compute).
  destruct Hm as [Hm Hh]. split; [done|].
  apply (headers_match_body demo_find None demo_get 1 (Some (lit "bytes=1-")) 0 demo_engine e' m headers range
    [Byte.x0a; Byte.x0b; Byte.x0c] E); [by rewrite Hm|rewrite Hm; by vm_compute|done].
Defined.

Lemma empty_file_announces_one_byte_witness :
  exists range, plan_range None (mkMeta 7 8 [] 2 0 (lit "audio/mp4") Alac) = Ok (range, 200, None) /\
    ByteRange.length range = 1.
Proof.
  destruct (empty_file_announces_one_byte (mkMeta 7 8 [] 2 0 (lit "audio/mp4") Alac)) as (r & H & Hl & _);
    [reflexivity|by exists r].
Defined.

(** The reference expires, the refresher answers in 9 ns, and the new location serves the chunk. *)
Definition demo_location : InputFileLocation := input_location demo_meta.

Definition demo_location_env (l : InputFileLocation) (k : nat) : TurnEnv breaker :=
  if bool_decide (loc_file_reference l = [Byte.x01])
  then demo_turn (RpcErr (mkInvocationError KFileReferenceExpired (lit "FILE_REFERENCE_EXPIRED")))
  else demo_turn (RpcFile [Byte.x2a]).

Lemma fetch_with_refresh_correct_witness :
  exists out, fetch_chunk_with_refresh (Z.to_nat (MAX_FETCH_ATTEMPTS + CHUNK_FETCH_DEADLINE)) 1 demo_location_env
      (Some (mkRefresher 9 (Some (Ok (mkLocation 7 8 [Byte.x02]))))) 0 2 demo_location demo_pool = Some out /\
    refresh_ok 1 demo_location_env (Some (mkRefresher 9 (Some (Ok (mkLocation 7 8 [Byte.x02]))))) demo_location out.
Proof.
  apply fetch_with_refresh_correct.
  - intros l k. unfold demo_location_env. case_bool_decide; split; cbn; try done; intros; by simplify_eq/=.
  - exact demo_pool_ids.
  - intros r [= <-]. cbn. lia.
  - apply Nat.le_refl.
Defined.
