(* ===== verification/Filename.v ===== *)
(** * Filename: bounded, portable file names (crates/engine/src/filename.rs)

    [BoundedName<MAX>] is a text together with its bound, here an argument [MAX].  Byte offsets are
    those of the UTF-8 encoding; [None] is a panic of a slice that would split a character. *)
From S2P Require Import Prelude Text Music.

Definition MAX_FILENAME_BYTES : Z := 255.
Definition MAX_ARCHIVE_FILENAME_BYTES : Z := 245.
Definition MAX_ZIP_ENTRY_FILENAME_BYTES : Z := 240.

Inductive FilenameError : Type :=
| FilenameEmpty
| TooLong (len max : Z)
| InvalidCharacter (c : rchar).

(** The code points of the [matches!] pattern, in its order, and the control characters. *)
Definition is_forbidden_char (c : rchar) : bool :=
  existsb (Z.eqb c) [60; 62; 58; 34; 47; 92; 124; 63; 42; 0] || is_control c.

Definition dot : str := [46].
Definition dotdot : str := [46; 46].

(** The first forbidden character of the [for] loop of [try_new]. *)
Definition first_forbidden (s : str) : option rchar := List.find is_forbidden_char s.

Definition try_new (MAX : Z) (name : str) : result FilenameError str :=
  let trimmed := trim name in
  if bool_decide (trimmed = []) then Err FilenameEmpty
  else if bool_decide (trimmed = dot) || bool_decide (trimmed = dotdot) then Err (InvalidCharacter 46)
  else if MAX <? byte_len trimmed then Err (TooLong (byte_len trimmed) MAX)
  else match first_forbidden trimmed with
       | Some c => Err (InvalidCharacter c)
       | None => Ok trimmed
       end.

(** [&s[..i]] and [s.is_char_boundary(i)]. *)
Fixpoint slice_to (s : str) (i : Z) : option str :=
  if i =? 0 then Some []
  else match s with
       | [] => None
       | c :: s' => if i <? len_utf8 c then None else cons c <$> slice_to s' (i - len_utf8 c)
       end.

Definition is_char_boundary (s : str) (i : Z) : bool := bool_decide (is_Some (slice_to s i)).

(** The [while] loop that moves [end] down to a boundary. *)
Fixpoint floor_boundary (fuel : nat) (s : str) (e : Z) : Z :=
  match fuel with
  | O => e
  | S f => if (0 <? e) && negb (is_char_boundary s e) then floor_boundary f s (e - 1) else e
  end.

Definition bound_utf8_prefix (s : str) (max_bytes : Z) : option str :=
  if byte_len s <=? max_bytes then Some s
  else let e := Z.min max_bytes (byte_len s) in slice_to s (floor_boundary (Z.to_nat e) s e).

Definition sanitize (name : str) : str :=
  (fun c => if is_forbidden_char c then 95 else c) <$> name.

(** [if s.is_empty() || s == "." || s == ".." { "track" } else { s }], used twice. *)
Definition or_track (s : str) : str :=
  if bool_decide (s = []) || bool_decide (s = dot) || bool_decide (s = dotdot)
  then lit "track" else s.

Definition bound_with_suffix (MAX : Z) (candidate : str) (suffix : option str) : option str :=
  match suffix with
  | Some sfx =>
      match strip_suffix sfx candidate with
      | Some prefix =>
          if MAX <=? byte_len sfx then bound_utf8_prefix candidate MAX
          else prefix ← bound_utf8_prefix prefix (MAX - byte_len sfx); Some (prefix ++ sfx)
      | None => bound_utf8_prefix candidate MAX
      end
  | None => bound_utf8_prefix candidate MAX
  end.

Definition sanitize_and_bound (MAX : Z) (name : str) (suffix : option str) : option str :=
  or_track <$> bound_with_suffix MAX (or_track (trim (sanitize name))) suffix.

(** [s.rfind('.')] with [idx > 0]: the stem and the extension, dot included. *)
Fixpoint rfind_dot (s : str) : option (str * str) :=
  match s with
  | [] => None
  | c :: s' =>
      match rfind_dot s' with
      | Some (stem, ext) => Some (c :: stem, ext)
      | None => if c =? 46 then Some ([], s) else None
      end
  end.

Definition stem_ext (s : str) : str * str :=
  match rfind_dot s with
  | Some (c :: stem, ext) => (c :: stem, ext)
  | _ => (s, [])
  end.

Definition with_collision_id (MAX : Z) (s : str) (collision_id : str) : option str :=
  let '(stem, ext) := stem_ext s in
  let collision_suffix := [95] ++ sanitize collision_id ++ ext in
  if MAX <=? byte_len collision_suffix
  then sanitize_and_bound MAX (stem ++ collision_suffix) (Some ext)
  else prefix ← bound_utf8_prefix stem (MAX - byte_len collision_suffix);
       Some (prefix ++ collision_suffix).

Definition PARTIAL_SUFFIX : str := lit " [Partial]".

Definition into_partial (s : str) : str :=
  match strip_suffix (lit ".zip") s with
  | Some stem => stem ++ PARTIAL_SUFFIX ++ lit ".zip"
  | None => s ++ PARTIAL_SUFFIX
  end.

Definition track_filename_suffix (explicit_ : bool) (codec : str) : str :=
  let e := if explicit_ then lit " [E]" else [] in
  let '(label, ext) :=
    if one_of ["ec-3"]%string codec then (lit "Atmos", lit "m4a")
    else if one_of ["aac"; "mp4a.40.2"; "mp4a.40.5"]%string codec then (lit "AAC", lit "m4a")
    else if one_of ["flac"]%string codec then (lit "FLAC", lit "flac")
    else if one_of ["mp3"]%string codec then (lit "MP3", lit "mp3")
    else (lit "ALAC", lit "m4a") in
  e ++ lit " [" ++ label ++ lit "]." ++ ext.

(** [format!("{number:02}")]: at least two columns, filled with zeros after the sign. *)
Definition show_02 (n : Z) : str :=
  let s := show_i n in if (length s <? 2)%nat then 48 :: s else s.

Definition build_track_filename_with_codec (meta : TrackMeta) (codec : str) : option str :=
  let number := match track_number meta with
                | Some n => if n =? 0 then 1 else n
                | None => 1
                end in
  let suffix := track_filename_suffix (explicit meta) codec in
  let combined := show_02 number ++ lit ". " ++ title meta ++ lit " - " ++ artist meta ++ suffix in
  sanitize_and_bound MAX_FILENAME_BYTES combined (Some suffix).

Definition build_track_filename (meta : TrackMeta) : option str :=
  build_track_filename_with_codec meta (lit "alac").

(** What a bounded name promises: it names a file of its own in any directory. *)
Definition allowed_char (c : rchar) : Prop := is_forbidden_char c = false.

Record valid_name (MAX : Z) (n : str) : Prop := {
  vn_nonempty : n <> [];
  vn_dot : n <> dot;
  vn_dotdot : n <> dotdot;
  vn_bytes : byte_len n <= MAX;
  vn_chars : Forall allowed_char n;
}.

(** ** Lemmas *)

Lemma slice_to_Some s i p : slice_to s i = Some p <-> exists q, s = p ++ q /\ byte_len p = i.
Proof.
  revert i p. induction s as [|c s IH]; intros i p; simpl.
  - destruct (Z.eqb_spec i 0) as [->|Hi]; split; try done.
    + intros [= <-]. by exists [].
    + intros (q & Hq & _). symmetry in Hq. by apply app_eq_nil in Hq as [-> _].
    + intros (q & Hq & Hp). symmetry in Hq. apply app_eq_nil in Hq as [-> _]. by simpl in Hp.
  - pose proof (len_utf8_pos c) as Hc. destruct (Z.eqb_spec i 0) as [->|Hi].
    + split; [intros [= <-]; by exists (c :: s)|]. by intros (q & _ & ->%byte_len_zero).
    + destruct (Z.ltb_spec i (len_utf8 c)) as [Hlt|Hge].
      * split; [done|]. intros (q & Hq & Hp). destruct p as [|b p]; [done|].
        injection Hq as <- _. rewrite byte_len_cons in Hp. pose proof (byte_len_nonneg p). lia.
      * rewrite fmap_Some. split.
        -- intros (p' & Hp' & ->). apply IH in Hp' as (q & -> & Hl). exists q.
           rewrite byte_len_cons. split; [done|lia].
        -- intros (q & Hq & Hp). destruct p as [|b p]; [rewrite byte_len_nil in Hp; lia|].
           injection Hq as <- ->. rewrite byte_len_cons in Hp. exists p. split; [|done].
           apply IH. exists q. split; [done|lia].
Qed.

Lemma is_char_boundary_spec s i :
  is_char_boundary s i = true <-> exists p q, s = p ++ q /\ byte_len p = i.
Proof.
  unfold is_char_boundary. rewrite bool_decide_eq_true. split.
  - intros [p Hp]. apply slice_to_Some in Hp as (q & ? & ?). by exists p, q.
  - intros (p & q & ? & ?). exists p. apply slice_to_Some. by exists q.
Qed.

Lemma floor_boundary_spec fuel s e :
  0 <= e <= Z.of_nat fuel ->
  0 <= floor_boundary fuel s e <= e /\ is_char_boundary s (floor_boundary fuel s e) = true /\
  (forall j, floor_boundary fuel s e < j <= e -> is_char_boundary s j = false).
Proof.
  revert e. induction fuel as [|f IH]; intros e He; simpl.
  - split; [lia|]. split; [|intros; lia]. apply is_char_boundary_spec. exists [], s. rewrite byte_len_nil. split; [done|lia].
  - destruct (Z.ltb_spec 0 e) as [Hp|Hz]; cbn [andb].
    + destruct (is_char_boundary s e) eqn:E; cbn [negb].
      * split; [lia|split; [done|lia]].
      * destruct (IH (e - 1)) as (H1 & H2 & H3); [lia|]. split; [lia|split; [done|]].
        intros j Hj. destruct (Z.eq_dec j e) as [->|]; [done|apply H3; lia].
    + split; [lia|]. split; [|intros; lia]. apply is_char_boundary_spec. exists [], s. rewrite byte_len_nil. split; [done|lia].
Qed.

(** The longest prefix that fits. *)
Lemma bound_utf8_prefix_spec s m :
  0 <= m -> exists p q, bound_utf8_prefix s m = Some p /\ s = p ++ q /\ byte_len p <= m /\
    (forall c q', q = c :: q' -> m < byte_len p + len_utf8 c).
Proof.
  intros Hm. unfold bound_utf8_prefix. destruct (Z.leb_spec (byte_len s) m) as [Hle|Hgt].
  - exists s, []. rewrite app_nil_r. by split_and!.
  - rewrite Z.min_l by lia.
    destruct (floor_boundary_spec (Z.to_nat m) s m) as (Hr & Hb & Hmax); [lia|].
    set (e := floor_boundary _ s m) in *. apply is_char_boundary_spec in Hb as (p & q & Hs & Hp).
    exists p, q. split; [apply slice_to_Some; by exists q|]. split; [done|]. split; [lia|].
    intros c q' ->. apply Z.nle_gt. intros Hle.
    assert (Ht : is_char_boundary s (byte_len p + len_utf8 c) = true).
    { apply is_char_boundary_spec. exists (p ++ [c]), q'. rewrite <-app_assoc. split; [done|].
      autorewrite with peerless_rw. lia. }
    pose proof (len_utf8_pos c). rewrite Hmax in Ht by lia. done.
Qed.

Lemma sanitize_allowed s : Forall allowed_char (sanitize s).
Proof.
  unfold sanitize. apply Forall_fmap, Forall_true. intros c. unfold compose, allowed_char.
  by destruct (is_forbidden_char c) eqn:E.
Qed.

Lemma sanitize_app s1 s2 : sanitize (s1 ++ s2) = sanitize s1 ++ sanitize s2.
Proof. apply fmap_app. Qed.

Lemma sanitize_id s : Forall allowed_char s -> sanitize s = s.
Proof. induction 1 as [|c s Hc _ IH]; csimpl; [done|]. rewrite Hc. by f_equal. Qed.

Lemma track_allowed : Forall allowed_char (lit "track").
Proof. repeat (apply Forall_cons; split; [done|]). done. Qed.

Lemma or_track_valid MAX s :
  5 <= MAX -> byte_len s <= MAX -> Forall allowed_char s -> valid_name MAX (or_track s).
Proof.
  intros HM Hb Hc. unfold or_track. destruct (_ || _ || _) eqn:E.
  - split; [done..| |apply track_allowed]. by change (byte_len (lit "track")) with 5.
  - to_prop. repeat match goal with H : bool_decide _ = false |- _ => apply bool_decide_eq_false in H end.
    by split.
Qed.

Lemma or_track_allowed s : Forall allowed_char s -> Forall allowed_char (or_track s).
Proof.
  intros H. unfold or_track. destruct (_ || _ || _); [apply track_allowed|done].
Qed.

(** [bound_with_suffix] keeps a prefix of the candidate and, when there is room, its suffix. *)
Lemma bound_with_suffix_spec MAX cand suffix :
  0 <= MAX -> exists r, bound_with_suffix MAX cand suffix = Some r /\ byte_len r <= MAX /\
    (forall P, Forall P cand -> Forall P r) /\
    (forall sfx prefix, suffix = Some sfx -> cand = prefix ++ sfx -> byte_len sfx < MAX ->
       exists p q, prefix = p ++ q /\ r = p ++ sfx).
Proof.
  intros HM.
  assert (Hplain : exists r, bound_utf8_prefix cand MAX = Some r /\ byte_len r <= MAX /\
    (forall P, Forall P cand -> Forall P r)).
  { destruct (bound_utf8_prefix_spec cand MAX HM) as (p & q & Hp & -> & Hb & _). exists p.
    split_and!; [done|done|]. by intros P [? _]%Forall_app. }
  destruct Hplain as (r0 & Hr0 & Hb0 & HP0). unfold bound_with_suffix. destruct suffix as [sfx|].
  - destruct (strip_suffix sfx cand) as [prefix|] eqn:Es.
    + apply strip_suffix_Some in Es as ->. destruct (Z.leb_spec MAX (byte_len sfx)) as [Hl|Hl].
      * exists r0. split_and!; try done. intros ? ? [= <-]. lia.
      * destruct (bound_utf8_prefix_spec prefix (MAX - byte_len sfx) ltac:(lia)) as (p & q & -> & -> & Hb & _).
        exists (p ++ sfx). split_and!; [done|autorewrite with peerless_rw; lia| |].
        -- intros P. rewrite !Forall_app. tauto.
        -- intros ? prefix' [= <-] E _. apply app_inv_tail in E as <-. by exists p, q.
    + exists r0. split_and!; try done. intros sfx' prefix [= <-] E. exfalso.
      by rewrite (proj2 (strip_suffix_Some sfx cand prefix) E) in Es.
  - by exists r0.
Qed.

Lemma rfind_dot_Some s stem ext : rfind_dot s = Some (stem, ext) -> s = stem ++ ext /\ ext <> [].
Proof.
  revert stem ext. induction s as [|c s IH]; intros stem ext; simpl; [done|].
  destruct (rfind_dot s) as [[st ex]|].
  - intros [= <- <-]. destruct (IH st ex eq_refl) as [-> ?]. done.
  - destruct (c =? 46); [|done]. by intros [= <- <-].
Qed.

Lemma stem_ext_app s stem ext : stem_ext s = (stem, ext) -> s = stem ++ ext.
Proof.
  unfold stem_ext. destruct (rfind_dot s) as [[[|c st] ex]|] eqn:E.
  1, 3: intros [= <- <-]; by rewrite app_nil_r.
  intros [= <- <-]. by apply rfind_dot_Some in E as [-> _].
Qed.

Lemma first_forbidden_None s : first_forbidden s = None <-> Forall allowed_char s.
Proof.
  unfold first_forbidden, allowed_char. induction s as [|c s IH]; simpl; [done|].
  rewrite Forall_cons, <-IH. destruct (is_forbidden_char c); naive_solver.
Qed.

Lemma try_new_Ok MAX s n : try_new MAX s = Ok n <-> n = trim s /\ valid_name MAX (trim s).
Proof.
  unfold try_new. split.
  - repeat case_bool_decide; simpl; try done. destruct (Z.ltb_spec MAX (byte_len (trim s))); [done|].
    destruct (first_forbidden (trim s)) eqn:E; [done|]. intros [= <-]. apply first_forbidden_None in E.
    by split.
  - intros [-> []]. rewrite !bool_decide_eq_false_2 by done. simpl.
    rewrite (proj2 (Z.ltb_ge _ _)) by done. by rewrite (proj2 (first_forbidden_None _)).
Qed.

Lemma sanitize_and_bound_ok MAX name suffix :
  5 <= MAX -> exists n, sanitize_and_bound MAX name suffix = Some n /\ valid_name MAX n.
Proof.
  intros HM. unfold sanitize_and_bound.
  destruct (bound_with_suffix_spec MAX (or_track (trim (sanitize name))) suffix ltac:(lia))
    as (r & -> & Hb & HP & _).
  exists (or_track r). split; [done|]. apply or_track_valid; [done|done|].
  apply HP, or_track_allowed, trim_Forall, sanitize_allowed.
Qed.

Lemma or_track_id s c : c <> 46 -> or_track (s ++ [c]) = s ++ [c].
Proof.
  intros Hc. unfold or_track. rewrite !bool_decide_eq_false_2; [done| | |by destruct s].
  all: intros E; apply (f_equal last) in E; rewrite last_snoc in E; by injection E.
Qed.

Lemma trim_keeps_tail x s cl :
  Exists (fun c => is_whitespace c = false) x -> is_whitespace cl = false ->
  exists x', trim (x ++ s ++ [cl]) = x' ++ s ++ [cl] /\ (forall P, Forall P x -> Forall P x') /\ x' <> [].
Proof.
  intros Hx Hcl. exists (trim_start_by is_whitespace x). unfold trim.
  assert (Hs : forall y, trim_start_by is_whitespace (x ++ y) = trim_start_by is_whitespace x ++ y).
  { intros y. induction x as [|c x IH]; [by apply Exists_nil in Hx|]. simpl.
    destruct (is_whitespace c) eqn:E; [|done]. apply IH. apply Exists_cons in Hx as [Hx|Hx]; [congruence|done]. }
  rewrite Hs, (app_assoc _ s), trim_end_by_id, <-app_assoc by done. split; [done|]. split.
  - intros P HP. destruct (trim_start_by_suffix is_whitespace x) as (l & E & _).
    rewrite E in HP. by apply Forall_app in HP as [_ ?].
  - clear Hs. induction Hx as [c x Hc|c x _ IH]; simpl; [by rewrite Hc|by destruct (is_whitespace c)].
Qed.

(** A name with a visible character before the suffix keeps the suffix it was built with. *)
Lemma sanitize_and_bound_suffix MAX c0 pre post s0 cl :
  5 <= MAX -> is_whitespace c0 = false -> allowed_char c0 -> is_whitespace cl = false -> cl <> 46 ->
  Forall allowed_char (s0 ++ [cl]) -> byte_len (s0 ++ [cl]) < MAX ->
  exists p, sanitize_and_bound MAX (pre ++ c0 :: post ++ s0 ++ [cl]) (Some (s0 ++ [cl])) = Some (p ++ s0 ++ [cl]).
Proof.
  intros HM H0 Hc Hl Hdot Hsfx Hlen.
  destruct (trim_keeps_tail (sanitize (pre ++ c0 :: post)) s0 cl) as (x & Htrim & _ & _); [|done|].
  { rewrite sanitize_app. apply Exists_app; right. unfold sanitize. csimpl. rewrite Hc. by left. }
  assert (Hcand : or_track (trim (sanitize (pre ++ c0 :: post ++ s0 ++ [cl]))) = x ++ s0 ++ [cl]).
  { replace (pre ++ c0 :: post ++ s0 ++ [cl]) with ((pre ++ c0 :: post) ++ s0 ++ [cl])
      by (rewrite <-app_assoc; done).
    rewrite sanitize_app, (sanitize_id (s0 ++ [cl])), Htrim, app_assoc by done. by apply or_track_id. }
  unfold sanitize_and_bound. rewrite Hcand.
  destruct (bound_with_suffix_spec MAX (x ++ s0 ++ [cl]) (Some (s0 ++ [cl])) ltac:(lia))
    as (r & -> & _ & _ & Hr).
  destruct (Hr _ _ eq_refl eq_refl Hlen) as (p & q & _ & ->).
  exists p. simpl. f_equal. rewrite !app_assoc. by apply or_track_id.
Qed.

Lemma show_02_head n : exists c r, show_02 n = c :: r /\ is_whitespace c = false /\ allowed_char c.
Proof.
  assert (Hdig : forall c, is_ascii_digit c = true -> is_whitespace c = false /\ allowed_char c).
  { intros c Hc. split; [by apply digit_not_ws|]. unfold is_ascii_digit in Hc. to_prop.
    unfold allowed_char, is_forbidden_char, is_control. cbn [existsb].
    rewrite !(proj2 (Z.eqb_neq c _)) by lia.
    rewrite (proj2 (Z.leb_gt c 31)), (proj2 (Z.leb_gt 127 c)) by lia. by rewrite andb_false_r. }
  unfold show_02. destruct (_ <? 2)%nat; [by exists 48, (show_i n)|].
  unfold show_i. destruct (Z.ltb_spec n 0); [by eexists _, _|].
  pose proof (show_u_digits n ltac:(lia)) as Hd. pose proof (show_u_ne n).
  destruct (show_u n) as [|c r]; [done|]. exists c, r. split; [done|]. apply Hdig. by inversion Hd.
Qed.

Lemma track_filename_suffix_last e codec :
  exists s0 cl, track_filename_suffix e codec = s0 ++ [cl] /\ is_whitespace cl = false /\ cl <> 46 /\
    Forall allowed_char (s0 ++ [cl]) /\ byte_len (s0 ++ [cl]) < MAX_FILENAME_BYTES.
Proof.
  assert (H : forall s, last s <> None -> is_whitespace (default 32 (last s)) = false ->
    default 46 (last s) <> 46 -> forallb (fun c => negb (is_forbidden_char c)) s = true ->
    byte_len s <? MAX_FILENAME_BYTES = true ->
    exists s0 cl, s = s0 ++ [cl] /\ is_whitespace cl = false /\ cl <> 46 /\
      Forall allowed_char (s0 ++ [cl]) /\ byte_len (s0 ++ [cl]) < MAX_FILENAME_BYTES).
  { intros s. destruct s as [|cl s0 _] using rev_ind; [done|]. rewrite last_snoc. simpl.
    intros _ Hw Hd Hall Hb. to_prop. exists s0, cl. split_and!; try done.
    apply Forall_forall. intros c Hc. rewrite List.forallb_forall in Hall.
    unfold allowed_char. apply negb_true_iff. by apply Hall, list_elem_of_In. }
  unfold track_filename_suffix. repeat case_match; simplify_eq; apply H; by vm_compute.
Qed.

(** ** Properties *)

(** A track's file name is always valid (not empty, at most 255 bytes, no separator or control
    character, not a directory), whatever the catalogue says, and always ends with the codec label
    and the extension: only the title part is cut. *)
Theorem build_track_filename_valid meta codec :
  exists n p, build_track_filename_with_codec meta codec = Some n /\
    valid_name MAX_FILENAME_BYTES n /\ n = p ++ track_filename_suffix (explicit meta) codec.
Proof.
  unfold build_track_filename_with_codec. set (num := match track_number meta with Some _ => _ | None => _ end).
  destruct (track_filename_suffix_last (explicit meta) codec) as (s0 & cl & -> & Hl & Hd & Hall & Hb).
  destruct (show_02_head num) as (c & r & -> & Hw & Ha).
  set (name := (c :: r) ++ _).
  replace name with (c :: (r ++ lit ". " ++ title meta ++ lit " - " ++ artist meta) ++ s0 ++ [cl])
    by (unfold name; rewrite <-!app_assoc; reflexivity).
  destruct (sanitize_and_bound_suffix MAX_FILENAME_BYTES c []
    (r ++ lit ". " ++ title meta ++ lit " - " ++ artist meta) s0 cl) as [p Hp]; try done.
  cbn [app] in Hp.
  destruct (sanitize_and_bound_ok MAX_FILENAME_BYTES
    (c :: (r ++ lit ". " ++ title meta ++ lit " - " ++ artist meta) ++ s0 ++ [cl])
    (Some (s0 ++ [cl]))) as (n & Hn & Hv); [done|].
  exists n, p. split; [done|]. split; [done|]. congruence.
Qed.

(** Disambiguating a valid name gives a valid name again, and as long as the identifier and the
    extension fit, the name ends with both: only the stem is cut. *)
Theorem with_collision_id_valid MAX s collision_id :
  5 <= MAX -> valid_name MAX s ->
  exists n, with_collision_id MAX s collision_id = Some n /\ valid_name MAX n /\
    let '(stem, ext) := stem_ext s in
    let collision_suffix := [95] ++ sanitize collision_id ++ ext in
    (byte_len collision_suffix < MAX -> exists p q, stem = p ++ q /\ n = p ++ collision_suffix).
Proof.
  intros HM Hs. unfold with_collision_id. destruct (stem_ext s) as [stem ext] eqn:E.
  apply stem_ext_app in E as ->. destruct Hs as [_ _ _ _ [Hst Hex]%Forall_app].
  set (cs := [95] ++ sanitize collision_id ++ ext). cbv zeta.
  assert (Hcs : Forall allowed_char cs).
  { unfold cs. rewrite !Forall_app. split; [by apply Forall_singleton|]. split; [apply sanitize_allowed|done]. }
  destruct (Z.leb_spec MAX (byte_len cs)) as [Hl|Hl].
  - destruct (sanitize_and_bound_ok MAX (stem ++ cs) (Some ext) HM) as (n & Hn & Hv).
    exists n. split_and!; [done|done|lia].
  - destruct (bound_utf8_prefix_spec stem (MAX - byte_len cs) ltac:(lia)) as (p & q & -> & -> & Hb & _).
    apply Forall_app in Hst as [Hp _].
    exists (p ++ cs). split; [done|]. split; [|by intros _; exists p, q].
    assert (Hin : 95 ∈ p ++ cs) by (apply elem_of_app; right; left).
    split; [intros He; rewrite He in Hin; clear -Hin; unfold dot, dotdot in Hin; set_solver..|autorewrite with peerless_rw; lia|by apply Forall_app].
Qed.

Lemma with_collision_id_valid_witness :
  with_collision_id 16 (lit "long-track-1.m4a") (lit "x/9") = Some (lit "long-tra_x_9.m4a") /\
  exists n, with_collision_id 16 (lit "long-track-1.m4a") (lit "x/9") = Some n /\ valid_name 16 n.
Proof.
  split; [reflexivity|].
  destruct (with_collision_id_valid 16 (lit "long-track-1.m4a") (lit "x/9")) as (n & Hn & Hv & _).
  - lia.
  - split; try (by vm_compute). repeat (apply Forall_cons; split; [reflexivity|]). apply Forall_nil_2.
  - by exists n.
Defined.

(** A name accepted by [try_new] (the deserializer) is accepted again unchanged, but the names
    that [sanitize_and_bound] builds are not all accepted: one cut after a space fails to load. *)
Theorem name_serde_roundtrip :
  (forall MAX s n, try_new MAX s = Ok n -> try_new MAX n = Ok n /\ valid_name MAX n) /\
  (exists name n, sanitize_and_bound MAX_FILENAME_BYTES name None = Some n /\
     try_new MAX_FILENAME_BYTES n = Err (InvalidCharacter 46)).
Proof.
  split.
  - intros MAX s n [-> Hv]%try_new_Ok. split; [|done]. apply try_new_Ok. by rewrite trim_trim.
  - exists (46 :: replicate 255 32 ++ [120]), (46 :: replicate 254 32). by vm_compute.
Qed.

(** The name of a partial archive still fits a directory entry, and stays an archive's. *)
Theorem into_partial_valid s :
  valid_name MAX_ARCHIVE_FILENAME_BYTES s ->
  valid_name MAX_FILENAME_BYTES (into_partial s) /\
  (forall stem, s = stem ++ lit ".zip" -> into_partial s = stem ++ lit " [Partial].zip").
Proof.
  intros [Hne Hd Hdd Hb Hc]. unfold into_partial.
  assert (Hp : Forall allowed_char PARTIAL_SUFFIX) by (repeat (apply Forall_cons; split; [done|]); done).
  assert (Hz : byte_len PARTIAL_SUFFIX = 10 /\ byte_len (lit ".zip") = 4) by done.
  unfold MAX_ARCHIVE_FILENAME_BYTES, MAX_FILENAME_BYTES in *.
  destruct (strip_suffix (lit ".zip") s) as [stem|] eqn:E.
  - apply strip_suffix_Some in E as ->. apply Forall_app in Hc as [Hst Hzip].
    rewrite byte_len_app in Hb. split.
    + assert (Hin : 80 ∈ stem ++ PARTIAL_SUFFIX ++ lit ".zip").
      { apply elem_of_app; right. apply elem_of_app; left. apply list_elem_of_In. by vm_compute; tauto. }
      split; [intros He; rewrite He in Hin; clear -Hin; unfold dot, dotdot in Hin; set_solver..| |by rewrite !Forall_app].
      rewrite !byte_len_app. lia.
    + intros stem' H%app_inv_tail. by subst.
  - split.
    + assert (Hin : 80 ∈ s ++ PARTIAL_SUFFIX).
      { apply elem_of_app; right. apply list_elem_of_In. by vm_compute; tauto. }
      split; [intros He; rewrite He in Hin; clear -Hin; unfold dot, dotdot in Hin; set_solver..| |by rewrite Forall_app].
      rewrite byte_len_app. lia.
    + intros stem ->. by rewrite (proj2 (strip_suffix_Some (lit ".zip") _ stem) eq_refl) in E.
Qed.

Lemma into_partial_valid_witness :
  into_partial (lit "A - B [ALAC].zip") = lit "A - B [ALAC] [Partial].zip".
Proof.
  apply (proj2 (into_partial_valid (lit "A - B [ALAC].zip") ltac:(
    split; [done|done|done|by vm_compute|]; repeat (apply Forall_cons; split; [reflexivity|]); apply Forall_nil_2))
    (lit "A - B [ALAC]")). reflexivity.
Defined.
