(* ===== verification/ZipPlan.v ===== *)
(** * ZipPlan: album archives split into parts (crates/engine/src/zip.rs, the planner)

    Names of archives and entries, the checks on the entries, the greedy split into parts under
    the size limit, and the generation hash of an album.  The file system is met through
    [fs_len], the length [fs::metadata] reports for a path, if any. *)
From S2P Require Import Prelude Text Music Filename.

Definition TELEGRAM_SPLIT_THRESHOLD_BYTES : Z := 1900000000.
Definition ENTRY_OVERHEAD_BYTES : Z := 512.
Definition ARCHIVE_HEADROOM_BYTES : Z := 64 * 1024.

Record ZipTrackEntry := mkEntry { file_path : str; archive_filename : str; file_size : Z }.

Record ZipPartPlan := mkPlan {
  part_index : Z; total_parts : Z; tracks : list ZipTrackEntry;
  cover_path : option str; plan_filename : str;
}.

Inductive ZipError : Type :=
| ZipEmpty
| InvalidLimit
| InvalidEntryName (name : str)
| DuplicateEntry (name : str)
| TrackTooLarge (name : str)
| Source (path : str)
| Cancelled
| Io
| Writer.

(** ** Names *)

Definition trim_end_dots (s : str) : str := trim_end_by (Z.eqb 46) s.

Definition sanitize_archive_filename (name : str) : str :=
  let sanitized := (fun c => if existsb (Z.eqb c) [60; 62; 58; 34; 47; 92; 124; 63; 42] then 95 else c) <$> name in
  let trimmed := trim_end_dots (trim sanitized) in
  if bool_decide (trimmed = []) then lit "album" else trimmed.

Definition build_zip_entry_filename_with_codec (number : option Z) (title artist track_id codec : str) :
    option str :=
  let ext := if one_of ["flac"]%string codec then lit "flac"
             else if one_of ["mp3"]%string codec then lit "mp3" else lit "m4a" in
  let suffix := lit " [" ++ track_id ++ lit "]." ++ ext in
  let name := match number with
              | Some num => show_02 num ++ lit " - " ++ title ++ lit " - " ++ artist ++ suffix
              | None => title ++ lit " - " ++ artist ++ suffix
              end in
  sanitize_and_bound MAX_ZIP_ENTRY_FILENAME_BYTES name (Some suffix).

Definition archive_codec_label (codec : str) : str :=
  if one_of ["ec-3"]%string codec then lit "Atmos"
  else if one_of ["aac"; "mp4a.40.2"; "mp4a.40.5"]%string codec then lit "AAC"
  else if one_of ["flac"]%string codec then lit "FLAC" else lit "ALAC".

Definition year_part (release_date : str) : str :=
  let year := take 4 release_date in
  if (byte_len year =? 4) && forallb is_ascii_digit year then lit " (" ++ year ++ lit ")" else [].

Definition build_album_archive_base_name_with_codec (artist album release_date codec : str) : option str :=
  let suffix := lit " [" ++ archive_codec_label codec ++ lit "]" in
  let name := artist ++ lit " - " ++ album ++ year_part release_date ++ suffix in
  sanitize_and_bound MAX_ARCHIVE_FILENAME_BYTES name (Some suffix).

(** ** The generation hash *)

Definition hash_preimage (provider album_id : str) (ordered_track_ids : list str) : list Z :=
  foldl (fun h id => h ++ [0] ++ as_bytes id)
    (as_bytes (lit "alac-zip-gen-v1") ++ [0] ++ as_bytes provider ++ [0] ++ as_bytes album_id)
    ordered_track_ids.

(** [{byte:02x}] of every byte. *)
Definition hex_lower (n : Z) : Z := if n <? 10 then 48 + n else 87 + n.
Definition hex_digest (digest : list Z) : str :=
  foldl (fun hex byte => hex ++ [hex_lower (byte / 16); hex_lower (byte mod 16)]) [] digest.

Definition album_generation_hash (sha256 : list Z -> list Z) (provider album_id : str) (ids : list str) : str :=
  hex_digest (sha256 (hash_preimage provider album_id ids)).

(** ** Checks *)

(** [Path::new(name)] is absolute, or one of its components is [..]. *)
Definition unsafe_path (name : str) : bool :=
  match name with
  | 47 :: _ => true
  | _ => existsb (fun c => bool_decide (c = dotdot)) (split_on 47 name)
  end.

Definition validate_entry_name (name : str) : result ZipError unit :=
  if bool_decide (name = []) || (MAX_ZIP_ENTRY_FILENAME_BYTES <? byte_len name) ||
     existsb (fun b => (b =? 0) || (b <? 32) || (b =? 127)) (as_bytes name) || unsafe_path name
  then Err (InvalidEntryName name) else Ok tt.

(** The loop over the tracks: [names] is the [HashSet] of the names seen so far. *)
Fixpoint check_names (names : list str) (l : list ZipTrackEntry) : result ZipError unit :=
  match l with
  | [] => Ok tt
  | track :: rest =>
      _ ← validate_entry_name (archive_filename track);
      if bool_decide (archive_filename track ∈ names) then Err (DuplicateEntry (archive_filename track))
      else check_names (archive_filename track :: names) rest
  end.

Section Plan.
Variable fs_len : str -> option Z.

Fixpoint check_tracks (names : list str) (l : list ZipTrackEntry) : result ZipError unit :=
  match l with
  | [] => Ok tt
  | track :: rest =>
      _ ← validate_entry_name (archive_filename track);
      if bool_decide (archive_filename track ∈ names) then Err (DuplicateEntry (archive_filename track))
      else
        source_size ← ok_or (fs_len (file_path track)) (Source (file_path track));
        if negb (source_size =? file_size track) then Err (Source (file_path track))
        else check_tracks (archive_filename track :: names) rest
  end.

(** ** The greedy split *)

Record group_state := mkGroups {
  groups : list (list ZipTrackEntry); current : list ZipTrackEntry; current_size : Z;
}.

Definition add_track (usable cover_size : Z) (s : group_state) (track : ZipTrackEntry) :
    result ZipError group_state :=
  if usable <? file_size track then Err (TrackTooLarge (archive_filename track))
  else
    next ← ok_or (checked_add 64 (current_size s) (file_size track)) InvalidLimit;
    let s := if negb (bool_decide (current s = [])) && (usable <? next)
             then mkGroups (groups s ++ [current s]) [] cover_size else s in
    size ← ok_or (checked_add 64 (current_size s) (file_size track)) InvalidLimit;
    Ok (mkGroups (groups s) (current s ++ [track]) size).

Fixpoint add_tracks (usable cover_size : Z) (s : group_state) (l : list ZipTrackEntry) :
    result ZipError group_state :=
  match l with
  | [] => Ok s
  | track :: rest => s ← add_track usable cover_size s track; add_tracks usable cover_size s rest
  end.

Definition finish_groups (s : group_state) : list (list ZipTrackEntry) :=
  if bool_decide (current s = []) then groups s else groups s ++ [current s].

Definition part_suffix (label : str) (index total : Z) : str :=
  if total =? 1 then lit " [" ++ label ++ lit "].zip"
  else lit " [" ++ label ++ lit "] (Part " ++ show_u index ++ lit " of " ++ show_u total ++ lit ").zip".

(** The usable bytes of a part, once the cover's size and the overhead are known. *)
Definition usable_bytes (entries : Z) (max_part_bytes : Z) : result ZipError Z :=
  overhead ← ok_or (m ← checked_mul 64 entries ENTRY_OVERHEAD_BYTES; checked_add 64 m ARCHIVE_HEADROOM_BYTES)
               InvalidLimit;
  Ok (saturating_sub max_part_bytes overhead).

(** [None] inside: a name could not be built, which never happens ([plan_zip_parts_correct]). *)
Definition name_part (artist album release_date label : str) (cover_path : option str) (total : Z)
    (index : nat) (tracks : list ZipTrackEntry) : option ZipPartPlan :=
  let part_index := Z.of_nat index + 1 in
  let suffix := part_suffix label part_index total in
  let name := artist ++ lit " - " ++ album ++ year_part release_date ++ suffix in
  filename ← sanitize_and_bound MAX_ARCHIVE_FILENAME_BYTES name (Some suffix);
  Some (mkPlan part_index total tracks cover_path filename).

Fixpoint name_parts (f : nat -> list ZipTrackEntry -> option ZipPartPlan) (i : nat)
    (l : list (list ZipTrackEntry)) : option (list ZipPartPlan) :=
  match l with
  | [] => Some []
  | g :: rest => p ← f i g; ps ← name_parts f (S i) rest; Some (p :: ps)
  end.

Definition plan_zip_parts_with_codec (artist album release_date : str) (tracks : list ZipTrackEntry)
    (cover_path : option str) (max_part_bytes : Z) (codec : str) :
    option (result ZipError (list ZipPartPlan)) :=
  let checked :=
    if bool_decide (tracks = []) then Err ZipEmpty
    else if max_part_bytes =? 0 then Err InvalidLimit
    else
      _ ← check_tracks [lit "manifest.json"] tracks;
      cover_size ← match cover_path with
                   | Some path => ok_or (fs_len path) (Source path)
                   | None => Ok 0
                   end;
      let entry_count := Z.of_nat (length tracks) + (if cover_path then 1 else 0) + 1 in
      usable ← usable_bytes entry_count max_part_bytes;
      if (usable =? 0) || (usable <? cover_size) then Err InvalidLimit
      else
        s ← add_tracks usable cover_size (mkGroups [] [] cover_size) tracks;
        Ok (finish_groups s) in
  match checked with
  | Err e => Some (Err e)
  | Ok groups =>
      parts ← name_parts (name_part artist album release_date (archive_codec_label codec) cover_path
                            (Z.of_nat (length groups))) 0 groups;
      Some (Ok parts)
  end.

Definition plan_zip_parts (artist album release_date : str) (tracks : list ZipTrackEntry)
    (cover_path : option str) (max_part_bytes : Z) :=
  plan_zip_parts_with_codec artist album release_date tracks cover_path max_part_bytes (lit "alac").

End Plan.

(** The checks [create_zip_archive] makes on its plan before it touches the disk. *)
Definition check_plan (plan : ZipPartPlan) : result ZipError unit :=
  if bool_decide (tracks plan = []) then Err ZipEmpty
  else
    let names := [lit "manifest.json"] in
    let names := match cover_path plan with Some _ => lit "cover.jpg" :: names | None => names end in
    check_names names (tracks plan).

(** ** Vocabulary *)

Definition group_size (g : list ZipTrackEntry) : Z := sumZ (file_size <$> g).
#[local] Arguments group_size : simpl never.

(** A part fits with the cover, unless it is one track, which was checked without the cover. *)
Definition group_fits (usable cover_size : Z) (g : list ZipTrackEntry) : Prop :=
  cover_size + group_size g <= usable \/ exists t, g = [t] /\ file_size t <= usable.

(** Each part is followed by a track that did not fit in it. *)
Definition greedy (usable cover_size : Z) (gs : list (list ZipTrackEntry)) : Prop :=
  forall k g h, gs !! k = Some g -> gs !! S k = Some h ->
    exists t h', h = t :: h' /\ usable < cover_size + group_size g + file_size t.

Definition group_inv (usable cover_size : Z) (l : list ZipTrackEntry) (s : group_state) : Prop :=
  concat (groups s) ++ current s = l /\
  current_size s = cover_size + group_size (current s) /\
  (current s = [] -> groups s = []) /\
  Forall (fun g => g <> [] /\ group_fits usable cover_size g) (groups s) /\
  (current s <> [] -> group_fits usable cover_size (current s)) /\
  greedy usable cover_size (groups s ++ (if bool_decide (current s = []) then [] else [current s])).

(** ** Lemmas *)

Section Greedy.
Variables usable cover_size : Z.

Lemma greedy_snoc gs g :
  greedy usable cover_size (gs ++ [g]) <->
  greedy usable cover_size gs /\
  (forall g0, last gs = Some g0 -> exists t h', g = t :: h' /\ usable < cover_size + group_size g0 + file_size t).
Proof.
  split.
  - intros H. split.
    + intros k a b Ha Hb. apply (H k); by apply lookup_app_l_Some.
    + intros g0 Hl. rewrite last_lookup in Hl.
      assert (Hlen : (0 < length gs)%nat) by (destruct gs; simpl; [done|lia]).
      apply (H (pred (length gs))); [by apply lookup_app_l_Some|].
      replace (S (pred (length gs))) with (length gs) by lia. apply list_lookup_middle. done.
  - intros [H Hl] k a b Ha Hb. destruct (decide (S k < length gs)%nat) as [Hk|Hk].
    + rewrite lookup_app_l in Ha, Hb by lia. by eapply H.
    + apply lookup_lt_Some in Hb as Hlt. rewrite length_app in Hlt. simpl in Hlt.
      assert (S k = length gs) as Hk' by lia. rewrite lookup_app_l in Ha by lia.
      rewrite list_lookup_middle in Hb by done. injection Hb as <-. apply Hl.
      rewrite last_lookup. by replace (pred (length gs)) with k by lia.
Qed.

Lemma group_size_snoc g t : group_size (g ++ [t]) = group_size g + file_size t.
Proof. unfold group_size. rewrite fmap_app, sumZ_app. simpl. lia. Qed.

Lemma add_track_inv l s t s' :
  group_inv usable cover_size l s -> add_track usable cover_size s t = Ok s' ->
  group_inv usable cover_size (l ++ [t]) s' /\ current s' <> [].
Proof.
  intros (Hcat & Hsize & Hempty & Hfits & Hcur & Hgreedy). unfold add_track.
  destruct (Z.ltb_spec usable (file_size t)) as [?|Ht]; [done|]. cbn.
  destruct (checked_add 64 (current_size s) (file_size t)) as [next|] eqn:Hn; [|done]. cbn.
  apply checked_add_Some in Hn as [Hnext _].
  assert (Hone : group_fits usable cover_size [t]) by (right; by exists t).
  destruct (negb (bool_decide (current s = [])) && (usable <? next)) eqn:E; cbn.
  - apply andb_true_iff in E as [Ene Eover]. to_prop. apply bool_decide_eq_false in Ene.
    rewrite bool_decide_eq_false_2 in Hgreedy by done.
    destruct (checked_add 64 cover_size (file_size t)) as [size|] eqn:Hs; [|done]. cbn. intros [= <-].
    apply checked_add_Some in Hs as [-> _]. split; [|done]. split_and!; cbn; try done.
    + by rewrite concat_app, <-Hcat; cbn; rewrite app_nil_r.
    + unfold group_size. cbn. lia.
    + apply Forall_app. split; [done|]. apply Forall_singleton. auto.
    + apply greedy_snoc. split; [done|]. intros g0. rewrite last_snoc. intros [= <-].
      exists t, []. split; [done|lia].
  - destruct (checked_add 64 (current_size s) (file_size t)) as [size|] eqn:Hs; [|done]. cbn. intros [= <-].
    apply checked_add_Some in Hs as [Hsize' _]. cbn. split; [|by destruct (current s)].
    split_and!; cbn; try done.
    + by rewrite app_assoc, Hcat.
    + rewrite group_size_snoc. lia.
    + by destruct (current s).
    + intros _. destruct (decide (current s = [])) as [->|Hne]; [done|].
      rewrite bool_decide_eq_false_2 in E by done. cbn in E. to_prop. left. rewrite group_size_snoc. lia.
    + rewrite bool_decide_eq_false_2 by (by destruct (current s)).
      destruct (decide (current s = [])) as [He|Hne].
      * rewrite Hempty by done. apply greedy_snoc. by split; [intros k ? ?|].
      * rewrite bool_decide_eq_false_2 in Hgreedy by done. apply greedy_snoc in Hgreedy as [Hg Hlast].
        apply greedy_snoc. split; [done|]. intros g0 H0. destruct (Hlast g0 H0) as (t0 & h' & -> & Hlt).
        by exists t0, (h' ++ [t]).
Qed.

Lemma add_tracks_inv l : forall done s s',
  group_inv usable cover_size done s -> add_tracks usable cover_size s l = Ok s' ->
  group_inv usable cover_size (done ++ l) s' /\ (l <> [] \/ current s <> [] -> current s' <> []).
Proof.
  induction l as [|t l IH]; intros dn s s' Hinv; simpl.
  - intros [= <-]. rewrite app_nil_r. split; [done|]. by intros [?|?].
  - destruct (add_track usable cover_size s t) as [s1|] eqn:E; [|done]. cbn. intros H.
    apply (add_track_inv dn) in E as [Hinv1 Hne]; [|done].
    apply (IH (dn ++ [t])) in H as [Hinv' Hc]; [|done]. rewrite <-app_assoc in Hinv'. auto.
Qed.

(** The groups of a successful split. *)
Lemma split_spec l s :
  l <> [] -> add_tracks usable cover_size (mkGroups [] [] cover_size) l = Ok s ->
  concat (finish_groups s) = l /\
  Forall (fun g => g <> [] /\ group_fits usable cover_size g) (finish_groups s) /\
  greedy usable cover_size (finish_groups s).
Proof.
  intros Hl H. apply (add_tracks_inv l []) in H as [(Hcat & _ & _ & Hfits & Hcur & Hgreedy) Hne].
  - cbn [app] in Hcat. specialize (Hne (or_introl Hl)). unfold finish_groups.
    rewrite bool_decide_eq_false_2 in Hgreedy |- * by done. split_and!; [|apply Forall_app; split|done].
    + by rewrite concat_app, <-Hcat; cbn; rewrite app_nil_r.
    + done.
    + apply Forall_singleton. auto.
  - split_and!; cbn; try done. unfold group_size. cbn. lia.
Qed.

End Greedy.

Lemma name_parts_Some f i l :
  (forall k g, (i <= k)%nat -> is_Some (f k g)) -> exists ps, name_parts f i l = Some ps /\
    length ps = length l /\ forall k p, ps !! k = Some p -> exists g, l !! k = Some g /\ f (i + k)%nat g = Some p.
Proof.
  revert i. induction l as [|g l IH]; intros i Hf; simpl; [by exists []|].
  destruct (Hf i g ltac:(lia)) as [p Hp]. rewrite Hp. cbn.
  destruct (IH (S i)) as (ps & -> & Hlen & Hps); [intros; apply Hf; lia|]. cbn.
  exists (p :: ps). split; [done|]. split; [simpl; lia|].
  intros [|k] q Hq; simpl in *; simplify_eq.
  - exists g. by rewrite Nat.add_0_r.
  - destruct (Hps k q Hq) as (g' & ? & ?). exists g'. by rewrite Nat.add_succ_r.
Qed.

(** Boolean forms of the side conditions on a constant suffix. *)
Definition allowedb (s : str) : bool := forallb (fun c => negb (is_forbidden_char c)) s.

Lemma allowedb_Forall s : allowedb s = true -> Forall allowed_char s.
Proof.
  unfold allowedb, allowed_char. rewrite List.forallb_forall. intros H. apply Forall_forall.
  intros c Hc%list_elem_of_In. apply negb_true_iff. by apply H.
Qed.

Lemma digits_allowed s : Forall (fun c => is_ascii_digit c = true) s -> Forall allowed_char s.
Proof.
  intros H. eapply Forall_impl; [exact H|]. intros c Hc. unfold is_ascii_digit in Hc. to_prop.
  unfold allowed_char, is_forbidden_char, is_control. cbn [existsb].
  rewrite !(proj2 (Z.eqb_neq c _)) by lia.
  rewrite (proj2 (Z.leb_gt c 31)), (proj2 (Z.leb_gt 127 c)) by lia. by rewrite andb_false_r.
Qed.

Lemma label_facts codec :
  Forall allowed_char (archive_codec_label codec) /\ byte_len (archive_codec_label codec) <= 5.
Proof. unfold archive_codec_label. repeat case_match; (split; [by apply allowedb_Forall|by vm_compute]). Qed.

Lemma part_suffix_facts codec i n :
  0 <= i -> 0 <= n -> exists s0,
    part_suffix (archive_codec_label codec) i n = s0 ++ [112] /\
    Forall allowed_char (s0 ++ [112]) /\ byte_len (s0 ++ [112]) < MAX_ARCHIVE_FILENAME_BYTES.
Proof.
  intros Hi Hn. destruct (label_facts codec) as [Hl Hb]. unfold part_suffix, MAX_ARCHIVE_FILENAME_BYTES.
  pose proof (show_u_byte_len i Hi). pose proof (show_u_byte_len n Hn).
  assert (Hshow : forall k, 0 <= k -> Forall allowed_char (show_u k))
    by (intros; apply digits_allowed; auto with peerless).
  destruct (n =? 1).
  - exists (lit " [" ++ archive_codec_label codec ++ lit "].zi"). rewrite <-!app_assoc. split; [done|].
    rewrite !Forall_app, !byte_len_app. split; [|by change (byte_len (lit " [")) with 2;
      change (byte_len (lit "].zi")) with 4; change (byte_len [112]) with 1; lia].
    split_and!; try done; by apply allowedb_Forall.
  - exists (lit " [" ++ archive_codec_label codec ++ lit "] (Part " ++ show_u i ++ lit " of " ++ show_u n ++ lit ").zi").
    rewrite <-!app_assoc. split; [done|]. rewrite !Forall_app, !byte_len_app.
    split; [|change (byte_len (lit " [")) with 2; change (byte_len (lit "] (Part ")) with 8;
      change (byte_len (lit " of ")) with 4; change (byte_len (lit ").zi")) with 4;
      change (byte_len [112]) with 1; lia].
    split_and!; auto; by apply allowedb_Forall.
Qed.

Lemma name_part_Some artist album date codec cover n i g :
  0 <= n -> exists p filename,
    name_part artist album date (archive_codec_label codec) cover n i g =
      Some (mkPlan (Z.of_nat i + 1) n g cover filename) /\
    filename = p ++ part_suffix (archive_codec_label codec) (Z.of_nat i + 1) n /\
    valid_name MAX_ARCHIVE_FILENAME_BYTES filename.
Proof.
  intros Hn. unfold name_part.
  destruct (part_suffix_facts codec (Z.of_nat i + 1) n ltac:(lia) Hn) as (s0 & Hs & Hall & Hb). rewrite Hs.
  set (name := artist ++ _).
  assert (Hname : name = (artist ++ [32]) ++ 45 :: ([32] ++ album ++ year_part date) ++ s0 ++ [112]).
  { unfold name. change (lit " - ") with [32; 45; 32]. by rewrite <-!app_assoc. }
  destruct (sanitize_and_bound_suffix MAX_ARCHIVE_FILENAME_BYTES 45 (artist ++ [32])
    ([32] ++ album ++ year_part date) s0 112) as [p Hp]; try done.
  rewrite <-Hname in Hp. rewrite Hp. cbn.
  destruct (sanitize_and_bound_ok MAX_ARCHIVE_FILENAME_BYTES name (Some (s0 ++ [112]))) as (f & Hf & Hv); [done|].
  rewrite Hp in Hf. injection Hf as <-. by exists p, (p ++ s0 ++ [112]).
Qed.

Lemma part_suffix_inj label p q i j n :
  n <> 1 -> in_u 64 i -> in_u 64 j -> p ++ part_suffix label i n = q ++ part_suffix label j n -> i = j.
Proof.
  intros Hn Hi Hj. unfold part_suffix. rewrite (proj2 (Z.eqb_neq n 1) Hn).
  change (lit "] (Part ") with (lit "] (Part" ++ [32]). intros E.
  rewrite !app_assoc in E. do 3 apply app_inv_tail in E. rewrite <-!app_assoc in E.
  rewrite !app_assoc in E. rewrite <-(app_assoc _ [32]), <-(app_assoc _ [32]) in E.
  apply digits_tail_inj in E; [|done|apply show_u_digits, Hi|apply show_u_digits, Hj].
  apply (f_equal (parse_u 64)) in E. rewrite !parse_show_u in E by done. by injection E.
Qed.

Lemma check_names_Ok names l :
  check_names names l = Ok tt <->
  Forall (fun t => validate_entry_name (archive_filename t) = Ok tt /\ archive_filename t ∉ names) l /\
  NoDup (archive_filename <$> l).
Proof.
  revert names. induction l as [|t l IH]; intros names; cbn [check_names]; csimpl.
  - split; [split; [done|constructor]|done].
  - rewrite Forall_cons, NoDup_cons. destruct (validate_entry_name _) as [[]|e]; cbn; [|naive_solver].
    case_bool_decide as Hin; [naive_solver|]. rewrite IH, !Forall_forall. setoid_rewrite not_elem_of_cons.
    rewrite list_elem_of_fmap. naive_solver.
Qed.

Lemma check_tracks_Ok fs_len names l :
  check_tracks fs_len names l = Ok tt ->
  check_names names l = Ok tt /\ Forall (fun t => fs_len (file_path t) = Some (file_size t)) l.
Proof.
  revert names. induction l as [|t l IH]; intros names; cbn [check_tracks check_names]; [done|].
  destruct (validate_entry_name _) as [[]|]; cbn; [|done]. case_bool_decide; [done|].
  destruct (fs_len (file_path t)) as [n|] eqn:E; cbn; [|done].
  destruct (Z.eqb_spec n (file_size t)) as [->|]; cbn; [|done].
  intros [? ?]%IH. split; [done|by apply Forall_cons].
Qed.

(** What [plan_zip_parts_with_codec] computed when it succeeded. *)
Definition cover_length (fs_len : str -> option Z) (cover : option str) : option Z :=
  match cover with Some path => fs_len path | None => Some 0 end.

Definition entry_count (l : list ZipTrackEntry) (cover : option str) : Z :=
  Z.of_nat (length l) + (if cover then 1 else 0) + 1.

Lemma usable_bytes_Ok n max u :
  usable_bytes n max = Ok u -> u = saturating_sub max (n * ENTRY_OVERHEAD_BYTES + ARCHIVE_HEADROOM_BYTES).
Proof.
  unfold usable_bytes. destruct (checked_mul 64 n _) as [m|] eqn:E; cbn; [|done].
  apply checked_mul_Some in E as [-> _].
  destruct (checked_add 64 _ _) as [o|] eqn:E; cbn; [|done]. apply checked_add_Some in E as [-> _].
  by intros [= <-].
Qed.

Section PlanSpec.
Variables (fs_len : str -> option Z) (artist album date : str) (l : list ZipTrackEntry).
Variables (cover : option str) (max : Z) (codec : str).
Let plan := plan_zip_parts_with_codec fs_len artist album date l cover max codec.

Lemma name_groups gs n :
  0 <= n -> exists ps,
    name_parts (name_part artist album date (archive_codec_label codec) cover n) 0 gs = Some ps /\
    length ps = length gs /\
    forall k part, ps !! k = Some part -> exists p filename g,
      gs !! k = Some g /\ part = mkPlan (Z.of_nat k + 1) n g cover filename /\
      filename = p ++ part_suffix (archive_codec_label codec) (Z.of_nat k + 1) n /\
      valid_name MAX_ARCHIVE_FILENAME_BYTES filename.
Proof.
  intros Hn. destruct (name_parts_Some (name_part artist album date (archive_codec_label codec) cover n) 0 gs)
    as (ps & Hps & Hlen & Hspec).
  { intros k g _. destruct (name_part_Some artist album date codec cover n k g Hn) as (p & f & -> & _). done. }
  exists ps. split; [done|]. split; [done|]. intros k part Hk. apply Hspec in Hk as (g & Hg & Hp).
  destruct (name_part_Some artist album date codec cover n k g Hn) as (p & f & Hf & Hs & Hv).
  cbn [Nat.add] in Hp. rewrite Hf in Hp. injection Hp as <-. by exists p, f, g.
Qed.

Lemma plan_total : exists r, plan = Some r.
Proof.
  unfold plan, plan_zip_parts_with_codec. set (checked := if bool_decide (l = []) then _ else _).
  destruct checked as [gs|e]; [|by eexists].
  destruct (name_groups gs (Z.of_nat (length gs)) ltac:(lia)) as (ps & -> & _). by eexists.
Qed.

Lemma plan_inv parts :
  plan = Some (Ok parts) -> exists csize usable gs,
    l <> [] /\ cover_length fs_len cover = Some csize /\
    check_tracks fs_len [lit "manifest.json"] l = Ok tt /\
    0 < usable /\ usable + entry_count l cover * ENTRY_OVERHEAD_BYTES + ARCHIVE_HEADROOM_BYTES <= max /\
    csize <= usable /\
    concat gs = l /\ Forall (fun g => g <> [] /\ group_fits usable csize g) gs /\ greedy usable csize gs /\
    name_parts (name_part artist album date (archive_codec_label codec) cover (Z.of_nat (length gs))) 0 gs
      = Some parts.
Proof.
  unfold plan, plan_zip_parts_with_codec. case_bool_decide as Hl; [done|].
  destruct (max =? 0); [done|].
  destruct (check_tracks fs_len _ l) as [[]|] eqn:Hchk; cbn; [|done].
  set (cs := match cover with Some path => ok_or _ _ | None => Ok 0 end).
  assert (Hcs : forall c, cs = Ok c -> cover_length fs_len cover = Some c).
  { unfold cs, cover_length. intros c. destruct cover as [p|]; [destruct (fs_len p)|]; cbn; by intros [= <-]. }
  destruct cs as [csize|] eqn:Ec; cbn; [|done]. specialize (Hcs csize eq_refl).
  destruct (usable_bytes _ max) as [usable|] eqn:Hu; cbn; [|done]. apply usable_bytes_Ok in Hu.
  destruct ((usable =? 0) || (usable <? csize)) eqn:Hb; [done|]. to_prop.
  destruct (add_tracks usable csize _ l) as [s|] eqn:Hadd; cbn; [|done].
  apply split_spec in Hadd as (Hcat & Hfit & Hgreedy); [|done].
  destruct (name_parts _ 0 (finish_groups s)) as [ps|] eqn:Hn; cbn; [|done]. intros [= ->].
  exists csize, usable, (finish_groups s). unfold saturating_sub, entry_count in *. split_and!; try done; lia.
Qed.

(** What a plan promises. *)
Record good_plan (parts : list ZipPartPlan) : Prop := {
  gp_tracks : concat (tracks <$> parts) = l;
  gp_part i part : parts !! i = Some part ->
    part_index part = Z.of_nat i + 1 /\ total_parts part = Z.of_nat (length parts) /\
    cover_path part = cover /\ tracks part <> [] /\
    valid_name MAX_ARCHIVE_FILENAME_BYTES (plan_filename part);
  gp_names : Z.of_nat (length l) < 2 ^ 64 - 1 -> NoDup (plan_filename <$> parts);
  gp_sizes : exists usable csize, cover_length fs_len cover = Some csize /\
    usable + entry_count l cover * ENTRY_OVERHEAD_BYTES + ARCHIVE_HEADROOM_BYTES <= max /\
    Forall (group_fits usable csize) (tracks <$> parts) /\ greedy usable csize (tracks <$> parts);
}.

Lemma groups_length (gs : list (list ZipTrackEntry)) :
  Forall (fun g => g <> []) gs -> (length gs <= length (concat gs))%nat.
Proof.
  induction 1 as [|g gs Hg _ IH]; simpl; [done|]. rewrite length_app. destruct g; [done|simpl; lia].
Qed.

Lemma plan_good parts : plan = Some (Ok parts) -> good_plan parts.
Proof.
  intros H. apply plan_inv in H as (csize & usable & gs & Hl & Hc & _ & Hu & Hmax & Hcu & Hcat & Hfit & Hgr & Hn).
  destruct (name_groups gs (Z.of_nat (length gs)) ltac:(lia)) as (ps & Hps & Hlen & Hspec).
  rewrite Hn in Hps. injection Hps as <-.
  assert (Htr : tracks <$> parts = gs).
  { apply list_eq. intros k. rewrite list_lookup_fmap. destruct (parts !! k) as [part|] eqn:E; cbn.
    - by apply Hspec in E as (p & f & g & -> & -> & _).
    - symmetry. apply lookup_ge_None. apply lookup_ge_None in E. lia. }
  apply Forall_and in Hfit as [Hne Hfit].
  split; [congruence| | |].
  - intros i part Hi. destruct (Hspec i part Hi) as (p & f & g & Hg & -> & Hs & Hv). cbn.
    split_and!; try done; [by rewrite Hlen|]. rewrite Forall_forall in Hne. apply Hne. by eapply list_elem_of_lookup_2.
  - intros Hlarge. apply NoDup_alt. intros i j f Hi Hj.
    rewrite list_lookup_fmap in Hi, Hj. apply fmap_Some in Hi as (p1 & Hi & Ei), Hj as (p2 & Hj & Ej).
    pose proof (groups_length gs Hne) as Hgl. rewrite Hcat in Hgl.
    pose proof (lookup_lt_Some _ _ _ Hi). pose proof (lookup_lt_Some _ _ _ Hj).
    destruct (decide (length gs = 1)%nat) as [H1|H1]; [lia|].
    destruct (Hspec i p1 Hi) as (q1 & f1 & g1 & _ & -> & Hs1 & _).
    destruct (Hspec j p2 Hj) as (q2 & f2 & g2 & _ & -> & Hs2 & _). cbn in Ei, Ej.
    assert (E : q1 ++ part_suffix (archive_codec_label codec) (Z.of_nat i + 1) (Z.of_nat (length gs)) =
      q2 ++ part_suffix (archive_codec_label codec) (Z.of_nat j + 1) (Z.of_nat (length gs))) by congruence.
    apply part_suffix_inj in E; [lia|lia|unfold in_u; lia..].
  - exists usable, csize. by rewrite Htr.
Qed.

(** The builder accepts the planned parts. *)
Lemma plan_checks parts part :
  plan = Some (Ok parts) -> part ∈ parts ->
  cover = None \/ (forall t, t ∈ l -> archive_filename t <> lit "cover.jpg") ->
  check_plan part = Ok tt.
Proof.
  intros H Hin Hcover. pose proof (plan_good parts H) as [Htr Hpart _ _].
  apply plan_inv in H as (_ & _ & _ & _ & _ & Hchk & _). apply check_tracks_Ok in Hchk as [Hchk _].
  apply check_names_Ok in Hchk as [Hall Hnd].
  apply list_elem_of_lookup in Hin as [i Hi]. destruct (Hpart i part Hi) as (_ & _ & Hc & Hne & _).
  assert (Hsub : tracks part `sublist_of` l).
  { rewrite <-Htr. clear -Hi. revert i Hi. induction parts as [|p ps IH]; intros [|i] Hi; simplify_eq/=.
    - by apply sublist_inserts_r.
    - apply sublist_inserts_l. by eapply IH. }
  unfold check_plan. rewrite bool_decide_eq_false_2, Hc by done. apply check_names_Ok. split.
  - apply Forall_forall. intros t Ht.
    assert (Htl : t ∈ l) by (by eapply elem_of_sublist).
    rewrite Forall_forall in Hall. destruct (Hall t Htl) as [Hv Hm]. split; [done|].
    destruct cover as [c|]; [|done]. apply not_elem_of_cons. split; [|done].
    destruct Hcover as [?|Hcover]; [done|by apply Hcover].
  - eapply sublist_NoDup; [exact Hnd|]. by apply fmap_sublist.
Qed.

End PlanSpec.

(** ** The generation hash separates its inputs *)

(** Identifiers are texts without NUL characters. *)
Definition nul_free (s : str) : Prop := Forall (fun c => scalar c /\ c <> 0) s.

Lemma nul_free_bytes s : nul_free s -> Forall (fun b => b <> 0) (as_bytes s).
Proof.
  unfold as_bytes. induction 1 as [|c s [Hc H0] _ IH]; csimpl; [done|]. apply Forall_app. split; [|done].
  unfold scalar, encode_utf8 in *. repeat case_match; to_prop;
    repeat (apply Forall_cons; split); try apply Forall_nil_2; try done;
    Z.to_euclidean_division_equations; lia.
Qed.

Lemma as_bytes_inj_nul_free s1 s2 : nul_free s1 -> nul_free s2 -> as_bytes s1 = as_bytes s2 -> s1 = s2.
Proof. intros H1 H2. apply as_bytes_inj; eapply Forall_impl; try done; by intros ? []. Qed.

Lemma split_fields x xs :
  Forall (fun b => b <> 0) x -> Forall (Forall (fun b => b <> 0)) xs ->
  split_on 0 (x ++ concat ((fun y => 0 :: y) <$> xs)) = x :: xs.
Proof.
  intros Hx Hxs. revert x Hx. induction Hxs as [|y ys Hy _ IH]; intros x Hx; csimpl.
  - rewrite app_nil_r. by apply split_on_none.
  - rewrite split_on_app by done. by rewrite IH.
Qed.

Lemma hash_preimage_fields p a ids :
  hash_preimage p a ids =
  as_bytes (lit "alac-zip-gen-v1") ++ concat ((fun y => 0 :: y) <$> (as_bytes <$> p :: a :: ids)).
Proof.
  unfold hash_preimage. rewrite (foldl_snoc_flat (fun id => 0 :: as_bytes id)), <-!app_assoc.
  f_equal. rewrite !fmap_cons. cbn [concat app]. rewrite <-list_fmap_compose.
  f_equal.
Qed.

Lemma hash_preimage_inj p a ids p' a' ids' :
  Forall nul_free (p :: a :: ids) -> Forall nul_free (p' :: a' :: ids') ->
  hash_preimage p a ids = hash_preimage p' a' ids' -> (p, a, ids) = (p', a', ids').
Proof.
  intros H H'. rewrite !hash_preimage_fields. intros E. apply (f_equal (split_on 0)) in E.
  assert (Hb : forall l, Forall nul_free l -> Forall (Forall (fun b => b <> 0)) (as_bytes <$> l)).
  { intros l Hl. apply Forall_fmap. eapply Forall_impl; [exact Hl|]. intros. by apply nul_free_bytes. }
  assert (Htag : Forall (fun b => b <> 0) (as_bytes (lit "alac-zip-gen-v1"))).
  { apply nul_free_bytes. repeat (apply Forall_cons; split; [by vm_compute|]). apply Forall_nil_2. }
  rewrite !split_fields in E by auto. apply (f_equal (@tl _)) in E. cbn [tl] in E.
  assert (Hinj : forall l l', Forall nul_free l -> Forall nul_free l' -> as_bytes <$> l = as_bytes <$> l' -> l = l').
  { induction l as [|x l IH]; intros [|y l'] Hl Hl' F; csimpl; try done. injection F as F1 F2.
    inversion Hl; inversion Hl'; subst. f_equal; [by apply as_bytes_inj_nul_free|by apply IH]. }
  assert (Hfull : p :: a :: ids = p' :: a' :: ids') by (by apply Hinj).
  congruence.
Qed.

Lemma hex_digest_inj d d' :
  Forall (fun b => 0 <= b < 256) d -> Forall (fun b => 0 <= b < 256) d' -> hex_digest d = hex_digest d' -> d = d'.
Proof.
  unfold hex_digest. rewrite !(foldl_snoc_flat (fun b => [hex_lower (b / 16); hex_lower (b mod 16)])).
  cbn [app]. intros H. revert d'. induction H as [|b d Hb _ IH]; intros d' [|b' d'' Hb' H']; csimpl; try done.
  intros [= E1 E2 E]. apply IH in E as ->; [|done]. f_equal.
  unfold hex_lower in *. repeat case_match; to_prop; Z.to_euclidean_division_equations; lia.
Qed.

(** ** Properties *)

(** C35: an album plan is complete and bounded: the parts hold the tracks in order, none twice and
    none lost, they are numbered and named distinctly, every name is valid, the split is greedy,
    and the sizes respect the limit up to the exception of [group_fits]. *)
Theorem plan_zip_parts_correct fs_len artist album date l cover max codec :
  (exists r, plan_zip_parts_with_codec fs_len artist album date l cover max codec = Some r) /\
  (forall parts, plan_zip_parts_with_codec fs_len artist album date l cover max codec = Some (Ok parts) ->
     good_plan fs_len l cover max parts).
Proof. split; [apply plan_total|]. intros parts. apply plan_good. Qed.

(** The cover is left out of the per-track limit: a plan is accepted whose single part, cover
    included, is larger than the limit the caller gave. *)
Theorem plan_part_exceeds_limit :
  exists fs_len t cover max part csize,
    plan_zip_parts fs_len (lit "A") (lit "B") [] [t] (Some cover) max = Some (Ok [part]) /\
    fs_len cover = Some csize /\ tracks part = [t] /\ max < csize + file_size t.
Proof.
  exists (fun p => Some (if bool_decide (p = lit "cover") then 80000 else 90000)),
    (mkEntry (lit "t") (lit "1 - T.m4a") 90000), (lit "cover"), 160000.
  eexists _, 80000. split; [by vm_compute|]. by vm_compute.
Qed.

(** The builder accepts every planned part, except that a track named like the cover passes the
    planner and is refused by the builder. *)
Theorem planned_parts_pass_builder :
  (forall fs_len artist album date l cover max codec parts part,
     plan_zip_parts_with_codec fs_len artist album date l cover max codec = Some (Ok parts) ->
     part ∈ parts ->
     cover = None \/ (forall t, t ∈ l -> archive_filename t <> lit "cover.jpg") ->
     check_plan part = Ok tt) /\
  (exists fs_len t part,
     plan_zip_parts fs_len (lit "A") (lit "B") [] [t] (Some (lit "c")) 100000 = Some (Ok [part]) /\
     check_plan part = Err (DuplicateEntry (lit "cover.jpg"))).
Proof.
  split; [intros; by eapply plan_checks|].
  exists (fun _ => Some 11), (mkEntry (lit "t") (lit "cover.jpg") 11). eexists.
  split; [vm_compute; reflexivity|by vm_compute].
Qed.

(** Two albums get the same generation hash only if provider, album and track list are all
    equal, or SHA-256 itself collides. *)
Theorem album_generation_hash_separates sha256 p a ids p' a' ids' :
  (forall x, Forall (fun b => 0 <= b < 256) (sha256 x)) ->
  Forall nul_free (p :: a :: ids) -> Forall nul_free (p' :: a' :: ids') ->
  album_generation_hash sha256 p a ids = album_generation_hash sha256 p' a' ids' ->
  (p, a, ids) = (p', a', ids') \/ (exists x y, x <> y /\ sha256 x = sha256 y).
Proof.
  intros Hsha H H' E. apply hex_digest_inj in E; [|apply Hsha..].
  destruct (decide (hash_preimage p a ids = hash_preimage p' a' ids')) as [Heq|Hne].
  - left. by apply hash_preimage_inj.
  - right. eauto.
Qed.

(** A stand-in digest, the bytes themselves. *)
Definition demo_digest (x : list Z) : list Z := (fun b => b mod 256) <$> x.

Lemma demo_digest_byte x : Forall (fun b => 0 <= b < 256) (demo_digest x).
Proof. apply Forall_fmap, Forall_true. intros b. apply Z.mod_pos_bound. lia. Qed.

Lemma nul_free_demo : Forall nul_free [lit "apple"; lit "alb.1"; lit "1"; lit "2"].
Proof.
  unfold nul_free. repeat (apply Forall_cons; split; [repeat (apply Forall_cons; split; [by vm_compute|]); apply Forall_nil_2|]).
  apply Forall_nil_2.
Qed.

Lemma album_generation_hash_separates_witness :
  (lit "apple", lit "alb.1", [lit "1"; lit "2"]) = (lit "apple", lit "alb.1", [lit "1"; lit "2"]) \/
  (exists x y, x <> y /\ demo_digest x = demo_digest y).
Proof.
  apply (album_generation_hash_separates demo_digest); [exact demo_digest_byte|exact nul_free_demo..|reflexivity].
Defined.
