(* ===== verification/Priority.v ===== *)
(** * Priority: the score of a rip job (crates/engine/src/orchestrator/priority.rs)

    The base score of a request, an [i16], and the effective score that adds its waiting time; the
    instance of [ScorePolicy] is what the queue (RipQueue.v) is proved against. *)
From S2P Require Import Prelude Text Interfaces Music.

Inductive RequestSource : Type := Client | TelegramBot.

Record JobOrigin := mkOrigin { source : RequestSource; expanded_from_artist : bool }.
Definition JobOrigin_default : JobOrigin := mkOrigin TelegramBot false.

Record RipTaskOptions := mkRipOptions {
  chat_id : Z; user_id : Z; user_name : option str; delivery_chat_id : Z;
  is_group : bool; is_force : bool; is_cache_only : bool; single_storefront : option str;
  parsed_items : list ParsedTargetItem; reply_to_message_id : option Z; is_admin : bool;
  opt_codec_preference : option CodecPreference; rendition_policy : RenditionPolicy; origin : JobOrigin;
}.

Definition CLIENT_POINTS : Z := 100.
Definition TRACK_POINTS : Z := 60.
Definition ALBUM_POINTS : Z := 10.
Definition PLAYLIST_POINTS : Z := -60.
Definition ARTIST_EXPANSION_POINTS : Z := -60.
Definition MULTI_LINK_POINTS : Z := -40.
Definition ADMIN_POINTS : Z := -200.

(** The [i16] additions are exact: [base_score_bounds]. *)
Definition base_score (options : RipTaskOptions) : Z :=
  let score := match source (origin options) with Client => CLIENT_POINTS | TelegramBot => 0 end in
  let score :=
    match parsed_items options with
    | [item] => score + match target_kind item with
                        | KTrack => TRACK_POINTS | KAlbum => ALBUM_POINTS
                        | KPlaylist => PLAYLIST_POINTS | KArtist => 0
                        end
    | [] => score
    | _ :: _ :: _ => score + MULTI_LINK_POINTS
    end in
  let score := if expanded_from_artist (origin options) then score + ARTIST_EXPANSION_POINTS else score in
  if is_admin options then score + ADMIN_POINTS else score.

(** Release arithmetic wraps at 64 bits. *)
Definition effective_score (base waited_secs : Z) : Z :=
  swrap 64 (base * 100 + swrap 64 (swrap 64 waited_secs * 5)).

(** ** Lemmas *)

Lemma effective_score_exact b w :
  in_i16 b -> 0 <= w < 2 ^ 60 -> effective_score b w = b * 100 + w * 5.
Proof.
  unfold in_i16, effective_score. intros Hb Hw.
  rewrite (swrap_small 64 w) by lia. rewrite (swrap_small 64 (w * 5)) by lia.
  rewrite swrap_small by lia. done.
Qed.

(** Waiting buys 5 points a second, a base point is worth 100. *)
#[export, refine] Instance effective_score_policy : ScorePolicy effective_score := {
  aging_gap b1 b2 := Z.max 0 (20 * (b2 - b1));
}.
Proof.
  - intros b w1 w2 Hb Hw H2. rewrite !effective_score_exact by (done || lia). lia.
  - intros b1 b2 w H1 H2 Hb Hw. rewrite !effective_score_exact by (done || lia). lia.
  - intros b1 b2 w1 w2 H1 H2 Hw2 Hw1 Hgap H0. rewrite !effective_score_exact by (done || lia). lia.
Defined.

Lemma base_score_range o : -320 <= base_score o <= 160.
Proof.
  unfold base_score, CLIENT_POINTS, TRACK_POINTS, ALBUM_POINTS, PLAYLIST_POINTS,
    ARTIST_EXPANSION_POINTS, MULTI_LINK_POINTS, ADMIN_POINTS. repeat case_match; lia.
Qed.

Lemma base_score_i16 o : in_i16 (base_score o).
Proof. unfold in_i16. pose proof (base_score_range o). lia. Qed.
#[export] Hint Resolve base_score_i16 : peerless.

(** The gap between any two requests. *)
Lemma base_score_gap o1 o2 : 0 <= aging_gap (base_score o1) (base_score o2) <= 9600.
Proof. cbn. pose proof (base_score_range o1). pose proof (base_score_range o2). lia. Qed.
