(* ===== verification/RipQueue.v ===== *)
(** * RipQueue: the sequential rip queue (crates/engine/src/queue.rs)

    The mutex-protected state and the tasks around it as a step relation: each locked region is one
    step, and so are the spawn of the worker, the end of a job and the two regions of an abort.
    Callbacks, completions and cancellations go to a log.  The queue is generic in the score of the
    items, a [ScorePolicy]; times are nanoseconds. *)
From Stdlib Require Import Sorting.Sorted.
From S2P Require Import Prelude Text Interfaces Music Priority.

Inductive QueueError : Type := Aborted | Cleared | TaskError (message : str).

(** The submission's options that matter to the queue: callbacks are run, not inspected. *)
Record QueuedItem := mkItem {
  item_id : Z; on_position_change : bool; on_start : bool; priority : Z; enqueued_at : Z;
}.

(** The result of a job: [Ok] for a value, [Err] for a panic, an abort or a clear. *)
Inductive event : Type :=
| Completed (id : Z) (r : result QueueError unit)
| Rejected
| PositionChanged (id position : Z)
| Started (id : Z)
| ChildCancelled (id : Z).

(** Where a [run_worker] task stands: before the lock of the loop head, in the job, or before the
    lock that ends the iteration. *)
Inductive worker : Type := AtTake | Running (i : QueuedItem) | AtNext (i : QueuedItem).

Record queue := mkQueue {
  pending : list QueuedItem;
  active : option Z;
  processing : bool;
  next_id : Z;
  spawning : nat;          (* submissions that will spawn a worker *)
  workers : list worker;
  aborts : list Z;         (* watchers between the two locked regions of [abort_item] *)
  log : list event;
}.

Section Queue.
Context (score : Z -> Z -> Z).

Definition new : queue := mkQueue [] None false 1 0 [] [] [].

Definition get_pending_count (q : queue) : nat := length (pending q).
Definition is_processing (q : queue) : bool := processing q.

(** [skip(from).enumerate().filter_map(..)]: the positions callbacks are told. *)
Fixpoint positions (from : Z) (l : list QueuedItem) : list event :=
  match l with
  | [] => []
  | i :: l' =>
      if on_position_change i then PositionChanged (item_id i) (from + 1) :: positions (from + 1) l'
      else positions (from + 1) l'
  end.

Definition clear (q : queue) : queue :=
  mkQueue [] (active q) (processing q) (next_id q) (spawning q) (workers q) (aborts q)
    (log q ++ concat ((fun i => [ChildCancelled (item_id i); Completed (item_id i) (Err Cleared)]) <$> pending q)).

Definition submit (signal_cancelled callback start : bool) (prio now : Z) (q : queue) : queue :=
  if signal_cancelled then
    mkQueue (pending q) (active q) (processing q) (next_id q) (spawning q) (workers q) (aborts q)
      (log q ++ [Rejected])
  else
    let id := next_id q in
    let start_worker := negb (processing q) in
    let position := Z.of_nat (length (pending q)) + 1 in
    mkQueue (pending q ++ [mkItem id callback start prio now]) (active q) true (id + 1)
      (if start_worker then S (spawning q) else spawning q) (workers q) (aborts q)
      (log q ++ if negb start_worker && callback then [PositionChanged id position] else []).

Definition spawn (q : queue) : queue :=
  mkQueue (pending q) (active q) (processing q) (next_id q) (pred (spawning q)) (workers q ++ [AtTake])
    (aborts q) (log q).

(** [abort_item], first region. *)
Definition abort_remove (id : Z) (q : queue) : queue :=
  match list_find (fun i => item_id i = id) (pending q) with
  | Some (index, item) =>
      let rest := delete index (pending q) in
      mkQueue rest (active q) (processing q) (next_id q) (spawning q) (workers q) (aborts q)
        (log q ++ [ChildCancelled id; Completed (item_id item) (Err Aborted)]
           ++ positions (Z.of_nat index) (drop index rest))
  | None =>
      mkQueue (pending q) (active q) (processing q) (next_id q) (spawning q) (workers q)
        (id :: aborts q) (log q)
  end.

(** [abort_item], second region: the [k]-th watcher. *)
Definition abort_check (k : nat) (q : queue) : queue :=
  match aborts q !! k with
  | Some id =>
      mkQueue (pending q) (active q) (processing q) (next_id q) (spawning q) (workers q)
        (delete k (aborts q))
        (log q ++ if bool_decide (active q = Some id) then [ChildCancelled id] else [])
  | None => q
  end.

(** The scan of [take_next]: the incumbent's index and score. *)
Definition waited_secs (now : Z) (i : QueuedItem) : Z := saturating_sub now (enqueued_at i) / 1000000000.

Definition item_score (now : Z) (i : QueuedItem) : Z := score (priority i) (waited_secs now i).

Fixpoint scan (now : Z) (index : nat) (best : option (nat * Z)) (l : list QueuedItem) : option (nat * Z) :=
  match l with
  | [] => best
  | item :: l' =>
      let s := item_score now item in
      let best := match best with
                  | Some (_, best_score) => if s <=? best_score then best else Some (index, s)
                  | None => Some (index, s)
                  end in
      scan now (S index) best l'
  end.

Definition take_next (now : Z) (l : list QueuedItem) : option (QueuedItem * list QueuedItem) :=
  match scan now 0 None l with
  | Some (index, _) =>
      match l !! index with
      | Some item => Some (item, delete index l)
      | None => None
      end
  | None => None
  end.

(** [run_worker]: the locked region at the loop head, with the callbacks after it. *)
Definition worker_take (now : Z) (q : queue) : queue * option worker :=
  match take_next now (pending q) with
  | None =>
      (mkQueue (pending q) None false (next_id q) (spawning q) (workers q) (aborts q) (log q), None)
  | Some (item, rest) =>
      (mkQueue rest (Some (item_id item)) (processing q) (next_id q) (spawning q) (workers q) (aborts q)
         (log q ++ positions 0 rest ++ if on_start item then [Started (item_id item)] else []),
       Some (Running item))
  end.

(** The job ended: its value, or the message of its panic. *)
Definition worker_finish (item : QueuedItem) (panic : option str) (q : queue) : queue * option worker :=
  let r := match panic with Some message => Err (TaskError message) | None => Ok tt end in
  (mkQueue (pending q) (active q) (processing q) (next_id q) (spawning q) (workers q) (aborts q)
     (log q ++ [Completed (item_id item) r]), Some (AtNext item)).

(** The locked region at the end of the iteration. *)
Definition worker_next (q : queue) : queue * option worker :=
  if bool_decide (pending q = []) then
    (mkQueue (pending q) None false (next_id q) (spawning q) (workers q) (aborts q) (log q), None)
  else
    (mkQueue (pending q) None (processing q) (next_id q) (spawning q) (workers q) (aborts q) (log q), Some AtTake).

Definition run_worker (now : Z) (panic : option str) (w : worker) (q : queue) : queue * option worker :=
  match w with
  | AtTake => worker_take now q
  | Running item => worker_finish item panic q
  | AtNext _ => worker_next q
  end.

(** The [k]-th worker moves. *)
Definition set_workers (q : queue) (ws : list worker) : queue :=
  mkQueue (pending q) (active q) (processing q) (next_id q) (spawning q) ws (aborts q) (log q).

Definition step_worker (k : nat) (now : Z) (panic : option str) (q : queue) : queue :=
  match workers q !! k with
  | Some w =>
      let '(q', w') := run_worker now panic w q in
      set_workers q' (match w' with Some w' => <[k := w']> (workers q) | None => delete k (workers q) end)
  | None => q
  end.

(** Progress of the tasks already there, and all steps. *)
Inductive run_step : queue -> queue -> Prop :=
| R_spawn q : (0 < spawning q)%nat -> run_step q (spawn q)
| R_worker k now panic q : is_Some (workers q !! k) -> run_step q (step_worker k now panic q).

Inductive queue_step : queue -> queue -> Prop :=
| Q_run q q' : run_step q q' -> queue_step q q'
| Q_submit c p s prio now q : queue_step q (submit c p s prio now q)
| Q_clear q : queue_step q (clear q)
| Q_abort id q : queue_step q (abort_remove id q)
| Q_abort_check k q : queue_step q (abort_check k q).

Definition reachable (q : queue) : Prop := steps queue_step new q.

(** ** What holds in every reachable state *)

Definition completed_ids (l : list event) : list Z :=
  omap (fun e => match e with Completed id _ => Some id | _ => None end) l.

Definition running_ids (ws : list worker) : list Z :=
  omap (fun w => match w with Running i => Some (item_id i) | _ => None end) ws.

Definition busy (ws : list worker) : option Z :=
  match ws with
  | [Running i] | [AtNext i] => Some (item_id i)
  | _ => None
  end.

Record queue_inv (q : queue) : Prop := {
  (* one worker, spawned or about to be, exactly while [processing] is set *)
  qi_single : (spawning q + length (workers q))%nat = (if processing q then 1 else 0)%nat;
  (* [active] is the job of that worker *)
  qi_active : active q = busy (workers q);
  (* nothing waits without a worker *)
  qi_served : pending q <> [] -> processing q = true;
  (* every submission is pending, running or completed, once *)
  qi_conserved : (item_id <$> pending q) ++ running_ids (workers q) ++ completed_ids (log q)
                   ≡ₚ seqZ 1 (next_id q - 1);
  (* the deque is in order of arrival *)
  qi_fifo : StronglySorted (fun i j => item_id i < item_id j) (pending q);
  qi_next : 1 <= next_id q;
}.

(** ** Lemmas *)

(** The incumbent of the scan is the first best of the items seen. *)
Definition incumbent (now : Z) (seen : list QueuedItem) (best : option (nat * Z)) : Prop :=
  match best with
  | None => seen = []
  | Some (k, s) => exists it l1 l2, seen = l1 ++ it :: l2 /\ length l1 = k /\ s = item_score now it /\
      Forall (fun x => item_score now x < s) l1 /\ Forall (fun x => item_score now x <= s) l2
  end.

Lemma scan_spec now l : forall seen best,
  incumbent now seen best -> incumbent now (seen ++ l) (scan now (length seen) best l).
Proof.
  induction l as [|i l IH]; intros seen best H; cbn [scan]; [by rewrite app_nil_r|].
  replace (seen ++ i :: l) with ((seen ++ [i]) ++ l) by (by rewrite <-app_assoc).
  replace (S (length seen)) with (length (seen ++ [i])) by (rewrite length_app; simpl; lia).
  apply IH. destruct best as [[k s]|]; cbn [incumbent] in H.
  - destruct H as (it & l1 & l2 & -> & Hk & Hs & H1 & H2).
    destruct (Z.leb_spec (item_score now i) s) as [Hle|Hgt].
    + exists it, l1, (l2 ++ [i]). rewrite <-app_assoc. split_and!; try done.
      apply Forall_app. split; [done|]. by apply Forall_singleton.
    + exists i, (l1 ++ it :: l2), []. split_and!; try done. apply Forall_app. split.
      * eapply Forall_impl; [exact H1|]. simpl. lia.
      * apply Forall_cons. split; [lia|]. eapply Forall_impl; [exact H2|]. simpl. lia.
  - subst. exists i, [], []. by split_and!.
Qed.

Lemma take_next_spec now l :
  match take_next now l with
  | None => l = []
  | Some (it, rest) => exists l1 l2, l = l1 ++ it :: l2 /\ rest = l1 ++ l2 /\
      Forall (fun x => item_score now x < item_score now it) l1 /\
      Forall (fun x => item_score now x <= item_score now it) l2
  end.
Proof.
  unfold take_next. pose proof (scan_spec now l [] None eq_refl) as H. cbn [app length] in H.
  destruct (scan now 0 None l) as [[k s]|]; [|done].
  destruct H as (it & l1 & l2 & -> & <- & -> & H1 & H2).
  rewrite list_lookup_middle by done. exists l1, l2. split_and!; try done.
  by rewrite delete_middle.
Qed.

#[local] Arguments completed_ids : simpl never.

Lemma positions_completed from l : completed_ids (positions from l) = [].
Proof. revert from. induction l as [|i l IH]; intros from; simpl; [done|]. destruct (on_position_change i); apply IH. Qed.

Lemma completed_app l1 l2 : completed_ids (l1 ++ l2) = completed_ids l1 ++ completed_ids l2.
Proof. apply omap_app. Qed.

Lemma completed_cons e l :
  completed_ids (e :: l) = match e with Completed id _ => [id] | _ => [] end ++ completed_ids l.
Proof. by destruct e. Qed.

Lemma completed_snoc l id r : completed_ids (l ++ [Completed id r]) = completed_ids l ++ [id].
Proof. by rewrite completed_app. Qed.

Lemma cleared_completed l :
  completed_ids (concat ((fun i => [ChildCancelled (item_id i); Completed (item_id i) (Err Cleared)]) <$> l))
  = item_id <$> l.
Proof. induction l as [|i l IH]; [done|]. cbn. by rewrite <-IH. Qed.

Lemma sorted_snoc {A} (R : A -> A -> Prop) l a :
  StronglySorted R l -> Forall (fun x => R x a) l -> StronglySorted R (l ++ [a]).
Proof.
  induction 1 as [|x l Hl IH Hx]; intros Ha; simpl; [by repeat constructor|].
  apply Forall_cons in Ha as [Hxa Ha]. constructor; [by apply IH|].
  apply Forall_app. split; [done|by apply Forall_singleton].
Qed.

Lemma sorted_drop {A} (R : A -> A -> Prop) l1 a l2 :
  StronglySorted R (l1 ++ a :: l2) -> StronglySorted R (l1 ++ l2).
Proof.
  induction l1 as [|x l1 IH]; simpl; intros H; apply StronglySorted_inv in H as [H Hx]; [done|].
  constructor; [by apply IH|]. rewrite !Forall_app, Forall_cons in *. tauto.
Qed.

(** At most one worker; if one moves it is the only one. *)
Lemma the_worker q k w :
  queue_inv q -> workers q !! k = Some w ->
  workers q = [w] /\ k = 0%nat /\ processing q = true /\ spawning q = 0%nat.
Proof.
  intros [Hs _ _ _ _ _] Hk. pose proof (lookup_lt_Some _ _ _ Hk) as Hlt.
  destruct (processing q); [|lia]. destruct (workers q) as [|w0 [|]]; simpl in *; try lia.
  assert (k = 0%nat) as -> by lia. simplify_eq/=. split_and!; try done. lia.
Qed.

Lemma new_inv : queue_inv new.
Proof. split; cbn; try done; constructor. Qed.

Lemma conserved_below q i : queue_inv q -> i ∈ pending q -> item_id i < next_id q.
Proof.
  intros Hq Hi. assert (H : item_id i ∈ seqZ 1 (next_id q - 1)).
  { rewrite <-(qi_conserved q Hq). apply elem_of_app; left. by apply list_elem_of_fmap_2. }
  apply elem_of_seqZ in H. lia.
Qed.

Lemma submit_inv c p s prio now q : queue_inv q -> queue_inv (submit c p s prio now q).
Proof.
  intros Hq. pose proof (conserved_below q) as Hbelow. pose proof Hq as [Hs Ha Hp Hc Hf Hn]. unfold submit.
  destruct c; [split; cbn; try done; by rewrite completed_app, app_nil_r|].
  split; cbn; try done; [destruct (processing q); cbn; lia| | |lia].
  - assert (completed_ids (log q ++ if negb (negb (processing q)) && p
       then [PositionChanged (next_id q) (Z.of_nat (length (pending q)) + 1)] else []) = completed_ids (log q)) as ->.
    { rewrite completed_app. destruct (_ && _); cbn; by rewrite app_nil_r. }
    replace (next_id q + 1 - 1) with (Z.of_nat (S (Z.to_nat (next_id q - 1)))) by lia.
    rewrite seqZ_S. replace (Z.of_nat (Z.to_nat (next_id q - 1))) with (next_id q - 1) by lia.
    rewrite <-Hc, fmap_app. cbn. replace (1 + (next_id q - 1)) with (next_id q) by lia.
    by rewrite <-!app_assoc, (Permutation_app_comm [next_id q]), <-app_assoc.
  - apply sorted_snoc; [done|]. apply Forall_forall. intros x Hx. cbn. by apply Hbelow.
Qed.

Lemma clear_inv q : queue_inv q -> queue_inv (clear q).
Proof.
  intros [Hs Ha Hp Hc Hf Hn]. split; cbn; try done; [|constructor].
  rewrite <-Hc, completed_app, cleared_completed, app_assoc. by rewrite Permutation_app_comm.
Qed.

Lemma abort_inv id q : queue_inv q -> queue_inv (abort_remove id q).
Proof.
  intros [Hs Ha Hp Hc Hf Hn]. unfold abort_remove.
  destruct (list_find _ (pending q)) as [[k i]|] eqn:E; [|by split].
  apply list_find_Some in E as (Hk & Hid & _).
  apply list_elem_of_split_length in Hk as (l1 & l2 & Hl & Hk). subst k.
  rewrite Hl, delete_middle in *. split; cbn; try done.
  - intros _. apply Hp. by destruct l1.
  - rewrite completed_app, !completed_cons, positions_completed, <-Hc, !fmap_app, fmap_cons.
    rewrite <-!app_assoc. apply Permutation_app_head. cbn.
    rewrite !app_assoc. by rewrite <-Permutation_cons_append.
  - by eapply sorted_drop.
Qed.

Lemma abort_check_inv k q : queue_inv q -> queue_inv (abort_check k q).
Proof.
  intros [Hs Ha Hp Hc Hf Hn]. unfold abort_check. destruct (aborts q !! k); [|by split].
  split; cbn; try done. rewrite completed_app. case_bool_decide; cbn; by rewrite app_nil_r.
Qed.

Lemma spawn_inv q : (0 < spawning q)%nat -> queue_inv q -> queue_inv (spawn q).
Proof.
  intros H0 [Hs Ha Hp Hc Hf Hn].
  assert (workers q = [] /\ spawning q = 1%nat /\ processing q = true) as (Hw & H1 & Hpr).
  { destruct (processing q); [|lia]. destruct (workers q); simpl in Hs; [split_and!; done || lia|lia]. }
  split; cbn; rewrite Hw, ?H1, ?Hpr in *; done.
Qed.

Lemma worker_inv k now panic q : queue_inv q -> queue_inv (step_worker k now panic q).
Proof.
  intros Hq. unfold step_worker. destruct (workers q !! k) as [w|] eqn:Hk; [|done].
  destruct (the_worker q k w Hq Hk) as (Hw & -> & Hpr & Hsp). destruct Hq as [Hs Ha Hp Hc Hf Hn].
  rewrite Hw, Hpr in *. cbn in Hs. destruct w as [|i|i]; cbn [run_worker].
  - unfold worker_take. pose proof (take_next_spec now (pending q)) as Ht.
    destruct (take_next now (pending q)) as [[it rest]|].
    + destruct Ht as (l1 & l2 & Hl & -> & _). rewrite Hl in *.
      split; cbn; rewrite ?Hpr; try done; try lia; [|by eapply sorted_drop].
      rewrite completed_app, completed_app, positions_completed.
      assert (completed_ids (if on_start it then [Started (item_id it)] else []) = []) as -> by (by destruct (on_start it)).
      rewrite app_nil_r, <-Hc, !fmap_app. cbn.
      rewrite <-!app_assoc. apply Permutation_app_head. cbn. by rewrite Permutation_middle.
    + rewrite Ht in *. split; cbn; done || lia.
  - unfold worker_finish. split; cbn; rewrite ?Hpr; try done; try lia.
    rewrite completed_snoc, <-Hc. apply Permutation_app_head. cbn. by rewrite <-Permutation_cons_append.
  - unfold worker_next. case_bool_decide as He; split; cbn; rewrite ?Hpr; done || lia.
Qed.

Lemma reachable_inv q : reachable q -> queue_inv q.
Proof.
  intros H. refine (steps_invariant queue_step queue_inv _ new q H new_inv).
  clear q H. intros q q' Hq Hstep. destruct Hstep as [q q' Hrun| | | |].
  - destruct Hrun; [by apply spawn_inv|by apply worker_inv].
  - by apply submit_inv.
  - by apply clear_inv.
  - by apply abort_inv.
  - by apply abort_check_inv.
Qed.

(** The work left: three steps per waiting item, and those of the worker's iteration. *)
Definition worker_weight (w : worker) : nat :=
  match w with AtTake => 1 | Running _ => 3 | AtNext _ => 2 end%nat.

Definition weight (q : queue) : nat :=
  (3 * length (pending q) + 2 * spawning q + sum_list (worker_weight <$> workers q))%nat.

Lemma run_step_weight q q' : queue_inv q -> run_step q q' -> (weight q' < weight q)%nat.
Proof.
  intros Hq Hstep. destruct Hstep as [q H|k now panic q [w Hk]].
  - unfold weight, spawn. cbn. rewrite fmap_app.
    assert (workers q = []) as ->; [|cbn; lia].
    destruct Hq as [Hs _ _ _ _ _]. destruct (processing q), (workers q); simpl in Hs; done || lia.
  - destruct (the_worker q k w Hq Hk) as (Hw & -> & Hpr & Hsp). unfold step_worker. rewrite Hk, Hw.
    unfold weight. rewrite Hw, Hsp. destruct w as [|i|i]; cbn [run_worker].
    + unfold worker_take. pose proof (take_next_spec now (pending q)) as Ht.
      destruct (take_next now (pending q)) as [[it rest]|]; cbn; rewrite Hsp; [|lia].
      destruct Ht as (l1 & l2 & -> & -> & _). rewrite !length_app. cbn. lia.
    + cbn. rewrite Hsp. lia.
    + unfold worker_next. case_bool_decide; cbn; rewrite Hsp; lia.
Qed.

Lemma run_step_enabled q : queue_inv q -> processing q = true -> exists q', run_step q q'.
Proof.
  intros [Hs _ _ _ _ _] Hp. rewrite Hp in Hs. destruct (spawning q) as [|n] eqn:E.
  - destruct (workers q) as [|w ws] eqn:Hw; [simpl in Hs; lia|].
    exists (step_worker 0 0 None q). apply R_worker. by rewrite Hw.
  - exists (spawn q). apply R_spawn. lia.
Qed.

Lemma idle_done q :
  queue_inv q -> processing q = false ->
  pending q = [] /\ workers q = [] /\ active q = None /\ completed_ids (log q) ≡ₚ seqZ 1 (next_id q - 1).
Proof.
  intros [Hs Ha Hp Hc _ _] Hf. rewrite Hf in *.
  assert (pending q = []) as He by (destruct (pending q); [done|by discriminate Hp]).
  assert (workers q = []) as Hw by (destruct (workers q); [done|simpl in Hs; lia]).
  rewrite He, Hw in *. by split_and!.
Qed.

End Queue.
#[global] Arguments completed_ids : simpl never.

(** With a score that ages, an early item is not overtaken for ever. *)
Lemma no_late_overtake score `{!ScorePolicy score} q now it rest x :
  reachable score q -> take_next score now (pending q) = Some (it, rest) ->
  x ∈ pending q -> item_id x < item_id it ->
  in_i16 (priority x) -> in_i16 (priority it) ->
  0 <= enqueued_at x -> enqueued_at it <= now -> now < 2 ^ 63 ->
  0 <= aging_gap (priority x) (priority it) ->
  enqueued_at it < enqueued_at x + aging_gap (priority x) (priority it) * 1000000000.
Proof.
  intros Hreach Htake Hx Hid Hpx Hpi Hex Hei Hnow Hgap. apply reachable_inv in Hreach as [_ _ _ _ Hf _].
  pose proof (take_next_spec score now (pending q)) as H. rewrite Htake in H.
  destruct H as (l1 & l2 & Hl & _ & H1 & _). rewrite Hl in *.
  assert (Hin : x ∈ l1).
  { apply elem_of_app in Hx as [Hx|[->|Hx]%elem_of_cons]; [done|lia|].
    clear -Hf Hx Hid. induction l1 as [|y l1 IH]; simpl in Hf; apply StronglySorted_inv in Hf as [Hf Hy].
    - rewrite Forall_forall in Hy. specialize (Hy x Hx). lia.
    - right. by apply IH. }
  rewrite Forall_forall in H1. specialize (H1 x Hin). apply Z.nle_gt. intros Hle.
  set (gap := aging_gap (priority x) (priority it)) in *.
  unfold item_score, waited_secs, saturating_sub in H1.
  assert (score (priority it) (Z.max 0 (now - enqueued_at it) / 1000000000) <=
    score (priority x) (Z.max 0 (now - enqueued_at x) / 1000000000)); [|lia].
  apply score_catches_up; [done|done| | | |done].
  - apply Z.div_pos; lia.
  - apply Z.div_lt_upper_bound; lia.
  - fold gap. rewrite <-Z.div_add by lia. apply Z.div_le_mono; lia.
Qed.

(** ** Properties *)

(** The worker takes the waiting item with the highest score, the first to arrive among equals,
    and leaves the others in order. *)
Theorem take_next_best score now l :
  match take_next score now l with
  | None => l = []
  | Some (it, rest) => exists l1 l2, l = l1 ++ it :: l2 /\ rest = l1 ++ l2 /\
      Forall (fun x => item_score score now x < item_score score now it) l1 /\
      Forall (fun x => item_score score now x <= item_score score now it) l2
  end.
Proof. apply take_next_spec. Qed.

(** C2: in every interleaving of submissions, aborts, clears and the worker: at most one job runs,
    [active] names it, every submission is in exactly one place until it gets its one result, the
    deque keeps the order of arrival, and nothing waits without a worker. *)
Theorem queue_invariant score q : reachable score q -> queue_inv q.
Proof. apply reachable_inv. Qed.

(** C33: the queue drains: its own steps are bounded by the work left, one is always enabled while
    [processing] is set, and when it is not, every submission has had its result. *)
Theorem queue_drains score q :
  reachable score q ->
  (forall q', run_step score q q' -> (weight q' < weight q)%nat) /\
  (processing q = true -> exists q', run_step score q q') /\
  (processing q = false -> pending q = [] /\ completed_ids (log q) ≡ₚ seqZ 1 (next_id q - 1)).
Proof.
  intros H%reachable_inv. split_and!; intros.
  - by eapply run_step_weight.
  - by apply run_step_enabled.
  - apply idle_done in H; [|done]. tauto.
Qed.

(** An abort reaches its item wherever it is: a waiting one is withdrawn with [Aborted] and its
    token cancelled, the order of the others kept; a running one has its token cancelled; any other
    had its result already. *)
Theorem abort_reaches_item score q id :
  reachable score q -> 1 <= id < next_id q ->
  (exists l1 i l2 more, pending q = l1 ++ i :: l2 /\ item_id i = id /\ pending (abort_remove id q) = l1 ++ l2 /\
     log (abort_remove id q) = log q ++ [ChildCancelled id; Completed id (Err Aborted)] ++ more) \/
  (pending (abort_remove id q) = pending q /\ active q = Some id /\
     log (abort_check 0 (abort_remove id q)) = log q ++ [ChildCancelled id]) \/
  (pending (abort_remove id q) = pending q /\ id ∈ completed_ids (log q)).
Proof.
  intros H%reachable_inv Hid. unfold abort_remove.
  destruct (list_find (fun i => item_id i = id) (pending q)) as [[k i]|] eqn:E.
  - left. apply list_find_Some in E as (Hk & Hi & _).
    apply list_elem_of_split_length in Hk as (l1 & l2 & Hl & ->).
    exists l1, i, l2. rewrite Hl, delete_middle, Hi. by eexists.
  - right. destruct (decide (active q = Some id)) as [Ha|Ha].
    + left. unfold abort_check. cbn. by rewrite bool_decide_eq_true_2.
    + right. split; [done|]. apply list_find_None in E.
      assert (Hin : id ∈ seqZ 1 (next_id q - 1)) by (apply elem_of_seqZ; lia).
      rewrite <-(qi_conserved q H) in Hin. rewrite !elem_of_app in Hin. destruct Hin as [Hin|[Hin|Hin]]; [| |done].
      * apply list_elem_of_fmap in Hin as (i & -> & Hi). rewrite Forall_forall in E. by apply E in Hi.
      * exfalso. apply list_elem_of_omap in Hin as (w & Hw & Hrun). destruct w as [|i|i]; try done.
        apply list_elem_of_lookup in Hw as [k Hk]. destruct (the_worker q k _ H Hk) as (Hws & _).
        rewrite (qi_active q H), Hws in Ha. cbn in Ha. by simplify_eq/=.
Qed.

(** No request waits for ever: whatever the two requests are, one submitted 9600 seconds (2 h
    40 min) or more after another is not run before it. *)
Theorem starvation_bound q now it rest x o1 o2 :
  reachable effective_score q -> take_next effective_score now (pending q) = Some (it, rest) ->
  x ∈ pending q -> item_id x < item_id it ->
  priority x = base_score o1 -> priority it = base_score o2 ->
  0 <= enqueued_at x -> enqueued_at it <= now < 2 ^ 63 ->
  enqueued_at it < enqueued_at x + 9600 * 1000000000.
Proof.
  intros Hq Ht Hx Hid E1 E2 He [Hi Hn]. pose proof (base_score_gap o1 o2) as Hgap. rewrite <-E1, <-E2 in Hgap.
  pose proof (no_late_overtake effective_score q now it rest x Hq Ht Hx Hid) as H.
  rewrite E1, E2 in *. specialize (H (base_score_i16 o1) (base_score_i16 o2) He Hi Hn ltac:(lia)). lia.
Qed.

(** *** Witnesses: a bot playlist waits, a client's track arrives a second later and runs first *)

Definition demo_options (s : RequestSource) (k : TargetKind) : RipTaskOptions :=
  mkRipOptions 1 1 None 1 false false false None [mkTarget (lit "1") k None] None false None PrimaryOnly
    (mkOrigin s false).

Definition demo_queue : queue :=
  submit false true true (base_score (demo_options Client KTrack)) 1000000000
    (submit false true true (base_score (demo_options TelegramBot KPlaylist)) 0 new).

Definition playlist_item : QueuedItem := mkItem 1 true true (-60) 0.
Definition track_item : QueuedItem := mkItem 2 true true 160 1000000000.

Lemma demo_reachable : reachable effective_score demo_queue.
Proof.
  eapply steps_cons; [apply (Q_submit effective_score false true true (base_score (demo_options TelegramBot KPlaylist)) 0)|].
  eapply steps_cons; [apply (Q_submit effective_score false true true (base_score (demo_options Client KTrack)) 1000000000)|].
  apply steps_refl.
Qed.

Definition demo_running : queue := step_worker effective_score 0 2000000000 None (spawn demo_queue).

Lemma demo_running_reachable : reachable effective_score demo_running.
Proof.
  eapply steps_trans; [exact demo_reachable|].
  eapply steps_cons; [apply Q_run, R_spawn; cbn; lia|].
  eapply steps_cons; [apply Q_run, (R_worker _ 0 2000000000 None); by eexists|]. apply steps_refl.
Qed.

Lemma queue_invariant_witness :
  active demo_running = Some 2 /\ item_id <$> pending demo_running = [1] /\ queue_inv demo_running.
Proof.
  split; [reflexivity|]. split; [reflexivity|].
  apply (queue_invariant effective_score). exact demo_running_reachable.
Defined.

Lemma queue_drains_witness : exists q', run_step effective_score demo_running q'.
Proof. apply (queue_drains effective_score demo_running demo_running_reachable). reflexivity. Defined.

Lemma abort_reaches_item_witness :
  pending (abort_remove 2 demo_running) = pending demo_running /\ active demo_running = Some 2.
Proof.
  destruct (abort_reaches_item effective_score demo_running 2 demo_running_reachable) as
    [(l1 & i & l2 & more & H & Hi & _)|[H|[_ H]]].
  - vm_compute. split; discriminate || reflexivity.
  - exfalso. destruct l1 as [|a [|b l1]]; cbn in H; injection H; intros; subst; cbn in Hi; discriminate.
  - split; [apply H|reflexivity].
  - exfalso. vm_compute in H. by apply elem_of_nil in H.
Defined.

Lemma starvation_bound_witness : enqueued_at track_item < enqueued_at playlist_item + 9600 * 1000000000.
Proof.
  apply (starvation_bound demo_queue 2000000000 track_item [playlist_item] playlist_item
    (demo_options TelegramBot KPlaylist) (demo_options Client KTrack)).
  - exact demo_reachable.
  - reflexivity.
  - left.
  - reflexivity.
  - reflexivity.
  - reflexivity.
  - cbn. lia.
  - cbn. lia.
Defined.
