(* ===== verification/StartTask.v ===== *)
(** * StartTask: the life of a rip job (crates/engine/src/orchestrator/{mod,inflight,events}.rs)

    [RipOrchestrator::start_task], [cancel_task], [terminalize] and the table of in-flight targets
    that deduplicates jobs, as a step relation over all the jobs of an orchestrator: each locked
    region is one step.  A job's identifier also stands for its [InflightEntry].  The fields of
    [ActiveRipTask] that are only displayed are left out, and the body of the job ([run_job]) is any
    delay with any result. *)
From S2P Require Import Prelude Text Music Priority.

Inductive TaskPhase : Type := Resolving | CheckingCache | Queued | Processing | Delivering | WaitingDuplicate.

Inductive TerminalTaskState : Type := TCompleted | TCancelled | TFailed.
#[export] Instance TerminalTaskState_eq_dec : EqDecision TerminalTaskState.
Proof. solve_decision. Defined.

Record InflightTargetKey := mkKey { key_kind : TargetKind; key_id : str; key_storefront : option str }.

#[export] Instance InflightTargetKey_eq_dec : EqDecision InflightTargetKey.
Proof. solve_decision. Defined.

#[export] Instance TargetKind_countable : Countable TargetKind.
Proof.
  refine (inj_countable' (fun k => match k with KTrack => 0%nat | KAlbum => 1%nat | KPlaylist => 2%nat | KArtist => 3%nat end)
    (fun n => match n with 0%nat => KTrack | 1%nat => KAlbum | 2%nat => KPlaylist | _ => KArtist end) _).
  by intros [].
Defined.

#[export] Instance InflightTargetKey_countable : Countable InflightTargetKey.
Proof.
  refine (inj_countable' (fun k => (key_kind k, key_id k, key_storefront k))
    (fun t => let '(k, i, s) := t in mkKey k i s) _).
  by intros [].
Defined.

(** [target_keys]: the storefront of the item, or the request's. *)
Definition target_keys (options : RipTaskOptions) : list InflightTargetKey :=
  (fun item => mkKey (target_kind item) (target_id item)
     (match storefront item with Some s => Some s | None => single_storefront options end))
    <$> parsed_items options.

(** The part of [ActiveRipTask] the control flow reads; [controller] is its cancellation token. *)
Record job := mkJob {
  keys : list InflightTargetKey;
  controller : bool;
  is_cancelled : bool;
  cancelled_by : option str;
  completed : bool;
  phase : TaskPhase;
  terminal_state : option TerminalTaskState;
}.

Inductive event : Type := ECreated (id : Z) | ETerminal (id : Z) (state : TerminalTaskState).

(** Where [start_task] stands. *)
Inductive pc : Type :=
| AtLookup                                (* loop head: the lookup of the in-flight table *)
| AtInsert                                (* nothing found; before the second lock *)
| AtWait (owner : Z)                      (* found; before [notify.notified()] is created *)
| Waiting (owner : Z)                     (* in the [select!] *)
| Running                                 (* in [run_job], holding an armed [InflightGuard] *)
| AtNotify (result_ok : bool)             (* in [InflightGuard::finish]: keys removed *)
| AtRead (result_ok : bool)               (* before [is_cancelled] is read *)
| AtTerminalize (state : TerminalTaskState)
| AtRemove                                (* before [job_table_guard.remove()] *)
| Returned.

Record orchestrator := mkOrch {
  jobs : gmap Z job;                      (* every job ever started *)
  table : gset Z;                         (* those in the job table *)
  inflight_items : gmap InflightTargetKey Z;
  pcs : gmap Z pc;
  events : list event;
}.

Definition new : orchestrator := mkOrch ∅ ∅ ∅ ∅ [].

Definition set_pc (i : Z) (p : pc) (s : orchestrator) : orchestrator :=
  mkOrch (jobs s) (table s) (inflight_items s) (<[i := p]> (pcs s)) (events s).

Definition set_job (i : Z) (j : job) (s : orchestrator) : orchestrator :=
  mkOrch (<[i := j]> (jobs s)) (table s) (inflight_items s) (pcs s) (events s).

Definition emit (e : event) (s : orchestrator) : orchestrator :=
  mkOrch (jobs s) (table s) (inflight_items s) (pcs s) (events s ++ [e]).

Definition new_job (ks : list InflightTargetKey) : job := mkJob ks false false None false Resolving None.

(** The head of [start_task]: the job is shared, put in the table, and announced. *)
Definition start (i : Z) (options : RipTaskOptions) (s : orchestrator) : orchestrator :=
  emit (ECreated i)
    (mkOrch (<[i := new_job (target_keys options)]> (jobs s)) ({[i]} ∪ table s) (inflight_items s)
       (<[i := AtLookup]> (pcs s)) (events s)).

Definition with_phase (p : TaskPhase) (j : job) : job :=
  mkJob (keys j) (controller j) (is_cancelled j) (cancelled_by j) (completed j) p (terminal_state j).

(** The first lock of the loop. *)
Definition lookup_inflight (i : Z) (j : job) (s : orchestrator) : orchestrator :=
  match find_map (fun k => inflight_items s !! k) (keys j) with
  | Some owner => set_pc i (AtWait owner) (set_job i (with_phase WaitingDuplicate j) s)
  | None => set_pc i AtInsert s
  end.

(** The second lock. *)
Definition insert_inflight (i : Z) (j : job) (s : orchestrator) : orchestrator :=
  set_pc i Running
    (mkOrch (jobs s) (table s) (foldl (fun m k => <[k := i]> m) (inflight_items s) (keys j)) (pcs s) (events s)).

(** [InflightGuard::cleanup]: the keys are removed, whoever holds them by now; then the waiters on
    the entry's [Notify] at that moment are woken. *)
Definition cleanup_keys (i : Z) (j : job) (result_ok : bool) (s : orchestrator) : orchestrator :=
  set_pc i (AtNotify result_ok)
    (mkOrch (jobs s) (table s) (foldl (fun m k => delete k m) (inflight_items s) (keys j)) (pcs s) (events s)).

Definition wake (i : Z) (p : pc) : pc :=
  match p with Waiting owner => if owner =? i then AtLookup else p | _ => p end.

Definition notify_waiters (i : Z) (result_ok : bool) (s : orchestrator) : orchestrator :=
  set_pc i (AtRead result_ok) (mkOrch (jobs s) (table s) (inflight_items s) (wake i <$> pcs s) (events s)).

(** [terminalize]: the first one wins, and a cancelled job ends cancelled. *)
Definition terminalize (i : Z) (state : TerminalTaskState) (s : orchestrator) : orchestrator :=
  match jobs s !! i with
  | None => s
  | Some j =>
      match terminal_state j with
      | Some _ => s
      | None =>
          let state := if negb (bool_decide (state = TCancelled)) && (is_cancelled j || controller j)
                       then TCancelled else state in
          emit (ETerminal i state)
            (set_job i (mkJob (keys j) (controller j) (is_cancelled j) (cancelled_by j) true (phase j) (Some state)) s)
      end
  end.

Definition remove_from_table (i : Z) (s : orchestrator) : orchestrator :=
  set_pc i Returned (mkOrch (jobs s) (table s ∖ {[i]}) (inflight_items s) (pcs s) (events s)).

Definition cancel_task (i : Z) (by_ : option str) (s : orchestrator) : bool * orchestrator :=
  match (if decide (i ∈ table s) then jobs s !! i else None) with
  | None => (false, s)
  | Some j =>
      if is_cancelled j || bool_decide (is_Some (terminal_state j)) then (false, s)
      else (true, set_job i (mkJob (keys j) true true by_ (completed j) (phase j) (terminal_state j)) s)
  end.

(** One step of job [i], by its program counter. *)
Inductive job_step (i : Z) : orchestrator -> orchestrator -> Prop :=
| J_lookup s j : pcs s !! i = Some AtLookup -> jobs s !! i = Some j -> job_step i s (lookup_inflight i j s)
| J_insert s j : pcs s !! i = Some AtInsert -> jobs s !! i = Some j -> job_step i s (insert_inflight i j s)
| J_wait s owner : pcs s !! i = Some (AtWait owner) -> job_step i s (set_pc i (Waiting owner) s)
| J_cancelled s owner j :
    pcs s !! i = Some (Waiting owner) -> jobs s !! i = Some j -> controller j = true ->
    job_step i s (set_pc i AtRemove (terminalize i TCancelled s))
| J_cleanup s j ok :
    pcs s !! i = Some Running -> jobs s !! i = Some j -> job_step i s (cleanup_keys i j ok s)
| J_notify s ok : pcs s !! i = Some (AtNotify ok) -> job_step i s (notify_waiters i ok s)
| J_read s ok j :
    pcs s !! i = Some (AtRead ok) -> jobs s !! i = Some j ->
    job_step i s (set_pc i (AtTerminalize (if is_cancelled j then TCancelled
                                           else if (ok : bool) then TCompleted else TFailed)) s)
| J_terminalize s state :
    pcs s !! i = Some (AtTerminalize state) -> job_step i s (set_pc i AtRemove (terminalize i state s))
| J_remove s : pcs s !! i = Some AtRemove -> job_step i s (remove_from_table i s).

Inductive orch_step : orchestrator -> orchestrator -> Prop :=
| O_start i options s : pcs s !! i = None -> orch_step s (start i options s)
| O_job i s s' : job_step i s s' -> orch_step s s'
| O_cancel i by_ s : orch_step s (snd (cancel_task i by_ s)).

Definition reachable (s : orchestrator) : Prop := steps orch_step new s.

(** ** Invariants *)

Definition holds_keys (p : option pc) : Prop := p = Some Running.

(** The in-flight table only names running jobs, under their own keys. *)
Definition table_live (s : orchestrator) : Prop :=
  forall k owner, inflight_items s !! k = Some owner ->
    pcs s !! owner = Some Running /\ exists j, jobs s !! owner = Some j /\ k ∈ keys j.

Definition terminals (i : Z) (l : list event) : list TerminalTaskState :=
  omap (fun e => match e with ETerminal i' st => if i' =? i then Some st else None | _ => None end) l.

#[global] Arguments terminals : simpl never.

(** What a job's record, its terminal events and its program counter say of each other. *)
Definition ended (p : pc) : Prop := p = AtRemove \/ p = Returned.

Record job_ok (s : orchestrator) (i : Z) (p : pc) (j : job) : Prop := {
  jo_once : terminals i (events s) = match terminal_state j with Some st => [st] | None => [] end;
  jo_ended : is_Some (terminal_state j) <-> ended p;
  jo_completed : completed j = true <-> is_Some (terminal_state j);
  jo_cancel : is_cancelled j = controller j;
  jo_final st : terminal_state j = Some st -> is_cancelled j = true -> st = TCancelled;
}.

Definition jobs_ok (s : orchestrator) : Prop :=
  (forall i, is_Some (pcs s !! i) <-> is_Some (jobs s !! i)) /\
  (forall i p j, pcs s !! i = Some p -> jobs s !! i = Some j -> job_ok s i p j) /\
  (forall i, pcs s !! i = None -> terminals i (events s) = []).

(** ** Lemmas *)

Lemma foldl_insert_lookup (ks : list InflightTargetKey) i (m : gmap InflightTargetKey Z) k :
  foldl (fun m k => <[k := i]> m) m ks !! k = if decide (k ∈ ks) then Some i else m !! k.
Proof.
  revert m. induction ks as [|a ks IH]; intros m; simpl; [done|]. rewrite IH.
  destruct (decide (k ∈ ks)) as [Hin|Hin]; [by rewrite decide_True by (by right)|].
  destruct (decide (k = a)) as [->|Hne]; [by rewrite lookup_insert_eq, decide_True by left|].
  rewrite lookup_insert_ne by done. rewrite decide_False; [done|set_solver].
Qed.

Lemma foldl_delete_lookup (ks : list InflightTargetKey) (m : gmap InflightTargetKey Z) k :
  foldl (fun m k => delete k m) m ks !! k = if decide (k ∈ ks) then None else m !! k.
Proof.
  revert m. induction ks as [|a ks IH]; intros m; simpl; [done|]. rewrite IH.
  destruct (decide (k ∈ ks)) as [Hin|Hin]; [by rewrite decide_True by (by right)|].
  destruct (decide (k = a)) as [->|Hne]; [by rewrite lookup_delete_eq, decide_True by left|].
  rewrite lookup_delete_ne by done. rewrite decide_False; [done|set_solver].
Qed.

(** [s'] differs from [s] in the program counter of [i], which was not running, and in job [i]'s
    record except its keys. *)
Lemma table_live_frame s s' i :
  table_live s -> inflight_items s' = inflight_items s -> pcs s !! i <> Some Running ->
  (forall o, o <> i -> pcs s' !! o = Some Running <-> pcs s !! o = Some Running) ->
  (forall o, o <> i -> jobs s' !! o = jobs s !! o) -> table_live s'.
Proof.
  intros H Hm Hi Hpcs Hjobs k o Ho. rewrite Hm in Ho. destruct (H k o Ho) as [Hr (j & Hj & Hk)].
  assert (o <> i) by congruence. split; [by apply Hpcs|]. exists j. by rewrite Hjobs.
Qed.

Lemma terminalize_frame i st s :
  inflight_items (terminalize i st s) = inflight_items s /\ pcs (terminalize i st s) = pcs s /\
  forall o, o <> i -> jobs (terminalize i st s) !! o = jobs s !! o.
Proof.
  unfold terminalize. destruct (jobs s !! i) as [j|]; [|done]. destruct (terminal_state j); [done|].
  cbn. split_and!; try done. intros o Ho. by rewrite lookup_insert_ne.
Qed.

Lemma wake_running i p : wake i p = Running <-> p = Running.
Proof. destruct p as [| |o|o| | | | | |]; simpl; try done. by destruct (o =? i). Qed.

Lemma job_step_table i s s' : table_live s -> job_step i s s' -> table_live s'.
Proof.
  intros H Hs. destruct Hs as [s j Hp Hj|s j Hp Hj|s o Hp|s o j Hp Hj Hc|s j ok Hp Hj|s ok Hp|s ok j Hp Hj|s st Hp|s Hp].
  - unfold lookup_inflight. destruct (find_map _ (keys j));
      (apply (table_live_frame s _ i); [done|done|congruence|..]; cbn; intros o Ho; by rewrite ?lookup_insert_ne by congruence).
  - intros k o. cbn. rewrite foldl_insert_lookup. destruct (decide (k ∈ keys j)) as [Hk|Hk].
    + intros [= <-]. rewrite lookup_insert_eq. split; [done|by exists j].
    + intros Ho. destruct (H k o Ho) as [Hr Hj']. assert (o <> i) by congruence. by rewrite ?lookup_insert_ne by congruence.
  - apply (table_live_frame s _ i); [done|done|congruence|..]; cbn; intros o' Ho; by rewrite ?lookup_insert_ne by congruence.
  - destruct (terminalize_frame i TCancelled s) as (Hm & Hpcs & Hjobs).
    apply (table_live_frame s _ i); [done|done|congruence|..]; cbn; rewrite ?Hpcs; intros o' Ho;
      [by rewrite ?lookup_insert_ne by congruence|by apply Hjobs].
  - intros k o. cbn. rewrite foldl_delete_lookup. destruct (decide (k ∈ keys j)) as [Hk|Hk]; [done|].
    intros Ho. destruct (H k o Ho) as [Hr (j' & Hj' & Hk')].
    assert (o <> i) by (intros ->; rewrite Hj in Hj'; by simplify_eq). rewrite lookup_insert_ne by done. by eauto.
  - apply (table_live_frame s _ i); [done|done|congruence|..]; cbn; intros o Ho; [|done].
    rewrite lookup_insert_ne, lookup_fmap by done. destruct (pcs s !! o) as [p|]; cbn; [|done].
    split; intros [= E]; f_equal; by apply (wake_running i).
  - apply (table_live_frame s _ i); [done|done|congruence|..]; cbn; intros o' Ho; by rewrite ?lookup_insert_ne by congruence.
  - destruct (terminalize_frame i st s) as (Hm & Hpcs & Hjobs).
    apply (table_live_frame s _ i); [done|done|congruence|..]; cbn; rewrite ?Hpcs; intros o' Ho;
      [by rewrite ?lookup_insert_ne by congruence|by apply Hjobs].
  - apply (table_live_frame s _ i); [done|done|congruence|..]; cbn; intros o' Ho; by rewrite ?lookup_insert_ne by congruence.
Qed.

Lemma cancel_task_jobs i by_ s :
  let s' := snd (cancel_task i by_ s) in
  pcs s' = pcs s /\ inflight_items s' = inflight_items s /\ events s' = events s /\
  (jobs s' = jobs s \/ exists j, jobs s !! i = Some j /\ is_cancelled j = false /\ terminal_state j = None /\
    jobs s' = <[i := mkJob (keys j) true true by_ (completed j) (phase j) (terminal_state j)]> (jobs s)).
Proof.
  unfold cancel_task. destruct (decide (i ∈ table s)); [|by auto]. destruct (jobs s !! i) as [j|] eqn:Hj; [|by auto].
  destruct (is_cancelled j || _) eqn:E; [by auto|]. cbn. split_and!; try done. right. exists j.
  apply orb_false_iff in E as [E1 E2]. apply bool_decide_eq_false in E2.
  split_and!; try done. destruct (terminal_state j) eqn:Et; [|done]. exfalso. by apply E2.
Qed.

Lemma orch_step_table s s' : table_live s -> orch_step s s' -> table_live s'.
Proof.
  intros H Hs. destruct Hs as [i o s Hi|i s s' Hs|i by_ s]; [|by eapply job_step_table|].
  - apply (table_live_frame s _ i); [done|done|congruence|..]; cbn; intros o' Ho; by rewrite ?lookup_insert_ne by congruence.
  - destruct (cancel_task_jobs i by_ s) as (Hp & Hm & _ & Hj). intros k o Ho. rewrite Hm in Ho.
    destruct (H k o Ho) as [Hr (j & Hjo & Hk)]. rewrite Hp. split; [done|].
    destruct Hj as [->|(j' & Hj' & _ & _ & ->)]; [by exists j|].
    destruct (decide (i = o)) as [->|Hne]; [|exists j; by rewrite ?lookup_insert_ne by congruence].
    rewrite lookup_insert_eq. eexists. split; [done|]. cbn. by simplify_eq.
Qed.

Lemma reachable_table_live s : reachable s -> table_live s.
Proof. intros H. refine (steps_invariant orch_step table_live orch_step_table new s H _). intros k o Ho. done. Qed.

Lemma terminals_snoc i l e :
  terminals i (l ++ [e]) = terminals i l ++ match e with ETerminal i' st => if i' =? i then [st] else [] | _ => [] end.
Proof. unfold terminals. rewrite omap_app. destruct e as [i'|i' st]; cbn; [done|]. by destruct (i' =? i). Qed.

(** A step of job [i] leaves the others as they were, up to where they stand while they wait. *)
Lemma jobs_ok_update s s' i p j :
  jobs_ok s ->
  (forall o, o <> i -> jobs s' !! o = jobs s !! o /\ terminals o (events s') = terminals o (events s) /\
     (is_Some (pcs s' !! o) <-> is_Some (pcs s !! o)) /\
     (forall p', pcs s' !! o = Some p' -> exists p, pcs s !! o = Some p /\ (ended p <-> ended p'))) ->
  pcs s' !! i = Some p -> jobs s' !! i = Some j -> job_ok s' i p j -> jobs_ok s'.
Proof.
  intros (Hdom & Hok & Hnone) Hother Hp Hj Hnew. split_and!.
  - intros o. destruct (decide (o = i)) as [->|Ho]; [by rewrite Hp, Hj|].
    destruct (Hother o Ho) as (-> & _ & -> & _). apply Hdom.
  - intros o p' j' Hp' Hj'. destruct (decide (o = i)) as [->|Ho]; [by simplify_eq|].
    destruct (Hother o Ho) as (Hjo & Ht & _ & Hpc). rewrite Hjo in Hj'.
    destruct (Hpc p' Hp') as (p0 & Hp0 & He). destruct (Hok o p0 j' Hp0 Hj') as [H1 H2 H3 H4 H5].
    split; [by rewrite Ht|by rewrite <-He|done..].
  - intros o Ho'. destruct (decide (o = i)) as [->|Ho]; [congruence|].
    destruct (Hother o Ho) as (_ & -> & Hs & _). apply Hnone. destruct (pcs s !! o) eqn:E; [|done].
    destruct (proj2 Hs ltac:(done)) as [? ?]. congruence.
Qed.

(** The usual case: only the program counter of [i] moves, and neither end is a final one. *)
Lemma jobs_ok_move s i p p' j m t :
  jobs_ok s -> pcs s !! i = Some p -> jobs s !! i = Some j -> (ended p <-> ended p') ->
  forall j', terminal_state j' = terminal_state j -> controller j' = controller j ->
  is_cancelled j' = is_cancelled j -> completed j' = completed j ->
  jobs_ok (mkOrch (<[i := j']> (jobs s)) t m (<[i := p']> (pcs s)) (events s)).
Proof.
  intros H Hp Hj He j' E1 E2 E3 E4. apply (jobs_ok_update s _ i p' j'); cbn; [done| |by rewrite lookup_insert_eq..|].
  - intros o Ho. rewrite !lookup_insert_ne by done. split_and!; [done..|]. intros q Hq. by exists q.
  - destruct H as (_ & Hok & _). destruct (Hok i p j Hp Hj) as [H1 H2 H3 H4 H5].
    split; cbn; rewrite ?E1, ?E2, ?E3, ?E4; [done|by rewrite H2|done..].
Qed.

Lemma jobs_insert_id s i j : jobs s !! i = Some j -> <[i := j]> (jobs s) = jobs s.
Proof. apply insert_id. Qed.

Lemma jobs_ok_pc s i p p' j m t :
  jobs_ok s -> pcs s !! i = Some p -> jobs s !! i = Some j -> (ended p <-> ended p') ->
  jobs_ok (mkOrch (jobs s) t m (<[i := p']> (pcs s)) (events s)).
Proof.
  intros H Hp Hj He. rewrite <-(jobs_insert_id s i j Hj) at 1. by eapply jobs_ok_move.
Qed.

Lemma jobs_ok_job s i p : jobs_ok s -> pcs s !! i = Some p -> exists j, jobs s !! i = Some j.
Proof. intros (Hdom & _) Hp. destruct (proj1 (Hdom i) ltac:(by eexists)) as [j Hj]. by exists j. Qed.

Lemma jobs_ok_terminalize s i p st :
  jobs_ok s -> pcs s !! i = Some p -> ~ ended p -> jobs_ok (set_pc i AtRemove (terminalize i st s)).
Proof.
  intros H Hp He. destruct (jobs_ok_job s i p H Hp) as [j Hj].
  pose proof H as (_ & Hok & _). destruct (Hok i p j Hp Hj) as [H1 H2 H3 H4 H5].
  unfold terminalize. rewrite Hj. destruct (terminal_state j) as [st'|] eqn:Et; [exfalso; apply He, H2; by eexists|].
  cbv zeta. set (st2 := if negb (bool_decide (st = TCancelled)) && _ then TCancelled else st).
  apply (jobs_ok_update s _ i AtRemove
    (mkJob (keys j) (controller j) (is_cancelled j) (cancelled_by j) true (phase j) (Some st2)));
    cbn; [done| |by rewrite lookup_insert_eq..|].
  - intros o Ho. rewrite !lookup_insert_ne by done. rewrite terminals_snoc, (proj2 (Z.eqb_neq i o)) by done.
    rewrite app_nil_r. split_and!; [done..|]. intros q Hq. by exists q.
  - split; cbn; try done.
    + by rewrite terminals_snoc, H1, Z.eqb_refl.
    + split; [by left|by eexists].
    + intros st0 E Hc. assert (st0 = st2) as -> by congruence. unfold st2. rewrite Hc, orb_true_l, andb_true_r.
      by case_bool_decide.
Qed.

Lemma not_ended_iff p p' : ~ ended p -> ~ ended p' -> ended p <-> ended p'.
Proof. tauto. Qed.

Ltac ended_tac := unfold ended; naive_solver.

Lemma job_step_jobs i s s' : jobs_ok s -> job_step i s s' -> jobs_ok s'.
Proof.
  intros H Hs. destruct Hs as [s j Hp Hj|s j Hp Hj|s o Hp|s o j Hp Hj Hc|s j ok Hp Hj|s ok Hp|s ok j Hp Hj|s st Hp|s Hp];
    try (destruct (jobs_ok_job s i _ H Hp) as [j Hj]).
  - unfold lookup_inflight. destruct (find_map _ (keys j)).
    + eapply (jobs_ok_move s i _ _ j); try done. ended_tac.
    + eapply (jobs_ok_pc s i); try done. ended_tac.
  - eapply (jobs_ok_pc s i); try done. ended_tac.
  - eapply (jobs_ok_pc s i); try done. ended_tac.
  - eapply jobs_ok_terminalize; try done. ended_tac.
  - eapply (jobs_ok_pc s i); try done. ended_tac.
  - apply (jobs_ok_update s _ i (AtRead ok) j); cbn; [done| |by rewrite lookup_insert_eq|done|].
    + intros o Ho. rewrite !lookup_insert_ne, lookup_fmap by done. split_and!; [done|done| |].
      * by destruct (pcs s !! o).
      * destruct (pcs s !! o) as [q|]; cbn; [|done]. intros q' [= <-]. exists q. split; [done|].
        destruct q as [| |o'|o'| | | | | |]; simpl; try done. destruct (o' =? i); [ended_tac|done].
    + destruct H as (_ & Hok & _). destruct (Hok i _ j Hp Hj) as [H1 H2 H3 H4 H5].
      split; cbn; [done| |done..]. rewrite H2. ended_tac.
  - eapply (jobs_ok_pc s i); try done. ended_tac.
  - eapply jobs_ok_terminalize; try done. ended_tac.
  - eapply (jobs_ok_pc s i); try done. ended_tac.
Qed.

Lemma orch_step_jobs s s' : jobs_ok s -> orch_step s s' -> jobs_ok s'.
Proof.
  intros H Hs. destruct Hs as [i o s Hi|i s s' Hs|i by_ s]; [|by eapply job_step_jobs|].
  - apply (jobs_ok_update s _ i AtLookup (new_job (target_keys o))); cbn;
      [done| |by rewrite lookup_insert_eq..|].
    + intros o' Ho. rewrite !lookup_insert_ne by done. rewrite terminals_snoc, app_nil_r.
      split_and!; [done..|]. intros q Hq. by exists q.
    + destruct H as (_ & _ & Hnone). split; cbn; try done.
      * by rewrite terminals_snoc, Hnone.
      * split; [by intros []|ended_tac].
  - destruct (cancel_task_jobs i by_ s) as (Hp & _ & He & Hj). destruct Hj as [Hj|(j & Hj' & Hc & Ht & Hj)].
    + destruct H as (Hdom & Hok & Hnone). split_and!; rewrite ?Hp, ?Hj, ?He; [done| |done].
      intros o p j Hpo Hjo. destruct (Hok o p j Hpo Hjo). split; rewrite ?He; done.
    + pose proof H as (Hdom & Hok & Hnone). destruct (proj2 (Hdom i) ltac:(by eexists)) as [p Hpi].
      destruct (Hok i p j Hpi Hj') as [H1 H2 H3 H4 H5].
      apply (jobs_ok_update s _ i p (mkJob (keys j) true true by_ (completed j) (phase j) (terminal_state j)));
        [done| |by rewrite Hp|by rewrite Hj, lookup_insert_eq|].
      * intros o Ho. rewrite Hp, Hj, He, lookup_insert_ne by done. split_and!; [done..|]. intros q Hq. by exists q.
      * split; cbn; rewrite ?He; try done. intros st. rewrite Ht. done.
Qed.

Lemma reachable_jobs_ok s : reachable s -> jobs_ok s.
Proof.
  intros H. refine (steps_invariant orch_step jobs_ok orch_step_jobs new s H _).
  split_and!; cbn; try done. intros i. by rewrite !lookup_empty.
Qed.

(** ** Schedules

    The deterministic reading of the relation: the next step of a job, and the run of a schedule. *)
Definition next (i : Z) (ok : bool) (s : orchestrator) : option orchestrator :=
  j ← jobs s !! i;
  match pcs s !! i with
  | Some AtLookup => Some (lookup_inflight i j s)
  | Some AtInsert => Some (insert_inflight i j s)
  | Some (AtWait owner) => Some (set_pc i (Waiting owner) s)
  | Some (Waiting _) => if controller j then Some (set_pc i AtRemove (terminalize i TCancelled s)) else None
  | Some Running => Some (cleanup_keys i j ok s)
  | Some (AtNotify ok) => Some (notify_waiters i ok s)
  | Some (AtRead ok) =>
      Some (set_pc i (AtTerminalize (if is_cancelled j then TCancelled
                                     else if (ok : bool) then TCompleted else TFailed)) s)
  | Some (AtTerminalize state) => Some (set_pc i AtRemove (terminalize i state s))
  | Some AtRemove => Some (remove_from_table i s)
  | Some Returned | None => None
  end.

Inductive action : Type := AStart (i : Z) (options : RipTaskOptions) | AStep (i : Z) | ACancel (i : Z).

Definition act (a : action) (s : orchestrator) : option orchestrator :=
  match a with
  | AStart i options => if decide (pcs s !! i = None) then Some (start i options s) else None
  | AStep i => next i true s
  | ACancel i => Some (snd (cancel_task i None s))
  end.

Fixpoint exec (acts : list action) (s : orchestrator) : option orchestrator :=
  match acts with
  | [] => Some s
  | a :: acts => s' ← act a s; exec acts s'
  end.

Lemma next_sound i ok s s' : next i ok s = Some s' -> job_step i s s'.
Proof.
  unfold next. destruct (jobs s !! i) as [j|] eqn:Hj; cbn; [|done].
  destruct (pcs s !! i) as [[| |o|o| |ok'|ok'|st| |]|] eqn:Hp; try done.
  4: { destruct (controller j) eqn:Hc; [|done]. intros [= <-]. by eapply J_cancelled. }
  all: intros [= <-]; by econstructor.
Qed.

Lemma exec_sound acts s s' : exec acts s = Some s' -> steps orch_step s s'.
Proof.
  revert s. induction acts as [|a acts IH]; intros s; cbn; [intros [= <-]; apply steps_refl|].
  destruct (act a s) as [s1|] eqn:Ha; cbn; [|done]. intros H. eapply steps_cons; [|by apply IH].
  destruct a as [i o|i|i]; cbn in Ha.
  - destruct (decide _); [|done]. injection Ha as <-. by apply O_start.
  - eapply O_job. by eapply next_sound.
  - injection Ha as <-. apply O_cancel.
Qed.

(** Two requests for the same track. *)
Definition demo_request : RipTaskOptions :=
  mkRipOptions 1 1 None 1 false false false None [mkTarget (lit "42") KTrack None] None false None PrimaryOnly
    JobOrigin_default.

Definition demo_key : InflightTargetKey := mkKey KTrack (lit "42") None.

(** Both look the table up before either inserts. *)
Definition race_schedule : list action :=
  [AStart 1 demo_request; AStart 2 demo_request; AStep 1; AStep 2; AStep 1; AStep 2].

(** The first job ends between the second one's lookup and its wait. *)
Definition lost_wakeup_schedule : list action :=
  [AStart 1 demo_request; AStep 1; AStep 1; AStart 2 demo_request; AStep 2;
   AStep 1; AStep 1; AStep 1; AStep 1; AStep 1; AStep 2].

(** The second job waits in time. *)
Definition dedup_schedule : list action :=
  [AStart 1 demo_request; AStep 1; AStep 1; AStart 2 demo_request; AStep 2; AStep 2].

Definition after (acts : list action) : orchestrator := default new (exec acts new).

Lemma after_reachable acts : exec acts new <> None -> reachable (after acts).
Proof. unfold after. destruct (exec acts new) as [s|] eqn:Hs; [|done]. intros _. by eapply exec_sound. Qed.

(** ** More invariants *)

Definition cancelled_at (i : Z) (s : orchestrator) : Prop :=
  exists j, jobs s !! i = Some j /\ is_cancelled j = true.

Lemma cancelled_terminalize i o st s : cancelled_at i s -> cancelled_at i (terminalize o st s).
Proof.
  intros (j & Hj & Hc). unfold terminalize. destruct (jobs s !! o) as [j'|] eqn:Ho; [|by exists j].
  destruct (terminal_state j'); [by exists j|]. destruct (decide (o = i)) as [->|Hne].
  - eexists. split; [apply lookup_insert_eq|]. cbn. by simplify_eq.
  - exists j. split; [|done]. cbn. by rewrite lookup_insert_ne.
Qed.

Lemma cancelled_step i s s' : jobs_ok s -> cancelled_at i s -> orch_step s s' -> cancelled_at i s'.
Proof.
  intros Hok Hc Hs. pose proof Hc as (j & Hj & Hcj). destruct Hs as [o opt s Ho|o s s' Hs|o by_ s].
  - assert (o <> i). { intros ->. destruct Hok as (Hdom & _). destruct (proj2 (Hdom i) ltac:(by eexists)). congruence. }
    exists j. cbn. by rewrite lookup_insert_ne.
  - destruct Hs as [s j' Hp Hj'|s j' Hp Hj'|s o' Hp|s o' j' Hp Hj' Hc'|s j' ok Hp Hj'|s ok Hp|s ok j' Hp Hj'|s st Hp|s Hp];
      try (by exists j); try by apply cancelled_terminalize.
    unfold lookup_inflight. destruct (find_map _ (keys j')); [|by exists j].
    destruct (decide (o = i)) as [->|Hne].
    + exists (with_phase WaitingDuplicate j'). cbn. rewrite lookup_insert_eq. simplify_eq. done.
    + exists j. cbn. by rewrite lookup_insert_ne.
  - destruct (cancel_task_jobs o by_ s) as (_ & _ & _ & [Hjs|(j' & Hj' & _ & _ & Hjs)]).
    + exists j. by rewrite Hjs.
    + destruct (decide (o = i)) as [->|Hne]; [eexists; by rewrite Hjs, lookup_insert_eq|].
      exists j. by rewrite Hjs, lookup_insert_ne.
Qed.

Lemma cancelled_steps i s s' : jobs_ok s -> cancelled_at i s -> steps orch_step s s' -> cancelled_at i s'.
Proof.
  intros Hok Hc Hs. assert (jobs_ok s' /\ cancelled_at i s') as [_ H]; [|done].
  refine (steps_invariant orch_step (fun s => jobs_ok s /\ cancelled_at i s) _ s s' Hs (conj Hok Hc)).
  intros s1 s2 [H1 H2] Hstep. split; [by eapply orch_step_jobs|by eapply cancelled_step].
Qed.

(** A job that waits for one that is over can only be cancelled. *)
Definition stuck (i o : Z) (s : orchestrator) : Prop :=
  jobs_ok s /\ pcs s !! o = Some Returned /\ (pcs s !! i = Some (Waiting o) \/ cancelled_at i s).

Lemma stuck_step i o s s' : i <> o -> stuck i o s -> orch_step s s' -> stuck i o s'.
Proof.
  intros Hne (Hok & Ho & Hi) Hs. split; [by eapply orch_step_jobs|].
  assert (Hcan : cancelled_at i s -> pcs s' !! i = Some (Waiting o) \/ cancelled_at i s')
    by (intros; right; by eapply cancelled_step).
  destruct Hs as [k opt s Hk|k s s' Hs|k by_ s].
  - split; [cbn; by rewrite lookup_insert_ne by congruence|].
    destruct Hi as [Hi|Hi]; [left; cbn; by rewrite lookup_insert_ne by congruence|].
    right. eapply cancelled_step; [exact Hok|done|by apply O_start].
  - assert (Hpc : pcs s' !! o = Some Returned /\ (pcs s !! i = Some (Waiting o) ->
      pcs s' !! i = Some (Waiting o) \/ cancelled_at i s)); [|destruct Hpc as [? Hpc]; split; [done|naive_solver]].
    destruct (decide (k = o)) as [->|Hko]; [destruct Hs; congruence|].
    assert (Hframe : forall p m, (m = pcs s \/ m = wake k <$> pcs s) ->
      (<[k := p]> m : gmap Z pc) !! o = Some Returned /\
      (k <> i -> pcs s !! i = Some (Waiting o) -> (<[k := p]> m : gmap Z pc) !! i = Some (Waiting o))).
    { intros p m Hm. split; [|intros Hki Hw]; rewrite lookup_insert_ne by done; destruct Hm as [-> | ->];
        rewrite ?lookup_fmap, ?Ho, ?Hw; try done. cbn. by rewrite (proj2 (Z.eqb_neq o k)) by congruence. }
    assert (Hterm : forall st, pcs (terminalize k st s) = pcs s)
      by (intros st; by destruct (terminalize_frame k st s) as (_ & ? & _)).
    destruct (decide (k = i)) as [->|Hki].
    + split.
      * destruct Hs; cbn; try (apply Hframe; by auto); try (rewrite Hterm; apply Hframe; by auto).
        unfold lookup_inflight. destruct (find_map _ _); cbn; apply Hframe; by auto.
      * intros Hw. destruct Hs; try congruence. right. exists j. split; [done|].
        destruct Hok as (_ & Hok & _). by rewrite (jo_cancel _ _ _ _ (Hok i _ j ltac:(done) ltac:(done))).
    + split; [|intros Hw; left].
      * destruct Hs; cbn; try (apply Hframe; by auto); try (rewrite Hterm; apply Hframe; by auto).
        unfold lookup_inflight. destruct (find_map _ _); cbn; apply Hframe; by auto.
      * destruct Hs; cbn; try (apply Hframe; by auto); try (rewrite Hterm; apply Hframe; by auto).
        unfold lookup_inflight. destruct (find_map _ _); cbn; apply Hframe; by auto.
  - destruct (cancel_task_jobs k by_ s) as (Hp & _). rewrite Hp. split; [done|]. destruct Hi; [by left|].
    right. eapply cancelled_step; [done|done|apply O_cancel].
Qed.

(** ** Properties *)

(** C6: the in-flight table never goes stale: every entry names a job that is running at that
    moment and was asked for that very target. *)
Theorem inflight_table_live s k owner :
  reachable s -> inflight_items s !! k = Some owner ->
  pcs s !! owner = Some Running /\ exists j, jobs s !! owner = Some j /\ k ∈ keys j.
Proof. intros H. by apply reachable_table_live. Qed.

Lemma inflight_table_live_witness : pcs (after dedup_schedule) !! 1 = Some Running.
Proof.
  apply (inflight_table_live (after dedup_schedule) demo_key 1);
    [apply after_reachable; by vm_compute|by vm_compute].
Defined.

(** C5: a job ends exactly once: one terminal event when it has returned, none or one before, and
    after a [cancel_task] that answered true that event is the cancellation, whatever happens. *)
Theorem job_ends_once s i j :
  reachable s -> jobs s !! i = Some j ->
  (pcs s !! i = Some Returned -> exists st, terminals i (events s) = [st] /\ completed j = true) /\
  (length (terminals i (events s)) <= 1)%nat /\
  (forall by_ s' s'', cancel_task i by_ s = (true, s') -> steps orch_step s' s'' ->
     pcs s'' !! i = Some Returned -> terminals i (events s'') = [TCancelled]).
Proof.
  intros H Hj. pose proof (reachable_jobs_ok s H) as (Hdom & Hok & _).
  destruct (proj2 (Hdom i) ltac:(by eexists)) as [p Hp]. destruct (Hok i p j Hp Hj) as [H1 H2 H3 H4 H5].
  split_and!.
  - intros Hr. assert (p = Returned) as -> by congruence.
    destruct (proj2 H2) as [st Hst]; [by right|]. exists st. rewrite H1, Hst. split; [done|]. apply H3. by eexists.
  - rewrite H1. destruct (terminal_state j); simpl; lia.
  - intros by_ s' s'' Hc Hs Hr.
    assert (H' : reachable s').
    { eapply steps_trans; [exact H|]. eapply steps_cons; [apply (O_cancel i by_)|]. rewrite Hc. apply steps_refl. }
    assert (Hcan : cancelled_at i s').
    { unfold cancel_task in Hc. destruct (if decide _ then _ else _); [|done].
      destruct (_ || _); [done|]. injection Hc as <-. eexists. cbn. by rewrite lookup_insert_eq. }
    pose proof (cancelled_steps i s' s'' (reachable_jobs_ok s' H') Hcan Hs) as (j2 & Hj2 & Hc2).
    assert (H'' : reachable s'') by (by eapply steps_trans).
    destruct (reachable_jobs_ok s'' H'') as (_ & Hok'' & _).
    destruct (Hok'' i _ j2 Hr Hj2) as [E1 E2 _ _ E5]. destruct (proj2 E2) as [st Hst]; [by right|].
    rewrite E1, Hst. by rewrite (E5 st Hst Hc2).
Qed.

Lemma job_ends_once_witness :
  (length (terminals 1 (events (after lost_wakeup_schedule))) <= 1)%nat.
Proof.
  destruct (jobs (after lost_wakeup_schedule) !! 1) as [j|] eqn:E; [|vm_compute in E; discriminate].
  apply (job_ends_once (after lost_wakeup_schedule) 1 j); [apply after_reachable; by vm_compute|exact E].
Defined.

(** The deduplication is not atomic: the lookup and the insertion are two critical sections, so
    two jobs for the same target can both miss the table and run at the same time. *)
Theorem inflight_dedup_race :
  exists s j1 j2, reachable s /\ pcs s !! 1 = Some Running /\ pcs s !! 2 = Some Running /\
    jobs s !! 1 = Some j1 /\ jobs s !! 2 = Some j2 /\ demo_key ∈ keys j1 /\ demo_key ∈ keys j2.
Proof.
  exists (after race_schedule), (new_job [demo_key]), (new_job [demo_key]).
  split; [apply after_reachable; by vm_compute|]. split_and!; [by vm_compute..|cbn; left|cbn; left].
Qed.

(** The wakeup of a duplicate can be lost: the job it waits for may end after the lookup and
    before the wait begins, and then nothing but a cancellation ever moves the duplicate on. *)
Theorem duplicate_wakeup_lost :
  exists s, reachable s /\ pcs s !! 1 = Some Returned /\ pcs s !! 2 = Some (Waiting 1) /\
    forall s', steps orch_step s s' -> pcs s' !! 2 = Some (Waiting 1) \/ cancelled_at 2 s'.
Proof.
  exists (after lost_wakeup_schedule). assert (H : reachable (after lost_wakeup_schedule))
    by (apply after_reachable; by vm_compute).
  split; [done|]. split; [by vm_compute|]. split; [by vm_compute|]. intros s' Hs.
  assert (stuck 2 1 s') as (_ & _ & ?); [|done].
  refine (steps_invariant orch_step (stuck 2 1) _ _ s' Hs _).
  - intros s1 s2. by apply stuck_step.
  - split; [by apply reachable_jobs_ok|]. split; [by vm_compute|left; by vm_compute].
Qed.
