(* ===== verification/Settings.v ===== *)
(** * Settings: the operator's settings (crates/core/src/settings.rs)

    The ripping modes and their textual form, the permission gates, the default storefront, and the
    lyrics endpoint behind its lock.  The URL parser is third-party: [parse_url] is a parameter. *)
From S2P Require Import Prelude Text.

Inductive RippingMode : Type := Live | CacheOnly | Paused.
#[export] Instance RippingMode_eq_dec : EqDecision RippingMode.
Proof. solve_decision. Defined.

Definition mode_as_str (m : RippingMode) : str :=
  match m with Live => lit "live" | CacheOnly => lit "cache_only" | Paused => lit "paused" end.

Definition mode_parse (value : str) : option RippingMode :=
  if bool_decide (value = lit "live") then Some Live
  else if bool_decide (value = lit "cache_only") then Some CacheOnly
  else if bool_decide (value = lit "paused") then Some Paused
  else None.

(** The [extra] map of unknown JSON keys is carried around and never read. *)
Record BotSettings := mkSettings {
  ripping_mode : RippingMode;
  album_rip_enabled : bool; playlist_rip_enabled : bool; artist_rip_enabled : bool;
  txt_rip_enabled : bool; multi_link_rip_enabled : bool; apple_rip_enabled : bool;
  stream_public_url : option str; stream_server_port : Z;
  default_storefront : str; lyricsporn_api_url : option str;
}.

Definition FALLBACK_STOREFRONT : str := lit "in".

Definition default_settings : BotSettings :=
  mkSettings Live true true true true true true None 4444 FALLBACK_STOREFRONT None.

Definition can_rip_live (s : BotSettings) (is_admin : bool) : bool :=
  if is_admin then true else bool_decide (ripping_mode s = Live).
Definition can_rip_apple (s : BotSettings) (is_admin : bool) : bool := is_admin || apple_rip_enabled s.
Definition can_serve_cache (s : BotSettings) (is_admin : bool) : bool :=
  if is_admin then true else negb (bool_decide (ripping_mode s = Paused)).
Definition can_rip_album (s : BotSettings) (is_admin : bool) : bool := is_admin || album_rip_enabled s.
Definition can_rip_playlist (s : BotSettings) (is_admin : bool) : bool := is_admin || playlist_rip_enabled s.
Definition can_rip_artist (s : BotSettings) (is_admin : bool) : bool := is_admin || artist_rip_enabled s.
Definition can_rip_txt (s : BotSettings) (is_admin : bool) : bool := is_admin || txt_rip_enabled s.
Definition can_rip_multi_link (s : BotSettings) (is_admin : bool) : bool := is_admin || multi_link_rip_enabled s.

Definition cycled_mode (s : BotSettings) : RippingMode :=
  match ripping_mode s with Live => CacheOnly | CacheOnly => Paused | Paused => Live end.

Definition resolve_default_storefront (s : BotSettings) : str :=
  let trimmed := trim (default_storefront s) in
  if bool_decide (trimmed = []) then FALLBACK_STOREFRONT else trimmed.

(** What the source asks of a parsed URL. *)
Record url := mkUrl {
  scheme : str; host_str : option str; username : str; password : option str;
  query : option str; fragment : option str;
}.

Section Url.
Variable parse_url : str -> option url.

Definition normalize_lyricsporn_api_url (value : str) : option str :=
  let trimmed := trim_end_by (Z.eqb 47) (trim value) in
  parsed ← parse_url trimmed;
  if negb (bool_decide (scheme parsed = lit "http") || bool_decide (scheme parsed = lit "https")) ||
     bool_decide (host_str parsed = None) || negb (bool_decide (username parsed = [])) ||
     bool_decide (is_Some (password parsed)) || bool_decide (is_Some (query parsed)) ||
     bool_decide (is_Some (fragment parsed))
  then None else Some trimmed.

(** [LyricspornApiEndpoint]: the value behind the lock. *)
Definition endpoint := option str.

Definition endpoint_get (e : endpoint) : option str := e.

Definition endpoint_set (value : option str) (e : endpoint) : bool * endpoint :=
  match value with
  | Some v =>
      match normalize_lyricsporn_api_url v with
      | Some v => (true, Some v)
      | None => (false, e)
      end
  | None => (true, None)
  end.

Definition endpoint_new (value : option str) : endpoint := snd (endpoint_set value None).

(** A base URL to which a path can be appended, without credentials. *)
Definition good_base (v : str) : Prop :=
  (forall s, v <> s ++ [47]) /\
  exists u, parse_url v = Some u /\ (scheme u = lit "http" \/ scheme u = lit "https") /\
    is_Some (host_str u) /\ username u = [] /\ password u = None /\ query u = None /\ fragment u = None.

Lemma trim_end_by_last p s a : trim_end_by p s <> [] -> last (trim_end_by p s) = Some a -> p a = false.
Proof.
  unfold trim_end_by. intros _. generalize (reverse s) as l. induction l as [|c l IH]; simpl; [done|].
  destruct (p c) eqn:E; [exact IH|]. rewrite reverse_cons, last_snoc. by intros [= <-].
Qed.

Lemma normalize_good v v' : normalize_lyricsporn_api_url v = Some v' -> good_base v'.
Proof.
  unfold normalize_lyricsporn_api_url. set (t := trim_end_by _ _).
  destruct (parse_url t) as [u|] eqn:Hp; cbn; [|done].
  destruct (negb _ || _ || _ || _ || _ || _) eqn:E; [done|]. intros [= <-]. split.
  - intros s Hs. assert (Hl : last t = Some 47) by (by rewrite Hs, last_snoc).
    apply trim_end_by_last in Hl; [by vm_compute in Hl|]. unfold t in Hs. rewrite Hs. by destruct s.
  - exists u. split; [done|]. rewrite !orb_false_iff, !negb_false_iff, orb_true_iff in E.
    rewrite !bool_decide_eq_true, !bool_decide_eq_false in E.
    destruct E as (((((Hs & Hh) & Hu) & Hpw) & Hq) & Hfr).
    split_and!; try done; [by destruct (host_str u)|by apply eq_None_not_Some..].
Qed.

End Url.

(** ** Properties *)

(** The gates are monotone: an administrator passes every one, a mode that lets users rip lets
    them read the cache, and cycling the mode visits the three modes in turn; the stored form of a
    mode reads back. *)
Theorem settings_gates s :
  (can_rip_live s false = true -> can_serve_cache s false = true) /\
  Forall (fun gate : BotSettings -> bool -> bool => gate s true = true)
    [can_rip_live; can_rip_apple; can_serve_cache; can_rip_album; can_rip_playlist; can_rip_artist;
     can_rip_txt; can_rip_multi_link] /\
  (forall m, mode_parse (mode_as_str m) = Some m) /\
  (forall m, exists k, (k < 3)%nat /\ Nat.iter k (fun m => cycled_mode (mkSettings m
      (album_rip_enabled s) (playlist_rip_enabled s) (artist_rip_enabled s) (txt_rip_enabled s)
      (multi_link_rip_enabled s) (apple_rip_enabled s) (stream_public_url s) (stream_server_port s)
      (default_storefront s) (lyricsporn_api_url s))) (ripping_mode s) = m).
Proof.
  split_and!.
  - unfold can_rip_live, can_serve_cache. by destruct (ripping_mode s).
  - repeat (apply Forall_cons; split; [done|]). apply Forall_nil_2.
  - by intros [].
  - intros m. destruct (ripping_mode s), m;
      first [exists 0%nat; split; [lia|reflexivity] | exists 1%nat; split; [lia|reflexivity]
            | exists 2%nat; split; [lia|reflexivity]].
Qed.

(** Whatever sequence of updates is made, the lyrics endpoint is unset or a plain HTTP base URL
    without trailing slash, credentials, query or fragment; a rejected update changes nothing. *)
Theorem endpoint_always_good parse_url first updates :
  let e := foldl (fun e v => snd (endpoint_set parse_url v e)) (endpoint_new parse_url first) updates in
  (forall v, endpoint_get e = Some v -> good_base parse_url v) /\
  (forall v, fst (endpoint_set parse_url v e) = false -> snd (endpoint_set parse_url v e) = e).
Proof.
  cbv zeta. set (good := fun e : endpoint => forall v, endpoint_get e = Some v -> good_base parse_url v).
  assert (Hset : forall v e, good e -> good (snd (endpoint_set parse_url v e))).
  { intros [v|] e He; cbn; [|done]. destruct (normalize_lyricsporn_api_url parse_url v) as [v'|] eqn:E; [|done].
    cbn. intros w [= <-]. by eapply normalize_good. }
  split.
  - assert (Hfold : forall us e, good e -> good (foldl (fun e v => snd (endpoint_set parse_url v e)) e us)).
    { induction us as [|u us IH]; intros e He; simpl; [done|]. by apply IH, Hset. }
    apply Hfold. unfold endpoint_new. by apply Hset.
  - intros [v|]; cbn; [|done]. by destruct (normalize_lyricsporn_api_url parse_url v).
Qed.
