(* ===== verification/Captions.v ===== *)
(** * Captions: the text helpers of crates/engine/src/orchestrator/helpers.rs

    HTML escaping for Telegram's parse mode and clamping to a number of UTF-16 code units. *)
From S2P Require Import Prelude Text Music.

Definition escape_char (ch : rchar) : str :=
  if ch =? 38 then lit "&amp;"
  else if ch =? 60 then lit "&lt;"
  else if ch =? 62 then lit "&gt;"
  else if ch =? 34 then lit "&quot;"
  else if ch =? 39 then lit "&#39;"
  else [ch].

Definition html_escape (input : str) : str := foldl (fun out ch => out ++ escape_char ch) [] input.

(** The loop of [clamp_str_utf16] over [char_indices]: the prefix kept when it breaks. *)
Fixpoint clamp_scan (max_utf16 curr_len : Z) (text : str) : str :=
  match text with
  | [] => []
  | ch :: rest =>
      if saturating_sub max_utf16 1 <? curr_len + len_utf16 ch then []
      else ch :: clamp_scan max_utf16 (curr_len + len_utf16 ch) rest
  end.

Definition clamp_str_utf16 (text : str) (max_utf16 : Z) : str :=
  if utf16_len text <=? max_utf16 then text else clamp_scan max_utf16 0 text ++ [8230].

(** The reader's side: entities back to characters. *)
Definition entities : list (str * rchar) :=
  [(lit "&amp;", 38); (lit "&lt;", 60); (lit "&gt;", 62); (lit "&quot;", 34); (lit "&#39;", 39)].

Definition decode_entity (s : str) : option (rchar * str) :=
  find_map (fun '(e, c) => (fun rest => (c, rest)) <$> strip_prefix e s) entities.

Fixpoint html_unescape (fuel : nat) (s : str) : option str :=
  match fuel with
  | O => if bool_decide (s = []) then Some [] else None
  | S f =>
      match s with
      | [] => Some []
      | c :: rest =>
          if c =? 38 then
            match decode_entity s with
            | Some (d, rest) => cons d <$> html_unescape f rest
            | None => None
            end
          else cons c <$> html_unescape f rest
      end
  end.

(** ** Lemmas *)

Lemma html_escape_eq s : html_escape s = concat (escape_char <$> s).
Proof. unfold html_escape. by rewrite foldl_snoc_flat. Qed.

Lemma html_unescape_char f c s :
  html_unescape (S f) (escape_char c ++ s) = cons c <$> html_unescape f s.
Proof.
  unfold escape_char. repeat (case_match; to_prop; [subst; reflexivity|]).
  cbn [app html_unescape]. by rewrite (proj2 (Z.eqb_neq c 38)).
Qed.

Lemma escape_char_safe c : Forall (fun x => x <> 60 /\ x <> 62 /\ x <> 34 /\ x <> 39) (escape_char c).
Proof.
  unfold escape_char. repeat (case_match; to_prop; [repeat (apply Forall_cons; split; [done|]); apply Forall_nil_2|]).
  by apply Forall_singleton.
Qed.

Lemma clamp_scan_spec m text : forall cur,
  exists rest, text = clamp_scan m cur text ++ rest /\
    (cur <= saturating_sub m 1 -> cur + utf16_len (clamp_scan m cur text) <= saturating_sub m 1) /\
    (forall c rest', rest = c :: rest' ->
       saturating_sub m 1 < cur + utf16_len (clamp_scan m cur text) + len_utf16 c).
Proof.
  induction text as [|c text IH]; intros cur; cbn [clamp_scan].
  - exists []. split; [done|]. split; [unfold utf16_len; cbn; lia|done].
  - destruct (Z.ltb_spec (saturating_sub m 1) (cur + len_utf16 c)) as [Hlt|Hge].
    + exists (c :: text). split; [done|]. split; [unfold utf16_len; cbn; lia|].
      intros c' rest' [= <- _]. unfold utf16_len. cbn. lia.
    + destruct (IH (cur + len_utf16 c)) as (rest & Hs & Hb & Hmax). exists rest.
      cbn [app]. rewrite utf16_len_cons. split; [by f_equal|]. split; [lia|].
      intros c' rest' ->. specialize (Hmax c' rest' eq_refl). lia.
Qed.

(** ** Properties *)

(** Escaping is faithful and safe: a reader of the HTML gets the text back, and no tag or quote
    character is left outside an entity. *)
Theorem html_escape_roundtrip s :
  html_unescape (S (length s)) (html_escape s) = Some s /\
  Forall (fun x => x <> 60 /\ x <> 62 /\ x <> 34 /\ x <> 39) (html_escape s).
Proof.
  rewrite html_escape_eq. split.
  - induction s as [|c s IH]; [done|]. rewrite fmap_cons. cbn [concat length].
    by rewrite html_unescape_char, IH.
  - induction s as [|c s IH]; csimpl; [done|]. apply Forall_app. split; [apply escape_char_safe|done].
Qed.

(** Clamping fits and is tight: at most [max_utf16] code units, a text that fits is unchanged,
    and otherwise the longest prefix that leaves room for the ellipsis is kept. *)
Theorem clamp_str_utf16_correct text max_utf16 :
  1 <= max_utf16 ->
  utf16_len (clamp_str_utf16 text max_utf16) <= max_utf16 /\
  (utf16_len text <= max_utf16 -> clamp_str_utf16 text max_utf16 = text) /\
  (max_utf16 < utf16_len text -> exists p c rest,
     text = p ++ c :: rest /\ clamp_str_utf16 text max_utf16 = p ++ [8230] /\
     max_utf16 - 1 < utf16_len (p ++ [c])).
Proof.
  intros Hm. unfold clamp_str_utf16. destruct (Z.leb_spec (utf16_len text) max_utf16) as [Hle|Hgt].
  - split_and!; [done|done|lia].
  - destruct (clamp_scan_spec max_utf16 text 0) as (rest & Hs & Hb & Hmax).
    unfold saturating_sub in *. specialize (Hb ltac:(lia)).
    split_and!; [rewrite utf16_len_app; change (utf16_len [8230]) with 1; lia|lia|].
    intros _. destruct rest as [|c rest].
    + rewrite app_nil_r in Hs. rewrite Hs in Hgt. lia.
    + exists (clamp_scan max_utf16 0 text), c, rest. split; [done|]. split; [done|].
      specialize (Hmax c rest eq_refl). rewrite utf16_len_app. unfold utf16_len at 2. cbn. lia.
Qed.

Lemma clamp_str_utf16_correct_witness : utf16_len (clamp_str_utf16 (lit "abcdef") 4) <= 4.
Proof. apply (clamp_str_utf16_correct (lit "abcdef") 4). lia. Defined.
