(* ===== verification/Storage.v ===== *)
(** * Storage: the track cache's errors and retries (crates/core/src/cache.rs,
      crates/engine/src/orchestrator/helpers.rs)

    The store is met through the answer [call k] it gives to the [k]-th call. *)
From S2P Require Import Prelude Text Interfaces Music Retry.

Record CachedTrack := mkCachedTrack {
  ct_track_id : str; ct_codec : Codec; ct_message_id : Z; ct_file_id : str; ct_file_unique_id : str;
}.

Record SaveTrackInput := mkSaveTrack {
  st_track_id : str; st_codec : Codec; st_message_id : Z; st_file_id : str; st_file_unique_id : str;
}.

(** [SaveTrackInput::from_rip_result]; of the rip result only the codec's name is read. *)
Definition from_rip_result (track_id rip_codec : str) (message_id : Z) (file_id file_unique_id : str) :
    SaveTrackInput :=
  let codec := match Codec_from_str rip_codec with Ok c => c | Err _ => Alac end in
  mkSaveTrack track_id codec message_id file_id file_unique_id.

Inductive TrackCacheOperation : Type := OpFind | OpSave | OpDelete.

Definition operation_name (o : TrackCacheOperation) : str :=
  match o with OpFind => lit "find track" | OpSave => lit "save track" | OpDelete => lit "delete track" end.

Inductive TrackCacheError : Type :=
| Unavailable (operation : TrackCacheOperation) (detail : str)
| Failed (operation : TrackCacheOperation) (detail : str).

Definition is_unavailable (e : TrackCacheError) : bool :=
  match e with Unavailable _ _ => true | Failed _ _ => false end.

Definition track_cache_error_display (e : TrackCacheError) : str :=
  match e with
  | Unavailable operation detail => operation_name operation ++ lit " unavailable: " ++ detail
  | Failed operation detail => operation_name operation ++ lit " failed: " ++ detail
  end.

Section Retry.
Context {A : Type} (p : RetryPolicy) (call : nat -> result TrackCacheError A).

(** The loop both helpers share: the result, the calls made and the delays slept. *)
Fixpoint retry_loop (fuel : nat) (attempts : Z) (attempt : nat) (slept : list Z) :
    option (result TrackCacheError A * nat * list Z) :=
  match fuel with
  | O => None
  | S f =>
      match call attempt with
      | Ok value => Some (Ok value, S attempt, slept)
      | Err error =>
          if is_unavailable error && (Z.of_nat attempt + 1 <? attempts)
          then retry_loop f attempts (S attempt) (slept ++ [delay_before_retry p (Z.of_nat attempt)])
          else Some (Err error, S attempt, slept)
      end
  end.

Definition with_retry (fuel : nat) := retry_loop fuel (Z.max (total_attempts p) 1) 0 [].

(** The answer of the loop, given the attempts of the policy. *)
Definition storage_answer : result TrackCacheError A :=
  match with_retry (Z.to_nat (Z.max (total_attempts p) 1)) with
  | Some (r, _, _) => r
  | None => call 0%nat
  end.

End Retry.

Definition find_cached_tracks_with_retry (fuel : nat)
    (find : nat -> result TrackCacheError (gmap (str * Codec) CachedTrack)) (policy : RetryPolicy) :=
  with_retry policy find fuel.

Definition save_track_with_retry (fuel : nat) (save : nat -> result TrackCacheError unit) (policy : RetryPolicy) :=
  with_retry policy save fuel.

(** ** Lemmas *)

Lemma retry_loop_spec {A} p (call : nat -> result TrackCacheError A) attempts fuel : forall attempt slept,
  Z.of_nat attempt < attempts -> (Z.to_nat attempts - attempt <= fuel)%nat ->
  slept = delay_before_retry p <$> seqZ 0 (Z.of_nat attempt) ->
  (forall k, (k < attempt)%nat -> exists e, call k = Err e /\ is_unavailable e = true) ->
  exists n, retry_loop p call fuel attempts attempt slept =
      Some (call n, S n, delay_before_retry p <$> seqZ 0 (Z.of_nat n)) /\
    Z.of_nat n < attempts /\
    (forall k, (k < n)%nat -> exists e, call k = Err e /\ is_unavailable e = true) /\
    (forall e, call n = Err e -> is_unavailable e = true -> Z.of_nat n + 1 = attempts).
Proof.
  induction fuel as [|f IH]; intros attempt slept Ha Hf Hs Hprev; [lia|]. cbn [retry_loop].
  destruct (call attempt) as [v|e] eqn:Hc; [exists attempt; rewrite Hc, Hs; split_and!; done|].
  destruct (is_unavailable e) eqn:Hu; cbn [andb].
  - destruct (Z.ltb_spec (Z.of_nat attempt + 1) attempts) as [Hlt|Hge].
    + apply IH; [lia|lia| |].
      * rewrite seqZ_S, fmap_app, Hs. cbn. by rewrite Z.add_0_l.
      * intros k Hk. destruct (decide (k = attempt)) as [->|Hne]; [by exists e|apply Hprev; lia].
    + exists attempt. rewrite Hc, Hs. split_and!; try done. intros. lia.
  - exists attempt. rewrite Hc, Hs. split_and!; try done. intros e' [= <-]. congruence.
Qed.

(** The loop always ends within its attempts, with the answer of one of the calls. *)
Lemma storage_answer_call {A} p (call : nat -> result TrackCacheError A) : exists n, storage_answer p call = call n.
Proof.
  unfold storage_answer, with_retry.
  destruct (retry_loop_spec p call (Z.max (total_attempts p) 1) (Z.to_nat (Z.max (total_attempts p) 1)) 0 [])
    as (n & -> & _); [lia|lia|done|lia|by exists n].
Qed.

(** ** Properties *)

(** A storage call is retried exactly while the store is unavailable and attempts are left: the
    answer is that of the last call, the earlier ones were all unavailable, the number of calls is
    within the policy, and the delays slept are those of the policy, never decreasing. *)
Theorem storage_retry_correct {A} p (call : nat -> result TrackCacheError A) fuel :
  0 <= policy_base_delay_ms p -> (Z.to_nat (Z.max (total_attempts p) 1) <= fuel)%nat ->
  exists n slept, with_retry p call fuel = Some (call n, S n, slept) /\
    Z.of_nat (S n) <= Z.max (total_attempts p) 1 /\
    (forall k, (k < n)%nat -> exists e, call k = Err e /\ is_unavailable e = true) /\
    (forall e, call n = Err e -> is_unavailable e = true -> Z.of_nat (S n) = Z.max (total_attempts p) 1) /\
    length slept = n /\ (forall i j a b, (i <= j)%nat -> slept !! i = Some a -> slept !! j = Some b -> a <= b).
Proof.
  intros Hbase Hf.
  destruct (retry_loop_spec p call (Z.max (total_attempts p) 1) fuel 0 []) as (n & Hrun & Hn & Hprev & Hlast);
    [lia|lia|done|lia|].
  exists n. eexists. split; [exact Hrun|]. split_and!; [lia|done| | |].
  - intros e He Hu. specialize (Hlast e He Hu). lia.
  - rewrite length_fmap, length_seqZ. lia.
  - intros i j a b Hij. rewrite !list_lookup_fmap.
    intros (x & Hx & ->)%fmap_Some (y & Hy & ->)%fmap_Some.
    apply lookup_seqZ in Hx as [-> _], Hy as [-> _]. unfold delay_before_retry.
    apply backoff_mono; [done|lia].
Qed.

Definition demo_store (k : nat) : result TrackCacheError unit :=
  match k with O => Err (Unavailable OpSave (lit "pool timed out")) | _ => Ok tt end.

Lemma storage_retry_correct_witness :
  exists n slept, with_retry RetryPolicy_default demo_store 3 = Some (demo_store n, S n, slept) /\ length slept = n.
Proof.
  destruct (storage_retry_correct RetryPolicy_default demo_store 3) as (n & slept & H & _ & _ & _ & Hl & _);
    [by vm_compute|by vm_compute; lia|]. by exists n, slept.
Defined.
