(* ===== verification/ZipState.v ===== *)
(** * ZipState: the state of an album's archives (crates/engine/src/orchestrator/zip_state.rs)

    Which codec an archive is labelled with, which codecs a rendition admits, and the ledger of
    dump messages that must be deleted unless the archive commits.  Each function takes the content
    of the lock it holds. *)
From S2P Require Import Prelude Text Music.

Definition archive_codec_replaced (replacement existing : Codec) : bool :=
  match replacement with
  | Alac | Aac => match existing with Alac | Aac => true | Ec3 => false end
  | other => bool_decide (existing = other)
  end.

Definition codec_rank (c : Codec) : Z := match c with Alac => 3 | Ec3 => 2 | Aac => 1 end.

(** [seed_zip_codec]: [current] is the text in the lock. *)
Definition seed_zip_codec (current : option str) (codec : Codec) : option str :=
  match v ← current; ok (Codec_from_str v) with
  | Some existing => if codec_rank existing <? codec_rank codec then Some (as_str codec) else current
  | None => Some (as_str codec)
  end.

Definition codec_allowed_for_rendition (r : Rendition) (c : Codec) : bool :=
  match r with
  | Primary => match c with Alac | Aac => true | Ec3 => false end
  | Atmos => bool_decide (c = Ec3)
  end.

(** [set_primary_zip_error]: the first error stays. *)
Definition set_primary_zip_error (current : option str) (error : str) : option str :=
  match current with None => Some error | Some _ => current end.

(** ** The ledger *)

Definition remember_zip_dump_message (pending : list Z) (message_id : Z) : list Z := pending ++ [message_id].

(** [pending.iter().position(..)] and [pending.remove(index)]. *)
Fixpoint remove_first (message_id : Z) (pending : list Z) : list Z :=
  match pending with
  | [] => []
  | m :: rest => if m =? message_id then rest else m :: remove_first message_id rest
  end.

Definition transfer_zip_dump_messages (pending committed : list Z) : list Z :=
  foldl (fun pending m => remove_first m pending) pending committed.

Definition take_uncommitted_zip_dump_messages (pending : list Z) : list Z * list Z := (pending, []).

(** ** Lemmas *)

Lemma remove_first_perm m l : m ∈ l -> m :: remove_first m l ≡ₚ l.
Proof.
  induction l as [|a l IH]; intros Hin; [by apply elem_of_nil in Hin|]. simpl.
  destruct (Z.eqb_spec a m) as [->|Hne]; [done|].
  apply elem_of_cons in Hin as [->|Hin]; [done|]. rewrite <-(IH Hin) at 2. by constructor.
Qed.

Lemma transfer_perm committed : forall pending,
  committed ⊆+ pending -> committed ++ transfer_zip_dump_messages pending committed ≡ₚ pending.
Proof.
  induction committed as [|m l IH]; intros pending Hsub; [done|].
  assert (Hin : m ∈ pending) by (eapply elem_of_submseteq; [|exact Hsub]; left).
  pose proof (remove_first_perm m pending Hin) as Hp. rewrite <-Hp in Hsub.
  apply (submseteq_app_inv_l _ _ [m]) in Hsub.
  cbn. rewrite IH by done. exact Hp.
Qed.

Lemma from_str_as_str c : Codec_from_str (as_str c) = Ok c.
Proof. by destruct c. Qed.

Lemma seed_label current c :
  seed_zip_codec (as_str <$> current) c =
  Some (as_str (match current with Some b => if codec_rank b <? codec_rank c then c else b | None => c end)).
Proof.
  unfold seed_zip_codec. destruct current as [b|]; cbn; [|done]. rewrite from_str_as_str. cbn.
  by destruct (codec_rank b <? codec_rank c).
Qed.

Lemma codec_rank_inj c d : codec_rank c = codec_rank d -> c = d.
Proof. by destruct c, d. Qed.

Lemma seeds_best l : forall current, l <> [] \/ is_Some current -> exists b,
  foldl seed_zip_codec (as_str <$> current) l = Some (as_str b) /\
  (b ∈ l \/ current = Some b) /\
  (forall c, c ∈ l \/ current = Some c -> codec_rank c <= codec_rank b).
Proof.
  induction l as [|c l IH]; intros current Hne.
  - destruct Hne as [?|[b ->]]; [done|]. exists b. split; [done|]. split; [by right|].
    intros c [Hc|[= ->]]; [by apply elem_of_nil in Hc|lia].
  - cbn [foldl]. rewrite seed_label.
    set (n := match current with Some b => if codec_rank b <? codec_rank c then c else b | None => c end).
    destruct (IH (Some n)) as (b & Hrun & Hin & Hmax); [right; by eexists|].
    assert (Hn : (n = c \/ current = Some n) /\ codec_rank c <= codec_rank n /\
      (forall x, current = Some x -> codec_rank x <= codec_rank n)).
    { unfold n. destruct current as [x|]; [|split_and!; [by left|lia|done]].
      destruct (Z.ltb_spec (codec_rank x) (codec_rank c)).
      - split_and!; [by left|lia|]. intros y [= <-]. lia.
      - split_and!; [by right|lia|]. intros y [= <-]. lia. }
    destruct Hn as (Hn & Hcn & Hxn). pose proof (Hmax n (or_intror eq_refl)) as Hnb.
    exists b. split; [exact Hrun|]. split.
    + destruct Hin as [Hin|[= <-]]; [left; by right|]. destruct Hn as [->|Hn]; [left; by left|by right].
    + intros y [[->|Hy]%elem_of_cons|Hy]; [lia|apply Hmax; by left|]. specialize (Hxn y Hy). lia.
Qed.

(** ** Properties *)

(** An archive is labelled with the best codec of its tracks, whatever the order in which they
    are seeded, and re-seeding replaces exactly within the rendition the codec belongs to. *)
Theorem archive_label_best (l : list Codec) :
  (l <> [] -> exists b, foldl seed_zip_codec None l = Some (as_str b) /\ b ∈ l /\
     (forall c, c ∈ l -> codec_rank c <= codec_rank b)) /\
  (forall l', l ≡ₚ l' -> foldl seed_zip_codec None l = foldl seed_zip_codec None l') /\
  (forall c d, archive_codec_replaced c d = true <->
     exists r, codec_allowed_for_rendition r c = true /\ codec_allowed_for_rendition r d = true).
Proof.
  assert (Hbest : forall l, l <> [] -> exists b, foldl seed_zip_codec None l = Some (as_str b) /\ b ∈ l /\
    (forall c, c ∈ l -> codec_rank c <= codec_rank b)).
  { intros k Hk. destruct (seeds_best k None (or_introl Hk)) as (b & Hrun & [Hin|?] & Hmax); [|done].
    exists b. split; [exact Hrun|]. split; [done|]. intros c Hc. apply Hmax. by left. }
  split; [apply Hbest|]. split.
  - intros l' Hp. destruct (decide (l = [])) as [->|Hne]; [by apply Permutation_nil_l in Hp as ->|].
    assert (l' <> []) as Hne' by (intros ->; by apply Permutation_nil_r in Hp).
    destruct (Hbest l Hne) as (b & -> & Hb & Hmax), (Hbest l' Hne') as (b' & -> & Hb' & Hmax').
    assert (codec_rank b = codec_rank b') as E.
    { pose proof (Hmax b'). pose proof (Hmax' b). rewrite Hp in *. specialize (H Hb'). rewrite <-Hp in *. specialize (H0 Hb). lia. }
    by rewrite (codec_rank_inj b b' E).
  - intros c d. split.
    + intros H. exists (match c with Ec3 => Atmos | _ => Primary end). by destruct c, d.
    + intros ([] & H1 & H2); by destruct c, d.
Qed.

(** The ledger never leaks a message: after a transfer the messages still pending and those
    committed are together the messages remembered, and taking them leaves none behind. *)
Theorem ledger_conserved (remembered committed : list Z) :
  committed ⊆+ remembered ->
  let pending := transfer_zip_dump_messages (foldl remember_zip_dump_message [] remembered) committed in
  committed ++ fst (take_uncommitted_zip_dump_messages pending) ≡ₚ remembered /\
  snd (take_uncommitted_zip_dump_messages pending) = [].
Proof.
  intros Hsub. cbv zeta. split; [|done].
  assert (foldl remember_zip_dump_message [] remembered = remembered) as ->; [|by apply transfer_perm].
  unfold remember_zip_dump_message. rewrite (foldl_snoc_flat (fun m => [m])). cbn.
  clear. induction remembered as [|m l IH]; csimpl; [done|by rewrite IH].
Qed.

Lemma ledger_conserved_witness :
  [12; 11] ++ fst (take_uncommitted_zip_dump_messages
    (transfer_zip_dump_messages (foldl remember_zip_dump_message [] [10; 11; 12]) [12; 11])) ≡ₚ [10; 11; 12].
Proof.
  apply (ledger_conserved [10; 11; 12] [12; 11]).
  rewrite Permutation_swap. apply submseteq_cons. reflexivity.
Defined.
