(* ===== verification/ZipArchive.v ===== *)
(** * ZipArchive: writing one archive (crates/engine/src/zip.rs, [create_zip_archive])

    The function over a file system of regular files.  Every operation on the disk or on the ZIP
    writer may fail: the [k]-th such operation fails when [fails k], and the cancellation token is
    seen cancelled at poll [k] when [cancelled k].  Third-party code is met through parameters: the
    digest, the JSON encoder of the manifest and the encoding of a finished archive.  The bytes of
    the temporary file before the archive is finished are not modelled (they are never published),
    nor are directories, and no other process changes the files during a build. *)
From S2P Require Import Prelude Text Music Filename ZipPlan.

Abbreviation file_system := (gmap str (list Z)).

(** 64 KiB, the copy buffer. *)
Definition BUFFER_BYTES : nat := Z.to_nat (64 * 1024).

Record io_state := mkIo {
  files : file_system;
  ticks : nat;                     (* operations and polls so far *)
  progress : list (Z * Z);         (* calls of the progress callback *)
}.

(** The state and error monad of the builder. *)
Definition M (A : Type) : Type := io_state -> result ZipError A * io_state.
#[export] Instance M_ret : MRet M := fun A a s => (Ok a, s).
#[export] Instance M_bind : MBind M := fun A B f m s =>
  match m s with
  | (Ok a, s') => f a s'
  | (Err e, s') => (Err e, s')
  end.

Definition fail {A} (e : ZipError) : M A := fun s => (Err e, s).
Definition lift {A} (r : result ZipError A) : M A := fun s => (r, s).

Section Build.
Variables fails cancelled : nat -> bool.
Variable sha256 : list Z -> list Z.
Variable manifest_json : ZipPartPlan -> option str -> list str -> option (list Z).
Variable zip_encode : list (str * list Z) -> list Z.

Definition tick (s : io_state) : io_state := mkIo (files s) (S (ticks s)) (progress s).

(** An operation that fails with [e], or acts on the files. *)
Definition operation {A} (e : ZipError) (act : file_system -> option (A * file_system)) : M A := fun s =>
  if fails (ticks s) then (Err e, tick s)
  else match act (files s) with
       | Some (a, fs) => (Ok a, mkIo fs (S (ticks s)) (progress s))
       | None => (Err e, tick s)
       end.

Definition read_file (e : ZipError) (path : str) : M (list Z) :=
  operation e (fun fs => (fun data => (data, fs)) <$> fs !! path).
Definition effect (e : ZipError) : M unit := operation e (fun fs => Some (tt, fs)).
Definition poll_cancel : M unit := fun s => (if cancelled (ticks s) then Err Cancelled else Ok tt, tick s).
Definition report (written total : Z) : M unit := fun s =>
  (Ok tt, mkIo (files s) (ticks s) (progress s ++ [(written, total)])).

Definition hash_file (path : str) : M str :=
  data ← read_file (Source path) path; mret (hex_digest (sha256 data)).

Fixpoint hash_files (l : list ZipTrackEntry) : M (list str) :=
  match l with
  | [] => mret []
  | t :: rest => h ← hash_file (file_path t); hs ← hash_files rest; mret (h :: hs)
  end.

(** [try_fold] over the sizes, and the manifest. *)
Fixpoint total_size (acc : Z) (l : list ZipTrackEntry) : option Z :=
  match l with
  | [] => Some acc
  | t :: rest => acc ← checked_add 64 acc (file_size t); total_size acc rest
  end.

(** The read loop of [copy_entry]; [has_callback] tells whether progress is reported. *)
Fixpoint copy_chunks (fuel : nat) (has_callback : bool) (total : Z) (rest : list Z) (written : Z) : M Z :=
  match fuel with
  | O => fail InvalidLimit
  | S f =>
      _ ← poll_cancel;
      _ ← effect Io;
      match rest with
      | [] => mret written
      | _ =>
          let chunk := take BUFFER_BYTES rest in
          _ ← effect Io;
          written ← lift (ok_or (checked_add 64 written (Z.of_nat (length chunk))) InvalidLimit);
          _ ← (if has_callback then report written total else mret tt);
          copy_chunks f has_callback total (drop BUFFER_BYTES rest) written
      end
  end.

Definition copy_entry (has_callback : bool) (total : Z) (name path : str) (written : Z) :
    M (Z * (str * list Z)) :=
  _ ← poll_cancel;
  data ← read_file (Source path) path;
  _ ← effect Writer;
  written ← copy_chunks (S (length data)) has_callback total data written;
  mret (written, (name, data)).

Fixpoint copy_entries (has_callback : bool) (total : Z) (l : list (str * str)) (written : Z) :
    M (Z * list (str * list Z)) :=
  match l with
  | [] => mret (written, [])
  | (name, path) :: rest =>
      '(written, entry) ← copy_entry has_callback total name path written;
      '(written, entries) ← copy_entries has_callback total rest written;
      mret (written, entry :: entries)
  end.

(** The entries after the manifest: the cover, then the tracks. *)
Definition archive_entries (plan : ZipPartPlan) : list (str * str) :=
  match cover_path plan with Some c => [(lit "cover.jpg", c)] | None => [] end ++
  ((fun t => (archive_filename t, file_path t)) <$> tracks plan).

(** The closure: the archive is written to [temp_path]; its length. *)
Definition write_archive (plan : ZipPartPlan) (has_callback : bool) (manifest : list Z) (total : Z)
    (temp_path : str) : M Z :=
  _ ← operation Io (fun fs => match fs !! temp_path with
                              | Some _ => None
                              | None => Some (tt, <[temp_path := []]> fs)
                              end);
  _ ← effect Writer;
  _ ← effect Io;
  written ← lift (ok_or (checked_add 64 0 (Z.of_nat (length manifest))) InvalidLimit);
  '(_, entries) ← copy_entries has_callback total (archive_entries plan) written;
  _ ← operation Writer (fun fs => Some (tt, <[temp_path := zip_encode ((lit "manifest.json", manifest) :: entries)]> fs));
  _ ← effect Io;
  _ ← effect Io;
  operation Io (fun fs => (fun data => (Z.of_nat (length data), fs)) <$> fs !! temp_path).

(** [let _ = fs::remove_file(..)]: a failure is ignored. *)
Definition remove_file (path : str) (s : io_state) : io_state :=
  if fails (ticks s) then tick s else mkIo (delete path (files s)) (S (ticks s)) (progress s).

(** [temp_path] is [parent/.<name>.<fresh id>.part]. *)
Definition create_zip_archive (output_path temp_path : str) (plan : ZipPartPlan) (has_callback : bool) : M Z := fun s0 =>
  let prepare : M (list Z * Z) :=
    _ ← lift (check_plan plan);
    cover_size ← match cover_path plan with
                 | Some c => operation (Source c) (fun fs => (fun d => (Z.of_nat (length d), fs)) <$> fs !! c)
                 | None => mret 0
                 end;
    cover_sha256 ← match cover_path plan with
                   | Some c => h ← hash_file c; mret (Some h)
                   | None => mret None
                   end;
    track_hashes ← hash_files (tracks plan);
    manifest ← lift (ok_or (manifest_json plan cover_sha256 track_hashes) Writer);
    total ← lift (ok_or (total_size cover_size (tracks plan)) InvalidLimit);
    total ← lift (ok_or (checked_add 64 total (Z.of_nat (length manifest))) InvalidLimit);
    _ ← effect Io;
    mret (manifest, total) in
  match prepare s0 with
  | (Err e, s) => (Err e, s)
  | (Ok (manifest, total), s) =>
      match write_archive plan has_callback manifest total temp_path s with
      | (Ok size, s) =>
          match operation Io (fun fs => (fun data => (tt, <[output_path := data]> (delete temp_path fs)))
                                <$> fs !! temp_path) s with
          | (Ok _, s) => (Ok size, s)
          | (Err error, s) => (Err error, remove_file temp_path s)
          end
      | (Err error, s) => (Err error, remove_file temp_path s)
      end
  end.

(** ** Lemmas *)

(** A computation that leaves the files alone, except at [path]. *)
Definition keeps {A} (path : str) (m : M A) : Prop :=
  forall s, delete path (files (snd (m s))) = delete path (files s).

(** A computation that does not touch the files at all. *)
Definition pure_files {A} (m : M A) : Prop := forall s, files (snd (m s)) = files s.

Lemma pure_keeps {A} path (m : M A) : pure_files m -> keeps path m.
Proof. intros H s. by rewrite H. Qed.

Lemma keeps_bind {A B} path (m : M A) (f : A -> M B) :
  keeps path m -> (forall a, keeps path (f a)) -> keeps path (m ≫= f).
Proof.
  intros Hm Hf s. unfold mbind, M_bind. specialize (Hm s). destruct (m s) as [[a|e] s1]; cbn in *; [|done].
  by rewrite Hf.
Qed.

Lemma pure_bind {A B} (m : M A) (f : A -> M B) :
  pure_files m -> (forall a, pure_files (f a)) -> pure_files (m ≫= f).
Proof.
  intros Hm Hf s. unfold mbind, M_bind. specialize (Hm s). destruct (m s) as [[a|e] s1]; cbn in *; [|done].
  by rewrite Hf.
Qed.

Lemma pure_ret {A} (a : A) : pure_files (mret a).
Proof. done. Qed.
Lemma pure_lift {A} (r : result ZipError A) : pure_files (lift r).
Proof. done. Qed.
Lemma pure_effect e : pure_files (effect e).
Proof. intros s. unfold effect, operation. by destruct (fails _). Qed.
Lemma pure_read e path : pure_files (read_file e path).
Proof. intros s. unfold read_file, operation. destruct (fails _); [done|]. by destruct (files s !! path). Qed.
Lemma pure_poll : pure_files poll_cancel.
Proof. intros s. unfold poll_cancel. by destruct (cancelled _). Qed.
Lemma pure_report w t : pure_files (report w t).
Proof. done. Qed.

Create HintDb zip.
Hint Resolve pure_ret pure_lift pure_effect pure_read pure_poll pure_report pure_keeps : zip.

Ltac pure := repeat (first [apply pure_bind; [|intros]|case_match|solve [eauto with zip]]).

Lemma pure_hash_file path : pure_files (hash_file path).
Proof. unfold hash_file. pure. Qed.

Lemma pure_hash_files l : pure_files (hash_files l).
Proof. induction l as [|t l IH]; cbn [hash_files]; [done|]. apply pure_bind; [apply pure_hash_file|intros]. pure. Qed.

Lemma pure_copy_chunks fuel cb total : forall rest w, pure_files (copy_chunks fuel cb total rest w).
Proof.
  induction fuel as [|f IH]; intros rest w; cbn [copy_chunks]; [done|].
  apply pure_bind; [eauto with zip|intros _]. apply pure_bind; [eauto with zip|intros _].
  destruct rest as [|b rest]; [done|]. apply pure_bind; [eauto with zip|intros _].
  apply pure_bind; [eauto with zip|intros n]. apply pure_bind; [by destruct cb|intros _]. apply IH.
Qed.

Lemma pure_copy_entry cb total name path w : pure_files (copy_entry cb total name path w).
Proof.
  unfold copy_entry. do 3 (apply pure_bind; [eauto with zip|intros]).
  apply pure_bind; [apply pure_copy_chunks|intros; done].
Qed.

Lemma pure_copy_entries cb total l : forall w, pure_files (copy_entries cb total l w).
Proof.
  induction l as [|[name path] l IH]; intros w; cbn [copy_entries]; [done|].
  apply pure_bind; [apply pure_copy_entry|intros [w' e]]. apply pure_bind; [apply IH|by intros [? ?]].
Qed.

Lemma bind_inv {A B} (m : M A) (f : A -> M B) (s : io_state) r s' :
  (m ≫= f) s = (r, s') ->
  (exists a s1, m s = (Ok a, s1) /\ f a s1 = (r, s')) \/ (exists e, m s = (Err e, s') /\ r = Err e).
Proof.
  unfold mbind, M_bind. destruct (m s) as [[a|e] s1]; [intros H; left; by exists a, s1|].
  intros [= <- <-]. right. by exists e.
Qed.

Lemma operation_inv {A} (e : ZipError) (act : file_system -> option (A * file_system)) (s : io_state) r s' :
  operation e act s = (r, s') ->
  (exists a, r = Ok a /\ act (files s) = Some (a, files s')) \/ (r = Err e /\ files s' = files s).
Proof.
  unfold operation. destruct (fails _); [intros [= <- <-]; by right|].
  destruct (act (files s)) as [[a fs]|]; intros [= <- <-]; [left; by exists a|by right].
Qed.

Lemma pure_inv {A} (m : M A) s r s' : pure_files m -> m s = (r, s') -> files s' = files s.
Proof. intros H E. specialize (H s). by rewrite E in H. Qed.

(** A copied entry holds the whole source file. *)
Lemma copy_entry_data cb total name path w s w' e s' :
  copy_entry cb total name path w s = (Ok (w', e), s') -> exists data, files s !! path = Some data /\ e = (name, data).
Proof.
  unfold copy_entry. intros H.
  apply bind_inv in H as [([] & s1 & E1 & H)|(? & _ & [=])]. apply pure_inv in E1; [|apply pure_poll].
  apply bind_inv in H as [(data & s2 & E2 & H)|(? & _ & [=])].
  apply operation_inv in E2 as [(d & [= <-] & E2)|[[=] _]].
  apply bind_inv in H as [([] & s3 & _ & H)|(? & _ & [=])].
  apply bind_inv in H as [(n & s4 & _ & H)|(? & _ & [=])]. injection H as _ <- _.
  exists data. rewrite E1 in E2. destruct (files s !! path); [|done]. by injection E2 as -> _.
Qed.

Definition entry_contents (fs : file_system) (l : list (str * str)) (entries : list (str * list Z)) : Prop :=
  Forall2 (fun p e => exists data, fs !! snd p = Some data /\ e = (fst p, data)) l entries.

Lemma copy_entries_data cb total l : forall w s w' es s',
  copy_entries cb total l w s = (Ok (w', es), s') -> entry_contents (files s) l es.
Proof.
  induction l as [|[name path] l IH]; intros w s w' es s'; cbn [copy_entries]; intros H.
  - injection H as _ <- _. constructor.
  - apply bind_inv in H as [([w1 e1] & s1 & E1 & H)|(? & _ & [=])].
    apply bind_inv in H as [([w2 es2] & s2 & E2 & H)|(? & _ & [=])]. injection H as _ <- _.
    apply IH in E2. pose proof (pure_inv _ _ _ _ (pure_copy_entry cb total name path w) E1) as Hp.
    rewrite Hp in E2. apply copy_entry_data in E1. by constructor.
Qed.

(** What the closure did: on success the whole archive is in the temporary file. *)
Definition written_archive (plan : ZipPartPlan) (manifest : list Z) (fs : file_system) (data : list Z) : Prop :=
  exists es, entry_contents fs (archive_entries plan) es /\
    data = zip_encode ((lit "manifest.json", manifest) :: es).

(** The closure touches the temporary file only. *)
Lemma write_archive_spec plan cb manifest total temp s r s' :
  files s !! temp = None -> write_archive plan cb manifest total temp s = (r, s') ->
  delete temp (files s') = files s /\
  (forall size, r = Ok size -> exists data,
     written_archive plan manifest (<[temp := []]> (files s)) data /\
     files s' !! temp = Some data /\ size = Z.of_nat (length data)).
Proof.
  intros Hfresh H. unfold write_archive in H.
  assert (Hkeep : forall fs : file_system, fs = files s \/ (exists d, fs = <[temp := d]> (files s)) -> delete temp fs = files s).
  { intros fs [->|[d ->]]; [by apply delete_id|]. rewrite delete_insert_eq. by apply delete_id. }
  apply bind_inv in H as [([] & s1 & E1 & H)|(e & E1 & ->)];
    apply operation_inv in E1 as [(a & Ha & E1)|[Ha E1]]; try done.
  2: { split; [apply Hkeep; by left|done]. }
  rewrite Hfresh in E1. injection E1 as E1. symmetry in E1.
  (* operations that leave the files alone *)
  apply bind_inv in H as [([] & s2 & E2 & H)|(e & E2 & ->)]; apply pure_inv in E2; [|apply pure_effect| |apply pure_effect].
  2: { split; [apply Hkeep; right; eexists; by rewrite E2, E1|done]. }
  apply bind_inv in H as [([] & s3 & E3 & H)|(e & E3 & ->)]; apply pure_inv in E3; [|apply pure_effect| |apply pure_effect].
  2: { split; [apply Hkeep; right; eexists; by rewrite E3, E2, E1|done]. }
  apply bind_inv in H as [(w & s4 & E4 & H)|(e & E4 & ->)]; apply pure_inv in E4; [|apply pure_lift| |apply pure_lift].
  2: { split; [apply Hkeep; right; eexists; by rewrite E4, E3, E2, E1|done]. }
  assert (F4 : files s4 = <[temp := []]> (files s)) by congruence.
  apply bind_inv in H as [([w5 es] & s5 & E5 & H)|(e & E5 & ->)].
  2: { apply pure_inv in E5; [|apply pure_copy_entries]. split; [apply Hkeep; right; eexists; by rewrite E5|done]. }
  pose proof (copy_entries_data _ _ _ _ _ _ _ _ E5) as Hes. rewrite F4 in Hes.
  apply pure_inv in E5; [|apply pure_copy_entries]. rewrite F4 in E5.
  apply bind_inv in H as [([] & s6 & E6 & H)|(e & E6 & ->)];
    apply operation_inv in E6 as [(a' & Ha' & E6)|[Ha' E6]]; try done.
  2: { split; [apply Hkeep; right; eexists; by rewrite E6|done]. }
  injection E6 as _ E6. rewrite E5, insert_insert_eq in E6. symmetry in E6.
  apply bind_inv in H as [([] & s7 & E7 & H)|(e & E7 & ->)]; apply pure_inv in E7; [|apply pure_effect| |apply pure_effect].
  2: { split; [apply Hkeep; right; eexists; by rewrite E7, E6|done]. }
  apply bind_inv in H as [([] & s8 & E8 & H)|(e & E8 & ->)]; apply pure_inv in E8; [|apply pure_effect| |apply pure_effect].
  2: { split; [apply Hkeep; right; eexists; by rewrite E8, E7, E6|done]. }
  rewrite E7, E6 in E8. apply operation_inv in H as [(n & -> & H)|[-> H]].
  2: { split; [apply Hkeep; right; eexists; by rewrite H, E8|done]. }
  rewrite E8, lookup_insert_eq in H. injection H as <- H. rewrite <-H. split; [apply Hkeep; right; by eexists|].
  intros size [= <-]. eexists. rewrite lookup_insert_eq. split; [|by split]. by exists es.
Qed.

(** The fuel of the copy loop is enough: when nothing fails, the whole file is copied. *)
Lemma copy_chunks_complete fuel cb total : forall rest w s,
  (forall k, fails k = false) -> (forall k, cancelled k = false) ->
  (length rest < fuel)%nat -> 0 <= w -> w + Z.of_nat (length rest) <= u64_max ->
  exists s', copy_chunks fuel cb total rest w s = (Ok (w + Z.of_nat (length rest)), s').
Proof.
  induction fuel as [|f IH]; intros rest w s Hf Hc Hfuel Hw Hmax; [lia|]. cbn [copy_chunks].
  unfold mbind, M_bind, poll_cancel, effect, operation. rewrite Hc. cbn [fst snd]. rewrite Hf.
  destruct rest as [|b rest]; [eexists; cbn [length]; by rewrite Z.add_0_r|].
  rewrite Hf. assert (Hlen : (length (take BUFFER_BYTES (b :: rest)) + length (drop BUFFER_BYTES (b :: rest))
    = length (b :: rest))%nat) by (by rewrite <-length_app, take_drop).
  assert (Hpos : (0 < length (take BUFFER_BYTES (b :: rest)))%nat).
  { rewrite length_take. assert (0 < BUFFER_BYTES)%nat by (unfold BUFFER_BYTES; lia). cbn [length]. lia. }
  set (chunk := take _ _) in *. set (tl := drop _ _) in *. unfold lift, checked_add.
  rewrite (proj2 (Z.leb_le _ _)) by lia. cbn [ok_or].
  replace (w + Z.of_nat (length (b :: rest))) with (w + Z.of_nat (length chunk) + Z.of_nat (length tl)) by lia.
  destruct cb; [unfold report|]; cbn; apply IH; done || lia.
Qed.

(** The name of the temporary file is fresh: it ends with a new random identifier. *)
Record fresh_path (temp output : str) (plan : ZipPartPlan) (fs : file_system) : Prop := {
  fp_unused : fs !! temp = None;
  fp_output : temp <> output;
  fp_sources p : p ∈ archive_entries plan -> snd p <> temp;
}.

Lemma entry_contents_frame temp d fs l es :
  (forall p, p ∈ l -> snd p <> temp) -> entry_contents (<[temp := d]> fs) l es -> entry_contents fs l es.
Proof.
  intros Hne H. unfold entry_contents in *. revert Hne.
  induction H as [|p e l es (data & Hd & He) _ IH]; intros Hne; [constructor|]. constructor.
  - exists data. rewrite lookup_insert_ne in Hd; [done|]. intros Heq. apply (Hne p); [left|done].
  - apply IH. intros q Hq. apply Hne. by right.
Qed.

Lemma create_spec output temp plan cb s r s' :
  fresh_path temp output plan (files s) -> create_zip_archive output temp plan cb s = (r, s') ->
  match r with
  | Ok size => exists manifest data, written_archive plan manifest (files s) data /\
      files s' = <[output := data]> (files s) /\ size = Z.of_nat (length data)
  | Err _ => delete temp (files s') = files s
  end.
Proof.
  intros [Hun Hout Hsrc]. unfold create_zip_archive. set (prepare := mbind _ _).
  assert (Hpure : pure_files prepare).
  { unfold prepare. apply pure_bind; [apply pure_lift|intros _].
    apply pure_bind; [destruct (cover_path plan); [|done]; intros s0; unfold operation;
      destruct (fails _); [done|]; by destruct (files s0 !! _)|intros csize].
    apply pure_bind; [destruct (cover_path plan); [|done]; apply pure_bind; [apply pure_hash_file|done]|intros ch].
    apply pure_bind; [apply pure_hash_files|intros hs]. apply pure_bind; [apply pure_lift|intros m].
    apply pure_bind; [apply pure_lift|intros t]. apply pure_bind; [apply pure_lift|intros t'].
    apply pure_bind; [apply pure_effect|done]. }
  specialize (Hpure s). clearbody prepare. destruct (prepare s) as [[[manifest total]|e] s1]; cbn in Hpure.
  2: { intros [= <- <-]. rewrite Hpure. by apply delete_id. }
  destruct (write_archive plan cb manifest total temp s1) as [w s2] eqn:Hw.
  apply write_archive_spec in Hw as [Hdel Hok]; [|by rewrite Hpure]. rewrite Hpure in Hdel, Hok.
  assert (Hrm : forall st, files st = files s2 -> delete temp (files (remove_file temp st)) = files s).
  { intros st Hst. unfold remove_file. destruct (fails _); cbn; rewrite ?delete_delete_eq, Hst; done. }
  destruct w as [size|error].
  2: { intros [= <- <-]. by apply Hrm. }
  destruct (Hok size eq_refl) as (data & (es & Hes & Hdata) & Hfile & Hsize).
  destruct (operation Io _ s2) as [[u|error] s3] eqn:Ho; apply operation_inv in Ho as [(a & Ha & Ho)|[Ha Ho]];
    try done; intros [= <- <-].
  - rewrite Hfile in Ho. injection Ho as _ Ho. exists manifest, data. split; [|by rewrite <-Ho, Hdel].
    exists es. split; [|done]. by eapply entry_contents_frame.
  - by apply Hrm.
Qed.

End Build.

(** ** Properties *)


(** *** Witness: one track, cancelled at the second poll *)

Definition demo_plan : ZipPartPlan :=
  mkPlan 1 1 [mkEntry (lit "/t") (lit "1 - T.m4a") 3] None (lit "A - B [ALAC].zip").
Definition demo_files : file_system := <[lit "/t" := [1; 2; 3]]> ∅.
Definition demo_create (cancel_at : nat) :=
  create_zip_archive (fun _ => false) (Nat.eqb cancel_at) (fun _ => [0]) (fun _ _ _ => Some [123; 125])
    (fun es => concat (snd <$> es)) (lit "/out") (lit "/.out.part") demo_plan true (mkIo demo_files 0 []).

Lemma demo_fresh : fresh_path (lit "/.out.part") (lit "/out") demo_plan demo_files.
Proof. split; [by vm_compute|done|]. intros p Hp. apply list_elem_of_singleton in Hp as ->. done. Qed.

