(* ===== verification/OrderedDispatch.v ===== *)
(** * OrderedDispatch: the lanes of a rip job (crates/engine/src/orchestrator/{dispatch,rip_lane}.rs)

    Two tasks and a bounded channel.  [run_lane_one] is the rip queue's job: it walks the items and
    sends a slot for each one that is cached or has been ripped, then a finish marker.
    [run_ordered_dispatch] hands the slots to the upload lane in order; while it waits for a cached
    item, or for the rip that replaces it (queued behind the producer), it keeps draining the channel
    into a buffer.  The model is a step relation with one step per await that completes; what the
    rest of the program answers (rips, lane pushes, cache resolutions, cancellations) is an argument
    of the step.  A rip's payload is any value of type [R]. *)
From S2P Require Import Prelude Text Music Storage.

(** The fields of [PipelineItem] that the dispatch reads; the others are labels. *)
Record PipelineItem := mkItem {
  item_track_id : str; item_rendition : Rendition; item_cached : option CachedTrack; item_track_index : option Z;
}.

Definition ORDERED_SLOT_CAPACITY : Z := 16.

Definition ordered_slot_capacity (item_count : Z) : Z :=
  Z.max (saturating_add 64 item_count 1) ORDERED_SLOT_CAPACITY.

Inductive CacheResolution : Type := Hit | Rerip | CacheCancelled | CacheFailed (error : str).

Inductive CacheEnqueueResult : Type := EnqPending | EnqCancelled | EnqFailed (error : str).

Section Dispatch.
Context {R : Type}.

Record PipelineRipResult := mkRip {
  rip_track_id : str; rip_result : R; rip_rendition : Rendition; rip_track_index : option Z;
}.

(** The end of [rip_fresh_item]: the result carries the item's identity. *)
Definition ripped (item : PipelineItem) (r : R) : PipelineRipResult :=
  mkRip (item_track_id item) r (item_rendition item) (item_track_index item).

Inductive RipLaneOutcome : Type :=
| Ripped (r : PipelineRipResult) | RipFinished | RipCancelled | RipStop.

(** What [rip_fresh_item] answers for an item: a result of that item, or none. *)
Inductive rip_answer : Type := AnsRipped (r : R) | AnsFinished | AnsCancelled | AnsStop.

Definition outcome_for (item : PipelineItem) (a : rip_answer) : RipLaneOutcome :=
  match a with
  | AnsRipped r => Ripped (ripped item r)
  | AnsFinished => RipFinished | AnsCancelled => RipCancelled | AnsStop => RipStop
  end.

(** What the queue's receiver yields for a rerip. *)
Inductive rerip_completion : Type :=
| Completed_ (a : rip_answer) | InvalidResult | QueueFailed (error : str) | QueueGone.

Inductive OrderedSlot : Type :=
| SCached (item : PipelineItem) (cached : CachedTrack)
| SFresh (r : PipelineRipResult)
| SFinished.

Inductive producer : Type :=
| PLoop (todo : list PipelineItem)                       (* loop head *)
| PSend (slot : OrderedSlot) (todo : list PipelineItem)  (* in the [select!] around the send *)
| PFinish                                                (* sending the finish marker *)
| PGone.                                                 (* the sender is dropped *)

Inductive consumer : Type :=
| CLoop
| CPush (r : PipelineRipResult) (fallback : bool)        (* in [enqueue_upload_task] *)
| CEnqueue (item : PipelineItem) (cached : CachedTrack)  (* in [enqueue_cached_lane_task] *)
| CWaitCache (item : PipelineItem)                       (* in [wait_for_cache_resolution] *)
| CWaitRerip (item : PipelineItem) (cancelled : bool)    (* in [wait_for_ordered_rerip] *)
| CDone.

(** What the upload lane and the job's summary get from the dispatcher. *)
Inductive lane_event : Type :=
| Uploaded (r : PipelineRipResult) (fallback : bool)
| CachedTask (item : PipelineItem) (cached : CachedTrack)
| FinalizeMarker
| FinishedErr (error : str).

Record dispatch := mkDispatch {
  prod : producer;
  channel : list OrderedSlot;
  cons : consumer;
  buffered : list OrderedSlot;
  received_finished : bool;
  stop_dispatch : bool;
  is_cancelled : bool; controller : bool; queue_signal : bool;
  fatal_error : option str;
  lane : list lane_event;
  ghost_sent : list OrderedSlot;      (* ghost: every slot put on the channel *)
  ghost_taken : list OrderedSlot;     (* ghost: every slot the main loop took *)
}.

Section Capacity.
Variable ordered_capacity : Z.

(** Field updates. *)
Definition set_prod (p : producer) (d : dispatch) : dispatch :=
  mkDispatch p (channel d) (cons d) (buffered d) (received_finished d) (stop_dispatch d) (is_cancelled d)
    (controller d) (queue_signal d) (fatal_error d) (lane d) (ghost_sent d) (ghost_taken d).
Definition set_cons (c : consumer) (d : dispatch) : dispatch :=
  mkDispatch (prod d) (channel d) c (buffered d) (received_finished d) (stop_dispatch d) (is_cancelled d)
    (controller d) (queue_signal d) (fatal_error d) (lane d) (ghost_sent d) (ghost_taken d).
Definition stop (d : dispatch) : dispatch :=
  mkDispatch (prod d) (channel d) CLoop (buffered d) (received_finished d) true (is_cancelled d)
    (controller d) (queue_signal d) (fatal_error d) (lane d) (ghost_sent d) (ghost_taken d).
Definition push_lane (e : lane_event) (d : dispatch) : dispatch :=
  mkDispatch (prod d) (channel d) (cons d) (buffered d) (received_finished d) (stop_dispatch d) (is_cancelled d)
    (controller d) (queue_signal d) (fatal_error d) (lane d ++ [e]) (ghost_sent d) (ghost_taken d).
Definition set_finished (d : dispatch) : dispatch :=
  mkDispatch (prod d) (channel d) (cons d) (buffered d) true (stop_dispatch d) (is_cancelled d)
    (controller d) (queue_signal d) (fatal_error d) (lane d) (ghost_sent d) (ghost_taken d).
Definition set_channel (l : list OrderedSlot) (d : dispatch) : dispatch :=
  mkDispatch (prod d) l (cons d) (buffered d) (received_finished d) (stop_dispatch d) (is_cancelled d)
    (controller d) (queue_signal d) (fatal_error d) (lane d) (ghost_sent d) (ghost_taken d).
Definition set_buffered (l : list OrderedSlot) (d : dispatch) : dispatch :=
  mkDispatch (prod d) (channel d) (cons d) l (received_finished d) (stop_dispatch d) (is_cancelled d)
    (controller d) (queue_signal d) (fatal_error d) (lane d) (ghost_sent d) (ghost_taken d).
Definition take_slot (s : OrderedSlot) (d : dispatch) : dispatch :=
  mkDispatch (prod d) (channel d) (cons d) (buffered d) (received_finished d) (stop_dispatch d) (is_cancelled d)
    (controller d) (queue_signal d) (fatal_error d) (lane d) (ghost_sent d) (ghost_taken d ++ [s]).

(** [set_fatal_error]: the first one stays. *)
Definition set_fatal_error (error : str) (d : dispatch) : dispatch :=
  mkDispatch (prod d) (channel d) (cons d) (buffered d) (received_finished d) (stop_dispatch d) (is_cancelled d)
    (controller d) (queue_signal d) (match fatal_error d with None => Some error | e => e end) (lane d)
    (ghost_sent d) (ghost_taken d).

Definition job_cancelled (d : dispatch) : bool := is_cancelled d || controller d.

(** ** The producer: the loop of [run_lane_one] *)

Definition lane_one_turn (a : rip_answer) (d : dispatch) : dispatch :=
  match prod d with
  | PLoop [] => set_prod PFinish d
  | PLoop (item :: todo) =>
      if job_cancelled d || queue_signal d then set_prod PFinish d
      else match item_cached item with
           | Some cached => set_prod (PSend (SCached item cached) todo) d
           | None =>
               match outcome_for item a with
               | Ripped upload_item => set_prod (PSend (SFresh upload_item) todo) d
               | RipFinished => set_prod (PLoop todo) d
               | RipCancelled | RipStop => set_prod PFinish d
               end
           end
  | _ => d
  end.

(** A send completes when the channel has room. *)
Definition room (d : dispatch) : Prop := Z.of_nat (length (channel d)) < ordered_capacity.

Definition send_slot (s : OrderedSlot) (p : producer) (d : dispatch) : dispatch :=
  mkDispatch p (channel d ++ [s]) (cons d) (buffered d) (received_finished d) (stop_dispatch d) (is_cancelled d)
    (controller d) (queue_signal d) (fatal_error d) (lane d) (ghost_sent d ++ [s]) (ghost_taken d).

(** ** The consumer *)

(** [slots.recv()]: [None] once the channel is empty and the sender is gone; otherwise it waits. *)
Definition recv (d : dispatch) : option (option OrderedSlot * dispatch) :=
  match channel d with
  | s :: rest => Some (Some s, set_channel rest d)
  | [] => match prod d with PGone => Some (None, d) | _ => None end
  end.

(** After the loop. *)
Definition finish_dispatch (d : dispatch) : dispatch :=
  set_cons CDone
    (if negb (received_finished d) && negb (job_cancelled d)
     then push_lane (FinishedErr (lit "ordered dispatcher stopped unexpectedly")) d
     else push_lane FinalizeMarker d).

Definition handle_slot (s : OrderedSlot) (d : dispatch) : dispatch :=
  let d := take_slot s d in
  match s with
  | SFinished => set_finished d
  | _ =>
      if stop_dispatch d || job_cancelled d then stop d
      else match s with
           | SFresh upload_item => set_cons (CPush upload_item false) d
           | SCached item cached => set_cons (CEnqueue item cached) d
           | SFinished => d
           end
  end.

(** One turn of the main loop; [None]: it waits for the producer. *)
Definition dispatch_turn (d : dispatch) : option dispatch :=
  match buffered d with
  | s :: rest => Some (handle_slot s (set_buffered rest d))
  | [] =>
      if received_finished d then Some (finish_dispatch d)
      else match recv d with
           | Some (Some s, d) => Some (handle_slot s d)
           | Some (None, d) => Some (finish_dispatch d)
           | None => None
           end
  end.

(** [enqueue_upload_task] answers [pushed]. *)
Definition upload_answer (r : PipelineRipResult) (fallback pushed : bool) (d : dispatch) : dispatch :=
  if pushed then set_cons CLoop (push_lane (Uploaded r fallback) d)
  else stop (if negb (job_cancelled d)
             then set_fatal_error (if fallback then lit "ordered fallback upload could not be queued"
                                   else lit "ordered upload could not be queued") d
             else d).

(** The [match cache_result]; [Rerip] submits the rip of the item without its cached copy. *)
Definition cache_resolved (item : PipelineItem) (r : CacheResolution) (d : dispatch) : dispatch :=
  match r with
  | Hit => set_cons CLoop d
  | CacheFailed error => set_cons CLoop (set_fatal_error error d)
  | CacheCancelled => stop d
  | Rerip => set_cons (CWaitRerip (mkItem (item_track_id item) (item_rendition item) None (item_track_index item)) false) d
  end.

Definition enqueue_answer (item : PipelineItem) (cached : CachedTrack) (r : CacheEnqueueResult) (d : dispatch) : dispatch :=
  match r with
  | EnqPending => set_cons (CWaitCache item) (push_lane (CachedTask item cached) d)
  | EnqCancelled => cache_resolved item CacheCancelled d
  | EnqFailed error => cache_resolved item (CacheFailed error) d
  end.

(** The outcome of [wait_for_ordered_rerip], handed to the main loop. *)
Definition rerip_resolved (o : RipLaneOutcome) (d : dispatch) : dispatch :=
  match o with
  | Ripped upload_item => set_cons (CPush upload_item true) d
  | RipFinished => set_cons CLoop d
  | RipCancelled | RipStop => stop d
  end.

Definition ordered_rerip_result (item : PipelineItem) (c : rerip_completion) (d : dispatch) : RipLaneOutcome * dispatch :=
  match c with
  | Completed_ a => (outcome_for item a, d)
  | InvalidResult => (RipStop, set_fatal_error (lit "ordered fallback rip returned an invalid result") d)
  | QueueFailed error =>
      if job_cancelled d then (RipCancelled, d)
      else (RipStop, set_fatal_error (lit "ordered fallback rip failed: " ++ error) d)
  | QueueGone =>
      if job_cancelled d then (RipCancelled, d)
      else (RipStop, set_fatal_error (lit "ordered fallback rip queue stopped unexpectedly") d)
  end.

Definition rerip_completed (item : PipelineItem) (cancelled : bool) (c : rerip_completion) (d : dispatch) : dispatch :=
  let '(outcome, d) := ordered_rerip_result item c d in
  rerip_resolved (if cancelled then RipCancelled else outcome) d.

Definition BUFFER_EXHAUSTED_CACHE : str := lit "ordered dispatcher buffer exhausted while resolving cache".
Definition BUFFER_EXHAUSTED_RERIP : str := lit "ordered dispatcher buffer exhausted while reripping".

(** A slot received while waiting. *)
Definition drain_slot (exhausted : str) (s : OrderedSlot) (d : dispatch) : dispatch :=
  match s with
  | SFinished => set_finished d
  | _ => if Z.of_nat (length (buffered d)) <? ordered_capacity
         then set_buffered (buffered d ++ [s]) d
         else set_fatal_error exhausted d
  end.

(** The [recv] branch of [wait_for_cache_resolution] and of [wait_for_ordered_rerip]. *)
Definition cache_drain (item : PipelineItem) (d : dispatch) : option dispatch :=
  if received_finished d then None
  else match recv d with
       | Some (Some s, d) => Some (drain_slot BUFFER_EXHAUSTED_CACHE s d)
       | Some (None, d) =>
           Some (cache_resolved item (CacheFailed (lit "ordered dispatcher stopped before its finish marker")) d)
       | None => None
       end.

Definition rerip_drain (cancelled : bool) (d : dispatch) : option dispatch :=
  if received_finished d then None
  else match recv d with
       | Some (Some s, d) => Some (drain_slot BUFFER_EXHAUSTED_RERIP s d)
       | Some (None, d) =>
           Some (if cancelled then rerip_resolved RipCancelled d
                 else rerip_resolved RipStop
                        (set_fatal_error (lit "ordered dispatcher stopped before its finish marker") d))
       | None => None
       end.

(** ** Steps *)

Inductive dispatch_step : dispatch -> dispatch -> Prop :=
(* the producer *)
| D_turn a d todo : prod d = PLoop todo -> dispatch_step d (lane_one_turn a d)
| D_sent s todo d : prod d = PSend s todo -> room d -> cons d <> CDone ->
    dispatch_step d (send_slot s (PLoop todo) d)
| D_not_sent s todo d : prod d = PSend s todo -> cons d = CDone \/ controller d = true \/ queue_signal d = true ->
    dispatch_step d (set_prod PFinish d)
| D_finish d : prod d = PFinish -> room d -> cons d <> CDone -> dispatch_step d (send_slot SFinished PGone d)
| D_finish_closed d : prod d = PFinish -> cons d = CDone -> dispatch_step d (set_prod PGone d)
| D_abandoned d : prod d <> PGone -> dispatch_step d (set_prod PGone d)
(* the consumer *)
| D_dispatch d d' : cons d = CLoop -> dispatch_turn d = Some d' -> dispatch_step d d'
| D_upload r fallback pushed d : cons d = CPush r fallback -> dispatch_step d (upload_answer r fallback pushed d)
| D_enqueue item cached r d : cons d = CEnqueue item cached -> dispatch_step d (enqueue_answer item cached r d)
| D_resolved item r d : cons d = CWaitCache item -> dispatch_step d (cache_resolved item r d)
| D_cache_drain item d d' : cons d = CWaitCache item -> cache_drain item d = Some d' -> dispatch_step d d'
| D_cache_cancelled item d : cons d = CWaitCache item -> controller d = true ->
    dispatch_step d (cache_resolved item CacheCancelled d)
| D_rerip item cancelled c d : cons d = CWaitRerip item cancelled -> dispatch_step d (rerip_completed item cancelled c d)
| D_rerip_drain item cancelled d d' : cons d = CWaitRerip item cancelled -> rerip_drain cancelled d = Some d' ->
    dispatch_step d d'
| D_rerip_cancelled item d : cons d = CWaitRerip item false -> controller d = true ->
    dispatch_step d (set_cons (CWaitRerip item true) d).

(** [cancel_task] on the job, and the queue's token. *)
Definition cancel_job (d : dispatch) : dispatch :=
  mkDispatch (prod d) (channel d) (cons d) (buffered d) (received_finished d) (stop_dispatch d) true
    true (queue_signal d) (fatal_error d) (lane d) (ghost_sent d) (ghost_taken d).
Definition cancel_queue_item (d : dispatch) : dispatch :=
  mkDispatch (prod d) (channel d) (cons d) (buffered d) (received_finished d) (stop_dispatch d) (is_cancelled d)
    (controller d) true (fatal_error d) (lane d) (ghost_sent d) (ghost_taken d).

Inductive lane_step : dispatch -> dispatch -> Prop :=
| L_dispatch d d' : dispatch_step d d' -> lane_step d d'
| L_cancel d : lane_step d (cancel_job d)
| L_cancel_queue d : lane_step d (cancel_queue_item d).

End Capacity.

Definition init (uncached_items : list PipelineItem) : dispatch :=
  mkDispatch (PLoop uncached_items) [] CLoop [] false false false false false None [] [] [].

(** [run_lane_one] makes the channel of this capacity and hands the dispatcher the same number. *)
Definition run_lane_one (uncached_items : list PipelineItem) : dispatch -> Prop :=
  steps (lane_step (ordered_slot_capacity (Z.of_nat (length uncached_items)))) (init uncached_items).

End Dispatch.

Arguments PipelineRipResult R : clear implicits.
Arguments dispatch R : clear implicits.
Arguments OrderedSlot R : clear implicits.
Arguments lane_event R : clear implicits.

(** ** Invariants *)

Section Invariant.
Context {R : Type}.
Implicit Types d : dispatch R.

Definition is_slot (s : OrderedSlot R) : bool := match s with SFinished => false | _ => true end.
Definition slots : list (OrderedSlot R) -> list (OrderedSlot R) := List.filter is_slot.

(** The slot stands for the item. *)
Definition slot_of (item : PipelineItem) (s : OrderedSlot R) : Prop :=
  match s with
  | SCached i c => i = item /\ item_cached item = Some c
  | SFresh r => item_cached item = None /\ exists x, r = ripped item x
  | SFinished => False
  end.

(** The items the producer has still to send, the one in its hands included. *)
Definition still_to_send (p : producer (R := R)) (l : list PipelineItem) : Prop :=
  match p with
  | PLoop todo => l = todo
  | PSend s todo => exists item, slot_of item s /\ l = item :: todo
  | PFinish | PGone => l = []
  end.

(** What the lane may get for one item. *)
Definition item_events (item : PipelineItem) (evs : list (lane_event R)) : Prop :=
  match item_cached item with
  | None => evs = [] \/ exists x, evs = [Uploaded (ripped item x) false]
  | Some c => evs = [] \/ evs = [CachedTask item c] \/
              exists x, evs = [CachedTask item c; Uploaded (ripped item x) true]
  end.

(** What it has got for the item being handled. *)
Definition current_events (c : consumer (R := R)) (item : PipelineItem) (evs : list (lane_event R)) : Prop :=
  match c with
  | CLoop | CDone => False
  | CPush r false => evs = [] /\ item_cached item = None /\ exists x, r = ripped item x
  | CPush r true => exists c, item_cached item = Some c /\ evs = [CachedTask item c] /\ exists x, r = ripped item x
  | CEnqueue i c => evs = [] /\ i = item /\ item_cached item = Some c
  | CWaitCache i => exists c, item_cached item = Some c /\ evs = [CachedTask item c] /\ i = item
  | CWaitRerip i _ => exists c, item_cached item = Some c /\ evs = [CachedTask item c] /\
      item_track_id i = item_track_id item /\ item_rendition i = item_rendition item /\
      item_track_index i = item_track_index item
  end.

Definition between (c : consumer (R := R)) : bool := match c with CLoop | CDone => true | _ => false end.

(** The items taken, split at the one being handled, with what the lane got for each; the final
    event is there exactly when the dispatcher has ended. *)
Definition lane_log (d : dispatch R) (taken : list PipelineItem) : Prop :=
  exists done cur groups part fin,
    taken = done ++ cur /\ Forall2 item_events done groups /\ lane d = concat groups ++ part ++ fin /\
    (if between (cons d) then cur = [] /\ part = []
     else exists item, cur = [item] /\ current_events (cons d) item part) /\
    (match cons d with
     | CDone => (fin = [FinalizeMarker] /\ (received_finished d = true \/ job_cancelled d = true)) \/
                (fin = [FinishedErr (lit "ordered dispatcher stopped unexpectedly")] /\ received_finished d = false)
     | _ => fin = []
     end) /\
    (stop_dispatch d = false -> fatal_error d = None -> Forall (fun evs => evs <> []) groups).

Definition marker_last (d : dispatch R) : Prop :=
  (SFinished ∉ ghost_sent d /\ SFinished ∉ channel d /\ received_finished d = false) \/
  (prod d = PGone /\ (exists l, ghost_sent d = l ++ [SFinished] /\ SFinished ∉ l) /\
   (if received_finished d then channel d = []
    else exists k, channel d = k ++ [SFinished] /\ SFinished ∉ k)).

Record dispatch_inv (cap : Z) (items : list PipelineItem) (d : dispatch R) : Prop := {
  (* the finish marker is the last thing on the channel *)
  di_marker : marker_last d;
  di_fifo : slots (ghost_taken d) ++ buffered d ++ slots (channel d) = slots (ghost_sent d);
  di_buffer : Forall (fun s => is_slot s = true) (buffered d);
  di_drained : cons d = CDone -> buffered d = [] /\ channel d = [];
  di_items : exists sent rest, Forall2 slot_of sent (slots (ghost_sent d)) /\ still_to_send (prod d) rest /\
               sent ++ rest `sublist_of` items;
  di_log : exists taken, Forall2 slot_of taken (slots (ghost_taken d)) /\ lane_log d taken;
  di_cap : Z.of_nat (length items) < cap;
}.

(** ** Lemmas *)

Lemma slots_app l k : slots (l ++ k) = slots l ++ slots k.
Proof. apply List.filter_app. Qed.

Lemma slots_cons s l : slots (s :: l) = (if is_slot s then [s] else []) ++ slots l.
Proof. cbn. by destruct (is_slot s). Qed.

Lemma slots_no_marker l : SFinished ∉ l -> slots l = l.
Proof.
  induction l as [|s l IH]; intros Hl; [done|]. rewrite not_elem_of_cons in Hl. destruct Hl as [Hs Hl].
  cbn. by destruct s; rewrite ?IH.
Qed.

Lemma slots_length l : (length (slots l) <= length l)%nat.
Proof. induction l as [|s l IH]; cbn; [lia|]. destruct (is_slot s); cbn; lia. Qed.

(** The log: an item's handling ends, goes on, begins; an item is skipped. *)
Lemma log_done d d' taken evs :
  lane_log d taken -> between (cons d) = false -> cons d' = CLoop -> lane d' = lane d ++ evs ->
  (forall item part, current_events (cons d) item part -> item_events item (part ++ evs)) ->
  (stop_dispatch d' = false -> fatal_error d' = None -> stop_dispatch d = false /\ fatal_error d = None /\
     forall item part, current_events (cons d) item part -> part ++ evs <> []) ->
  lane_log d' taken.
Proof.
  intros (done & cur & groups & part & fin & -> & Hg & Hl & Hc & Hf & Hn) Hb Hc' Hl' Hev Hne.
  rewrite Hb in Hc. destruct Hc as (item & -> & Hcur).
  assert (fin = []) as -> by (destruct (cons d); done). rewrite app_nil_r in Hl.
  exists (done ++ [item]), [], (groups ++ [part ++ evs]), [], [].
  split_and!; [by rewrite app_nil_r|apply Forall2_app; [done|constructor; [by apply Hev|constructor]]| | | |].
  - rewrite Hl', Hl, concat_app. cbn. by rewrite !app_nil_r, app_assoc.
  - by rewrite Hc'.
  - by rewrite Hc'.
  - intros Hs Hfa. destruct (Hne Hs Hfa) as (Hs0 & Hf0 & Hp). apply Forall_app. split; [by apply Hn|].
    apply Forall_singleton. by eapply Hp.
Qed.

Lemma log_move d d' taken evs :
  lane_log d taken -> between (cons d) = false -> between (cons d') = false -> lane d' = lane d ++ evs ->
  (forall item part, current_events (cons d) item part -> current_events (cons d') item (part ++ evs)) ->
  (stop_dispatch d' = false -> fatal_error d' = None -> stop_dispatch d = false /\ fatal_error d = None) ->
  lane_log d' taken.
Proof.
  intros (done & cur & groups & part & fin & -> & Hg & Hl & Hc & Hf & Hn) Hb Hb' Hl' Hev Hne.
  rewrite Hb in Hc. destruct Hc as (item & -> & Hcur).
  assert (fin = []) as -> by (destruct (cons d); done). rewrite app_nil_r in Hl.
  exists done, [item], groups, (part ++ evs), [].
  split_and!; [done|done| | | |].
  - by rewrite Hl', Hl, app_nil_r, app_assoc.
  - rewrite Hb'. exists item. split; [done|by apply Hev].
  - destruct (cons d'); done.
  - intros Hs Hfa. destruct (Hne Hs Hfa). by apply Hn.
Qed.

Lemma log_take d d' taken item :
  lane_log d taken -> cons d = CLoop -> between (cons d') = false -> current_events (cons d') item [] ->
  lane d' = lane d -> stop_dispatch d' = stop_dispatch d -> fatal_error d' = fatal_error d ->
  lane_log d' (taken ++ [item]).
Proof.
  intros (done & cur & groups & part & fin & -> & Hg & Hl & Hc & Hf & Hn) Hc0 Hb Hev Hl' Hs Hfa.
  rewrite Hc0 in Hc, Hf. destruct Hc as [-> ->]. subst fin. exists done, [item], groups, [], [].
  split_and!; [by rewrite app_nil_r|done|by rewrite Hl'|rewrite Hb; by exists item|by destruct (cons d')|].
  by rewrite Hs, Hfa.
Qed.

Lemma log_skip d d' taken item :
  lane_log d taken -> cons d = CLoop -> cons d' = CLoop -> lane d' = lane d -> stop_dispatch d' = true ->
  lane_log d' (taken ++ [item]).
Proof.
  intros (done & cur & groups & part & fin & -> & Hg & Hl & Hc & Hf & Hn) Hc0 Hc' Hl' Hs.
  rewrite Hc0 in Hc, Hf. destruct Hc as [-> ->]. subst fin. exists (done ++ [item]), [], (groups ++ [[]]), [], [].
  split_and!; [by rewrite !app_nil_r| | |by rewrite Hc'|by rewrite Hc'|congruence].
  - apply Forall2_app; [done|]. constructor; [|constructor]. unfold item_events. destruct (item_cached item); by left.
  - rewrite Hl', Hl, concat_app. cbn. by rewrite !app_nil_r.
Qed.

Lemma log_same d d' taken :
  lane_log d taken -> cons d' = cons d -> lane d' = lane d ->
  (cons d = CDone -> received_finished d' = received_finished d /\ (job_cancelled d = true -> job_cancelled d' = true)) ->
  (stop_dispatch d' = false -> fatal_error d' = None -> stop_dispatch d = false /\ fatal_error d = None) ->
  lane_log d' taken.
Proof.
  intros (done & cur & groups & part & fin & -> & Hg & Hl & Hc & Hf & Hn) Hc' Hl' Hd Hne.
  exists done, cur, groups, part, fin. rewrite Hc', Hl'. split_and!; try done.
  - destruct (cons d); try done. destruct (Hd eq_refl) as [-> Hj]. naive_solver.
  - intros Hs Hfa. destruct (Hne Hs Hfa). by apply Hn.
Qed.

Lemma inv_consumer cap items d d' :
  dispatch_inv cap items d -> prod d' = prod d -> channel d' = channel d -> buffered d' = buffered d ->
  received_finished d' = received_finished d -> ghost_sent d' = ghost_sent d -> ghost_taken d' = ghost_taken d ->
  cons d' <> CDone -> (forall taken, lane_log d taken -> lane_log d' taken) -> dispatch_inv cap items d'.
Proof.
  intros [Hm Hf Hb Hd Hi (taken & Ht & Hl) Hc] E1 E2 E3 E4 E5 E6 Hnd Hlog.
  split; unfold marker_last; rewrite ?E1, ?E2, ?E3, ?E4, ?E5, ?E6; try done. exists taken. split; [done|by apply Hlog].
Qed.

Lemma inv_upload cap items d r fallback pushed :
  dispatch_inv cap items d -> cons d = CPush r fallback -> dispatch_inv cap items (upload_answer r fallback pushed d).
Proof.
  intros Hinv Hc. unfold upload_answer.
  assert (Hev : forall item part, current_events (cons d) item part ->
    item_events item part /\ item_events item (part ++ [Uploaded r fallback])).
  { intros item part. rewrite Hc. unfold item_events. destruct fallback; cbn.
    - intros (c & -> & -> & x & ->). split; [by eauto|right; right; by exists x].
    - intros (-> & -> & x & ->). split; [by eauto|right; by exists x]. }
  destruct pushed; (apply (inv_consumer cap items d); try done; try (by destruct (negb _), fallback)).
  - intros taken Hl. eapply log_done; [exact Hl|by rewrite Hc|done|reflexivity|apply Hev|].
    intros Hs Hfa. split_and!; [done|done|]. intros item part _. by destruct part.
  - intros taken Hl. eapply (log_done _ _ _ []); [exact Hl|by rewrite Hc|done| | |done].
    + rewrite app_nil_r. by destruct (negb _).
    + intros item part Hp. rewrite app_nil_r. by apply Hev.
Qed.

Lemma inv_resolved cap items d item r :
  dispatch_inv cap items d -> cons d = CWaitCache item -> dispatch_inv cap items (cache_resolved item r d).
Proof.
  intros Hinv Hc.
  assert (Hev : forall i part, current_events (cons d) i part -> i = item /\ item_events i (part ++ []) /\ part ++ [] <> []).
  { intros i part. rewrite Hc, app_nil_r. cbn. intros (c & Hi & -> & <-). unfold item_events. rewrite Hi. by eauto. }
  destruct r as [| | |e]; (apply (inv_consumer cap items d); [done..|]); intros taken Hl.
  - eapply (log_done _ _ _ []); [exact Hl|by rewrite Hc|done|by rewrite app_nil_r|apply Hev|].
    intros Hs Hfa. split_and!; [done|done|]. intros i part Hp. by apply (Hev i part Hp).
  - eapply (log_move _ _ _ []); [exact Hl|by rewrite Hc|done|by rewrite app_nil_r| |done].
    intros i part. rewrite Hc, app_nil_r. cbn. intros (c & Hi & -> & ->). by exists c.
  - eapply (log_done _ _ _ []); [exact Hl|by rewrite Hc|done|by rewrite app_nil_r|apply Hev|done].
  - eapply (log_done _ _ _ []); [exact Hl|by rewrite Hc|done|by rewrite app_nil_r|apply Hev|].
    cbn. by destruct (fatal_error d).
Qed.

Lemma inv_enqueue cap items d item cached r :
  dispatch_inv cap items d -> cons d = CEnqueue item cached -> dispatch_inv cap items (enqueue_answer item cached r d).
Proof.
  intros Hinv Hc.
  assert (Hev : forall i part, current_events (cons d) i part -> item_events i (part ++ [])).
  { intros i part. rewrite Hc, app_nil_r. cbn. intros (-> & _ & Hi). unfold item_events. rewrite Hi. by left. }
  destruct r as [| |e]; (apply (inv_consumer cap items d); [done..|]); intros taken Hl; cbn.
  - eapply log_move; [exact Hl|by rewrite Hc|done|reflexivity| |done].
    intros i part. rewrite Hc. cbn. intros (-> & -> & Hi). by exists cached.
  - eapply (log_done _ _ _ []); [exact Hl|by rewrite Hc|done|by rewrite app_nil_r|apply Hev|done].
  - eapply (log_done _ _ _ []); [exact Hl|by rewrite Hc|done|by rewrite app_nil_r|apply Hev|].
    cbn. by destruct (fatal_error d).
Qed.

(** The same for the outcome of a rerip; [d0] differs from [d] in the fatal error it may have set. *)
Lemma inv_rerip_resolved cap items d item cancelled o e :
  dispatch_inv cap items d -> cons d = CWaitRerip item cancelled ->
  (forall r, o = Ripped r -> exists x, r = ripped item x) -> (e = None -> fatal_error d = None) ->
  dispatch_inv cap items (rerip_resolved o
    (mkDispatch (prod d) (channel d) (cons d) (buffered d) (received_finished d) (stop_dispatch d) (is_cancelled d)
       (controller d) (queue_signal d) e (lane d) (ghost_sent d) (ghost_taken d))).
Proof.
  intros Hinv Hc Ho He.
  assert (Hev : forall i part, current_events (cons d) i part -> item_events i (part ++ []) /\ part ++ [] <> []).
  { intros i part. rewrite Hc, app_nil_r. cbn. intros (c & Hi & -> & _). unfold item_events. rewrite Hi. by eauto. }
  destruct o as [r| | |]; (apply (inv_consumer cap items d); [done..|]); intros taken Hl; cbn.
  - eapply (log_move _ _ _ []); [exact Hl|by rewrite Hc|done|by rewrite app_nil_r| |].
    + intros i part. rewrite Hc, app_nil_r. cbn. intros (c & Hi & -> & E1 & E2 & E3). exists c. split; [done|]. split; [done|].
      destruct (Ho r eq_refl) as [x ->]. exists x. unfold ripped. congruence.
    + cbn. intros. split; [done|]. by apply He.
  - eapply (log_done _ _ _ []); [exact Hl|by rewrite Hc|done|by rewrite app_nil_r|apply Hev|].
    cbn. intros. split_and!; [done|by apply He|apply Hev].
  - eapply (log_done _ _ _ []); [exact Hl|by rewrite Hc|done|by rewrite app_nil_r|apply Hev|done].
  - eapply (log_done _ _ _ []); [exact Hl|by rewrite Hc|done|by rewrite app_nil_r|apply Hev|done].
Qed.

Lemma first_error (d : dispatch R) e :
  (match fatal_error d with None => Some e | o => o end) = None -> fatal_error d = None.
Proof. by destruct (fatal_error d). Qed.

Lemma inv_rerip cap items d item cancelled c :
  dispatch_inv cap items d -> cons d = CWaitRerip item cancelled ->
  dispatch_inv cap items (rerip_completed item cancelled c d).
Proof.
  intros Hinv Hc. unfold rerip_completed.
  assert (Ho : forall (o : RipLaneOutcome (R := R)) a, (o = RipCancelled \/ o = outcome_for item a \/ o = RipStop) ->
    forall r, o = Ripped r -> exists x, r = ripped item x).
  { intros o a [->|[->| ->]] r; [done| |done]. destruct a; cbn; [|done..]. intros [= <-]. by eexists. }
  assert (Hsame : forall o, (forall r, o = Ripped r -> exists x, r = ripped item x) ->
    dispatch_inv cap items (rerip_resolved o d)).
  { intros o Hr. pose proof (inv_rerip_resolved cap items d item cancelled o (fatal_error d) Hinv Hc Hr id) as H.
    by destruct d. }
  destruct c as [a| |e|]; cbn [ordered_rerip_result].
  - apply Hsame. apply (Ho _ a). destruct cancelled; auto.
  - apply (inv_rerip_resolved cap items d item cancelled); [done|done| |apply first_error].
    apply (Ho _ AnsStop). destruct cancelled; auto.
  - destruct (job_cancelled d); [apply Hsame; apply (Ho _ AnsStop); by destruct cancelled; auto|].
    apply (inv_rerip_resolved cap items d item cancelled); [done|done| |apply first_error].
    apply (Ho _ AnsStop). destruct cancelled; auto.
  - destruct (job_cancelled d); [apply Hsame; apply (Ho _ AnsStop); by destruct cancelled; auto|].
    apply (inv_rerip_resolved cap items d item cancelled); [done|done| |apply first_error].
    apply (Ho _ AnsStop). destruct cancelled; auto.
Qed.

Lemma slot_of_is item s : slot_of item s -> is_slot s = true.
Proof. by destruct s. Qed.

Lemma sent_slot cap items d s :
  dispatch_inv cap items d -> s ∈ buffered d ++ slots (channel d) -> exists item, slot_of item s.
Proof.
  intros Hinv Hs. destruct (di_items _ _ _ Hinv) as (sent & rest & Hsent & _).
  assert (Hin : s ∈ slots (ghost_sent d)) by (rewrite <-(di_fifo _ _ _ Hinv); set_solver).
  apply list_elem_of_lookup in Hin as [i Hi]. destruct (Forall2_lookup_r _ _ _ _ _ Hsent Hi) as (item & _ & Ho). by exists item.
Qed.

(** No more slots than items are under way, so neither the channel nor the buffer ever fills up. *)
Lemma sent_bound cap items d rest :
  dispatch_inv cap items d -> still_to_send (prod d) rest ->
  (length (buffered d) + length (slots (channel d)) + length rest <= length items)%nat.
Proof.
  intros [_ Hf _ _ (sent & rest' & Hsent & Hr & Hsub) _ _] Hrest. apply Forall2_length in Hsent. apply sublist_length in Hsub.
  rewrite <-Hf in Hsent. rewrite !length_app in *.
  assert (length rest = length rest') as ->; [|lia].
  destruct (prod d); cbn in *; [congruence| |congruence..]. destruct Hrest as (? & _ & ->), Hr as (? & _ & ->). done.
Qed.

Lemma inv_frame cap items d d' :
  dispatch_inv cap items d -> prod d' = prod d -> channel d' = channel d -> cons d' = cons d -> buffered d' = buffered d ->
  received_finished d' = received_finished d -> stop_dispatch d' = stop_dispatch d -> fatal_error d' = fatal_error d ->
  lane d' = lane d -> ghost_sent d' = ghost_sent d -> ghost_taken d' = ghost_taken d ->
  (job_cancelled d = true -> job_cancelled d' = true) -> dispatch_inv cap items d'.
Proof.
  intros [Hm Hf Hb Hd Hi (taken & Ht & Hl) Hc] E1 E2 E3 E4 E5 E6 E7 E8 E9 E10 E11.
  split; unfold marker_last; rewrite ?E1, ?E2, ?E3, ?E4, ?E5, ?E6, ?E7, ?E8, ?E9, ?E10; try done.
  exists taken. split; [done|]. apply (log_same d); try done. by rewrite E6, E7.
Qed.

Lemma inv_prod cap items d p :
  dispatch_inv cap items d -> (prod d = PGone -> p = PGone) ->
  (forall rest, still_to_send (prod d) rest -> exists rest', still_to_send p rest' /\ rest' `sublist_of` rest) ->
  dispatch_inv cap items (set_prod p d).
Proof.
  intros [Hm Hf Hb Hd (sent & rest & Hsent & Hr & Hsub) (taken & Ht & Hl) Hc] Hgone Hrest. split; cbn; try done.
  - destruct Hm as [Hm|(Hp & Hm)]; [by left|right]. split; [by apply Hgone|done].
  - destruct (Hrest rest Hr) as (rest' & Hr' & Hsub'). exists sent, rest'. split_and!; [done|done|].
    etrans; [|exact Hsub]. by apply sublist_app.
  - exists taken. split; [done|]. by apply (log_same d).
Qed.

Lemma inv_turn cap items d a todo :
  dispatch_inv cap items d -> prod d = PLoop todo -> dispatch_inv cap items (lane_one_turn a d).
Proof.
  intros Hinv Hp. unfold lane_one_turn. rewrite Hp.
  assert (Hstop : dispatch_inv cap items (set_prod PFinish d)).
  { apply inv_prod; [done|by rewrite Hp|]. intros rest _. exists []. split; [done|apply sublist_nil_l]. }
  destruct todo as [|item todo]; [done|]. destruct (_ || _); [done|].
  destruct (item_cached item) as [c|] eqn:Hc; [|destruct a; cbn [outcome_for]]; try done;
    (apply inv_prod; [done|by rewrite Hp|]; rewrite Hp; cbn; intros rest ->).
  - exists (item :: todo). split; [|done]. by exists item.
  - exists (item :: todo). split; [|done]. exists item. split; [|done]. split; [done|by eexists].
  - exists todo. split; [done|by constructor].
Qed.

Lemma inv_sent cap items d s todo :
  dispatch_inv cap items d -> prod d = PSend s todo -> cons d <> CDone -> dispatch_inv cap items (send_slot s (PLoop todo) d).
Proof.
  intros [Hm Hf Hb Hd (sent & rest & Hsent & Hr & Hsub) (taken & Ht & Hl) Hc] Hp Hn. rewrite Hp in Hr.
  destruct Hr as (item & Ho & ->). pose proof (slot_of_is item s Ho) as Hs.
  assert (Hone : slots [s] = [s]) by (by cbn; rewrite Hs).
  split; cbn; try done.
  - destruct Hm as [(H1 & H2 & H3)|[H _]]; [left; cbn|congruence].
    rewrite !not_elem_of_app, !list_elem_of_singleton. by destruct s.
  - rewrite !slots_app, Hone, <-Hf. by rewrite <-!app_assoc.
  - exists (sent ++ [item]), todo. rewrite slots_app, Hone. split_and!; [|done|by rewrite <-app_assoc].
    apply Forall2_app; [done|by constructor].
  - exists taken. split; [done|]. by apply (log_same d).
Qed.

Lemma inv_marker cap items d :
  dispatch_inv cap items d -> prod d = PFinish -> cons d <> CDone -> dispatch_inv cap items (send_slot SFinished PGone d).
Proof.
  intros [Hm Hf Hb Hd (sent & rest & Hsent & Hr & Hsub) (taken & Ht & Hl) Hc] Hp Hn. rewrite Hp in Hr.
  destruct Hm as [(H1 & H2 & H3)|[H _]]; [|congruence].
  split; cbn; try done.
  - right. cbn. split; [done|]. rewrite H3. split; [by eexists|by eexists].
  - by rewrite !slots_app, !app_nil_r.
  - exists sent, rest. by rewrite slots_app, app_nil_r.
  - exists taken. split; [done|]. by apply (log_same d).
Qed.

(** A slot is taken out of [d], which leaves [d1], and handled. *)
Lemma inv_handle cap items d d1 s :
  dispatch_inv cap items d -> cons d = CLoop -> is_slot s = true -> d1 = set_channel (channel d1) (set_buffered (buffered d1) d) ->
  marker_last d1 -> Forall (fun s => is_slot s = true) (buffered d1) ->
  [s] ++ buffered d1 ++ slots (channel d1) = buffered d ++ slots (channel d) ->
  dispatch_inv cap items (handle_slot s d1).
Proof.
  intros Hinv Hc Hs Hd1 Hm1 Hb1 Hq. destruct (sent_slot cap items d s Hinv) as [item Ho]; [rewrite <-Hq; set_solver|].
  destruct Hinv as [Hm Hf Hb Hd Hi (taken & Ht & Hl) Hcap]. rewrite <-Hq in Hf.
  destruct d as [p0 ch0 c0 b0 rf sd ic ct qs fe ln gs gt]. destruct d1 as [p1 ch1 c1 b1 rf1 sd1 ic1 ct1 qs1 fe1 ln1 gs1 gt1].
  cbn in *. injection Hd1 as -> -> -> -> -> -> -> -> -> -> ->. subst c0.
  assert (Hone : slots [s] = [s]) by (by cbn; rewrite Hs).
  assert (Htk : Forall2 slot_of (taken ++ [item]) (slots (gt ++ [s])))
    by (rewrite slots_app, Hone; apply Forall2_app; [done|by constructor]).
  assert (Hf' : slots (gt ++ [s]) ++ b1 ++ slots ch1 = slots gs) by (by rewrite slots_app, Hone, <-Hf, <-app_assoc).
  unfold handle_slot. cbn. destruct s as [i c|r|]; [| |done].
  - destruct Ho as [-> Ho]. destruct (_ || _); (split; cbn; try done; exists (taken ++ [item]); split; [done|]).
    + by eapply log_skip.
    + eapply log_take; [exact Hl|done|done|by cbn|done..].
  - destruct Ho as [Ho [x ->]]. destruct (_ || _); (split; cbn; try done; exists (taken ++ [item]); split; [done|]).
    + by eapply log_skip.
    + eapply log_take; [exact Hl|done|done|cbn; by eauto|done..].
Qed.

Lemma marker_pop d s rest :
  marker_last d -> channel d = s :: rest ->
  received_finished d = false /\
  (if is_slot s then marker_last (set_channel rest d) else rest = [] /\ marker_last (set_finished (set_channel rest d))).
Proof.
  intros [(H1 & H2 & H3)|(Hp & Hl & Hk)] Hch.
  - split; [done|]. rewrite Hch, not_elem_of_cons in H2. destruct H2. destruct s; cbn; by left || done.
  - destruct (received_finished d) eqn:E; [congruence|]. split; [done|]. destruct Hk as (k & Hk & Hn). rewrite Hch in Hk.
    destruct k as [|s' k]; injection Hk as -> ->; cbn.
    + split; [done|]. right. cbn. by split.
    + rewrite not_elem_of_cons in Hn. destruct Hn. destruct s'; cbn; try done; right; cbn; rewrite E; eauto.
Qed.

Lemma inv_finish cap items d :
  dispatch_inv cap items d -> cons d = CLoop -> buffered d = [] -> channel d = [] -> dispatch_inv cap items (finish_dispatch d).
Proof.
  intros [Hm Hf Hb Hd Hi (taken & Ht & Hl) Hcap] Hc Hbuf Hch.
  split; try (unfold finish_dispatch; destruct (_ && _); done); [|done].
  exists taken. split; [unfold finish_dispatch; by destruct (_ && _)|].
  destruct Hl as (done & cur & groups & part & fin & -> & Hg & Hln & Hcu & Hfi & Hn).
  rewrite Hc in Hcu, Hfi. destruct Hcu as [-> ->]. subst fin. cbn in Hln. rewrite app_nil_r in Hln.
  unfold finish_dispatch. destruct (negb _ && negb _) eqn:E;
    eexists done, [], groups, [], [_]; (split_and!; [done|done|cbn; rewrite Hln; reflexivity|done| |done]); cbn.
  - right. split; [done|]. by destruct (received_finished d) eqn:Hr.
  - left. split; [done|]. destruct (received_finished d); [by left|right]. change (job_cancelled d = true).
    by destruct (job_cancelled d).
Qed.

(** Draining the marker keeps the invariant. *)
Lemma inv_set_finished cap items d rest :
  dispatch_inv cap items d -> cons d <> CDone -> channel d = SFinished :: rest ->
  dispatch_inv cap items (set_finished (set_channel rest d)).
Proof.
  intros [Hm Hf Hb Hd Hi (taken & Ht & Hl) Hcap] Hn Hch.
  pose proof (marker_pop d _ rest Hm Hch) as (Hrf & -> & Hm'). split; cbn; try done.
  - by rewrite Hch in Hf.
  - exists taken. split; [done|]. by apply (log_same d).
Qed.

Lemma inv_drain cap items d s rest exhausted :
  dispatch_inv cap items d -> cons d <> CLoop -> cons d <> CDone -> channel d = s :: rest ->
  dispatch_inv cap items (drain_slot cap exhausted s (set_channel rest d)).
Proof.
  intros Hinv Hc Hn Hch. destruct (is_slot s) eqn:Hs; [|destruct s; try done; by apply inv_set_finished].
  destruct (di_items _ _ _ Hinv) as (sent & rest' & _ & Hr & _).
  pose proof (sent_bound cap items d rest' Hinv Hr) as Hlen. rewrite Hch, slots_cons, Hs, length_app in Hlen. cbn in Hlen.
  assert (Hroom : Z.of_nat (length (buffered d)) <? cap = true).
  { apply Z.ltb_lt. pose proof (di_cap _ _ _ Hinv). lia. }
  destruct Hinv as [Hm Hf Hb Hd Hi (taken & Ht & Hl) Hcap].
  pose proof (marker_pop d s rest Hm Hch) as [Hrf Hm']. rewrite Hs in Hm'.
  assert (drain_slot cap exhausted s (set_channel rest d) = set_buffered (buffered d ++ [s]) (set_channel rest d)) as ->
    by (by destruct s; cbn; rewrite ?Hroom).
  split; cbn; try done.
  - rewrite Hch, slots_cons, Hs in Hf. by rewrite <-Hf, <-!app_assoc.
  - apply Forall_app. split; [done|by constructor].
  - exists taken. split; [done|]. by apply (log_same d).
Qed.

Lemma inv_dispatch cap items d d' :
  dispatch_inv cap items d -> cons d = CLoop -> dispatch_turn d = Some d' -> dispatch_inv cap items d'.
Proof.
  intros Hinv Hc. unfold dispatch_turn. destruct (buffered d) as [|s rest] eqn:Hb.
  - destruct (received_finished d) eqn:Hrf.
    + intros [= <-]. apply inv_finish; [done..|]. destruct (di_marker _ _ _ Hinv) as [(_ & _ & H)|(_ & _ & H)]; [congruence|].
      by rewrite Hrf in H.
    + unfold recv. destruct (channel d) as [|s rest] eqn:Hch.
      * destruct (prod d); try done. intros [= <-]. by apply inv_finish.
      * intros [= <-]. pose proof (marker_pop d s rest (di_marker _ _ _ Hinv) Hch) as [_ Hm].
        destruct (is_slot s) eqn:Hs.
        -- eapply (inv_handle cap items d); [done|done|done|reflexivity|done|cbn; by rewrite Hb|].
           cbn. rewrite Hb, Hch, slots_cons, Hs. done.
        -- destruct s; try done. unfold handle_slot.
           pose proof (inv_set_finished cap items d rest Hinv ltac:(by rewrite Hc) Hch) as H.
           destruct H as [Hm1 Hf1 Hb1 Hd1 Hi1 (taken & Ht & Hl) Hcap]. split; cbn in *; try done.
           ++ by rewrite slots_app, app_nil_r.
           ++ exists taken. split; [by rewrite slots_app, app_nil_r|by apply (log_same _ _ _ Hl)].
  - intros [= <-]. pose proof (di_buffer _ _ _ Hinv) as Hbuf. rewrite Hb in Hbuf. apply Forall_cons in Hbuf as [Hs Hrest].
    eapply (inv_handle cap items d); [done|done|done|reflexivity|apply (di_marker _ _ _ Hinv)|done|].
    cbn. by rewrite Hb.
Qed.

Lemma inv_cache_drain cap items d item d' :
  dispatch_inv cap items d -> cons d = CWaitCache item -> cache_drain cap item d = Some d' -> dispatch_inv cap items d'.
Proof.
  intros Hinv Hc. unfold cache_drain. destruct (received_finished d); [done|]. unfold recv.
  destruct (channel d) as [|s rest] eqn:Hch.
  - destruct (prod d); try done. intros [= <-]. exact (inv_resolved cap items d item (CacheFailed _) Hinv Hc).
  - intros [= <-]. apply inv_drain; [done|congruence|congruence|done].
Qed.

Lemma inv_rerip_drain cap items d item cancelled d' :
  dispatch_inv cap items d -> cons d = CWaitRerip item cancelled -> rerip_drain cap cancelled d = Some d' ->
  dispatch_inv cap items d'.
Proof.
  intros Hinv Hc. unfold rerip_drain. destruct (received_finished d); [done|]. unfold recv.
  destruct (channel d) as [|s rest] eqn:Hch.
  - destruct (prod d); try done. intros [= <-]. destruct cancelled.
    + pose proof (inv_rerip_resolved cap items d item true RipCancelled (fatal_error d) Hinv Hc ltac:(done) id) as H. by destruct d.
    + apply (inv_rerip_resolved cap items d item false RipStop); [done|done|done|apply first_error].
  - intros [= <-]. apply inv_drain; [done|congruence|congruence|done].
Qed.

Lemma inv_step cap items d d' : dispatch_inv cap items d -> lane_step cap d d' -> dispatch_inv cap items d'.
Proof.
  intros Hinv Hs. destruct Hs as [d d' Hs|d|d].
  2-3: by apply (inv_frame cap items d); try done; unfold job_cancelled; cbn; rewrite ?orb_true_r.
  assert (Hnil : forall rest, exists rest' : list PipelineItem, rest' = [] /\ rest' `sublist_of` rest)
    by (intros rest; exists []; split; [done|apply sublist_nil_l]).
  destruct Hs as [a d todo Hp|s todo d Hp Hr Hc|s todo d Hp Hc|d Hp Hr Hc|d Hp Hc|d Hp|d d' Hc Ht|r fb pushed d Hc|
    item c r d Hc|item r d Hc|item d d' Hc Hd|item d Hc Hk|item k c d Hc|item k d d' Hc Hd|item d Hc Hk].
  - by eapply inv_turn.
  - by eapply inv_sent.
  - apply inv_prod; [done|by rewrite Hp|intros; apply Hnil].
  - by apply inv_marker.
  - apply inv_prod; [done|done|intros; apply Hnil].
  - apply inv_prod; [done|done|intros; apply Hnil].
  - by eapply inv_dispatch.
  - by apply inv_upload.
  - by apply inv_enqueue.
  - by apply inv_resolved.
  - by eapply inv_cache_drain.
  - by apply inv_resolved.
  - by apply inv_rerip.
  - by eapply inv_rerip_drain.
  - apply (inv_consumer cap items d); try done. intros taken Hl.
    eapply (log_move _ _ _ []); [exact Hl|by rewrite Hc|done|by rewrite app_nil_r| |done].
    intros i part. by rewrite Hc, app_nil_r.
Qed.

Lemma inv_init items :
  Z.of_nat (length items) < usize_max -> dispatch_inv (ordered_slot_capacity (Z.of_nat (length items))) items (init items).
Proof.
  intros Hn. split; cbn; try done.
  - left. cbn. rewrite !elem_of_nil. by auto.
  - exists [], items. by split_and!.
  - exists []. split; [done|]. exists [], [], [], [], []. by split_and!.
  - unfold ordered_slot_capacity, saturating_add. lia.
Qed.

Lemma run_inv items d :
  Z.of_nat (length items) < usize_max -> run_lane_one items d ->
  dispatch_inv (ordered_slot_capacity (Z.of_nat (length items))) items d.
Proof.
  intros Hn Hs. refine (steps_invariant _ _ (inv_step _ items) _ d Hs _). by apply inv_init.
Qed.

(** ** Progress *)

Definition producer_weight (p : producer (R := R)) : nat :=
  match p with
  | PLoop todo => 10 + 20 * length todo
  | PSend _ todo => 19 + 20 * length todo
  | PFinish => 9
  | PGone => 0
  end.

Definition consumer_weight (c : consumer (R := R)) : nat :=
  match c with
  | CEnqueue _ _ => 7 | CWaitCache _ => 6 | CWaitRerip _ false => 5 | CWaitRerip _ true => 4
  | CPush _ _ => 3 | CLoop => 1 | CDone => 0
  end.

Definition weight (d : dispatch R) : nat :=
  producer_weight (prod d) + 8 * length (channel d) + 7 * length (buffered d) + consumer_weight (cons d).

Lemma weight_handle s d : cons d = CLoop -> (weight (handle_slot s d) <= weight d + 6)%nat.
Proof.
  intros Hc. unfold handle_slot, weight. cbn. destruct s; cbn; rewrite ?Hc; cbn; [| |lia];
    destruct (_ || _); cbn; lia.
Qed.

Lemma weight_drain cap exhausted s d : (weight (drain_slot cap exhausted s d) <= weight d + 7)%nat.
Proof.
  unfold drain_slot, weight. destruct s; cbn; try lia; destruct (_ <? _); cbn; rewrite ?length_app; cbn; lia.
Qed.

Lemma weight_recv s rest d : channel d = s :: rest -> weight d = (weight (set_channel rest d) + 8)%nat.
Proof. intros Hch. unfold weight. rewrite Hch. cbn. lia. Qed.

Lemma weight_resolved item r d : (weight (cache_resolved item r d) <= weight (set_cons CLoop d) + 4)%nat.
Proof. unfold weight. destruct r; cbn; lia. Qed.

Lemma weight_rerip o d : (weight (rerip_resolved o d) <= weight (set_cons CLoop d) + 2)%nat.
Proof. unfold weight. destruct o; cbn; lia. Qed.

Lemma weight_consumer c d : weight d = (weight (set_cons c d) + consumer_weight (cons d) - consumer_weight c)%nat.
Proof. unfold weight. cbn. lia. Qed.

Lemma weight_dispatch d d' : cons d = CLoop -> dispatch_turn d = Some d' -> (weight d' < weight d)%nat.
Proof.
  intros Hc. unfold dispatch_turn. assert (Hfin : (weight (finish_dispatch d) < weight d)%nat).
  { unfold finish_dispatch, weight. rewrite Hc. destruct (_ && _); cbn; lia. }
  destruct (buffered d) as [|s rest] eqn:Hb.
  - destruct (received_finished d); [by intros [= <-]|]. unfold recv. destruct (channel d) as [|s rest] eqn:Hch.
    + destruct (prod d); try done. by intros [= <-].
    + intros [= <-]. pose proof (weight_handle s (set_channel rest d) Hc). rewrite (weight_recv s rest d Hch). lia.
  - intros [= <-]. pose proof (weight_handle s (set_buffered rest d) Hc).
    assert (weight d = (weight (set_buffered rest d) + 7)%nat) by (unfold weight; rewrite Hb; cbn; lia). lia.
Qed.

Lemma weight_rerip_completed item k c d :
  (weight (rerip_completed item k c d) <= weight (set_cons CLoop d) + 2)%nat.
Proof.
  unfold rerip_completed.
  assert (H : forall o d0, weight (set_cons CLoop d0) = weight (set_cons CLoop d) ->
    (weight (rerip_resolved o d0) <= weight (set_cons CLoop d) + 2)%nat)
    by (intros o d0 <-; apply weight_rerip).
  destruct c; cbn [ordered_rerip_result]; try (destruct (job_cancelled d)); by apply H.
Qed.

Lemma weight_step cap d d' : dispatch_step cap d d' -> (weight d' < weight d)%nat.
Proof.
  intros Hs. destruct Hs as [a d todo Hp|s todo d Hp Hr Hc|s todo d Hp Hc|d Hp Hr Hc|d Hp Hc|d Hp|d d' Hc Ht|r fb pushed d Hc|
    item c r d Hc|item r d Hc|item d d' Hc Hd|item d Hc Hk|item k c d Hc|item k d d' Hc Hd|item d Hc Hk].
  1: { unfold lane_one_turn. rewrite Hp. unfold weight. destruct todo as [|item todo]; cbn; [rewrite Hp; cbn; lia|].
       destruct (_ || _); [cbn; rewrite Hp; cbn; lia|].
       destruct (item_cached item); [cbn; rewrite Hp; cbn; lia|]. destruct a; cbn; rewrite Hp; cbn; lia. }
  1-4: unfold weight; cbn; rewrite Hp, ?length_app; cbn; lia.
  1: { unfold weight. cbn. destruct (prod d); cbn; try lia. done. }
  1: by apply weight_dispatch.
  1: { unfold upload_answer, weight. rewrite Hc. destruct pushed; cbn; [lia|]. destruct (negb _); cbn; lia. }
  1: { unfold enqueue_answer, weight. rewrite Hc. destruct r; cbn; lia. }
  all: rewrite (weight_consumer CLoop d), Hc; cbn [consumer_weight].
  1,3: pose proof (weight_resolved item CacheCancelled d); try (pose proof (weight_resolved item r d)); lia.
  - unfold cache_drain in Hd. destruct (received_finished d); [done|]. unfold recv in Hd.
    destruct (channel d) as [|s rest] eqn:Hch.
    + destruct (prod d); try done. injection Hd as <-.
      pose proof (weight_resolved item (CacheFailed (lit "ordered dispatcher stopped before its finish marker")) d) as H.
      cbn [cache_resolved] in H. lia.
    + injection Hd as <-. pose proof (weight_drain cap BUFFER_EXHAUSTED_CACHE s (set_channel rest d)).
      pose proof (weight_recv s rest d Hch). rewrite (weight_consumer CLoop d), Hc in H0. cbn [consumer_weight] in H0. lia.
  - pose proof (weight_rerip_completed item k c d). destruct k; lia.
  - unfold rerip_drain in Hd. destruct (received_finished d); [done|]. unfold recv in Hd.
    destruct (channel d) as [|s rest] eqn:Hch.
    + destruct (prod d); try done. injection Hd as <-. unfold weight. destruct k; cbn; lia.
    + injection Hd as <-. pose proof (weight_drain cap BUFFER_EXHAUSTED_RERIP s (set_channel rest d)).
      pose proof (weight_recv s rest d Hch). rewrite (weight_consumer CLoop d), Hc in H0. cbn [consumer_weight] in H0.
      destruct k; lia.
  - unfold weight. cbn. lia.
Qed.

(** Until both tasks have ended, one of them can go on; the channel never holds the producer up. *)
Lemma has_room cap items d rest :
  dispatch_inv cap items d -> still_to_send (prod d) rest -> prod d <> PGone -> room cap d.
Proof.
  intros Hinv Hr Hp. pose proof (sent_bound cap items d rest Hinv Hr) as Hlen. unfold room.
  destruct (di_marker _ _ _ Hinv) as [(_ & Hm & _)|[? _]]; [|done].
  rewrite (slots_no_marker _ Hm) in Hlen. pose proof (di_cap _ _ _ Hinv). lia.
Qed.

Lemma progress cap items d :
  dispatch_inv cap items d -> cons d <> CDone \/ prod d <> PGone -> exists d', dispatch_step cap d d'.
Proof.
  intros Hinv Hd.
  assert (Hprod : prod d <> PGone -> exists d', dispatch_step cap d d').
  { intros Hp. destruct (di_items _ _ _ Hinv) as (sent & rest & _ & Hr & _).
    pose proof (has_room cap items d rest Hinv Hr Hp) as Hroom.
    assert (Hcase : cons d = CDone \/ cons d <> CDone) by (destruct (cons d); auto).
    destruct (prod d) as [todo|s todo| |] eqn:E, Hcase as [Hc|Hc]; try done; eexists.
    - by apply (D_turn cap AnsStop d todo).
    - by apply (D_turn cap AnsStop d todo).
    - apply (D_not_sent cap s todo); [done|by left].
    - by apply (D_sent cap s todo).
    - by apply D_finish_closed.
    - by apply D_finish. }
  destruct (cons d) as [|r fb|i c|i|i k|] eqn:Hc.
  - destruct (dispatch_turn d) as [d'|] eqn:Ht; [exists d'; by apply D_dispatch|]. apply Hprod.
    unfold dispatch_turn, recv in Ht. destruct (buffered d); [|done]. destruct (received_finished d); [done|].
    destruct (channel d); [|done]. by destruct (prod d).
  - eexists. by apply (D_upload cap r fb true).
  - eexists. by apply (D_enqueue cap i c EnqPending).
  - eexists. by apply (D_resolved cap i Hit).
  - eexists. by apply (D_rerip cap i k QueueGone).
  - apply Hprod. naive_solver.
Qed.

Lemma slot_of_inj i j s : slot_of i s -> slot_of j s -> i = j.
Proof.
  destruct s as [i' c|r|]; [by intros [<- _] [<- _]| |done]. intros [Hi [x ->]] [Hj [y Hy]].
  destruct i as [ti ri ci ni], j as [tj rj cj nj]. unfold ripped in Hy. cbn in *. by simplify_eq.
Qed.

Lemma slots_of_inj l k ss : Forall2 slot_of l ss -> Forall2 slot_of k ss -> l = k.
Proof.
  intros H. revert k. induction H as [|i s l ss Hi _ IH]; intros k Hk; [by apply Forall2_nil_inv_r in Hk|].
  apply Forall2_cons_inv_r in Hk as (j & k' & Hj & Hk & ->). f_equal; [by eapply slot_of_inj|by apply IH].
Qed.

Lemma current_item c item evs : current_events c item evs -> item_events item evs.
Proof.
  unfold item_events. destruct c as [|r []|i c|i|i k|]; cbn; try done.
  - intros (c & -> & -> & _). by auto.
  - intros (-> & -> & _). by auto.
  - intros (-> & _ & ->). by auto.
  - intros (c & -> & -> & _). by auto.
  - intros (c & -> & -> & _). by auto.
Qed.

(** The items the lane has heard of are the first ones sent. *)
Lemma lane_groups cap items d :
  dispatch_inv cap items d -> exists sent its groups fin,
    Forall2 slot_of sent (slots (ghost_sent d)) /\ sent `sublist_of` items /\ its `prefix_of` sent /\
    Forall2 item_events its groups /\ lane d = concat groups ++ fin /\
    (cons d <> CDone -> fin = []) /\
    (cons d = CDone -> its = sent /\
       ((fin = [FinalizeMarker] /\ (received_finished d = true \/ job_cancelled d = true)) \/
        (fin = [FinishedErr (lit "ordered dispatcher stopped unexpectedly")] /\ received_finished d = false)) /\
       (stop_dispatch d = false -> fatal_error d = None -> Forall (fun evs => evs <> []) groups)).
Proof.
  intros [Hm Hf Hb Hd (sent & rest & Hsent & _ & Hsub) (taken & Ht & done & cur & groups & part & fin & -> & Hg & Hl & Hcu & Hfi & Hn) _].
  rewrite <-Hf in Hsent. apply Forall2_app_inv_r in Hsent as (t & u & Ht' & Hu & ->).
  pose proof (slots_of_inj _ _ _ Ht Ht') as <-.
  exists ((done ++ cur) ++ u), (done ++ cur), (groups ++ match cur with [] => [] | _ => [part] end), fin.
  split_and!.
  - rewrite <-Hf. by apply Forall2_app.
  - etrans; [|exact Hsub]. by apply sublist_inserts_r.
  - by apply prefix_app_r.
  - apply Forall2_app; [done|]. destruct (between (cons d)); [by destruct Hcu as [-> _]|].
    destruct Hcu as (item & -> & Hev). constructor; [by eapply current_item|constructor].
  - rewrite Hl. destruct (between (cons d)); [by destruct Hcu as [-> ->]; rewrite app_nil_r|].
    destruct Hcu as (item & -> & _). rewrite concat_app, <-app_assoc. cbn. by rewrite app_nil_r.
  - by destruct (cons d).
  - intros Hc. destruct (Hd Hc) as [Hb0 Hch]. rewrite Hb0, Hch in Hu. apply Forall2_nil_inv_r in Hu as ->.
    rewrite Hc in Hcu, Hfi. destruct Hcu as [-> _]. rewrite !app_nil_r. by split_and!.
Qed.

End Invariant.

(** ** Properties *)

(** C7: uploads keep the order of the request: whatever is cached, ripped, ripped again or cancelled,
    and however the two tasks interleave, the lane is given the items in the order in which they were
    asked for, each at most once and as one block (its cached copy, then the rip that replaces it), and
    exactly one final event when the dispatcher has ended, the failure only if the producer vanished. *)
Theorem dispatch_in_order {R} items (d : dispatch R) :
  Z.of_nat (length items) < usize_max -> run_lane_one items d ->
  exists its groups fin, its `sublist_of` items /\ Forall2 item_events its groups /\ lane d = concat groups ++ fin /\
    (cons d <> CDone -> fin = []) /\
    (cons d = CDone ->
       (fin = [FinalizeMarker] /\ (received_finished d = true \/ job_cancelled d = true)) \/
       (fin = [FinishedErr (lit "ordered dispatcher stopped unexpectedly")] /\ received_finished d = false)).
Proof.
  intros Hn Hr. destruct (lane_groups _ _ _ (run_inv items d Hn Hr)) as
    (sent & its & groups & fin & _ & Hsub & Hpre & Hg & Hl & Hnd & Hcd).
  exists its, groups, fin. split_and!; try done.
  - etrans; [|exact Hsub]. destruct Hpre as [k ->]. by apply sublist_inserts_r.
  - intros Hc. by destruct (Hcd Hc) as (_ & Hfin & _).
Qed.

(** No slot is lost: the slots sent are those taken, buffered and on the channel, in this order,
    and a dispatcher that ends without having been stopped and without a fatal error has handed over
    every one of them. *)
Theorem dispatch_loses_nothing {R} items (d : dispatch R) :
  Z.of_nat (length items) < usize_max -> run_lane_one items d ->
  slots (ghost_taken d) ++ buffered d ++ slots (channel d) = slots (ghost_sent d) /\
  (cons d = CDone -> stop_dispatch d = false -> fatal_error d = None ->
   exists its groups fin, Forall2 slot_of its (slots (ghost_sent d)) /\ Forall2 item_events its groups /\
     Forall (fun evs => evs <> []) groups /\ lane d = concat groups ++ [fin]).
Proof.
  intros Hn Hr. pose proof (run_inv items d Hn Hr) as Hinv. split; [by apply (di_fifo _ _ _ Hinv)|].
  intros Hc Hs Hf. destruct (lane_groups _ _ _ Hinv) as (sent & its & groups & fin & Hsent & _ & _ & Hg & Hl & _ & Hcd).
  destruct (Hcd Hc) as (-> & Hfin & Hne). specialize (Hne Hs Hf).
  destruct Hfin as [[-> _]|[-> _]]; by eexists sent, groups, _.
Qed.

(** C8: the two tasks never wait for each other for ever: the producer always finds room on the
    channel, so the rip queue it occupies gets free for the rips that the dispatcher waits for; every
    step uses up a bounded weight, which a cancellation does not raise, and until both tasks have ended
    a step is enabled. *)
Theorem dispatch_progress {R} items (d : dispatch R) :
  Z.of_nat (length items) < usize_max -> run_lane_one items d ->
  let cap := ordered_slot_capacity (Z.of_nat (length items)) in
  (prod d <> PGone -> room cap d) /\
  (forall d', dispatch_step cap d d' -> (weight d' < weight d)%nat) /\
  weight (cancel_job d) = weight d /\ weight (cancel_queue_item d) = weight d /\
  (cons d <> CDone \/ prod d <> PGone -> exists d', dispatch_step cap d d').
Proof.
  intros Hn Hr. pose proof (run_inv items d Hn Hr) as Hinv. cbv zeta. split_and!; [|apply weight_step|done|done|by eapply progress].
  intros Hp. destruct (di_items _ _ _ Hinv) as (sent & rest & _ & Hrest & _). by eapply has_room.
Qed.

(** *** Witness: a cached item whose copy must be ripped again, and a fresh one *)

Definition demo_cached : PipelineItem := mkItem (lit "1") Primary (Some (mkCachedTrack (lit "1") Alac 9 [] [])) (Some 1).
Definition demo_fresh : PipelineItem := mkItem (lit "2") Primary None (Some 2).
Definition demo_items : list PipelineItem := [demo_cached; demo_fresh].

Definition demo_end : dispatch Z :=
  let c := mkCachedTrack (lit "1") Alac 9 [] [] in
  mkDispatch PGone [] CDone [] true false false false false None
    [CachedTask demo_cached c; Uploaded (ripped demo_cached 7) true; Uploaded (ripped demo_fresh 8) false; FinalizeMarker]
    [SCached demo_cached c; SFresh (ripped demo_fresh 8); SFinished]
    [SCached demo_cached c; SFresh (ripped demo_fresh 8)].

(** The run is found by an interpreter of schedules. *)
Inductive action : Type :=
| ATurn (a : rip_answer (R := Z)) | ASend | AMarker | ADispatch | AUpload | AEnqueue | AResolve (r : CacheResolution)
| ADrain | ACompleted (c : rerip_completion (R := Z)).

Definition act (cap : Z) (a : action) (d : dispatch Z) : option (dispatch Z) :=
  match a, prod d, cons d with
  | ATurn a, PLoop _, _ => Some (lane_one_turn a d)
  | ASend, PSend s todo, CLoop | ASend, PSend s todo, CWaitRerip _ _ =>
      if Z.of_nat (length (channel d)) <? cap then Some (send_slot s (PLoop todo) d) else None
  | AMarker, PFinish, CWaitRerip _ _ =>
      if Z.of_nat (length (channel d)) <? cap then Some (send_slot SFinished PGone d) else None
  | ADispatch, _, CLoop => dispatch_turn d
  | AUpload, _, CPush r fallback => Some (upload_answer r fallback true d)
  | AEnqueue, _, CEnqueue item cached => Some (enqueue_answer item cached EnqPending d)
  | AResolve r, _, CWaitCache item => Some (cache_resolved item r d)
  | ADrain, _, CWaitRerip item cancelled => rerip_drain cap cancelled d
  | ACompleted c, _, CWaitRerip item cancelled => Some (rerip_completed item cancelled c d)
  | _, _, _ => None
  end.

Fixpoint exec (cap : Z) (l : list action) (d : dispatch Z) : option (dispatch Z) :=
  match l with [] => Some d | a :: l => d ← act cap a d; exec cap l d end.

Lemma act_step cap a d d' : act cap a d = Some d' -> dispatch_step cap d d'.
Proof.
  unfold act. destruct a, (prod d) as [todo|s todo| |] eqn:Hp, (cons d) as [|r0 fb|i c0|i|i k|] eqn:Hc; try done;
    try (destruct (Z.ltb_spec (Z.of_nat (length (channel d))) cap); [|done]); try (intros [= <-]); intros;
    first [eapply D_turn; eassumption | by apply (D_sent cap s todo); congruence || done
          | by apply D_finish; congruence || done | eapply D_dispatch; eassumption | exact (D_upload cap r0 fb true d Hc)
          | exact (D_enqueue cap i c0 EnqPending d Hc) | eapply D_resolved; eassumption | eapply D_rerip_drain; eassumption
          | eapply D_rerip; eassumption].
Qed.

Lemma exec_steps cap l : forall d d', exec cap l d = Some d' -> steps (lane_step cap) d d'.
Proof.
  induction l as [|a l IH]; intros d d'; cbn [exec]; [intros [= <-]; apply steps_refl|].
  destruct (act cap a d) as [d1|] eqn:E; cbn; [|done]. intros H.
  eapply steps_cons; [apply L_dispatch; by eapply act_step|by apply IH].
Qed.

Definition demo_schedule : list action :=
  [ATurn AnsStop; ASend; ATurn (AnsRipped 8); ASend; ADispatch; AEnqueue; AResolve Rerip; ADrain; ATurn AnsStop; AMarker;
   ADrain; ACompleted (Completed_ (AnsRipped 7)); AUpload; ADispatch; AUpload; ADispatch].

Lemma demo_dispatch_run : run_lane_one demo_items demo_end.
Proof. apply (exec_steps _ demo_schedule). by vm_compute. Qed.

Lemma dispatch_in_order_witness :
  exists its groups fin, its `sublist_of` demo_items /\ Forall2 item_events its groups /\
    lane demo_end = concat groups ++ fin.
Proof.
  destruct (dispatch_in_order demo_items demo_end) as (its & groups & fin & H1 & H2 & H3 & _);
    [by vm_compute|apply demo_dispatch_run|by exists its, groups, fin].
Defined.

Lemma dispatch_loses_nothing_witness :
  exists its groups fin, Forall2 slot_of its (slots (ghost_sent demo_end)) /\ Forall (fun evs => evs <> []) groups /\
    lane demo_end = concat groups ++ [fin].
Proof.
  destruct (dispatch_loses_nothing demo_items demo_end) as [_ H]; [by vm_compute|apply demo_dispatch_run|].
  destruct (H eq_refl eq_refl eq_refl) as (its & groups & fin & H1 & _ & H3 & H4). by exists its, groups, fin.
Defined.

Lemma dispatch_progress_witness : exists d', dispatch_step 16 (init (R := Z) demo_items) d'.
Proof.
  apply (dispatch_progress demo_items (init demo_items)); [by vm_compute|apply steps_refl|by left].
Defined.
