(* ===== verification/Delivery.v ===== *)
(** * Delivery: the vocabulary of the delivery port (crates/engine/src/orchestrator/deps/delivery.rs,
      orchestrator/types.rs)

    Message references are the numbers they wrap.  What a delivery answers is data here; the port
    itself (publish, deliver, materialise, retract) is met through its answers by the lanes. *)
From S2P Require Import Prelude Text.

Inductive TrackCaption : Type :=
| Machine (track_id codec : str)
| Plain (text : str).

Record DumpPublication := mkPublication { message : Z; file_id : str; file_unique_id : str }.

Definition message_id (p : DumpPublication) : Z := message p.

Inductive DeliveryReceipt : Type := Message (sent : Z) | PreviewDelivered.

Inductive DeliveryRejection : Type := EntityBoundsInvalid | CaptionTooLong | OtherRejection (detail : str).

Definition rejection_display (r : DeliveryRejection) : str :=
  match r with
  | EntityBoundsInvalid => lit "entity bounds invalid"
  | CaptionTooLong => lit "caption too long"
  | OtherRejection detail => detail
  end.

Inductive DeliveryError : Type :=
| Transient (detail : str)
| Rejected (reason : DeliveryRejection)
| UnexpectedMedia
| LocalIo (detail : str)
| DeliveryUnavailable (detail : str).

Definition delivery_error_display (e : DeliveryError) : str :=
  match e with
  | Transient detail => lit "transient delivery failure: " ++ detail
  | Rejected reason => lit "delivery rejected: " ++ rejection_display reason
  | UnexpectedMedia => lit "delivery returned unexpected media"
  | LocalIo detail => lit "local delivery I/O failed: " ++ detail
  | DeliveryUnavailable detail => lit "delivery unavailable: " ++ detail
  end.

Definition is_transient (e : DeliveryError) : bool := match e with Transient _ => true | _ => false end.

(** The rejections the upload lane answers with a plain caption. *)
Definition caption_rejected (e : DeliveryError) : bool :=
  match e with Rejected EntityBoundsInvalid | Rejected CaptionTooLong => true | _ => false end.

Inductive FailedTrackKind : Type :=
| TrackUnavailable | RenditionUnavailable | SourceOffline | KindCancelled | KindTimeout | KindAuthentication | KindLocalIo.

Record FailedTrack := mkFailed {
  failed_id : str; failed_error : str; failed_kind : option FailedTrackKind;
  failed_title : option str; failed_artist : option str; failed_storefront : option str;
}.
