(* ===== verification/DeliverySeq.v ===== *)
(** * DeliverySeq: tracks of a batch reach the chat in order
      (crates/engine/src/orchestrator/upload_lane.rs, [deliver_sequenced])

    The uploads of a job run side by side; each one reports what became of its track and then drains,
    under [delivery_lock], the entries that are next in order.  The model is a transition system with
    one action per critical section or completed await: a call stores its report, takes the lock,
    takes the next entry, hears the answer of a delivery.  [calls] are the calls made so far, in the
    order they began. *)
From stdpp Require Import sorting.
From S2P Require Import Prelude Text Delivery.

Inductive phase : Type :=
| Waiting                          (* the report is stored; awaiting [delivery_lock] *)
| Draining                         (* at the loop head, holding the lock *)
| Delivering (idx dump_msg : Z)    (* awaiting [deliver_to_chat] for an entry taken out of the map *)
| Returned (r : result str unit)
| Panicked.                        (* the delivery panicked; unwinding released the lock *)

Record sequencer := mkSeq {
  next_deliver_index : Z;
  pending_deliveries : gmap Z (option Z);
  delivery_lock : option nat;            (* the call that holds the guard *)
  first_delivered_msg_id : option Z;
  calls : list phase;
  reported : list (Z * option Z);        (* ghost: every report *)
  sent : list (Z * Z);                   (* ghost: every delivered track with its message *)
}.

(** The fields [run_job] gives a new context. *)
Definition seq_new : sequencer := mkSeq 1 ∅ None None [] [] [].

(** [if guard.is_none() { *guard = Some(sent_id) }]. *)
Definition remember_first (sent_id : Z) (first : option Z) : option Z :=
  match first with None => Some sent_id | Some _ => first end.

Definition PREVIEW_RECEIPT : str := lit "track delivery returned a preview receipt".

(** What [deliver_to_chat] yields, [None] being a panic. *)
Definition answer : Type := option (result DeliveryError DeliveryReceipt).

(** The branch for a job of a single track: deliver at once.  The outer [None] is a panic. *)
Definition deliver_single (msg : option Z) (a : answer) (first : option Z) :
    option (result str unit) * option Z :=
  match msg with
  | None => (Some (Ok tt), first)
  | Some _ =>
      match a with
      | None => (None, first)
      | Some (Err e) => (Some (Err (delivery_error_display e)), first)
      | Some (Ok PreviewDelivered) => (Some (Err PREVIEW_RECEIPT), first)
      | Some (Ok (Message sent_id)) => (Some (Ok tt), remember_first sent_id first)
      end
  end.

(** The call begins: [pending.insert(idx, message)]; a new entry replaces an old one. *)
Definition call_begin (idx : Z) (msg : option Z) (s : sequencer) : sequencer :=
  mkSeq (next_deliver_index s) (<[idx := msg]> (pending_deliveries s)) (delivery_lock s)
    (first_delivered_msg_id s) (calls s ++ [Waiting]) (reported s ++ [(idx, msg)]) (sent s).

(** [delivery_lock.lock().await] completes. *)
Definition lock_taken (c : nat) (s : sequencer) : sequencer :=
  mkSeq (next_deliver_index s) (pending_deliveries s) (Some c) (first_delivered_msg_id s)
    (<[c := Draining]> (calls s)) (reported s) (sent s).

(** The call ends and its guard is dropped. *)
Definition leave (c : nat) (p : phase) (s : sequencer) : sequencer :=
  mkSeq (next_deliver_index s) (pending_deliveries s) None (first_delivered_msg_id s)
    (<[c := p]> (calls s)) (reported s) (sent s).

(** [*next_deliver_index += 1], the call staying at the loop head. *)
Definition advance (c : nat) (s : sequencer) : sequencer :=
  mkSeq (wrap 32 (next_deliver_index s + 1)) (pending_deliveries s) (delivery_lock s)
    (first_delivered_msg_id s) (<[c := Draining]> (calls s)) (reported s) (sent s).

Definition remove_next (s : sequencer) : sequencer :=
  mkSeq (next_deliver_index s) (delete (next_deliver_index s) (pending_deliveries s)) (delivery_lock s)
    (first_delivered_msg_id s) (calls s) (reported s) (sent s).

Definition set_call (c : nat) (p : phase) (s : sequencer) : sequencer :=
  mkSeq (next_deliver_index s) (pending_deliveries s) (delivery_lock s) (first_delivered_msg_id s)
    (<[c := p]> (calls s)) (reported s) (sent s).

(** One turn of the loop up to its await: take the next entry. *)
Definition take_next (c : nat) (s : sequencer) : sequencer :=
  let next_idx := next_deliver_index s in
  match pending_deliveries s !! next_idx with
  | Some (Some dump_msg) => set_call c (Delivering next_idx dump_msg) (remove_next s)
  | Some None => advance c (remove_next s)
  | None => leave c (Returned (Ok tt)) s
  end.

Definition record_sent (idx dump_msg sent_id : Z) (s : sequencer) : sequencer :=
  mkSeq (next_deliver_index s) (pending_deliveries s) (delivery_lock s)
    (remember_first sent_id (first_delivered_msg_id s)) (calls s) (reported s) (sent s ++ [(idx, dump_msg)]).

(** The delivery's answer; an error leaves with [?], the entry gone and the index where it was. *)
Definition delivered (c : nat) (idx dump_msg : Z) (a : answer) (s : sequencer) : sequencer :=
  match a with
  | None => leave c Panicked s
  | Some (Err e) => leave c (Returned (Err (delivery_error_display e))) s
  | Some (Ok PreviewDelivered) => leave c (Returned (Err PREVIEW_RECEIPT)) s
  | Some (Ok (Message sent_id)) => advance c (record_sent idx dump_msg sent_id s)
  end.

Inductive action : Type :=
| ACall (idx : Z) (msg : option Z)
| ALock (c : nat)
| ATake (c : nat)
| AAnswer (c : nat) (a : answer).

Definition act (a : action) (s : sequencer) : option sequencer :=
  match a with
  | ACall idx msg => Some (call_begin idx msg s)
  | ALock c =>
      match calls s !! c, delivery_lock s with
      | Some Waiting, None => Some (lock_taken c s)
      | _, _ => None
      end
  | ATake c => match calls s !! c with Some Draining => Some (take_next c s) | _ => None end
  | AAnswer c a =>
      match calls s !! c with
      | Some (Delivering idx dump_msg) => Some (delivered c idx dump_msg a s)
      | _ => None
      end
  end.

Fixpoint exec (l : list action) (s : sequencer) : option sequencer :=
  match l with [] => Some s | a :: l => s' ← act a s; exec l s' end.

(** Tracks are numbered from 1 to the number of tracks of the job, which fits a [u32]. *)
Definition admissible (total : Z) (a : action) : Prop :=
  match a with ACall idx _ => 1 <= idx <= total | _ => True end.

Definition seq_step (total : Z) (s s' : sequencer) : Prop := exists a, admissible total a /\ act a s = Some s'.

Definition seq_reachable (total : Z) (s : sequencer) : Prop := steps (seq_step total) seq_new s.

(** ** The invariant *)

Definition holds (p : phase) : bool := match p with Draining | Delivering _ _ => true | _ => false end.
Definition active (p : phase) : bool := match p with Waiting | Draining | Delivering _ _ => true | _ => false end.
Definition failed (p : phase) : bool := match p with Returned (Err _) | Panicked => true | _ => false end.

Definition indices (s : sequencer) : list Z := fst <$> reported s.

(** What holds whatever the deliveries answer. *)
Record seq_inv (total : Z) (s : sequencer) : Prop := {
  si_next : 1 <= next_deliver_index s <= total + 1;
  si_range : Forall (fun e => 1 <= e.1 <= total) (reported s);
  si_below : forall j, 1 <= j < next_deliver_index s -> j ∈ indices s;
  si_sorted : StronglySorted Z.lt (fst <$> sent s);
  si_sent : Forall (fun e => e.1 < next_deliver_index s /\ (e.1, Some e.2) ∈ reported s) (sent s);
  si_pending : forall j o, pending_deliveries s !! j = Some o -> (j, o) ∈ reported s;
  si_lock : forall c p, calls s !! c = Some p -> holds p = true <-> delivery_lock s = Some c;
  si_owner : forall c, delivery_lock s = Some c -> is_Some (calls s !! c);
  si_delivering : forall c j m, calls s !! c = Some (Delivering j m) ->
    j = next_deliver_index s /\ (j, Some m) ∈ reported s;
}.

(** What holds besides while no delivery has failed and no track was reported twice. *)
Record seq_complete (s : sequencer) : Prop := {
  sc_sent : forall j m, (j, Some m) ∈ reported s -> j < next_deliver_index s -> (j, m) ∈ sent s;
  sc_waits : forall j o, (j, o) ∈ reported s ->
    j < next_deliver_index s \/ pending_deliveries s !! j = Some o \/
    (exists c m, calls s !! c = Some (Delivering j m) /\ o = Some m);
  sc_above : forall j o, pending_deliveries s !! j = Some o -> next_deliver_index s <= j;
  sc_served : forall o, pending_deliveries s !! next_deliver_index s = Some o ->
    exists c p, calls s !! c = Some p /\ active p = true;
  sc_taken : forall c j m, calls s !! c = Some (Delivering j m) -> pending_deliveries s !! j = None;
}.

Definition no_failure (s : sequencer) : Prop := forall c p, calls s !! c = Some p -> failed p = false.

(** ** Lemmas *)

Section Invariant.
Variable total : Z.
Hypothesis total_u32 : 0 <= total < umax 32.

Lemma seq_new_inv : seq_inv total seq_new.
Proof.
  split; cbn; try done; try constructor; lia.
Qed.

(** Calls other than [c] are untouched by an update at [c]. *)
Lemma lookup_update (l : list phase) c p c' p' q :
  l !! c = Some q -> <[c := p]> l !! c' = Some p' -> (c' = c /\ p' = p) \/ (c' <> c /\ l !! c' = Some p').
Proof.
  intros Hc. destruct (decide (c' = c)) as [->|Hne].
  - rewrite list_lookup_insert_eq by (by eapply lookup_lt_Some). intros [= <-]. by left.
  - rewrite list_lookup_insert_ne by done. by right.
Qed.

Lemma lookup_append (l : list phase) c p :
  (l ++ [Waiting]) !! c = Some p -> l !! c = Some p \/ (c = length l /\ p = Waiting).
Proof.
  intros [H|[Hge H]]%lookup_app_Some; [by left|]. apply list_lookup_singleton_Some in H as [Hz <-].
  right. split; [lia|done].
Qed.

Lemma call_begin_inv idx msg s : 1 <= idx <= total -> seq_inv total s -> seq_inv total (call_begin idx msg s).
Proof.
  intros Hidx I. destruct I as [In Ir Ib Is Ie Ip Il Io Id]. split; cbn; unfold indices in *; cbn.
  - done.
  - apply Forall_app. by split; [|apply Forall_singleton].
  - intros j Hj. rewrite fmap_app. apply elem_of_app. left. by apply Ib.
  - done.
  - eapply Forall_impl; [exact Ie|]. intros e [? ?]. split; [done|]. apply elem_of_app. by left.
  - intros j o. rewrite lookup_insert_Some, elem_of_app, list_elem_of_singleton.
    intros [[<- <-]|[_ H]]; [by right|left; by apply Ip].
  - intros c p [H|[-> ->]]%lookup_append; [by apply Il|]. cbn. split; [done|]. intros HL.
    apply Io in HL as [q Hq]. apply lookup_lt_Some in Hq. lia.
  - intros c HL. apply Io in HL as [q Hq]. exists q. by apply lookup_app_l_Some.
  - intros c j m [H|[_ H]]%lookup_append; [|done]. destruct (Id c j m H). split; [done|].
    apply elem_of_app. by left.
Qed.

Lemma lock_taken_inv c s :
  calls s !! c = Some Waiting -> delivery_lock s = None -> seq_inv total s -> seq_inv total (lock_taken c s).
Proof.
  intros Hc HL I. destruct I as [In Ir Ib Is Ie Ip Il Io Id]. split; cbn; try done.
  - intros c' p' [[-> ->]|[Hne H]]%(lookup_update _ _ _ _ _ _ Hc); [done|].
    rewrite (Il c' p' H), HL. split; [done|congruence].
  - intros c' [= <-]. eexists. apply list_lookup_insert_eq. by eapply lookup_lt_Some.
  - intros c' j m [[-> H]|[Hne H]]%(lookup_update _ _ _ _ _ _ Hc); [done|by eapply Id].
Qed.

(** An update at the call that holds the lock, which keeps it or gives it up. *)
Lemma owner_update c q p s lk :
  seq_inv total s -> calls s !! c = Some q -> holds q = true ->
  lk = (if holds p then Some c else None) ->
  (forall c' p', <[c := p]> (calls s) !! c' = Some p' -> holds p' = true <-> lk = Some c') /\
  (forall c', lk = Some c' -> is_Some (<[c := p]> (calls s) !! c')).
Proof.
  intros I Hc Hq ->. pose proof (si_lock _ _ I c q Hc) as [HL _]. specialize (HL Hq). split.
  - intros c' p' [[-> ->]|[Hne H]]%(lookup_update _ _ _ _ _ _ Hc).
    + destruct (holds p); naive_solver.
    + rewrite (si_lock _ _ I c' p' H), HL. destruct (holds p); naive_solver.
  - destruct (holds p); [|done]. intros c' [= <-]. eexists. apply list_lookup_insert_eq. by eapply lookup_lt_Some.
Qed.

Lemma others_wait c q s c' j m :
  seq_inv total s -> calls s !! c = Some q -> holds q = true -> c' <> c ->
  calls s !! c' <> Some (Delivering j m).
Proof.
  intros I Hc Hq Hne Hc'. pose proof (si_lock _ _ I c q Hc) as [H1 _]. pose proof (si_lock _ _ I c' _ Hc') as [H2 _].
  specialize (H1 Hq). specialize (H2 eq_refl). congruence.
Qed.

Lemma leave_inv c q p s :
  seq_inv total s -> calls s !! c = Some q -> holds q = true -> holds p = false -> seq_inv total (leave c p s).
Proof.
  intros I Hc Hq Hp. destruct (owner_update c q p s None I Hc Hq) as [H1 H2]; [by rewrite Hp|].
  destruct I as [In Ir Ib Is Ie Ip Il Io Id]. split; cbn; try done.
  intros c' j m [[-> H]|[Hne H]]%(lookup_update _ _ _ _ _ _ Hc); [by subst p|by eapply Id].
Qed.

(** The index moves on once its entry is out of the map and, if delivered, on record. *)
Lemma advance_inv c q s s' :
  seq_inv total s -> calls s !! c = Some q -> holds q = true ->
  next_deliver_index s ∈ indices s ->
  next_deliver_index s' = next_deliver_index s -> reported s' = reported s -> calls s' = calls s ->
  delivery_lock s' = delivery_lock s ->
  (forall j o, pending_deliveries s' !! j = Some o -> pending_deliveries s !! j = Some o) ->
  (sent s' = sent s \/ exists m, sent s' = sent s ++ [(next_deliver_index s, m)] /\
     (next_deliver_index s, Some m) ∈ reported s) ->
  seq_inv total (advance c s').
Proof.
  intros I Hc Hq Hrep Hn Hr Hca Hl Hp Hs.
  destruct (owner_update c q Draining s (Some c) I Hc Hq eq_refl) as [H1 H2].
  pose proof (si_lock _ _ I c q Hc) as [HL _]. specialize (HL Hq).
  assert (Hle : next_deliver_index s <= total).
  { pose proof (si_range _ _ I) as Hf. rewrite Forall_forall in Hf.
    apply list_elem_of_fmap in Hrep as ([j o] & Hj & Hin). specialize (Hf _ Hin). cbn in *. lia. }
  pose proof (si_next _ _ I) as Hb.
  assert (Hw : wrap 32 (next_deliver_index s + 1) = next_deliver_index s + 1).
  { apply wrap_small. unfold umax, in_u in *. lia. }
  pose proof (fun c' j m => others_wait c q s c' j m I Hc Hq) as Ho.
  destruct I as [In Ir Ib Is Ie Ip Il Io Id]. unfold indices in *.
  split; cbn; unfold indices; cbn; rewrite ?Hn, ?Hr, ?Hca, ?Hl, ?HL, ?Hw; try done; try lia.
  - intros j Hj. destruct (decide (j = next_deliver_index s)) as [->|]; [done|apply Ib; lia].
  - destruct Hs as [->|(m & -> & _)]; [done|]. rewrite fmap_app. cbn. apply StronglySorted_app. split_and!; [|done|repeat constructor].
    intros x y Hx Hy. apply list_elem_of_singleton in Hy as ->.
    apply list_elem_of_fmap in Hx as (e & -> & He). rewrite Forall_forall in Ie. by destruct (Ie e He).
  - destruct Hs as [->|(m & -> & Hm)].
    + eapply Forall_impl; [exact Ie|]. cbn. intros e [? ?]. split; [lia|done].
    + apply Forall_app. split.
      * eapply Forall_impl; [exact Ie|]. cbn. intros e [? ?]. split; [lia|done].
      * apply Forall_singleton. cbn. split; [lia|done].
  - intros j o H. apply Ip. by apply Hp.
  - intros c' j m [[-> H]|[Hne H]]%(lookup_update _ _ _ _ _ _ Hc); [done|].
    by destruct (Ho c' j m Hne).
Qed.

Lemma take_next_inv c s :
  calls s !! c = Some Draining -> seq_inv total s -> seq_inv total (take_next c s).
Proof.
  intros Hc I. unfold take_next. destruct (pending_deliveries s !! next_deliver_index s) as [[m|]|] eqn:Hp.
  - destruct (owner_update c Draining (Delivering (next_deliver_index s) m) s (Some c) I Hc eq_refl eq_refl) as [H1 H2].
    pose proof (si_lock _ _ I c _ Hc) as [HL _]. specialize (HL eq_refl).
    pose proof (fun c' j m => others_wait c _ s c' j m I Hc eq_refl) as Ho.
    destruct I as [In Ir Ib Is Ie Ip Il Io Id]. split; cbn; rewrite ?HL; try done.
    + intros j o [_ H]%lookup_delete_Some. by apply Ip.
    + intros c' j m' [[-> [= -> ->]]|[Hne H]]%(lookup_update _ _ _ _ _ _ Hc); [|by destruct (Ho c' j m' Hne)].
      split; [done|by apply Ip].
  - apply (advance_inv c Draining s); try done; cbn.
    + apply list_elem_of_fmap. exists (next_deliver_index s, None). split; [done|by apply (si_pending _ _ I)].
    + by intros j o [_ H]%lookup_delete_Some.
    + by left.
  - by eapply leave_inv.
Qed.

Lemma delivered_inv c idx m a s :
  calls s !! c = Some (Delivering idx m) -> seq_inv total s -> seq_inv total (delivered c idx m a s).
Proof.
  intros Hc I. destruct (si_delivering _ _ I _ _ _ Hc) as [-> Hin].
  destruct a as [[[sent_id|]|e]|]; cbn [delivered]; try by eapply leave_inv.
  apply (advance_inv c (Delivering (next_deliver_index s) m) s); try done; cbn.
  - apply list_elem_of_fmap. by exists (next_deliver_index s, Some m).
  - right. by exists m.
Qed.

Lemma seq_step_inv s s' : seq_inv total s -> seq_step total s s' -> seq_inv total s'.
Proof.
  intros I ([idx msg|c|c|c a] & Hadm & Hact); cbn in Hact.
  - injection Hact as <-. by apply call_begin_inv.
  - destruct (calls s !! c) as [[]|] eqn:Hc; try done. destruct (delivery_lock s) eqn:HL; [done|].
    injection Hact as <-. by apply lock_taken_inv.
  - destruct (calls s !! c) as [[]|] eqn:Hc; try done. injection Hact as <-. by apply take_next_inv.
  - destruct (calls s !! c) as [[]|] eqn:Hc; try done. injection Hact as <-. by apply delivered_inv.
Qed.

Lemma seq_reachable_inv s : seq_reachable total s -> seq_inv total s.
Proof. intros H. eapply steps_invariant; [apply seq_step_inv|exact H|apply seq_new_inv]. Qed.
End Invariant.

(** No failure, and no double report: the entries below the index are delivered, the others wait. *)
Section Complete.
Variable total : Z.
Hypothesis total_u32 : 0 <= total < umax 32.

Definition seq_ok (s : sequencer) : Prop :=
  seq_inv total s /\ (no_failure s -> NoDup (indices s) -> seq_complete s).

Lemma seq_new_complete : seq_complete seq_new.
Proof. split; cbn; try done. intros j m H. by apply not_elem_of_nil in H. intros j m H. by apply not_elem_of_nil in H. Qed.

Lemma call_begin_complete idx msg s :
  1 <= idx <= total -> seq_inv total s -> NoDup (indices (call_begin idx msg s)) -> seq_complete s ->
  seq_complete (call_begin idx msg s).
Proof.
  intros Hidx I Hnd K. unfold indices in Hnd. cbn in Hnd. rewrite fmap_app in Hnd. cbn in Hnd.
  apply NoDup_app in Hnd as (_ & Hfresh & _).
  assert (Hnew : idx ∉ indices s) by (intros Hin; apply (Hfresh idx Hin); set_solver).
  assert (Hge : next_deliver_index s <= idx).
  { destruct (Z.le_gt_cases (next_deliver_index s) idx) as [|Hlt]; [done|].
    exfalso. apply Hnew, (si_below _ _ I). lia. }
  destruct K as [Ks Kw Ka Kv Kt]. split; cbn.
  - intros j m [H|H]%elem_of_app Hj; [by apply Ks|].
    apply list_elem_of_singleton in H as [= -> _]. lia.
  - intros j o [H|H]%elem_of_app.
    + destruct (decide (j = idx)) as [->|Hne].
      { exfalso. apply Hnew, list_elem_of_fmap. by exists (idx, o). }
      destruct (Kw j o H) as [?|[?|(c & m & Hc & ->)]]; [by left| |].
      * right. left. by rewrite lookup_insert_ne.
      * right. right. exists c, m. split; [by apply lookup_app_l_Some|done].
    + apply list_elem_of_singleton in H as [= -> ->]. right. left. apply lookup_insert_eq.
  - intros j o [[<- _]|[_ H]]%lookup_insert_Some; [done|by eapply Ka].
  - intros o H. destruct (decide (idx = next_deliver_index s)) as [->|Hne].
    + exists (length (calls s)), Waiting. split; [|done].
      rewrite lookup_app_r, Nat.sub_diag by lia. done.
    + rewrite lookup_insert_ne in H by done. destruct (Kv o H) as (c & p & Hc & Hp).
      exists c, p. split; [by apply lookup_app_l_Some|done].
  - intros c j m [H|[_ H]]%lookup_append; [|done]. rewrite lookup_insert_ne; [by eapply Kt|].
    intros ->. apply Hnew. destruct (si_delivering _ _ I _ _ _ H) as [_ Hin]. apply list_elem_of_fmap. by exists (j, Some m).
Qed.

Lemma lock_taken_complete c s :
  calls s !! c = Some Waiting -> seq_complete s -> seq_complete (lock_taken c s).
Proof.
  intros Hc [Ks Kw Ka Kv Kt]. split; cbn; try done.
  - intros j o H. destruct (Kw j o H) as [?|[?|(c' & m & Hc' & ->)]]; [by left|by right; left|].
    right. right. exists c', m. split; [|done]. rewrite list_lookup_insert_ne; [done|congruence].
  - intros o H. exists c, Draining. split; [|done]. apply list_lookup_insert_eq. by eapply lookup_lt_Some.
  - intros c' j m [[-> H]|[Hne H]]%(lookup_update _ _ _ _ _ _ Hc); [done|by eapply Kt].
Qed.

(** The index moves past an entry that is out of the map. *)
Lemma advance_complete c q s s' :
  seq_inv total s -> calls s !! c = Some q -> holds q = true -> next_deliver_index s <= total ->
  NoDup (indices s) -> seq_complete s ->
  next_deliver_index s' = next_deliver_index s -> reported s' = reported s -> calls s' = calls s ->
  (forall j o, pending_deliveries s' !! j = Some o <-> j <> next_deliver_index s /\ pending_deliveries s !! j = Some o) ->
  (forall e, e ∈ sent s -> e ∈ sent s') ->
  (forall m, (next_deliver_index s, Some m) ∈ reported s -> (next_deliver_index s, m) ∈ sent s') ->
  seq_complete (advance c s').
Proof.
  intros I Hc Hq Hle Hnd K Hn Hr Hca Hp Hsub Hnew.
  pose proof (si_next _ _ I) as Hb.
  assert (Hw : wrap 32 (next_deliver_index s + 1) = next_deliver_index s + 1).
  { apply wrap_small. unfold umax, in_u in *. lia. }
  pose proof (si_delivering _ _ I) as Hd.
  destruct K as [Ks Kw Ka Kv Kt]. split; cbn; rewrite ?Hn, ?Hr, ?Hca, ?Hw.
  - intros j m H Hj. destruct (decide (j = next_deliver_index s)) as [->|]; [by apply Hnew|].
    apply Hsub, Ks; [done|lia].
  - intros j o H. destruct (decide (j = next_deliver_index s)) as [->|Hne]; [left; lia|].
    destruct (Kw j o H) as [?|[?|(c' & m & Hc' & ->)]]; [left; lia|right; left; by apply Hp|].
    destruct (Hd _ _ _ Hc') as [-> _]. done.
  - intros j o [Hne H]%Hp. specialize (Ka j o H). lia.
  - intros o _. exists c, Draining. split; [|done]. apply list_lookup_insert_eq. by eapply lookup_lt_Some.
  - intros c' j m [[-> H]|[Hne H]]%(lookup_update _ _ _ _ _ _ Hc); [done|].
    by destruct (others_wait total c q s c' j m I Hc Hq Hne).
Qed.

Lemma indices_unique s j o o' : NoDup (indices s) -> (j, o) ∈ reported s -> (j, o') ∈ reported s -> o = o'.
Proof.
  unfold indices. intros Hnd [i1 H1]%list_elem_of_lookup [i2 H2]%list_elem_of_lookup.
  assert (i1 = i2) as ->; [|congruence].
  eapply NoDup_lookup; [exact Hnd| |]; rewrite list_lookup_fmap; [by rewrite H1|by rewrite H2].
Qed.

Lemma take_next_complete c s :
  calls s !! c = Some Draining -> seq_inv total s -> NoDup (indices s) -> seq_complete s ->
  seq_complete (take_next c s).
Proof.
  intros Hc I Hnd K. unfold take_next. destruct (pending_deliveries s !! next_deliver_index s) as [[m|]|] eqn:Hp.
  - pose proof (si_pending _ _ I _ _ Hp) as Hin. destruct K as [Ks Kw Ka Kv Kt]. split; cbn; try done.
    + intros j o H. destruct (decide (j = next_deliver_index s)) as [->|Hne].
      * right. right. exists c, m. split; [apply list_lookup_insert_eq; by eapply lookup_lt_Some|].
        by eapply indices_unique.
      * destruct (Kw j o H) as [?|[?|(c' & m' & Hc' & ->)]]; [by left|right; left; by rewrite lookup_delete_ne|].
        destruct (si_delivering _ _ I _ _ _ Hc') as [-> _]. done.
    + intros j o [_ H]%lookup_delete_Some. by eapply Ka.
    + intros o. by rewrite lookup_delete_eq.
    + intros c' j m' [[-> [= -> ->]]|[Hne H]]%(lookup_update _ _ _ _ _ _ Hc); [apply lookup_delete_eq|].
      by destruct (others_wait total c _ s c' j m' I Hc eq_refl Hne).
  - pose proof (si_pending _ _ I _ _ Hp) as Hin. pose proof (si_range _ _ I) as Hf.
    rewrite Forall_forall in Hf. specialize (Hf _ Hin). cbn in Hf.
    apply (advance_complete c Draining s); try done; try lia; cbn.
    + intros j o. rewrite lookup_delete_Some. naive_solver.
    + intros m' H. by pose proof (indices_unique s _ _ _ Hnd Hin H).
  - destruct K as [Ks Kw Ka Kv Kt]. split; cbn; try done.
    + intros j o H. destruct (Kw j o H) as [?|[?|(c' & m' & Hc' & ->)]]; [by left|by right; left|].
      right. right. exists c', m'. split; [|done]. rewrite list_lookup_insert_ne; [done|congruence].
    + intros o H. congruence.
    + intros c' j m' [[-> H]|[Hne H]]%(lookup_update _ _ _ _ _ _ Hc); [done|by eapply Kt].
Qed.

Lemma no_failure_update c p s (l : list phase) :
  l = calls s -> (forall q, l !! c = Some q -> failed q = false) ->
  (forall c' p', <[c := p]> l !! c' = Some p' -> failed p' = false) -> no_failure s.
Proof.
  intros -> Hq H c' p' Hc'. destruct (decide (c' = c)) as [->|Hne]; [by apply Hq|].
  eapply (H c'). by rewrite list_lookup_insert_ne.
Qed.

Lemma seq_step_ok s s' : seq_ok s -> seq_step total s s' -> seq_ok s'.
Proof.
  intros [I K] Hstep. split; [by eapply seq_step_inv|].
  destruct Hstep as ([idx msg|c|c|c a] & Hadm & Hact); cbn in Hact; intros Hf Hnd.
  - injection Hact as <-. apply call_begin_complete; try done. apply K.
    + intros c p Hc. apply (Hf c p). by apply lookup_app_l_Some.
    + unfold indices in Hnd. cbn in Hnd. rewrite fmap_app in Hnd. by apply NoDup_app in Hnd as [? _].
  - destruct (calls s !! c) as [[]|] eqn:Hc; try done. destruct (delivery_lock s) eqn:HL; [done|].
    injection Hact as <-. apply lock_taken_complete; [done|]. apply K; [|done].
    eapply (no_failure_update c); [done|naive_solver|exact Hf].
  - destruct (calls s !! c) as [[]|] eqn:Hc; try done. injection Hact as <-.
    assert (Hf' : no_failure s).
    { unfold take_next in Hf. repeat case_match; cbn in Hf;
        (eapply (no_failure_update c); [done|naive_solver|exact Hf]). }
    assert (Hnd' : NoDup (indices s)) by (unfold take_next in Hnd; by repeat case_match).
    apply take_next_complete; try done. by apply K.
  - destruct (calls s !! c) as [[| |idx m| |]|] eqn:Hc; try done. injection Hact as <-.
    assert (Hbad : forall p, no_failure (leave c p s) -> failed p = false).
    { intros p Hp. apply (Hp c). cbn. apply list_lookup_insert_eq. by eapply lookup_lt_Some. }
    destruct a as [[[sent_id|]|e]|]; cbn [delivered] in *; try by apply Hbad in Hf.
    destruct (si_delivering _ _ I _ _ _ Hc) as [-> Hin].
    assert (Hf' : no_failure s) by (eapply (no_failure_update c); [done|naive_solver|exact Hf]).
    pose proof (si_range _ _ I) as Hr. rewrite Forall_forall in Hr. specialize (Hr _ Hin). cbn in Hr.
    specialize (K Hf' Hnd).
    apply (advance_complete c (Delivering (next_deliver_index s) m) s); try done; try lia; cbn.
    + intros j o. split; [|naive_solver]. intros H. split; [|done]. intros ->.
      by rewrite (sc_taken _ K c _ m Hc) in H.
    + intros e He. apply elem_of_app. by left.
    + intros m' H. pose proof (indices_unique s _ _ _ Hnd Hin H) as [= <-]. apply elem_of_app. right. by left.
Qed.
End Complete.

(** ** Progress *)

Definition phase_weight (p : phase) : nat :=
  match p with Waiting => 2 | Draining => 1 | Delivering _ _ => 2 | Returned _ | Panicked => 0 end.

Definition calls_weight (l : list phase) : nat := foldr (fun p n => (phase_weight p + n)%nat) 0%nat l.

Arguments calls_weight : simpl never.

(** Decreases with every action but a new call. *)
Definition seq_weight (s : sequencer) : nat :=
  (calls_weight (calls s) + 2 * size (pending_deliveries s))%nat.

Lemma weight_update (l : list phase) c p q :
  l !! c = Some q ->
  (calls_weight (<[c := p]> l) + phase_weight q = calls_weight l + phase_weight p)%nat.
Proof.
  unfold calls_weight. revert c. induction l as [|x l IH]; intros [|c]; cbn; try done.
  - intros [= ->]. lia.
  - intros H%IH. unfold insert in *. lia.
Qed.

Lemma weight_delete (m : gmap Z (option Z)) i o : m !! i = Some o -> (size (delete i m) + 1 = size m)%nat.
Proof.
  intros H. rewrite <- (insert_delete_id m i o H) at 2. rewrite map_size_insert_None by apply lookup_delete_eq. cbn. lia.
Qed.

Definition is_call (a : action) : bool := match a with ACall _ _ => true | _ => false end.

Lemma take_next_weight c s : calls s !! c = Some Draining -> (seq_weight (take_next c s) < seq_weight s)%nat.
Proof.
  intros Hc. unfold take_next, seq_weight. destruct (pending_deliveries s !! next_deliver_index s) as [[m|]|] eqn:Hp; cbn.
  - pose proof (weight_update _ c (Delivering (next_deliver_index s) m) _ Hc). pose proof (weight_delete _ _ _ Hp). cbn in *. lia.
  - pose proof (weight_update _ c Draining _ Hc). pose proof (weight_delete _ _ _ Hp). cbn in *. lia.
  - pose proof (weight_update _ c (Returned (Ok tt)) _ Hc). cbn in *. lia.
Qed.

Lemma act_weight a s s' : is_call a = false -> act a s = Some s' -> (seq_weight s' < seq_weight s)%nat.
Proof.
  destruct a as [idx msg|c|c|c a]; cbn [act is_call]; [done| | |]; intros _;
    destruct (calls s !! c) as [[]|] eqn:Hc; try done.
  - destruct (delivery_lock s); [done|]. intros [= <-]. unfold seq_weight, lock_taken. cbn.
    pose proof (weight_update _ c Draining _ Hc). cbn in *. lia.
  - intros [= <-]. by apply take_next_weight.
  - intros [= <-]. unfold seq_weight.
    pose proof (fun p => weight_update _ c p _ Hc) as Hw. cbn in Hw.
    destruct a as [[[]|]|]; cbn; [specialize (Hw Draining)|specialize (Hw (Returned (Err PREVIEW_RECEIPT)))
      |specialize (Hw (Returned (Err (delivery_error_display e))))|specialize (Hw Panicked)]; cbn in *; lia.
Qed.

(** ** A gap at the front *)

(** Any action but a report of track [n]. *)
Definition step_without (n : Z) (s s' : sequencer) : Prop :=
  exists a, (forall msg, a <> ACall n msg) /\ act a s = Some s'.

Definition gap_at (n : Z) (l : list (Z * Z)) (s : sequencer) : Prop :=
  next_deliver_index s = n /\ pending_deliveries s !! n = None /\ sent s = l /\
  (forall c j m, calls s !! c <> Some (Delivering j m)).

Lemma gap_step n l s s' : gap_at n l s -> step_without n s s' -> gap_at n l s'.
Proof.
  intros (Hn & Hp & Hs & Hd) (a & Ha & Hact). destruct a as [idx msg|c|c|c a]; cbn in Hact.
  - injection Hact as <-. split_and!; cbn; try done.
    + rewrite lookup_insert_ne; [done|]. intros ->. by apply (Ha msg).
    + by intros c j m [H%Hd|[_ H]]%lookup_append.
  - destruct (calls s !! c) as [[]|] eqn:Hc; try done. destruct (delivery_lock s); [done|].
    injection Hact as <-. split_and!; cbn; try done.
    by intros c' j m [[-> H]|[_ H%Hd]]%(lookup_update _ _ _ _ _ _ Hc).
  - destruct (calls s !! c) as [[]|] eqn:Hc; try done. injection Hact as <-.
    unfold take_next. rewrite Hn, Hp. split_and!; cbn; try done.
    by intros c' j m [[-> H]|[_ H%Hd]]%(lookup_update _ _ _ _ _ _ Hc).
  - destruct (calls s !! c) as [[]|] eqn:Hc; try done. by apply Hd in Hc.
Qed.

Lemma exec_reachable total l : forall s s',
  Forall (admissible total) l -> exec l s = Some s' -> steps (seq_step total) s s'.
Proof.
  induction l as [|a l IH]; intros s s'; cbn [exec]; [intros _ [= <-]; apply steps_refl|].
  intros [Ha Hl]%Forall_cons. destruct (act a s) as [s1|] eqn:E; cbn; [|done]. intros H.
  eapply steps_cons; [by exists a|by apply IH].
Qed.

(** A report and the actions of its call when nothing interferes. *)
Definition report (c : nat) (idx : Z) (msg : option Z) : list action := [ACall idx msg; ALock c; ATake c].

Definition delivered_ok (c : nat) (sent_id : Z) : list action := [AAnswer c (Some (Ok (Message sent_id))); ATake c].

(** ** Properties *)

(** C34: tracks of a batch arrive in the order of the album or playlist, each at most once, and a track
    arrives only when every earlier one has been reported: in every interleaving of the calls and
    whatever the deliveries answer. *)
Theorem delivered_in_track_order total s :
  0 <= total < umax 32 -> seq_reachable total s ->
  StronglySorted Z.lt (fst <$> sent s) /\
  (forall j m, (j, m) ∈ sent s -> (j, Some m) ∈ reported s /\ forall i, 1 <= i < j -> i ∈ indices s).
Proof.
  intros Ht I%(seq_reachable_inv total Ht). split; [apply I|]. intros j m H.
  pose proof (si_sent _ _ I) as Hs. rewrite Forall_forall in Hs. destruct (Hs _ H) as [Hj Hr]. cbn in *.
  split; [done|]. intros i Hi. apply (si_below _ _ I). lia.
Qed.

(** Nothing is lost when every track is reported once and every delivery succeeds: at the end
    exactly the tracks reported with a message have been delivered, in order. *)
Theorem sequencer_delivers_all total s :
  0 <= total < umax 32 -> seq_reachable total s ->
  NoDup (indices s) -> (forall i, 1 <= i <= total -> i ∈ indices s) ->
  (forall c p, calls s !! c = Some p -> p = Returned (Ok tt)) ->
  (forall j m, (j, m) ∈ sent s <-> (j, Some m) ∈ reported s) /\
  StronglySorted Z.lt (fst <$> sent s) /\ next_deliver_index s = total + 1 /\ pending_deliveries s = ∅.
Proof.
  intros Ht Hr Hnd Hall Hret.
  assert (seq_ok total s) as [I K].
  { eapply steps_invariant; [intros; by eapply seq_step_ok|exact Hr|].
    split; [by apply seq_new_inv|intros _ _; apply seq_new_complete]. }
  specialize (K ltac:(intros c p Hc; by rewrite (Hret c p Hc)) Hnd).
  assert (Hnext : next_deliver_index s = total + 1).
  { pose proof (si_next _ _ I) as Hb. destruct (Z.le_gt_cases (next_deliver_index s) total) as [Hle|]; [|lia].
    specialize (Hall _ (conj (proj1 Hb) Hle)). apply list_elem_of_fmap in Hall as ([j o] & Hj & Hin). cbn in Hj. subst j.
    destruct (sc_waits _ K _ _ Hin) as [?|[Hp|(c & m & Hc & _)]]; [lia| |by apply Hret in Hc].
    destruct (sc_served _ K _ Hp) as (c & p & Hc & Hact). by rewrite (Hret c p Hc) in Hact. }
  pose proof (si_range _ _ I) as Hf. rewrite Forall_forall in Hf. split_and!; [|apply I|done|].
  - intros j m. split.
    + intros H. pose proof (si_sent _ _ I) as Hs. rewrite Forall_forall in Hs. by destruct (Hs _ H).
    + intros H. apply (sc_sent _ K); [done|]. specialize (Hf _ H). cbn in Hf. lia.
  - apply map_eq. intros j. rewrite lookup_empty. destruct (pending_deliveries s !! j) as [o|] eqn:Hp; [|done].
    pose proof (sc_above _ K _ _ Hp). specialize (Hf _ (si_pending _ _ I _ _ Hp)). cbn in Hf. lia.
Qed.

(** The sequencer cannot block and cannot run for ever: while a call is under way one of them can
    act, and every action but a new call uses up part of a finite measure. *)
Theorem sequencer_progress total s :
  0 <= total < umax 32 -> seq_reachable total s ->
  (forall c p, calls s !! c = Some p -> active p = true -> exists a s', is_call a = false /\ act a s = Some s') /\
  (forall a s', is_call a = false -> act a s = Some s' -> (seq_weight s' < seq_weight s)%nat).
Proof.
  intros Ht I%(seq_reachable_inv total Ht). split; [|intros a s'; apply act_weight].
  assert (Hhold : forall c p, calls s !! c = Some p -> holds p = true -> exists a s', is_call a = false /\ act a s = Some s').
  { intros c [| |j m| |] Hc Hp; try done.
    - exists (ATake c). cbn. rewrite Hc. by eexists.
    - exists (AAnswer c None). cbn. rewrite Hc. by eexists. }
  intros c p Hc Hp. destruct (delivery_lock s) as [c'|] eqn:HL.
  - destruct (si_owner _ _ I c' HL) as [p' Hc']. apply (Hhold c' p' Hc'). by apply (si_lock _ _ I c' p' Hc').
  - destruct p; try done; try by apply (Hhold c _ Hc).
    exists (ALock c). cbn. rewrite Hc, HL. by eexists.
Qed.

(** Only upload-lane tasks report to the sequencer.  A track that never does - it was cached and
    delivered by the cached lane, or its rip failed - holds back every later track of the batch for
    ever: nothing after it is delivered, although the calls return [Ok]. *)
Theorem unreported_track_blocks_rest total s n :
  0 <= total < umax 32 -> seq_reachable total s -> 1 <= n -> n ∉ indices s ->
  Forall (fun e => e.1 < n) (sent s).
Proof.
  intros Ht I%(seq_reachable_inv total Ht) Hn Hnot. apply Forall_forall. intros [j m] Hin. cbn.
  pose proof (si_sent _ _ I) as Hs. rewrite Forall_forall in Hs. destruct (Hs _ Hin) as [Hj _]. cbn in *.
  destruct (Z.lt_ge_cases j n) as [|Hge]; [done|]. exfalso. apply Hnot, (si_below _ _ I). lia.
Qed.

(** Track 2 waits for its turn; track 1's task, which drains, delivers its own track and then meets an
    error for track 2: its call fails, track 2's entry is gone, and no continuation in which track 2
    does not report again delivers anything more. *)
Theorem failed_delivery_loses_other_track :
  exists s, seq_reachable 3 s /\ indices s = [2; 1; 3] /\ sent s = [(1, 101)] /\
    calls s = [Returned (Ok tt); Returned (Err (delivery_error_display UnexpectedMedia)); Returned (Ok tt)] /\
    forall s', steps (step_without 2) s s' -> sent s' = [(1, 101)].
Proof.
  set (l := report 0 2 (Some 102) ++ report 1 1 (Some 101) ++ delivered_ok 1 9 ++
            [AAnswer 1 (Some (Err UnexpectedMedia))] ++ report 2 3 (Some 103)).
  destruct (exec l seq_new) as [s|] eqn:E; [|by vm_compute in E]. exists s. split.
  { apply (exec_reachable 3 l); [|exact E]. repeat (apply Forall_cons; split; [cbn; lia || done|]). apply Forall_nil_2. }
  vm_compute in E. injection E as <-. split_and!; [done..|]. intros s' Hs.
  assert (gap_at 2 [(1, 101)] s') as (_ & _ & H & _); [|exact H].
  eapply steps_invariant; [intros; by eapply gap_step|exact Hs|]. split_and!; try done.
  intros [|[|[|c]]] j m; cbn; done.
Qed.

(** Both renditions of a track carry the track's index: the second one to report is never delivered. *)
Theorem second_rendition_not_delivered :
  exists s, seq_reachable 2 s /\ reported s = [(1, Some 101); (1, Some 201); (2, Some 102)] /\
    (forall c p, calls s !! c = Some p -> p = Returned (Ok tt)) /\ sent s = [(1, 101); (2, 102)].
Proof.
  set (l := report 0 1 (Some 101) ++ delivered_ok 0 9 ++ report 1 1 (Some 201) ++ report 2 2 (Some 102) ++ delivered_ok 2 10).
  destruct (exec l seq_new) as [s|] eqn:E; [|by vm_compute in E]. exists s. split.
  { apply (exec_reachable 2 l); [|exact E]. repeat (apply Forall_cons; split; [cbn; lia || done|]). apply Forall_nil_2. }
  vm_compute in E. injection E as <-. split_and!; try done. intros [|[|[|c]]] p; cbn; by intros [= <-].
Qed.

(** ** Witnesses *)

Definition demo_reports : list action :=
  report 0 2 (Some 102) ++ report 1 1 (Some 101) ++ delivered_ok 1 9 ++ delivered_ok 1 10.

Definition demo_delivered : sequencer :=
  mkSeq 3 ∅ None (Some 9) [Returned (Ok tt); Returned (Ok tt)] [(2, Some 102); (1, Some 101)] [(1, 101); (2, 102)].

Lemma demo_reports_run : seq_reachable 2 demo_delivered.
Proof.
  apply (exec_reachable 2 demo_reports); [|by vm_compute].
  repeat (apply Forall_cons; split; [cbn; lia || done|]). apply Forall_nil_2.
Qed.

Lemma delivered_in_track_order_witness : StronglySorted Z.lt [1; 2].
Proof. apply (delivered_in_track_order 2 demo_delivered); [by vm_compute|apply demo_reports_run]. Defined.

Lemma sequencer_delivers_all_witness : (2, 102) ∈ sent demo_delivered <-> (2, Some 102) ∈ reported demo_delivered.
Proof.
  apply (sequencer_delivers_all 2 demo_delivered); [by vm_compute|apply demo_reports_run| | |].
  - apply (bool_decide_unpack _). by vm_compute.
  - intros i Hi. assert (i = 1 \/ i = 2) as [-> | ->] by lia; apply (bool_decide_unpack _); by vm_compute.
  - intros [|[|c]] p; cbn; by intros [= <-].
Defined.

Definition demo_waiting : sequencer :=
  mkSeq 1 {[2 := Some 102]} None None [Waiting] [(2, Some 102)] [].

Lemma sequencer_progress_witness : exists a s', is_call a = false /\ act a demo_waiting = Some s'.
Proof.
  apply (sequencer_progress 2 demo_waiting) with (c := 0%nat) (p := Waiting); [by vm_compute| |done|done].
  apply (exec_reachable 2 [ACall 2 (Some 102)]); [|by vm_compute]. apply Forall_singleton. cbn. lia.
Defined.

(** Track 1 was cached; track 2 was uploaded, its call returned [Ok], and it is not delivered. *)
Definition demo_starved : sequencer :=
  mkSeq 1 {[2 := Some 102]} None None [Returned (Ok tt)] [(2, Some 102)] [].

Lemma unreported_track_blocks_rest_witness : Forall (fun e => e.1 < 1) (sent demo_starved).
Proof.
  apply (unreported_track_blocks_rest 2 demo_starved 1); [by vm_compute| |lia|].
  - apply (exec_reachable 2 (report 0 2 (Some 102))); [|by vm_compute].
    repeat (apply Forall_cons; split; [cbn; lia || done|]). apply Forall_nil_2.
  - apply (bool_decide_unpack _). by vm_compute.
Defined.
