(* ===== verification/UploadLane.v ===== *)
(** * UploadLane: one track on the upload lane (crates/engine/src/orchestrator/upload_lane.rs,
      helpers.rs)

    [upload_one] publishes a ripped track to the dump, with retries and a plainer caption when the
    caption is refused, records it in the cache and hands it to the delivery sequencer
    (DeliverySeq.v); [run_upload_item] then stages it for the album's archive.  The world is met
    through an environment: what the k-th look at the cancellation flags sees, what each attempt to
    publish yields, what the store and the sequencer answer.  The counters and lists are the job's,
    as this task leaves them; every call of a port is logged. *)
From S2P Require Import Prelude Text Music Filename ZipPlan ZipState Retry Storage Captions Delivery.

(** The fields of [TrackRipResult] the lane reads. *)
Record TrackRipResult := mkTrackRip {
  rip_file_path : str; rip_title : str; rip_artist : str; rip_album : str; rip_codec : str; rip_track_number : Z;
}.

(** [PipelineRipResult]. *)
Record upload_item := mkUpload {
  up_track_id : str; up_rip : TrackRipResult; up_rendition : Rendition; up_track_index : option Z;
}.

(** The part of [TaskContext] the lane reads. *)
Record lane_ctx := mkCtx {
  is_force : bool; is_admin : bool; is_cache_only : bool; zip_build : bool; zip_deliver : bool;
  upload_retry : RetryConfig; storage_retry : RetryPolicy;
}.

Inductive port_call : Type :=
| Publish (attempt : Z) (caption : TrackCaption)
| Published (p : DumpPublication)      (* what [Publish] yielded *)
| Backoff_sleep (attempt : Z)
| Retract (msg : Z)
| SaveTrack (input : SaveTrackInput) (saved : bool)
| DeleteTrack (track_id : str) (codec : option Codec)
| Report (track_index : option Z) (msg : option Z).

Record lane := mkLane {
  checks : nat;                        (* looks at the cancellation flags so far *)
  delivers : nat;                      (* calls of [deliver_sequenced] so far *)
  failed_tracks : list FailedTrack; failed_count : Z;
  cached_count : Z; ripped_count : Z; job_ripped_count : Z;
  uploads : gset str;                  (* keys of the upload progress map *)
  log : list port_call;
}.

Record environment := mkEnv {
  e_cancelled : nat -> bool;
  e_find : nat -> result TrackCacheError (gmap (str * Codec) CachedTrack);
  e_publish : nat -> option (result DeliveryError DumpPublication);   (* [None]: cancelled first *)
  e_save : nat -> result TrackCacheError unit;
  e_retract : bool;
  e_deliver : nat -> result str unit;
}.

Definition push (c : port_call) (s : lane) : lane :=
  mkLane (checks s) (delivers s) (failed_tracks s) (failed_count s) (cached_count s) (ripped_count s)
    (job_ripped_count s) (uploads s) (log s ++ [c]).

(** [failures.push(..)] and [failed_count = failures.len()], under the lock. *)
Definition push_failure (f : FailedTrack) (s : lane) : lane :=
  mkLane (checks s) (delivers s) (failed_tracks s ++ [f]) (Z.of_nat (length (failed_tracks s ++ [f])))
    (cached_count s) (ripped_count s) (job_ripped_count s) (uploads s) (log s).

Definition add_cached (s : lane) : lane :=
  mkLane (checks s) (delivers s) (failed_tracks s) (failed_count s) (wrap 64 (cached_count s + 1))
    (ripped_count s) (job_ripped_count s) (uploads s) (log s).

Definition add_ripped (s : lane) : lane :=
  mkLane (checks s) (delivers s) (failed_tracks s) (failed_count s) (cached_count s)
    (wrap 64 (ripped_count s + 1)) (wrap 64 (ripped_count s + 1)) (uploads s) (log s).

Definition upsert_upload (key : str) (s : lane) : lane :=
  mkLane (checks s) (delivers s) (failed_tracks s) (failed_count s) (cached_count s) (ripped_count s)
    (job_ripped_count s) ({[key]} ∪ uploads s) (log s).

Definition remove_upload (key : str) (s : lane) : lane :=
  mkLane (checks s) (delivers s) (failed_tracks s) (failed_count s) (cached_count s) (ripped_count s)
    (job_ripped_count s) (uploads s ∖ {[key]}) (log s).

Definition next_check (s : lane) : lane :=
  mkLane (S (checks s)) (delivers s) (failed_tracks s) (failed_count s) (cached_count s) (ripped_count s)
    (job_ripped_count s) (uploads s) (log s).

Definition next_deliver (s : lane) : lane :=
  mkLane (checks s) (S (delivers s)) (failed_tracks s) (failed_count s) (cached_count s) (ripped_count s)
    (job_ripped_count s) (uploads s) (log s).

Definition debug_rendition (r : Rendition) : str :=
  match r with Primary => lit "Primary" | Atmos => lit "Atmos" end.

Definition is_primary (r : Rendition) : bool := match r with Primary => true | Atmos => false end.

(** [record_failure]. *)
Definition record_failure (track_id err_msg : str) (title artist : option str) (s : lane) : lane :=
  push_failure (mkFailed track_id err_msg None title artist None) s.

Section Upload.
Variables (ctx : lane_ctx) (env : environment) (item : upload_item).

Definition upload_key : str :=
  lit "track_" ++ up_track_id item ++ lit "_" ++ debug_rendition (up_rendition item).

(** The [is_cancelled] closure. *)
Definition is_cancelled (s : lane) : bool * lane := (e_cancelled env (checks s), next_check s).

(** [deliver_sequenced], the sequencer's side being DeliverySeq.v. *)
Definition deliver_sequenced (msg : option Z) (s : lane) : result str unit * lane :=
  if is_cache_only ctx || zip_deliver ctx then (Ok tt, s)
  else (e_deliver env (delivers s), next_deliver (push (Report (up_track_index item) msg) s)).

Definition rollback_cancelled (dump_message_id : Z) (delete_record : bool) (codec : option Codec) (s : lane) : lane :=
  let s := push (Retract dump_message_id) s in
  if e_retract env && delete_record then push (DeleteTrack (up_track_id item) codec) s else s.

Definition ripped_codec : option Codec := ok (Codec_from_str (rip_codec (up_rip item))).

(** The lookup before the upload: the ripped codec's entry, or an accepted one. *)
Definition pre_cached : option CachedTrack :=
  if negb (is_force ctx && is_admin ctx) then
    match storage_answer (storage_retry ctx) (e_find env) with
    | Ok existing_map =>
        match c ← ripped_codec; existing_map !! (up_track_id item, c) with
        | Some cached => Some cached
        | None => find_map (fun c => existing_map !! (up_track_id item, c)) (accepted_cache_codecs (up_rendition item))
        end
    | Err _ => None
    end
  else None.

Definition machine_caption : TrackCaption := Machine (up_track_id item) (rip_codec (up_rip item)).

Definition plain_caption : str :=
  rip_title (up_rip item) ++ lit " - " ++ rip_artist (up_rip item) ++ [10] ++ rip_album (up_rip item).

Definition max_retries : Z := retries (upload_retry ctx).

Inductive upload_end : Type :=
| Outcome (p : DumpPublication)
| NoOutcome                          (* [break 'upload], or the attempts are used up *)
| Exhausted (e : DeliveryError).     (* the error is final *)

(** The ['upload] loop; [left_] counts the values of [0..=max_retries] still to come. *)
Fixpoint upload_loop (left_ : nat) (attempt : Z) (current_caption : TrackCaption) (used_plain_caption : bool)
    (s : lane) : upload_end * lane :=
  match left_ with
  | O => (NoOutcome, s)
  | S left_ =>
      let '(c, s) := is_cancelled s in
      if c then (NoOutcome, s)
      else
        let s := push (Publish attempt current_caption) s in
        match e_publish env (Z.to_nat attempt) with
        | None => (NoOutcome, s)
        | Some (Ok upload) => (Outcome upload, push (Published upload) s)
        | Some (Err upload_err) =>
            let '(c, s) := is_cancelled s in
            if c then (NoOutcome, s)
            else if caption_rejected upload_err && negb used_plain_caption then
              upload_loop left_ (attempt + 1) (Plain (clamp_str_utf16 plain_caption 1024)) true s
            else if is_transient upload_err && (attempt <? max_retries) then
              upload_loop left_ (attempt + 1) current_caption used_plain_caption (push (Backoff_sleep attempt) s)
            else (Exhausted upload_err, s)
        end
  end.

Definition cache_input (dump_upload : DumpPublication) : SaveTrackInput :=
  from_rip_result (up_track_id item) (rip_codec (up_rip item)) (message dump_upload)
    (file_id dump_upload) (file_unique_id dump_upload).

(** The async block [post_upload]. *)
Definition post_upload (dump_upload : DumpPublication) (s : lane) : result str unit * lane :=
  let '(c, s) := is_cancelled s in
  if c then (Err (lit "cancelled"), push (Retract (message dump_upload)) s)
  else
    match storage_answer (storage_retry ctx) (e_save env) with
    | Err error =>
        (Err (lit "track cache persistence failed: " ++ track_cache_error_display error),
         push (Retract (message dump_upload)) (push (SaveTrack (cache_input dump_upload) false) s))
    | Ok _ =>
        let s := push (SaveTrack (cache_input dump_upload) true) s in
        let '(c, s) := is_cancelled s in
        if c then (Err (lit "cancelled"), rollback_cancelled (message_id dump_upload) true ripped_codec s)
        else
          let '(r, s) := if negb (is_cache_only ctx) && negb (zip_deliver ctx)
                         then deliver_sequenced (Some (message dump_upload)) s else (Ok tt, s) in
          match r with
          | Err e => (Err e, s)
          | Ok _ =>
              let '(c, s) := is_cancelled s in
              if c then (Err (lit "cancelled"), rollback_cancelled (message_id dump_upload) true ripped_codec s)
              else (Ok tt, s)
          end
    end.

(** What follows the loop. *)
Definition upload_finish (outcome : upload_end) (s : lane) : bool * lane :=
  match outcome with
  | Exhausted upload_err =>
      let s := if is_primary (up_rendition item)
               then record_failure (up_track_id item) (delivery_error_display upload_err)
                      (Some (rip_title (up_rip item))) (Some (rip_artist (up_rip item))) s
               else s in
      let '(_, s) := deliver_sequenced None s in
      (false, remove_upload upload_key s)
  | NoOutcome =>
      let '(_, s) := deliver_sequenced None s in
      (false, remove_upload upload_key s)
  | Outcome dump_upload =>
      let '(r, s) := post_upload dump_upload s in
      match r with
      | Ok _ =>
          let s := remove_upload upload_key s in
          (true, if is_primary (up_rendition item) then add_ripped s else s)
      | Err err_msg =>
          let s := remove_upload upload_key s in
          let '(_, s) := deliver_sequenced None s in
          let '(c, s) := is_cancelled s in
          if c then (false, s)
          else (false, if is_primary (up_rendition item)
                       then record_failure (up_track_id item) err_msg
                              (Some (rip_title (up_rip item))) (Some (rip_artist (up_rip item))) s
                       else s)
      end
  end.

Definition upload_fresh (s : lane) : bool * lane :=
  let s := upsert_upload upload_key s in
  let '(outcome, s) := upload_loop (Z.to_nat (max_retries + 1)) 0 machine_caption false s in
  upload_finish outcome s.

Definition upload_one (s : lane) : bool * lane :=
  let '(c, s) := is_cancelled s in
  if c then (false, s)
  else match pre_cached with
       | None => upload_fresh s
       | Some cached =>
           let '(c, s) := is_cancelled s in
           if c then (false, s)
           else
             let '(r, s) := if negb (is_cache_only ctx) && negb (zip_deliver ctx)
                            then deliver_sequenced (Some (ct_message_id cached)) s else (Ok tt, s) in
             let s := match r with
                      | Ok _ => s
                      | Err _ => push (DeleteTrack (up_track_id item) (Some (ct_codec cached))) s
                      end in
             let '(c, s) := is_cancelled s in
             if c then (false, s)
             else match r with
                  | Ok _ =>
                      let s := remove_upload upload_key s in
                      (true, if is_primary (up_rendition item) then add_cached s else s)
                  | Err _ => upload_fresh s
                  end
       end.
End Upload.

(** ** Staging for the archive *)

(** The part of [ZipState] and [TaskContext] that staging writes; [files_removed] logs the deletions. *)
Record zip_lane := mkZipLane {
  zip_dir : option str;                (* the directory of the rendition's [ZipState], if there is one *)
  zip_codec : option str; zip_sources : list ZipTrackEntry;
  primary_zip_error : option str; atmos_warning : option str;
  files_removed : list str;
}.

Definition remove_file (path : str) (z : zip_lane) : zip_lane :=
  mkZipLane (zip_dir z) (zip_codec z) (zip_sources z) (primary_zip_error z) (atmos_warning z)
    (files_removed z ++ [path]).

(** A required rendition's failure is an error of the job, an optional one's a warning. *)
Definition staging_failed (r : Rendition) (primary_msg atmos_msg : str) (z : zip_lane) : zip_lane :=
  if is_primary r
  then mkZipLane (zip_dir z) (zip_codec z) (zip_sources z)
         (set_primary_zip_error (primary_zip_error z) primary_msg) (atmos_warning z) (files_removed z)
  else mkZipLane (zip_dir z) (zip_codec z) (zip_sources z) (primary_zip_error z) (Some atmos_msg) (files_removed z).

Definition add_source (item : upload_item) (entry : ZipTrackEntry) (z : zip_lane) : zip_lane :=
  let codec := match Codec_from_str (rip_codec (up_rip item)) with
               | Ok codec => if codec_allowed_for_rendition (up_rendition item) codec
                             then seed_zip_codec (zip_codec z) codec else zip_codec z
               | Err _ => zip_codec z
               end in
  mkZipLane (zip_dir z) codec (zip_sources z ++ [entry]) (primary_zip_error z) (atmos_warning z) (files_removed z).

Section Stage.
Variables (ctx : lane_ctx) (env : environment) (item : upload_item).
Variable copy : result str unit.       (* what [tokio::fs::copy] answers *)
Variable metadata : result str Z.      (* the size of the staged file *)

Definition zip_filename : option str :=
  build_zip_entry_filename_with_codec (Some (rip_track_number (up_rip item))) (rip_title (up_rip item))
    (rip_artist (up_rip item)) (up_track_id item) (rip_codec (up_rip item)).

Definition failed_msg (what detail : str) : str := what ++ up_track_id item ++ lit ": " ++ detail.

(** The body of the [if] that stages the track; [None] is a panic of the file name's builder. *)
Definition stage_track (dir : str) (s : lane) (z : zip_lane) : option (lane * zip_lane) :=
  filename ← zip_filename;
  let destination := dir ++ lit "/" ++ filename in
  match copy with
  | Err error =>
      Some (s, staging_failed (up_rendition item) (failed_msg (lit "primary ZIP staging failed for ") error)
                 (failed_msg (lit "optional Atmos ZIP staging failed for ") error) z)
  | Ok _ =>
      let '(c, s) := is_cancelled env s in
      if c then Some (s, remove_file destination z)
      else match metadata with
           | Ok size => Some (s, add_source item (mkEntry destination filename size) z)
           | Err error =>
               Some (s, staging_failed (up_rendition item)
                          (failed_msg (lit "primary ZIP source metadata failed for ") error)
                          (failed_msg (lit "optional Atmos ZIP source metadata failed for ") error)
                          (remove_file destination z))
           end
  end.

Definition run_upload_item (s : lane) (z : zip_lane) : option (lane * zip_lane) :=
  let '(uploaded_ok, s) := upload_one ctx env item s in
  let '(cancelled, s) := is_cancelled env s in
  '(s, z) ← (if uploaded_ok && zip_build ctx && negb cancelled
             then match zip_dir z with
                  | Some dir => stage_track dir s z
                  | None => Some (s, z)
                  end
             else Some (s, z));
  Some (s, remove_file (rip_file_path (up_rip item)) z).

End Stage.

(** [record_lane_task_panic]: the first fatal error stays, a track is listed once. *)
Definition record_lane_task_panic (item_id msg : str) (fatal : option str) (s : lane) : option str * lane :=
  let error := lit "lane-2 task panicked for " ++ item_id ++ lit ": " ++ msg in
  (match fatal with None => Some error | Some _ => fatal end,
   if existsb (fun f => bool_decide (failed_id f = item_id)) (failed_tracks s) then s
   else push_failure (mkFailed item_id error None None None None) s).

(** ** Lemmas *)

(** The job's counters, failures and progress map are as they were. *)
Definition same_job (s s' : lane) : Prop :=
  failed_tracks s' = failed_tracks s /\ failed_count s' = failed_count s /\ cached_count s' = cached_count s /\
  ripped_count s' = ripped_count s /\ job_ripped_count s' = job_ripped_count s /\ uploads s' = uploads s.

(** Only calls that satisfy [P] were made. *)
Definition logged (P : list port_call -> Prop) (s s' : lane) : Prop := exists l, log s' = log s ++ l /\ P l.

Lemma same_job_trans s1 s2 s3 : same_job s1 s2 -> same_job s2 s3 -> same_job s1 s3.
Proof. unfold same_job. intros (-> & -> & -> & -> & -> & ->) (-> & -> & -> & -> & -> & ->). by split_and!. Qed.

Lemma logged_app (P Q R : list port_call -> Prop) s1 s2 s3 :
  logged P s1 s2 -> logged Q s2 s3 -> (forall l1 l2, P l1 -> Q l2 -> R (l1 ++ l2)) -> logged R s1 s3.
Proof. intros (l1 & H1 & HP) (l2 & H2 & HQ) HR. exists (l1 ++ l2). rewrite H2, H1, app_assoc. split; [done|by apply HR]. Qed.

Definition is_publish (c : port_call) : bool := match c with Publish _ _ => true | _ => false end.
Definition is_report (c : port_call) : bool := match c with Report _ _ => true | _ => false end.
Definition is_retract (c : port_call) : bool := match c with Retract _ => true | _ => false end.

Definition publishes (l : list port_call) : nat := length (List.filter is_publish l).

Lemma publishes_app l1 l2 : publishes (l1 ++ l2) = (publishes l1 + publishes l2)%nat.
Proof. unfold publishes. by rewrite List.filter_app, length_app. Qed.

Section Specs.
Variables (ctx : lane_ctx) (env : environment) (item : upload_item).

Definition was_cancelled : Prop := (exists k, e_cancelled env k = true) \/ (exists k, e_publish env k = None).

(** The captions an upload may carry, and when the plain one is used. *)
Definition caption_ok (c : port_call) : Prop :=
  match c with
  | Publish _ cap => cap = machine_caption item \/
      (cap = Plain (clamp_str_utf16 (plain_caption item) 1024) /\
       exists k e, e_publish env k = Some (Err e) /\ caption_rejected e = true)
  | Published p => exists k, e_publish env k = Some (Ok p)
  | Backoff_sleep _ => True
  | _ => False
  end.

Lemma deliver_sequenced_frame msg s r s' :
  deliver_sequenced ctx env item msg s = (r, s') ->
  same_job s s' /\ logged (fun l => l = [] \/ l = [Report (up_track_index item) msg]) s s'.
Proof.
  unfold deliver_sequenced. case_match; intros [= <- <-]; (split; [by split_and!|]).
  - exists []. rewrite app_nil_r. auto.
  - eexists. split; [done|]. by right.
Qed.

Definition quiet_log (n : nat) (l : list port_call) : Prop :=
  Forall caption_ok l /\ (forall q, Published q ∉ l) /\ (publishes l <= n)%nat.

Lemma quiet_log_app n m l1 l2 : quiet_log n l1 -> quiet_log m l2 -> quiet_log (n + m) (l1 ++ l2).
Proof.
  intros (H1 & H2 & H3) (K1 & K2 & K3). split_and!; [by apply Forall_app| |rewrite publishes_app; lia].
  intros q [?|?]%elem_of_app; [by eapply H2|by eapply K2].
Qed.

Lemma quiet_nil n : quiet_log n [].
Proof. split_and!; [constructor|intros q H; by apply not_elem_of_nil in H|cbn; lia]. Qed.

Lemma quiet_one c n :
  caption_ok c -> (forall q, c <> Published q) -> (publishes [c] <= n)%nat -> quiet_log n [c].
Proof. intros. split_and!; [by apply Forall_singleton|intros q H'%list_elem_of_singleton; naive_solver|done]. Qed.

(** How the loop ends, with the attempts it had left. *)
Definition loop_log (n : nat) (r : upload_end) (l : list port_call) : Prop :=
  match r with
  | Outcome p => exists l0, l = l0 ++ [Published p] /\ quiet_log n l0
  | _ => quiet_log n l
  end.

Lemma loop_log_app n m r l1 l2 : quiet_log n l1 -> loop_log m r l2 -> loop_log (n + m) r (l1 ++ l2).
Proof.
  intros H1 H2. destruct r; cbn in *; [|by apply quiet_log_app..]. destruct H2 as (l0 & -> & H).
  exists (l1 ++ l0). split; [by rewrite app_assoc|by apply quiet_log_app].
Qed.

Definition loop_reason (r : upload_end) : Prop :=
  match r with
  | Outcome p => exists k, e_publish env k = Some (Ok p)
  | Exhausted e => exists k, e_publish env k = Some (Err e)
  | NoOutcome => was_cancelled \/
      exists e, e_publish env (Z.to_nat (max_retries ctx)) = Some (Err e) /\ caption_rejected e = true
  end.

Lemma upload_loop_spec n : forall attempt cap used s r s',
  upload_loop ctx env item n attempt cap used s = (r, s') ->
  (0 < n)%nat -> 0 <= attempt -> attempt + Z.of_nat n = max_retries ctx + 1 ->
  caption_ok (Publish attempt cap) ->
  same_job s s' /\ logged (loop_log n r) s s' /\ loop_reason r.
Proof.
  induction n as [|n IH]; intros attempt cap used s r s' Hrun Hn Ha Hm Hcap; [lia|].
  cbn [upload_loop is_cancelled] in Hrun. destruct (e_cancelled env (checks s)) eqn:Hc.
  { injection Hrun as <- <-. split_and!; [by split_and!| |left; left; by eexists].
    exists []. rewrite app_nil_r. split; [done|apply quiet_nil]. }
  assert (Hone : quiet_log 1 [Publish attempt cap]) by (apply quiet_one; [exact Hcap|done|cbn; lia]).
  destruct (e_publish env (Z.to_nat attempt)) as [[p|e]|] eqn:Hp.
  - injection Hrun as <- <-. split_and!; [by split_and!| |by eexists]. eexists. cbn. rewrite <- app_assoc.
    split; [done|]. exists [Publish attempt cap]. split; [done|].
    replace (S n) with (1 + n)%nat by lia. rewrite <- (app_nil_r [_]). apply quiet_log_app; [done|apply quiet_nil].
  - cbn in Hrun. assert (Hquiet : forall k, quiet_log (S k) [Publish attempt cap]) by (intros; apply quiet_one; [exact Hcap|done|cbn; lia]).
    destruct (e_cancelled env (S (checks s))) eqn:Hc2.
    { injection Hrun as <- <-. split_and!; [by split_and!| |left; left; by eexists]. eexists; split; [reflexivity|apply Hquiet]. }
    destruct (caption_rejected e && negb used) eqn:Hrej; [|destruct (is_transient e && (attempt <? max_retries ctx)) eqn:Htr].
    + apply andb_true_iff in Hrej as [Hrej _]. assert (Hplain : caption_ok (Publish (attempt + 1) (Plain (clamp_str_utf16 (plain_caption item) 1024)))).
      { right. split; [done|]. by exists (Z.to_nat attempt), e. }
      destruct n as [|n'].
      * cbn in Hrun. injection Hrun as <- <-. split_and!; [by split_and!|(eexists; split; [reflexivity|apply Hquiet])|].
        right. exists e. split; [|done]. by replace (max_retries ctx) with attempt by lia.
      * destruct (IH _ _ _ _ _ _ Hrun) as (Hs & Hl & Hr); [lia|lia|lia|done|]. split_and!; [exact Hs| |done].
        eapply (logged_app (quiet_log 1) _ _ _ (next_check (next_check (push (Publish attempt cap) s)))); [eexists; split; [reflexivity|exact Hone]|exact Hl|intros; by apply (loop_log_app 1)].
    + clear Hrej. to_prop. destruct (IH _ _ _ _ _ _ Hrun) as (Hs & Hl & Hr); [lia|lia|lia|done|]. split_and!; [exact Hs| |done].
      eapply (logged_app (quiet_log 1) _ _ _ (push (Backoff_sleep attempt) (next_check (next_check (push (Publish attempt cap) s))))); [|exact Hl|intros; by apply (loop_log_app 1)].
      eexists. cbn. rewrite <- app_assoc. split; [done|]. apply (quiet_log_app 1 0); [done|].
      apply quiet_one; [done|done|cbn; lia].
    + injection Hrun as <- <-. split_and!; [by split_and!|(eexists; split; [reflexivity|apply Hquiet])|by eexists].
  - injection Hrun as <- <-. split_and!; [by split_and!| |left; right; by eexists].
    eexists. split; [done|]. apply quiet_one; [exact Hcap|done|cbn; lia].
Qed.

(** A publication is kept: it is on record and nothing was retracted. *)
Definition kept (p : DumpPublication) (l : list port_call) : Prop :=
  SaveTrack (cache_input item p) true ∈ l /\ forall m, Retract m ∉ l.

(** A publication is dropped: it was retracted, and its record, if any, deleted if that succeeded. *)
Definition dropped (p : DumpPublication) (l : list port_call) : Prop :=
  Retract (message p) ∈ l /\
  (SaveTrack (cache_input item p) true ∈ l -> e_retract env = true ->
   DeleteTrack (up_track_id item) (ripped_codec item) ∈ l).

(** No call published anything. *)
Definition unpublished (l : list port_call) : Prop := forall c, c ∈ l -> is_publish c = false /\ forall q, c <> Published q.

Lemma rollback_spec m codec s :
  same_job s (rollback_cancelled env item m true codec s) /\
  log (rollback_cancelled env item m true codec s) =
    log s ++ Retract m :: (if e_retract env then [DeleteTrack (up_track_id item) codec] else []).
Proof.
  unfold rollback_cancelled. destruct (e_retract env); cbn; (split; [by split_and!|]); [by rewrite <- app_assoc|done].
Qed.

Lemma rolled_back p l :
  dropped p (l ++ Retract (message p) :: (if e_retract env then [DeleteTrack (up_track_id item) (ripped_codec item)] else [])).
Proof. split; [set_solver|]. intros _ ->. set_solver. Qed.

Lemma post_upload_spec p s r s' :
  post_upload ctx env item p s = (r, s') ->
  same_job s s' /\
  logged (fun l => unpublished l /\
    match r with
    | Ok _ => kept p l
    | Err e => (kept p l /\ exists k, e_deliver env k = Err e) \/
               (dropped p l /\ (was_cancelled \/ exists n err, e_save env n = Err err))
    end) s s'.
Proof.
  unfold post_upload. cbn [is_cancelled]. destruct (e_cancelled env (checks s)) eqn:C1.
  { intros [= <- <-]. split; [by split_and!|]. eexists. split; [reflexivity|]. split; [set_solver|].
    right. split; [split; set_solver|]. left. left. by eexists. }
  destruct (storage_answer (storage_retry ctx) (e_save env)) as [u|err] eqn:Hsave.
  2:{ intros [= <- <-]. split; [by split_and!|]. eexists. cbn. rewrite <- app_assoc. split; [reflexivity|].
      split; [set_solver|]. right. split; [split; set_solver|]. right.
      destruct (storage_answer_call (storage_retry ctx) (e_save env)) as [n Hn]. exists n, err. congruence. }
  cbn. destruct (e_cancelled env (S (checks s))) eqn:C2.
  { intros [= <- <-]. match goal with |- same_job _ (rollback_cancelled _ _ ?m _ ?c ?t) /\ _ => destruct (rollback_spec m c t) as [Hj Hl] end.
    split; [exact Hj|]. eexists. rewrite Hl. cbn. rewrite <- app_assoc. split; [reflexivity|].
    split; [case_match; set_solver|]. right. split; [apply (rolled_back p [_])|]. left. left. by eexists. }
  match goal with |- context [if ?b then deliver_sequenced _ _ _ ?m ?t else (Ok tt, ?t)] =>
    destruct (if b then deliver_sequenced ctx env item m t else (Ok tt, t)) as [r1 s1] eqn:Hd;
    assert (same_job t s1 /\ logged (fun l => l = [] \/ l = [Report (up_track_index item) m]) t s1 /\
            (forall e, r1 = Err e -> exists k, e_deliver env k = Err e)) as (J1 & (l1 & Hl1 & Hr1) & D1)
  end.
  { revert Hd. case_match; [|intros [= <- <-]; split_and!; [by split_and!|exists []; rewrite app_nil_r; auto|done]].
    intros Hd. destruct (deliver_sequenced_frame _ _ _ _ Hd). split_and!; [done..|]. intros e ->.
    revert Hd. unfold deliver_sequenced. case_match; [done|]. intros [= Hk _]. by eexists. }
  cbn in Hl1. assert (Hu : unpublished l1) by (destruct Hr1; set_solver).
  destruct r1 as [u1|e1].
  - destruct (e_cancelled env (checks s1)) eqn:C3.
    + intros [= <- <-]. match goal with |- same_job _ (rollback_cancelled _ _ ?m _ ?c ?t) /\ _ => destruct (rollback_spec m c t) as [Hj Hl] end.
      split; [eapply same_job_trans; [exact J1|exact Hj]|]. eexists. rewrite Hl. cbn. rewrite Hl1, <- !app_assoc.
      split; [reflexivity|]. split; [case_match; destruct Hr1; set_solver|]. right.
      split; [rewrite app_assoc; apply rolled_back|]. left. left. by eexists.
    + intros [= <- <-]. split; [exact J1|]. eexists. cbn. rewrite Hl1, <- !app_assoc. split; [reflexivity|].
      split; [destruct Hr1; set_solver|]. split; [set_solver|]. intros m. destruct Hr1; set_solver.
  - intros [= <- <-]. split; [exact J1|]. eexists. rewrite Hl1, <- !app_assoc. split; [reflexivity|].
    split; [destruct Hr1; set_solver|]. left. split; [|by apply D1]. split; [set_solver|]. intros m. destruct Hr1; set_solver.
Qed.
(** What an upload leaves of the job. *)
Definition job_effect (b : bool) (s s' : lane) : Prop :=
  uploads s' = uploads s /\
  if b then
    failed_tracks s' = failed_tracks s /\ failed_count s' = failed_count s /\
    (if is_primary (up_rendition item)
     then (cached_count s' = wrap 64 (cached_count s + 1) /\ ripped_count s' = ripped_count s) \/
          (cached_count s' = cached_count s /\ ripped_count s' = wrap 64 (ripped_count s + 1) /\
           job_ripped_count s' = ripped_count s')
     else cached_count s' = cached_count s /\ ripped_count s' = ripped_count s)
  else
    cached_count s' = cached_count s /\ ripped_count s' = ripped_count s /\
    ((failed_tracks s' = failed_tracks s /\ failed_count s' = failed_count s) \/
     (up_rendition item = Primary /\ failed_count s' = Z.of_nat (length (failed_tracks s')) /\
      exists error, failed_tracks s' = failed_tracks s ++
        [mkFailed (up_track_id item) error None (Some (rip_title (up_rip item))) (Some (rip_artist (up_rip item))) None])).

(** Why a track may fail without being recorded as failed. *)
Definition unrecorded_reason : Prop :=
  was_cancelled \/
  exists e, e_publish env (Z.to_nat (max_retries ctx)) = Some (Err e) /\ caption_rejected e = true.

Record upload_log (b : bool) (l : list port_call) : Prop := {
  ul_bound : Z.of_nat (publishes l) <= max_retries ctx + 1;
  ul_captions : forall c, c ∈ l -> is_publish c = true -> caption_ok c;
  ul_accounted : forall p, Published p ∈ l -> kept p l \/ dropped p l;
  ul_kept : b = true -> forall m, Retract m ∉ l;
}.

Lemma is_primary_spec r : is_primary r = true <-> r = Primary.
Proof. by destruct r. Qed.

Lemma filter_none l : (forall c, c ∈ l -> is_publish c = false) -> publishes l = 0%nat.
Proof.
  intros H. induction l as [|c l IH]; [done|]. unfold publishes. cbn. rewrite (H c) by set_solver.
  apply IH. set_solver.
Qed.

(** A log of quiet attempts, perhaps a publication, and what follows it. *)
Lemma fresh_log b n l0 l1 (o : option DumpPublication) :
  quiet_log n l0 -> Z.of_nat n <= max_retries ctx + 1 -> unpublished l1 ->
  match o with
  | Some p => (exists k, e_publish env k = Some (Ok p)) /\ (kept p l1 \/ dropped p l1) /\ (b = true -> kept p l1)
  | None => b = false /\ forall m, Retract m ∉ l1
  end ->
  upload_log b (l0 ++ match o with Some p => [Published p] | None => [] end ++ l1).
Proof.
  intros (Hq1 & Hq2 & Hq3) Hn Hu Ho. rewrite Forall_forall in Hq1.
  assert (Hr : forall m, Retract m ∉ l0) by (intros m Hm; exact (Hq1 _ Hm)). split.
  - rewrite !publishes_app, (filter_none l1) by (intros c Hc; by apply Hu).
    rewrite (filter_none (match o with Some p => [Published p] | None => [] end)); [lia|].
    intros c Hc. destruct o; set_solver.
  - intros c [Hc|[Hc|Hc]%elem_of_app]%elem_of_app Hp; [by apply Hq1|destruct o; set_solver|].
    destruct (Hu c Hc). congruence.
  - intros p [Hc|[Hc|Hc]%elem_of_app]%elem_of_app; [by apply Hq2 in Hc| |by destruct (proj2 (Hu _ Hc) p)].
    destruct o as [q|]; [|set_solver]. apply list_elem_of_singleton in Hc as [= <-].
    destruct Ho as (_ & [[K1 K2]|[K1 K2]] & _); [left|right].
    + split; [set_solver|]. intros m [H|[H|H]%elem_of_app]%elem_of_app; [by eapply Hr|set_solver|by eapply K2].
    + split; [set_solver|]. intros [H|[H|H]%elem_of_app]%elem_of_app He; [by apply Hq1 in H|set_solver|].
      specialize (K2 H He). set_solver.
  - intros Hb m [H|[H|H]%elem_of_app]%elem_of_app; [by eapply Hr|destruct o; set_solver|].
    destruct o as [q|]; [|by destruct Ho; congruence]. destruct Ho as (_ & _ & Hk). by apply (proj2 (Hk Hb) m).
Qed.

Lemma record_effect error s s' :
  same_job s s' -> uploads s' = uploads s ->
  job_effect false s (if is_primary (up_rendition item)
    then record_failure (up_track_id item) error (Some (rip_title (up_rip item))) (Some (rip_artist (up_rip item))) s'
    else s').
Proof.
  unfold same_job, job_effect. intros (Hf & Hc & Hca & Hr & _ & _) Hu. destruct (up_rendition item) eqn:E; cbn.
  - split_and!; [done..|]. right. split_and!; [done|done|]. eexists. by rewrite Hf.
  - split_and!; auto.
Qed.

(** Reports change nothing in the account of a publication. *)
Definition reports (l : list port_call) : Prop := forall c, c ∈ l -> exists idx msg, c = Report idx msg.

Lemma report_reports idx msg l : l = [] \/ l = [Report idx msg] -> reports l.
Proof. intros [-> | ->] c H; [by apply not_elem_of_nil in H|]. apply list_elem_of_singleton in H as ->. by do 2 eexists. Qed.

Lemma reports_unpublished l1 l2 : unpublished l1 -> reports l2 -> unpublished (l1 ++ l2).
Proof. intros H1 H2 c [Hc|Hc]%elem_of_app; [by apply H1|]. by destruct (H2 c Hc) as (? & ? & ->). Qed.

Lemma reports_accounted p l1 l2 :
  reports l2 -> kept p l1 \/ dropped p l1 -> kept p (l1 ++ l2) \/ dropped p (l1 ++ l2).
Proof.
  intros H2 [[K1 K2]|[K1 K2]]; [left|right]; (split; [set_solver|]).
  - intros m [H|H]%elem_of_app; [by eapply K2|]. by destruct (H2 _ H) as (? & ? & ?).
  - intros [H|H]%elem_of_app He; [specialize (K2 H He); set_solver|]. by destruct (H2 _ H) as (? & ? & ?).
Qed.

Definition fresh_post (b : bool) (s s' : lane) : Prop :=
  job_effect b s s' /\ logged (upload_log b) s s' /\
  (b = false -> up_rendition item = Primary -> failed_tracks s' = failed_tracks s -> unrecorded_reason).

Lemma remove_upsert s : upload_key item ∉ uploads s -> uploads (remove_upload (upload_key item) (upsert_upload (upload_key item) s)) = uploads s.
Proof. intros H. cbn. set_solver. Qed.

Lemma snoc_ne (f : FailedTrack) l : l ++ [f] <> l.
Proof. intros H. apply (f_equal length) in H. rewrite length_app in H. cbn in H. lia. Qed.

(** The state after the loop, but for the progress entry. *)
Definition after_loop (s s1 : lane) : Prop :=
  failed_tracks s1 = failed_tracks s /\ failed_count s1 = failed_count s /\ cached_count s1 = cached_count s /\
  ripped_count s1 = ripped_count s /\ job_ripped_count s1 = job_ripped_count s /\
  uploads s1 ∖ {[upload_key item]} = uploads s.

Lemma upload_published_spec s b s' s1 p lq n :
  after_loop s s1 -> log s1 = log s ++ lq ++ [Published p] -> quiet_log n lq -> Z.of_nat n <= max_retries ctx + 1 ->
  (exists k, e_publish env k = Some (Ok p)) ->
  upload_finish ctx env item (Outcome p) s1 = (b, s') -> fresh_post b s s'.
Proof.
  intros (E1 & E2 & E3 & E4 & E5 & E6) Hl0 Hq Hn Hr. unfold upload_finish.
  destruct (post_upload ctx env item p s1) as [r2 s2] eqn:Hpost.
  destruct (post_upload_spec _ _ _ _ Hpost) as ((F1 & F2 & F3 & F4 & F5 & F6) & (l1 & Hl1 & Hun & Hres)).
  destruct r2 as [u|err].
  - intros [= <- <-]. split_and!; [|exists (lq ++ [Published p] ++ l1)|done].
    + unfold job_effect. destruct (up_rendition item); cbn in *; rewrite ?F1, ?F2, ?F3, ?F4, ?F6; split_and!; auto.
      right. split_and!; congruence.
    + split.
      { transitivity (log s2); [by destruct (is_primary (up_rendition item))|]. by rewrite Hl1, Hl0, <- !app_assoc. }
      eapply (fresh_log _ _ lq l1 (Some p)); [done..|]. split_and!; [exact Hr|by left|done].
  - destruct (deliver_sequenced ctx env item None (remove_upload (upload_key item) s2)) as [r3 s3] eqn:Hd.
    destruct (deliver_sequenced_frame _ _ _ _ Hd) as ((G1 & G2 & G3 & G4 & G5 & G6) & (l2 & Hl2 & Hrep%report_reports)).
    cbn [is_cancelled remove_upload failed_tracks failed_count cached_count ripped_count job_ripped_count uploads log] in *.
    assert (Hlog : forall t, log t = log s3 -> logged (upload_log false) s t).
    { intros t Ht. exists (lq ++ [Published p] ++ (l1 ++ l2)). split; [by rewrite Ht, Hl2, Hl1, Hl0, <- !app_assoc|].
      eapply (fresh_log _ _ lq (l1 ++ l2) (Some p)); [done..|by apply reports_unpublished|].
      split_and!; [exact Hr| |done]. apply reports_accounted; [done|]. naive_solver. }
    assert (Hsame : same_job s (next_check s3)) by (unfold same_job; cbn; split_and!; congruence).
    destruct (e_cancelled env (checks s3)) eqn:Hc; intros [= <- <-]; split_and!.
    + split; [apply Hsame|]. destruct Hsame as (? & ? & ? & ? & ? & ?). split_and!; [done..|by left].
    + by apply Hlog.
    + intros _ _ _. left. left. by eexists.
    + apply record_effect; [done|apply Hsame].
    + apply Hlog. by destruct (is_primary (up_rendition item)).
    + intros _ -> Hft. cbn in Hft. rewrite G1, F1, E1 in Hft. by apply snoc_ne in Hft.
Qed.

Lemma upload_unpublished_spec s b s' s1 l0 n r :
  after_loop s s1 -> log s1 = log s ++ l0 -> quiet_log n l0 -> Z.of_nat n <= max_retries ctx + 1 ->
  (forall p, r <> Outcome p) -> loop_reason r ->
  upload_finish ctx env item r s1 = (b, s') -> fresh_post b s s'.
Proof.
  intros (E1 & E2 & E3 & E4 & E5 & E6) Hl0 Hq Hn Hno Hr. unfold upload_finish.
  assert (Hlog : forall t l2, reports l2 -> log t = log s ++ l0 ++ l2 -> logged (upload_log false) s t).
  { intros t l2 Hrep Ht. exists (l0 ++ [] ++ l2). split; [done|]. eapply (fresh_log _ _ l0 l2 None); [done..| |].
    - intros c Hc. by destruct (Hrep c Hc) as (? & ? & ->).
    - split; [done|]. intros m Hm. by destruct (Hrep _ Hm) as (? & ? & ?). }
  destruct r as [p| |e]; [by destruct (Hno p)|..].
  - destruct (deliver_sequenced ctx env item None s1) as [r3 s3] eqn:Hd.
    destruct (deliver_sequenced_frame _ _ _ _ Hd) as ((G1 & G2 & G3 & G4 & G5 & G6) & (l2 & Hl2 & Hrep%report_reports)).
    intros [= <- <-]. split_and!; [|apply (Hlog _ l2); [done|cbn; by rewrite Hl2, Hl0, <- app_assoc]|by intros _ _ _].
    split; cbn [uploads remove_upload]; [by rewrite G6|]. cbn. split_and!; [congruence..|]. left. split; congruence.
  - match goal with |- (let '(_, s2) := deliver_sequenced _ _ _ _ ?t in _) = _ -> _ => set (t0 := t);
      destruct (deliver_sequenced ctx env item None t0) as [r3 s3] eqn:Hd end.
    destruct (deliver_sequenced_frame _ _ _ _ Hd) as ((G1 & G2 & G3 & G4 & G5 & G6) & (l2 & Hl2 & Hrep%report_reports)).
    assert (Ht0 : log t0 = log s1 /\ uploads t0 = uploads s1) by (subst t0; by destruct (is_primary (up_rendition item))).
    destruct Ht0 as [Ht1 Ht2].
    intros [= <- <-]. split_and!; [|apply (Hlog _ l2); [done|cbn; by rewrite Hl2, Ht1, Hl0, <- app_assoc]|].
    + split; [cbn [uploads remove_upload]; by rewrite G6, Ht2|]. subst t0. destruct (up_rendition item) eqn:Hrend; cbn in *.
      * split_and!; [congruence..|]. right. split_and!; [done|by rewrite G2, G1|]. eexists. by rewrite G1, E1.
      * split_and!; [congruence..|]. left. split; congruence.
    + intros _ Hp Hft. subst t0. rewrite Hp in G1. cbn in *. rewrite G1, E1 in Hft. by apply snoc_ne in Hft.
Qed.

Lemma upload_fresh_spec s b s' :
  0 <= max_retries ctx -> upload_key item ∉ uploads s ->
  upload_fresh ctx env item s = (b, s') -> fresh_post b s s'.
Proof.
  intros Hm Hkey. unfold upload_fresh.
  destruct (upload_loop ctx env item (Z.to_nat (max_retries ctx + 1)) 0 (machine_caption item) false
              (upsert_upload (upload_key item) s)) as [r s1] eqn:Hloop.
  destruct (upload_loop_spec _ _ _ _ _ _ _ Hloop) as (J & (l0 & Hl0 & Hlog) & Hr); [lia|lia|lia|by left|].
  assert (Hafter : after_loop s s1).
  { destruct J as (? & ? & ? & ? & ? & E). split_and!; [done..|]. rewrite E. by apply remove_upsert. }
  destruct r as [p| |e].
  - destruct Hlog as (lq & -> & Hq). intros Hfin. eapply upload_published_spec; [done|exact Hl0|exact Hq|lia|exact Hr|exact Hfin].
  - intros Hfin. eapply (upload_unpublished_spec s b s' s1 l0 _ NoOutcome); [done|done|exact Hlog|lia|done|done|done].
  - intros Hfin. eapply (upload_unpublished_spec s b s' s1 l0 _ (Exhausted e)); [done|done|exact Hlog|lia|done|done|done].
Qed.

(** The calls of the branch that finds the track in the cache. *)
Definition cache_calls (l : list port_call) : Prop :=
  forall c, c ∈ l -> (exists idx msg, c = Report idx msg) \/ (exists id codec, c = DeleteTrack id codec).

Lemma upload_log_prefix b l1 l2 : cache_calls l1 -> upload_log b l2 -> upload_log b (l1 ++ l2).
Proof.
  intros H1 [U1 U2 U3 U4].
  assert (H1p : forall c, c ∈ l1 -> is_publish c = false).
  { intros c Hc. by destruct (H1 c Hc) as [(? & ? & ->)|(? & ? & ->)]. }
  assert (H1q : forall c, c ∈ l1 -> is_publish c = false /\ (forall p, c <> Published p) /\ (forall m, c <> Retract m) /\
            forall i k, c <> SaveTrack i k).
  { intros c Hc. by destruct (H1 c Hc) as [(? & ? & ->)|(? & ? & ->)]. }
  split.
  - by rewrite publishes_app, (filter_none l1).
  - intros c [Hc|Hc]%elem_of_app Hp; [by rewrite H1p in Hp|by apply U2].
  - intros p [Hc|Hc]%elem_of_app; [by destruct (H1q _ Hc) as (_ & H & _); destruct (H p)|].
    destruct (U3 p Hc) as [[K1 K2]|[K1 K2]]; [left|right]; (split; [set_solver|]).
    + intros m [H|H]%elem_of_app; [by destruct (H1q _ H) as (_ & _ & Hm & _); destruct (Hm m)|by eapply K2].
    + intros [H|H]%elem_of_app He; [by destruct (H1q _ H) as (_ & _ & _ & Hm); destruct (Hm (cache_input item p) true)|].
      specialize (K2 H He). set_solver.
  - intros Hb m [H|H]%elem_of_app; [by destruct (H1q _ H) as (_ & _ & Hm & _); destruct (Hm m)|by eapply U4].
Qed.

Lemma upload_log_nil b : 0 <= max_retries ctx -> upload_log b [].
Proof. intros H. split; [cbn; lia|set_solver..]. Qed.

Lemma fresh_post_shift b s t s' l :
  same_job s t -> log t = log s ++ l -> cache_calls l -> fresh_post b t s' -> fresh_post b s s'.
Proof.
  intros (S1 & S2 & S3 & S4 & S5 & S6) Hl Hc (J & (l2 & Hl2 & Hlog) & Hr). split_and!.
  - unfold job_effect in *. by rewrite <- S1, <- S2, <- S3, <- S4, <- S6.
  - exists (l ++ l2). split; [by rewrite Hl2, Hl, app_assoc|by apply upload_log_prefix].
  - intros Hb Hp Hf. apply Hr; [done|done|congruence].
Qed.

Lemma cancelled_post s k : 0 <= max_retries ctx -> e_cancelled env k = true -> fresh_post false s s.
Proof.
  intros Hm Hk. split_and!.
  - split; [done|]. split_and!; auto.
  - exists []. rewrite app_nil_r. split; [done|by apply upload_log_nil].
  - intros _ _ _. left. left. by eexists.
Qed.

Lemma upload_one_spec s b s' :
  0 <= max_retries ctx -> upload_key item ∉ uploads s ->
  upload_one ctx env item s = (b, s') -> fresh_post b s s'.
Proof.
  intros Hm Hkey. unfold upload_one. cbn [is_cancelled]. destruct (e_cancelled env (checks s)) eqn:C1.
  { intros [= <- <-]. by eapply (cancelled_post s). }
  destruct (pre_cached ctx env item) as [cached|].
  2:{ intros Hf. apply (fresh_post_shift _ s (next_check s) _ []); [by split_and!|by rewrite app_nil_r|set_solver|].
      by apply upload_fresh_spec. }
  destruct (e_cancelled env (checks (next_check s))) eqn:C2.
  { intros [= <- <-]. by eapply (cancelled_post s). }
  set (t0 := next_check (next_check s)).
  destruct (if negb (is_cache_only ctx) && negb (zip_deliver ctx)
            then deliver_sequenced ctx env item (Some (ct_message_id cached)) t0 else (Ok tt, t0)) as [r1 s1] eqn:Hd.
  assert (same_job s s1 /\ exists l, log s1 = log s ++ l /\ reports l) as (J1 & l1 & Hl1 & Hr1).
  { revert Hd. case_match.
    - intros [J (l & Hl & Hrep%report_reports)]%deliver_sequenced_frame. split; [exact J|by exists l].
    - intros [= <- <-]. split; [by split_and!|]. exists []. rewrite app_nil_r. split; [done|]. intros c Hc. by apply not_elem_of_nil in Hc. }
  set (t1 := match r1 with Ok _ => s1 | Err _ => push (DeleteTrack (up_track_id item) (Some (ct_codec cached))) s1 end).
  assert (same_job s (next_check t1) /\ exists l, log (next_check t1) = log s ++ l /\ cache_calls l) as (J2 & l2 & Hl2 & Hr2).
  { subst t1. destruct r1; [split; [exact J1|]|split; [exact J1|]].
    - exists l1. split; [done|]. intros c Hc. left. by apply Hr1.
    - exists (l1 ++ [DeleteTrack (up_track_id item) (Some (ct_codec cached))]). cbn. rewrite Hl1, app_assoc.
      split; [done|]. intros c [Hc|Hc%list_elem_of_singleton]%elem_of_app; [left; by apply Hr1|right; subst; by do 2 eexists]. }
  cbn [is_cancelled]. destruct (e_cancelled env (checks t1)) eqn:C3.
  { intros [= <- <-]. eapply fresh_post_shift; [exact J2|exact Hl2|exact Hr2|]. by eapply cancelled_post. }
  destruct r1 as [u|err].
  - intros [= <- <-]. eapply fresh_post_shift; [exact J2|exact Hl2|exact Hr2|]. split_and!; [| |done].
    + destruct J2 as (_ & _ & _ & _ & _ & S6). unfold job_effect.
      assert (Hu : uploads (remove_upload (upload_key item) (next_check t1)) = uploads (next_check t1)).
      { cbn [uploads remove_upload]. rewrite S6. set_solver. }
      destruct (up_rendition item); cbn [is_primary]; (split; [exact Hu|]); split_and!; try done. by left.
    + exists []. rewrite app_nil_r. split; [by destruct (is_primary (up_rendition item))|by apply upload_log_nil].
  - intros Hf. eapply fresh_post_shift; [exact J2|exact Hl2|exact Hr2|]. apply upload_fresh_spec; [done| |done].
    destruct J2 as (_ & _ & _ & _ & _ & S6). by rewrite S6.
Qed.
End Specs.

(** ** Properties *)

(** An upload is counted once: it ends with the track counted as cached or as ripped, or with at
    most one failure recorded for it and no count changed; an Atmos upload touches no count; and the
    progress entry is gone whatever happened. *)
Theorem upload_counts_once ctx env item s b s' :
  0 <= max_retries ctx -> upload_key item ∉ uploads s ->
  upload_one ctx env item s = (b, s') -> job_effect item b s s'.
Proof. intros Hm Hk Hu. by apply (upload_one_spec ctx env item s b s' Hm Hk). Qed.

(** No publication is left unaccounted for: on every path a message that reached the dump is on
    record in the cache and kept, or it is retracted, and a record made for it is deleted when the
    retraction succeeds; an upload that succeeds retracts nothing. *)
Theorem publication_accounted ctx env item s b s' :
  0 <= max_retries ctx -> upload_key item ∉ uploads s ->
  upload_one ctx env item s = (b, s') ->
  exists l, log s' = log s ++ l /\
    (forall p, Published p ∈ l -> kept item p l \/ dropped env item p l) /\
    (b = true -> forall m, Retract m ∉ l).
Proof.
  intros Hm Hk Hu. destruct (upload_one_spec ctx env item s b s' Hm Hk Hu) as (_ & (l & Hl & [U1 U2 U3 U4]) & _).
  by exists l.
Qed.

(** At most [retries + 1] attempts are made, each with the machine-readable caption or, once that
    was refused, with the plain one. *)
Theorem upload_attempts_bounded ctx env item s b s' :
  0 <= max_retries ctx -> upload_key item ∉ uploads s ->
  upload_one ctx env item s = (b, s') ->
  exists l, log s' = log s ++ l /\
    Z.of_nat (publishes l) <= max_retries ctx + 1 /\
    forall k cap, Publish k cap ∈ l -> cap = machine_caption item \/
      (cap = Plain (clamp_str_utf16 (plain_caption item) 1024) /\
       exists k e, e_publish env k = Some (Err e) /\ caption_rejected e = true).
Proof.
  intros Hm Hk Hu. destruct (upload_one_spec ctx env item s b s' Hm Hk Hu) as (_ & (l & Hl & [U1 U2 U3 U4]) & _).
  exists l. split_and!; [done|done|]. intros k cap H. by apply (U2 _ H).
Qed.

(** A failed track of the main rendition is recorded as failed, unless the job was cancelled or
    the caption was refused at the last attempt. *)
Theorem failure_recorded ctx env item s s' :
  0 <= max_retries ctx -> upload_key item ∉ uploads s -> up_rendition item = Primary ->
  upload_one ctx env item s = (false, s') -> ~ unrecorded_reason ctx env ->
  exists error, failed_tracks s' = failed_tracks s ++
    [mkFailed (up_track_id item) error None (Some (rip_title (up_rip item))) (Some (rip_artist (up_rip item))) None].
Proof.
  intros Hm Hk Hp Hu Hno. destruct (upload_one_spec ctx env item s false s' Hm Hk Hu) as ((_ & J) & _ & Hr).
  destruct J as (_ & _ & [[Hf _]|(_ & _ & He)]); [|exact He]. by destruct (Hno (Hr eq_refl Hp Hf)).
Qed.

(** A caption refused at the last attempt uses the attempt up: with no retries configured the
    plain caption is never tried, and the track is neither ripped nor listed as failed. *)
Theorem plain_caption_never_tried ctx env item s e :
  max_retries ctx = 0 -> is_force ctx = true -> is_admin ctx = true ->
  (forall k, e_cancelled env k = false) -> e_publish env 0 = Some (Err e) -> caption_rejected e = true ->
  exists s', upload_one ctx env item s = (false, s') /\
    failed_tracks s' = failed_tracks s /\ ripped_count s' = ripped_count s /\ cached_count s' = cached_count s /\
    forall k t, Publish k (Plain t) ∈ log s' -> Publish k (Plain t) ∈ log s.
Proof.
  intros Hm Hf Ha Hc He Hrej. unfold upload_one, upload_fresh, pre_cached. rewrite Hf, Ha. cbn [negb andb is_cancelled].
  rewrite Hc. replace (Z.to_nat (max_retries ctx + 1)) with 1%nat by (by rewrite Hm).
  cbn [upload_loop is_cancelled]. rewrite Hc. change (Z.to_nat 0) with 0%nat. rewrite He, Hc, Hrej. cbn [negb andb upload_finish].
  match goal with |- context [deliver_sequenced ?a ?b ?c None ?t] => destruct (deliver_sequenced a b c None t) as [r s3] eqn:Hd end.
  destruct (deliver_sequenced_frame _ _ _ _ _ _ _ Hd) as ((G1 & _ & G3 & G4 & _) & (l2 & Hl2 & Hrep)).
  eexists. split; [reflexivity|]. cbn in *. split_and!; [done..|]. intros k t. rewrite Hl2.
  intros [[H|H]%elem_of_app|H]%elem_of_app; [done|by apply list_elem_of_singleton in H|destruct Hrep; set_solver].
Qed.

(** Staging: whatever happened the ripped file is deleted last, and the archive gains at most this
    track, and only when the upload succeeded; a failed staging is an error for the main rendition and
    a warning for the optional one. *)
Theorem staging_outcome ctx env item copy metadata s z s' z' :
  run_upload_item ctx env item copy metadata s z = Some (s', z') ->
  (exists r, files_removed z' = files_removed z ++ r ++ [rip_file_path (up_rip item)]) /\
  (zip_sources z' = zip_sources z \/
   (upload_one ctx env item s).1 = true /\ zip_build ctx = true /\
   exists dir filename size, zip_dir z = Some dir /\ metadata = Ok size /\
     zip_sources z' = zip_sources z ++ [mkEntry (dir ++ lit "/" ++ filename) filename size]) /\
  (up_rendition item = Atmos -> primary_zip_error z' = primary_zip_error z) /\
  (up_rendition item = Primary -> atmos_warning z' = atmos_warning z).
Proof.
  unfold run_upload_item. destruct (upload_one ctx env item s) as [uploaded s1]. cbn [is_cancelled fst].
  assert (Hskip : forall t, Some (t, remove_file (rip_file_path (up_rip item)) z) = Some (s', z') ->
    (exists r, files_removed z' = files_removed z ++ r ++ [rip_file_path (up_rip item)]) /\
    zip_sources z' = zip_sources z /\ primary_zip_error z' = primary_zip_error z /\ atmos_warning z' = atmos_warning z).
  { intros t [= _ <-]. split_and!; [by exists []|done..]. }
  destruct (uploaded && zip_build ctx && negb (e_cancelled env (checks s1))) eqn:Hg.
  2:{ intros H%Hskip. naive_solver. }
  apply andb_true_iff in Hg as [[-> Hb]%andb_true_iff _]. destruct (zip_dir z) as [dir|] eqn:Hdir; [|intros H%Hskip; naive_solver].
  unfold stage_track. destruct (zip_filename item) as [filename|]; [|done]. cbn [mbind option_bind].
  destruct copy as [u|error].
  - cbn [is_cancelled]. destruct (e_cancelled env (checks (next_check s1))) eqn:Hc; [|destruct metadata as [size|error]].
    + intros [= _ <-]. cbn. rewrite <- app_assoc. split_and!; [by eexists|by left|done|done].
    + intros [= _ <-]. cbn. split_and!; [by exists []| |done|done]. right. split_and!; [done|done|]. by exists dir, filename, size.
    + intros [= _ <-]. unfold staging_failed. destruct (up_rendition item); cbn; rewrite <- app_assoc;
        (split_and!; [by eexists|by left|done|done]).
  - intros [= _ <-]. unfold staging_failed. destruct (up_rendition item); cbn; (split_and!; [by exists []|by left|done|done]).
Qed.

(** ** Witnesses *)

Definition demo_item : upload_item :=
  mkUpload (lit "7") (mkTrackRip (lit "/tmp/7.m4a") (lit "Song") (lit "Artist") (lit "Album") (lit "alac") 3) Primary (Some 1).

Definition demo_pub : DumpPublication := mkPublication 40 (lit "f") (lit "u").

Definition demo_ctx (force : bool) (n : Z) : lane_ctx :=
  mkCtx force force false true false (mkRetryConfig n 0) RetryPolicy_test.

(** The first attempt fails for a moment, the second one succeeds. *)
Definition demo_env (first : DeliveryError) (save : result TrackCacheError unit) : environment :=
  mkEnv (fun _ => false) (fun _ => Ok ∅) (fun k => match k with 0%nat => Some (Err first) | _ => Some (Ok demo_pub) end)
    (fun _ => save) true (fun _ => Ok tt).

Definition demo_lane : lane := mkLane 0 0 [] 0 0 0 0 ∅ [].

Definition demo_ok : environment := demo_env (Transient (lit "flood")) (Ok tt).
Definition demo_unsaved : environment := demo_env (Transient (lit "flood")) (Err (Failed OpSave (lit "disk"))).
Definition demo_refused : environment := demo_env (Rejected CaptionTooLong) (Ok tt).

Definition demo_end (env : environment) (n : Z) : lane := (upload_one (demo_ctx false n) env demo_item demo_lane).2.

Lemma demo_lane_key : upload_key demo_item ∉ uploads demo_lane.
Proof. apply not_elem_of_empty. Qed.

Lemma upload_counts_once_witness : ripped_count (demo_end demo_ok 1) = 1 /\ job_effect demo_item true demo_lane (demo_end demo_ok 1).
Proof.
  split; [by vm_compute|].
  apply (upload_counts_once (demo_ctx false 1) demo_ok demo_item); [by vm_compute|apply demo_lane_key|by vm_compute].
Defined.

Lemma publication_accounted_witness :
  exists l, log (demo_end demo_unsaved 1) = [] ++ l /\
    (forall p, Published p ∈ l -> kept demo_item p l \/ dropped demo_unsaved demo_item p l).
Proof.
  destruct (publication_accounted (demo_ctx false 1) demo_unsaved demo_item demo_lane false (demo_end demo_unsaved 1))
    as (l & H1 & H2 & _); [by vm_compute|apply demo_lane_key|by vm_compute|by exists l].
Defined.

Lemma upload_attempts_bounded_witness :
  exists l, log (demo_end demo_refused 1) = [] ++ l /\ Z.of_nat (publishes l) <= 2.
Proof.
  destruct (upload_attempts_bounded (demo_ctx false 1) demo_refused demo_item demo_lane true (demo_end demo_refused 1))
    as (l & H1 & H2 & _); [by vm_compute|apply demo_lane_key|by vm_compute|by exists l].
Defined.

Lemma failure_recorded_witness : exists error, failed_tracks (demo_end demo_ok 0) = [] ++
    [mkFailed (lit "7") error None (Some (lit "Song")) (Some (lit "Artist")) None].
Proof.
  apply (failure_recorded (demo_ctx false 0) demo_ok demo_item demo_lane); [by vm_compute|apply demo_lane_key|done|by vm_compute|].
  intros [[[k H]|[[|k] H]]|(e & H & H')]; try done. by injection H as <-.
Defined.

Lemma plain_caption_never_tried_witness :
  exists s', upload_one (demo_ctx true 0) demo_refused demo_item demo_lane = (false, s') /\ failed_tracks s' = [].
Proof.
  destruct (plain_caption_never_tried (demo_ctx true 0) demo_refused demo_item demo_lane (Rejected CaptionTooLong))
    as (s' & H1 & H2 & _); [by vm_compute..|by exists s'].
Defined.

Definition demo_zip : zip_lane := mkZipLane (Some (lit "/zip")) None [] None None [].

Definition demo_staged : lane * zip_lane :=
  default (demo_lane, demo_zip) (run_upload_item (demo_ctx false 1) demo_ok demo_item (Ok tt) (Ok 9) demo_lane demo_zip).

Lemma staging_outcome_witness :
  length (zip_sources demo_staged.2) = 1%nat /\ exists r, files_removed demo_staged.2 = [] ++ r ++ [lit "/tmp/7.m4a"].
Proof.
  split; [by vm_compute|].
  apply (staging_outcome (demo_ctx false 1) demo_ok demo_item (Ok tt) (Ok 9) demo_lane demo_zip demo_staged.1). by vm_compute.
Defined.
