(* ===== verification/JobResolve.v ===== *)
(** * JobResolve: the targets of a job become its tracks (crates/engine/src/orchestrator/job_run.rs,
      first part of [run_job]; orchestrator/types.rs, deps/providers.rs)

    Each target is a track, an album, an artist or a playlist; the catalogue that expands them is met
    through three functions.  A target that cannot be resolved is noted and the others go on; the
    tracks are then made unique by their id, and the job gets its header. *)
From S2P Require Import Prelude Text Music Settings Priority Captions.

(** ** Data *)

Record AlbumTracks := mkAlbumTracks { at_album : TrackMeta; at_tracks : list TrackMeta }.
Record ArtistTracks := mkArtistTracks { ar_artist_id : str; ar_artist_name : str; ar_tracks : list TrackMeta }.
Record PlaylistTrack := mkPlaylistTrack { pt_id : str; pt_title : str; pt_artist : str; pt_duration : option Z }.
Record PlaylistData := mkPlaylist {
  pl_id : str; pl_title : str; pl_curator_name : option str; pl_description : option str; pl_tracks : list PlaylistTrack;
}.

Record ResolvedTrackItem := mkResolved {
  rt_id : str; rt_title : option str; rt_artist : option str; rt_artwork_url : option str;
  rt_storefront : option str; rt_is_streamable : option bool;
}.

Record ResolutionFailure := mkResFailure { rf_kind : TargetKind; rf_id : str; rf_error : str }.

Definition kind_name (k : TargetKind) : str :=
  match k with
  | KTrack => lit "track" | KAlbum => lit "album" | KArtist => lit "artist" | KPlaylist => lit "playlist"
  end.

Definition resolution_failure_display (f : ResolutionFailure) : str :=
  kind_name (rf_kind f) ++ lit " " ++ rf_id f ++ lit ": " ++ rf_error f.

Inductive OrchestratorError : Type :=
| DependenciesNotSet
| Cancelled
| ErrMessage (text : str)
| ResolutionFailed (failures : list ResolutionFailure).

(** The failures, separated by [; ] from the second one on. *)
Fixpoint join_failures (first : bool) (l : list ResolutionFailure) : str :=
  match l with
  | [] => []
  | f :: l => (if first then [] else lit "; ") ++ resolution_failure_display f ++ join_failures false l
  end.

Definition orchestrator_error_display (e : OrchestratorError) : str :=
  match e with
  | DependenciesNotSet =>
      lit "RipOrchestrator dependencies not configured. Call setDependencies() first."
  | Cancelled => lit "Download was cancelled"
  | ErrMessage text => text
  | ResolutionFailed failures =>
      lit "Failed to resolve any tracks" ++
      (if bool_decide (failures = []) then [] else lit ": " ++ join_failures true failures)
  end.

(** The album's variables of [run_job], written by the last album or artist resolved. *)
Record album_info := mkAlbumInfo {
  album_name : option str; album_artist : option str; album_artwork_url : option str;
  album_release_date : option str; album_genre : option str; album_record_label : option str;
  album_copyright : option str; album_id : option str; album_sf : option str;
}.

Definition no_album : album_info := mkAlbumInfo None None None None None None None None None.

Record resolution := mkResolution {
  resolved_tracks : list ResolvedTrackItem; info : album_info; resolution_failures : list ResolutionFailure;
}.

Definition non_blank (s : str) : option str := if bool_decide (s = []) then None else Some s.

Section Resolve.
Variable fetch_album_tracks : str -> str -> result str AlbumTracks.
Variable fetch_artist_tracks : str -> str -> result str ArtistTracks.
Variable fetch_playlist_tracks : str -> str -> result str PlaylistData.
Variables (settings : BotSettings) (options : RipTaskOptions).

(** The item's storefront, the request's, or the operator's. *)
Definition effective_sf (item : ParsedTargetItem) : str :=
  match Music.storefront item with
  | Some s => s
  | None => match single_storefront options with Some s => s | None => resolve_default_storefront settings end
  end.

Definition album_track (sf : str) (album t : TrackMeta) : ResolvedTrackItem :=
  mkResolved (meta_id t) (Some (title t)) (Some (artist t))
    (if bool_decide (artwork_url t = []) then non_blank (artwork_url album) else Some (artwork_url t))
    (Some sf) (is_streamable t).

Definition artist_track (sf : str) (t : TrackMeta) : ResolvedTrackItem :=
  mkResolved (meta_id t) (Some (title t)) (Some (artist t)) (non_blank (artwork_url t)) (Some sf) None.

Definition playlist_track (sf : str) (t : PlaylistTrack) : ResolvedTrackItem :=
  mkResolved (pt_id t) (Some (pt_title t)) (Some (pt_artist t)) None (Some sf) None.

Definition push_tracks (l : list ResolvedTrackItem) (st : resolution) : resolution :=
  mkResolution (resolved_tracks st ++ l) (info st) (resolution_failures st).

Definition set_album (item : ParsedTargetItem) (sf : str) (album : TrackMeta) (st : resolution) : resolution :=
  mkResolution (resolved_tracks st)
    (mkAlbumInfo (Some (Music.album album)) (Some (artist album)) (Some (artwork_url album))
       (Some (release_date album)) (genre album) (record_label album) (copyright album)
       (Some (target_id item)) (Some sf)) (resolution_failures st).

Definition set_album_artist (name : str) (st : resolution) : resolution :=
  let i := info st in
  mkResolution (resolved_tracks st)
    (mkAlbumInfo (album_name i) (Some name) (album_artwork_url i) (album_release_date i) (album_genre i)
       (album_record_label i) (album_copyright i) (album_id i) (album_sf i)) (resolution_failures st).

Definition note_failure (item : ParsedTargetItem) (error : str) (st : resolution) : resolution :=
  mkResolution (resolved_tracks st) (info st)
    (resolution_failures st ++ [mkResFailure (target_kind item) (target_id item) error]).

(** The body of the loop over [parsed_items]. *)
Definition resolve_item (item : ParsedTargetItem) (st : resolution) : resolution :=
  let sf := effective_sf item in
  match target_kind item with
  | KTrack => push_tracks [mkResolved (target_id item) None None None (Some sf) None] st
  | KAlbum =>
      match fetch_album_tracks (target_id item) sf with
      | Ok r => push_tracks (album_track sf (at_album r) <$> at_tracks r) (set_album item sf (at_album r) st)
      | Err e => note_failure item e st
      end
  | KArtist =>
      match fetch_artist_tracks (target_id item) sf with
      | Ok r => push_tracks (artist_track sf <$> ar_tracks r) (set_album_artist (ar_artist_name r) st)
      | Err e => note_failure item e st
      end
  | KPlaylist =>
      match fetch_playlist_tracks (target_id item) sf with
      | Ok data => push_tracks (playlist_track sf <$> pl_tracks data) st
      | Err e => note_failure item e st
      end
  end.

(** The loop; [cancelled k] is what the k-th look at the job's token sees. *)
Fixpoint resolve_items (cancelled : nat -> bool) (k : nat) (items : list ParsedTargetItem) (st : resolution) :
    result OrchestratorError resolution :=
  match items with
  | [] => Ok st
  | item :: items =>
      if cancelled k then Err Cancelled else resolve_items cancelled (S k) items (resolve_item item st)
  end.

Definition NO_TRACKS : ResolutionFailure := mkResFailure KTrack [] (lit "No valid tracks found to process.").

(** Nothing resolved is an error. *)
Definition check_resolved (st : resolution) : result OrchestratorError resolution :=
  if bool_decide (resolved_tracks st = []) then
    Err (ResolutionFailed (if bool_decide (resolution_failures st = []) then [NO_TRACKS] else resolution_failures st))
  else Ok st.

(** [filter(|t| seen_ids.insert(t.id.clone()))]. *)
Fixpoint unique_tracks (seen_ids : gset str) (l : list ResolvedTrackItem) : list ResolvedTrackItem :=
  match l with
  | [] => []
  | t :: l =>
      if decide (rt_id t ∈ seen_ids) then unique_tracks seen_ids l
      else t :: unique_tracks ({[rt_id t]} ∪ seen_ids) l
  end.

(** Resolution as a whole: the tracks to process and what is known of the album. *)
Definition resolve (cancelled : nat -> bool) : result OrchestratorError (list ResolvedTrackItem * album_info) :=
  st ← resolve_items cancelled 0 (parsed_items options) (mkResolution [] no_album []);
  st ← check_resolved st;
  Ok (unique_tracks ∅ (resolved_tracks st), info st).

(** ** The header *)

Variable album_url : str -> str -> option str.

Definition non_empty (s : option str) : option str := x ← s; non_blank x.

Definition bold (s : str) : str := lit "<b>" ++ html_escape s ++ lit "</b>".

Definition album_header (i : album_info) (name artist : str) : str :=
  let plain := lit "Album: " ++ bold name ++ lit " by " ++ bold artist in
  match album_id i, album_sf i with
  | Some id, Some sf =>
      match album_url id sf with
      | Some url => lit "Album: <a href=" ++ [34] ++ url ++ [34] ++ lit ">" ++ bold name ++ lit "</a> by " ++ bold artist
      | None => plain
      end
  | _, _ => plain
  end.

Definition track_header (t : ResolvedTrackItem) : str :=
  match non_empty (rt_title t), non_empty (rt_artist t) with
  | Some title, Some artist => bold title ++ lit " - " ++ bold artist
  | _, _ => (if is_cache_only options then lit "Track Cache: <code>" else lit "Track ID: <code>") ++
            html_escape (rt_id t) ++ lit "</code>"
  end.

Definition job_header (i : album_info) (tracks : list ResolvedTrackItem) : str :=
  match non_empty (album_name i), non_empty (album_artist i) with
  | Some name, Some artist => album_header i name artist
  | _, _ =>
      match tracks with
      | [first] => track_header first
      | _ => (if is_cache_only options then lit "Batch Cache: <b>" else lit "Batch: <b>") ++
             show_u (Z.of_nat (length tracks)) ++ lit " tracks</b>"
      end
  end.

(** ** Lemmas *)

(** What one target contributes. *)
Definition item_tracks (item : ParsedTargetItem) : list ResolvedTrackItem :=
  resolved_tracks (resolve_item item (mkResolution [] no_album [])).
Definition item_failures (item : ParsedTargetItem) : list ResolutionFailure :=
  resolution_failures (resolve_item item (mkResolution [] no_album [])).

Lemma resolve_item_spec item st :
  resolved_tracks (resolve_item item st) = resolved_tracks st ++ item_tracks item /\
  resolution_failures (resolve_item item st) = resolution_failures st ++ item_failures item.
Proof. unfold item_tracks, item_failures, resolve_item. repeat case_match; cbn; by rewrite ?app_nil_r. Qed.

Lemma resolve_items_spec cancelled items : forall k st st',
  resolve_items cancelled k items st = Ok st' ->
  resolved_tracks st' = resolved_tracks st ++ concat (item_tracks <$> items) /\
  resolution_failures st' = resolution_failures st ++ concat (item_failures <$> items).
Proof.
  induction items as [|item items IH]; intros k st st'; csimpl; [intros [= <-]; by rewrite !app_nil_r|].
  case_match; [done|]. intros [-> ->]%IH. destruct (resolve_item_spec item st) as [-> ->]. by rewrite !app_assoc.
Qed.

Lemma resolve_items_cancelled cancelled items : forall k st,
  (forall i, cancelled i = false) -> is_Some (ok (resolve_items cancelled k items st)).
Proof. induction items as [|item items IH]; intros k st Hc; cbn; [by eexists|]. rewrite Hc. by apply IH. Qed.

Lemma unique_tracks_spec l : forall seen,
  NoDup (rt_id <$> unique_tracks seen l) /\
  (forall t, t ∈ unique_tracks seen l -> rt_id t ∉ seen) /\
  unique_tracks seen l `sublist_of` l /\
  (forall t, t ∈ l -> rt_id t ∈ seen \/ rt_id t ∈ rt_id <$> unique_tracks seen l).
Proof.
  induction l as [|t l IH]; intros seen; cbn [unique_tracks].
  { split_and!; [constructor|set_solver|done|set_solver]. }
  destruct (decide (rt_id t ∈ seen)) as [Hin|Hout].
  - destruct (IH seen) as (H1 & H2 & H3 & H4). split_and!; [done|done|by apply sublist_cons|].
    intros t' [->|Ht]%elem_of_cons; [by left|by apply H4].
  - destruct (IH ({[rt_id t]} ∪ seen)) as (H1 & H2 & H3 & H4). split_and!.
    + csimpl. constructor; [|done]. intros (t' & Ht & Hin)%list_elem_of_fmap. apply (H2 _ Hin). rewrite <- Ht. set_solver.
    + intros t' [->|Ht]%elem_of_cons; [done|]. specialize (H2 _ Ht). set_solver.
    + by apply sublist_skip.
    + intros t' [->|Ht]%elem_of_cons; csimpl; [right; left|]. destruct (H4 _ Ht); set_solver.
Qed.

(** The kept track is the first one of its id. *)
Lemma unique_tracks_first l : forall seen t,
  t ∈ unique_tracks seen l -> exists l1 l2, l = l1 ++ t :: l2 /\ rt_id t ∉ rt_id <$> l1.
Proof.
  induction l as [|u l IH]; intros seen t; cbn [unique_tracks]; [set_solver|].
  destruct (decide (rt_id u ∈ seen)) as [Hin|Hout].
  - intros Ht. destruct (unique_tracks_spec l seen) as (_ & Hout & _). specialize (Hout _ Ht).
    destruct (IH _ _ Ht) as (l1 & l2 & -> & Hl1). exists (u :: l1), l2. split; [done|].
    csimpl. intros [E|?]%elem_of_cons; [|done]. congruence.
  - intros [->|Ht]%elem_of_cons; [exists [], l; split; [done|set_solver]|].
    destruct (unique_tracks_spec l ({[rt_id u]} ∪ seen)) as (_ & Hs & _). specialize (Hs _ Ht).
    destruct (IH _ _ Ht) as (l1 & l2 & -> & Hl1). exists (u :: l1), l2. split; [done|].
    csimpl. intros [E|?]%elem_of_cons; [|done]. rewrite E in Hs. set_solver.
Qed.
End Resolve.

(** ** Properties *)

(** Resolution is complete and order-preserving: when it succeeds the job processes every track of
    every target that could be resolved, each id once, at the place of its first occurrence, whatever
    the other targets answered; it fails for want of tracks only when no target gave any, and then it
    names a cause. *)
Theorem resolve_correct fa fr fp settings options cancelled :
  (forall k, cancelled k = false) ->
  let all := concat (item_tracks fa fr fp settings options <$> parsed_items options) in
  match resolve fa fr fp settings options cancelled with
  | Ok (tracks, _) =>
      tracks <> [] /\ NoDup (rt_id <$> tracks) /\ tracks `sublist_of` all /\
      (forall t, t ∈ all -> rt_id t ∈ rt_id <$> tracks) /\
      (forall t, t ∈ tracks -> exists l1 l2, all = l1 ++ t :: l2 /\ rt_id t ∉ rt_id <$> l1)
  | Err e => all = [] /\ exists f fs, e = ResolutionFailed (f :: fs)
  end.
Proof.
  intros Hc all. unfold resolve.
  destruct (resolve_items_cancelled fa fr fp settings options cancelled (parsed_items options) 0 (mkResolution [] no_album []) Hc)
    as [st Hst].
  destruct (resolve_items fa fr fp settings options cancelled 0 (parsed_items options) _) as [st'|] eqn:E; [|done].
  injection Hst as ->. apply resolve_items_spec in E as [E1 E2]. cbn in E1, E2. fold all in E1.
  cbn [mbind result_bind]. unfold check_resolved. case_bool_decide as Hne; cbn [mbind result_bind].
  - split; [congruence|]. case_bool_decide as Hf; [by do 2 eexists|]. destruct (resolution_failures st) as [|f fs]; [done|by exists f, fs].
  - rewrite E1 in *. destruct (unique_tracks_spec all ∅) as (H1 & H2 & H3 & H4). split_and!; try done.
    + intros Hnil. destruct all as [|t all']; [done|]. destruct (H4 t) as [?|H]; [by left|set_solver|]. rewrite Hnil in H. set_solver.
    + intros t Ht. destruct (H4 t Ht) as [?|?]; [set_solver|done].
    + intros t. apply unique_tracks_first.
Qed.

Definition demo_targets : RipTaskOptions :=
  mkRipOptions 1 1 None 1 false false false None
    [mkTarget (lit "a") KTrack None; mkTarget (lit "p") KPlaylist None; mkTarget (lit "x") KAlbum None] None false None PrimaryOnly JobOrigin_default.

Definition demo_playlist (id sf : str) : result str PlaylistData :=
  Ok (mkPlaylist id [] None None [mkPlaylistTrack (lit "a") [] [] None; mkPlaylistTrack (lit "b") [] [] None]).

Lemma resolve_correct_witness :
  exists tracks i, resolve (fun _ _ => Err (lit "gone")) (fun _ _ => Err (lit "gone")) demo_playlist default_settings
    demo_targets (fun _ => false) = Ok (tracks, i) /\ rt_id <$> tracks = [lit "a"; lit "b"] /\ NoDup (rt_id <$> tracks).
Proof.
  pose proof (resolve_correct (fun _ _ => Err (lit "gone")) (fun _ _ => Err (lit "gone")) demo_playlist default_settings
    demo_targets (fun _ => false) (fun _ => eq_refl)) as H.
  destruct (resolve _ _ _ _ _ _) as [[tracks i]|e] eqn:E; [|destruct H; by vm_compute in E].
  exists tracks, i. destruct H as (_ & H & _). split; [done|]. split; [|exact H]. clear H.
  vm_compute in E. by injection E as <- <-.
Defined.
