(* ===== verification/JobPlan.v ===== *)
(** * JobPlan: what a job does with its tracks (crates/engine/src/orchestrator/job_run.rs, the middle
      of [run_job]; core/src/cache.rs)

    The cached copies of the tracks decide what is delivered, what is ripped and what is skipped: a
    forced job first drops the copies it is about to replace, an album first looks for archives it can
    send again.  Every function takes what the store answered. *)
From S2P Require Import Prelude Text Music ZipPlan ZipState Settings Priority Storage Delivery OrderedDispatch JobResolve.

Record CachedAlbum := mkCachedAlbum {
  ca_part_index : Z; ca_total_parts : Z; ca_message_id : Z; ca_file_unique_id : str;
  ca_generation_hash : str; ca_file_size : Z; ca_codec : Codec;
}.

Inductive AlbumReplacementExpectation : Type := EmptyRows | Generation (hash : str) | Mixed.

(** [CachedTracksMap]. *)
Abbreviation tracks_map := (gmap (str * Codec) CachedTrack).

(** ** A forced job drops the copies it replaces *)

Record purge := mkPurge {
  existing_tracks_map : tracks_map;
  old_message_ids : list Z;                  (* retracted together at the end *)
  deleted_rows : list (str * Codec);         (* [delete_track] calls *)
}.

Definition purge_codec (id : str) (p : purge) (codec : Codec) : purge :=
  match existing_tracks_map p !! (id, codec) with
  | Some cached =>
      mkPurge (delete (id, codec) (existing_tracks_map p)) (old_message_ids p ++ [ct_message_id cached])
        (deleted_rows p ++ [(id, codec)])
  | None => p
  end.

Definition purge_rendition (id : str) (p : purge) (rendition : Rendition) : purge :=
  foldl (purge_codec id) p (accepted_cache_codecs rendition).

Definition purge_item (policy : RenditionPolicy) (p : purge) (item : ResolvedTrackItem) : purge :=
  foldl (purge_rendition (rt_id item)) p (renditions policy).

Definition force_purge (options : RipTaskOptions) (tracks : list ResolvedTrackItem) (existing : tracks_map) : purge :=
  let p := mkPurge existing [] [] in
  if is_force options && is_admin options then foldl (purge_item (rendition_policy options)) p tracks else p.

(** ** Archives already in the cache *)

Definition replacement_codec (r : Rendition) : Codec := match r with Primary => Alac | Atmos => Ec3 end.

Definition expectation (rows : list CachedAlbum) : AlbumReplacementExpectation :=
  match rows with
  | [] => EmptyRows
  | first :: _ =>
      if forallb (fun row => bool_decide (ca_generation_hash row = ca_generation_hash first)) rows
      then Generation (ca_generation_hash first) else Mixed
  end.

Definition zip_expectation (rows : list CachedAlbum) (r : Rendition) : AlbumReplacementExpectation :=
  expectation (List.filter (fun row => archive_codec_replaced (replacement_codec r) (ca_codec row)) rows).

(** [(1..=rows.len()).zip(&rows).all(|(n, row)| row.part_index as usize == n)]. *)
Fixpoint parts_in_order (n : Z) (rows : list CachedAlbum) : bool :=
  match rows with
  | [] => true
  | row :: rows => (wrap 64 (ca_part_index row) =? n) && parts_in_order (n + 1) rows
  end.

(** The rows are all the parts, in order, of an archive of this very generation. *)
Definition reusable (hash : str) (rows : list CachedAlbum) : bool :=
  match rows with
  | [] => false
  | first :: _ =>
      forallb (fun row => bool_decide (ca_generation_hash row = hash)) rows &&
      (Z.of_nat (length rows) =? Z.max (ca_total_parts first) 1) && parts_in_order 1 rows
  end.

Definition reuse_codecs (r : Rendition) : list Codec :=
  match r with Primary => [Alac; Aac] | Atmos => [Ec3] end.

Definition reuse_rows (hash : str) (rows : list CachedAlbum) (r : Rendition) : option (list CachedAlbum) :=
  find_map (fun codec =>
    let rows := List.filter (fun row => bool_decide (ca_codec row = codec)) rows in
    if reusable hash rows then Some rows else None) (reuse_codecs r).

Definition zip_reuse_candidates (options : RipTaskOptions) (zip_generation_hash : option str) (rows : list CachedAlbum) :
    gmap Rendition (list CachedAlbum) :=
  match zip_generation_hash with
  | Some hash =>
      if is_force options then ∅
      else foldl (fun m r => match reuse_rows hash rows r with Some rows => <[r := rows]> m | None => m end) ∅
             (renditions (rendition_policy options))
  | None => ∅
  end.

(** ** The pipeline *)

(** [PipelineItem], with the labels the dispatcher does not read. *)
Record plan_item := mkPlanItem {
  pi_item : PipelineItem;
  pi_storefront : option str; pi_meta_title : option str; pi_meta_artist : option str;
  pi_artwork_url : option str; pi_is_streamable : option bool; pi_total_tracks : option Z;
}.

Definition pi_cached (i : plan_item) : option CachedTrack := item_cached (pi_item i).
Definition pi_rendition (i : plan_item) : Rendition := item_rendition (pi_item i).
Definition pi_id (i : plan_item) : str := item_track_id (pi_item i).

Definition cached_for (existing : tracks_map) (id : str) (r : Rendition) : option CachedTrack :=
  find_map (fun codec => existing !! (id, codec)) (accepted_cache_codecs r).

Definition make_item (existing : tracks_map) (track_idx total_count : option Z) (t : ResolvedTrackItem) (r : Rendition) :
    plan_item :=
  mkPlanItem (mkItem (rt_id t) r (cached_for existing (rt_id t) r) track_idx)
    (rt_storefront t) (rt_title t) (rt_artist t) (rt_artwork_url t) (rt_is_streamable t) total_count.

(** The loop over [tracks_to_process.iter().enumerate()]; [as u32] wraps. *)
Fixpoint push_items (policy : RenditionPolicy) (existing : tracks_map) (is_multi : bool) (total_count : option Z)
    (index : Z) (tracks : list ResolvedTrackItem) (pipeline_items : list plan_item) : list plan_item :=
  match tracks with
  | [] => pipeline_items
  | t :: tracks =>
      let track_idx := if is_multi then Some (wrap 32 (index + 1)) else None in
      push_items policy existing is_multi total_count (index + 1) tracks
        (foldl (fun items r => items ++ [make_item existing track_idx total_count t r]) pipeline_items (renditions policy))
  end.

Definition pipeline (policy : RenditionPolicy) (existing : tracks_map) (tracks : list ResolvedTrackItem) : list plan_item :=
  let is_multi := 1 <? Z.of_nat (length tracks) in
  push_items policy existing is_multi (if is_multi then Some (wrap 32 (Z.of_nat (length tracks))) else None) 0 tracks [].

(** A main archive is reused only if every track is cached. *)
Definition reuse_valid (items : list plan_item) (zip_reuse : gmap Rendition (list CachedAlbum)) (r : Rendition) : bool :=
  bool_decide (is_Some (zip_reuse !! r)) &&
  (bool_decide (r = Atmos) ||
   forallb (fun i => bool_decide (is_Some (pi_cached i)))
     (List.filter (fun i => bool_decide (pi_rendition i = r)) items)).

Definition drop_invalid_reuse (policy : RenditionPolicy) (items : list plan_item)
    (zip_reuse : gmap Rendition (list CachedAlbum)) : gmap Rendition (list CachedAlbum) :=
  foldl (fun m r => if reuse_valid items m r then m else delete r m) zip_reuse (renditions policy).

Definition reuse_atmos_track_count (tracks : list ResolvedTrackItem) (existing : tracks_map)
    (zip_reuse : gmap Rendition (list CachedAlbum)) : option Z :=
  match zip_reuse !! Atmos with
  | Some _ =>
      let count := Z.of_nat (length (List.filter (fun t =>
        match existing !! (rt_id t, Ec3) with
        | Some cached => bool_decide (ct_codec cached = Ec3)
        | None => false
        end) tracks)) in
      if 0 <? count then Some count else None
  | None => None
  end.

Definition drop_reused_atmos (zip_reuse : gmap Rendition (list CachedAlbum)) (items : list plan_item) : list plan_item :=
  match zip_reuse !! Atmos with
  | Some _ => List.filter (fun i => negb (bool_decide (pi_rendition i = Atmos))) items
  | None => items
  end.

(** ** The decision *)

Inductive decision : Type :=
| SkipAll (skipped : list str)             (* nothing cached and ripping disabled *)
| PriorityDelivery (items : list plan_item) (skipped_count : Z)
| Enqueue (items : list plan_item) (skipped_count : Z).

Definition is_cached (i : plan_item) : bool := bool_decide (is_Some (pi_cached i)).
Definition has_fresh (items : list plan_item) : bool := existsb (fun i => negb (is_cached i)) items.
Definition cache_hits_present (items : list plan_item) : bool := existsb is_cached items.

(** The main renditions that are not cached. *)
Definition skipped_tracks (items : list plan_item) : list str :=
  pi_id <$> List.filter (fun i => negb (is_cached i) && bool_decide (pi_rendition i = Primary)) items.

Definition decide_items (can_rip zip_build : bool) (zip_reuse : gmap Rendition (list CachedAlbum)) (items : list plan_item) :
    decision :=
  if negb can_rip && (negb zip_build || has_fresh items) && negb (cache_hits_present items)
  then SkipAll (skipped_tracks items)
  else
    let '(items, skipped) :=
      if negb can_rip && has_fresh items && cache_hits_present items
      then (List.filter is_cached items, Z.of_nat (length (skipped_tracks items)))
      else (items, 0) in
    if forallb is_cached items && (negb zip_build || bool_decide (is_Some (zip_reuse !! Primary)))
    then PriorityDelivery items skipped
    else Enqueue items skipped.

(** The warning of a job that cannot rip because the provider is off. *)
Definition plan_warnings (settings : BotSettings) (options : RipTaskOptions) (items : list plan_item) : list str :=
  let can_rip := can_rip_live settings (is_admin options) && can_rip_apple settings (is_admin options) in
  if negb can_rip && negb (can_rip_apple settings (is_admin options)) && (has_fresh items || negb (cache_hits_present items))
  then [lit "Apple Music live ripping is currently disabled by administrator."] else [].

(** [is_album_job]. *)
Definition is_album_job (options : RipTaskOptions) (tracks : list ResolvedTrackItem) : bool :=
  match parsed_items options with
  | [item] => bool_decide (target_kind item = KAlbum) && (1 <? Z.of_nat (length tracks))
  | _ => false
  end.

(** ** Lemmas *)

Lemma foldl_push {A B} (f : A -> B) l : forall acc, foldl (fun acc a => acc ++ [f a]) acc l = acc ++ (f <$> l).
Proof. induction l as [|a l IH]; intros acc; cbn; [by rewrite app_nil_r|]. rewrite IH, <- app_assoc. done. Qed.

(** The items of one track. *)
Definition items_of (policy : RenditionPolicy) (existing : tracks_map) (is_multi : bool) (total : option Z) (index : Z)
    (t : ResolvedTrackItem) : list plan_item :=
  make_item existing (if is_multi then Some (wrap 32 (index + 1)) else None) total t <$> renditions policy.

Lemma push_items_eq policy existing is_multi total tracks : forall index acc,
  push_items policy existing is_multi total index tracks acc =
    acc ++ concat (imap (fun k t => items_of policy existing is_multi total (index + Z.of_nat k) t) tracks).
Proof.
  induction tracks as [|t tracks IH]; intros index acc; cbn [push_items]; [by rewrite app_nil_r|].
  rewrite IH, foldl_push, <- app_assoc. f_equal. rewrite imap_cons. cbn [concat]. unfold items_of at 1.
  rewrite Z.add_0_r. f_equal. f_equal. apply imap_ext. intros k x _.
  unfold compose. by replace (index + Z.of_nat (S k)) with (index + 1 + Z.of_nat k) by lia.
Qed.

Lemma pipeline_elem policy existing tracks i :
  i ∈ pipeline policy existing tracks <->
  exists k t r, tracks !! k = Some t /\ r ∈ renditions policy /\
    let is_multi := 1 <? Z.of_nat (length tracks) in
    i = make_item existing (if is_multi then Some (wrap 32 (Z.of_nat k + 1)) else None)
          (if is_multi then Some (wrap 32 (Z.of_nat (length tracks))) else None) t r.
Proof.
  unfold pipeline. rewrite push_items_eq, app_nil_l. rewrite list_elem_of_In, in_concat. split.
  - intros (l & Hl & Hi). apply list_elem_of_In, list_elem_of_lookup in Hl as [k Hk].
    rewrite list_lookup_imap in Hk. apply fmap_Some in Hk as (t & Ht & ->).
    apply list_elem_of_In, list_elem_of_fmap in Hi as (r & -> & Hr). by exists k, t, r.
  - intros (k & t & r & Ht & Hr & ->).
    exists (items_of policy existing (1 <? Z.of_nat (length tracks))
              (if 1 <? Z.of_nat (length tracks) then Some (wrap 32 (Z.of_nat (length tracks))) else None) (0 + Z.of_nat k) t).
    split; [|apply list_elem_of_In, list_elem_of_fmap; by exists r].
    apply list_elem_of_In, list_elem_of_lookup. exists k. by rewrite list_lookup_imap, Ht.
Qed.

Lemma cached_for_spec existing id r c :
  cached_for existing id r = Some c -> exists codec, codec ∈ accepted_cache_codecs r /\ existing !! (id, codec) = Some c.
Proof.
  unfold cached_for. intros (l1 & codec & l2 & E & Hc & _)%find_map_Some. exists codec. split; [|done]. rewrite E. set_solver.
Qed.

Lemma work_plan_push p ids : forall acc, foldl (push_units p) acc ids = acc ++ concat ((fun id => mkUnit id <$> renditions p) <$> ids).
Proof.
  induction ids as [|id ids IH]; intros acc; csimpl; [by rewrite app_nil_r|]. rewrite IH. unfold push_units.
  by rewrite foldl_push, <- app_assoc.
Qed.

(** *** Purge *)

Definition accepted (policy : RenditionPolicy) (codec : Codec) : Prop :=
  exists r, r ∈ renditions policy /\ codec ∈ accepted_cache_codecs r.

(** What has been removed so far is on the two lists. *)
Record purge_inv (existing : tracks_map) (p : purge) : Prop := {
  pg_sub : forall k c, existing_tracks_map p !! k = Some c -> existing !! k = Some c;
  pg_rows : forall k, k ∈ deleted_rows p <-> is_Some (existing !! k) /\ existing_tracks_map p !! k = None;
  pg_nodup : NoDup (deleted_rows p);
  pg_ids : Forall2 (fun k m => exists c, existing !! k = Some c /\ ct_message_id c = m) (deleted_rows p) (old_message_ids p);
}.

Lemma purge_codec_inv existing id p codec : purge_inv existing p -> purge_inv existing (purge_codec id p codec).
Proof.
  intros I. unfold purge_codec. destruct (existing_tracks_map p !! (id, codec)) as [c|] eqn:E; [|done].
  destruct I as [Is Ir In Ii]. pose proof (Is _ _ E) as He. split; cbn.
  - intros k c' [_ H]%lookup_delete_Some. by apply Is.
  - intros k. rewrite elem_of_app, list_elem_of_singleton, Ir. destruct (decide (k = (id, codec))) as [->|Hne].
    + rewrite lookup_delete_eq. split; [intros _; split; [by eexists|done]|by right].
    + rewrite lookup_delete_ne by done. naive_solver.
  - apply NoDup_app. split_and!; [done| |apply NoDup_singleton].
    intros k Hk%Ir ->%list_elem_of_singleton. destruct Hk as [_ Hk]. congruence.
  - apply Forall2_app; [done|]. constructor; [by exists c|constructor].
Qed.

(** A fold keeps the invariant and removes what each of its steps removes. *)
Lemma purge_fold {A} (f : purge -> A -> purge) (gone : A -> str * Codec -> Prop) existing l : forall p,
  (forall p a, purge_inv existing p -> purge_inv existing (f p a) /\
     (forall k, existing_tracks_map p !! k = None -> existing_tracks_map (f p a) !! k = None) /\
     (forall k, gone a k -> existing_tracks_map (f p a) !! k = None) /\
     (forall k, k ∈ deleted_rows (f p a) -> k ∈ deleted_rows p \/ gone a k)) ->
  purge_inv existing p ->
  purge_inv existing (foldl f p l) /\
  (forall k, existing_tracks_map p !! k = None -> existing_tracks_map (foldl f p l) !! k = None) /\
  (forall a k, a ∈ l -> gone a k -> existing_tracks_map (foldl f p l) !! k = None) /\
  (forall k, k ∈ deleted_rows (foldl f p l) -> k ∈ deleted_rows p \/ exists a, a ∈ l /\ gone a k).
Proof.
  induction l as [|a l IH]; intros p Hf I; cbn [foldl]; [split_and!; auto; set_solver|].
  destruct (Hf p a I) as (I1 & Hmono & Hgone & Hrows). destruct (IH (f p a) Hf I1) as (I2 & M2 & G2 & R2).
  split_and!; [done|auto| |].
  - intros b k [->|Hb]%elem_of_cons Hk; [apply M2; by apply Hgone|by eapply G2].
  - intros k [H|(b & Hb & Hk)]%R2; [|right; exists b; split; [by right|done]].
    destruct (Hrows k H) as [?|?]; [by left|right; exists a; split; [by left|done]].
Qed.

Lemma purge_codec_step existing id p codec : purge_inv existing p -> purge_inv existing (purge_codec id p codec) /\
  (forall k, existing_tracks_map p !! k = None -> existing_tracks_map (purge_codec id p codec) !! k = None) /\
  (forall k, k = (id, codec) -> existing_tracks_map (purge_codec id p codec) !! k = None) /\
  (forall k, k ∈ deleted_rows (purge_codec id p codec) -> k ∈ deleted_rows p \/ k = (id, codec)).
Proof.
  intros I. split; [by apply purge_codec_inv|]. unfold purge_codec.
  destruct (existing_tracks_map p !! (id, codec)) as [c|] eqn:E; cbn; split_and!.
  - intros k H. destruct (decide (k = (id, codec))) as [->|Hne]; [apply lookup_delete_eq|by rewrite lookup_delete_ne].
  - intros k ->. apply lookup_delete_eq.
  - intros k [?|?%list_elem_of_singleton]%elem_of_app; auto.
  - done.
  - by intros k ->.
  - auto.
Qed.

Lemma force_purge_spec options tracks existing :
  is_force options && is_admin options = true ->
  let p := force_purge options tracks existing in
  purge_inv existing p /\
  (forall t codec, t ∈ tracks -> accepted (rendition_policy options) codec -> existing_tracks_map p !! (rt_id t, codec) = None) /\
  (forall k, k ∈ deleted_rows p -> exists t codec, t ∈ tracks /\ accepted (rendition_policy options) codec /\ k = (rt_id t, codec)).
Proof.
  intros Hf p. subst p. unfold force_purge. rewrite Hf.
  assert (I0 : purge_inv existing (mkPurge existing [] [])).
  { split; cbn; [done| |constructor|constructor]. intros k. split; [set_solver|]. intros [[c H] H']. congruence. }
  set (gone := fun (t : ResolvedTrackItem) k => exists r codec, r ∈ renditions (rendition_policy options) /\
                 codec ∈ accepted_cache_codecs r /\ k = (rt_id t, codec)).
  destruct (purge_fold (purge_item (rendition_policy options)) gone existing tracks (mkPurge existing [] [])) as (I & _ & G & R); [|done|].
  - intros p t I. unfold purge_item.
    destruct (purge_fold (purge_rendition (rt_id t)) (fun r k => exists codec, codec ∈ accepted_cache_codecs r /\ k = (rt_id t, codec))
                existing (renditions (rendition_policy options)) p) as (I1 & M1 & G1 & R1); [|done|].
    + intros q r I'. unfold purge_rendition.
      destruct (purge_fold (purge_codec (rt_id t)) (fun codec k => k = (rt_id t, codec)) existing (accepted_cache_codecs r) q)
        as (I2 & M2 & G2 & R2); [intros; by apply purge_codec_step|done|]. split_and!; [done|done| |].
      * intros k (codec & Hc & Hk). by eapply G2.
      * intros k [?|(codec & Hc & Hk)]%R2; [by left|right; by exists codec].
    + split_and!; [done|done| |].
      * intros k (r & codec & Hr & Hc & Hk). eapply G1; [exact Hr|by exists codec].
      * intros k [?|(r & Hr & codec & Hc & Hk)]%R1; [by left|right; by exists r, codec].
  - split_and!; [done| |].
    + intros t codec Ht (r & Hr & Hc). eapply G; [exact Ht|by exists r, codec].
    + intros k [H|(t & Ht & r & codec & Hr & Hc & ->)]%R; [by apply not_elem_of_nil in H|]. exists t, codec. split_and!; [done|by exists r|done].
Qed.

(** *** Reuse *)

Lemma parts_in_order_spec rows : forall n, parts_in_order n rows = true ->
  forall k row, rows !! k = Some row -> wrap 64 (ca_part_index row) = n + Z.of_nat k.
Proof.
  induction rows as [|r rows IH]; intros n; cbn; [done|]. intros H. to_prop. intros [|k] row; cbn; [intros [= <-]; lia|].
  intros Hk. rewrite (IH _ H0 k row Hk). lia.
Qed.

Lemma filter_elem {A} (f : A -> bool) l x : x ∈ List.filter f l <-> x ∈ l /\ f x = true.
Proof. by rewrite !list_elem_of_In, filter_In. Qed.

(** *** The decision *)

Lemma all_cached items : forallb is_cached items = true -> Forall (fun i => is_cached i = true) items.
Proof. rewrite forallb_forall. intros H. apply Forall_forall. intros i Hi%list_elem_of_In. by apply H. Qed.

Lemma filter_cached_all items : has_fresh items = false -> List.filter is_cached items = items.
Proof.
  unfold has_fresh. induction items as [|i l IH]; cbn; [done|]. intros [H1 H2]%orb_false_iff.
  apply negb_false_iff in H1. rewrite H1. f_equal. by apply IH.
Qed.

Lemma filter_cached_none items :
  cache_hits_present items = false -> List.filter is_cached items = [] /\ Forall (fun i => is_cached i = false) items.
Proof.
  unfold cache_hits_present. induction items as [|i l IH]; cbn; [done|]. intros [H1 H2]%orb_false_iff.
  rewrite H1. destruct (IH H2). split; [done|by constructor].
Qed.

(** What becomes of the items of the plan. *)
Definition decided (d : decision) : list plan_item :=
  match d with SkipAll _ => [] | PriorityDelivery items _ | Enqueue items _ => items end.

Lemma decide_items_spec can_rip zip_build zip_reuse items :
  let d := decide_items can_rip zip_build zip_reuse items in
  decided d = (if can_rip then items else List.filter is_cached items) /\
  (forall its n, d = PriorityDelivery its n -> Forall (fun i => is_cached i = true) its) /\
  (forall skipped, d = SkipAll skipped -> can_rip = false /\ skipped = skipped_tracks items /\
     Forall (fun i => is_cached i = false) items).
Proof.
  cbn zeta. unfold decide_items. destruct can_rip; cbn [negb andb].
  { destruct (forallb is_cached items) eqn:Ha; [destruct (negb zip_build || _)|]; cbn [andb]; split_and!; try done.
    intros its n [= <- _]. by apply all_cached. }
  destruct (cache_hits_present items) eqn:Hc; [rewrite andb_false_r|rewrite andb_true_r].
  - destruct (has_fresh items) eqn:Hf; cbn [andb].
    + destruct (forallb is_cached (List.filter is_cached items) && _) eqn:Ha; split_and!; try done.
      intros its n [= <- _]. apply andb_true_iff in Ha as [Ha _]. by apply all_cached.
    + rewrite (filter_cached_all items) by done.
      destruct (forallb is_cached items && _) eqn:Ha; split_and!; try done.
      intros its n [= <- _]. apply andb_true_iff in Ha as [Ha _]. by apply all_cached.
  - destruct (filter_cached_none items Hc) as [Hn1 Hn2]. destruct (negb zip_build || has_fresh items) eqn:Hg.
    + cbn [decided]. split_and!; [by rewrite Hn1|done|]. by intros skipped [= <-].
    + apply orb_false_iff in Hg as [_ Hf]. rewrite Hf. cbn [andb]. rewrite (filter_cached_all items) by done.
      destruct (forallb is_cached items && _) eqn:Ha; split_and!; try done.
      intros its n [= <- _]. apply andb_true_iff in Ha as [Ha _]. by apply all_cached.
Qed.

(** ** Properties *)

(** The pipeline is the work plan of the catalogue types: for every track in order, one item per
    rendition of the policy. *)
Theorem pipeline_follows_work_plan policy existing tracks :
  (fun i => mkUnit (pi_id i) (pi_rendition i)) <$> pipeline policy existing tracks =
  work_plan policy (rt_id <$> tracks).
Proof.
  unfold pipeline, work_plan. rewrite push_items_eq, app_nil_l, (work_plan_push policy _ []), app_nil_l.
  generalize (1 <? Z.of_nat (length tracks)). intros b. generalize (if b then Some (wrap 32 (Z.of_nat (length tracks))) else None).
  intros total. generalize 0 as n. induction tracks as [|t tracks IH]; intros n; [done|].
  rewrite imap_cons. csimpl. rewrite fmap_app. f_equal.
  - unfold items_of. rewrite <- list_fmap_compose. by apply list_fmap_ext.
  - rewrite <- (IH (n + 1)). f_equal. f_equal. apply imap_ext. intros k x _.
    unfold compose. by replace (n + Z.of_nat (S k)) with (n + 1 + Z.of_nat k) by lia.
Qed.

(** The store answers a key with the row of that key. *)
Definition well_keyed (existing : tracks_map) : Prop :=
  forall id codec c, existing !! (id, codec) = Some c -> ct_track_id c = id /\ ct_codec c = codec.

(** A well-formed item of a job with [total] tracks. *)
Definition item_wf (total : Z) (i : plan_item) : Prop :=
  (forall c, pi_cached i = Some c -> ct_track_id c = pi_id i /\ codec_allowed_for_rendition (pi_rendition i) (ct_codec c) = true) /\
  (if 1 <? total
   then pi_total_tracks i = Some total /\ exists n, item_track_index (pi_item i) = Some n /\ 1 <= n <= total
   else pi_total_tracks i = None /\ item_track_index (pi_item i) = None).

(** C37: the pipeline is well formed: every item's cached copy is a copy of its track in a codec its
    rendition admits, and the items of a batch, and only those, carry an index between 1 and the
    number of tracks. *)
Theorem pipeline_well_formed policy existing tracks :
  well_keyed existing -> Z.of_nat (length tracks) <= umax 32 ->
  Forall (item_wf (Z.of_nat (length tracks))) (pipeline policy existing tracks).
Proof.
  intros Hk Hlen. apply Forall_forall. intros i (k & t & r & Ht & Hr & ->)%pipeline_elem.
  apply lookup_lt_Some in Ht as Hlt. split.
  - unfold pi_cached, pi_id, pi_rendition. cbn. intros c (codec & Hc & He)%cached_for_spec. destruct (Hk _ _ _ He) as [-> ->].
    split; [done|]. destruct r; cbn in Hc; [|by apply list_elem_of_singleton in Hc as ->].
    apply elem_of_cons in Hc as [-> |Hc%list_elem_of_singleton]; [done|by rewrite Hc].
  - unfold umax in Hlen. cbn [pi_total_tracks pi_item item_track_index make_item].
    destruct (1 <? Z.of_nat (length tracks)); [|done].
    rewrite !wrap_small by (unfold in_u; lia). split; [done|]. eexists. split; [done|lia].
Qed.

(** A forced job starts from a clean cache: none of its tracks keeps a copy in a codec it is about
    to produce, every other copy is untouched, and the messages it retracts are exactly those of the
    rows it deletes, each once. *)
Theorem force_purge_correct options tracks existing :
  is_force options && is_admin options = true ->
  let p := force_purge options tracks existing in
  (forall t codec, t ∈ tracks -> accepted (rendition_policy options) codec -> existing_tracks_map p !! (rt_id t, codec) = None) /\
  (forall k, (forall t codec, t ∈ tracks -> accepted (rendition_policy options) codec -> k <> (rt_id t, codec)) ->
     existing_tracks_map p !! k = existing !! k) /\
  NoDup (deleted_rows p) /\
  Forall2 (fun k m => exists c, existing !! k = Some c /\ ct_message_id c = m) (deleted_rows p) (old_message_ids p).
Proof.
  intros Hf p. destruct (force_purge_spec options tracks existing Hf) as ([Is Ir In Ii] & G & R). fold p in Is, Ir, In, Ii, G, R.
  split_and!; [done| |done|done]. intros k Hk. destruct (existing !! k) as [c|] eqn:E.
  - destruct (existing_tracks_map p !! k) as [c'|] eqn:E'; [apply Is in E'; congruence|].
    destruct (R k) as (t & codec & Ht & Hc & ->); [apply Ir; split; [by eexists|done]|]. by destruct (Hk t codec Ht Hc).
  - destruct (existing_tracks_map p !! k) as [c'|] eqn:E'; [apply Is in E'; congruence|done].
Qed.

(** An archive is sent again only if the rows in the cache are one archive of this very generation,
    in one codec of the rendition, with all its parts in order. *)
Theorem zip_reuse_sound hash rows r rs :
  reuse_rows hash rows r = Some rs ->
  rs <> [] /\ (exists codec, codec ∈ accepted_cache_codecs r /\
     Forall (fun row => ca_codec row = codec /\ ca_generation_hash row = hash /\ row ∈ rows) rs) /\
  (forall k row, rs !! k = Some row -> wrap 64 (ca_part_index row) = Z.of_nat k + 1) /\
  (forall first, head rs = Some first -> Z.of_nat (length rs) = Z.max (ca_total_parts first) 1).
Proof.
  unfold reuse_rows. intros (l1 & codec & l2 & E & H & _)%find_map_Some.
  set (fs := List.filter (fun row => bool_decide (ca_codec row = codec)) rows) in *.
  destruct (reusable hash fs) eqn:Hr; [|done]. injection H as <-. unfold reusable in Hr.
  destruct fs as [|first fs'] eqn:Hfs; [done|]. rewrite <- Hfs in *. to_prop.
  split_and!; [by rewrite Hfs| | |].
  - exists codec. split; [destruct r; cbn in *; rewrite E; set_solver|]. apply Forall_forall. intros row Hrow.
    pose proof Hrow as [Hin Hc%bool_decide_eq_true]%filter_elem. rewrite forallb_forall in H.
    apply list_elem_of_In in Hrow. split_and!; [done|by apply H, bool_decide_eq_true in Hrow|done].
  - intros k row Hk. rewrite (parts_in_order_spec _ _ H0 k row Hk). lia.
  - intros f Hf. rewrite Hfs in Hf. injection Hf as <-. done.
Qed.

(** While ripping is disabled no uncached item is delivered or queued and every cached one still
    is, in order, unless there is none; while it is enabled every item is. *)
Theorem decision_respects_gate can_rip zip_build zip_reuse items :
  let d := decide_items can_rip zip_build zip_reuse items in
  decided d = (if can_rip then items else List.filter is_cached items) /\
  (forall its n, d = PriorityDelivery its n -> Forall (fun i => is_cached i = true) its) /\
  (forall skipped, d = SkipAll skipped -> can_rip = false /\ skipped = skipped_tracks items /\
     Forall (fun i => is_cached i = false) items).
Proof. apply decide_items_spec. Qed.

(** ** Witnesses *)

Definition demo_track (id : string) : ResolvedTrackItem := mkResolved (lit id) None None None None None.
Definition demo_row (id : string) (c : Codec) (m : Z) : (str * Codec) * CachedTrack :=
  ((lit id, c), mkCachedTrack (lit id) c m [] []).
Definition demo_existing : tracks_map := list_to_map [demo_row "a" Alac 5; demo_row "b" Ec3 6].

Lemma demo_well_keyed : well_keyed demo_existing.
Proof.
  intros id codec c H. unfold demo_existing in H.
  apply elem_of_list_to_map_2 in H. unfold demo_row in H.
  apply elem_of_cons in H as [[= -> -> ->]|[[= -> -> ->]|H%not_elem_of_nil]%elem_of_cons]; done.
Qed.

Lemma pipeline_well_formed_witness :
  Forall (item_wf 2) (pipeline PrimaryWithOptionalAtmos demo_existing [demo_track "a"; demo_track "b"]).
Proof. apply (pipeline_well_formed PrimaryWithOptionalAtmos demo_existing [demo_track "a"; demo_track "b"] demo_well_keyed). by vm_compute. Defined.

Definition demo_forced : RipTaskOptions :=
  mkRipOptions 1 1 None 1 false true false None [] None true None PrimaryOnly JobOrigin_default.

Lemma force_purge_correct_witness :
  existing_tracks_map (force_purge demo_forced [demo_track "a"] demo_existing) !! (lit "a", Alac) = None /\
  old_message_ids (force_purge demo_forced [demo_track "a"] demo_existing) = [5].
Proof.
  split; [|by vm_compute]. destruct (force_purge_correct demo_forced [demo_track "a"] demo_existing eq_refl) as [H _].
  apply (H (demo_track "a") Alac).
  - by left.
  - exists Primary. split; by left.
Defined.

Definition demo_rows : list CachedAlbum :=
  [mkCachedAlbum 1 2 70 [] (lit "h") 10 Aac; mkCachedAlbum 1 1 80 [] (lit "old") 10 Alac; mkCachedAlbum 2 2 71 [] (lit "h") 10 Aac].

Lemma zip_reuse_sound_witness :
  reuse_rows (lit "h") demo_rows Primary = Some [mkCachedAlbum 1 2 70 [] (lit "h") 10 Aac; mkCachedAlbum 2 2 71 [] (lit "h") 10 Aac] /\
  Z.of_nat 2 = Z.max 2 1.
Proof.
  split; [by vm_compute|].
  apply (zip_reuse_sound (lit "h") demo_rows Primary
    [mkCachedAlbum 1 2 70 [] (lit "h") 10 Aac; mkCachedAlbum 2 2 71 [] (lit "h") 10 Aac]) with (first := mkCachedAlbum 1 2 70 [] (lit "h") 10 Aac);
    by vm_compute.
Defined.

Definition demo_plan : list plan_item := pipeline PrimaryOnly demo_existing [demo_track "a"; demo_track "b"].

Lemma decision_respects_gate_witness :
  pi_id <$> decided (decide_items false false ∅ demo_plan) = [lit "a"].
Proof. destruct (decision_respects_gate false false ∅ demo_plan) as [H _]. rewrite H. by vm_compute. Defined.
