(* ===== verification/JobRun.v ===== *)
(** * JobRun: the body of a job (crates/engine/src/orchestrator/job_run.rs, [run_job], its guards;
      finalize.rs, [deliver_cached_zip_rows_direct])

    [run_job] resolves the targets (JobResolve.v), plans the tracks (JobPlan.v) and then skips them,
    delivers the cached copies at once, or hands the items to the rip queue, whose task runs the lanes
    (OrderedDispatch.v) and answers with a summary.  The world is met through an environment: each
    look at the job's token, each delivery and each call of the store or the file system has a place
    of its own in it.  Times, labels and progress events are left out. *)
From S2P Require Import Prelude Text Music ZipPlan Settings Priority Retry Storage Delivery DeliverySeq OrderedDispatch JobResolve JobPlan.

(** The fields of [ZipDeliveryInfo] that depend on what was delivered. *)
Record ZipDeliveryInfo := mkZipInfo {
  zi_total_tracks : Z; zi_delivered_tracks : option Z; zi_total_parts : Z; zi_size_bytes : Z; zi_is_partial : bool;
  zi_photo_delivered : bool; zi_codec : option str;
}.

(** The fields of [RipTaskSummary] the outcome decides. *)
Record RipTaskSummary := mkSummary {
  sm_total_tracks : Z; sm_cached_count : Z; sm_ripped_count : Z; sm_failed_tracks : list FailedTrack;
  sm_skipped_uncached_tracks : list str; sm_warnings : list str; sm_zip_deliveries : list ZipDeliveryInfo;
  sm_first_delivered_msg_id : option Z;
}.

(** The places where the job's token is looked at. *)
Inductive look : Type :=
| AtTarget (k : nat) | AtPlan (k : nat) | AtPermit | AtTrack (k : nat)
| AtRow (r : Rendition) (k : nat) | AfterRow (r : Rendition) (k : nat).

Record job_env := mkJobEnv {
  je_cancelled : look -> bool;
  je_fetch_album : str -> str -> result str AlbumTracks;
  je_fetch_artist : str -> str -> result str ArtistTracks;
  je_fetch_playlist : str -> str -> result str PlaylistData;
  je_sha256 : list Z -> list Z;
  je_find : nat -> result TrackCacheError tracks_map;
  je_find_albums : result str (list CachedAlbum);          (* with the error's text *)
  je_zip_dir : Rendition -> str; je_rip_dir : str;         (* temporary names *)
  je_create_dir : str -> result str unit;
  je_permit : bool;                                        (* [cache_delivery_semaphore], open *)
  je_deliver : nat -> option (result DeliveryError DeliveryReceipt);  (* [None]: cancelled first *)
  je_deliver_row : Rendition -> nat -> option (result DeliveryError DeliveryReceipt);
  je_enqueue : result str unit;                            (* the queue's completion *)
  je_summary : option (result str RipTaskSummary);         (* [None]: the sender was dropped *)
}.

(** What the run leaves behind. *)
Record job_trace := mkTrace {
  copies : list Z;                       (* messages copied to the chat *)
  rows_deleted : list (str * Codec);     (* [delete_track] *)
  retracted : list Z;
  guarded : list str;                    (* directories of the [WorkspaceGuard] *)
  removed : list str;                    (* directories removed *)
  queued : option (list plan_item);      (* items handed to the rip queue *)
}.

Definition new_trace : job_trace := mkTrace [] [] [] [] [] None.

Definition log_copy (m : Z) (t : job_trace) : job_trace :=
  mkTrace (copies t ++ [m]) (rows_deleted t) (retracted t) (guarded t) (removed t) (queued t).
Definition log_delete (k : str * Codec) (t : job_trace) : job_trace :=
  mkTrace (copies t) (rows_deleted t ++ [k]) (retracted t) (guarded t) (removed t) (queued t).
Definition log_purge (p : purge) (t : job_trace) : job_trace :=
  mkTrace (copies t) (rows_deleted t ++ deleted_rows p) (retracted t ++ old_message_ids p) (guarded t) (removed t) (queued t).
Definition guard_add (path : str) (t : job_trace) : job_trace :=
  mkTrace (copies t) (rows_deleted t) (retracted t) (guarded t ++ [path]) (removed t) (queued t).
Definition remove_dirs (paths : list str) (t : job_trace) : job_trace :=
  mkTrace (copies t) (rows_deleted t) (retracted t) (guarded t) (removed t ++ paths) (queued t).
Definition hand_over (items : list plan_item) (t : job_trace) : job_trace :=
  mkTrace (copies t) (rows_deleted t) (retracted t) (guarded t) (removed t) (Some items).

(** Dropping the armed [WorkspaceGuard]. *)
Definition drop_guard (t : job_trace) : job_trace := remove_dirs (guarded t) t.

Section Run.
Variables (env : job_env) (storage_retry : RetryPolicy) (options : RipTaskOptions) (settings : BotSettings).

(** ** Delivery of the cached tracks *)

Inductive delivery_end : Type := AllDelivered | StoppedEarly | FallBack (items : list plan_item).

Definition uncache (i : plan_item) : plan_item :=
  mkPlanItem (mkItem (item_track_id (pi_item i)) (item_rendition (pi_item i)) None (item_track_index (pi_item i)))
    (pi_storefront i) (pi_meta_title i) (pi_meta_artist i) (pi_artwork_url i) (pi_is_streamable i) (pi_total_tracks i).

(** The loop over [uncached_items.iter_mut()]; [seen] are the items before [items]. *)
Fixpoint deliver_cached_tracks (k : nat) (seen items : list plan_item) (count : Z) (first : option Z) (t : job_trace) :
    delivery_end * Z * option Z * job_trace :=
  match items with
  | [] => (AllDelivered, count, first, t)
  | item :: rest =>
      if je_cancelled env (AtTrack k) then (StoppedEarly, count, first, t)
      else match pi_cached item with
           | None => deliver_cached_tracks (S k) (seen ++ [item]) rest count first t
           | Some cached =>
               match je_deliver env k with
               | None => (StoppedEarly, count, first, t)
               | Some (Ok (Message sent_id)) =>
                   deliver_cached_tracks (S k) (seen ++ [item]) rest (count + 1) (remember_first sent_id first)
                     (log_copy (ct_message_id cached) t)
               | Some _ =>
                   (FallBack (seen ++ uncache item :: rest), count, first, log_delete (pi_id item, ct_codec cached) t)
               end
           end
  end.

(** ** Delivery of cached archives: [deliver_cached_zip_rows_direct] *)

Fixpoint deliver_rows (r : Rendition) (k : nat) (rows : list CachedAlbum) (delivered size : Z) (first : option Z)
    (t : job_trace) : result str (Z * Z) * option Z * job_trace :=
  match rows with
  | [] => (Ok (delivered, size), first, t)
  | row :: rest =>
      if je_cancelled env (AtRow r k) then (Ok (delivered, size), first, t)
      else match je_deliver_row env r k with
           | None => (Ok (delivered, size), first, t)
           | Some (Ok (Message sent_id)) =>
               let t := log_copy (ca_message_id row) t in
               if je_cancelled env (AfterRow r k) then (Ok (delivered, size), first, t)
               else deliver_rows r (S k) rest (delivered + 1) (swrap 64 (size + ca_file_size row))
                      (remember_first sent_id first) t
           | Some (Ok PreviewDelivered) =>
               match r with
               | Primary => (Err (lit "primary ZIP delivery returned a preview receipt"), first, t)
               | Atmos => deliver_rows r (S k) rest delivered size first t
               end
           | Some (Err error) =>
               match r with
               | Primary => (Err (lit "primary ZIP delivery failed: " ++ delivery_error_display error), first, t)
               | Atmos => deliver_rows r (S k) rest delivered size first t
               end
           end
  end.

Definition deliver_cached_zip_rows_direct (r : Rendition) (rows : list CachedAlbum) (first : option Z) (t : job_trace) :=
  deliver_rows r 0 rows 0 0 first t.

(** The loop over [zip_states]: [None] when a delivery failed. *)
Fixpoint deliver_archives (total : Z) (atmos_count : option Z) (zip_reuse : gmap Rendition (list CachedAlbum))
    (rs : list Rendition) (infos : list ZipDeliveryInfo) (first : option Z) (t : job_trace) :
    option (list ZipDeliveryInfo) * option Z * job_trace :=
  match rs with
  | [] => (Some infos, first, t)
  | r :: rs =>
      match zip_reuse !! r with
      | None => deliver_archives total atmos_count zip_reuse rs infos first t
      | Some rows =>
          match deliver_cached_zip_rows_direct r rows first t with
          | (Err _, first, t) => (None, first, t)
          | (Ok (delivered, size), first, t) =>
              let infos :=
                if 0 <? delivered then
                  infos ++ [mkZipInfo total (match r with Primary => Some total | Atmos => atmos_count end) delivered size
                              false false (row ← head rows; Some (as_str (ca_codec row)))]
                else infos in
              deliver_archives total atmos_count zip_reuse rs infos first t
          end
      end
  end.

(** ** The hand-over to the rip queue *)

(** The task holds the guard from here on; a queue that refuses it drops it. *)
Definition enqueue_job (zip_dirs : list str) (items : list plan_item) (t : job_trace) :
    result OrchestratorError RipTaskSummary * job_trace :=
  let t := guard_add (je_rip_dir env) t in
  match je_create_dir env (je_rip_dir env) with
  | Err error => (Err (ErrMessage (lit "create rip workspace: " ++ error)), drop_guard t)
  | Ok _ =>
      match je_enqueue env with
      | Err error => (Err (ErrMessage error), remove_dirs (je_rip_dir env :: zip_dirs) (drop_guard t))
      | Ok _ =>
          let t := hand_over items t in
          match je_summary env with
          | Some (Ok summary) => (Ok summary, t)
          | Some (Err error) => (Err (ErrMessage error), t)
          | None => (Err (ErrMessage (lit "finalize marker stopped unexpectedly")), remove_dirs (je_rip_dir env :: zip_dirs) t)
          end
      end
  end.

(** What the run has worked out before it decides. *)
Record job_plan := mkJobPlan {
  jp_total : Z; jp_zip_build : bool; jp_zip_deliver : bool; jp_zip_dirs : list str;
  jp_reuse : gmap Rendition (list CachedAlbum); jp_atmos_count : option Z; jp_items : list plan_item;
  jp_warnings : list str;
}.

Definition summary (p : job_plan) (cached : Z) (skipped : list str) (zips : list ZipDeliveryInfo) (first : option Z) :
    RipTaskSummary :=
  mkSummary (jp_total p) cached 0 [] skipped (jp_warnings p) zips first.

(** The priority delivery of a job that is fully cached; it bypasses the queue unless a copy fails. *)
Definition priority_delivery (p : job_plan) (items : list plan_item) (t : job_trace) :
    result OrchestratorError RipTaskSummary * job_trace :=
  if negb (je_permit env) then (Err Cancelled, drop_guard t)
  else if je_cancelled env AtPermit then (Ok (summary p 0 [] [] None), drop_guard t)
  else if negb (is_cache_only options) && negb (jp_zip_deliver p) then
    match deliver_cached_tracks 0 [] items 0 None t with
    | (AllDelivered, count, first, t) | (StoppedEarly, count, first, t) => (Ok (summary p count [] [] first), drop_guard t)
    | (FallBack items, _, _, t) => enqueue_job (jp_zip_dirs p) items t
    end
  else if jp_zip_deliver p && negb (is_cache_only options) then
    match deliver_archives (jp_total p) (jp_atmos_count p) (jp_reuse p) (renditions (rendition_policy options)) [] None t with
    | (Some infos, first, t) => (Ok (summary p (jp_total p) [] infos first), drop_guard t)
    | (None, _, t) => enqueue_job (jp_zip_dirs p) items t
    end
  else (Ok (summary p (jp_total p) [] [] None), drop_guard t).

Definition can_rip : bool := can_rip_live settings (is_admin options) && can_rip_apple settings (is_admin options).

(** The end of [run_job]. *)
Definition run_plan (p : job_plan) (t : job_trace) : result OrchestratorError RipTaskSummary * job_trace :=
  match decide_items can_rip (jp_zip_build p) (jp_reuse p) (jp_items p) with
  | SkipAll skipped => (Ok (summary p 0 skipped [] None), drop_guard t)
  | PriorityDelivery items _ => priority_delivery p items t
  | Enqueue items _ => enqueue_job (jp_zip_dirs p) items t
  end.

(** ** The planning, with its early returns *)

(** The workspaces of an album's archives. *)
Fixpoint create_workspaces (rs : list Rendition) (t : job_trace) : result OrchestratorError unit * job_trace :=
  match rs with
  | [] => (Ok tt, t)
  | r :: rs =>
      let t := guard_add (je_zip_dir env r) t in
      match je_create_dir env (je_zip_dir env r) with
      | Err error => (Err (ErrMessage (lit "create ZIP workspace: " ++ error)), t)
      | Ok _ => create_workspaces rs t
      end
  end.

(** The looks at the token while the pipeline is built, one per track. *)
Fixpoint plan_cancelled (k : nat) (tracks : list ResolvedTrackItem) : bool :=
  match tracks with [] => false | _ :: tracks => je_cancelled env (AtPlan k) || plan_cancelled (S k) tracks end.

Definition first_target_id : str := match parsed_items options with item :: _ => target_id item | [] => [] end.

Definition make_plan (tracks : list ResolvedTrackItem) (existing : tracks_map) (rows : list CachedAlbum) (zip_build : bool) :
    job_plan :=
  let policy := rendition_policy options in
  let hash := if zip_build
              then Some (album_generation_hash (je_sha256 env) (lit "apple") first_target_id (rt_id <$> tracks)) else None in
  let items := pipeline policy existing tracks in
  let reuse := drop_invalid_reuse policy items (zip_reuse_candidates options hash rows) in
  let items' := drop_reused_atmos reuse items in
  mkJobPlan (Z.of_nat (length tracks)) zip_build (zip_build && negb (is_cache_only options))
    (if zip_build then je_zip_dir env <$> renditions policy else []) reuse
    (reuse_atmos_track_count tracks existing reuse) items' (plan_warnings settings options items').

(** What stands between resolution and plan; an [Err] is an early return, which drops the guard. *)
Definition prepare (tracks : list ResolvedTrackItem) (zip_build : bool) (t : job_trace) :
    result OrchestratorError job_plan * job_trace :=
  match (if zip_build then create_workspaces (renditions (rendition_policy options)) t else (Ok tt, t)) with
  | (Err e, t) => (Err e, t)
  | (Ok _, t) =>
      match storage_answer storage_retry (je_find env) with
      | Err error => (Err (ErrMessage (track_cache_error_display error)), t)
      | Ok existing =>
          let p := force_purge options tracks existing in
          let t := log_purge p t in
          match (if zip_build then je_find_albums env else Ok []) with
          | Err error => (Err (ErrMessage (lit "album ZIP cache lookup failed: " ++ error)), t)
          | Ok rows =>
              if plan_cancelled 0 tracks then (Err Cancelled, t)
              else (Ok (make_plan tracks (existing_tracks_map p) rows zip_build), t)
          end
      end
  end.

Definition run_job : result OrchestratorError RipTaskSummary * job_trace :=
  match resolve (je_fetch_album env) (je_fetch_artist env) (je_fetch_playlist env) settings options
          (fun k => je_cancelled env (AtTarget k)) with
  | Err e => (Err e, new_trace)
  | Ok (tracks, _) =>
      match prepare tracks (is_album_job options tracks) new_trace with
      | (Err e, t) => (Err e, drop_guard t)
      | (Ok p, t) => run_plan p t
      end
  end.
End Run.

(** ** Lemmas *)

Section Facts.
Variables (env : job_env) (storage_retry : RetryPolicy) (options : RipTaskOptions) (settings : BotSettings).

(** The messages of the cached copies of some items. *)
Definition messages (items : list plan_item) : list Z := omap (fun i => ct_message_id <$> pi_cached i) items.

(** Fields of the trace a delivery does not touch. *)
Definition same_dirs (t t' : job_trace) : Prop :=
  retracted t' = retracted t /\ guarded t' = guarded t /\ removed t' = removed t /\ queued t' = queued t.

Lemma messages_snoc items i : messages (items ++ [i]) = messages items ++ messages [i].
Proof. unfold messages. by rewrite omap_app. Qed.

(** How far the loop got: [n] items were delivered. *)
Lemma deliver_cached_tracks_spec items : forall k seen count first t e count' first' t',
  deliver_cached_tracks env k seen items count first t = (e, count', first', t') ->
  same_dirs t t' /\
  exists n, (n <= length items)%nat /\ copies t' = copies t ++ messages (take n items) /\
    count' = count + Z.of_nat (length (messages (take n items))) /\
    (forall j i, (j < n)%nat -> items !! j = Some i -> is_Some (pi_cached i) -> exists m, je_deliver env (k + j) = Some (Ok (Message m))) /\
    match e with
    | AllDelivered => n = length items /\ rows_deleted t' = rows_deleted t
    | StoppedEarly => rows_deleted t' = rows_deleted t /\
        (n < length items)%nat /\ (je_cancelled env (AtTrack (k + n)) = true \/ je_deliver env (k + n) = None)
    | FallBack its => exists item cached, items !! n = Some item /\ pi_cached item = Some cached /\
        its = seen ++ take n items ++ uncache item :: drop (S n) items /\
        rows_deleted t' = rows_deleted t ++ [(pi_id item, ct_codec cached)] /\
        exists a, je_deliver env (k + n) = Some a /\ forall m, a <> Ok (Message m)
    end.
Proof.
  induction items as [|item rest IH]; intros k seen count first t e count' first' t'; cbn [deliver_cached_tracks].
  { intros [= <- <- <- <-]. split; [by split_and!|]. exists 0%nat. cbn. rewrite app_nil_r. split_and!; [lia|done|lia|lia|done|done]. }
  destruct (je_cancelled env (AtTrack k)) eqn:Hc.
  { intros [= <- <- <- <-]. split; [by split_and!|]. exists 0%nat. cbn. rewrite app_nil_r. split_and!; [lia|done|lia|lia|done|lia|]. rewrite Nat.add_0_r. by left. }
  assert (Hstep : forall count0 first0 t0, deliver_cached_tracks env (S k) (seen ++ [item]) rest count0 first0 t0 = (e, count', first', t') ->
    same_dirs t t0 -> rows_deleted t0 = rows_deleted t -> copies t0 = copies t ++ messages [item] ->
    count0 = count + Z.of_nat (length (messages [item])) ->
    (is_Some (pi_cached item) -> exists m, je_deliver env k = Some (Ok (Message m))) ->
    same_dirs t t' /\ exists n, (n <= length (item :: rest))%nat /\ copies t' = copies t ++ messages (take n (item :: rest)) /\
    count' = count + Z.of_nat (length (messages (take n (item :: rest)))) /\
    (forall j i, (j < n)%nat -> (item :: rest) !! j = Some i -> is_Some (pi_cached i) ->
       exists m, je_deliver env (k + j) = Some (Ok (Message m))) /\
    match e with
    | AllDelivered => n = length (item :: rest) /\ rows_deleted t' = rows_deleted t
    | StoppedEarly => rows_deleted t' = rows_deleted t /\
        (n < length (item :: rest))%nat /\ (je_cancelled env (AtTrack (k + n)) = true \/ je_deliver env (k + n) = None)
    | FallBack its => exists i cached, (item :: rest) !! n = Some i /\ pi_cached i = Some cached /\
        its = seen ++ take n (item :: rest) ++ uncache i :: drop (S n) (item :: rest) /\
        rows_deleted t' = rows_deleted t ++ [(pi_id i, ct_codec cached)] /\
        exists a, je_deliver env (k + n) = Some a /\ forall m, a <> Ok (Message m)
    end).
  { intros count0 first0 t0 Hrun (S1 & S2 & S3 & S4) Hrows Hcop Hcnt Hmsg.
    destruct (IH _ _ _ _ _ _ _ _ _ Hrun) as ((T1 & T2 & T3 & T4) & n & Hn & Hcp & Hct & Hans & He).
    split; [split_and!; congruence|]. exists (S n). cbn [take length].
    change (item :: take n rest) with ([item] ++ take n rest). unfold messages in *. rewrite omap_app, Hcp, Hcop, <- app_assoc.
    split_and!; [lia|done|rewrite Hct, Hcnt, length_app; lia| |].
    { intros [|j] i Hj; cbn; [intros [= <-]; rewrite Nat.add_0_r; done|]. intros Hi Hs.
      destruct (Hans j i) as [m Hm]; [lia|done|done|]. exists m. by replace (k + S j)%nat with (S k + j)%nat by lia. }
    destruct e as [| |its].
    - destruct He. split; [lia|congruence].
    - destruct He as (Hr & Hj & Hj'). split_and!; [congruence|cbn; lia|]. by replace (k + S n)%nat with (S k + n)%nat by lia.
    - destruct He as (i & cached & H1 & H2 & -> & H4 & H5). exists i, cached.
      split_and!; [done|done|by rewrite <- app_assoc|congruence|]. by replace (k + S n)%nat with (S k + n)%nat by lia. }
  assert (Hm : messages [item] = match pi_cached item with Some c => [ct_message_id c] | None => [] end).
  { unfold messages. cbn. by destruct (pi_cached item). }
  destruct (pi_cached item) as [cached|] eqn:Hcached.
  - destruct (je_deliver env k) as [[[sent_id|]|err]|] eqn:Ha.
    + intros Hrun. eapply Hstep; [exact Hrun|by split_and!|done|by rewrite Hm|by rewrite Hm|by eexists].
    + intros [= <- <- <- <-]. split; [by split_and!|]. exists 0%nat. cbn. rewrite app_nil_r. split_and!; [lia|done|lia|lia|].
      exists item, cached. rewrite Nat.add_0_r, drop_0. split_and!; [done..|by exists (Ok PreviewDelivered)].
    + intros [= <- <- <- <-]. split; [by split_and!|]. exists 0%nat. cbn. rewrite app_nil_r. split_and!; [lia|done|lia|lia|].
      exists item, cached. rewrite Nat.add_0_r, drop_0. split_and!; [done..|by exists (Err err)].
    + intros [= <- <- <- <-]. split; [by split_and!|]. exists 0%nat. cbn. rewrite app_nil_r. split_and!; [lia|done|lia|lia|done|lia|]. rewrite Nat.add_0_r. by right.
  - intros Hrun. eapply Hstep; [exact Hrun|by split_and!|done|by rewrite Hm, app_nil_r|rewrite Hm; cbn; lia|by intros []].
Qed.

Lemma deliver_rows_frame r rows : forall k delivered size first t res first' t',
  deliver_rows env r k rows delivered size first t = (res, first', t') -> same_dirs t t' /\ rows_deleted t' = rows_deleted t.
Proof.
  induction rows as [|row rows IH]; intros k delivered size first t res first' t'; cbn [deliver_rows].
  { intros [= _ _ <-]. by split_and!. }
  repeat case_match; try (intros [= _ _ <-]; by split_and!); intros Hrun%IH; exact Hrun.
Qed.

Lemma deliver_archives_frame total ac reuse rs : forall infos first t res first' t',
  deliver_archives env total ac reuse rs infos first t = (res, first', t') -> same_dirs t t'.
Proof.
  induction rs as [|r rs IH]; intros infos first t res first' t'; cbn [deliver_archives]; [intros [= _ _ <-]; by split_and!|].
  destruct (reuse !! r) as [rows|]; [|apply IH].
  destruct (deliver_cached_zip_rows_direct env r rows first t) as [[[[d sz]|e] f] t0] eqn:E;
    apply deliver_rows_frame in E as [(S1 & S2 & S3 & S4) _]; [|intros [= _ _ <-]; by split_and!].
  intros (T1 & T2 & T3 & T4)%IH. split_and!; congruence.
Qed.

(** A trace whose directories are all released, or handed over. *)
Definition released (t : job_trace) : Prop :=
  match queued t with
  | None => forall d, d ∈ guarded t -> d ∈ removed t
  | Some _ => je_summary env = None -> forall d, d ∈ guarded t -> d ∈ removed t
  end.

Lemma drop_guard_released t : queued t = None -> released (drop_guard t).
Proof. intros H. unfold released. cbn. rewrite H. intros d Hd. apply elem_of_app. by right. Qed.

Lemma enqueue_released dirs items t r t' :
  queued t = None -> guarded t = dirs -> enqueue_job env dirs items t = (r, t') -> released t'.
Proof.
  intros Hq Hg. unfold enqueue_job. destruct (je_create_dir env (je_rip_dir env)) as [u|e].
  2:{ intros [= _ <-]. by apply drop_guard_released. }
  destruct (je_enqueue env) as [u'|e].
  2:{ intros [= _ <-]. unfold released. cbn. rewrite Hq. intros d Hd. apply elem_of_app. left. apply elem_of_app. by right. }
  destruct (je_summary env) as [[sm|e]|] eqn:Hs; intros [= _ <-]; unfold released; cbn; rewrite Hs; try done.
  intros _ d. rewrite Hg. set_solver.
Qed.

Lemma priority_released p items t r t' :
  queued t = None -> guarded t = jp_zip_dirs p -> priority_delivery env options p items t = (r, t') -> released t'.
Proof.
  intros Hq Hg. unfold priority_delivery. case_match; [intros [= _ <-]; by apply drop_guard_released|].
  case_match; [intros [= _ <-]; by apply drop_guard_released|]. case_match.
  - destruct (deliver_cached_tracks env 0 [] items 0 None t) as [[[e count] first] t1] eqn:E.
    apply deliver_cached_tracks_spec in E as ((S1 & S2 & S3 & S4) & _).
    destruct e as [| |its]; try (intros [= _ <-]; apply drop_guard_released; congruence).
    apply enqueue_released; congruence.
  - case_match; [|intros [= _ <-]; by apply drop_guard_released].
    destruct (deliver_archives env _ _ _ _ _ _ t) as [[infos first] t1] eqn:E.
    apply deliver_archives_frame in E as (S1 & S2 & S3 & S4).
    destruct infos; [intros [= _ <-]; apply drop_guard_released; congruence|apply enqueue_released; congruence].
Qed.

Lemma create_workspaces_spec rs : forall t r t',
  create_workspaces env rs t = (r, t') ->
  queued t' = queued t /\ (r = Ok tt -> guarded t' = guarded t ++ (je_zip_dir env <$> rs)).
Proof.
  induction rs as [|x rs IH]; intros t r t'; cbn [create_workspaces].
  { intros [= <- <-]. split; [done|]. intros _. by rewrite app_nil_r. }
  destruct (je_create_dir env (je_zip_dir env x)); [|by intros [= <- <-]].
  intros [Hq' Hg]%IH. split; [done|]. intros Hr. rewrite (Hg Hr). csimpl. by rewrite <- app_assoc.
Qed.

Lemma prepare_spec tracks zip_build t r t' :
  prepare env storage_retry options settings tracks zip_build t = (r, t') ->
  queued t' = queued t /\
  (forall p, r = Ok p -> guarded t = [] -> guarded t' = jp_zip_dirs p).
Proof.
  unfold prepare. destruct (if zip_build then create_workspaces env _ t else (Ok tt, t)) as [[u|e] t1] eqn:E.
  2:{ intros [= <- <-]. destruct zip_build; [|done]. by apply create_workspaces_spec in E as [? _]. }
  assert (Hw : queued t1 = queued t /\ (guarded t = [] -> guarded t1 = if zip_build then je_zip_dir env <$> renditions (rendition_policy options) else [])).
  { destruct zip_build; [|by injection E as _ <-]. destruct u. apply create_workspaces_spec in E as [Hq Hg].
    split; [done|]. intros H. by rewrite (Hg eq_refl), H. }
  destruct Hw as [Hq Hg].
  destruct (storage_answer storage_retry (je_find env)) as [existing|err]; [|by intros [= <- <-]].
  destruct (if zip_build then je_find_albums env else Ok []) as [rows|err]; [|by intros [= <- <-]].
  destruct (plan_cancelled env 0 tracks); intros [= <- <-]; (split; [done|]); [done|].
  intros p [= <-] H. cbn. by apply Hg.
Qed.
End Facts.

Section Queued.
Variables (env : job_env) (options : RipTaskOptions).

(** Only the items given are ever queued. *)
Lemma enqueue_queued dirs items t r t' its :
  queued t = None -> enqueue_job env dirs items t = (r, t') -> queued t' = Some its -> its = items.
Proof.
  intros Hq. unfold enqueue_job. destruct (je_create_dir env (je_rip_dir env)); [|intros [= _ <-]; cbn; by rewrite Hq].
  destruct (je_enqueue env); [|intros [= _ <-]; cbn; by rewrite Hq].
  destruct (je_summary env) as [[]|]; intros [= _ <-]; cbn; by intros [= ->].
Qed.

Lemma priority_queued p items t r t' its :
  queued t = None -> priority_delivery env options p items t = (r, t') -> queued t' = Some its ->
  Forall (fun i => is_cached i = true) items ->
  Forall (fun i => is_cached i = true) its \/ exists k a, je_deliver env k = Some a /\ forall m, a <> Ok (Message m).
Proof.
  intros Hq. unfold priority_delivery. case_match; [intros [= _ <-]; cbn; by rewrite Hq|].
  case_match; [intros [= _ <-]; cbn; by rewrite Hq|]. case_match.
  - destruct (deliver_cached_tracks env 0 [] items 0 None t) as [[[e count] first] t1] eqn:E.
    apply deliver_cached_tracks_spec in E as ((S1 & S2 & S3 & S4) & n & _ & _ & _ & _ & He).
    destruct e as [| |its']; try (intros [= _ <-]; cbn; congruence). intros _ _ _. right.
    destruct He as (i & c & _ & _ & _ & _ & a & Ha & Hno). by exists (0 + n)%nat, a.
  - case_match; [|intros [= _ <-]; cbn; by rewrite Hq].
    destruct (deliver_archives env _ _ _ _ _ _ t) as [[infos first] t1] eqn:E.
    apply deliver_archives_frame in E as (S1 & S2 & S3 & S4).
    destruct infos; [intros [= _ <-]; cbn; congruence|]. intros Hrun Hits Hall. left.
    assert (Hq1 : queued t1 = None) by congruence. by rewrite (enqueue_queued _ _ _ _ _ _ Hq1 Hrun Hits).
Qed.
End Queued.

(** ** Properties *)

(** Workspaces are not leaked: on every path that ends without a task to own them - errors,
    cancellation, delivery from the cache, a refused or dropped task - every directory the run created
    has been removed. *)
Theorem workspaces_released env storage_retry options settings r t :
  run_job env storage_retry options settings = (r, t) -> released env t.
Proof.
  unfold run_job. destruct (resolve _ _ _ _ _ _) as [[tracks i]|e]; [|intros [= _ <-]; intros d Hd; by apply not_elem_of_nil in Hd].
  destruct (prepare env storage_retry options settings tracks _ new_trace) as [[p|e] t1] eqn:E;
    apply prepare_spec in E as [Hq Hg]; [|intros [= _ <-]; by apply drop_guard_released].
  specialize (Hg p eq_refl eq_refl). unfold run_plan. destruct (decide_items _ _ _ _) as [skipped|items n|items n].
  - intros [= _ <-]. by apply drop_guard_released.
  - by apply priority_released.
  - by apply enqueue_released.
Qed.

(** A fully cached batch never waits for the queue: when nothing is cancelled and every copy
    succeeds, exactly the cached messages are copied to the chat, in the order of the tracks, and the
    job reports them all. *)
Theorem cached_batch_delivered env options p items t :
  is_cache_only options = false -> jp_zip_deliver p = false -> je_permit env = true ->
  (forall l, je_cancelled env l = false) -> Forall (fun i => is_cached i = true) items ->
  (forall k, (k < length items)%nat -> exists m, je_deliver env k = Some (Ok (Message m))) ->
  exists first t', priority_delivery env options p items t =
      (Ok (summary p (Z.of_nat (length items)) [] [] first), drop_guard t') /\
    copies t' = copies t ++ messages items /\ length (messages items) = length items /\
    rows_deleted t' = rows_deleted t /\ queued t' = queued t.
Proof.
  intros Hco Hzd Hp Hc Hall Hd. unfold priority_delivery. rewrite Hp, Hc, Hco, Hzd. cbn [negb andb].
  destruct (deliver_cached_tracks env 0 [] items 0 None t) as [[[e count] first] t1] eqn:E.
  destruct (deliver_cached_tracks_spec _ _ _ _ _ _ _ _ _ _ _ E) as ((S1 & S2 & S3 & S4) & n & Hn & Hcp & Hct & _ & He).
  assert (Hlen : length (messages items) = length items).
  { clear -Hall. induction Hall as [|i l Hi Hl IH]; [done|]. unfold messages, is_cached in *. cbn.
    apply bool_decide_eq_true in Hi as [c ->]. cbn. by rewrite IH. }
  destruct e as [| |its].
  - destruct He as [-> Hr]. rewrite take_ge in * by done. exists first, t1. rewrite Hct, Hlen. split_and!; done.
  - exfalso. destruct He as (_ & Hlt & [Hj|Hj]); [by rewrite Hc in Hj|].
    destruct (Hd n) as [m Hm]; [done|]. cbn in Hj. congruence.
  - exfalso. destruct He as (i & cached & Hi & _ & _ & _ & a & Ha & Hno). apply lookup_lt_Some in Hi.
    destruct (Hd n Hi) as [m Hm]. cbn in Ha. rewrite Hm in Ha. injection Ha as <-. by destruct (Hno m).
Qed.

(** A copy that fails in the middle of a batch sends the whole batch through the queue again: the
    items already copied to the chat are queued as they were, with their cached copies, so the cached
    lane delivers them a second time; the item whose copy failed is queued for ripping, whether or
    not ripping is enabled. *)
Theorem failed_copy_requeues_batch env options p items t n item cached a :
  is_cache_only options = false -> jp_zip_deliver p = false -> je_permit env = true ->
  (forall l, je_cancelled env l = false) ->
  je_create_dir env (je_rip_dir env) = Ok tt -> je_enqueue env = Ok tt ->
  items !! n = Some item -> pi_cached item = Some cached ->
  (forall k, (k < n)%nat -> exists m, je_deliver env k = Some (Ok (Message m))) ->
  je_deliver env n = Some a -> (forall m, a <> Ok (Message m)) ->
  exists t', (priority_delivery env options p items t).2 = t' /\
    copies t' = copies t ++ messages (take n items) /\
    queued t' = Some (take n items ++ uncache item :: drop (S n) items).
Proof.
  intros Hco Hzd Hp Hc Hdir Henq Hi Hcached Hd Ha Hno. unfold priority_delivery. rewrite Hp, Hc, Hco, Hzd. cbn [negb andb].
  destruct (deliver_cached_tracks env 0 [] items 0 None t) as [[[e count] first] t1] eqn:E.
  destruct (deliver_cached_tracks_spec _ _ _ _ _ _ _ _ _ _ _ E) as ((S1 & S2 & S3 & S4) & j & Hj & Hcp & Hct & Hans & He).
  assert (Hle : (j <= n)%nat).
  { destruct (Nat.le_gt_cases j n) as [|Hgt]; [done|]. destruct (Hans n item) as [m Hm]; [lia|done|by eexists|].
    cbn in Hm. rewrite Ha in Hm. injection Hm as ->. by destruct (Hno m). }
  apply lookup_lt_Some in Hi as Hlt. destruct e as [| |its].
  - destruct He as [-> _]. lia.
  - exfalso. destruct He as (_ & _ & [Hs|Hs]); [by rewrite Hc in Hs|]. cbn in Hs.
    destruct (decide (j = n)) as [->|Hne]; [congruence|]. destruct (Hd j) as [m Hm]; [lia|congruence].
  - destruct He as (i & c & H1 & H2 & -> & H4 & a' & H5 & H6). cbn in H5.
    assert (j = n) as ->.
    { destruct (decide (j = n)) as [|Hne]; [done|]. destruct (Hd j) as [m Hm]; [lia|]. rewrite Hm in H5.
      injection H5 as <-. by destruct (H6 m). }
    rewrite Hi in H1. injection H1 as <-. unfold enqueue_job. rewrite Hdir, Henq.
    destruct (je_summary env) as [[sm|e]|]; (eexists; split; [done|]); cbn; by split.
Qed.

(** While ripping is disabled an uncached item reaches the queue only through a copy that failed. *)
Theorem queue_gated env storage_retry options settings r t its :
  can_rip options settings = false ->
  run_job env storage_retry options settings = (r, t) -> queued t = Some its ->
  Forall (fun i => is_cached i = true) its \/
  exists k a, je_deliver env k = Some a /\ forall m, a <> Ok (Message m).
Proof.
  intros Hg. unfold run_job. destruct (resolve _ _ _ _ _ _) as [[tracks i]|e]; [|by intros [= _ <-]].
  destruct (prepare env storage_retry options settings tracks _ new_trace) as [[p|e] t1] eqn:E;
    apply prepare_spec in E as [Hq _]; [|intros [= _ <-]; cbn; by rewrite Hq].
  unfold run_plan. rewrite Hg.
  destruct (decide_items_spec false (jp_zip_build p) (jp_reuse p) (jp_items p)) as (Hd & _).
  assert (Hcached : forall its', decided (decide_items false (jp_zip_build p) (jp_reuse p) (jp_items p)) = its' ->
    Forall (fun i => is_cached i = true) its').
  { intros its' <-. rewrite Hd. apply Forall_forall. by intros x [_ Hx]%filter_elem. }
  destruct (decide_items _ _ _ _) as [skipped|items n|items n]; specialize (Hcached _ eq_refl); cbn [decided] in Hcached.
  - intros [= _ <-]. cbn. by rewrite Hq.
  - intros Hrun Hits. eapply priority_queued; [exact Hq|exact Hrun|exact Hits|exact Hcached].
  - intros Hrun Hits. left. by rewrite (enqueue_queued _ _ _ _ _ _ _ Hq Hrun Hits).
Qed.

(** A cached archive of the main rendition is sent whole or not at all: when nothing is cancelled
    the parts are copied in order up to the first failure; success means that all of them were, and
    reports their number and total size. *)
Theorem archive_rows_delivered env rows first t res first' t' :
  (forall l, je_cancelled env l = false) -> (forall k, je_deliver_row env Primary k <> None) ->
  Forall (fun row => 0 <= ca_file_size row) rows -> sumZ (ca_file_size <$> rows) < 2 ^ 63 ->
  deliver_cached_zip_rows_direct env Primary rows first t = (res, first', t') ->
  exists n, (n <= length rows)%nat /\ copies t' = copies t ++ (ca_message_id <$> take n rows) /\
    match res with
    | Ok (delivered, size) => n = length rows /\ delivered = Z.of_nat n /\ size = sumZ (ca_file_size <$> rows)
    | Err _ => (n < length rows)%nat /\ exists a, je_deliver_row env Primary n = Some a /\ forall m, a <> Ok (Message m)
    end.
Proof.
  intros Hc Hd Hpos Hsum. unfold deliver_cached_zip_rows_direct.
  assert (H : forall rows k delivered size first t,
    Forall (fun row => 0 <= ca_file_size row) rows -> 0 <= size -> size + sumZ (ca_file_size <$> rows) < 2 ^ 63 ->
    deliver_rows env Primary k rows delivered size first t = (res, first', t') ->
    exists n, (n <= length rows)%nat /\ copies t' = copies t ++ (ca_message_id <$> take n rows) /\
    match res with
    | Ok (d, sz) => n = length rows /\ d = delivered + Z.of_nat n /\ sz = size + sumZ (ca_file_size <$> rows)
    | Err _ => (n < length rows)%nat /\ exists a, je_deliver_row env Primary (k + n) = Some a /\ forall m, a <> Ok (Message m)
    end).
  { clear -Hc Hd. induction rows as [|row rows IH]; intros k delivered size first t Hpos Hs Hsum; cbn [deliver_rows].
    { intros [= <- <- <-]. exists 0%nat. cbn. rewrite app_nil_r. split_and!; [lia|done|done|lia|lia]. }
    rewrite !Hc. apply Forall_cons in Hpos as [H0 Hpos]. rewrite fmap_cons in Hsum.
    change (sumZ (ca_file_size row :: (ca_file_size <$> rows))) with (ca_file_size row + sumZ (ca_file_size <$> rows)) in Hsum.
    pose proof (sumZ_nonneg (ca_file_size <$> rows)) as Hnn. rewrite Forall_fmap in Hnn. specialize (Hnn Hpos).
    destruct (je_deliver_row env Primary k) as [[[m|]|e]|] eqn:Ha; [| | |by destruct (Hd k)].
    - assert (Hw : swrap 64 (size + ca_file_size row) = size + ca_file_size row).
      { unfold swrap. rewrite Z.mod_small; lia. }
      rewrite Hw. intros Hrun. 
      destruct (IH (S k) (delivered + 1) (size + ca_file_size row) (remember_first m first) (log_copy (ca_message_id row) t)
        Hpos ltac:(lia) ltac:(lia) Hrun) as (n & Hn & Hcp & Hres).
      exists (S n). cbn [length take]. rewrite fmap_cons. cbn in Hcp. split_and!; [lia|by rewrite Hcp, <- app_assoc|].
      destruct res as [[d sz]|er].
      + destruct Hres as (-> & -> & ->). split_and!; [done|lia|]. rewrite fmap_cons. cbn [sumZ foldr]. unfold sumZ. lia.
      + destruct Hres as [Hlt Hex]. split; [lia|]. by replace (k + S n)%nat with (S k + n)%nat by lia.
    - intros [= <- <- <-]. exists 0%nat. cbn. rewrite app_nil_r, Nat.add_0_r. split_and!; [lia|done|lia|]. by exists (Ok PreviewDelivered).
    - intros [= <- <- <-]. exists 0%nat. cbn. rewrite app_nil_r, Nat.add_0_r. split_and!; [lia|done|lia|]. by exists (Err e). }
  intros Hrun. destruct (H rows 0%nat 0 0 first t Hpos ltac:(lia) ltac:(lia) Hrun) as (n & H1 & H2 & H3).
  exists n. split_and!; [done|done|]. by destruct res as [[d sz]|e].
Qed.

(** ** Witnesses *)

Definition demo_job_env (answers : nat -> option (result DeliveryError DeliveryReceipt)) : job_env :=
  mkJobEnv (fun _ => false) (fun _ _ => Err (lit "gone")) (fun _ _ => Err (lit "gone")) demo_playlist (fun l => l)
    (fun _ => Ok ∅) (Ok []) (fun _ => lit "/zip") (lit "/rip") (fun _ => Ok tt) true answers (fun _ => answers)
    (Ok tt) None.

Definition answer_ok (k : nat) : option (result DeliveryError DeliveryReceipt) := Some (Ok (Message (Z.of_nat k))).
Definition answer_first (k : nat) : option (result DeliveryError DeliveryReceipt) :=
  match k with O => answer_ok 0 | _ => Some (Err UnexpectedMedia) end.

Definition demo_copy (id : str) (idx m : Z) : plan_item :=
  mkPlanItem (mkItem id Primary (Some (mkCachedTrack id Alac m [] [])) (Some idx)) None None None None None (Some 2).

Definition demo_batch : list plan_item := [demo_copy (lit "1") 1 9; demo_copy (lit "2") 2 10].
Definition demo_job_plan : job_plan := mkJobPlan 2 false false [] ∅ None demo_batch [].

Lemma workspaces_released_witness :
  released (demo_job_env answer_ok) (run_job (demo_job_env answer_ok) RetryPolicy_test demo_targets default_settings).2.
Proof. apply (workspaces_released (demo_job_env answer_ok) RetryPolicy_test demo_targets default_settings (run_job (demo_job_env answer_ok) RetryPolicy_test demo_targets default_settings).1). by destruct (run_job _ _ _ _). Defined.

Lemma cached_batch_delivered_witness :
  exists first t', priority_delivery (demo_job_env answer_ok) demo_targets demo_job_plan demo_batch new_trace =
      (Ok (summary demo_job_plan 2 [] [] first), drop_guard t') /\ copies t' = [9; 10].
Proof.
  destruct (cached_batch_delivered (demo_job_env answer_ok) demo_targets demo_job_plan demo_batch new_trace)
    as (first & t' & H1 & H2 & _); [done..| | |by exists first, t'].
  - repeat constructor.
  - intros k _. by exists (Z.of_nat k).
Defined.

Lemma failed_copy_requeues_batch_witness :
  exists t', (priority_delivery (demo_job_env answer_first) demo_targets demo_job_plan demo_batch new_trace).2 = t' /\
    copies t' = [9] /\ queued t' = Some [demo_copy (lit "1") 1 9; uncache (demo_copy (lit "2") 2 10)].
Proof.
  destruct (failed_copy_requeues_batch (demo_job_env answer_first) demo_targets demo_job_plan demo_batch new_trace 1
    (demo_copy (lit "2") 2 10) (mkCachedTrack (lit "2") Alac 10 [] []) (Err UnexpectedMedia)) as (t' & H1 & H2 & H3);
    [done..| |done|done|by exists t'].
  intros [|k] Hk; [by exists 0|lia].
Defined.

(** The copy made a second time: the cached lane gets the item again. *)
Lemma copied_track_queued_again :
  exists d : dispatch Z, run_lane_one [pi_item (demo_copy (lit "1") 1 9); pi_item (uncache (demo_copy (lit "2") 2 10))] d /\
    lane d = [CachedTask (pi_item (demo_copy (lit "1") 1 9)) (mkCachedTrack (lit "1") Alac 9 [] [])].
Proof.
  eexists. split; [apply (exec_steps _ [ATurn AnsStop; ASend; ADispatch; AEnqueue]); by vm_compute|done].
Qed.

Definition demo_cached_job : RipTaskOptions :=
  mkRipOptions 1 1 None 1 false false false None [mkTarget (lit "1") KTrack None] None false None PrimaryOnly JobOrigin_default.

Definition paused_settings : BotSettings :=
  mkSettings Paused true true true true true true None 4444 FALLBACK_STOREFRONT None.

Definition demo_cached_env : job_env :=
  mkJobEnv (fun _ => false) (fun _ _ => Err (lit "gone")) (fun _ _ => Err (lit "gone")) demo_playlist (fun l => l)
    (fun _ => Ok {[(lit "1", Alac) := mkCachedTrack (lit "1") Alac 9 [] []]}) (Ok []) (fun _ => lit "/zip") (lit "/rip")
    (fun _ => Ok tt) true answer_first (fun _ => answer_first) (Ok tt) None.

(** The only copy fails while ripping is paused: the item is queued without its copy. *)
Definition failing_env : job_env :=
  mkJobEnv (je_cancelled demo_cached_env) (je_fetch_album demo_cached_env) (je_fetch_artist demo_cached_env)
    (je_fetch_playlist demo_cached_env) (je_sha256 demo_cached_env) (je_find demo_cached_env) (je_find_albums demo_cached_env)
    (je_zip_dir demo_cached_env) (je_rip_dir demo_cached_env) (je_create_dir demo_cached_env) true
    (fun _ => Some (Err UnexpectedMedia)) (je_deliver_row demo_cached_env) (Ok tt) None.

Definition queued_items (env : job_env) : list plan_item :=
  default [] (queued (run_job env RetryPolicy_test demo_cached_job paused_settings).2).

Lemma queue_gated_witness :
  (Forall (fun i => is_cached i = true) (queued_items failing_env) \/
   exists k a, je_deliver failing_env k = Some a /\ forall m, a <> Ok (Message m)) /\
  pi_cached <$> queued_items failing_env = [None].
Proof.
  split; [|by vm_compute].
  apply (queue_gated failing_env RetryPolicy_test demo_cached_job paused_settings
    (run_job failing_env RetryPolicy_test demo_cached_job paused_settings).1
    (run_job failing_env RetryPolicy_test demo_cached_job paused_settings).2).
  - by vm_compute.
  - by destruct (run_job _ _ _ _).
  - by vm_compute.
Defined.

Lemma archive_rows_delivered_witness :
  exists n, copies (deliver_cached_zip_rows_direct (demo_job_env answer_first) Primary demo_rows None new_trace).2 =
      [] ++ (ca_message_id <$> take n demo_rows) /\ (n < 3)%nat.
Proof.
  destruct (archive_rows_delivered (demo_job_env answer_first) demo_rows None new_trace
    (Err (lit "primary ZIP delivery failed: " ++ delivery_error_display UnexpectedMedia)) (Some 0)
    (deliver_cached_zip_rows_direct (demo_job_env answer_first) Primary demo_rows None new_trace).2)
    as (n & H1 & H2 & H3 & _); [done|by intros [|k]| |by vm_compute|by vm_compute|by exists n].
  repeat (apply Forall_cons; split; [cbn; lia|]). apply Forall_nil_2.
Defined.
