(* ===== verification/Streaming.v ===== *)
(** * Streaming: opening an audio stream over HTTP (crates/engine/src/streaming/http.rs,
      stream_transport.rs, source_id.rs)

    The client library is met through its answers: what [send] yields, the headers it finds, the
    chunks of the body.  [fetch] turns them into a response or an error, [fetch_endpoint] into a
    source of audio with its defaults, the body of a refusal being read up to a limit.  Bytes are
    numbers; [from_utf8_lossy] is the standard library's. *)
From S2P Require Import Prelude Text.

Inductive SourceId : Type :=
| PrimaryMirror
| WrapperLite (url : str)
| WrapperCandidate (endpoint : str)
| ProviderBackend (provider url : str)
| NativeProvider (provider : str).

Definition source_display (s : SourceId) : str :=
  match s with
  | PrimaryMirror => lit "primary mirror"
  | WrapperLite url => lit "wrapper-lite (" ++ url ++ lit ")"
  | WrapperCandidate endpoint => lit "wrapper candidate (" ++ endpoint ++ lit ")"
  | ProviderBackend provider url => provider ++ lit " backend (" ++ url ++ lit ")"
  | NativeProvider provider => provider ++ lit " native ripper"
  end.

Inductive StreamError : Type :=
| SMessage (message : str)
| SPermanent (message : str)
| SUnavailable (reason : str)
| STimeout (source : SourceId) (secs : Z)
| SAuthentication (source : SourceId)
| SSourceOffline (source : SourceId)
| SPlaylistParse (which detail : str)
| SLicense (detail : str)
| SDecrypt (detail : str)
| SIncompleteBody (source : SourceId) (expected received : Z)
| SCancelled.

Definition stream_error_display (e : StreamError) : str :=
  match e with
  | SMessage m | SPermanent m | SUnavailable m => m
  | STimeout source secs => lit "stream handshake timed out after " ++ show_u secs ++ lit "s on " ++ source_display source
  | SAuthentication source => lit "authentication failed on " ++ source_display source
  | SSourceOffline source => source_display source ++ lit " is offline"
  | SPlaylistParse which detail => which ++ lit " playlist parse failed: " ++ detail
  | SLicense detail => lit "license error: " ++ detail
  | SDecrypt detail => lit "decrypt failed: " ++ detail
  | SIncompleteBody source expected received =>
      lit "incomplete audio body from " ++ source_display source ++ lit ": expected " ++ show_u expected ++
      lit " bytes, received " ++ show_u received
  | SCancelled => lit "Download was cancelled"
  end.

(** ** UTF-8, read leniently *)

Definition REPLACEMENT : rchar := 65533.

Definition is_cont (b : Z) : bool := (128 <=? b) && (b <? 192).

(** The range of the second byte of a sequence that starts with [b]. *)
Definition second_range (b : Z) : Z * Z :=
  if b =? 224 then (160, 192) else if b =? 237 then (128, 160)
  else if b =? 240 then (144, 192) else if b =? 244 then (128, 144) else (128, 192).

Definition second_ok (b b1 : Z) : bool := (fst (second_range b) <=? b1) && (b1 <? snd (second_range b)).

(** The first character of some bytes, and the rest: a maximal ill-formed prefix counts as one
    replacement character. *)
Definition decode_one (b : Z) (rest : list Z) : rchar * list Z :=
  if b <? 128 then (b, rest)
  else if (194 <=? b) && (b <? 224) then
    match rest with
    | b1 :: r => if is_cont b1 then ((b - 192) * 64 + (b1 - 128), r) else (REPLACEMENT, rest)
    | [] => (REPLACEMENT, rest)
    end
  else if (224 <=? b) && (b <? 240) then
    match rest with
    | b1 :: r1 =>
        if second_ok b b1 then
          match r1 with
          | b2 :: r2 => if is_cont b2 then ((b - 224) * 4096 + (b1 - 128) * 64 + (b2 - 128), r2) else (REPLACEMENT, r1)
          | [] => (REPLACEMENT, r1)
          end
        else (REPLACEMENT, rest)
    | [] => (REPLACEMENT, rest)
    end
  else if (240 <=? b) && (b <? 245) then
    match rest with
    | b1 :: r1 =>
        if second_ok b b1 then
          match r1 with
          | b2 :: r2 =>
              if is_cont b2 then
                match r2 with
                | b3 :: r3 =>
                    if is_cont b3
                    then ((b - 240) * 262144 + (b1 - 128) * 4096 + (b2 - 128) * 64 + (b3 - 128), r3)
                    else (REPLACEMENT, r2)
                | [] => (REPLACEMENT, r2)
                end
              else (REPLACEMENT, r1)
          | [] => (REPLACEMENT, r1)
          end
        else (REPLACEMENT, rest)
    | [] => (REPLACEMENT, rest)
    end
  else (REPLACEMENT, rest).

Fixpoint decode_lossy (fuel : nat) (bs : list Z) : str :=
  match fuel, bs with
  | S f, b :: rest => let '(c, rest) := decode_one b rest in c :: decode_lossy f rest
  | _, _ => []
  end.

(** A character takes at least one byte. *)
Definition from_utf8_lossy (bs : list Z) : str := decode_lossy (length bs) bs.

(** ** The HTTP client *)

(** A body: the chunks the stream yields, an error with its text. *)
Abbreviation byte_stream := (list (result str (list Z))).

Record StreamHttpResponse := mkResponse {
  status : Z; rs_codec : option str; rs_bit_depth : option str; rs_sample_rate : option str;
  rs_content_length : option Z; body : option byte_stream;
}.

Inductive StreamHttpError : Type := HttpTimeout | HttpCancelled | HttpNetwork (message : str).

(** What the library's response shows: the headers that are text. *)
Record raw_response := mkRaw { raw_status : Z; raw_header : str -> option str; raw_body : byte_stream }.

(** How the handshake ends: an answer, an error (a timeout of the library's own or another), the
    handshake's timeout, or the cancellation that wins the [select!]. *)
Inductive handshake : Type :=
| Answered (r : raw_response) | Refused (is_timeout : bool) (message : str) | TimedOut | CancelledFirst.

(** [ReqwestHttp::fetch]; [cancelled] is the signal before the request, if there is a signal. *)
Definition fetch (cancelled : bool) (h : handshake) : result StreamHttpError StreamHttpResponse :=
  if cancelled then Err HttpCancelled
  else match h with
       | CancelledFirst => Err HttpCancelled
       | TimedOut => Err HttpTimeout
       | Refused is_timeout message => Err (if is_timeout then HttpTimeout else HttpNetwork message)
       | Answered r =>
           let header := raw_header r in
           Ok (mkResponse (raw_status r) (header (lit "x-codec")) (header (lit "x-bitdepth")) (header (lit "x-samplerate"))
                 (v ← header (lit "content-length"); parse_u 64 v) (Some (raw_body r)))
       end.

(** ** The transport *)

Definition MAX_ERROR_BODY_BYTES : Z := 64 * 1024.

(** The loop of [collect_body]; [bytes] so far. *)
Fixpoint collect_bytes (bytes : list Z) (chunks : byte_stream) : list Z :=
  match chunks with
  | [] => bytes
  | Ok chunk :: chunks =>
      let remaining := saturating_sub MAX_ERROR_BODY_BYTES (Z.of_nat (length bytes)) in
      let bytes := bytes ++ take (Z.to_nat (Z.min (Z.of_nat (length chunk)) remaining)) chunk in
      if MAX_ERROR_BODY_BYTES <=? Z.of_nat (length bytes) then bytes else collect_bytes bytes chunks
  | Err _ :: chunks => collect_bytes bytes chunks
  end.

Definition collect_body (chunks : byte_stream) : str := from_utf8_lossy (collect_bytes [] chunks).

Definition map_http_error (error : StreamHttpError) (timeout_ms : Z) (source : SourceId) : StreamError :=
  match error with
  | HttpTimeout => STimeout source (Z.min u64_max (timeout_ms / 1000))
  | HttpCancelled => SCancelled
  | HttpNetwork message => SMessage message
  end.

Record AudioStreamSource := mkAudio {
  stream : byte_stream; as_source : SourceId; as_codec : str; as_bit_depth : Z; as_sample_rate : Z;
  as_content_length : option Z;
}.

(** [fetch_endpoint], with what [fetch] answers. *)
Definition fetch_endpoint (cancelled : bool) (timeout_ms : Z) (source : SourceId)
    (answer : result StreamHttpError StreamHttpResponse) : result StreamError AudioStreamSource :=
  if cancelled then Err SCancelled
  else match answer with
       | Err error => Err (map_http_error error timeout_ms source)
       | Ok response =>
           if negb ((200 <=? status response) && (status response <? 300)) then
             let text := match body response with Some b => collect_body b | None => [] end in
             Err (SMessage (lit "HTTP " ++ show_u (status response) ++ lit " on " ++ source_display source ++ lit ": " ++
                            take 120 text))
           else match body response with
                | None => Err (SMessage (lit "Empty body from " ++ source_display source))
                | Some b =>
                    Ok (mkAudio b source (default (lit "alac") (rs_codec response))
                          (default 24 (v ← rs_bit_depth response; parse_u 32 v))
                          (default 96000 (v ← rs_sample_rate response; parse_u 32 v))
                          (rs_content_length response))
                end
       end.

(** ** Lemmas *)

(** What a Rust [char] can hold. *)
Definition is_char (c : rchar) : Prop := scalar c /\ ~ (55296 <= c < 57344).

Lemma div_mod_64 c : 0 <= c -> c = c / 64 * 64 + c mod 64 /\ 0 <= c mod 64 < 64.
Proof. intros H. pose proof (Z.div_mod c 64). pose proof (Z.mod_pos_bound c 64). lia. Qed.

Ltac decide_ifs := repeat match goal with
  | |- context [?a <? ?b] => first [rewrite (proj2 (Z.ltb_lt a b)) by lia | rewrite (proj2 (Z.ltb_ge a b)) by lia]
  | |- context [?a <=? ?b] => first [rewrite (proj2 (Z.leb_le a b)) by lia | rewrite (proj2 (Z.leb_gt a b)) by lia]
  | |- context [?a =? ?b] => first [rewrite (proj2 (Z.eqb_eq a b)) by lia | rewrite (proj2 (Z.eqb_neq a b)) by lia]
  end; cbn [andb].

Lemma cont_byte c : 0 <= c -> is_cont (128 + c mod 64) = true.
Proof. intros H. destruct (div_mod_64 c H). unfold is_cont. decide_ifs. done. Qed.

Lemma decode_encode c rest : is_char c -> exists b bs, encode_utf8 c = b :: bs /\ decode_one b (bs ++ rest) = (c, rest).
Proof.
  intros [[H0 Hmax] Hs]. unfold encode_utf8.
  pose proof (div_mod_64 c H0) as [E1 R1].
  pose proof (div_mod_64 (c / 64) ltac:(apply Z.div_pos; lia)) as [E2 R2].
  pose proof (div_mod_64 (c / 64 / 64) ltac:(do 2 (apply Z.div_pos; [|lia]); lia)) as [E3 R3].
  assert (c / 4096 = c / 64 / 64) as D2 by (by rewrite Z.div_div).
  assert (c / 262144 = c / 64 / 64 / 64) as D3 by (by rewrite !Z.div_div).
  destruct (Z.ltb_spec c 128); [by do 2 eexists; split; [done|]; unfold decode_one; decide_ifs|].
  destruct (Z.ltb_spec c 2048).
  { do 2 eexists. split; [done|]. cbn [app]. unfold decode_one. decide_ifs. rewrite cont_byte by lia. f_equal. lia. }
  destruct (Z.ltb_spec c 65536).
  { do 2 eexists. split; [done|]. cbn [app]. unfold decode_one. rewrite D2 in *. decide_ifs.
    assert (second_ok (224 + c / 64 / 64) (128 + (c / 64) mod 64) = true) as ->.
    { unfold second_ok, second_range. destruct (Z.eqb_spec (224 + c / 64 / 64) 224).
      { cbn [fst snd]. decide_ifs. done. }
      destruct (Z.eqb_spec (224 + c / 64 / 64) 237); [cbn [fst snd]; decide_ifs; done|]. decide_ifs. cbn [fst snd]. decide_ifs. done. }
    rewrite cont_byte by lia. f_equal. lia. }
  do 2 eexists. split; [done|]. cbn [app]. unfold decode_one. rewrite D2, D3 in *. decide_ifs.
  assert (second_ok (240 + c / 64 / 64 / 64) (128 + (c / 64 / 64) mod 64) = true) as ->.
  { unfold second_ok, second_range. decide_ifs. destruct (Z.eqb_spec (240 + c / 64 / 64 / 64) 240).
    { cbn [fst snd]. decide_ifs. done. }
    destruct (Z.eqb_spec (240 + c / 64 / 64 / 64) 244); cbn [fst snd]; decide_ifs; done. }
  rewrite !cont_byte by (try apply Z.div_pos; lia). f_equal. lia.
Qed.

Lemma decode_lossy_bytes s : forall fuel, Forall is_char s -> (length (as_bytes s) <= fuel)%nat ->
  decode_lossy fuel (as_bytes s) = s.
Proof.
  induction s as [|c s IH]; intros fuel Hs Hf; [by destruct fuel|].
  apply Forall_cons in Hs as [Hc Hs]. destruct (decode_encode c (as_bytes s) Hc) as (b & bs & E & Hd).
  change (as_bytes (c :: s)) with (encode_utf8 c ++ as_bytes s) in *. rewrite E in *. cbn [app length] in *.
  destruct fuel as [|fuel]; [lia|]. cbn [decode_lossy]. rewrite Hd. f_equal. apply IH; [done|].
  rewrite length_app in Hf. lia.
Qed.

Lemma take_app_min (n : nat) (l k : list Z) : (length l <= n)%nat -> take n (l ++ k) = l ++ take (n - length l) k.
Proof. intros H. by rewrite take_app_ge. Qed.

Lemma collect_bytes_spec chunks : forall bytes, Z.of_nat (length bytes) < MAX_ERROR_BODY_BYTES ->
  collect_bytes bytes chunks = take (Z.to_nat MAX_ERROR_BODY_BYTES) (bytes ++ concat (omap ok chunks)).
Proof.
  induction chunks as [|[chunk|e] chunks IH]; intros bytes Hb; cbn [collect_bytes].
  - cbn. rewrite app_nil_r, take_ge by lia. done.
  - change (omap ok (Ok chunk :: chunks)) with (chunk :: omap ok chunks). cbn [concat].
    set (left_ := saturating_sub MAX_ERROR_BODY_BYTES (Z.of_nat (length bytes))).
    assert (Hl : left_ = MAX_ERROR_BODY_BYTES - Z.of_nat (length bytes)) by (unfold left_, saturating_sub; lia).
    destruct (Z.leb_spec (Z.of_nat (length chunk)) left_) as [Hc|Hc].
    + rewrite Z.min_l, Nat2Z.id, firstn_all by lia. rewrite app_assoc.
      destruct (Z.leb_spec MAX_ERROR_BODY_BYTES (Z.of_nat (length (bytes ++ chunk)))) as [H|H]; [|by apply IH].
      rewrite length_app in H. rewrite take_app_le by (rewrite length_app; lia).
      rewrite take_ge by (rewrite length_app; lia). done.
    + rewrite Z.min_r by lia. rewrite (proj2 (Z.leb_le _ _)).
      * rewrite take_app_min by lia. f_equal. rewrite take_app_le by lia. f_equal. lia.
      * rewrite length_app, length_take. lia.
  - apply IH. lia.
Qed.

(** ** Properties *)

(** Decoding the bytes of a text leniently gives the text back. *)
Theorem utf8_lossy_roundtrip (s : str) : Forall is_char s -> from_utf8_lossy (as_bytes s) = s.
Proof. intros H. by apply decode_lossy_bytes. Qed.

Lemma utf8_lossy_roundtrip_witness : from_utf8_lossy (as_bytes [97; 233; 8364; 128512]) = [97; 233; 8364; 128512].
Proof. apply utf8_lossy_roundtrip. repeat (apply Forall_cons; split; [split; [split|]; lia|]). by apply Forall_nil_2. Defined.

(** However long a refusal's body is, at most [MAX_ERROR_BODY_BYTES] of it are kept: the first ones of
    the chunks that arrived. *)
Theorem collect_body_bounded (chunks : byte_stream) :
  collect_bytes [] chunks = take (Z.to_nat MAX_ERROR_BODY_BYTES) (concat (omap ok chunks)) /\
  Z.of_nat (length (collect_bytes [] chunks)) <= MAX_ERROR_BODY_BYTES.
Proof.
  rewrite (collect_bytes_spec chunks []) by done. split; [done|]. rewrite length_take. unfold MAX_ERROR_BODY_BYTES. lia.
Qed.
