(* ===== verification/Ripper.v ===== *)
(** * Ripper: ripping one track (crates/engine/src/ripper.rs)

    [rip_once] resolves the track, opens its stream, reserves an output file, downloads the body and
    hands it to the tagger; [rip] retries it.  The world is met through an environment: the looks at
    the cancellation token, the catalogue, the stream and its events in the order the [select!] takes
    them, the operations of the disk that may fail, the media processor.  Files are a map from paths
    to bytes.  Lyrics and artwork are data that arrive; progress reports and times are left out. *)
From S2P Require Import Prelude Text Music Filename Retry Streaming.

Inductive RipError : Type :=
| RCancelled
| RTrackUnavailable (reason : str)
| RRenditionUnavailable (reason : str)
| RLocalIo (message : str)
| RSourceOffline (source : SourceId)
| RStreamCorrupt (source : SourceId) (detail : str)
| RIncompleteBody (source : SourceId) (expected received : Z)
| RStreamStalled (source : SourceId) (secs : Z)
| RTimeout (source : option SourceId) (detail : str)
| RAuthentication (source : SourceId)
| RPlaylistParse (which detail : str)
| RLicense (detail : str)
| RDecrypt (detail : str)
| RDecode (source : option SourceId) (detail : str)
| RMessage (message : str).

Definition rip_error_display (e : RipError) : str :=
  match e with
  | RCancelled => lit "Download was cancelled"
  | RTrackUnavailable reason => lit "track unavailable: " ++ reason
  | RRenditionUnavailable reason => lit "rendition unavailable: " ++ reason
  | RLocalIo message => lit "local file error: " ++ message
  | RSourceOffline source => source_display source ++ lit " is offline"
  | RStreamCorrupt source detail => lit "stream corrupt on " ++ source_display source ++ lit ": " ++ detail
  | RIncompleteBody source expected received =>
      lit "incomplete audio body from " ++ source_display source ++ lit ": expected " ++ show_u expected ++
      lit " bytes, received " ++ show_u received
  | RStreamStalled source secs =>
      lit "audio stream stalled on " ++ source_display source ++ lit ": no data received for " ++ show_u secs ++ lit "s"
  | RTimeout _ detail => lit "operation timed out: " ++ detail
  | RAuthentication source => lit "authentication failed on " ++ source_display source
  | RPlaylistParse which detail => which ++ lit " playlist parse failed: " ++ detail
  | RLicense detail => lit "license error: " ++ detail
  | RDecrypt detail => lit "decrypt failed: " ++ detail
  | RDecode _ detail => lit "audio decode failed: " ++ detail
  | RMessage message => message
  end.

Inductive SourceFailureKind : Type := FailStream | FailIncompleteBody | FailMediaValidation.

(** [From<StreamError>]. *)
Definition rip_of_stream (e : StreamError) : RipError :=
  match e with
  | SMessage message => RMessage message
  | SPermanent reason => RTrackUnavailable reason
  | SUnavailable reason => RRenditionUnavailable reason
  | STimeout source secs => RTimeout (Some source) (lit "stream handshake timed out after " ++ show_u secs ++ lit "s")
  | SAuthentication source => RAuthentication source
  | SSourceOffline source => RSourceOffline source
  | SPlaylistParse which detail => RPlaylistParse which detail
  | SLicense detail => RLicense detail
  | SDecrypt detail => RDecrypt detail
  | SIncompleteBody source expected received => RIncompleteBody source expected received
  | SCancelled => RCancelled
  end.

(** [MediaError] of crates/media; [MediaIo] holds the system's words. *)
Inductive MediaError : Type :=
| MediaCancelled | UnsupportedFormat | MediaDecode (m : str) | MediaRender (m : str) | MediaInvalid (m : str)
| SourceDecode (m : str) | SourceInvalid (m : str) | MediaMetadata (m : str) | MediaIo (m : str).

Definition media_error_display (e : MediaError) : str :=
  match e with
  | MediaCancelled => lit "operation cancelled"
  | UnsupportedFormat => lit "unsupported audio format"
  | MediaDecode m | SourceDecode m => lit "audio decode failed: " ++ m
  | MediaRender m => lit "spectrogram render failed: " ++ m
  | MediaInvalid m | SourceInvalid m => lit "invalid media: " ++ m
  | MediaMetadata m => lit "metadata update failed: " ++ m
  | MediaIo m => m
  end.

Definition map_media_finalize_error (e : MediaError) : RipError :=
  match e with
  | SourceDecode message | SourceInvalid message => RDecode None message
  | MediaIo message => RLocalIo message
  | error => RMessage (media_error_display error)
  end.

(** [TrackRipResult]. *)
Record RipOutput := mkRipOutput {
  ro_file_path : str; ro_title : str; ro_artist : str; ro_album : str; ro_artwork_url : str; ro_duration : Z;
  ro_bit_depth : Z; ro_sample_rate : Z; ro_codec : str; ro_genre : str; ro_release_date : str;
  ro_track_number : Z; ro_track_count : Z; ro_isrc : option str;
}.

(** The tags [assemble_tags] adds to the stage's own. *)
Record extra_tags := mkExtra { lyrics : option str; artwork_jpeg : option (list Z) }.

Definition non_empty_list {A} (l : option (list A)) : option (list A) := match l with Some [] => None | l => l end.

Definition assemble_tags (cover : option (list Z)) (lyrics : option str) : extra_tags :=
  mkExtra (non_empty_list lyrics) (non_empty_list cover).

(** The condition under which lyrics are asked for at all. *)
Definition lyrics_wanted (track_id : str) : bool :=
  negb (bool_decide (track_id = []) || (20 <? byte_len track_id) || negb (forallb (fun b => is_ascii_digit b) (as_bytes track_id))).

(** What the [select!] of the download loop takes next, and how the stream ends. *)
Inductive select_event : Type :=
| LyricsReady (l : option str) | ArtworkReady (a : option (list Z)) | Chunk (data : list Z).
Inductive stream_end : Type := EndOfStream | Stalls | Corrupt (detail : str).

Inductive rip_look : Type :=
| AtStart | AfterMeta | AtTurn (k : nat) | OnStall | OnCorrupt | OnShort | AfterDownload | BeforeTags | OnDecode.

Record attempt_env := mkAttempt {
  ae_cancelled : rip_look -> bool;
  ae_target_error : option str; ae_track_dir_error : option str;   (* the two [create_dir_all] *)
  ae_meta : result RipError TrackMeta;
  ae_stream : result StreamError AudioStreamSource;
  ae_unix_ms : Z;
  ae_suffix : nat -> Z;                                            (* [unique_temp_suffix], call by call *)
  ae_open_error : str -> option str;                               (* but for existing files *)
  ae_create_error : option str;
  ae_events : list select_event; ae_end : stream_end;
  ae_write_error : nat -> option str;                              (* by the chunk's place *)
  ae_flush_error : option str;
  ae_lyrics : option str; ae_artwork : option (list Z);            (* awaited after the download *)
  ae_finalize : list Z -> extra_tags -> result MediaError (list Z);
  ae_partial : option (list Z);                                    (* what a failing tagger leaves in the output *)
}.

(** Files by path; [observed] are the calls of [observe_stream_failure]. *)
Record disk := mkDisk { files : gmap str (list Z); observed : list (SourceId * SourceFailureKind * str) }.

Definition put (path : str) (data : list Z) (d : disk) : disk := mkDisk (<[path := data]> (files d)) (observed d).
Definition drop (path : str) (d : disk) : disk := mkDisk (delete path (files d)) (observed d).
Definition observe (s : SourceId) (k : SourceFailureKind) (e : RipError) (d : disk) : disk :=
  mkDisk (files d) (observed d ++ [(s, k, rip_error_display e)]).

Definition join (dir name : str) : str := dir ++ lit "/" ++ name.

(** [remove_dir_all] of a directory of this module. *)
Definition drop_dir (dir : str) (d : disk) : disk :=
  mkDisk (filter (fun kv => strip_prefix (dir ++ lit "/") (fst kv) = None) (files d)) (observed d).

Definition CHUNK_INACTIVITY_SECS : Z := 45.

Definition safe_track_id (track_id : str) : str :=
  (fun c => if is_ascii_digit c || is_ascii_upper c || is_ascii_lower c || (c =? 45) || (c =? 95) then c else 95) <$> track_id.

Section Once.
Variables (env : attempt_env) (track_id target_dir : str).

(** ** Reserving the output file *)

(** The loop over [create_new]: the [k]-th suffix comes next.  [None] is a panic of the name's
    builder, or no fuel. *)
Fixpoint reserve (fuel k : nat) (base_name final_name : str) (d : disk) : option (result RipError str * disk) :=
  match fuel with
  | O => None
  | S fuel =>
      let final_path := join target_dir final_name in
      match files d !! final_path with
      | Some _ =>
          next_name ← with_collision_id MAX_FILENAME_BYTES base_name (show_u (ae_suffix env k));
          reserve fuel (S k) base_name next_name d
      | None =>
          match ae_open_error env final_path with
          | Some error => Some (Err (RLocalIo error), d)
          | None => Some (Ok final_path, put final_path [] d)
          end
      end
  end.

(** ** The download *)

Record download := mkDownload {
  dl_data : list Z; dl_lyrics : option (option str); dl_artwork : option (option (list Z));
}.

Inductive loop_end : Type := Downloaded (d : download) | LoopErr (e : RipError).

Section Stream.
Variables (source : SourceId) (raw_path : str).

(** A failure of the source: a cancellation hides it, else it is reported. *)
Definition source_failed (look : rip_look) (kind : SourceFailureKind) (error : RipError) (d : disk) : RipError * disk :=
  if ae_cancelled env look then (RCancelled, d) else (error, observe source kind error d).

(** The [loop]; [k] counts its turns, [w] the chunks written. *)
Fixpoint download_loop (k w : nat) (events : list select_event) (dl : download) (d : disk) : loop_end * disk :=
  if ae_cancelled env (AtTurn k) then (LoopErr RCancelled, d)
  else match events with
       | LyricsReady l :: events => download_loop (S k) w events (mkDownload (dl_data dl) (Some l) (dl_artwork dl)) d
       | ArtworkReady a :: events => download_loop (S k) w events (mkDownload (dl_data dl) (dl_lyrics dl) (Some a)) d
       | Chunk data :: events =>
           match ae_write_error env w with
           | Some error => (LoopErr (RLocalIo error), d)
           | None =>
               let dl := mkDownload (dl_data dl ++ data) (dl_lyrics dl) (dl_artwork dl) in
               download_loop (S k) (S w) events dl (put raw_path (dl_data dl) d)
           end
       | [] =>
           match ae_end env with
           | EndOfStream => (Downloaded dl, d)
           | Stalls =>
               let '(e, d) := source_failed OnStall FailStream (RStreamStalled source CHUNK_INACTIVITY_SECS) d in
               (LoopErr e, d)
           | Corrupt detail =>
               let '(e, d) := source_failed OnCorrupt FailStream (RStreamCorrupt source detail) d in
               (LoopErr e, d)
           end
       end.
End Stream.

(** The inner [async] block: from the raw file to the tagged one. *)
Definition fetch_and_tag (meta : TrackMeta) (audio : AudioStreamSource) (raw_path final_path : str) (d : disk) :
    result RipError RipOutput * disk :=
  let source := as_source audio in
  let total := match as_content_length audio with Some n => if 0 <? n then Some n else None | None => None end in
  match ae_create_error env with
  | Some error => (Err (RLocalIo error), d)
  | None =>
      let d := put raw_path [] d in
      match download_loop source raw_path 0 0 (ae_events env) (mkDownload [] None None) d with
      | (LoopErr e, d) => (Err e, d)
      | (Downloaded dl, d) =>
          let received := Z.of_nat (length (dl_data dl)) in
          let short := match total with Some expected => negb (received =? expected) | None => false end in
          if short then
            let '(e, d) := source_failed source OnShort FailIncompleteBody (RIncompleteBody source (default 0 total) received) d in
            (Err e, d)
          else match ae_flush_error env with
               | Some error => (Err (RLocalIo error), d)
               | None =>
                   if ae_cancelled env AfterDownload then (Err RCancelled, d)
                   else
                     let lyrics := default (ae_lyrics env) (dl_lyrics dl) in
                     let cover := default (ae_artwork env) (dl_artwork dl) in
                     if ae_cancelled env BeforeTags then (Err RCancelled, d)
                     else match ae_finalize env (dl_data dl) (assemble_tags cover lyrics) with
                          | Ok tagged =>
                              (Ok (mkRipOutput final_path (title meta) (artist meta) (album meta) (artwork_url meta)
                                     (duration_secs meta) (as_bit_depth audio) (as_sample_rate audio) (as_codec audio)
                                     (default (lit "Unknown") (non_empty_list (genre meta))) (release_date meta)
                                     (default 1 (track_number meta)) (default 1 (track_count meta)) (non_empty_list (isrc meta))),
                               put final_path tagged d)
                          | Err media_error =>
                              let d := match ae_partial env with Some data => put final_path data d | None => d end in
                              match map_media_finalize_error media_error with
                              | RDecode src detail =>
                                  let error := RDecode (match src with None => Some source | s => s end) detail in
                                  let '(e, d) := source_failed source OnDecode FailMediaValidation error d in (Err e, d)
                              | error => (Err error, d)
                              end
                          end
               end
      end
  end.

(** The outer block, once the track's directory exists. *)
Definition rip_in (fuel : nat) (track_dir : str) (d : disk) : option (result RipError RipOutput * disk) :=
  match ae_meta env with
  | Err e => Some (Err e, d)
  | Ok meta =>
      if ae_cancelled env AfterMeta then Some (Err RCancelled, d)
      else match ae_stream env with
           | Err e => Some (Err (rip_of_stream e), d)
           | Ok audio =>
               raw_name ← sanitize_and_bound MAX_FILENAME_BYTES
                 (lit "stream_" ++ safe_track_id track_id ++ lit "_" ++ show_u (ae_unix_ms env) ++ lit "_" ++
                  show_u (ae_suffix env 1) ++ lit ".raw") (Some (lit ".raw"));
               let raw_path := join track_dir raw_name in
               base_name ← build_track_filename_with_codec meta (as_codec audio);
               reserved ← reserve fuel 2 base_name base_name d;
               match reserved with
               | (Err e, d) => Some (Err e, d)
               | (Ok final_path, d) =>
                   let '(res, d) := fetch_and_tag meta audio raw_path final_path d in
                   let d := drop raw_path d in
                   Some (res, match res with Ok _ => d | Err _ => drop final_path d end)
               end
           end
  end.

Definition rip_once (fuel : nat) (d : disk) : option (result RipError RipOutput * disk) :=
  if ae_cancelled env AtStart then Some (Err RCancelled, d)
  else match ae_target_error env with
       | Some error => Some (Err (RLocalIo error), d)
       | None =>
           let track_dir := join target_dir (lit ".track_" ++ show_u (ae_suffix env 0)) in
           match ae_track_dir_error env with
           | Some error => Some (Err (RLocalIo error), drop_dir track_dir d)
           | None =>
               '(res, d) ← rip_in fuel track_dir d;
               Some (res, drop_dir track_dir d)
           end
       end.
End Once.

(** ** Retries *)

(** The errors a second attempt cannot mend. *)
Definition final_error (e : RipError) : bool :=
  match e with
  | RCancelled | RTrackUnavailable _ | RRenditionUnavailable _ | RLocalIo _ | RSourceOffline _ => true
  | _ => false
  end.

(** What [rip] meets around the [n]-th attempt: the token before and after it, during the pause. *)
Record rip_env := mkRipEnv {
  re_attempt : nat -> attempt_env;
  re_cancelled_before : nat -> bool; re_cancelled_after : nat -> bool; re_cancelled_pause : nat -> bool;
}.

Section Rip.
Variables (env : rip_env) (track_id target_dir : str) (max_retries base_delay_ms : Z).

(** The [loop]; the pauses before the jitter are collected.  [left_] bounds the attempts. *)
Fixpoint rip_loop (fuel left_ : nat) (attempt : nat) (pauses : list Z) (d : disk) :
    option (result RipError RipOutput * list Z * disk) :=
  match left_ with
  | O => None
  | S left_ =>
      if re_cancelled_before env attempt then Some (Err RCancelled, pauses, d)
      else
        '(res, d) ← rip_once (re_attempt env attempt) track_id target_dir fuel d;
        match res with
        | Ok result => Some (Ok result, pauses, d)
        | Err err =>
            if final_error err then Some (Err err, pauses, d)
            else if re_cancelled_after env attempt then Some (Err RCancelled, pauses, d)
            else if max_retries <=? Z.of_nat attempt then Some (Err err, pauses, d)
            else
              let pauses := pauses ++ [exponential_delay base_delay_ms (Z.of_nat attempt)] in
              if re_cancelled_pause env attempt then Some (Err RCancelled, pauses, d)
              else rip_loop fuel left_ (S attempt) pauses d
        end
  end.

Definition rip (fuel : nat) (d : disk) : option (result RipError RipOutput * list Z * disk) :=
  rip_loop fuel (S (Z.to_nat max_retries)) 0 [] d.
End Rip.
