(* ===== verification/RipperFacts.v ===== *)
(** * RipperFacts: what ripping a track guarantees (the definitions are in Ripper.v)

    Files: an attempt leaves the disk as it was, but for the track's file when it succeeds, and never
    writes over a file that was there.  Retries: how many there are, after which errors, with which
    pauses. *)
From S2P Require Import Prelude Text Music Filename ZipPlan Retry Streaming Ripper.

(** ** Names *)

Lemma rfind_dot_last x e : Forall (fun c => c <> 46) e -> rfind_dot (x ++ 46 :: e) = Some (x, 46 :: e).
Proof.
  intros He. assert (Hn : rfind_dot e = None).
  { induction He as [|c e Hc _ IH]; cbn; [done|]. rewrite IH. by apply Z.eqb_neq in Hc as ->. }
  induction x as [|c x IH]; cbn; [by rewrite Hn|by rewrite IH].
Qed.

Lemma stem_ext_last x e : x <> [] -> Forall (fun c => c <> 46) e -> stem_ext (x ++ 46 :: e) = (x, 46 :: e).
Proof. intros Hx He. unfold stem_ext. rewrite rfind_dot_last by done. by destruct x. Qed.

Lemma suffix_ext e codec : exists s0 ext, track_filename_suffix e codec = s0 ++ 46 :: ext /\ s0 <> [] /\
  Forall (fun c => c <> 46) ext /\ byte_len ext <= 4.
Proof.
  assert (H : forall s, match rfind_dot s with
      | Some (_ :: _, x :: ext) => (x =? 46) && forallb (fun c => negb (c =? 46)) ext && (byte_len ext <=? 4)
      | _ => false
      end = true -> exists s0 ext, s = s0 ++ 46 :: ext /\ s0 <> [] /\ Forall (fun c => c <> 46) ext /\ byte_len ext <= 4).
  { intros s Hm. destruct (rfind_dot s) as [[[|c0 s0] [|x ext]]|] eqn:Er; try done. apply rfind_dot_Some in Er as [-> _].
    apply andb_prop in Hm as [[Hx Hall]%andb_prop Hb]. apply Z.eqb_eq in Hx as ->. apply Z.leb_le in Hb.
    exists (c0 :: s0), ext. split_and!; [done|done| |done]. apply Forall_forall. intros c Hc.
    rewrite List.forallb_forall in Hall. apply list_elem_of_In, Hall, negb_true_iff, Z.eqb_neq in Hc. done. }
  unfold track_filename_suffix. repeat case_match; simplify_eq; apply H; by vm_compute.
Qed.

Lemma collision_name base stem ext n name : stem_ext base = (stem, ext) -> byte_len ext <= 200 -> in_u 64 n ->
  with_collision_id MAX_FILENAME_BYTES base (show_u n) = Some name -> exists p, name = p ++ 95 :: show_u n ++ ext.
Proof.
  intros Hs Hb Hn. unfold with_collision_id. rewrite Hs.
  rewrite sanitize_id by (apply digits_allowed, show_u_digits, Hn).
  pose proof (show_u_byte_len n ltac:(apply Hn)) as Hl.
  destruct (Z.leb_spec MAX_FILENAME_BYTES (byte_len ([95] ++ show_u n ++ ext))) as [Hge|_].
  { exfalso. rewrite !byte_len_app in Hge. change (byte_len [95]) with 1 in Hge. unfold MAX_FILENAME_BYTES in Hge. lia. }
  destruct (bound_utf8_prefix _ _) as [p|]; [|done]. intros [= <-]. by exists p.
Qed.

Lemma show_u_inj a b : in_u 64 a -> in_u 64 b -> show_u a = show_u b -> a = b.
Proof. intros Ha Hb E. apply parse_show_u in Ha, Hb. rewrite E in Ha. congruence. Qed.

Lemma collision_inj base stem ext a b name : stem_ext base = (stem, ext) -> byte_len ext <= 200 ->
  in_u 64 a -> in_u 64 b ->
  with_collision_id MAX_FILENAME_BYTES base (show_u a) = Some name ->
  with_collision_id MAX_FILENAME_BYTES base (show_u b) = Some name -> a = b.
Proof.
  intros Hs Hl Ha Hb H1 H2. apply (collision_name _ _ _ _ _ Hs Hl Ha) in H1 as [p E1].
  apply (collision_name _ _ _ _ _ Hs Hl Hb) in H2 as [q E2]. rewrite E1 in E2.
  rewrite !app_comm_cons, !app_assoc in E2. apply app_inv_tail in E2.
  apply digits_tail_inj in E2; [by apply show_u_inj|done|apply show_u_digits, Ha|apply show_u_digits, Hb].
Qed.

(** ** Reserving the output file *)

(** The counter does not hand out a number twice within [bound] calls. *)
Definition fresh_suffixes (bound : nat) (env : attempt_env) : Prop :=
  (forall k, (k < bound)%nat -> in_u 64 (ae_suffix env k)) /\
  (forall i j, (i < bound)%nat -> (j < bound)%nat -> ae_suffix env i = ae_suffix env j -> i = j).

Section Reserve.
Variables (env : attempt_env) (target_dir : str) (bound : nat).
Hypothesis Hsuf : fresh_suffixes bound env.

Definition candidate (base : str) (k : nat) : option str := with_collision_id MAX_FILENAME_BYTES base (show_u (ae_suffix env k)).

Lemma join_inj dir a b : join dir a = join dir b -> a = b.
Proof. unfold join. intros H%app_inv_head. by apply app_inv_head in H. Qed.

Definition reserve_ok (d : disk) (res : result RipError str * disk) : Prop :=
  match res with
  | (Ok path, d') => files d !! path = None /\ d' = put path [] d /\
      exists name, path = join target_dir name /\ valid_name MAX_FILENAME_BYTES name
  | (Err e, d') => d' = d /\ exists m, e = RLocalIo m
  end.

(** [seen] are the collisions tried so far, all of them taken. *)
Lemma reserve_total base d stem ext : stem_ext base = (stem, ext) -> byte_len ext <= 200 -> valid_name MAX_FILENAME_BYTES base ->
  forall fuel k name (seen : list str),
  NoDup seen -> (forall p, p ∈ seen -> is_Some (files d !! p)) ->
  (exists j, S j = k /\ candidate base j = Some name) -> valid_name MAX_FILENAME_BYTES name ->
  (forall p, p ∈ seen -> exists j n, (S j < k)%nat /\ candidate base j = Some n /\ p = join target_dir n) ->
  (size (files d) < fuel + length seen)%nat -> (k + fuel <= bound)%nat ->
  exists res, reserve env target_dir fuel k base name d = Some res /\ reserve_ok d res.
Proof.
  intros Hext Hlen Hbase. induction fuel as [|fuel IH]; intros k name seen Hnd Htaken (j & <- & Hj) Hname Hseen Hsize Hbound.
  - exfalso. assert (Hsub : (length seen <= size (files d))%nat); [|lia].
    rewrite <-size_dom, <-(size_list_to_set (C := gset str) seen) by done. apply subseteq_size. intros p Hp%elem_of_list_to_set.
    by apply elem_of_dom, Htaken.
  - cbn [reserve]. destruct (files d !! join target_dir name) as [data|] eqn:Ef.
    + destruct (with_collision_id_valid MAX_FILENAME_BYTES base (show_u (ae_suffix env (S j))) ltac:(done) Hbase) as (n & Hn & Hv & _).
      rewrite Hn. change (Some n ≫= ?f) with (f n). apply (IH _ _ (join target_dir name :: seen)).
      * apply NoDup_cons. split; [|done]. intros Hin. apply Hseen in Hin as (i & m & Hi & Hm & Hp). apply join_inj in Hp as <-.
        pose proof (collision_inj _ _ _ _ _ _ Hext Hlen (proj1 Hsuf j ltac:(lia)) (proj1 Hsuf i ltac:(lia)) Hj Hm) as E.
        apply (proj2 Hsuf) in E; lia.
      * intros p [->|Hp]%elem_of_cons; [by eexists|by apply Htaken].
      * by exists (S j).
      * done.
      * intros p [->|Hp]%elem_of_cons; [by exists j, name; split_and!; [lia|..]|].
        apply Hseen in Hp as (i & m & ? & ? & ?). exists i, m. split_and!; [lia|done..].
      * cbn [length]. lia.
      * lia.
    + destruct (ae_open_error env (join target_dir name)) as [e|].
      * eexists. split; [done|]. split; [done|by eexists].
      * eexists. split; [done|]. split; [done|]. split; [done|]. by exists name.
Qed.

Lemma reserve_spec base d fuel stem ext : stem_ext base = (stem, ext) -> byte_len ext <= 200 ->
  valid_name MAX_FILENAME_BYTES base -> (S (size (files d)) < fuel)%nat -> (2 + fuel <= bound)%nat ->
  exists res, reserve env target_dir fuel 2 base base d = Some res /\ reserve_ok d res.
Proof.
  intros Hext Hlen Hbase Hfuel Hbound. destruct fuel as [|fuel]; [lia|]. cbn [reserve].
  destruct (files d !! join target_dir base) as [data|] eqn:Ef.
  - destruct (with_collision_id_valid MAX_FILENAME_BYTES base (show_u (ae_suffix env 2)) ltac:(done) Hbase) as (n & Hn & Hv & _).
    rewrite Hn. change (Some n ≫= ?f) with (f n).
    apply (reserve_total base d stem ext Hext Hlen Hbase fuel 3 n []); try (by intros p Hp%elem_of_nil).
    + apply NoDup_nil_2.
    + by exists 2%nat.
    + done.
    + cbn [length]. lia.
    + lia.
  - destruct (ae_open_error env (join target_dir base)) as [e|].
    + eexists. split; [done|]. split; [done|by eexists].
    + eexists. split; [done|]. split; [done|]. split; [done|]. by exists base.
Qed.
End Reserve.

(** ** One attempt *)

(** The bytes of the chunks. *)
Definition body_bytes (events : list select_event) : list Z :=
  concat (omap (fun e => match e with Chunk data => Some data | _ => None end) events).

Section Attempt.
Variables (env : attempt_env) (track_id target_dir : str).

(** Only [raw] is written. *)
Definition only (ps : list str) (d d' : disk) : Prop := forall p, p ∉ ps -> files d' !! p = files d !! p.

Lemma only_refl ps d : only ps d d.
Proof. done. Qed.
Lemma only_trans ps d1 d2 d3 : only ps d1 d2 -> only ps d2 d3 -> only ps d1 d3.
Proof. intros H1 H2 p Hp. by rewrite H2, H1. Qed.
Lemma only_put ps p data d : p ∈ ps -> only ps d (put p data d).
Proof. intros Hp q Hq. cbn. rewrite lookup_insert_ne; [done|]. by intros ->. Qed.
Lemma only_failed ps look s kind e d d' : only ps d d' -> only ps d (snd (source_failed env s look kind e d')).
Proof. unfold source_failed. by destruct (ae_cancelled env look). Qed.

Lemma download_spec source raw events : forall k w dl d,
  let res := download_loop env source raw k w events dl d in
  only [raw] d (snd res) /\
  (forall dl', fst res = Downloaded dl' -> ae_end env = EndOfStream /\ dl_data dl' = dl_data dl ++ body_bytes events).
Proof.
  induction events as [|[l|a|data] events IH]; intros k w dl d; cbv zeta; cbn [download_loop];
    (destruct (ae_cancelled env (AtTurn k)); [by split|]).
  - destruct (ae_end env) eqn:Ee.
    + split; [done|]. intros dl' [= <-]. cbn. by rewrite app_nil_r.
    + pose proof (only_failed [raw] OnStall source FailStream (RStreamStalled source CHUNK_INACTIVITY_SECS) d d (only_refl _ _)) as H.
      destruct (source_failed env source OnStall _ _ _). by split.
    + pose proof (only_failed [raw] OnCorrupt source FailStream (RStreamCorrupt source detail) d d (only_refl _ _)) as H.
      destruct (source_failed env source OnCorrupt _ _ _). by split.
  - exact (IH (S k) w (mkDownload (dl_data dl) (Some l) (dl_artwork dl)) d).
  - exact (IH (S k) w (mkDownload (dl_data dl) (dl_lyrics dl) (Some a)) d).
  - destruct (ae_write_error env w); [by split|].
    destruct (IH (S k) (S w) (mkDownload (dl_data dl ++ data) (dl_lyrics dl) (dl_artwork dl)) (put raw (dl_data dl ++ data) d)) as [H1 H2].
    split; [eapply only_trans; [apply only_put; left|exact H1]|]. intros dl' Hd. destruct (H2 dl' Hd) as [? E]. split; [done|].
    rewrite E. cbn [dl_data]. by rewrite <-app_assoc.
Qed.

(** What a finished download was: all of the body, as long as announced, and what the tagger made of it. *)
Definition tagged_from (audio : AudioStreamSource) (tagged : list Z) : Prop :=
  let data := body_bytes (ae_events env) in
  ae_end env = EndOfStream /\
  (forall n, as_content_length audio = Some n -> 0 < n -> Z.of_nat (length data) = n) /\
  exists extra, ae_finalize env data extra = Ok tagged.

Lemma tag_spec meta audio raw final d : raw <> final ->
  let res := fetch_and_tag env meta audio raw final d in
  only [raw; final] d (snd res) /\
  (forall out, fst res = Ok out -> ro_file_path out = final /\
    exists tagged, files (snd res) !! final = Some tagged /\ tagged_from audio tagged).
Proof.
  intros Hne. cbv zeta. unfold fetch_and_tag. set (total := match as_content_length audio with Some _ => _ | None => _ end).
  destruct (ae_create_error env); [by split|].
  pose proof (download_spec (as_source audio) raw (ae_events env) 0 0 (mkDownload [] None None) (put raw [] d)) as [Ho Hd].
  destruct (download_loop _ _ _ _ _ _ _ _) as [[dl|e] d1]; cbn [fst snd] in Ho, Hd.
  2: { split; [|done]. eapply only_trans; [apply (only_put _ raw []); left|]. intros p Hp. apply Ho. set_solver. }
  destruct (Hd dl eq_refl) as [Hend Hdata]. cbn [dl_data app] in Hdata.
  assert (Ho1 : only [raw; final] d d1).
  { eapply only_trans; [apply (only_put _ raw []); left|]. intros p Hp. apply Ho. set_solver. }
  destruct (match total with Some expected => negb _ | None => false end) eqn:Eshort.
  { pose proof (only_failed [raw; final] OnShort (as_source audio) FailIncompleteBody
      (RIncompleteBody (as_source audio) (default 0 total) (Z.of_nat (length (dl_data dl)))) d d1 Ho1) as H.
    destruct (source_failed env _ OnShort _ _ _). by split. }
  destruct (ae_flush_error env); [by split|]. destruct (ae_cancelled env AfterDownload); [by split|].
  destruct (ae_cancelled env BeforeTags); [by split|].
  set (extra := assemble_tags _ _). destruct (ae_finalize env (dl_data dl) extra) as [tagged|me] eqn:Efin.
  - split; [eapply only_trans; [exact Ho1|]; apply only_put; right; left|]. intros out [= <-]. split; [done|].
    exists tagged. cbn. rewrite lookup_insert_eq. split; [done|]. rewrite Hdata in *. split; [done|]. split; [|by exists extra].
    intros n Hn Hpos. unfold total in Eshort. rewrite Hn, (proj2 (Z.ltb_lt 0 n)) in Eshort by done.
    by apply negb_false_iff, Z.eqb_eq in Eshort.
  - set (d2 := match ae_partial env with Some _ => _ | None => _ end).
    assert (Ho2 : only [raw; final] d d2).
    { unfold d2. destruct (ae_partial env); [|done]. eapply only_trans; [exact Ho1|]. apply only_put. right. left. }
    destruct (map_media_finalize_error me) as [| | | | | | | | | | | | |src detail|]; try (by split).
    pose proof (only_failed [raw; final] OnDecode (as_source audio) FailMediaValidation
      (RDecode (match src with None => Some (as_source audio) | s => s end) detail) d d2 Ho2) as H.
    destruct (source_failed env _ OnDecode _ _ _). by split.
Qed.

Definition track_dir : str := join target_dir (lit ".track_" ++ show_u (ae_suffix env 0)).
Definition under (dir p : str) : Prop := strip_prefix (dir ++ lit "/") p <> None.

Lemma under_join dir name : under dir (join dir name).
Proof.
  unfold under, join. intros H. assert (E : strip_prefix (dir ++ lit "/") (dir ++ lit "/" ++ name) = Some name).
  { apply strip_prefix_Some. by rewrite <-app_assoc. }
  congruence.
Qed.

Lemma final_not_under name : valid_name MAX_FILENAME_BYTES name -> ~ under track_dir (join target_dir name).
Proof.
  intros [_ _ _ _ Hc] Hu. unfold under in Hu. destruct (strip_prefix _ _) as [r|] eqn:E; [|done].
  apply strip_prefix_Some in E. unfold track_dir, join in E. rewrite <-!app_assoc in E. do 2 apply app_inv_head in E.
  rewrite E in Hc. rewrite app_assoc in Hc. apply Forall_app in Hc as [_ Hc].
  apply Forall_app in Hc as [Hc _]. apply Forall_inv in Hc. by vm_compute in Hc.
Qed.

Lemma drop_dir_lookup dir d p : files (drop_dir dir d) !! p = if decide (under dir p) then None else files d !! p.
Proof.
  cbn. destruct (decide (under dir p)) as [Hu|Hu].
  - apply map_lookup_filter_None. right. intros x _ H. by cbn in H.
  - unfold under in Hu. destruct (files d !! p) as [x|] eqn:E.
    + apply map_lookup_filter_Some. split; [done|]. cbn. by apply dec_stable.
    + apply map_lookup_filter_None. by left.
Qed.

(** What an attempt leaves. *)
Definition attempt_ok (d : disk) (res : result RipError RipOutput) (d' : disk) : Prop :=
  match res with
  | Err _ => files d' = files d
  | Ok out => files d !! ro_file_path out = None /\
      exists tagged audio, files d' = <[ro_file_path out := tagged]> (files d) /\
        ae_stream env = Ok audio /\ tagged_from audio tagged
  end.

Variable fuel : nat.
Hypothesis Hsuf : fresh_suffixes (2 + fuel) env.

Lemma rip_in_spec d : (S (size (files d)) < fuel)%nat ->
  exists res d', rip_in env track_id target_dir fuel track_dir d = Some (res, d') /\
    match res with
    | Err _ => forall p, ~ under track_dir p -> files d' !! p = files d !! p
    | Ok out => (exists name, ro_file_path out = join target_dir name /\ valid_name MAX_FILENAME_BYTES name) /\
        files d !! ro_file_path out = None /\
        exists tagged audio, (forall p, ~ under track_dir p -> files d' !! p = (<[ro_file_path out := tagged]> (files d)) !! p) /\
          ae_stream env = Ok audio /\ tagged_from audio tagged
    end.
Proof.
  intros Hfuel. unfold rip_in. destruct (ae_meta env) as [meta|e]; [|by do 2 eexists].
  destruct (ae_cancelled env AfterMeta); [by do 2 eexists|].
  destruct (ae_stream env) as [audio|e] eqn:Es; [|by do 2 eexists].
  destruct (sanitize_and_bound_ok MAX_FILENAME_BYTES (lit "stream_" ++ safe_track_id track_id ++ lit "_" ++
    show_u (ae_unix_ms env) ++ lit "_" ++ show_u (ae_suffix env 1) ++ lit ".raw") (Some (lit ".raw")) ltac:(done)) as (raw_name & Hraw & _).
  rewrite Hraw. change (Some raw_name ≫= ?f) with (f raw_name). cbv beta.
  destruct (build_track_filename_valid meta (as_codec audio)) as (base & p & Hb & Hv & Hp).
  rewrite Hb. change (Some base ≫= ?f) with (f base). cbv beta.
  destruct (suffix_ext (explicit meta) (as_codec audio)) as (s0 & ext & Esfx & Hs0 & Hdots & Hlen).
  assert (Hext : stem_ext base = (p ++ s0, 46 :: ext)).
  { rewrite Hp, Esfx, app_assoc. apply stem_ext_last; [|done]. destruct p; [by destruct s0|done]. }
  destruct (reserve_spec env target_dir (2 + fuel) Hsuf base d fuel _ _ Hext ltac:(rewrite byte_len_cons; change (len_utf8 46) with 1; lia) Hv Hfuel ltac:(done))
    as ([r d1] & Hres & Hok).
  rewrite Hres. change (Some (r, d1) ≫= ?f) with (f (r, d1)). cbv beta iota.
  destruct r as [final|e]; cbn [reserve_ok] in Hok; [|by destruct Hok as [-> _]; do 2 eexists].
  destruct Hok as (Hfree & -> & name & -> & Hname). set (final := join target_dir name) in *. set (raw := join track_dir raw_name).
  assert (Hnu : ~ under track_dir final) by (by apply final_not_under).
  assert (Hru : under track_dir raw) by apply under_join.
  assert (Hne : raw <> final) by (intros E; apply Hnu; by rewrite <-E).
  destruct (tag_spec meta audio raw final (put final [] d) Hne) as [Ho Ht].
  destruct (fetch_and_tag env meta audio raw final (put final [] d)) as [res d2]. cbn [fst snd] in Ho, Ht.
  assert (Hother : forall q, q <> raw -> q <> final -> files d2 !! q = files d !! q).
  { intros q H1 H2. rewrite (Ho q) by (rewrite !elem_of_cons, elem_of_nil; tauto). cbn. by rewrite lookup_insert_ne by congruence. }
  do 2 eexists. split; [done|]. destruct res as [out|e].
  - destruct (Ht out eq_refl) as (Epath & tagged & Htag & Hfrom). rewrite Epath. split; [by exists name|]. split; [done|].
    exists tagged, audio. split; [|done]. intros q Hq. assert (Hqr : q <> raw) by (by intros ->). cbn. rewrite lookup_delete_ne by congruence.
    destruct (decide (q = final)) as [->|Hqf]; [by rewrite lookup_insert_eq|].
    rewrite lookup_insert_ne by congruence. apply Hother; congruence.
  - intros q Hq. assert (Hqr : q <> raw) by (by intros ->). cbn.
    destruct (decide (q = final)) as [->|Hqf]; [by rewrite lookup_delete_eq|].
    rewrite !lookup_delete_ne by congruence. apply Hother; congruence.
Qed.

Lemma once_spec d : (S (size (files d)) < fuel)%nat -> (forall p, under track_dir p -> files d !! p = None) ->
  exists res d', rip_once env track_id target_dir fuel d = Some (res, d') /\ attempt_ok d res d'.
Proof.
  intros Hfuel Hfresh. unfold rip_once. destruct (ae_cancelled env AtStart); [by do 2 eexists|].
  destruct (ae_target_error env); [by do 2 eexists|]. fold track_dir.
  assert (Hdrop : forall d' m, (forall p, ~ under track_dir p -> files d' !! p = m !! p) -> (forall p, under track_dir p -> m !! p = None) ->
    files (drop_dir track_dir d') = m).
  { intros d' m H1 H2. apply map_eq. intros p. rewrite drop_dir_lookup. destruct (decide (under track_dir p)); [by rewrite H2|by apply H1]. }
  destruct (ae_track_dir_error env); [do 2 eexists; split; [done|]; by apply Hdrop|].
  destruct (rip_in_spec d Hfuel) as (res & d1 & -> & H). change (Some (res, d1) ≫= ?f) with (f (res, d1)). cbv beta iota.
  do 2 eexists. split; [done|]. destruct res as [out|e]; cbn [attempt_ok]; [|by apply Hdrop].
  destruct H as ((name & Epath & Hname) & Hfree & tagged & audio & Hf & Hs & Ht). split; [done|]. exists tagged, audio.
  split; [|done]. apply Hdrop; [done|]. intros p Hu. rewrite lookup_insert_ne; [by apply Hfresh|].
  intros <-. rewrite Epath in Hu. by apply final_not_under in Hu.
Qed.
End Attempt.

(** ** Retries *)

Section Retries.
Variables (env : rip_env) (track_id target_dir : str) (max_retries base_delay_ms : Z) (fuel : nat).
Hypothesis Hsuf : forall n, fresh_suffixes (2 + fuel) (re_attempt env n).

(** No file lies where the attempts make their directories. *)
Definition room_for (d : disk) : Prop := forall n p, under (track_dir (re_attempt env n) target_dir) p -> files d !! p = None.

Definition delays (n : nat) : list Z := (fun i => exponential_delay base_delay_ms (Z.of_nat i)) <$> seq 0 n.

Definition rip_ok (d : disk) (attempt : nat) (res : result RipError RipOutput) (pauses : list Z) (d' : disk) : Prop :=
  pauses = delays (length pauses) /\ Z.of_nat (length pauses) <= max_retries /\
  match res with
  | Ok out => exists n, (attempt <= n)%nat /\ Z.of_nat n <= max_retries /\ attempt_ok (re_attempt env n) d res d'
  | Err e => files d' = files d /\ (final_error e = true \/ Z.of_nat (length pauses) = max_retries)
  end.

Lemma delays_S n : delays (S n) = delays n ++ [exponential_delay base_delay_ms (Z.of_nat n)].
Proof. unfold delays. rewrite seq_S, fmap_app. done. Qed.

Lemma attempt_ok_files e d1 d2 res d' : files d1 = files d2 -> attempt_ok e d1 res d' -> attempt_ok e d2 res d'.
Proof. intros E. unfold attempt_ok. by rewrite E. Qed.

Lemma rip_loop_spec left_ : forall attempt d, 0 <= max_retries -> Z.of_nat attempt <= max_retries ->
  max_retries < Z.of_nat attempt + Z.of_nat left_ -> room_for d -> (S (size (files d)) < fuel)%nat ->
  exists res pauses d', rip_loop env track_id target_dir max_retries base_delay_ms fuel left_ attempt (delays attempt) d =
    Some (res, pauses, d') /\ rip_ok d attempt res pauses d'.
Proof.
  induction left_ as [|left_ IH]; intros attempt d Hm Ha Hl Hroom Hfuel; [lia|]. cbn [rip_loop].
  assert (Hlen : length (delays attempt) = attempt) by (unfold delays; by rewrite length_fmap, length_seq).
  assert (Hstop : forall e d', files d' = files d -> final_error e = true \/ Z.of_nat attempt = max_retries ->
    rip_ok d attempt (Err e) (delays attempt) d').
  { intros e d' E H. unfold rip_ok. rewrite Hlen. split_and!; [done|lia|done|done]. }
  destruct (re_cancelled_before env attempt); [do 3 eexists; split; [done|]; apply Hstop; [done|by left]|].
  destruct (once_spec (re_attempt env attempt) track_id target_dir fuel (Hsuf attempt) d Hfuel (Hroom attempt)) as (res & d1 & -> & Hok).
  change (Some (res, d1) ≫= ?f) with (f (res, d1)). cbv beta iota.
  destruct res as [out|err].
  { do 3 eexists. split; [done|]. unfold rip_ok. rewrite Hlen. split_and!; [done|lia|]. exists attempt. by split_and!. }
  cbn [attempt_ok] in Hok.
  destruct (final_error err) eqn:Ef; [do 3 eexists; split; [done|]; apply Hstop; [done|by left]|].
  destruct (re_cancelled_after env attempt); [do 3 eexists; split; [done|]; apply Hstop; [done|by left]|].
  destruct (Z.leb_spec max_retries (Z.of_nat attempt)); [do 3 eexists; split; [done|]; apply Hstop; [done|right; lia]|].
  rewrite <-delays_S. destruct (re_cancelled_pause env attempt).
  { do 3 eexists. split; [done|]. unfold rip_ok, delays. rewrite length_fmap, length_seq. split_and!; [done|lia|done|by left]. }
  destruct (IH (S attempt) d1) as (res & pauses & d' & -> & Hp & Hmax & Hres); [lia..|intros n p; rewrite Hok; apply Hroom|by rewrite Hok|].
  do 3 eexists. split; [done|]. split; [done|]. split; [done|]. destruct res as [out|e].
  - destruct Hres as (n & Hn & Hnm & Hok'). exists n. split_and!; [lia|done|]. by eapply attempt_ok_files.
  - by rewrite <-Hok.
Qed.
End Retries.

(** ** Failures reported *)

Section Reports.
Variables (env : attempt_env) (audio : AudioStreamSource).

(** Nothing is reported, or the error returned is. *)
Definition reports (d d' : disk) (res : result RipError RipOutput) : Prop := observed d' = observed d \/
  exists kind e, res = Err e /\ e <> RCancelled /\ observed d' = observed d ++ [(as_source audio, kind, rip_error_display e)].

Lemma failed_reports look kind e d : e <> RCancelled ->
  reports d (snd (source_failed env (as_source audio) look kind e d)) (Err (fst (source_failed env (as_source audio) look kind e d))).
Proof. intros He. unfold source_failed. destruct (ae_cancelled env look); [by left|right; by eexists _, _]. Qed.

Lemma reports_from d1 d2 d' res : observed d1 = observed d2 -> reports d1 d' res -> reports d2 d' res.
Proof. intros E. unfold reports. by rewrite E. Qed.

Lemma loop_reports raw events : forall k w dl d,
  let res := download_loop env (as_source audio) raw k w events dl d in
  match fst res with LoopErr e => reports d (snd res) (Err e) | Downloaded _ => observed (snd res) = observed d end.
Proof.
  induction events as [|[l|a|data] events IH]; intros k w dl d; cbv zeta; cbn [download_loop];
    (destruct (ae_cancelled env (AtTurn k)); [by left|]).
  - destruct (ae_end env) as [| |detail]; [done| |].
    + pose proof (failed_reports OnStall FailStream (RStreamStalled (as_source audio) CHUNK_INACTIVITY_SECS) d ltac:(done)) as H.
      by destruct (source_failed env _ OnStall _ _ _).
    + pose proof (failed_reports OnCorrupt FailStream (RStreamCorrupt (as_source audio) detail) d ltac:(done)) as H.
      by destruct (source_failed env _ OnCorrupt _ _ _).
  - exact (IH (S k) w (mkDownload (dl_data dl) (Some l) (dl_artwork dl)) d).
  - exact (IH (S k) w (mkDownload (dl_data dl) (dl_lyrics dl) (Some a)) d).
  - destruct (ae_write_error env w); [by left|].
    exact (IH (S k) (S w) (mkDownload (dl_data dl ++ data) (dl_lyrics dl) (dl_artwork dl)) (put raw (dl_data dl ++ data) d)).
Qed.

Lemma tag_reports meta raw final d :
  reports d (snd (fetch_and_tag env meta audio raw final d)) (fst (fetch_and_tag env meta audio raw final d)).
Proof.
  unfold fetch_and_tag. set (total := match as_content_length audio with Some _ => _ | None => _ end).
  destruct (ae_create_error env); [by left|].
  pose proof (loop_reports raw (ae_events env) 0 0 (mkDownload [] None None) (put raw [] d)) as Hl. cbv zeta in Hl.
  destruct (download_loop _ _ _ _ _ _ _ _) as [[dl|e] d1]; [|exact Hl]. change (observed d1 = observed d) in Hl.
  destruct (match total with Some expected => negb _ | None => false end).
  { pose proof (failed_reports OnShort FailIncompleteBody
      (RIncompleteBody (as_source audio) (default 0 total) (Z.of_nat (length (dl_data dl)))) d1 ltac:(done)) as H.
    destruct (source_failed env _ OnShort _ _ _). by eapply reports_from. }
  destruct (ae_flush_error env); [by left|]. destruct (ae_cancelled env AfterDownload); [by left|].
  destruct (ae_cancelled env BeforeTags); [by left|].
  destruct (ae_finalize env _ _) as [tagged|me]; [by left|].
  set (d2 := match ae_partial env with Some _ => _ | None => _ end).
  assert (Ho : observed d2 = observed d) by (unfold d2; by destruct (ae_partial env)).
  destruct (map_media_finalize_error me) as [| | | | | | | | | | | | |src detail|]; try (by left).
  pose proof (failed_reports OnDecode FailMediaValidation
    (RDecode (match src with None => Some (as_source audio) | s => s end) detail) d2 ltac:(done)) as H.
  destruct (source_failed env _ OnDecode _ _ _). by eapply reports_from.
Qed.
End Reports.

Lemma reserve_observed env target fuel : forall k base name d res d',
  reserve env target fuel k base name d = Some (res, d') -> observed d' = observed d.
Proof.
  induction fuel as [|f IH]; intros k base name d res d'; cbn [reserve]; [done|].
  destruct (files d !! _).
  - destruct (with_collision_id _ _ _); [apply IH|done].
  - by destruct (ae_open_error _ _); intros [= _ <-].
Qed.

(** ** Properties *)



(** An attempt reports at most one failure of its source: the error it returns, and never one that a
    cancellation has caused. *)
Theorem reported_failure_returned (env : attempt_env) (track_id target_dir : str) (fuel : nat) (d d' : disk)
    (res : result RipError RipOutput) :
  rip_once env track_id target_dir fuel d = Some (res, d') ->
  observed d' = observed d \/ exists audio, ae_stream env = Ok audio /\ reports audio d d' res.
Proof.
  intros Hrun. unfold rip_once in Hrun. destruct (ae_cancelled env AtStart); [simplify_eq; by left|].
  destruct (ae_target_error env); [simplify_eq; by left|]. destruct (ae_track_dir_error env); [simplify_eq; by left|].
  set (dir := join target_dir _) in Hrun.
  destruct (rip_in _ _ _ _ _ _) as [[r d1]|] eqn:Ein; [|done]. cbn in Hrun. simplify_eq.
  unfold rip_in in Ein. destruct (ae_meta env) as [meta|e]; [|simplify_eq; by left].
  destruct (ae_cancelled env AfterMeta); [simplify_eq; by left|].
  destruct (ae_stream env) as [audio|e] eqn:Es; [|simplify_eq; by left].
  destruct (sanitize_and_bound _ _ _) as [raw|]; [|done]. cbn [mbind option_bind] in Ein.
  destruct (build_track_filename_with_codec _ _) as [base|]; [|done]. cbn [mbind option_bind] in Ein.
  destruct (reserve _ _ _ _ _ _ _) as [[[final|e] d2]|] eqn:Er; [| |done]; cbn [mbind option_bind] in Ein;
    apply reserve_observed in Er; [|by simplify_eq; left].
  right. exists audio. split; [done|]. pose proof (tag_reports env audio meta (join dir raw) final d2) as H.
  destruct (fetch_and_tag _ _ _ _ _ _) as [r2 d3]. simplify_eq. cbn [fst snd] in H.
  unfold reports in *. rewrite <-Er. by destruct res.
Qed.

(** ** Witnesses *)

Definition demo_meta : TrackMeta :=
  mkTrackMeta (lit "1") (lit "Song") (lit "Band") (lit "Album") (lit "Band") None (lit "2020") None (Some 3) None None None
    200 false None [] None None None None None None None.

Definition demo_attempt (events : list select_event) (e : stream_end) : attempt_env :=
  mkAttempt (fun _ => false) None None (Ok demo_meta)
    (Ok (mkAudio [] PrimaryMirror (lit "alac") 24 96000 (Some 4))) 1700000000000 (fun k => Z.of_nat k mod 2 ^ 64)
    (fun _ => None) None events e (fun _ => None) None None None (fun data _ => Ok (0 :: data)) None.

Definition demo_disk : disk := mkDisk {[ lit "/out/03. Song - Band [ALAC].m4a" := [9] ]} [].

(** The first attempt stalls; the second gets the body in two chunks, the name being taken. *)
Definition demo_rip : rip_env :=
  mkRipEnv (fun n => match n with
                     | O => demo_attempt [Chunk [1]] Stalls
                     | _ => demo_attempt [Chunk [1; 2]; LyricsReady (Some (lit "la")); Chunk [3; 4]] EndOfStream
                     end) (fun _ => false) (fun _ => false) (fun _ => false).

Example demo_rip_run :
  match rip demo_rip (lit "1") (lit "/out") 3 2000 5 demo_disk with
  | Some (Ok out, pauses, d) => ro_file_path out = lit "/out/03. Song - Band [ALAC]_2.m4a" /\ pauses = [2000] /\
      files d !! ro_file_path out = Some [0; 1; 2; 3; 4] /\ size (files d) = 2%nat /\ length (observed d) = 1%nat
  | _ => False
  end.
Proof. by vm_compute. Qed.


Lemma reported_failure_returned_witness :
  let res := default (Err RCancelled, demo_disk) (rip_once (demo_attempt [Chunk [1]] Stalls) (lit "1") (lit "/out") 5 demo_disk) in
  observed (snd res) = observed demo_disk \/
  exists audio, ae_stream (demo_attempt [Chunk [1]] Stalls) = Ok audio /\ reports audio demo_disk (snd res) (fst res).
Proof.
  cbv zeta. apply (reported_failure_returned (demo_attempt [Chunk [1]] Stalls) (lit "1") (lit "/out") 5).
  by vm_compute.
Defined.
