(* ===== verification/MirrorPolicy.v ===== *)
(** * MirrorPolicy: which mirror is asked, and when (crates/apple/src/mirror_policy.rs,
      mirror_http.rs; crates/bot/src/mirror_health.rs)

    The manager keeps an endpoint for a while and, after a failure, answers with that failure for a
    cooldown instead of asking again.  Each critical section of its mutex is one atomic function of
    the state; [get_endpoint] releases the mutex around its two requests, so its calls interleave with
    each other and with the reports of the rips.  Instants and durations are nanoseconds, the two
    clock reads of one critical section are one.  Requests are met through their answers, the JSON
    decoder is a parameter. *)
From S2P Require Import Prelude Text Settings.

Record MirrorEndpoint := mkEndpoint { mirror_url : str; api_key : str }.

Inductive MirrorError : Type := MirrorMessage (message : str) | MirrorJson (message : str).

Definition mirror_error_display (e : MirrorError) : str := match e with MirrorMessage m | MirrorJson m => m end.

Inductive MirrorHttpError : Type :=
| MirrorTimeout (elapsed_ms : Z) | MirrorCancelled | MirrorStatus (status : Z) | MirrorNetwork (message : str).

Record CachedEndpoint := mkCachedEndpoint { kept : MirrorEndpoint; expires_at : Z }.
Record Failure := mkFailure { failed_at : Z; failed_with : str }.
Record PolicyState := mkPolicy { cached : option CachedEndpoint; last_failure : option Failure }.

(** The decoded answers; a JSON value inside is left as it is. *)
Record Manifest := mkManifest { m_source : option (option str); m_mirrors : option (option str); m_key : option str; m_api_key : option str }.
Record Status := mkStatus { wrapper_lossless_available : option bool; wrapper_instances : option (list str) }.

(** How the request of [ReqwestMirrorHttp::get] ends, and what it makes of it. *)
Inductive mirror_request : Type :=
| SendFailed (timeout : bool) (elapsed_ms : Z) (message : str)
| Responded (status : Z) (body : (bool * Z * str) + str)      (* the body's own failure, or the text *)
| CancelWins.

Definition mirror_get (cancelled : bool) (r : mirror_request) : result MirrorHttpError str :=
  let failure '(timeout, elapsed_ms, message) := if timeout : bool then MirrorTimeout elapsed_ms else MirrorNetwork message in
  if cancelled then Err MirrorCancelled
  else match r with
       | CancelWins => Err MirrorCancelled
       | SendFailed timeout elapsed_ms message => Err (failure (timeout, elapsed_ms, message))
       | Responded status body =>
           if negb ((200 <=? status) && (status <? 300)) then Err (MirrorStatus status)
           else match body with inl e => Err (failure e) | inr text => Ok text end
       end.

Definition NS_PER_MS : Z := 1000000.

Definition adapter_elapsed (e : MirrorHttpError) (started now : Z) : Z :=
  match e with MirrorTimeout elapsed_ms => elapsed_ms | _ => wrap 64 ((now - started) / NS_PER_MS) end.

Definition adapter_message (e : MirrorHttpError) : str :=
  match e with
  | MirrorTimeout _ => lit "request timed out"
  | MirrorCancelled => lit "request cancelled"
  | MirrorNetwork message => message
  | MirrorStatus status => lit "HTTP " ++ show_u status
  end.

Definition trim_slashes : str -> str := trim_end_by (Z.eqb 47).
Definition non_empty (o : option str) : option str := match o with Some [] => None | o => o end.

Section Policy.
Variables (env_override : option (str * str)) (failure_cooldown cache_ttl : Z).
Variables (parse_manifest : str -> result str Manifest) (parse_status : str -> option Status).

(** ** The critical sections *)

Definition clear_cache (s : PolicyState) : PolicyState := mkPolicy None None.

Definition is_circuit_open (now : Z) (s : PolicyState) : bool :=
  match last_failure s with Some f => now - failed_at f <? failure_cooldown | None => false end.

Definition record_failure (now : Z) (error : str) (s : PolicyState) : PolicyState :=
  mkPolicy (cached s) (Some (mkFailure now error)).

Definition record_success (s : PolicyState) : PolicyState := mkPolicy (cached s) None.

(** ** [get_endpoint], cut at its two requests *)

Definition overridden : option MirrorEndpoint :=
  match env_override with
  | Some (url, key) => if bool_decide (url = []) || bool_decide (key = []) then None else Some (mkEndpoint (trim_slashes url) key)
  | None => None
  end.

(** What is answered without a request. *)
Definition gate (force_refresh : bool) (now : Z) (s : PolicyState) : option (result MirrorError MirrorEndpoint) :=
  match overridden with
  | Some e => Some (Ok e)
  | None =>
      if force_refresh then None
      else match last_failure s with
           | Some f =>
               if now - failed_at f <? failure_cooldown then Some (Err (MirrorMessage (failed_with f)))
               else match cached s with Some c => if now <? expires_at c then Some (Ok (kept c)) else None | None => None end
           | None => match cached s with Some c => if now <? expires_at c then Some (Ok (kept c)) else None | None => None end
           end
  end.

(** Where a call stands: its request for the manifest, or the mirror's status, is on the way. *)
Inductive call : Type :=
| Fetching (started : Z)
| Checking (e : MirrorEndpoint) (started : Z)
| Ended (at_ : Z) (r : result MirrorError MirrorEndpoint).

Definition begin (force_refresh : bool) (now : Z) (s : PolicyState) : call :=
  match gate force_refresh now s with Some r => Ended now r | None => Fetching now end.

Definition fail_with (now : Z) (message : str) (s : PolicyState) : call * PolicyState :=
  (Ended now (Err (MirrorMessage message)), record_failure now message s).

Definition manifest_endpoint (m : Manifest) : MirrorEndpoint :=
  let source := match non_empty (mjoin (m_source m)) with Some u => Some u | None => non_empty (mjoin (m_mirrors m)) end in
  let key := match non_empty (m_key m) with Some k => Some k | None => m_api_key m end in
  mkEndpoint (trim_slashes (default [] source)) (trim (default [] key)).

Definition on_manifest (started now : Z) (answer : result MirrorHttpError str) (s : PolicyState) : call * PolicyState :=
  match answer with
  | Err (MirrorStatus status) => fail_with now (lit "Failed to fetch mirror manifest (HTTP " ++ show_u status ++ lit ")") s
  | Err error =>
      fail_with now (lit "Mirror manifest lookup timed out after " ++ show_u (adapter_elapsed error started now) ++ lit "ms: " ++
                     adapter_message error) s
  | Ok body =>
      match parse_manifest body with
      | Err error => (Ended now (Err (MirrorJson error)), s)
      | Ok manifest =>
          let e := manifest_endpoint manifest in
          if bool_decide (mirror_url e = []) || bool_decide (api_key e = [])
          then fail_with now (lit "Mirror manifest returned empty apple endpoint or api key") s
          else (Checking e now, s)
      end
  end.

Definition status_offline (st : Status) : bool :=
  bool_decide (wrapper_lossless_available st = Some false) || bool_decide (wrapper_instances st = Some []).

Definition on_status (e : MirrorEndpoint) (started now : Z) (answer : result MirrorHttpError str) (s : PolicyState) : call * PolicyState :=
  match answer with
  | Err (MirrorStatus status) => fail_with now (lit "Mirror /status check failed (HTTP " ++ show_u status ++ lit ")") s
  | Err error =>
      fail_with now (lit "Mirror /status check timed out after " ++ show_u (adapter_elapsed error started now) ++ lit "ms: " ++
                     adapter_message error) s
  | Ok body =>
      if status_offline (default (mkStatus None None) (parse_status body))
      then fail_with now (lit "Lossless wrapper is currently offline on mirror") s
      else (Ended now (Ok e), mkPolicy (Some (mkCachedEndpoint e (now + cache_ttl))) None)
  end.

(** ** The health probe of the bot *)

Inductive MirrorHealth : Type := Online | Unreachable | Unavailable | NotConfigured.

Definition health_label (h : MirrorHealth) : str :=
  match h with
  | Online => lit "Online" | Unreachable => lit "Unreachable" | Unavailable => lit "Unavailable"
  | NotConfigured => lit "Not configured"
  end.

Definition classify (r : result MirrorError MirrorEndpoint) : MirrorHealth :=
  match r with
  | Ok _ => Online
  | Err (MirrorMessage m) =>
      if contains (lit "not configured") m then NotConfigured
      else if contains (lit "timed out") m || contains (lit "HTTP") m || contains (lit "network") m then Unreachable
      else Unavailable
  | Err (MirrorJson _) => Unavailable
  end.

(** The end of [probe]: what it reports about its own call of [get_endpoint]. *)
Definition probe_report (now : Z) (r : result MirrorError MirrorEndpoint) (s : PolicyState) : PolicyState :=
  match r with Ok _ => record_success s | Err error => record_failure now (mirror_error_display error) s end.
End Policy.

Definition FRESH_WINDOW : Z := 30 * 1000 * NS_PER_MS.

(** [LastKnownHealth]: the last report and when it was recorded. *)
Record LastKnownHealth := mkHealth { health_report : option (MirrorHealth * Z); probed_at : option Z }.
Definition health_record (now : Z) (report : MirrorHealth * Z) (h : LastKnownHealth) : LastKnownHealth :=
  mkHealth (Some report) (Some now).
Definition is_fresh (now : Z) (h : LastKnownHealth) : bool :=
  match probed_at h with Some t => now - t <? FRESH_WINDOW | None => false end.

(** ** Interleaved calls *)

(** What has been reported to the policy, oldest first. *)
Inductive report : Type :=
| Failed (at_ : Z) (error : str) | Succeeded (at_ : Z) | Wiped (at_ : Z) | Vetted (e : MirrorEndpoint) (at_ : Z).

Record world := mkWorld { clock : Z; policy : PolicyState; calls : gmap nat call; history : list report }.

Definition fresh_world : world := mkWorld 0 (mkPolicy None None) ∅ [].

Inductive policy_action : Type :=
| Tick (d : Z) | Begin (id : nat) (force_refresh : bool) | Reply (id : nat) (answer : result MirrorHttpError str)
| ReportFailure (error : str) | ReportSuccess | ClearCache.

Section World.
Variables (env_override : option (str * str)) (failure_cooldown cache_ttl : Z).
Variables (parse_manifest : str -> result str Manifest) (parse_status : str -> option Status).

(** What the answer to a call's request reports. *)
Definition reported (now : Z) (c : call) : list report :=
  match c with
  | Ended _ (Ok e) => [Vetted e now]
  | Ended _ (Err (MirrorMessage m)) => [Failed now m]
  | _ => []
  end.

Definition settle (id : nat) (res : call * PolicyState) (w : world) : world :=
  mkWorld (clock w) (snd res) (<[id := fst res]> (calls w)) (history w ++ reported (clock w) (fst res)).

Definition policy_act (a : policy_action) (w : world) : option world :=
  let now := clock w in
  match a with
  | Tick d => if 0 <=? d then Some (mkWorld (now + d) (policy w) (calls w) (history w)) else None
  | Begin id force =>
      match calls w !! id with
      | None => Some (mkWorld now (policy w) (<[id := begin env_override failure_cooldown force now (policy w)]> (calls w)) (history w))
      | Some _ => None
      end
  | Reply id answer =>
      match calls w !! id with
      | Some (Fetching started) => Some (settle id (on_manifest parse_manifest started now answer (policy w)) w)
      | Some (Checking e started) => Some (settle id (on_status cache_ttl parse_status e started now answer (policy w)) w)
      | _ => None
      end
  | ReportFailure error => Some (mkWorld now (record_failure now error (policy w)) (calls w) (history w ++ [Failed now error]))
  | ReportSuccess => Some (mkWorld now (record_success (policy w)) (calls w) (history w ++ [Succeeded now]))
  | ClearCache => Some (mkWorld now (clear_cache (policy w)) (calls w) (history w ++ [Wiped now]))
  end.

Definition policy_step (w w' : world) : Prop := exists a, policy_act a w = Some w'.
Definition policy_reachable (w : world) : Prop := steps policy_step fresh_world w.

(** ** Invariants *)

Definition usable (e : MirrorEndpoint) : Prop :=
  mirror_url e <> [] /\ last (mirror_url e) <> Some 47 /\ api_key e <> [].

(** [e] was vetted at most [cache_ttl] before [t]. *)
Definition vetted (h : list report) (t : Z) (e : MirrorEndpoint) : Prop :=
  usable e /\ exists t0, Vetted e t0 ∈ h /\ t0 <= t < t0 + cache_ttl.

Definition last_report_failure (h : list report) : option Failure :=
  match last h with Some (Failed t m) => Some (mkFailure t m) | _ => None end.

Definition call_ok (w : world) (c : call) : Prop :=
  match c with
  | Fetching _ => True
  | Checking e _ => usable e
  | Ended t (Ok e) => overridden env_override = Some e \/ vetted (history w) t e
  | Ended _ (Err _) => True
  end.

Definition policy_inv (w : world) : Prop :=
  last_failure (policy w) = last_report_failure (history w) /\
  (forall c, cached (policy w) = Some c -> usable (kept c) /\ Vetted (kept c) (expires_at c - cache_ttl) ∈ history w /\
    expires_at c - cache_ttl <= clock w) /\
  (forall id c, calls w !! id = Some c -> call_ok w c).

Lemma trim_slashes_last u : trim_slashes u <> [] -> last (trim_slashes u) <> Some 47.
Proof. intros H E. by pose proof (trim_end_by_last (Z.eqb 47) u 47 H E). Qed.

Lemma call_ok_mono w w' c : (forall r, r ∈ history w -> r ∈ history w') -> call_ok w c -> call_ok w' c.
Proof.
  intros Hh. destruct c as [?|e ?|t [e|?]]; cbn; try done. intros [?|(Hu & t0 & Hv & Ht)]; [by left|].
  right. split; [done|]. eauto.
Qed.

Lemma last_report_snoc h r : last_report_failure (h ++ [r]) = match r with Failed t m => Some (mkFailure t m) | _ => None end.
Proof. unfold last_report_failure. by rewrite last_snoc. Qed.

(** The invariant when calls and history only grow. *)
Lemma policy_inv_extend (w w' : world) :
  policy_inv w -> (forall r, r ∈ history w -> r ∈ history w') -> clock w <= clock w' ->
  last_failure (policy w') = last_report_failure (history w') ->
  (forall c, cached (policy w') = Some c -> cached (policy w) = Some c \/
    usable (kept c) /\ Vetted (kept c) (expires_at c - cache_ttl) ∈ history w' /\ expires_at c - cache_ttl <= clock w') ->
  (forall id c, calls w' !! id = Some c -> calls w !! id = Some c \/ call_ok w' c) ->
  policy_inv w'.
Proof.
  intros (H1 & H2 & H3) Hh Hc Hf Hk Hcalls. split_and!; [done| |].
  - intros c Hcc. destruct (Hk c Hcc) as [Hold|Hnew]; [|done]. destruct (H2 c Hold) as (Hu & Hv & Ht). split_and!; [done|by apply Hh|lia].
  - intros id c Hid. destruct (Hcalls id c Hid) as [Hold|Hnew]; [|done]. eapply call_ok_mono; [done|by eapply H3].
Qed.

Definition outcome_ok (w : world) (res : call * PolicyState) : Prop :=
  let w' := settle 0 res w in
  last_failure (snd res) = last_report_failure (history w') /\
  (forall c, cached (snd res) = Some c -> cached (policy w) = Some c \/
    usable (kept c) /\ Vetted (kept c) (expires_at c - cache_ttl) ∈ history w' /\ expires_at c - cache_ttl <= clock w) /\
  call_ok w' (fst res).

Lemma fail_ok w m : outcome_ok w (fail_with (clock w) m (policy w)).
Proof. unfold outcome_ok, fail_with. cbn. split_and!; [by rewrite last_report_snoc|by left|done]. Qed.

Lemma silent_ok w c : last_failure (policy w) = last_report_failure (history w) -> reported (clock w) c = [] ->
  (forall h, call_ok (mkWorld (clock w) (policy w) (<[0%nat:=c]> (calls w)) h) c) -> outcome_ok w (c, policy w).
Proof. intros H Hr Hc. unfold outcome_ok, settle. cbn. rewrite Hr, app_nil_r. split_and!; [done|by left|apply Hc]. Qed.

Lemma on_manifest_ok w started answer : last_failure (policy w) = last_report_failure (history w) ->
  outcome_ok w (on_manifest parse_manifest started (clock w) answer (policy w)).
Proof.
  intros H. unfold on_manifest. destruct answer as [body|[]]; try apply fail_ok.
  destruct (parse_manifest body) as [m|e]; [|by apply silent_ok].
  destruct (bool_decide_reflect (mirror_url (manifest_endpoint m) = [])) as [|Hu]; [apply fail_ok|].
  destruct (bool_decide_reflect (api_key (manifest_endpoint m) = [])) as [|Hk]; [apply fail_ok|].
  apply silent_ok; [done..|]. intros h. cbn [call_ok]. split_and!; [done| |done].
  by apply trim_slashes_last.
Qed.

Lemma on_status_ok w e started answer : 0 < cache_ttl -> usable e ->
  outcome_ok w (on_status cache_ttl parse_status e started (clock w) answer (policy w)).
Proof.
  intros Httl He. unfold on_status. destruct answer as [body|[]]; try apply fail_ok.
  destruct (status_offline _); [apply fail_ok|]. unfold outcome_ok, settle. cbn.
  split_and!; [by rewrite last_report_snoc| |].
  - intros c [= <-]. right. cbn. replace (clock w + cache_ttl - cache_ttl) with (clock w) by lia.
    split_and!; [done|set_solver|lia].
  - right. split; [done|]. exists (clock w). split; [set_solver|lia].
Qed.

Lemma settle_inv w id res : policy_inv w -> outcome_ok w res -> policy_inv (settle id res w).
Proof.
  intros Hi (Hf & Hk & Hc). apply (policy_inv_extend w); [done|set_solver|cbn; lia|exact Hf|exact Hk|].
  intros id' c. cbn. intros [[-> <-]|[Hne Hold]]%lookup_insert_Some; [right|by left].
  eapply call_ok_mono; [|exact Hc]. done.
Qed.

Lemma begin_ok w force : 0 < cache_ttl -> policy_inv w ->
  call_ok w (begin env_override failure_cooldown force (clock w) (policy w)).
Proof.
  intros Httl (_ & H2 & _). unfold begin, gate. destruct (overridden env_override) as [e|] eqn:Eo; [by left|].
  destruct force; [done|].
  assert (Hcache : call_ok w (match match cached (policy w) with
      Some c => if clock w <? expires_at c then Some (Ok (kept c)) else None | None => None end with
      Some r => Ended (clock w) r | None => Fetching (clock w) end)).
  { destruct (cached (policy w)) as [c|]; [|done]. destruct (Z.ltb_spec (clock w) (expires_at c)); [|done].
    right. destruct (H2 c eq_refl) as (Hu & Hv & Ht). split; [done|]. eexists. split; [exact Hv|lia]. }
  destruct (last_failure (policy w)) as [f|]; [|exact Hcache]. destruct (_ <? _); [done|exact Hcache].
Qed.

Lemma policy_act_inv a w w' : 0 < cache_ttl -> policy_inv w -> policy_act a w = Some w' -> policy_inv w'.
Proof.
  intros Httl Hi Ha. destruct a as [d|id force|id answer|error| |]; cbn in Ha.
  - destruct (Z.leb_spec 0 d); [|done]. injection Ha as <-.
    apply (policy_inv_extend w); cbn; try done; try lia; [apply Hi|by left|by left].
  - destruct (calls w !! id) eqn:E; [done|]. injection Ha as <-.
    apply (policy_inv_extend w); cbn; try done; try lia; [apply Hi|by left|].
    intros id' c [[-> <-]|[Hne Hold]]%lookup_insert_Some; [right|by left].
    eapply call_ok_mono; [|by apply begin_ok]. done.
  - destruct (calls w !! id) as [[started|e started|]|] eqn:E; [..|done|done]; injection Ha as <-; apply settle_inv; try done.
    + apply on_manifest_ok. apply Hi.
    + apply on_status_ok; [done|]. by apply (proj2 (proj2 Hi) id _ E).
  - injection Ha as <-. apply (policy_inv_extend w); cbn; [done|set_solver|lia|by rewrite last_report_snoc|by left|by left].
  - injection Ha as <-. apply (policy_inv_extend w); cbn; [done|set_solver|lia|by rewrite last_report_snoc|by left|by left].
  - injection Ha as <-. apply (policy_inv_extend w); cbn; [done|set_solver|lia|by rewrite last_report_snoc|done|by left].
Qed.

Lemma policy_reachable_inv w : 0 < cache_ttl -> policy_reachable w -> policy_inv w.
Proof.
  intros Httl H. apply (steps_invariant policy_step policy_inv) with fresh_world; [|exact H|].
  - intros s s' Hi [a Ha]. by eapply policy_act_inv.
  - split_and!; [done..|]. intros id c Hc. by apply (lookup_empty_Some id c) in Hc.
Qed.
End World.

(** ** Properties *)

(** Of the calls of [get_endpoint], interleaved with each other and with the reports: an endpoint that is
    answered is the configured one or was vetted by its mirror at most [cache_ttl] ago, with a usable
    address and key; the circuit is open exactly when the latest report is a failure less than the
    cooldown ago; and while it is open a call that does not force a refresh sends no request. *)
Theorem mirror_policy_sound (env_override : option (str * str)) (cooldown ttl : Z) (parse_m : str -> result str Manifest)
    (parse_s : str -> option Status) (w : world) :
  0 < ttl -> policy_reachable env_override cooldown ttl parse_m parse_s w ->
  (forall id t e, calls w !! id = Some (Ended t (Ok e)) ->
     overridden env_override = Some e \/ usable e /\ exists t0, Vetted e t0 ∈ history w /\ t0 <= t < t0 + ttl) /\
  (is_circuit_open cooldown (clock w) (policy w) = true <->
     exists t m, last (history w) = Some (Failed t m) /\ clock w - t < cooldown) /\
  (is_circuit_open cooldown (clock w) (policy w) = true -> overridden env_override = None ->
     exists m, begin env_override cooldown false (clock w) (policy w) = Ended (clock w) (Err (MirrorMessage m))).
Proof.
  intros Httl Hr. pose proof (policy_reachable_inv env_override cooldown ttl parse_m parse_s w Httl Hr) as (H1 & _ & H3).
  split_and!.
  - intros id t e Hid. exact (H3 id _ Hid).
  - unfold is_circuit_open. rewrite H1. unfold last_report_failure.
    destruct (last (history w)) as [[t m|t|t|e t]|]; cbn; split; try done; try (by intros (? & ? & ? & ?)).
    + intros H. to_prop. by exists t, m.
    + intros (t' & m' & [= <- <-] & Ht). by apply Z.ltb_lt.
  - unfold is_circuit_open, begin, gate. intros Ho ->. destruct (last_failure (policy w)) as [f|]; [|done]. rewrite Ho. by eexists.
Qed.

Fixpoint policy_run o cd ttl pm ps (l : list policy_action) (w : world) : option world :=
  match l with
  | [] => Some w
  | a :: l => w ← policy_act o cd ttl pm ps a w; policy_run o cd ttl pm ps l w
  end.

Lemma policy_run_steps o cd ttl pm ps l : forall w w',
  policy_run o cd ttl pm ps l w = Some w' -> steps (policy_step o cd ttl pm ps) w w'.
Proof.
  induction l as [|a l IH]; intros w w' H; cbn in H; [injection H as <-; constructor|].
  destruct (policy_act o cd ttl pm ps a w) as [w1|] eqn:E; [|done]. econstructor; [by exists a|by apply IH].
Qed.

Definition SECOND : Z := 1000 * NS_PER_MS.
Definition demo_manifest (_ : str) : result str Manifest :=
  Ok (mkManifest (Some (Some (lit "https://mirror/"))) None (Some (lit "key")) None).
Definition demo_status (_ : str) : option Status := None.
Definition demo_policy_run : list policy_action -> world -> option world :=
  policy_run None (30 * SECOND) (3600 * SECOND) demo_manifest demo_status.

(** A rip that is cancelled while it looks for the mirror opens the circuit for every other rip, though
    a cancellation is not a failure of the mirror. *)
Theorem cancelled_lookup_opens_circuit : exists w,
  policy_reachable None (30 * SECOND) (3600 * SECOND) demo_manifest demo_status w /\
  demo_policy_run [Begin 0 false; Reply 0 (Err MirrorCancelled); Tick (29 * SECOND); Begin 1 false] fresh_world = Some w /\
  is_circuit_open (30 * SECOND) (clock w) (policy w) = true /\
  calls w !! 1%nat = Some (Ended (29 * SECOND) (Err (MirrorMessage (lit "Mirror manifest lookup timed out after 0ms: request cancelled")))).
Proof.
  eexists. split; [|split; [by vm_compute|split; by vm_compute]].
  eapply policy_run_steps. instantiate (1 := [Begin 0 false; Reply 0 (Err MirrorCancelled); Tick (29 * SECOND); Begin 1 false]).
  by vm_compute.
Qed.

(** One health probe at [now]: its call of [get_endpoint], which ends at once when the circuit is open,
    and its report. *)
Definition probe_at cooldown (now : Z) (s : PolicyState) : PolicyState :=
  match begin None cooldown false now s with Ended t r => probe_report t r s | _ => s end.

Lemma probe_again cooldown t s : is_circuit_open cooldown t s = true ->
  exists f, last_failure (probe_at cooldown t s) = Some f /\ failed_at f = t.
Proof.
  unfold is_circuit_open, probe_at, begin, gate. cbn [overridden].
  destruct (last_failure s) as [f|]; [|done]. intros ->. cbn. by eexists.
Qed.

(** Probing an open circuit reports the stored failure as a new one: a probe in every cooldown keeps the
    circuit open for ever, and the mirror is never asked again. *)
Theorem probing_keeps_circuit_open (cooldown : Z) (gaps : list Z) (now : Z) (s : PolicyState) :
  0 < cooldown -> is_circuit_open cooldown now s = true -> Forall (fun d => 0 <= d < cooldown) gaps ->
  let '(t, s') := foldl (fun '(t, s) d => (t + d, probe_at cooldown (t + d) s)) (now, probe_at cooldown now s) gaps in
  is_circuit_open cooldown t s' = true /\ t = now + sumZ gaps.
Proof.
  intros Hc H Hg. apply probe_again in H. revert now s H.
  induction Hg as [|d gaps Hd Hg IH]; intros now s H; cbn [foldl sumZ foldr].
  - destruct H as (f & Hf & Ht). unfold is_circuit_open. rewrite Hf. split; [apply Z.ltb_lt|]; lia.
  - specialize (IH (now + d) (probe_at cooldown now s)).
    destruct (foldl _ _ gaps) as [t s']. destruct IH as [IH1 IH2]; [|split; [exact IH1|rewrite IH2; unfold sumZ; cbn; lia]].
    apply probe_again. destruct H as (f & Hf & Ht). unfold is_circuit_open. rewrite Hf. apply Z.ltb_lt. lia.
Qed.

Lemma mirror_policy_sound_witness :
  let w := mkWorld (5 * SECOND) (mkPolicy None (Some (mkFailure (5 * SECOND) (lit "bad")))) ∅ [Failed (5 * SECOND) (lit "bad")] in
  policy_reachable None (30 * SECOND) (3600 * SECOND) demo_manifest demo_status w /\
  exists m, begin None (30 * SECOND) false (clock w) (policy w) = Ended (clock w) (Err (MirrorMessage m)).
Proof.
  intros w. assert (Hr : policy_reachable None (30 * SECOND) (3600 * SECOND) demo_manifest demo_status w).
  { eapply policy_run_steps. instantiate (1 := [Tick (5 * SECOND); ReportFailure (lit "bad")]). by vm_compute. }
  split; [exact Hr|].
  eapply (mirror_policy_sound None (30 * SECOND) (3600 * SECOND) demo_manifest demo_status w); [done|exact Hr|by vm_compute|done].
Defined.
