(* ===== verification/Bytes.v ===== *)
(** * Bytes: big-endian fields in byte buffers

    What the box parsers of crates/apple and crates/media share: positions as 64-bit integers, slices
    whose bounds are checked when they are taken, fields of a fixed width, and the outcome of a function
    that may fail, panic on a bad slice, or keep going round a loop. *)
From S2P Require Import Prelude Text.

(** A buffer holds bytes, integers of [[0, 256)]; its length is a [usize]. *)
Definition len {A} (l : list A) : Z := Z.of_nat (length l).

(** ** Outcomes *)

(** [Spin] is a loop that has used up its fuel. *)
Inductive outcome (E A : Type) : Type :=
| Done (a : A)
| Fail (e : E)
| Panic
| Spin.
Arguments Done {E A} a.
Arguments Fail {E A} e.
Arguments Panic {E A}.
Arguments Spin {E A}.

#[global] Instance outcome_ret {E} : MRet (outcome E) := fun A a => Done a.

#[global] Instance outcome_bind {E} : MBind (outcome E) := fun A B f m =>
  match m with Done a => f a | Fail e => Fail e | Panic => Panic | Spin => Spin end.

(** A value that has to be there, as after [unwrap] or a slice expression. *)
Definition must {E A} (o : option A) : outcome E A :=
  match o with Some a => Done a | None => Panic end.

(** [ok_or_else(..)?]. *)
Definition or_fail {E A} (o : option A) (e : E) : outcome E A :=
  match o with Some a => Done a | None => Fail e end.

Ltac run_simpl := cbn [must or_fail mbind outcome_bind mret outcome_ret].

Definition finished {E A} (o : outcome E A) : bool :=
  match o with Done _ | Fail _ => true | _ => false end.

(** ** Slices *)

(** [data[a..b]], a panic where it is [None]. *)
Definition slice (data : list Z) (a b : Z) : option (list Z) :=
  if ((0 <=? a) && (a <=? b) && (b <=? len data))%bool
  then Some (take (Z.to_nat (b - a)) (drop (Z.to_nat a) data)) else None.

(** [data[a..a + new.len()].copy_from_slice(new)]. *)
Definition store (data : list Z) (a : Z) (new : list Z) : option (list Z) :=
  if ((0 <=? a) && (a + len new <=? len data))%bool
  then Some (take (Z.to_nat a) data ++ new ++ drop (Z.to_nat (a + len new)) data) else None.

(** [data.splice(a..b, new)], and [data.drain(a..b)] when there is nothing new. *)
Definition splice (data : list Z) (a b : Z) (new : list Z) : option (list Z) :=
  if ((0 <=? a) && (a <=? b) && (b <=? len data))%bool
  then Some (take (Z.to_nat a) data ++ new ++ drop (Z.to_nat b) data) else None.

Definition drain (data : list Z) (a b : Z) : option (list Z) := splice data a b [].

(** ** Big-endian integers *)

(** [uN::from_be_bytes] and [uN::to_be_bytes]; the latter writes the value modulo [256^n]. *)
Definition from_be (l : list Z) : Z := foldl (fun acc b => acc * 256 + b) 0 l.

Fixpoint to_be (n : nat) (v : Z) : list Z :=
  match n with
  | O => []
  | S k => to_be k (v / 256) ++ [v mod 256]
  end.

Definition is_byte (b : Z) : Prop := 0 <= b < 256.

(** ** Lengths and slices of concatenations *)

Section Lengths.
Context {A : Type}.
Implicit Types l : list A.

Lemma len_nonneg l : 0 <= len l.
Proof. unfold len. lia. Qed.

Lemma len_nil : len (@nil A) = 0.
Proof. reflexivity. Qed.

Lemma len_cons (a : A) l : len (a :: l) = 1 + len l.
Proof. unfold len. cbn [length]. lia. Qed.

Lemma len_app l1 l2 : len (l1 ++ l2) = len l1 + len l2.
Proof. unfold len. rewrite length_app. lia. Qed.

Lemma len_to_nat l : Z.to_nat (len l) = length l.
Proof. unfold len. lia. Qed.

Lemma len_take (n : Z) l : 0 <= n <= len l -> len (take (Z.to_nat n) l) = n.
Proof. unfold len. rewrite length_take. lia. Qed.

Lemma len_drop (n : Z) l : 0 <= n <= len l -> len (drop (Z.to_nat n) l) = len l - n.
Proof. unfold len. rewrite length_drop. lia. Qed.
End Lengths.
#[export] Hint Resolve len_nonneg : peerless.
#[export] Hint Rewrite @len_nil @len_cons @len_app : peerless_rw.

(** Evaluates the comparisons that linear arithmetic decides. *)
Ltac decide_le :=
  repeat match goal with
  | |- context [?x <=? ?y] =>
      first [rewrite (proj2 (Z.leb_le x y)) by lia | rewrite (proj2 (Z.leb_gt x y)) by lia]
  | |- context [?x <? ?y] =>
      first [rewrite (proj2 (Z.ltb_lt x y)) by lia | rewrite (proj2 (Z.ltb_ge x y)) by lia]
  | |- context [?x =? ?y] =>
      first [rewrite (proj2 (Z.eqb_eq x y)) by lia | rewrite (proj2 (Z.eqb_neq x y)) by lia]
  end; cbn [andb orb negb].

Ltac lens := autorewrite with peerless_rw in *.

Lemma slice_mid pre mid post a b :
  a = len pre -> b = len pre + len mid -> slice (pre ++ mid ++ post) a b = Some mid.
Proof.
  intros -> ->. unfold slice. rewrite !len_app. pose proof (len_nonneg pre). pose proof (len_nonneg mid).
  pose proof (len_nonneg post). decide_le.
  rewrite len_to_nat, drop_app_length. replace (len pre + len mid - len pre) with (len mid) by lia.
  by rewrite len_to_nat, take_app_length.
Qed.

(** Positions are relative to what precedes. *)
Lemma slice_pre pre data a b : 0 <= a -> slice (pre ++ data) (len pre + a) (len pre + b) = slice data a b.
Proof.
  intros Ha. pose proof (len_nonneg pre). unfold slice. rewrite !len_app.
  replace (len pre + a <=? len pre + b) with (a <=? b) by (apply eq_true_iff_eq; rewrite !Z.leb_le; lia).
  replace (len pre + b <=? len pre + len data) with (b <=? len data) by (apply eq_true_iff_eq; rewrite !Z.leb_le; lia).
  decide_le. destruct (_ && _)%bool; [|done].
  replace (len pre + b - (len pre + a)) with (b - a) by lia.
  replace (Z.to_nat (len pre + a)) with (length pre + Z.to_nat a)%nat by (unfold len; lia).
  by rewrite drop_app_add.
Qed.

Lemma splice_mid pre mid post a b new :
  a = len pre -> b = len pre + len mid -> splice (pre ++ mid ++ post) a b new = Some (pre ++ new ++ post).
Proof.
  intros -> ->. unfold splice. rewrite !len_app. pose proof (len_nonneg pre). pose proof (len_nonneg mid).
  pose proof (len_nonneg post). decide_le.
  rewrite len_to_nat, take_app_length, (app_assoc pre mid post).
  replace (Z.to_nat (len pre + len mid)) with (length (pre ++ mid)) by (rewrite length_app; unfold len; lia).
  by rewrite drop_app_length.
Qed.

Lemma drain_mid pre mid post a b :
  a = len pre -> b = len pre + len mid -> drain (pre ++ mid ++ post) a b = Some (pre ++ post).
Proof. intros. unfold drain. by erewrite splice_mid. Qed.

Lemma store_mid pre mid post a new :
  a = len pre -> len new = len mid -> store (pre ++ mid ++ post) a new = Some (pre ++ new ++ post).
Proof.
  intros -> Hn. unfold store. rewrite !len_app. pose proof (len_nonneg pre). pose proof (len_nonneg mid).
  pose proof (len_nonneg post). decide_le. rewrite Hn.
  rewrite len_to_nat, take_app_length, (app_assoc pre mid post).
  replace (Z.to_nat (len pre + len mid)) with (length (pre ++ mid)) by (rewrite length_app; unfold len; lia).
  by rewrite drop_app_length.
Qed.

Lemma slice_len data a b s : slice data a b = Some s -> len s = b - a /\ 0 <= a <= b /\ b <= len data.
Proof.
  unfold slice. destruct (_ && _)%bool eqn:E; [|done]. intros [= <-]. to_prop. split; [|lia].
  unfold len in *. rewrite length_take, length_drop. lia.
Qed.

Lemma slice_Some data a b : 0 <= a <= b -> b <= len data -> exists s, slice data a b = Some s /\ len s = b - a.
Proof.
  intros Ha Hb. unfold slice. decide_le. eexists. split; [done|].
  unfold len in *. rewrite length_take, length_drop. lia.
Qed.

Lemma store_len data a new data' : store data a new = Some data' -> len data' = len data.
Proof.
  unfold store. destruct (_ && _)%bool eqn:E; [|done]. intros [= <-]. to_prop. rewrite !len_app.
  rewrite len_take, len_drop by (pose proof (len_nonneg new); lia). lia.
Qed.

Lemma store_Some data a new : 0 <= a -> a + len new <= len data -> is_Some (store data a new).
Proof. intros Ha Hb. unfold store. decide_le. by eexists. Qed.

(** A list cut at two positions. *)
Lemma cut (data : list Z) a b :
  0 <= a <= b -> b <= len data ->
  exists pre mid post, data = pre ++ mid ++ post /\ len pre = a /\ len mid = b - a.
Proof.
  intros Ha Hb. exists (take (Z.to_nat a) data), (take (Z.to_nat (b - a)) (drop (Z.to_nat a) data)), (drop (Z.to_nat b) data).
  split_and!.
  - replace (drop (Z.to_nat b) data) with (drop (Z.to_nat (b - a)) (drop (Z.to_nat a) data))
      by (rewrite drop_drop; f_equal; lia).
    by rewrite take_drop, take_drop.
  - by rewrite len_take by lia.
  - rewrite len_take; [done|]. rewrite len_drop by lia. lia.
Qed.

(** ** Encoding and decoding *)

Lemma from_be_snoc l b : from_be (l ++ [b]) = from_be l * 256 + b.
Proof. unfold from_be. by rewrite foldl_app. Qed.

Lemma to_be_length n v : length (to_be n v) = n.
Proof. revert v. induction n as [|n IH]; intros v; [done|]. cbn [to_be]. rewrite length_app, IH. cbn. lia. Qed.

Lemma len_to_be n v : len (to_be n v) = Z.of_nat n.
Proof. unfold len. by rewrite to_be_length. Qed.
#[export] Hint Rewrite to_be_length len_to_be : peerless_rw.

Lemma to_be_bytes n v : Forall is_byte (to_be n v).
Proof.
  revert v. induction n as [|n IH]; intros v; [constructor|]. cbn [to_be]. apply Forall_app. split; [apply IH|].
  apply Forall_singleton. unfold is_byte. apply Z.mod_pos_bound. lia.
Qed.

Lemma from_to_be n v : from_be (to_be n v) = v mod 256 ^ Z.of_nat n.
Proof.
  revert v. induction n as [|n IH]; intros v; cbn [to_be]; [by rewrite Z.mod_1_r|].
  rewrite from_be_snoc, IH, Nat2Z.inj_succ, Z.pow_succ_r by lia.
  rewrite (Z.rem_mul_r v 256 (256 ^ Z.of_nat n)) by lia. lia.
Qed.

Lemma from_be_range l : Forall is_byte l -> 0 <= from_be l < 256 ^ len l.
Proof.
  induction l as [|b l IH] using rev_ind; intros Hl; [done|]. apply Forall_app in Hl as [Hl Hb].
  rewrite Forall_singleton in Hb. unfold is_byte in Hb. specialize (IH Hl). rewrite from_be_snoc, len_app.
  pose proof (len_nonneg l). change (len [b]) with 1. rewrite Z.pow_add_r by lia. change (256 ^ 1) with 256. lia.
Qed.

Lemma to_from_be l n : Forall is_byte l -> length l = n -> to_be n (from_be l) = l.
Proof.
  intros Hl <-. induction l as [|b l IH] using rev_ind; [done|]. apply Forall_app in Hl as [Hl Hb].
  rewrite Forall_singleton in Hb. unfold is_byte in Hb.
  rewrite length_app, Nat.add_comm. cbn [length Nat.add to_be]. rewrite from_be_snoc.
  rewrite Z.div_add_l, Z.div_small, Z.add_0_r, IH by (done || lia).
  by rewrite Z.add_comm, Z.mod_add, Z.mod_small by lia.
Qed.

Lemma from_to_be_small n v : 0 <= v < 256 ^ Z.of_nat n -> from_be (to_be n v) = v.
Proof. intros. by rewrite from_to_be, Z.mod_small. Qed.

#[global] Arguments to_be : simpl never.
#[global] Arguments from_be : simpl never.
#[global] Arguments len : simpl never.
#[global] Arguments slice : simpl never.
