(* ===== verification/Boxes.v ===== *)
(** * Boxes: reading the boxes of an MP4 buffer (crates/apple/src/wrapper/decryptor.rs)

    The header reader and the walks over sibling boxes that every function of the decryption wrapper
    starts from, on any bytes at all; then the reference they are compared with, buffers rendered from a
    list of boxes.  [usize] sums wrap around, as they do in the release profile the workspace builds. *)
From stdpp Require Import sorting.
From S2P Require Import Prelude Text Bytes.

(** ** Errors of the wrapper (client.rs) *)

Inductive WrapperUnavailableReason : Type :=
| NoAtmosVariantInValidMaster
| M3u8NotFound
| NonEc3StreamForAtmos.

Definition unavailable_display (r : WrapperUnavailableReason) : str :=
  match r with
  | NoAtmosVariantInValidMaster => lit "No Dolby Atmos stream variant found in master playlist"
  | M3u8NotFound => lit "Wrapper /m3u8 returned HTTP 404"
  | NonEc3StreamForAtmos => lit "Wrapper returned a non-EC-3 stream for Atmos request"
  end.

(** An error of the HTTP client, as far as it is looked at: its text and what it is asked. *)
Record HttpFault := mkFault { fault_text : str; is_timeout : bool; is_connect : bool; fault_status : option Z }.

(** The errors of the JSON decoder are their rendered text. *)
Inductive WrapperError : Type :=
| Http (error : HttpFault)
| Json (error : str)
| Api (code : Z) (message : str)
| Auth (status : Z)
| Template (message : str)
| Unavailable (reason : WrapperUnavailableReason)
| Message (message : str).

Definition wrapper_error_display (e : WrapperError) : str :=
  match e with
  | Http error => lit "HTTP error: " ++ fault_text error
  | Json error => lit "JSON error: " ++ error
  | Api code message => lit "Wrapper API error (code " ++ show_i code ++ lit "): " ++ message
  | Auth status => lit "wrapper authentication rejected (HTTP " ++ show_u status ++ lit ")"
  | Template message => lit "Temari template error: " ++ message
  | Unavailable reason => unavailable_display reason
  | Message message => message
  end.

Abbreviation run := (outcome WrapperError).
Abbreviation header := (Z * str * Z)%type.

(** ** Addition of [usize] *)

Definition uadd (a b : Z) : Z := wrap 64 (a + b).
Notation "a ⊕ b" := (uadd a b) (at level 50, left associativity) : rust_scope.
#[local] Open Scope rust_scope.

Lemma uadd_small a b : 0 <= a + b < 2 ^ 64 -> a ⊕ b = a + b.
Proof. intros. unfold uadd. by apply wrap_small. Qed.

(** Drops the wrap-around of the sums that stay small. *)
Ltac nowrap := repeat match goal with |- context [?a ⊕ ?b] => rewrite (uadd_small a b) by lia end.

(** ** Reading and writing fields *)

(** [read_uN_be(&data[a..a + n])] and its writing counterpart, with [n] bytes. *)
Definition read_be (data : list Z) (a n : Z) : run Z :=
  buf ← must (slice data a (a ⊕ n)); mret (from_be buf).

Definition read_i32_be (data : list Z) (a : Z) : run Z :=
  v ← read_be data a 4; mret (swrap 32 v).

Definition write_be (data : list Z) (a : Z) (n : nat) (v : Z) : run (list Z) :=
  must (store data a (to_be n v)).

Definition read_box_header (data : list Z) (offset : Z) : run (option header) :=
  if len data <? offset ⊕ 8 then mret None else
  size32 ← read_be data offset 4;
  box_type ← must (slice data (offset ⊕ 4) (offset ⊕ 8));
  if size32 =? 1 then
    if len data <? offset ⊕ 16 then mret None else
    size64 ← read_be data (offset ⊕ 8) 8;
    mret (Some (size64, box_type, 16))
  else if size32 =? 0 then mret (Some (wrap 64 (len data - offset), box_type, 8))
  else mret (Some (size32, box_type, 8)).

(** ** The walks *)

(** One position of a walk: the header at [cur], unless the loop ends there.  The loops over a buffer
    the caller has bounded leave the comparison with the buffer's length out ([bounded] is [false]). *)
Definition visit (bounded : bool) (data : list Z) (cur stop : Z) : run (option (Z * str)) :=
  if ((cur ⊕ 8 <=? stop) && (negb bounded || (cur ⊕ 8 <=? len data)))%bool then
    h ← read_box_header data cur;
    match h with
    | None => mret None
    | Some (box_len, box_type, _) =>
        if ((box_len <? 8) || (stop <? cur ⊕ box_len) || (bounded && (len data <? cur ⊕ box_len)))%bool
        then mret None else mret (Some (box_len, box_type))
    end
  else mret None.

Fixpoint find_loop (fuel : nat) (data : list Z) (cur parent_end : Z) (target_type : str) : run (option (Z * Z)) :=
  match fuel with
  | O => Spin
  | S f =>
      v ← visit true data cur parent_end;
      match v with
      | None => mret None
      | Some (box_len, box_type) =>
          if decide (box_type = target_type) then mret (Some (cur, box_len))
          else find_loop f data (cur ⊕ box_len) parent_end target_type
      end
  end.

Definition find_child_box (data : list Z) (parent_start parent_end : Z) (target_type : str) :
    run (option (Z * Z)) :=
  find_loop (S (length data)) data parent_start parent_end target_type.

(** A loop that pushes the boxes it keeps. *)
Fixpoint collect (fuel : nat) (bounded : bool) (keep : Z -> str -> run bool) (data : list Z) (cur stop : Z) :
    run (list (Z * Z)) :=
  match fuel with
  | O => Spin
  | S f =>
      v ← visit bounded data cur stop;
      match v with
      | None => mret []
      | Some (box_len, box_type) =>
          k ← keep cur box_type;
          rest ← collect f bounded keep data (cur ⊕ box_len) stop;
          mret (if k : bool then (cur, box_len) :: rest else rest)
      end
  end.

Definition of_type (target_type : str) : Z -> str -> run bool :=
  fun _ box_type => mret (bool_decide (box_type = target_type)).

Definition find_all_child_boxes (data : list Z) (parent_start parent_end : Z) (target_type : str) :
    run (list (Z * Z)) :=
  collect (S (length data)) true (of_type target_type) data parent_start parent_end.

(** The sample group boxes of the encryption scheme: [sgpd] or [sbgp] of type [seam] or [seig].  The
    grouping type is read at a fixed place, without asking whether the box reaches that far. *)
Definition is_seam_group (data : list Z) (cur : Z) (box_type : str) : run bool :=
  if (bool_decide (box_type = lit "sgpd") || bool_decide (box_type = lit "sbgp"))%bool then
    if cur ⊕ 16 <=? len data then
      grp ← must (slice data (cur ⊕ 12) (cur ⊕ 16));
      mret (bool_decide (grp = lit "seam") || bool_decide (grp = lit "seig"))%bool
    else mret false
  else mret false.

(** [sort_by_key(|(off, _)| Reverse(off))], which is stable. *)
Fixpoint insert_desc (x : Z * Z) (l : list (Z * Z)) : list (Z * Z) :=
  match l with
  | [] => [x]
  | y :: l' => if y.1 <=? x.1 then x :: l else y :: insert_desc x l'
  end.

Definition sort_desc (l : list (Z * Z)) : list (Z * Z) := foldr insert_desc [] l.

(** [for (off, len) in boxes { data.drain(off..off + len) }]. *)
Fixpoint drain_all (data : list Z) (l : list (Z * Z)) : run (list Z) :=
  match l with
  | [] => mret data
  | (off, n) :: l' => data' ← must (drain data off (off ⊕ n)); drain_all data' l'
  end.

(** ** The reference: buffers made of boxes *)

Record Box := mkBox { kind : str; body : list Z }.

Definition bsize (b : Box) : Z := 8 + len (body b).

(** A box with a 32-bit size, the only form the wrapper writes. *)
Definition render (b : Box) : list Z := to_be 4 (bsize b) ++ kind b ++ body b.
Definition renders (bs : list Box) : list Z := concat (render <$> bs).

Record box_ok (b : Box) : Prop := {
  box_kind : len (kind b) = 4;
  box_size : bsize b < 2 ^ 32;
}.

(** The boxes of [bs] that satisfy [q], at their offsets when the first one is at [o]. *)
Fixpoint picked (q : Box -> bool) (o : Z) (bs : list Box) : list (Z * Z) :=
  match bs with
  | [] => []
  | b :: bs' => (if q b then [(o, bsize b)] else []) ++ picked q (o + bsize b) bs'
  end.

Definition kind_is (t : str) (b : Box) : bool := bool_decide (kind b = t).

(** ** The readers on any bytes *)

Section AnyBytes.
Variable data : list Z.
Hypothesis Hlen : len data < 2 ^ 63.

Lemma read_be_ok a n : 0 <= a -> 0 <= n -> a + n <= len data -> exists v, read_be data a n = Done v.
Proof.
  intros Ha Hn Hb. unfold read_be. nowrap.
  destruct (slice_Some data a (a + n)) as (s & -> & _); [lia..|]. by eexists.
Qed.

Lemma read_box_header_ok cur : 0 <= cur < 2 ^ 63 -> exists o, read_box_header data cur = Done o.
Proof.
  intros Hc. unfold read_box_header. nowrap. destruct (Z.ltb_spec (len data) (cur + 8)); [by eexists|].
  destruct (read_be_ok cur 4) as [n ->]; [lia..|]. cbn.
  destruct (slice_Some data (cur + 4) (cur + 8)) as (t & -> & _); [lia..|]. cbn.
  destruct (n =? 1); [|destruct (n =? 0); by eexists].
  destruct (Z.ltb_spec (len data) (cur + 16)); [by eexists|].
  destruct (read_be_ok (cur + 8) 8) as [m ->]; [lia..|]. by eexists.
Qed.

Lemma visit_ok bounded cur stop :
  0 <= cur < 2 ^ 63 -> exists o, visit bounded data cur stop = Done o.
Proof.
  intros Hc. unfold visit. destruct (_ && _)%bool; [|by eexists].
  destruct (read_box_header_ok cur Hc) as [[[[n t] h]|] ->]; cbn; [|by eexists].
  destruct (_ || _)%bool; by eexists.
Qed.

(** No header of the buffer declares a size that the sum with its position would wrap. *)
Definition sane : Prop :=
  forall cur n t h, 0 <= cur < 2 ^ 63 -> read_box_header data cur = Done (Some (n, t, h)) -> 0 <= n < 2 ^ 63.

Lemma visit_inside bounded cur stop n t :
  sane -> 0 <= cur < 2 ^ 63 -> stop < 2 ^ 63 -> visit bounded data cur stop = Done (Some (n, t)) ->
  8 <= n /\ cur + 8 <= len data /\ cur + n <= stop /\ (bounded = true -> cur + n <= len data) /\ cur ⊕ n = cur + n /\
  slice data (cur + 4) (cur + 8) = Some t.
Proof.
  intros Hs Hc Hstop. unfold visit. destruct (_ && _)%bool eqn:E; [|done].
  destruct (read_box_header_ok cur Hc) as [[[[m u] h]|] Ho]; rewrite Ho; run_simpl; [|done].
  destruct (Hs _ _ _ _ Hc Ho). destruct ((m <? 8) || _ || _)%bool eqn:E2; [done|]. intros [= -> ->].
  rewrite uadd_small in E2 by lia. to_prop; nowrap.
  all: assert (cur + 8 <= len data) by
    (revert Ho; unfold read_box_header; nowrap; destruct (Z.ltb_spec (len data) (cur + 8)); [done|lia]).
  all: split_and!; try lia; try (intros ->; cbn in *; to_prop; lia).
  all: revert Ho; unfold read_box_header; nowrap; destruct (_ <? _); [done|];
    destruct (read_be data cur 4) as [sz| | |]; cbn; try done;
    destruct (slice data (cur + 4) (cur + 8)) as [ty|]; cbn; try done;
    destruct (sz =? 1); [destruct (_ <? _); [done|]; destruct (read_be data _ 8); cbn; try done|destruct (sz =? 0)];
    by intros [= <- <- <-].
Qed.

(** Every position advances, so a walk ends within the length of the buffer. *)
Lemma find_loop_total fuel cur stop t :
  sane -> 0 <= cur -> cur <= len data -> stop < 2 ^ 63 -> len data - cur < Z.of_nat fuel ->
  exists o, find_loop fuel data cur stop t = Done o /\
    (forall off n, o = Some (off, n) ->
       cur <= off /\ 8 <= n /\ off + n <= stop /\ off + n <= len data /\ slice data (off + 4) (off + 8) = Some t).
Proof.
  intros Hs. revert cur. induction fuel as [|f IH]; intros cur Hc Hb Hstop Hf; [lia|]. cbn [find_loop].
  destruct (visit_ok true cur stop) as [o Ho]; [lia|]. rewrite Ho. run_simpl.
  destruct o as [[n u]|]; [|eexists; split; [done|done]].
  destruct (visit_inside _ cur stop n u Hs ltac:(lia) Hstop Ho) as (Hn & H8 & Hst & Hd & Hw & Hk). specialize (Hd eq_refl).
  case_decide as Ht.
  - eexists. split; [done|]. intros off m [= <- <-]. subst u. split_and!; (done || lia).
  - rewrite Hw. destruct (IH (cur + n)) as (o' & Hr & Ho'); [lia..|]. exists o'. split; [done|].
    intros off m Hom. destruct (Ho' off m Hom) as (?&?&?&?&?). split_and!; (done || lia).
Qed.

Lemma collect_total fuel bounded keep cur stop :
  sane -> 0 <= cur -> cur <= len data -> stop < 2 ^ 63 -> (bounded = false -> stop <= len data) ->
  len data - cur < Z.of_nat fuel ->
  (forall c k, 0 <= c < len data -> exists b, keep c k = Done b) ->
  exists l, collect fuel bounded keep data cur stop = Done l /\
    Forall (fun '(off, n) => cur <= off /\ 8 <= n /\ off + n <= stop /\ off + n <= len data) l.
Proof.
  intros Hs. revert cur. induction fuel as [|f IH]; intros cur Hc Hb Hstop Hbd Hf Hk; [lia|]. cbn [collect].
  destruct (visit_ok bounded cur stop) as [o Ho]; [lia|]. rewrite Ho. run_simpl.
  destruct o as [[n u]|]; [|eexists; split; [done|constructor]].
  destruct (visit_inside _ cur stop n u Hs ltac:(lia) Hstop Ho) as (Hn & H8 & Hst & Hd & Hw & _).
  assert (cur + n <= len data) by (destruct bounded; [by apply Hd|specialize (Hbd eq_refl); lia]).
  destruct (Hk cur u) as [k ->]; [lia|]. run_simpl. rewrite Hw.
  destruct (IH (cur + n)) as (l & -> & Hl); [lia..|done|lia|done|]. cbn.
  assert (Forall (fun '(off, m) => cur <= off /\ 8 <= m /\ off + m <= stop /\ off + m <= len data) l).
  { eapply Forall_impl; [exact Hl|]. intros [off m]. lia. }
  destruct k; eexists; (split; [done|]); [constructor; [lia|done]|done].
Qed.
End AnyBytes.

(** ** The readers on rendered boxes *)

Lemma renders_cons b bs : renders (b :: bs) = render b ++ renders bs.
Proof. reflexivity. Qed.

Lemma renders_nil : renders [] = [].
Proof. reflexivity. Qed.

Lemma renders_app bs1 bs2 : renders (bs1 ++ bs2) = renders bs1 ++ renders bs2.
Proof. unfold renders. by rewrite fmap_app, concat_app. Qed.
#[export] Hint Rewrite renders_nil renders_cons renders_app : peerless_rw.

Lemma len_render b : box_ok b -> len (render b) = bsize b.
Proof. intros [Hk _]. unfold render, bsize. lens. lia. Qed.

Lemma bsize_ge b : 8 <= bsize b.
Proof. unfold bsize. pose proof (len_nonneg (body b)). lia. Qed.
#[export] Hint Resolve bsize_ge : peerless.

Lemma renders_length bs : Forall box_ok bs -> Z.of_nat (length bs) <= len (renders bs).
Proof.
  induction 1 as [|b bs Hb _ IH]; [done|]. lens. rewrite len_render by done. pose proof (bsize_ge b).
  cbn [length]. lia.
Qed.

(** Header of a box: size and kind. *)
Lemma render_split b : exists s, render b = s ++ kind b ++ body b /\ len s = 4 /\ from_be s = bsize b mod 2 ^ 32.
Proof. exists (to_be 4 (bsize b)). split_and!; [done|by rewrite len_to_be|]. by rewrite from_to_be. Qed.

Lemma read_box_header_render pre b post :
  box_ok b -> len pre + bsize b < 2 ^ 63 ->
  read_box_header (pre ++ render b ++ post) (len pre) = Done (Some (bsize b, kind b, 8)).
Proof.
  intros Hb Hsz. pose proof (bsize_ge b) as Hge. pose proof (len_nonneg pre). pose proof (len_nonneg post).
  unfold read_box_header. rewrite !len_app, len_render by done. nowrap. decide_le.
  unfold read_be. nowrap. unfold render. rewrite <-!app_assoc.
  rewrite (slice_mid pre (to_be 4 (bsize b)) _ (len pre) (len pre + 4)) by (rewrite ?len_to_be; lia). run_simpl.
  rewrite (app_assoc pre (to_be 4 (bsize b))).
  rewrite (slice_mid _ (kind b) _ (len pre + 4) (len pre + 8)) by (rewrite len_app, len_to_be; destruct Hb; lia).
  run_simpl. destruct Hb as [_ Hlt].
  rewrite from_to_be_small by (change (256 ^ Z.of_nat 4) with (2 ^ 32); lia). run_simpl. by decide_le.
Qed.

Lemma visit_render bounded pre b post stop :
  box_ok b -> len pre + len (render b ++ post) < 2 ^ 63 -> len pre + bsize b <= stop < 2 ^ 63 ->
  visit bounded (pre ++ render b ++ post) (len pre) stop = Done (Some (bsize b, kind b)).
Proof.
  intros Hb Hlen Hstop. pose proof (bsize_ge b). pose proof (len_nonneg pre). pose proof (len_nonneg post).
  rewrite len_app, len_render in Hlen by done. unfold visit. rewrite !len_app, len_render by done. nowrap.
  decide_le. rewrite orb_true_r. rewrite read_box_header_render by (done || lia). run_simpl.
  nowrap. decide_le. by rewrite andb_false_r.
Qed.

Lemma visit_end bounded data cur stop : 0 <= cur < 2 ^ 63 -> stop < cur + 8 -> visit bounded data cur stop = Done None.
Proof. intros Hc Hs. unfold visit. nowrap. by decide_le. Qed.

Section Rendered.
Variables (pre : list Z) (bs : list Box) (post : list Z).
Hypothesis Hok : Forall box_ok bs.
Let data := pre ++ renders bs ++ post.
Hypothesis Hlen : len data < 2 ^ 63.
Let stop := len pre + len (renders bs).

Lemma next_offset bs1 b bs2 :
  bs = bs1 ++ b :: bs2 -> len pre + len (renders bs1) + bsize b = len pre + len (renders (bs1 ++ [b])).
Proof.
  intros Hbs. rewrite Hbs in Hok. apply Forall_app in Hok as [_ Hr]. inversion Hr. lens.
  rewrite len_render by done. lia.
Qed.

(** The walk visits the next box, and stops after the last one. *)
Lemma visit_next bounded bs1 b bs2 :
  bs = bs1 ++ b :: bs2 ->
  visit bounded data (len pre + len (renders bs1)) stop = Done (Some (bsize b, kind b)) /\
  len pre + len (renders bs1) ⊕ bsize b = len pre + len (renders (bs1 ++ [b])).
Proof.
  intros Hbs. assert (Hb : box_ok b) by (rewrite Hbs in Hok; apply Forall_app in Hok as [_ Hr]; by inversion Hr).
  assert (Hd : data = (pre ++ renders bs1) ++ render b ++ (renders bs2 ++ post)).
  { subst data. rewrite Hbs. autorewrite with peerless_rw. by rewrite <-!app_assoc. }
  assert (Hst : stop = len pre + len (renders bs1) + bsize b + len (renders bs2)).
  { subst stop. rewrite Hbs. lens. rewrite len_render by done. lia. }
  pose proof (len_nonneg pre). pose proof (len_nonneg (renders bs1)). pose proof (len_nonneg (renders bs2)).
  pose proof (len_nonneg post). pose proof (bsize_ge b).
  assert (Hl : len pre + len (renders bs1) + bsize b + len (renders bs2) + len post < 2 ^ 63).
  { rewrite Hd in Hlen. revert Hlen. lens. rewrite len_render by done. lia. }
  split.
  - rewrite Hd, <-len_app. apply visit_render; [done|..]; lens; rewrite ?len_render by done; lia.
  - nowrap. by eapply next_offset.
Qed.

Lemma visit_last bounded : visit bounded data (len pre + len (renders bs)) stop = Done None.
Proof.
  pose proof (len_nonneg pre). pose proof (len_nonneg post). pose proof (len_nonneg (renders bs)).
  apply visit_end; subst stop data; revert Hlen; lens; lia.
Qed.

Lemma find_loop_render fuel t bs1 bs2 :
  bs = bs1 ++ bs2 -> (length bs2 < fuel)%nat ->
  find_loop fuel data (len pre + len (renders bs1)) stop t =
  Done (head (picked (kind_is t) (len pre + len (renders bs1)) bs2)).
Proof.
  revert bs1 fuel. induction bs2 as [|b bs2 IH]; intros bs1 fuel Hbs Hf;
    (destruct fuel as [|f]; [cbn in Hf; lia|]); cbn [find_loop].
  - rewrite app_nil_r in Hbs. subst bs1. by rewrite visit_last.
  - destruct (visit_next true bs1 b bs2 Hbs) as [-> Hnext]. cbn [mbind outcome_bind picked].
    unfold kind_is at 1. case_decide as Ht.
    + by rewrite bool_decide_eq_true_2.
    + rewrite bool_decide_eq_false_2, Hnext by done. rewrite IH; [|by rewrite <-app_assoc|cbn in Hf; lia].
      by erewrite <-next_offset by done.
Qed.

Lemma collect_render fuel bounded keep q bs1 bs2 :
  bs = bs1 ++ bs2 -> (length bs2 < fuel)%nat ->
  (forall l1 b l2, bs = l1 ++ b :: l2 -> keep (len pre + len (renders l1)) (kind b) = Done (q b)) ->
  collect fuel bounded keep data (len pre + len (renders bs1)) stop =
  Done (picked q (len pre + len (renders bs1)) bs2).
Proof.
  revert bs1 fuel. induction bs2 as [|b bs2 IH]; intros bs1 fuel Hbs Hf Hk;
    (destruct fuel as [|f]; [cbn in Hf; lia|]); cbn [collect].
  - rewrite app_nil_r in Hbs. subst bs1. by rewrite visit_last.
  - destruct (visit_next bounded bs1 b bs2 Hbs) as [-> Hnext]. cbn [mbind outcome_bind picked].
    rewrite (Hk bs1 b bs2 Hbs). run_simpl. rewrite Hnext.
    rewrite IH; [|by rewrite <-app_assoc|cbn in Hf; lia|done]. run_simpl.
    erewrite <-next_offset by done. by destruct (q b).
Qed.
End Rendered.

(** ** Removing boxes *)

Definition dropped (q : Box -> bool) (bs : list Box) : list Box := filter (fun b => q b = false) bs.

(** Bytes the boxes of [bs] that satisfy [q] take. *)
Definition weight (q : Box -> bool) (bs : list Box) : Z := sumZ ((picked q 0 bs).*2).

Lemma picked_app q o bs1 bs2 :
  Forall box_ok bs1 -> picked q o (bs1 ++ bs2) = picked q o bs1 ++ picked q (o + len (renders bs1)) bs2.
Proof.
  intros Hok. revert o. induction Hok as [|b bs Hb _ IH]; intros o; cbn [picked app]; [by rewrite renders_nil, len_nil, Z.add_0_r|].
  rewrite IH, <-app_assoc. do 3 f_equal. lens. rewrite len_render by done. lia.
Qed.

Lemma picked_weight q o bs : sumZ ((picked q o bs).*2) = weight q bs.
Proof.
  unfold weight. generalize 0. revert o. induction bs as [|b bs IH]; intros o o'; [done|]. cbn [picked].
  rewrite !fmap_app, !sumZ_app, (IH _ (o' + bsize b)). by destruct (q b).
Qed.

Lemma weight_cons q b bs : weight q (b :: bs) = (if q b then bsize b else 0) + weight q bs.
Proof.
  unfold weight at 1. cbn [picked]. rewrite fmap_app, sumZ_app, picked_weight. destruct (q b); cbn; lia.
Qed.

Lemma weight_nonneg q bs : 0 <= weight q bs.
Proof. induction bs as [|b bs IH]; [done|]. rewrite weight_cons. pose proof (bsize_ge b). destruct (q b); lia. Qed.
#[export] Hint Resolve weight_nonneg : peerless.

Lemma weight_zero q bs : weight q bs = 0 -> dropped q bs = bs.
Proof.
  induction bs as [|b bs IH]; [done|]. rewrite weight_cons. pose proof (bsize_ge b). pose proof (weight_nonneg q bs).
  unfold dropped in *. rewrite filter_cons. destruct (q b); [lia|]. intros. by rewrite IH by lia.
Qed.

Lemma dropped_app q bs1 bs2 : dropped q (bs1 ++ bs2) = dropped q bs1 ++ dropped q bs2.
Proof. apply filter_app. Qed.

Lemma dropped_ok q bs : Forall box_ok bs -> Forall box_ok (dropped q bs).
Proof. rewrite !Forall_forall. intros H b [_ Hb]%list_elem_of_filter. by apply H. Qed.

Lemma len_dropped q bs : Forall box_ok bs -> len (renders (dropped q bs)) = len (renders bs) - weight q bs.
Proof.
  induction 1 as [|b bs Hb _ IH]; [done|]. rewrite weight_cons. unfold dropped in *. rewrite filter_cons.
  lens. destruct (q b); case_decide; try done; lens; rewrite len_render by done; lia.
Qed.

Lemma drain_all_app data l1 l2 : drain_all data (l1 ++ l2) = d ← drain_all data l1; drain_all d l2.
Proof.
  revert data. induction l1 as [|[o n] l1 IH]; intros data; [done|]. cbn [drain_all app].
  destruct (drain data o (o ⊕ n)); cbn; [apply IH|done].
Qed.

(** Draining from the last to the first keeps the offsets of the others valid. *)
Lemma drain_picked q pre bs post :
  Forall box_ok bs -> len (pre ++ renders bs ++ post) < 2 ^ 63 ->
  drain_all (pre ++ renders bs ++ post) (reverse (picked q (len pre) bs)) =
  Done (pre ++ renders (dropped q bs) ++ post).
Proof.
  revert post. induction bs as [|b bs IH] using rev_ind; intros post Hok Hlen; [done|].
  apply Forall_app in Hok as [Hok Hb]. rewrite Forall_singleton in Hb.
  rewrite picked_app, reverse_app, drain_all_app, renders_app, dropped_app, renders_app by done.
  rewrite renders_cons, renders_nil, app_nil_r. revert Hlen. lens. rewrite len_render by done. intros Hlen.
  cbn [picked]. rewrite app_nil_r. unfold dropped at 2. rewrite filter_cons, filter_nil.
  pose proof (len_nonneg pre). pose proof (len_nonneg (renders bs)). pose proof (len_nonneg post). pose proof (bsize_ge b).
  destruct (q b); case_decide; try done.
  - rewrite reverse_singleton. cbn [drain_all app]. nowrap.
    replace (pre ++ (renders bs ++ render b) ++ post) with ((pre ++ renders bs) ++ render b ++ post) by (by rewrite <-!app_assoc).
    rewrite drain_mid by (lens; rewrite ?len_render by done; lia). run_simpl.
    rewrite <-app_assoc, IH by (done || (lens; lia)). by rewrite renders_nil, app_nil_r.
  - rewrite reverse_nil. cbn [drain_all]. run_simpl. rewrite <-!app_assoc. rewrite IH by (done || (lens; rewrite ?len_render by done; lia)).
    by rewrite renders_cons, renders_nil, app_nil_r.
Qed.

(** *** The order in which the removals are sorted *)

Lemma insert_desc_comm x y l : x.1 <> y.1 -> insert_desc x (insert_desc y l) = insert_desc y (insert_desc x l).
Proof.
  intros Hxy. induction l as [|z l IH]; cbn [insert_desc].
  - destruct (Z.leb_spec y.1 x.1), (Z.leb_spec x.1 y.1); try lia; done.
  - destruct (Z.leb_spec z.1 y.1), (Z.leb_spec z.1 x.1), (Z.leb_spec y.1 x.1), (Z.leb_spec x.1 y.1); try lia;
      repeat (cbn [insert_desc]; decide_le); try done; by rewrite IH.
Qed.

Lemma sort_desc_perm l l' : l ≡ₚ l' -> NoDup l.*1 -> sort_desc l = sort_desc l'.
Proof.
  induction 1 as [|x l l' _ IH|x y l|l1 l2 l3 H1 IH1 _ IH2]; cbn [sort_desc foldr]; csimpl; intros Hn; [done|..].
  - apply NoDup_cons in Hn as [_ Hn]. unfold sort_desc in IH. by rewrite IH.
  - apply insert_desc_comm. apply NoDup_cons in Hn as [Hn _]. set_solver.
  - rewrite IH1 by done. apply IH2. by rewrite <-H1.
Qed.

Lemma sort_desc_sorted l : StronglySorted (fun x y => y.1 < x.1) l -> sort_desc l = l.
Proof.
  induction 1 as [|x l _ IH Hx]; [done|]. cbn [sort_desc foldr]. unfold sort_desc in IH. rewrite IH.
  destruct Hx as [|y l Hy _]; [done|]. cbn. by decide_le.
Qed.

Lemma sorted_keys_nodup l : StronglySorted (fun x y : Z * Z => y.1 < x.1) l -> NoDup l.*1.
Proof.
  induction 1 as [|x l _ IH Hx]; csimpl; [constructor|]. apply NoDup_cons. split; [|done].
  intros (y & Hy & Hin)%list_elem_of_fmap. rewrite Forall_forall in Hx. specialize (Hx _ Hin). lia.
Qed.

Lemma sort_desc_unique l l' : l ≡ₚ l' -> StronglySorted (fun x y => y.1 < x.1) l' -> sort_desc l = l'.
Proof.
  intros Hp Hs. rewrite (sort_desc_perm _ _ Hp); [by apply sort_desc_sorted|].
  rewrite Hp. by apply sorted_keys_nodup.
Qed.

Lemma picked_range q o bs : Forall (fun x : Z * Z => o <= x.1 < o + weight (fun _ => true) bs) (picked q o bs).
Proof.
  revert o. induction bs as [|b bs IH]; intros o; [constructor|]. cbn [picked]. pose proof (bsize_ge b).
  rewrite weight_cons. pose proof (weight_nonneg (fun _ => true) bs). apply Forall_app. split.
  - destruct (q b); [apply Forall_singleton; cbn; lia|constructor].
  - eapply Forall_impl; [apply IH|]. intros x. cbn. lia.
Qed.

Lemma weight_all bs : Forall box_ok bs -> weight (fun _ => true) bs = len (renders bs).
Proof. induction 1 as [|b bs Hb _ IH]; [done|]. rewrite weight_cons. lens. rewrite len_render by done. lia. Qed.

Lemma reverse_picked_sorted q o bs : StronglySorted (fun x y : Z * Z => y.1 < x.1) (reverse (picked q o bs)).
Proof.
  revert o. induction bs as [|b bs IH]; intros o; [constructor|]. cbn [picked]. rewrite reverse_app.
  apply StronglySorted_app. pose proof (bsize_ge b). split_and!; [|apply IH|destruct (q b); repeat constructor].
  intros x y Hx Hy. rewrite elem_of_reverse in Hx. pose proof (picked_range q (o + bsize b) bs) as Hr.
  rewrite Forall_forall in Hr. specialize (Hr x Hx). destruct (q b); [|by apply not_elem_of_nil in Hy].
  apply list_elem_of_singleton in Hy as ->. cbn. lia.
Qed.

(** What several passes pick is what one pass with all their tests picks, in another order. *)
Lemma picked_or q1 q2 o bs :
  (forall b, b ∈ bs -> q1 b = true -> q2 b = false) ->
  picked q1 o bs ++ picked q2 o bs ≡ₚ picked (fun b => q1 b || q2 b)%bool o bs.
Proof.
  revert o. induction bs as [|b bs IH]; intros o Hd; [done|]. cbn [picked].
  specialize (IH (o + bsize b) ltac:(intros; apply Hd; [by right|done])). specialize (Hd b ltac:(left)).
  destruct (q1 b); [rewrite (Hd eq_refl)|destruct (q2 b)]; cbn [orb app].
  - by constructor.
  - rewrite <-Permutation_middle. by constructor.
  - done.
Qed.

Lemma find_child_render pre bs post t :
  Forall box_ok bs -> len (pre ++ renders bs ++ post) < 2 ^ 63 ->
  find_child_box (pre ++ renders bs ++ post) (len pre) (len pre + len (renders bs)) t =
  Done (head (picked (kind_is t) (len pre) bs)).
Proof.
  intros Hok Hlen. unfold find_child_box. pose proof (renders_length bs Hok).
  pose proof (find_loop_render pre bs post Hok Hlen (S (length (pre ++ renders bs ++ post))) t [] bs eq_refl) as H'.
  rewrite renders_nil, len_nil, Z.add_0_r in H'. apply H'. rewrite !length_app. unfold len in *. lia.
Qed.

Lemma collect_boxes bounded keep q pre bs post :
  Forall box_ok bs -> len (pre ++ renders bs ++ post) < 2 ^ 63 ->
  (forall l1 b l2, bs = l1 ++ b :: l2 -> keep (len pre + len (renders l1)) (kind b) = Done (q b)) ->
  collect (S (length (pre ++ renders bs ++ post))) bounded keep (pre ++ renders bs ++ post)
    (len pre) (len pre + len (renders bs)) = Done (picked q (len pre) bs).
Proof.
  intros Hok Hlen Hk. pose proof (renders_length bs Hok).
  pose proof (collect_render pre bs post Hok Hlen (S (length (pre ++ renders bs ++ post))) bounded keep q [] bs eq_refl) as H'.
  rewrite renders_nil, len_nil, Z.add_0_r in H'. apply H'; [|done]. rewrite !length_app. unfold len in *. lia.
Qed.

Lemma of_type_keep t c b : of_type t c (kind b) = Done (kind_is t b).
Proof. reflexivity. Qed.

(** ** Theorems *)

(** On any buffer of at most [isize::MAX] bytes in which no header declares a size of 2^63 or more, both walks end
    without a panic, and what they report is a box of the wanted type that lies inside the parent and the
    buffer. *)
Theorem box_walks_terminate (data : list Z) (parent_start parent_end : Z) (t : str) :
  len data < 2 ^ 63 -> sane data -> 0 <= parent_start <= len data -> parent_end < 2 ^ 63 ->
  (exists o, find_child_box data parent_start parent_end t = Done o /\
     forall off n, o = Some (off, n) ->
       parent_start <= off /\ 8 <= n /\ off + n <= parent_end /\ off + n <= len data /\
       slice data (off + 4) (off + 8) = Some t) /\
  (exists l, find_all_child_boxes data parent_start parent_end t = Done l /\
     Forall (fun '(off, n) => parent_start <= off /\ 8 <= n /\ off + n <= parent_end /\ off + n <= len data) l).
Proof.
  intros Hlen Hs Hst Hend. split.
  - apply find_loop_total; try done; unfold len in *; lia.
  - apply collect_total; try done; try (unfold len in *; lia). intros c k _. by eexists.
Qed.

(** A walk can go round for ever: the sum of a position and a 64-bit size wraps, which both comparisons accept, and
    the walk goes back to a box it has seen.  Whatever the number of turns, the 24 bytes below keep the
    search busy. *)
Theorem find_child_box_spins :
  exists data, len data = 24 /\ forall fuel, find_loop fuel data 0 (len data) (lit "moov") = Spin.
Proof.
  exists (to_be 4 8 ++ lit "free" ++ to_be 4 1 ++ lit "free" ++ to_be 8 (2 ^ 64 - 8)). split; [reflexivity|].
  set (d := _ ++ _). assert (Hv0 : visit true d 0 (len d) = Done (Some (8, lit "free"))) by (by vm_compute).
  assert (Hv8 : visit true d 8 (len d) = Done (Some (2 ^ 64 - 8, lit "free"))) by (by vm_compute).
  assert (H : forall fuel, find_loop fuel d 0 (len d) (lit "moov") = Spin /\
                           find_loop fuel d 8 (len d) (lit "moov") = Spin).
  { induction fuel as [|f [IH0 IH8]]; [done|]. cbn [find_loop]. rewrite Hv0, Hv8. run_simpl.
    rewrite !decide_False by (by vm_compute). split; [exact IH8|exact IH0]. }
  intros fuel. apply H.
Qed.

(** On the rendering of a list of boxes, surrounded by anything, the walks find exactly the boxes of the
    wanted type, at the offsets where they are, the first one first. *)
Theorem walks_find_boxes (pre : list Z) (bs : list Box) (post : list Z) (t : str) :
  Forall box_ok bs -> len (pre ++ renders bs ++ post) < 2 ^ 63 ->
  let data := pre ++ renders bs ++ post in
  let stop := len pre + len (renders bs) in
  find_all_child_boxes data (len pre) stop t = Done (picked (kind_is t) (len pre) bs) /\
  find_child_box data (len pre) stop t = Done (head (picked (kind_is t) (len pre) bs)) /\
  (forall bs1 b bs2, bs = bs1 ++ b :: bs2 -> kind b = t -> Forall (fun x => kind x <> t) bs1 ->
     find_child_box data (len pre) stop t = Done (Some (len pre + len (renders bs1), bsize b)) /\
     slice data (len pre + len (renders bs1)) (len pre + len (renders bs1) + bsize b) = Some (render b)).
Proof.
  intros Hok Hlen data stop. split_and!.
  - apply collect_boxes; [done..|]. intros; apply of_type_keep.
  - by apply find_child_render.
  - intros bs1 b bs2 -> Hb Hn. subst data stop. rewrite find_child_render by done. split.
    + apply Forall_app in Hok as [Hok _]. clear Hlen. rewrite picked_app by done.
      assert (picked (kind_is t) (len pre) bs1 = []) as ->.
      { clear Hok. generalize (len pre). induction Hn as [|x l Hx _ IH]; intros o; [done|]. cbn [picked].
        unfold kind_is at 1. rewrite bool_decide_eq_false_2 by done. apply IH. }
      cbn [picked app]. unfold kind_is. by rewrite bool_decide_eq_true_2.
    + replace (pre ++ renders (bs1 ++ b :: bs2) ++ post) with ((pre ++ renders bs1) ++ render b ++ (renders bs2 ++ post))
        by (by rewrite renders_app, renders_cons, <-!app_assoc).
      apply slice_mid; [by lens|].
      apply Forall_app in Hok as [_ Hok]. inversion Hok. lens. by rewrite len_render.
Qed.

Definition demo_boxes : list Box := [mkBox (lit "free") [1; 2]; mkBox (lit "moov") []; mkBox (lit "mdat") [7]].

Lemma demo_boxes_ok : Forall box_ok demo_boxes.
Proof. repeat (apply Forall_cons; split; [split; by vm_compute|]). apply Forall_nil_2. Qed.

(** The buffer of [demo_boxes] after one byte: the walks end and find its [moov] box. *)
Lemma walks_find_boxes_witness :
  find_child_box ([9] ++ renders demo_boxes ++ []) 1 28 (lit "moov") = Done (Some (11, 8)).
Proof.
  destruct (walks_find_boxes [9] demo_boxes [] (lit "moov") demo_boxes_ok ltac:(by vm_compute)) as (_ & H & _).
  exact H.
Defined.

(** A single box of eight bytes. *)
Lemma box_walks_terminate_witness :
  exists o, find_child_box (render (mkBox (lit "moov") [])) 0 8 (lit "moov") = Done o.
Proof.
  destruct (box_walks_terminate (render (mkBox (lit "moov") [])) 0 8 (lit "moov")) as [(o & Ho & _) _];
    [by vm_compute| |by vm_compute|by vm_compute|by exists o].
  intros cur n t h Hc Hr. unfold read_box_header in Hr. rewrite uadd_small in Hr by lia.
  change (len (render (mkBox (lit "moov") []))) with 8 in Hr.
  destruct (Z.ltb_spec 8 (cur + 8)); [done|]. assert (cur = 0) as -> by lia. vm_compute in Hr. by simplify_eq.
Defined.
