(* ===== verification/Acquisition.v ===== *)
(** * Acquisition: finding a source for a track (crates/apple/src/acquisition.rs)

    [connect_stream] tries, round after round, the mirror that MirrorPolicy.v chose and the decryption
    wrapper, natively or through its two addresses.  The answers of the transport (Streaming.v), of the
    native wrapper and the looks at the cancellation token come from an environment; every request,
    pause and report to the mirror's policy is logged.  Progress reports are left out. *)
From S2P Require Import Prelude Text Bytes Boxes Music Retry Streaming Ripper MirrorPolicy.

Inductive WrapperTrackOutcome : Type := WrapperSource (s : AudioStreamSource) | WrapperUnavailable (r : WrapperUnavailableReason).

Inductive WrapperKind : Type := Native | Endpoints.

Definition wrapper_kind_from (value : option str) : WrapperKind :=
  if bool_decide (value = Some (lit "endpoints")) then Endpoints else Native.

Inductive AcquisitionAttempt : Type :=
| Source (s : AudioStreamSource) | AttemptAbsent | Typed (e : StreamError) | NoSource.

Inductive AcquisitionOutcome : Type := AcquiredStream (s : AudioStreamSource) | RenditionAbsent.

Definition map_acquisition_outcome (r : result StreamError AcquisitionOutcome) : result RipError AudioStreamSource :=
  match r with
  | Ok (AcquiredStream s) => Ok s
  | Ok RenditionAbsent => Err (RRenditionUnavailable (lit "Dolby Atmos is unavailable"))
  | Err error => Err (rip_of_stream error)
  end.

(** ** Configuration *)

Definition MAX_STREAM_RETRY_BASE_MS : Z := 30000.

Definition acquisition_default : RetryPolicy := mkRetryPolicy DEFAULT_RETRIES DEFAULT_RETRY_BASE_MS.

Definition positive (o : option Z) : option Z := match o with Some n => if 0 <? n then Some n else None | None => None end.

(** [AppleAcquisitionConfig::from_environment]. *)
Definition acquisition_from_lookup (lookup_env : str -> option str) : RetryPolicy :=
  mkRetryPolicy (default DEFAULT_RETRIES (positive (lookup_env (lit "ALAC_STREAM_RETRIES") ≫= parse_u 32)))
    (Z.min MAX_STREAM_RETRY_BASE_MS
       (default DEFAULT_RETRY_BASE_MS (positive (lookup_env (lit "ALAC_STREAM_RETRY_BASE_MS") ≫= parse_u 64)))).

(** What [with_config] makes of a configuration. *)
Definition bounded_config (p : RetryPolicy) : RetryPolicy :=
  mkRetryPolicy (Z.max (total_attempts p) 1) (Z.min (policy_base_delay_ms p) MAX_STREAM_RETRY_BASE_MS).

(** ** One round *)

Definition eq_ignore_ascii_case (a b : str) : bool := bool_decide (to_ascii_lowercase a = to_ascii_lowercase b).

Definition accept_stream (stream : AudioStreamSource) (p : CodecPreference) : result WrapperUnavailableReason AudioStreamSource :=
  match p with
  | PreferAtmos => if eq_ignore_ascii_case (as_codec stream) (lit "ec-3") then Ok stream else Err NonEc3StreamForAtmos
  | _ => Ok stream
  end.

Definition rendition_absence (reason : WrapperUnavailableReason) (p : CodecPreference) : AcquisitionAttempt :=
  match p with
  | PreferAtmos => AttemptAbsent
  | _ => match reason with
         | M3u8NotFound => Typed (SPermanent (unavailable_display reason))
         | _ => Typed (SMessage (unavailable_display reason))
         end
  end.

Definition accepted_attempt (stream : AudioStreamSource) (p : CodecPreference) : AcquisitionAttempt :=
  match accept_stream stream p with Ok stream => Source stream | Err reason => rendition_absence reason p end.

Inductive acq_look : Type :=
| BeforePause (round : nat) | DuringPause (round : nat) | OnMirrorError (round : nat)
| BeforeCandidate (round k : nat) | AfterCandidate (round k : nat) | AfterCandidates (round : nat)
| AfterAttempt (round : nat) | AfterRound (round : nat) | AtTheEnd.

Inductive acq_event : Type :=
| Asked (round : nat) (url : str) (source : SourceId)
| AskedNative (round : nat)
| MirrorGood | MirrorBad (message : str)
| Paused (ms : Z).

Record acq_env := mkAcq {
  aq_cancelled : acq_look -> bool;
  aq_endpoint : option MirrorEndpoint;                                  (* [get_endpoint(false, ..).ok()] *)
  aq_fetch : nat -> str -> result StreamError AudioStreamSource;        (* by round and address *)
  aq_native : nat -> result StreamError WrapperTrackOutcome;
}.

Record acq_state := mkAcqState { acq_errors : list str; acq_log : list acq_event }.

Definition push_error (m : str) (s : acq_state) : acq_state := mkAcqState (acq_errors s ++ [m]) (acq_log s).
Definition log_acq (e : acq_event) (s : acq_state) : acq_state := mkAcqState (acq_errors s) (acq_log s ++ [e]).

Section Acquire.
Variables (env : acq_env) (wrapper_url : option str) (wrapper_kind : WrapperKind) (config : RetryPolicy).
Variables (track_id : str) (preference : CodecPreference).

(** [trim().trim_end_matches('/')], if something is left. *)
Definition clean_wrapper : option str := url ← wrapper_url; non_empty (Some (trim_slashes (trim url))).

(** The mirror's turn: an attempt that ends the round, or the state after its failure. *)
Definition try_mirror (round : nat) (s : acq_state) : (AcquisitionAttempt * acq_state) + acq_state :=
  match aq_endpoint env with
  | None => inr s
  | Some primary =>
      match preference with
      | PreferAtmos => inr (push_error (lit "Skipping primary mirror: Atmos requested") s)
      | _ =>
          let url := trim_slashes (mirror_url primary) ++ lit "/api/stream/" ++ track_id in
          let s := log_acq (Asked round url PrimaryMirror) s in
          match aq_fetch env round url with
          | Ok stream => inl (accepted_attempt stream preference, log_acq MirrorGood s)
          | Err SCancelled => inr (push_error (lit "Primary mirror cancelled") s)
          | Err error =>
              let message := stream_error_display error in
              let s := push_error (lit "Primary mirror failed: " ++ message) s in
              inr (if aq_cancelled env (OnMirrorError round) then s else log_acq (MirrorBad message) s)
          end
      end
  end.

Definition try_native (round : nat) (s : acq_state) : AcquisitionAttempt * acq_state :=
  let s := log_acq (AskedNative round) s in
  match aq_native env round with
  | Ok (WrapperSource source) => (accepted_attempt source preference, s)
  | Ok (WrapperUnavailable reason) => (rendition_absence reason preference, s)
  | Err ((SSourceOffline _ | SAuthentication _) as error) => (Typed error, s)
  | Err error => (NoSource, push_error (lit "Native wrapper engine failed: " ++ stream_error_display error) s)
  end.

Definition cancelled_words : str := lit ": Download was cancelled".

(** The loop over the wrapper's addresses, [k] of which are behind. *)
Fixpoint try_candidates (round k : nat) (urls : list str) (only_unavailable : bool) (reason : option WrapperUnavailableReason)
    (s : acq_state) : AcquisitionAttempt * acq_state :=
  match urls with
  | [] =>
      if aq_cancelled env (AfterCandidates round)
      then (NoSource, push_error (lit "Wrapper candidate iteration cancelled" ++ cancelled_words) s)
      else match reason with
           | Some reason => if only_unavailable then (rendition_absence reason preference, s) else (NoSource, s)
           | None => (NoSource, s)
           end
  | endpoint :: urls =>
      if aq_cancelled env (BeforeCandidate round k)
      then (NoSource, push_error (lit "Wrapper candidate iteration cancelled before " ++ endpoint ++ cancelled_words) s)
      else
        let s := log_acq (Asked round endpoint (WrapperCandidate endpoint)) s in
        match aq_fetch env round endpoint with
        | Ok stream =>
            if aq_cancelled env (AfterCandidate round k)
            then (NoSource, push_error (lit "Wrapper candidate (" ++ endpoint ++ lit ") cancelled after resolution" ++ cancelled_words) s)
            else match accept_stream stream preference with
                 | Ok source => (Source source, s)
                 | Err r => try_candidates round (S k) urls only_unavailable (Some r) s
                 end
        | Err SCancelled =>
            try_candidates round (S k) urls false reason
              (push_error (lit "Wrapper candidate (" ++ endpoint ++ lit ") cancelled" ++ cancelled_words) s)
        | Err error =>
            try_candidates round (S k) urls false reason
              (push_error (lit "Wrapper candidate (" ++ endpoint ++ lit ") failed: " ++ stream_error_display error) s)
        end
  end.

Definition connect_once (round : nat) (s : acq_state) : AcquisitionAttempt * acq_state :=
  match try_mirror round s with
  | inl ended => ended
  | inr s =>
      match clean_wrapper with
      | None => (NoSource, s)
      | Some url =>
          match wrapper_kind with
          | Native => try_native round s
          | Endpoints =>
              try_candidates round 0 [url ++ lit "/api/stream/" ++ track_id; url ++ lit "/stream/" ++ track_id] true None s
          end
      end
  end.

(** ** The rounds *)

Definition add_new (all : list str) (message : str) : list str := if bool_decide (message ∈ all) then all else all ++ [message].

Definition join_errors (errors : list str) : str :=
  match errors with [] => [] | e :: es => e ++ concat ((fun e => lit "; " ++ e) <$> es) end.

Definition abandon (all : list str) : result StreamError AcquisitionOutcome :=
  if aq_cancelled env AtTheEnd then Err SCancelled
  else match clean_wrapper with
       | None => Err (SMessage (lit "Audio streaming failed and no wrapper URL is configured. Errors: " ++ join_errors all))
       | Some _ =>
           Err (SMessage (lit "Failed to stream audio from all sources. All streaming endpoints failed for track " ++ track_id ++
                          lit ". Errors: " ++ join_errors all))
       end.

(** The [for] over the rounds; [left_] are left. *)
Fixpoint rounds_loop (left_ round : nat) (all : list str) (log : list acq_event) :
    result StreamError AcquisitionOutcome * list acq_event :=
  match left_ with
  | O => (abandon all, log)
  | S left_ =>
      if (0 <? round)%nat && aq_cancelled env (BeforePause round) then (abandon all, log)
      else
        let log := if (0 <? round)%nat
                   then log ++ [Paused (exponential_delay (policy_base_delay_ms config) (Z.of_nat round - 1))] else log in
        if (0 <? round)%nat && aq_cancelled env (DuringPause round) then (abandon all, log)
        else
          let '(attempt, s) := connect_once round (mkAcqState [] log) in
          if aq_cancelled env (AfterAttempt round) then (Err SCancelled, acq_log s)
          else match attempt with
               | Source stream => (Ok (AcquiredStream stream), acq_log s)
               | AttemptAbsent => (Ok RenditionAbsent, acq_log s)
               | Typed error => (Err error, acq_log s)
               | NoSource =>
                   let all := foldl add_new all (acq_errors s) in
                   if aq_cancelled env (AfterRound round) then (abandon all, acq_log s)
                   else rounds_loop left_ (S round) all (acq_log s)
               end
  end.

Definition connect_stream : result StreamError AcquisitionOutcome * list acq_event :=
  rounds_loop (Z.to_nat (Z.max (total_attempts config) 1)) 0 [] [].
End Acquire.

(** The reports of an acquisition, and of the ripper's observations, to the mirror's policy. *)
Definition acq_report (now : Z) (e : acq_event) (s : PolicyState) : PolicyState :=
  match e with MirrorGood => record_success s | MirrorBad m => record_failure now m s | _ => s end.

Definition observe_stream_failure (now : Z) (source : SourceId) (kind : SourceFailureKind) (detail : str) (s : PolicyState) : PolicyState :=
  match source with PrimaryMirror => record_failure now detail s | _ => s end.

(** ** Specification *)

Section Facts.
Variables (env : acq_env) (wrapper_url : option str) (wrapper_kind : WrapperKind) (config : RetryPolicy).
Variables (track_id : str) (preference : CodecPreference).

Definition codec_fits (st : AudioStreamSource) : Prop :=
  preference = PreferAtmos -> eq_ignore_ascii_case (as_codec st) (lit "ec-3") = true.

(** The stream is the answer to a request of the log. *)
Definition answered (round : nat) (log : list acq_event) (st : AudioStreamSource) : Prop :=
  (exists url source, Asked round url source ∈ log /\ aq_fetch env round url = Ok st) \/
  (AskedNative round ∈ log /\ aq_native env round = Ok (WrapperSource st)).

(** What an event of a round may be: the mirror is left alone when Atmos is wanted, and blamed for an
    error of its own only. *)
Definition event_ok (e : acq_event) : Prop :=
  match e with
  | Asked _ _ PrimaryMirror | MirrorGood => preference <> PreferAtmos
  | MirrorBad m => preference <> PreferAtmos /\ exists round url error, aq_cancelled env (OnMirrorError round) = false /\
      aq_fetch env round url = Err error /\ error <> SCancelled /\ m = stream_error_display error
  | _ => True
  end.

Definition is_request (e : acq_event) : bool := match e with Asked _ _ _ | AskedNative _ => true | _ => false end.
Definition pauses (log : list acq_event) : list Z := omap (fun e => match e with Paused ms => Some ms | _ => None end) log.
Definition requests (log : list acq_event) : nat := length (filter (fun e => is_request e = true) log).

Definition attempt_fits (round : nat) (l : list acq_event) (a : AcquisitionAttempt) : Prop :=
  match a with
  | Source st => codec_fits st /\ answered round l st
  | AttemptAbsent => preference = PreferAtmos
  | Typed e => e <> SCancelled
  | NoSource => True
  end.

(** [l] is what a part of a round adds to the log, with at most [n] requests. *)
Definition part (n : nat) (l : list acq_event) : Prop := Forall event_ok l /\ pauses l = [] /\ (requests l <= n)%nat.

Lemma part_nil n : part n [].
Proof. split; [apply Forall_nil_2|]. split; [done|cbn; lia]. Qed.

Lemma part_one e : event_ok e -> pauses [e] = [] -> part 1 [e].
Proof. intros He Hp. split; [by apply Forall_singleton|]. split; [done|]. unfold requests. cbn. destruct (decide _); cbn; lia. Qed.

Lemma part_weaken n m l : (n <= m)%nat -> part n l -> part m l.
Proof. intros Hn (? & ? & ?). split; [done|]. split; [done|lia]. Qed.

Lemma part_app n m l k : part n l -> part m k -> part (n + m) (l ++ k).
Proof.
  intros (H1 & H2 & H3) (K1 & K2 & K3). unfold part, pauses, requests in *. rewrite omap_app, H2, K2, filter_app, length_app.
  split_and!; [by apply Forall_app|done|lia].
Qed.

Lemma answered_mono round l k st : (forall e, e ∈ l -> e ∈ k) -> answered round l st -> answered round k st.
Proof. intros H [(u & src & Hin & Hf)|[Hin Hn]]; [left; exists u, src; auto|right; auto]. Qed.

Lemma answered_asked round url source l st : Asked round url source ∈ l -> aq_fetch env round url = Ok st -> answered round l st.
Proof. intros Hin Hf. left. by exists url, source. Qed.

Lemma attempt_fits_mono round l k a : (forall e, e ∈ l -> e ∈ k) -> attempt_fits round l a -> attempt_fits round k a.
Proof. intros H. destruct a; cbn; try done. intros [? Ha]. split; [done|by eapply answered_mono]. Qed.

Lemma absence_fits round l reason : attempt_fits round l (rendition_absence reason preference).
Proof. unfold rendition_absence. destruct preference eqn:E, reason; cbn; try done; exact E. Qed.

Lemma accept_stream_ok st st' : accept_stream st preference = Ok st' -> st' = st /\ codec_fits st.
Proof.
  unfold accept_stream, codec_fits. destruct preference eqn:E; try (by intros [= ->]).
  destruct (eq_ignore_ascii_case _ _) eqn:Ec; [|done]. by intros [= ->].
Qed.

Lemma accepted_fits round l st : answered round l st -> attempt_fits round l (accepted_attempt st preference).
Proof.
  intros H. unfold accepted_attempt. destruct (accept_stream st preference) as [st'|r] eqn:E; [|apply absence_fits].
  by apply accept_stream_ok in E as [-> E].
Qed.

Lemma candidates_part round urls : forall k only reason s,
  let '(a, s') := try_candidates env preference round k urls only reason s in
  exists l, acq_log s' = acq_log s ++ l /\ part (length urls) l /\ attempt_fits round l a.
Proof.
  assert (Hnil : part 0 []) by apply part_nil.
  induction urls as [|u urls IH]; intros k only reason s; cbn [try_candidates length].
  { destruct (aq_cancelled env _); [exists []; by rewrite app_nil_r|].
    destruct reason as [r|]; [destruct only|]; exists []; rewrite app_nil_r; (split_and!; [done..|]); try done. apply absence_fits. }
  assert (Hone : part 1 [Asked round u (WrapperCandidate u)]) by by apply part_one.
  assert (Hfew : forall l, part 1 l -> part (S (length urls)) l) by (intros l; apply part_weaken; lia).
  destruct (aq_cancelled env _); [exists []; rewrite app_nil_r; split_and!; [done|apply part_nil|done]|].
  assert (Hstep : forall only' reason' s0, acq_log s0 = acq_log s ++ [Asked round u (WrapperCandidate u)] ->
    let '(a, s') := try_candidates env preference round (S k) urls only' reason' s0 in
    exists l, acq_log s' = acq_log s ++ l /\ part (S (length urls)) l /\ attempt_fits round l a).
  { intros only' reason' s0 Hs0. specialize (IH (S k) only' reason' s0).
    destruct (try_candidates env preference round (S k) urls only' reason' s0) as [a s']. destruct IH as (l & Hl & Hp & Hf).
    exists (Asked round u (WrapperCandidate u) :: l). split_and!; [rewrite Hl, Hs0, <-app_assoc; done| |].
    - by apply (part_app 1 (length urls) [Asked round u (WrapperCandidate u)]).
    - eapply attempt_fits_mono; [|exact Hf]. intros e He. set_solver. }
  destruct (aq_fetch env round u) as [st|e] eqn:Ef.
  - destruct (aq_cancelled env _).
    { eexists. split_and!; [done|by apply Hfew|done]. }
    destruct (accept_stream st preference) as [st'|r] eqn:Ea; [|by apply Hstep].
    apply accept_stream_ok in Ea as [-> Ec]. eexists. split; [done|]. split; [by apply Hfew|]. split; [done|].
    apply (answered_asked round u (WrapperCandidate u)); [set_solver|done].
  - destruct e; apply Hstep; done.
Qed.

Lemma mirror_part round s :
  match try_mirror env track_id preference round s with
  | inl (a, s') => exists l, acq_log s' = acq_log s ++ l /\ part 1 l /\ attempt_fits round l a
  | inr s' => exists l, acq_log s' = acq_log s ++ l /\ part 1 l
  end.
Proof.
  unfold try_mirror. destruct (aq_endpoint env) as [primary|]; [|exists []; rewrite app_nil_r; split; [done|apply part_nil]].
  assert (Hp : preference = PreferAtmos \/ preference <> PreferAtmos) by (destruct preference; auto).
  destruct Hp as [Hp|Hp]; [rewrite Hp; exists []; rewrite app_nil_r; split; [done|apply part_nil]|].
  set (url := trim_slashes (mirror_url primary) ++ lit "/api/stream/" ++ track_id).
  assert (Hm : forall A (x y : A), (match preference with PreferAtmos => x | _ => y end) = y) by (intros; destruct preference eqn:E; done).
  rewrite Hm. clear Hm.
  assert (Hask : part 1 [Asked round url PrimaryMirror]) by by apply part_one.
  destruct (aq_fetch env round url) as [st|e] eqn:Ef.
  - exists [Asked round url PrimaryMirror; MirrorGood]. cbn [acq_log log_acq]. rewrite <-app_assoc. split; [done|].
    split; [apply (part_app 1 0 [_] [_]); [exact Hask|split; [by apply Forall_singleton|done]]|].
    apply accepted_fits, (answered_asked round url PrimaryMirror); [set_solver|exact Ef].
  - assert (Hbad : e <> SCancelled -> let s1 := push_error (lit "Primary mirror failed: " ++ stream_error_display e) (log_acq (Asked round url PrimaryMirror) s) in
      exists l, acq_log (if aq_cancelled env (OnMirrorError round) then s1 else log_acq (MirrorBad (stream_error_display e)) s1) = acq_log s ++ l /\ part 1 l).
    { intros Hne. cbv zeta. destruct (aq_cancelled env (OnMirrorError round)) eqn:Ec; [by eexists|].
      exists [Asked round url PrimaryMirror; MirrorBad (stream_error_display e)]. cbn [acq_log log_acq push_error].
      rewrite <-app_assoc. split; [done|]. apply (part_app 1 0 [_] [_]); [exact Hask|].
      split; [|done]. apply Forall_singleton. split; [done|]. by exists round, url, e. }
    destruct e; try (by apply Hbad). by eexists.
Qed.

Lemma native_part round s :
  let '(a, s') := try_native env preference round s in
  exists l, acq_log s' = acq_log s ++ l /\ part 1 l /\ attempt_fits round l a.
Proof.
  assert (Hone : part 1 [AskedNative round]) by by apply part_one.
  unfold try_native. destruct (aq_native env round) as [[st|r]|e] eqn:En.
  - eexists. split; [done|]. split; [exact Hone|]. apply accepted_fits. right. split; [set_solver|done].
  - eexists. split; [done|]. split; [exact Hone|]. apply absence_fits.
  - destruct e; eexists; (split; [done|]); (split; [exact Hone|done]).
Qed.

Lemma connect_once_part round s :
  let '(a, s') := connect_once env wrapper_url wrapper_kind track_id preference round s in
  exists l, acq_log s' = acq_log s ++ l /\ part 3 l /\ attempt_fits round l a.
Proof.
  unfold connect_once. pose proof (mirror_part round s) as Hm. destruct (try_mirror _ _ _ round s) as [[a s']|s1].
  { destruct Hm as (l & Hl & Hp & Hf). exists l. split_and!; [done|by eapply part_weaken; [|exact Hp]; lia|done]. }
  destruct Hm as (l & Hl & Hp). destruct (clean_wrapper wrapper_url) as [url|].
  2:{ exists l. split_and!; [done|by eapply part_weaken; [|exact Hp]; lia|done]. }
  assert (Htail : forall n a s', (exists k, acq_log s' = acq_log s1 ++ k /\ part n k /\ attempt_fits round k a) -> (n <= 2)%nat ->
    exists k, acq_log s' = acq_log s ++ k /\ part 3 k /\ attempt_fits round k a).
  { intros n a s' (k & Hk & Hpk & Hfk) Hn. exists (l ++ k). rewrite Hk, Hl, app_assoc. split_and!; [done| |].
    - apply (part_weaken (1 + n)); [lia|]. by apply part_app.
    - eapply attempt_fits_mono; [|exact Hfk]. intros e He. set_solver. }
  destruct wrapper_kind.
  - pose proof (native_part round s1) as H. destruct (try_native _ _ round s1) as [a s']. apply (Htail 1%nat a s' H). lia.
  - pose proof (candidates_part round [url ++ lit "/api/stream/" ++ track_id; url ++ lit "/stream/" ++ track_id] 0 true None s1) as H.
    destruct (try_candidates _ _ round 0 _ true None s1) as [a s']. apply (Htail 2%nat a s' H). lia.
Qed.

(** The pauses before [n] rounds, the first of them [from]. *)
Definition backoff (from n : nat) : list Z :=
  (fun r => exponential_delay (policy_base_delay_ms config) (Z.of_nat r - 1)) <$> seq from n.

Definition loop_event (e : acq_event) : Prop := match e with Paused _ => True | e => event_ok e end.

Definition outcome_fits (l : list acq_event) (r : result StreamError AcquisitionOutcome) : Prop :=
  match r with
  | Ok (AcquiredStream st) => codec_fits st /\ exists round, answered round l st /\ aq_cancelled env (AfterAttempt round) = false
  | Ok RenditionAbsent => preference = PreferAtmos
  | Err SCancelled => exists look, aq_cancelled env look = true
  | Err _ => True
  end.

Lemma abandon_fits l all : outcome_fits l (abandon env wrapper_url track_id all).
Proof. unfold abandon. destruct (aq_cancelled env AtTheEnd) eqn:E; [by exists AtTheEnd|]. by destruct (clean_wrapper wrapper_url). Qed.

Lemma event_ok_loop l : Forall event_ok l -> Forall loop_event l.
Proof. intros H. eapply Forall_impl; [exact H|]. by intros []. Qed.

(** What the rounds from [round] on add to the log. *)
Definition loop_ok (left_ round : nat) (l : list acq_event) : Prop :=
  Forall loop_event l /\ (requests l <= 3 * left_)%nat /\
  exists n, (n <= left_ + round - Nat.max 1 round)%nat /\ pauses l = backoff (Nat.max 1 round) n.

Lemma loop_ok_nil left_ round : loop_ok left_ round [].
Proof. split; [apply Forall_nil_2|]. split; [cbn; lia|]. exists 0%nat. split; [lia|done]. Qed.

(** One round, behind its pause, before the others. *)
Lemma loop_ok_step left_ round pause l k :
  pause = (if (0 <? round)%nat then [Paused (exponential_delay (policy_base_delay_ms config) (Z.of_nat round - 1))] else []) ->
  part 3 l -> loop_ok left_ (S round) k -> loop_ok (S left_) round (pause ++ l ++ k).
Proof.
  intros -> (Hl & Hpl & Hrl) (Hk & Hrk & n & Hn & Hpk). unfold loop_ok, pauses, requests in *.
  rewrite !omap_app, !filter_app, !length_app, Hpl, Hpk. split; [|split].
  - apply Forall_app. split; [destruct (0 <? round)%nat; by repeat constructor|]. apply Forall_app. split; [by apply event_ok_loop|done].
  - replace (length (filter _ (if (0 <? round)%nat then _ else _))) with 0%nat by (destruct (0 <? round)%nat; reflexivity). lia.
  - destruct round as [|round].
    + exists n. split; [lia|done].
    + exists (S n). split; [lia|]. replace (Nat.max 1 (S (S round))) with (S (S round)) by lia.
      replace (Nat.max 1 (S round)) with (S round) by lia. done.
Qed.

Lemma outcome_fits_mono l k r : (forall e, e ∈ l -> e ∈ k) -> outcome_fits l r -> outcome_fits k r.
Proof. intros H. destruct r as [[st|]|[]]; cbn; try done. intros (Hc & round & Ha & Hn). split; [done|]. exists round. split; [by eapply answered_mono|done]. Qed.

Lemma rounds_loop_ok left_ : forall round all log,
  let '(r, log') := rounds_loop env wrapper_url wrapper_kind config track_id preference left_ round all log in
  exists l, log' = log ++ l /\ loop_ok left_ round l /\ outcome_fits l r.
Proof.
  induction left_ as [|left_ IH]; intros round all log; cbn [rounds_loop].
  { exists []. rewrite app_nil_r. split; [done|]. split; [apply loop_ok_nil|apply abandon_fits]. }
  destruct (_ && aq_cancelled env (BeforePause round)).
  { exists []. rewrite app_nil_r. split; [done|]. split; [apply loop_ok_nil|apply abandon_fits]. }
  set (pause := if (0 <? round)%nat then [Paused (exponential_delay (policy_base_delay_ms config) (Z.of_nat round - 1))] else []).
  replace (if (0 <? round)%nat then log ++ [Paused (exponential_delay (policy_base_delay_ms config) (Z.of_nat round - 1))] else log)
    with (log ++ pause) by (unfold pause; destruct (0 <? round)%nat; [done|apply app_nil_r]).
  assert (Hend : forall l, part 3 l -> loop_ok (S left_) round (pause ++ l)).
  { intros l Hl. rewrite <-(app_nil_r l). apply loop_ok_step; [done|done|apply loop_ok_nil]. }
  destruct (_ && aq_cancelled env (DuringPause round)).
  { exists pause. split; [done|]. split; [|apply abandon_fits]. rewrite <-(app_nil_r pause). apply Hend, part_nil. }
  pose proof (connect_once_part round (mkAcqState [] (log ++ pause))) as Ho.
  destruct (connect_once _ _ _ _ _ round _) as [a s]. destruct Ho as (l & -> & Hp & Hf). cbn [acq_log].
  assert (Hin : forall e, e ∈ l -> e ∈ pause ++ l) by set_solver.
  destruct (aq_cancelled env (AfterAttempt round)) eqn:Ea.
  { exists (pause ++ l). rewrite app_assoc. split; [done|]. split; [by apply Hend|by exists (AfterAttempt round)]. }
  assert (Hdone : forall r, outcome_fits l r -> exists k, (log ++ pause) ++ l = log ++ k /\ loop_ok (S left_) round k /\ outcome_fits k r).
  { intros r Hr. exists (pause ++ l). rewrite app_assoc. split; [done|]. split; [by apply Hend|]. by eapply outcome_fits_mono. }
  destruct a as [st| |e|].
  - apply Hdone. destruct Hf as [Hc Han]. split; [done|]. by exists round.
  - by apply Hdone.
  - apply Hdone. by destruct e.
  - destruct (aq_cancelled env (AfterRound round)); [apply Hdone, abandon_fits|].
    specialize (IH (S round) (foldl add_new all (acq_errors s)) ((log ++ pause) ++ l)).
    destruct (rounds_loop _ _ _ _ _ _ left_ (S round) _ _) as [r log']. destruct IH as (k & -> & Hk & Hr).
    exists (pause ++ l ++ k). rewrite <-!app_assoc. split; [done|]. split; [by apply loop_ok_step|].
    eapply outcome_fits_mono; [|exact Hr]. set_solver.
Qed.
End Facts.

(** ** Properties *)

(** An acquisition ends within its rounds: at most three requests each, the pauses of the back-off
    between them.  A stream it returns is the answer to one of its requests, was obtained before any
    cancellation was seen, and is EC-3 when Atmos was wanted; a rendition is only called absent when
    Atmos was wanted; the mirror is left alone then, and blamed only for errors of its own, never for a
    cancellation; and "cancelled" is only answered when the token is. *)
Theorem acquisition_sound (env : acq_env) (wrapper_url : option str) (kind : WrapperKind) (config : RetryPolicy)
    (track_id : str) (preference : CodecPreference) :
  let rounds := Z.to_nat (Z.max (total_attempts config) 1) in
  let '(r, log) := connect_stream env wrapper_url kind config track_id preference in
  (requests log <= 3 * rounds)%nat /\
  (exists n, (n < rounds)%nat /\ pauses log = backoff config 1 n) /\
  Forall (loop_event env preference) log /\
  match r with
  | Ok (AcquiredStream st) => codec_fits preference st /\
      exists round, answered env round log st /\ aq_cancelled env (AfterAttempt round) = false
  | Ok RenditionAbsent => preference = PreferAtmos
  | Err SCancelled => exists look, aq_cancelled env look = true
  | Err _ => True
  end.
Proof.
  cbv zeta. unfold connect_stream. set (rounds := Z.to_nat _).
  pose proof (rounds_loop_ok env wrapper_url kind config track_id preference rounds 0 [] []) as H.
  destruct (rounds_loop _ _ _ _ _ _ rounds 0 [] []) as [r log]. destruct H as (l & -> & (He & Hr & n & Hn & Hp) & Ho).
  split_and!; [done| |done|exact Ho]. exists n. split; [|exact Hp]. unfold rounds in *. lia.
Qed.
