(* ===== verification/WrapperPlaylist.v ===== *)
(** * WrapperPlaylist: the playlists of the decryption wrapper (crates/apple/src/wrapper/playlist.rs)

    Attribute lists, the master playlist and the choice of a variant, the media playlist with its keys
    and byte ranges.  The standard library's text functions that only these parsers use come first.
    Every [expect] is an outcome that may panic; ranks are [i64] and wrap around. *)
From S2P Require Import Prelude Text Bytes Boxes Music.

(** ** Text *)

Definition strip_cr (line : str) : str := default line (strip_suffix [13] line).

(** [str::lines]: a line ends with "\n" or "\r\n", the last one possibly with nothing. *)
Fixpoint end_lines (pieces : list str) : list str :=
  match pieces with
  | [] => []
  | [final] => match final with [] => [] | _ => [final] end
  | piece :: pieces => strip_cr piece :: end_lines pieces
  end.
Definition lines (s : str) : list str := end_lines (split_on 10 s).

Fixpoint split_once (c : rchar) (s : str) : option (str * str) :=
  match s with
  | [] => None
  | x :: s => if x =? c then Some ([], s) else '(a, b) ← split_once c s; Some (x :: a, b)
  end.

Definition starts_with (p s : str) : bool := match strip_prefix p s with Some _ => true | None => false end.

(** [trim_matches] of one character, and the text before the last slash ([rfind]). *)
Definition QUOTE : rchar := 34.
Definition unquote (s : str) : str := trim_end_by (Z.eqb QUOTE) (trim_start_by (Z.eqb QUOTE) s).
Definition before_last_slash (s : str) : option str := (fun p => reverse (snd p)) <$> split_once 47 (reverse s).

(** ** Data *)

Record StreamVariant := mkVariant { sv_uri : str; sv_codec : str; sv_group_id : str; sv_bandwidth : Z }.
Record AlacStreamInfo := mkStreamInfo { stream_url : str; si_codec : str; si_sample_rate : Z; si_bit_depth : Z }.
Record MediaSegmentRef := mkSegment { seg_uri : str; byte_range : option (Z * Z); seg_key_uri : option str }.
Record MediaPlaylistInfo := mkMediaPlaylist {
  init_uri : str; init_byte_range : option (Z * Z); segments : list MediaSegmentRef; single_file_url : option str;
  key_method : option str; cenc_kid_b64 : option str;
}.

Definition resolve_url (base uri : str) : str :=
  if starts_with (lit "http://") uri || starts_with (lit "https://") uri then uri
  else
    let base := default base (head (split_on 63 base)) in
    match before_last_slash base with Some dir => dir ++ lit "/" ++ uri | None => uri end.

Definition parse_byte_range (val : str) : option (Z * Z) :=
  let val := trim (unquote val) in
  match split_once 64 val with
  | Some (len_str, off_str) => len ← parse_u 64 len_str; off ← parse_u 64 off_str; Some (off, len)
  | None => len ← parse_u 64 val; Some (0, len)
  end.

(** ** Attribute lists *)

Definition malformed_attribute_error : WrapperError := Message (lit "Playlist has a malformed HLS attribute component").

Definition has_quote (s : str) : bool := existsb (Z.eqb QUOTE) s.

(** The conditions of [validate_attribute_component]. *)
Definition component_ok (part : str) : bool :=
  match split_once 61 part with
  | None => false
  | Some (key, value) =>
      let key := trim key in
      let value := trim value in
      match key, value with
      | [], _ | _, [] => false
      | _, c :: rest =>
          if c =? QUOTE then
            match strip_suffix [QUOTE] rest with
            | None | Some [] => false
            | Some quoted => negb (has_quote quoted)
            end
          else negb (has_quote value)
      end
  end.

Definition validate_attribute_component (part : str) : run unit :=
  if component_ok part then Done tt else Fail malformed_attribute_error.

(** The loop over the characters; [part] is the component so far. *)
Fixpoint split_parts (in_quotes : bool) (part s : str) : run (list str) :=
  match s with
  | [] =>
      if in_quotes then Fail malformed_attribute_error
      else _ ← validate_attribute_component (trim part); Done [trim part]
  | c :: s =>
      if c =? QUOTE then split_parts (negb in_quotes) (part ++ [c]) s
      else if (c =? 44) && negb in_quotes then
        _ ← validate_attribute_component (trim part);
        parts ← split_parts in_quotes [] s;
        Done (trim part :: parts)
      else split_parts in_quotes (part ++ [c]) s
  end.

Definition split_attributes (s : str) : run (list str) :=
  match trim s with [] => Fail malformed_attribute_error | _ => split_parts false [] s end.

(** [part.split_once('=').expect(..)], key and value cleaned. *)
Definition attribute (part : str) : run (str * str) :=
  '(k, v) ← must (split_once 61 part);
  Done (trim k, unquote (trim v)).

Fixpoint attributes (parts : list str) : run (list (str * str)) :=
  match parts with
  | [] => Done []
  | part :: parts => kv ← attribute part; kvs ← attributes parts; Done (kv :: kvs)
  end.

(** The attributes of a tag, in order. *)
Definition read_attributes (attrs : str) : run (list (str * str)) := parts ← split_attributes attrs; attributes parts.

(** ** Numbers *)

Definition invalid (attribute value : str) : WrapperError :=
  Message (lit "Master playlist has invalid " ++ attribute ++ lit ": " ++ value).

Definition parse_positive (w : Z) (value attribute : str) : run Z :=
  match parse_u w value with
  | Some parsed => if parsed =? 0 then Fail (invalid attribute value) else Done parsed
  | None => Fail (invalid attribute value)
  end.
Definition parse_positive_u64 := parse_positive 64.
Definition parse_positive_u32 := parse_positive 32.

Definition invalid_group (group_id : str) : WrapperError := Message (lit "Master playlist has invalid audio group: " ++ group_id).

Definition group_bitrate (group_id prefix : str) : run Z :=
  rest ← or_fail (strip_prefix prefix group_id) (invalid_group group_id);
  let bitrate_token := match split_once 45 rest with Some (bitrate, _) => bitrate | None => rest end in
  bitrate ← parse_positive_u64 bitrate_token (lit "audio group bitrate");
  if bitrate <? 2 ^ 63 then Done bitrate else Fail (invalid_group group_id).

Definition alac_group_specs (group_id : str) : run (Z * Z) :=
  match reverse (split_on 45 group_id) with
  | depth :: rate :: _ =>
      rate ← parse_positive_u32 rate (lit "ALAC sample rate");
      depth ← parse_positive_u32 depth (lit "ALAC bit depth");
      Done (rate, depth)
  | _ => Fail (Message (lit "Master playlist has invalid ALAC audio group: " ++ group_id))
  end.

(** ** The master playlist *)

Definition media_tag : str := lit "#EXT-X-MEDIA:".
Definition stream_tag : str := lit "#EXT-X-STREAM-INF:".

Definition is_master_playlist (content : str) : bool :=
  bool_decide (find_map (fun line => match trim line with [] => None | l => Some l end) (lines content) = Some (lit "#EXTM3U")) &&
  existsb (fun line => starts_with stream_tag (trim line)) (lines content).

(** [match key { "SAMPLE-RATE" | "BIT-DEPTH" => parse_positive_u32(..)? }] over a tag's attributes. *)
Fixpoint validate_numbers (kvs : list (str * str)) : run unit :=
  match kvs with
  | [] => Done tt
  | (key, value) :: kvs =>
      _ ← (if bool_decide (key = lit "SAMPLE-RATE") then _ ← parse_positive_u32 value (lit "SAMPLE-RATE"); Done tt
           else if bool_decide (key = lit "BIT-DEPTH") then _ ← parse_positive_u32 value (lit "BIT-DEPTH"); Done tt
           else Done tt);
      validate_numbers kvs
  end.

Fixpoint validate_media_numeric_attributes (ls : list str) : run unit :=
  match ls with
  | [] => Done tt
  | line :: ls =>
      _ ← match strip_prefix media_tag (trim line) with
          | Some attrs => kvs ← read_attributes attrs; validate_numbers kvs
          | None => Done tt
          end;
      validate_media_numeric_attributes ls
  end.

(** The last value given for a key. *)
Definition last_value (key : str) (kvs : list (str * str)) : option str :=
  foldl (fun found kv => if bool_decide (fst kv = key) then Some (snd kv) else found) None kvs.

Definition rendition_codec (group_id : str) : option (str * str) :=
  if starts_with (lit "audio-stereo-") group_id then Some (lit "mp4a.40.2", lit "audio-stereo-")
  else if starts_with (lit "audio-HE-stereo-") group_id then Some (lit "mp4a.40.5", lit "audio-HE-stereo-")
  else if starts_with (lit "audio-atmos-") group_id then Some (lit "ec-3", lit "audio-atmos-")
  else None.

Definition audio_rendition (master_url : str) (kvs : list (str * str)) : run (list StreamVariant) :=
  if bool_decide (last_value (lit "TYPE") kvs = Some (lit "AUDIO")) then
    match last_value (lit "GROUP-ID") kvs, last_value (lit "URI") kvs with
    | Some group_id, Some uri =>
        match rendition_codec group_id with
        | Some (codec, bitrate_prefix) =>
            bitrate ← group_bitrate group_id bitrate_prefix;
            Done [mkVariant (resolve_url master_url uri) codec group_id bitrate]
        | None => Done []
        end
    | _, _ => Done []
    end
  else Done [].

Fixpoint collect_audio_renditions (ls : list str) (master_url : str) : run (list StreamVariant) :=
  match ls with
  | [] => Done []
  | line :: ls =>
      here ← match strip_prefix media_tag (trim line) with
             | Some attrs => kvs ← read_attributes attrs; audio_rendition master_url kvs
             | None => Done []
             end;
      rest ← collect_audio_renditions ls master_url;
      Done (here ++ rest)
  end.

Definition malformed_variant : WrapperError := Message (lit "Master playlist has a malformed stream variant tag").

(** The attributes of a stream tag; [bandwidth] so far. *)
Fixpoint variant_attributes (parts : list str) (v : StreamVariant) (bandwidth : option Z) : run (StreamVariant * option Z) :=
  match parts with
  | [] => Done (v, bandwidth)
  | part :: parts =>
      '(key, value) ← or_fail (split_once 61 part) malformed_variant;
      let key := trim key in
      let value := unquote (trim value) in
      match key, value with
      | [], _ | _, [] => Fail malformed_variant
      | _, _ =>
          if bool_decide (key = lit "CODECS") then variant_attributes parts (mkVariant (sv_uri v) value (sv_group_id v) (sv_bandwidth v)) bandwidth
          else if bool_decide (key = lit "AUDIO") then variant_attributes parts (mkVariant (sv_uri v) (sv_codec v) value (sv_bandwidth v)) bandwidth
          else if bool_decide (key = lit "BANDWIDTH") then
            b ← parse_positive_u64 value (lit "BANDWIDTH"); variant_attributes parts v (Some b)
          else if bool_decide (key = lit "AVERAGE-BANDWIDTH") then
            average ← parse_positive_u64 value (lit "AVERAGE-BANDWIDTH");
            variant_attributes parts v (match bandwidth with None => Some average | b => b end)
          else variant_attributes parts v bandwidth
      end
  end.

Definition validate_variant_group (v : StreamVariant) : run unit :=
  if bool_decide (sv_codec v = lit "alac") then _ ← alac_group_specs (sv_group_id v); Done tt
  else if bool_decide (sv_codec v = lit "ec-3") && starts_with (lit "audio-atmos") (sv_group_id v) then
    _ ← group_bitrate (sv_group_id v) (lit "audio-atmos-"); Done tt
  else if bool_decide (sv_codec v = lit "mp4a.40.2") && starts_with (lit "audio-stereo") (sv_group_id v) then
    _ ← group_bitrate (sv_group_id v) (lit "audio-stereo-"); Done tt
  else if bool_decide (sv_codec v = lit "mp4a.40.5") && starts_with (lit "audio-HE-stereo") (sv_group_id v) then
    _ ← group_bitrate (sv_group_id v) (lit "audio-HE-stereo-"); Done tt
  else Done tt.

Definition stream_variant (attrs : str) : run StreamVariant :=
  match trim attrs with
  | [] => Fail (Message (lit "Master playlist has an empty stream variant tag"))
  | _ =>
      parts ← split_attributes attrs;
      '(v, bandwidth) ← variant_attributes parts (mkVariant [] [] [] 0) None;
      b ← or_fail bandwidth (Message (lit "Master playlist stream variant is missing BANDWIDTH"));
      let v := mkVariant (sv_uri v) (sv_codec v) (sv_group_id v) b in
      match sv_codec v, sv_group_id v with
      | [], _ | _, [] => Fail (Message (lit "Master playlist stream variant is missing CODECS or AUDIO"))
      | _, _ => _ ← validate_variant_group v; Done v
      end
  end.

Definition without_uri : WrapperError := Message (lit "Master playlist has a stream variant without a URI").

Fixpoint collect_variants (ls : list str) (master_url : str) (pending : option StreamVariant) : run (list StreamVariant) :=
  match ls with
  | [] => match pending with Some _ => Fail without_uri | None => Done [] end
  | line :: ls =>
      let line := trim line in
      match strip_prefix stream_tag line, pending with
      | Some _, Some _ => Fail without_uri
      | Some attrs, None => v ← stream_variant attrs; collect_variants ls master_url (Some v)
      | None, Some v =>
          match line with
          | [] => collect_variants ls master_url pending
          | c :: _ =>
              if c =? 35 then collect_variants ls master_url pending
              else
                rest ← collect_variants ls master_url None;
                Done (mkVariant (resolve_url master_url line) (sv_codec v) (sv_group_id v) (sv_bandwidth v) :: rest)
          end
      | None, None => collect_variants ls master_url pending
      end
  end.

(** ** Choosing a variant *)

Definition is_atmos (p : CodecPreference) : bool := match p with PreferAtmos => true | _ => false end.

Definition group_rank (group_id codec : str) (preference : CodecPreference) : run (option Z) :=
  if bool_decide (codec = lit "ec-3") && is_atmos preference && starts_with (lit "audio-atmos") group_id then
    b ← group_bitrate group_id (lit "audio-atmos-"); Done (Some (swrap 64 (20000 + b)))
  else if is_atmos preference then Done None
  else if bool_decide (codec = lit "alac") then '(rate, _) ← alac_group_specs group_id; Done (Some (10000000 + rate))
  else if bool_decide (codec = lit "mp4a.40.2") then
    b ← group_bitrate group_id (lit "audio-stereo-"); Done (Some (swrap 64 (5000 + b)))
  else if bool_decide (codec = lit "mp4a.40.5") then
    b ← group_bitrate group_id (lit "audio-HE-stereo-"); Done (Some (swrap 64 (4000 + b)))
  else Done None.

(** One media line: whether it names the group, and the numbers it gives. *)
Fixpoint line_specs (group_id : str) (kvs : list (str * str)) (found : bool * option Z * option Z) : run (bool * option Z * option Z) :=
  match kvs with
  | [] => Done found
  | (key, value) :: kvs =>
      let '(matches_group, rate, depth) := found in
      if bool_decide (key = lit "GROUP-ID") && bool_decide (value = group_id) then line_specs group_id kvs (true, rate, depth)
      else if bool_decide (key = lit "SAMPLE-RATE") then
        r ← parse_positive_u32 value (lit "SAMPLE-RATE"); line_specs group_id kvs (matches_group, Some r, depth)
      else if bool_decide (key = lit "BIT-DEPTH") then
        d ← parse_positive_u32 value (lit "BIT-DEPTH"); line_specs group_id kvs (matches_group, rate, Some d)
      else line_specs group_id kvs found
  end.

Fixpoint media_specs_loop (ls : list str) (group_id : str) (sample_rate bit_depth : option Z) : run (option Z * option Z) :=
  match ls with
  | [] => Done (sample_rate, bit_depth)
  | line :: ls =>
      match strip_prefix media_tag line with
      | None => media_specs_loop ls group_id sample_rate bit_depth
      | Some attrs =>
          kvs ← read_attributes attrs;
          '(matches_group, rate, depth) ← line_specs group_id kvs (false, None, None);
          if (matches_group : bool)
          then media_specs_loop ls group_id (match rate with None => sample_rate | r => r end) (match depth with None => bit_depth | d => d end)
          else media_specs_loop ls group_id sample_rate bit_depth
      end
  end.

Definition media_line_specs (ls : list str) (group_id : str) : run (Z * Z) :=
  '(sample_rate, bit_depth) ← media_specs_loop ls group_id None None;
  Done (default (if starts_with (lit "audio-atmos") group_id then 48000 else 44100) sample_rate, default 16 bit_depth).

Abbreviation candidate := (Z * StreamVariant * Z * Z)%type.

(** The loop of [select_variant]. *)
Fixpoint select_loop (variants : list StreamVariant) (preference : CodecPreference) (ls : list str) (best : option candidate) :
    run (option candidate) :=
  match variants with
  | [] => Done best
  | v :: variants =>
      ranked ← group_rank (sv_group_id v) (sv_codec v) preference;
      match ranked with
      | None => select_loop variants preference ls best
      | Some rank =>
          '(rate, depth) ← (if bool_decide (sv_codec v = lit "alac") then alac_group_specs (sv_group_id v) else media_line_specs ls (sv_group_id v));
          let better := match best with None => true | Some (best_rank, _, _, _) => best_rank <? rank end in
          select_loop variants preference ls (if better then Some (rank, v, rate, depth) else best)
      end
  end.

Definition no_variant (preference : CodecPreference) : WrapperError :=
  if is_atmos preference then Unavailable NoAtmosVariantInValidMaster
  else Message (lit "No no audio stream variant found in master playlist").

Definition select_variant (variants : list StreamVariant) (preference : CodecPreference) (ls : list str) : run AlacStreamInfo :=
  best ← select_loop variants preference ls None;
  '(_, v, rate, depth) ← or_fail best (no_variant preference);
  Done (mkStreamInfo (sv_uri v) (sv_codec v) rate depth).

Definition parse_master_playlist (content master_url : str) (preference : CodecPreference) : run AlacStreamInfo :=
  if negb (is_master_playlist content) then Fail (Message (lit "Wrapper response is not a master playlist"))
  else
    let ls := lines content in
    _ ← validate_media_numeric_attributes ls;
    variants ← collect_variants ls master_url None;
    renditions ← collect_audio_renditions ls master_url;
    match variants ++ renditions with
    | [] => Fail (Message (lit "Master playlist contains no stream variants"))
    | all => select_variant all preference ls
    end.

(** ** The media playlist *)

Record media_state := mkMedia {
  ms_init_uri : option str; ms_init_range : option (Z * Z); ms_segments : list MediaSegmentRef;
  ms_key_uri : option str; ms_next_range : option (Z * Z); ms_method : option str; ms_kid : option str;
}.

Definition key_tag : str := lit "#EXT-X-KEY:".
Definition map_tag : str := lit "#EXT-X-MAP:".
Definition range_tag : str := lit "#EXT-X-BYTERANGE:".
Definition fairplay_format : str := lit "com.apple.streamingkeydelivery".

Definition media_key (kvs : list (str * str)) (s : media_state) : media_state :=
  let uri := last_value (lit "URI") kvs in
  let method := last_value (lit "METHOD") kvs in
  let format := last_value (lit "KEYFORMAT") kvs in
  let set (key_uri kid : option str) :=
    mkMedia (ms_init_uri s) (ms_init_range s) (ms_segments s) key_uri (ms_next_range s) method kid in
  if bool_decide (method = Some (lit "SAMPLE-AES")) && (match format with None => true | Some f => bool_decide (f = fairplay_format) end)
  then set uri (ms_kid s)
  else if bool_decide (method = Some (lit "ISO-23001-7"))
  then set uri (match uri with Some u => last (split_on 44 u) | None => ms_kid s end)
  else set (ms_key_uri s) (ms_kid s).

Fixpoint media_map (media_url : str) (kvs : list (str * str)) (s : media_state) : media_state :=
  match kvs with
  | [] => s
  | (key, value) :: kvs =>
      let set (uri : option str) (range : option (Z * Z)) := mkMedia uri range (ms_segments s) (ms_key_uri s) (ms_next_range s) (ms_method s) (ms_kid s) in
      media_map media_url kvs
        (if bool_decide (key = lit "URI") then set (Some (resolve_url media_url value)) (ms_init_range s)
         else if bool_decide (key = lit "BYTERANGE") then set (ms_init_uri s) (parse_byte_range value) else s)
  end.

Definition media_line (media_url : str) (line : str) (s : media_state) : run media_state :=
  let line := trim line in
  match line with
  | [] => Done s
  | c :: _ =>
      match strip_prefix key_tag line with
      | Some attrs => kvs ← read_attributes attrs; Done (media_key kvs s)
      | None =>
          match strip_prefix map_tag line with
          | Some attrs => kvs ← read_attributes attrs; Done (media_map media_url kvs s)
          | None =>
              match strip_prefix range_tag line with
              | Some range_str =>
                  Done (mkMedia (ms_init_uri s) (ms_init_range s) (ms_segments s) (ms_key_uri s) (parse_byte_range range_str) (ms_method s) (ms_kid s))
              | None =>
                  if c =? 35 then Done s
                  else Done (mkMedia (ms_init_uri s) (ms_init_range s)
                               (ms_segments s ++ [mkSegment (resolve_url media_url line) (ms_next_range s) (ms_key_uri s)])
                               (ms_key_uri s) None (ms_method s) (ms_kid s))
              end
          end
      end
  end.

Fixpoint media_lines (media_url : str) (ls : list str) (s : media_state) : run media_state :=
  match ls with [] => Done s | line :: ls => s ← media_line media_url line s; media_lines media_url ls s end.

Definition parse_media_playlist (content media_url : str) : run MediaPlaylistInfo :=
  s ← media_lines media_url (lines content) (mkMedia None None [] None None None None);
  init ← or_fail (ms_init_uri s) (Message (lit "No #EXT-X-MAP init segment found in media playlist"));
  let single := forallb (fun seg => bool_decide (seg_uri seg = init)) (ms_segments s) in
  Done (mkMediaPlaylist init (ms_init_range s) (ms_segments s) (if single then Some init else None) (ms_method s) (ms_kid s)).
