(* ===== verification/PlaylistFacts.v ===== *)
(** * PlaylistFacts: what the wrapper's playlist parsers read (WrapperPlaylist.v)

    Attribute lists and media playlists are read back as they were written, no text makes a parser
    panic, and the variant chosen from a master playlist is the best of those it names. *)
From S2P Require Import Prelude Text Bytes Boxes Music WrapperPlaylist.

(** ** No panic *)

Lemma finished_bind {E A B} (m : outcome E A) (f : A -> outcome E B) :
  finished m = true -> (forall a, m = Done a -> finished (f a) = true) -> finished (m ≫= f) = true.
Proof. intros Hm Hf. destruct m; try done. by apply Hf. Qed.

Lemma finished_or_fail {E A} (o : option A) (e : E) : finished (or_fail o e) = true.
Proof. by destruct o. Qed.

Lemma split_parts_ok s : forall in_quotes part,
  finished (split_parts in_quotes part s) = true /\
  forall parts, split_parts in_quotes part s = Done parts -> Forall (fun p => component_ok p = true) parts.
Proof.
  induction s as [|c s IH]; intros q part; cbn [split_parts].
  - destruct q; [done|]. unfold validate_attribute_component. destruct (component_ok (trim part)) eqn:E; [|done].
    split; [done|]. cbn. intros parts [= <-]. by apply Forall_singleton.
  - destruct (c =? QUOTE); [apply IH|]. destruct ((c =? 44) && negb q); [|apply IH].
    unfold validate_attribute_component. destruct (component_ok (trim part)) eqn:E; [|done]. cbn [mbind outcome_bind].
    destruct (IH q []) as [Hf Hd]. destruct (split_parts q [] s) as [parts| | |]; try done. cbn.
    split; [done|]. intros parts' [= <-]. constructor; [done|by apply Hd].
Qed.

Lemma attributes_finish parts : Forall (fun p => component_ok p = true) parts -> finished (attributes parts) = true.
Proof.
  induction 1 as [|p parts Hp _ IH]; [done|]. cbn [attributes]. unfold attribute, component_ok in *.
  destruct (split_once 61 p) as [[k v]|]; [|done]. run_simpl. apply finished_bind; [exact IH|done].
Qed.

Lemma read_attributes_finish attrs : finished (read_attributes attrs) = true.
Proof.
  unfold read_attributes, split_attributes. destruct (trim attrs); [done|].
  destruct (split_parts_ok attrs false []) as [Hf Hd]. apply finished_bind; [exact Hf|]. intros parts E. by apply attributes_finish, Hd.
Qed.

Lemma split_attributes_finish attrs : finished (split_attributes attrs) = true.
Proof. unfold split_attributes. destruct (trim attrs); [done|]. apply split_parts_ok. Qed.

Lemma parse_positive_finish w v a : finished (parse_positive w v a) = true.
Proof. unfold parse_positive. destruct (parse_u w v); [by case_match|done]. Qed.

Lemma group_bitrate_finish g p : finished (group_bitrate g p) = true.
Proof.
  unfold group_bitrate. apply finished_bind; [apply finished_or_fail|]. intros r _.
  apply finished_bind; [apply parse_positive_finish|]. intros b _. by destruct (b <? _).
Qed.

Lemma alac_group_specs_finish g : finished (alac_group_specs g) = true.
Proof.
  unfold alac_group_specs. destruct (reverse _) as [|d [|r l]]; [done..|].
  apply finished_bind; [apply parse_positive_finish|]. intros ? _. apply finished_bind; [apply parse_positive_finish|done].
Qed.

Lemma validate_numbers_finish kvs : finished (validate_numbers kvs) = true.
Proof.
  induction kvs as [|[k v] kvs IH]; [done|]. cbn [validate_numbers]. apply finished_bind; [|by intros].
  do 2 (case_bool_decide; [apply finished_bind; [apply parse_positive_finish|done]|]). done.
Qed.

Lemma validate_media_finish ls : finished (validate_media_numeric_attributes ls) = true.
Proof.
  induction ls as [|l ls IH]; [done|]. cbn [validate_media_numeric_attributes]. apply finished_bind; [|by intros].
  destruct (strip_prefix _ _); [|done]. apply finished_bind; [apply read_attributes_finish|]. intros. apply validate_numbers_finish.
Qed.

Lemma audio_rendition_finish url kvs : finished (audio_rendition url kvs) = true.
Proof.
  unfold audio_rendition. case_bool_decide; [|done]. destruct (last_value (lit "GROUP-ID") kvs); [|done]. destruct (last_value (lit "URI") kvs); [|done].
  destruct (rendition_codec _) as [[c p]|]; [|done]. apply finished_bind; [apply group_bitrate_finish|done].
Qed.

Lemma collect_audio_renditions_finish ls url : finished (collect_audio_renditions ls url) = true.
Proof.
  induction ls as [|l ls IH]; [done|]. cbn [collect_audio_renditions]. apply finished_bind.
  - destruct (strip_prefix _ _); [|done]. apply finished_bind; [apply read_attributes_finish|]. intros. apply audio_rendition_finish.
  - intros. apply finished_bind; [exact IH|done].
Qed.

Lemma variant_attributes_finish parts : forall v b, finished (variant_attributes parts v b) = true.
Proof.
  induction parts as [|p parts IH]; intros v b; [done|]. cbn [variant_attributes].
  apply finished_bind; [apply finished_or_fail|]. intros [k val] _. cbv zeta.
  destruct (trim k), (unquote (trim val)); try done.
  do 2 (case_bool_decide; [apply IH|]).
  do 2 (case_bool_decide; [apply finished_bind; [apply parse_positive_finish|]; intros; apply IH|]). apply IH.
Qed.

Lemma validate_variant_group_finish v : finished (validate_variant_group v) = true.
Proof.
  unfold validate_variant_group. case_bool_decide; [apply finished_bind; [apply alac_group_specs_finish|done]|].
  do 3 (destruct (_ && _); [apply finished_bind; [apply group_bitrate_finish|done]|]). done.
Qed.

Lemma stream_variant_finish attrs : finished (stream_variant attrs) = true.
Proof.
  unfold stream_variant. destruct (trim attrs); [done|]. apply finished_bind; [apply split_attributes_finish|].
  intros parts _. apply finished_bind; [apply variant_attributes_finish|]. intros [v b] _.
  apply finished_bind; [apply finished_or_fail|]. intros b' _. cbn [sv_codec sv_group_id].
  destruct (sv_codec v), (sv_group_id v); try done. apply finished_bind; [apply validate_variant_group_finish|done].
Qed.

Lemma collect_variants_finish ls url : forall pending, finished (collect_variants ls url pending) = true.
Proof.
  induction ls as [|l ls IH]; intros pending; [by destruct pending|]. cbn [collect_variants].
  destruct (strip_prefix stream_tag _); [destruct pending; [done|]; apply finished_bind; [apply stream_variant_finish|]; intros; apply IH|].
  destruct pending; [|apply IH].
  destruct (trim l) as [|c t]; [apply IH|]. destruct (c =? 35); [apply IH|]. apply finished_bind; [apply IH|done].
Qed.

Lemma line_specs_finish g kvs : forall found, finished (line_specs g kvs found) = true.
Proof.
  induction kvs as [|[k v] kvs IH]; intros [[m r] d]; [done|]. cbn [line_specs]. destruct (_ && _); [apply IH|].
  do 2 (case_bool_decide; [apply finished_bind; [apply parse_positive_finish|]; intros; apply IH|]). apply IH.
Qed.

Lemma media_specs_loop_finish ls g : forall r d, finished (media_specs_loop ls g r d) = true.
Proof.
  induction ls as [|l ls IH]; intros r d; [done|]. cbn [media_specs_loop]. destruct (strip_prefix _ _); [|apply IH].
  apply finished_bind; [apply read_attributes_finish|]. intros kvs _. apply finished_bind; [apply line_specs_finish|].
  intros [[[] r'] d'] _; apply IH.
Qed.

Lemma group_rank_finish g c p : finished (group_rank g c p) = true.
Proof.
  unfold group_rank. destruct (_ && _); [apply finished_bind; [apply group_bitrate_finish|done]|]. destruct (is_atmos p); [done|].
  case_bool_decide; [apply finished_bind; [apply alac_group_specs_finish|by intros []]|].
  do 2 (case_bool_decide; [apply finished_bind; [apply group_bitrate_finish|done]|]). done.
Qed.

Lemma select_loop_finish vs p ls : forall best, finished (select_loop vs p ls best) = true.
Proof.
  induction vs as [|v vs IH]; intros best; [done|]. cbn [select_loop]. apply finished_bind; [apply group_rank_finish|].
  intros [rank|] _; [|apply IH]. apply finished_bind; [|intros [r d] _; apply IH].
  case_bool_decide; [apply alac_group_specs_finish|]. apply finished_bind; [apply media_specs_loop_finish|by intros []].
Qed.

Lemma media_lines_finish url ls : forall s, finished (media_lines url ls s) = true.
Proof.
  induction ls as [|l ls IH]; intros s; [done|]. cbn [media_lines]. apply finished_bind; [|intros; apply IH].
  unfold media_line. destruct (trim l); [done|]. destruct (strip_prefix key_tag _); [apply finished_bind; [apply read_attributes_finish|done]|].
  destruct (strip_prefix map_tag _); [apply finished_bind; [apply read_attributes_finish|done]|].
  destruct (strip_prefix range_tag _); [done|]. by destruct (_ =? 35).
Qed.

(** Neither parser panics, whatever text the wrapper answers with. *)
Theorem playlist_parsers_return (content url : str) (preference : CodecPreference) :
  finished (parse_master_playlist content url preference) = true /\ finished (parse_media_playlist content url) = true.
Proof.
  split.
  - unfold parse_master_playlist. destruct (negb _); [done|]. cbv zeta. apply finished_bind; [apply validate_media_finish|].
    intros _ _. apply finished_bind; [apply collect_variants_finish|]. intros vs _.
    apply finished_bind; [apply collect_audio_renditions_finish|]. intros rs _. destruct (vs ++ rs) as [|v all]; [done|].
    unfold select_variant. apply finished_bind; [apply select_loop_finish|]. intros best _.
    apply finished_bind; [apply finished_or_fail|by intros [[[? ?] ?] ?]].
  - unfold parse_media_playlist. apply finished_bind; [apply media_lines_finish|]. intros s _.
    apply finished_bind; [apply finished_or_fail|done].
Qed.

(** ** The variant chosen *)

Section Choice.
Variables (preference : CodecPreference) (ls : list str).

Definition rank_of (v : StreamVariant) : run (option Z) := group_rank (sv_group_id v) (sv_codec v) preference.
Definition specs_of (v : StreamVariant) : run (Z * Z) :=
  if bool_decide (sv_codec v = lit "alac") then alac_group_specs (sv_group_id v) else media_line_specs ls (sv_group_id v).

(** Every ranked variant of [vs] ranks at most, or below, [r]. *)
Definition at_most (r : Z) (vs : list StreamVariant) : Prop := forall v r', v ∈ vs -> rank_of v = Done (Some r') -> r' <= r.
Definition below (r : Z) (vs : list StreamVariant) : Prop := forall v r', v ∈ vs -> rank_of v = Done (Some r') -> r' < r.

Definition chosen (vs : list StreamVariant) (best res : option candidate) : Prop :=
  match res with
  | None => best = None /\ forall v, v ∈ vs -> rank_of v = Done None
  | Some (r, v, rate, depth) =>
      (best = res /\ at_most r vs) \/
      (exists vs1 vs2, vs = vs1 ++ v :: vs2 /\ rank_of v = Done (Some r) /\ specs_of v = Done (rate, depth) /\
         below r vs1 /\ at_most r vs2 /\ forall b, best = Some b -> b.1.1.1 < r)
  end.

Lemma at_most_cons r v vs o : rank_of v = Done o -> (forall r', o = Some r' -> r' <= r) -> at_most r vs -> at_most r (v :: vs).
Proof. intros Hv Ho H v' r' [->|Hin]%elem_of_cons E; [rewrite Hv in E; injection E as E; by apply Ho|by eapply H]. Qed.

Lemma below_cons r v vs o : rank_of v = Done o -> (forall r', o = Some r' -> r' < r) -> below r vs -> below r (v :: vs).
Proof. intros Hv Ho H v' r' [->|Hin]%elem_of_cons E; [rewrite Hv in E; injection E as E; by apply Ho|by eapply H]. Qed.

Lemma chosen_skip v vs best res : rank_of v = Done None -> chosen vs best res -> chosen (v :: vs) best res.
Proof.
  intros Hv. destruct res as [[[[r w] rate] depth]|]; cbn.
  - intros [[Hb Hm]|(vs1 & vs2 & -> & Hw & Hs & H1 & H2 & Hb)].
    + left. split; [done|]. by eapply at_most_cons.
    + right. exists (v :: vs1), vs2. split_and!; try done. by eapply below_cons.
  - intros [-> Hn]. split; [done|]. intros w [->|Hw]%elem_of_cons; [done|by apply Hn].
Qed.

Lemma chosen_take v vs best rank rate depth res :
  rank_of v = Done (Some rank) -> specs_of v = Done (rate, depth) -> (forall b, best = Some b -> b.1.1.1 < rank) ->
  chosen vs (Some (rank, v, rate, depth)) res -> chosen (v :: vs) best res.
Proof.
  intros Hv Hs Hb. destruct res as [[[[r w] rate'] depth']|]; cbn; [|by intros [? _]].
  intros [[[= -> -> -> ->] Hm]|(vs1 & vs2 & -> & Hw & Hs' & H1 & H2 & Hlt)].
  - right. exists [], vs. split_and!; try done; by intros ? ? ?%elem_of_nil.
  - pose proof (Hlt _ eq_refl) as Hr. cbn in Hr. right. exists (v :: vs1), vs2. split_and!; try done.
    + eapply below_cons; [exact Hv| |done]. by intros r' [= <-].
    + intros b E. pose proof (Hb b E). lia.
Qed.

Lemma chosen_keep v vs b rank res : rank_of v = Done (Some rank) -> rank <= b.1.1.1 -> chosen vs (Some b) res -> chosen (v :: vs) (Some b) res.
Proof.
  intros Hv Hr. destruct res as [[[[r w] rate'] depth']|]; cbn; [|by intros [? _]].
  intros [[[= ->] Hm]|(vs1 & vs2 & -> & Hw & Hs' & H1 & H2 & Hlt)]; cbn in *.
  - left. split; [done|]. eapply at_most_cons; [exact Hv| |done]. by intros r' [= <-].
  - pose proof (Hlt _ eq_refl). right. exists (v :: vs1), vs2. split_and!; try done.
    eapply below_cons; [exact Hv| |done]. intros r' [= <-]. lia.
Qed.

Lemma select_loop_chosen vs : forall best res, select_loop vs preference ls best = Done res -> chosen vs best res.
Proof.
  induction vs as [|v vs IH]; intros best res H; cbn [select_loop] in H.
  { injection H as ->. destruct res as [[[[r v] rate] depth]|]; cbn; [left; split; [done|]; by intros ? ? ?%elem_of_nil|].
    split; [done|]. by intros ? ?%elem_of_nil. }
  destruct (group_rank (sv_group_id v) (sv_codec v) preference) as [[rank|]| | |] eqn:Er; try done; cbn [mbind outcome_bind] in H.
  2:{ apply chosen_skip; [exact Er|by apply IH]. }
  fold (specs_of v) in H. destruct (specs_of v) as [[rate depth]| | |] eqn:Es; try done. cbn [mbind outcome_bind] in H.
  destruct best as [[[[br bv] brate] bdepth]|].
  - destruct (Z.ltb_spec br rank) as [Hlt|Hge]; apply IH in H.
    + eapply chosen_take; [exact Er|exact Es| |exact H]. by intros b [= <-].
    + eapply chosen_keep; [exact Er| |exact H]. done.
  - apply IH in H. eapply chosen_take; [exact Er|exact Es| |exact H]. done.
Qed.
End Choice.

(** The codecs a preference admits. *)
Definition admits (preference : CodecPreference) (codec : str) : Prop :=
  match preference with
  | PreferAtmos => codec = lit "ec-3"
  | _ => codec = lit "alac" \/ codec = lit "mp4a.40.2" \/ codec = lit "mp4a.40.5"
  end.

Lemma group_rank_admits g c p r : group_rank g c p = Done (Some r) -> admits p c.
Proof.
  unfold group_rank. destruct (is_atmos p) eqn:Ea.
  - assert (p = PreferAtmos) as -> by (destruct p; done). rewrite andb_true_r.
    destruct (bool_decide_reflect (c = lit "ec-3")); done.
  - rewrite andb_false_r. cbn [andb]. intros H.
    assert (Hc : c = lit "alac" \/ c = lit "mp4a.40.2" \/ c = lit "mp4a.40.5").
    { revert H. case_bool_decide; [by left|]. case_bool_decide; [by right; left|]. case_bool_decide; [by right; right|done]. }
    destruct p; done.
Qed.

(** ** Writing playlists *)

(** [trim] leaves it alone, and it is not blank. *)
Definition trimmed (s : str) : Prop := trim s = s /\ s <> [].

Lemma trim_end_by_length p s : (length (trim_end_by p s) <= length s)%nat.
Proof. destruct (trim_end_by_prefix p s) as (l & E). apply (f_equal length) in E. rewrite length_app in E. lia. Qed.

Lemma trim_start_by_length p s : (length (trim_start_by p s) <= length s)%nat.
Proof. destruct (trim_start_by_suffix p s) as (l & E & _). apply (f_equal length) in E. rewrite length_app in E. lia. Qed.

Lemma trimmed_ends s : trimmed s -> exists a b m k, s = a :: m /\ s = k ++ [b] /\ is_whitespace a = false /\ is_whitespace b = false.
Proof.
  intros [Ht Hn]. destruct s as [|a m]; [done|]. clear Hn.
  assert (Ha : is_whitespace a = false).
  { destruct (is_whitespace a) eqn:E; [|done]. exfalso. apply (f_equal length) in Ht. unfold trim in Ht. cbn [trim_start_by] in Ht.
    rewrite E in Ht. cbn in Ht. pose proof (trim_end_by_length is_whitespace (trim_start_by is_whitespace m)).
    pose proof (trim_start_by_length is_whitespace m). lia. }
  destruct (exists_last (l := a :: m)) as (k & b & Ek); [done|]. exists a, b, m, k. split_and!; [done|done|done|].
  destruct (is_whitespace b) eqn:E; [|done]. exfalso. unfold trim in Ht. rewrite trim_start_by_id in Ht by done.
  rewrite Ek in Ht. apply (f_equal length) in Ht. unfold trim_end_by in Ht. rewrite reverse_snoc in Ht. cbn [trim_start_by] in Ht.
  rewrite E in Ht. rewrite length_reverse, length_app in Ht. cbn in Ht.
  pose proof (trim_start_by_length is_whitespace (reverse k)) as Hl. rewrite length_reverse in Hl. lia.
Qed.

Lemma trimmed_app a m b : trimmed a -> trimmed b -> trimmed (a ++ m ++ b).
Proof.
  intros Ha Hb. destruct (trimmed_ends a Ha) as (x & _ & a' & _ & -> & _ & Hx & _).
  destruct (trimmed_ends b Hb) as (_ & y & _ & b' & _ & -> & _ & Hy).
  split; [|done]. rewrite app_assoc, app_assoc, <-app_comm_cons, <-app_comm_cons. by apply trim_id.
Qed.

Lemma trimmed_one c : is_whitespace c = false -> trimmed [c].
Proof. intros H. split; [|done]. apply trim_no_ws. by apply Forall_singleton. Qed.

(** A value and whether it is quoted. *)
Record attr := mkAttr { at_key : str; at_value : str; at_quoted : bool }.

Definition no_quote (s : str) : Prop := Forall (fun c => c <> QUOTE) s.
Definition plain (s : str) : Prop := Forall (fun c => c <> QUOTE /\ c <> 44) s.

Definition attr_ok (a : attr) : Prop :=
  trimmed (at_key a) /\ plain (at_key a) /\ Forall (fun c => c <> 61) (at_key a) /\ at_value a <> [] /\ no_quote (at_value a) /\
  (at_quoted a = false -> trimmed (at_value a) /\ plain (at_value a)).

Definition written (a : attr) : str := if at_quoted a then QUOTE :: at_value a ++ [QUOTE] else at_value a.
Definition render_attr (a : attr) : str := at_key a ++ 61 :: written a.
Fixpoint render_attrs (l : list attr) : str :=
  match l with
  | [] => []
  | a :: l => render_attr a ++ match l with [] => [] | _ => 44 :: render_attrs l end
  end.
Definition attr_pair (a : attr) : str * str := (at_key a, at_value a).

Lemma split_once_app c a b : Forall (fun x => x <> c) a -> split_once c (a ++ c :: b) = Some (a, b).
Proof.
  induction 1 as [|x a Hx _ IH]; cbn [split_once app]; [by rewrite Z.eqb_refl|].
  rewrite (proj2 (Z.eqb_neq x c) Hx), IH. done.
Qed.

Lemma trim_start_none p s : Forall (fun c => p c = false) s -> trim_start_by p s = s.
Proof. destruct s as [|c s]; [done|]. intros H. apply Forall_inv in H. by apply trim_start_by_id. Qed.

Lemma unquote_none s : no_quote s -> unquote s = s.
Proof.
  intros H. assert (Hf : Forall (fun c => (QUOTE =? c) = false) s).
  { eapply Forall_impl; [exact H|]. intros c Hc. cbn in Hc. apply Z.eqb_neq. congruence. }
  unfold unquote, trim_end_by. rewrite (trim_start_none _ s Hf), trim_start_none, reverse_involutive; [done|].
  by apply Forall_reverse.
Qed.

Lemma unquote_quoted s : s <> [] -> no_quote s -> unquote (QUOTE :: s ++ [QUOTE]) = s.
Proof.
  intros Hn H. unfold unquote. cbn [trim_start_by]. rewrite Z.eqb_refl.
  assert (trim_start_by (Z.eqb QUOTE) (s ++ [QUOTE]) = s ++ [QUOTE]) as ->.
  { destruct s as [|c s]; [done|]. apply Forall_inv in H. rewrite <-app_comm_cons.
    apply trim_start_by_id, Z.eqb_neq. congruence. }
  unfold trim_end_by. rewrite reverse_snoc. cbn [trim_start_by]. rewrite Z.eqb_refl, trim_start_none, reverse_involutive; [done|].
  apply Forall_reverse. eapply Forall_impl; [exact H|]. intros c Hc. cbn in Hc. apply Z.eqb_neq. congruence.
Qed.

Lemma written_trimmed a : attr_ok a -> trimmed (written a).
Proof.
  intros (_ & _ & _ & _ & _ & Hu). unfold written. destruct (at_quoted a); [|by apply Hu].
  apply (trimmed_app [QUOTE] (at_value a) [QUOTE]); by apply trimmed_one.
Qed.

Lemma render_attr_trimmed a : attr_ok a -> trimmed (render_attr a).
Proof.
  intros Ha. unfold render_attr. replace (61 :: written a) with ([61] ++ written a) by done.
  apply trimmed_app; [apply Ha|by apply written_trimmed].
Qed.

Lemma written_unquote a : attr_ok a -> unquote (written a) = at_value a.
Proof.
  intros (_ & _ & _ & Hne & Hq & _). unfold written. destruct (at_quoted a); [by apply unquote_quoted|by apply unquote_none].
Qed.

Lemma no_quote_has s : no_quote s -> has_quote s = false.
Proof.
  intros H. unfold has_quote. induction H as [|c s Hc _ IH]; [done|]. cbn [existsb]. rewrite IH, orb_false_r.
  apply Z.eqb_neq. congruence.
Qed.

Lemma render_attr_ok a : attr_ok a -> component_ok (render_attr a) = true.
Proof.
  intros Ha. pose proof (written_trimmed a Ha) as [Hw Hwn]. destruct Ha as (Hk & _ & He & Hne & Hq & Hu).
  unfold component_ok, render_attr. rewrite split_once_app by done. destruct Hk as [Hk Hkn]. rewrite Hk, Hw.
  destruct (at_key a) as [|k0 k]; [done|]. unfold written in *. destruct (at_quoted a).
  - rewrite Z.eqb_refl. rewrite (proj2 (strip_suffix_Some [QUOTE] _ (at_value a)) eq_refl).
    destruct (at_value a) eqn:E; [done|]. rewrite <-E in *. by rewrite no_quote_has.
  - destruct (at_value a) as [|c v] eqn:E; [done|]. pose proof Hq as Hq'. apply Forall_inv in Hq'.
    rewrite (proj2 (Z.eqb_neq c QUOTE) Hq'). by rewrite no_quote_has.
Qed.

Lemma split_parts_toggle q part s : split_parts q part (QUOTE :: s) = split_parts (negb q) (part ++ [QUOTE]) s.
Proof. done. Qed.

Lemma split_parts_plain s : forall part rest, plain s -> split_parts false part (s ++ rest) = split_parts false (part ++ s) rest.
Proof.
  induction s as [|c s IH]; intros part rest H; [by rewrite app_nil_r|]. apply Forall_cons in H as [[Hq Hc] H].
  cbn [split_parts app]. rewrite (proj2 (Z.eqb_neq c QUOTE) Hq), (proj2 (Z.eqb_neq c 44) Hc). cbn [andb].
  rewrite IH by done. by rewrite <-app_assoc.
Qed.

Lemma split_parts_quoted s : forall part rest, no_quote s -> split_parts true part (s ++ rest) = split_parts true (part ++ s) rest.
Proof.
  induction s as [|c s IH]; intros part rest H; [by rewrite app_nil_r|]. apply Forall_cons in H as [Hq H].
  cbn [split_parts app]. rewrite (proj2 (Z.eqb_neq c QUOTE) Hq), andb_false_r. rewrite IH by done. by rewrite <-app_assoc.
Qed.

Lemma split_parts_attr a rest : attr_ok a -> split_parts false [] (render_attr a ++ rest) = split_parts false (render_attr a) rest.
Proof.
  intros (_ & Hp & _ & _ & Hq & Hu). unfold render_attr. rewrite <-app_assoc. rewrite split_parts_plain by done. cbn [app].
  unfold written. destruct (at_quoted a).
  - change (61 :: (QUOTE :: at_value a ++ [QUOTE]) ++ rest) with ([61] ++ QUOTE :: (at_value a ++ [QUOTE]) ++ rest). rewrite <-(app_assoc (at_value a)).
    rewrite split_parts_plain by (apply Forall_singleton; unfold QUOTE; lia). rewrite split_parts_toggle. cbn [negb].
    rewrite (split_parts_quoted (at_value a)) by done. change ([QUOTE] ++ rest) with (QUOTE :: rest). rewrite split_parts_toggle. cbn [negb].
    f_equal. by rewrite <-!app_assoc.
  - change (61 :: at_value a ++ rest) with ((61 :: at_value a) ++ rest). rewrite split_parts_plain; [done|].
    constructor; [unfold QUOTE; lia|]. by apply Hu.
Qed.

Lemma split_parts_attrs l : l <> [] -> Forall attr_ok l -> split_parts false [] (render_attrs l) = Done (render_attr <$> l).
Proof.
  intros Hn H. induction H as [|a l Ha Hl IH]; [done|]. cbn [render_attrs]. rewrite split_parts_attr by done.
  pose proof (render_attr_trimmed a Ha) as [Ht _]. pose proof (render_attr_ok a Ha) as Hok.
  destruct l as [|b l]; cbn [split_parts]; unfold validate_attribute_component; rewrite Ht, Hok; [done|].
  change (44 =? QUOTE) with false. change ((44 =? 44) && negb false) with true. cbv iota. cbn [mbind outcome_bind].
  rewrite IH by done. done.
Qed.

Lemma attributes_rendered l : Forall attr_ok l -> attributes (render_attr <$> l) = Done (attr_pair <$> l).
Proof.
  induction 1 as [|a l Ha _ IH]; [done|]. rewrite !fmap_cons. cbn [attributes]. unfold attribute.
  assert (split_once 61 (render_attr a) = Some (at_key a, written a)) as -> by apply split_once_app, Ha. run_simpl. rewrite (proj1 (proj1 Ha)), (proj1 (written_trimmed a Ha)), written_unquote by done.
  rewrite IH. done.
Qed.

Lemma trim_blank s : trim s = [] -> Forall (fun c => is_whitespace c = true) s.
Proof.
  intros H. destruct (trim_start_by_suffix is_whitespace s) as (l & E & Hl). unfold trim in H.
  destruct (trim_start_by_suffix is_whitespace (reverse (trim_start_by is_whitespace s))) as (k & Ek & Hk).
  unfold trim_end_by in H. apply (f_equal reverse) in H. rewrite reverse_involutive in H. rewrite H, app_nil_r in Ek.
  rewrite E. apply Forall_app. split; [done|]. rewrite <-(reverse_involutive (trim_start_by is_whitespace s)), Ek. by apply Forall_reverse.
Qed.

Lemma read_rendered l : l <> [] -> Forall attr_ok l -> read_attributes (render_attrs l) = Done (attr_pair <$> l).
Proof.
  intros Hn H. unfold read_attributes, split_attributes.
  destruct (trim (render_attrs l)) as [|c t] eqn:E.
  - exfalso. apply trim_blank in E. destruct l as [|a l]; [done|]. apply Forall_inv in H as Ha. cbn [render_attrs] in E.
    apply Forall_app in E as [E _]. destruct (trimmed_ends _ (render_attr_trimmed a Ha)) as (x & _ & m & _ & Ex & _ & Hx & _).
    rewrite Ex in E. apply Forall_inv in E. congruence.
  - rewrite split_parts_attrs by done. cbn [mbind outcome_bind]. by apply attributes_rendered.
Qed.

(** ** Lines and byte ranges *)

Definition unlines (ls : list str) : str := concat ((fun l => l ++ [10]) <$> ls).
Definition one_line (s : str) : Prop := Forall (fun c => c <> 10 /\ c <> 13) s.

Lemma split_unlines ls : Forall one_line ls -> split_on 10 (unlines ls) = ls ++ [[]].
Proof.
  induction 1 as [|l ls Hl _ IH]; [done|]. unfold unlines in *. cbn [fmap list_fmap concat]. rewrite <-app_assoc.
  change ([10] ++ ?x) with (10 :: x). rewrite split_on_app; [by rewrite IH|]. eapply Forall_impl; [exact Hl|]. by intros ? [].
Qed.

Lemma strip_cr_none l : one_line l -> strip_cr l = l.
Proof.
  intros H. unfold strip_cr. destruct (strip_suffix [13] l) as [r|] eqn:E; [|done]. apply strip_suffix_Some in E as ->.
  apply Forall_app in H as [_ H]. by apply Forall_inv in H as [_ ?].
Qed.

Lemma end_lines_app ls : Forall one_line ls -> end_lines (ls ++ [[]]) = ls.
Proof.
  induction 1 as [|l ls Hl _ IH]; [done|]. cbn [app end_lines]. destruct (ls ++ [[]]) as [|x xs] eqn:E; [by destruct ls|].
  rewrite IH, strip_cr_none by done. done.
Qed.

Lemma lines_unlines ls : Forall one_line ls -> lines (unlines ls) = ls.
Proof. intros H. unfold lines. rewrite split_unlines by done. by apply end_lines_app. Qed.

Definition render_range (r : Z * Z) : str := show_u (snd r) ++ 64 :: show_u (fst r).

Lemma digits_are (P : rchar -> Prop) n : 0 <= n -> (forall c, is_ascii_digit c = true -> P c) -> Forall P (show_u n).
Proof. intros Hn H. eapply Forall_impl; [by apply show_u_digits|]. done. Qed.

Lemma range_chars (P : rchar -> Prop) r : in_u 64 (fst r) -> in_u 64 (snd r) -> (forall c, is_ascii_digit c = true -> P c) -> P 64 ->
  Forall P (render_range r).
Proof.
  intros [H1 _] [H2 _] Hd H64. unfold render_range. apply Forall_app. split; [by apply digits_are|]. constructor; [done|]. by apply digits_are.
Qed.

Lemma digit_range c : is_ascii_digit c = true -> 48 <= c <= 57.
Proof. unfold is_ascii_digit. intros H. to_prop. lia. Qed.

Lemma parse_render_range r : in_u 64 (fst r) -> in_u 64 (snd r) -> parse_byte_range (render_range r) = Some r.
Proof.
  intros H1 H2. unfold parse_byte_range.
  rewrite unquote_none by (apply range_chars; [done..|intros c Hc%digit_range; unfold QUOTE; lia|done]).
  rewrite trim_no_ws by (apply range_chars; [done..|apply digit_not_ws|done]).
  unfold render_range. rewrite split_once_app by (apply digits_are; [apply H2|]; intros c Hc%digit_range; lia).
  rewrite (parse_show_u (snd r)), (parse_show_u (fst r)) by done. by destruct r.
Qed.

(** ** A media playlist, written *)

Record play_segment := mkPlay { ps_key : str; ps_range : Z * Z; ps_name : str }.

Definition map_attrs (name : str) (r : Z * Z) : list attr :=
  [mkAttr (lit "URI") name true; mkAttr (lit "BYTERANGE") (render_range r) true].
Definition key_attrs (key : str) : list attr :=
  [mkAttr (lit "METHOD") (lit "SAMPLE-AES") false; mkAttr (lit "URI") key true; mkAttr (lit "KEYFORMAT") fairplay_format true].

Definition segment_lines (p : play_segment) : list str :=
  [key_tag ++ render_attrs (key_attrs (ps_key p)); range_tag ++ render_range (ps_range p); ps_name p].

Definition media_text (name : str) (r : Z * Z) (ps : list play_segment) : str :=
  unlines (lit "#EXTM3U" :: (map_tag ++ render_attrs (map_attrs name r)) :: concat (segment_lines <$> ps)).

Definition quotable (s : str) : Prop := s <> [] /\ no_quote s /\ one_line s.
Definition range_ok (r : Z * Z) : Prop := in_u 64 (fst r) /\ in_u 64 (snd r).
Definition name_ok (s : str) : Prop := trimmed s /\ one_line s /\ head s <> Some 35.
Definition play_ok (p : play_segment) : Prop := quotable (ps_key p) /\ range_ok (ps_range p) /\ name_ok (ps_name p).

Lemma strip_prefix_app (p s : str) : strip_prefix p (p ++ s) = Some s.
Proof. by apply strip_prefix_Some. Qed.

Lemma trimmed_dec (s : str) : bool_decide (trim s = s /\ s <> []) = true -> trimmed s.
Proof. apply bool_decide_eq_true. Qed.

Lemma render_attrs_trimmed l : l <> [] -> Forall attr_ok l -> trimmed (render_attrs l).
Proof.
  intros Hn H. induction H as [|a l Ha _ IH]; [done|]. cbn [render_attrs]. destruct l as [|b l].
  - rewrite app_nil_r. by apply render_attr_trimmed.
  - apply (trimmed_app (render_attr a) [44]); [by apply render_attr_trimmed|by apply IH].
Qed.

Lemma quoted_ok key v : trimmed key -> plain key -> Forall (fun c => c <> 61) key -> quotable v -> attr_ok (mkAttr key v true).
Proof. intros H1 H2 H3 (H4 & H5 & _). split_and!; done. Qed.

(** Facts about closed texts. *)
Ltac closed_text := first [by apply trimmed_dec; vm_compute | repeat constructor; unfold QUOTE; cbn; lia].

Lemma range_one_line r : range_ok r -> one_line (render_range r).
Proof. intros [H1 H2]. apply range_chars; [done..|intros c Hc%digit_range; lia|lia]. Qed.

Lemma range_quotable r : range_ok r -> quotable (render_range r).
Proof.
  intros Hr. split_and!; [unfold render_range; by destruct (show_u (snd r))| |by apply range_one_line].
  destruct Hr. apply range_chars; [done..|intros c Hc%digit_range; unfold QUOTE; lia|unfold QUOTE; lia].
Qed.

Lemma range_trimmed r : range_ok r -> trimmed (render_range r).
Proof.
  intros [H1 H2]. split; [|unfold render_range; by destruct (show_u (snd r))].
  apply trim_no_ws, range_chars; [done..|apply digit_not_ws|done].
Qed.

Lemma render_attrs_one_line l : Forall (fun a => one_line (at_key a) /\ one_line (at_value a)) l -> one_line (render_attrs l).
Proof.
  unfold one_line. induction 1 as [|a l [Hk Hv] _ IH]; [apply Forall_nil_2|]. cbn [render_attrs]. apply Forall_app. split.
  - unfold render_attr, written. apply Forall_app. split; [done|]. constructor; [lia|]. destruct (at_quoted a); [|done].
    constructor; [unfold QUOTE; lia|]. apply Forall_app. split; [done|]. constructor; [unfold QUOTE; lia|apply Forall_nil_2].
  - destruct l; [apply Forall_nil_2|]. constructor; [lia|done].
Qed.

Lemma map_attrs_ok name r : quotable name -> range_ok r -> Forall attr_ok (map_attrs name r).
Proof.
  intros Hn Hr. repeat apply Forall_cons_2; [..|apply Forall_nil_2]; apply quoted_ok; try closed_text; [done|by apply range_quotable].
Qed.

Lemma key_attrs_ok key : quotable key -> Forall attr_ok (key_attrs key).
Proof.
  intros Hk. unfold key_attrs. repeat apply Forall_cons_2; [..|apply Forall_nil_2].
  - split; [closed_text|]. split; [closed_text|]. split; [closed_text|]. split; [done|]. split; [closed_text|]. intros _. split; closed_text.
  - apply quoted_ok; [closed_text..|done].
  - apply quoted_ok; [closed_text..|]. split; [done|]. split; closed_text.
Qed.

Lemma tag_line_trimmed tag rest : trimmed tag -> trimmed rest -> trimmed (tag ++ rest).
Proof. apply (trimmed_app tag []). Qed.

Lemma media_map_line url name r s : quotable name -> range_ok r ->
  media_line url (map_tag ++ render_attrs (map_attrs name r)) s =
  Done (mkMedia (Some (resolve_url url name)) (Some r) (ms_segments s) (ms_key_uri s) (ms_next_range s) (ms_method s) (ms_kid s)).
Proof.
  intros Hn Hr. pose proof (map_attrs_ok name r Hn Hr) as Hok. unfold media_line.
  assert (Ht : trimmed (map_tag ++ render_attrs (map_attrs name r))).
  { apply tag_line_trimmed; [closed_text|]. by apply render_attrs_trimmed. }
  rewrite (proj1 Ht).
  change (strip_prefix key_tag (map_tag ++ ?x)) with (@None str). rewrite strip_prefix_app, read_rendered by done.
  cbn [map_tag lit]. transitivity (Done (E:=WrapperError) (media_map url (attr_pair <$> map_attrs name r) s)); [done|].
  f_equal. transitivity (mkMedia (Some (resolve_url url name)) (parse_byte_range (render_range r)) (ms_segments s) (ms_key_uri s) (ms_next_range s) (ms_method s) (ms_kid s)); [done|].
  by rewrite parse_render_range by apply Hr.
Qed.

Lemma media_key_line url key s : quotable key ->
  media_line url (key_tag ++ render_attrs (key_attrs key)) s =
  Done (mkMedia (ms_init_uri s) (ms_init_range s) (ms_segments s) (Some key) (ms_next_range s) (Some (lit "SAMPLE-AES")) (ms_kid s)).
Proof.
  intros Hk. pose proof (key_attrs_ok key Hk) as Hok. unfold media_line.
  assert (Ht : trimmed (key_tag ++ render_attrs (key_attrs key))).
  { apply tag_line_trimmed; [closed_text|]. by apply render_attrs_trimmed. }
  rewrite (proj1 Ht).
  rewrite strip_prefix_app, read_rendered by done. done.
Qed.

Lemma media_range_line url r s : range_ok r ->
  media_line url (range_tag ++ render_range r) s =
  Done (mkMedia (ms_init_uri s) (ms_init_range s) (ms_segments s) (ms_key_uri s) (Some r) (ms_method s) (ms_kid s)).
Proof.
  intros Hr. unfold media_line. rewrite (proj1 (tag_line_trimmed range_tag _ ltac:(closed_text) (range_trimmed r Hr))).
  change (strip_prefix key_tag (range_tag ++ ?x)) with (@None str). change (strip_prefix map_tag (range_tag ++ ?x)) with (@None str).
  rewrite strip_prefix_app, parse_render_range by apply Hr. done.
Qed.

Lemma media_name_line url name s : name_ok name ->
  media_line url name s =
  Done (mkMedia (ms_init_uri s) (ms_init_range s) (ms_segments s ++ [mkSegment (resolve_url url name) (ms_next_range s) (ms_key_uri s)])
          (ms_key_uri s) None (ms_method s) (ms_kid s)).
Proof.
  intros ([Ht Hn] & _ & Hh). unfold media_line. rewrite Ht. destruct name as [|c name]; [done|].
  assert (Hc : c <> 35) by (intros ->; done).
  assert (Hp : forall p, strip_prefix (35 :: p) (c :: name) = None).
  { intros p. change (strip_prefix (35 :: p) (c :: name)) with (if 35 =? c then strip_prefix p name else None).
    by rewrite (proj2 (Z.eqb_neq 35 c)) by congruence. }
  change key_tag with (35 :: tail key_tag). change map_tag with (35 :: tail map_tag). change range_tag with (35 :: tail range_tag).
  rewrite !Hp. by rewrite (proj2 (Z.eqb_neq c 35) Hc).
Qed.

Definition played (url : str) (p : play_segment) : MediaSegmentRef := mkSegment (resolve_url url (ps_name p)) (Some (ps_range p)) (Some (ps_key p)).

Lemma media_segments_read url ps : Forall play_ok ps -> forall s, ms_next_range s = None ->
  media_lines url (concat (segment_lines <$> ps)) s =
  Done (mkMedia (ms_init_uri s) (ms_init_range s) (ms_segments s ++ (played url <$> ps))
          (match last ps with Some p => Some (ps_key p) | None => ms_key_uri s end) None
          (match ps with [] => ms_method s | _ => Some (lit "SAMPLE-AES") end) (ms_kid s)).
Proof.
  induction 1 as [|p ps (Hk & Hr & Hn) _ IH]; intros s Hs.
  - cbn. rewrite app_nil_r. destruct s; cbn in *. by subst.
  - change (concat (segment_lines <$> p :: ps)) with (segment_lines p ++ concat (segment_lines <$> ps)).
    unfold segment_lines at 1. cbn [app media_lines]. rewrite media_key_line by done. cbn [mbind outcome_bind].
    rewrite media_range_line by done. cbn [mbind outcome_bind]. rewrite media_name_line by done. cbn [mbind outcome_bind].
    rewrite IH by done. cbn [ms_init_uri ms_init_range ms_segments ms_key_uri ms_next_range ms_method ms_kid]. rewrite <-app_assoc.
    destruct ps as [|p' ps]; [done|]. cbn [last]. by destruct (last (p' :: ps)) eqn:E; [|apply last_None in E].
Qed.

Lemma single_file_spec url init ps :
  forallb (fun seg => bool_decide (seg_uri seg = init)) (played url <$> ps) = true <-> Forall (fun p => resolve_url url (ps_name p) = init) ps.
Proof.
  induction ps as [|p ps IH]; [by split; intros; [apply Forall_nil_2|]|]. cbn [fmap list_fmap forallb]. rewrite andb_true_iff, bool_decide_eq_true.
  rewrite Forall_cons. by rewrite <-IH.
Qed.

(** ** Properties *)

(** The stream taken from a master playlist is one of its variants or audio renditions, of a codec the
    preference admits, ranked highest of all and the first of its rank. *)
Theorem master_choice_best (content url : str) (preference : CodecPreference) (info : AlacStreamInfo) :
  parse_master_playlist content url preference = Done info ->
  exists variants renditions vs1 v vs2 rank,
    collect_variants (lines content) url None = Done variants /\
    collect_audio_renditions (lines content) url = Done renditions /\
    variants ++ renditions = vs1 ++ v :: vs2 /\
    stream_url info = sv_uri v /\ si_codec info = sv_codec v /\ admits preference (sv_codec v) /\
    rank_of preference v = Done (Some rank) /\ below preference rank vs1 /\ at_most preference rank vs2 /\
    specs_of (lines content) v = Done (si_sample_rate info, si_bit_depth info).
Proof.
  unfold parse_master_playlist. destruct (negb _); [done|]. cbv zeta. intros H.
  destruct (validate_media_numeric_attributes _) as [[]| | |]; try done. cbn [mbind outcome_bind] in H.
  destruct (collect_variants _ _ _) as [vs| | |]; try done. cbn [mbind outcome_bind] in H.
  destruct (collect_audio_renditions _ _) as [rs| | |]; try done. cbn [mbind outcome_bind] in H.
  destruct (vs ++ rs) as [|v0 all] eqn:Eall; [done|]. unfold select_variant in H.
  destruct (select_loop (v0 :: all) preference (lines content) None) as [res| | |] eqn:Es; try done.
  cbn [mbind outcome_bind] in H. apply select_loop_chosen in Es. destruct res as [[[[r v] rate] depth]|]; [|done].
  cbn in H. injection H as <-. destruct Es as [[? _]|(vs1 & vs2 & E & Hr & Hs & H1 & H2 & _)]; [done|].
  exists vs, rs, vs1, v, vs2, r. rewrite Eall. split_and!; try done. by eapply group_rank_admits.
Qed.

(** The preferences for a resolution are not looked at: whatever is asked for other than Atmos, the
    answer is that of [HighestQuality]. *)
Theorem resolution_preference_ignored (content url : str) (preference : CodecPreference) :
  preference <> PreferAtmos -> parse_master_playlist content url preference = parse_master_playlist content url HighestQuality.
Proof.
  intros Hp. assert (Ha : is_atmos preference = false) by by destruct preference.
  assert (Hs : forall vs ls best, select_loop vs preference ls best = select_loop vs HighestQuality ls best).
  { intros vs ls. induction vs as [|v vs IH]; intros best; [done|]. cbn [select_loop].
    assert (group_rank (sv_group_id v) (sv_codec v) preference = group_rank (sv_group_id v) (sv_codec v) HighestQuality) as ->.
    { unfold group_rank. by rewrite Ha. }
    destruct (group_rank _ _ HighestQuality) as [[rank|]| | |]; try done; cbn [mbind outcome_bind]; [|apply IH].
    destruct (if bool_decide _ then _ else _) as [[rate depth]| | |]; try done. apply IH. }
  unfold parse_master_playlist. destruct (negb _); [done|]. cbv zeta.
  destruct (validate_media_numeric_attributes _); try done. cbn [mbind outcome_bind].
  destruct (collect_variants _ _ _) as [vs| | |]; try done. cbn [mbind outcome_bind].
  destruct (collect_audio_renditions _ _) as [rs| | |]; try done. cbn [mbind outcome_bind].
  destruct (vs ++ rs) as [|v all]; [done|]. unfold select_variant. rewrite Hs. unfold no_variant. by rewrite Ha.
Qed.

(** A media playlist is read back as it was written: the init segment, and of every segment the address,
    the byte range and the key it was listed under. *)
Theorem media_playlist_roundtrip (url name : str) (r : Z * Z) (ps : list play_segment) :
  quotable name -> range_ok r -> Forall play_ok ps ->
  exists info, parse_media_playlist (media_text name r ps) url = Done info /\
    init_uri info = resolve_url url name /\ init_byte_range info = Some r /\ segments info = played url <$> ps /\
    (single_file_url info = Some (init_uri info) <-> Forall (fun p => resolve_url url (ps_name p) = resolve_url url name) ps).
Proof.
  intros Hn Hr Hps. unfold parse_media_playlist, media_text. rewrite lines_unlines.
  2:{ apply Forall_cons_2; [closed_text|]. apply Forall_cons_2.
      - apply Forall_app. split; [closed_text|]. apply render_attrs_one_line.
        apply Forall_cons_2; [split; [closed_text|apply Hn]|].
        apply Forall_cons_2; [split; [closed_text|by apply range_one_line]|apply Forall_nil_2].
      - apply Forall_concat, Forall_fmap. eapply Forall_impl; [exact Hps|]. intros p ((Hk & Hkq & Hkl) & Hpr & _ & Hpn & _). cbn.
        unfold segment_lines. apply Forall_cons_2; [|apply Forall_cons_2; [|apply Forall_cons_2; [done|apply Forall_nil_2]]].
        + apply Forall_app. split; [closed_text|]. apply render_attrs_one_line.
          apply Forall_cons_2; [split; closed_text|]. apply Forall_cons_2; [split; [closed_text|exact Hkl]|].
          apply Forall_cons_2; [split; closed_text|apply Forall_nil_2].
        + apply Forall_app. split; [closed_text|by apply range_one_line]. }
  cbn [media_lines]. change (media_line url (lit "#EXTM3U") ?s) with (Done (E:=WrapperError) s). cbn [mbind outcome_bind].
  rewrite media_map_line by done. cbn [mbind outcome_bind]. rewrite media_segments_read by done. run_simpl. cbn.
  eexists. split; [done|]. cbn. split_and!; [done..|].
  rewrite <-single_file_spec. by destruct (forallb _ _).
Qed.

(** Closed texts: an apostrophe stands for a double quote. *)
Definition requote (s : str) : str := (fun c => if c =? 39 then QUOTE else c) <$> s.
Definition text (ls : list string) : str := unlines ((fun l => requote (lit l)) <$> ls).

Definition demo_master : str := text
  ["#EXTM3U"; "#EXT-X-MEDIA:TYPE=AUDIO,GROUP-ID='audio-stereo-256',NAME='a,b'";
   "#EXT-X-STREAM-INF:BANDWIDTH=270020,CODECS='mp4a.40.2',AUDIO='audio-stereo-256'"; "A_256.m3u8";
   "#EXT-X-STREAM-INF:BANDWIDTH=1850877,CODECS='alac',AUDIO='audio-alac-stereo-48000-24'"; "A_48.m3u8";
   "#EXT-X-STREAM-INF:BANDWIDTH=3018699,CODECS='alac',AUDIO='audio-alac-stereo-96000-24'"; "A_96.m3u8"]%string.
Definition demo_url : str := lit "https://host/a/master.m3u8?x=1".

Lemma master_choice_best_witness : exists variants renditions vs1 v vs2 rank,
    collect_variants (lines demo_master) demo_url None = Done variants /\
    collect_audio_renditions (lines demo_master) demo_url = Done renditions /\
    variants ++ renditions = vs1 ++ v :: vs2 /\
    lit "https://host/a/A_96.m3u8" = sv_uri v /\ lit "alac" = sv_codec v /\ admits HighestQuality (sv_codec v) /\
    rank_of HighestQuality v = Done (Some rank) /\ below HighestQuality rank vs1 /\ at_most HighestQuality rank vs2 /\
    specs_of (lines demo_master) v = Done (96000, 24).
Proof. apply (master_choice_best demo_master demo_url HighestQuality (mkStreamInfo (lit "https://host/a/A_96.m3u8") (lit "alac") 96000 24)). by vm_compute. Defined.

Definition demo_plays : list play_segment :=
  [mkPlay (lit "skd://itunes.apple.com/P000000000/s1/e1") (1037, 1300622) (lit "audio.mp4");
   mkPlay (lit "skd://itunes.apple.com/P290437790/c6") (1301659, 1532212) (lit "audio.mp4")].

Lemma media_playlist_roundtrip_witness : exists info,
    parse_media_playlist (media_text (lit "audio.mp4") (0, 1037) demo_plays) demo_url = Done info /\
    init_uri info = resolve_url demo_url (lit "audio.mp4") /\ init_byte_range info = Some (0, 1037) /\ segments info = played demo_url <$> demo_plays /\
    (single_file_url info = Some (init_uri info) <->
     Forall (fun p => resolve_url demo_url (ps_name p) = resolve_url demo_url (lit "audio.mp4")) demo_plays).
Proof.
  apply media_playlist_roundtrip.
  - split; [done|]. split; closed_text.
  - split; unfold in_u; cbn; lia.
  - repeat (apply Forall_cons_2; [split; [split; [done|split; closed_text]|split; [split; unfold in_u; cbn; lia|split; [closed_text|split; [closed_text|done]]]]|]).
    apply Forall_nil_2.
Defined.

(** With two lossless variants of one sampling rate the first is taken, whatever their bit depths: 16 bits
    here, though 24 bits were to be had and the highest quality asked for. *)
Theorem bit_depth_not_ranked : exists info,
  parse_master_playlist (text
    ["#EXTM3U"; "#EXT-X-STREAM-INF:BANDWIDTH=1,CODECS='alac',AUDIO='audio-alac-stereo-44100-16'"; "a.m3u8";
     "#EXT-X-STREAM-INF:BANDWIDTH=2,CODECS='alac',AUDIO='audio-alac-stereo-44100-24'"; "b.m3u8"]%string) demo_url HighestQuality = Done info /\
  si_bit_depth info = 16.
Proof. eexists. split; [vm_compute; reflexivity|done]. Qed.

(** One AAC variant of an unknown group fails a whole playlist, the lossless variant in it included, though
    the check of the groups lets it through. *)
Theorem odd_group_fails_playlist : exists v,
  collect_variants [requote (lit "#EXT-X-STREAM-INF:BANDWIDTH=1,CODECS='mp4a.40.2',AUDIO='audio-other-64'"); lit "a.m3u8"] demo_url None = Done [v] /\
  parse_master_playlist (text
    ["#EXTM3U"; "#EXT-X-STREAM-INF:BANDWIDTH=1,CODECS='mp4a.40.2',AUDIO='audio-other-64'"; "a.m3u8";
     "#EXT-X-STREAM-INF:BANDWIDTH=2,CODECS='alac',AUDIO='audio-alac-stereo-44100-24'"; "b.m3u8"]%string) demo_url HighestQuality =
  Fail (invalid_group (lit "audio-other-64")).
Proof. eexists. split; vm_compute; reflexivity. Qed.

(** A byte range without an offset is read as starting at the first byte of the file, not behind the
    range before it: two such segments cover the same bytes. *)
Theorem range_without_offset_restarts : exists info,
  parse_media_playlist (text ["#EXTM3U"; "#EXT-X-MAP:URI='a.mp4'"; "#EXT-X-BYTERANGE:100@50"; "a.mp4"; "#EXT-X-BYTERANGE:200"; "a.mp4"]%string) demo_url = Done info /\
  byte_range <$> segments info = [Some (50, 100); Some (0, 200)].
Proof. eexists. split; [vm_compute; reflexivity|done]. Qed.

(** [METHOD=NONE] does not end the use of a key: the clear segments behind it are still listed under it. *)
Theorem clear_segment_keeps_key : exists info,
  parse_media_playlist (text ["#EXTM3U"; "#EXT-X-MAP:URI='a.mp4'"; "#EXT-X-KEY:METHOD=SAMPLE-AES,URI='skd://k'"; "a.mp4"; "#EXT-X-KEY:METHOD=NONE"; "b.mp4"]%string) demo_url = Done info /\
  seg_key_uri <$> segments info = [Some (lit "skd://k"); Some (lit "skd://k")].
Proof. eexists. split; [vm_compute; reflexivity|done]. Qed.
