(* ===== verification/CachedLane.v ===== *)
(** * CachedLane: a cached track on the lane (crates/engine/src/orchestrator/cached_lane.rs)

    [resolve_cached_item] delivers a cached track by copying its message, or stages it for the album's
    archive, and says whether it counts as a hit or must be ripped again.  The answers of the ports
    and the looks at the cancellation flags come from an environment; what the item leaves in the job
    is a record, every call of a port is logged.  Progress events are left out.  The panic of the file
    name's builder is [None]. *)
From S2P Require Import Prelude Text Music Filename ZipPlan ZipState Retry Storage Delivery DeliverySeq OrderedDispatch JobPlan UploadLane.

Inductive cached_look : Type := AtCached | AfterCopy | AfterFetch | AtHit.

Record cached_env := mkCachedEnv {
  ce_cancelled : cached_look -> bool;                                (* job, controller or queue *)
  ce_copy : option (result DeliveryError DeliveryReceipt);           (* [None]: cancelled first *)
  ce_materialize : option (result DeliveryError unit);
  ce_metadata : result str Z;
}.

Inductive cached_call : Type :=
| CopyToChat (msg : Z) (delivered : bool)
| Materialize (msg : Z) (path : str) (done : bool)
| DropRow (track_id : str) (codec : Codec).

Record cached_state := mkCached {
  cs_first : option Z;                 (* [first_delivered_msg_id] *)
  cs_cached_count : Z;
  cs_zip : zip_lane;
  cs_log : list cached_call;
}.

Definition log_cached (c : cached_call) (s : cached_state) : cached_state :=
  mkCached (cs_first s) (cs_cached_count s) (cs_zip s) (cs_log s ++ [c]).
Definition on_zip (f : zip_lane -> zip_lane) (s : cached_state) : cached_state :=
  mkCached (cs_first s) (cs_cached_count s) (f (cs_zip s)) (cs_log s).
Definition note_first (sent_id : Z) (s : cached_state) : cached_state :=
  mkCached (remember_first sent_id (cs_first s)) (cs_cached_count s) (cs_zip s) (cs_log s).
Definition count_cached (s : cached_state) : cached_state :=
  mkCached (cs_first s) (wrap 64 (cs_cached_count s + 1)) (cs_zip s) (cs_log s).

Section Resolve.
Variables (env : cached_env) (ctx : lane_ctx).
Variable reused : bool.                (* [zip_reuse.contains_key(&item.rendition)] *)
Variables (item : plan_item) (cached : CachedTrack).

(** The row is dropped and the item ripped again. *)
Definition rerip (s : cached_state) : CacheResolution * cached_state :=
  (Rerip, log_cached (DropRow (ct_track_id cached) (ct_codec cached)) s).

(** The copy of the message: an answer that ends the item, or the state after it. *)
Definition copy_cached (s : cached_state) : (CacheResolution * cached_state) + cached_state :=
  if negb (is_cache_only ctx) && negb (zip_deliver ctx) then
    match ce_copy env with
    | None => inl (CacheCancelled, log_cached (CopyToChat (ct_message_id cached) false) s)
    | Some (Ok (Message sent_id)) =>
        let s := log_cached (CopyToChat (ct_message_id cached) true) s in
        if ce_cancelled env AfterCopy then inl (CacheCancelled, s) else inr (note_first sent_id s)
    | Some _ => inl (rerip (log_cached (CopyToChat (ct_message_id cached) false) s))
    end
  else inr s.

Definition entry_filename : option str :=
  build_zip_entry_filename_with_codec None (default [] (pi_meta_title item)) (default [] (pi_meta_artist item))
    (pi_id item) (as_str (ct_codec cached)).

Definition stage_source (destination filename : str) (size : Z) (z : zip_lane) : zip_lane :=
  mkZipLane (zip_dir z) (seed_zip_codec (zip_codec z) (ct_codec cached))
    (zip_sources z ++ [mkEntry destination filename size]) (primary_zip_error z) (atmos_warning z) (files_removed z).

(** The staging for the archive. *)
Definition stage_cached (s : cached_state) : option ((CacheResolution * cached_state) + cached_state) :=
  match zip_dir (cs_zip s) with
  | Some dir =>
      if zip_build ctx && negb reused then
        filename ← entry_filename;
        let destination := dir ++ lit "/" ++ filename in
        let log done := log_cached (Materialize (ct_message_id cached) destination done) in
        let drop := on_zip (remove_file destination) in
        Some (match ce_materialize env with
              | None => inl (CacheCancelled, drop (log false s))
              | Some (Err _) => inl (rerip (drop (log false s)))
              | Some (Ok _) =>
                  let s := log true s in
                  if ce_cancelled env AfterFetch then inl (CacheCancelled, drop s)
                  else match ce_metadata env with
                       | Ok size => inr (on_zip (stage_source destination filename size) s)
                       | Err _ => inl (rerip (drop s))
                       end
              end)
      else Some (inr s)
  | None => Some (inr s)
  end.

Definition resolve_cached_item (s : cached_state) : option (CacheResolution * cached_state) :=
  if ce_cancelled env AtCached then Some (CacheCancelled, s)
  else if negb (codec_allowed_for_rendition (pi_rendition item) (ct_codec cached)) then Some (rerip s)
  else match copy_cached s with
       | inl ended => Some ended
       | inr s =>
           staged ← stage_cached s;
           Some (match staged with
                 | inl ended => ended
                 | inr s =>
                     if ce_cancelled env AtHit then (CacheCancelled, s)
                     else (Hit, match pi_rendition item with Primary => count_cached s | Atmos => s end)
                 end)
       end.

(** The lane task of [enqueue_cached_lane_task]: the guard answers when the body panics. *)
Definition cached_lane_task (s : cached_state) : CacheResolution * cached_state :=
  match resolve_cached_item s with
  | Some res => res
  | None => (CacheFailed (lit "cached lane task stopped unexpectedly"), s)
  end.

(** [enqueue_cached_lane_task]: what the push of the task answers. *)
Definition enqueue_cached_lane_task (pushed cancelled : bool) : CacheEnqueueResult :=
  if negb pushed then
    if cancelled then EnqCancelled else EnqFailed (lit "cached lane task could not be queued")
  else EnqPending.
End Resolve.

(** ** Lemmas *)

Lemma entry_filename_total item cached : is_Some (entry_filename item cached).
Proof.
  unfold entry_filename, build_zip_entry_filename_with_codec.
  edestruct (sanitize_and_bound_ok MAX_ZIP_ENTRY_FILENAME_BYTES) as (n & Hn & _); [done|]. rewrite Hn. by eexists.
Qed.

(** Closes a case in which the calls are known. *)
Ltac finish_item :=
  do 3 eexists; split; [reflexivity|]; split;
  [cbn [cs_log log_cached on_zip note_first count_cached]; first [symmetry; apply app_nil_r | reflexivity | rewrite <-!app_assoc; reflexivity]|];
  cbn; split_and?; try done; intros; try done; try set_solver; eauto.

(** ** Properties *)

(** How an item ends.  It never fails the lane.  A hit keeps the row; an album's source is then staged
    under the codec and the track counted once.  An item to be ripped again has lost its row, left
    nothing in the archive and counted nothing; with the flags a job sets ([zip_deliver] for an
    album unless it is cache only) it has not been delivered either, so it cannot be sent twice. *)
Theorem cached_item_ends (env : cached_env) (ctx : lane_ctx) (reused : bool) (item : plan_item) (cached : CachedTrack)
    (s : cached_state) :
  zip_deliver ctx = zip_build ctx && negb (is_cache_only ctx) ->
  let row := DropRow (ct_track_id cached) (ct_codec cached) in
  exists res s' l, cached_lane_task env ctx reused item cached s = (res, s') /\ cs_log s' = cs_log s ++ l /\
    match res with
    | Hit => row ∉ l /\
        (zip_build ctx = false -> is_cache_only ctx = false -> CopyToChat (ct_message_id cached) true ∈ l) /\
        (zip_build ctx = true -> reused = false -> is_Some (zip_dir (cs_zip s)) ->
          exists e, zip_sources (cs_zip s') = zip_sources (cs_zip s) ++ [e] /\
            zip_codec (cs_zip s') = seed_zip_codec (zip_codec (cs_zip s)) (ct_codec cached)) /\
        cs_cached_count s' = match pi_rendition item with Primary => wrap 64 (cs_cached_count s + 1) | Atmos => cs_cached_count s end
    | Rerip => row ∈ l /\ zip_sources (cs_zip s') = zip_sources (cs_zip s) /\ cs_cached_count s' = cs_cached_count s /\
        cs_first s' = cs_first s /\ (forall m, CopyToChat m true ∉ l)
    | CacheCancelled => row ∉ l /\ cs_cached_count s' = cs_cached_count s
    | CacheFailed _ => False
    end.
Proof.
  intros Hflags. cbv zeta. unfold cached_lane_task, resolve_cached_item, copy_cached, stage_cached, rerip.
  destruct (entry_filename_total item cached) as [filename ->].
  destruct (zip_build ctx), (is_cache_only ctx), reused; cbn [negb andb] in *; try rewrite Hflags; cbn [negb andb];
    (destruct (ce_cancelled env AtCached); [by finish_item|]);
    (destruct (codec_allowed_for_rendition (pi_rendition item) (ct_codec cached)); cbn [negb]; [|by finish_item]).
  all: try (destruct (ce_copy env) as [[[sent_id|]|e]|]; [|by finish_item..]).
  all: try (destruct (ce_cancelled env AfterCopy); [by finish_item|]).
  all: cbn [cs_zip note_first log_cached]; destruct (zip_dir (cs_zip s)) as [dir|]; cbn [mbind option_bind].
  all: try (destruct (ce_materialize env) as [[[]|e]|]; [|by finish_item..]).
  all: try (destruct (ce_cancelled env AfterFetch); [by finish_item|]).
  all: try (destruct (ce_metadata env) as [size|e]; [|by finish_item]).
  all: destruct (ce_cancelled env AtHit); [by finish_item|].
  all: destruct (pi_rendition item); by finish_item.
Qed.

Definition demo_cached_env (m : option (result DeliveryError unit)) : cached_env :=
  mkCachedEnv (fun _ => false) (Some (Ok (Message 70))) m (Ok 900).
Definition demo_lane_ctx (album cache_only : bool) : lane_ctx :=
  mkCtx false false cache_only album (album && negb cache_only) (mkRetryConfig 3 2000) RetryPolicy_test.
Definition demo_cached_item : plan_item :=
  mkPlanItem (mkItem (lit "7") Primary None None) None (Some (lit "T")) (Some (lit "A")) None None None.
Definition demo_cached_row : CachedTrack := mkCachedTrack (lit "7") Aac 41 [] [].
Definition demo_cached_state : cached_state := mkCached None 0 (mkZipLane (Some (lit "/z")) None [] None None []) [].

(** The row of an album's track whose message cannot be fetched is dropped and the track ripped again;
    one that can is staged as an AAC source. *)
Lemma cached_item_ends_witness : exists res s' l,
  cached_lane_task (demo_cached_env (Some (Ok tt))) (demo_lane_ctx true false) false demo_cached_item demo_cached_row
    demo_cached_state = (res, s') /\ cs_log s' = [] ++ l /\ res = Hit /\ zip_codec (cs_zip s') = Some (lit "aac").
Proof.
  destruct (cached_item_ends (demo_cached_env (Some (Ok tt))) (demo_lane_ctx true false) false demo_cached_item demo_cached_row
    demo_cached_state eq_refl) as (res & s' & l & Hrun & Hlog & _).
  exists res, s', l. split; [exact Hrun|]. split; [exact Hlog|].
  assert (E : (res, s') = cached_lane_task (demo_cached_env (Some (Ok tt))) (demo_lane_ctx true false) false demo_cached_item
    demo_cached_row demo_cached_state) by (symmetry; exact Hrun).
  clear -E. assert (H : fst (res, s') = Hit /\ zip_codec (cs_zip (snd (res, s'))) = Some (lit "aac")) by (rewrite E; by vm_compute).
  exact H.
Defined.

(** ** Shortcomings *)

(** A failure that would pass, a transient one, costs the cache its row: the track is ripped and
    published a second time, while the message it had in the dump is neither used nor retracted. *)
Theorem transient_failure_drops_row :
  let env := mkCachedEnv (fun _ => false) (Some (Err (Transient (lit "flood")))) None (Ok 0) in
  cached_lane_task env (demo_lane_ctx false false) false demo_cached_item demo_cached_row demo_cached_state =
    (Rerip, log_cached (DropRow (lit "7") Aac) (log_cached (CopyToChat 41 false) demo_cached_state)).
Proof. by vm_compute. Qed.
