(* ===== verification/RipLane.v ===== *)
(** * RipLane: a fresh rip on the lane (crates/engine/src/orchestrator/rip_lane.rs; types.rs,
      [FailedTrackKind::of])

    [rip_fresh_item] asks for a track with the codec its rendition wants and turns the answer of the
    ripper (Ripper.v) into the lane's outcome: a result for the upload lane, nothing more to do, or a
    cancellation.  Only a required rendition's failure is recorded.  Progress events are left out. *)
From S2P Require Import Prelude Text Music Settings Streaming Ripper Delivery OrderedDispatch JobPlan.

(** [FailedTrackKind::of]. *)
Definition failed_kind_of (e : RipError) : option FailedTrackKind :=
  match e with
  | RTrackUnavailable _ => Some TrackUnavailable
  | RRenditionUnavailable _ => Some RenditionUnavailable
  | RSourceOffline _ => Some SourceOffline
  | RCancelled => Some KindCancelled
  | RTimeout _ _ => Some KindTimeout
  | RAuthentication _ => Some KindAuthentication
  | RLocalIo _ => Some KindLocalIo
  | _ => None
  end.

(** What a rip is asked with. *)
Record rip_request := mkRequest { rq_track_id : str; rq_storefront : str; rq_codec_preference : CodecPreference }.

(** [is_lane_cancelled] before, after a failure and after a success. *)
Inductive rip_lane_look : Type := BeforeRip | AfterError | AfterRip.

Record rip_lane_env := mkRipLaneEnv {
  rl_cancelled : rip_lane_look -> bool;
  rl_unavailable_message : str;
  rl_settings : BotSettings;
  rl_rip : rip_request -> result RipError RipOutput;
}.

(** The failures of the job and the codec its label shows. *)
Record rip_lane_state := mkRipLane {
  rs_failed_tracks : list FailedTrack; rs_failed_count : Z; rs_codec : option str; rs_asked : list rip_request;
}.

Definition fail_track (f : FailedTrack) (s : rip_lane_state) : rip_lane_state :=
  mkRipLane (rs_failed_tracks s ++ [f]) (Z.of_nat (length (rs_failed_tracks s ++ [f]))) (rs_codec s) (rs_asked s).
Definition show_codec (codec : str) (s : rip_lane_state) : rip_lane_state :=
  mkRipLane (rs_failed_tracks s) (rs_failed_count s) (Some codec) (rs_asked s).
Definition ask (r : rip_request) (s : rip_lane_state) : rip_lane_state :=
  mkRipLane (rs_failed_tracks s) (rs_failed_count s) (rs_codec s) (rs_asked s ++ [r]).

Section Rip.
Variables (env : rip_lane_env) (opt_preference : option CodecPreference) (item : plan_item).

Definition failed_item (error : str) (kind : option FailedTrackKind) : FailedTrack :=
  mkFailed (pi_id item) error kind (pi_meta_title item) (pi_meta_artist item) (pi_storefront item).

Definition wanted_preference : CodecPreference :=
  match pi_rendition item with
  | Atmos => PreferAtmos
  | Primary => default (codec_preference (pi_rendition item)) opt_preference
  end.

Definition initial_codec : str :=
  match pi_rendition item with
  | Atmos => lit "ec-3"
  | Primary => match wanted_preference with PreferAtmos => lit "ec-3" | _ => lit "alac" end
  end.

Definition rip_asked : rip_request :=
  mkRequest (pi_id item) (default (resolve_default_storefront (rl_settings env)) (pi_storefront item)) wanted_preference.

(** [rip_fresh_item]; the result is the ripper's, under the item's identity ([outcome_for]). *)
Definition rip_fresh_item (s : rip_lane_state) : rip_answer (R := RipOutput) * rip_lane_state :=
  if rl_cancelled env BeforeRip then (AnsCancelled, s)
  else if bool_decide (pi_is_streamable item = Some false) then
    match pi_rendition item with
    | Atmos => (AnsFinished, s)
    | Primary => (AnsFinished, fail_track (failed_item (rl_unavailable_message env) (Some TrackUnavailable)) s)
    end
  else
    let s := ask rip_asked (show_codec initial_codec s) in
    match rl_rip env rip_asked with
    | Ok rip_result =>
        let s := show_codec (ro_codec rip_result) s in
        if rl_cancelled env AfterRip then (AnsCancelled, s) else (AnsRipped rip_result, s)
    | Err error =>
        if rl_cancelled env AfterError then (AnsCancelled, s)
        else match pi_rendition item with
             | Atmos => (AnsFinished, s)
             | Primary => (AnsFinished, fail_track (failed_item (rip_error_display error) (failed_kind_of error)) s)
             end
    end.
End Rip.

(** ** Properties *)

(** How a fresh rip ends: never by stopping the lane; a result is the ripper's; a track that is
    finished without a result is listed as failed exactly when its rendition is required, with the
    ripper's words, and a cancelled one is not listed. *)
Theorem fresh_rip_ends (env : rip_lane_env) (opt_preference : option CodecPreference) (item : plan_item) (s : rip_lane_state) :
  let '(answer, s') := rip_fresh_item env opt_preference item s in
  match answer with
  | AnsRipped out => rl_rip env (rip_asked env opt_preference item) = Ok out /\ rs_failed_tracks s' = rs_failed_tracks s /\
      rs_codec s' = Some (ro_codec out) /\ pi_is_streamable item <> Some false
  | AnsFinished =>
      match pi_rendition item with
      | Atmos => rs_failed_tracks s' = rs_failed_tracks s
      | Primary => exists f, rs_failed_tracks s' = rs_failed_tracks s ++ [f] /\ failed_id f = pi_id item /\
          rs_failed_count s' = Z.of_nat (length (rs_failed_tracks s')) /\
          (pi_is_streamable item = Some false /\ failed_kind f = Some TrackUnavailable \/
           exists e, rl_rip env (rip_asked env opt_preference item) = Err e /\ failed_error f = rip_error_display e /\
             failed_kind f = failed_kind_of e)
      end
  | AnsCancelled => rs_failed_tracks s' = rs_failed_tracks s /\ exists k, rl_cancelled env k = true
  | AnsStop => False
  end /\
  (length (rs_asked s') <= S (length (rs_asked s)))%nat.
Proof.
  unfold rip_fresh_item. destruct (rl_cancelled env BeforeRip) eqn:Ec; [split; [split; [done|by eexists]|lia]|].
  destruct (bool_decide_reflect (pi_is_streamable item = Some false)) as [Hs|Hs].
  { destruct (pi_rendition item); (split; [|cbn; lia]); [|done]. eexists. split_and!; [done..|]. by left. }
  destruct (rl_rip env _) as [out|e] eqn:Er.
  - destruct (rl_cancelled env AfterRip) eqn:Ea; (split; [|cbn; rewrite length_app; cbn; lia]); [by split; [|eexists]|done].
  - destruct (rl_cancelled env AfterError) eqn:Ea; [split; [by split; [|eexists]|cbn; rewrite length_app; cbn; lia]|].
    destruct (pi_rendition item); (split; [|cbn; rewrite length_app; cbn; lia]); [|done].
    eexists. split_and!; [done..|]. right. by eexists.
Qed.
