(* ===== verification/UploadWait.v ===== *)
(** * UploadWait: waiting for the uploads of a job (crates/engine/src/orchestrator/upload_lane.rs,
      [PendingUploadGuard], [ensure_upload_lane]; finalize.rs, the loop of [finalize_job])

    The dispatcher counts every upload it queues; an upload that ends takes itself off the count and
    the last one wakes the waiters; the finalize marker waits for the count to be zero or for the job
    to be cancelled.  Each atomic action is a step: reading the count, creating the [notified()]
    future (which only hears calls of [notify_waiters] made after it), taking one off the count,
    waking.  With an upload concurrency of one the lane runs its tasks one after the other, so the
    marker starts after them. *)
From S2P Require Import Prelude.

Inductive marker : Type :=
| NotQueued          (* the dispatcher still queues uploads *)
| Queued             (* the marker is on the lane, behind the uploads *)
| Loading            (* about to read the count *)
| Creating           (* the count was not zero: about to create the future *)
| Waiting            (* in the [select!] *)
| Past.              (* the loop is over *)

Record waits := mkWaits {
  pending_uploads : Z;      (* [AtomicUsize] *)
  waking : Z;               (* uploads between their [fetch_sub] and [notify_waiters] *)
  at_ : marker;
  cancelled : bool;
}.

Definition no_uploads : waits := mkWaits 0 0 NotQueued false.

Definition set_at (m : marker) (w : waits) : waits := mkWaits (pending_uploads w) (waking w) m (cancelled w).

Inductive wait_action : Type := Enqueue | EnqueueMarker | StartMarker | Load | Create | Sub | Notify | Cancel | Wake.

Section Lane.
Variable upload_concurrency : Z.

(** [None]: the action is not enabled. *)
Definition act (a : wait_action) (w : waits) : option waits :=
  match a, at_ w with
  | Enqueue, NotQueued => Some (mkWaits (wrap 64 (pending_uploads w + 1)) (waking w) NotQueued (cancelled w))
  | EnqueueMarker, NotQueued => Some (set_at Queued w)
  | StartMarker, Queued =>
      (* a serial lane takes its tasks in order: the uploads before the marker are over *)
      if (upload_concurrency <=? 1) && negb ((pending_uploads w =? 0) && (waking w =? 0)) then None else Some (set_at Loading w)
  | Load, Loading => Some (set_at (if 0 <? pending_uploads w then Creating else Past) w)
  | Create, Creating => Some (set_at Waiting w)
  | Sub, _ =>
      if 0 <? pending_uploads w
      then Some (mkWaits (pending_uploads w - 1) (waking w + if pending_uploads w =? 1 then 1 else 0) (at_ w) (cancelled w))
      else None
  | Notify, m =>
      if 0 <? waking w
      then Some (mkWaits (pending_uploads w) (waking w - 1) (match m with Waiting => Loading | _ => m end) (cancelled w))
      else None
  | Cancel, m => Some (mkWaits (pending_uploads w) (waking w) m true)
  | Wake, Waiting => if cancelled w then Some (set_at Past w) else None
  | _, _ => None
  end.

(** Fewer than 2^64 uploads are queued. *)
Definition small (w : waits) : Prop := pending_uploads w < 2 ^ 64 - 1.

Definition wait_step (w w' : waits) : Prop := small w /\ exists a, act a w = Some w'.
Definition wait_reachable (w : waits) : Prop := steps wait_step no_uploads w.

Definition wait_inv (w : waits) : Prop :=
  0 <= pending_uploads w /\ 0 <= waking w /\
  (at_ w = Past -> pending_uploads w = 0 \/ cancelled w = true) /\
  (upload_concurrency <= 1 -> match at_ w with
     | NotQueued | Queued => True
     | Loading => pending_uploads w = 0 /\ waking w = 0
     | Past => pending_uploads w = 0
     | Creating | Waiting => False
     end).

Lemma act_inv a w w' : small w -> wait_inv w -> act a w = Some w' -> wait_inv w'.
Proof.
  unfold small, wait_inv. intros Hsmall (H1 & H2 & H3 & H4) Hact. destruct w as [p k m c]. cbn in *.
  destruct a, m; cbn in Hact; repeat case_match; simplify_eq; cbn; to_prop; split_and!; try done; try lia; try (by intros; lia);
    try (rewrite ?wrap_small by (unfold in_u; lia); lia); try (intros; naive_solver lia); try naive_solver lia.
Qed.

Lemma waits_inv w : wait_reachable w -> wait_inv w.
Proof.
  intros H. apply (steps_invariant wait_step wait_inv) with no_uploads; [|exact H|unfold wait_inv, no_uploads; cbn; split_and!; try done; lia].
  intros s s' Hi [Hs [a Ha]]. by eapply act_inv.
Qed.
End Lane.

Fixpoint wait_run (n : Z) (l : list wait_action) (w : waits) : option waits :=
  match l with
  | [] => Some w
  | a :: l => w' ← act n a w; wait_run n l w'
  end.

Lemma wait_run_steps n l : forall w w', wait_run n l w = Some w' -> pending_uploads w + Z.of_nat (length l) < 2 ^ 64 - 1 -> 0 <= pending_uploads w -> steps (wait_step n) w w'.
Proof.
  induction l as [|a l IH]; intros w w' H Hsmall Hpos; cbn [wait_run] in H; [injection H as <-; constructor|].
  destruct (act n a w) as [w1|] eqn:E; [|done]. cbn [length] in Hsmall.
  econstructor; [split; [unfold small; lia|by exists a]|].
  assert (Hp : 0 <= pending_uploads w1 <= pending_uploads w + 1).
  { clear IH H. destruct w as [p k m c], a, m; cbn in *; repeat case_match; simplify_eq; cbn; to_prop; try lia; rewrite wrap_small; unfold in_u; lia. }
  apply IH; [exact H|lia|lia].
Qed.

(** ** Properties *)


(** With a concurrent lane the wake-up can be lost: the last upload ends between the marker's look at
    the count and the creation of its future.  The job then hangs: no upload is left, nobody will
    wake the marker, and only a cancellation ends the wait. *)
Theorem wakeup_lost : exists w, wait_reachable 2 w /\ at_ w = Waiting /\ pending_uploads w = 0 /\ cancelled w = false /\
  forall a w', act 2 a w = Some w' -> a = Cancel.
Proof.
  exists (mkWaits 0 0 Waiting false). split_and!; [|done..|by intros []].
  apply (wait_run_steps 2 [Enqueue; EnqueueMarker; StartMarker; Load; Sub; Notify; Create]); [done|by vm_compute|done].
Qed.

