(* ===== verification/Finalize.v ===== *)
(** * Finalize: the end of a job (crates/engine/src/orchestrator/finalize.rs; core/src/cache.rs,
      [AlbumReplacementResult], [AlbumCacheError])

    Once the tracks are uploaded the archives of the album are sent: one of the cache when there is
    one, else the staged tracks are planned (ZipPlan.v), built (ZipArchive.v), published to the dump,
    copied to the chat and recorded, part by part.  [finalize_zip_inner] runs in a state and error
    monad over an environment that answers each call at its own place.  A message published to the
    dump stays in the ledger (ZipState.v) until its archive is recorded; [finalize_zip] retracts what
    is left.  Progress events and the job's label are left out. *)
From S2P Require Import Prelude Text Music Filename ZipPlan ZipState Priority Delivery DeliverySeq JobPlan JobRun.

Inductive AlbumCacheOperation : Type := FindAlbum | SaveAlbum | ReplaceAlbum | DeleteAlbum.

Definition album_operation_name (o : AlbumCacheOperation) : str :=
  match o with
  | FindAlbum => lit "find album" | SaveAlbum => lit "save album"
  | ReplaceAlbum => lit "replace album" | DeleteAlbum => lit "delete album"
  end.

Inductive AlbumCacheError : Type :=
| AlbumUnavailable (operation : AlbumCacheOperation) (detail : str)
| AlbumConflict (operation : AlbumCacheOperation) (detail : str)
| AlbumFailed (operation : AlbumCacheOperation) (detail : str).

Definition album_cache_error_display (e : AlbumCacheError) : str :=
  match e with
  | AlbumUnavailable o d => album_operation_name o ++ lit " unavailable: " ++ d
  | AlbumConflict o d => album_operation_name o ++ lit " conflicted: " ++ d
  | AlbumFailed o d => album_operation_name o ++ lit " failed: " ++ d
  end.

Inductive AlbumReplacementResult : Type := Committed (displaced_message_ids : list Z) | Stale.

(** The fields of [AlbumUpload] besides the album's identifier. *)
Record AlbumUpload := mkAlbumUpload {
  au_codec : Codec; au_part_index : Z; au_total_parts : Z; au_message_id : Z; au_file_id : str;
  au_file_unique_id : str; au_file_size : Z; au_generation_hash : str;
}.

(** [ZipCaption], without the album's identifier. *)
Record ZipCaption := mkZipCaption {
  zc_codec : option str; zc_part_index : Z; zc_total_parts : Z; zc_generation_hash : str; zc_is_complete : bool;
}.

(** [ZipState]: the content of its locks. *)
Record zip_state := mkZipState {
  zs_rendition : Rendition; zs_dir : str; zs_sources : list ZipTrackEntry; zs_codec : option str;
  zs_generation_hash : option str;
}.

(** What finalisation reads of [TaskContext] and of the job. *)
Record zip_job := mkZipJob {
  zj_options : RipTaskOptions; zj_build : bool; zj_deliver : bool; zj_states : list zip_state;
  zj_reuse : gmap Rendition (list CachedAlbum); zj_expectations : gmap Rendition AlbumReplacementExpectation;
  zj_atmos_count : option Z; zj_album : str; zj_artist : str; zj_release_date : str;
  zj_artwork_url : option str; zj_expected_tracks : Z; zj_failures : list FailedTrack;
}.

(** Which rows are delivered: the archive reused by the plan, the one found before the upload, or
    the winner of a conflict. *)
Inductive row_use : Type := Reused | Existing | Winner.

Inductive place : Type :=
| AtStart | AtState (r : Rendition)
| AtRow (r : Rendition) (w : row_use) (k : nat) | AfterRow (r : Rendition) (w : row_use) (k : nat)
| AfterCover (r : Rendition) | AfterThumb (r : Rendition)
| PartStart (r : Rendition) (part : Z) | PartBuilt (r : Rendition) (part : Z) | PartReady (r : Rendition) (part : Z)
| PartPublished (r : Rendition) (part : Z) | PartCopy (r : Rendition) (part : Z) | PartCopied (r : Rendition) (part : Z)
| PhotoStart (r : Rendition) | PhotoDone (r : Rendition) | AtEnd.

(** The answer of the blocking task that builds an archive. *)
Inductive build_answer : Type := Built (size : Z) | BuildFailed (error : str) | BuildDied (error : str).

Record zip_env := mkZipEnv {
  ze_cancelled : place -> bool;
  ze_zip_error : place -> option str;                        (* [primary_zip_error] *)
  ze_row : Rendition -> row_use -> nat -> result DeliveryError DeliveryReceipt;
  ze_find : Rendition -> row_use -> result str (list CachedAlbum);
  ze_artwork : str -> option (list Z);
  ze_artwork_url_at_size : str -> Z -> str;
  ze_write : str -> bool;
  ze_fs_len : str -> option Z;
  ze_zip_error_text : ZipError -> str;                       (* holds words of the operating system *)
  ze_build : Rendition -> Z -> build_answer;
  ze_publish : Rendition -> Z -> option (result DeliveryError DumpPublication);   (* [None]: cancelled first *)
  ze_send : Rendition -> Z -> option (result DeliveryError DeliveryReceipt);
  ze_copy : Rendition -> Z -> option (result DeliveryError DeliveryReceipt);
  ze_replace : Rendition -> result AlbumCacheError AlbumReplacementResult;
  ze_photo : Rendition -> option (result DeliveryError DeliveryReceipt);
}.

Inductive zip_call : Type :=
| ZCopy (msg : Z) (silent delivered : bool)                  (* [DumpCopy] *)
| ZBuild (output : str) (plan : ZipPartPlan)
| ZRemoveFile (path : str)
| ZPublish (path : str) (thumb : option str) (caption : ZipCaption) (published : option Z)
| ZSend (path : str) (thumb : option str) (caption : ZipCaption) (delivered : bool)
| ZFind (codec : Codec)
| ZReplace (codec : Codec) (expected : AlbumReplacementExpectation) (uploads : list AlbumUpload) (committed : bool)
| ZRetract (msgs : list Z)                                   (* [retract_dump] of messages of this job *)
| ZRetractDisplaced (msgs : list Z)                          (* and of messages an archive took the place of *)
| ZPhoto (info : ZipDeliveryInfo).

Record zfin := mkZfin {
  zf_first : option Z;                       (* [first_delivered_msg_id] *)
  zf_infos : list ZipDeliveryInfo;           (* [zip_delivery_infos] *)
  zf_first_delivery : option ZipDeliveryInfo;
  zf_pending : list Z;                       (* [zip_new_dump_messages] *)
  zf_finalizing : option Rendition;
  zf_log : list zip_call;
}.

(** Before finalisation; [first] is the first message the lanes have sent. *)
Definition new_zfin (first : option Z) : zfin := mkZfin first [] None [] None [].

(** ** The monad *)

Inductive fin (A : Type) : Type :=
| Done (a : A)
| Early                   (* [return Ok(first_delivery)] *)
| Failed (error : str)    (* [return Err(..)] *)
| Panicked.
Arguments Done {A}. Arguments Early {A}. Arguments Failed {A}. Arguments Panicked {A}.

Definition F (A : Type) : Type := zfin -> fin A * zfin.
#[export] Instance F_ret : MRet F := fun A a s => (Done a, s).
#[export] Instance F_bind : MBind F := fun A B f m s =>
  match m s with
  | (Done a, s) => f a s
  | (Early, s) => (Early, s)
  | (Failed e, s) => (Failed e, s)
  | (Panicked, s) => (Panicked, s)
  end.

Definition early {A} : F A := fun s => (Early, s).
Definition failed {A} (e : str) : F A := fun s => (Failed e, s).
Definition panicked {A} : F A := fun s => (Panicked, s).
Definition update (f : zfin -> zfin) : F unit := fun s => (Done tt, f s).

Definition log_call (c : zip_call) : F unit := update (fun s =>
  mkZfin (zf_first s) (zf_infos s) (zf_first_delivery s) (zf_pending s) (zf_finalizing s) (zf_log s ++ [c])).
Definition note_sent (sent_id : Z) : F unit := update (fun s =>
  mkZfin (remember_first sent_id (zf_first s)) (zf_infos s) (zf_first_delivery s) (zf_pending s) (zf_finalizing s) (zf_log s)).
Definition with_pending (f : list Z -> list Z) : F unit := update (fun s =>
  mkZfin (zf_first s) (zf_infos s) (zf_first_delivery s) (f (zf_pending s)) (zf_finalizing s) (zf_log s)).
Definition set_finalizing (r : option Rendition) : F unit := update (fun s =>
  mkZfin (zf_first s) (zf_infos s) (zf_first_delivery s) (zf_pending s) r (zf_log s)).

(** [first_delivery] is the first info; every info is pushed. *)
Definition push_info (i : ZipDeliveryInfo) : F unit := update (fun s =>
  mkZfin (zf_first s) (zf_infos s ++ [i]) (match zf_first_delivery s with None => Some i | some => some end)
    (zf_pending s) (zf_finalizing s) (zf_log s)).

(** [retract_dump] of a rendition's messages, which then leave the ledger; its failure is only logged. *)
Definition discard (msgs : list Z) : F unit :=
  _ ← log_call (ZRetract msgs); with_pending (fun p => transfer_zip_dump_messages p msgs).

Definition was_delivered (answer : result DeliveryError DeliveryReceipt) : bool :=
  match answer with Ok (Message _) => true | _ => false end.

(** [sort_by] of the entries by their names, which is stable. *)
Fixpoint str_leb (a b : str) : bool :=
  match a, b with
  | [], _ => true
  | _ :: _, [] => false
  | x :: a, y :: b => (x <? y) || ((x =? y) && str_leb a b)
  end.
Fixpoint insert_entry (e : ZipTrackEntry) (l : list ZipTrackEntry) : list ZipTrackEntry :=
  match l with
  | [] => [e]
  | x :: l => if str_leb (archive_filename x) (archive_filename e) then x :: insert_entry e l else e :: x :: l
  end.
Definition sort_entries (l : list ZipTrackEntry) : list ZipTrackEntry := foldl (fun acc e => insert_entry e acc) [] l.

Section Zip.
Variables (env : zip_env) (ctx : zip_job).

(** [ctx.zip_deliver && !options.is_cache_only]. *)
Definition delivering : bool := zj_deliver ctx && negb (is_cache_only (zj_options ctx)).

(** A look at the cancellation flags that ends finalisation. *)
Definition check_live (p : place) : F unit := if ze_cancelled env p then early else mret tt.

(** ** Archives of the cache *)

Fixpoint deliver_rows (r : Rendition) (w : row_use) (silent : bool) (k : nat) (rows : list CachedAlbum)
    (delivered size : Z) : F (Z * Z) :=
  match rows with
  | [] => mret (delivered, size)
  | row :: rows =>
      if ze_cancelled env (AtRow r w k) then mret (delivered, size)
      else
        let answer := ze_row env r w k in
        _ ← log_call (ZCopy (ca_message_id row) silent (was_delivered answer));
        match answer with
        | Ok (Message sent_id) =>
            if ze_cancelled env (AfterRow r w k) then mret (delivered, size)
            else
              _ ← note_sent sent_id;
              deliver_rows r w silent (S k) rows (delivered + 1) (swrap 64 (size + ca_file_size row))
        | Ok PreviewDelivered =>
            match r with
            | Primary => failed (lit "primary ZIP delivery returned a preview receipt")
            | Atmos => deliver_rows r w silent (S k) rows delivered size
            end
        | Err error =>
            match r with
            | Primary => failed (lit "primary ZIP delivery failed: " ++ delivery_error_display error)
            | Atmos => deliver_rows r w silent (S k) rows delivered size
            end
        end
  end.

Definition deliver_cached_zip_rows (r : Rendition) (w : row_use) (rows : list CachedAlbum) : F (Z * Z) :=
  deliver_rows r w (1 <? Z.of_nat (length rows)) 0 rows 0 0.

(** Both uses of rows that replace the upload; [rows[0]] panics on no rows. *)
Definition deliver_from_cache (r : Rendition) (w : row_use) (rows : list CachedAlbum) : F unit :=
  if delivering then
    '(delivered, size) ← deliver_cached_zip_rows r w rows;
    if 0 <? delivered then
      match rows with
      | row :: _ =>
          push_info (mkZipInfo (zj_expected_tracks ctx)
            (match r with Primary => Some (zj_expected_tracks ctx) | Atmos => zj_atmos_count ctx end)
            delivered size false false (Some (as_str (ca_codec row))))
      | [] => panicked
      end
    else mret tt
  else mret tt.

(** ** What is built *)

Definition is_complete (st : zip_state) (entries : list ZipTrackEntry) : bool :=
  match zs_rendition st with
  | Primary => bool_decide (zj_failures ctx = []) && (Z.of_nat (length entries) =? zj_expected_tracks ctx)
  | Atmos => true
  end.

Definition codec_text (st : zip_state) : str :=
  match zs_codec st with
  | Some codec => codec
  | None => match zs_rendition st with Atmos => lit "ec-3" | Primary => lit "alac" end
  end.

Definition album_codec (st : zip_state) : Codec := match Codec_from_str (codec_text st) with Ok c => c | Err _ => Alac end.

(** The archive in the cache is whole and of this generation. *)
Definition usable_rows (st : zip_state) (rows : list CachedAlbum) : bool :=
  match zs_generation_hash st with
  | Some hash => forallb (fun r => bool_decide (ca_generation_hash r = hash)) rows
  | None => true
  end &&
  match rows with
  | [] => false
  | first :: _ => (Z.of_nat (length rows) =? Z.max (ca_total_parts first) 1) && parts_in_order 1 rows
  end.

Definition find_existing (st : zip_state) (complete : bool) : F (option (list CachedAlbum)) :=
  if complete && negb (is_force (zj_options ctx) && is_admin (zj_options ctx)) then
    _ ← log_call (ZFind (album_codec st));
    match ze_find env (zs_rendition st) Existing with
    | Ok rows => if usable_rows st rows then mret (Some rows) else mret None
    | Err _ => mret None
    end
  else mret None.

Definition dir_file (st : zip_state) (name : str) : str := zs_dir st ++ lit "/" ++ name.

(** A picture is written next to the archive; one that cannot be written is left out. *)
Definition write_picture (st : zip_state) (name : str) (bytes : option (list Z)) : option str :=
  match bytes with
  | Some _ => if ze_write env (dir_file st name) then Some (dir_file st name) else None
  | None => None
  end.

Definition cover_bytes : option (list Z) := url ← zj_artwork_url ctx; ze_artwork env url.

Definition thumb_bytes : option (list Z) :=
  url ← zj_artwork_url ctx;
  match url with
  | [] => None
  | _ => match ze_artwork env (ze_artwork_url_at_size env url 320) with Some [] => None | bytes => bytes end
  end.

(** ** One part *)

Record part_acc := mkAcc {
  pa_uploads : list AlbumUpload;         (* [replacement_uploads] *)
  pa_messages : list Z;                  (* [rendition_dump_messages] *)
  pa_delivered : Z; pa_size : Z;
  pa_all : bool;                         (* [all_parts_uploaded] *)
}.

Definition no_parts : part_acc := mkAcc [] [] 0 0 true.
Definition missed (a : part_acc) : part_acc := mkAcc (pa_uploads a) (pa_messages a) (pa_delivered a) (pa_size a) false.
Definition add_message (m : Z) (a : part_acc) : part_acc :=
  mkAcc (pa_uploads a) (pa_messages a ++ [m]) (pa_delivered a) (pa_size a) (pa_all a).
Definition add_upload (u : AlbumUpload) (a : part_acc) : part_acc :=
  mkAcc (pa_uploads a ++ [u]) (pa_messages a) (pa_delivered a) (pa_size a) (pa_all a).
Definition add_delivered (size : Z) (a : part_acc) : part_acc :=
  mkAcc (pa_uploads a) (pa_messages a) (pa_delivered a + 1) (swrap 64 (pa_size a + swrap 64 size)) (pa_all a).

(** A part that is not sent is the end of a required archive, and a gap in an optional one. *)
Definition part_failed (r : Rendition) (primary_msg : str) (a : part_acc) : F part_acc :=
  match r with Primary => failed primary_msg | Atmos => mret (missed a) end.

Section Part.
Variables (st : zip_state) (complete : bool) (thumb : option str) (plan : ZipPartPlan).

Let r : Rendition := zs_rendition st.
Let part : Z := part_index plan.

Definition archive_name : str := if complete then plan_filename plan else into_partial (plan_filename plan).
Definition output : str := dir_file st archive_name.

Definition zip_caption : ZipCaption :=
  mkZipCaption (Some (as_str (album_codec st))) (swrap 32 (part_index plan)) (swrap 32 (total_parts plan))
    (default [] (zs_generation_hash st)) complete.

Definition album_upload (upload : DumpPublication) (size : Z) : AlbumUpload :=
  mkAlbumUpload (album_codec st) (swrap 32 (part_index plan)) (swrap 32 (total_parts plan)) (message upload)
    (file_id upload) (file_unique_id upload) (swrap 64 size) (default [] (zs_generation_hash st)).

(** The copy of a published part into the chat. *)
Definition copy_part (upload : DumpPublication) (size : Z) (a : part_acc) : F part_acc :=
  if delivering then
    _ ← check_live (PartCopy r part);
    let log delivered := log_call (ZCopy (message upload) (1 <? total_parts plan) delivered) in
    match ze_copy env r part with
    | None => _ ← log false; early
    | Some (Ok (Message sent_id)) =>
        _ ← log true;
        _ ← check_live (PartCopied r part);
        _ ← note_sent sent_id;
        mret (add_delivered size a)
    | Some (Ok PreviewDelivered) =>
        _ ← log false;
        match r with Primary => failed (lit "primary ZIP delivery returned a preview receipt") | Atmos => mret a end
    | Some (Err error) =>
        _ ← log false;
        match r with
        | Primary => failed (lit "primary ZIP delivery failed: " ++ delivery_error_display error)
        | Atmos => mret a
        end
    end
  else mret a.

Definition publish_part (size : Z) (a : part_acc) : F part_acc :=
  let log published := log_call (ZPublish output thumb zip_caption published) in
  match ze_publish env r part with
  | None => _ ← log None; early
  | Some (Ok upload) =>
      _ ← log (Some (message upload));
      _ ← with_pending (fun p => remember_zip_dump_message p (message upload));
      _ ← check_live (PartPublished r part);
      a ← copy_part upload size (add_message (message upload) a);
      mret (add_upload (album_upload upload size) a)
  | Some (Err error) =>
      _ ← log None;
      part_failed r (lit "primary ZIP upload failed: " ++ delivery_error_display error) a
  end.

(** A partial archive goes to the chat only. *)
Definition send_part (size : Z) (a : part_acc) : F part_acc :=
  let log delivered := log_call (ZSend output thumb zip_caption delivered) in
  match ze_send env r part with
  | None => _ ← log false; early
  | Some (Ok (Message sent_id)) =>
      _ ← log true;
      _ ← note_sent sent_id;
      if negb (is_cache_only (zj_options ctx)) then mret (add_delivered size a) else mret a
  | Some (Ok PreviewDelivered) =>
      _ ← log false;
      part_failed r (lit "primary ZIP upload failed: " ++ delivery_error_display UnexpectedMedia) a
  | Some (Err error) =>
      _ ← log false;
      part_failed r (lit "primary ZIP upload failed: " ++ delivery_error_display error) a
  end.

(** The body of [for plan in plans]. *)
Definition process_part (a : part_acc) : F part_acc :=
  _ ← check_live (PartStart r part);
  _ ← log_call (ZBuild output plan);
  let drop_output := log_call (ZRemoveFile output) in
  if ze_cancelled env (PartBuilt r part) then _ ← drop_output; early
  else
    match ze_build env r part with
    | Built size =>
        if TELEGRAM_SPLIT_THRESHOLD_BYTES <? size then
          _ ← drop_output; part_failed r (lit "primary ZIP exceeds the upload size limit") a
        else if ze_cancelled env (PartReady r part) then _ ← drop_output; early
        else if complete then publish_part size a
        else send_part size a
    | BuildFailed error => _ ← drop_output; part_failed r (lit "primary ZIP build failed: " ++ error) a
    | BuildDied error => _ ← drop_output; part_failed r (lit "primary ZIP build task failed: " ++ error) a
    end.
End Part.

Fixpoint process_parts (st : zip_state) (complete : bool) (thumb : option str) (plans : list ZipPartPlan)
    (a : part_acc) : F part_acc :=
  match plans with
  | [] => mret a
  | plan :: plans => a ← process_part st complete thumb plan a; process_parts st complete thumb plans a
  end.

(** ** Recording the archive *)

Definition expectation_of (r : Rendition) : AlbumReplacementExpectation := default Mixed (zj_expectations ctx !! r).

(** The parts and bytes that count as delivered once a conflict's winner has been looked up. *)
Definition after_conflict (st : zip_state) (a : part_acc) : F (Z * Z) :=
  let r := zs_rendition st in
  _ ← discard (pa_messages a);
  _ ← log_call (ZFind (album_codec st));
  let counted := (pa_delivered a, pa_size a) in
  let lookup := match ze_find env r Winner with
                | Ok rows => mret rows
                | Err error =>
                    match r with
                    | Primary => failed (lit "primary ZIP cache conflict winner lookup failed: " ++ error)
                    | Atmos => mret []
                    end
                end in
  rows ← lookup;
  match rows with
  | [] => match r with
          | Primary => failed (lit "primary ZIP cache conflict had no committed winner")
          | Atmos => mret counted
          end
  | _ => if delivering then deliver_cached_zip_rows r Winner rows else mret counted
  end.

Definition replace_archive (st : zip_state) (a : part_acc) : F (Z * Z) :=
  let r := zs_rendition st in
  let new_message_ids := au_message_id <$> pa_uploads a in
  let counted := (pa_delivered a, pa_size a) in
  let log committed := log_call (ZReplace (album_codec st) (expectation_of r) (pa_uploads a) committed) in
  match ze_replace env r with
  | Err (AlbumConflict _ _) => _ ← log false; after_conflict st a
  | Err error =>
      _ ← log false;
      match r with
      | Primary => failed (lit "primary ZIP cache replacement failed: " ++ album_cache_error_display error)
      | Atmos => _ ← discard (pa_messages a); mret counted
      end
  | Ok Stale => _ ← log false; _ ← discard (pa_messages a); mret counted
  | Ok (Committed displaced) =>
      _ ← log true;
      _ ← with_pending (fun p => transfer_zip_dump_messages p new_message_ids);
      let old := List.filter (fun m => bool_decide (m ∉ new_message_ids)) displaced in
      _ ← match old with [] => mret tt | _ => log_call (ZRetractDisplaced old) end;
      mret counted
  end.

(** What follows the parts; [expected] is the number of parts planned. *)
Definition settle (st : zip_state) (complete : bool) (expected : nat) (a : part_acc) : F (Z * Z) :=
  if complete && pa_all a && (length (pa_uploads a) =? expected)%nat then replace_archive st a
  else if complete then
    match zs_rendition st with
    | Atmos => _ ← discard (pa_messages a); mret (pa_delivered a, pa_size a)
    | Primary => failed (lit "primary ZIP publication was incomplete")
    end
  else mret (pa_delivered a, pa_size a).

(** The picture with the album's details, and the entry of the summary. *)
Definition report_archive (st : zip_state) (complete : bool) (entries : list ZipTrackEntry) (parts size : Z) : F unit :=
  let r := zs_rendition st in
  let info photo := mkZipInfo (zj_expected_tracks ctx) (Some (Z.of_nat (length entries))) parts size (negb complete) photo
                      (Some (codec_text st)) in
  if delivering && (0 <? parts) then
    match cover_bytes with
    | Some _ =>
        _ ← check_live (PhotoStart r);
        _ ← log_call (ZPhoto (info false));
        match ze_photo env r with
        | None => early
        | Some answer =>
            _ ← check_live (PhotoDone r);
            push_info (info (match answer with Ok PreviewDelivered => true | _ => false end))
        end
    | None => push_info (info false)
    end
  else mret tt.

(** ** One rendition *)

Definition build_archive (st : zip_state) (complete : bool) (entries : list ZipTrackEntry) : F unit :=
  let r := zs_rendition st in
  _ ← check_live (AfterCover r);
  let cover := write_picture st (lit "cover.jpg") cover_bytes in
  let thumb := write_picture st (lit "cover_thumb.jpg") thumb_bytes in
  _ ← check_live (AfterThumb r);
  match plan_zip_parts_with_codec (ze_fs_len env) (zj_artist ctx) (zj_album ctx) (zj_release_date ctx) entries cover
          TELEGRAM_SPLIT_THRESHOLD_BYTES (codec_text st) with
  | None => panicked
  | Some (Err error) =>
      match r with
      | Primary => failed (lit "primary ZIP planning failed: " ++ ze_zip_error_text env error)
      | Atmos => mret tt
      end
  | Some (Ok plans) =>
      a ← process_parts st complete thumb plans no_parts;
      '(parts, size) ← settle st complete (length plans) a;
      report_archive st complete entries parts size
  end.

(** The body of [for state in &ctx.zip_states]. *)
Definition finalize_state (st : zip_state) : F unit :=
  let r := zs_rendition st in
  _ ← set_finalizing (Some r);
  _ ← check_live (AtState r);
  match ze_zip_error env (AtState r) with
  | Some error => failed error
  | None =>
      match zj_reuse ctx !! r with
      | Some rows => deliver_from_cache r Reused rows
      | None =>
          let entries := sort_entries (zs_sources st) in
          match entries with
          | [] => mret tt
          | _ =>
              let complete := is_complete st entries in
              if complete || delivering then
                existing ← find_existing st complete;
                match existing with
                | Some rows => deliver_from_cache r Existing rows
                | None => build_archive st complete entries
                end
              else mret tt
          end
      end
  end.

Fixpoint finalize_states (l : list zip_state) : F unit :=
  match l with
  | [] => mret tt
  | st :: l => _ ← finalize_state st; finalize_states l
  end.

(** [finalize_zip_inner]: what it returns ([None]: it panicked), and the state it leaves.  The guard
    forgets the rendition being finalised unless the task is panicking. *)
Definition finalize_zip_inner (s : zfin) : option (result str (option ZipDeliveryInfo)) * zfin :=
  if negb (zj_build ctx) then (Some (Ok None), s)
  else match ze_zip_error env AtStart with
       | Some error => (Some (Err error), s)
       | None =>
           let s := mkZfin (zf_first s) (zf_infos s) None (zf_pending s) (zf_finalizing s) (zf_log s) in
           let release s := mkZfin (zf_first s) (zf_infos s) (zf_first_delivery s) (zf_pending s) None (zf_log s) in
           if ze_cancelled env AtStart then (Some (Ok None), release s)
           else match finalize_states (zj_states ctx) s with
                | (Done _, s) | (Early, s) => (Some (Ok (zf_first_delivery s)), release s)
                | (Failed error, s) => (Some (Err error), release s)
                | (Panicked, s) => (None, s)
                end
       end.

(** [finalize_zip]: the messages still in the ledger are retracted unless the job goes on. *)
Definition finalize_zip (s : zfin) : option (result str (option ZipDeliveryInfo)) * zfin :=
  let '(res, s) := finalize_zip_inner s in
  match res with
  | None => (None, s)
  | Some result =>
      if match result with Err _ => true | Ok _ => false end || ze_cancelled env AtEnd then
        let '(msgs, left_) := take_uncommitted_zip_dump_messages (zf_pending s) in
        let log := match msgs with [] => zf_log s | _ => zf_log s ++ [ZRetract msgs] end in
        (Some result, mkZfin (zf_first s) (zf_infos s) (zf_first_delivery s) left_ (zf_finalizing s) log)
      else (Some result, s)
  end.

(** ** The end of the job *)

(** The counters and lists [build_job_summary] reads. *)
Record job_totals := mkTotals {
  jt_total : Z; jt_cached : Z; jt_ripped : Z; jt_failed : list FailedTrack; jt_atmos_warning : option str;
  jt_warnings : list str;
}.

Definition build_job_summary (t : job_totals) (s : zfin) : RipTaskSummary :=
  mkSummary (jt_total t) (jt_cached t) (jt_ripped t) (jt_failed t) []
    (match jt_atmos_warning t with Some w => w :: jt_warnings t | None => jt_warnings t end) (zf_infos s) (zf_first s).

(** [finalize_job] once the uploads have ended; [fatal] is what [fatal_error] answers before and
    after the archives. *)
Definition finalize_job (fatal : bool -> option str) (t : job_totals) (s : zfin) :
    option (result str RipTaskSummary) * zfin :=
  match fatal false with
  | Some error => (Some (Err error), s)
  | None =>
      match finalize_zip s with
      | (None, s) => (None, s)
      | (Some (Err error), s) => (Some (Err error), s)
      | (Some (Ok _), s) =>
          (Some (match fatal true with Some error => Err error | None => Ok (build_job_summary t s) end), s)
      end
  end.

(** [enqueue_finalize_marker]: a panic while an optional archive is finalised keeps the job's result.
    [FinalizationGuard::finish] then removes the workspaces. *)
Definition finalize_marker (fatal : bool -> option str) (t : job_totals) (rip_dir : str) (s : zfin) :
    result str RipTaskSummary * list str * zfin :=
  let '(res, s) := finalize_job fatal t s in
  let dirs := rip_dir :: (zs_dir <$> zj_states ctx) in
  match res with
  | Some result => (result, dirs, s)
  | None =>
      (match zf_finalizing s with
       | Some Atmos => Ok (build_job_summary t s)
       | _ => Err (lit "finalize marker panicked")
       end, dirs, s)
  end.
End Zip.
