(* ===== verification/FinalizeFacts.v ===== *)
(** * FinalizeFacts: what finalisation guarantees (the definitions are in Finalize.v)

    A weakest precondition for the monad of Finalize.v, with one rule per operation, and the proofs
    that use it: the ledger of dump messages is exact, what is recorded is a whole archive, the parts
    of a required archive are sent in order, an optional archive never fails the job. *)
From S2P Require Import Prelude Text Music Filename ZipPlan ZipState Priority Delivery DeliverySeq JobPlan JobRun Finalize.

(** ** Reasoning about the monad *)

Definition wp {A} (m : F A) (Q : A -> zfin -> Prop) (X : fin unit -> zfin -> Prop) (s : zfin) : Prop :=
  match m s with
  | (Done a, s') => Q a s'
  | (Early, s') => X Early s'
  | (Failed e, s') => X (Failed e) s'
  | (Panicked, s') => X Panicked s'
  end.

Section Wp.
Context {A B : Type}.
Implicit Types (X : fin unit -> zfin -> Prop).

Lemma wp_bind (m : F A) (f : A -> F B) Q X s : wp m (fun a => wp (f a) Q X) X s -> wp (m ≫= f) Q X s.
Proof. unfold wp, mbind, F_bind. by destruct (m s) as [[] s']. Qed.
Lemma wp_ret (a : A) (Q : A -> zfin -> Prop) X s : Q a s -> wp (mret a) Q X s.
Proof. done. Qed.
Lemma wp_early (Q : A -> zfin -> Prop) X s : X Early s -> wp early Q X s.
Proof. done. Qed.
Lemma wp_failed e (Q : A -> zfin -> Prop) X s : X (Failed e) s -> wp (failed e) Q X s.
Proof. done. Qed.
Lemma wp_panicked (Q : A -> zfin -> Prop) X s : X Panicked s -> wp panicked Q X s.
Proof. done. Qed.
Lemma wp_update f (Q : unit -> zfin -> Prop) X s : Q tt (f s) -> wp (update f) Q X s.
Proof. done. Qed.
Lemma wp_check env p (Q : unit -> zfin -> Prop) X s :
  (ze_cancelled env p = true -> X Early s) -> (ze_cancelled env p = false -> Q tt s) -> wp (check_live env p) Q X s.
Proof. intros H1 H2. unfold check_live. destruct (ze_cancelled env p); [by apply H1|by apply H2]. Qed.
Lemma wp_mono (m : F A) (Q Q' : A -> zfin -> Prop) X X' s :
  wp m Q X s -> (forall a s', Q a s' -> Q' a s') -> (forall e s', X e s' -> X' e s') -> wp m Q' X' s.
Proof. unfold wp. destruct (m s) as [[] s']; auto. Qed.
End Wp.

(** One step of the code of the goal. *)
Ltac wp_step :=
  lazymatch goal with
  | |- wp (mbind _ _) _ _ _ => apply wp_bind
  | |- wp (mret _) _ _ _ => apply wp_ret
  | |- wp early _ _ _ => apply wp_early
  | |- wp (failed _) _ _ _ => apply wp_failed
  | |- wp panicked _ _ _ => apply wp_panicked
  | |- wp (check_live _ _) _ _ _ => apply wp_check; intros ?
  | |- wp (log_call _) _ _ _ => apply wp_update
  | |- wp (note_sent _) _ _ _ => apply wp_update
  | |- wp (with_pending _) _ _ _ => apply wp_update
  | |- wp (set_finalizing _) _ _ _ => apply wp_update
  | |- wp (push_info _) _ _ _ => apply wp_update
  | |- wp (part_failed _ _ _) _ _ _ => unfold part_failed
  | |- wp (match ?x with _ => _ end) _ _ _ => destruct x eqn:?
  end.
Ltac wp_steps := repeat (wp_step; try done).

(** ** What a log says of the dump *)

Definition call_published (c : zip_call) : list Z := match c with ZPublish _ _ _ (Some m) => [m] | _ => [] end.
Definition call_recorded (c : zip_call) : list Z :=
  match c with ZReplace _ _ uploads true => au_message_id <$> uploads | _ => [] end.
Definition call_dropped (c : zip_call) : list Z := match c with ZRetract msgs => msgs | _ => [] end.
Definition call_replaced (c : zip_call) : list (Codec * list AlbumUpload) :=
  match c with ZReplace codec _ uploads _ => [(codec, uploads)] | _ => [] end.

Definition published (l : list zip_call) : list Z := l ≫= call_published.
Definition recorded (l : list zip_call) : list Z := l ≫= call_recorded.
Definition dropped (l : list zip_call) : list Z := l ≫= call_dropped.
Definition replaced (l : list zip_call) : list (Codec * list AlbumUpload) := l ≫= call_replaced.

Definition view (s : zfin) :=
  (zf_pending s, published (zf_log s), recorded (zf_log s), dropped (zf_log s), replaced (zf_log s)).

(** Every message published is in the ledger, recorded or retracted. *)
Definition accounted (s : zfin) : Prop :=
  published (zf_log s) ≡ₚ zf_pending s ++ recorded (zf_log s) ++ dropped (zf_log s).

(** The uploads are all the parts of an archive, in order. *)
Definition whole (p : Codec * list AlbumUpload) : Prop :=
  snd p <> [] /\ exists hash, forall i u, snd p !! i = Some u ->
    au_codec u = fst p /\ au_part_index u = swrap 32 (Z.of_nat i + 1) /\
    au_total_parts u = swrap 32 (Z.of_nat (length (snd p))) /\ au_generation_hash u = hash.

Definition sound (s : zfin) : Prop := accounted s /\ Forall whole (replaced (zf_log s)).

Lemma sound_view s s' : view s' = view s -> sound s -> sound s'.
Proof. unfold view, sound, accounted. intros [= -> -> -> -> ->]. done. Qed.

Lemma view_call s c :
  call_published c = [] -> call_recorded c = [] -> call_dropped c = [] -> call_replaced c = [] ->
  view (snd (log_call c s)) = view s.
Proof.
  intros H1 H2 H3 H4. unfold view, published, recorded, dropped, replaced. cbn [log_call update snd zf_log zf_pending].
  rewrite !bind_app. cbn. by rewrite H1, H2, H3, H4, !app_nil_r.
Qed.

Lemma sublist_full {A} (l1 l2 : list A) : l1 `sublist_of` l2 -> length l1 = length l2 -> l1 = l2.
Proof.
  induction 1 as [|x l1 l2 _ IH|x l1 l2 H _]; cbn; [done|intros [= E]; by rewrite IH|].
  apply sublist_length in H. lia.
Qed.

(** Steps that the dump does not see. *)
Definition silent_call (c : zip_call) : Prop :=
  call_published c = [] /\ call_recorded c = [] /\ call_dropped c = [] /\ call_replaced c = [].

Lemma quiet_call c (Q : unit -> zfin -> Prop) X s :
  silent_call c -> (forall s', view s' = view s -> Q tt s') -> wp (log_call c) Q X s.
Proof. intros (H1 & H2 & H3 & H4) H. apply wp_update, H. exact (view_call s c H1 H2 H3 H4). Qed.
Lemma quiet_sent m (Q : unit -> zfin -> Prop) X s : (forall s', view s' = view s -> Q tt s') -> wp (note_sent m) Q X s.
Proof. intros H. by apply wp_update, H. Qed.
Lemma quiet_info i (Q : unit -> zfin -> Prop) X s : (forall s', view s' = view s -> Q tt s') -> wp (push_info i) Q X s.
Proof. intros H. by apply wp_update, H. Qed.
Lemma quiet_finalizing r (Q : unit -> zfin -> Prop) X s :
  (forall s', view s' = view s -> Q tt s') -> wp (set_finalizing r) Q X s.
Proof. intros H. by apply wp_update, H. Qed.

Ltac quiet_step :=
  lazymatch goal with
  | |- wp (log_call _) _ _ _ =>
      apply quiet_call; [by repeat split| let s := fresh "s" in let H := fresh "Hv" in intros s H]
  | |- wp (note_sent _) _ _ _ => apply quiet_sent; let s := fresh "s" in let H := fresh "Hv" in intros s H
  | |- wp (push_info _) _ _ _ => apply quiet_info; let s := fresh "s" in let H := fresh "Hv" in intros s H
  | |- wp (set_finalizing _) _ _ _ => apply quiet_finalizing; let s := fresh "s" in let H := fresh "Hv" in intros s H
  | _ => wp_step
  end.
Ltac quiet_steps := repeat (quiet_step; try done).

(** Cancellation is never taken back. *)
Record sticky (env : zip_env) : Prop := {
  st_look p : ze_cancelled env p = true -> ze_cancelled env AtEnd = true;
  st_publish r i : ze_publish env r i = None -> ze_cancelled env AtEnd = true;
  st_send r i : ze_send env r i = None -> ze_cancelled env AtEnd = true;
  st_copy r i : ze_copy env r i = None -> ze_cancelled env AtEnd = true;
  st_photo r : ze_photo env r = None -> ze_cancelled env AtEnd = true;
}.

Section Spec.
Variables (env : zip_env) (ctx : zip_job).
Hypothesis Hsticky : sticky env.

(** How finalisation may stop: with the books in order, early only when the job is cancelled. *)
Definition stops (e : fin unit) (s : zfin) : Prop :=
  sound s /\ match e with Early => ze_cancelled env AtEnd = true | Failed _ => True | _ => False end.

Lemma rows_spec r w silent rows : forall k delivered size s, sound s ->
  wp (deliver_rows env r w silent k rows delivered size)
    (fun p s' => view s' = view s /\ (rows = [] -> fst p = delivered)) stops s.
Proof.
  induction rows as [|row rows IH]; intros k delivered size s Hs; cbn [deliver_rows]; [by apply wp_ret|].
  quiet_steps.
  all: try (split; [by eapply sound_view|done]).
  all: try (eapply wp_mono; [apply IH; eapply sound_view; [|exact Hs]; congruence| |done]; intros p s2 [Hv2 _]; cbn in *; split; [congruence|done]).
Qed.

Lemma cache_rows_spec r w rows s : sound s ->
  wp (deliver_cached_zip_rows env r w rows) (fun _ s' => view s' = view s) stops s.
Proof. intros Hs. eapply wp_mono; [by apply rows_spec|by intros ?? [? _]|done]. Qed.

Lemma from_cache_spec r w rows s : sound s ->
  wp (deliver_from_cache env ctx r w rows) (fun _ s' => view s' = view s) stops s.
Proof.
  intros Hs. unfold deliver_from_cache, deliver_cached_zip_rows. wp_step; [|by apply wp_ret].
  apply wp_bind. eapply wp_mono; [by apply rows_spec| |done]. intros [d z] s' [Hv Hd]. cbn in Hd.
  quiet_steps; congruence || (specialize (Hd eq_refl); lia).
Qed.

(** The parts sent so far, of the plans [l]; [base] is what the ledger held before. *)
Definition upload_of (st : zip_state) (plan : ZipPartPlan) (u : AlbumUpload) : Prop :=
  au_codec u = album_codec st /\ au_part_index u = swrap 32 (part_index plan) /\
  au_total_parts u = swrap 32 (total_parts plan) /\ au_generation_hash u = default [] (zs_generation_hash st).

Record parts_inv (st : zip_state) (complete : bool) (base : list Z) (l : list ZipPartPlan) (a : part_acc) (s : zfin) : Prop := {
  pi_sound : sound s;
  pi_ledger : zf_pending s ≡ₚ base ++ pa_messages a;
  pi_messages : au_message_id <$> pa_uploads a = pa_messages a;
  pi_partial : complete = false -> pa_messages a = [];
  pi_plans : exists ps, ps `sublist_of` l /\ Forall2 (upload_of st) ps (pa_uploads a);
}.

Lemma parts_quiet st complete base l a s s' : view s' = view s -> parts_inv st complete base l a s ->
  parts_inv st complete base l a s'.
Proof.
  intros Hv [H1 H2 H3 H4 H5]. split; [by eapply sound_view| |done..]. unfold view in Hv. by injection Hv as -> _ _ _ _.
Qed.

Lemma parts_same st complete base l a a' s :
  pa_uploads a' = pa_uploads a -> pa_messages a' = pa_messages a -> parts_inv st complete base l a s ->
  parts_inv st complete base l a' s.
Proof. intros E1 E2 [H1 H2 H3 H4 H5]. by split; rewrite ?E1, ?E2. Qed.

Lemma parts_more st complete base l plan a s : parts_inv st complete base l a s ->
  parts_inv st complete base (l ++ [plan]) a s.
Proof.
  intros [H1 H2 H3 H4 (ps & Hsub & Hf)]. split; [done..|]. exists ps. split; [|done]. by apply sublist_inserts_r.
Qed.

Lemma stops_view e s s' : view s' = view s -> sound s -> (match e with Early => ze_cancelled env AtEnd = true | Failed _ => True | _ => False end) ->
  stops e s'.
Proof. intros Hv Hs He. split; [by eapply sound_view|done]. Qed.

(** A publication enters the ledger. *)
Lemma published_sound path thumb caption m s :
  sound s ->
  sound (mkZfin (zf_first s) (zf_infos s) (zf_first_delivery s) (zf_pending s ++ [m]) (zf_finalizing s)
           (zf_log s ++ [ZPublish path thumb caption (Some m)])).
Proof.
  intros [Ha Hw]. split.
  - unfold accounted, published, recorded, dropped in *. cbn [zf_log zf_pending]. rewrite !bind_app. cbn.
    rewrite !app_nil_r, Ha. solve_Permutation.
  - unfold replaced in *. cbn [zf_log]. rewrite bind_app. cbn. by rewrite app_nil_r.
Qed.

Ltac stop := first [by eapply stops_view; [|eassumption|]; [congruence|eauto using st_look, st_publish, st_send, st_copy, st_photo]].

Lemma copy_spec st plan upload size a s : sound s ->
  wp (copy_part env ctx st plan upload size a)
    (fun a' s' => view s' = view s /\ pa_uploads a' = pa_uploads a /\ pa_messages a' = pa_messages a) stops s.
Proof.
  intros Hs. unfold copy_part. cbv zeta. quiet_steps; try stop; split_and!; (done || congruence).
Qed.

Lemma publish_spec st thumb plan base l size a s : parts_inv st true base l a s ->
  wp (publish_part env ctx st true thumb plan size a) (fun a' s' => parts_inv st true base (l ++ [plan]) a' s') stops s.
Proof.
  intros Hp. pose proof Hp as [Hs Hl Hm Hpart (ps & Hsub & Hf)]. unfold publish_part. cbv zeta.
  destruct (ze_publish env (zs_rendition st) (part_index plan)) as [[upload|err]|] eqn:Epub.
  - repeat (wp_step; cbn beta).
    + pose proof (published_sound (output st true plan) thumb (zip_caption st true plan) (message upload) s Hs) as Hs'.
      split; [exact Hs'|by eapply st_look].
    + pose proof (published_sound (output st true plan) thumb (zip_caption st true plan) (message upload) s Hs) as Hs'.
      eapply wp_mono; [apply copy_spec; exact Hs'| |done]. intros a' s' (Hv & E1 & E2). apply wp_ret.
      assert (Hs2 : sound s') by (eapply sound_view; [exact Hv|exact Hs']).
      unfold view in Hv. injection Hv as Hpend _ _ _ _. split; [done| | |done|].
      * rewrite Hpend. cbn [zf_pending add_upload pa_messages]. rewrite E2. cbn [add_message pa_messages].
        unfold remember_zip_dump_message. rewrite Hl. by rewrite app_assoc.
      * cbn [add_upload pa_uploads pa_messages]. rewrite E1, E2. cbn [add_message pa_uploads pa_messages].
        by rewrite fmap_app, Hm.
      * exists (ps ++ [plan]). split; [by apply sublist_app|]. cbn [add_upload pa_uploads]. rewrite E1.
        apply Forall2_app; [done|]. by repeat constructor.
  - quiet_steps; [stop|]. eapply parts_same; [..|eapply parts_quiet; [eassumption|by apply parts_more]]; done.
  - quiet_steps. stop.
Qed.

Lemma send_spec st thumb plan base l size a s : parts_inv st false base l a s ->
  wp (send_part env ctx st false thumb plan size a) (fun a' s' => parts_inv st false base (l ++ [plan]) a' s') stops s.
Proof.
  intros Hp. pose proof (pi_sound _ _ _ _ _ _ Hp) as Hs. unfold send_part. cbv zeta. quiet_steps; try stop.
  all: eapply parts_same; [..|eapply parts_quiet; [|by apply parts_more]]; try done; congruence.
Qed.

Lemma part_spec st complete thumb plan base l a s : parts_inv st complete base l a s ->
  wp (process_part env ctx st complete thumb plan a) (fun a' s' => parts_inv st complete base (l ++ [plan]) a' s') stops s.
Proof.
  intros Hp. pose proof (pi_sound _ _ _ _ _ _ Hp) as Hs. unfold process_part. cbv zeta.
  wp_step. wp_step; [stop|].
  quiet_steps; try stop.
  all: try (eapply parts_same; [..|eapply parts_quiet; [|by apply parts_more]]; try done; congruence).
  - apply publish_spec. by eapply parts_quiet.
  - apply send_spec. by eapply parts_quiet.
Qed.

Lemma parts_spec st complete thumb base plans : forall l a s, parts_inv st complete base l a s ->
  wp (process_parts env ctx st complete thumb plans a) (fun a' s' => parts_inv st complete base (l ++ plans) a' s') stops s.
Proof.
  induction plans as [|plan plans IH]; intros l a s Hp; cbn [process_parts].
  - apply wp_ret. by rewrite app_nil_r.
  - wp_step. eapply wp_mono; [by apply part_spec| |done]. intros a' s' Hp'.
    replace (l ++ plan :: plans) with ((l ++ [plan]) ++ plans) by (by rewrite <-app_assoc). by apply IH.
Qed.

Lemma transfer_drops (base msgs pending : list Z) :
  pending ≡ₚ base ++ msgs -> transfer_zip_dump_messages pending msgs ≡ₚ base /\
  msgs ++ transfer_zip_dump_messages pending msgs ≡ₚ pending.
Proof.
  intros H. assert (Hp : msgs ++ transfer_zip_dump_messages pending msgs ≡ₚ pending).
  { apply transfer_perm. rewrite H. by apply submseteq_inserts_l. }
  split; [|done]. apply (Permutation_app_inv_l msgs). rewrite Hp, H. apply Permutation_app_comm.
Qed.

Lemma discard_spec base msgs (Q : unit -> zfin -> Prop) X s :
  sound s -> zf_pending s ≡ₚ base ++ msgs ->
  (forall s', sound s' -> zf_pending s' ≡ₚ base -> Q tt s') -> wp (discard msgs) Q X s.
Proof.
  intros [Ha Hw] Hl H. unfold discard. wp_step. apply wp_update, wp_update, H.
  - split.
    + unfold accounted, published, recorded, dropped in *. cbn [zf_log zf_pending]. rewrite !bind_app. cbn.
      rewrite !app_nil_r, Ha. destruct (transfer_drops base msgs _ Hl) as [_ Hp]. rewrite <-Hp at 1. solve_Permutation.
    + unfold replaced in *. cbn [zf_log]. rewrite bind_app. cbn. by rewrite app_nil_r.
  - by apply transfer_drops.
Qed.

(** A replacement is asked for with all the parts. *)
Lemma refused_spec codec expected uploads (Q : unit -> zfin -> Prop) X s :
  sound s -> whole (codec, uploads) ->
  (forall s', sound s' -> zf_pending s' = zf_pending s -> Q tt s') -> wp (log_call (ZReplace codec expected uploads false)) Q X s.
Proof.
  intros [Ha Hw] Hu H. apply wp_update, H; [|done]. split.
  - unfold accounted, published, recorded, dropped in *. cbn [zf_log zf_pending]. rewrite !bind_app. cbn.
    by rewrite !app_nil_r.
  - unfold replaced in *. cbn [zf_log]. rewrite bind_app. cbn. apply Forall_app_2; [done|]. apply Forall_cons. split; [done|]. by apply Forall_nil_2.
Qed.

Lemma committed_spec {A} base codec expected uploads (k : F A) Q X s :
  sound s -> whole (codec, uploads) -> zf_pending s ≡ₚ base ++ (au_message_id <$> uploads) ->
  (forall s', sound s' -> zf_pending s' ≡ₚ base -> wp k Q X s') ->
  wp (_ ← log_call (ZReplace codec expected uploads true);
      _ ← with_pending (fun p => transfer_zip_dump_messages p (au_message_id <$> uploads)); k) Q X s.
Proof.
  intros [Ha Hw] Hu Hl H. wp_step. apply wp_update. wp_step. apply wp_update, H.
  - split.
    + unfold accounted, published, recorded, dropped in *. cbn [zf_log zf_pending]. rewrite !bind_app. cbn.
      rewrite !app_nil_r, Ha. destruct (transfer_drops base _ _ Hl) as [_ Hp]. rewrite <-Hp at 1. solve_Permutation.
    + unfold replaced in *. cbn [zf_log]. rewrite bind_app. cbn. apply Forall_app_2; [done|]. apply Forall_cons. split; [done|]. by apply Forall_nil_2.
  - by apply transfer_drops.
Qed.

(** The plans number the parts. *)
Definition numbered (plans : list ZipPartPlan) : Prop :=
  plans <> [] /\ forall i plan, plans !! i = Some plan ->
    part_index plan = Z.of_nat i + 1 /\ total_parts plan = Z.of_nat (length plans).

Lemma parts_whole st complete base plans a s : parts_inv st complete base plans a s -> numbered plans ->
  length (pa_uploads a) = length plans -> whole (album_codec st, pa_uploads a).
Proof.
  intros [_ _ _ _ (ps & Hsub & Hf)] [Hne Hnum] Hlen.
  assert (ps = plans) as -> by (apply sublist_full; [done|rewrite <-Hlen; by eapply Forall2_length]).
  split; cbn [fst snd]; [by intros E; rewrite E in Hlen; destruct plans|].
  exists (default [] (zs_generation_hash st)). intros i u Hi.
  apply (Forall2_lookup_r _ _ _ _ _ Hf) in Hi as (plan & Hi & (E1 & E2 & E3 & E4)).
  apply Hnum in Hi as [Hp Ht]. split_and!; [done|by rewrite E2, Hp|by rewrite E3, Ht, Hlen|done].
Qed.

Definition settled (base : list Z) (s : zfin) : Prop := sound s /\ zf_pending s ≡ₚ base.

Lemma settled_view base s s' : view s' = view s -> settled base s -> settled base s'.
Proof. intros Hv [H1 H2]. split; [by eapply sound_view|]. unfold view in Hv. by injection Hv as -> _ _ _ _. Qed.

Lemma conflict_spec st base a s : sound s -> zf_pending s ≡ₚ base ++ pa_messages a ->
  wp (after_conflict env ctx st a) (fun _ => settled base) stops s.
Proof.
  intros Hs Hl. unfold after_conflict. cbv zeta. wp_step. eapply discard_spec; [done..|]. intros s1 Hs1 Hl1.
  wp_step. quiet_step. assert (settled base s0) as Hset by (by eapply settled_view).
  assert (Hk : forall rows, wp (match rows with
      | [] => match zs_rendition st with
              | Primary => failed (lit "primary ZIP cache conflict had no committed winner")
              | Atmos => mret (pa_delivered a, pa_size a)
              end
      | _ => if delivering ctx then deliver_cached_zip_rows env (zs_rendition st) Winner rows
             else mret (pa_delivered a, pa_size a)
      end) (fun _ => settled base) stops s0).
  { intros rows. quiet_steps; [by split; [apply Hset|]|].
    eapply wp_mono; [apply cache_rows_spec, Hset| |done]. intros p s' Hv'. by apply (settled_view _ s0). }
  wp_step. quiet_steps; by (split; [apply Hset|]) || apply Hk.
Qed.

Lemma replace_spec st complete base plans a s : parts_inv st complete base plans a s -> numbered plans ->
  length (pa_uploads a) = length plans -> wp (replace_archive env ctx st a) (fun _ => settled base) stops s.
Proof.
  intros Hp Hnum Hlen. pose proof (parts_whole _ _ _ _ _ _ Hp Hnum Hlen) as Hwhole.
  destruct Hp as [Hs Hl Hm _ _]. unfold replace_archive. cbv zeta.
  assert (Hdrop : forall s', sound s' -> zf_pending s' = zf_pending s ->
    wp (_ ← discard (pa_messages a); mret (pa_delivered a, pa_size a)) (fun _ => settled base) stops s').
  { intros s' Hs' E. wp_step. eapply discard_spec; [done|by rewrite E|]. intros s2 ??. by apply wp_ret. }
  destruct (ze_replace env (zs_rendition st)) as [[displaced|]|e].
  - rewrite <-Hm in Hl. eapply committed_spec; [done..|]. intros s1 ??.
    assert (settled base s1) as Hset by done. quiet_steps. by eapply settled_view.
  - wp_step. eapply refused_spec; [done..|]. intros s1 Hs1 E. by apply Hdrop.
  - destruct e; wp_step; (eapply refused_spec; [done..|]; intros s1 Hs1 E).
    2: { apply conflict_spec; [done|by rewrite E]. }
    all: destruct (zs_rendition st); [by split|by apply Hdrop].
Qed.

Lemma settle_spec st complete base plans a s : parts_inv st complete base plans a s -> numbered plans ->
  wp (settle env ctx st complete (length plans) a) (fun _ => settled base) stops s.
Proof.
  intros Hp Hnum. pose proof (pi_sound _ _ _ _ _ _ Hp) as Hs. pose proof (pi_ledger _ _ _ _ _ _ Hp) as Hl.
  unfold settle. destruct complete; cbn [andb].
  - destruct (pa_all a && (length (pa_uploads a) =? length plans)%nat) eqn:E.
    + apply andb_prop in E as [_ E%Nat.eqb_eq]. by eapply replace_spec.
    + destruct (zs_rendition st); [by split|]. wp_step. eapply discard_spec; [done..|]. intros s1 ??. by apply wp_ret.
  - apply wp_ret. split; [done|]. by rewrite Hl, (pi_partial _ _ _ _ _ _ Hp), app_nil_r.
Qed.

Lemma report_spec st complete entries parts size base s : settled base s ->
  wp (report_archive env ctx st complete entries parts size) (fun _ => settled base) stops s.
Proof.
  intros Hset. pose proof (proj1 Hset) as Hs. unfold report_archive. cbv zeta. quiet_steps; try stop.
  all: (eapply settled_view; [|exact Hset]); congruence.
Qed.

Lemma plan_numbered fs artist album date entries cover max codec plans : entries <> [] ->
  plan_zip_parts_with_codec fs artist album date entries cover max codec = Some (Ok plans) -> numbered plans.
Proof.
  intros Hne H. apply plan_good in H as [Htr Hpart _ _]. split.
  - intros ->. cbn in Htr. by subst.
  - intros i p Hi. by destruct (Hpart i p Hi) as (? & ? & _).
Qed.

Lemma build_spec st complete entries base s : entries <> [] -> settled base s ->
  wp (build_archive env ctx st complete entries) (fun _ => settled base) stops s.
Proof.
  intros Hne Hset. pose proof (proj1 Hset) as Hs. unfold build_archive. cbv zeta.
  do 2 (wp_step; wp_step; [stop|]).
  set (cover := write_picture env st _ _). 
  destruct (plan_zip_parts_with_codec _ _ _ _ entries cover _ _) as [[plans|err]|] eqn:Eplan.
  - apply plan_numbered in Eplan; [|done]. wp_step.
    eapply wp_mono; [apply (parts_spec st complete _ base plans []); split; try done|  |done].
    + by rewrite app_nil_r, (proj2 Hset).
    + exists []. by split.
    + intros a s1 Hp. wp_step. eapply wp_mono; [by eapply settle_spec| |done]. intros [parts size] s2 Hset2.
      by apply report_spec.
  - quiet_steps.
  - exfalso. destruct (plan_total (ze_fs_len env) (zj_artist ctx) (zj_album ctx) (zj_release_date ctx) entries cover
      TELEGRAM_SPLIT_THRESHOLD_BYTES (codec_text st)) as [r Hr]. congruence.
Qed.

Lemma state_spec st base s : settled base s -> wp (finalize_state env ctx st) (fun _ => settled base) stops s.
Proof.
  intros Hset. unfold finalize_state, find_existing. cbv zeta. wp_step. quiet_step.
  assert (settled base s0) as Hset0 by (by eapply settled_view). pose proof (proj1 Hset0) as Hs0.
  assert (Hrows : forall w rows s', view s' = view s0 ->
    wp (deliver_from_cache env ctx (zs_rendition st) w rows) (fun _ => settled base) stops s').
  { intros w rows s' E. eapply wp_mono; [apply from_cache_spec; by eapply sound_view| |done].
    intros ? s2 Hv2. cbn in Hv2. eapply settled_view; [|exact Hset0]. congruence. }
  assert (Hbuild : forall c e l s', view s' = view s0 ->
    wp (build_archive env ctx st c (e :: l)) (fun _ => settled base) stops s').
  { intros c e l s' E. apply build_spec; [done|]. by eapply settled_view. }
  quiet_steps; try stop; try (by apply Hrows); try (by apply Hbuild).
Qed.

Lemma states_spec l : forall base s, settled base s -> wp (finalize_states env ctx l) (fun _ => settled base) stops s.
Proof.
  induction l as [|st l IH]; intros base s Hset; cbn [finalize_states]; [by apply wp_ret|].
  wp_step. eapply wp_mono; [by apply state_spec| |done]. intros ? s' Hset'. by apply IH.
Qed.

(** What [finalize_zip_inner] returns, and what is left in the ledger. *)
Lemma inner_spec s : settled [] s -> exists res s', finalize_zip_inner env ctx s = (Some res, s') /\ sound s' /\
  (zf_pending s' = [] \/ ze_cancelled env AtEnd = true \/ exists e, res = Err e).
Proof.
  intros [Hs Hl]. unfold finalize_zip_inner. apply Permutation_nil_r in Hl.
  destruct (negb (zj_build ctx)); [by do 2 eexists; split; [done|split; [done|by left]]|].
  destruct (ze_zip_error env AtStart) as [e|]; [do 2 eexists; split; [done|split; [done|right; right; by exists e]]|].
  cbv zeta. destruct (ze_cancelled env AtStart) eqn:Ec; [do 2 eexists; split; [done|split; [done|by left]]|].
  set (s1 := mkZfin _ _ None _ _ _).
  pose proof (states_spec (zj_states ctx) [] s1) as H. unfold wp in H.
  destruct (finalize_states env ctx (zj_states ctx) s1) as [[[]| |e|] s2].
  - destruct H as [H2 Hl2]; [split; [done|by rewrite <-Hl]|]. apply Permutation_nil_r in Hl2.
    do 2 eexists. split; [done|]. split; [done|by left].
  - destruct H as [H2 He]; [split; [done|by rewrite <-Hl]|]. do 2 eexists. split; [done|]. split; [done|]. right. by left.
  - destruct H as [H2 _]; [split; [done|by rewrite <-Hl]|]. do 2 eexists. split; [done|]. split; [done|].
    right. right. by exists e.
  - destruct H as [_ []]. split; [done|by rewrite <-Hl].
Qed.

Lemma zip_spec s : settled [] s -> exists res s', finalize_zip env ctx s = (Some res, s') /\ sound s' /\ zf_pending s' = [].
Proof.
  intros Hset. destruct (inner_spec s Hset) as (res & s' & E & Hs & Hend). unfold finalize_zip. rewrite E.
  destruct (_ || _) eqn:Eo.
  - cbn [take_uncommitted_zip_dump_messages]. do 2 eexists. split; [done|]. split; [|done].
    destruct Hs as [Ha Hw]. split.
    + unfold accounted, published, recorded, dropped in *. cbn [zf_log zf_pending].
      destruct (zf_pending s') as [|m l]; [done|]. rewrite !bind_app. cbn. rewrite !app_nil_r, Ha. solve_Permutation.
    + unfold replaced in *. cbn [zf_log]. destruct (zf_pending s'); [done|]. rewrite bind_app. cbn. by rewrite app_nil_r.
  - apply orb_false_iff in Eo as [E1 E2]. do 2 eexists. split; [done|]. split; [done|].
    destruct Hend as [?|[?|[e ->]]]; [done|congruence|done].
Qed.
End Spec.

(** ** An optional archive never fails the job *)

(** [m] keeps what has been reported, extends it at most, and never returns an error. *)
Definition grows {A} (m : F A) : Prop := forall s,
  let kept s' := zf_infos s `prefix_of` zf_infos s' /\ zf_finalizing s' = zf_finalizing s in
  wp m (fun _ => kept) (fun e s' => kept s' /\ forall msg, e <> Failed msg) s.

Section Grows.
Context {A B : Type}.

Lemma grows_ret (a : A) : grows (mret a).
Proof. by intros s; apply wp_ret. Qed.
Lemma grows_early : grows (A := A) early.
Proof. by intros s; apply wp_early. Qed.
Lemma grows_panicked : grows (A := A) panicked.
Proof. by intros s; apply wp_panicked. Qed.
Lemma grows_bind (m : F A) (f : A -> F B) : grows m -> (forall a, grows (f a)) -> grows (m ≫= f).
Proof.
  intros Hm Hf s. apply wp_bind. eapply wp_mono; [apply Hm| |done]. intros a s1 [H1 E1].
  eapply wp_mono; [apply Hf| |].
  - intros b s2 [H2 E2]. split; [by etrans|congruence].
  - intros e s2 [[H2 E2] He]. split; [split; [by etrans|congruence]|done].
Qed.
End Grows.

Lemma grows_log c : grows (log_call c).
Proof. by intros s; apply wp_update. Qed.
Lemma grows_sent m : grows (note_sent m).
Proof. by intros s; apply wp_update. Qed.
Lemma grows_pending f : grows (with_pending f).
Proof. by intros s; apply wp_update. Qed.
Lemma grows_info i : grows (push_info i).
Proof. intros s. apply wp_update. split; [by exists [i]|done]. Qed.
Lemma grows_check env p : grows (check_live env p).
Proof. intros s. by apply wp_check. Qed.

Create HintDb grows.
#[export] Hint Resolve grows_ret grows_early grows_panicked grows_bind grows_log grows_sent grows_pending grows_info
  grows_check : grows.

(** Goes through the code, the rendition being optional. *)
Ltac grow :=
  repeat (intros; lazymatch goal with
  | |- grows (mbind _ _) => apply grows_bind
  | |- grows (match ?x with _ => _ end) => destruct x eqn:?
  | |- grows (part_failed _ _ _) => unfold part_failed
  | |- _ => solve [auto with grows | congruence]
  end).

Section Optional.
Variables (env : zip_env) (ctx : zip_job).

Lemma grows_rows w silent rows : forall k d z, grows (deliver_rows env Atmos w silent k rows d z).
Proof. induction rows as [|row rows IH]; intros k d z; cbn [deliver_rows]; grow. Qed.

Lemma grows_from_cache w rows : grows (deliver_from_cache env ctx Atmos w rows).
Proof. unfold deliver_from_cache, deliver_cached_zip_rows. pose proof grows_rows. grow. Qed.

Lemma grows_discard msgs : grows (discard msgs).
Proof. unfold discard. grow. Qed.
#[local] Hint Resolve grows_discard grows_rows : grows.

Section State.
Variable st : zip_state.
Hypothesis Hatmos : zs_rendition st = Atmos.

Lemma grows_parts complete thumb plans : forall a, grows (process_parts env ctx st complete thumb plans a).
Proof.
  induction plans as [|plan plans IH]; intros a; cbn [process_parts]; [grow|].
  apply grows_bind; [|done]. unfold process_part, publish_part, send_part, copy_part. rewrite Hatmos. cbv zeta. grow.
Qed.

Lemma grows_settle complete n a : grows (settle env ctx st complete n a).
Proof.
  unfold settle, replace_archive, after_conflict, deliver_cached_zip_rows. rewrite Hatmos. cbv zeta. grow.
Qed.

Lemma grows_state s : ze_zip_error env (AtState Atmos) = None ->
  let kept s' := zf_infos s `prefix_of` zf_infos s' /\ zf_finalizing s' = Some Atmos in
  wp (finalize_state env ctx st) (fun _ => kept) (fun e s' => kept s' /\ forall msg, e <> Failed msg) s.
Proof.
  intros Herr. cbv zeta. unfold finalize_state, find_existing, build_archive, report_archive. cbv zeta. rewrite Hatmos, Herr.
  wp_step. apply wp_update. set (s1 := mkZfin _ _ _ _ _ _).
  change (zf_infos s) with (zf_infos s1). change (Some Atmos) with (zf_finalizing s1).
  match goal with |- wp ?m _ _ _ => assert (grows m) as Hm end; [|exact (Hm s1)].
  pose proof grows_from_cache. pose proof grows_parts. pose proof grows_settle. grow.
Qed.
End State.

Lemma grows_states l s : Forall (fun st => zs_rendition st = Atmos) l -> ze_zip_error env (AtState Atmos) = None ->
  zf_finalizing s = Some Atmos \/ l <> [] ->
  let kept s' := zf_infos s `prefix_of` zf_infos s' /\ zf_finalizing s' = Some Atmos in
  wp (finalize_states env ctx l) (fun _ => kept) (fun e s' => kept s' /\ forall msg, e <> Failed msg) s.
Proof.
  intros Hl Herr. revert s. induction Hl as [|st l Hst _ IH]; intros s Hs; cbn [finalize_states].
  - by destruct Hs.
  - wp_step. eapply wp_mono; [by apply grows_state| |done]. intros _u s1 [Hi Hf].
    eapply wp_mono; [apply IH; by left| |].
    + intros ? s2 [Hi2 Hf2]. split; [by etrans|done].
    + intros e s2 [[Hi2 Hf2] He]. split; [split; [by etrans|done]|done].
Qed.
End Optional.

(** Nothing is ever taken out of the log. *)
Definition extends {A} (m : F A) : Prop := forall s, exists more, zf_log (snd (m s)) = zf_log s ++ more.

Lemma extends_ret {A} (a : A) : extends (mret a).
Proof. intros s. exists []. by rewrite app_nil_r. Qed.
Lemma extends_bind {A B} (m : F A) (f : A -> F B) : extends m -> (forall a, extends (f a)) -> extends (m ≫= f).
Proof.
  intros Hm Hf s. unfold mbind, F_bind. destruct (Hm s) as [l1 H1]. destruct (m s) as [[] s1]; cbn in H1; [|by exists l1..].
  destruct (Hf a s1) as [l2 H2]. exists (l1 ++ l2). by rewrite H2, H1, app_assoc.
Qed.
Lemma extends_log c : extends (log_call c).
Proof. intros s. by exists [c]. Qed.
Lemma extends_quiet f : (forall s, zf_log (f s) = zf_log s) -> extends (update f).
Proof. intros H s. exists []. cbn. by rewrite H, app_nil_r. Qed.

Create HintDb extends.
#[export] Hint Resolve extends_ret extends_bind extends_log extends_quiet : extends.

Ltac extend :=
  repeat (intros; lazymatch goal with
  | |- extends (mbind _ _) => apply extends_bind
  | |- extends (match ?x with _ => _ end) => destruct x eqn:?
  | |- extends (with_pending _) => by apply extends_quiet
  | |- extends (note_sent _) => by apply extends_quiet
  | |- extends (push_info _) => by apply extends_quiet
  | |- extends early => by intros ?; exists []; rewrite app_nil_r
  | |- extends (failed _) => by intros ?; exists []; rewrite app_nil_r
  | |- extends (check_live _ _) => unfold check_live
  | |- _ => solve [auto with extends]
  end).

Lemma extends_rows env r w silent rows : forall k d z, extends (deliver_rows env r w silent k rows d z).
Proof. induction rows as [|row rows IH]; intros k d z; cbn [deliver_rows]; extend. Qed.

Lemma extends_wp {A} (m : F A) (P : list zip_call -> Prop) s : extends m ->
  (forall more, P (zf_log s ++ more)) -> wp m (fun _ s' => P (zf_log s')) (fun _ _ => True) s.
Proof. intros Hm HP. unfold wp. destruct (Hm s) as [more E]. destruct (m s) as [[] s']; cbn in E; [rewrite E; apply HP|done..]. Qed.

(** ** A required archive is sent part by part *)

Definition alive (env : zip_env) : Prop :=
  (forall p, ze_cancelled env p = false) /\
  (forall r i, ze_publish env r i <> None) /\ (forall r i, ze_copy env r i <> None) /\ (forall r, ze_photo env r <> None).

(** The calls a part causes that goes through. *)
Definition part_calls (env : zip_env) (st : zip_state) (thumb : option str) (plan : ZipPartPlan) : list zip_call :=
  match ze_publish env (zs_rendition st) (part_index plan) with
  | Some (Ok upload) =>
      [ZBuild (output st true plan) plan;
       ZPublish (output st true plan) thumb (zip_caption st true plan) (Some (message upload));
       ZCopy (message upload) (1 <? total_parts plan) true]
  | _ => []
  end.

Section Required.
Variables (env : zip_env) (ctx : zip_job) (st : zip_state).
Hypothesis Halive : alive env.
Hypothesis Hprimary : zs_rendition st = Primary.
Hypothesis Hdeliver : delivering ctx = true.

Definition errs (e : fin unit) (_ : zfin) : Prop := exists msg, e = Failed msg.

Lemma wp_alive p (Q : unit -> zfin -> Prop) s : Q tt s -> wp (check_live env p) Q errs s.
Proof. intros H. unfold check_live. by rewrite (proj1 Halive). Qed.

Record sent_inv (thumb : option str) (s0 : zfin) (l : list ZipPartPlan) (a : part_acc) (s : zfin) : Prop := {
  se_log : zf_log s = zf_log s0 ++ (l ≫= part_calls env st thumb);
  se_count : pa_delivered a = Z.of_nat (length l);
  se_all : pa_all a = true;
  se_uploads : length (pa_uploads a) = length l;
}.

Lemma required_part thumb s0 l plan a s : sent_inv thumb s0 l a s ->
  wp (process_part env ctx st true thumb plan a) (sent_inv thumb s0 (l ++ [plan])) errs s.
Proof.
  intros [Hlog Hcount Hall Hup]. destruct Halive as (Hc & Hp & Hcp & _).
  unfold process_part, publish_part, copy_part, part_failed. cbv zeta. rewrite Hprimary, Hdeliver, !Hc.
  wp_step. apply wp_alive. wp_step. apply wp_update.
  destruct (ze_build env Primary (part_index plan)) as [size|e|e]; [|by wp_steps; eexists..].
  destruct (TELEGRAM_SPLIT_THRESHOLD_BYTES <? size); [by wp_steps; eexists|].
  destruct (ze_publish env Primary (part_index plan)) as [[upload|e]|] eqn:Epub;
    [|by wp_steps; eexists|by destruct (Hp Primary (part_index plan))].
  do 2 (wp_step; apply wp_update; cbn beta). wp_step. apply wp_alive. wp_step. wp_step. apply wp_alive.
  destruct (ze_copy env Primary (part_index plan)) as [[[sent_id|]|e]|] eqn:Ecp;
    [|by wp_steps; eexists..|by destruct (Hcp Primary (part_index plan))].
  wp_step. apply wp_update. wp_step. apply wp_alive. wp_step. apply wp_update. do 2 apply wp_ret.
  split; cbn [zf_log pa_delivered pa_all pa_uploads add_upload add_delivered add_message].
  - rewrite Hlog, bind_app. cbn. unfold part_calls. rewrite Hprimary, Epub, !app_nil_r, <-!app_assoc. done.
  - rewrite Hcount, length_app. cbn. lia.
  - done.
  - rewrite !length_app, Hup. done.
Qed.

Lemma required_parts thumb s0 plans : forall l a s, sent_inv thumb s0 l a s ->
  wp (process_parts env ctx st true thumb plans a) (sent_inv thumb s0 (l ++ plans)) errs s.
Proof.
  induction plans as [|plan plans IH]; intros l a s Hs; cbn [process_parts].
  - apply wp_ret. by rewrite app_nil_r.
  - wp_step. eapply wp_mono; [by apply required_part| |done]. intros a' s' Hs'.
    replace (l ++ plan :: plans) with ((l ++ [plan]) ++ plans) by (by rewrite <-app_assoc). by apply IH.
Qed.


Lemma wp_bind_back {A B} (m : F A) (f : A -> F B) Q X s : wp (m ≫= f) Q X s -> wp m (fun a => wp (f a) Q X) X s.
Proof. unfold wp, mbind, F_bind. by destruct (m s) as [[] s']. Qed.

Lemma report_extends complete entries p : extends (let '(parts, size) := p in report_archive env ctx st complete entries parts size).
Proof. unfold report_archive. cbv zeta. extend. Qed.

(** The replacement is asked for right after the parts. *)
Lemma replaced_first a entries s :
  wp ('(parts, size) ← replace_archive env ctx st a; report_archive env ctx st true entries parts size)
    (fun _ s' => exists expected committed rest,
       zf_log s' = zf_log s ++ ZReplace (album_codec st) expected (pa_uploads a) committed :: rest) (fun _ _ => True) s.
Proof.
  set (P := fun l : list zip_call => exists expected committed rest,
    l = zf_log s ++ ZReplace (album_codec st) expected (pa_uploads a) committed :: rest).
  assert (Hk : forall (k : F (Z * Z)) expected committed, extends k ->
    wp (_ ← log_call (ZReplace (album_codec st) expected (pa_uploads a) committed); k)
      (fun p => wp (let '(parts, size) := p in report_archive env ctx st true entries parts size)
         (fun _ s' => P (zf_log s')) (fun _ _ => True)) (fun _ _ => True) s).
  { intros k expected committed Hke. wp_step. apply wp_update, wp_bind_back.
    apply extends_wp; [apply extends_bind; [done|apply report_extends]|]. intros more.
    exists expected, committed, more. cbn [zf_log]. by rewrite <-app_assoc. }
  wp_step. unfold replace_archive, after_conflict, deliver_cached_zip_rows, discard. cbv zeta.
  pose proof extends_rows.
  destruct (ze_replace env (zs_rendition st)) as [[displaced|]|[]]; apply Hk; extend.
Qed.

(** The log of a required archive that is not in the cache. *)
Definition sent_log (entries : list ZipTrackEntry) (before after : list zip_call) : Prop :=
  exists plans cover thumb expected uploads committed rest,
    plan_zip_parts_with_codec (ze_fs_len env) (zj_artist ctx) (zj_album ctx) (zj_release_date ctx) entries cover
      TELEGRAM_SPLIT_THRESHOLD_BYTES (codec_text st) = Some (Ok plans) /\
    after = before ++ (plans ≫= part_calls env st thumb) ++ ZReplace (album_codec st) expected uploads committed :: rest /\
    length uploads = length plans.

Lemma required_build entries s :
  wp (build_archive env ctx st true entries) (fun _ s' => sent_log entries (zf_log s) (zf_log s')) (fun _ _ => True) s.
Proof.
  unfold build_archive. cbv zeta. rewrite Hprimary. unfold check_live. rewrite !(proj1 Halive).
  do 2 (wp_step; apply wp_ret). set (cover := write_picture env st _ _). set (thumb := write_picture env st _ _).
  destruct (plan_zip_parts_with_codec _ _ _ _ entries cover _ _) as [[plans|err]|] eqn:Eplan; [|done..].
  wp_step. eapply wp_mono; [apply (required_parts thumb s plans []); split; [cbn; by rewrite app_nil_r|done..]| |done].
  intros a s1 [Hlog _ Hall Hup]. cbn [app] in *. unfold settle. rewrite Hall, Hup, Nat.eqb_refl. cbn [andb].
  eapply wp_mono; [apply replaced_first| |done]. intros ? s2 (expected & committed & rest & E).
  exists plans, cover, thumb, expected, (pa_uploads a), committed, rest. split; [done|]. split; [|done].
  by rewrite E, Hlog, <-app_assoc.
Qed.

Lemma insert_entry_perm e l : insert_entry e l ≡ₚ e :: l.
Proof.
  induction l as [|x l IH]; cbn; [done|]. destruct (str_leb _ _); [|done]. rewrite IH. by constructor.
Qed.

Lemma sort_entries_perm l : sort_entries l ≡ₚ l.
Proof.
  unfold sort_entries. assert (H : forall acc, foldl (fun acc e => insert_entry e acc) acc l ≡ₚ acc ++ l).
  { induction l as [|e l IH]; intros acc; cbn; [by rewrite app_nil_r|]. rewrite IH, insert_entry_perm. cbn.
    by rewrite Permutation_middle. }
  apply H.
Qed.

Lemma required_state s : zj_reuse ctx !! Primary = None -> zs_sources st <> [] ->
  is_complete ctx st (sort_entries (zs_sources st)) = true -> ze_zip_error env (AtState Primary) = None ->
  (forall rows, ze_find env Primary Existing = Ok rows -> usable_rows st rows = false) ->
  wp (finalize_state env ctx st) (fun _ s' => exists looked, looked ⊆ [ZFind (album_codec st)] /\
    sent_log (sort_entries (zs_sources st)) (zf_log s ++ looked) (zf_log s')) (fun _ _ => True) s.
Proof.
  intros Hreuse Hne Hcomplete Herr Hfind. unfold finalize_state, find_existing, check_live. cbv zeta.
  rewrite Hprimary, Herr, Hreuse, (proj1 Halive), Hcomplete.
  destruct (sort_entries (zs_sources st)) as [|e l] eqn:El.
  { pose proof (sort_entries_perm (zs_sources st)) as Hp. rewrite El in Hp. by apply Permutation_nil_l in Hp. }
  wp_step. apply wp_update. wp_step. apply wp_ret. cbn [orb andb].
  destruct (negb (is_force (zj_options ctx) && is_admin (zj_options ctx))).
  - do 2 wp_step. apply wp_update. destruct (ze_find env Primary Existing) as [rows|err] eqn:Ef.
    + rewrite (Hfind rows eq_refl). apply wp_ret. eapply wp_mono; [apply required_build| |done].
      intros ? s' Hs'. by eexists.
    + apply wp_ret. eapply wp_mono; [apply required_build| |done]. intros ? s' Hs'. by eexists.
  - wp_step. apply wp_ret. eapply wp_mono; [apply required_build| |done]. intros ? s' Hs'. exists [].
    rewrite app_nil_r. by split; [apply list_subseteq_nil|].
Qed.
End Required.

(** ** Properties *)

Lemma new_settled first : settled [] (new_zfin first).
Proof. split; [split|]; [unfold accounted; reflexivity|by apply Forall_nil_2|reflexivity]. Qed.


(** A row of the cache for an upload. *)
Definition row_of (u : AlbumUpload) (r : CachedAlbum) : Prop :=
  ca_codec r = au_codec u /\ ca_part_index r = au_part_index u /\ ca_total_parts r = au_total_parts u /\
  ca_generation_hash r = au_generation_hash u.

Lemma ordered_rows_spec rows : forall n,
  (forall i r, rows !! i = Some r -> wrap 64 (ca_part_index r) = n + Z.of_nat i) -> parts_in_order n rows = true.
Proof.
  induction rows as [|r rows IH]; intros n H; cbn [parts_in_order]; [done|].
  apply andb_true_intro. split; [apply Z.eqb_eq; rewrite (H 0%nat r eq_refl); lia|].
  apply IH. intros i r' Hi. rewrite (H (S i) r' Hi). lia.
Qed.



(** C13: a required archive whose finalisation succeeds was not in the cache: every part was built,
    published and copied to the chat, in the order of the plan and one after the other, and only then
    was it recorded. *)
Theorem required_archive_in_order (env : zip_env) (ctx : zip_job) (st : zip_state) (s s' : zfin) :
  alive env -> zs_rendition st = Primary -> delivering ctx = true -> zj_reuse ctx !! Primary = None ->
  zs_sources st <> [] -> is_complete ctx st (sort_entries (zs_sources st)) = true ->
  ze_zip_error env (AtState Primary) = None ->
  (forall rows, ze_find env Primary Existing = Ok rows -> usable_rows st rows = false) ->
  finalize_state env ctx st s = (Done tt, s') ->
  exists looked, looked ⊆ [ZFind (album_codec st)] /\
    sent_log env ctx st (sort_entries (zs_sources st)) (zf_log s ++ looked) (zf_log s').
Proof.
  intros Ha Hp Hd Hr Hne Hc He Hf Hrun.
  pose proof (required_state env ctx st Ha Hp Hd s Hr Hne Hc He Hf) as H. unfold wp in H. by rewrite Hrun in H.
Qed.

(** ** Witnesses *)

Definition demo_entry (n : string) : ZipTrackEntry := mkEntry (lit "/w/" ++ lit n) (lit n) 1500000000.
Definition demo_state (r : Rendition) : zip_state :=
  mkZipState r (lit "/w") [demo_entry "2.m4a"; demo_entry "1.m4a"] None (Some (lit "gen")).

Definition demo_zip_job (l : list zip_state) : zip_job :=
  mkZipJob (mkRipOptions 1 1 None 1 false false false None [] None false None PrimaryOnly JobOrigin_default)
    true true l ∅ ∅ None (lit "Album") (lit "Artist") (lit "2020-01-01") None 2 [].

(** Deliveries answer with the number of the part; [replaced_with] is the cache's answer. *)
Definition demo_zip_env (replaced_with : Rendition -> result AlbumCacheError AlbumReplacementResult)
    (winner : list CachedAlbum) : zip_env :=
  mkZipEnv (fun _ => false) (fun _ => None) (fun _ _ k => Ok (Message (Z.of_nat k)))
    (fun _ w => match w with Winner => Ok winner | _ => Ok [] end) (fun _ => None) (fun url _ => url) (fun _ => true)
    (fun _ => Some 1500000000) (fun _ => []) (fun _ _ => Built 1500000600)
    (fun _ part => Some (Ok (mkPublication (100 + part) [] []))) (fun _ part => Some (Ok (Message part)))
    (fun _ part => Some (Ok (Message (200 + part)))) replaced_with (fun _ => Some (Ok PreviewDelivered)).

Definition demo_commit : Rendition -> result AlbumCacheError AlbumReplacementResult := fun _ => Ok (Committed []).
Definition demo_conflict : Rendition -> result AlbumCacheError AlbumReplacementResult :=
  fun _ => Err (AlbumConflict ReplaceAlbum []).

Lemma demo_sticky f w : sticky (demo_zip_env f w).
Proof. split; cbn; intros; discriminate. Qed.

Definition run_demo f w (l : list zip_state) : zfin :=
  snd (finalize_zip (demo_zip_env f w) (demo_zip_job l) (new_zfin None)).


Example demo_recorded : recorded (zf_log (run_demo demo_commit [] [demo_state Primary])) = [101; 102].
Proof. by vm_compute. Qed.

Definition demo_uploads : list AlbumUpload :=
  [mkAlbumUpload Alac 1 2 101 [] [] 1500000600 (lit "gen"); mkAlbumUpload Alac 2 2 102 [] [] 1500000600 (lit "gen")].
Definition demo_saved_rows : list CachedAlbum :=
  [mkCachedAlbum 1 2 101 [] (lit "gen") 1500000600 Alac; mkCachedAlbum 2 2 102 [] (lit "gen") 1500000600 Alac].


Definition demo_totals : job_totals := mkTotals 2 0 2 [] None [].

(** The builder fails for the optional archive. *)
Definition demo_atmos_fails : zip_env :=
  let e := demo_zip_env demo_commit [] in
  mkZipEnv (ze_cancelled e) (ze_zip_error e) (ze_row e) (ze_find e) (ze_artwork e) (ze_artwork_url_at_size e) (ze_write e)
    (ze_fs_len e) (ze_zip_error_text e)
    (fun r _ => match r with Primary => Built 1500000600 | Atmos => BuildDied (lit "died") end)
    (ze_publish e) (ze_send e) (ze_copy e) (ze_replace e) (ze_photo e).


Lemma required_archive_in_order_witness : exists looked, looked ⊆ [ZFind Alac] /\
  sent_log (demo_zip_env demo_commit []) (demo_zip_job [demo_state Primary]) (demo_state Primary)
    (sort_entries (zs_sources (demo_state Primary))) ([] ++ looked)
    (zf_log (snd (finalize_state (demo_zip_env demo_commit []) (demo_zip_job [demo_state Primary]) (demo_state Primary) (new_zfin None)))).
Proof.
  apply (required_archive_in_order (demo_zip_env demo_commit []) (demo_zip_job [demo_state Primary]) (demo_state Primary)
    (new_zfin None)); [split_and!; try done; discriminate|done|done|done|discriminate|by vm_compute|done| |by vm_compute].
  intros rows [= <-]. reflexivity.
Defined.

(** ** Shortcomings *)

(** When another job has recorded the album first, the chat gets the archive twice: the parts this job
    built were copied before the conflict showed, the winner's rows are copied after it. *)
Theorem conflict_delivers_twice :
  let winner := [mkCachedAlbum 1 2 901 [] (lit "gen") 1500000600 Alac; mkCachedAlbum 2 2 902 [] (lit "gen") 1500000600 Alac] in
  let copied := omap (fun c => match c with ZCopy m _ true => Some m | _ => None end)
                  (zf_log (run_demo demo_conflict winner [demo_state Primary])) in
  copied = [101; 102; 901; 902].
Proof. by vm_compute. Qed.

(** An optional archive counts as complete whatever tracks it lacks: one of an album's two tracks is
    recorded under the album's generation, for later jobs to send as the whole archive. *)
Theorem partial_atmos_recorded :
  let st := mkZipState Atmos (lit "/w") [demo_entry "2.m4a"] None (Some (lit "gen")) in
  replaced (zf_log (run_demo demo_commit [] [st])) =
    [(Ec3, [mkAlbumUpload Ec3 1 1 101 [] [] 1500000600 (lit "gen")])].
Proof. by vm_compute. Qed.
