(* ===== verification/PlaybackSync.v ===== *)
(** * PlaybackSync: the devices of one user (crates/server/src/playback_sync.rs)

    The WebSocket connections of a user share a room: its devices, the connection that speaks for
    each, the active device and the last playback snapshot.  One step handles one message, or the end
    of a connection, under the room's lock.  A JSON value is any value of type [J]; the requests about
    rip tasks do not touch the room.  Which device comes first in the hash map is a choice of the
    step. *)
From S2P Require Import Prelude Text.

Record ConnectedDeviceInfo := mkDevice { device_id : str; device_name : str; platform : str }.

Section Room.
Context {J : Type}.

Inductive ClientMessage : Type :=
| Hello (info : ConnectedDeviceInfo)
| ReportState (snapshot : J)
| Command (action : str) (data : option J)
| TransferPlayback (target_device_id : str)
| RipTaskRequest.                 (* [CreateRipTask], [CancelRipTask] *)

Inductive ServerMessage : Type :=
| RoomState (active_device_id : option str) (devices : gmap str ConnectedDeviceInfo) (snapshot : option J)
| StateUpdated (active_device_id : option str) (snapshot : J)
| CommandSent (action : str) (data : option J).

Record SyncRoom := mkRoom {
  devices : gmap str ConnectedDeviceInfo;
  device_connections : gmap str Z;
  active_device_id : option str;
  latest_snapshot : option J;
  tx : list ServerMessage;                 (* what was broadcast, oldest first *)
}.

(** [get_or_create_room] makes an empty room. *)
Definition empty_room : SyncRoom := mkRoom ∅ ∅ None None [].

(** The rooms of the hub, by user. *)
Definition get_or_create_room (telegram_id : Z) (rooms : gmap Z SyncRoom) : SyncRoom * gmap Z SyncRoom :=
  match rooms !! telegram_id with
  | Some room => (room, rooms)
  | None => (empty_room, <[telegram_id := empty_room]> rooms)
  end.

Definition broadcast (m : SyncRoom -> ServerMessage) (r : SyncRoom) : SyncRoom :=
  mkRoom (devices r) (device_connections r) (active_device_id r) (latest_snapshot r) (tx r ++ [m r]).

Definition room_state (r : SyncRoom) : ServerMessage := RoomState (active_device_id r) (devices r) (latest_snapshot r).

Definition set_active (d : option str) (r : SyncRoom) : SyncRoom :=
  mkRoom (devices r) (device_connections r) d (latest_snapshot r) (tx r).

Definition set_snapshot (s : J) (r : SyncRoom) : SyncRoom :=
  mkRoom (devices r) (device_connections r) (active_device_id r) (Some s) (tx r).

Definition remove_device_connection (d : str) (connection_id : Z) (r : SyncRoom) : bool * SyncRoom :=
  if negb (bool_decide (device_connections r !! d = Some connection_id)) then (false, r)
  else (bool_decide (is_Some (devices r !! d)),
        mkRoom (delete d (devices r)) (delete d (device_connections r)) (active_device_id r) (latest_snapshot r) (tx r)).

Definition add_device (info : ConnectedDeviceInfo) (connection_id : Z) (r : SyncRoom) : SyncRoom :=
  mkRoom (<[device_id info := info]> (devices r)) (<[device_id info := connection_id]> (device_connections r))
    (active_device_id r) (latest_snapshot r) (tx r).

(** A connection that announces another device gives up the one it had. *)
Definition leave_previous (connection_id : Z) (my_device_id : option str) (d : str) (r : SyncRoom) : SyncRoom :=
  match my_device_id with
  | Some prev => if bool_decide (prev = d) then r else (remove_device_connection prev connection_id r).2
  | None => r
  end.

(** [Hello]; [my_device_id] is the connection's own variable. *)
Definition hello (connection_id : Z) (my_device_id : option str) (info : ConnectedDeviceInfo) (r : SyncRoom) : SyncRoom :=
  let r := leave_previous connection_id my_device_id (device_id info) r in
  let r := add_device info connection_id r in
  let r := match active_device_id r with None => set_active (Some (device_id info)) r | Some _ => r end in
  broadcast room_state r.

Definition report_state (my_device_id : option str) (snapshot : J) (r : SyncRoom) : SyncRoom :=
  let is_active := match my_device_id, active_device_id r with
                   | Some curr, Some active => bool_decide (curr = active)
                   | _, _ => false
                   end in
  if is_active then broadcast (fun r => StateUpdated (active_device_id r) snapshot) (set_snapshot snapshot r) else r.

Definition command (action : str) (data : option J) (r : SyncRoom) : SyncRoom :=
  broadcast (fun _ => CommandSent action data) r.

Definition transfer_playback (target_device_id : str) (r : SyncRoom) : SyncRoom :=
  broadcast room_state (set_active (Some target_device_id) r).

(** The end of [handle_socket]; [next] is what [devices.keys().next()] yields. *)
Definition disconnect (connection_id : Z) (my_device_id : option str) (next : option str) (r : SyncRoom) : SyncRoom :=
  match my_device_id with
  | None => r
  | Some d =>
      let '(removed, r) := remove_device_connection d connection_id r in
      let r := if removed && bool_decide (active_device_id r = Some d) then set_active next r else r in
      broadcast room_state r
  end.

(** ** The connections of a room *)

Record session := mkSession { room : SyncRoom; connections : gmap Z (option str) }.

Definition new_session : session := mkSession empty_room ∅.

Definition handle (c : Z) (my_device_id : option str) (m : ClientMessage) (s : session) : session :=
  match m with
  | Hello info => mkSession (hello c my_device_id info (room s)) (<[c := Some (device_id info)]> (connections s))
  | ReportState snapshot => mkSession (report_state my_device_id snapshot (room s)) (connections s)
  | Command action data => mkSession (command action data (room s)) (connections s)
  | TransferPlayback target => mkSession (transfer_playback target (room s)) (connections s)
  | RipTaskRequest => s
  end.

(** [next] is a key of the map, or [None] when it is empty. *)
Definition first_key (next : option str) (m : gmap str ConnectedDeviceInfo) : Prop :=
  match next with Some d => is_Some (m !! d) | None => m = ∅ end.

Definition left_devices (c : Z) (d : str) (s : session) : gmap str ConnectedDeviceInfo :=
  devices (remove_device_connection d c (room s)).2.

Inductive session_step : session -> session -> Prop :=
| S_connect s c : connections s !! c = None -> session_step s (mkSession (room s) (<[c := None]> (connections s)))
| S_message s c my m : connections s !! c = Some my -> session_step s (handle c my m s)
| S_close s c my next :
    connections s !! c = Some my ->
    match my with Some d => first_key next (left_devices c d s) | None => True end ->
    session_step s (mkSession (disconnect c my next (room s)) (delete c (connections s))).

(** ** The invariant *)

(** Devices and connections have the same keys, a device is stored under its own id, and the
    connection that speaks for it is open and knows it as its device. *)
Record session_wf (s : session) : Prop := {
  sw_keys : dom (devices (room s)) = dom (device_connections (room s));
  sw_ids : forall d i, devices (room s) !! d = Some i -> device_id i = d;
  sw_owner : forall d c, device_connections (room s) !! d = Some c -> connections s !! c = Some (Some d);
}.

Lemma remove_device_spec d c r b r' :
  remove_device_connection d c r = (b, r') ->
  (device_connections r !! d = Some c /\ devices r' = delete d (devices r) /\
     device_connections r' = delete d (device_connections r) /\ b = bool_decide (is_Some (devices r !! d)) \/
   device_connections r !! d <> Some c /\ r' = r /\ b = false) /\
  active_device_id r' = active_device_id r.
Proof.
  unfold remove_device_connection. destruct (decide (device_connections r !! d = Some c)) as [H|H].
  - rewrite bool_decide_eq_true_2 by done. intros [= <- <-]. split; [left; by split_and!|done].
  - rewrite bool_decide_eq_false_2 by done. intros [= <- <-]. split; [by right|done].
Qed.

Lemma new_session_wf : session_wf new_session.
Proof. split; cbn; [by rewrite !dom_empty_L|..]; intros ? ?; by rewrite lookup_empty. Qed.

Lemma hello_wf s c my info :
  connections s !! c = Some my -> session_wf s -> session_wf (handle c my (Hello info) s).
Proof.
  intros Hc [Hk Hi Ho]. set (d := device_id info). cbn [handle].
  set (r0 := leave_previous c my d (room s)).
  assert (dom (devices r0) = dom (device_connections r0) /\
          (forall d i, devices r0 !! d = Some i -> devices (room s) !! d = Some i) /\
          (forall d c', device_connections r0 !! d = Some c' -> device_connections (room s) !! d = Some c') /\
          (forall prev, my = Some prev -> prev <> d -> device_connections r0 !! prev <> Some c)) as (K & D & C & P).
  { subst r0. unfold leave_previous. destruct my as [prev|]; [|split_and!; try done; by intros ? [=]].
    case_bool_decide as Heq; [split_and!; try done; intros ? [= <-] ?; done|].
    destruct (remove_device_connection prev c (room s)) as [b r'] eqn:E.
    apply remove_device_spec in E as [[(H1 & H2 & H3 & _)|(H1 & -> & _)] _]; cbn.
    - rewrite H2, H3, !dom_delete_L, Hk. split_and!; [done| | |].
      + by intros d' i [_ H]%lookup_delete_Some.
      + by intros d' c' [_ H]%lookup_delete_Some.
      + intros p [= <-] _. by rewrite lookup_delete_eq.
    - split_and!; try done. by intros p [= <-] _. }
  unfold hello. fold d r0.
  assert (Hr : forall r1, devices r1 = <[d := info]> (devices r0) -> device_connections r1 = <[d := c]> (device_connections r0) ->
            session_wf (mkSession (broadcast room_state r1) (<[c := Some d]> (connections s)))).
  { intros r1 E1 E2. split; cbn; rewrite ?E1, ?E2.
    - rewrite !dom_insert_L. by rewrite K.
    - intros d' i [[<- <-]|[_ H]]%lookup_insert_Some; [done|]. by apply Hi, D.
    - intros d' c' [[<- <-]|[Hne H]]%lookup_insert_Some; [apply lookup_insert_eq|].
      destruct (decide (c' = c)) as [->|Hc']; [|rewrite lookup_insert_ne by done; by apply Ho, C].
      exfalso. pose proof (Ho _ _ (C _ _ H)) as Hd. rewrite Hc in Hd. injection Hd as ->. by apply (P d' eq_refl (not_eq_sym Hne)). }
  cbn [active_device_id add_device]. destruct (active_device_id r0); by apply Hr.
Qed.

Lemma disconnect_wf s c my next :
  connections s !! c = Some my -> session_wf s ->
  session_wf (mkSession (disconnect c my next (room s)) (delete c (connections s))).
Proof.
  intros Hc [Hk Hi Ho]. unfold disconnect. destruct my as [d|].
  - destruct (remove_device_connection d c (room s)) as [b r'] eqn:E.
    apply remove_device_spec in E as [[(H1 & H2 & H3 & _)|(H1 & -> & ->)] _].
    + assert (Hr : forall r1, devices r1 = devices r' -> device_connections r1 = device_connections r' ->
        session_wf (mkSession (broadcast room_state r1) (delete c (connections s)))).
      { intros r1 E1 E2. split; cbn; rewrite ?E1, ?E2, ?H2, ?H3.
        - by rewrite !dom_delete_L, Hk.
        - intros d' i [_ H]%lookup_delete_Some. by apply Hi.
        - intros d' c' [Hne H]%lookup_delete_Some. pose proof (Ho _ _ H) as Hc'.
          rewrite lookup_delete_ne; [done|]. intros ->. congruence. }
      destruct (b && _); by apply Hr.
    + cbn [andb]. split; cbn; [done|done|]. intros d' c' H. pose proof (Ho _ _ H) as Hc'.
      rewrite lookup_delete_ne; [done|]. intros ->. rewrite Hc in Hc'. injection Hc' as <-. congruence.
  - split; cbn; [done|done|]. intros d' c' H. pose proof (Ho _ _ H) as Hc'.
    rewrite lookup_delete_ne; [done|]. intros ->. congruence.
Qed.

Lemma session_step_wf s s' : session_wf s -> session_step s s' -> session_wf s'.
Proof.
  intros Hwf Hs. revert Hwf. destruct Hs as [t c Hc|t c my m Hc|t c my next Hc _]; intros Hwf.
  - destruct Hwf as [Hk Hi Ho]. split; cbn; [done|done|]. intros d c' H. pose proof (Ho _ _ H).
    rewrite lookup_insert_ne; [done|]. intros ->. congruence.
  - destruct m as [info|snapshot|action data|target|]; cbn [handle].
    + by apply hello_wf.
    + unfold report_state. destruct Hwf. repeat case_match; by split.
    + destruct Hwf. by split.
    + destruct Hwf. by split.
    + done.
  - by apply disconnect_wf.
Qed.
End Room.
Arguments ClientMessage : clear implicits.
Arguments ServerMessage : clear implicits.
Arguments SyncRoom : clear implicits.
Arguments session : clear implicits.

(** ** Active device *)

Section Active.
Context {J : Type}.
Implicit Types (s : session J) (r : SyncRoom J).

(** The active device is connected, and there is one while any is. *)
Definition active_connected (r : SyncRoom J) : Prop :=
  match active_device_id r with Some d => is_Some (devices r !! d) | None => devices r = ∅ end.

(** The messages that keep it so: a transfer to a connected device, and no change of device. *)
Definition well_behaved (my : option str) (m : ClientMessage J) (r : SyncRoom J) : Prop :=
  match m with
  | Hello info => match my with Some prev => prev = device_id info | None => True end
  | TransferPlayback target => is_Some (devices r !! target)
  | _ => True
  end.

Inductive polite_step : session J -> session J -> Prop :=
| P_connect s c : connections s !! c = None -> polite_step s (mkSession (room s) (<[c := None]> (connections s)))
| P_message s c my m : connections s !! c = Some my -> well_behaved my m (room s) -> polite_step s (handle c my m s)
| P_close s c my next :
    connections s !! c = Some my ->
    match my with Some d => first_key next (left_devices c d s) | None => True end ->
    polite_step s (mkSession (disconnect c my next (room s)) (delete c (connections s))).

Lemma hello_active c my info r :
  (match my with Some prev => prev = device_id info | None => True end) ->
  active_connected r -> active_connected (hello c my info r).
Proof.
  intros Hmy H. unfold hello.
  assert (leave_previous c my (device_id info) r = r) as ->.
  { unfold leave_previous. destruct my; [by rewrite bool_decide_eq_true_2|done]. }
  unfold active_connected in *. cbn [broadcast active_device_id devices add_device].
  destruct (active_device_id r) as [d|] eqn:Ha; cbn [set_active active_device_id devices add_device]; rewrite ?Ha.
  - destruct (decide (d = device_id info)) as [->|Hne]; [rewrite lookup_insert_eq; by eexists|by rewrite lookup_insert_ne].
  - rewrite lookup_insert_eq. by eexists.
Qed.

Lemma disconnect_active c my next r :
  match my with Some d => first_key next (devices (remove_device_connection d c r).2) | None => True end ->
  active_connected r -> active_connected (disconnect c my next r).
Proof.
  destruct my as [d|]; [|done]. unfold disconnect, active_connected. intros Hnext H.
  destruct (remove_device_connection d c r) as [b r'] eqn:E. cbn in Hnext.
  apply remove_device_spec in E as [[(H1 & H2 & H3 & ->)|(H1 & -> & ->)] Ha]; [|done].
  case_bool_decide as Hd; cbn [andb].
  - case_bool_decide as Hact; cbn.
    + unfold first_key in Hnext. destruct next; [done|]. by rewrite Hnext.
    + rewrite Ha in Hact |- *. rewrite H2. destruct (active_device_id r) as [a|].
      * rewrite lookup_delete_ne; [done|congruence].
      * rewrite H. apply delete_empty.
  - cbn. rewrite Ha, H2. destruct (active_device_id r) as [a|].
    + rewrite lookup_delete_ne; [done|]. by intros ->.
    + rewrite H. apply delete_empty.
Qed.

Lemma polite_step_active s s' : active_connected (room s) -> polite_step s s' -> active_connected (room s').
Proof.
  intros H Hs. revert H. destruct Hs as [t c Hc|t c my m Hc Hw|t c my next Hc Hn]; intros H; cbn [room]; [done| |].
  - destruct m as [info|snapshot|action data|target|]; cbn [handle room].
    + by apply hello_active.
    + unfold report_state. repeat case_match; done.
    + done.
    + exact Hw.
    + done.
  - by apply disconnect_active.
Qed.
End Active.

(** ** Properties *)

(** The room is well formed in every reachable state: the devices are those with a connection, a
    device is stored under its own id, and the connection that speaks for a device is open and is that
    device's; a connection replaced by a newer one for the same device cannot remove it. *)
Theorem room_well_formed {J} (s : session J) :
  steps session_step new_session s ->
  session_wf s /\
  (forall d c c', device_connections (room s) !! d = Some c -> c' <> c ->
     (remove_device_connection d c' (room s)).2 = room s).
Proof.
  intros H. split; [eapply steps_invariant; [intros; by eapply session_step_wf|exact H|apply new_session_wf]|].
  intros d c c' Hd Hne. unfold remove_device_connection. rewrite bool_decide_eq_false_2; [done|congruence].
Qed.

(** As long as devices only hand playback to connected ones and a connection keeps its device, the
    active device is a connected one, and there is one while any device is connected. *)
Theorem active_device_connected {J} (s : session J) :
  steps polite_step new_session s -> active_connected (room s).
Proof.
  intros H. apply (steps_invariant polite_step (fun s => active_connected (room s)) polite_step_active _ _ H). done.
Qed.

(** Only the active device sets the snapshot, and everyone is told about it. *)
Theorem snapshot_from_active {J} c my (m : ClientMessage J) (s : session J) :
  let s' := handle c my m s in
  latest_snapshot (room s') = latest_snapshot (room s) \/
  exists d snapshot, m = ReportState snapshot /\ my = Some d /\ active_device_id (room s) = Some d /\
    latest_snapshot (room s') = Some snapshot /\ tx (room s') = tx (room s) ++ [StateUpdated (Some d) snapshot].
Proof.
  destruct m as [info|snapshot|action data|target|]; cbn [handle room]; try by left.
  - left. unfold hello, leave_previous.
    assert (Hf : forall r : SyncRoom J, latest_snapshot (match active_device_id r with None => set_active (Some (device_id info)) r | Some _ => r end) = latest_snapshot r).
    { intros r. by destruct (active_device_id r). }
    cbn [broadcast latest_snapshot]. rewrite Hf. cbn. destruct my as [p|]; [|done]. case_bool_decide; [done|].
    unfold remove_device_connection. by case_match.
  - unfold report_state. destruct my as [curr|], (active_device_id (room s)) as [active|] eqn:Ha; try by left.
    case_bool_decide as E; [|by left]. subst. right. exists active, snapshot. cbn. by rewrite Ha.
Qed.

(** The two ways to leave a device that is not connected active; from then on every report of a
    connected device is dropped. *)
Definition demo_info (d : string) : ConnectedDeviceInfo := mkDevice (lit d) [] [].

(** A connection that announces another device takes its old one out of the room but leaves it
    active, and a transfer may name any device: the active device need not be connected, and then no
    report of a connected device is taken. *)
Theorem ghost_active_device (J : Type) :
  (exists s : session J, steps session_step new_session s /\ dom (devices (room s)) = {[lit "b"]} /\
     active_device_id (room s) = Some (lit "a") /\
     forall c snapshot, connections s !! c = Some (Some (lit "b")) ->
       room (handle c (Some (lit "b")) (ReportState snapshot) s) = room s) /\
  (exists s : session J, steps session_step new_session s /\ dom (devices (room s)) = {[lit "a"]} /\
     active_device_id (room s) = Some (lit "nobody")).
Proof.
  set (s1 := mkSession (room (new_session (J := J))) (<[1 := None]> (connections (new_session (J := J))))).
  set (s2 := handle 1 None (Hello (demo_info "a")) s1).
  assert (H2 : steps session_step new_session s2).
  { eapply steps_cons; [by apply (S_connect new_session 1)|]. eapply steps_cons; [|apply steps_refl].
    apply (S_message s1 1 None). by vm_compute. }
  split.
  - exists (handle 1 (Some (lit "a")) (Hello (demo_info "b")) s2). split_and!.
    + eapply steps_trans; [exact H2|]. eapply steps_cons; [|apply steps_refl]. apply S_message. by vm_compute.
    + by vm_compute.
    + by vm_compute.
    + intros c snapshot _. reflexivity.
  - exists (handle 1 (Some (lit "a")) (TransferPlayback (lit "nobody")) s2). split_and!.
    + eapply steps_trans; [exact H2|]. eapply steps_cons; [|apply steps_refl]. apply S_message. by vm_compute.
    + by vm_compute.
    + by vm_compute.
Qed.

(** ** Witnesses *)

Definition demo_session : session Z :=
  handle 1 None (Hello (demo_info "a")) (mkSession empty_room (<[1 := None]> ∅)).

Lemma demo_polite_run : steps polite_step new_session demo_session.
Proof.
  eapply steps_cons; [by apply (P_connect new_session 1)|]. eapply steps_cons; [|apply steps_refl].
  apply (P_message (mkSession (room new_session) (<[1 := None]> (connections (new_session (J := Z))))) 1 None); by vm_compute.
Qed.

Lemma demo_session_run : steps session_step new_session demo_session.
Proof.
  eapply steps_cons; [by apply (S_connect new_session 1)|]. eapply steps_cons; [|apply steps_refl].
  apply (S_message (mkSession (room new_session) (<[1 := None]> (connections (new_session (J := Z))))) 1 None). by vm_compute.
Qed.

Lemma room_well_formed_witness :
  session_wf demo_session /\ (remove_device_connection (lit "a") 2 (room demo_session)).2 = room demo_session.
Proof.
  destruct (room_well_formed demo_session demo_session_run) as [H1 H2]. split; [exact H1|]. apply (H2 _ 1); [by vm_compute|lia].
Defined.

Lemma active_device_connected_witness : active_connected (room demo_session).
Proof. apply active_device_connected, demo_polite_run. Defined.
