(* ===== verification/TrackRuns.v ===== *)
(** * TrackRuns: the tables of a movie fragment (crates/apple/src/wrapper/decryptor.rs)

    [parse_tfhd_defaults] and [parse_trun]: where the samples of a fragment are and how long they are.
    The capacity a table announces is reserved before its entries are read; memory is not modelled. *)
From S2P Require Import Prelude Text Bytes Boxes.

#[local] Open Scope rust_scope.

(** [flags & mask != 0]. *)
Definition has (flags mask : Z) : bool := negb (Z.land flags mask =? 0).

Record TrunInfo := mkTrunInfo {
  sample_count : Z;
  data_offset_field_pos : option Z;
  data_offset : Z;
  sample_sizes : list Z;
}.

Record TfhdDefaults := mkTfhdDefaults {
  default_sample_duration : option Z;
  default_sample_size : option Z;
}.

(** An optional 32-bit field at [cur]: [None] when the buffer ends before it. *)
Definition optional_field (present : bool) (data : list Z) (cur : Z) : run (option (option Z * Z)) :=
  if present then
    if len data <? cur ⊕ 4 then mret None
    else v ← read_be data cur 4; mret (Some (Some v, cur ⊕ 4))
  else mret (Some (None, cur)).

Definition parse_tfhd_defaults (data : list Z) (traf_start traf_len : Z) : run (option TfhdDefaults) :=
  tfhd ← find_child_box data (traf_start ⊕ 8) (traf_start ⊕ traf_len) (lit "tfhd");
  match tfhd with
  | None => mret None
  | Some (tfhd_off, tfhd_len) =>
      if ((tfhd_len <? 16) || (len data <? tfhd_off ⊕ tfhd_len))%bool then mret None else
      flags ← read_be data (tfhd_off ⊕ 9) 3;
      let cur := tfhd_off ⊕ 12 in
      let cur := if has flags 1 then cur ⊕ 8 else cur in
      let cur := if has flags 2 then cur ⊕ 4 else cur in
      let cur := cur ⊕ 4 in
      duration ← optional_field (has flags 8) data cur;
      match duration with
      | None => mret None
      | Some (duration, cur) =>
          size ← optional_field (has flags 16) data cur;
          match size with
          | None => mret None
          | Some (size, _) => mret (Some (mkTfhdDefaults duration size))
          end
      end
  end.

(** The entries of a track run: only the sizes are read, and only they are checked. *)
Fixpoint sample_entries (n : nat) (data : list Z) (cur flags : Z) (default_size : option Z) : run (option (list Z)) :=
  match n with
  | O => mret (Some [])
  | S k =>
      let cur := if has flags 256 then cur ⊕ 4 else cur in
      size ← optional_field (has flags 512) data cur;
      match size with
      | None => mret None
      | Some (size, cur) =>
          let cur := if has flags 1024 then cur ⊕ 4 else cur in
          let cur := if has flags 2048 then cur ⊕ 4 else cur in
          rest ← sample_entries k data cur flags default_size;
          mret (cons (default (default 0 default_size) size) <$> rest)
      end
  end.

Definition parse_trun (data : list Z) (traf_start traf_len trun_start trun_len : Z) : run (option TrunInfo) :=
  if ((trun_len <? 16) || (len data <? trun_start ⊕ trun_len))%bool then mret None else
  flags ← read_be data (trun_start ⊕ 9) 3;
  sample_count ← read_be data (trun_start ⊕ 12) 4;
  let cur := trun_start ⊕ 16 in
  offset ← optional_field (has flags 1) data cur;
  match offset with
  | None => mret None
  | Some (offset, next) =>
      let cur := if has flags 4 then next ⊕ 4 else next in
      default_size ← (if has flags 512 then mret None
                      else d ← parse_tfhd_defaults data traf_start traf_len; mret (d ≫= default_sample_size));
      sizes ← sample_entries (Z.to_nat sample_count) data cur flags default_size;
      match sizes with
      | None => mret None
      | Some sizes =>
          mret (Some (mkTrunInfo sample_count (if has flags 1 then Some (trun_start ⊕ 16) else None)
                                 (swrap 32 (default 0 offset)) sizes))
      end
  end.

(** ** The reference: tables rendered from their fields *)

Record TrunSample := mkTrunSample { s_duration : Z; s_size : Z; s_flags : Z; s_ctts : Z }.

Definition word (present : bool) (v : Z) : list Z := if present then to_be 4 v else [].

Definition render_entry (flags : Z) (s : TrunSample) : list Z :=
  word (has flags 256) (s_duration s) ++ word (has flags 512) (s_size s) ++
  word (has flags 1024) (s_flags s) ++ word (has flags 2048) (s_ctts s).

(** The body of a [trun] box: version 0 and the flags, the count, the optional fields, the entries. *)
Definition render_trun (flags offset first_flags : Z) (samples : list TrunSample) : list Z :=
  [0] ++ to_be 3 flags ++ to_be 4 (len samples) ++ word (has flags 1) offset ++ word (has flags 4) first_flags ++
  concat (render_entry flags <$> samples).

(** The body of a [tfhd] box. *)
Definition render_tfhd (flags track_id base sdi duration size : Z) : list Z :=
  [0] ++ to_be 3 flags ++ to_be 4 track_id ++ (if has flags 1 then to_be 8 base else []) ++
  word (has flags 2) sdi ++ word (has flags 8) duration ++ word (has flags 16) size.

(** ** Lemmas *)

Lemma read_be_mid pre mid post a n :
  a = len pre -> n = len mid -> len pre + len mid < 2 ^ 64 -> read_be (pre ++ mid ++ post) a n = Done (from_be mid).
Proof.
  intros -> -> Hb. pose proof (len_nonneg pre). pose proof (len_nonneg mid). unfold read_be. nowrap.
  by rewrite slice_mid by lia.
Qed.

Lemma read_to_be pre n v post a m :
  a = len pre -> m = Z.of_nat n -> len pre + Z.of_nat n < 2 ^ 64 ->
  read_be (pre ++ to_be n v ++ post) a m = Done (v mod 256 ^ Z.of_nat n).
Proof. intros -> -> Hb. rewrite read_be_mid by (rewrite ?len_to_be; lia). by rewrite from_to_be. Qed.

Lemma len_word present v : len (word present v) = if present then 4 else 0.
Proof. by destruct present; cbn [word]; [rewrite len_to_be|]. Qed.
#[export] Hint Rewrite len_word : peerless_rw.

Lemma optional_field_word present pre v post data :
  0 <= v < 2 ^ 32 -> data = pre ++ word present v ++ post -> len data < 2 ^ 63 ->
  optional_field present data (len pre) =
  Done (Some (if present then Some v else None, len pre + len (word present v))).
Proof.
  intros Hv -> Hlen. unfold optional_field. pose proof (len_nonneg pre). pose proof (len_nonneg post).
  revert Hlen. lens. destruct present; [|intros _; by rewrite Z.add_0_r]. intros Hlen. cbn [word]. nowrap.
  decide_le. rewrite read_to_be by lia. run_simpl. by rewrite Z.mod_small by (change (256 ^ Z.of_nat 4) with (2 ^ 32); lia).
Qed.

Definition entry_len (flags : Z) : Z :=
  (if has flags 256 then 4 else 0) + (if has flags 512 then 4 else 0) +
  (if has flags 1024 then 4 else 0) + (if has flags 2048 then 4 else 0).

Lemma len_entry flags s : len (render_entry flags s) = entry_len flags.
Proof. unfold render_entry, entry_len. lens. lia. Qed.

(** Reading the entries back gives the sizes, explicit or by default. *)
Lemma sample_entries_render flags d samples pre post data :
  Forall (fun s => 0 <= s_size s < 2 ^ 32) samples ->
  data = pre ++ concat (render_entry flags <$> samples) ++ post -> len data < 2 ^ 63 ->
  sample_entries (length samples) data (len pre) flags d =
  Done (Some ((fun s => if has flags 512 then s_size s else default 0 d) <$> samples)).
Proof.
  intros Hs. revert pre. induction Hs as [|s samples Hs _ IH]; intros pre Hd Hlen; [done|].
  cbn [length sample_entries]. csimpl.
  assert (Hd2 : data = (pre ++ word (has flags 256) (s_duration s)) ++ word (has flags 512) (s_size s) ++
      (word (has flags 1024) (s_flags s) ++ word (has flags 2048) (s_ctts s) ++
       concat (render_entry flags <$> samples) ++ post)).
  { rewrite Hd. csimpl. unfold render_entry at 1. by rewrite <-!app_assoc. }
  assert (Hb : len pre + entry_len flags <= len data).
  { rewrite Hd. csimpl. lens. rewrite len_entry. pose proof (len_nonneg post).
    pose proof (len_nonneg (concat (render_entry flags <$> samples))). lia. }
  assert (Hpre : 0 <= len pre < 2 ^ 63).
  { pose proof (len_nonneg pre). unfold entry_len in Hb. repeat case_match; lia. }
  clear Hb.
  replace (if has flags 256 then len pre ⊕ 4 else len pre) with (len (pre ++ word (has flags 256) (s_duration s)))
    by (lens; destruct (has flags 256); nowrap; lia).
  rewrite (optional_field_word _ _ _ _ _ Hs Hd2 Hlen). run_simpl.
  match goal with |- context [sample_entries _ _ ?c _ _] =>
    replace c with (len (pre ++ render_entry flags s)) end.
  2: { rewrite len_app, len_entry. unfold entry_len. lens.
    destruct (has flags 256), (has flags 512), (has flags 1024), (has flags 2048); nowrap; lia. }
  rewrite IH; [|rewrite Hd; csimpl; by rewrite <-!app_assoc|done]. run_simpl. cbn. by destruct (has flags 512).
Qed.

Lemma len_entries flags samples : len (concat (render_entry flags <$> samples)) = len samples * entry_len flags.
Proof.
  induction samples as [|s l IH]; [done|]. csimpl. rewrite len_app, len_entry, IH, len_cons. lia.
Qed.

(** The three bytes of the flags, after the version. *)
Lemma read_flags pre flags rest a :
  a = len pre + 1 -> 0 <= flags < 2 ^ 24 -> len pre < 2 ^ 63 ->
  read_be (pre ++ [0] ++ to_be 3 flags ++ rest) a 3 = Done flags.
Proof.
  intros -> Hf Hl. pose proof (len_nonneg pre). rewrite app_assoc, read_to_be by (lens; lia).
  by rewrite Z.mod_small by (change (256 ^ Z.of_nat 3) with (2 ^ 24); lia).
Qed.

(** The first box of its type, among the boxes of a parent whose header ends at [len pre]. *)
Lemma find_first pre bs1 b bs2 post start size :
  Forall box_ok (bs1 ++ b :: bs2) -> len (pre ++ renders (bs1 ++ b :: bs2) ++ post) < 2 ^ 63 ->
  Forall (fun x => kind x <> kind b) bs1 ->
  start = len pre -> size = len pre + len (renders (bs1 ++ b :: bs2)) ->
  find_child_box (pre ++ renders (bs1 ++ b :: bs2) ++ post) start size (kind b) =
  Done (Some (len pre + len (renders bs1), bsize b)).
Proof.
  intros Hok Hlen Hn -> ->. rewrite find_child_render by done. apply Forall_app in Hok as [Hok _].
  rewrite picked_app by done. assert (picked (kind_is (kind b)) (len pre) bs1 = []) as ->.
  { clear Hok Hlen. generalize (len pre). induction Hn as [|x l Hx _ IH]; intros o; [done|]. cbn [picked].
    unfold kind_is at 1. rewrite bool_decide_eq_false_2 by done. apply IH. }
  cbn [picked app]. unfold kind_is. by rewrite bool_decide_eq_true_2.
Qed.

Lemma parse_tfhd_render pre bs1 b bs2 post flags track_id base sdi duration size start traf_len :
  Forall box_ok (bs1 ++ b :: bs2) -> len (pre ++ renders (bs1 ++ b :: bs2) ++ post) < 2 ^ 63 ->
  kind b = lit "tfhd" -> Forall (fun x => kind x <> lit "tfhd") bs1 ->
  body b = render_tfhd flags track_id base sdi duration size ->
  0 <= flags < 2 ^ 24 -> 0 <= duration < 2 ^ 32 -> 0 <= size < 2 ^ 32 ->
  0 <= start -> start + 8 = len pre -> traf_len = 8 + len (renders (bs1 ++ b :: bs2)) ->
  parse_tfhd_defaults (pre ++ renders (bs1 ++ b :: bs2) ++ post) start traf_len =
  Done (Some (mkTfhdDefaults (if has flags 8 then Some duration else None) (if has flags 16 then Some size else None))).
Proof.
  intros Hok Hlen Hk Hn Hbody Hf Hd Hz H0 Hpre ->. unfold parse_tfhd_defaults.
  assert (Hall : len (pre ++ renders (bs1 ++ b :: bs2) ++ post) =
    len pre + len (renders bs1) + bsize b + len (renders bs2) + len post).
  { lens. rewrite len_render; [lia|]. apply Forall_app in Hok as [_ Hr]. by inversion Hr. }
  assert (Hrs : len (renders (bs1 ++ b :: bs2)) = len (renders bs1) + bsize b + len (renders bs2)) by (lens; lia).
  set (data := pre ++ renders (bs1 ++ b :: bs2) ++ post) in *.
  assert (Hbs : bsize b = 16 + (if has flags 1 then 8 else 0) + (if has flags 2 then 4 else 0) +
                          (if has flags 8 then 4 else 0) + (if has flags 16 then 4 else 0)).
  { unfold bsize. rewrite Hbody. unfold render_tfhd. lens. repeat case_match; lens; lia. }
  pose proof (len_nonneg pre). pose proof (len_nonneg post). pose proof (len_nonneg (renders bs1)).
  pose proof (len_nonneg (renders bs2)). assert (16 <= bsize b) by (repeat case_match; lia).
  assert (Hfind : find_child_box data (start ⊕ 8) (start ⊕ (8 + len (renders (bs1 ++ b :: bs2)))) (lit "tfhd") =
                  Done (Some (len pre + len (renders bs1), bsize b))).
  { rewrite <-Hk in Hn |- *. apply find_first; [done..| |]; nowrap; lia. }
  rewrite Hfind. run_simpl. nowrap. decide_le.
  set (o := len pre + len (renders bs1)) in *.
  assert (Hdata : exists p q, data = p ++ [0] ++ to_be 3 flags ++ to_be 4 track_id ++
     (if has flags 1 then to_be 8 base else []) ++ word (has flags 2) sdi ++ word (has flags 8) duration ++
     word (has flags 16) size ++ q /\ len p = o + 8).
  { exists (pre ++ renders bs1 ++ to_be 4 (bsize b) ++ kind b), (renders bs2 ++ post). split.
    - unfold data. rewrite renders_app, renders_cons. unfold render. rewrite Hbody. unfold render_tfhd. by rewrite <-!app_assoc.
    - apply Forall_app in Hok as [_ Hr]. inversion Hr as [|? ? [Hkl _]]. lens. lia. }
  destruct Hdata as (p & q & Hdata & Hp). rewrite Hdata at 1. rewrite read_flags by lia. run_simpl.
  set (p1 := p ++ [0] ++ to_be 3 flags ++ to_be 4 track_id ++ (if has flags 1 then to_be 8 base else []) ++ word (has flags 2) sdi).
  match goal with |- context [optional_field _ _ ?c] => replace c with (len p1) end.
  2: { subst p1. lens. destruct (has flags 1), (has flags 2), (has flags 8), (has flags 16); nowrap; lens; lia. }
  rewrite (optional_field_word (has flags 8) p1 duration (word (has flags 16) size ++ q)); [|done| |lia].
  2: { rewrite Hdata. subst p1. by rewrite <-!app_assoc. }
  run_simpl. rewrite <-len_app.
  rewrite (optional_field_word (has flags 16) (p1 ++ word (has flags 8) duration) size q); [done|done| |lia].
  rewrite Hdata. subst p1. by rewrite <-!app_assoc.
Qed.

(** The sizes a run gives its samples: its own, or the default of the fragment's header. *)
Definition sizes_of (flags : Z) (d : option TfhdDefaults) (samples : list TrunSample) : list Z :=
  (fun s => if has flags 512 then s_size s else default 0 (d ≫= default_sample_size)) <$> samples.

Lemma parse_trun_render pre b post flags offset first_flags samples d traf_start traf_len :
  box_ok b -> len (pre ++ render b ++ post) < 2 ^ 63 -> body b = render_trun flags offset first_flags samples ->
  0 <= flags < 2 ^ 24 -> 0 <= offset < 2 ^ 32 -> len samples < 2 ^ 32 ->
  Forall (fun s => 0 <= s_size s < 2 ^ 32) samples ->
  (has flags 512 = false -> parse_tfhd_defaults (pre ++ render b ++ post) traf_start traf_len = Done d) ->
  parse_trun (pre ++ render b ++ post) traf_start traf_len (len pre) (bsize b) =
  Done (Some (mkTrunInfo (len samples) (if has flags 1 then Some (len pre + 16) else None)
                         (if has flags 1 then swrap 32 offset else 0) (sizes_of flags d samples))).
Proof.
  intros Hb Hlen Hbody Hf Ho Hc Hs Hd. pose proof (len_nonneg pre). pose proof (len_nonneg post).
  assert (Hall : len (pre ++ render b ++ post) = len pre + bsize b + len post) by (lens; rewrite len_render by done; lia).
  set (data := pre ++ render b ++ post) in *.
  set (entries := concat (render_entry flags <$> samples)).
  pose proof (len_nonneg entries).
  assert (Hbs : bsize b = 16 + (if has flags 1 then 4 else 0) + (if has flags 4 then 4 else 0) + len entries).
  { unfold bsize. rewrite Hbody. unfold render_trun. fold entries. lens. lia. }
  assert (16 <= bsize b) by (repeat case_match; lia).
  pose proof (len_nonneg samples).
  unfold parse_trun. nowrap. decide_le.
  assert (Hdata : exists p, data = p ++ [0] ++ to_be 3 flags ++ to_be 4 (len samples) ++
     word (has flags 1) offset ++ word (has flags 4) first_flags ++ entries ++ post /\ len p = len pre + 8).
  { exists (pre ++ to_be 4 (bsize b) ++ kind b). split.
    - unfold data, render. rewrite Hbody. unfold render_trun. by rewrite <-!app_assoc.
    - destruct Hb. lens. lia. }
  destruct Hdata as (p & Hdata & Hp).
  assert (Hflags : read_be data (len pre + 9) 3 = Done flags) by (rewrite Hdata; apply read_flags; lia).
  assert (Hcount : read_be data (len pre + 12) 4 = Done (len samples)).
  { rewrite Hdata. replace (p ++ [0] ++ to_be 3 flags ++ to_be 4 (len samples) ++ word (has flags 1) offset ++
      word (has flags 4) first_flags ++ entries ++ post) with ((p ++ [0] ++ to_be 3 flags) ++ to_be 4 (len samples) ++
      (word (has flags 1) offset ++ word (has flags 4) first_flags ++ entries ++ post)) by (by rewrite <-!app_assoc).
    rewrite read_to_be by (lens; lia). by rewrite Z.mod_small by (change (256 ^ Z.of_nat 4) with (2 ^ 32); lia). }
  rewrite Hflags. run_simpl. rewrite Hcount. run_simpl.
  set (p1 := p ++ [0] ++ to_be 3 flags ++ to_be 4 (len samples)).
  assert (Hp1 : len pre + 16 = len p1) by (subst p1; lens; lia).
  assert (Hd1 : data = p1 ++ word (has flags 1) offset ++ (word (has flags 4) first_flags ++ entries ++ post))
    by (rewrite Hdata; subst p1; by rewrite <-!app_assoc).
  rewrite Hp1, (optional_field_word (has flags 1) p1 offset _ data Ho Hd1 Hlen). run_simpl.
  rewrite len_to_nat. match goal with |- context [sample_entries _ _ ?c _ _] =>
    replace c with (len (p1 ++ word (has flags 1) offset ++ word (has flags 4) first_flags)) end.
  2: { assert (len p1 + 16 < 2 ^ 64) by (rewrite <-Hp1; repeat case_match; lia).
       pose proof (len_nonneg p1). lens. destruct (has flags 1), (has flags 4); nowrap; lia. }
  assert (Hsizes : forall o, sample_entries (length samples) data
       (len (p1 ++ word (has flags 1) offset ++ word (has flags 4) first_flags)) flags o =
     Done (Some ((fun s => if has flags 512 then s_size s else default 0 o) <$> samples))).
  { intros o. apply (sample_entries_render flags o samples _ post); [done| |done].
    rewrite Hd1. by rewrite <-!app_assoc. }
  assert (Hbind : (if has flags 512 then mret None
     else d ← parse_tfhd_defaults data traf_start traf_len; mret (d ≫= default_sample_size)) =
     (Done (if has flags 512 then None else d ≫= default_sample_size) : run _)).
  { destruct (has flags 512); [done|]. by rewrite (Hd eq_refl). }
  rewrite Hbind. run_simpl. rewrite Hsizes. run_simpl. unfold sizes_of.
  destruct (has flags 1), (has flags 512); reflexivity.
Qed.

Definition is_run : Box -> bool := kind_is (lit "trun").

(** The first box of a kind. *)
Definition first_is (b : Box) (bs : list Box) : Prop :=
  exists bs1 bs2, bs = bs1 ++ b :: bs2 /\ Forall (fun x => kind x <> kind b) bs1.

(** The fields of a track run, with the defaults of its fragment header. *)
Record trun_fields := mkTrunFields { tr_flags : Z; tr_offset : Z; tr_first_flags : Z; tr_samples : list TrunSample }.
Record tfhd_fields := mkTfhdFields { th_flags : Z; th_track : Z; th_base : Z; th_sdi : Z; th_duration : Z; th_size : Z }.

Definition trun_box (t : trun_fields) : Box :=
  mkBox (lit "trun") (render_trun (tr_flags t) (tr_offset t) (tr_first_flags t) (tr_samples t)).
Definition tfhd_box (h : tfhd_fields) : Box :=
  mkBox (lit "tfhd") (render_tfhd (th_flags h) (th_track h) (th_base h) (th_sdi h) (th_duration h) (th_size h)).

Definition trun_ok (t : trun_fields) : Prop :=
  0 <= tr_flags t < 2 ^ 24 /\ 0 <= tr_offset t < 2 ^ 32 /\ len (tr_samples t) < 2 ^ 32 /\
  Forall (fun s => 0 <= s_size s < 2 ^ 32) (tr_samples t).
Definition tfhd_ok (h : tfhd_fields) : Prop :=
  0 <= th_flags h < 2 ^ 24 /\ 0 <= th_duration h < 2 ^ 32 /\ 0 <= th_size h < 2 ^ 32.

Lemma parse_trun_fields (pre post : list Z) (bs1 bs2 cs1 cs2 : list Box) (t : trun_fields) (h : tfhd_fields)
    (traf_start : Z) :
  bs1 ++ trun_box t :: bs2 = cs1 ++ tfhd_box h :: cs2 -> Forall (fun x => kind x <> lit "tfhd") cs1 ->
  Forall box_ok (bs1 ++ trun_box t :: bs2) -> len (pre ++ renders (bs1 ++ trun_box t :: bs2) ++ post) < 2 ^ 63 ->
  trun_ok t -> tfhd_ok h -> 0 <= traf_start -> traf_start + 8 = len pre ->
  parse_trun (pre ++ renders (bs1 ++ trun_box t :: bs2) ++ post) traf_start
    (8 + len (renders (bs1 ++ trun_box t :: bs2))) (len pre + len (renders bs1)) (bsize (trun_box t)) =
  Done (Some (mkTrunInfo (len (tr_samples t))
    (if has (tr_flags t) 1 then Some (len pre + len (renders bs1) + 16) else None)
    (if has (tr_flags t) 1 then swrap 32 (tr_offset t) else 0)
    ((fun s => if has (tr_flags t) 512 then s_size s else if has (th_flags h) 16 then th_size h else 0) <$> tr_samples t))).
Proof.
  intros Hsplit Hn Hok Hlen (Hf & Ho & Hc & Hs) (Hhf & Hhd & Hhs) H0 Hpre.
  assert (Htfhd := parse_tfhd_render pre cs1 (tfhd_box h) cs2 post (th_flags h) (th_track h) (th_base h) (th_sdi h)
    (th_duration h) (th_size h) traf_start (8 + len (renders (cs1 ++ tfhd_box h :: cs2)))).
  rewrite <-Hsplit in Htfhd. specialize (Htfhd Hok Hlen eq_refl Hn eq_refl Hhf Hhd Hhs H0 Hpre eq_refl).
  assert (Hb : box_ok (trun_box t)) by (apply Forall_app in Hok as [_ Hr]; by inversion Hr).
  assert (Hdata : pre ++ renders (bs1 ++ trun_box t :: bs2) ++ post =
    (pre ++ renders bs1) ++ render (trun_box t) ++ (renders bs2 ++ post))
    by (by rewrite renders_app, renders_cons, <-!app_assoc).
  rewrite <-len_app. rewrite Hdata in Hlen, Htfhd |- *.
  rewrite (parse_trun_render (pre ++ renders bs1) (trun_box t) (renders bs2 ++ post) (tr_flags t) (tr_offset t)
    (tr_first_flags t) (tr_samples t) _ traf_start _ Hb Hlen eq_refl Hf Ho Hc Hs (fun _ => Htfhd)).
  unfold sizes_of. cbn. by destruct (has (th_flags h) 16).
Qed.

(** ** Theorems *)

(** Parsing inverts rendering.  In a track fragment whose first [tfhd] box is [h], the run [t] is read as it was
    written: its count, the place and the signed value of its data offset, and the size of each sample, its
    own when the run carries sizes and the fragment's default otherwise. *)
Theorem parse_trun_roundtrip (pre post : list Z) (bs1 bs2 cs1 cs2 : list Box) (t : trun_fields) (h : tfhd_fields)
    (traf_start : Z) :
  bs1 ++ trun_box t :: bs2 = cs1 ++ tfhd_box h :: cs2 -> Forall (fun x => kind x <> lit "tfhd") cs1 ->
  Forall box_ok (bs1 ++ trun_box t :: bs2) -> len (pre ++ renders (bs1 ++ trun_box t :: bs2) ++ post) < 2 ^ 63 ->
  trun_ok t -> tfhd_ok h -> 0 <= traf_start -> traf_start + 8 = len pre ->
  parse_trun (pre ++ renders (bs1 ++ trun_box t :: bs2) ++ post) traf_start
    (8 + len (renders (bs1 ++ trun_box t :: bs2))) (len pre + len (renders bs1)) (bsize (trun_box t)) =
  Done (Some (mkTrunInfo (len (tr_samples t))
    (if has (tr_flags t) 1 then Some (len pre + len (renders bs1) + 16) else None)
    (if has (tr_flags t) 1 then swrap 32 (tr_offset t) else 0)
    ((fun s => if has (tr_flags t) 512 then s_size s else if has (th_flags h) 16 then th_size h else 0) <$> tr_samples t))).
Proof. apply parse_trun_fields. Qed.

Definition demo_trun : trun_fields := mkTrunFields 1 44 0 [mkTrunSample 0 0 0 0; mkTrunSample 0 0 0 0].
Definition demo_tfhd : tfhd_fields := mkTfhdFields 0x020018 1 0 0 1536 3072.

Lemma demo_traf_ok : Forall box_ok [tfhd_box demo_tfhd; trun_box demo_trun].
Proof. repeat (apply Forall_cons; split; [split; by vm_compute|]). apply Forall_nil_2. Qed.

(** A run without sizes takes the default of the header, as in the tests of the source. *)
Lemma parse_trun_roundtrip_witness :
  parse_trun (to_be 4 52 ++ lit "traf" ++ renders [tfhd_box demo_tfhd; trun_box demo_trun] ++ []) 0 52 32 20 =
  Done (Some (mkTrunInfo 2 (Some 48) 44 [3072; 3072])).
Proof.
  assert (Hs : Forall (fun s => 0 <= s_size s < 2 ^ 32) (tr_samples demo_trun))
    by (repeat (apply Forall_cons; split; [cbn; lia|]); apply Forall_nil_2).
  rewrite app_assoc.
  exact (parse_trun_roundtrip (to_be 4 52 ++ lit "traf") [] [tfhd_box demo_tfhd] [] [] [trun_box demo_trun] demo_trun
    demo_tfhd 0 eq_refl (Forall_nil_2 _) demo_traf_ok ltac:(by vm_compute)
    ltac:(split_and!; [by vm_compute..|exact Hs]) ltac:(by vm_compute) ltac:(by vm_compute) ltac:(by vm_compute)).
Defined.
