(* ===== verification/Senc.v ===== *)
(** * Senc: the sample encryption table (crates/apple/src/wrapper/cenc.rs, [parse_senc_samples])

    The table does not say how long its initialisation vectors are; the parser tries lengths until one
    uses up the box exactly.  The theorems say when that finds the table that was written. *)
From S2P Require Import Prelude Text Bytes Boxes TrackRuns.

#[local] Open Scope rust_scope.

Record SencSample := mkSencSample {
  iv : list Z;
  subsamples : list (Z * Z);       (* clear and protected bytes *)
}.

(** [data.get(a..b)] is [slice data a b]. *)
Fixpoint parse_subsamples (n : nat) (data : list Z) (pos : Z) : option (list (Z * Z) * Z) :=
  match n with
  | O => Some ([], pos)
  | S k =>
      clear ← slice data pos (pos ⊕ 2);
      protected ← slice data (pos ⊕ 2) (pos ⊕ 6);
      '(rest, pos) ← parse_subsamples k data (pos ⊕ 6);
      Some ((from_be clear, from_be protected) :: rest, pos)
  end.

Definition parse_sample (has_subsamples : bool) (iv_size : Z) (data : list Z) (pos : Z) : option (SencSample * Z) :=
  '(iv, pos) ← (if 0 <? iv_size then v ← slice data pos (pos ⊕ iv_size); Some (v, pos ⊕ iv_size) else Some ([], pos));
  if has_subsamples then
    count ← slice data pos (pos ⊕ 2);
    '(subs, pos) ← parse_subsamples (Z.to_nat (from_be count)) data (pos ⊕ 2);
    Some (mkSencSample iv subs, pos)
  else Some (mkSencSample iv [], pos).

Fixpoint parse_samples (n : nat) (has_subsamples : bool) (iv_size : Z) (data : list Z) (pos : Z) :
    option (list SencSample * Z) :=
  match n with
  | O => Some ([], pos)
  | S k =>
      '(sample, pos) ← parse_sample has_subsamples iv_size data pos;
      '(rest, pos) ← parse_samples k has_subsamples iv_size data pos;
      Some (sample :: rest, pos)
  end.

(** The closure [try_parse]. *)
Definition try_parse (data : list Z) (start len sample_count : Z) (has_subsamples : bool) (iv_size : Z) :
    option (list SencSample) :=
  '(samples, pos) ← parse_samples (Z.to_nat sample_count) has_subsamples iv_size data (start ⊕ 16);
  if pos =? start ⊕ len then Some samples else None.

Definition parse_senc_samples (data : list Z) (start length : Z) : run (option (list SencSample)) :=
  if ((length <? 16) || (len data <? start ⊕ length))%bool then mret None else
  flags ← read_be data (start ⊕ 9) 3;
  let has_subsamples := has flags 2 in
  sample_count ← read_be data (start ⊕ 12) 4;
  let body_len := length - 16 in
  if has_subsamples then mret (find_map (try_parse data start length sample_count has_subsamples) [0; 8; 16])
  else
    let iv_size := body_len / Z.max sample_count 1 in
    mret (if bool_decide (iv_size ∈ [0; 8; 16]) then try_parse data start length sample_count has_subsamples iv_size
          else if body_len =? 0 then Some [] else None).

(** ** The reference: the table rendered from its samples *)

Definition render_subs (l : list (Z * Z)) : list Z := concat ((fun '(c, p) => to_be 2 c ++ to_be 4 p) <$> l).

Definition render_sample (subs : bool) (s : SencSample) : list Z :=
  iv s ++ (if subs then to_be 2 (len (subsamples s)) ++ render_subs (subsamples s) else []).

Definition render_samples (subs : bool) (l : list SencSample) : list Z := concat (render_sample subs <$> l).

Definition senc_box (subs : bool) (l : list SencSample) : Box :=
  mkBox (lit "senc") ([0] ++ to_be 3 (if subs then 2 else 0) ++ to_be 4 (len l) ++ render_samples subs l).

(** Samples of a fragment: vectors of one size, no subsamples in a table without them. *)
Record sample_ok (subs : bool) (iv_size : Z) (s : SencSample) : Prop := {
  iv_len : len (iv s) = iv_size;
  subs_len : len (subsamples s) < 2 ^ 16;
  subs_range : Forall (fun '(c, p) => 0 <= c < 2 ^ 16 /\ 0 <= p < 2 ^ 32) (subsamples s);
  subs_none : subs = false -> subsamples s = [];
}.

(** ** Reading what was written *)

Lemma render_subs_cons c p l : render_subs ((c, p) :: l) = to_be 2 c ++ to_be 4 p ++ render_subs l.
Proof. unfold render_subs. rewrite fmap_cons. cbn [concat]. by rewrite <-app_assoc. Qed.

Lemma render_samples_cons subs s l : render_samples subs (s :: l) = render_sample subs s ++ render_samples subs l.
Proof. reflexivity. Qed.

Ltac opt := cbn [mbind option_bind].

Section Reading.
Context (data : list Z) (Hlen : len data < 2 ^ 63).

Lemma parse_subsamples_render l pre post :
  Forall (fun '(c, p) => 0 <= c < 2 ^ 16 /\ 0 <= p < 2 ^ 32) l -> data = pre ++ render_subs l ++ post ->
  parse_subsamples (length l) data (len pre) = Some (l, len pre + len (render_subs l)).
Proof.
  intros Hl. revert pre. induction Hl as [|[c p] l [Hc Hp] _ IH]; intros pre Hd; [cbn; by rewrite Z.add_0_r|].
  rewrite render_subs_cons in *. cbn [length parse_subsamples].
  pose proof (len_nonneg pre). pose proof (len_nonneg (render_subs l)). pose proof (len_nonneg post).
  assert (len pre + 6 < 2 ^ 63) by (rewrite Hd in Hlen; revert Hlen; lens; lia).
  nowrap. rewrite Hd at 1. rewrite <-!app_assoc. rewrite slice_mid by (lens; lia). opt.
  rewrite Hd at 1. rewrite <-!app_assoc, app_assoc. rewrite slice_mid by (lens; lia). opt.
  replace (len pre + 6) with (len (pre ++ to_be 2 c ++ to_be 4 p)) by (lens; lia).
  rewrite IH by (rewrite Hd; by rewrite <-!app_assoc). opt.
  rewrite !from_to_be_small by (change (256 ^ Z.of_nat 2) with (2 ^ 16) || change (256 ^ Z.of_nat 4) with (2 ^ 32); lia).
  do 2 f_equal. lens. lia.
Qed.

Lemma parse_sample_render subs n s pre post :
  sample_ok subs n s -> data = pre ++ render_sample subs s ++ post ->
  parse_sample subs n data (len pre) = Some (s, len pre + len (render_sample subs s)).
Proof.
  intros [Hiv Hsl Hsr Hsn] Hd. destruct s as [v l]. cbn [iv subsamples] in *. unfold parse_sample.
  unfold render_sample in *. cbn [iv subsamples] in *. set (rest := if subs then _ else _) in *.
  pose proof (len_nonneg pre). pose proof (len_nonneg v). pose proof (len_nonneg post). pose proof (len_nonneg rest).
  assert (Hb : len pre + len v + len rest + len post < 2 ^ 63) by (rewrite Hd in Hlen; revert Hlen; lens; lia).
  assert (Hv : (if 0 <? n then v0 ← slice data (len pre) (len pre ⊕ n); Some (v0, len pre ⊕ n) else Some ([], len pre))
               = Some (v, len (pre ++ v))).
  { rewrite len_app. destruct (Z.ltb_spec 0 n).
    - nowrap. rewrite Hd, <-app_assoc, slice_mid by lia. opt. do 2 f_equal. lia.
    - assert (v = []) as ->; [|by rewrite len_nil, Z.add_0_r]. apply length_zero_iff_nil. unfold len in *. lia. }
  rewrite Hv. opt. subst rest. destruct subs.
  - pose proof (len_nonneg (render_subs l)). revert Hb. lens. intros Hb.
    nowrap. rewrite Hd at 1. rewrite <-!app_assoc, app_assoc. rewrite slice_mid by (lens; lia). opt.
    rewrite from_to_be_small by (change (256 ^ Z.of_nat 2) with (2 ^ 16); pose proof (len_nonneg l); lia).
    rewrite len_to_nat. replace (len pre + len v + 2) with (len (pre ++ v ++ to_be 2 (len l))) by (lens; lia).
    rewrite (parse_subsamples_render l _ post) by (done || (rewrite Hd; by rewrite <-!app_assoc)). opt.
    do 2 f_equal. lens. lia.
  - rewrite (Hsn eq_refl). do 2 f_equal. lens. lia.
Qed.

Lemma parse_samples_render subs n l pre post :
  Forall (sample_ok subs n) l -> data = pre ++ render_samples subs l ++ post ->
  parse_samples (length l) subs n data (len pre) = Some (l, len pre + len (render_samples subs l)).
Proof.
  intros Hl. revert pre. induction Hl as [|s l Hs _ IH]; intros pre Hd; [cbn; by rewrite Z.add_0_r|].
  cbn [length parse_samples]. rewrite render_samples_cons, <-?app_assoc in *.
  rewrite (parse_sample_render subs n s pre _ Hs Hd). opt. rewrite <-len_app.
  rewrite (IH (pre ++ render_sample subs s)) by (rewrite Hd; by rewrite <-app_assoc). opt.
  do 2 f_equal. lens. lia.
Qed.

(** What a parse of another size would use up: the vectors, the counts, six bytes per subsample. *)
Lemma parse_subsamples_pos n pos l pos' :
  0 <= pos -> parse_subsamples n data pos = Some (l, pos') -> pos' = pos + 6 * Z.of_nat n /\ (n = O \/ pos' <= len data).
Proof.
  revert pos l pos'. induction n as [|n IH]; intros pos l pos' Hp; cbn [parse_subsamples]; [intros [= <- <-]; split; [lia|by left]|].
  destruct (slice data pos (pos ⊕ 2)) as [a|] eqn:Ea; cbn; [|done].
  destruct (slice data (pos ⊕ 2) (pos ⊕ 6)) as [b|] eqn:Eb; cbn; [|done].
  apply slice_len in Ea as (_ & Ha & Ha2). apply slice_len in Eb as (_ & Hb & Hb2).
  assert (pos < 2 ^ 63) by lia. rewrite !uadd_small in * by lia.
  destruct (parse_subsamples n data (pos + 6)) as [[r q]|] eqn:Er; cbn; [|done]. intros [= <- <-].
  apply IH in Er as [-> Hor]; [|lia]. split; [lia|]. right. destruct Hor; lia.
Qed.

Lemma parse_sample_pos n s pos pos' :
  0 <= n < 2 ^ 32 -> 0 <= pos -> parse_sample true n data pos = Some (s, pos') ->
  exists k, pos' = pos + n + 2 + 6 * k /\ 0 <= k /\ pos' <= len data.
Proof.
  intros Hn Hp. unfold parse_sample.
  destruct (if 0 <? n then _ else _) as [[v q]|] eqn:Ev; cbn; [|done].
  assert (Hq : q = pos + n /\ 0 <= q).
  { destruct (Z.ltb_spec 0 n); [|simplify_eq; lia].
    destruct (slice data pos (pos ⊕ n)) as [w|] eqn:Ew; cbn in Ev; [|done]. simplify_eq.
    apply slice_len in Ew as (_ & Hw & Hw2). rewrite uadd_small by lia. lia. }
  destruct (slice data q (q ⊕ 2)) as [c|] eqn:Ec; cbn; [|done].
  apply slice_len in Ec as (_ & Hc & Hc2). rewrite !uadd_small in * by lia.
  destruct (parse_subsamples _ data (q + 2)) as [[l r]|] eqn:El; cbn; [|done]. intros [= <- <-].
  apply parse_subsamples_pos in El as [-> Hor]; [|lia]. exists (Z.of_nat (Z.to_nat (from_be c))). split_and!; lia.
Qed.

Lemma parse_samples_pos m n l pos pos' :
  0 <= n < 2 ^ 32 -> 0 <= pos -> parse_samples m true n data pos = Some (l, pos') ->
  exists k, pos' = pos + Z.of_nat m * (n + 2) + 6 * k.
Proof.
  intros Hn. revert l pos pos'. induction m as [|m IH]; intros l pos pos' Hp; cbn [parse_samples].
  - intros [= <- <-]. exists 0. lia.
  - destruct (parse_sample true n data pos) as [[s q]|] eqn:Es; cbn; [|done].
    apply parse_sample_pos in Es as (k & Hk & Hk0 & _); [|done..].
    destruct (parse_samples m true n data q) as [[r p]|] eqn:Er; cbn; [|done]. intros [= <- <-].
    apply IH in Er as [k' ->]; [|lia]. exists (k + k'). lia.
Qed.
End Reading.

Lemma len_render_subs l : len (render_subs l) = 6 * len l.
Proof. induction l as [|[c p] l IH]; [done|]. rewrite render_subs_cons. lens. lia. Qed.

Lemma len_render_samples n l :
  Forall (sample_ok true n) l -> exists k, len (render_samples true l) = len l * (n + 2) + 6 * k.
Proof.
  induction 1 as [|s l [Hs _ _ _] _ [k IH]]; [by exists 0|]. exists (k + len (subsamples s)).
  rewrite render_samples_cons. unfold render_sample. lens. rewrite len_render_subs. lia.
Qed.

Lemma len_render_samples_plain n l : Forall (sample_ok false n) l -> len (render_samples false l) = len l * n.
Proof.
  induction 1 as [|s l [Hs _ _ _] _ IH]; [done|]. rewrite render_samples_cons. unfold render_sample. lens. lia.
Qed.

(** The table of a rendered [senc] box, in parts. *)
Lemma senc_split subs l pre post :
  box_ok (senc_box subs l) -> len (pre ++ render (senc_box subs l) ++ post) < 2 ^ 63 -> len l < 2 ^ 32 ->
  let data := pre ++ render (senc_box subs l) ++ post in
  let table := pre ++ to_be 4 (bsize (senc_box subs l)) ++ lit "senc" ++ [0] ++ to_be 3 (if subs then 2 else 0) ++ to_be 4 (len l) in
  data = table ++ render_samples subs l ++ post /\ len table = len pre + 16 /\
  bsize (senc_box subs l) = 16 + len (render_samples subs l) /\
  read_be data (len pre + 9) 3 = Done (if subs then 2 else 0) /\ read_be data (len pre + 12) 4 = Done (len l).
Proof.
  intros Hok Hlen Hl data table. assert (Ht : len table = len pre + 16) by (subst table; lens; done).
  assert (Hb : bsize (senc_box subs l) = 16 + len (render_samples subs l)).
  { unfold bsize, senc_box. cbn [body]. lens. lia. }
  assert (Hd : data = table ++ render_samples subs l ++ post).
  { subst data table. unfold render, senc_box. cbn [kind body]. by rewrite <-!app_assoc. }
  pose proof (len_nonneg pre). pose proof (len_nonneg l). pose proof (len_nonneg post).
  assert (len data = len pre + 16 + len (render_samples subs l) + len post) by (rewrite Hd; lens; lia).
  pose proof (len_nonneg (render_samples subs l)). fold data in Hlen.
  split_and!; [done..| |].
  - replace data with ((pre ++ to_be 4 (bsize (senc_box subs l)) ++ lit "senc") ++ [0] ++ to_be 3 (if subs then 2 else 0) ++
      (to_be 4 (len l) ++ render_samples subs l ++ post)) by (rewrite Hd; subst table; by rewrite <-!app_assoc).
    apply read_flags; [by lens; change (len (lit "senc")) with 4; lia|by destruct subs|lens; change (len (lit "senc")) with 4; lia].
  - replace data with ((pre ++ to_be 4 (bsize (senc_box subs l)) ++ lit "senc" ++ [0] ++ to_be 3 (if subs then 2 else 0)) ++
      to_be 4 (len l) ++ (render_samples subs l ++ post)) by (rewrite Hd; subst table; by rewrite <-!app_assoc).
    rewrite read_to_be by (lens; change (len (lit "senc")) with 4; lia).
    by rewrite Z.mod_small by (change (256 ^ Z.of_nat 4) with (2 ^ 32); lia).
Qed.

Lemma try_parse_render subs n l pre post :
  box_ok (senc_box subs l) -> len (pre ++ render (senc_box subs l) ++ post) < 2 ^ 63 -> len l < 2 ^ 32 ->
  Forall (sample_ok subs n) l ->
  try_parse (pre ++ render (senc_box subs l) ++ post) (len pre) (bsize (senc_box subs l)) (len l) subs n = Some l.
Proof.
  intros Hok Hlen Hl Hs. destruct (senc_split subs l pre post Hok Hlen Hl) as (Hd & Ht & Hb & _ & _).
  pose proof (len_nonneg pre). pose proof (len_nonneg (render_samples subs l)).
  assert (len pre + bsize (senc_box subs l) < 2 ^ 63).
  { revert Hlen. lens. rewrite len_render by done. pose proof (len_nonneg post). lia. }
  unfold try_parse. nowrap. rewrite <-Ht, len_to_nat, (parse_samples_render _ Hlen subs n l _ post Hs Hd).
  opt. rewrite Ht, Hb. by decide_le.
Qed.

(** No other vector length uses up the table, unless the number of samples is a multiple of three. *)
Lemma try_parse_other n n' l pre post :
  box_ok (senc_box true l) -> len (pre ++ render (senc_box true l) ++ post) < 2 ^ 63 -> len l < 2 ^ 32 ->
  Forall (sample_ok true n) l -> len l mod 3 <> 0 -> n' ∈ [0; 8; 16] -> n ∈ [0; 8; 16] -> n <> n' ->
  try_parse (pre ++ render (senc_box true l) ++ post) (len pre) (bsize (senc_box true l)) (len l) true n' = None.
Proof.
  intros Hok Hlen Hl Hs H3 Hn' Hn Hne. destruct (senc_split true l pre post Hok Hlen Hl) as (_ & _ & Hb & _ & _).
  pose proof (len_nonneg pre). pose proof (len_nonneg (render_samples true l)).
  assert (len pre + bsize (senc_box true l) < 2 ^ 63).
  { revert Hlen. lens. rewrite len_render by done. pose proof (len_nonneg post). lia. }
  unfold try_parse. nowrap. destruct (parse_samples _ _ _ _ _) as [[r q]|] eqn:E; opt; [|done].
  apply (parse_samples_pos _ Hlen) in E as [k ->]; [|set_solver by lia|lia].
  destruct (len_render_samples n l Hs) as [k' Hk']. rewrite Hb, Hk'. rewrite len_to_nat.
  change (Z.of_nat (length l)) with (len l). case_match; [|done]. to_prop. exfalso. apply H3.
  assert (Hmul : len l * (n - n') = 6 * (k - k')) by lia.
  assert (Hd : (3 | len l * (n - n'))) by (exists (2 * (k - k')); lia).
  apply Z.mod_divide; [done|]. apply Z.gauss with (n - n'); [by rewrite Z.mul_comm|].
  rewrite !elem_of_cons in Hn, Hn'. destruct Hn as [->|[->|[->|[]%not_elem_of_nil]]], Hn' as [->|[->|[->|[]%not_elem_of_nil]]];
    try done; by vm_compute.
Qed.

Lemma senc_parse (subs : bool) (n : Z) (l : list SencSample) (pre post : list Z) :
  box_ok (senc_box subs l) -> len (pre ++ render (senc_box subs l) ++ post) < 2 ^ 63 -> len l < 2 ^ 32 ->
  n ∈ [0; 8; 16] -> Forall (sample_ok subs n) l -> (subs = true -> len l mod 3 <> 0) ->
  parse_senc_samples (pre ++ render (senc_box subs l) ++ post) (len pre) (bsize (senc_box subs l)) = Done (Some l).
Proof.
  intros Hok Hlen Hl Hn Hs H3. destruct (senc_split subs l pre post Hok Hlen Hl) as (_ & _ & Hb & Hf & Hc).
  pose proof (try_parse_render subs n l pre post Hok Hlen Hl Hs) as Htry.
  pose proof (len_nonneg pre). pose proof (len_nonneg (render_samples subs l)). pose proof (len_nonneg l).
  assert (len pre + bsize (senc_box subs l) <= len (pre ++ render (senc_box subs l) ++ post)).
  { lens. rewrite len_render by done. pose proof (len_nonneg post). lia. }
  unfold parse_senc_samples. nowrap. decide_le. rewrite Hf. run_simpl. rewrite Hc. run_simpl.
  destruct subs; cbn [has Z.land Z.eqb negb]; change (has 2 2) with true; change (has 0 2) with false; cbv iota.
  - specialize (H3 eq_refl). pose proof (fun n' => try_parse_other n n' l pre post Hok Hlen Hl Hs H3) as Hother.
    f_equal. cbn [find_map]. rewrite !elem_of_cons in Hn. destruct Hn as [->|[->|[->|[]%not_elem_of_nil]]].
    + by rewrite Htry.
    + rewrite (Hother 0), Htry; [done|set_solver..].
    + rewrite (Hother 0), (Hother 8), Htry; [done|set_solver..].
  - f_equal. rewrite Hb, (len_render_samples_plain n l Hs). destruct (decide (len l = 0)) as [Hz|Hz].
    + assert (l = []) as -> by (apply length_zero_iff_nil; unfold len in Hz; lia). cbn.
      rewrite bool_decide_eq_true_2 by set_solver.
      exact (try_parse_render false 0 [] pre post Hok Hlen Hl (Forall_nil_2 _)).
    + replace ((16 + len l * n - 16) / Z.max (len l) 1) with n.
      2: { rewrite Z.max_l by lia. symmetry. replace (16 + len l * n - 16) with (n * len l) by lia. by apply Z.div_mul. }
      rewrite bool_decide_eq_true_2, <-(len_render_samples_plain n l Hs), <-Hb by done. exact Htry.
Qed.

(** ** Theorems *)

(** Parsing inverts rendering: a table whose vectors all have 0, 8 or 16 bytes is read back as it was
    written, when it has no subsamples, and with subsamples when the number of its samples is not a
    multiple of three. *)
Theorem senc_roundtrip (subs : bool) (n : Z) (l : list SencSample) (pre post : list Z) :
  box_ok (senc_box subs l) -> len (pre ++ render (senc_box subs l) ++ post) < 2 ^ 63 -> len l < 2 ^ 32 ->
  n ∈ [0; 8; 16] -> Forall (sample_ok subs n) l -> (subs = true -> len l mod 3 <> 0) ->
  parse_senc_samples (pre ++ render (senc_box subs l) ++ post) (len pre) (bsize (senc_box subs l)) = Done (Some l).
Proof. apply senc_parse. Qed.

Definition demo_senc : list SencSample := [mkSencSample [5; 5; 5; 5; 5; 5; 5; 5] [(4, 16)]].

Lemma senc_roundtrip_witness :
  parse_senc_samples ([9] ++ render (senc_box true demo_senc) ++ [3]) 1 32 = Done (Some demo_senc).
Proof.
  apply (senc_roundtrip true 8 demo_senc [9] [3]); [split; by vm_compute|by vm_compute|by vm_compute|set_solver| |by vm_compute].
  apply Forall_cons. split; [|apply Forall_nil_2]. split; [by vm_compute|by vm_compute| |done].
  apply Forall_cons. split; [cbn; lia|apply Forall_nil_2].
Defined.

(** With a multiple of three the lengths can be mistaken: this table of three samples with vectors of eight bytes
    is taken for three samples without vectors, the first of which has four subsamples, so its
    samples are decrypted with a zero vector. *)
Theorem senc_ambiguous :
  exists l l', Forall (sample_ok true 8) l /\
    parse_senc_samples (render (senc_box true l)) 0 (bsize (senc_box true l)) = Done (Some l') /\
    Forall (fun s => iv s = []) l' /\ l <> l'.
Proof.
  exists [mkSencSample [0; 4; 9; 9; 9; 9; 9; 9] []; mkSencSample [1; 2; 3; 4; 5; 6; 7; 8] [];
          mkSencSample [9; 9; 9; 9; 9; 9; 0; 0] []].
  eexists. split_and!.
  - repeat (apply Forall_cons; split; [split; [by vm_compute|by vm_compute|apply Forall_nil_2|done]|]). apply Forall_nil_2.
  - vm_compute. reflexivity.
  - repeat (apply Forall_cons; split; [done|]). apply Forall_nil_2.
  - done.
Qed.
