(* ===== verification/CencStrip.v ===== *)
(** * CencStrip: removing the encryption boxes of a fragment (crates/apple/src/wrapper/cenc.rs)

    [strip_encryption_boxes], and its reference: the same fragment rendered without those boxes. *)
From stdpp Require Import sorting.
From S2P Require Import Prelude Text Bytes Boxes TrackRuns.

#[local] Open Scope rust_scope.

(** The first box of a type, or the error for a fragment without it. *)
Definition require_box (data : list Z) (start stop : Z) (t : str) (missing : str) : run (Z * Z) :=
  b ← find_child_box data start stop t; or_fail b (Message missing).

(** [u32::from_be_bytes(fragment.get(a..a + 4)...ok_or_else(..)?)]. *)
Definition read_size (data : list Z) (a : Z) (truncated : str) : run Z :=
  buf ← or_fail (slice data a (a ⊕ 4)) (Message truncated); mret (from_be buf).

(** The loop that moves the data offsets of the runs.  The field is taken to be there, whatever the flags of the run. *)
Fixpoint move_offsets (fuel : nat) (fragment : list Z) (cur stop removed_from_moof : Z) : run (list Z) :=
  match fuel with
  | O => Spin
  | S f =>
      if cur ⊕ 8 <=? stop then
        h ← read_box_header fragment cur;
        match h with
        | None => mret fragment
        | Some (box_len, box_type, _) =>
            if box_len <? 8 then mret fragment else
            fragment ← (if decide (box_type = lit "trun") then
                          let field := cur ⊕ 8 ⊕ 4 ⊕ 4 in
                          offset ← read_size fragment field (lit "trun data offset");
                          let new_offset := swrap 32 (swrap 32 offset - swrap 32 removed_from_moof) in
                          write_be fragment field 4 new_offset
                        else mret fragment);
            move_offsets f fragment (cur ⊕ box_len) stop removed_from_moof
        end
      else mret fragment
  end.

Definition encryption_kinds : list str := [lit "senc"; lit "saiz"; lit "saio"; lit "uuid"].

(** The boxes to remove from the track fragment, in the order in which they are collected. *)
Fixpoint collect_kinds (bounded : bool) (fragment : list Z) (cur stop : Z) (kinds : list str) : run (list (Z * Z)) :=
  match kinds with
  | [] => mret []
  | k :: kinds' =>
      l ← collect (S (length fragment)) bounded (of_type k) fragment cur stop;
      rest ← collect_kinds bounded fragment cur stop kinds';
      mret (l ++ rest)
  end.

Definition sizes (l : list (Z * Z)) : Z := foldl (fun acc x => acc ⊕ x.2) 0 l.

Definition strip_encryption_boxes (fragment : list Z) : run (list Z) :=
  let total_len := len fragment in
  moof ← require_box fragment 0 total_len (lit "moof") (lit "Missing moof box in fragment");
  let '(moof_off, moof_len) := moof : Z * Z in
  traf ← require_box fragment (moof_off ⊕ 8) (moof_off ⊕ moof_len) (lit "traf") (lit "Missing traf box in moof");
  let '(traf_off, traf_len) := traf : Z * Z in
  in_traf ← collect_kinds false fragment (traf_off ⊕ 8) (traf_off ⊕ traf_len) encryption_kinds;
  groups ← collect (S (length fragment)) false (is_seam_group fragment) fragment (traf_off ⊕ 8) (traf_off ⊕ traf_len);
  in_moof ← collect (S (length fragment)) false (of_type (lit "pssh")) fragment (moof_off ⊕ 8) (moof_off ⊕ moof_len);
  let removed_from_traf := sizes (in_traf ++ groups) in
  let removed_from_moof := sizes (in_traf ++ groups ++ in_moof) in
  if removed_from_moof =? 0 then mret fragment else
  fragment ← move_offsets (S (length fragment)) fragment (traf_off ⊕ 8) (traf_off ⊕ traf_len) removed_from_moof;
  traf_size ← read_size fragment traf_off (lit "traf header truncated");
  fragment ← write_be fragment traf_off 4 (wrap 32 (traf_size - wrap 32 removed_from_traf));
  moof_size ← read_size fragment moof_off (lit "moof header truncated");
  fragment ← write_be fragment moof_off 4 (wrap 32 (moof_size - wrap 32 removed_from_moof));
  drain_all fragment (sort_desc (in_traf ++ groups ++ in_moof)).

(** ** The reference *)

(** A fragment as boxes: what precedes the [moof], its children around the [traf], and what follows. *)
Record Fragment := mkFragment {
  before : list Box;
  moof_before : list Box;
  traf : list Box;
  moof_after : list Box;
  after : list Box;
}.

Definition traf_box (f : Fragment) : Box := mkBox (lit "traf") (renders (traf f)).
Definition moof_box (f : Fragment) : Box :=
  mkBox (lit "moof") (renders (moof_before f ++ traf_box f :: moof_after f)).
Definition boxes (f : Fragment) : list Box := before f ++ moof_box f :: after f.
Definition render_fragment (f : Fragment) : list Z := renders (boxes f).

(** The grouping type of a sample group box. *)
Definition grouping (b : Box) : list Z := take 4 (drop 4 (body b)).

Definition is_group (b : Box) : bool :=
  ((kind_is (lit "sgpd") b || kind_is (lit "sbgp") b) &&
   (bool_decide (grouping b = lit "seam") || bool_decide (grouping b = lit "seig")))%bool.
Definition is_encryption (b : Box) : bool := (bool_decide (kind b ∈ encryption_kinds) || is_group b)%bool.
Definition is_pssh : Box -> bool := kind_is (lit "pssh").

Record fragment_ok (f : Fragment) : Prop := {
  ok_before : Forall box_ok (before f);
  ok_moof_before : Forall box_ok (moof_before f);
  ok_traf : Forall box_ok (traf f);
  ok_moof_after : Forall box_ok (moof_after f);
  ok_after : Forall box_ok (after f);
  ok_moof : box_ok (moof_box f);
  ok_first_moof : Forall (fun b => kind b <> lit "moof") (before f);
  ok_first_traf : Forall (fun b => kind b <> lit "traf") (moof_before f);
  ok_size : len (render_fragment f) < 2 ^ 63;
  (* runs have a data offset's place, groups a grouping type *)
  ok_runs : Forall (fun b => kind b = lit "trun" -> 12 <= len (body b)) (traf f);
  ok_groups : Forall (fun b => kind b = lit "sgpd" \/ kind b = lit "sbgp" -> 8 <= len (body b)) (traf f);
}.

(** Bytes that are removed, and a run whose data offset follows its data. *)
Definition removed_traf (f : Fragment) : Z := weight is_encryption (traf f).
Definition removed (f : Fragment) : Z :=
  weight is_pssh (moof_before f) + removed_traf f + weight is_pssh (moof_after f).

Definition run_offset (b : Box) : Z := swrap 32 (from_be (take 4 (drop 8 (body b)))).
Definition move_run (n : Z) (b : Box) : Box :=
  if decide (kind b = lit "trun") then
    mkBox (kind b) (take 8 (body b) ++ to_be 4 (run_offset b - n) ++ drop 12 (body b))
  else b.

Definition stripped (f : Fragment) : Fragment :=
  if removed f =? 0 then f else
  mkFragment (before f) (dropped is_pssh (moof_before f)) (move_run (removed f) <$> dropped is_encryption (traf f))
             (dropped is_pssh (moof_after f)) (after f).

(** ** Lemmas *)

Lemma to_be_congr n v w : v mod 256 ^ Z.of_nat n = w mod 256 ^ Z.of_nat n -> to_be n v = to_be n w.
Proof.
  intros H. rewrite <-(to_from_be (to_be n v) n), <-(to_from_be (to_be n w) n) by
    (apply to_be_bytes || apply to_be_length).
  by rewrite !from_to_be, H.
Qed.

Lemma swrap_mod w x : 0 < w -> swrap w x mod 2 ^ w = x mod 2 ^ w.
Proof.
  intros Hw. unfold swrap. assert (2 ^ w <> 0) by (apply Z.pow_nonzero; lia).
  rewrite Zminus_mod_idemp_l. f_equal. lia.
Qed.

Lemma moved_offset_bytes o r : to_be 4 (swrap 32 (swrap 32 o - swrap 32 r)) = to_be 4 (swrap 32 o - r).
Proof.
  apply to_be_congr. change (256 ^ Z.of_nat 4) with (2 ^ 32). rewrite swrap_mod by lia.
  rewrite Zminus_mod, (swrap_mod 32 r) by lia. by rewrite <-Zminus_mod.
Qed.

Lemma move_run_kind n b : kind (move_run n b) = kind b.
Proof. unfold move_run. by case_decide. Qed.

Lemma move_run_size n b : (kind b = lit "trun" -> 12 <= len (body b)) -> bsize (move_run n b) = bsize b.
Proof.
  unfold move_run. case_decide as Hk; [|done]. intros H. specialize (H Hk). unfold bsize. cbn [body]. f_equal.
  rewrite !len_app, len_to_be. unfold len in *. rewrite length_take, length_drop. lia.
Qed.

Lemma move_run_ok n b : (kind b = lit "trun" -> 12 <= len (body b)) -> box_ok b -> box_ok (move_run n b).
Proof. intros H [Hk Hs]. split; [by rewrite move_run_kind|by rewrite move_run_size]. Qed.

(** A body cut after its first eight and its first twelve bytes. *)
Lemma run_body_cut (l : list Z) : 12 <= len l -> l = take 8 l ++ take 4 (drop 8 l) ++ drop 12 l /\
  len (take 8 l) = 8 /\ len (take 4 (drop 8 l)) = 4.
Proof.
  intros Hl. unfold len in *. rewrite !length_take, length_drop. split_and!; [|lia..].
  replace (drop 12 l) with (drop 4 (drop 8 l)) by (by rewrite drop_drop). by rewrite !take_drop.
Qed.

(** Moving one run in place. *)
Lemma move_one n pre b post :
  box_ok b -> kind b = lit "trun" -> 12 <= len (body b) -> len (pre ++ render b ++ post) < 2 ^ 63 ->
  (offset ← read_size (pre ++ render b ++ post) (len pre + 16) (lit "trun data offset");
   write_be (pre ++ render b ++ post) (len pre + 16) 4 (swrap 32 (swrap 32 offset - swrap 32 n))) =
  Done (pre ++ render (move_run n b) ++ post).
Proof.
  intros Hb Hk H12 Hlen. destruct (run_body_cut (body b) H12) as (Hcut & H8 & H4).
  set (x := take 8 (body b)) in *. set (y := take 4 (drop 8 (body b))) in *. set (z := drop 12 (body b)) in *.
  assert (Hd : pre ++ render b ++ post = (pre ++ to_be 4 (bsize b) ++ kind b ++ x) ++ y ++ (z ++ post)).
  { unfold render. rewrite Hcut at 1. by rewrite <-!app_assoc. }
  assert (Hp : len pre + 16 = len (pre ++ to_be 4 (bsize b) ++ kind b ++ x)) by (lens; destruct Hb; lia).
  pose proof (len_nonneg pre). pose proof (len_nonneg z). pose proof (len_nonneg post).
  assert (len pre + 20 < 2 ^ 63) by (rewrite Hd in Hlen; revert Hlen; rewrite len_app, <-Hp; lens; lia).
  rewrite Hd, Hp. unfold read_size, write_be. rewrite uadd_small by lia. rewrite slice_mid by lia. run_simpl.
  rewrite moved_offset_bytes, (store_mid _ y) by (rewrite ?len_to_be; lia). run_simpl.
  unfold move_run. rewrite decide_True by done. unfold render, run_offset. cbn [kind body].
  unfold bsize. cbn [body]. fold x y z.
  replace (len (x ++ to_be 4 (swrap 32 (from_be y) - n) ++ z)) with (len (body b)); [by rewrite <-!app_assoc|].
  rewrite Hcut at 1. lens. lia.
Qed.

Lemma move_offsets_render n pre bs post fuel :
  Forall box_ok bs -> Forall (fun b => kind b = lit "trun" -> 12 <= len (body b)) bs ->
  len (pre ++ renders bs ++ post) < 2 ^ 63 -> (length bs < fuel)%nat ->
  move_offsets fuel (pre ++ renders bs ++ post) (len pre) (len pre + len (renders bs)) n =
  Done (pre ++ renders (move_run n <$> bs) ++ post).
Proof.
  intros Hok. revert pre fuel. induction Hok as [|b bs Hb _ IH]; intros pre fuel Hr Hlen Hf;
    (destruct fuel as [|f]; [cbn in Hf; lia|]); cbn [move_offsets].
  - pose proof (len_nonneg pre). pose proof (len_nonneg post). revert Hlen. rewrite renders_nil. lens. intros Hlen.
    nowrap. by decide_le.
  - apply Forall_cons in Hr as [H12 Hr]. rewrite fmap_cons, !renders_cons, <-!app_assoc in *.
    pose proof (bsize_ge b). pose proof (len_nonneg pre). pose proof (len_nonneg post). pose proof (len_nonneg (renders bs)).
    assert (Hsz : len pre + bsize b + len (renders bs) + len post < 2 ^ 63).
    { revert Hlen. lens. rewrite len_render by done. lia. }
    rewrite len_app, len_render by done. nowrap. decide_le. rewrite read_box_header_render by (done || lia). run_simpl. decide_le.
    assert (Hm : (if decide (kind b = lit "trun") then
        offset ← read_size (pre ++ render b ++ renders bs ++ post) (len pre + 8 + 4 + 4) (lit "trun data offset");
        write_be (pre ++ render b ++ renders bs ++ post) (len pre + 8 + 4 + 4) 4 (swrap 32 (swrap 32 offset - swrap 32 n))
      else mret (pre ++ render b ++ renders bs ++ post)) = Done (pre ++ render (move_run n b) ++ renders bs ++ post)).
    { replace (len pre + 8 + 4 + 4) with (len pre + 16) by lia. case_decide as Hk; [by apply move_one; auto|].
      unfold move_run. by rewrite decide_False. }
    rewrite Hm. run_simpl.
    assert (Hl' : len (pre ++ render (move_run n b)) = len pre + bsize b).
    { rewrite len_app, len_render by (by apply move_run_ok). by rewrite move_run_size. }
    nowrap. rewrite (app_assoc pre (render (move_run n b))), <-Hl'. replace (len pre + (bsize b + len (renders bs))) with (len (pre ++ render (move_run n b)) + len (renders bs)) by lia.
    rewrite IH; [by rewrite <-app_assoc|done| |cbn in Hf; lia]. lens. lia.
Qed.

(** *** What is collected *)

Lemma picked_none q o bs : Forall (fun b => q b = false) bs -> picked q o bs = [].
Proof. intros H. revert o. induction H as [|b bs Hb _ IH]; intros o; [done|]. cbn [picked]. by rewrite Hb, IH. Qed.

Lemma picked_ext q1 q2 o bs : (forall b, b ∈ bs -> q1 b = q2 b) -> picked q1 o bs = picked q2 o bs.
Proof.
  revert o. induction bs as [|b bs IH]; intros o Hq; [done|]. cbn [picked].
  rewrite (Hq b) by left. by rewrite IH by (intros; apply Hq; by right).
Qed.

Lemma collect_kinds_render bounded pre bs post kinds :
  Forall box_ok bs -> len (pre ++ renders bs ++ post) < 2 ^ 63 -> NoDup kinds ->
  exists l, collect_kinds bounded (pre ++ renders bs ++ post) (len pre) (len pre + len (renders bs)) kinds = Done l /\
    l ≡ₚ picked (fun b => bool_decide (kind b ∈ kinds)) (len pre) bs.
Proof.
  intros Hok Hlen. induction kinds as [|k kinds IH]; intros Hnd.
  - exists []. split; [done|]. rewrite picked_none; [done|]. apply Forall_true. intros b.
    apply bool_decide_eq_false_2, not_elem_of_nil.
  - apply NoDup_cons in Hnd as [Hk Hnd]. destruct (IH Hnd) as (l & Hl & Hp). cbn [collect_kinds].
    rewrite (collect_boxes bounded (of_type k) (kind_is k) pre bs post Hok Hlen ltac:(intros; apply of_type_keep)).
    run_simpl. rewrite Hl. run_simpl. eexists. split; [done|]. rewrite Hp, picked_or.
    + erewrite picked_ext; [done|]. intros b _. unfold kind_is. apply eq_true_iff_eq.
      rewrite orb_true_iff, !bool_decide_eq_true. set_solver.
    + intros b _ Hb. unfold kind_is in Hb. apply bool_decide_eq_true in Hb. apply bool_decide_eq_false_2. by rewrite Hb.
Qed.

Lemma seam_group_keep pre bs post l1 b l2 :
  bs = l1 ++ b :: l2 -> Forall box_ok bs -> len (pre ++ renders bs ++ post) < 2 ^ 63 ->
  (kind b = lit "sgpd" \/ kind b = lit "sbgp" -> 8 <= len (body b)) ->
  is_seam_group (pre ++ renders bs ++ post) (len pre + len (renders l1)) (kind b) = Done (is_group b).
Proof.
  intros -> Hok Hlen H8. unfold is_seam_group, is_group, kind_is.
  destruct (bool_decide (kind b = lit "sgpd") || bool_decide (kind b = lit "sbgp"))%bool eqn:E; [|done].
  assert (Hb8 : 8 <= len (body b)) by (apply H8; apply orb_true_iff in E; rewrite !bool_decide_eq_true in E; tauto).
  apply Forall_app in Hok as [_ Hok]. inversion Hok as [|? ? Hb _]; subst.
  assert (Hcut : body b = take 4 (body b) ++ grouping b ++ drop 8 (body b)).
  { unfold grouping. replace (drop 8 (body b)) with (drop 4 (drop 4 (body b))) by (by rewrite drop_drop). by rewrite !take_drop. }
  assert (H4 : len (take 4 (body b)) = 4 /\ len (grouping b) = 4).
  { unfold grouping, len in *. rewrite !length_take, length_drop. lia. }
  assert (Hd : pre ++ renders (l1 ++ b :: l2) ++ post =
    (pre ++ renders l1 ++ to_be 4 (bsize b) ++ kind b ++ take 4 (body b)) ++ grouping b ++
    (drop 8 (body b) ++ renders l2 ++ post)).
  { rewrite renders_app, renders_cons. unfold render at 1. rewrite Hcut at 1. by rewrite <-!app_assoc. }
  assert (Hp : len pre + len (renders l1) + 12 = len (pre ++ renders l1 ++ to_be 4 (bsize b) ++ kind b ++ take 4 (body b)))
    by (lens; destruct Hb; lia).
  pose proof (len_nonneg pre). pose proof (len_nonneg (renders l1)). pose proof (len_nonneg (renders l2)).
  pose proof (len_nonneg post). pose proof (len_nonneg (drop 8 (body b))).
  assert (len pre + len (renders l1) + 16 <= len (pre ++ renders (l1 ++ b :: l2) ++ post)).
  { rewrite Hd, len_app, <-Hp. lens. lia. }
  nowrap. decide_le. rewrite Hd, slice_mid by lia. done.
Qed.

Lemma sizes_sum l : Forall (fun x => 0 <= x.2) l -> sumZ l.*2 < 2 ^ 64 -> sizes l = sumZ l.*2.
Proof.
  intros Hl. unfold sizes. assert (Hgen : forall acc, 0 <= acc -> acc + sumZ l.*2 < 2 ^ 64 ->
    foldl (fun a (x : Z * Z) => a ⊕ x.2) acc l = acc + sumZ l.*2).
  { induction Hl as [|x l Hx Hl IH]; intros acc Ha Hb; cbn [foldl]; [cbn; lia|].
    rewrite fmap_cons in *. change (sumZ (x.2 :: l.*2)) with (x.2 + sumZ l.*2) in *.
    assert (0 <= sumZ l.*2) by (apply sumZ_nonneg, Forall_fmap; eapply Forall_impl; [exact Hl|done]).
    rewrite IH by (nowrap; lia). nowrap. lia. }
  intros Hs. rewrite Hgen; lia.
Qed.

Lemma picked_sizes q o bs : Forall (fun x => 0 <= x.2) (picked q o bs).
Proof.
  revert o. induction bs as [|b bs IH]; intros o; cbn [picked]; [constructor|]. apply Forall_app. split; [|apply IH].
  destruct (q b); [|constructor]. apply Forall_singleton. cbn. pose proof (bsize_ge b). lia.
Qed.

Lemma is_encryption_split b :
  is_encryption b = (bool_decide (kind b ∈ encryption_kinds) || is_group b)%bool /\
  (bool_decide (kind b ∈ encryption_kinds) = true -> is_group b = false).
Proof.
  split; [done|]. intros H%bool_decide_eq_true. unfold is_group, kind_is.
  assert (Hn : kind b <> lit "sgpd" /\ kind b <> lit "sbgp").
  { unfold encryption_kinds in H. rewrite !elem_of_cons in H.
    split; intros E; rewrite E in H; destruct H as [H|[H|[H|[H|H]]]]; try by vm_compute in H. all: by apply not_elem_of_nil in H. }
  by rewrite !bool_decide_eq_false_2 by tauto.
Qed.

(** *** Where the boxes of a fragment are *)

Definition moof_head (f : Fragment) : list Z := to_be 4 (bsize (moof_box f)) ++ lit "moof".
Definition traf_head (f : Fragment) : list Z := to_be 4 (bsize (traf_box f)) ++ lit "traf".
Definition moof_pre (f : Fragment) : list Z := renders (before f) ++ moof_head f.
Definition traf_pre (f : Fragment) : list Z := moof_pre f ++ renders (moof_before f) ++ traf_head f.

Lemma fragment_in_moof f :
  render_fragment f = moof_pre f ++ renders (moof_before f ++ traf_box f :: moof_after f) ++ renders (after f).
Proof.
  unfold render_fragment, boxes, moof_pre, moof_head. rewrite renders_app, renders_cons. unfold render at 1.
  cbn [kind body moof_box]. by rewrite <-!app_assoc.
Qed.

Lemma fragment_in_traf f :
  render_fragment f = traf_pre f ++ renders (traf f) ++ renders (moof_after f) ++ renders (after f).
Proof.
  rewrite fragment_in_moof. unfold traf_pre, traf_head. rewrite renders_app, renders_cons. unfold render at 1.
  cbn [kind body traf_box]. by rewrite <-!app_assoc.
Qed.

Lemma len_moof_pre f : len (moof_pre f) = len (renders (before f)) + 8.
Proof. unfold moof_pre, moof_head. lens. change (len (lit "moof")) with 4. lia. Qed.

Lemma len_traf_pre f : len (traf_pre f) = len (renders (before f)) + 16 + len (renders (moof_before f)).
Proof. unfold traf_pre, traf_head. lens. rewrite len_moof_pre. change (len (lit "traf")) with 4. lia. Qed.

Lemma bsize_moof_of f :
  box_ok (traf_box f) ->
  bsize (moof_box f) = 8 + len (renders (moof_before f)) + bsize (traf_box f) + len (renders (moof_after f)).
Proof. intros Ht. unfold bsize at 1. cbn [body moof_box]. lens. rewrite len_render by done. lia. Qed.

Section Fragments.
Variable f : Fragment.
Hypothesis Hok : fragment_ok f.

Lemma traf_box_ok : box_ok (traf_box f).
Proof.
  split; [done|]. destruct (ok_moof f Hok) as [_ Hs]. revert Hs. unfold bsize at 1, moof_box. cbn [body].
  rewrite renders_app, renders_cons, !len_app. intros Hs.
  unfold render in Hs. revert Hs. lens. unfold bsize. pose proof (len_nonneg (renders (moof_before f))).
  pose proof (len_nonneg (renders (moof_after f))). change (len (kind (traf_box f))) with 4. lia.
Qed.

Lemma moof_children_ok : Forall box_ok (moof_before f ++ traf_box f :: moof_after f).
Proof. apply Forall_app. split; [apply Hok|]. constructor; [apply traf_box_ok|apply Hok]. Qed.

Lemma all_boxes_ok : Forall box_ok (boxes f).
Proof. apply Forall_app. split; [apply Hok|]. constructor; apply Hok. Qed.

Lemma bsize_moof : bsize (moof_box f) = 8 + len (renders (moof_before f)) + bsize (traf_box f) + len (renders (moof_after f)).
Proof. apply bsize_moof_of, traf_box_ok. Qed.

Lemma bsize_traf : bsize (traf_box f) = 8 + len (renders (traf f)).
Proof. reflexivity. Qed.

Lemma fragment_len :
  len (render_fragment f) = len (renders (before f)) + bsize (moof_box f) + len (renders (after f)).
Proof. unfold render_fragment, boxes. lens. rewrite len_render by apply Hok. lia. Qed.

Lemma find_moof msg :
  require_box (render_fragment f) 0 (len (render_fragment f)) (lit "moof") msg =
  Done (len (renders (before f)), bsize (moof_box f)).
Proof.
  pose proof (ok_size f Hok) as Hs. unfold require_box.
  assert (H : find_child_box ([] ++ renders (boxes f) ++ []) 0 (len (render_fragment f)) (lit "moof") =
              Done (Some (len (@nil Z) + len (renders (before f)), bsize (moof_box f)))).
  { apply find_first; [apply all_boxes_ok| |apply Hok|done..]. by rewrite app_nil_r. }
  rewrite app_nil_r in H. change ([] ++ renders (boxes f)) with (render_fragment f) in H. by rewrite H.
Qed.

Lemma find_traf msg :
  require_box (render_fragment f) (len (renders (before f)) ⊕ 8) (len (renders (before f)) ⊕ bsize (moof_box f)) (lit "traf") msg =
  Done (len (moof_pre f) + len (renders (moof_before f)), bsize (traf_box f)).
Proof.
  pose proof (ok_size f Hok) as Hs. pose proof fragment_len as Hl. pose proof (bsize_ge (moof_box f)).
  pose proof (len_nonneg (renders (before f))). pose proof (len_nonneg (renders (after f))). nowrap.
  unfold require_box. rewrite fragment_in_moof in Hs |- *.
  rewrite (find_first (moof_pre f) (moof_before f) (traf_box f) (moof_after f) (renders (after f))); [done|apply moof_children_ok|done|apply Hok| |].
  - by rewrite len_moof_pre.
  - rewrite len_moof_pre, bsize_moof. lens. rewrite len_render by apply traf_box_ok. lia.
Qed.

(** Everything that is collected: a permutation of the removals, from the last box to the first. *)
Definition removals : list (Z * Z) :=
  reverse (picked is_pssh (len (traf_pre f) + len (renders (traf f))) (moof_after f)) ++
  reverse (picked is_encryption (len (traf_pre f)) (traf f)) ++
  reverse (picked is_pssh (len (moof_pre f)) (moof_before f)).

Lemma collected_groups bounded :
  collect (S (length (render_fragment f))) bounded (is_seam_group (render_fragment f)) (render_fragment f)
    (len (traf_pre f)) (len (traf_pre f) + len (renders (traf f))) = Done (picked is_group (len (traf_pre f)) (traf f)).
Proof.
  pose proof (ok_size f Hok) as Hs. rewrite fragment_in_traf in Hs |- *. apply collect_boxes; [apply Hok|done|]. intros l1 b l2 Hb.
  eapply seam_group_keep; [exact Hb|apply Hok|done|]. pose proof (ok_groups f Hok) as Hg. rewrite Forall_forall in Hg.
  apply Hg. rewrite Hb. set_solver.
Qed.

Lemma collected_pssh bounded :
  collect (S (length (render_fragment f))) bounded (of_type (lit "pssh")) (render_fragment f)
    (len (moof_pre f)) (len (moof_pre f) + len (renders (moof_before f ++ traf_box f :: moof_after f))) =
  Done (picked is_pssh (len (moof_pre f)) (moof_before f) ++
        picked is_pssh (len (traf_pre f) + len (renders (traf f))) (moof_after f)).
Proof.
  pose proof (ok_size f Hok) as Hs. rewrite fragment_in_moof in Hs |- *.
  rewrite (collect_boxes bounded _ is_pssh) by (apply moof_children_ok || done || (intros; apply of_type_keep)).
  rewrite picked_app by apply Hok. cbn [picked]. change (is_pssh (traf_box f)) with false.
  rewrite len_traf_pre, len_moof_pre, bsize_traf. cbn [app]. do 3 f_equal. lia.
Qed.

Lemma collected_kinds bounded kinds :
  NoDup kinds -> exists l,
    collect_kinds bounded (render_fragment f) (len (traf_pre f)) (len (traf_pre f) + len (renders (traf f))) kinds = Done l /\
    l ≡ₚ picked (fun b => bool_decide (kind b ∈ kinds)) (len (traf_pre f)) (traf f).
Proof.
  intros Hnd. pose proof (ok_size f Hok) as Hs. rewrite fragment_in_traf in Hs |- *.
  by apply collect_kinds_render; [apply Hok| |].
Qed.

Lemma collected :
  exists in_traf groups in_moof,
    collect_kinds false (render_fragment f) (len (traf_pre f)) (len (traf_pre f) + len (renders (traf f))) encryption_kinds = Done in_traf /\
    collect (S (length (render_fragment f))) false (is_seam_group (render_fragment f)) (render_fragment f)
      (len (traf_pre f)) (len (traf_pre f) + len (renders (traf f))) = Done groups /\
    collect (S (length (render_fragment f))) false (of_type (lit "pssh")) (render_fragment f)
      (len (moof_pre f)) (len (moof_pre f) + len (renders (moof_before f ++ traf_box f :: moof_after f))) = Done in_moof /\
    in_traf ++ groups ≡ₚ picked is_encryption (len (traf_pre f)) (traf f) /\
    in_moof = picked is_pssh (len (moof_pre f)) (moof_before f) ++
              picked is_pssh (len (traf_pre f) + len (renders (traf f))) (moof_after f).
Proof.
  destruct (collected_kinds false encryption_kinds) as (l & Hl & Hp); [apply (bool_decide_unpack _); by vm_compute|].
  exists l, (picked is_group (len (traf_pre f)) (traf f)). eexists.
  split_and!; [done|apply collected_groups|apply collected_pssh| |done].
  rewrite Hp, picked_or; [done|]. intros b _. apply is_encryption_split.
Qed.

Lemma removals_sorted : StronglySorted (fun x y => y.1 < x.1) removals.
Proof.
  unfold removals. pose proof (picked_range is_pssh (len (traf_pre f) + len (renders (traf f))) (moof_after f)) as H2.
  pose proof (picked_range is_encryption (len (traf_pre f)) (traf f)) as H1.
  pose proof (picked_range is_pssh (len (moof_pre f)) (moof_before f)) as H0.
  rewrite weight_all in H0 by apply Hok. rewrite weight_all in H1 by apply Hok.
  rewrite Forall_forall in H0, H1, H2. pose proof (len_nonneg (renders (traf f))).
  assert (len (traf_pre f) = len (moof_pre f) + len (renders (moof_before f)) + 8) by (rewrite len_traf_pre, len_moof_pre; lia).
  apply StronglySorted_app. split_and!; [|apply reverse_picked_sorted|apply StronglySorted_app; split_and!; try apply reverse_picked_sorted].
  - intros x y Hx Hy. rewrite elem_of_reverse in Hx. specialize (H2 x Hx).
    apply elem_of_app in Hy as [Hy|Hy]; rewrite elem_of_reverse in Hy; [specialize (H1 y Hy)|specialize (H0 y Hy)]; lia.
  - intros x y Hx Hy. rewrite elem_of_reverse in Hx, Hy. specialize (H1 x Hx). specialize (H0 y Hy). lia.
Qed.

Lemma weight_le q bs : Forall box_ok bs -> weight q bs <= len (renders bs).
Proof.
  induction 1 as [|b bs Hb _ IH]; [done|]. rewrite weight_cons. lens. rewrite len_render by done.
  pose proof (bsize_ge b). destruct (q b); lia.
Qed.

Lemma removed_range :
  0 <= removed_traf f <= len (renders (traf f)) /\ removed_traf f <= removed f /\ removed f <= bsize (moof_box f) - 16.
Proof.
  unfold removed, removed_traf. pose proof (weight_nonneg is_encryption (traf f)). pose proof (weight_nonneg is_pssh (moof_before f)).
  pose proof (weight_nonneg is_pssh (moof_after f)). pose proof (weight_le is_encryption _ (ok_traf f Hok)).
  pose proof (weight_le is_pssh _ (ok_moof_before f Hok)). pose proof (weight_le is_pssh _ (ok_moof_after f Hok)).
  rewrite bsize_moof, bsize_traf. lia.
Qed.

(** *** The fragment while its headers are rewritten *)

(** The fragment with moved runs, and with the sizes its headers will have in the end. *)
Definition moved : list Box := move_run (removed f) <$> traf f.

Definition staged (moof_size traf_size : Z) : list Z :=
  (renders (before f) ++ to_be 4 moof_size ++ lit "moof") ++ renders (moof_before f) ++
  (to_be 4 traf_size ++ lit "traf") ++ renders moved ++ renders (moof_after f) ++ renders (after f).

Lemma moved_ok : Forall box_ok moved.
Proof.
  unfold moved. apply Forall_fmap. pose proof (ok_runs f Hok) as Hr. pose proof (ok_traf f Hok) as Ht.
  rewrite Forall_forall in *. intros b Hb. apply move_run_ok; auto.
Qed.

Lemma moved_len : len (renders moved) = len (renders (traf f)).
Proof.
  unfold moved. pose proof (ok_runs f Hok) as Hr. pose proof (ok_traf f Hok) as Ht. revert Hr.
  induction Ht as [|b l Hb _ IH]; intros Hr; [done|]. apply Forall_cons in Hr as [H12 Hr].
  rewrite fmap_cons. lens. rewrite !len_render by (done || by apply move_run_ok). by rewrite move_run_size, IH.
Qed.

Lemma is_group_move n b : is_group (move_run n b) = is_group b.
Proof.
  unfold is_group, kind_is, grouping. unfold move_run. case_decide as Hk; [|done]. cbn [kind body].
  by rewrite Hk, !(bool_decide_eq_false_2 (lit "trun" = _)) by (by vm_compute).
Qed.

Lemma is_encryption_move n b : is_encryption (move_run n b) = is_encryption b.
Proof. unfold is_encryption. by rewrite move_run_kind, is_group_move. Qed.

Lemma picked_moved o : picked is_encryption o moved = picked is_encryption o (traf f).
Proof.
  unfold moved. pose proof (ok_runs f Hok) as Hr. revert o. induction Hr as [|b l Hb _ IH]; intros o; [done|].
  rewrite fmap_cons. cbn [picked]. by rewrite is_encryption_move, move_run_size, IH.
Qed.

Lemma dropped_moved : dropped is_encryption moved = move_run (removed f) <$> dropped is_encryption (traf f).
Proof.
  unfold moved, dropped. induction (traf f) as [|b l IH]; [done|]. rewrite fmap_cons, !filter_cons, is_encryption_move.
  case_decide; [by rewrite fmap_cons, IH|done].
Qed.

Lemma moving :
  move_offsets (S (length (render_fragment f))) (render_fragment f) (len (traf_pre f)) (len (traf_pre f) + len (renders (traf f)))
    (removed f) = Done (staged (bsize (moof_box f)) (bsize (traf_box f))).
Proof.
  pose proof (ok_size f Hok) as Hs. rewrite fragment_in_traf in Hs |- *.
  rewrite move_offsets_render; [|apply Hok|apply Hok|done|].
  - unfold staged, traf_pre, moof_pre, moof_head, traf_head, moved. by rewrite <-!app_assoc.
  - pose proof (renders_length _ (ok_traf f Hok)). rewrite !length_app. unfold len in *. lia.
Qed.

Lemma drain_step q pre bs post a :
  Forall box_ok bs -> len (pre ++ renders bs ++ post) < 2 ^ 63 -> a = len pre ->
  drain_all (pre ++ renders bs ++ post) (reverse (picked q a bs)) = Done (pre ++ renders (dropped q bs) ++ post).
Proof. intros ? ? ->. by apply drain_picked. Qed.

Lemma draining moof_size traf_size :
  drain_all (staged moof_size traf_size) removals =
  Done ((renders (before f) ++ to_be 4 moof_size ++ lit "moof") ++ renders (dropped is_pssh (moof_before f)) ++
    (to_be 4 traf_size ++ lit "traf") ++ renders (dropped is_encryption moved) ++
    renders (dropped is_pssh (moof_after f)) ++ renders (after f)).
Proof.
  pose proof (ok_size f Hok) as Hs. rewrite fragment_len, bsize_moof, bsize_traf in Hs.
  set (A := renders (before f) ++ to_be 4 moof_size ++ lit "moof"). set (B := to_be 4 traf_size ++ lit "traf").
  assert (HA : len A = len (renders (before f)) + 8) by (subst A; lens; change (len (lit "moof")) with 4; lia).
  assert (HB : len B = 8) by (subst B; lens; change (len (lit "traf")) with 4; lia).
  pose proof moved_len as Hm. pose proof (len_nonneg (renders (traf f))). pose proof (len_nonneg (renders (moof_after f))).
  pose proof (len_dropped is_pssh _ (ok_moof_after f Hok)). pose proof (weight_nonneg is_pssh (moof_after f)).
  pose proof (len_dropped is_encryption _ moved_ok). pose proof (weight_nonneg is_encryption moved).
  unfold removals, staged. fold A B. rewrite drain_all_app, <-picked_moved.
  replace (A ++ renders (moof_before f) ++ B ++ renders moved ++ renders (moof_after f) ++ renders (after f))
    with ((A ++ renders (moof_before f) ++ B ++ renders moved) ++ renders (moof_after f) ++ renders (after f)) by (by rewrite <-!app_assoc).
  rewrite drain_step by (apply Hok || (rewrite ?len_traf_pre; lens; lia)). run_simpl.
  replace ((A ++ renders (moof_before f) ++ B ++ renders moved) ++ renders (dropped is_pssh (moof_after f)) ++ renders (after f))
    with ((A ++ renders (moof_before f) ++ B) ++ renders moved ++ (renders (dropped is_pssh (moof_after f)) ++ renders (after f)))
    by (by rewrite <-!app_assoc).
  rewrite drain_all_app, drain_step by (apply moved_ok || (rewrite ?len_traf_pre; lens; lia)). run_simpl.
  replace ((A ++ renders (moof_before f) ++ B) ++ renders (dropped is_encryption moved) ++ renders (dropped is_pssh (moof_after f)) ++ renders (after f))
    with (A ++ renders (moof_before f) ++ (B ++ renders (dropped is_encryption moved) ++ renders (dropped is_pssh (moof_after f)) ++ renders (after f)))
    by (by rewrite <-!app_assoc).
  rewrite drain_step by (apply Hok || (rewrite ?len_moof_pre; lens; lia)). done.
Qed.
End Fragments.

(** ** Theorems *)

(** Rewriting the four bytes of a size. *)
Lemma size_rewrite {A} data pre v rest a msg n (k : list Z -> run A) :
  data = pre ++ to_be 4 v ++ rest -> a = len pre -> len pre + 4 < 2 ^ 63 -> 0 <= n <= v -> v < 2 ^ 32 ->
  (size ← read_size data a msg; data' ← write_be data a 4 (wrap 32 (size - wrap 32 n)); k data') =
  k (pre ++ to_be 4 (v - n) ++ rest).
Proof.
  intros -> -> Hl Hn Hv. pose proof (len_nonneg pre). unfold read_size. nowrap.
  rewrite slice_mid by (rewrite ?len_to_be; lia). run_simpl.
  rewrite from_to_be_small by (change (256 ^ Z.of_nat 4) with (2 ^ 32); lia). unfold write_be.
  rewrite (wrap_small 32 n), wrap_small by (unfold in_u; lia).
  by rewrite (store_mid _ (to_be 4 v)) by (rewrite ?len_to_be; lia).
Qed.

Lemma sizes_perm l l' : l ≡ₚ l' -> Forall (fun x => 0 <= x.2) l' -> sumZ l'.*2 < 2 ^ 64 -> sizes l = sumZ l'.*2.
Proof. intros Hp Hl Hs. rewrite sizes_sum; rewrite ?Hp; [done..]. Qed.

Lemma removals_sum f : sumZ (removals f).*2 = removed f /\ Forall (fun x => 0 <= x.2) (removals f).
Proof.
  unfold removals, removed, removed_traf. split.
  - rewrite !fmap_app, !sumZ_app, !fmap_reverse, !reverse_Permutation, !picked_weight. lia.
  - rewrite !Forall_app, !Forall_reverse. split_and!; apply picked_sizes.
Qed.

(** The sizes in the headers of the stripped fragment. *)
Lemma stripped_sizes f :
  fragment_ok f ->
  bsize (traf_box (stripped f)) = bsize (traf_box f) - removed_traf f /\
  bsize (moof_box (stripped f)) = bsize (moof_box f) - removed f.
Proof.
  intros Hok. destruct (removed_range f Hok) as (H0 & H1 & H2).
  destruct (Z.eqb_spec (removed f) 0) as [Hz|Hr]; [unfold stripped; rewrite Hz; cbn [Z.eqb]; lia|].
  assert (Ht : bsize (traf_box (stripped f)) = bsize (traf_box f) - removed_traf f).
  { unfold bsize, traf_box, stripped. rewrite (proj2 (Z.eqb_neq _ _) Hr). cbn [body traf].
    rewrite <-dropped_moved, len_dropped, moved_len by (done || by apply moved_ok).
    unfold removed_traf. rewrite <-(picked_weight _ 0), picked_moved, picked_weight by done. lia. }
  split; [done|]. rewrite (bsize_moof f Hok), bsize_moof_of.
  - rewrite Ht. unfold stripped. rewrite (proj2 (Z.eqb_neq _ _) Hr). cbn [moof_before moof_after].
    rewrite !len_dropped by apply Hok. unfold removed. lia.
  - destruct (traf_box_ok f Hok) as [_ Hs]. split; [done|]. rewrite Ht. lia.
Qed.

Lemma stripped_headers f :
  fragment_ok f -> removed f <> 0 ->
  render_fragment (stripped f) =
  (renders (before f) ++ to_be 4 (bsize (moof_box f) - removed f) ++ lit "moof") ++ renders (dropped is_pssh (moof_before f)) ++
  (to_be 4 (bsize (traf_box f) - removed_traf f) ++ lit "traf") ++ renders (dropped is_encryption (moved f)) ++
  renders (dropped is_pssh (moof_after f)) ++ renders (after f).
Proof.
  intros Hok Hr. rewrite fragment_in_traf. unfold traf_pre, moof_pre, moof_head, traf_head.
  destruct (stripped_sizes f Hok) as [-> ->]. unfold stripped. rewrite (proj2 (Z.eqb_neq _ _) Hr).
  cbn [before moof_before traf moof_after after]. rewrite <-dropped_moved by done. by rewrite <-!app_assoc.
Qed.

(** A fragment up to the end of its [moof]. *)
Lemma fragment_tail f :
  exists x, render_fragment f = x ++ renders (after f) /\ len x = len (renders (before f)) + bsize (moof_box f).
Proof.
  exists (renders (before f) ++ render (moof_box f)). unfold render_fragment, boxes. rewrite renders_app, renders_cons.
  split; [by rewrite <-app_assoc|]. unfold render, bsize. lens. change (len (kind (moof_box f))) with 4. lia.
Qed.

Lemma dropped_idem q bs : dropped q (dropped q bs) = dropped q bs.
Proof.
  unfold dropped. induction bs as [|b bs IH]; [done|]. rewrite filter_cons. case_decide; [|done].
  by rewrite filter_cons_True, IH.
Qed.

Lemma dropped_moved_twice n q bs :
  (forall b, q (move_run n b) = q b) -> dropped q (move_run n <$> dropped q bs) = move_run n <$> dropped q bs.
Proof.
  intros Hq. unfold dropped. induction bs as [|b bs IH]; [done|]. rewrite filter_cons. case_decide as Hb; [|done].
  by rewrite fmap_cons, filter_cons_True, IH by (by rewrite Hq).
Qed.

Lemma strip_spec f :
  fragment_ok f -> strip_encryption_boxes (render_fragment f) = Done (render_fragment (stripped f)).
Proof.
  intros Hok. destruct (collected f Hok) as (in_traf & groups & in_moof & Hk & Hg & Hm & Hperm & Hmoof).
  destruct (removed_range f Hok) as (H0 & H1 & H2). pose proof (traf_box_ok f Hok) as [_ Htz].
  pose proof (ok_moof f Hok) as [_ Hmz]. pose proof (bsize_ge (traf_box f)).
  pose proof (ok_size f Hok) as Hs. rewrite fragment_len in Hs by done.
  pose proof (len_nonneg (renders (before f))). pose proof (len_nonneg (renders (after f))).
  pose proof (len_nonneg (renders (moof_before f))). pose proof (len_nonneg (renders (moof_after f))).
  assert (Hpre : len (moof_pre f) + len (renders (moof_before f)) + 8 = len (traf_pre f)) by (rewrite len_traf_pre, len_moof_pre; lia).
  assert (Htrafend : len (moof_pre f) + len (renders (moof_before f)) + bsize (traf_box f) = len (traf_pre f) + len (renders (traf f)))
    by (rewrite bsize_traf, <-Hpre; lia).
  assert (Hmoofend : len (renders (before f)) + bsize (moof_box f) =
    len (moof_pre f) + len (renders (moof_before f ++ traf_box f :: moof_after f))).
  { rewrite len_moof_pre, bsize_moof by done. lens. rewrite len_render by (by apply traf_box_ok). lia. }
  pose proof (bsize_moof f Hok).
  assert (Hall : in_traf ++ groups ++ in_moof ≡ₚ removals f).
  { unfold removals. rewrite app_assoc, Hperm, Hmoof, !reverse_Permutation. solve_Permutation. }
  unfold strip_encryption_boxes. rewrite find_moof by done. run_simpl. rewrite find_traf by done. run_simpl.
  rewrite len_moof_pre in *. nowrap. rewrite Hpre, Htrafend, Hk. run_simpl. rewrite Hg. run_simpl.
  rewrite Hmoofend, Hm. run_simpl.
  rewrite (sizes_perm _ _ Hall (proj2 (removals_sum f))) by (rewrite (proj1 (removals_sum f)); lia).
  rewrite (proj1 (removals_sum f)), (sizes_perm _ _ Hperm (picked_sizes _ _ _)) by (rewrite picked_weight; unfold removed_traf in *; lia).
  rewrite picked_weight. fold (removed_traf f). destruct (Z.eqb_spec (removed f) 0) as [Hz|Hz].
  { unfold stripped. by rewrite Hz. }
  rewrite moving by done. run_simpl. unfold staged.
  erewrite (size_rewrite _ ((renders (before f) ++ to_be 4 (bsize (moof_box f)) ++ lit "moof") ++ renders (moof_before f)));
    [|by rewrite <-!app_assoc|rewrite len_app, <-len_moof_pre; done|rewrite len_app; fold (moof_head f); fold (moof_pre f); rewrite len_moof_pre; lia|lia..].
  erewrite (size_rewrite _ (renders (before f))); [|by rewrite <-!app_assoc|done|lia..].
  rewrite (sort_desc_unique _ _ Hall (removals_sorted f Hok)), stripped_headers by done.
  rewrite <-draining by done. unfold staged. by rewrite <-!app_assoc.
Qed.


Definition demo_fragment (run_flags : Z) : Fragment :=
  mkFragment [mkBox (lit "styp") [1]] [mkBox (lit "mfhd") (to_be 4 0 ++ to_be 4 1)]
    [tfhd_box demo_tfhd; mkBox (lit "senc") (to_be 4 0 ++ to_be 4 2); mkBox (lit "trun") (render_trun run_flags 116 0
       [mkTrunSample 0 3 0 0; mkTrunSample 0 2 0 0])] [mkBox (lit "pssh") [7; 7]] [mkBox (lit "mdat") [1; 2; 3; 4; 5]].

Lemma demo_fragment_ok flags : flags = 0x201 \/ flags = 0x200 -> fragment_ok (demo_fragment flags).
Proof.
  intros [-> | ->]; split; try (by vm_compute);
    repeat (apply Forall_cons; split; [first [by split; vm_compute|by vm_compute|by intros ?; vm_compute|
      intros H; by vm_compute in H|intros [H|H]; by vm_compute in H]|]); apply Forall_nil_2.
Qed.


(** A run whose flags say that it has no data offset starts its entries where the offset would be, and
    the field is moved all the same: the size of its first sample loses the bytes that were removed, three
    becoming 2^32 - 23 here. *)
Theorem strip_corrupts_run_without_offset :
  exists f data, fragment_ok f /\ strip_encryption_boxes (render_fragment f) = Done data /\
    (exists t, parse_trun (render_fragment f) 33 72 81 24 = Done (Some t) /\ sample_sizes t = [3; 2]) /\
    (exists t, parse_trun data 33 56 65 24 = Done (Some t) /\ sample_sizes t = [2 ^ 32 - 23; 2]).
Proof.
  exists (demo_fragment 0x200). eexists. split_and!; [apply demo_fragment_ok; by right|vm_compute; reflexivity| |];
    eexists; (split; [vm_compute; reflexivity|by vm_compute]).
Qed.
