(* ===== verification/FragmentLayout.v ===== *)
(** * FragmentLayout: where the parts of a fragment with one payload are

    The fragments both decryption paths are proved on: one [moof] with one [traf], whose samples lie in the payload of
    the first [mdat] box. *)
From S2P Require Import Prelude Text Bytes Boxes TrackRuns CencStrip.

#[local] Open Scope rust_scope.

(** A fragment whose samples are the payload of its first [mdat] box. *)
Record Carrier := mkCarrier {
  c_before : list Box;
  c_moof_before : list Box;
  c_traf : list Box;
  c_moof_after : list Box;
  c_between : list Box;
  c_after : list Box;
}.

Definition with_payload (c : Carrier) (p : list Z) : Fragment :=
  mkFragment (c_before c) (c_moof_before c) (c_traf c) (c_moof_after c) (c_between c ++ mkBox (lit "mdat") p :: c_after c).

Definition c_prefix (c : Carrier) (p : list Z) : list Box := c_before c ++ moof_box (with_payload c p) :: c_between c.
Definition c_head (c : Carrier) (p : list Z) : list Z :=
  renders (c_prefix c p) ++ to_be 4 (8 + len p) ++ lit "mdat".

(** The sizes of the samples of a run, and where the run starts: at its data offset when that is positive,
    after the samples before it otherwise. *)
Definition run_sizes (h : tfhd_fields) (t : trun_fields) : list Z :=
  (fun s => if has (tr_flags t) 512 then s_size s else if has (th_flags h) 16 then th_size h else 0) <$> tr_samples t.
Definition run_start (moof_off payload_off k : Z) (t : trun_fields) : Z :=
  let o := if has (tr_flags t) 1 then swrap 32 (tr_offset t) else 0 in
  if 0 <? o then moof_off + o - payload_off else k.

Record layout_ok (c : Carrier) (p : list Z) (h : tfhd_fields) (ts : list trun_fields) : Prop := {
  l_fragment : fragment_ok (with_payload c p);
  l_first_mdat : Forall (fun b => kind b <> lit "mdat") (c_before c ++ c_between c);
  (* its tables are renderings of their fields *)
  l_tfhd : first_is (tfhd_box h) (c_traf c) /\ tfhd_ok h;
  l_runs : filter (fun b => is_run b = true) (c_traf c) = trun_box <$> ts /\ Forall trun_ok ts;
}.

Lemma moof_box_payload c p p' : moof_box (with_payload c p) = moof_box (with_payload c p').
Proof. reflexivity. Qed.

Lemma c_head_payload c p p' : len p = len p' -> c_head c p = c_head c p'.
Proof. intros H. unfold c_head. by rewrite H. Qed.

Lemma boxes_payload c p : boxes (with_payload c p) = c_prefix c p ++ mkBox (lit "mdat") p :: c_after c.
Proof. unfold boxes, c_prefix, with_payload. cbn [before after]. by rewrite <-app_assoc. Qed.

Lemma render_payload c p : render_fragment (with_payload c p) = c_head c p ++ p ++ renders (c_after c).
Proof.
  unfold render_fragment. rewrite boxes_payload, renders_app, renders_cons. unfold c_head, render at 1, bsize. cbn [kind body].
  by rewrite <-!app_assoc.
Qed.

Lemma fragment_ok_payload c p p' : len p = len p' -> fragment_ok (with_payload c p) -> fragment_ok (with_payload c p').
Proof.
  intros Hp Hok. pose proof (ok_size _ Hok) as Hs. rewrite render_payload in Hs.
  destruct Hok as [H1 H2 H3 H4 H5 H6 H7 H8 _ H10 H11]. split; try done.
  - unfold with_payload in *. cbn [after] in *. apply Forall_app in H5 as [H5 H5']. apply Forall_cons in H5' as [[_ Hb] H5'].
    apply Forall_app. split; [done|]. constructor; [|done]. split; [done|]. revert Hb. unfold bsize. cbn [body]. by rewrite Hp.
  - rewrite render_payload, (c_head_payload c p' p) by done. revert Hs. lens. lia.
Qed.

Section Layout.
Context (c : Carrier) (p0 : list Z) (h : tfhd_fields) (ts : list trun_fields).
Hypothesis Hc : layout_ok c p0 h ts.

Let head := c_head c p0.
Let tail := renders (c_after c).
Let N := length p0.
Let moof_off := len (renders (c_before c)).

Lemma payload_bytes p : length p = N -> render_fragment (with_payload c p) = head ++ p ++ tail.
Proof. intros Hp. rewrite render_payload. subst head. rewrite (c_head_payload c p p0); [done|]. unfold len. by rewrite Hp. Qed.

Lemma payload_ok p : length p = N -> fragment_ok (with_payload c p).
Proof. intros Hp. eapply fragment_ok_payload; [|apply Hc]. unfold len. by rewrite Hp. Qed.

Lemma payload_len : len head + Z.of_nat N + len tail < 2 ^ 63.
Proof. pose proof (ok_size _ (l_fragment _ _ _ _ Hc)) as H. rewrite (payload_bytes p0) in H by done. revert H. lens. change (len p0) with (Z.of_nat N). lia. Qed.

(** A run is read the same, whatever the payload. *)
Lemma parse_run bs1 t bs2 :
  c_traf c = bs1 ++ trun_box t :: bs2 -> trun_ok t -> forall p, length p = N ->
  parse_trun (head ++ p ++ tail) (moof_off + 8 + len (renders (c_moof_before c))) (8 + len (renders (c_traf c)))
    (len (traf_pre (with_payload c p0)) + len (renders bs1)) (bsize (trun_box t)) =
  Done (Some (mkTrunInfo (len (tr_samples t))
    (if has (tr_flags t) 1 then Some (len (traf_pre (with_payload c p0)) + len (renders bs1) + 16) else None)
    (if has (tr_flags t) 1 then swrap 32 (tr_offset t) else 0) (run_sizes h t))).
Proof.
  intros Ht Htok p Hp. rewrite <-payload_bytes by done. rewrite fragment_in_traf.
  pose proof (payload_ok p Hp) as Hok. pose proof (ok_size _ Hok) as Hs. rewrite fragment_in_traf in Hs.
  destruct (l_tfhd _ _ _ _ Hc) as ((cs1 & cs2 & Hcs & Hn) & Hh). pose proof (ok_traf _ Hok) as Hokt.
  cbn [traf moof_after with_payload] in *. rewrite Ht in *.
  change (traf_pre (with_payload c p)) with (traf_pre (with_payload c p0)) in *.
  apply (parse_trun_fields _ _ bs1 bs2 cs1 cs2); try done.
  - pose proof (len_nonneg (renders (c_before c))). pose proof (len_nonneg (renders (c_moof_before c))). subst moof_off. lia.
  - rewrite len_traf_pre. cbn [before moof_before with_payload]. subst moof_off. lia.
Qed.

Lemma run_start_sum k t :
  trun_ok t -> len head + run_start moof_off (len head) k t =
  (if 0 <? (if has (tr_flags t) 1 then swrap 32 (tr_offset t) else 0)
   then moof_off ⊕ (if has (tr_flags t) 1 then swrap 32 (tr_offset t) else 0) else len head + k).
Proof.
  intros _. unfold run_start. set (o := if has _ _ then _ else _). pose proof (len_nonneg (renders (c_before c))).
  assert (Ho : o < 2 ^ 32).
  { subst o. destruct (has _ _); [|lia]. unfold swrap. pose proof (Z.mod_pos_bound (tr_offset t + 2 ^ (32 - 1)) (2 ^ 32) ltac:(lia)). lia. }
  pose proof payload_len. pose proof (len_nonneg tail).
  assert (moof_off <= len head).
  { subst moof_off head. unfold c_head, c_prefix. lens. pose proof (len_nonneg (render (moof_box (with_payload c p0)))).
    pose proof (len_nonneg (renders (c_between c))). change (len (lit "mdat")) with 4. lia. }
  destruct (Z.ltb_spec 0 o); [nowrap|]; lia.
Qed.

Lemma run_sizes_range t : trun_ok t -> Forall (fun s => 0 <= s < 2 ^ 32) (run_sizes h t).
Proof.
  intros (_ & _ & _ & Hs). destruct (l_tfhd _ _ _ _ Hc) as (_ & (_ & _ & Hh)). unfold run_sizes.
  apply Forall_fmap. eapply Forall_impl; [exact Hs|]. intros s Hz. cbn in Hz. cbn. repeat case_match; lia.
Qed.

Lemma find_mdat p msg :
  length p = N ->
  require_box (head ++ p ++ tail) 0 (len (head ++ p ++ tail)) (lit "mdat") msg = Done (len head - 8, 8 + len p).
Proof.
  intros Hp. pose proof (payload_ok p Hp) as Hok. pose proof (ok_size _ Hok) as Hs. rewrite <-payload_bytes by done.
  assert (H : find_child_box ([] ++ renders (c_prefix c p ++ mkBox (lit "mdat") p :: c_after c) ++ []) 0
      (len (render_fragment (with_payload c p))) (lit "mdat") =
    Done (Some (len (@nil Z) + len (renders (c_prefix c p)), bsize (mkBox (lit "mdat") p)))).
  { apply (find_first [] (c_prefix c p) (mkBox (lit "mdat") p) (c_after c)); rewrite <-?boxes_payload.
    - by apply all_boxes_ok.
    - by rewrite app_nil_r.
    - pose proof (l_first_mdat _ _ _ _ Hc) as Hn. apply Forall_app in Hn as [Hn1 Hn2]. unfold c_prefix.
      apply Forall_app. split; [exact Hn1|]. constructor; [done|exact Hn2].
    - done.
    - done. }
  rewrite app_nil_r, <-boxes_payload in H. change ([] ++ renders (boxes (with_payload c p))) with (render_fragment (with_payload c p)) in H.
  unfold require_box. rewrite H. run_simpl. do 2 f_equal. subst head. unfold c_head.
  change (c_prefix c p0) with (c_prefix c p). lens. change (len (lit "mdat")) with 4. lia.
Qed.


(** A box of the track fragment is where the boxes before it say, whatever the payload. *)
Lemma found_in_traf bs1 b bs2 :
  c_traf c = bs1 ++ b :: bs2 -> Forall (fun x => kind x <> kind b) bs1 -> forall p, length p = N ->
  find_child_box (head ++ p ++ tail) (len (traf_pre (with_payload c p0))) (len (traf_pre (with_payload c p0)) + len (renders (c_traf c)))
    (kind b) = Done (Some (len (traf_pre (with_payload c p0)) + len (renders bs1), bsize b)) /\
  exists pre post, head ++ p ++ tail = pre ++ render b ++ post /\
    len pre = len (traf_pre (with_payload c p0)) + len (renders bs1) /\ box_ok b /\ len (head ++ p ++ tail) < 2 ^ 63.
Proof.
  intros Ht Hn p Hp. pose proof (payload_ok p Hp) as Hok. pose proof (ok_size _ Hok) as Hsz. pose proof (ok_traf _ Hok) as Hokt.
  rewrite <-payload_bytes by done. rewrite fragment_in_traf in Hsz |- *. cbn [traf moof_after after with_payload] in *.
  change (traf_pre (with_payload c p)) with (traf_pre (with_payload c p0)) in *. rewrite Ht in *. split.
  - by apply (find_first _ bs1 b bs2).
  - exists (traf_pre (with_payload c p0) ++ renders bs1), (renders bs2 ++ renders (c_moof_after c) ++ renders (c_between c ++ mkBox (lit "mdat") p :: c_after c)).
    split_and!; [by rewrite renders_app, renders_cons, <-!app_assoc|by rewrite len_app| |exact Hsz].
    apply Forall_app in Hokt as [_ Ho]. by inversion Ho.
Qed.

Lemma collect_in_traf bounded keep q p :
  length p = N ->
  (forall l1 b l2, c_traf c = l1 ++ b :: l2 ->
     keep (len (traf_pre (with_payload c p0)) + len (renders l1)) (kind b) = Done (q b)) ->
  collect (S (length (head ++ p ++ tail))) bounded keep (head ++ p ++ tail)
    (len (traf_pre (with_payload c p0))) (len (traf_pre (with_payload c p0)) + len (renders (c_traf c))) =
  Done (picked q (len (traf_pre (with_payload c p0))) (c_traf c)).
Proof.
  intros Hp Hk. pose proof (payload_ok p Hp) as Hok. pose proof (ok_size _ Hok) as Hsz. rewrite <-payload_bytes by done.
  rewrite fragment_in_traf in Hsz |- *. change (traf_pre (with_payload c p)) with (traf_pre (with_payload c p0)) in *.
  cbn [traf with_payload] in *. apply collect_boxes; [apply Hok|done|exact Hk].
Qed.
End Layout.
