(* ===== verification/CencDecrypt.v ===== *)
(** * CencDecrypt: decrypting the samples of a fragment (crates/apple/src/wrapper/cenc.rs)

    [decrypt_cenc_fragment].  AES-128 in counter mode is a parameter: the byte of the key stream at
    a position, for a key and a vector; [apply_keystream] xors the next bytes with it.  A call that fails
    gives no buffer back, as its callers drop it. *)
From S2P Require Import Prelude Text Bytes Boxes TrackRuns Senc CencStrip FragmentLayout.

#[local] Open Scope rust_scope.

(** [cipher.apply_keystream(&mut data[a..a + n])] when [used] bytes of the stream are spent. *)
Definition xor_segment (stream : Z -> Z) (used : Z) (segment : list Z) : list Z :=
  imap (fun i b => Z.lxor b (stream (used + Z.of_nat i))) segment.

Definition apply_keystream (stream : Z -> Z) (used : Z) (data : list Z) (a n : Z) : run (list Z) :=
  segment ← must (slice data a (a ⊕ n));
  must (store data a (xor_segment stream used segment)).

(** The vector of a sample, completed with zeros. *)
Definition full_iv (s : SencSample) : list Z :=
  let v := take 16 (iv s) in v ++ replicate (16 - length v) 0.

Definition out_of_bounds (idx start stop length : Z) : str :=
  lit "CENC sample " ++ show_u idx ++ lit " range " ++ show_u start ++ lit ".." ++ show_u stop ++
  lit " out of bounds (" ++ show_u length ++ lit ")".

Section Ctr.
Variable keystream : list Z -> list Z -> Z -> Z.
Variable key : list Z.

(** The protected parts of a sample share one stream; a part that overruns the sample ends it. *)
Fixpoint decrypt_subsamples (stream : Z -> Z) (data : list Z) (start size pos used : Z) (subs : list (Z * Z)) : run (list Z) :=
  match subs with
  | [] => mret data
  | (clear, protected) :: rest =>
      let pos := pos ⊕ clear in
      if size <? pos ⊕ protected then mret data else
      data' ← apply_keystream stream used data (start ⊕ pos) protected;
      decrypt_subsamples stream data' start size (pos ⊕ protected) (used + protected) rest
  end.

Definition decrypt_sample (data : list Z) (start size : Z) (info : option SencSample) : run (list Z) :=
  match info with
  | None => mret data
  | Some info =>
      let stream := keystream key (full_iv info) in
      match subsamples info with
      | [] => apply_keystream stream 0 data start size
      | subs => decrypt_subsamples stream data start size 0 0 subs
      end
  end.

Fixpoint decrypt_samples (samples_info : list SencSample) (data : list Z) (sizes : list Z) (sample_offset idx : Z) :
    run (list Z * (Z * Z)) :=
  match sizes with
  | [] => mret (data, (sample_offset, idx))
  | size :: rest =>
      if size =? 0 then decrypt_samples samples_info data rest sample_offset idx else
      let stop := sample_offset ⊕ size in
      if len data <? stop then Fail (Message (out_of_bounds idx sample_offset stop (len data))) else
      data' ← decrypt_sample data sample_offset size (get samples_info idx);
      decrypt_samples samples_info data' rest stop (idx ⊕ 1)
  end.

Fixpoint decrypt_runs (samples_info : list SencSample) (data : list Z) (moof_off traf_off traf_len : Z)
    (runs : list (Z * Z)) (sample_offset idx : Z) : run (list Z) :=
  match runs with
  | [] => mret data
  | (trun_off, trun_len) :: rest =>
      trun ← parse_trun data traf_off traf_len trun_off trun_len;
      match trun with
      | None => Fail (Message (lit "Failed to parse trun box"))
      | Some trun =>
          let sample_offset := if 0 <? data_offset trun then moof_off ⊕ data_offset trun else sample_offset in
          r ← decrypt_samples samples_info data (sample_sizes trun) sample_offset idx;
          let '(data', (sample_offset, idx)) := r : list Z * (Z * Z) in
          decrypt_runs samples_info data' moof_off traf_off traf_len rest sample_offset idx
      end
  end.

Definition decrypt_cenc_fragment (fragment : list Z) : run (bool * list Z) :=
  let total_len := len fragment in
  moof ← require_box fragment 0 total_len (lit "moof") (lit "Missing moof box in fragment");
  let '(moof_off, moof_len) := moof : Z * Z in
  mdat ← require_box fragment 0 total_len (lit "mdat") (lit "Missing mdat box in fragment");
  let '(mdat_off, _) := mdat : Z * Z in
  traf ← require_box fragment (moof_off ⊕ 8) (moof_off ⊕ moof_len) (lit "traf") (lit "Missing traf box in moof");
  let '(traf_off, traf_len) := traf : Z * Z in
  senc ← find_child_box fragment (traf_off ⊕ 8) (traf_off ⊕ traf_len) (lit "senc");
  match senc with
  | None => mret (false, fragment)
  | Some (senc_off, senc_len) =>
      samples_info ← parse_senc_samples fragment senc_off senc_len;
      match samples_info with
      | None => Fail (Message (lit "Failed to parse senc box"))
      | Some samples_info =>
          trun_boxes ← collect (S (length fragment)) false (of_type (lit "trun")) fragment (traf_off ⊕ 8) (traf_off ⊕ traf_len);
          data ← decrypt_runs samples_info fragment moof_off traf_off traf_len trun_boxes (mdat_off ⊕ 8) 0;
          mret (true, data)
      end
  end.
End Ctr.

(** ** Masks *)

Definition xors (l mask : list Z) : list Z := zip_with Z.lxor l mask.

Lemma xors_length l mask : length l = length mask -> length (xors l mask) = length l.
Proof. intros H. unfold xors. rewrite length_zip_with. lia. Qed.

Lemma xors_app l1 l2 m1 m2 : length l1 = length m1 -> xors (l1 ++ l2) (m1 ++ m2) = xors l1 m1 ++ xors l2 m2.
Proof. apply zip_with_app. Qed.

Lemma xors_zero l n : n = length l -> xors l (replicate n 0) = l.
Proof.
  intros ->. unfold xors. induction l as [|b l IH]; [done|]. cbn [length replicate zip_with]. by rewrite IH, Z.lxor_0_r.
Qed.

Lemma xors_xors l m1 m2 : xors (xors l m1) m2 = xors l (xors m1 m2).
Proof.
  unfold xors. revert m1 m2. induction l as [|b l IH]; intros [|a m1] [|c m2]; cbn [zip_with]; [done..|].
  by rewrite IH, Z.lxor_assoc.
Qed.

Lemma xors_twice l m : length l = length m -> xors (xors l m) m = l.
Proof.
  unfold xors. revert m. induction l as [|b l IH]; intros [|a m] H; cbn in H |- *; try lia; [done|].
  by rewrite IH, Z.lxor_assoc, Z.lxor_nilpotent, Z.lxor_0_r by lia.
Qed.

Lemma xor_segment_mask stream used l :
  xor_segment stream used l = xors l ((fun i => stream (used + Z.of_nat i)) <$> seq 0 (length l)).
Proof.
  unfold xor_segment, xors. apply list_eq. intros i. rewrite list_lookup_imap, lookup_zip_with, list_lookup_fmap.
  destruct (l !! i) as [b|] eqn:E; cbn; [|done].
  rewrite lookup_seq_lt by (by eapply lookup_lt_Some). done.
Qed.

Definition count_samples (sizes : list Z) : Z := len (filter (fun s => s <> 0) sizes).

Lemma count_samples_cons size sizes :
  count_samples (size :: sizes) = (if size =? 0 then 0 else 1) + count_samples sizes.
Proof.
  unfold count_samples. rewrite filter_cons. destruct (Z.eqb_spec size 0); case_decide; try done. by rewrite len_cons.
Qed.

Lemma count_range sizes : 0 <= count_samples sizes <= len sizes.
Proof.
  induction sizes as [|s l IH]; [done|]. rewrite count_samples_cons, len_cons. destruct (s =? 0); lia.
Qed.

(** A step of the decryption on a buffer whose head and tail are fixed: whatever the payload, it xors it
    with the same bytes and returns the same value. *)
Section Masks.
Variables (head tail : list Z) (N : nat).
Hypothesis Hlen : len head + Z.of_nat N + len tail < 2 ^ 63.

Definition masks {A} (step : list Z -> run A) (out : list Z -> A) : Prop :=
  exists m, length m = N /\ forall p, length p = N -> step (head ++ p ++ tail) = Done (out (head ++ xors p m ++ tail)).

Lemma masks_id {A} (out : list Z -> A) : masks (fun data => mret (out data)) out.
Proof.
  exists (replicate N 0). split; [apply length_replicate|]. intros p Hp. by rewrite xors_zero.
Qed.

Lemma masks_ext {A} (step step' : list Z -> run A) (out : list Z -> A) :
  (forall p, length p = N -> step (head ++ p ++ tail) = step' (head ++ p ++ tail)) -> masks step' out -> masks step out.
Proof. intros He (m & Hm & H). exists m. split; [done|]. intros p Hp. rewrite He by done. by apply H. Qed.

(** Steps compose, the second one seeing what the first one returned. *)
Lemma masks_bind {A B} (step : list Z -> run A) (out : list Z -> A) (k : A -> run B) (out' : list Z -> B) :
  masks step out -> masks (fun data => k (out data)) out' -> masks (fun data => x ← step data; k x) out'.
Proof.
  intros (m & Hm & H) (m' & Hm' & H'). exists (xors m m'). split; [rewrite xors_length; lia|].
  intros p Hp. rewrite H by done. run_simpl. rewrite H' by (rewrite xors_length; lia). by rewrite xors_xors.
Qed.

Lemma masks_keystream stream used a n k :
  a = len head + k -> 0 <= k -> 0 <= n -> k + n <= Z.of_nat N ->
  masks (fun data => apply_keystream stream used data a n) id.
Proof.
  intros -> Hk Hn Hb. set (ks := (fun i => stream (used + Z.of_nat i)) <$> seq 0 (Z.to_nat n)).
  assert (Hks : length ks = Z.to_nat n) by (subst ks; by rewrite length_fmap, length_seq).
  exists (replicate (Z.to_nat k) 0 ++ ks ++ replicate (N - Z.to_nat (k + n)) 0).
  split; [rewrite !length_app, !length_replicate, Hks; lia|].
  intros p Hp. destruct (cut p k (k + n)) as (x & y & z & -> & Hx & Hy); [lia|unfold len; lia|].
  assert (Hz : length z = (N - Z.to_nat (k + n))%nat) by (revert Hp; rewrite !length_app; unfold len in *; lia).
  pose proof (len_nonneg head). pose proof (len_nonneg tail).
  unfold apply_keystream. nowrap.
  replace (head ++ (x ++ y ++ z) ++ tail) with ((head ++ x) ++ y ++ (z ++ tail)) by (by rewrite <-!app_assoc).
  rewrite slice_mid by (rewrite ?len_app; lia). run_simpl.
  rewrite store_mid by (rewrite ?len_app; unfold len, xor_segment; rewrite ?length_imap; unfold len in *; lia). run_simpl.
  rewrite xor_segment_mask. assert (Z.to_nat n = length y) as Hny by (unfold len in Hy; lia).
  unfold ks. rewrite Hny, (xors_app x), (xors_app y), !xors_zero by
    (rewrite ?length_replicate, ?length_fmap, ?length_seq; unfold len in *; lia).
  unfold id. by rewrite <-!app_assoc.
Qed.

Context (keystream : list Z -> list Z -> Z -> Z) (key : list Z).

Lemma masks_subsamples stream start size k subs pos used :
  start = len head + k -> 0 <= k -> k + size <= Z.of_nat N -> 0 <= pos <= size ->
  Forall (fun '(c, p) => 0 <= c < 2 ^ 16 /\ 0 <= p < 2 ^ 32) subs -> size < 2 ^ 32 ->
  masks (fun data => decrypt_subsamples stream data start size pos used subs) id.
Proof.
  intros -> Hk Hb Hp Hs Hz. revert pos used Hp. pose proof (len_nonneg head). pose proof (len_nonneg tail).
  induction Hs as [|[c p] subs [Hc Hpr] _ IH]; intros pos used Hp; cbn [decrypt_subsamples]; [apply masks_id|].
  rewrite (uadd_small pos c) by lia. rewrite (uadd_small (pos + c) p) by lia.
  destruct (Z.ltb_spec size (pos + c + p)); [apply masks_id|].
  apply masks_bind with id.
  - apply masks_keystream with (k + (pos + c)); [nowrap|..]; lia.
  - apply IH. lia.
Qed.

Lemma masks_sample start size k subs n info :
  start = len head + k -> 0 <= k -> 0 <= size < 2 ^ 32 -> k + size <= Z.of_nat N ->
  (forall s, info = Some s -> sample_ok subs n s) ->
  masks (fun data => decrypt_sample keystream key data start size info) id.
Proof.
  intros Hst Hk Hz Hb Hi. unfold decrypt_sample. destruct info as [s|]; [|apply masks_id]. cbv iota zeta.
  destruct (Hi s eq_refl) as [_ _ Hr _]. destruct (subsamples s) as [|x l] eqn:E.
  - apply masks_keystream with k; (done || lia).
  - apply masks_subsamples with k; (done || lia).
Qed.

(** The sizes of a run, all of whose samples lie in the payload. *)
Fixpoint inside (k : Z) (sizes : list Z) : Prop :=
  match sizes with
  | [] => True
  | size :: rest => if size =? 0 then inside k rest else 0 <= k /\ k + size <= Z.of_nat N /\ inside (k + size) rest
  end.

Lemma masks_samples subs n samples_info sizes k idx :
  Forall (sample_ok subs n) samples_info -> Forall (fun s => 0 <= s < 2 ^ 32) sizes -> inside k sizes ->
  0 <= idx -> idx + len sizes < 2 ^ 63 ->
  masks (fun data => decrypt_samples keystream key samples_info data sizes (len head + k) idx)
        (fun data => (data, (len head + k + sumZ sizes, idx + count_samples sizes))).
Proof.
  intros Hi Hz. revert k idx. pose proof (len_nonneg head). pose proof (len_nonneg tail).
  induction Hz as [|size sizes Hs _ IH]; intros k idx Hin Hidx Hb; cbn [decrypt_samples].
  - unfold count_samples. cbn. rewrite !Z.add_0_r. apply masks_id.
  - cbn [inside] in Hin. rewrite len_cons in Hb. rewrite count_samples_cons.
    change (sumZ (size :: sizes)) with (size + sumZ sizes).
    destruct (Z.eqb_spec size 0) as [->|Hn]; [rewrite !Z.add_0_l; apply IH; (done || lia)|].
    destruct Hin as (Hk0 & Hkb & Hin). pose proof (len_nonneg sizes). rewrite (uadd_small _ size), (uadd_small idx 1) by lia.
    apply masks_ext with (fun data => data' ← decrypt_sample keystream key data (len head + k) size (get samples_info idx);
      decrypt_samples keystream key samples_info data' sizes (len head + k + size) (idx + 1)).
    { intros p Hp. assert (len head + k + size <= len (head ++ p ++ tail)) by (lens; unfold len in *; lia).
      by decide_le. }
    apply masks_bind with id.
    + eapply masks_sample with (k := k); [done|lia..|]. intros s Hg. rewrite Forall_forall in Hi. apply Hi.
      rewrite get_lookup in Hg by lia. by eapply list_elem_of_lookup_2.
    + unfold id. replace (len head + k + size) with (len head + (k + size)) by lia.
      rewrite (Z.add_assoc idx 1).
      replace (len head + k + (size + sumZ sizes)) with (len head + (k + size) + sumZ sizes) by lia.
      apply IH; (done || lia).
Qed.
End Masks.

(** All samples of the runs lie in a payload of [N] bytes. *)
Fixpoint runs_inside (N : nat) (h : tfhd_fields) (moof_off payload_off k : Z) (ts : list trun_fields) : Prop :=
  match ts with
  | [] => True
  | t :: rest =>
      let k' := run_start moof_off payload_off k t in
      inside N k' (run_sizes h t) /\ runs_inside N h moof_off payload_off (k' + sumZ (run_sizes h t)) rest
  end.

Record cenc_ok (c : Carrier) (p : list Z) (h : tfhd_fields) (subs : bool) (n : Z) (l : list SencSample)
    (ts : list trun_fields) : Prop := {
  c_layout : layout_ok c p h ts;
  c_senc : first_is (senc_box subs l) (c_traf c);
  c_vectors : n ∈ [0; 8; 16] /\ Forall (sample_ok subs n) l /\ len l < 2 ^ 32 /\ (subs = true -> len l mod 3 <> 0);
  (* its samples are in the payload *)
  c_inside : runs_inside (length p) h (len (renders (c_before c))) (len (c_head c p)) 0 ts;
  c_count : sumZ ((fun t => len (tr_samples t)) <$> ts) < 2 ^ 62;
}.

Section Decrypting.
Context (keystream : list Z -> list Z -> Z -> Z) (key : list Z).
Context (c : Carrier) (p0 : list Z) (h : tfhd_fields) (subs : bool) (n : Z) (l : list SencSample) (ts : list trun_fields).
Hypothesis Hc : cenc_ok c p0 h subs n l ts.

Let head := c_head c p0.
Let tail := renders (c_after c).
Let N := length p0.
Let moof_off := len (renders (c_before c)).
Let Hl : layout_ok c p0 h ts := c_layout _ _ _ _ _ _ _ Hc.
Let payload_bytes : forall p, length p = N -> render_fragment (with_payload c p) = head ++ p ++ tail := payload_bytes c p0.
Let payload_ok : forall p, length p = N -> fragment_ok (with_payload c p) := payload_ok c p0 h ts Hl.
Let payload_len : len head + Z.of_nat N + len tail < 2 ^ 63 := payload_len c p0 h ts Hl.

Lemma masks_runs bs1 bs2 ts2 k idx :
  c_traf c = bs1 ++ bs2 -> filter (fun b => is_run b = true) bs2 = trun_box <$> ts2 -> Forall trun_ok ts2 ->
  runs_inside N h moof_off (len head) k ts2 -> 0 <= idx -> idx + sumZ ((fun t => len (tr_samples t)) <$> ts2) < 2 ^ 62 ->
  masks head tail N (fun data => decrypt_runs keystream key l data moof_off (moof_off + 8 + len (renders (c_moof_before c)))
    (8 + len (renders (c_traf c))) (picked is_run (len (traf_pre (with_payload c p0)) + len (renders bs1)) bs2) (len head + k) idx) id.
Proof.
  intros Ht Hf Hts. revert bs1 ts2 k idx Ht Hf Hts. induction bs2 as [|b bs2 IH]; intros bs1 ts2 k idx Ht Hf Hts Hin Hidx Hsum;
    [apply masks_id|].
  cbn [picked]. rewrite filter_cons in Hf.
  assert (Hbok : box_ok b).
  { pose proof (ok_traf _ (l_fragment _ _ _ _ Hl)) as H. cbn [traf with_payload] in H. rewrite Ht in H.
    apply Forall_app in H as [_ H]. by inversion H. }
  assert (Hnext : len (traf_pre (with_payload c p0)) + len (renders bs1) + bsize b =
    len (traf_pre (with_payload c p0)) + len (renders (bs1 ++ [b]))) by (lens; rewrite len_render by done; lia).
  assert (Ht' : c_traf c = (bs1 ++ [b]) ++ bs2) by (by rewrite <-app_assoc).
  destruct (is_run b) eqn:Er; case_decide; try done; cbn [app]; rewrite Hnext; [|by eapply IH].
  destruct ts2 as [|t ts2]; [done|]. rewrite fmap_cons in Hf. injection Hf as Hbt Hf. subst b.
  apply Forall_cons in Hts as [Htok Hts]. destruct Hin as [Hin Hins]. cbn [decrypt_runs].
  rewrite fmap_cons in Hsum. change (sumZ (len (tr_samples t) :: ?x)) with (len (tr_samples t) + sumZ x) in Hsum.
  pose proof (count_range (run_sizes h t)) as Hcount. assert (Hrl : len (run_sizes h t) = len (tr_samples t))
    by (unfold run_sizes, len; by rewrite length_fmap).
  assert (0 <= sumZ ((fun t => len (tr_samples t)) <$> ts2)) by (apply sumZ_nonneg, Forall_fmap, Forall_true; intros; apply len_nonneg).
  pose proof (len_nonneg (tr_samples t)). set (k' := run_start moof_off (len head) k t) in *.
  apply masks_ext with (fun data => r ← decrypt_samples keystream key l data (run_sizes h t) (len head + k') idx;
    let '(data', (sample_offset, idx)) := r : list Z * (Z * Z) in
    decrypt_runs keystream key l data' moof_off (moof_off + 8 + len (renders (c_moof_before c))) (8 + len (renders (c_traf c)))
      (picked is_run (len (traf_pre (with_payload c p0)) + len (renders (bs1 ++ [trun_box t]))) bs2) sample_offset idx).
  { intros p Hp. pose proof (parse_run c p0 h ts Hl bs1 t bs2 Ht Htok p Hp) as Hpr. fold head tail moof_off in Hpr. rewrite Hpr. run_simpl. cbn [data_offset sample_sizes].
    replace (if 0 <? (if has (tr_flags t) 1 then swrap 32 (tr_offset t) else 0)
             then moof_off ⊕ (if has (tr_flags t) 1 then swrap 32 (tr_offset t) else 0) else len head + k)
      with (len head + k'); [done|]. by apply (run_start_sum c p0 h ts Hl). }
  eapply masks_bind with (out := fun data => (data, (len head + k' + sumZ (run_sizes h t), idx + count_samples (run_sizes h t)))).
  - apply masks_samples with subs n; [apply payload_len|apply Hc| |done|done|lia].
    by apply (run_sizes_range c p0 h ts Hl).
  - cbv iota beta. rewrite <-(Z.add_assoc (len head)). eapply IH; [done|done|done|done|lia|lia].
Qed.

Lemma find_senc :
  exists o, forall p, length p = N ->
    find_child_box (head ++ p ++ tail) (len (traf_pre (with_payload c p0))) (len (traf_pre (with_payload c p0)) + len (renders (c_traf c)))
      (lit "senc") = Done (Some (o, bsize (senc_box subs l))) /\
    parse_senc_samples (head ++ p ++ tail) o (bsize (senc_box subs l)) = Done (Some l).
Proof.
  destruct (c_senc _ _ _ _ _ _ _ Hc) as (bs1 & bs2 & Ht & Hn). destruct (c_vectors _ _ _ _ _ _ _ Hc) as (Hiv & Hs & Hcount & H3).
  exists (len (traf_pre (with_payload c p0)) + len (renders bs1)). intros p Hp.
  destruct (found_in_traf c p0 h ts Hl bs1 _ bs2 Ht Hn p Hp) as (Hf & pre & post & Hd & Hlen & Hb & Hsz).
  fold head tail in Hf, Hd, Hsz. split; [exact Hf|]. rewrite Hd in Hsz |- *. rewrite <-Hlen. by apply (senc_parse subs n).
Qed.

(** Decrypting xors the payload with a mask that depends on the tables and the key only. *)
Lemma decrypt_masks : masks head tail N (decrypt_cenc_fragment keystream key) (fun data => (true, data)).
Proof.
  destruct find_senc as (o & Hsenc). pose proof (len_nonneg (renders (c_before c))). pose proof payload_len.
  pose proof (len_nonneg (renders (c_moof_before c))). pose proof (len_nonneg (renders (c_traf c))).
  pose proof (len_nonneg (renders (c_moof_after c))). pose proof (len_nonneg tail).
  assert (Htp : len (traf_pre (with_payload c p0)) = moof_off + 16 + len (renders (c_moof_before c)))
    by (rewrite len_traf_pre; reflexivity).
  assert (Hfl : forall p, length p = N -> len (head ++ p ++ tail) = moof_off + bsize (moof_box (with_payload c p0)) +
      len (renders (c_between c ++ mkBox (lit "mdat") p :: c_after c))).
  { intros p Hp. rewrite <-payload_bytes by done. by rewrite fragment_len by (by apply payload_ok). }
  assert (Hmb : bsize (moof_box (with_payload c p0)) = 8 + len (renders (c_moof_before c)) + (8 + len (renders (c_traf c))) + len (renders (c_moof_after c)))
    by (by rewrite (bsize_moof _ (payload_ok p0 eq_refl))).
  apply masks_ext with (fun data => data' ← decrypt_runs keystream key l data moof_off (moof_off + 8 + len (renders (c_moof_before c)))
    (8 + len (renders (c_traf c))) (picked is_run (len (traf_pre (with_payload c p0)) + len (renders [])) (c_traf c)) (len head + 0) 0;
    mret (true, data')).
  { intros p Hp. specialize (Hfl p Hp). destruct (Hsenc p Hp) as [Hf Hps]. unfold decrypt_cenc_fragment.
    pose proof (len_nonneg (renders (c_between c ++ mkBox (lit "mdat") p :: c_after c))).
    assert (len (head ++ p ++ tail) < 2 ^ 63).
    { rewrite <-payload_bytes by done. apply ok_size. by apply payload_ok. }
    rewrite <-(payload_bytes p Hp), (find_moof _ (payload_ok p Hp)). run_simpl.
    pose proof (find_mdat c p0 h ts Hl p (lit "Missing mdat box in fragment") Hp) as Hmdat. fold head tail in Hmdat.
    rewrite (payload_bytes p Hp), Hmdat. run_simpl.
    rewrite <-(payload_bytes p Hp), (find_traf _ (payload_ok p Hp)). run_simpl. rewrite (payload_bytes p Hp).
    pose proof (len_moof_pre (with_payload c p)) as Hmp. cbn [before moof_before with_payload] in *. fold moof_off in Hmp |- *. rewrite Hmp.
    change (bsize (traf_box (with_payload c p))) with (8 + len (renders (c_traf c))).
    assert (0 <= moof_off) by done. nowrap.
    replace (moof_off + 8 + len (renders (c_moof_before c)) + 8) with (len (traf_pre (with_payload c p0))) by lia.
    replace (moof_off + 8 + len (renders (c_moof_before c)) + (8 + len (renders (c_traf c))))
      with (len (traf_pre (with_payload c p0)) + len (renders (c_traf c))) by lia.
    rewrite Hf. run_simpl. rewrite Hps. run_simpl. pose proof (collect_in_traf c p0 h ts Hl false (of_type (lit "trun")) is_run p Hp ltac:(intros; apply of_type_keep)) as Hcr.
    fold head tail in Hcr. rewrite Hcr. run_simpl.
    pose proof (len_nonneg head). nowrap.
    replace (len (traf_pre (with_payload c p0)) + len (renders [])) with (len (traf_pre (with_payload c p0)))
      by (rewrite renders_nil, len_nil; lia).
    by replace (len head - 8 + 8) with (len head + 0) by lia. }
  apply masks_bind with id; [|apply masks_id].
  destruct (l_runs _ _ _ _ Hl) as [Hruns Hts].
  eapply masks_runs; [done|exact Hruns|done| |done|]; [apply Hc|]. pose proof (c_count _ _ _ _ _ _ _ Hc). lia.
Qed.
End Decrypting.

(** ** Theorems *)

(** Decryption is its own inverse: on a fragment whose tables are well formed and whose samples lie in its
    payload, it xors the payload with a mask that the tables and the key determine, whatever the payload, and
    changes nothing else.  So it decrypts what the same key stream encrypted, and encrypting is the same call. *)
Theorem cenc_decrypt_involutive (keystream : list Z -> list Z -> Z -> Z) (key : list Z) (c : Carrier) (p : list Z)
    (h : tfhd_fields) (subs : bool) (n : Z) (l : list SencSample) (ts : list trun_fields) :
  cenc_ok c p h subs n l ts ->
  exists mask, length mask = length p /\
    forall p', length p' = length p ->
      decrypt_cenc_fragment keystream key (render_fragment (with_payload c p')) =
        Done (true, render_fragment (with_payload c (xors p' mask))) /\
      decrypt_cenc_fragment keystream key (render_fragment (with_payload c (xors p' mask))) =
        Done (true, render_fragment (with_payload c p')).
Proof.
  intros Hc. destruct (decrypt_masks keystream key c p h subs n l ts Hc) as (m & Hm & H). exists m. split; [done|].
  intros p' Hp. assert (Hx : length (xors p' m) = length p) by (rewrite xors_length; lia).
  rewrite (payload_bytes c p p' Hp), (payload_bytes c p (xors p' m) Hx). split; [by apply H|].
  rewrite H by done. by rewrite xors_twice by lia.
Qed.

Definition demo_run : trun_fields := mkTrunFields 0x201 104 0 [mkTrunSample 0 20 0 0].
Definition demo_payload : list Z := replicate 20 7.
Definition demo_cenc : Carrier :=
  mkCarrier [] [] [tfhd_box demo_tfhd; trun_box demo_run; senc_box true demo_senc] [] [] [mkBox (lit "free") []].
Definition demo_stream (key iv : list Z) (i : Z) : Z := (i + 1) mod 256.

Lemma demo_cenc_ok : cenc_ok demo_cenc demo_payload demo_tfhd true 8 demo_senc [demo_run].
Proof.
  split.
  - split.
    + split; lazymatch goal with
      | |- Forall _ _ => repeat (apply Forall_cons; split; [first [by split; vm_compute|by intros ?; vm_compute|
          intros H; by vm_compute in H|intros [H|H]; by vm_compute in H]|]); apply Forall_nil_2
      | |- _ => by vm_compute
      end.
    + apply Forall_nil_2.
    + split; [|by vm_compute]. by exists [], [trun_box demo_run; senc_box true demo_senc].
    + split; [by vm_compute|]. apply Forall_cons. split; [|apply Forall_nil_2]. split_and!; [by vm_compute..|].
      apply Forall_cons. split; [cbn; lia|apply Forall_nil_2].
  - exists [tfhd_box demo_tfhd; trun_box demo_run], []. split; [done|].
    repeat (apply Forall_cons; split; [by vm_compute|]). apply Forall_nil_2.
  - split_and!; [set_solver| |by vm_compute|by vm_compute]. apply Forall_cons. split; [|apply Forall_nil_2].
    split; [by vm_compute|by vm_compute| |done]. apply Forall_cons. split; [cbn; lia|apply Forall_nil_2].
  - by vm_compute.
  - by vm_compute.
Qed.

(** Four clear bytes and sixteen protected ones: the mask is zero, then the stream. *)
Lemma cenc_decrypt_involutive_witness :
  decrypt_cenc_fragment demo_stream [] (render_fragment (with_payload demo_cenc demo_payload)) =
    Done (true, render_fragment (with_payload demo_cenc ([7; 7; 7; 7] ++ xors (replicate 16 7) (Z.of_nat <$> seq 1 16)))) /\
  exists mask, decrypt_cenc_fragment demo_stream [] (render_fragment (with_payload demo_cenc (xors demo_payload mask))) =
    Done (true, render_fragment (with_payload demo_cenc demo_payload)).
Proof.
  split; [by vm_compute|].
  destruct (cenc_decrypt_involutive demo_stream [] demo_cenc demo_payload demo_tfhd true 8 demo_senc [demo_run] demo_cenc_ok)
    as (mask & _ & H). exists mask. apply (H demo_payload eq_refl).
Defined.
