(* ===== verification/StartTime.v ===== *)
(** * StartTime: the start times of a stream's fragments (crates/apple/src/wrapper/decryptor.rs)

    [normalize_fragment_start_time], on any bytes, in the vocabulary of Boxes.v: an outcome that may fail,
    panic on a bad slice or keep going round a walk; and its reference, segments whose decode times are
    known. *)
From S2P Require Import Prelude Text Bytes Boxes TrackRuns.

#[local] Open Scope rust_scope.

(** A child of a box, after its header of eight bytes. *)
Definition child (data : list Z) (parent : Z * Z) (t : str) : run (option (Z * Z)) :=
  find_child_box data (fst parent ⊕ 8) (fst parent ⊕ snd parent) t.

(** ** Start times *)

(** The place of a decode time, its version and its value. *)
Record time_field := mkField { tf_offset : Z; tf_version : Z; tf_value : Z }.

(** The loop over the track fragments of one [moof]; [None] is [return false]. *)
Fixpoint traf_fields (data : list Z) (trafs : list (Z * Z)) : run (option (list time_field)) :=
  match trafs with
  | [] => mret (Some [])
  | traf :: trafs =>
      tfdt ← child data traf (lit "tfdt");
      match tfdt with
      | None => traf_fields data trafs
      | Some (tfdt_off, tfdt_len) =>
          match (if tfdt_off ⊕ 8 <? len data then slice data (tfdt_off ⊕ 8) (tfdt_off ⊕ 9) else None) with
          | Some [version] =>
              field ← (if (version =? 0) && (16 <=? tfdt_len) then
                         v ← read_be data (tfdt_off ⊕ 12) 4; mret (Some (mkField (tfdt_off ⊕ 12) version v))
                       else if (version =? 1) && (20 <=? tfdt_len) then
                         v ← read_be data (tfdt_off ⊕ 12) 8; mret (Some (mkField (tfdt_off ⊕ 12) version v))
                       else mret None);
              match field with
              | None => mret None
              | Some field => rest ← traf_fields data trafs; mret (cons field <$> rest)
              end
          | _ => mret None
          end
      end
  end.

Fixpoint scan_times (fuel : nat) (data : list Z) (offset : Z) : run (option (list time_field)) :=
  match fuel with
  | O => Spin
  | S f =>
      if offset ⊕ 8 <=? len data then
        h ← read_box_header data offset;
        match h with
        | None => mret None
        | Some (box_len, box_type, _) =>
            if (box_len <? 8) || (len data <? offset ⊕ box_len) then mret None
            else
              here ← (if decide (box_type = lit "moof") then
                        trafs ← find_all_child_boxes data (offset ⊕ 8) (offset ⊕ box_len) (lit "traf");
                        traf_fields data trafs
                      else mret (Some []));
              match here with
              | None => mret None
              | Some here => rest ← scan_times f data (offset ⊕ box_len); mret ((fun rest => here ++ rest) <$> rest)
              end
        end
      else mret (Some [])
  end.

(** The loop that writes; [false] at a value that does not fit. *)
Fixpoint write_times (data : list Z) (fields : list time_field) (first_time : Z) : run (bool * list Z) :=
  match fields with
  | [] => mret (true, data)
  | fd :: fields =>
      let normalized := tf_value fd - first_time in
      if tf_version fd =? 0 then
        if normalized <? 2 ^ 32 then
          data ← write_be data (tf_offset fd) 4 normalized; write_times data fields first_time
        else mret (false, data)
      else data ← write_be data (tf_offset fd) 8 normalized; write_times data fields first_time
  end.

(** [Iterator::min]. *)
Definition min_value (fields : list time_field) : option Z :=
  match tf_value <$> fields with [] => None | v :: vs => Some (foldl Z.min v vs) end.

Definition normalize_fragment_start_time (data : list Z) : run (bool * list Z) :=
  fields ← scan_times (S (length data)) data 0;
  match fields with
  | None => mret (false, data)
  | Some fields =>
      match min_value fields with
      | None => mret (false, data)
      | Some first_time => if first_time =? 0 then mret (false, data) else write_times data fields first_time
      end
  end.

(** ** The reference: segments with decode times *)

(** A track fragment with a decode time, an empty [tr_rest] in the files of the service. *)
Record Timed := mkTimed {
  tr_before : list Box;
  tr_version : Z;
  tr_flags : list Z;
  tr_time : Z;
  tr_rest : list Z;
  tr_after : list Box;
}.

(** The children of a movie fragment. *)
Inductive part :=
| Other (b : Box)
| Untimed (children : list Box)
| Track (t : Timed).

(** The boxes of a segment. *)
Inductive piece :=
| Whole (b : Box)
| Movie (parts : list part).

Definition time_width (version : Z) : nat := if version =? 0 then 4 else 8.
Definition tfdt_box (t : Timed) : Box :=
  mkBox (lit "tfdt") ((tr_version t :: tr_flags t) ++ to_be (time_width (tr_version t)) (tr_time t) ++ tr_rest t).
Definition timed_box (t : Timed) : Box := mkBox (lit "traf") (renders (tr_before t ++ tfdt_box t :: tr_after t)).
Definition part_box (p : part) : Box :=
  match p with Other b => b | Untimed bs => mkBox (lit "traf") (renders bs) | Track t => timed_box t end.
Definition movie_box (ps : list part) : Box := mkBox (lit "moof") (renders (part_box <$> ps)).
Definition piece_box (p : piece) : Box := match p with Whole b => b | Movie ps => movie_box ps end.
Definition segment (ps : list piece) : list Z := renders (piece_box <$> ps).

Record timed_ok (t : Timed) : Prop := {
  t_before : Forall box_ok (tr_before t);
  t_after : Forall box_ok (tr_after t);
  t_first : Forall (fun b => kind b <> lit "tfdt") (tr_before t);
  t_version : tr_version t = 0 \/ tr_version t = 1;
  t_flags : len (tr_flags t) = 3;
  t_time : 0 <= tr_time t < 256 ^ Z.of_nat (time_width (tr_version t));
}.

Definition part_ok (p : part) : Prop :=
  match p with
  | Other b => box_ok b /\ kind b <> lit "traf"
  | Untimed bs => Forall box_ok bs /\ Forall (fun b => kind b <> lit "tfdt") bs /\ box_ok (part_box p)
  | Track t => timed_ok t /\ box_ok (timed_box t)
  end.

Definition piece_ok (p : piece) : Prop :=
  match p with
  | Whole b => box_ok b /\ kind b <> lit "moof"
  | Movie ps => Forall part_ok ps /\ box_ok (movie_box ps)
  end.

Definition part_times (p : part) : list Z := match p with Track t => [tr_time t] | _ => [] end.
Definition piece_times (p : piece) : list Z := match p with Movie ps => concat (part_times <$> ps) | _ => [] end.
Definition times (ps : list piece) : list Z := concat (piece_times <$> ps).

(** The same segment [n] ticks earlier. *)
Definition earlier_part (n : Z) (p : part) : part :=
  match p with
  | Track t => Track (mkTimed (tr_before t) (tr_version t) (tr_flags t) (tr_time t - n) (tr_rest t) (tr_after t))
  | _ => p
  end.
Definition earlier (n : Z) (p : piece) : piece :=
  match p with Movie ps => Movie (earlier_part n <$> ps) | _ => p end.

(** ** A segment as bytes between decode times *)

Inductive stretch :=
| Bytes (l : list Z)
| Time (version value : Z).

Definition stretch_bytes (s : stretch) : list Z :=
  match s with Bytes l => l | Time version value => to_be (time_width version) value end.
Definition flat (l : list stretch) : list Z := concat (stretch_bytes <$> l).

Fixpoint fields_at (o : Z) (l : list stretch) : list time_field :=
  match l with
  | [] => []
  | s :: l =>
      (match s with Bytes _ => [] | Time version value => [mkField o version value] end) ++
      fields_at (o + len (stretch_bytes s)) l
  end.

Definition stretch_earlier (n : Z) (s : stretch) : stretch :=
  match s with Bytes l => Bytes l | Time version value => Time version (value - n) end.

Definition box_head (b : Box) : list Z := to_be 4 (bsize b) ++ kind b.

(** What precedes and what follows the decode time of a track fragment. *)
Definition time_before (t : Timed) : list Z :=
  (box_head (timed_box t) ++ renders (tr_before t)) ++ box_head (tfdt_box t) ++ tr_version t :: tr_flags t.
Definition time_after (t : Timed) : list Z := tr_rest t ++ renders (tr_after t).

Definition part_stretches (p : part) : list stretch :=
  match p with
  | Track t => [Bytes (time_before t); Time (tr_version t) (tr_time t); Bytes (time_after t)]
  | _ => [Bytes (render (part_box p))]
  end.
Definition parts_stretches (ps : list part) : list stretch := concat (part_stretches <$> ps).
Definition piece_stretches (p : piece) : list stretch :=
  match p with
  | Whole b => [Bytes (render b)]
  | Movie ps => Bytes (box_head (movie_box ps)) :: parts_stretches ps
  end.
Definition stretches (ps : list piece) : list stretch := concat (piece_stretches <$> ps).

(** ** Lemmas *)

Lemma flat_app l1 l2 : flat (l1 ++ l2) = flat l1 ++ flat l2.
Proof. unfold flat. by rewrite fmap_app, concat_app. Qed.

Lemma flat_cons s l : flat (s :: l) = stretch_bytes s ++ flat l.
Proof. reflexivity. Qed.

Lemma fields_at_app o l1 l2 : fields_at o (l1 ++ l2) = fields_at o l1 ++ fields_at (o + len (flat l1)) l2.
Proof.
  revert o. induction l1 as [|s l1 IH]; intros o; [cbn; by rewrite Z.add_0_r|].
  cbn [fields_at app]. rewrite IH, flat_cons, <-app_assoc, len_app. do 3 f_equal. lia.
Qed.

Lemma box_head_render b : render b = box_head b ++ body b.
Proof. unfold render, box_head. by rewrite <-app_assoc. Qed.

Lemma len_box_head b : len (kind b) = 4 -> len (box_head b) = 8.
Proof. intros Hk. unfold box_head. rewrite len_app, len_to_be, Hk. lia. Qed.

Lemma part_flat p : flat (part_stretches p) = render (part_box p).
Proof.
  destruct p as [b|bs|t]; [apply app_nil_r..|]. cbn [part_stretches part_box]. rewrite !flat_cons. cbn [stretch_bytes].
  change (flat []) with (@nil Z). rewrite app_nil_r, (box_head_render (timed_box t)). unfold time_before, time_after.
  change (body (timed_box t)) with (renders (tr_before t ++ tfdt_box t :: tr_after t)).
  rewrite renders_app, renders_cons, (box_head_render (tfdt_box t)). unfold tfdt_box at 3. cbn [body].
  by rewrite <-!app_assoc.
Qed.

Lemma parts_flat ps : flat (parts_stretches ps) = renders (part_box <$> ps).
Proof.
  induction ps as [|p ps IH]; [done|]. unfold parts_stretches in *. rewrite !fmap_cons. cbn [concat].
  by rewrite flat_app, part_flat, IH.
Qed.

Lemma piece_flat p : flat (piece_stretches p) = render (piece_box p).
Proof.
  destruct p as [b|ps]; [apply app_nil_r|]. cbn [piece_stretches piece_box].
  by rewrite flat_cons, parts_flat, (box_head_render (movie_box ps)).
Qed.

Lemma segment_flat ps : segment ps = flat (stretches ps).
Proof.
  induction ps as [|p ps IH]; [done|]. unfold segment, stretches in *. rewrite !fmap_cons. cbn [concat].
  by rewrite flat_app, piece_flat, renders_cons, IH.
Qed.

(** *** Moving the times *)

Lemma tfdt_size n t : bsize (tfdt_box (mkTimed (tr_before t) (tr_version t) (tr_flags t) (tr_time t - n) (tr_rest t) (tr_after t))) = bsize (tfdt_box t).
Proof. unfold bsize, tfdt_box. cbn [body tr_version tr_flags tr_time tr_rest]. by rewrite !len_app, !len_to_be. Qed.

Lemma len_render_tfdt t : len (render (tfdt_box t)) = bsize (tfdt_box t).
Proof. unfold render, bsize. rewrite !len_app, len_to_be. change (len (kind (tfdt_box t))) with 4. lia. Qed.

Lemma timed_size n t :
  bsize (timed_box (mkTimed (tr_before t) (tr_version t) (tr_flags t) (tr_time t - n) (tr_rest t) (tr_after t))) = bsize (timed_box t).
Proof.
  unfold bsize at 1 2, timed_box. cbn [body tr_before tr_after].
  by rewrite !renders_app, !renders_cons, !len_app, !len_render_tfdt, tfdt_size.
Qed.

Lemma earlier_part_stretches n p : part_stretches (earlier_part n p) = stretch_earlier n <$> part_stretches p.
Proof.
  destruct p as [b|bs|t]; [done..|]. cbn [earlier_part part_stretches]. unfold time_before, box_head.
  rewrite timed_size, tfdt_size. reflexivity.
Qed.

Lemma earlier_parts_stretches n ps : parts_stretches (earlier_part n <$> ps) = stretch_earlier n <$> parts_stretches ps.
Proof.
  induction ps as [|p ps IH]; [done|]. unfold parts_stretches in *. rewrite !fmap_cons. cbn [concat].
  by rewrite fmap_app, earlier_part_stretches, IH.
Qed.

Lemma flat_earlier_len n l : len (flat (stretch_earlier n <$> l)) = len (flat l).
Proof.
  induction l as [|s l IH]; [done|]. rewrite fmap_cons, !flat_cons, !len_app, IH.
  destruct s; cbn [stretch_earlier stretch_bytes]; [done|by rewrite !len_to_be].
Qed.

Lemma movie_size n ps : bsize (movie_box (earlier_part n <$> ps)) = bsize (movie_box ps).
Proof.
  unfold bsize, movie_box. cbn [body]. by rewrite <-!parts_flat, earlier_parts_stretches, flat_earlier_len.
Qed.

Lemma earlier_stretches n ps : stretches (earlier n <$> ps) = stretch_earlier n <$> stretches ps.
Proof.
  induction ps as [|p ps IH]; [done|]. unfold stretches in *. rewrite !fmap_cons. cbn [concat]. rewrite fmap_app, IH. f_equal.
  destruct p as [b|parts]; [done|]. cbn [earlier piece_stretches]. rewrite fmap_cons, earlier_parts_stretches.
  unfold box_head. by rewrite movie_size.
Qed.

(** *** Writing *)

(** The times of a list of stretches, every one within its field and not before [n]. *)
Definition writable (n : Z) (s : stretch) : Prop :=
  match s with Bytes _ => True | Time version value => (version = 0 \/ version = 1) /\ 0 <= value - n < 256 ^ Z.of_nat (time_width version) end.

Lemma write_times_flat n pre l :
  Forall (writable n) l ->
  write_times (pre ++ flat l) (fields_at (len pre) l) n = Done (true, pre ++ flat (stretch_earlier n <$> l)).
Proof.
  intros Hl. revert pre. induction Hl as [|s l Hs _ IH]; intros pre; [done|].
  cbn [fields_at]. rewrite fmap_cons, !flat_cons.
  destruct s as [bs|version value]; cbn [stretch_bytes stretch_earlier app] in *.
  - specialize (IH (pre ++ bs)). rewrite len_app, <-!app_assoc in IH. exact IH.
  - destruct Hs as [Hv Hval]. cbn [write_times tf_value tf_version tf_offset].
    assert (Hw : (if version =? 0 then
        if value - n <? 2 ^ 32 then data ← write_be (pre ++ to_be (time_width version) value ++ flat l) (len pre) 4 (value - n);
          write_times data (fields_at (len pre + len (to_be (time_width version) value)) l) n
        else mret (false, pre ++ to_be (time_width version) value ++ flat l)
      else data ← write_be (pre ++ to_be (time_width version) value ++ flat l) (len pre) 8 (value - n);
          write_times data (fields_at (len pre + len (to_be (time_width version) value)) l) n) =
      write_times (pre ++ to_be (time_width version) (value - n) ++ flat l) (fields_at (len pre + len (to_be (time_width version) value)) l) n).
    { unfold write_be. destruct Hv as [-> | ->]; cbn [time_width Z.eqb Pos.eqb] in *.
      - decide_le. by rewrite (store_mid pre (to_be 4 value)) by (rewrite ?len_to_be; lia).
      - by rewrite (store_mid pre (to_be 8 value)) by (rewrite ?len_to_be; lia). }
    rewrite Hw. specialize (IH (pre ++ to_be (time_width version) (value - n))).
    rewrite !len_app, !len_to_be, <-!app_assoc in *. exact IH.
Qed.

(** *** Scanning *)

Lemma picked_other t (o : Z) b : kind b <> t -> (if kind_is t b then [(o, bsize b)] else []) = [].
Proof. intros Hk. unfold kind_is. by rewrite bool_decide_eq_false_2. Qed.

Lemma find_none pre bs post t :
  Forall box_ok bs -> Forall (fun b => kind b <> t) bs -> len (pre ++ renders bs ++ post) < 2 ^ 63 ->
  find_child_box (pre ++ renders bs ++ post) (len pre) (len pre + len (renders bs)) t = Done None.
Proof.
  intros Hok Hn Hlen. rewrite find_child_render by done. clear Hok Hlen. generalize (len pre).
  induction Hn as [|b bs Hb _ IH]; intros o; [done|]. cbn [picked]. rewrite picked_other by done. apply IH.
Qed.

(** The children of a box that is in the buffer. *)
Lemma child_of pre b bs post t o :
  body b = renders bs -> len (kind b) = 4 -> len (pre ++ render b ++ post) < 2 ^ 63 -> o = len pre ->
  child (pre ++ render b ++ post) (o, bsize b) t =
  find_child_box ((pre ++ box_head b) ++ renders bs ++ post) (len (pre ++ box_head b)) (len (pre ++ box_head b) + len (renders bs)) t.
Proof.
  intros Hb Hk Hlen ->. unfold child. cbn [fst snd].
  assert (Hs : len (render b) = bsize b) by (unfold render, bsize; rewrite !len_app, len_to_be, Hk; lia).
  pose proof (len_nonneg pre). pose proof (len_nonneg post). pose proof (bsize_ge b).
  rewrite !len_app, Hs in Hlen. nowrap. rewrite len_app, (len_box_head b Hk), (box_head_render b), Hb, <-!app_assoc.
  f_equal. unfold bsize. rewrite Hb. lia.
Qed.

Lemma timed_box_children t : timed_ok t -> box_ok (timed_box t) -> Forall box_ok (tr_before t ++ tfdt_box t :: tr_after t).
Proof.
  intros Ht [_ Hs]. apply Forall_app. split; [apply Ht|]. constructor; [|apply Ht]. split; [done|].
  revert Hs. unfold bsize at 1, timed_box. cbn [body]. rewrite renders_app, renders_cons, !len_app, len_render_tfdt.
  pose proof (len_nonneg (renders (tr_before t))). pose proof (len_nonneg (renders (tr_after t))). lia.
Qed.

Lemma len_time_before t :
  timed_ok t -> len (time_before t) = 8 + len (renders (tr_before t)) + 12.
Proof.
  intros Ht. unfold time_before. rewrite !len_app, !len_box_head, len_cons, (t_flags t Ht) by done. lia.
Qed.

Lemma tfdt_bsize t : timed_ok t -> bsize (tfdt_box t) = 12 + Z.of_nat (time_width (tr_version t)) + len (tr_rest t).
Proof.
  intros Ht. unfold bsize, tfdt_box. cbn [body]. rewrite !len_app, len_cons, len_to_be, (t_flags t Ht). lia.
Qed.

Lemma find_tfdt t pre post :
  timed_ok t -> box_ok (timed_box t) -> len (pre ++ render (timed_box t) ++ post) < 2 ^ 63 ->
  child (pre ++ render (timed_box t) ++ post) (len pre, bsize (timed_box t)) (lit "tfdt") =
  Done (Some (len pre + 8 + len (renders (tr_before t)), bsize (tfdt_box t))).
Proof.
  intros Ht Hb Hlen. rewrite (child_of pre (timed_box t) (tr_before t ++ tfdt_box t :: tr_after t) post (lit "tfdt") (len pre)) by done.
  change (lit "tfdt") with (kind (tfdt_box t)). rewrite find_first.
  - by rewrite len_app, len_box_head.
  - by apply timed_box_children.
  - revert Hlen. rewrite (box_head_render (timed_box t)). cbn [body timed_box]. by rewrite <-!app_assoc.
  - apply Ht.
  - done.
  - done.
Qed.

Lemma track_field t pre post trafs :
  timed_ok t -> box_ok (timed_box t) -> len (pre ++ render (timed_box t) ++ post) < 2 ^ 63 ->
  traf_fields (pre ++ render (timed_box t) ++ post) ((len pre, bsize (timed_box t)) :: trafs) =
  rest ← traf_fields (pre ++ render (timed_box t) ++ post) trafs;
  (mret (fmap (M:=option) (cons (mkField (len pre + len (time_before t)) (tr_version t) (tr_time t))) rest) : run _).
Proof.
  intros Ht Hb Hlen. cbn [traf_fields]. rewrite find_tfdt by done. run_simpl.
  pose proof (len_time_before t Ht) as Hl. pose proof (tfdt_bsize t Ht) as Hsz. pose proof (t_time t Ht) as Hti.
  pose proof (len_nonneg pre). pose proof (len_nonneg post). pose proof (len_nonneg (renders (tr_before t))).
  pose proof (len_nonneg (time_after t)). pose proof (len_nonneg (tr_rest t)).
  pose proof (part_flat (Track t)) as Hf. cbn [part_box part_stretches] in Hf. rewrite !flat_cons in Hf. cbn [stretch_bytes] in Hf.
  change (flat []) with (@nil Z) in Hf. rewrite app_nil_r in Hf. revert Hlen. rewrite <-Hf, <-!app_assoc. intros Hlen.
  set (data := pre ++ time_before t ++ to_be (time_width (tr_version t)) (tr_time t) ++ time_after t ++ post) in *.
  assert (Hd : len data = len pre + len (time_before t) + Z.of_nat (time_width (tr_version t)) + len (time_after t) + len post)
    by (subst data; rewrite !len_app, len_to_be; lia).
  rewrite !(uadd_small (len pre + 8 + len (renders (tr_before t)))) by lia. decide_le.
  assert (Hv : slice data (len pre + 8 + len (renders (tr_before t)) + 8) (len pre + 8 + len (renders (tr_before t)) + 9) = Some [tr_version t]).
  { replace data with ((pre ++ (box_head (timed_box t) ++ renders (tr_before t)) ++ box_head (tfdt_box t)) ++ [tr_version t] ++
      (tr_flags t ++ to_be (time_width (tr_version t)) (tr_time t) ++ time_after t ++ post))
      by (subst data; unfold time_before; by rewrite <-!app_assoc).
    apply slice_mid; rewrite !len_app, !len_box_head by done; [lia|]. change (len [tr_version t]) with 1. lia. }
  rewrite Hv.
  assert (Hr : forall n, n = Z.of_nat (time_width (tr_version t)) ->
    read_be data (len pre + 8 + len (renders (tr_before t)) + 12) n = Done (tr_time t)).
  { intros n Hn. subst data. rewrite (app_assoc pre (time_before t)). rewrite read_to_be; [by rewrite Z.mod_small|rewrite len_app; lia|done|].
    rewrite len_app. destruct (t_version t Ht) as [Hv0|Hv0]; rewrite Hv0 in *; cbn [time_width Z.eqb] in *; lia. }
  replace (len pre + len (time_before t)) with (len pre + 8 + len (renders (tr_before t)) + 12) by lia.
  destruct (t_version t Ht) as [Hv0|Hv0]; rewrite Hv0 in *; cbn [time_width Z.eqb Pos.eqb andb] in *; decide_le;
    rewrite Hr by done; reflexivity.
Qed.

Lemma part_box_ok p : part_ok p -> box_ok (part_box p).
Proof. destruct p; cbn [part_ok part_box]; tauto. Qed.

Lemma part_boxes_ok ps : Forall part_ok ps -> Forall box_ok (part_box <$> ps).
Proof. intros H. apply Forall_fmap. eapply Forall_impl; [exact H|apply part_box_ok]. Qed.

Lemma parts_fields ps pre post :
  Forall part_ok ps -> len (pre ++ renders (part_box <$> ps) ++ post) < 2 ^ 63 ->
  traf_fields (pre ++ renders (part_box <$> ps) ++ post) (picked (kind_is (lit "traf")) (len pre) (part_box <$> ps)) =
  Done (Some (fields_at (len pre) (parts_stretches ps))).
Proof.
  intros Hok. revert pre. induction Hok as [|p ps Hp _ IH]; intros pre; [done|].
  rewrite fmap_cons, renders_cons, <-app_assoc. intros Hlen.
  pose proof (part_box_ok p Hp) as Hb. change (parts_stretches (p :: ps)) with (part_stretches p ++ parts_stretches ps).
  rewrite fields_at_app, part_flat, len_render by done.
  assert (Hl : len (pre ++ render (part_box p)) = len pre + bsize (part_box p)) by (rewrite len_app, len_render; done).
  specialize (IH (pre ++ render (part_box p))). rewrite <-app_assoc, Hl in IH. specialize (IH Hlen).
  cbn [picked]. destruct p as [b|bs|t]; cbn [part_box part_stretches] in *.
  - destruct Hp as [_ Hk]. rewrite picked_other by done. exact IH.
  - destruct Hp as (Hbs & Hn & _). change (kind_is (lit "traf") (mkBox (lit "traf") (renders bs))) with true. cbn [app traf_fields].
    rewrite (child_of pre (mkBox (lit "traf") (renders bs)) bs _ (lit "tfdt") (len pre)) by done.
    rewrite find_none; [run_simpl; exact IH|done|done|].
    revert Hlen. rewrite (box_head_render (mkBox _ _)). cbn [body]. by rewrite <-!app_assoc.
  - destruct Hp as [Ht _]. change (kind_is (lit "traf") (timed_box t)) with true. cbn [app].
    rewrite track_field by done. rewrite IH. reflexivity.
Qed.

Lemma piece_box_ok p : piece_ok p -> box_ok (piece_box p).
Proof. destruct p; cbn [piece_ok piece_box]; tauto. Qed.

Lemma scan_segment ps pre fuel :
  Forall piece_ok ps -> len (pre ++ segment ps) < 2 ^ 63 -> (length ps < fuel)%nat ->
  scan_times fuel (pre ++ segment ps) (len pre) = Done (Some (fields_at (len pre) (stretches ps))).
Proof.
  intros Hok. revert pre fuel. induction Hok as [|p ps Hp _ IH]; intros pre fuel Hlen Hf;
    (destruct fuel as [|f]; [cbn in Hf; lia|]); cbn [scan_times]; pose proof (len_nonneg pre).
  - change (segment []) with (@nil Z) in *. rewrite app_nil_r in *. nowrap. by decide_le.
  - pose proof (piece_box_ok p Hp) as Hb. change (segment (p :: ps)) with (render (piece_box p) ++ segment ps) in *.
    pose proof (bsize_ge (piece_box p)). pose proof (len_nonneg (segment ps)).
    pose proof Hlen as Hl. rewrite !len_app, len_render in Hl by done.
    rewrite !len_app, len_render by done. nowrap. decide_le. rewrite read_box_header_render by (done || lia). run_simpl.
    nowrap. decide_le. change (stretches (p :: ps)) with (piece_stretches p ++ stretches ps).
    rewrite fields_at_app, piece_flat, len_render by done.
    assert (Hl' : len (pre ++ render (piece_box p)) = len pre + bsize (piece_box p)) by (rewrite len_app, len_render; done).
    specialize (IH (pre ++ render (piece_box p)) f). rewrite <-app_assoc, Hl' in IH.
    cbn [length] in Hf. specialize (IH Hlen ltac:(lia)).
    destruct p as [b|parts]; cbn [piece_box] in *.
    + destruct Hp as [_ Hk]. rewrite decide_False by done. run_simpl. rewrite IH. reflexivity.
    + destruct Hp as [Hparts _]. change (kind (movie_box parts)) with (lit "moof"). rewrite decide_True by done.
      replace (pre ++ render (movie_box parts) ++ segment ps)
        with ((pre ++ box_head (movie_box parts)) ++ renders (part_box <$> parts) ++ segment ps) in *
        by (rewrite (box_head_render (movie_box parts)); cbn [body movie_box]; by rewrite <-!app_assoc).
      assert (Hh : len (pre ++ box_head (movie_box parts)) = len pre + 8) by (by rewrite len_app, len_box_head).
      replace (len pre + bsize (movie_box parts)) with (len (pre ++ box_head (movie_box parts)) + len (renders (part_box <$> parts))) at 1
        by (rewrite Hh; unfold bsize; cbn [body movie_box]; lia).
      rewrite <-Hh. unfold find_all_child_boxes.
      rewrite (collect_boxes true (of_type (lit "traf")) (kind_is (lit "traf"))) by (by apply part_boxes_ok || done || (intros; apply of_type_keep)).
      run_simpl. rewrite parts_fields by done. run_simpl. rewrite IH. run_simpl. cbn [fmap option_fmap option_map piece_stretches fields_at app].
      cbn [stretch_bytes]. by rewrite Hh, len_box_head.
Qed.

(** *** The times of a segment *)

Lemma part_values p o : tf_value <$> fields_at o (part_stretches p) = part_times p.
Proof. by destruct p. Qed.

Lemma parts_values ps o : tf_value <$> fields_at o (parts_stretches ps) = concat (part_times <$> ps).
Proof.
  revert o. induction ps as [|p ps IH]; intros o; [done|].
  change (parts_stretches (p :: ps)) with (part_stretches p ++ parts_stretches ps).
  rewrite fields_at_app, fmap_app, part_values, IH. reflexivity.
Qed.

Lemma segment_values ps o : tf_value <$> fields_at o (stretches ps) = times ps.
Proof.
  revert o. induction ps as [|p ps IH]; intros o; [done|].
  change (stretches (p :: ps)) with (piece_stretches p ++ stretches ps).
  rewrite fields_at_app, fmap_app, IH. unfold times. rewrite fmap_cons. cbn [concat]. f_equal.
  destruct p as [b|parts]; [done|]. cbn [piece_stretches fields_at app piece_times]. apply parts_values.
Qed.

Lemma foldl_min_spec l v : (foldl Z.min v l = v \/ foldl Z.min v l ∈ l) /\ foldl Z.min v l <= v /\ Forall (fun x => foldl Z.min v l <= x) l.
Proof.
  revert v. induction l as [|x l IH]; intros v; cbn [foldl]; [split_and!; [by left|lia|constructor]|].
  destruct (IH (Z.min v x)) as (Hin & Hle & Hall). split_and!; [|lia|constructor; [lia|done]].
  destruct Hin as [Hin|Hin]; [|right; by right]. rewrite Hin. destruct (Z.min_spec v x) as [[_ ->]|[_ ->]]; [by left|right; by left].
Qed.

Lemma min_value_spec fields n :
  n ∈ tf_value <$> fields -> Forall (fun x => n <= x) (tf_value <$> fields) -> min_value fields = Some n.
Proof.
  unfold min_value. destruct (tf_value <$> fields) as [|v vs]; [intros H; by apply elem_of_nil in H|].
  intros Hin [Hv Hvs]%Forall_cons. destruct (foldl_min_spec vs v) as (Hm & Hle & Hall). f_equal.
  rewrite Forall_forall in Hvs, Hall. apply Z.le_antisymm.
  - apply elem_of_cons in Hin as [->|Hin]; [done|]. by apply Hall.
  - destruct Hm as [-> |Hm]; [done|]. by apply Hvs.
Qed.

Lemma track_le n t : Forall (fun x => n <= x) (part_times (Track t)) -> n <= tr_time t.
Proof. intros H. cbn [part_times] in H. by inversion H. Qed.

Lemma piece_writable p n :
  piece_ok p -> Forall (fun x => n <= x) (piece_times p) -> 0 <= n -> Forall (writable n) (piece_stretches p).
Proof.
  intros Hp Ht Hn. destruct p as [b|parts]; [by repeat constructor|]. destruct Hp as [Hparts _]. cbn [piece_times piece_stretches] in *.
  constructor; [done|]. unfold parts_stretches. induction Hparts as [|p parts Hp _ IH]; [constructor|].
  rewrite fmap_cons in *. cbn [concat] in *. apply Forall_app in Ht as [Ht Hts]. apply Forall_app. split; [|by apply IH].
  destruct p as [b|bs|t]; [by repeat constructor..|]. destruct Hp as [Hok _]. apply track_le in Ht.
  pose proof (t_time t Hok). pose proof (t_version t Hok). apply Forall_cons_2; [done|]. apply Forall_cons_2; [|by repeat constructor]. split; [done|lia].
Qed.

Lemma segment_writable ps n :
  Forall piece_ok ps -> Forall (fun x => n <= x) (times ps) -> 0 <= n -> Forall (writable n) (stretches ps).
Proof.
  intros Hok Ht Hn. induction Hok as [|p ps Hp _ IH]; [constructor|]. unfold times, stretches in *. rewrite fmap_cons in *.
  cbn [concat] in *. apply Forall_app in Ht as [Ht Hts]. apply Forall_app. split; [by apply piece_writable|by apply IH].
Qed.

Lemma earlier_part_ok n p : part_ok p -> Forall (fun x => n <= x) (part_times p) -> 0 <= n -> part_ok (earlier_part n p).
Proof.
  destruct p as [b|bs|t]; [done..|]. intros [Ht Hb] Hle Hn. apply track_le in Hle. split.
  - pose proof (t_time t Ht). destruct Ht. split; cbn [tr_before tr_after tr_version tr_flags tr_time]; (done || lia).
  - destruct Hb as [Hk Hs]. split; [done|]. by rewrite timed_size.
Qed.

Lemma earlier_ok n ps :
  Forall piece_ok ps -> Forall (fun x => n <= x) (times ps) -> 0 <= n -> Forall piece_ok (earlier n <$> ps).
Proof.
  intros Hok Ht Hn. induction Hok as [|p ps Hp _ IH]; [constructor|]. unfold times in *. rewrite fmap_cons in *.
  cbn [concat] in Ht. apply Forall_app in Ht as [Ht Hts]. constructor; [|by apply IH].
  destruct p as [b|parts]; [done|]. destruct Hp as [Hparts [Hk Hs]]. cbn [piece_times] in Ht. split.
  - clear -Hparts Ht Hn. induction Hparts as [|p parts Hp _ IH]; [constructor|]. rewrite fmap_cons in *. cbn [concat] in Ht.
    apply Forall_app in Ht as [Ht Hts]. constructor; [by apply earlier_part_ok|by apply IH].
  - split; [done|]. by rewrite movie_size.
Qed.

Lemma earlier_times n ps : times (earlier n <$> ps) = (fun x => x - n) <$> times ps.
Proof.
  rewrite <-(segment_values (earlier n <$> ps) 0), <-(segment_values ps 0), earlier_stretches. generalize 0.
  induction (stretches ps) as [|s l IH]; intros o; [done|]. rewrite fmap_cons. cbn [fields_at]. rewrite !fmap_app, IH.
  destruct s; cbn [stretch_earlier stretch_bytes app fmap list_fmap]; [done|]. rewrite !len_to_be. reflexivity.
Qed.

Lemma scanned ps :
  Forall piece_ok ps -> len (segment ps) < 2 ^ 63 ->
  scan_times (S (length (segment ps))) (segment ps) 0 = Done (Some (fields_at 0 (stretches ps))).
Proof.
  intros Hok Hlen. apply (scan_segment ps []); [done|done|]. unfold segment.
  assert (Hb : Forall box_ok (piece_box <$> ps)) by (apply Forall_fmap; eapply Forall_impl; [exact Hok|apply piece_box_ok]).
  pose proof (renders_length _ Hb) as H. rewrite length_fmap in H. unfold len in H. lia.
Qed.

Lemma nothing_moved ps :
  Forall piece_ok ps -> len (segment ps) < 2 ^ 63 -> times ps = [] \/ (0 ∈ times ps /\ Forall (fun x => 0 <= x) (times ps)) ->
  normalize_fragment_start_time (segment ps) = Done (false, segment ps).
Proof.
  intros Hok Hlen Ht. unfold normalize_fragment_start_time. rewrite scanned by done. run_simpl.
  destruct Ht as [Ht|[Hin Hall]].
  - unfold min_value. by rewrite segment_values, Ht.
  - rewrite (min_value_spec _ 0) by (by rewrite segment_values). reflexivity.
Qed.

Lemma times_nonneg ps x : Forall piece_ok ps -> x ∈ times ps -> 0 <= x.
Proof.
  intros Hok Hin. unfold times in Hin. apply list_elem_of_In, in_concat in Hin as (l & Hl%list_elem_of_In & Hx%list_elem_of_In).
  apply list_elem_of_fmap in Hl as (p & -> & Hp). rewrite Forall_forall in Hok. specialize (Hok p Hp).
  destruct p as [b|parts]; [by apply elem_of_nil in Hx|]. destruct Hok as [Hparts _]. cbn [piece_times] in Hx.
  apply list_elem_of_In, in_concat in Hx as (l & Hl%list_elem_of_In & Hx%list_elem_of_In).
  apply list_elem_of_fmap in Hl as (q & -> & Hq). rewrite Forall_forall in Hparts. specialize (Hparts q Hq).
  destruct q as [b|bs|t]; [by apply elem_of_nil in Hx..|]. apply list_elem_of_singleton in Hx as ->.
  destruct Hparts as [Ht _]. by apply (t_time t Ht).
Qed.

(** ** Theorems *)

(** The decode times of a segment, whatever its boxes: when the earliest is not zero, every one of them is moved by
    it and not another byte changes, so the distances between the fragments stay and the first one starts
    at zero; doing it again changes nothing.  A segment without times, or one that starts at zero, is left as
    it is and reported so. *)
Theorem start_times_moved_to_zero (ps : list piece) (first_time : Z) :
  Forall piece_ok ps -> len (segment ps) < 2 ^ 63 -> first_time ∈ times ps -> Forall (fun x => first_time <= x) (times ps) ->
  let moved := earlier first_time <$> ps in
  normalize_fragment_start_time (segment ps) = Done (negb (first_time =? 0), segment moved) /\
  len (segment moved) = len (segment ps) /\
  times moved = (fun x => x - first_time) <$> times ps /\
  normalize_fragment_start_time (segment moved) = Done (false, segment moved).
Proof.
  intros Hok Hlen Hin Hall moved.
  assert (Hn : 0 <= first_time) by (by apply (times_nonneg ps)).
  assert (Hsize : len (segment moved) = len (segment ps)) by (rewrite !segment_flat; subst moved; by rewrite earlier_stretches, flat_earlier_len).
  assert (Hmoved : Forall piece_ok moved) by (by apply earlier_ok). pose proof (earlier_times first_time ps) as Htimes.
  assert (Hzero : 0 ∈ times moved /\ Forall (fun x => 0 <= x) (times moved)).
  { fold moved in Htimes. rewrite Htimes. split; [apply list_elem_of_fmap; exists first_time; split; [lia|done]|].
    apply Forall_fmap. eapply Forall_impl; [exact Hall|]. intros x. cbn. lia. }
  split_and!; [|done|done|apply nothing_moved; [done|lia|by right]].
  unfold normalize_fragment_start_time. rewrite scanned by done. run_simpl.
  rewrite (min_value_spec _ first_time) by (by rewrite segment_values).
  destruct (Z.eqb_spec first_time 0) as [H0|H0].
  - subst moved. rewrite !segment_flat, earlier_stretches. rewrite H0. cbn. do 2 f_equal.
    replace (stretch_earlier 0 <$> stretches ps) with (stretches ps); [done|].
    symmetry. erewrite list_fmap_ext; [apply list_fmap_id|]. intros i s _. destruct s; cbn; [done|]. by rewrite Z.sub_0_r.
  - subst moved. rewrite !segment_flat, earlier_stretches.
    pose proof (write_times_flat first_time [] (stretches ps) (segment_writable ps first_time Hok Hall Hn)) as Hw. exact Hw.
Qed.

Definition demo_timed (time : Z) : Timed :=
  mkTimed [mkBox (lit "tfhd") [0; 0; 0; 0]] 1 [0; 0; 0] time [] [mkBox (lit "trun") [5]].
Definition demo_pieces : list piece :=
  [Whole (mkBox (lit "styp") [1]); Movie [Other (mkBox (lit "mfhd") [2]); Track (demo_timed 700)];
   Whole (mkBox (lit "mdat") [3; 4]); Movie [Track (demo_timed 500); Untimed []]].

Lemma demo_timed_ok time : time = 700 \/ time = 500 -> part_ok (Track (demo_timed time)).
Proof.
  intros Ht. split; [split|].
  - apply Forall_singleton. split; by vm_compute.
  - apply Forall_singleton. split; by vm_compute.
  - apply Forall_singleton. by vm_compute.
  - by right.
  - done.
  - cbn. destruct Ht; lia.
  - destruct Ht as [-> | ->]; split; by vm_compute.
Qed.

Lemma demo_pieces_ok : Forall piece_ok demo_pieces.
Proof.
  apply Forall_cons_2; [split; [split|]; by vm_compute|]. apply Forall_cons_2.
  { split; [|split; by vm_compute]. apply Forall_cons_2; [split; [split|]; by vm_compute|].
    apply Forall_singleton, demo_timed_ok. by left. }
  apply Forall_cons_2; [split; [split|]; by vm_compute|]. apply Forall_singleton.
  split; [|split; by vm_compute]. apply Forall_cons_2; [apply demo_timed_ok; by right|]. apply Forall_singleton.
  split_and!; [constructor|constructor|split; by vm_compute].
Qed.

(** Two fragments at 700 and 500 ticks are moved to 200 and 0. *)
Lemma start_times_moved_to_zero_witness :
  normalize_fragment_start_time (segment demo_pieces) = Done (true, segment (earlier 500 <$> demo_pieces)) /\
  times (earlier 500 <$> demo_pieces) = [200; 0].
Proof.
  destruct (start_times_moved_to_zero demo_pieces 500) as (H & _ & Ht & _).
  - exact demo_pieces_ok.
  - by vm_compute.
  - cbn. set_solver.
  - cbn. repeat constructor; lia.
  - split; [exact H|exact Ht].
Defined.
