(* ===== verification/InitSegment.v ===== *)
(** * InitSegment: the init segment of a stream (crates/apple/src/wrapper/decryptor.rs)

    [audio_sample_rate] and [transform_init_segment], on any bytes, in
    the vocabulary of Boxes.v: an outcome that may fail, panic on a bad slice or keep going round a walk. *)
From S2P Require Import Prelude Text Bytes Boxes TrackRuns CencStrip StartTime.

#[local] Open Scope rust_scope.

(** ** The sampling rate *)

(** The children one after the other, a missing one ending the function ([?]). *)
Fixpoint descend (data : list Z) (parent : Z * Z) (ts : list str) : run (option (Z * Z)) :=
  match ts with
  | [] => mret (Some parent)
  | t :: ts => c ← child data parent t; match c with Some c => descend data c ts | None => mret None end
  end.

(** One track: [None] goes on with the next one, [Some r] returns [r]. *)
Definition track_rate (data : list Z) (trak : Z * Z) : run (option (option Z)) :=
  mdia ← child data trak (lit "mdia");
  match mdia with
  | None => mret None
  | Some mdia =>
      hdlr ← child data mdia (lit "hdlr");
      match hdlr with
      | None => mret None
      | Some (hdlr_off, hdlr_len) =>
          other ← (if hdlr_len <? 20 then mret true
                   else handler ← must (slice data (hdlr_off ⊕ 16) (hdlr_off ⊕ 20)); mret (negb (bool_decide (handler = lit "soun"))));
          if other : bool then mret None
          else
            stsd ← descend data mdia [lit "minf"; lit "stbl"; lit "stsd"];
            match stsd with
            | None => mret (Some None)
            | Some (stsd_off, stsd_len) =>
                if stsd_len <? 16 then mret (Some None)
                else
                  let entry_start := stsd_off ⊕ 16 in
                  h ← read_box_header data entry_start;
                  match h with
                  | None => mret (Some None)
                  | Some (entry_len, _, _) =>
                      if (entry_len <? 36) || (len data <? entry_start ⊕ 36) then mret (Some None)
                      else
                        fixed_rate ← read_be data (entry_start ⊕ 32) 4;
                        let sample_rate := Z.shiftr fixed_rate 16 in
                        mret (Some (if 0 <? sample_rate then Some sample_rate else None))
                  end
            end
      end
  end.

Fixpoint first_rate (data : list Z) (traks : list (Z * Z)) : run (option Z) :=
  match traks with
  | [] => mret None
  | trak :: traks => r ← track_rate data trak; match r with Some rate => mret rate | None => first_rate data traks end
  end.

Definition audio_sample_rate (data : list Z) : run (option Z) :=
  moov ← find_child_box data 0 (len data) (lit "moov");
  match moov with
  | None => mret None
  | Some (moov_off, moov_len) =>
      traks ← find_all_child_boxes data (moov_off ⊕ 8) (moov_off ⊕ moov_len) (lit "trak");
      first_rate data traks
  end.

(** ** The init segment *)

(** [write_u32_be(read_u32_be(field) - n)], modulo 2^32. *)
Definition shrink_be (data : list Z) (a : Z) (width : nat) (n : Z) : run (list Z) :=
  cur ← read_be data a (Z.of_nat width); write_be data a width (wrap (8 * Z.of_nat width) (cur - wrap (8 * Z.of_nat width) n)).

Fixpoint shrink_all (data : list Z) (offsets : list Z) (n : Z) : run (list Z) :=
  match offsets with
  | [] => mret data
  | a :: offsets => data ← shrink_be data a 4 n; shrink_all data offsets n
  end.

(** The first sample entry made clear: the new buffer and the bytes removed. *)
Definition clear_entry (out : list Z) (entry_start entry_len : Z) (entry_type : str) : run (list Z * Z) :=
  if decide (entry_type = lit "enca") then
    found ← find_child_box out (entry_start ⊕ 36) (entry_start ⊕ entry_len) (lit "sinf");
    sinf ← or_fail found (Message (lit "Missing sinf in enca entry"));
    let '(sinf_off, sinf_len) := sinf : Z * Z in
    frma ← child out sinf (lit "frma");
    fmt ← match frma with
          | Some (frma_off, _) => must (slice out (frma_off ⊕ 8) (frma_off ⊕ 12))
          | None => mret (lit "alac")
          end;
    out ← must (store out (entry_start ⊕ 4) fmt);
    out ← must (drain out sinf_off (sinf_off ⊕ sinf_len));
    out ← write_be out entry_start 4 (wrap 32 (wrap 64 (entry_len - sinf_len)));
    mret (out, sinf_len)
  else mret (out, 0).

(** The entries behind the first one. *)
Definition drop_entries (out : list Z) (stsd_off stsd_len entry_start sinf_removed count : Z) : run (list Z * Z) :=
  if 1 <? count then
    first_entry_size ← read_be out entry_start 4;
    let second_entry_start := entry_start ⊕ first_entry_size in
    let cur_stsd_end := wrap 64 (stsd_off ⊕ stsd_len - sinf_removed) in
    dropped ← (if second_entry_start <? cur_stsd_end then
                 out ← must (drain out second_entry_start cur_stsd_end); mret (out, cur_stsd_end - second_entry_start)
               else mret (out, 0));
    let '(out, extra) := dropped : list Z * Z in
    out ← write_be out (stsd_off ⊕ 12) 4 1;
    mret (out, extra)
  else mret (out, 0).

(** The loop over the sample table that drains the groups of the encryption. *)
Fixpoint drop_groups (fuel : nat) (out : list Z) (check_pos stop removed : Z) : run (list Z * Z) :=
  match fuel with
  | O => Spin
  | S f =>
      if check_pos ⊕ 8 <=? wrap 64 (stop - removed) then
        h ← read_box_header out check_pos;
        match h with
        | None => mret (out, removed)
        | Some (b_len, b_type, _) =>
            if (b_len <? 8) || (len out <? check_pos ⊕ b_len) then mret (out, removed)
            else
              g ← is_seam_group out check_pos b_type;
              if g : bool then
                out ← must (drain out check_pos (check_pos ⊕ b_len)); drop_groups f out check_pos stop (removed ⊕ b_len)
              else drop_groups f out (check_pos ⊕ b_len) stop removed
        end
      else mret (out, removed)
  end.

(** The sample descriptions: the new buffer and the bytes removed from it. *)
Definition clear_descriptions (out : list Z) (stsd_off stsd_len : Z) : run (list Z * Z) :=
  if stsd_len <? 16 then Fail (Message (lit "stsd box too small"))
  else
    count ← read_be out (stsd_off ⊕ 12) 4;
    let entry_start := stsd_off ⊕ 16 in
    h ← read_box_header out entry_start;
    entry ← or_fail h (Message (lit "Cannot read first stsd entry"));
    let '(entry_len, entry_type, _) := entry : header in
    cleared ← clear_entry out entry_start entry_len entry_type;
    let '(out, sinf_removed) := cleared : list Z * Z in
    dropped ← drop_entries out stsd_off stsd_len entry_start sinf_removed count;
    let '(out, extra_entries_removed) := dropped : list Z * Z in
    mret (out, sinf_removed ⊕ extra_entries_removed).

(** The sizes of the sample descriptions and of the boxes around them. *)
Definition resize (out : list Z) (stsd_off : Z) (containers : list Z) (total_stsd_removed total_removed : Z) : run (list Z) :=
  out ← (if 0 <? total_stsd_removed then shrink_be out stsd_off 4 total_stsd_removed else mret out);
  if 0 <? total_removed then shrink_all out containers total_removed else mret out.

Definition drop_moov_pssh (out : list Z) (moov_off : Z) : run (list Z) :=
  h ← read_box_header out moov_off;
  moov_header ← or_fail h (Message (lit "Cannot read moov header"));
  let '(cur_moov_len, _, moov_hdr_size) := moov_header : header in
  pssh_in_moov ← find_all_child_boxes out (moov_off ⊕ moov_hdr_size) (moov_off ⊕ cur_moov_len) (lit "pssh");
  match pssh_in_moov with
  | [] => mret out
  | _ =>
      let pssh_removed := sizes pssh_in_moov in
      out ← drain_all out (sort_desc pssh_in_moov);
      if moov_hdr_size =? 16 then shrink_be out (moov_off ⊕ 8) 8 pssh_removed else shrink_be out moov_off 4 pssh_removed
  end.

Definition drop_top_pssh (out : list Z) : run (list Z) :=
  top_level_pssh ← collect (S (length out)) false (of_type (lit "pssh")) out 0 (len out);
  drain_all out (sort_desc top_level_pssh).

(** Everything that is changed, once the boxes are found. *)
Definition clear_table (out : list Z) (moov_off : Z) (containers : list Z) (stbl_off stsd_off stsd_len : Z) : run (list Z) :=
  described ← clear_descriptions out stsd_off stsd_len;
  let '(out, total_stsd_removed) := described : list Z * Z in
  stbl_size ← read_be out stbl_off 4;
  let cur_stbl_len := wrap 64 (stbl_size - total_stsd_removed) in
  grouped ← drop_groups (S (length out)) out (stbl_off ⊕ 8) (stbl_off ⊕ cur_stbl_len) 0;
  let '(out, sbgp_removed) := grouped : list Z * Z in
  out ← resize out stsd_off containers total_stsd_removed (total_stsd_removed ⊕ sbgp_removed);
  out ← drop_moov_pssh out moov_off;
  drop_top_pssh out.

Definition transform_init_segment (init_data : list Z) : run (list Z) :=
  let out := init_data in
  moov ← require_box out 0 (len out) (lit "moov") (lit "Missing moov box in init segment");
  trak ← require_box out (fst moov ⊕ 8) (fst moov ⊕ snd moov) (lit "trak") (lit "Missing trak box in moov");
  mdia ← require_box out (fst trak ⊕ 8) (fst trak ⊕ snd trak) (lit "mdia") (lit "Missing mdia box in trak");
  minf ← require_box out (fst mdia ⊕ 8) (fst mdia ⊕ snd mdia) (lit "minf") (lit "Missing minf box in mdia");
  stbl ← require_box out (fst minf ⊕ 8) (fst minf ⊕ snd minf) (lit "stbl") (lit "Missing stbl box in minf");
  stsd ← require_box out (fst stbl ⊕ 8) (fst stbl ⊕ snd stbl) (lit "stsd") (lit "Missing stsd box in stbl");
  clear_table out (fst moov) [fst stbl; fst minf; fst mdia; fst trak; fst moov] (fst stbl) (fst stsd) (snd stsd).

(** ** The reference: init segments as trees *)

(** A container on the way to the sample descriptions: its kind and the siblings of the next one. *)
Record level := mkLevel { l_kind : str; l_before : list Box; l_after : list Box }.

Definition level_box (l : level) (x : Box) : Box := mkBox (l_kind l) (renders (l_before l ++ x :: l_after l)).

(** A box inside its containers, the innermost first. *)
Fixpoint plug (x : Box) (path : list level) : Box :=
  match path with [] => x | l :: path => plug (level_box l x) path end.

Inductive entry :=
| Protected (fixed : list Z) (e_before : list Box) (sinf : list Box) (e_after : list Box)
| Clear (b : Box).

Definition sinf_box (children : list Box) : Box := mkBox (lit "sinf") (renders children).
Definition entry_box (e : entry) : Box :=
  match e with
  | Protected fixed bs s cs => mkBox (lit "enca") (fixed ++ renders (bs ++ sinf_box s :: cs))
  | Clear b => b
  end.

(** The format the entry had before it was protected. *)
Definition original_format (sinf : list Box) : str :=
  match list_find (fun b => kind b = lit "frma") sinf with Some (_, b) => take 4 (body b) | None => lit "alac" end.
Definition cleared (e : entry) : Box :=
  match e with
  | Protected fixed bs s cs => mkBox (original_format s) (fixed ++ renders (bs ++ cs))
  | Clear b => b
  end.
Definition entry_removed (e : entry) : Z := match e with Protected _ _ s _ => bsize (sinf_box s) | Clear _ => 0 end.

(** An init segment: the sample descriptions, the containers around them, and what is before and after the [moov]. *)
Record Init := mkInit {
  i_before : list Box;
  i_flags : list Z;
  i_count : Z;
  i_entry : entry;
  i_others : list Box;
  i_stbl : level;
  i_inner : list level;
  i_moov : level;
  i_after : list Box;
}.

Definition stsd_box (flags : list Z) (count : Z) (entries : list Box) : Box :=
  mkBox (lit "stsd") (flags ++ to_be 4 count ++ renders entries).
Definition i_stsd (i : Init) : Box := stsd_box (i_flags i) (i_count i) (entry_box (i_entry i) :: i_others i).
Definition path_of (i : Init) : list level := i_stbl i :: i_inner i ++ [i_moov i].
Definition init_bytes (i : Init) : list Z := renders (i_before i ++ plug (i_stsd i) (path_of i) :: i_after i).

(** Bytes taken from the sample descriptions. *)
Definition others_kept (i : Init) : list Box := if 1 <? i_count i then [] else i_others i.
Definition stsd_removed (i : Init) : Z :=
  entry_removed (i_entry i) + (len (renders (i_others i)) - len (renders (others_kept i))).

Definition without (q : Box -> bool) (l : level) : level :=
  mkLevel (l_kind l) (dropped q (l_before l)) (dropped q (l_after l)).

(** The segment without protection. *)
Definition transformed (i : Init) : Init :=
  mkInit (dropped is_pssh (i_before i)) (i_flags i) (if 1 <? i_count i then 1 else i_count i)
    (Clear (cleared (i_entry i))) (others_kept i)
    (if stsd_removed i =? 0 then without is_group (i_stbl i) else i_stbl i)
    (i_inner i) (without is_pssh (i_moov i)) (dropped is_pssh (i_after i)).

Record level_ok (l : level) : Prop := {
  lo_kind : len (l_kind l) = 4;
  lo_before : Forall box_ok (l_before l);
  lo_after : Forall box_ok (l_after l);
}.

Definition entry_ok (e : entry) : Prop :=
  match e with
  | Protected fixed bs s cs =>
      len fixed = 28 /\ Forall box_ok bs /\ Forall box_ok s /\ Forall box_ok cs /\
      Forall (fun b => kind b <> lit "sinf") bs /\ Forall (fun b => kind b = lit "frma" -> 4 <= len (body b)) s
  | Clear b => kind b <> lit "enca"
  end.

(** No sibling is taken for the box that is looked for. *)
Fixpoint firsts (k : str) (path : list level) : Prop :=
  match path with [] => True | l :: path => Forall (fun b => kind b <> k) (l_before l) /\ firsts (l_kind l) path end.

Record init_ok (i : Init) : Prop := {
  io_before : Forall box_ok (i_before i);
  io_after : Forall box_ok (i_after i);
  io_others : Forall box_ok (i_others i);
  io_flags : len (i_flags i) = 4;
  io_count : 0 <= i_count i < 2 ^ 32;
  io_entry : entry_ok (i_entry i) /\ box_ok (entry_box (i_entry i));
  io_levels : Forall level_ok (path_of i);
  io_kinds : l_kind <$> path_of i = [lit "stbl"; lit "minf"; lit "mdia"; lit "trak"; lit "moov"];
  io_firsts : firsts (lit "stsd") (path_of i) /\ Forall (fun b => kind b <> lit "moov") (i_before i);
  io_moov : box_ok (plug (i_stsd i) (path_of i));
  io_size : len (init_bytes i) < 2 ^ 62;
  io_groups : Forall (fun b => is_group b = false) (l_before (i_stbl i)) /\
    Forall (fun b => kind b = lit "sgpd" \/ kind b = lit "sbgp" -> 8 <= len (body b)) (l_before (i_stbl i) ++ l_after (i_stbl i));
}.

(** ** Lemmas *)

(** *** The headers of the containers *)

(** The bytes before a box of [s] bytes, every header declaring [extra] bytes too many. *)
Fixpoint heads (extra s : Z) (path : list level) : list Z :=
  match path with
  | [] => []
  | l :: path =>
      let size := 8 + len (renders (l_before l)) + s + len (renders (l_after l)) in
      heads extra size path ++ to_be 4 (size + extra) ++ l_kind l ++ renders (l_before l)
  end.

Fixpoint tails (path : list level) : list Z :=
  match path with [] => [] | l :: path => renders (l_after l) ++ tails path end.

Fixpoint depth (path : list level) : Z :=
  match path with [] => 0 | l :: path => depth path + 8 + len (renders (l_before l)) end.

(** Where the containers are, when the outermost one is at [o]. *)
Fixpoint places (o : Z) (path : list level) : list Z :=
  match path with [] => [] | l :: path => (o + depth path) :: places o path end.

Lemma depth_nonneg path : 0 <= depth path.
Proof. induction path as [|l path IH]; cbn [depth]; [lia|]. pose proof (len_nonneg (renders (l_before l))). lia. Qed.

Lemma len_heads extra s path : Forall level_ok path -> len (heads extra s path) = depth path.
Proof.
  intros Hok. revert s. induction Hok as [|l path Hl _ IH]; intros s; [done|]. cbn [heads depth].
  rewrite !len_app, IH, len_to_be, (lo_kind l Hl). lia.
Qed.

Lemma heads_shift n s path : heads 0 (s + n) path = heads n s path.
Proof.
  revert s. induction path as [|l path IH]; intros s; [done|]. cbn [heads].
  replace (8 + len (renders (l_before l)) + (s + n) + len (renders (l_after l)))
    with (8 + len (renders (l_before l)) + s + len (renders (l_after l)) + n) by lia. by rewrite IH, Z.add_0_r.
Qed.

Lemma level_size l x : len (render x) = bsize x ->
  bsize (level_box l x) = 8 + len (renders (l_before l)) + bsize x + len (renders (l_after l)).
Proof. intros Hx. unfold bsize at 1, level_box. cbn [body]. rewrite renders_app, renders_cons, !len_app, Hx. lia. Qed.

Lemma len_render_kind b : len (kind b) = 4 -> len (render b) = bsize b.
Proof. intros Hk. unfold render, bsize. rewrite !len_app, len_to_be, Hk. lia. Qed.

Lemma plug_bytes x path :
  Forall level_ok path -> len (kind x) = 4 -> render (plug x path) = heads 0 (bsize x) path ++ render x ++ tails path.
Proof.
  intros Hok. revert x. induction Hok as [|l path Hl _ IH]; intros x Hx; [cbn; by rewrite app_nil_r|].
  cbn [plug heads tails]. rewrite IH by apply Hl. rewrite level_size by (by apply len_render_kind).
  unfold render at 1. rewrite (level_size l x) by (by apply len_render_kind). cbn [kind body level_box].
  rewrite renders_app, renders_cons, Z.add_0_r, <-!app_assoc. reflexivity.
Qed.

Lemma shrink_mid pre v n post (a : Z) :
  0 <= n -> 0 <= v -> v + n < 2 ^ 32 -> a = len pre -> len pre + 4 < 2 ^ 64 ->
  shrink_be (pre ++ to_be 4 (v + n) ++ post) a 4 n = Done (pre ++ to_be 4 v ++ post).
Proof.
  intros Hn Hv Hvn -> Hl. unfold shrink_be. rewrite read_to_be by (done || lia). run_simpl.
  change (256 ^ Z.of_nat 4) with (2 ^ 32). rewrite Z.mod_small by lia. change (8 * Z.of_nat 4) with 32.
  rewrite (wrap_small 32 n), wrap_small by (unfold in_u; lia). unfold write_be.
  rewrite (store_mid pre (to_be 4 (v + n))) by (rewrite ?len_to_be; done). run_simpl. do 4 f_equal. lia.
Qed.

(** The size of the outermost container around [s] bytes. *)
Fixpoint outer_size (s : Z) (path : list level) : Z :=
  match path with
  | [] => s
  | l :: path => outer_size (8 + len (renders (l_before l)) + s + len (renders (l_after l))) path
  end.

Lemma outer_size_shift s n path : outer_size (s + n) path = outer_size s path + n.
Proof.
  revert s. induction path as [|l path IH]; intros s; [done|]. cbn [outer_size]. rewrite <-IH. f_equal. lia.
Qed.

Lemma outer_size_ge s path : s + depth path <= outer_size s path.
Proof.
  revert s. induction path as [|l path IH]; intros s; cbn [outer_size depth]; [lia|].
  pose proof (len_nonneg (renders (l_after l))). etrans; [|apply IH]. lia.
Qed.

Lemma plug_size x path : Forall level_ok path -> len (kind x) = 4 -> bsize (plug x path) = outer_size (bsize x) path.
Proof.
  intros Hok. revert x. induction Hok as [|l path Hl _ IH]; intros x Hx; [done|]. cbn [plug outer_size].
  rewrite IH by apply Hl. by rewrite level_size by (by apply len_render_kind).
Qed.

Lemma shrink_heads n s path pre post :
  Forall level_ok path -> 0 <= n -> 0 <= s -> outer_size s path + n < 2 ^ 32 -> len pre < 2 ^ 63 ->
  shrink_all (pre ++ heads n s path ++ post) (places (len pre) path) n = Done (pre ++ heads 0 s path ++ post).
Proof.
  intros Hok Hn. revert s post. induction Hok as [|l path Hl Hok IH]; intros s post Hs Hout Hpre; [done|].
  cbn [heads places shrink_all outer_size] in *. set (size := 8 + len (renders (l_before l)) + s + len (renders (l_after l))) in *.
  assert (Hsize : 0 <= size) by (subst size; pose proof (len_nonneg (renders (l_before l))); pose proof (len_nonneg (renders (l_after l))); lia).
  pose proof (outer_size_ge size path). pose proof (depth_nonneg path).
  replace (pre ++ (heads n size path ++ to_be 4 (size + n) ++ l_kind l ++ renders (l_before l)) ++ post)
    with ((pre ++ heads n size path) ++ to_be 4 (size + n) ++ (l_kind l ++ renders (l_before l) ++ post)) by (by rewrite <-!app_assoc).
  rewrite shrink_mid by (try (rewrite len_app, len_heads by done); lia). run_simpl.
  rewrite <-app_assoc, IH by lia. by rewrite Z.add_0_r, <-!app_assoc.
Qed.

(** *** Finding the containers *)

Fixpoint levels_fit (x : Box) (path : list level) : Prop :=
  match path with [] => box_ok x | l :: path => box_ok x /\ levels_fit (level_box l x) path end.

Lemma plug_fits x path :
  Forall level_ok path -> len (kind x) = 4 -> box_ok (plug x path) -> levels_fit x path.
Proof.
  intros Hok. revert x. induction Hok as [|l path Hl Hok IH]; intros x Hx Hb; [done|]. cbn [plug levels_fit] in *. split.
  - split; [done|]. destruct Hb as [_ Hb]. rewrite plug_size in Hb by (done || apply Hl).
    pose proof (outer_size_ge (bsize (level_box l x)) path). pose proof (depth_nonneg path).
    rewrite level_size in * by (by apply len_render_kind).
    pose proof (len_nonneg (renders (l_before l))). pose proof (len_nonneg (renders (l_after l))). lia.
  - apply IH; [apply Hl|done].
Qed.

Lemma level_children l x : level_ok l -> box_ok x -> Forall box_ok (l_before l ++ x :: l_after l).
Proof. intros Hl Hx. apply Forall_app. split; [apply Hl|]. constructor; [done|apply Hl]. Qed.

(** One step down: the box [x] in its container. *)
Lemma find_in_level pre l x path post :
  level_ok l -> Forall level_ok path -> box_ok x -> levels_fit (level_box l x) path ->
  Forall (fun b => kind b <> kind x) (l_before l) ->
  len (pre ++ render (plug x (l :: path)) ++ post) < 2 ^ 63 ->
  let o := len pre + depth path in
  find_child_box (pre ++ render (plug x (l :: path)) ++ post) (o ⊕ 8) (o ⊕ bsize (level_box l x)) (kind x) =
  Done (Some (len pre + depth (l :: path), bsize x)).
Proof.
  intros Hl Hpath Hx Hfit Hfirst Hlen o. subst o. cbn [plug].
  assert (Hk : len (kind (level_box l x)) = 4) by apply Hl.
  pose proof (level_size l x (len_render_kind x (box_kind x Hx))) as Hsz.
  assert (Hd : pre ++ render (plug (level_box l x) path) ++ post =
    (pre ++ heads 0 (bsize (level_box l x)) path ++ box_head (level_box l x)) ++ renders (l_before l ++ x :: l_after l) ++ (tails path ++ post)).
  { rewrite plug_bytes, (box_head_render (level_box l x)) by done. cbn [body level_box]. by rewrite <-!app_assoc. }
  assert (Hh : len (pre ++ heads 0 (bsize (level_box l x)) path ++ box_head (level_box l x)) = len pre + depth path + 8)
    by (rewrite !len_app, len_heads, len_box_head by done; lia).
  assert (Hc : len (renders (l_before l ++ x :: l_after l)) + 8 = bsize (level_box l x)).
  { rewrite Hsz, renders_app, renders_cons, !len_app, (len_render_kind x) by apply Hx. lia. }
  cbn [plug] in Hlen. rewrite Hd in Hlen |- *. pose proof Hlen as Hlen'. rewrite len_app, Hh, len_app in Hlen'.
  pose proof (len_nonneg pre). pose proof (depth_nonneg path). pose proof (len_nonneg (tails path ++ post)).
  pose proof (len_nonneg (renders (l_before l ++ x :: l_after l))). nowrap.
  rewrite find_first; [|by apply level_children|done|done|lia|lia].
  cbn [depth]. rewrite Hh. do 3 f_equal. lia.
Qed.

(** *** The first entry *)

Lemma first_of_kind t s :
  (Forall (fun b => kind b <> t) s /\ list_find (fun b => kind b = t) s = None) \/
  exists l1 b l2, s = l1 ++ b :: l2 /\ kind b = t /\ Forall (fun b => kind b <> t) l1 /\
    list_find (fun b => kind b = t) s = Some (length l1, b).
Proof.
  induction s as [|x s IH]; [left; split; [constructor|done]|]. destruct (decide (kind x = t)) as [Hx|Hx].
  - right. exists [], x, s. split_and!; [done|done|constructor|]. cbn [list_find]. by rewrite decide_True.
  - destruct IH as [[Hs Hn]|(l1 & b & l2 & -> & Hb & Hl & Hn)].
    + left. split; [by constructor|]. cbn [list_find]. by rewrite decide_False, Hn.
    + right. exists (x :: l1), b, l2. split_and!; [done|done|by constructor|]. cbn [list_find]. by rewrite decide_False, Hn.
Qed.

(** The format is read from the [sinf]. *)
Lemma format_read pre s post :
  Forall box_ok s -> Forall (fun b => kind b = lit "frma" -> 4 <= len (body b)) s ->
  len (pre ++ render (sinf_box s) ++ post) < 2 ^ 63 ->
  (frma ← child (pre ++ render (sinf_box s) ++ post) (len pre, bsize (sinf_box s)) (lit "frma");
   match frma with
   | Some (frma_off, _) => must (slice (pre ++ render (sinf_box s) ++ post) (frma_off ⊕ 8) (frma_off ⊕ 12))
   | None => mret (lit "alac")
   end) = (Done (original_format s) : run _).
Proof.
  intros Hok H4 Hlen. rewrite (child_of pre (sinf_box s) s post (lit "frma") (len pre)) by done. unfold original_format.
  assert (Hd : pre ++ render (sinf_box s) ++ post = (pre ++ box_head (sinf_box s)) ++ renders s ++ post)
    by (rewrite (box_head_render (sinf_box s)); by rewrite <-!app_assoc).
  rewrite Hd in *.
  destruct (first_of_kind (lit "frma") s) as [[Hn ->]|(l1 & b & l2 & -> & Hb & Hl & ->)].
  - rewrite find_none by done. run_simpl. done.
  - rewrite <-Hb. rewrite find_first by (done || (eapply Forall_impl; [exact Hl|]; intros x Hx; by rewrite Hb)). run_simpl.
    apply Forall_app in H4 as [_ H4]. apply Forall_cons in H4 as [H4 _]. specialize (H4 Hb).
    apply Forall_app in Hok as [_ Hok]. apply Forall_cons in Hok as [Hbok _].
    assert (Hc : body b = take 4 (body b) ++ drop 4 (body b)) by (by rewrite take_drop).
    assert (H4' : len (take 4 (body b)) = 4) by (unfold len in *; rewrite length_take; lia).
    set (p := pre ++ box_head (sinf_box (l1 ++ b :: l2))) in *.
    assert (He : p ++ renders (l1 ++ b :: l2) ++ post = (p ++ renders l1 ++ box_head b) ++ take 4 (body b) ++ (drop 4 (body b) ++ renders l2 ++ post)).
    { rewrite renders_app, renders_cons, (box_head_render b). rewrite Hc at 1. by rewrite <-!app_assoc. }
    assert (Hp : len (p ++ renders l1 ++ box_head b) = len p + len (renders l1) + 8)
      by (rewrite !len_app, len_box_head by apply Hbok; lia).
    rewrite He in Hlen |- *. rewrite len_app, Hp, len_app, H4' in Hlen.
    pose proof (len_nonneg p). pose proof (len_nonneg (renders l1)). pose proof (len_nonneg (drop 4 (body b) ++ renders l2 ++ post)).
    nowrap. rewrite slice_mid by lia. done.
Qed.

Lemma original_format_len s : Forall (fun b => kind b = lit "frma" -> 4 <= len (body b)) s -> len (original_format s) = 4.
Proof.
  intros H4. unfold original_format. destruct (first_of_kind (lit "frma") s) as [[_ ->]|(l1 & b & l2 & -> & Hb & _ & ->)]; [done|].
  apply Forall_app in H4 as [_ H4]. apply Forall_cons in H4 as [H4 _]. specialize (H4 Hb). unfold len in *. rewrite length_take. lia.
Qed.

Lemma cleared_size e : entry_ok e -> box_ok (entry_box e) -> bsize (cleared e) = bsize (entry_box e) - entry_removed e /\ len (kind (cleared e)) = 4.
Proof.
  destruct e as [fixed bs s cs|b]; cbn [entry_box cleared entry_removed entry_ok]; [|intros _ [Hk _]; split; [lia|done]].
  intros (Hf & Hbs & Hs & Hcs & _ & H4) _. split; [|by apply original_format_len]. unfold bsize at 1 2. cbn [body].
  rewrite !len_app, !renders_app, renders_cons, !len_app, len_render_kind by done. lia.
Qed.

Lemma clear_entry_spec pre e post :
  entry_ok e -> box_ok (entry_box e) -> len (pre ++ render (entry_box e) ++ post) < 2 ^ 63 ->
  clear_entry (pre ++ render (entry_box e) ++ post) (len pre) (bsize (entry_box e)) (kind (entry_box e)) =
  Done (pre ++ render (cleared e) ++ post, entry_removed e).
Proof.
  intros He Hb Hlen. pose proof (cleared_size e He Hb) as [Hcs Hck]. unfold clear_entry.
  destruct e as [fixed bs s cs|b]; cbn [entry_ok] in He; [|by rewrite decide_False].
  destruct He as (Hf & Hbs & Hs & Hcs' & Hfirst & H4). rewrite decide_True by done.
  cbn [entry_removed] in *. set (E := entry_box (Protected fixed bs s cs)) in *. set (S := sinf_box s) in *.
  pose proof (bsize_ge E) as HE. pose proof (bsize_ge S) as HS.
  assert (HES : bsize E = 36 + len (renders bs) + bsize S + len (renders cs)).
  { unfold bsize at 1. subst E. cbn [body entry_box]. rewrite len_app, renders_app, renders_cons, !len_app, len_render_kind by done. fold S. lia. }
  pose proof (len_nonneg (renders bs)). pose proof (len_nonneg (renders cs)). pose proof (len_nonneg pre). pose proof (len_nonneg post).
  destruct Hb as [_ HE32].
  assert (HSok : box_ok S) by (split; [done|lia]).
  assert (Hd : pre ++ render E ++ post = (pre ++ box_head E ++ fixed) ++ renders (bs ++ S :: cs) ++ post).
  { rewrite (box_head_render E). subst E. cbn [body entry_box]. by rewrite <-!app_assoc. }
  assert (Hp : len (pre ++ box_head E ++ fixed) = len pre + 36) by (rewrite !len_app, len_box_head, Hf by done; lia).
  pose proof Hlen as Hl. rewrite !len_app, (len_render_kind E) in Hl by done. nowrap.
  assert (Hfind : find_child_box (pre ++ render E ++ post) (len pre + 36) (len pre + bsize E) (lit "sinf") =
                  Done (Some (len pre + 36 + len (renders bs), bsize S))).
  { rewrite Hd in Hlen |- *. change (lit "sinf") with (kind S). rewrite find_first.
    - by rewrite Hp.
    - apply Forall_app. split; [done|]. by constructor.
    - done.
    - done.
    - by rewrite Hp.
    - rewrite Hp, renders_app, renders_cons, !len_app, (len_render_kind S) by done. lia. }
  rewrite Hfind. run_simpl.
  assert (Hd2 : pre ++ render E ++ post = (pre ++ box_head E ++ fixed ++ renders bs) ++ render S ++ (renders cs ++ post)).
  { rewrite Hd, renders_app, renders_cons. by rewrite <-!app_assoc. }
  assert (Hp2 : len (pre ++ box_head E ++ fixed ++ renders bs) = len pre + 36 + len (renders bs)) by (rewrite !len_app, len_box_head, Hf by done; lia).
  assert (Hfmt := format_read (pre ++ box_head E ++ fixed ++ renders bs) s (renders cs ++ post) Hs H4). fold S in Hfmt.
  rewrite <-Hd2, Hp2 in Hfmt. specialize (Hfmt Hlen).
  destruct (child (pre ++ render E ++ post) (len pre + 36 + len (renders bs), bsize S) (lit "frma")) as [frma| | |];
    cbn [mbind outcome_bind] in Hfmt |- *; try done. rewrite Hfmt. run_simpl. nowrap.
  assert (Hd3 : pre ++ render E ++ post = (pre ++ to_be 4 (bsize E)) ++ lit "enca" ++ (fixed ++ renders bs ++ render S ++ renders cs ++ post)).
  { rewrite Hd2. unfold box_head. by rewrite <-!app_assoc. }
  rewrite Hd3. pose proof (original_format_len s H4) as Hfl.
  rewrite (store_mid _ (lit "enca")) by (rewrite ?len_app, ?len_to_be; done). run_simpl.
  replace ((pre ++ to_be 4 (bsize E)) ++ original_format s ++ fixed ++ renders bs ++ render S ++ renders cs ++ post)
    with ((pre ++ to_be 4 (bsize E) ++ original_format s ++ fixed ++ renders bs) ++ render S ++ (renders cs ++ post)) by (by rewrite <-!app_assoc).
  rewrite drain_mid by (rewrite !len_app, len_to_be, Hfl, Hf, ?(len_render_kind S) by done; lia). run_simpl.
  rewrite (wrap_small 64), (wrap_small 32) by (unfold in_u; rewrite ?(wrap_small 64); unfold in_u; lia).
  replace ((pre ++ to_be 4 (bsize E) ++ original_format s ++ fixed ++ renders bs) ++ renders cs ++ post)
    with (pre ++ to_be 4 (bsize E) ++ (original_format s ++ fixed ++ renders bs ++ renders cs ++ post)) by (by rewrite <-!app_assoc).
  unfold write_be. rewrite (store_mid pre (to_be 4 (bsize E))) by (rewrite ?len_to_be; done). run_simpl.
  do 2 f_equal. rewrite <-Hcs. unfold render at 1. cbn [kind body cleared]. rewrite renders_app. by rewrite <-!app_assoc.
Qed.

(** *** The other entries *)

Lemma drop_entries_spec pre count e others post stsd_off stsd_len removed :
  len (kind e) = 4 -> bsize e < 2 ^ 32 -> 0 <= count < 2 ^ 32 -> 0 <= stsd_off -> len pre = stsd_off + 12 ->
  stsd_off + stsd_len - removed = stsd_off + 16 + bsize e + len (renders others) -> 0 <= removed -> 
  stsd_off + stsd_len < 2 ^ 63 ->
  drop_entries (pre ++ to_be 4 count ++ render e ++ renders others ++ post) stsd_off stsd_len (stsd_off + 16) removed count =
  Done (pre ++ to_be 4 (if 1 <? count then 1 else count) ++ render e ++ renders (if 1 <? count then [] else others) ++ post,
        len (renders others) - len (renders (if 1 <? count then [] else others))).
Proof.
  intros Hk He Hc Ho Hpre Hend Hr Hb. unfold drop_entries. pose proof (bsize_ge e). pose proof (len_nonneg (renders others)).
  destruct (Z.ltb_spec 1 count) as [H1|H1]; [|by rewrite Z.sub_diag].
  assert (Hsz : read_be (pre ++ to_be 4 count ++ render e ++ renders others ++ post) (stsd_off + 16) 4 = Done (bsize e)).
  { unfold render. rewrite <-!app_assoc, (app_assoc pre). rewrite read_to_be; [|rewrite len_app, len_to_be; lia|done|rewrite len_app, len_to_be; lia].
    change (256 ^ Z.of_nat 4) with (2 ^ 32). by rewrite Z.mod_small by lia. }
  rewrite Hsz. run_simpl. nowrap. rewrite (wrap_small 64) by (unfold in_u; lia).
  assert (Hw : forall x, write_be (pre ++ to_be 4 count ++ x) (stsd_off + 12) 4 1 = Done (pre ++ to_be 4 1 ++ x)).
  { intros x. unfold write_be. rewrite (store_mid pre (to_be 4 count)) by (rewrite ?len_to_be; lia). done. }
  change (len (renders (@nil Box))) with 0. change (renders (@nil Box)) with (@nil Z).
  destruct (Z.ltb_spec (stsd_off + 16 + bsize e) (stsd_off + stsd_len - removed)) as [Hlt|Hge].
  - replace (pre ++ to_be 4 count ++ render e ++ renders others ++ post)
      with ((pre ++ to_be 4 count ++ render e) ++ renders others ++ post) by (by rewrite <-!app_assoc).
    rewrite drain_mid by (rewrite !len_app, len_to_be, len_render_kind by done; lia). run_simpl.
    rewrite <-!app_assoc, Hw. run_simpl. do 2 f_equal. lia.
  - run_simpl. rewrite Hw. run_simpl. assert (Hz : len (renders others) = 0) by lia. rewrite Hz.
    assert (renders others = []) as -> by (destruct (renders others); [done|rewrite len_cons in Hz; pose proof (len_nonneg l); lia]).
    done.
Qed.

(** *** The groups *)

Lemma seam_group_at pre b post :
  box_ok b -> len (pre ++ render b ++ post) < 2 ^ 63 -> (kind b = lit "sgpd" \/ kind b = lit "sbgp" -> 8 <= len (body b)) ->
  is_seam_group (pre ++ render b ++ post) (len pre) (kind b) = Done (is_group b).
Proof.
  intros Hb Hlen H8. pose proof (seam_group_keep pre [b] post [] b [] eq_refl) as H.
  rewrite renders_nil, len_nil, Z.add_0_r, renders_cons, renders_nil, app_nil_r in H. apply H; [by constructor|done|done].
Qed.

Lemma drop_groups_spec bs pre post stop removed fuel :
  Forall box_ok bs -> Forall (fun b => kind b = lit "sgpd" \/ kind b = lit "sbgp" -> 8 <= len (body b)) bs ->
  len (pre ++ renders bs ++ post) < 2 ^ 62 -> (length bs < fuel)%nat -> 0 <= removed -> stop < 2 ^ 63 ->
  stop - removed = len pre + len (renders bs) ->
  drop_groups fuel (pre ++ renders bs ++ post) (len pre) stop removed =
  Done (pre ++ renders (dropped is_group bs) ++ post, removed + weight is_group bs).
Proof.
  intros Hok. revert pre removed fuel. induction Hok as [|b bs Hb _ IH]; intros pre removed fuel H8 Hlen Hf Hr Hst Hstop;
    (destruct fuel as [|f]; [cbn in Hf; lia|]); cbn [drop_groups]; pose proof (len_nonneg pre).
  - rewrite renders_nil, len_nil in Hstop. rewrite (wrap_small 64) by (unfold in_u; lia).
    rewrite !len_app in Hlen. pose proof (len_nonneg (renders [])). pose proof (len_nonneg post). nowrap. decide_le.
    rewrite Z.add_0_r. done.
  - apply Forall_cons in H8 as [H8 H8s]. rewrite renders_cons, <-app_assoc in *.
    rewrite len_app, len_render in Hstop by done. pose proof (bsize_ge b). pose proof (len_nonneg (renders bs)). pose proof (len_nonneg post).
    pose proof Hlen as Hl. rewrite !len_app, len_render in Hl by done. rewrite (wrap_small 64) by (unfold in_u; lia).
    nowrap. decide_le. rewrite read_box_header_render by (done || lia). run_simpl. nowrap.
    rewrite !len_app, len_render by done. decide_le. rewrite seam_group_at by (done || lia). run_simpl.
    rewrite weight_cons. unfold dropped. rewrite filter_cons. destruct (is_group b) eqn:Eg.
    + rewrite decide_False by done. rewrite (drain_mid pre (render b)) by (rewrite ?len_render by done; done). run_simpl.
      rewrite IH; [by rewrite Z.add_assoc|done| |cbn in Hf; lia|lia|done|lia].
      rewrite !len_app in *. lia.
    + rewrite decide_True by done. rewrite renders_cons.
      assert (Hp : len (pre ++ render b) = len pre + bsize b) by (rewrite len_app, len_render; done).
      rewrite (app_assoc pre (render b)), <-Hp. rewrite IH; [|done| |cbn in Hf; lia|done|done|lia].
      * by rewrite <-!app_assoc.
      * by rewrite <-app_assoc.
Qed.

Lemma read_header_raw pre v k post :
  len k = 4 -> 8 <= v < 2 ^ 32 -> len pre + 8 < 2 ^ 63 ->
  read_box_header (pre ++ to_be 4 v ++ k ++ post) (len pre) = Done (Some (v, k, 8)).
Proof.
  intros Hk Hv Hp. pose proof (len_nonneg pre). pose proof (len_nonneg post). unfold read_box_header.
  rewrite !len_app, len_to_be, Hk. nowrap. decide_le. rewrite (read_to_be pre 4 v _ (len pre) 4) by (done || lia). run_simpl. nowrap.
  rewrite (app_assoc pre (to_be 4 v)). rewrite (slice_mid _ k) by (rewrite len_app, len_to_be; lia). run_simpl.
  change (256 ^ Z.of_nat 4) with (2 ^ 32). rewrite Z.mod_small by lia. by decide_le.
Qed.

Lemma drop_groups_skip bs pre post stop removed fuel :
  Forall box_ok bs -> Forall (fun b => is_group b = false) bs ->
  Forall (fun b => kind b = lit "sgpd" \/ kind b = lit "sbgp" -> 8 <= len (body b)) bs ->
  len (pre ++ renders bs ++ post) < 2 ^ 62 -> 0 <= removed -> stop < 2 ^ 63 -> len pre + len (renders bs) <= stop - removed ->
  drop_groups (length bs + fuel) (pre ++ renders bs ++ post) (len pre) stop removed =
  drop_groups fuel (pre ++ renders bs ++ post) (len pre + len (renders bs)) stop removed.
Proof.
  intros Hok. revert pre. induction Hok as [|b bs Hb _ IH]; intros pre Hn H8 Hlen Hr Hst Hstop; [by rewrite renders_nil, len_nil, Z.add_0_r|].
  apply Forall_cons in H8 as [H8 H8s]. apply Forall_cons in Hn as [Hg Hn]. rewrite renders_cons, <-app_assoc in *.
  rewrite len_app, len_render in * by done. pose proof (bsize_ge b). pose proof (len_nonneg (renders bs)). pose proof (len_nonneg post).
  pose proof (len_nonneg pre). pose proof Hlen as Hl. rewrite !len_app, len_render in Hl by done.
  cbn [length Nat.add drop_groups]. rewrite (wrap_small 64) by (unfold in_u; lia).
  nowrap. decide_le. rewrite read_box_header_render by (done || lia). run_simpl. nowrap.
  rewrite !len_app, len_render by done. decide_le. rewrite seam_group_at by (done || (rewrite !len_app, len_render by done; lia)). run_simpl. rewrite Hg.
  assert (Hp : len (pre ++ render b) = len pre + bsize b) by (rewrite len_app, len_render; done).
  rewrite (app_assoc pre (render b)), <-Hp. rewrite IH; [by rewrite Hp, Z.add_assoc|done|done| |done|done|lia].
  rewrite !len_app, len_render by done. lia.
Qed.

(** The sample descriptions still declare the [r] bytes they have lost. *)
Lemma groups_after_stsd pre before size r x after post fuel :
  Forall box_ok before -> Forall box_ok after -> Forall (fun b => is_group b = false) before ->
  Forall (fun b => kind b = lit "sgpd" \/ kind b = lit "sbgp" -> 8 <= len (body b)) (before ++ after) ->
  size = 8 + len x -> 0 <= r -> size + r < 2 ^ 32 -> r = 0 \/ len (renders after) < r + 8 ->
  len (pre ++ renders before ++ (to_be 4 (size + r) ++ lit "stsd" ++ x) ++ renders after ++ post) < 2 ^ 62 ->
  (length (before ++ after) + 1 < fuel)%nat ->
  let kept := if r =? 0 then dropped is_group after else after in
  drop_groups fuel (pre ++ renders before ++ (to_be 4 (size + r) ++ lit "stsd" ++ x) ++ renders after ++ post)
    (len pre) (len pre + len (renders before) + size + len (renders after)) 0 =
  Done (pre ++ renders before ++ (to_be 4 (size + r) ++ lit "stsd" ++ x) ++ renders kept ++ post,
        len (renders after) - len (renders kept)).
Proof.
  intros Hb Ha Hn H8 Hs Hr H32 Hcase Hlen Hf kept. subst kept. pose proof (len_nonneg x). pose proof (len_nonneg pre).
  pose proof (len_nonneg post). pose proof (len_nonneg (renders before)). pose proof (len_nonneg (renders after)).
  apply Forall_app in H8 as [H8b H8a]. rewrite length_app in Hf.
  set (Y := to_be 4 (size + r) ++ lit "stsd" ++ x) in *.
  assert (Hx : len Y = size) by (subst Y; rewrite !len_app, len_to_be; change (len (lit "stsd")) with 4; lia).
  assert (Hl : len pre + len (renders before) + size + len (renders after) + len post < 2 ^ 62) by (rewrite !len_app in Hlen; lia).
  destruct (Z.eqb_spec r 0) as [->|Hr0].
  - set (bs := before ++ mkBox (lit "stsd") x :: after).
    assert (HY : Y = render (mkBox (lit "stsd") x)) by (unfold Y, render, bsize; cbn [kind body]; by rewrite Hs, Z.add_0_r).
    assert (Hd : renders before ++ Y ++ renders after ++ post = renders bs ++ post)
      by (unfold bs; rewrite renders_app, renders_cons, HY; by rewrite <-!app_assoc).
    assert (Hok : Forall box_ok bs).
    { apply Forall_app. split; [done|]. constructor; [|done]. split; [done|]. unfold bsize. cbn [body]. lia. }
    assert (Hbs : len (renders bs) = len (renders before) + size + len (renders after))
      by (unfold bs; rewrite renders_app, renders_cons, <-HY, !len_app; lia).
    assert (Hdrop : dropped is_group bs = before ++ mkBox (lit "stsd") x :: dropped is_group after).
    { unfold bs. rewrite dropped_app. unfold dropped at 2. rewrite filter_cons_True by done. f_equal.
      clear -Hn. induction Hn as [|b l Hg _ IH]; [done|]. unfold dropped in *. by rewrite filter_cons_True, IH. }
    pose proof (len_dropped is_group bs Hok) as Hw. rewrite Hdrop, renders_app, renders_cons, <-HY, !len_app in Hw.
    rewrite Hd in Hlen |- *. rewrite (drop_groups_spec bs pre post _ 0) by
      (done || lia || (unfold bs; rewrite length_app in *; cbn [length]; lia) ||
       (unfold bs; apply Forall_app; split; [done|]; constructor; [intros [E|E]; by vm_compute in E|done])).
    rewrite Hdrop, renders_app, renders_cons, <-HY, <-!app_assoc. do 2 f_equal. lia.
  - destruct Hcase as [->|Hshort]; [done|]. rewrite Z.sub_diag.
    replace fuel with (length before + (fuel - length before))%nat by lia.
    rewrite drop_groups_skip by (done || lia). destruct (fuel - length before)%nat as [|f] eqn:Ef; [lia|]. cbn [drop_groups].
    rewrite (wrap_small 64) by (unfold in_u; lia). nowrap. decide_le.
    assert (Hd : pre ++ renders before ++ Y ++ renders after ++ post =
      (pre ++ renders before) ++ to_be 4 (size + r) ++ lit "stsd" ++ (x ++ renders after ++ post)) by (unfold Y; by rewrite <-!app_assoc).
    assert (Hh : read_box_header (pre ++ renders before ++ Y ++ renders after ++ post) (len pre + len (renders before)) =
                 Done (Some (size + r, lit "stsd", 8))).
    { rewrite Hd, <-len_app. apply read_header_raw; [done|lia|rewrite len_app; lia]. }
    rewrite Hh. run_simpl. nowrap. decide_le. destruct (_ <? _); [done|]. unfold is_seam_group.
    change (bool_decide (lit "stsd" = lit "sgpd") || bool_decide (lit "stsd" = lit "sbgp"))%bool with false. run_simpl.
    destruct f as [|f]; [lia|]. cbn [drop_groups]. rewrite (wrap_small 64) by (unfold in_u; lia). nowrap. by decide_le.
Qed.

(** *** The protection headers *)

Lemma picked_nil q o bs : picked q o bs = [] -> dropped q bs = bs.
Proof.
  revert o. induction bs as [|b bs IH]; intros o; [done|]. cbn [picked]. intros H. apply app_nil in H as [Hb Hbs].
  unfold dropped in *. rewrite filter_cons. destruct (q b); [done|]. rewrite decide_True by done. f_equal. by eapply IH.
Qed.

Lemma sorted_picked q o bs : sort_desc (picked q o bs) = reverse (picked q o bs).
Proof. apply sort_desc_unique; [by rewrite reverse_Permutation|apply reverse_picked_sorted]. Qed.

Lemma moov_pssh pre k cs post :
  Forall box_ok cs -> box_ok (mkBox k (renders cs)) -> len (pre ++ render (mkBox k (renders cs)) ++ post) < 2 ^ 62 ->
  drop_moov_pssh (pre ++ render (mkBox k (renders cs)) ++ post) (len pre) =
  Done (pre ++ render (mkBox k (renders (dropped is_pssh cs))) ++ post).
Proof.
  intros Hcs Hm Hlen. unfold drop_moov_pssh. set (M := mkBox k (renders cs)) in *. pose proof (bsize_ge M). pose proof (len_nonneg pre). pose proof (len_nonneg post).
  pose proof Hlen as Hl. rewrite !len_app, (len_render M Hm) in Hl.
  assert (HM : bsize M = 8 + len (renders cs)) by done.
  rewrite read_box_header_render by (done || lia). run_simpl. nowrap.
  assert (Hd : pre ++ render M ++ post = (pre ++ box_head M) ++ renders cs ++ post) by (rewrite (box_head_render M); by rewrite <-!app_assoc).
  assert (Hh : len (pre ++ box_head M) = len pre + 8) by (rewrite len_app, len_box_head by apply Hm; lia).
  assert (Hall : find_all_child_boxes (pre ++ render M ++ post) (len pre + 8) (len pre + bsize M) (lit "pssh") = Done (picked is_pssh (len pre + 8) cs)).
  { rewrite HM, Z.add_assoc, <-Hh. rewrite Hd in Hlen |- *. apply collect_boxes; [done|lia|intros; apply of_type_keep]. }
  rewrite Hall. run_simpl. destruct (picked is_pssh (len pre + 8) cs) as [|p l] eqn:Ep; [by rewrite (picked_nil _ _ _ Ep)|].
  rewrite <-Ep, sorted_picked. pose proof (picked_weight is_pssh (len pre + 8) cs) as Hw.
  pose proof (weight_le is_pssh cs Hcs). pose proof (weight_nonneg is_pssh cs). pose proof (box_size M Hm).
  rewrite sizes_sum, Hw by (apply picked_sizes || lia).
  rewrite Hd in Hlen |- *. rewrite <-Hh, drain_picked by (done || lia). run_simpl. change (8 =? 16) with false. cbv iota.
  assert (HM' : bsize M = bsize (mkBox k (renders (dropped is_pssh cs))) + weight is_pssh cs)
    by (rewrite HM; unfold bsize; cbn [body]; rewrite len_dropped by done; lia).
  pose proof (bsize_ge (mkBox k (renders (dropped is_pssh cs)))).
  unfold box_head. rewrite HM', <-!app_assoc, shrink_mid by (done || lia).
  unfold render. by rewrite <-!app_assoc.
Qed.

Lemma top_level_pssh bs :
  Forall box_ok bs -> len (renders bs) < 2 ^ 63 ->
  drop_top_pssh (renders bs) = Done (renders (dropped is_pssh bs)).
Proof.
  intros Hok Hlen. unfold drop_top_pssh. pose proof (collect_boxes false (of_type (lit "pssh")) is_pssh [] bs [] Hok) as Hc.
  pose proof (drain_picked is_pssh [] bs [] Hok) as Hd. rewrite !app_nil_r in Hc, Hd. cbn [app] in Hc, Hd.
  change (len (@nil Z)) with 0 in Hc, Hd. rewrite Z.add_0_l in Hc.
  rewrite Hc by (done || (intros; apply of_type_keep)). run_simpl. rewrite sorted_picked. rewrite Hd by done. by rewrite app_nil_r.
Qed.

(** *** The way down *)

Lemma require_found data start stop t msg o :
  find_child_box data start stop t = Done (Some o) -> require_box data start stop t msg = Done o.
Proof. intros H. unfold require_box. by rewrite H. Qed.

Section Descent.
Variables (tops : list Box) (x : Box) (l1 l2 l3 l4 l5 : level) (after : list Box).
Let b1 := level_box l1 x.
Let b2 := level_box l2 b1.
Let b3 := level_box l3 b2.
Let b4 := level_box l4 b3.
Let b5 := level_box l5 b4.
Let data := renders (tops ++ b5 :: after).
Let o := len (renders tops).
Hypothesis Htops : Forall box_ok tops.
Hypothesis Hafter : Forall box_ok after.
Hypothesis Hlevels : Forall level_ok [l1; l2; l3; l4; l5].
Hypothesis Hfit : levels_fit x [l1; l2; l3; l4; l5].
Hypothesis Hfirst : firsts (kind x) [l1; l2; l3; l4; l5].
Hypothesis Hmoov : Forall (fun b => kind b <> l_kind l5) tops.
Hypothesis Hlen : len data < 2 ^ 63.

Lemma descent_data : data = renders tops ++ render b5 ++ renders after.
Proof. unfold data. by rewrite renders_app, renders_cons. Qed.

Lemma descent_found :
  find_child_box data 0 (len data) (l_kind l5) = Done (Some (o, bsize b5)) /\
  find_child_box data (o ⊕ 8) (o ⊕ bsize b5) (l_kind l4) = Done (Some (o + depth [l5], bsize b4)) /\
  find_child_box data ((o + depth [l5]) ⊕ 8) ((o + depth [l5]) ⊕ bsize b4) (l_kind l3) = Done (Some (o + depth [l4; l5], bsize b3)) /\
  find_child_box data ((o + depth [l4; l5]) ⊕ 8) ((o + depth [l4; l5]) ⊕ bsize b3) (l_kind l2) = Done (Some (o + depth [l3; l4; l5], bsize b2)) /\
  find_child_box data ((o + depth [l3; l4; l5]) ⊕ 8) ((o + depth [l3; l4; l5]) ⊕ bsize b2) (l_kind l1) = Done (Some (o + depth [l2; l3; l4; l5], bsize b1)) /\
  find_child_box data ((o + depth [l2; l3; l4; l5]) ⊕ 8) ((o + depth [l2; l3; l4; l5]) ⊕ bsize b1) (kind x) =
    Done (Some (o + depth [l1; l2; l3; l4; l5], bsize x)).
Proof.
  cbn [levels_fit] in Hfit. fold b1 in Hfit. fold b2 in Hfit. fold b3 in Hfit. fold b4 in Hfit. fold b5 in Hfit.
  destruct Hfit as (Hx & H1 & H2 & H3 & H4 & H5). cbn [firsts] in Hfirst. destruct Hfirst as (F1 & F2 & F3 & F4 & F5 & _).
  pose proof Hlevels as HL. rewrite !Forall_cons in HL. destruct HL as (L1 & L2 & L3 & L4 & L5 & _).
  pose proof Hlen as Hlen'. rewrite descent_data in Hlen'.
  assert (Htop : find_child_box data 0 (len data) (l_kind l5) = Done (Some (o, bsize b5))).
  { pose proof (find_first [] tops b5 after [] 0 (len data)) as H. rewrite app_nil_r in H. cbn [app] in H. apply H; try done.
    apply Forall_app. split; [done|]. by constructor. }
  split; [exact Htop|]. rewrite descent_data. subst o.
  pose proof (find_in_level (renders tops) l5 b4 [] (renders after) L5 ltac:(apply Forall_nil_2) H4 H5 F5 Hlen') as D5.
  pose proof (find_in_level (renders tops) l4 b3 [l5] (renders after) L4 ltac:(by repeat (apply Forall_cons_2; [assumption|])) H3 ltac:(cbn [levels_fit]; split_and!; assumption) F4 Hlen') as D4.
  pose proof (find_in_level (renders tops) l3 b2 [l4; l5] (renders after) L3 ltac:(by repeat (apply Forall_cons_2; [assumption|])) H2 ltac:(cbn [levels_fit]; split_and!; assumption) F3 Hlen') as D3.
  pose proof (find_in_level (renders tops) l2 b1 [l3; l4; l5] (renders after) L2 ltac:(by repeat (apply Forall_cons_2; [assumption|])) H1 ltac:(cbn [levels_fit]; split_and!; assumption) F2 Hlen') as D2.
  pose proof (find_in_level (renders tops) l1 x [l2; l3; l4; l5] (renders after) L1 ltac:(by repeat (apply Forall_cons_2; [assumption|])) Hx ltac:(cbn [levels_fit]; split_and!; assumption) F1 Hlen') as D1.
  change (len (renders tops) + depth []) with (len (renders tops) + 0) in D5. rewrite Z.add_0_r in D5.
  split_and!; assumption.
Qed.
End Descent.

(** *** The sample descriptions *)

Definition kept (count : Z) (others : list Box) : list Box := if 1 <? count then [] else others.
Definition new_stsd (flags : list Z) (count : Z) (e : entry) (others : list Box) : Box :=
  stsd_box flags (if 1 <? count then 1 else count) (cleared e :: kept count others).
Definition shrunk_by (count : Z) (e : entry) (others : list Box) : Z :=
  entry_removed e + (len (renders others) - len (renders (kept count others))).

Lemma entry_removed_nonneg e : 0 <= entry_removed e.
Proof. destruct e as [f bs s cs|b]; cbn [entry_removed]; [|lia]. pose proof (bsize_ge (sinf_box s)). lia. Qed.

Lemma shrunk_by_nonneg count e others : 0 <= shrunk_by count e others.
Proof.
  unfold shrunk_by, kept. pose proof (entry_removed_nonneg e). destruct (1 <? count); [|lia].
  change (len (renders [])) with 0. pose proof (len_nonneg (renders others)). lia.
Qed.

Lemma stsd_size flags count entries : len flags = 4 -> bsize (stsd_box flags count entries) = 16 + len (renders entries).
Proof. intros Hf. unfold bsize, stsd_box. cbn [body]. rewrite !len_app, len_to_be, Hf. lia. Qed.

Lemma new_stsd_size flags count e others :
  len flags = 4 -> entry_ok e -> box_ok (entry_box e) ->
  bsize (stsd_box flags count (entry_box e :: others)) = bsize (new_stsd flags count e others) + shrunk_by count e others.
Proof.
  intros Hf He Hb. destruct (cleared_size e He Hb) as [Hc Hk]. unfold new_stsd. rewrite !stsd_size, !renders_cons, !len_app by done.
  rewrite len_render by done. rewrite len_render_kind by done. unfold shrunk_by. lia.
Qed.

Lemma descriptions_spec pre flags count e others post :
  len flags = 4 -> 0 <= count < 2 ^ 32 -> entry_ok e -> box_ok (entry_box e) ->
  let x := stsd_box flags count (entry_box e :: others) in
  let y := new_stsd flags count e others in
  len (pre ++ render x ++ post) < 2 ^ 62 ->
  clear_descriptions (pre ++ render x ++ post) (len pre) (bsize x) =
  Done (pre ++ (to_be 4 (bsize x) ++ lit "stsd" ++ body y) ++ post, shrunk_by count e others).
Proof.
  intros Hf Hc He Hb x y Hlen. destruct (cleared_size e He Hb) as [Hcs Hck].
  pose proof (stsd_size flags count (entry_box e :: others) Hf) as Hx. fold x in Hx. rewrite renders_cons, len_app, len_render in Hx by done.
  pose proof (bsize_ge (entry_box e)). pose proof (bsize_ge (cleared e)). pose proof (entry_removed_nonneg e). pose proof (len_nonneg (renders others)).
  pose proof (len_nonneg pre). pose proof (len_nonneg post). pose proof Hlen as Hl. rewrite !len_app, len_render_kind in Hl by done.
  pose proof (box_size _ Hb). unfold clear_descriptions. decide_le. nowrap.
  set (P12 := pre ++ to_be 4 (bsize x) ++ lit "stsd" ++ flags).
  assert (H12 : len P12 = len pre + 12) by (subst P12; rewrite !len_app, len_to_be, Hf; change (len (lit "stsd")) with 4; lia).
  assert (Hd : pre ++ render x ++ post = P12 ++ to_be 4 count ++ render (entry_box e) ++ renders others ++ post).
  { subst P12 x. unfold render at 1. cbn [kind body stsd_box]. rewrite renders_cons. by rewrite <-!app_assoc. }
  rewrite Hd. rewrite (read_to_be P12 4 count _ (len pre + 12) 4) by (done || lia). run_simpl.
  change (256 ^ Z.of_nat 4) with (2 ^ 32). rewrite (Z.mod_small count) by lia.
  assert (H16 : len (P12 ++ to_be 4 count) = len pre + 16) by (rewrite len_app, len_to_be; lia).
  rewrite (app_assoc P12), <-H16. rewrite read_box_header_render by (done || lia). run_simpl.
  rewrite clear_entry_spec; [|done|done|rewrite <-app_assoc, <-Hd; lia]. run_simpl.
  rewrite H16, <-app_assoc.
  rewrite (drop_entries_spec P12 count (cleared e) others post (len pre) (bsize x) (entry_removed e)) by (done || lia).
  run_simpl. unfold shrunk_by, kept. subst P12 y. unfold new_stsd, stsd_box, kept. cbn [body].
  destruct (1 <? count); (rewrite uadd_small by (change (len (renders [])) with 0; lia)); do 2 f_equal;
    rewrite renders_cons; by rewrite <-!app_assoc.
Qed.

(** *** The sizes *)

Lemma resize_spec pre path r g y post :
  Forall level_ok path -> 0 <= r -> 0 <= g -> kind y = lit "stsd" -> outer_size (bsize y) path + (r + g) < 2 ^ 32 -> len pre < 2 ^ 62 ->
  resize (pre ++ heads (r + g) (bsize y) path ++ (to_be 4 (bsize y + r) ++ lit "stsd" ++ body y) ++ post)
    (len pre + depth path) (places (len pre) path) r (r + g) =
  Done (pre ++ heads 0 (bsize y) path ++ render y ++ post).
Proof.
  intros Hok Hr Hg Hk Hout Hpre. pose proof (outer_size_ge (bsize y) path). pose proof (depth_nonneg path). pose proof (bsize_ge y).
  pose proof (len_nonneg pre). unfold resize.
  assert (Hstep : (if 0 <? r then
      shrink_be (pre ++ heads (r + g) (bsize y) path ++ (to_be 4 (bsize y + r) ++ lit "stsd" ++ body y) ++ post) (len pre + depth path) 4 r
    else mret (pre ++ heads (r + g) (bsize y) path ++ (to_be 4 (bsize y + r) ++ lit "stsd" ++ body y) ++ post)) =
    (Done (pre ++ heads (r + g) (bsize y) path ++ render y ++ post) : run _)).
  { unfold render. rewrite Hk. destruct (Z.ltb_spec 0 r) as [Hz|Hz]; [|by replace (bsize y + r) with (bsize y) by lia].
    rewrite (app_assoc pre), <-(app_assoc (to_be 4 (bsize y + r))).
    rewrite (shrink_mid (pre ++ heads (r + g) (bsize y) path)) by (try (rewrite len_app, len_heads by done); lia).
    by rewrite <-!app_assoc. }
  rewrite Hstep. run_simpl. destruct (Z.ltb_spec 0 (r + g)) as [Hz|Hz]; [|by replace (r + g) with 0 by lia].
  apply shrink_heads; (done || lia).
Qed.

Definition grouped (r : Z) (l : level) : level := if r =? 0 then without is_group l else l.

Lemma dropped_none q bs : Forall (fun b => q b = false) bs -> dropped q bs = bs.
Proof. induction 1 as [|b l Hg _ IH]; [done|]. unfold dropped in *. by rewrite filter_cons_True, IH. Qed.

Lemma grouped_before r l : Forall (fun b => is_group b = false) (l_before l) -> l_before (grouped r l) = l_before l.
Proof. intros H. unfold grouped. destruct (r =? 0); [by apply dropped_none|done]. Qed.

Lemma grouped_after r l : l_after (grouped r l) = if r =? 0 then dropped is_group (l_after l) else l_after l.
Proof. unfold grouped. by destruct (r =? 0). Qed.

Lemma grouped_kind r l : l_kind (grouped r l) = l_kind l.
Proof. unfold grouped. by destruct (r =? 0). Qed.

Lemma grouped_ok r l : level_ok l -> level_ok (grouped r l).
Proof. intros Hl. unfold grouped. destruct (r =? 0); [|done]. split; [apply Hl|apply dropped_ok, Hl..]. Qed.

(** Bytes of the groups that go. *)
Definition groups_size (r : Z) (l : level) : Z := len (renders (l_after l)) - len (renders (l_after (grouped r l))).

Lemma groups_size_nonneg r l : level_ok l -> 0 <= groups_size r l.
Proof.
  intros Hl. unfold groups_size. rewrite grouped_after. destruct (r =? 0); [|lia].
  rewrite len_dropped by apply Hl. pose proof (weight_nonneg is_group (l_after l)). lia.
Qed.

(** The containers of the smaller table, before their sizes are corrected. *)
Lemma heads_grouped s r l rest :
  Forall (fun b => is_group b = false) (l_before l) ->
  heads 0 (s + r) (l :: rest) = heads (r + groups_size r l) s (grouped r l :: rest).
Proof.
  intros Hn. cbn [heads]. rewrite grouped_before, grouped_kind by done. unfold groups_size.
  set (a := len (renders (l_after l))). set (a' := len (renders (l_after (grouped r l)))). set (b := len (renders (l_before l))).
  replace (8 + b + (s + r) + a) with (8 + b + s + a' + (r + (a - a'))) by lia. by rewrite heads_shift, Z.add_0_r.
Qed.

Section Groups.
Variables (pre : list Z) (l : level) (rest : list level) (r : Z) (y : Box) (post : list Z).
Hypothesis Hl : level_ok l.
Hypothesis Hrest : Forall level_ok rest.
Hypothesis Hy : kind y = lit "stsd".
Hypothesis Hr : 0 <= r.
Hypothesis Hcase : r = 0 \/ len (renders (l_after l)) < r + 8.
Hypothesis Hout : outer_size (bsize y + r) (l :: rest) < 2 ^ 32.
Hypothesis Hn : Forall (fun b => is_group b = false) (l_before l).
Hypothesis H8 : Forall (fun b => kind b = lit "sgpd" \/ kind b = lit "sbgp" -> 8 <= len (body b)) (l_before l ++ l_after l).
Let size := 8 + len (renders (l_before l)) + (bsize y + r) + len (renders (l_after l)).
Let Y := to_be 4 (bsize y + r) ++ lit "stsd" ++ body y.
Let out := pre ++ heads 0 (bsize y + r) (l :: rest) ++ Y ++ tails (l :: rest) ++ post.
Hypothesis Hlen : len out < 2 ^ 62.
Let table := pre ++ heads 0 size rest ++ to_be 4 size ++ l_kind l.

Lemma table_bytes : out = table ++ renders (l_before l) ++ Y ++ renders (l_after l) ++ (tails rest ++ post).
Proof. unfold out, table. cbn [heads tails]. rewrite Z.add_0_r. fold size. by rewrite <-!app_assoc. Qed.

Lemma len_table : len table = len pre + depth rest + 8.
Proof. unfold table. rewrite !len_app, len_heads, len_to_be, (lo_kind l Hl) by done. lia. Qed.

Lemma size_small : 8 <= size < 2 ^ 32.
Proof.
  pose proof (outer_size_ge size rest) as H. cbn [outer_size] in Hout. fold size in Hout. pose proof (depth_nonneg rest).
  pose proof (bsize_ge y). pose proof (len_nonneg (renders (l_before l))). pose proof (len_nonneg (renders (l_after l))). subst size. lia.
Qed.

Lemma table_size_read : read_be out (len pre + depth rest) 4 = Done size.
Proof.
  pose proof size_small as Hs. pose proof (len_nonneg pre). pose proof (depth_nonneg rest). pose proof len_table as Ht.
  pose proof Hlen as Hl'. rewrite table_bytes, len_app, Ht in Hl'.
  match type of Hl' with context [len ?x] => pose proof (len_nonneg (renders (l_before l) ++ Y ++ renders (l_after l) ++ tails rest ++ post)) end.
  rewrite table_bytes. unfold table. rewrite <-!app_assoc, (app_assoc pre).
  rewrite (read_to_be (pre ++ heads 0 size rest) 4 size _ (len pre + depth rest) 4) by (rewrite ?len_app, ?len_heads by done; done || lia).
  change (256 ^ Z.of_nat 4) with (2 ^ 32). by rewrite Z.mod_small by lia.
Qed.

Lemma groups_dropped :
  drop_groups (S (length out)) out ((len pre + depth rest) ⊕ 8) ((len pre + depth rest) ⊕ wrap 64 (size - r)) 0 =
  Done (pre ++ heads (r + groups_size r l) (bsize y) (grouped r l :: rest) ++ Y ++ tails (grouped r l :: rest) ++ post, groups_size r l).
Proof.
  pose proof size_small as Hs. pose proof (len_nonneg pre). pose proof (depth_nonneg rest). pose proof len_table as Ht.
  pose proof (bsize_ge y). pose proof (len_nonneg (renders (l_before l))). pose proof (len_nonneg (renders (l_after l))).
  pose proof (outer_size_ge (bsize y + r) (l :: rest)) as Ho. pose proof (depth_nonneg (l :: rest)).
  pose proof Hlen as Hl'. rewrite table_bytes, len_app, Ht in Hl'.
  pose proof (len_nonneg (renders (l_before l) ++ Y ++ renders (l_after l) ++ tails rest ++ post)).
  assert (Hsr : 0 <= size - r < 2 ^ 32) by (subst size; lia). rewrite (wrap_small 64) by (unfold in_u; lia). nowrap.
  assert (Hstop : len pre + depth rest + (size - r) = len table + len (renders (l_before l)) + bsize y + len (renders (l_after l)))
    by (subst size; lia).
  pose proof (renders_length _ (lo_before l Hl)). pose proof (renders_length _ (lo_after l Hl)).
  assert (Hfuel : (length (l_before l ++ l_after l) + 1 < S (length out))%nat).
  { rewrite table_bytes, !length_app. unfold Y. rewrite !length_app, to_be_length. unfold len in *. lia. }
  pose proof (groups_after_stsd table (l_before l) (bsize y) r (body y) (l_after l) (tails rest ++ post) (S (length out))
    (lo_before l Hl) (lo_after l Hl) Hn H8 eq_refl Hr ltac:(lia) Hcase) as Hg. fold Y in Hg.
  rewrite <-table_bytes in Hg. specialize (Hg Hlen Hfuel). cbn zeta in Hg. rewrite <-grouped_after in Hg.
  rewrite Hstop, <-Ht, Hg. unfold groups_size. do 2 f_equal.
  fold (groups_size r l). rewrite <-heads_grouped by done. cbn [heads tails]. rewrite Z.add_0_r. fold size.
  unfold table. by rewrite <-!app_assoc.
Qed.
End Groups.

(** *** The tail of the function *)

(** The protection headers of a buffer whose sizes are right. *)
Lemma pssh_dropped tops m x after :
  Forall box_ok tops -> Forall box_ok after -> level_ok m -> box_ok x -> box_ok (level_box m x) -> kind x <> lit "pssh" ->
  l_kind m <> lit "pssh" -> len (renders (tops ++ level_box m x :: after)) < 2 ^ 62 ->
  (out ← drop_moov_pssh (renders tops ++ render (level_box m x) ++ renders after) (len (renders tops)); drop_top_pssh out) =
  Done (renders (dropped is_pssh tops ++ level_box (without is_pssh m) x :: dropped is_pssh after)).
Proof.
  intros Ht Ha Hm Hx Hmx Hk Hmk Hlen. rewrite renders_app, renders_cons in Hlen.
  pose proof (moov_pssh (renders tops) (l_kind m) (l_before m ++ x :: l_after m) (renders after) (level_children m x Hm Hx) Hmx Hlen) as Hp.
  change (mkBox (l_kind m) (renders (l_before m ++ x :: l_after m))) with (level_box m x) in Hp. rewrite Hp. clear Hp.
  assert (Hd : dropped is_pssh (l_before m ++ x :: l_after m) = dropped is_pssh (l_before m) ++ x :: dropped is_pssh (l_after m)).
  { rewrite dropped_app. f_equal. unfold dropped at 1. rewrite filter_cons_True; [done|]. unfold is_pssh, kind_is. by rewrite bool_decide_eq_false_2. }
  rewrite Hd. run_simpl. fold (level_box (without is_pssh m) x). change (mkBox (l_kind m) _) with (level_box (without is_pssh m) x).
  assert (Hsz : bsize (level_box (without is_pssh m) x) <= bsize (level_box m x)).
  { rewrite !level_size by (by apply len_render). cbn [without l_before l_after]. rewrite !len_dropped by apply Hm.
    pose proof (weight_nonneg is_pssh (l_before m)). pose proof (weight_nonneg is_pssh (l_after m)). lia. }
  assert (Hok' : box_ok (level_box (without is_pssh m) x)) by (destruct Hmx as [H4 H32]; split; [done|lia]).
  change (renders tops ++ render (level_box (without is_pssh m) x) ++ renders after)
    with (renders tops ++ renders (level_box (without is_pssh m) x :: after)). rewrite <-renders_app.
  rewrite top_level_pssh.
  - rewrite dropped_app. do 3 f_equal. unfold dropped at 1. rewrite filter_cons_True; [done|].
    unfold is_pssh, kind_is. cbn [kind level_box without l_kind]. by rewrite bool_decide_eq_false_2.
  - apply Forall_app. split; [done|]. by constructor.
  - rewrite renders_app, renders_cons, !len_app, len_render by done. rewrite !len_app, len_render in Hlen by done. lia.
Qed.

Lemma outer_grouped r s l rest :
  Forall (fun b => is_group b = false) (l_before l) ->
  outer_size s (grouped r l :: rest) + (r + groups_size r l) = outer_size (s + r) (l :: rest).
Proof.
  intros Hn. cbn [outer_size]. rewrite grouped_before by done. unfold groups_size. rewrite <-outer_size_shift. f_equal. lia.
Qed.

(** From the sizes on. *)
Lemma sized_spec tops y l1 l2 l3 l4 l5 r after :
  let rest := [l2; l3; l4; l5] in
  let P := renders tops in
  let g := groups_size r l1 in
  Forall box_ok tops -> Forall box_ok after -> Forall level_ok (l1 :: rest) -> kind y = lit "stsd" -> 0 <= r ->
  outer_size (bsize y + r) (l1 :: rest) < 2 ^ 32 -> l_kind l4 <> lit "pssh" -> l_kind l5 <> lit "pssh" ->
  Forall (fun b => is_group b = false) (l_before l1) -> len P + outer_size (bsize y + r) (l1 :: rest) + len (renders after) < 2 ^ 62 ->
  (out ← resize (P ++ heads (r + g) (bsize y) (grouped r l1 :: rest) ++ (to_be 4 (bsize y + r) ++ lit "stsd" ++ body y) ++
      tails (grouped r l1 :: rest) ++ renders after) (len P + depth (l1 :: rest)) (places (len P) (l1 :: rest)) r (r ⊕ g);
   out ← drop_moov_pssh out (len P);
   drop_top_pssh out) =
  Done (renders (dropped is_pssh tops ++ plug y [grouped r l1; l2; l3; l4; without is_pssh l5] :: dropped is_pssh after)).
Proof.
  intros rest P g Ht Ha HL Hy Hr Hout K4 K5 Hn Hlen. pose proof HL as [HL1 HLr]%Forall_cons.
  pose proof (groups_size_nonneg r l1 HL1) as Hg. fold g in Hg. pose proof (outer_grouped r (bsize y) l1 rest Hn) as Ho. fold g in Ho.
  assert (HL' : Forall level_ok (grouped r l1 :: rest)) by (constructor; [by apply grouped_ok|done]).
  pose proof (len_nonneg P). pose proof (len_nonneg (renders after)).
  pose proof (outer_size_ge (bsize y) (grouped r l1 :: rest)). pose proof (depth_nonneg (grouped r l1 :: rest)). pose proof (bsize_ge y).
  assert (Hd : depth (l1 :: rest) = depth (grouped r l1 :: rest)) by (cbn [depth]; by rewrite grouped_before).
  rewrite Hd. change (places (len P) (l1 :: rest)) with (places (len P) (grouped r l1 :: rest)). nowrap.
  rewrite resize_spec by (done || lia). run_simpl.
  assert (Hk : len (kind y) = 4) by (by rewrite Hy).
  assert (Hp : P ++ heads 0 (bsize y) (grouped r l1 :: rest) ++ render y ++ tails (grouped r l1 :: rest) ++ renders after =
    P ++ render (plug y (grouped r l1 :: rest)) ++ renders after) by (rewrite plug_bytes by done; by rewrite <-!app_assoc).
  rewrite Hp. set (b4 := plug y [grouped r l1; l2; l3; l4]).
  pose proof HLr as HLs. unfold rest in HLs. rewrite !Forall_cons in HLs.
  assert (Hk5 : len (kind (plug y (grouped r l1 :: rest))) = 4) by apply HLs.
  assert (Hfit : box_ok (plug y (grouped r l1 :: rest))) by (split; [done|]; rewrite plug_size by done; lia).
  pose proof (plug_fits y _ HL' Hk Hfit) as Hfits. cbn [levels_fit rest] in Hfits.
  change (plug y (grouped r l1 :: rest)) with (level_box l5 b4) in *.
  change (plug y [grouped r l1; l2; l3; l4; without is_pssh l5]) with (level_box (without is_pssh l5) b4).
  apply pssh_dropped; try done.
  - apply HLs.
  - apply Hfits.
  - rewrite renders_app, renders_cons, !len_app, len_render by done. change (level_box l5 b4) with (plug y (grouped r l1 :: rest)).
    rewrite plug_size by done. fold P. lia.
Qed.

(** The changes, on the bytes of the table. *)
Lemma clear_table_spec tops flags count e others l1 l2 l3 l4 l5 after :
  let rest := [l2; l3; l4; l5] in
  let x := stsd_box flags count (entry_box e :: others) in
  let y := new_stsd flags count e others in
  let r := shrunk_by count e others in
  let P := renders tops in
  Forall box_ok tops -> Forall box_ok after -> Forall level_ok (l1 :: rest) -> len flags = 4 -> 0 <= count < 2 ^ 32 ->
  entry_ok e -> box_ok (entry_box e) -> box_ok (plug x (l1 :: rest)) -> l_kind l4 <> lit "pssh" -> l_kind l5 <> lit "pssh" ->
  Forall (fun b => is_group b = false) (l_before l1) ->
  Forall (fun b => kind b = lit "sgpd" \/ kind b = lit "sbgp" -> 8 <= len (body b)) (l_before l1 ++ l_after l1) ->
  r = 0 \/ len (renders (l_after l1)) < r + 8 ->
  len (renders (tops ++ plug x (l1 :: rest) :: after)) < 2 ^ 62 ->
  clear_table (renders (tops ++ plug x (l1 :: rest) :: after)) (len P) (places (len P) (l1 :: rest))
    (len P + depth rest) (len P + depth (l1 :: rest)) (bsize x) =
  Done (renders (dropped is_pssh tops ++ plug y [grouped r l1; l2; l3; l4; without is_pssh l5] :: dropped is_pssh after)).
Proof.
  intros rest x y r P Ht Ha HL Hf Hc He Heb Hm K4 K5 Hn H8 Hcase Hlen.
  pose proof (new_stsd_size flags count e others Hf He Heb) as Hxy. fold x y r in Hxy.
  pose proof (shrunk_by_nonneg count e others) as Hr. fold r in Hr.
  pose proof HL as [HL1 HLr]%Forall_cons. pose proof (groups_size_nonneg r l1 HL1) as Hg. set (g := groups_size r l1) in *.
  assert (Hout : outer_size (bsize x) (l1 :: rest) < 2 ^ 32) by (rewrite <-plug_size by done; apply Hm).
  pose proof (bsize_ge y). pose proof (len_nonneg P).
  assert (HD : renders (tops ++ plug x (l1 :: rest) :: after) = (P ++ heads 0 (bsize x) (l1 :: rest)) ++ render x ++ (tails (l1 :: rest) ++ renders after)).
  { unfold P. rewrite renders_app, renders_cons, plug_bytes by done. by rewrite <-!app_assoc. }
  assert (Hlen' : len P + outer_size (bsize x) (l1 :: rest) + len (renders after) < 2 ^ 62).
  { rewrite renders_app, renders_cons, !len_app, len_render, plug_size in Hlen by done. fold P in Hlen. lia. }
  rewrite HD in Hlen |- *. unfold clear_table.
  assert (HPd : len (P ++ heads 0 (bsize x) (l1 :: rest)) = len P + depth (l1 :: rest)) by (by rewrite len_app, len_heads).
  rewrite <-HPd. rewrite (descriptions_spec _ flags count e others) by done. fold x y r. run_simpl.
  set (out := P ++ heads 0 (bsize y + r) (l1 :: rest) ++ (to_be 4 (bsize y + r) ++ lit "stsd" ++ body y) ++ tails (l1 :: rest) ++ renders after).
  assert (Ho : (P ++ heads 0 (bsize x) (l1 :: rest)) ++ (to_be 4 (bsize x) ++ lit "stsd" ++ body y) ++ tails (l1 :: rest) ++ renders after = out)
    by (unfold out; rewrite Hxy; by rewrite <-!app_assoc).
  rewrite Ho.
  assert (Holen : len out < 2 ^ 62).
  { revert Hlen. rewrite <-Ho, !len_app, len_to_be, len_render_kind by done. change (len (lit "stsd")) with 4.
    change (len (body y)) with (len (body y)). unfold bsize in Hxy at 2. lia. }
  rewrite Hxy in Hout.
  pose proof (table_size_read P l1 rest r y (renders after) HL1 HLr Hr Hout Holen) as Hread. fold out in Hread.
  pose proof (groups_dropped P l1 rest r y (renders after) HL1 HLr Hr Hcase Hout Hn H8 Holen) as Hgroups. fold out g in Hgroups.
  fold out. rewrite Hread. run_simpl. rewrite Hgroups. run_simpl.
  rewrite HPd. unfold out, rest. apply (sized_spec tops y l1 l2 l3 l4 l5 r after); try done. by rewrite Hxy in Hlen'.
Qed.

(** ** Theorems *)


Definition demo_init (count : Z) (others groups : list Box) : Init :=
  mkInit [mkBox (lit "ftyp") (lit "iso5")] [0; 0; 0; 0] count
    (Protected (replicate 28 7) [] [mkBox (lit "frma") (lit "alac"); mkBox (lit "schm") (replicate 12 1)] [mkBox (lit "alac") [1; 2]]) others
    (mkLevel (lit "stbl") [] groups) [mkLevel (lit "minf") [] []; mkLevel (lit "mdia") [] []; mkLevel (lit "trak") [mkBox (lit "tkhd") [9]] []]
    (mkLevel (lit "moov") [mkBox (lit "mvhd") [5]] [mkBox (lit "pssh") [6; 6]; mkBox (lit "mvex") []]) [mkBox (lit "pssh") [3]].

Definition seam_box : Box := mkBox (lit "sgpd") ([0; 0; 0; 0] ++ lit "seig" ++ replicate 24 2).


(** A group of the encryption in front of the descriptions, or behind them. *)
Definition grouped_init (front behind : list Box) : Init :=
  let i := demo_init 1 [] behind in
  mkInit (i_before i) (i_flags i) (i_count i) (i_entry i) (i_others i) (mkLevel (lit "stbl") front behind) (i_inner i) (i_moov i) (i_after i).

(** The same segment with nothing left of the encryption. *)
Definition clean_init : Init := transformed (grouped_init [] []).

(** The loop over the table steps over the descriptions by the size they had before, so behind a protected entry a
    group of the encryption stays.  In front of them, it goes and moves them, and their size is then corrected
    where they were: a later reader finds no descriptions, and bytes of the entry are overwritten. *)
Theorem groups_next_to_protected_entry :
  is_group seam_box = true /\
  (exists out, transform_init_segment (init_bytes (grouped_init [] [seam_box])) = Done out /\
     slice out 132 172 = Some (render seam_box)) /\
  (exists out, transform_init_segment (init_bytes (grouped_init [seam_box] [])) = Done out /\
     len out = len (init_bytes clean_init) /\ slice out 62 74 = Some (to_be 4 70 ++ lit "stbl" ++ to_be 4 102) /\
     find_child_box out 70 132 (lit "stsd") = Done None /\
     find_child_box (init_bytes clean_init) 70 132 (lit "stsd") = Done (Some (70, 62))).
Proof.
  set (out_of i := match transform_init_segment (init_bytes i) with Done out => out | _ => [] end). split_and!; [by vm_compute|..].
  - exists (out_of (grouped_init [] [seam_box])). split; by vm_compute.
  - exists (out_of (grouped_init [seam_box] [])). split_and!; by vm_compute.
Qed.
