(* ===== verification/Normalize.v ===== *)
(** * Normalize: fragments in the form other tools expect (crates/apple/src/wrapper/decryptor.rs)

    [normalize_fragment] removes the sample description index from the [tfhd] box and rewrites the runs that rely
    on a default sample size, in place; the reference does the same on the fields.  Differences of lengths are
    [i64] in the source and too small to overflow. *)
From S2P Require Import Prelude Text Bytes Boxes TrackRuns CencStrip.

#[local] Open Scope rust_scope.

(** [write_u32_be(.., f(read_u32_be(..)))] of the word at [a]. *)
Definition update_word (data : list Z) (a delta : Z) : run (list Z) :=
  size ← read_be data a 4; write_be data a 4 (wrap 32 (size + delta)).

(** The removal of the description index; the second component is [sdi_shrink]. *)
Definition drop_description (fragment : list Z) (moof_off traf_off traf_len : Z) : run (list Z * Z) :=
  tfhd ← find_child_box fragment (traf_off ⊕ 8) (traf_off ⊕ traf_len) (lit "tfhd");
  match tfhd with
  | None => mret (fragment, 0)
  | Some (tfhd_off, tfhd_len) =>
      if ((16 <=? tfhd_len) && (tfhd_off ⊕ tfhd_len <=? len fragment))%bool then
        flags ← read_be fragment (tfhd_off ⊕ 9) 3;
        if has flags 2 then
          let cur := tfhd_off ⊕ 12 in
          let cur := if has flags 1 then cur ⊕ 8 else cur in
          let sdi_pos := cur ⊕ 4 in
          if sdi_pos ⊕ 4 <=? len fragment then
            fragment ← must (drain fragment sdi_pos (sdi_pos ⊕ 4));
            let new_flags := Z.ldiff flags 2 in
            fragment ← write_be fragment (tfhd_off ⊕ 9) 3 new_flags;
            fragment ← write_be fragment tfhd_off 4 (tfhd_len - 4);
            fragment ← update_word fragment traf_off (-4);
            fragment ← update_word fragment moof_off (-4);
            mret (fragment, -4)
          else mret (fragment, 0)
        else mret (fragment, 0)
      else mret (fragment, 0)
  end.

(** A run to replace: where it is, its data offset and its new bytes. *)
Record Rebuild := mkRebuild { rb_off : Z; rb_len : Z; rb_data_offset : Z; rb_trun : list Z }.

Definition new_trun (count data_offset duration : Z) (sizes : list Z) : list Z :=
  let body_len := 4 + 4 + 4 + count * 8 in
  to_be 4 (8 + body_len) ++ lit "trun" ++ [0; 0; 3; 1] ++ to_be 4 count ++ to_be 4 data_offset ++
  concat ((fun size => to_be 4 duration ++ to_be 4 size) <$> sizes).

Fixpoint collect_rebuilds (fuel : nat) (fragment : list Z) (traf_off traf_len : Z) (tfhd : TfhdDefaults)
    (cur traf_end : Z) : run (list Rebuild) :=
  match fuel with
  | O => Spin
  | S f =>
      v ← visit true fragment cur traf_end;
      match v with
      | None => mret []
      | Some (b_len, b_type) =>
          if decide (b_type = lit "trun") then
            t ← parse_trun fragment traf_off traf_len cur b_len;
            match t with
            | None => mret []
            | Some trun =>
                flags ← read_be fragment (cur ⊕ 9) 3;
                let needs_size := negb (has flags 512) in
                rest ← collect_rebuilds f fragment traf_off traf_len tfhd (cur ⊕ b_len) traf_end;
                mret (if (needs_size && negb (forallb (Z.eqb 0) (sample_sizes trun)))%bool
                      then mkRebuild cur b_len (data_offset trun)
                             (new_trun (sample_count trun) (data_offset trun) (default 0 (default_sample_duration tfhd))
                                       (sample_sizes trun)) :: rest
                      else rest)
            end
          else collect_rebuilds f fragment traf_off traf_len tfhd (cur ⊕ b_len) traf_end
      end
  end.

(** Moves the data offsets that are there, except those of the runs that are replaced. *)
Fixpoint patch_offsets (fuel : nat) (fragment : list Z) (cur traf_end delta : Z) (replaced : list Z) : run (list Z) :=
  match fuel with
  | O => Spin
  | S f =>
      v ← visit true fragment cur traf_end;
      match v with
      | None => mret fragment
      | Some (b_len, b_type) =>
          fragment ← (if (bool_decide (b_type = lit "trun") && negb (bool_decide (cur ∈ replaced)))%bool then
                        flags ← read_be fragment (cur ⊕ 9) 3;
                        if (has flags 1 && (cur ⊕ 20 <=? len fragment))%bool then
                          doff ← read_i32_be fragment (cur ⊕ 16);
                          write_be fragment (cur ⊕ 16) 4 (swrap 32 (doff + swrap 32 delta))
                        else mret fragment
                      else mret fragment);
          patch_offsets f fragment (cur ⊕ b_len) traf_end delta replaced
      end
  end.

(** The replacements, from the last to the first. *)
Fixpoint splice_runs (fragment : list Z) (rebuilds : list Rebuild) (total_delta : Z) : run (list Z) :=
  match rebuilds with
  | [] => mret fragment
  | r :: rest =>
      if len fragment <? rb_off r ⊕ rb_len r then splice_runs fragment rest total_delta else
      new ← (if 20 <=? len (rb_trun r)
             then must (store (rb_trun r) 16 (to_be 4 (swrap 32 (rb_data_offset r + total_delta))))
             else mret (rb_trun r));
      fragment ← must (splice fragment (rb_off r) (rb_off r ⊕ rb_len r) new);
      splice_runs fragment rest total_delta
  end.

Definition trun_delta (rebuilds : list Rebuild) : Z :=
  sumZ ((fun r => len (rb_trun r) - rb_len r) <$> rebuilds).

Definition update_if_inside (fragment : list Z) (a delta : Z) : run (list Z) :=
  if a ⊕ 4 <=? len fragment then update_word fragment a delta else mret fragment.

Definition normalize_fragment (fragment : list Z) : run (list Z) :=
  let total_len := len fragment in
  moof ← find_child_box fragment 0 total_len (lit "moof");
  match moof with None => mret fragment | Some (moof_off, moof_len) =>
  traf ← find_child_box fragment (moof_off ⊕ 8) (moof_off ⊕ moof_len) (lit "traf");
  match traf with None => mret fragment | Some (traf_off, traf_len) =>
  defaults ← parse_tfhd_defaults fragment traf_off traf_len;
  match defaults with None => mret fragment | Some tfhd =>
  dropped ← drop_description fragment moof_off traf_off traf_len;
  let '(fragment, sdi_shrink) := dropped : list Z * Z in
  let traf_end := wrap 64 (traf_off + traf_len + sdi_shrink) in
  rebuilds ← collect_rebuilds (S (length fragment)) fragment traf_off traf_len tfhd (traf_off ⊕ 8) traf_end;
  if decide (rebuilds = []) then
    if sdi_shrink =? 0 then mret fragment
    else patch_offsets (S (length fragment)) fragment (traf_off ⊕ 8) traf_end sdi_shrink []
  else
    let total_trun_delta := trun_delta rebuilds in
    let total_delta := sdi_shrink + total_trun_delta in
    fragment ← patch_offsets (S (length fragment)) fragment (traf_off ⊕ 8) traf_end total_delta (rb_off <$> rebuilds);
    fragment ← splice_runs fragment (reverse rebuilds) total_delta;
    fragment ← update_if_inside fragment traf_off total_trun_delta;
    update_if_inside fragment moof_off total_trun_delta
  end end end.

(** ** The reference *)

(** The children of a track fragment: runs by their fields, any other box as it is. *)
Inductive child : Type := CRun (t : trun_fields) | COther (b : Box).

Definition child_box (c : child) : Box := match c with CRun t => trun_box t | COther b => b end.

Record NFragment := mkNFragment {
  n_before : list Box;
  n_moof_before : list Box;
  n_left : list child;
  n_head : tfhd_fields;
  n_right : list child;
  n_moof_after : list Box;
  n_after : list Box;
}.

Definition children_of (n : NFragment) : list child := n_left n ++ COther (tfhd_box (n_head n)) :: n_right n.
Definition raw (n : NFragment) : Fragment :=
  mkFragment (n_before n) (n_moof_before n) (child_box <$> children_of n) (n_moof_after n) (n_after n).

Definition no_description (h : tfhd_fields) : tfhd_fields :=
  mkTfhdFields (Z.ldiff (th_flags h) 2) (th_track h) (th_base h) (th_sdi h) (th_duration h) (th_size h).

(** The runs that rely on a default size, with the defaults written out. *)
Definition default_size (h : tfhd_fields) : Z := if has (th_flags h) 16 then th_size h else 0.
Definition default_duration (h : tfhd_fields) : Z := if has (th_flags h) 8 then th_duration h else 0.
Definition rebuilt (h : tfhd_fields) (t : trun_fields) : bool :=
  (negb (has (tr_flags t) 512) && negb (default_size h =? 0) && negb (len (tr_samples t) =? 0))%bool.
Definition rebuild (h : tfhd_fields) (t : trun_fields) (offset : Z) : trun_fields :=
  mkTrunFields 0x301 (wrap 32 offset) 0
    ((fun _ => mkTrunSample (default_duration h) (default_size h) 0 0) <$> tr_samples t).
Definition signed_offset (t : trun_fields) : Z := if has (tr_flags t) 1 then swrap 32 (tr_offset t) else 0.

Definition with_offset (t : trun_fields) (o : Z) : trun_fields :=
  mkTrunFields (tr_flags t) o (tr_first_flags t) (tr_samples t).

Definition patched (h : tfhd_fields) (delta : Z) (c : child) : child :=
  match c with
  | CRun t =>
      if (negb (rebuilt h t) && has (tr_flags t) 1)%bool
      then CRun (with_offset t (wrap 32 (tr_offset t + delta))) else c
  | COther _ => c
  end.
Definition replaced (h : tfhd_fields) (delta : Z) (c : child) : child :=
  match c with CRun t => if rebuilt h t then CRun (rebuild h t (signed_offset t + delta)) else c | COther _ => c end.
Definition normal (h : tfhd_fields) (delta : Z) (c : child) : child := replaced h delta (patched h delta c).

Definition growth (h : tfhd_fields) (c : child) : Z :=
  match c with CRun t => if rebuilt h t then 20 + 8 * len (tr_samples t) - bsize (trun_box t) else 0 | COther _ => 0 end.
Definition runs_growth (n : NFragment) : Z := sumZ (growth (n_head n) <$> children_of n).
Definition head_growth (n : NFragment) : Z := if has (th_flags (n_head n)) 2 then -4 else 0.

Definition normalized (n : NFragment) : NFragment :=
  let delta := head_growth n + runs_growth n in
  mkNFragment (n_before n) (n_moof_before n) (normal (n_head n) delta <$> n_left n) (no_description (n_head n))
    (normal (n_head n) delta <$> n_right n) (n_moof_after n) (n_after n).

Record n_ok (n : NFragment) : Prop := {
  n_fragment : fragment_ok (raw n);
  n_tfhd : tfhd_ok (n_head n);
  n_runs : forall t, CRun t ∈ children_of n -> trun_ok t;
  n_others : forall b, COther b ∈ n_left n ++ n_right n -> kind b <> lit "trun" /\ kind b <> lit "tfhd";
  (* the rewritten runs fit in the 32-bit sizes *)
  n_room : bsize (moof_box (raw n)) + sumZ ((fun c => Z.max 0 (growth (n_head n) c)) <$> children_of n) < 2 ^ 32;
  n_total : len (render_fragment (raw n)) + sumZ ((fun c => Z.max 0 (growth (n_head n) c)) <$> children_of n) < 2 ^ 62;
}.

(** ** Lemmas *)

Lemma has_no_description h m : m = 1 \/ m = 8 \/ m = 16 -> has (th_flags (no_description h)) m = has (th_flags h) m.
Proof.
  intros Hm. unfold has, no_description. cbn [th_flags]. rewrite Z.ldiff_land, <-Z.land_assoc.
  by replace (Z.land (Z.lnot 2) m) with m by (destruct Hm as [-> | [-> | ->] ]; reflexivity).
Qed.

Lemma no_description_cleared h : has (th_flags (no_description h)) 2 = false.
Proof. unfold has, no_description. cbn [th_flags]. by rewrite Z.ldiff_land, <-Z.land_assoc, Z.land_0_r. Qed.

(** A wider parent finds what a narrower one found. *)
Lemma find_loop_wider fuel data cur stop stop' t r :
  stop <= stop' -> find_loop fuel data cur stop t = Done (Some r) -> find_loop fuel data cur stop' t = Done (Some r).
Proof.
  intros Hs. revert cur. induction fuel as [|f IH]; intros cur; [done|]. cbn [find_loop].
  assert (Hv : forall x, visit true data cur stop = Done (Some x) -> visit true data cur stop' = Done (Some x)).
  { intros x. unfold visit. destruct (Z.leb_spec (cur ⊕ 8) stop); [|done]. cbn [andb].
    rewrite (proj2 (Z.leb_le (cur ⊕ 8) stop')) by lia. cbn [andb]. destruct (negb true || _)%bool; [|done].
    destruct (read_box_header data cur) as [o| | |]; try done. destruct o as [[[l k] hl]|]; [|done]. cbn [mbind outcome_bind].
    destruct (Z.ltb_spec stop (cur ⊕ l)); [by rewrite orb_true_r|].
    by rewrite (proj2 (Z.ltb_ge stop' (cur ⊕ l))) by lia. }
  destruct (visit true data cur stop) as [o| | |] eqn:E; try done. destruct o as [[l k]|]; [|done]. cbn [mbind outcome_bind].
  rewrite (Hv _ eq_refl). cbn [mbind outcome_bind]. case_decide; [done|apply IH].
Qed.

Lemma parse_tfhd_wider data start l l' d :
  0 <= start -> l <= l' -> 0 <= l -> start + l' < 2 ^ 63 ->
  parse_tfhd_defaults data start l = Done (Some d) -> parse_tfhd_defaults data start l' = Done (Some d).
Proof.
  intros H0 Hl H1 Hs. unfold parse_tfhd_defaults. unfold find_child_box.
  destruct (find_loop _ data (start ⊕ 8) (start ⊕ l) _) as [o| | |] eqn:E; try done. destruct o as [r|]; [|done].
  apply (find_loop_wider _ _ _ _ (start ⊕ l')) in E; [by rewrite E|]. rewrite !uadd_small by lia. lia.
Qed.

(** The patched and replaced children in their places. *)
Lemma trun_box_size t :
  bsize (trun_box t) = 16 + (if has (tr_flags t) 1 then 4 else 0) + (if has (tr_flags t) 4 then 4 else 0) +
    len (tr_samples t) * entry_len (tr_flags t).
Proof. unfold bsize, trun_box. cbn [body]. unfold render_trun. lens. rewrite len_entries. lia. Qed.

Lemma rebuild_size h t o : bsize (trun_box (rebuild h t o)) = 20 + 8 * len (tr_samples t).
Proof.
  rewrite trun_box_size. unfold rebuild. cbn [tr_flags tr_samples].
  change (has 0x301 1) with true. change (has 0x301 4) with false. change (entry_len 0x301) with 8.
  unfold len. rewrite length_fmap. lia.
Qed.

Lemma patched_size h d c : bsize (child_box (patched h d c)) = bsize (child_box c).
Proof. destruct c as [t|b]; [|done]. cbn [patched]. destruct (_ && _)%bool; [|done]. cbn [child_box]. by rewrite !trun_box_size. Qed.

Lemma patched_kind h d c : kind (child_box (patched h d c)) = kind (child_box c).
Proof. destruct c as [t|b]; [|done]. cbn [patched]. by destruct (_ && _)%bool. Qed.

Lemma normal_size h d c : bsize (child_box (normal h d c)) = bsize (child_box c) + growth h c.
Proof.
  unfold normal. destruct c as [t|b]; cbn [patched growth child_box]; [|cbn [replaced child_box]; lia].
  destruct (rebuilt h t) eqn:E; cbn [negb andb].
  - cbn [replaced]. rewrite E. cbn [child_box]. rewrite rebuild_size. lia.
  - destruct (has (tr_flags t) 1) eqn:E1; cbn [replaced].
    + assert (rebuilt h (with_offset t (wrap 32 (tr_offset t + d))) = false) as -> by done.
      cbn [child_box]. rewrite !trun_box_size. cbn [with_offset tr_flags tr_samples]. lia.
    + rewrite E. cbn [child_box]. lia.
Qed.

Lemma normal_kind h d c : kind (child_box (normal h d c)) = kind (child_box c).
Proof.
  destruct c as [t|b]; [|done]. unfold normal. cbn [patched]. destruct (_ && _)%bool; cbn [replaced]; by destruct (rebuilt _ _).
Qed.

(** *** The loop that collects the runs to replace *)

Definition rebuilds_one (h : tfhd_fields) (o : Z) (c : child) : list Rebuild :=
  match c with
  | CRun t => if rebuilt h t then
      [mkRebuild o (bsize (trun_box t)) (signed_offset t) (render (trun_box (rebuild h t (signed_offset t))))] else []
  | COther _ => []
  end.
Fixpoint rebuilds_of (h : tfhd_fields) (o : Z) (cs : list child) : list Rebuild :=
  match cs with
  | [] => []
  | c :: rest => rebuilds_one h o c ++ rebuilds_of h (o + bsize (child_box c)) rest
  end.

Lemma default_sizes_zero h (samples : list TrunSample) :
  forallb (Z.eqb 0) ((fun _ => default_size h) <$> samples) = ((default_size h =? 0) || (len samples =? 0))%bool.
Proof.
  destruct (Z.eqb_spec (default_size h) 0) as [Hz|Hz]; cbn [orb].
  - apply forallb_forall. intros x Hx. rewrite <-list_elem_of_In in Hx. apply list_elem_of_fmap in Hx as (s & -> & _). by rewrite Hz.
  - destruct samples as [|s l]; [done|]. rewrite fmap_cons. cbn [forallb]. rewrite len_cons. pose proof (len_nonneg l).
    rewrite (proj2 (Z.eqb_neq 0 _)) by lia. by rewrite (proj2 (Z.eqb_neq _ 0)) by lia.
Qed.

Lemma new_trun_render h t :
  0 <= len (tr_samples t) -> new_trun (len (tr_samples t)) (signed_offset t) (default_duration h)
    ((fun _ => default_size h) <$> tr_samples t) = render (trun_box (rebuild h t (signed_offset t))).
Proof.
  intros _. unfold render. rewrite rebuild_size. unfold new_trun, trun_box, rebuild. cbn [kind body tr_flags tr_offset tr_first_flags tr_samples].
  unfold render_trun. change (has 0x301 1) with true. change (has 0x301 4) with false. cbn [word].
  replace (8 + (4 + 4 + 4 + len (tr_samples t) * 8)) with (20 + 8 * len (tr_samples t)) by lia.
  f_equal. f_equal. change ([0; 0; 3; 1]) with ([0] ++ to_be 3 0x301). rewrite <-!app_assoc. do 2 f_equal.
  replace (len ((fun _ => mkTrunSample (default_duration h) (default_size h) 0 0) <$> tr_samples t)) with (len (tr_samples t))
    by (unfold len; by rewrite length_fmap).
  f_equal. f_equal; [apply to_be_congr; change (256 ^ Z.of_nat 4) with (2 ^ 32); unfold wrap; by rewrite Zmod_mod|].
  cbn [app]. f_equal. rewrite <-!list_fmap_compose. apply list_fmap_ext. intros _ s _. unfold render_entry. cbn.
  by rewrite app_nil_r.
Qed.

(** A run in a buffer: the fields the loops read and write. *)
Definition run_head (P : list Z) (t : trun_fields) : list Z := P ++ to_be 4 (bsize (trun_box t)) ++ lit "trun".

Lemma run_parts P t Q :
  P ++ render (trun_box t) ++ Q = run_head P t ++ [0] ++ to_be 3 (tr_flags t) ++ to_be 4 (len (tr_samples t)) ++
    word (has (tr_flags t) 1) (tr_offset t) ++
    (word (has (tr_flags t) 4) (tr_first_flags t) ++ concat (render_entry (tr_flags t) <$> tr_samples t)) ++ Q.
Proof. unfold run_head, render. cbn [kind body trun_box]. unfold render_trun. by rewrite <-!app_assoc. Qed.

Lemma len_run_head P t : len (run_head P t) = len P + 8.
Proof. unfold run_head. lens. change (len (lit "trun")) with 4. lia. Qed.

Lemma read_run_flags P t Q :
  trun_ok t -> len P < 2 ^ 62 -> read_be (P ++ render (trun_box t) ++ Q) (len P ⊕ 9) 3 = Done (tr_flags t).
Proof.
  intros (Hf & _) Hl. rewrite run_parts. pose proof (len_run_head P t) as Hp. pose proof (len_nonneg P).
  rewrite uadd_small by lia. apply read_flags; lia.
Qed.

Section Runs.
Variable h : tfhd_fields.
Variables (pre post : list Z) (traf_off traf_len : Z).

Definition children_ok (cs : list child) : Prop :=
  Forall box_ok (child_box <$> cs) /\ (forall t, CRun t ∈ cs -> trun_ok t) /\
  (forall b, COther b ∈ cs -> kind b <> lit "trun").

Lemma children_ok_app cs1 cs2 : children_ok (cs1 ++ cs2) <-> children_ok cs1 /\ children_ok cs2.
Proof.
  unfold children_ok. rewrite fmap_app, Forall_app. setoid_rewrite elem_of_app. naive_solver.
Qed.

Lemma children_ok_run cs1 t cs2 : children_ok (cs1 ++ CRun t :: cs2) -> box_ok (trun_box t) /\ trun_ok t.
Proof.
  intros (Hb & Ht & _). rewrite fmap_app, fmap_cons, Forall_app, Forall_cons in Hb.
  split; [apply Hb|]. apply Ht, elem_of_app. right. left.
Qed.

Lemma children_ok_other cs1 b cs2 : children_ok (cs1 ++ COther b :: cs2) -> box_ok b /\ kind b <> lit "trun".
Proof.
  intros (Hb & _ & Ho). rewrite fmap_app, fmap_cons, Forall_app, Forall_cons in Hb.
  split; [apply Hb|]. apply Ho, elem_of_app. right. left.
Qed.

Lemma collect_rebuilds_render (d : TfhdDefaults) cs1 cs2 fuel :
  let data := pre ++ renders (child_box <$> cs1 ++ cs2) ++ post in
  children_ok (cs1 ++ cs2) -> len data < 2 ^ 62 -> (length cs2 < fuel)%nat ->
  default 0 (default_sample_size d) = default_size h -> default 0 (default_sample_duration d) = default_duration h ->
  parse_tfhd_defaults data traf_off traf_len = Done (Some d) ->
  collect_rebuilds fuel data traf_off traf_len d (len pre + len (renders (child_box <$> cs1)))
    (len pre + len (renders (child_box <$> cs1 ++ cs2))) =
  Done (rebuilds_of h (len pre + len (renders (child_box <$> cs1))) cs2).
Proof.
  intros data Hok Hlen Hf Hsize Hdur Hd. revert cs1 fuel data Hok Hlen Hf Hd.
  induction cs2 as [|c cs2 IH]; intros cs1 fuel data Hok Hlen Hf Hd; (destruct fuel as [|f]; [cbn in Hf; lia|]);
    cbn [collect_rebuilds rebuilds_of].
  { subst data. rewrite app_nil_r in *. rewrite visit_last by (apply Hok || lia). done. }
  pose proof Hok as [Hboxes _]. assert (Hl63 : len data < 2 ^ 63) by lia. rewrite fmap_app, fmap_cons in Hboxes.
  assert (Hdata : data = pre ++ renders ((child_box <$> cs1) ++ child_box c :: (child_box <$> cs2)) ++ post)
    by (subst data; by rewrite fmap_app, fmap_cons).
  destruct (visit_next pre _ post Hboxes ltac:(by rewrite <-Hdata) true _ _ _ eq_refl) as [Hv Hnext].
  rewrite <-Hdata in Hv. rewrite fmap_app, fmap_cons, Hv. run_simpl.
  specialize (IH (cs1 ++ [c]) f). rewrite <-app_assoc in IH. cbn [app] in IH. fold data in IH.
  specialize (IH Hok Hlen ltac:(cbn in Hf; lia) Hd).
  rewrite !fmap_app, !fmap_cons, fmap_nil in IH. rewrite Hnext, IH. rewrite <-(next_offset pre _ Hboxes _ _ _ eq_refl).
  destruct c as [t|b]; cbn [child_box rebuilds_one]; [|].
  - rewrite decide_True by done. destruct (children_ok_run _ _ _ Hok) as [Hb Ht].
    destruct Ht as (Hfl & Ho & Hc & Hs).
    assert (Hsplit : data = (pre ++ renders (child_box <$> cs1)) ++ render (trun_box t) ++ (renders (child_box <$> cs2) ++ post)).
    { rewrite Hdata, renders_app, renders_cons. cbn [child_box]. by rewrite <-!app_assoc. }
    rewrite Hsplit in Hl63, Hd, Hlen |- *. rewrite <-len_app.
    rewrite (parse_trun_render _ (trun_box t) _ (tr_flags t) (tr_offset t) (tr_first_flags t) (tr_samples t) (Some d))
      by (done || auto). run_simpl.
    assert (len (pre ++ renders (child_box <$> cs1)) < 2 ^ 62).
    { revert Hlen. rewrite (len_app (pre ++ _)). pose proof (len_nonneg (render (trun_box t) ++ renders (child_box <$> cs2) ++ post)). lia. }
    rewrite read_run_flags by done. run_simpl. cbn [sample_sizes data_offset sample_count].
    f_equal. unfold rebuilt, sizes_of. destruct (has (tr_flags t) 512) eqn:E512; [done|]. cbn [negb andb mbind option_bind].
    rewrite Hsize, Hdur, default_sizes_zero.
    rewrite negb_orb. destruct (negb (default_size h =? 0) && negb (len (tr_samples t) =? 0))%bool; [|done].
    cbn [app]. do 2 f_equal. fold (signed_offset t). apply new_trun_render, len_nonneg.
  - destruct (children_ok_other _ _ _ Hok) as [_ Hk]. by rewrite decide_False.
Qed.
End Runs.

(** *** Moving the offsets that stay *)

Lemma moved_word o delta : to_be 4 (swrap 32 (swrap 32 o + swrap 32 delta)) = to_be 4 (wrap 32 (o + delta)).
Proof.
  apply to_be_congr. change (256 ^ Z.of_nat 4) with (2 ^ 32). unfold wrap. rewrite swrap_mod, Zmod_mod by lia.
  by rewrite Z.add_mod, !swrap_mod, <-Z.add_mod by lia.
Qed.

(** The data offset of a run in its buffer. *)
Lemma run_offset_parts P t Q :
  has (tr_flags t) 1 = true ->
  exists p r, (forall o, P ++ render (trun_box (with_offset t o)) ++ Q = p ++ to_be 4 o ++ r) /\ len p = len P + 16.
Proof.
  intros H1.
  exists (run_head P t ++ [0] ++ to_be 3 (tr_flags t) ++ to_be 4 (len (tr_samples t))),
    ((word (has (tr_flags t) 4) (tr_first_flags t) ++ concat (render_entry (tr_flags t) <$> tr_samples t)) ++ Q). split.
  - intros o. rewrite (run_parts P (with_offset t o)). cbn [with_offset tr_flags tr_offset tr_first_flags tr_samples].
    assert (Hh : run_head P (with_offset t o) = run_head P t) by (unfold run_head; by rewrite !trun_box_size).
    rewrite Hh, H1. cbn [word]. by rewrite <-!app_assoc.
  - lens. rewrite len_run_head. lia.
Qed.

Lemma with_own_offset t : with_offset t (tr_offset t) = t.
Proof. by destruct t. Qed.

Lemma patch_run P t Q delta :
  trun_ok t -> len (P ++ render (trun_box t) ++ Q) < 2 ^ 62 -> has (tr_flags t) 1 = true ->
  (len P ⊕ 20 <=? len (P ++ render (trun_box t) ++ Q)) = true /\
  (doff ← read_i32_be (P ++ render (trun_box t) ++ Q) (len P ⊕ 16);
   write_be (P ++ render (trun_box t) ++ Q) (len P ⊕ 16) 4 (swrap 32 (doff + swrap 32 delta))) =
  Done (P ++ render (trun_box (with_offset t (wrap 32 (tr_offset t + delta)))) ++ Q).
Proof.
  intros (_ & Ho & _) Hl H1. destruct (run_offset_parts P t Q H1) as (p & r & Hp & Hlen).
  rewrite (Hp (wrap 32 _)). pose proof (Hp (tr_offset t)) as Ht. rewrite with_own_offset in Ht. rewrite Ht in Hl |- *.
  pose proof (len_nonneg P). pose proof (len_nonneg r). revert Hl. rewrite !len_app, len_to_be. intros Hl. split.
  - rewrite uadd_small by lia. apply Z.leb_le. lia.
  - rewrite uadd_small by lia. rewrite <-Hlen. unfold read_i32_be. rewrite read_to_be by lia. run_simpl.
    rewrite Z.mod_small by (change (256 ^ Z.of_nat 4) with (2 ^ 32); lia).
    unfold write_be. rewrite moved_word. by rewrite (store_mid _ (to_be 4 (tr_offset t))) by (rewrite ?len_to_be; done).
Qed.

Section Patching.
Variables (h : tfhd_fields) (delta : Z) (post : list Z).

Lemma rebuilds_offsets o cs : Forall (fun r => o <= rb_off r) (rebuilds_of h o cs).
Proof.
  revert o. induction cs as [|c cs IH]; intros o; cbn [rebuilds_of]; [constructor|]. apply Forall_app. split.
  - destruct c as [t|b]; cbn [rebuilds_one]; [|constructor]. destruct (rebuilt h t); [|constructor]. by repeat constructor.
  - eapply Forall_impl; [apply IH|]. cbn. intros r Hr. pose proof (bsize_ge (child_box c)). lia.
Qed.

(** A run is skipped exactly when it is replaced. *)
Lemma skip_current (pre : list Z) t skip0 cs :
  Forall (fun x => x < len pre) skip0 ->
  bool_decide (len pre ∈ skip0 ++ (rb_off <$> rebuilds_of h (len pre) (CRun t :: cs))) = rebuilt h t.
Proof.
  intros H0. cbn [rebuilds_of rebuilds_one]. destruct (rebuilt h t) eqn:E.
  - apply bool_decide_eq_true_2, elem_of_app. right. cbn. left.
  - apply bool_decide_eq_false_2. rewrite elem_of_app. cbn [app]. intros [H|H].
    + rewrite Forall_forall in H0. specialize (H0 _ H). lia.
    + apply list_elem_of_fmap in H as (r & Hr & Hin). pose proof (rebuilds_offsets (len pre + bsize (child_box (CRun t))) cs) as Hf.
      rewrite Forall_forall in Hf. specialize (Hf _ Hin). pose proof (bsize_ge (child_box (CRun t))). lia.
Qed.

Lemma patch_offsets_render cs (pre : list Z) skip0 fuel :
  children_ok cs -> len (pre ++ renders (child_box <$> cs) ++ post) < 2 ^ 62 -> (length cs < fuel)%nat ->
  Forall (fun x => x < len pre) skip0 ->
  patch_offsets fuel (pre ++ renders (child_box <$> cs) ++ post) (len pre) (len pre + len (renders (child_box <$> cs))) delta
    (skip0 ++ (rb_off <$> rebuilds_of h (len pre) cs)) =
  Done (pre ++ renders (child_box <$> (patched h delta <$> cs)) ++ post).
Proof.
  revert pre skip0 fuel. induction cs as [|c cs IH]; intros pre skip0 fuel Hok Hlen Hf H0;
    (destruct fuel as [|f]; [cbn in Hf; lia|]); cbn [patch_offsets].
  { rewrite !fmap_nil, renders_nil in *. pose proof (len_nonneg pre). pose proof (len_nonneg post).
    assert (Hl : len pre + len post < 2 ^ 62) by (revert Hlen; lens; lia).
    rewrite visit_end by (rewrite ?len_nil; lia). done. }
  destruct (children_ok_app [c] cs) as [Hsplit _]. specialize (Hsplit Hok) as [Hc Hcs].
  pose proof Hok as [Hboxes _]. rewrite fmap_cons in Hboxes. apply Forall_cons in Hboxes as [Hb _].
  rewrite !fmap_cons, !renders_cons in *. set (Q := renders (child_box <$> cs)) in *.
  pose proof (len_nonneg pre). pose proof (len_nonneg post). pose proof (len_nonneg Q). pose proof (bsize_ge (child_box c)).
  assert (Hsum : len pre + bsize (child_box c) + len Q + len post < 2 ^ 62)
    by (revert Hlen; lens; rewrite len_render by done; lia).
  rewrite <-app_assoc. rewrite visit_render; [|done|rewrite !len_app, len_render by done; lia..].
  run_simpl. set (c' := patched h delta c).
  assert (Hb' : box_ok (child_box c')) by (destruct Hb; split; unfold c'; by rewrite ?patched_kind, ?patched_size).
  match goal with |- (x ← ?step; _) = _ => assert (Hstep : step = Done (pre ++ render (child_box c') ++ Q ++ post)) end.
  { destruct c as [t|b]; cbn [child_box].
    - rewrite bool_decide_eq_true_2 by done. rewrite skip_current by done. subst c'. cbn [patched andb].
      destruct (rebuilt h t); [done|]. cbn [negb andb].
      destruct (children_ok_run [] t [] Hc) as [_ Ht].
      rewrite read_run_flags by (done || lia). run_simpl. destruct (has (tr_flags t) 1) eqn:E1; [|done].
      destruct (patch_run pre t (Q ++ post) delta Ht) as [-> Hw]; [|done|].
      { lens. change (trun_box t) with (child_box (CRun t)). rewrite len_render by done. lia. }
      cbn [andb]. by rewrite Hw.
    - destruct (children_ok_other [] b [] Hc) as [_ Hk]. by rewrite bool_decide_eq_false_2. }
  rewrite Hstep. run_simpl. nowrap.
  assert (Hl' : len (pre ++ render (child_box c')) = len pre + bsize (child_box c))
    by (rewrite len_app, len_render by done; subst c'; by rewrite patched_size).
  specialize (IH (pre ++ render (child_box c')) (skip0 ++ (rb_off <$> rebuilds_one h (len pre) c)) f Hcs).
  rewrite Hl', <-!app_assoc in IH. cbn [rebuilds_of]. rewrite fmap_app. fold Q in IH |- *.
  rewrite len_app, (len_render (child_box c)) by done.
  replace (len pre + (bsize (child_box c) + len Q)) with (len pre + bsize (child_box c) + len Q) by lia.
  rewrite <-(app_assoc (render _)). apply IH; [lens; rewrite len_render by done; unfold c'; rewrite patched_size; lia|cbn in Hf; lia|].
  apply Forall_app. split; [eapply Forall_impl; [exact H0|cbn; lia]|].
  destruct c as [t|b]; cbn [rebuilds_one]; [|constructor]. destruct (rebuilt h t); [|constructor].
  repeat constructor. cbn in *. lia.
Qed.
End Patching.

(** *** Replacing the others *)

Lemma rebuilds_app h o cs1 cs2 :
  rebuilds_of h o (cs1 ++ cs2) = rebuilds_of h o cs1 ++ rebuilds_of h (o + sumZ (bsize <$> (child_box <$> cs1))) cs2.
Proof.
  revert o. induction cs1 as [|c cs1 IH]; intros o; cbn [app rebuilds_of]; [by rewrite Z.add_0_r|].
  rewrite IH, !fmap_cons, <-app_assoc. do 3 f_equal. unfold sumZ. cbn [foldr]. lia.
Qed.

Lemma len_renders_sum bs : Forall box_ok bs -> len (renders bs) = sumZ (bsize <$> bs).
Proof.
  induction 1 as [|b bs Hb _ IH]; [done|]. rewrite renders_cons, fmap_cons, len_app, len_render, IH by done. done.
Qed.

Lemma len_render_run t : len (render (trun_box t)) = bsize (trun_box t).
Proof. unfold render, bsize. lens. change (len (kind (trun_box t))) with 4. lia. Qed.

Lemma splice_run h t delta P Q :
  rebuilt h t = true -> len P + bsize (trun_box t) + len Q < 2 ^ 62 ->
  splice_runs (P ++ render (trun_box t) ++ Q) (rebuilds_one h (len P) (CRun t)) delta =
  Done (P ++ render (trun_box (rebuild h t (signed_offset t + delta))) ++ Q).
Proof.
  intros Hr Hl. pose proof (len_nonneg P). pose proof (len_nonneg Q). pose proof (bsize_ge (trun_box t)).
  cbn [rebuilds_one]. rewrite Hr. cbn [splice_runs rb_off rb_len rb_trun rb_data_offset].
  rewrite !len_app, !len_render_run, rebuild_size. pose proof (len_nonneg (tr_samples t)). nowrap. decide_le.
  destruct (run_offset_parts [] (rebuild h t (signed_offset t)) [] eq_refl) as (p & r & Hp & Hlen).
  assert (Hall : forall o, render (trun_box (rebuild h t o)) = p ++ to_be 4 (wrap 32 o) ++ r)
    by (intros o; by rewrite <-Hp, app_nil_r).
  rewrite !Hall, (store_mid p (to_be 4 _) r 16) by (rewrite ?len_to_be; done). run_simpl.
  rewrite splice_mid by (rewrite ?len_render_run; lia). run_simpl.
  rewrite (to_be_congr 4 (swrap 32 (signed_offset t + delta)) (wrap 32 (signed_offset t + delta))); [done|].
  change (256 ^ Z.of_nat 4) with (2 ^ 32). unfold wrap. by rewrite swrap_mod, Zmod_mod by lia.
Qed.

Lemma splice_runs_app l1 l2 delta data :
  splice_runs data (l1 ++ l2) delta = d ← splice_runs data l1 delta; splice_runs d l2 delta.
Proof.
  revert data. induction l1 as [|r l1 IH]; intros data; [done|]. cbn [app splice_runs]. destruct (_ <? _); [apply IH|].
  destruct (if 20 <=? len (rb_trun r) then _ else _) as [new| | |]; try done. cbn [mbind outcome_bind].
  destruct (splice _ _ _ _) as [d|]; [apply IH|done].
Qed.

Definition room (h : tfhd_fields) (cs : list child) : Z := sumZ ((fun c => Z.max 0 (growth h c)) <$> cs).

Lemma room_app h cs1 cs2 : room h (cs1 ++ cs2) = room h cs1 + room h cs2.
Proof. unfold room. by rewrite fmap_app, sumZ_app. Qed.

Lemma room_nonneg h cs : 0 <= room h cs.
Proof. apply sumZ_nonneg, Forall_fmap, Forall_true. intros c. cbn. lia. Qed.

Lemma patched_ok h delta (cs : list child) : children_ok cs -> Forall box_ok (child_box <$> (patched h delta <$> cs)).
Proof.
  intros [Hb _]. rewrite !Forall_fmap in *. eapply Forall_impl; [exact Hb|]. cbn.
  intros c [Hk Hs]. split; cbn; by rewrite ?patched_kind, ?patched_size.
Qed.

Lemma patched_sizes h delta (cs : list child) : bsize <$> (child_box <$> (patched h delta <$> cs)) = bsize <$> (child_box <$> cs).
Proof. rewrite <-!list_fmap_compose. apply list_fmap_ext. intros _ c _. apply patched_size. Qed.

Lemma splice_runs_render h delta (cs : list child) (pre post : list Z) :
  children_ok cs -> len pre + len (renders (child_box <$> cs)) + len post + room h cs < 2 ^ 62 ->
  splice_runs (pre ++ renders (child_box <$> (patched h delta <$> cs)) ++ post) (reverse (rebuilds_of h (len pre) cs)) delta =
  Done (pre ++ renders (child_box <$> (normal h delta <$> cs)) ++ post).
Proof.
  revert post. induction cs as [|c cs IH] using rev_ind; intros post Hok Hroom; [done|].
  apply children_ok_app in Hok as [Hcs Hc]. pose proof Hc as [Hb _]. rewrite fmap_cons, fmap_nil, Forall_singleton in Hb.
  rewrite room_app, fmap_app, fmap_cons, fmap_nil, renders_app, renders_cons, renders_nil, app_nil_r, len_app, len_render in Hroom by done.
  pose proof (len_nonneg pre). pose proof (len_nonneg post). pose proof (room_nonneg h cs).
  assert (Hrc : room h [c] = Z.max 0 (growth h c)) by (unfold room; cbn; lia).
  assert (Hpos : len pre + sumZ (bsize <$> (child_box <$> cs)) = len (pre ++ renders (child_box <$> (patched h delta <$> cs)))).
  { rewrite len_app, len_renders_sum by (by apply patched_ok). by rewrite patched_sizes. }
  rewrite rebuilds_app, reverse_app, splice_runs_app, !fmap_app, !fmap_cons, !fmap_nil, !renders_app, !renders_cons,
    !renders_nil, !app_nil_r.
  cbn [rebuilds_of]. rewrite app_nil_r, Hpos. set (P := pre ++ renders (child_box <$> (patched h delta <$> cs))) in *.
  assert (HP : len P = len pre + len (renders (child_box <$> cs))).
  { rewrite <-Hpos. f_equal. symmetry. apply len_renders_sum, Hcs. }
  assert (Hstep : splice_runs (pre ++ (renders (child_box <$> (patched h delta <$> cs)) ++ render (child_box (patched h delta c))) ++ post)
      (reverse (rebuilds_one h (len P) c)) delta = Done (P ++ render (child_box (normal h delta c)) ++ post)).
  { replace (pre ++ (renders (child_box <$> (patched h delta <$> cs)) ++ render (child_box (patched h delta c))) ++ post)
      with (P ++ render (child_box (patched h delta c)) ++ post) by (subst P; by rewrite <-!app_assoc).
    unfold normal. destruct c as [t|b]; [|done]. destruct (rebuilt h t) eqn:E.
    - cbn [patched replaced child_box]. rewrite E. cbn [negb andb replaced]. rewrite E. cbn [child_box].
      cbn [rebuilds_one]. rewrite E, reverse_singleton.
      pose proof (splice_run h t delta P post E) as Hs. cbn [rebuilds_one] in Hs. rewrite E in Hs. apply Hs.
      cbn [child_box] in Hroom. lia.
    - cbn [rebuilds_one]. rewrite E. cbn [patched]. rewrite E. cbn [negb andb].
      destruct (has (tr_flags t) 1); cbn [replaced]; [|by rewrite E].
      by replace (rebuilt h (with_offset t (wrap 32 (tr_offset t + delta)))) with false. }
  rewrite Hstep. run_simpl. subst P. rewrite <-app_assoc. rewrite IH; [by rewrite <-!app_assoc|done|].
  rewrite len_app. unfold render. rewrite !len_app, normal_kind, len_to_be.
  pose proof (normal_size h delta c). unfold bsize at 1 in H2. destruct Hb. lia.
Qed.

(** *** The frame around the children *)

Definition around (n : NFragment) (moof_size traf_size : Z) : list Z :=
  renders (n_before n) ++ to_be 4 moof_size ++ lit "moof" ++ renders (n_moof_before n) ++ to_be 4 traf_size ++ lit "traf".
Definition behind (n : NFragment) : list Z := renders (n_moof_after n) ++ renders (n_after n).
Definition frame (n : NFragment) (moof_size traf_size : Z) (body : list Z) : list Z :=
  around n moof_size traf_size ++ body ++ behind n.
Definition moof_at (n : NFragment) : Z := len (renders (n_before n)).
Definition traf_at (n : NFragment) : Z := moof_at n + 8 + len (renders (n_moof_before n)).

Lemma frame_fragment n :
  render_fragment (raw n) = frame n (bsize (moof_box (raw n))) (bsize (traf_box (raw n))) (renders (child_box <$> children_of n)).
Proof.
  rewrite fragment_in_traf. unfold traf_pre, moof_pre, moof_head, traf_head, frame, around, behind.
  cbn [raw before moof_before traf moof_after after]. by rewrite <-!app_assoc.
Qed.

Lemma len_around n ms ts : len (around n ms ts) = traf_at n + 8.
Proof. unfold around, traf_at, moof_at. lens. change (len (lit "moof")) with 4. change (len (lit "traf")) with 4. lia. Qed.

Lemma update_word_mid pre v rest a d :
  a = len pre -> len pre + 4 < 2 ^ 64 -> 0 <= v < 2 ^ 32 ->
  update_word (pre ++ to_be 4 v ++ rest) a d = Done (pre ++ to_be 4 (v + d) ++ rest).
Proof.
  intros -> Hl Hv. pose proof (len_nonneg pre). unfold update_word. rewrite read_to_be by lia. run_simpl.
  rewrite Z.mod_small by (change (256 ^ Z.of_nat 4) with (2 ^ 32); lia). unfold write_be.
  rewrite (store_mid _ (to_be 4 v)) by (rewrite ?len_to_be; done). cbn [must]. do 3 f_equal. apply to_be_congr.
  change (256 ^ Z.of_nat 4) with (2 ^ 32). unfold wrap. by rewrite Zmod_mod.
Qed.

Lemma update_traf n ms ts body d :
  traf_at n + 4 < 2 ^ 64 -> 0 <= ts < 2 ^ 32 -> update_word (frame n ms ts body) (traf_at n) d = Done (frame n ms (ts + d) body).
Proof.
  intros Hl Ht. pose proof (len_around n ms ts) as Ha.
  set (P := renders (n_before n) ++ to_be 4 ms ++ lit "moof" ++ renders (n_moof_before n)).
  assert (Hd : forall t, frame n ms t body = P ++ to_be 4 t ++ (lit "traf" ++ body ++ behind n))
    by (intros t; unfold frame, around; subst P; by rewrite <-!app_assoc).
  assert (HP : traf_at n = len P).
  { unfold traf_at, moof_at. subst P. lens. change (len (lit "moof")) with 4. lia. }
  rewrite !Hd, HP. apply update_word_mid; [done|lia|done].
Qed.

Lemma update_moof n ms ts body d :
  traf_at n + 4 < 2 ^ 64 -> 0 <= ms < 2 ^ 32 -> update_word (frame n ms ts body) (moof_at n) d = Done (frame n (ms + d) ts body).
Proof.
  intros Hl Ht. pose proof (len_nonneg (renders (n_moof_before n))).
  assert (Hd : forall m, frame n m ts body = renders (n_before n) ++ to_be 4 m ++ (lit "moof" ++ renders (n_moof_before n) ++
    to_be 4 ts ++ lit "traf" ++ body ++ behind n)) by (intros m; unfold frame, around; by rewrite <-!app_assoc).
  rewrite !Hd. apply update_word_mid; [done|unfold traf_at, moof_at in *; lia|done].
Qed.

(** *** Dropping the description index *)

Definition headed (n : NFragment) : NFragment :=
  mkNFragment (n_before n) (n_moof_before n) (n_left n) (no_description (n_head n)) (n_right n) (n_moof_after n) (n_after n).

Lemma no_description_id h : has (th_flags h) 2 = false -> no_description h = h.
Proof.
  unfold has. rewrite negb_false_iff, Z.eqb_eq. intros H. destruct h as [f a b c d e]. unfold no_description. cbn in *.
  f_equal. pose proof (Z.lor_ldiff_and f 2) as Hl. by rewrite H, Z.lor_0_r in Hl.
Qed.

Definition tfhd_base (h : tfhd_fields) : list Z := if has (th_flags h) 1 then to_be 8 (th_base h) else [].
Definition tfhd_tail (h : tfhd_fields) : list Z :=
  word (has (th_flags h) 8) (th_duration h) ++ word (has (th_flags h) 16) (th_size h).

Lemma tfhd_parts h :
  render (tfhd_box h) = to_be 4 (bsize (tfhd_box h)) ++ lit "tfhd" ++ [0] ++ to_be 3 (th_flags h) ++ to_be 4 (th_track h) ++
    tfhd_base h ++ word (has (th_flags h) 2) (th_sdi h) ++ tfhd_tail h.
Proof. reflexivity. Qed.

Lemma no_description_parts h :
  render (tfhd_box (no_description h)) = to_be 4 (bsize (tfhd_box (no_description h))) ++ lit "tfhd" ++ [0] ++
    to_be 3 (Z.ldiff (th_flags h) 2) ++ to_be 4 (th_track h) ++ tfhd_base h ++ tfhd_tail h.
Proof.
  rewrite tfhd_parts, no_description_cleared. unfold tfhd_base, tfhd_tail.
  rewrite !has_no_description by tauto. done.
Qed.

Lemma no_description_size h :
  bsize (tfhd_box h) = bsize (tfhd_box (no_description h)) + (if has (th_flags h) 2 then 4 else 0).
Proof.
  destruct (has (th_flags h) 2) eqn:E; [|rewrite no_description_id by done; lia].
  unfold bsize, tfhd_box. cbn [body]. unfold render_tfhd. rewrite no_description_cleared, E, !has_no_description by tauto.
  lens. destruct (has (th_flags h) 1), (has (th_flags h) 8), (has (th_flags h) 16); lens; lia.
Qed.

Lemma read_tfhd_flags P h Q :
  0 <= th_flags h < 2 ^ 24 -> len P < 2 ^ 62 -> read_be (P ++ render (tfhd_box h) ++ Q) (len P + 9) 3 = Done (th_flags h).
Proof.
  intros Hf Hl. rewrite tfhd_parts. set (z := bsize (tfhd_box h)).
  replace (P ++ (to_be 4 z ++ lit "tfhd" ++ [0] ++ to_be 3 (th_flags h) ++ to_be 4 (th_track h) ++ tfhd_base h ++
      word (has (th_flags h) 2) (th_sdi h) ++ tfhd_tail h) ++ Q)
    with ((P ++ to_be 4 z ++ lit "tfhd") ++ [0] ++ to_be 3 (th_flags h) ++ (to_be 4 (th_track h) ++ tfhd_base h ++
      word (has (th_flags h) 2) (th_sdi h) ++ tfhd_tail h ++ Q)) by (by rewrite <-!app_assoc).
  assert (len (P ++ to_be 4 z ++ lit "tfhd") = len P + 8) by (lens; change (len (lit "tfhd")) with 4; lia).
  apply read_flags; lia.
Qed.

(** The three writes on the header's own box. *)
Lemma drop_in_place {A} h P Q (k : list Z -> run A) :
  has (th_flags h) 2 = true -> 0 <= bsize (tfhd_box h) < 2 ^ 32 -> len (P ++ render (tfhd_box h) ++ Q) < 2 ^ 62 ->
  let sdi_pos := len P + 16 + (if has (th_flags h) 1 then 8 else 0) in
  sdi_pos + 4 <= len (P ++ render (tfhd_box h) ++ Q) /\
  (fragment ← must (drain (P ++ render (tfhd_box h) ++ Q) sdi_pos (sdi_pos + 4));
   fragment ← write_be fragment (len P + 9) 3 (Z.ldiff (th_flags h) 2);
   fragment ← write_be fragment (len P) 4 (bsize (tfhd_box h) - 4);
   k fragment) = k (P ++ render (tfhd_box (no_description h)) ++ Q).
Proof.
  intros H2 Hs Hlen sdi_pos. rewrite no_description_parts, tfhd_parts, H2 in *. cbn [word] in *.
  assert (Hb : len (tfhd_base h) = if has (th_flags h) 1 then 8 else 0) by (unfold tfhd_base; by destruct (has (th_flags h) 1)).
  pose proof (no_description_size h) as Hz. rewrite H2 in Hz.
  set (z := bsize (tfhd_box h)) in *. set (P1 := P ++ to_be 4 z ++ lit "tfhd" ++ [0] ++ to_be 3 (th_flags h) ++ to_be 4 (th_track h) ++ tfhd_base h).
  assert (Hd : P ++ (to_be 4 z ++ lit "tfhd" ++ [0] ++ to_be 3 (th_flags h) ++ to_be 4 (th_track h) ++ tfhd_base h ++
      to_be 4 (th_sdi h) ++ tfhd_tail h) ++ Q = P1 ++ to_be 4 (th_sdi h) ++ (tfhd_tail h ++ Q)) by (subst P1; by rewrite <-!app_assoc).
  assert (HP1 : sdi_pos = len P1) by (subst P1 sdi_pos; lens; rewrite Hb; change (len (lit "tfhd")) with 4; lia).
  pose proof (len_nonneg (tfhd_tail h ++ Q)). rewrite Hd. split; [rewrite HP1, !(len_app P1), (len_app (to_be _ _)), len_to_be; lia|].
  rewrite drain_mid by (rewrite ?len_to_be; lia). run_simpl. subst P1.
  replace ((P ++ to_be 4 z ++ lit "tfhd" ++ [0] ++ to_be 3 (th_flags h) ++ to_be 4 (th_track h) ++ tfhd_base h) ++ tfhd_tail h ++ Q)
    with ((P ++ to_be 4 z ++ lit "tfhd" ++ [0]) ++ to_be 3 (th_flags h) ++ (to_be 4 (th_track h) ++ tfhd_base h ++ tfhd_tail h ++ Q))
    by (by rewrite <-!app_assoc).
  assert (Hp9 : len P + 9 = len (P ++ to_be 4 z ++ lit "tfhd" ++ [0])) by (lens; change (len (lit "tfhd")) with 4; lia).
  unfold write_be. rewrite (store_mid _ (to_be 3 (th_flags h)) _ _ _ Hp9) by (by rewrite !len_to_be). run_simpl.
  replace ((P ++ to_be 4 z ++ lit "tfhd" ++ [0]) ++ to_be 3 (Z.ldiff (th_flags h) 2) ++ to_be 4 (th_track h) ++ tfhd_base h ++ tfhd_tail h ++ Q)
    with (P ++ to_be 4 z ++ (lit "tfhd" ++ [0] ++ to_be 3 (Z.ldiff (th_flags h) 2) ++ to_be 4 (th_track h) ++ tfhd_base h ++ tfhd_tail h ++ Q))
    by (by rewrite <-!app_assoc).
  rewrite (store_mid P (to_be 4 z)) by (rewrite ?len_to_be; done). run_simpl. rewrite <-!app_assoc.
  by replace (z - 4) with (bsize (tfhd_box (no_description h))) by lia.
Qed.

(** *** The whole function *)

Lemma require_box_found data a b t msg x : require_box data a b t msg = Done x -> find_child_box data a b t = Done (Some x).
Proof.
  unfold require_box. destruct (find_child_box data a b t) as [o| | |]; try done. destruct o as [y|]; [|done].
  run_simpl. cbn [or_fail]. by intros [= ->].
Qed.


Section Whole.
Variable n : NFragment.
Hypothesis Hn : n_ok n.

Lemma boxes_split g h : child_box <$> (g <$> n_left n) ++ COther (tfhd_box h) :: (g <$> n_right n) =
  (child_box <$> (g <$> n_left n)) ++ tfhd_box h :: (child_box <$> (g <$> n_right n)).
Proof. by rewrite fmap_app, fmap_cons. Qed.

Lemma children_boxes : child_box <$> children_of n = (child_box <$> n_left n) ++ tfhd_box (n_head n) :: (child_box <$> n_right n).
Proof. unfold children_of. by rewrite fmap_app, fmap_cons. Qed.

Lemma room_children : 0 <= room (n_head n) (children_of n).
Proof. apply room_nonneg. Qed.

Lemma no_tfhd_left : Forall (fun x => kind x <> lit "tfhd") (child_box <$> n_left n).
Proof.
  rewrite Forall_fmap, Forall_forall. intros [t|b] Hin; [by vm_compute|].
  apply (n_others n Hn b), elem_of_app. by left.
Qed.

Lemma fragment_bounds :
  0 <= bsize (moof_box (raw n)) < 2 ^ 32 /\ 0 <= bsize (traf_box (raw n)) < 2 ^ 32 /\
  bsize (traf_box (raw n)) = 8 + len (renders (child_box <$> children_of n)) /\
  bsize (moof_box (raw n)) = 8 + len (renders (n_moof_before n)) + bsize (traf_box (raw n)) + len (renders (n_moof_after n)) /\
  moof_at n + bsize (moof_box (raw n)) + len (renders (n_after n)) < 2 ^ 62.
Proof.
  pose proof (n_fragment n Hn) as Hf. pose proof (ok_moof _ Hf) as [_ Hm]. pose proof (traf_box_ok _ Hf) as [_ Ht].
  pose proof (bsize_ge (moof_box (raw n))). pose proof (bsize_ge (traf_box (raw n))).
  pose proof (bsize_moof _ Hf) as Hbm. pose proof (n_total n Hn) as Hl. rewrite (fragment_len _ Hf) in Hl.
  pose proof room_children. unfold room in *. unfold moof_at. cbn [raw before moof_before moof_after after] in *.
  split_and!; try lia; try done. Qed.

Lemma head_ok : box_ok (tfhd_box (n_head n)).
Proof.
  pose proof (ok_traf _ (n_fragment n Hn)) as Hb. cbn [raw traf] in Hb. rewrite children_boxes in Hb.
  apply Forall_app in Hb as [_ Hb]. by inversion Hb.
Qed.

Lemma children_all_ok : children_ok (children_of n).
Proof.
  split; [apply (ok_traf _ (n_fragment n Hn))|]. split; [apply (n_runs n Hn)|]. intros b Hb. unfold children_of in Hb.
  apply elem_of_app in Hb as [Hb|Hb]; [apply (n_others n Hn b), elem_of_app; by left|].
  apply elem_of_cons in Hb as [[= ->]|Hb]; [by vm_compute|]. apply (n_others n Hn b), elem_of_app. by right.
Qed.

Lemma drop_description_render :
  drop_description (render_fragment (raw n)) (moof_at n) (traf_at n) (bsize (traf_box (raw n))) =
  Done (render_fragment (raw (headed n)), head_growth n).
Proof.
  destruct fragment_bounds as (Hms & Hts & Htb & Hmb & Hl). pose proof head_ok as Hh. destruct Hh as [_ Hz].
  pose proof (n_tfhd n Hn) as (Hflags & _ & _).
  pose proof (len_nonneg (renders (n_before n))). pose proof (len_nonneg (renders (n_after n))).
  pose proof (len_nonneg (renders (n_moof_before n))). pose proof (len_nonneg (renders (n_moof_after n))).
  pose proof (bsize_ge (tfhd_box (n_head n))) as Hge.
  rewrite frame_fragment, children_boxes. unfold drop_description, frame.
  set (A := around n _ _). set (L := child_box <$> n_left n). set (R := child_box <$> n_right n).
  assert (HA : len A = traf_at n + 8) by apply len_around.
  pose proof (len_nonneg (renders L)). pose proof (len_nonneg (renders R)).
  assert (Hsum : len (renders (L ++ tfhd_box (n_head n) :: R)) = len (renders L) + bsize (tfhd_box (n_head n)) + len (renders R))
    by (lens; rewrite len_render by apply head_ok; lia).
  rewrite children_boxes in Htb. fold L R in Htb. rewrite Hsum in Htb.
  assert (Hbehind : len (behind n) = len (renders (n_moof_after n)) + len (renders (n_after n))) by (unfold behind; by lens).
  assert (Htot : len (A ++ renders (L ++ tfhd_box (n_head n) :: R) ++ behind n) < 2 ^ 62).
  { rewrite (len_app A), (len_app (renders _)), Hsum, HA, Hbehind. unfold traf_at, moof_at in *. lia. }
  assert (Hall : Forall box_ok (L ++ tfhd_box (n_head n) :: R)).
  { subst L R. rewrite <-children_boxes. apply (ok_traf _ (n_fragment n Hn)). }
  unfold traf_at, moof_at in *. change (lit "tfhd") with (kind (tfhd_box (n_head n))).
  rewrite (find_first A L _ R (behind n)); [|done|lia|apply no_tfhd_left|rewrite HA, uadd_small; lia|rewrite HA, Hsum, uadd_small; lia].
  run_simpl. rewrite renders_app, renders_cons.
  replace (A ++ (renders L ++ render (tfhd_box (n_head n)) ++ renders R) ++ behind n) with
    ((A ++ renders L) ++ render (tfhd_box (n_head n)) ++ (renders R ++ behind n)) by (by rewrite <-!app_assoc).
  rewrite <-len_app. set (P := A ++ renders L) in *. set (Q := renders R ++ behind n).
  assert (HP : len P = len A + len (renders L)) by (subst P; by rewrite len_app).
  assert (HQ : len Q = len (renders R) + len (behind n)) by (subst Q; by rewrite len_app).
  assert (Hlen : len (P ++ render (tfhd_box (n_head n)) ++ Q) < 2 ^ 62).
  { rewrite !len_app, len_render, HP, HQ, HA, Hbehind by apply head_ok. lia. }
  assert (Hall' : len (P ++ render (tfhd_box (n_head n)) ++ Q) = len P + bsize (tfhd_box (n_head n)) + len Q)
    by (rewrite !len_app, len_render by apply head_ok; lia).
  assert (H16 : 16 <= bsize (tfhd_box (n_head n))).
  { unfold bsize, tfhd_box. cbn [body]. unfold render_tfhd. lens. destruct (has _ 1), (has _ 2), (has _ 8), (has _ 16); lens; lia. }
  pose proof (len_nonneg P). pose proof (len_nonneg Q). nowrap. decide_le.
  rewrite read_tfhd_flags by (done || lia). run_simpl. unfold head_growth.
  destruct (has (th_flags (n_head n)) 2) eqn:E2.
  2: { unfold headed. rewrite no_description_id by done. f_equal. f_equal. subst P Q A L R.
       rewrite <-!app_assoc. change (raw (mkNFragment _ _ _ _ _ _ _)) with (raw n). rewrite frame_fragment, children_boxes.
       unfold frame. by rewrite renders_app, renders_cons, <-!app_assoc. }
  destruct (drop_in_place (n_head n) P Q (fun fragment => fragment ← update_word fragment (traf_at n) (-4);
    fragment ← update_word fragment (moof_at n) (-4); mret (fragment, -4)) E2 ltac:(lia) Hlen) as [Hin Hk].
  assert (Hpos : ((if has (th_flags (n_head n)) 1 then len P + 12 + 8 else len P + 12) ⊕ 4) =
    len P + 16 + (if has (th_flags (n_head n)) 1 then 8 else 0)) by (destruct (has _ 1); nowrap; lia).
  rewrite Hpos. rewrite uadd_small by (destruct (has _ 1); lia). rewrite (proj2 (Z.leb_le _ _)) by lia.
  unfold traf_at, moof_at in Hk. rewrite Hk. clear Hk.
  assert (Hframe : P ++ render (tfhd_box (no_description (n_head n))) ++ Q =
    frame n (bsize (moof_box (raw n))) (bsize (traf_box (raw n))) (renders (child_box <$> children_of (headed n)))).
  { unfold frame, headed, children_of. cbn [n_left n_head n_right]. rewrite fmap_app, fmap_cons. cbn [child_box].
    subst P Q A L R. by rewrite renders_app, renders_cons, <-!app_assoc. }
  rewrite Hframe. change (len (renders (n_before n)) + 8 + len (renders (n_moof_before n))) with (traf_at n).
  change (len (renders (n_before n))) with (moof_at n) at 1.
  rewrite update_traf by (unfold traf_at, moof_at; lia). run_simpl.
  rewrite update_moof by (unfold traf_at, moof_at; lia). run_simpl. f_equal. f_equal.
  assert (Htb' : bsize (traf_box (raw (headed n))) = bsize (traf_box (raw n)) - 4).
  { rewrite Htb. pose proof (no_description_size (n_head n)) as Hd. rewrite E2 in Hd.
    unfold bsize at 1, traf_box, raw, headed, children_of. cbn [body traf n_left n_head n_right n_before n_moof_before n_moof_after n_after].
    rewrite fmap_app, fmap_cons. cbn [child_box]. fold L R. rewrite renders_app, renders_cons, !len_app, len_render; [lia|].
    split; [done|lia]. }
  rewrite (frame_fragment (headed n)), Htb'. replace (bsize (moof_box (raw (headed n)))) with (bsize (moof_box (raw n)) + -4); [done|].
  rewrite Hmb, bsize_moof_of; [rewrite Htb'; cbn [raw headed moof_before moof_after n_moof_before n_moof_after]; lia|].
  split; [done|rewrite Htb'; lia].
Qed.

Definition kids : list child := children_of (headed n).

Lemma kids_growth : (growth (n_head n) <$> kids) = growth (n_head n) <$> children_of n.
Proof. unfold kids, children_of, headed. cbn [n_left n_head n_right]. by rewrite !fmap_app, !fmap_cons. Qed.

Lemma kids_room : room (n_head n) kids = room (n_head n) (children_of n).
Proof. unfold room, kids, children_of, headed. cbn [n_left n_head n_right]. by rewrite !fmap_app, !fmap_cons. Qed.

Lemma normalized_kids :
  children_of (normalized n) = normal (n_head n) (head_growth n + runs_growth n) <$> kids.
Proof. unfold kids, children_of, normalized, headed. cbn [n_left n_head n_right]. by rewrite fmap_app, fmap_cons. Qed.

Lemma new_head_ok : box_ok (tfhd_box (no_description (n_head n))).
Proof.
  destruct head_ok as [_ Hz]. split; [done|]. pose proof (no_description_size (n_head n)) as Hd.
  destruct (has (th_flags (n_head n)) 2); lia.
Qed.

Lemma kids_ok : children_ok kids.
Proof.
  pose proof children_all_ok as Hall. unfold kids, children_of, headed in *. cbn [n_left n_head n_right].
  rewrite (cons_middle (COther _)) in Hall. rewrite (cons_middle (COther _)). rewrite !children_ok_app in Hall. destruct Hall as (Hl & _ & Hr). rewrite !children_ok_app. split; [done|]. split; [|done].
  split; [by apply Forall_singleton, new_head_ok|]. split.
  - intros t H. apply list_elem_of_singleton in H. done.
  - intros b H. apply list_elem_of_singleton in H as [= ->]. by vm_compute.
Qed.

Lemma kids_len : len (renders (child_box <$> kids)) = len (renders (child_box <$> children_of n)) + head_growth n.
Proof.
  rewrite !len_renders_sum by (apply kids_ok || apply children_all_ok). pose proof (no_description_size (n_head n)) as Hd.
  unfold kids, children_of, headed. cbn [n_left n_head n_right]. rewrite !fmap_app, !fmap_cons, !sumZ_app.
  unfold sumZ at 2 4. cbn [foldr child_box]. unfold sumZ, head_growth. destruct (has (th_flags (n_head n)) 2); lia.
Qed.

Lemma growth_le c : c ∈ kids -> growth (n_head n) c <= room (n_head n) kids.
Proof.
  intros H. unfold room. generalize (n_head n) as h. intros h. induction kids as [|c' l IH]; [by apply not_elem_of_nil in H|].
  rewrite fmap_cons. unfold sumZ in *. cbn [foldr]. pose proof (room_nonneg h l) as Hr. unfold room, sumZ in Hr.
  apply elem_of_cons in H as [->|H]; [lia|]. specialize (IH H). lia.
Qed.

Lemma normal_ok delta : Forall box_ok (child_box <$> (normal (n_head n) delta <$> kids)).
Proof.
  destruct fragment_bounds as (Hms & Hts & Htb & Hmb & Hl). pose proof (n_room n Hn) as Hroom.
  change (sumZ _) with (room (n_head n) (children_of n)) in Hroom. rewrite <-kids_room in Hroom.
  pose proof kids_ok as [Hb _]. pose proof kids_len as Hk. rewrite !Forall_fmap in *. rewrite Forall_forall in *.
  intros c Hc. cbn. specialize (Hb c Hc) as [Hkind _]. split; [by rewrite normal_kind|]. rewrite normal_size.
  pose proof (growth_le c Hc). assert (bsize (child_box c) <= len (renders (child_box <$> kids))).
  { rewrite len_renders_sum by apply kids_ok. clear -Hc. induction kids as [|c' l IH]; [by apply not_elem_of_nil in Hc|].
    rewrite !fmap_cons. unfold sumZ in *. cbn [foldr]. pose proof (bsize_ge (child_box c')).
    assert (0 <= foldr Z.add 0 (bsize <$> (child_box <$> l))).
    { apply sumZ_nonneg. rewrite !Forall_fmap. apply Forall_true. intros x. cbn. pose proof (bsize_ge (child_box x)). lia. }
    apply elem_of_cons in Hc as [->|Hc]; [lia|]. specialize (IH Hc). lia. }
  pose proof (len_nonneg (renders (n_moof_before n))). pose proof (len_nonneg (renders (n_moof_after n))).
  unfold head_growth in Hk. destruct (has _ 2); lia.
Qed.

Lemma normal_len delta :
  len (renders (child_box <$> (normal (n_head n) delta <$> kids))) = len (renders (child_box <$> kids)) + runs_growth n.
Proof.
  rewrite !len_renders_sum by (apply kids_ok || apply normal_ok). unfold runs_growth. rewrite <-kids_growth.
  induction kids as [|c l IH]; [done|]. rewrite !fmap_cons. unfold sumZ in *. cbn [foldr]. rewrite normal_size, IH. lia.
Qed.

(** The collected runs account for the growth, and there are none when no run is rewritten. *)
Lemma rebuilds_delta o (cs : list child) : trun_delta (rebuilds_of (n_head n) o cs) = sumZ (growth (n_head n) <$> cs).
Proof.
  revert o. induction cs as [|c cs IH]; intros o; [done|]. cbn [rebuilds_of]. unfold trun_delta in *.
  rewrite fmap_app, sumZ_app, IH, fmap_cons. unfold sumZ at 3. cbn [foldr]. fold (sumZ (growth (n_head n) <$> cs)). f_equal.
  destruct c as [t|b]; cbn [rebuilds_one growth]; [|done]. destruct (rebuilt (n_head n) t); [|done].
  rewrite fmap_cons, fmap_nil. unfold sumZ. cbn [foldr rb_trun rb_len]. rewrite len_render_run, rebuild_size. lia.
Qed.

Lemma no_rebuilds o (cs : list child) delta :
  rebuilds_of (n_head n) o cs = [] ->
  (patched (n_head n) delta <$> cs) = normal (n_head n) delta <$> cs /\ sumZ (growth (n_head n) <$> cs) = 0.
Proof.
  revert o. induction cs as [|c cs IH]; intros o H; [done|]. cbn [rebuilds_of] in H. apply app_nil in H as [Hc H].
  destruct (IH _ H) as [H1 H2]. rewrite !fmap_cons. unfold sumZ in *. cbn [foldr]. rewrite H1, H2.
  assert (Hg : growth (n_head n) c = 0 /\ patched (n_head n) delta c = normal (n_head n) delta c).
  { unfold normal. destruct c as [t|b]; [|done]. cbn [rebuilds_one growth patched] in *. destruct (rebuilt (n_head n) t) eqn:E; [done|].
    split; [done|]. cbn [negb andb]. destruct (has (tr_flags t) 1); cbn [replaced]; [|by rewrite E].
    by replace (rebuilt (n_head n) (with_offset t (wrap 32 (tr_offset t + delta)))) with false. }
  destruct Hg as [-> ->]. done.
Qed.

Lemma patched_zero (cs : list child) : (forall t, CRun t ∈ cs -> trun_ok t) -> (patched (n_head n) 0 <$> cs) = cs.
Proof.
  induction cs as [|c cs IH]; intros Hok; [done|]. rewrite fmap_cons, IH by (intros t Ht; apply Hok; by right). f_equal.
  destruct c as [t|b]; [|done]. cbn [patched]. destruct (_ && _)%bool; [|done]. f_equal.
  destruct (Hok t ltac:(left)) as (_ & Ho & _). rewrite Z.add_0_r, wrap_small by done. apply with_own_offset.
Qed.

Definition delta : Z := head_growth n + runs_growth n.

Lemma runs_growth_le : runs_growth n <= room (n_head n) kids.
Proof.
  unfold runs_growth, room. rewrite <-kids_growth. induction kids as [|c l IH]; [done|].
  rewrite !fmap_cons. unfold sumZ in *. cbn [foldr]. lia.
Qed.

(** The sizes in the headers: of the boxes that are there, of the intermediate buffer, and of the result. *)
Lemma result_sizes :
  bsize (traf_box (raw (headed n))) = bsize (traf_box (raw n)) + head_growth n /\
  bsize (moof_box (raw (headed n))) = bsize (moof_box (raw n)) + head_growth n /\
  bsize (traf_box (raw (normalized n))) = bsize (traf_box (raw n)) + delta /\
  bsize (moof_box (raw (normalized n))) = bsize (moof_box (raw n)) + delta.
Proof.
  pose proof fragment_bounds as (_ & _ & Htb & Hmb & _). pose proof kids_len as Hk.
  assert (Hth : bsize (traf_box (raw (headed n))) = bsize (traf_box (raw n)) + head_growth n)
    by (change (bsize (traf_box (raw (headed n)))) with (8 + len (renders (child_box <$> kids))); lia).
  assert (Ht : bsize (traf_box (raw (normalized n))) = bsize (traf_box (raw n)) + delta).
  { change (bsize (traf_box (raw (normalized n)))) with (8 + len (renders (child_box <$> children_of (normalized n)))).
    rewrite normalized_kids. fold delta. rewrite normal_len. unfold delta. lia. }
  assert (Hroom := n_room n Hn). change (sumZ _) with (room (n_head n) (children_of n)) in Hroom. rewrite <-kids_room in Hroom.
  pose proof runs_growth_le as Hle. pose proof (len_nonneg (renders (n_moof_before n))). pose proof (len_nonneg (renders (n_moof_after n))).
  pose proof (room_nonneg (n_head n) kids). assert (Hhg : head_growth n <= 0) by (unfold head_growth; destruct (has _ 2); lia).
  unfold delta in Ht |- *.
  split_and!; [done| |done|]; rewrite bsize_moof_of, ?Ht, ?Hth;
    try (split; [done|rewrite ?Ht, ?Hth; lia]);
    change (moof_before (raw (_ n))) with (n_moof_before n); change (moof_after (raw (_ n))) with (n_moof_after n); lia.
Qed.

Lemma result_frame :
  render_fragment (raw (normalized n)) =
  frame n (bsize (moof_box (raw (headed n))) + runs_growth n) (bsize (traf_box (raw (headed n))) + runs_growth n)
    (renders (child_box <$> (normal (n_head n) delta <$> kids))).
Proof.
  rewrite frame_fragment, normalized_kids. fold delta. destruct result_sizes as (-> & -> & -> & ->).
  unfold delta. by rewrite !Z.add_assoc.
Qed.

Definition head_defaults : TfhdDefaults :=
  mkTfhdDefaults (if has (th_flags (n_head n)) 8 then Some (th_duration (n_head n)) else None)
                 (if has (th_flags (n_head n)) 16 then Some (th_size (n_head n)) else None).

Lemma frame_len ms ts bs : len (frame n ms ts bs) = traf_at n + 8 + len bs + len (behind n).
Proof. unfold frame. rewrite !len_app, len_around. lia. Qed.

Lemma defaults_render ms ts h l :
  h = n_head n \/ h = no_description (n_head n) ->
  let bs := (child_box <$> n_left n) ++ tfhd_box h :: (child_box <$> n_right n) in
  Forall box_ok bs -> len (frame n ms ts (renders bs)) < 2 ^ 62 -> 8 + len (renders bs) <= l < 2 ^ 32 ->
  parse_tfhd_defaults (frame n ms ts (renders bs)) (traf_at n) l = Done (Some head_defaults).
Proof.
  intros Hh bs Hb Hlen Hl. pose proof (n_tfhd n Hn) as (Hf & Hd & Hs). pose proof (len_nonneg (renders bs)).
  pose proof (len_nonneg (behind n)). rewrite frame_len in Hlen.
  assert (Hat : 0 <= traf_at n).
  { unfold traf_at, moof_at. pose proof (len_nonneg (renders (n_before n))). pose proof (len_nonneg (renders (n_moof_before n))). lia. }
  apply (parse_tfhd_wider _ _ (8 + len (renders bs))); [lia..|]. unfold frame.
  pose proof (parse_tfhd_render (around n ms ts) (child_box <$> n_left n) (tfhd_box h) (child_box <$> n_right n) (behind n)
    (th_flags h) (th_track h) (th_base h) (th_sdi h) (th_duration h) (th_size h) (traf_at n) (8 + len (renders bs))) as Hp.
  fold bs in Hp. rewrite Hp; clear Hp; [|done| |done|apply no_tfhd_left|done| | | |done| |done].
  - unfold head_defaults. destruct Hh as [->| ->]; [done|]. by rewrite !has_no_description by tauto.
  - rewrite !len_app, len_around. lia.
  - destruct Hh as [->| ->]; [done|]. unfold no_description. cbn [th_flags]. rewrite Z.ldiff_land.
    rewrite <-(Z.mod_small (th_flags (n_head n)) (2 ^ 24)), <-Z.land_ones, <-Z.land_assoc, (Z.land_comm (Z.ones 24)),
      Z.land_assoc, Z.land_ones by lia. by apply Z.mod_pos_bound.
  - by destruct Hh as [->| ->].
  - by destruct Hh as [->| ->].
  - by rewrite len_around.
Qed.

Lemma update_inside fragment a d : a + 4 <= len fragment -> 0 <= a < 2 ^ 62 -> update_if_inside fragment a d = update_word fragment a d.
Proof. intros H H0. unfold update_if_inside. nowrap. by rewrite (proj2 (Z.leb_le _ _)). Qed.

(** The loops, once the description index is gone. *)
Lemma rewrite_runs ms ts fragment traf_end :
  fragment = frame n ms ts (renders (child_box <$> kids)) -> traf_end = traf_at n + 8 + len (renders (child_box <$> kids)) ->
  0 <= ms < 2 ^ 32 -> 0 <= ts < 2 ^ 32 -> len fragment + room (n_head n) kids < 2 ^ 62 ->
  parse_tfhd_defaults fragment (traf_at n) (bsize (traf_box (raw n))) = Done (Some head_defaults) ->
  (rebuilds ← collect_rebuilds (S (length fragment)) fragment (traf_at n) (bsize (traf_box (raw n))) head_defaults (traf_at n ⊕ 8) traf_end;
   if decide (rebuilds = []) then
     if head_growth n =? 0 then mret fragment
     else patch_offsets (S (length fragment)) fragment (traf_at n ⊕ 8) traf_end (head_growth n) []
   else
     fragment ← patch_offsets (S (length fragment)) fragment (traf_at n ⊕ 8) traf_end (head_growth n + trun_delta rebuilds) (rb_off <$> rebuilds);
     fragment ← splice_runs fragment (reverse rebuilds) (head_growth n + trun_delta rebuilds);
     fragment ← update_if_inside fragment (traf_at n) (trun_delta rebuilds);
     update_if_inside fragment (moof_at n) (trun_delta rebuilds)) =
  Done (frame n (ms + runs_growth n) (ts + runs_growth n) (renders (child_box <$> (normal (n_head n) delta <$> kids)))).
Proof.
  intros Hfr -> Hms Hts Hlen Hd. pose proof kids_ok as Hok. pose proof (room_nonneg (n_head n) kids) as Hr0.
  assert (Hat : 0 <= moof_at n /\ moof_at n + 8 <= traf_at n).
  { unfold traf_at, moof_at. pose proof (len_nonneg (renders (n_before n))). pose proof (len_nonneg (renders (n_moof_before n))). lia. }
  pose proof (len_nonneg (renders (child_box <$> kids))). pose proof (len_nonneg (behind n)).
  assert (Hl : len fragment = traf_at n + 8 + len (renders (child_box <$> kids)) + len (behind n)) by (subst fragment; apply frame_len).
  assert (Hfuel : (length kids < S (length fragment))%nat).
  { pose proof (renders_length _ (proj1 Hok)) as Hx. rewrite length_fmap in Hx. unfold len in *. lia. }
  nowrap. pose proof (len_around n ms ts) as Ha. set (A := around n ms ts) in *. unfold frame in Hfr. fold A in Hfr.
  pose proof (collect_rebuilds_render (n_head n) A (behind n) (traf_at n) (bsize (traf_box (raw n))) head_defaults [] kids
    (S (length fragment))) as Hc. cbv zeta in Hc. cbn [app] in Hc.
  replace (len A + len (renders (child_box <$> []))) with (len A) in Hc by (rewrite fmap_nil, renders_nil, len_nil; lia).
  rewrite <-Hfr, Ha in Hc.
  rewrite Hc; [|done|lia|done| | |done]; [|unfold head_defaults, default_size, default_duration; cbn; by destruct (has _ _)..].
  run_simpl. rewrite rebuilds_delta, kids_growth. fold (runs_growth n). fold delta.
  pose proof (fun dl => patch_offsets_render (n_head n) dl (behind n) kids A [] (S (length fragment)) Hok) as Hpatch.
  rewrite <-Hfr, Ha in Hpatch. cbn [app] in Hpatch.
  case_decide as Hnil.
  - destruct (no_rebuilds _ _ delta Hnil) as [Hsame Hzero]. rewrite kids_growth in Hzero. fold (runs_growth n) in Hzero.
    rewrite Hnil in Hpatch. cbn [fmap list_fmap] in Hpatch. rewrite <-Hsame. unfold delta. rewrite Hzero, !Z.add_0_r.
    destruct (Z.eqb_spec (head_growth n) 0) as [Hg|Hg].
    + rewrite Hg, patched_zero by apply Hok. subst fragment. done.
    + apply Hpatch; [lia|done|constructor].
  - rewrite Hpatch by (lia || done || constructor). run_simpl.
    pose proof (splice_runs_render (n_head n) delta kids A (behind n) Hok) as Hsplice. rewrite Ha in Hsplice.
    rewrite Hsplice by lia. run_simpl. change (A ++ renders ?b ++ behind n) with (frame n ms ts (renders b)).
    pose proof (frame_len ms ts (renders (child_box <$> (normal (n_head n) delta <$> kids)))) as Hfl.
    pose proof (len_nonneg (renders (child_box <$> (normal (n_head n) delta <$> kids)))).
    rewrite update_inside, update_traf by (done || lia). run_simpl.
    rewrite update_inside, update_moof by (done || lia || (rewrite frame_len; lia)). done.
Qed.

Lemma normalize_spec : normalize_fragment (render_fragment (raw n)) = Done (render_fragment (raw (normalized n))).
Proof.
  destruct fragment_bounds as (Hms & Hts & Htb & Hmb & Hl). pose proof (n_fragment n Hn) as Hf.
  pose proof (n_total n Hn) as Htot. change (sumZ _) with (room (n_head n) (children_of n)) in Htot. rewrite <-kids_room in Htot.
  pose proof (room_nonneg (n_head n) kids). pose proof kids_len as Hk. pose proof runs_growth_le.
  pose proof (len_nonneg (renders (n_before n))). pose proof (len_nonneg (renders (n_after n))).
  pose proof (len_nonneg (renders (n_moof_before n))). pose proof (len_nonneg (renders (n_moof_after n))).
  unfold normalize_fragment. rewrite (require_box_found _ _ _ _ _ _ (find_moof _ Hf [])). run_simpl.
  rewrite (require_box_found _ _ _ _ _ _ (find_traf _ Hf [])). run_simpl. rewrite len_moof_pre. cbn [raw before moof_before].
  change (len (renders (n_before n)) + 8 + len (renders (n_moof_before n))) with (traf_at n).
  change (len (renders (n_before n))) with (moof_at n).
  assert (Hhg : -4 <= head_growth n <= 0) by (unfold head_growth; destruct (has _ 2); lia).
  assert (Hd : parse_tfhd_defaults (render_fragment (raw n)) (traf_at n) (bsize (traf_box (raw n))) = Done (Some head_defaults)).
  { pose proof (ok_size _ Hf). rewrite frame_fragment, children_boxes. apply defaults_render; [by left| | |].
    - rewrite <-children_boxes. apply (ok_traf _ Hf).
    - rewrite <-children_boxes, <-frame_fragment. lia.
    - rewrite <-children_boxes. lia. }
  rewrite Hd. run_simpl. rewrite drop_description_render. run_simpl.
  assert (Hth : bsize (traf_box (raw (headed n))) = 8 + len (renders (child_box <$> kids))) by done.
  destruct result_sizes as (_ & Hmh & _).
  assert (Hbehind : len (behind n) = len (renders (n_moof_after n)) + len (renders (n_after n))) by (unfold behind; by lens).
  pose proof (len_nonneg (renders (child_box <$> kids))).
  pose proof (frame_fragment (headed n)) as Hfr. fold kids in Hfr. change (frame (headed n)) with (frame n) in Hfr.
  rewrite result_frame. rewrite wrap_small by (unfold in_u, traf_at, moof_at in *; lia).
  assert (Htot' : len (render_fragment (raw n)) = traf_at n + 8 + len (renders (child_box <$> children_of n)) + len (behind n))
    by (rewrite frame_fragment; apply frame_len).
  apply rewrite_runs; [done|lia|lia| | |].
  - pose proof (bsize_ge (traf_box (raw (headed n)))). lia.
  - rewrite Hfr, frame_len. lia.
  - rewrite Hfr. unfold kids at 1, children_of, headed. cbn [n_left n_head n_right]. rewrite fmap_app, fmap_cons. cbn [child_box].
    assert (Hkb : child_box <$> kids = (child_box <$> n_left n) ++ tfhd_box (no_description (n_head n)) :: (child_box <$> n_right n))
      by (unfold kids, children_of, headed; cbn [n_left n_head n_right]; by rewrite fmap_app, fmap_cons).
    apply defaults_render; [by right|rewrite <-Hkb; apply kids_ok|rewrite <-Hkb, frame_len; lia|rewrite <-Hkb; lia].
Qed.
End Whole.

(** The sizes and durations of the samples of a run, with the defaults of its fragment. *)
Definition sizes_in (h : tfhd_fields) (t : trun_fields) : list Z :=
  (fun s => if has (tr_flags t) 512 then s_size s else default_size h) <$> tr_samples t.
Definition durations_in (h : tfhd_fields) (t : trun_fields) : list Z :=
  (fun s => if has (tr_flags t) 256 then s_duration s else default_duration h) <$> tr_samples t.

Lemma no_description_defaults h :
  default_size (no_description h) = default_size h /\ default_duration (no_description h) = default_duration h.
Proof. unfold default_size, default_duration. rewrite !has_no_description by tauto. done. Qed.

Lemma normal_run h d t :
  exists t', normal h d (CRun t) = CRun t' /\ sizes_in (no_description h) t' = sizes_in h t /\
    (has (tr_flags t) 256 = false -> durations_in (no_description h) t' = durations_in h t) /\
    rebuilt (no_description h) t' = false.
Proof.
  destruct (no_description_defaults h) as [Hs Hd]. unfold sizes_in, durations_in, rebuilt. rewrite Hs, Hd.
  unfold normal. cbn [patched]. destruct (rebuilt h t) eqn:E; cbn [negb andb].
  - exists (rebuild h t (signed_offset t + d)). cbn [replaced]. rewrite E. split_and!; [done| | |done]; unfold rebuild; cbn [tr_flags tr_samples];
      rewrite <-list_fmap_compose.
    + unfold rebuilt in E. destruct (has (tr_flags t) 512); [done|]. by apply list_fmap_ext.
    + intros ->. by apply list_fmap_ext.
  - destruct (has (tr_flags t) 1); cbn [replaced].
    + change (rebuilt h (with_offset t (wrap 32 (tr_offset t + d)))) with (rebuilt h t). rewrite E.
      eexists. split; [done|]. cbn [with_offset tr_flags tr_samples]. done.
    + rewrite E. by eexists.
Qed.

(** ** Theorems *)

(** C40: normalising rewrites the fields and nothing else.  For a fragment made of boxes the result is the rendering of
    the same fragment whose header has no description index and whose runs carry the default sizes they
    relied on, with both sizes corrected; every sample keeps its size, and its duration unless its run
    had durations of its own, every data offset moves with the data, and no run is left to rewrite. *)
Theorem normalize_refines (n : NFragment) :
  n_ok n ->
  normalize_fragment (render_fragment (raw n)) = Done (render_fragment (raw (normalized n))) /\
  (forall t, CRun t ∈ children_of n -> exists t', normal (n_head n) (delta n) (CRun t) = CRun t' /\
     sizes_in (n_head (normalized n)) t' = sizes_in (n_head n) t /\
     (has (tr_flags t) 256 = false -> durations_in (n_head (normalized n)) t' = durations_in (n_head n) t) /\
     rebuilt (n_head (normalized n)) t' = false) /\
  has (th_flags (n_head (normalized n))) 2 = false /\
  (forall a b, len (renders (n_before n)) + bsize (moof_box (raw n)) <= a <= b ->
     slice (render_fragment (raw (normalized n))) (a + delta n) (b + delta n) = slice (render_fragment (raw n)) a b).
Proof.
  intros Hn. split_and!; [by apply normalize_spec|intros t _; apply normal_run|apply no_description_cleared|].
  intros a b Hab. destruct (result_sizes n Hn) as (_ & _ & _ & Hm).
  destruct (fragment_tail (raw n)) as (x & -> & Hx). destruct (fragment_tail (raw (normalized n))) as (y & -> & Hy).
  cbn [raw normalized before after n_before n_after] in *. change (raw (mkNFragment _ _ _ _ _ _ _)) with (raw (normalized n)) in Hy.
  replace a with (len x + (a - len x)) at 2 by lia. replace b with (len x + (b - len x)) at 2 by lia.
  replace (a + delta n) with (len y + (a - len x)) by lia. replace (b + delta n) with (len y + (b - len x)) by lia.
  by rewrite !slice_pre by lia.
Qed.

(** A header with a description index; a run that relies on the default size, with durations of its own or not,
    and one that carries its sizes. *)
Definition demo_normal (flags : Z) : NFragment :=
  mkNFragment [mkBox (lit "styp") [1]] [mkBox (lit "mfhd") (to_be 4 0 ++ to_be 4 1)] []
    (mkTfhdFields 0x02001a 1 0 1 1536 3)
    [CRun (mkTrunFields flags 132 0 [mkTrunSample 1000 0 0 0; mkTrunSample 2000 0 0 0]); COther (mkBox (lit "free") []);
     CRun (mkTrunFields 0x201 138 0 [mkTrunSample 0 2 0 0])] [] [mkBox (lit "mdat") [1; 2; 3; 4; 5; 6; 7; 8]].

Lemma demo_normal_ok flags : flags = 1 \/ flags = 0x101 -> n_ok (demo_normal flags).
Proof.
  intros Hf. split.
  - destruct Hf as [-> | ->]; split; try (by vm_compute);
      repeat (apply Forall_cons; split; [first [by split; vm_compute|by vm_compute|by intros ?; vm_compute|
        intros H; by vm_compute in H|intros [H|H]; by vm_compute in H]|]); apply Forall_nil_2.
  - by split_and!; vm_compute.
  - intros t Ht. unfold children_of, demo_normal in Ht. cbn [n_left n_right n_head app] in Ht.
    rewrite !elem_of_cons in Ht. destruct Ht as [Ht|[Ht|[Ht|[Ht|Ht]]]]; try discriminate Ht; [injection Ht as ->..|by apply not_elem_of_nil in Ht];
      destruct Hf as [-> | ->]; (split_and!; [by vm_compute..|]); repeat (apply Forall_cons; split; [by vm_compute|]); apply Forall_nil_2.
  - intros b Hb. unfold demo_normal in Hb. cbn [n_left n_right app] in Hb. rewrite !elem_of_cons in Hb.
    destruct Hb as [Hb|[Hb|[Hb|Hb]]]; try discriminate Hb; [injection Hb as ->; by split; vm_compute|by apply not_elem_of_nil in Hb].
  - destruct Hf as [-> | ->]; by vm_compute.
  - destruct Hf as [-> | ->]; by vm_compute.
Qed.

(** The header loses four bytes and the first run grows by sixteen: the samples move by twelve. *)
Lemma normalize_refines_witness :
  normalize_fragment (render_fragment (raw (demo_normal 1))) = Done (render_fragment (raw (normalized (demo_normal 1)))) /\
  delta (demo_normal 1) = 12 /\
  children_of (normalized (demo_normal 1)) =
    [COther (tfhd_box (mkTfhdFields 0x020018 1 0 1 1536 3));
     CRun (mkTrunFields 0x301 144 0 [mkTrunSample 1536 3 0 0; mkTrunSample 1536 3 0 0]); COther (mkBox (lit "free") []);
     CRun (mkTrunFields 0x201 150 0 [mkTrunSample 0 2 0 0])].
Proof.
  split; [|split; [by vm_compute|vm_compute; reflexivity]].
  exact (proj1 (normalize_refines (demo_normal 1) (demo_normal_ok 1 (or_introl eq_refl)))).
Defined.

(** A run that has durations but relies on the default size loses its durations: its samples, 1000 and 2000 ticks
    long, all get the default of the fragment. *)
Theorem normalize_forgets_durations :
  exists n t t', n_ok n /\ CRun t ∈ children_of n /\ CRun t' ∈ children_of (normalized n) /\
    normalize_fragment (render_fragment (raw n)) = Done (render_fragment (raw (normalized n))) /\
    durations_in (n_head n) t = [1000; 2000] /\ durations_in (n_head (normalized n)) t' = [1536; 1536].
Proof.
  exists (demo_normal 0x101), (mkTrunFields 0x101 132 0 [mkTrunSample 1000 0 0 0; mkTrunSample 2000 0 0 0]),
    (mkTrunFields 0x301 136 0 [mkTrunSample 1536 3 0 0; mkTrunSample 1536 3 0 0]).
  assert (Hok : n_ok (demo_normal 0x101)) by (apply demo_normal_ok; by right).
  split_and!; [done| | |by apply normalize_spec|by vm_compute..].
  - unfold children_of, demo_normal. cbn [n_left n_right n_head app]. right. left.
  - replace (children_of (normalized (demo_normal 0x101))) with
      [COther (tfhd_box (mkTfhdFields 0x020018 1 0 1 1536 3));
       CRun (mkTrunFields 0x301 136 0 [mkTrunSample 1536 3 0 0; mkTrunSample 1536 3 0 0]); COther (mkBox (lit "free") []);
       CRun (mkTrunFields 0x201 142 0 [mkTrunSample 0 2 0 0])] by (vm_compute; reflexivity). right. left.
Qed.
