(* ===== verification/FairPlay.v ===== *)
(** * FairPlay: decrypting the fragments of the wrapper (crates/apple/src/wrapper/decryptor.rs)

    [decrypt_fragment].  The block cipher of the decryption template is a parameter that maps the blocks of
    a protected part to their plain text. *)
From S2P Require Import Prelude Text Bytes Boxes TrackRuns CencStrip Normalize FragmentLayout Senc.

#[local] Open Scope rust_scope.

(** ** The sample table without vectors *)

(** A [SubSample] is the pair of its clear and protected lengths, a [SampleEncryptionInfo] the list of them. *)
Fixpoint senc_subs (n : nat) (data : list Z) (cur : Z) : run (option (list (Z * Z) * Z)) :=
  match n with
  | O => mret (Some ([], cur))
  | S k =>
      if len data <? cur ⊕ 6 then mret None else
      clear_bytes ← read_be data cur 2;
      protected_bytes ← read_be data (cur ⊕ 2) 4;
      rest ← senc_subs k data (cur ⊕ 6);
      mret (match rest with
            | Some (l, cur) => Some ((clear_bytes, protected_bytes) :: l, cur)
            | None => None
            end)
  end.

Fixpoint senc_entries (n : nat) (has_subsamples : bool) (data : list Z) (cur : Z) : run (option (list (list (Z * Z)))) :=
  match n with
  | O => mret (Some [])
  | S k =>
      if has_subsamples then
        if len data <? cur ⊕ 2 then mret None else
        sub_count ← read_be data cur 2;
        subs ← senc_subs (Z.to_nat sub_count) data (cur ⊕ 2);
        match subs with
        | None => mret None
        | Some (subs, cur) => rest ← senc_entries k has_subsamples data cur; mret (match rest with Some l => Some (subs :: l) | None => None end)
        end
      else rest ← senc_entries k has_subsamples data cur; mret (match rest with Some l => Some ([] :: l) | None => None end)
  end.

Definition parse_senc (data : list Z) (senc_start senc_len : Z) : run (option (list (list (Z * Z)))) :=
  if ((senc_len <? 16) || (len data <? senc_start ⊕ senc_len))%bool then mret None else
  flags ← read_be data (senc_start ⊕ 9) 3;
  sample_count ← read_be data (senc_start ⊕ 12) 4;
  senc_entries (Z.to_nat sample_count) (has flags 2) data (senc_start ⊕ 16).

(** ** Sizes taken from the sample table *)

Definition sub_size (subs : list (Z * Z)) : Z := foldl (fun acc s => acc ⊕ (s.1 ⊕ s.2)) 0 subs.

(** The first run takes its sizes from the table when it has none; the others are left alone. *)
Definition derive_sizes (encs : list (list (Z * Z))) (trun_idx : nat) (t : TrunInfo) : TrunInfo :=
  if ((sample_count t =? 0) || negb (forallb (Z.eqb 0) (sample_sizes t)))%bool then t else
  if (0 <? trun_idx)%nat then t else
  let end_idx := Z.min (sample_count t) (len encs) in
  let derived := sub_size <$> take (Z.to_nat end_idx) encs in
  if (forallb (Z.ltb 0) derived && (len derived =? sample_count t))%bool
  then mkTrunInfo (sample_count t) (data_offset_field_pos t) (data_offset t) derived else t.

Fixpoint parse_truns (data : list Z) (traf_off traf_len : Z) (boxes : list (Z * Z)) : run (list TrunInfo) :=
  match boxes with
  | [] => mret []
  | (t_off, t_len) :: rest =>
      t ← parse_trun data traf_off traf_len t_off t_len;
      match t with
      | None => Fail (Message (lit "Failed to parse trun box"))
      | Some trun => truns ← parse_truns data traf_off traf_len rest; mret (trun :: truns)
      end
  end.

(** ** Decryption in place *)

Section Cipher.
Variable decrypt : list Z -> list Z.

(** The whole blocks of [prot] bytes at [pos] of a sample. *)
Definition decrypt_part (sample : list Z) (pos prot : Z) : run (list Z) :=
  let head := prot / 16 * 16 in
  if 0 <? head then
    ct ← must (slice sample pos (pos ⊕ head));
    pt ← must (slice (decrypt ct) 0 head);
    must (store sample pos pt)
  else mret sample.

Fixpoint decrypt_parts (sample : list Z) (pos : Z) (subs : list (Z * Z)) : run (list Z) :=
  match subs with
  | [] => mret sample
  | (clear_bytes, prot) :: rest =>
      let pos := pos ⊕ clear_bytes in
      if len sample <? pos ⊕ prot then mret sample else
      sample ← decrypt_part sample pos prot;
      decrypt_parts sample (pos ⊕ prot) rest
  end.

Definition decrypt_one (enc_info : option (list (list (Z * Z)))) (idx : Z) (sample : list Z) : run (list Z) :=
  match enc_info with
  | Some encs =>
      match get encs idx with
      | Some [] => decrypt_part sample 0 (len sample)
      | Some subs => decrypt_parts sample 0 subs
      | None => mret sample
      end
  | None => decrypt_part sample 0 (len sample)
  end.

Definition beyond_fragment (idx stop length : Z) : str :=
  lit "Sample " ++ show_u idx ++ lit " offset " ++ show_u stop ++ lit " exceeds fragment boundary " ++ show_u length.

Fixpoint decrypt_run (enc_info : option (list (list (Z * Z)))) (out : list Z) (sizes : list Z) (sample_offset idx : Z) :
    run (list Z * (Z * Z)) :=
  match sizes with
  | [] => mret (out, (sample_offset, idx))
  | sample_size :: rest =>
      let stop := sample_offset ⊕ sample_size in
      if len out <? stop then Fail (Message (beyond_fragment idx stop (len out))) else
      sample ← must (slice out sample_offset stop);
      sample ← decrypt_one enc_info idx sample;
      out ← must (store out sample_offset sample);
      decrypt_run enc_info out rest stop (idx ⊕ 1)
  end.

Fixpoint decrypt_truns (enc_info : option (list (list (Z * Z)))) (out : list Z) (moof_off : Z) (truns : list TrunInfo)
    (prev_sample_end idx : Z) : run (list Z) :=
  match truns with
  | [] => mret out
  | trun :: rest =>
      let sample_offset := if 0 <? data_offset trun then moof_off ⊕ data_offset trun else prev_sample_end in
      r ← decrypt_run enc_info out (sample_sizes trun) sample_offset idx;
      let '(out, (sample_offset, idx)) := r : list Z * (Z * Z) in
      decrypt_truns enc_info out moof_off rest sample_offset idx
  end.

(** ** Removal of the encryption boxes *)

Fixpoint collect_each (out : list Z) (start stop : Z) (kinds : list str) : run (list (Z * Z)) :=
  match kinds with
  | [] => mret []
  | k :: kinds' =>
      l ← find_all_child_boxes out start stop k;
      rest ← collect_each out start stop kinds';
      mret (l ++ rest)
  end.

Fixpoint move_truns (out : list Z) (truns : list TrunInfo) (removed : Z) : run (list Z) :=
  match truns with
  | [] => mret out
  | trun :: rest =>
      out ← match data_offset_field_pos trun with
            | Some pos => write_be out pos 4 (swrap 32 (data_offset trun - swrap 32 removed))
            | None => mret out
            end;
      move_truns out rest removed
  end.

Fixpoint drain_inside (out : list Z) (l : list (Z * Z)) : run (list Z) :=
  match l with
  | [] => mret out
  | (b_off, b_len) :: rest =>
      if b_off ⊕ b_len <=? len out then out ← must (drain out b_off (b_off ⊕ b_len)); drain_inside out rest
      else drain_inside out rest
  end.

Definition remove_boxes (out : list Z) (truns : list TrunInfo) (moof_off moof_len traf_off traf_len : Z) : run (list Z) :=
  tables ← collect_each out (traf_off ⊕ 8) (traf_off ⊕ traf_len) [lit "senc"; lit "saiz"; lit "saio"];
  groups ← collect (S (length out)) true (is_seam_group out) out (traf_off ⊕ 8) (traf_off ⊕ traf_len);
  uuids ← find_all_child_boxes out (traf_off ⊕ 8) (traf_off ⊕ traf_len) (lit "uuid");
  psshs ← find_all_child_boxes out (moof_off ⊕ 8) (moof_off ⊕ moof_len) (lit "pssh");
  let removed_from_traf := sizes (tables ++ groups ++ uuids) in
  let removed_from_moof := sizes (tables ++ groups ++ uuids ++ psshs) in
  if removed_from_moof =? 0 then mret out else
  out ← move_truns out truns removed_from_moof;
  out ← update_word out traf_off (- wrap 32 removed_from_traf);
  out ← update_word out moof_off (- wrap 32 removed_from_moof);
  drain_inside out (sort_desc (tables ++ groups ++ uuids ++ psshs)).

Definition decrypt_fragment (fragment_data : list Z) : run (list Z) :=
  let out := fragment_data in
  let total_len := len out in
  moof ← require_box out 0 total_len (lit "moof") (lit "Missing moof box in fragment");
  let '(moof_off, moof_len) := moof : Z * Z in
  mdat ← require_box out 0 total_len (lit "mdat") (lit "Missing mdat box in fragment");
  let '(mdat_off, _) := mdat : Z * Z in
  traf ← require_box out (moof_off ⊕ 8) (moof_off ⊕ moof_len) (lit "traf") (lit "Missing traf box in moof");
  let '(traf_off, traf_len) := traf : Z * Z in
  trun_boxes ← find_all_child_boxes out (traf_off ⊕ 8) (traf_off ⊕ traf_len) (lit "trun");
  if decide (trun_boxes = []) then Fail (Message (lit "No trun boxes in traf")) else
  truns ← parse_truns out traf_off traf_len trun_boxes;
  senc_box ← find_child_box out (traf_off ⊕ 8) (traf_off ⊕ traf_len) (lit "senc");
  enc_info ← match senc_box with
             | Some (s_off, s_len) => parse_senc out s_off s_len
             | None => mret None
             end;
  let truns := match enc_info with Some encs => imap (derive_sizes encs) truns | None => truns end in
  let any_size := existsb (fun t => existsb (Z.ltb 0) (sample_sizes t)) truns in
  if (negb any_size && existsb (fun t => 0 <? sample_count t) truns)%bool
  then Fail (Message (lit "No sample sizes available in trun/tfhd/senc")) else
  out ← decrypt_truns enc_info out moof_off truns (mdat_off ⊕ 8) 0;
  out ← remove_boxes out truns moof_off moof_len traf_off traf_len;
  normalize_fragment out.
End Cipher.

(** ** The reference *)

Section Spec.
Variable decrypt : list Z -> list Z.

(** The whole blocks of a protected part in the clear; what is left over is not encrypted. *)
Definition blocks (l : list Z) : list Z :=
  let k := Z.to_nat (len l / 16 * 16) in decrypt (take k l) ++ drop k l.

Fixpoint parts (subs : list (Z * Z)) (s : list Z) : list Z :=
  match subs with
  | [] => s
  | (c, p) :: rest =>
      if len s <? c + p then s
      else take (Z.to_nat c) s ++ blocks (take (Z.to_nat p) (drop (Z.to_nat c) s)) ++
           parts rest (drop (Z.to_nat (c + p)) s)
  end.

(** A sample in the clear: all of it without a table or with no subsamples, unless the table has run out. *)
Definition clear_sample (enc_info : option (list (list (Z * Z)))) (idx : Z) (s : list Z) : list Z :=
  match enc_info with
  | None => blocks s
  | Some encs => match get encs idx with Some [] => blocks s | Some subs => parts subs s | None => s end
  end.

Fixpoint clear_samples (enc_info : option (list (list (Z * Z)))) (idx : Z) (ss : list (list Z)) : list Z :=
  match ss with
  | [] => []
  | s :: rest => clear_sample enc_info idx s ++ clear_samples enc_info (idx + 1) rest
  end.
End Spec.

(** ** Lemmas *)

Lemma get_elem {A} (l : list A) i a : get l i = Some a -> a ∈ l.
Proof.
  intros H. pose proof (get_range _ _ _ H). rewrite get_lookup in H by lia. by eapply list_elem_of_lookup_2.
Qed.

Definition subs_ok (l : list (Z * Z)) : Prop := Forall (fun s => 0 <= s.1 < 2 ^ 16 /\ 0 <= s.2 < 2 ^ 32) l.
Definition encs_ok (e : option (list (list (Z * Z)))) : Prop := forall encs, e = Some encs -> Forall subs_ok encs.

Section Plain.
Variable decrypt : list Z -> list Z.
Hypothesis decrypt_length : forall l, len l mod 16 = 0 -> length (decrypt l) = length l.

Lemma blocks_length l : length (blocks decrypt l) = length l.
Proof.
  unfold blocks. set (k := Z.to_nat (len l / 16 * 16)). pose proof (len_nonneg l).
  pose proof (Z_div_mod_eq_full (len l) 16). pose proof (Z.mod_pos_bound (len l) 16 ltac:(lia)).
  assert (Hk : Z.of_nat (length (take k l)) = len l / 16 * 16).
  { rewrite length_take. unfold len in *. lia. }
  rewrite length_app, decrypt_length by (unfold len at 1; rewrite Hk; apply Z.mod_mul; lia).
  rewrite <-length_app. by rewrite take_drop.
Qed.

Lemma decrypt_part_mid A m B :
  len A + len m < 2 ^ 63 -> decrypt_part decrypt (A ++ m ++ B) (len A) (len m) = Done (A ++ blocks decrypt m ++ B).
Proof.
  intros Hl. unfold decrypt_part, blocks. pose proof (len_nonneg A). pose proof (len_nonneg m).
  pose proof (Z_div_mod_eq_full (len m) 16). pose proof (Z.mod_pos_bound (len m) 16 ltac:(lia)).
  set (k := len m / 16 * 16) in *. assert (Hk : 0 <= k <= len m) by lia.
  assert (Hlk : len (take (Z.to_nat k) m) = k) by (by apply len_take).
  assert (Hdl : length (decrypt (take (Z.to_nat k) m)) = length (take (Z.to_nat k) m)).
  { apply decrypt_length. rewrite Hlk. apply Z.mod_mul. lia. }
  destruct (Z.ltb_spec 0 k) as [Hpos|Hz].
  - nowrap. rewrite <-(take_drop (Z.to_nat k) m) at 1. rewrite <-app_assoc. rewrite slice_mid by lia. run_simpl.
    assert (Hs : slice (decrypt (take (Z.to_nat k) m)) 0 k = Some (decrypt (take (Z.to_nat k) m))).
    { pose proof (slice_mid [] (decrypt (take (Z.to_nat k) m)) [] 0 k) as Hs. rewrite app_nil_r in Hs. apply Hs; [done|].
      unfold len in *. rewrite Hdl. cbn. lia. }
    rewrite Hs. run_simpl. rewrite <-(take_drop (Z.to_nat k) m) at 1. rewrite <-!app_assoc.
    by rewrite store_mid by (unfold len; rewrite ?Hdl; done).
  - assert (k = 0) as -> by lia. change (Z.to_nat 0) with O in *. rewrite take_0 in *. rewrite drop_0.
    assert (decrypt [] = []) as -> by (by apply length_zero_iff_nil). done.
Qed.

Lemma parts_length subs s : subs_ok subs -> length (parts decrypt subs s) = length s.
Proof.
  intros Hs. revert s. induction Hs as [|[c p] subs [Hc Hp] _ IH]; intros s; [done|]. cbn [parts fst snd] in *.
  destruct (Z.ltb_spec (len s) (c + p)); [done|]. rewrite !length_app, blocks_length, IH, !length_take, !length_drop.
  unfold len in *. lia.
Qed.

Lemma decrypt_parts_spec subs A s :
  subs_ok subs -> len A + len s < 2 ^ 62 ->
  decrypt_parts decrypt (A ++ s) (len A) subs = Done (A ++ parts decrypt subs s).
Proof.
  intros Hs. revert A s. induction Hs as [|[c p] subs [Hc Hp] _ IH]; intros A s Hl; [done|].
  cbn [decrypt_parts parts fst snd] in *. pose proof (len_nonneg A). pose proof (len_nonneg s). nowrap. rewrite len_app.
  replace (len A + len s <? len A + c + p) with (len s <? c + p) by (apply eq_true_iff_eq; rewrite !Z.ltb_lt; lia).
  destruct (Z.ltb_spec (len s) (c + p)); [done|].
  set (s1 := take (Z.to_nat c) s). set (s2 := take (Z.to_nat p) (drop (Z.to_nat c) s)). set (s3 := drop (Z.to_nat (c + p)) s).
  assert (Hs1 : len s1 = c) by (apply len_take; lia).
  assert (Hs2 : len s2 = p) by (apply len_take; rewrite len_drop by lia; lia).
  assert (Hcut : s = s1 ++ s2 ++ s3).
  { subst s1 s2 s3. rewrite Z2Nat.inj_add, <-drop_drop, !take_drop by lia. done. }
  assert (Hs3 : len s = c + p + len s3) by (rewrite Hcut, !len_app; lia).
  pose proof (decrypt_part_mid (A ++ s1) s2 s3) as Hpart. rewrite len_app, Hs1, Hs2 in Hpart.
  rewrite Hcut at 1. rewrite (app_assoc A s1), Hpart by lia. run_simpl.
  assert (Hlb : len (blocks decrypt s2) = p) by (unfold len in *; by rewrite blocks_length).
  replace (len A + c + p) with (len ((A ++ s1) ++ blocks decrypt s2)) by (lens; lia).
  rewrite (app_assoc (A ++ s1)), IH by (lens; pose proof (len_nonneg s3); lia). by rewrite <-!app_assoc.
Qed.

Lemma clear_sample_length e idx s : encs_ok e -> length (clear_sample decrypt e idx s) = length s.
Proof.
  intros He. unfold clear_sample. destruct e as [encs|]; [|apply blocks_length]. specialize (He encs eq_refl).
  destruct (get encs idx) as [[|x subs]|] eqn:E; [apply blocks_length| |done]. apply parts_length.
  rewrite Forall_forall in He. eapply He, get_elem, E.
Qed.

Lemma decrypt_one_spec e idx s :
  encs_ok e -> len s < 2 ^ 62 -> decrypt_one decrypt e idx s = Done (clear_sample decrypt e idx s).
Proof.
  intros He Hl. unfold decrypt_one, clear_sample.
  assert (Hall : decrypt_part decrypt s 0 (len s) = Done (blocks decrypt s)).
  { pose proof (decrypt_part_mid [] s []) as H. rewrite !app_nil_r in H. apply H. rewrite len_nil. lia. }
  destruct e as [encs|]; [|done]. specialize (He encs eq_refl).
  destruct (get encs idx) as [[|x subs]|] eqn:E; [done| |done].
  apply (decrypt_parts_spec (x :: subs) [] s); [|rewrite len_nil; lia].
  rewrite Forall_forall in He. eapply He, get_elem, E.
Qed.

Lemma clear_samples_app e idx ss1 ss2 :
  clear_samples decrypt e idx (ss1 ++ ss2) = clear_samples decrypt e idx ss1 ++ clear_samples decrypt e (idx + len ss1) ss2.
Proof.
  revert idx. induction ss1 as [|s ss1 IH]; intros idx; [cbn; by rewrite Z.add_0_r|]. cbn [app clear_samples].
  rewrite IH, len_cons, <-app_assoc. do 3 f_equal. lia.
Qed.

Lemma clear_samples_length e idx ss : encs_ok e -> length (clear_samples decrypt e idx ss) = length (concat ss).
Proof.
  intros He. revert idx. induction ss as [|s ss IH]; intros idx; [done|]. cbn [clear_samples concat].
  by rewrite !length_app, IH, clear_sample_length.
Qed.

(** A run whose samples follow each other. *)
Lemma decrypt_run_spec e idx ss A B :
  encs_ok e -> 0 <= idx -> idx + len ss < 2 ^ 63 -> len A + len (concat ss) + len B < 2 ^ 62 ->
  decrypt_run decrypt e (A ++ concat ss ++ B) (len <$> ss) (len A) idx =
  Done (A ++ clear_samples decrypt e idx ss ++ B, (len A + len (concat ss), idx + len ss)).
Proof.
  intros He. revert A idx. induction ss as [|s ss IH]; intros A idx H0 Hidx Hl.
  { cbn [concat clear_samples decrypt_run fmap list_fmap]. change (@len (list Z) []) with 0. change (@len Z []) with 0. by rewrite !Z.add_0_r. }
  rewrite fmap_cons. cbn [decrypt_run concat clear_samples] in *. rewrite len_cons in *. rewrite len_app in Hl.
  pose proof (len_nonneg A). pose proof (len_nonneg s). pose proof (len_nonneg (concat ss)). pose proof (len_nonneg B).
  pose proof (len_nonneg ss). nowrap. rewrite <-app_assoc, !len_app. decide_le. rewrite slice_mid by lia. run_simpl.
  rewrite decrypt_one_spec by (done || lia). run_simpl.
  assert (Hcl : len (clear_sample decrypt e idx s) = len s) by (unfold len; by rewrite clear_sample_length).
  rewrite store_mid by done. run_simpl. rewrite (app_assoc A).
  replace (len A + len s) with (len (A ++ clear_sample decrypt e idx s)) by (rewrite len_app; lia).
  rewrite IH; [|lia|lia|rewrite len_app; lia]. rewrite <-!app_assoc. do 2 f_equal. rewrite len_app. f_equal; lia.
Qed.
End Plain.

(** *** Removal *)

Lemma drain_inside_all out l d : drain_all out l = Done d -> drain_inside out l = Done d.
Proof.
  revert out. induction l as [|[o n] l IH]; intros out; [done|]. cbn [drain_all drain_inside].
  destruct (drain out o (o ⊕ n)) as [d'|] eqn:E; [|done]. run_simpl. intros H.
  assert (Hle : (o ⊕ n <=? len out) = true).
  { unfold drain, splice in E. destruct (o ⊕ n <=? len out); [done|]. by rewrite andb_false_r in E. }
  rewrite Hle. run_simpl. by apply IH.
Qed.

Lemma collect_each_kinds out start stop kinds : collect_each out start stop kinds = collect_kinds true out start stop kinds.
Proof. induction kinds as [|k kinds IH]; [done|]. cbn [collect_each collect_kinds]. by rewrite IH. Qed.

(** Only the places and offsets of the runs matter to the moves. *)
Lemma move_truns_ext out truns truns' r :
  ((fun t => (data_offset_field_pos t, data_offset t)) <$> truns) = ((fun t => (data_offset_field_pos t, data_offset t)) <$> truns') ->
  move_truns out truns r = move_truns out truns' r.
Proof.
  revert out truns'. induction truns as [|t truns IH]; intros out [|t' truns']; rewrite ?fmap_cons, ?fmap_nil; try done.
  intros [= Hp Hd Hrest]. cbn [move_truns]. rewrite Hp, Hd.
  destruct (data_offset_field_pos t') as [p|]; [|by apply IH].
  unfold write_be. destruct (store out p _) as [d|]; [|done]. by apply IH.
Qed.

Lemma move_run_flagged n t :
  has (tr_flags t) 1 = true ->
  move_run n (trun_box t) = trun_box (with_offset t (wrap 32 (swrap 32 (tr_offset t) - n))).
Proof.
  intros H1. unfold move_run. rewrite decide_True by done. unfold run_offset, trun_box.
  cbn [kind body with_offset tr_flags tr_offset tr_first_flags tr_samples]. f_equal. unfold render_trun. rewrite H1. cbn [word].
  set (rest := word (has (tr_flags t) 4) (tr_first_flags t) ++ concat (render_entry (tr_flags t) <$> tr_samples t)).
  set (x := [0] ++ to_be 3 (tr_flags t) ++ to_be 4 (len (tr_samples t))).
  assert (Hx : length x = 8%nat) by (subst x; rewrite !length_app, !to_be_length; done).
  assert (Hall : forall w, [0] ++ to_be 3 (tr_flags t) ++ to_be 4 (len (tr_samples t)) ++ w = x ++ w)
    by (intros w; subst x; by rewrite <-!app_assoc).
  rewrite !Hall. rewrite take_app_length' by done. f_equal.
  replace 12%nat with (length x + 4)%nat by lia. rewrite drop_app_add.
  rewrite (drop_app_length' x) by done.
  rewrite take_app_length' by (by rewrite to_be_length). rewrite drop_app_length' by (by rewrite to_be_length).
  rewrite from_to_be. change (256 ^ Z.of_nat 4) with (2 ^ 32). f_equal. apply to_be_congr. change (256 ^ Z.of_nat 4) with (2 ^ 32).
  unfold wrap. rewrite Zmod_mod. f_equal. f_equal. unfold swrap. by rewrite Zplus_mod_idemp_l.
Qed.

Definition run_info (h : tfhd_fields) (o : Z) (t : trun_fields) : TrunInfo :=
  mkTrunInfo (len (tr_samples t)) (if has (tr_flags t) 1 then Some (o + 16) else None)
    (if has (tr_flags t) 1 then swrap 32 (tr_offset t) else 0) (run_sizes h t).
Definition run_infos (h : tfhd_fields) (o : Z) (bs : list Box) (ts : list trun_fields) : list TrunInfo :=
  zip_with (fun x t => run_info h x.1 t) (picked is_run o bs) ts.

Lemma runs_cons b bs ts :
  filter (fun b => is_run b = true) (b :: bs) = trun_box <$> ts ->
  (is_run b = false /\ filter (fun b => is_run b = true) bs = trun_box <$> ts) \/
  exists t ts', ts = t :: ts' /\ b = trun_box t /\ filter (fun b => is_run b = true) bs = trun_box <$> ts'.
Proof.
  rewrite filter_cons. case_decide as Hb; [|left; split; [by destruct (is_run b)|done]].
  destruct ts as [|t ts]; [done|]. rewrite fmap_cons. intros [= -> H]. right. by exists t, ts.
Qed.

Lemma run_infos_cons h o t bs ts :
  run_infos h o (trun_box t :: bs) (t :: ts) = run_info h o t :: run_infos h (o + bsize (trun_box t)) bs ts.
Proof. reflexivity. Qed.

Lemma run_infos_skip h o b bs ts : is_run b = false -> run_infos h o (b :: bs) ts = run_infos h (o + bsize b) bs ts.
Proof. intros Hb. unfold run_infos. cbn [picked]. by rewrite Hb. Qed.

Lemma move_truns_render h r bs ts pre post :
  filter (fun b => is_run b = true) bs = trun_box <$> ts -> Forall box_ok bs ->
  Forall (fun t => has (tr_flags t) 1 = true) ts -> len (pre ++ renders bs ++ post) < 2 ^ 62 ->
  move_truns (pre ++ renders bs ++ post) (run_infos h (len pre) bs ts) r = Done (pre ++ renders (move_run r <$> bs) ++ post).
Proof.
  intros Hf Hok. revert ts pre Hf. induction Hok as [|b bs Hb Hok IH]; intros ts pre Hf Hflag Hlen.
  { destruct ts; [done|discriminate Hf]. }
  rewrite fmap_cons, !renders_cons, <-!app_assoc in *. destruct (runs_cons _ _ _ Hf) as [[Hn Hf']|(t & ts' & -> & -> & Hf')].
  - rewrite run_infos_skip by done. assert (Hm : move_run r b = b).
    { unfold move_run. case_decide as Hk; [|done]. unfold is_run, kind_is in Hn. by rewrite bool_decide_eq_true_2 in Hn. }
    rewrite Hm, (app_assoc pre (render b)), <-(len_render b), <-len_app by done.
    rewrite (IH ts (pre ++ render b)); [by rewrite <-app_assoc|done|done|by rewrite <-app_assoc].
  - apply Forall_cons in Hflag as [H1 Hflag]. rewrite run_infos_cons. cbn [move_truns run_info data_offset_field_pos data_offset].
    rewrite H1. destruct (run_offset_parts pre t (renders bs ++ post) H1) as (p & q & Hp & Hlp).
    pose proof (Hp (tr_offset t)) as Ht. rewrite with_own_offset in Ht. rewrite Ht. unfold write_be. rewrite <-Hlp.
    rewrite (store_mid _ (to_be 4 (tr_offset t))) by (rewrite ?len_to_be; done). run_simpl.
    assert (Hw : to_be 4 (swrap 32 (swrap 32 (tr_offset t) - swrap 32 r)) = to_be 4 (wrap 32 (swrap 32 (tr_offset t) - r))).
    { rewrite moved_offset_bytes. apply to_be_congr. change (256 ^ Z.of_nat 4) with (2 ^ 32). unfold wrap. by rewrite Zmod_mod. }
    rewrite Hw, <-Hp, move_run_flagged by done. set (t' := with_offset t _).
    assert (Hsz : bsize (trun_box t) = len (render (trun_box t'))) by (rewrite len_render_run; by rewrite !trun_box_size).
    rewrite (app_assoc pre (render _)), Hsz, <-len_app.
    rewrite (IH ts' (pre ++ render (trun_box t'))); [by rewrite <-app_assoc|done|done|].
    rewrite !len_app in *. rewrite <-Hsz. rewrite len_render in Hlen by done. lia.
Qed.

Lemma staged_words f ms ts :
  staged f ms ts = renders (before f) ++ to_be 4 ms ++ (lit "moof" ++ renders (moof_before f) ++ to_be 4 ts ++ lit "traf" ++
    renders (moved f) ++ renders (moof_after f) ++ renders (after f)) /\
  staged f ms ts = (renders (before f) ++ to_be 4 ms ++ lit "moof" ++ renders (moof_before f)) ++ to_be 4 ts ++ (lit "traf" ++
    renders (moved f) ++ renders (moof_after f) ++ renders (after f)).
Proof. unfold staged. split; by rewrite <-!app_assoc. Qed.

Section Removal.
Variables (f : Fragment) (h : tfhd_fields) (ts : list trun_fields).
Hypothesis Hok : fragment_ok f.
Hypothesis Hruns : filter (fun b => is_run b = true) (traf f) = trun_box <$> ts.
Hypothesis Hflags : Forall (fun t => has (tr_flags t) 1 = true) ts.
Hypothesis Hlen : len (render_fragment f) < 2 ^ 62.

(** The three passes over the track fragment find what the filter removes. *)
Lemma removed_passes :
  exists tables groups uuids,
    collect_each (render_fragment f) (len (traf_pre f)) (len (traf_pre f) + len (renders (traf f))) [lit "senc"; lit "saiz"; lit "saio"] = Done tables /\
    collect (S (length (render_fragment f))) true (is_seam_group (render_fragment f)) (render_fragment f)
      (len (traf_pre f)) (len (traf_pre f) + len (renders (traf f))) = Done groups /\
    find_all_child_boxes (render_fragment f) (len (traf_pre f)) (len (traf_pre f) + len (renders (traf f))) (lit "uuid") = Done uuids /\
    tables ++ groups ++ uuids ≡ₚ picked is_encryption (len (traf_pre f)) (traf f).
Proof.
  destruct (collected_kinds f Hok true [lit "senc"; lit "saiz"; lit "saio"]) as (l & Hl & Hp); [apply (bool_decide_unpack _); by vm_compute|].
  exists l, (picked is_group (len (traf_pre f)) (traf f)), (picked (kind_is (lit "uuid")) (len (traf_pre f)) (traf f)).
  split_and!; [by rewrite collect_each_kinds|by apply collected_groups| |].
  - pose proof (ok_size f Hok) as Hs. unfold find_all_child_boxes. rewrite fragment_in_traf in Hs |- *.
    apply collect_boxes; [apply Hok|done|]. intros. apply of_type_keep.
  - rewrite Hp, picked_or.
    2: { intros b _ Hg. unfold kind_is. apply bool_decide_eq_false_2. intros Hk. unfold is_group, kind_is in Hg.
         rewrite Hk in Hg. by vm_compute in Hg. }
    rewrite picked_or.
    + erewrite picked_ext; [done|]. intros b _. unfold is_encryption, encryption_kinds, kind_is.
      apply eq_true_iff_eq. rewrite !orb_true_iff, !bool_decide_eq_true. set_solver.
    + intros b _ Hb%bool_decide_eq_true. apply orb_false_iff.
      assert (Hn : bool_decide (kind b ∈ encryption_kinds) = true) by (apply bool_decide_eq_true_2; unfold encryption_kinds; set_solver).
      split; [by apply is_encryption_split|]. unfold kind_is. apply bool_decide_eq_false_2. intros Hk. rewrite Hk in Hb.
      rewrite !elem_of_cons in Hb. destruct Hb as [Hb|[Hb|[Hb|Hb]]]; try by vm_compute in Hb. by apply not_elem_of_nil in Hb.
Qed.

Lemma remove_boxes_spec truns :
  ((fun t => (data_offset_field_pos t, data_offset t)) <$> truns) =
    ((fun t => (data_offset_field_pos t, data_offset t)) <$> run_infos h (len (traf_pre f)) (traf f) ts) ->
  remove_boxes (render_fragment f) truns (len (renders (before f))) (bsize (moof_box f))
    (len (moof_pre f) + len (renders (moof_before f))) (bsize (traf_box f)) = Done (render_fragment (stripped f)).
Proof.
  intros Htruns. destruct removed_passes as (tables & groups & uuids & Ht & Hg & Hu & Hperm).
  destruct (removed_range f Hok) as (H0 & H1 & H2). pose proof (traf_box_ok f Hok) as [_ Htz].
  pose proof (ok_moof f Hok) as [_ Hmz]. pose proof (bsize_ge (traf_box f)). pose proof Hlen as Hs. rewrite fragment_len in Hs by done.
  pose proof (len_nonneg (renders (before f))). pose proof (len_nonneg (renders (after f))).
  pose proof (len_nonneg (renders (moof_before f))). pose proof (len_nonneg (renders (moof_after f))).
  pose proof (bsize_moof f Hok) as Hbm. pose proof (bsize_traf f) as Hbt.
  assert (Hpre : len (moof_pre f) + len (renders (moof_before f)) + 8 = len (traf_pre f)) by (rewrite len_traf_pre, len_moof_pre; lia).
  assert (Hmoofend : len (renders (before f)) + bsize (moof_box f) =
    len (moof_pre f) + len (renders (moof_before f ++ traf_box f :: moof_after f))).
  { rewrite len_moof_pre, Hbm. lens. rewrite len_render by (by apply traf_box_ok). lia. }
  pose proof (collected_pssh f Hok true) as Hm.
  set (psshs := picked is_pssh (len (moof_pre f)) (moof_before f) ++ picked is_pssh (len (traf_pre f) + len (renders (traf f))) (moof_after f)) in *.
  assert (Hall : tables ++ groups ++ uuids ++ psshs ≡ₚ removals f).
  { rewrite !(app_assoc _ _ psshs), (app_assoc tables), <-(app_assoc tables groups), Hperm. unfold removals, psshs.
    rewrite !reverse_Permutation. solve_Permutation. }
  unfold remove_boxes. rewrite len_moof_pre in *. nowrap. rewrite Hpre.
  replace (len (renders (before f)) + 8 + len (renders (moof_before f)) + bsize (traf_box f)) with (len (traf_pre f) + len (renders (traf f))) by lia.
  rewrite Ht. run_simpl. rewrite Hg. run_simpl. rewrite Hu. run_simpl. unfold find_all_child_boxes. rewrite Hmoofend, Hm. run_simpl.
  rewrite (sizes_perm _ _ Hall (proj2 (removals_sum f))) by (rewrite (proj1 (removals_sum f)); lia).
  rewrite (proj1 (removals_sum f)), (sizes_perm _ _ Hperm (picked_sizes _ _ _)) by (rewrite picked_weight; unfold removed_traf in *; lia).
  rewrite picked_weight. fold (removed_traf f). destruct (Z.eqb_spec (removed f) 0) as [Hz|Hz].
  { unfold stripped. by rewrite Hz. }
  rewrite (move_truns_ext _ _ _ _ Htruns). rewrite fragment_in_traf in Hlen |- *.
  rewrite move_truns_render by (done || apply Hok). run_simpl. fold (moved f).
  assert (Hst : traf_pre f ++ renders (moved f) ++ renders (moof_after f) ++ renders (after f) = staged f (bsize (moof_box f)) (bsize (traf_box f)))
    by (unfold staged, traf_pre, moof_pre, moof_head, traf_head; by rewrite <-!app_assoc).
  rewrite Hst. rewrite (proj2 (staged_words f _ _)).
  rewrite update_word_mid by ((lens; change (len (lit "moof")) with 4; lia) || lia). run_simpl.
  rewrite <-(proj2 (staged_words f _ _)), (proj1 (staged_words f _ _)), update_word_mid by (done || lia). run_simpl.
  rewrite <-(proj1 (staged_words f _ _)), !wrap_small by (unfold in_u; lia).
  apply drain_inside_all. rewrite (sort_desc_unique _ _ Hall (removals_sorted f Hok)), stripped_headers by done.
  by apply draining.
Qed.
End Removal.

(** *** The whole function *)

Lemma senc_subs_render data l pre post :
  subs_ok l -> data = pre ++ render_subs l ++ post -> len data < 2 ^ 62 ->
  senc_subs (length l) data (len pre) = Done (Some (l, len pre + len (render_subs l))).
Proof.
  intros Hl. revert pre. induction Hl as [|[c p] l [Hc Hp] _ IH]; intros pre Hd Hlen; [cbn; by rewrite Z.add_0_r|].
  rewrite render_subs_cons in *. cbn [length senc_subs fst snd] in *.
  pose proof (len_nonneg pre). pose proof (len_nonneg (render_subs l)). pose proof (len_nonneg post).
  assert (Hsum : len data = len pre + 6 + len (render_subs l) + len post) by (rewrite Hd; lens; lia).
  nowrap. decide_le. rewrite Hd at 1. rewrite <-!app_assoc. rewrite read_to_be by lia. run_simpl.
  rewrite Hd at 1. rewrite <-!app_assoc, app_assoc. rewrite read_to_be by (lens; lia). run_simpl.
  replace (len pre + 6) with (len (pre ++ to_be 2 c ++ to_be 4 p)) by (lens; lia).
  rewrite IH by (done || (rewrite Hd; by rewrite <-!app_assoc)). run_simpl.
  rewrite !Z.mod_small by (change (256 ^ Z.of_nat 2) with (2 ^ 16) || change (256 ^ Z.of_nat 4) with (2 ^ 32); lia).
  do 3 f_equal. lens. lia.
Qed.

Lemma subs_ok_range l : Forall (fun '(c, p) => 0 <= c < 2 ^ 16 /\ 0 <= p < 2 ^ 32) l -> subs_ok l.
Proof. intros H. eapply Forall_impl; [exact H|]. by intros [c p]. Qed.

Lemma senc_entries_render data subs l pre post :
  Forall (sample_ok subs 0) l -> data = pre ++ render_samples subs l ++ post -> len data < 2 ^ 62 ->
  senc_entries (length l) subs data (len pre) = Done (Some (subsamples <$> l)).
Proof.
  intros Hl. revert pre. induction Hl as [|s l [Hiv Hsl Hsr Hsn] _ IH]; intros pre Hd Hlen; [done|].
  rewrite fmap_cons, render_samples_cons in *. cbn [length senc_entries].
  assert (Hnil : iv s = []) by (apply length_zero_iff_nil; unfold len in Hiv; lia).
  unfold render_sample in Hd. rewrite Hnil in Hd. cbn [app] in Hd.
  pose proof (len_nonneg pre). pose proof (len_nonneg post). pose proof (len_nonneg (render_samples subs l)). destruct subs.
  - pose proof (len_nonneg (render_subs (subsamples s))). pose proof (len_nonneg (subsamples s)).
    assert (Hsum : len data = len pre + 2 + len (render_subs (subsamples s)) + len (render_samples true l) + len post) by (rewrite Hd; lens; lia).
    nowrap. decide_le. rewrite <-!app_assoc in Hd. rewrite Hd at 1. rewrite read_to_be by lia. run_simpl.
    rewrite Z.mod_small by (change (256 ^ Z.of_nat 2) with (2 ^ 16); lia). rewrite len_to_nat.
    replace (len pre + 2) with (len (pre ++ to_be 2 (len (subsamples s)))) by (lens; lia).
    rewrite (senc_subs_render data (subsamples s) _ (render_samples true l ++ post)) by
      (done || (by apply subs_ok_range) || (rewrite Hd; by rewrite <-app_assoc)). run_simpl.
    rewrite <-len_app, (IH _) by (done || (rewrite Hd; by rewrite <-!app_assoc)). done.
  - rewrite (IH pre) by (done || exact Hd). run_simpl. by rewrite (Hsn eq_refl).
Qed.

Lemma parse_senc_render subs l pre post :
  box_ok (senc_box subs l) -> len (pre ++ render (senc_box subs l) ++ post) < 2 ^ 62 -> len l < 2 ^ 32 ->
  Forall (sample_ok subs 0) l ->
  parse_senc (pre ++ render (senc_box subs l) ++ post) (len pre) (bsize (senc_box subs l)) = Done (Some (subsamples <$> l)).
Proof.
  intros Hb Hlen Hl Hs. destruct (senc_split subs l pre post Hb ltac:(lia) Hl) as (Hd & Ht & Hz & Hf & Hc).
  set (data := pre ++ render (senc_box subs l) ++ post) in *. unfold parse_senc.
  pose proof (len_nonneg pre). pose proof (len_nonneg (render_samples subs l)). pose proof (len_nonneg post).
  assert (len data = len pre + bsize (senc_box subs l) + len post) by (unfold data; rewrite !len_app, len_render by done; lia).
  nowrap. decide_le. rewrite Hf. run_simpl. rewrite Hc. run_simpl. rewrite len_to_nat, <-Ht.
  replace (has (if subs then 2 else 0) 2) with subs by (by destruct subs). by eapply senc_entries_render.
Qed.

Lemma derive_fields encs i t :
  (data_offset_field_pos (derive_sizes encs i t), data_offset (derive_sizes encs i t)) = (data_offset_field_pos t, data_offset t).
Proof. unfold derive_sizes. by repeat case_match. Qed.

Fixpoint contiguous (moof_off pos : Z) (truns : list TrunInfo) : Prop :=
  match truns with
  | [] => True
  | t :: rest => (0 < data_offset t -> moof_off + data_offset t = pos) /\ contiguous moof_off (pos + sumZ (sample_sizes t)) rest
  end.

Lemma sum_lens (ss : list (list Z)) : sumZ (len <$> ss) = len (concat ss).
Proof. induction ss as [|s ss IH]; [done|]. rewrite fmap_cons. unfold sumZ in *. cbn [foldr concat]. by rewrite IH, len_app. Qed.

Lemma decrypt_truns_spec (decrypt : list Z -> list Z) e moof_off truns (sss : list (list (list Z))) A B idx :
  (forall l, len l mod 16 = 0 -> length (decrypt l) = length l) -> encs_ok e ->
  Forall2 (fun t ss => sample_sizes t = len <$> ss) truns sss -> contiguous moof_off (len A) truns ->
  0 <= moof_off -> 0 <= idx -> idx + len (concat sss) < 2 ^ 63 -> len A + len (concat (concat sss)) + len B < 2 ^ 62 ->
  decrypt_truns decrypt e (A ++ concat (concat sss) ++ B) moof_off truns (len A) idx =
  Done (A ++ clear_samples decrypt e idx (concat sss) ++ B).
Proof.
  intros Hd He Hs. revert A idx. induction Hs as [|t ss truns sss Ht _ IH]; intros A idx Hc H0 H1 Hidx Hl; [done|].
  cbn [decrypt_truns concat contiguous] in *. destruct Hc as [Hoff Hc]. rewrite Ht, sum_lens in Hc.
  rewrite concat_app, !len_app in Hl. rewrite len_app in Hidx.
  pose proof (len_nonneg A). pose proof (len_nonneg (concat ss)). pose proof (len_nonneg (concat (concat sss))). pose proof (len_nonneg ss).
  pose proof (len_nonneg B). pose proof (len_nonneg (concat sss)).
  assert (Hstart : (if 0 <? data_offset t then moof_off ⊕ data_offset t else len A) = len A).
  { destruct (Z.ltb_spec 0 (data_offset t)) as [Hp|]; [|done]. specialize (Hoff Hp). rewrite uadd_small by lia. done. }
  rewrite Hstart, Ht, concat_app, <-(app_assoc (concat ss)).
  rewrite (decrypt_run_spec decrypt Hd e idx ss A (concat (concat sss) ++ B)) by (done || (rewrite ?len_app; lia)). run_simpl.
  assert (Hcl : len (clear_samples decrypt e idx ss) = len (concat ss)) by (unfold len; by rewrite clear_samples_length).
  rewrite (app_assoc A). replace (len A + len (concat ss)) with (len (A ++ clear_samples decrypt e idx ss)) in * by (rewrite len_app; lia).
  rewrite (IH (A ++ clear_samples decrypt e idx ss)) by (done || lia || (rewrite len_app; lia)).
  by rewrite clear_samples_app, <-!app_assoc.
Qed.

(** A fragment whose runs follow each other in the payload, with or without a sample table. *)
Definition effective (c : Carrier) (p : list Z) (h : tfhd_fields) (ts : list trun_fields) (e : option (list (list (Z * Z)))) : list TrunInfo :=
  let infos := run_infos h (len (traf_pre (with_payload c p))) (c_traf c) ts in
  match e with Some encs => imap (derive_sizes encs) infos | None => infos end.

Record fair_ok (c : Carrier) (h : tfhd_fields) (ts : list trun_fields) (subs : bool) (l : list SencSample)
    (e : option (list (list (Z * Z)))) (sss : list (list (list Z))) (rest : list Z) : Prop := {
  f_layout : layout_ok c (concat (concat sss) ++ rest) h ts;
  f_runs : ts <> [] /\ Forall (fun t => has (tr_flags t) 1 = true) ts;
  f_table : match e with
            | Some encs => encs = subsamples <$> l /\ first_is (senc_box subs l) (c_traf c) /\ Forall (sample_ok subs 0) l /\ len l < 2 ^ 32
            | None => Forall (fun b => kind b <> lit "senc") (c_traf c)
            end;
  (* the samples, by run: each as long as its run says, or as the table says *)
  f_sizes : Forall2 (fun t ss => sample_sizes t = len <$> ss) (effective c (concat (concat sss) ++ rest) h ts e) sss;
  f_contiguous : contiguous (len (renders (c_before c))) (len (c_head c (concat (concat sss) ++ rest)))
                            (effective c (concat (concat sss) ++ rest) h ts e);
  f_some : concat (concat sss) <> [];
  f_total : len (render_fragment (with_payload c (concat (concat sss) ++ rest))) < 2 ^ 62;
  f_count : len (concat sss) < 2 ^ 62;
}.

Lemma any_size_true truns (sss : list (list (list Z))) :
  Forall2 (fun t ss => sample_sizes t = len <$> ss) truns sss -> concat (concat sss) <> [] ->
  existsb (fun t => existsb (Z.ltb 0) (sample_sizes t)) truns = true.
Proof.
  induction 1 as [|t ss truns sss Ht _ IH]; [done|]. cbn [concat existsb]. intros Hn.
  destruct (existsb (Z.ltb 0) (sample_sizes t)) eqn:E; [done|]. cbn [orb]. apply IH. intros Hnil. apply Hn.
  rewrite concat_app, Hnil, app_nil_r. rewrite Ht in E. clear -E. induction ss as [|s ss IH]; [done|].
  rewrite fmap_cons in E. cbn [existsb concat] in *. apply orb_false_iff in E as [E1 E2]. rewrite IH by done.
  apply Z.ltb_ge in E1. assert (s = []) as ->; [|done]. apply length_zero_iff_nil. unfold len in E1. lia.
Qed.

Section Decrypting.
Context (decrypt : list Z -> list Z) (c : Carrier) (h : tfhd_fields) (ts : list trun_fields) (subs : bool) (l : list SencSample).
Context (e : option (list (list (Z * Z)))) (sss : list (list (list Z))) (rest : list Z).
Hypothesis decrypt_length : forall l, len l mod 16 = 0 -> length (decrypt l) = length l.
Hypothesis Hc : fair_ok c h ts subs l e sss rest.

Let p0 := concat (concat sss) ++ rest.
Let p1 := clear_samples decrypt e 0 (concat sss) ++ rest.
Let head := c_head c p0.
Let tail := renders (c_after c).
Let moof_off := len (renders (c_before c)).
Let Hl : layout_ok c p0 h ts := f_layout _ _ _ _ _ _ _ _ Hc.

Lemma table_ok : encs_ok e.
Proof.
  intros encs He. pose proof (f_table _ _ _ _ _ _ _ _ Hc) as Ht. rewrite He in Ht. destruct Ht as (-> & _ & Hs & _).
  rewrite Forall_fmap. eapply Forall_impl; [exact Hs|]. cbn. intros s [_ _ Hr _]. by apply subs_ok_range.
Qed.

Lemma clear_payload_length : length p1 = length p0.
Proof. subst p0 p1. rewrite !length_app. by rewrite (clear_samples_length decrypt decrypt_length) by apply table_ok. Qed.

Lemma parse_truns_render bs1 bs2 ts2 :
  c_traf c = bs1 ++ bs2 -> filter (fun b => is_run b = true) bs2 = trun_box <$> ts2 -> Forall trun_ok ts2 ->
  parse_truns (head ++ p0 ++ tail) (moof_off + 8 + len (renders (c_moof_before c))) (8 + len (renders (c_traf c)))
    (picked is_run (len (traf_pre (with_payload c p0)) + len (renders bs1)) bs2) =
  Done (run_infos h (len (traf_pre (with_payload c p0)) + len (renders bs1)) bs2 ts2).
Proof.
  intros Ht Hf Hts. revert bs1 ts2 Ht Hf Hts. induction bs2 as [|b bs2 IH]; intros bs1 ts2 Ht Hf Hts; [done|].
  assert (Hbok : box_ok b).
  { pose proof (ok_traf _ (l_fragment _ _ _ _ Hl)) as H. cbn [traf with_payload] in H. rewrite Ht in H.
    apply Forall_app in H as [_ H]. by inversion H. }
  assert (Hnext : len (traf_pre (with_payload c p0)) + len (renders bs1) + bsize b =
    len (traf_pre (with_payload c p0)) + len (renders (bs1 ++ [b]))) by (lens; rewrite len_render by done; lia).
  assert (Ht' : c_traf c = (bs1 ++ [b]) ++ bs2) by (by rewrite <-app_assoc).
  destruct (runs_cons _ _ _ Hf) as [[Hn Hf']|(t & ts' & -> & -> & Hf')].
  - rewrite run_infos_skip by done. cbn [picked]. rewrite Hn, Hnext. by apply IH.
  - apply Forall_cons in Hts as [Htok Hts]. rewrite run_infos_cons. cbn [picked]. change (is_run (trun_box t)) with true.
    cbn [app parse_truns]. rewrite Hnext.
    pose proof (parse_run c p0 h ts Hl bs1 t bs2 Ht Htok p0 eq_refl) as Hp. fold head tail moof_off in Hp. rewrite Hp. run_simpl.
    by rewrite (IH _ ts' Ht' Hf' Hts).
Qed.

Lemma find_table :
  exists o, find_child_box (head ++ p0 ++ tail) (len (traf_pre (with_payload c p0)))
    (len (traf_pre (with_payload c p0)) + len (renders (c_traf c))) (lit "senc") = Done o /\
    match o with Some (s_off, s_len) => parse_senc (head ++ p0 ++ tail) s_off s_len | None => mret None end = Done e.
Proof.
  pose proof (f_table _ _ _ _ _ _ _ _ Hc) as Ht. pose proof (f_total _ _ _ _ _ _ _ _ Hc) as Htot. fold p0 in Htot.
  rewrite (payload_bytes c p0 p0 eq_refl) in Htot. fold head tail in Htot. destruct e as [encs|].
  - destruct Ht as (-> & (bs1 & bs2 & Hs & Hn) & Hsok & Hcount).
    destruct (found_in_traf c p0 h ts Hl bs1 _ bs2 Hs Hn p0 eq_refl) as (Hf & pre & post & Hd & Hlen & Hb & Hsz).
    fold head tail in Hf, Hd, Hsz. eexists. split; [exact Hf|]. cbv iota beta. rewrite Hd in Htot |- *. rewrite <-Hlen.
    by apply parse_senc_render.
  - exists None. split; [|done]. pose proof (l_fragment _ _ _ _ Hl) as Hok. pose proof (ok_size _ Hok) as Hs.
    pose proof (payload_bytes c p0 p0 eq_refl) as Hb. fold head tail in Hb. rewrite <-Hb.
    rewrite fragment_in_traf in Hs |- *. cbn [traf with_payload] in *. rewrite find_child_render by (apply Hok || done).
    rewrite picked_none; [done|]. eapply Forall_impl; [exact Ht|]. cbn. intros b Hk. unfold kind_is. by apply bool_decide_eq_false_2.
Qed.

Lemma decrypt_fragment_spec :
  decrypt_fragment decrypt (render_fragment (with_payload c p0)) = normalize_fragment (render_fragment (stripped (with_payload c p1))).
Proof.
  pose proof (l_fragment _ _ _ _ Hl) as Hok. destruct (l_runs _ _ _ _ Hl) as [Hruns Htsok].
  destruct (f_runs _ _ _ _ _ _ _ _ Hc) as [Hne Hflags]. pose proof (f_total _ _ _ _ _ _ _ _ Hc) as Htot. fold p0 in Htot.
  pose proof (payload_bytes c p0 p0 eq_refl) as Hb0. fold head tail in Hb0.
  pose proof (payload_bytes c p0 p1 clear_payload_length) as Hb1. fold head tail in Hb1.
  pose proof (payload_ok c p0 h ts Hl p1 clear_payload_length) as Hok1.
  destruct find_table as (o & Hfind & Hparse).
  pose proof (len_moof_pre (with_payload c p0)) as Hmp. pose proof (len_traf_pre (with_payload c p0)) as Htp.
  cbn [before moof_before with_payload] in Hmp, Htp. fold moof_off in Hmp, Htp.
  pose proof (len_nonneg (renders (c_before c))). pose proof (len_nonneg (renders (c_moof_before c))).
  pose proof (len_nonneg (renders (c_traf c))). pose proof (len_nonneg head). pose proof (len_nonneg tail). pose proof (len_nonneg p0).
  assert (Hsum : len head + len p0 + len tail < 2 ^ 62) by (rewrite Hb0 in Htot; revert Htot; rewrite !len_app; lia).
  assert (Htrafend : moof_off + 16 + len (renders (c_moof_before c)) + len (renders (c_traf c)) <= len (render_fragment (with_payload c p0))).
  { rewrite fragment_in_traf. rewrite !len_app, Htp. cbn [traf with_payload].
    pose proof (len_nonneg (renders (moof_after (with_payload c p0)))). pose proof (len_nonneg (renders (after (with_payload c p0)))). lia. }
  unfold decrypt_fragment. rewrite (find_moof _ Hok). run_simpl.
  pose proof (find_mdat c p0 h ts Hl p0 (lit "Missing mdat box in fragment") eq_refl) as Hmdat. fold head tail in Hmdat.
  rewrite Hb0, Hmdat. run_simpl. rewrite <-Hb0, (find_traf _ Hok). run_simpl. rewrite Hmp. cbn [moof_before with_payload before].
  fold moof_off. change (bsize (traf_box (with_payload c p0))) with (8 + len (renders (c_traf c))). fold moof_off in H. nowrap.
  replace (moof_off + 8 + len (renders (c_moof_before c)) + 8) with (len (traf_pre (with_payload c p0))) by lia.
  replace (moof_off + 8 + len (renders (c_moof_before c)) + (8 + len (renders (c_traf c))))
    with (len (traf_pre (with_payload c p0)) + len (renders (c_traf c))) by lia.
  pose proof (collect_in_traf c p0 h ts Hl true (of_type (lit "trun")) is_run p0 eq_refl ltac:(intros; apply of_type_keep)) as Hcr.
  fold head tail in Hcr. rewrite Hb0. unfold find_all_child_boxes at 1. rewrite Hcr. run_simpl.
  rewrite decide_False.
  2: { intros Hnil. destruct ts as [|t ts']; [done|]. revert Hruns Hnil. generalize (len (traf_pre (with_payload c p0))). generalize (c_traf c).
       intros bs. induction bs as [|b bs IH]; intros z Hr Hnil; [discriminate Hr|]. cbn [picked] in Hnil.
       destruct (runs_cons _ _ _ Hr) as [[Hn Hr']|(? & ? & _ & -> & _)]; [|done]. rewrite Hn in Hnil. by eapply IH. }
  pose proof (parse_truns_render [] (c_traf c) ts eq_refl Hruns Htsok) as Hpt.
  replace (len (traf_pre (with_payload c p0)) + len (renders [])) with (len (traf_pre (with_payload c p0))) in Hpt
    by (rewrite renders_nil, len_nil; lia).
  rewrite Hpt. run_simpl. rewrite Hfind. run_simpl. rewrite Hparse. run_simpl.
  fold (effective c p0 h ts e). rewrite (any_size_true _ sss) by (apply Hc). cbn [negb andb].
  replace (len head - 8 + 8) with (len head) by lia.
  replace (head ++ p0 ++ tail) with (head ++ concat (concat sss) ++ (rest ++ tail)) by (subst p0; by rewrite <-app_assoc).
  pose proof (f_count _ _ _ _ _ _ _ _ Hc).
  rewrite (decrypt_truns_spec decrypt e moof_off _ sss head (rest ++ tail) 0 decrypt_length table_ok); try (apply Hc || done || lia).
  2: { revert Hsum. subst p0. rewrite !len_app. lia. }
  run_simpl. replace (head ++ clear_samples decrypt e 0 (concat sss) ++ rest ++ tail) with (head ++ p1 ++ tail) by (subst p1; by rewrite <-app_assoc).
  rewrite <-Hb1.
  pose proof (remove_boxes_spec (with_payload c p1) h ts Hok1 Hruns Hflags) as Hrm.
  change (len (renders (before (with_payload c p1)))) with moof_off in Hrm.
  change (bsize (moof_box (with_payload c p1))) with (bsize (moof_box (with_payload c p0))) in Hrm.
  change (bsize (traf_box (with_payload c p1))) with (8 + len (renders (c_traf c))) in Hrm.
  change (moof_pre (with_payload c p1)) with (moof_pre (with_payload c p0)) in Hrm. rewrite Hmp in Hrm.
  change (renders (moof_before (with_payload c p1))) with (renders (c_moof_before c)) in Hrm.
  rewrite Hrm; [done| |].
  - rewrite Hb1, !len_app. assert (len p1 = len p0) by (unfold len; by rewrite clear_payload_length). lia.
  - change (traf_pre (with_payload c p1)) with (traf_pre (with_payload c p0)). change (traf (with_payload c p1)) with (c_traf c).
    unfold effective. destruct e as [encs|]; [|done]. rewrite fmap_imap. apply list_eq. intros i. rewrite list_lookup_imap, list_lookup_fmap.
    destruct (run_infos _ _ _ _ !! i); [|done]. cbn. f_equal. apply derive_fields.
Qed.
End Decrypting.

(** ** Theorems *)

(** C39: decrypting a fragment decrypts its samples, drops its encryption boxes and normalises what is left.  For a
    fragment whose runs follow each other in the payload, the payload becomes its samples in the clear, each
    with its own entry of the sample table, whatever the cipher; the rest is [strip_encryption_boxes]'s
    filter, then [normalize_fragment], so the rendering of the normalised fields where they are known. *)
Theorem fairplay_decrypts (decrypt : list Z -> list Z) (c : Carrier) (h : tfhd_fields) (ts : list trun_fields) (subs : bool)
    (l : list SencSample) (e : option (list (list (Z * Z)))) (sss : list (list (list Z))) (rest : list Z) :
  (forall l, len l mod 16 = 0 -> length (decrypt l) = length l) ->
  fair_ok c h ts subs l e sss rest ->
  let f := stripped (with_payload c (clear_samples decrypt e 0 (concat sss) ++ rest)) in
  decrypt_fragment decrypt (render_fragment (with_payload c (concat (concat sss) ++ rest))) = normalize_fragment (render_fragment f) /\
  (forall n, n_ok n -> raw n = f ->
     decrypt_fragment decrypt (render_fragment (with_payload c (concat (concat sss) ++ rest))) = Done (render_fragment (raw (normalized n)))).
Proof.
  intros Hd Hc f. pose proof (decrypt_fragment_spec decrypt c h ts subs l e sss rest Hd Hc) as Hs. split; [exact Hs|].
  intros n Hn Hf. rewrite Hs. subst f. rewrite <-Hf. by apply normalize_spec.
Qed.

Definition demo_cipher (l : list Z) : list Z := Z.lxor 0x55 <$> l.
Definition demo_table : list SencSample := [mkSencSample [] [(4, 16)]; mkSencSample [] [(4, 0)]].
Definition demo_samples : list (list (list Z)) := [[replicate 20 7; [1; 2; 3; 4]]].

Definition demo_fair_run (flags : Z) : trun_fields :=
  mkTrunFields flags (if has flags 512 then 104 else 96) 0 [mkTrunSample 0 20 0 0; mkTrunSample 0 4 0 0].
Definition demo_fair_head : tfhd_fields := mkTfhdFields 0x020008 1 0 0 1536 0.
Definition demo_fair (flags : Z) : Carrier :=
  mkCarrier [] [] [tfhd_box demo_fair_head; senc_box true demo_table; trun_box (demo_fair_run flags)] [] [] [].

Lemma demo_cipher_length l : len l mod 16 = 0 -> length (demo_cipher l) = length l.
Proof. intros _. apply length_fmap. Qed.

Lemma demo_fair_ok flags : flags = 0x201 \/ flags = 1 ->
  fair_ok (demo_fair flags) demo_fair_head [demo_fair_run flags] true demo_table (Some (subsamples <$> demo_table)) demo_samples [].
Proof.
  intros Hf. split.
  - split.
    + destruct Hf as [-> | ->]; split; lazymatch goal with
      | |- Forall _ _ => repeat (apply Forall_cons; split; [first [by split; vm_compute|by intros ?; vm_compute|
          intros H; by vm_compute in H|intros [H|H]; by vm_compute in H]|]); apply Forall_nil_2
      | |- _ => by vm_compute
      end.
    + apply Forall_nil_2.
    + split; [|by vm_compute]. by exists [], [senc_box true demo_table; trun_box (demo_fair_run flags)].
    + split; [by destruct Hf as [-> | ->]; vm_compute|]. apply Forall_cons. split; [|apply Forall_nil_2].
      destruct Hf as [-> | ->]; (split_and!; [by vm_compute..|]);
        (apply Forall_cons; split; [cbn; lia|apply Forall_cons; split; [cbn; lia|apply Forall_nil_2]]).
  - split; [done|]. apply Forall_cons. split; [|apply Forall_nil_2]. by destruct Hf as [-> | ->].
  - split_and!; [done| | |by vm_compute].
    + exists [tfhd_box demo_fair_head], [trun_box (demo_fair_run flags)]. split; [done|].
      apply Forall_cons. split; [by vm_compute|apply Forall_nil_2].
    + apply Forall_cons. split; [|apply Forall_cons; split; [|apply Forall_nil_2]];
        (split; [by vm_compute|by vm_compute| |done]; apply Forall_cons; split; [cbn; lia|apply Forall_nil_2]).
  - destruct Hf as [-> | ->]; vm_compute; by repeat constructor.
  - destruct Hf as [-> | ->]; by vm_compute.
  - by vm_compute.
  - destruct Hf as [-> | ->]; by vm_compute.
  - by vm_compute.
Qed.

(** Four clear bytes, sixteen decrypted ones, a sample in the clear; the sample table is gone and the data have moved. *)
Lemma fairplay_decrypts_witness :
  decrypt_fragment demo_cipher (render_fragment (with_payload (demo_fair 0x201) (replicate 20 7 ++ [1; 2; 3; 4]))) =
  Done (render_fragment (mkFragment [] [] [tfhd_box demo_fair_head; trun_box (with_offset (demo_fair_run 0x201) 72)] []
    [mkBox (lit "mdat") (replicate 4 7 ++ replicate 16 0x52 ++ [1; 2; 3; 4])])).
Proof.
  etransitivity.
  - exact (proj1 (fairplay_decrypts demo_cipher (demo_fair 0x201) demo_fair_head [demo_fair_run 0x201] true demo_table
      (Some (subsamples <$> demo_table)) demo_samples [] demo_cipher_length (demo_fair_ok 0x201 (or_introl eq_refl)))).
  - vm_compute. reflexivity.
Defined.

(** Sizes that were taken from the sample table are lost with it: the samples are decrypted, but in the fragment that
    is handed on, whose run and header name no size, all of them are empty. *)
Theorem derived_sizes_lost :
  exists c h ts subs l e sss rest data,
    fair_ok c h ts subs l e sss rest /\
    decrypt_fragment demo_cipher (render_fragment (with_payload c (concat (concat sss) ++ rest))) = Done data /\
    decrypt_truns demo_cipher e (render_fragment (with_payload c (concat (concat sss) ++ rest))) 0
      (effective c (concat (concat sss) ++ rest) h ts e) 96 0 =
      Done (render_fragment (with_payload c (replicate 4 7 ++ replicate 16 0x52 ++ [1; 2; 3; 4]))) /\
    exists t, parse_trun data 8 48 36 20 = Done (Some t) /\ sample_count t = 2 /\ sample_sizes t = [0; 0].
Proof.
  exists (demo_fair 1), demo_fair_head, [demo_fair_run 1], true, demo_table, (Some (subsamples <$> demo_table)), demo_samples, [].
  eexists. split_and!; [apply demo_fair_ok; by right|vm_compute; reflexivity|vm_compute; reflexivity|].
  eexists. by split_and!; [vm_compute; reflexivity|vm_compute|vm_compute].
Qed.
