(* ===== verification/FragmentScan.v ===== *)
(** * FragmentScan: the duration of a fragmented file (crates/media/src/fragmented.rs)

    A fragmented file says zero in its movie header; the scan adds up its fragments and writes the sum
    back.  The reader is a buffer: seeking and reading past its end is the [None] of the source, and so is
    any other failure of the file.  Sums are checked where the source checks them. *)
From S2P Require Import Prelude Text Bytes Retry Boxes TrackRuns.

#[local] Open Scope rust_scope.

Record BoxHeader := mkBoxHeader { start : Z; size : Z; bkind : str; hlen : Z }.
Definition bbody (h : BoxHeader) : Z := start h ⊕ hlen h.
Definition bend (h : BoxHeader) : Z := start h ⊕ size h.
Definition is_kind (k : string) (h : BoxHeader) : bool := bool_decide (bkind h = lit k).

Record FullBox := mkFullBox { version : Z; payload : Z }.
Definition time_prefix (f : FullBox) : Z := if version f =? 1 then 16 else 8.

Record DurationField := mkDurationField { offset : Z; wide : bool }.
Definition duration_offset (f : FullBox) (h : BoxHeader) : DurationField :=
  mkDurationField (bbody h ⊕ 4 ⊕ time_prefix f ⊕ 4) (version f =? 1).
Definition width (f : DurationField) : nat := if wide f then 8 else 4.
Definition encode (f : DurationField) (ticks : Z) : list Z :=
  replicate (8 - width f) 0 ++ drop (8 - width f) (to_be 8 ticks).

Record FragmentScan := mkScan {
  fragments : Z;
  timescale : Z;
  end_ticks : Z;
  sum_ticks : Z;
  trex_default : option Z;
  mvhd : option DurationField;
  mdhd : option DurationField;
}.
Definition empty_scan : FragmentScan := mkScan 0 0 0 0 None None None.

Definition total_ticks (s : FragmentScan) : Z := if 0 <? end_ticks s then end_ticks s else sum_ticks s.

Definition duration_secs (s : FragmentScan) : option f64 :=
  if ((fragments s =? 0) || (timescale s =? 0))%bool then None else
  if total_ticks s =? 0 then None else
  let duration := f64_div (f64_of_u (total_ticks s)) (f64_of_u (timescale s)) in
  if SpecFloat.SFltb (f64_of_u 0) duration then Some duration else None.

Section Reader.
Variable data : list Z.

(** [uN_at]: [n] bytes at a position. *)
Definition read_at (a n : Z) : option Z := buf ← slice data a (a + n); Some (from_be buf).

Definition read_header (offset limit : Z) : option BoxHeader :=
  stop ← checked_add 64 offset 8;
  if limit <? stop then None else
  size32 ← read_at offset 4;
  k ← slice data (offset + 4) (offset + 8);
  '(size, h) ← (if size32 =? 1 then wide ← read_at (offset + 8) 8; Some (wide, 16)
                else if size32 =? 0 then Some (limit - offset, 8) else Some (size32, 8));
  if size <? h then None else
  stop ← checked_add 64 offset size;
  if limit <? stop then None else Some (mkBoxHeader offset size k h).

Fixpoint children_loop (fuel : nat) (offset stop : Z) : list BoxHeader :=
  match fuel with
  | O => []
  | S f => match read_header offset stop with
           | Some h => h :: children_loop f (bend h) stop
           | None => []
           end
  end.

Definition children (start stop : Z) : list BoxHeader := children_loop (S (length data)) start stop.

Definition flags_at (body : Z) : option Z :=
  v ← read_at (body ⊕ 1) 4; Some (Z.land (Z.shiftr v 8) 0xffffff).

Definition full_box (h : BoxHeader) : option FullBox :=
  v ← read_at (bbody h) 1; Some (mkFullBox v (bbody h ⊕ 4)).

Definition scan_full_header (h : BoxHeader) (s : FragmentScan) (is_media : bool) : FragmentScan :=
  match full_box h with
  | None => s
  | Some full =>
      match read_at (payload full ⊕ time_prefix full) 4 with
      | None => s
      | Some ts =>
          let timescale := if (is_media || (timescale s =? 0))%bool then ts else timescale s in
          let field := Some (duration_offset full h) in
          mkScan (fragments s) timescale (end_ticks s) (sum_ticks s) (trex_default s)
                 (if is_media then mvhd s else field) (if is_media then field else mdhd s)
      end
  end.

Definition scan_mdia (trak : BoxHeader) (s : FragmentScan) : FragmentScan :=
  foldl (fun s child =>
    if negb (is_kind "mdia" child) then s else
    foldl (fun s grand => if is_kind "mdhd" grand then scan_full_header grand s true else s) s
          (children (bbody child) (bend child)))
    s (children (bbody trak) (bend trak)).

Definition set_trex (v : option Z) (s : FragmentScan) : FragmentScan :=
  mkScan (fragments s) (timescale s) (end_ticks s) (sum_ticks s) v (mvhd s) (mdhd s).

Definition scan_moov (moov : BoxHeader) (s : FragmentScan) : FragmentScan :=
  foldl (fun s child =>
    if is_kind "mvhd" child then scan_full_header child s false
    else if is_kind "trak" child then scan_mdia child s
    else if is_kind "mvex" child then
      foldl (fun s grand => if is_kind "trex" grand then set_trex (read_at (bbody grand ⊕ 12) 4) s else s) s
            (children (bbody child) (bend child))
    else s)
    s (children (bbody moov) (bend moov)).

Definition tfhd_default_duration (h : BoxHeader) : option Z :=
  flags ← flags_at (bbody h);
  let offset := bbody h ⊕ 8 in
  let offset := if has flags 1 then offset ⊕ 8 else offset in
  let offset := if has flags 2 then offset ⊕ 4 else offset in
  if negb (has flags 8) then None else read_at offset 4.

Fixpoint sum_durations (n : nat) (offset stride index total : Z) : option Z :=
  match n with
  | O => Some total
  | S k =>
      skip ← checked_mul 64 index stride;
      at_ ← checked_add 64 offset skip;
      d ← read_at at_ 4;
      total ← checked_add 64 total d;
      sum_durations k offset stride (index + 1) total
  end.

Definition run_ticks (h : BoxHeader) (default_duration : option Z) : option Z :=
  flags ← flags_at (bbody h);
  count ← read_at (bbody h ⊕ 4) 4;
  version ← read_at (bbody h) 1;
  let offset := bbody h ⊕ 8 in
  let offset := if has flags 1 then offset ⊕ 4 else offset in
  let offset := if has flags 4 then offset ⊕ 4 else offset in
  let stride := (if has flags 256 then 4 else 0) + (if has flags 512 then 4 else 0) + (if has flags 1024 then 4 else 0) +
                (if has flags 2048 then (if version =? 1 then 8 else 4) else 0) in
  if negb (has flags 256) then d ← default_duration; checked_mul 64 count d
  else sum_durations (Z.to_nat count) offset stride 0 0.

Definition or_else {A} (o o' : option A) : option A := match o with Some _ => o | None => o' end.

(** The runs of one track fragment, added to what the others gave. *)
Definition traf_ticks (trex : option Z) (acc : option (Z * bool)) (traf : BoxHeader) : option (Z * bool) :=
  '(total, resolved) ← acc;
  if negb (is_kind "traf" traf) then Some (total, resolved) else
  let boxes := children (bbody traf) (bend traf) in
  let declared := find_map (fun b => if is_kind "tfhd" b then Some (tfhd_default_duration b) else None) boxes ≫= id in
  let default_duration := or_else declared (trex ≫= fun v => if 0 <? v then Some v else None) in
  foldl (fun acc child =>
    '(total, resolved) ← acc;
    if is_kind "trun" child then
      ticks ← run_ticks child default_duration;
      total ← checked_add 64 total ticks;
      Some (total, true)
    else Some (total, resolved)) (Some (total, resolved)) boxes.

Definition fragment_ticks (moof : BoxHeader) (trex : option Z) : option Z :=
  '(total, resolved) ← foldl (traf_ticks trex) (Some (0, false)) (children (bbody moof) (bend moof));
  if resolved : bool then Some total else None.

Definition base_decode_time (moof : BoxHeader) : option Z :=
  find_map (fun traf =>
    if negb (is_kind "traf" traf) then None else
    find_map (fun child =>
      if negb (is_kind "tfdt" child) then None
      else Some (v ← read_at (bbody child) 1;
                 if v =? 1 then read_at (bbody child ⊕ 4) 8 else read_at (bbody child ⊕ 4) 4))
      (children (bbody traf) (bend traf)))
    (children (bbody moof) (bend moof)) ≫= id.

Definition scan_fragment (h : BoxHeader) (s : FragmentScan) : FragmentScan :=
  let s := mkScan (fragments s ⊕ 1) (timescale s) (end_ticks s) (sum_ticks s) (trex_default s) (mvhd s) (mdhd s) in
  match fragment_ticks h (trex_default s) with
  | None => s
  | Some ticks =>
      let sum := saturating_add 64 (sum_ticks s) ticks in
      let stop := match base_decode_time h with
                  | Some base => Z.max (end_ticks s) (saturating_add 64 base ticks)
                  | None => end_ticks s
                  end in
      mkScan (fragments s) (timescale s) stop sum (trex_default s) (mvhd s) (mdhd s)
  end.

Definition scan (limit : Z) : FragmentScan :=
  foldl (fun s h => if is_kind "moov" h then scan_moov h s else if is_kind "moof" h then scan_fragment h s else s)
    empty_scan (children 0 limit).
End Reader.

(** The file of [fragmented_duration_secs], when it can be opened. *)
Definition fragmented_duration_secs (source : option (list Z)) : option f64 :=
  file ← source; duration_secs (scan file (len file)).

(** Writes the fields in turn; a field that does not fit ends the call, after the ones before it. *)
Fixpoint stamp_fields (fields : list DurationField) (ticks : Z) (fmp4 : list Z) : bool * list Z :=
  match fields with
  | [] => (true, fmp4)
  | f :: rest =>
      match checked_add 64 (offset f) (Z.of_nat (width f)) with
      | None => (false, fmp4)
      | Some stop =>
          if len fmp4 <? stop then (false, fmp4)
          else match store fmp4 (offset f) (drop (8 - width f) (encode f ticks)) with
               | Some fmp4 => stamp_fields rest ticks fmp4
               | None => (false, fmp4)
               end
      end
  end.

Definition stamp_fragmented_duration (fmp4 : list Z) : option f64 * list Z :=
  let s := scan fmp4 (len fmp4) in
  match duration_secs s with
  | None => (None, fmp4)
  | Some duration =>
      let fields := omap id [mvhd s; mdhd s] in
      let '(written, fmp4) := stamp_fields fields (total_ticks s) fmp4 in
      (if written : bool then Some duration else None, fmp4)
  end.

(** ** Walking over the boxes *)

Section Walk.
Variable data : list Z.
Hypothesis Hlen : len data < 2 ^ 63.

Lemma read_header_inside cur stop h :
  0 <= cur -> stop <= len data -> read_header data cur stop = Some h ->
  start h = cur /\ 8 <= hlen h <= size h /\ cur + size h <= stop /\ slice data (cur + 4) (cur + 8) = Some (bkind h).
Proof.
  intros Hc Hs. unfold read_header. destruct (checked_add 64 cur 8) as [e|] eqn:E1; cbn [mbind option_bind]; [|done].
  apply checked_add_Some in E1 as [-> _]. destruct (Z.ltb_spec stop (cur + 8)); [done|].
  destruct (read_at data cur 4) as [v|]; cbn [mbind option_bind]; [|done].
  destruct (slice data (cur + 4) (cur + 8)) as [k|]; cbn [mbind option_bind]; [|done].
  destruct (if v =? 1 then _ else _) as [[sz hl]|] eqn:E2; cbn [mbind option_bind]; [|done].
  destruct (Z.ltb_spec sz hl); [done|]. destruct (checked_add 64 cur sz) as [e|] eqn:E3; cbn [mbind option_bind]; [|done].
  apply checked_add_Some in E3 as [-> _]. destruct (Z.ltb_spec stop (cur + sz)); [done|]. intros [= <-]. cbn.
  assert (8 <= hl).
  { destruct (v =? 1); [|destruct (v =? 0); simplify_eq; lia].
    destruct (read_at data (cur + 8) 8); cbn in E2; simplify_eq. lia. }
  split_and!; (done || lia).
Qed.

(** Consecutive headers, from one position to another at most. *)
Fixpoint tiles (cur stop : Z) (l : list BoxHeader) : Prop :=
  match l with
  | [] => cur <= stop
  | h :: l' => start h = cur /\ 8 <= hlen h <= size h /\ bend h = cur + size h /\ tiles (cur + size h) stop l'
  end.

Lemma children_loop_tiles fuel cur stop :
  0 <= cur <= stop -> stop <= len data -> tiles cur stop (children_loop data fuel cur stop).
Proof.
  revert cur. induction fuel as [|f IH]; intros cur Hc Hs; cbn [children_loop]; [cbn; lia|].
  destruct (read_header data cur stop) as [h|] eqn:E; [|cbn; lia].
  apply read_header_inside in E as (Hst & Hh & He & _); [|lia..]. cbn [tiles].
  assert (Hb : bend h = cur + size h) by (unfold bend; rewrite Hst; nowrap; lia).
  split_and!; [done|lia|lia|done|]. rewrite Hb. apply IH; lia.
Qed.

Lemma children_loop_fuel fuel cur stop :
  0 <= cur <= stop -> stop <= len data -> stop - cur < Z.of_nat fuel ->
  forall fuel', (fuel <= fuel')%nat -> children_loop data fuel' cur stop = children_loop data fuel cur stop.
Proof.
  revert cur. induction fuel as [|f IH]; intros cur Hc Hs Hf fuel' Hle; [lia|]. destruct fuel' as [|f']; [lia|].
  cbn [children_loop]. destruct (read_header data cur stop) as [h|] eqn:E; [|done].
  apply read_header_inside in E as (Hst & Hh & He & _); [|lia..].
  assert (Hb : bend h = cur + size h) by (unfold bend; rewrite Hst; nowrap; lia). rewrite Hb, (IH (cur + size h)) by lia. done.
Qed.
End Walk.

(** The headers of rendered boxes. *)
Fixpoint headers (o : Z) (bs : list Box) : list BoxHeader :=
  match bs with
  | [] => []
  | b :: bs' => mkBoxHeader o (bsize b) (kind b) 8 :: headers (o + bsize b) bs'
  end.

Lemma read_at_mid pre mid post a n : a = len pre -> n = len mid -> read_at (pre ++ mid ++ post) a n = Some (from_be mid).
Proof. intros -> ->. unfold read_at. by rewrite slice_mid by lia. Qed.

Lemma read_at_be pre n v post a m :
  a = len pre -> m = Z.of_nat n -> 0 <= v < 256 ^ Z.of_nat n -> read_at (pre ++ to_be n v ++ post) a m = Some v.
Proof. intros -> -> Hv. rewrite read_at_mid by (rewrite ?len_to_be; lia). by rewrite from_to_be_small. Qed.

Lemma read_header_render pre b post stop :
  box_ok b -> len pre + bsize b <= stop -> stop < 2 ^ 63 ->
  read_header (pre ++ render b ++ post) (len pre) stop = Some (mkBoxHeader (len pre) (bsize b) (kind b) 8).
Proof.
  intros Hb Hs H63. pose proof (bsize_ge b). pose proof (len_nonneg pre). unfold read_header, render.
  assert (Hadd : forall x, 0 <= x -> len pre + x <= stop -> checked_add 64 (len pre) x = Some (len pre + x)).
  { intros x Hx Hy. apply checked_add_Some. rewrite umax_64. lia. }
  rewrite Hadd by lia. cbn [mbind option_bind]. decide_le. rewrite <-!app_assoc.
  destruct Hb as [Hk Hz].
  rewrite (read_at_be pre 4 (bsize b) _ (len pre) 4) by (done || (change (256 ^ Z.of_nat 4) with (2 ^ 32); lia)). cbn [mbind option_bind].
  rewrite (app_assoc pre). rewrite (slice_mid _ (kind b) _ (len pre + 4) (len pre + 8)) by (rewrite len_app, len_to_be; lia). cbn [mbind option_bind].
  decide_le. cbn [mbind option_bind]. decide_le. rewrite Hadd by lia. cbn [mbind option_bind]. by decide_le.
Qed.

Lemma children_render pre bs post stop :
  Forall box_ok bs -> len (pre ++ renders bs ++ post) < 2 ^ 63 -> stop = len pre + len (renders bs) ->
  children (pre ++ renders bs ++ post) (len pre) stop = headers (len pre) bs.
Proof.
  intros Hok Hlen ->. unfold children. pose proof (renders_length bs Hok) as Hl.
  assert (Hf : (length bs < S (length (pre ++ renders bs ++ post)))%nat) by (rewrite !length_app; unfold len in *; lia).
  revert Hf. generalize (S (length (pre ++ renders bs ++ post))). clear Hl. intros fuel. revert pre fuel Hlen.
  induction Hok as [|b bs Hb _ IH]; intros pre fuel Hlen Hf; (destruct fuel as [|f]; [cbn in Hf; lia|]); cbn [children_loop headers].
  - rewrite renders_nil, len_nil, Z.add_0_r. unfold read_header. pose proof (len_nonneg pre). pose proof (len_nonneg post).
    rewrite (proj2 (checked_add_Some 64 (len pre) 8 (len pre + 8))); [cbn [mbind option_bind]; by decide_le|].
    rewrite umax_64. revert Hlen. lens. lia.
  - rewrite renders_cons in *. rewrite <-app_assoc in *. pose proof (len_nonneg pre). pose proof (len_nonneg post).
    pose proof (len_nonneg (renders bs)). pose proof (bsize_ge b).
    assert (Hsz : len pre + bsize b + len (renders bs) + len post < 2 ^ 63) by (revert Hlen; lens; rewrite len_render by done; lia).
    rewrite len_app, len_render by done. rewrite read_header_render by (done || lia).
    unfold bend at 1. cbn [start size]. nowrap. f_equal.
    replace (len pre + bsize b) with (len (pre ++ render b)) by (lens; rewrite len_render by done; lia).
    rewrite app_assoc. replace (len pre + (bsize b + len (renders bs))) with (len (pre ++ render b) + len (renders bs))
      by (lens; rewrite len_render by done; lia).
    apply IH; [by rewrite <-app_assoc|cbn in Hf; lia].
Qed.

(** ** Durations of rendered runs *)

Lemma to_be_head n v : exists x l, to_be (S n) v = x :: l /\ is_byte x /\ length l = n.
Proof.
  pose proof (to_be_bytes (S n) v) as Hb. pose proof (to_be_length (S n) v) as Hl.
  destruct (to_be (S n) v) as [|x l]; [done|]. inversion Hb; subst. exists x, l. split_and!; [done..|]. cbn in Hl. lia.
Qed.

(** The flags are the three bytes after the version; the source reads four and shifts one out. *)
Lemma flags_at_render pre flags v rest data b :
  data = pre ++ [0] ++ to_be 3 flags ++ to_be 4 v ++ rest -> b = len pre -> 0 <= flags < 2 ^ 24 -> len data < 2 ^ 63 ->
  flags_at data b = Some flags.
Proof.
  intros Hd -> Hf Hlen. destruct (to_be_head 3 v) as (x & l & Hx & Hb & _). unfold flags_at.
  pose proof (len_nonneg pre). pose proof (len_nonneg rest).
  assert (len pre < 2 ^ 62 + 2 ^ 62) by (rewrite Hd in Hlen; revert Hlen; lens; lia). nowrap.
  rewrite Hd, Hx. replace (pre ++ [0] ++ to_be 3 flags ++ (x :: l) ++ rest) with ((pre ++ [0]) ++ (to_be 3 flags ++ [x]) ++ (l ++ rest))
    by (by rewrite <-!app_assoc).
  rewrite read_at_mid by (lens; lia). cbn [mbind option_bind]. rewrite from_be_snoc, from_to_be_small by (change (256 ^ Z.of_nat 3) with (2 ^ 24); lia).
  f_equal. unfold is_byte in Hb. rewrite Z.shiftr_div_pow2 by lia. change (2 ^ 8) with 256.
  rewrite Z.div_add_l, (Z.div_small x), Z.add_0_r by lia. change 0xffffff with (Z.ones 24). rewrite Z.land_ones by lia.
  by apply Z.mod_small.
Qed.

Definition durations (samples : list TrunSample) : list Z := s_duration <$> samples.
Definition duration_ok (t : trun_fields) : Prop := Forall (fun s => 0 <= s_duration s < 2 ^ 32) (tr_samples t).

Lemma durations_range l : Forall (fun s => 0 <= s_duration s < 2 ^ 32) l -> 0 <= sumZ (durations l) <= len l * (2 ^ 32 - 1).
Proof.
  induction 1 as [|s l Hs _ IH]; [done|]. unfold durations in *. rewrite fmap_cons, len_cons.
  change (sumZ (s_duration s :: (s_duration <$> l))) with (s_duration s + sumZ (s_duration <$> l)). lia.
Qed.

Lemma sum_durations_render flags pre l1 l2 post data :
  has flags 256 = true -> data = pre ++ concat (render_entry flags <$> (l1 ++ l2)) ++ post -> len data < 2 ^ 63 ->
  Forall (fun s => 0 <= s_duration s < 2 ^ 32) (l1 ++ l2) -> len (l1 ++ l2) < 2 ^ 32 ->
  sum_durations data (length l2) (len pre) (entry_len flags) (len l1) (sumZ (durations l1)) = Some (sumZ (durations (l1 ++ l2))).
Proof.
  intros H256 Hd Hlen Hr Hc. revert l1 Hd Hr Hc. induction l2 as [|s l2 IH]; intros l1 Hd Hr Hc; [by rewrite app_nil_r|].
  cbn [length sum_durations].
  assert (He : 4 <= entry_len flags <= 16) by (unfold entry_len; rewrite H256; repeat case_match; lia).
  pose proof (len_nonneg pre). pose proof (len_nonneg post). pose proof (len_nonneg l1). pose proof (len_nonneg l2).
  assert (Hall : len data = len pre + (len l1 + 1 + len l2) * entry_len flags + len post).
  { rewrite Hd, !len_app, len_entries, len_app, len_cons. lia. }
  assert (0 <= len l1 * entry_len flags /\ 0 <= len l2 * entry_len flags) as [? ?] by lia.
  rewrite (proj2 (checked_mul_Some _ _ _ _)) by (split; [done|]; rewrite umax_64; lia). cbn [mbind option_bind].
  rewrite (proj2 (checked_add_Some _ _ _ _)) by (split; [done|]; rewrite umax_64; lia). cbn [mbind option_bind].
  apply Forall_app in Hr as Hr'. destruct Hr' as [Hr1 Hr2]. apply Forall_cons in Hr2 as [Hs Hr2].
  assert (Hread : read_at data (len pre + len l1 * entry_len flags) 4 = Some (s_duration s)).
  { rewrite Hd, fmap_app, fmap_cons, concat_app. cbn [concat]. unfold render_entry at 2. rewrite H256. cbn [word].
    rewrite <-!app_assoc, app_assoc. apply read_at_be; [by rewrite len_app, len_entries|done|].
    change (256 ^ Z.of_nat 4) with (2 ^ 32). lia. }
  rewrite Hread. cbn [mbind option_bind]. pose proof (durations_range l1 Hr1). rewrite len_app, len_cons in Hc.
  rewrite (proj2 (checked_add_Some _ _ _ _)) by (split; [done|]; rewrite umax_64; nia). cbn [mbind option_bind].
  specialize (IH (l1 ++ [s])). rewrite <-app_assoc in IH. cbn [app] in IH.
  rewrite <-IH; [|done|done|by rewrite len_app, len_cons]. f_equal; [by rewrite len_app|].
  unfold durations. rewrite fmap_app, sumZ_app. cbn. lia.
Qed.

(** Ticks of a run: its own durations, or the default one for each sample. *)
Definition ticks_of (d : Z) (t : trun_fields) : Z :=
  if has (tr_flags t) 256 then sumZ (durations (tr_samples t)) else len (tr_samples t) * d.

Lemma run_ticks_render pre t post d o :
  trun_ok t -> duration_ok t -> box_ok (trun_box t) -> len (pre ++ render (trun_box t) ++ post) < 2 ^ 63 ->
  o = len pre -> 0 <= d < 2 ^ 32 ->
  run_ticks (pre ++ render (trun_box t) ++ post) (mkBoxHeader o (bsize (trun_box t)) (kind (trun_box t)) 8) (Some d) =
  Some (ticks_of d t).
Proof.
  intros (Hf & Ho & Hc & _) Hdur Hb Hlen -> Hd. destruct t as [flags off ff samples].
  cbn [tr_flags tr_offset tr_first_flags tr_samples] in *. set (b := trun_box _) in *.
  pose proof (len_nonneg pre). pose proof (len_nonneg post). pose proof (len_nonneg samples).
  set (data := pre ++ render b ++ post) in *. set (p := pre ++ to_be 4 (bsize b) ++ kind b).
  set (entries := concat (render_entry flags <$> samples)).
  assert (Hp : len p = len pre + 8) by (subst p; lens; destruct Hb; lia).
  assert (Hdata : data = p ++ [0] ++ to_be 3 flags ++ to_be 4 (len samples) ++ word (has flags 1) off ++ word (has flags 4) ff ++
    entries ++ post).
  { subst data p entries. unfold render, b, trun_box. cbn [kind body tr_flags tr_offset tr_first_flags tr_samples].
    unfold render_trun. by rewrite <-!app_assoc. }
  assert (Hall : len data = len p + 8 + (if has flags 1 then 4 else 0) + (if has flags 4 then 4 else 0) + len entries + len post)
    by (rewrite Hdata; lens; lia).
  pose proof (len_nonneg entries).
  unfold run_ticks, bbody. cbn [start hlen]. rewrite !(uadd_small (len pre) 8) by (repeat case_match; lia). rewrite <-Hp.
  rewrite (flags_at_render p flags (len samples) (word (has flags 1) off ++ word (has flags 4) ff ++ entries ++ post)) by done.
  cbn [mbind option_bind]. assert (len p + 16 < 2 ^ 64) by (repeat case_match; lia).
  rewrite (uadd_small (len p) 4), (uadd_small (len p) 8) by lia.
  assert (Hcount : read_at data (len p + 4) 4 = Some (len samples)).
  { rewrite Hdata. replace (p ++ [0] ++ to_be 3 flags ++ to_be 4 (len samples) ++ word (has flags 1) off ++ word (has flags 4) ff ++
      entries ++ post) with ((p ++ [0] ++ to_be 3 flags) ++ to_be 4 (len samples) ++
      (word (has flags 1) off ++ word (has flags 4) ff ++ entries ++ post)) by (by rewrite <-!app_assoc).
    apply read_at_be; [lens; lia|done|]. change (256 ^ Z.of_nat 4) with (2 ^ 32). lia. }
  assert (Hver : read_at data (len p) 1 = Some 0) by (rewrite Hdata; apply (read_at_mid p [0]); done).
  rewrite Hcount. cbn [mbind option_bind]. rewrite Hver. cbn [mbind option_bind]. unfold ticks_of. cbn [tr_flags tr_samples].
  destruct (has flags 256) eqn:H256; cbn [negb].
  2: { cbn [mbind option_bind]. apply checked_mul_Some. split; [done|]. rewrite umax_64. nia. }
  change (0 =? 1) with false. cbv iota.
  set (q := p ++ [0] ++ to_be 3 flags ++ to_be 4 (len samples) ++ word (has flags 1) off ++ word (has flags 4) ff).
  match goal with |- sum_durations _ _ ?o ?st _ _ = _ => replace o with (len q); [replace st with (entry_len flags)|] end.
  - rewrite len_to_nat. change 0 with (len (@nil TrunSample)) at 1. change 0 with (sumZ (durations [])) at 1.
    apply (sum_durations_render flags q [] samples post); try done. rewrite Hdata. subst q entries. by rewrite <-!app_assoc.
  - unfold entry_len. by rewrite H256.
  - subst q. lens. destruct (has flags 1), (has flags 4); nowrap; lia.
Qed.

Lemma tfhd_duration_render pre h post o :
  tfhd_ok h -> box_ok (tfhd_box h) -> len (pre ++ render (tfhd_box h) ++ post) < 2 ^ 63 -> o = len pre ->
  tfhd_default_duration (pre ++ render (tfhd_box h) ++ post) (mkBoxHeader o (bsize (tfhd_box h)) (kind (tfhd_box h)) 8) =
  if has (th_flags h) 8 then Some (th_duration h) else None.
Proof.
  intros (Hf & Hd & Hz) Hb Hlen ->. destruct h as [flags track base sdi duration size].
  cbn [th_flags th_duration th_size] in *. set (b := tfhd_box _) in *.
  pose proof (len_nonneg pre). pose proof (len_nonneg post).
  set (data := pre ++ render b ++ post) in *. set (p := pre ++ to_be 4 (bsize b) ++ kind b).
  assert (Hp : len p = len pre + 8) by (subst p; lens; destruct Hb; lia).
  set (q := p ++ [0] ++ to_be 3 flags ++ to_be 4 track ++ (if has flags 1 then to_be 8 base else []) ++ word (has flags 2) sdi).
  assert (Hq : len q = len p + 8 + (if has flags 1 then 8 else 0) + (if has flags 2 then 4 else 0))
    by (subst q; lens; destruct (has flags 1), (has flags 2); lens; lia).
  assert (Hdata : data = q ++ word (has flags 8) duration ++ word (has flags 16) size ++ post).
  { subst data q p. unfold render, b, tfhd_box. cbn [kind body th_flags th_track th_base th_sdi th_duration th_size].
    unfold render_tfhd. by rewrite <-!app_assoc. }
  assert (Hall : len q + len (word (has flags 8) duration) <= len data).
  { rewrite Hdata. lens. pose proof (len_nonneg post). repeat case_match; lia. }
  rewrite len_word in Hall.
  unfold tfhd_default_duration, bbody. cbn [start hlen].
  rewrite !(uadd_small (len pre) 8) by (repeat case_match; lia). rewrite <-Hp.
  rewrite (flags_at_render p flags track ((if has flags 1 then to_be 8 base else []) ++ word (has flags 2) sdi ++
    word (has flags 8) duration ++ word (has flags 16) size ++ post)) by
    (done || (rewrite Hdata; subst q; by rewrite <-!app_assoc)).
  cbn [mbind option_bind]. destruct (has flags 8) eqn:H8; cbn [negb]; [|done].
  match goal with |- read_at _ ?o _ = _ => replace o with (len q) end.
  - rewrite Hdata. apply read_at_be; [done|done|]. change (256 ^ Z.of_nat 4) with (2 ^ 32). lia.
  - rewrite Hq. destruct (has flags 1), (has flags 2); nowrap; lia.
Qed.

Lemma headers_app o bs1 bs2 :
  Forall box_ok bs1 -> headers o (bs1 ++ bs2) = headers o bs1 ++ headers (o + len (renders bs1)) bs2.
Proof.
  intros H. revert o. induction H as [|b bs Hb _ IH]; intros o; cbn [headers app]; [by rewrite renders_nil, len_nil, Z.add_0_r|].
  rewrite IH. do 3 f_equal. lens. rewrite len_render by done. lia.
Qed.

Lemma headers_skip {A} (f : BoxHeader -> option A) o bs :
  (forall b o, b ∈ bs -> f (mkBoxHeader o (bsize b) (kind b) 8) = None) -> find_map f (headers o bs) = None.
Proof.
  revert o. induction bs as [|b bs IH]; intros o Hf; [done|]. cbn [headers find_map].
  rewrite Hf by left. apply IH. intros. apply Hf. by right.
Qed.

Lemma find_map_app {A B} (f : A -> option B) l1 l2 : find_map f l1 = None -> find_map f (l1 ++ l2) = find_map f l2.
Proof. induction l1 as [|x l1 IH]; [done|]. cbn. destruct (f x); [done|]. exact IH. Qed.

Section Traf.
Variables (pre : list Z) (T : list Box) (post : list Z) (h : tfhd_fields) (ts : list trun_fields).
Let data := pre ++ renders T ++ post.
Hypothesis Hok : Forall box_ok T.
Hypothesis Hlen : len data < 2 ^ 63.
Hypothesis Htfhd : first_is (tfhd_box h) T /\ tfhd_ok h.
Hypothesis Hts : Forall trun_ok ts /\ Forall duration_ok ts.

Lemma declared_duration :
  find_map (fun b => if is_kind "tfhd" b then Some (tfhd_default_duration data b) else None) (headers (len pre) T) =
  Some (if has (th_flags h) 8 then Some (th_duration h) else None).
Proof.
  destruct Htfhd as ((bs1 & bs2 & HT & Hn) & Hh). rewrite HT in Hok |- *.
  apply Forall_app in Hok as [Hok1 Hok2]. apply Forall_cons in Hok2 as [Hb _].
  rewrite headers_app, find_map_app by (done || (apply headers_skip; intros b o Hin; unfold is_kind; cbn [bkind];
    rewrite Forall_forall in Hn; rewrite bool_decide_eq_false_2; [done|exact (Hn b Hin)])).
  cbn [headers find_map]. unfold is_kind at 1. cbn [bkind]. rewrite bool_decide_eq_true_2 by done. f_equal.
  assert (Hd : data = (pre ++ renders bs1) ++ render (tfhd_box h) ++ (renders bs2 ++ post))
    by (subst data; rewrite HT, renders_app, renders_cons; by rewrite <-!app_assoc).
  rewrite Hd in Hlen |- *. apply tfhd_duration_render; [done..|by rewrite len_app].
Qed.

Lemma runs_ticks bs1 bs2 ts2 d total resolved :
  T = bs1 ++ bs2 -> filter (fun b => is_run b = true) bs2 = trun_box <$> ts2 -> Forall trun_ok ts2 -> Forall duration_ok ts2 ->
  0 <= d < 2 ^ 32 -> 0 <= total -> total + sumZ (ticks_of d <$> ts2) < 2 ^ 64 -> Forall (fun x => 0 <= x) (ticks_of d <$> ts2) ->
  foldl (fun acc child =>
    '(total, resolved) ← acc;
    if is_kind "trun" child then
      ticks ← run_ticks data child (Some d);
      total ← checked_add 64 total ticks;
      Some (total, true)
    else Some (total, resolved)) (Some (total, resolved)) (headers (len pre + len (renders bs1)) bs2) =
  Some (total + sumZ (ticks_of d <$> ts2), match ts2 with [] => resolved | _ => true end).
Proof.
  intros HT Hf Ht Hdu Hd. revert bs1 ts2 total resolved HT Hf Ht Hdu.
  induction bs2 as [|b bs2 IH]; intros bs1 ts2 total resolved HT Hf Ht Hdu H0 Hs Hp; cbn [headers foldl].
  - destruct ts2; [|done]. cbn. by rewrite Z.add_0_r.
  - rewrite filter_cons in Hf.
    assert (Hb : box_ok b) by (rewrite HT in Hok; apply Forall_app in Hok as [_ Hr]; by inversion Hr).
    assert (Hnext : len pre + len (renders bs1) + bsize b = len pre + len (renders (bs1 ++ [b])))
      by (lens; rewrite len_render by done; lia).
    assert (HT' : T = (bs1 ++ [b]) ++ bs2) by (by rewrite <-app_assoc). rewrite Hnext.
    unfold is_kind at 2. cbn [bkind]. unfold is_run, kind_is in Hf. cbn [mbind option_bind].
    destruct (bool_decide (kind b = lit "trun")) eqn:E; case_decide; try done; [|by apply IH].
    destruct ts2 as [|t ts2]; [done|]. rewrite !fmap_cons in *. injection Hf as -> Hf.
    apply Forall_cons in Ht as [Hto Ht]. apply Forall_cons in Hdu as [Hdo Hdu]. apply Forall_cons in Hp as [Hpt Hp].
    change (sumZ (ticks_of d t :: (ticks_of d <$> ts2))) with (ticks_of d t + sumZ (ticks_of d <$> ts2)) in *.
    pose proof (sumZ_nonneg _ Hp).
    assert (Hdata : data = (pre ++ renders bs1) ++ render (trun_box t) ++ (renders bs2 ++ post))
      by (subst data; rewrite HT, renders_app, renders_cons; by rewrite <-!app_assoc).
    assert (Hrun : run_ticks data (mkBoxHeader (len pre + len (renders bs1)) (bsize (trun_box t)) (kind (trun_box t)) 8) (Some d) =
      Some (ticks_of d t)).
    { rewrite Hdata in Hlen |- *. apply run_ticks_render; [done..|by rewrite len_app|done]. }
    rewrite Hrun. cbn [mbind option_bind].
    rewrite (proj2 (checked_add_Some 64 total (ticks_of d t) (total + ticks_of d t))) by (split; [done|rewrite umax_64; lia]).
    cbn [mbind option_bind]. rewrite (IH _ ts2) by (done || lia). do 2 f_equal; [lia|by destruct ts2].
Qed.
End Traf.

(** A default duration: the header's, or the movie's when that is positive. *)
Definition default_for (h : tfhd_fields) (trex : option Z) (d : Z) : Prop :=
  if has (th_flags h) 8 then th_duration h = d else trex = Some d /\ 0 < d < 2 ^ 32.

Lemma ticks_nonneg d t : 0 <= d -> duration_ok t -> 0 <= ticks_of d t.
Proof.
  intros Hd Ht. unfold ticks_of. pose proof (durations_range _ Ht). pose proof (len_nonneg (tr_samples t)).
  case_match; [lia|nia].
Qed.

(** The ticks of a fragment: all its runs. *)
Lemma traf_ticks_render pre T post h ts trex d o z total resolved :
  Forall box_ok T -> box_ok (mkBox (lit "traf") (renders T)) -> len (pre ++ render (mkBox (lit "traf") (renders T)) ++ post) < 2 ^ 63 ->
  first_is (tfhd_box h) T -> tfhd_ok h -> filter (fun b => is_run b = true) T = trun_box <$> ts -> Forall trun_ok ts ->
  Forall duration_ok ts -> default_for h trex d -> o = len pre -> z = bsize (mkBox (lit "traf") (renders T)) -> 0 <= total ->
  total + sumZ (ticks_of d <$> ts) < 2 ^ 64 ->
  traf_ticks (pre ++ render (mkBox (lit "traf") (renders T)) ++ post) trex (Some (total, resolved)) (mkBoxHeader o z (lit "traf") 8) =
  Some (total + sumZ (ticks_of d <$> ts), match ts with [] => resolved | _ => true end).
Proof.
  intros Hok Hb Hlen Hh Hho Hf Ht Hdu Hdef -> -> H0 Hs.
  set (data := pre ++ render (mkBox (lit "traf") (renders T)) ++ post) in *.
  set (p := pre ++ to_be 4 (bsize (mkBox (lit "traf") (renders T))) ++ lit "traf").
  assert (Hd : data = p ++ renders T ++ post) by (subst data p; unfold render; cbn [kind body]; by rewrite <-!app_assoc).
  assert (Hp : len p = len pre + 8) by (subst p; lens; done).
  assert (Hz : bsize (mkBox (lit "traf") (renders T)) = 8 + len (renders T)) by reflexivity.
  pose proof (len_nonneg pre). pose proof (len_nonneg (renders T)). pose proof (len_nonneg post).
  assert (len p + len (renders T) + len post < 2 ^ 63) by (rewrite Hd in Hlen; revert Hlen; lens; lia).
  unfold traf_ticks. cbn [mbind option_bind]. change (is_kind "traf" _) with true. cbn [negb].
  unfold bbody, bend. cbn [start size hlen]. rewrite Hz. nowrap. rewrite <-Hp.
  replace (len pre + (8 + len (renders T))) with (len p + len (renders T)) by lia.
  rewrite Hd in Hlen |- *. rewrite children_render by done.
  rewrite (declared_duration p T post h Hok Hlen (conj Hh Hho)). cbn [mbind option_bind]. unfold id at 1.
  assert (Hor : or_else (if has (th_flags h) 8 then Some (th_duration h) else None)
      (trex ≫= fun v => if 0 <? v then Some v else None) = Some d /\ 0 <= d < 2 ^ 32).
  { unfold default_for in Hdef. destruct Hho as (_ & Hdd & _). destruct (has (th_flags h) 8); [by subst|].
    destruct Hdef as [-> Hd0]. cbn. split; [by decide_le|lia]. }
  destruct Hor as [-> Hd32].
  pose proof (runs_ticks p T post Hok Hlen [] T ts d total resolved eq_refl Hf Ht Hdu Hd32 H0 Hs) as Hr.
  replace (len p + len (renders [])) with (len p) in Hr by (rewrite renders_nil, len_nil; lia). rewrite Hr; [done|].
  apply Forall_fmap. eapply Forall_impl; [exact Hdu|]. intros t Hdt. apply ticks_nonneg; [lia|done].
Qed.

(** ** Writing the duration *)

Lemma drop_to_be m n v : drop m (to_be (m + n) v) = to_be n v.
Proof.
  revert v. induction n as [|n IH]; intros v.
  - rewrite Nat.add_0_r, drop_ge; [done|]. by rewrite to_be_length.
  - rewrite Nat.add_succ_r. change (to_be (S (m + n)) v) with (to_be (m + n) (v / 256) ++ [v mod 256]).
    change (to_be (S n) v) with (to_be n (v / 256) ++ [v mod 256]). rewrite drop_app_le by (rewrite to_be_length; lia). by rewrite IH.
Qed.

Lemma encode_bytes f ticks : drop (8 - width f) (encode f ticks) = to_be (width f) ticks.
Proof.
  unfold encode, width. destruct (wide f); [done|].
  change (drop (8 - 4) (replicate (8 - 4) 0 ++ drop (8 - 4) (to_be 8 ticks))) with (drop 4 (to_be (4 + 4) ticks)).
  apply drop_to_be.
Qed.

Lemma slice_app_l (p r : list Z) x y : y <= len p -> slice (p ++ r) x y = slice p x y.
Proof.
  intros Hy. unfold slice. rewrite len_app. pose proof (len_nonneg r).
  replace (y <=? len p + len r) with true by (symmetry; apply Z.leb_le; lia). rewrite (proj2 (Z.leb_le y (len p)) Hy).
  destruct (0 <=? x) eqn:E1, (x <=? y) eqn:E2; cbn [andb]; try done. to_prop. f_equal. unfold len in *.
  rewrite drop_app_le by lia. by rewrite take_app_le by (rewrite length_drop; lia).
Qed.

Lemma store_spec data a new data' :
  store data a new = Some data' ->
  len data' = len data /\ slice data' a (a + len new) = Some new /\
  (forall x y, y <= a \/ 0 <= x /\ a + len new <= x -> slice data' x y = slice data x y).
Proof.
  intros H. pose proof (store_len _ _ _ _ H) as Hl. pose proof (len_nonneg new).
  assert (Hb : 0 <= a /\ a + len new <= len data).
  { revert H. unfold store. destruct (_ && _)%bool eqn:E; [|done]. to_prop. lia. }
  destruct (cut data a (a + len new)) as (p & m & q & -> & Hp & Hm); [lia..|].
  rewrite (store_mid p m q) in H by lia. injection H as <-. split_and!; [done|by apply slice_mid; lia|].
  intros x y [Hy|[Hx0 Hx]].
  - by rewrite !slice_app_l by lia.
  - replace x with (len (p ++ new) + (x - len (p ++ new))) at 1 by lia.
    replace x with (len (p ++ m) + (x - len (p ++ m))) at 2 by lia.
    replace y with (len (p ++ new) + (y - len (p ++ new))) at 1 by lia.
    replace y with (len (p ++ m) + (y - len (p ++ m))) at 2 by lia.
    rewrite !app_assoc, !slice_pre by (lens; lia). lens. f_equal; lia.
Qed.

(** What the fields leave alone. *)
Definition outside (fields : list DurationField) (x y : Z) : Prop :=
  Forall (fun f => y <= offset f \/ 0 <= x /\ offset f + Z.of_nat (width f) <= x) fields.

Lemma stamp_fields_spec fields ticks data :
  let '(ok, data') := stamp_fields fields ticks data in
  len data' = len data /\
  (forall x y, outside fields x y -> slice data' x y = slice data x y) /\
  (ok = true -> forall f fs1 fs2, fields = fs1 ++ f :: fs2 -> outside fs2 (offset f) (offset f + Z.of_nat (width f)) ->
     slice data' (offset f) (offset f + Z.of_nat (width f)) = Some (to_be (width f) ticks)).
Proof.
  revert data. induction fields as [|f fields IH]; intros data; cbn [stamp_fields].
  - split_and!; [done|done|]. intros _ f [|]; done.
  - destruct (checked_add 64 (offset f) (Z.of_nat (width f))) as [stop|]; [|by split_and!].
    destruct (len data <? stop); [by split_and!|]. rewrite encode_bytes.
    destruct (store data (offset f) (to_be (width f) ticks)) as [data1|] eqn:E; [|by split_and!].
    apply store_spec in E as (Hl & Hw & Ho). rewrite len_to_be in Hw, Ho. specialize (IH data1).
    destruct (stamp_fields fields ticks data1) as [ok data2]. destruct IH as (Hl2 & Ho2 & Hw2). split_and!.
    + lia.
    + intros x y Hx. apply Forall_cons in Hx as [Hxf Hx]. rewrite Ho2 by done. by apply Ho.
    + intros Hok g [|g' fs1] fs2 Hfs Hdis; cbn in Hfs; injection Hfs as <- Hfs.
      * subst fields. by rewrite Ho2.
      * subst fields. by eapply Hw2.
Qed.

(** ** Theorems *)

(** The walk ends: with more turns than the parent has bytes it finds what it finds with any more, and
    what it finds are consecutive boxes from the start of the parent, none beyond its end. *)
Theorem children_complete (data : list Z) (start stop : Z) :
  len data < 2 ^ 63 -> 0 <= start <= stop -> stop <= len data ->
  tiles start stop (children data start stop) /\
  forall fuel, (length data < fuel)%nat -> children_loop data fuel start stop = children data start stop.
Proof.
  intros Hlen Hs He. split; [by apply children_loop_tiles|]. intros fuel Hf. unfold children.
  apply children_loop_fuel; try done; unfold len in *; lia.
Qed.

Lemma children_complete_witness :
  children_loop (renders demo_boxes) 40 0 27 = headers 0 demo_boxes /\ children (renders demo_boxes) 0 27 = headers 0 demo_boxes.
Proof.
  destruct (children_complete (renders demo_boxes) 0 27 ltac:(by vm_compute) ltac:(by vm_compute) ltac:(by vm_compute)) as [_ H].
  rewrite (H 40%nat) by (by vm_compute; lia). by vm_compute.
Defined.

(** A fragment lasts as long as its runs: for a [moof] with one track fragment, rendered from its fields, the
    scan adds up the durations of the runs that carry them and the default duration for each
    sample of the others; a fragment without runs has no duration. *)
Theorem fragment_ticks_correct (pre post : list Z) (m1 m2 T : list Box) (h : tfhd_fields) (ts : list trun_fields)
    (trex : option Z) (d : Z) :
  let traf := mkBox (lit "traf") (renders T) in
  let moof := mkBox (lit "moof") (renders (m1 ++ traf :: m2)) in
  let data := pre ++ render moof ++ post in
  Forall box_ok T -> Forall box_ok (m1 ++ traf :: m2) -> box_ok moof -> len data < 2 ^ 63 ->
  Forall (fun b => kind b <> lit "traf") (m1 ++ m2) ->
  first_is (tfhd_box h) T -> tfhd_ok h -> filter (fun b => is_run b = true) T = trun_box <$> ts -> Forall trun_ok ts ->
  Forall duration_ok ts -> default_for h trex d -> sumZ (ticks_of d <$> ts) < 2 ^ 64 ->
  fragment_ticks data (mkBoxHeader (len pre) (bsize moof) (lit "moof") 8) trex =
  match ts with [] => None | _ => Some (sumZ (ticks_of d <$> ts)) end.
Proof.
  intros traf moof data HT Hm Hmo Hlen Hn Hh Hho Hf Ht Hdu Hdef Hs.
  set (p := pre ++ to_be 4 (bsize moof) ++ lit "moof").
  assert (Hd : data = p ++ renders (m1 ++ traf :: m2) ++ post) by (subst data p; unfold render, moof; cbn [kind body]; by rewrite <-!app_assoc).
  assert (Hp : len p = len pre + 8) by (subst p; lens; done).
  assert (Hz : bsize moof = 8 + len (renders (m1 ++ traf :: m2))) by reflexivity.
  pose proof (len_nonneg pre). pose proof (len_nonneg (renders (m1 ++ traf :: m2))). pose proof (len_nonneg post).
  assert (len p + len (renders (m1 ++ traf :: m2)) + len post < 2 ^ 63) by (rewrite Hd in Hlen; revert Hlen; rewrite !len_app; lia).
  unfold fragment_ticks, bbody, bend. cbn [start size hlen]. rewrite Hz. nowrap. rewrite <-Hp.
  replace (len pre + (8 + len (renders (m1 ++ traf :: m2)))) with (len p + len (renders (m1 ++ traf :: m2))) by lia.
  rewrite Hd in Hlen |- *. rewrite children_render by done.
  apply Forall_app in Hm as [Hm1 Hm2]. apply Forall_cons in Hm2 as [Htr Hm2]. apply Forall_app in Hn as [Hn1 Hn2].
  assert (Hskip : forall D o bs acc, Forall (fun b => kind b <> lit "traf") bs -> foldl (traf_ticks D trex) (Some acc) (headers o bs) = Some acc).
  { intros D o bs [a r] Hbs. revert o. induction Hbs as [|b bs Hb _ IH]; intros o; [done|]. cbn [headers foldl].
    unfold traf_ticks at 2. cbn [mbind option_bind]. unfold is_kind at 1. cbn [bkind].
    rewrite bool_decide_eq_false_2 by done. apply IH. }
  rewrite headers_app, foldl_app, Hskip by done. cbn [headers foldl].
  assert (Hd2 : p ++ renders (m1 ++ traf :: m2) ++ post = (p ++ renders m1) ++ render traf ++ (renders m2 ++ post))
    by (by rewrite renders_app, renders_cons, <-!app_assoc).
  rewrite Hd2 in Hlen |- *. rewrite (traf_ticks_render _ T _ h ts trex d); try done; [|by rewrite len_app].
  rewrite Hskip by done. cbn [mbind option_bind]. by destruct ts.
Qed.

Definition demo_timed : trun_fields := mkTrunFields 0x301 116 0 [mkTrunSample 1000 3 0 0; mkTrunSample 2000 2 0 0].
Definition demo_plain : trun_fields := mkTrunFields 0x201 116 0 [mkTrunSample 0 3 0 0; mkTrunSample 0 2 0 0; mkTrunSample 0 2 0 0].
Definition demo_runs : list Box := [tfhd_box demo_tfhd; trun_box demo_timed; trun_box demo_plain].

(** 3000 ticks in the first run, three samples of 1536 in the second. *)
Lemma fragment_ticks_correct_witness :
  fragment_ticks (render (mkBox (lit "moof") (renders [mkBox (lit "mfhd") []; mkBox (lit "traf") (renders demo_runs)])) ++ [])
    (mkBoxHeader 0 116 (lit "moof") 8) None = Some 7608.
Proof.
  assert (Hd : Forall (fun s => 0 <= s_duration s < 2 ^ 32) (tr_samples demo_timed) /\
               Forall (fun s => 0 <= s_duration s < 2 ^ 32) (tr_samples demo_plain)).
  { split; repeat (apply Forall_cons; split; [cbn; lia|]); apply Forall_nil_2. }
  assert (Hz : Forall (fun s => 0 <= s_size s < 2 ^ 32) (tr_samples demo_timed) /\
               Forall (fun s => 0 <= s_size s < 2 ^ 32) (tr_samples demo_plain)).
  { split; repeat (apply Forall_cons; split; [cbn; lia|]); apply Forall_nil_2. }
  refine (fragment_ticks_correct [] [] [mkBox (lit "mfhd") []] [] demo_runs demo_tfhd [demo_timed; demo_plain] None 1536
    _ _ ltac:(by split; vm_compute) ltac:(by vm_compute) _ _ ltac:(by vm_compute) ltac:(by vm_compute) _ _ ltac:(by vm_compute)
    ltac:(by vm_compute)).
  - repeat (apply Forall_cons; split; [by split; vm_compute|]). apply Forall_nil_2.
  - repeat (apply Forall_cons; split; [by split; vm_compute|]). apply Forall_nil_2.
  - apply Forall_cons. split; [by vm_compute|apply Forall_nil_2].
  - by exists [], [trun_box demo_timed; trun_box demo_plain].
  - apply Forall_cons. split; [split_and!; [by vm_compute..|apply Hz]|].
    apply Forall_cons. split; [split_and!; [by vm_compute..|apply Hz]|apply Forall_nil_2].
  - apply Forall_cons. split; [apply Hd|]. apply Forall_cons. split; [apply Hd|apply Forall_nil_2].
Defined.

(** Stamping keeps the length of the file and every byte outside the duration fields of [mvhd] and
    [mdhd]; when it reports a duration, the field of [mdhd] holds the ticks of the scan, as many of
    their low bytes as it has, and so does the field of [mvhd] unless [mdhd]'s overlaps it. *)
Theorem stamp_writes_fields (fmp4 : list Z) :
  let s := scan fmp4 (len fmp4) in
  let '(duration, fmp4') := stamp_fragmented_duration fmp4 in
  len fmp4' = len fmp4 /\
  (forall x y, outside (omap id [mvhd s; mdhd s]) x y -> slice fmp4' x y = slice fmp4 x y) /\
  (duration <> None ->
     (forall f, mdhd s = Some f ->
        slice fmp4' (offset f) (offset f + Z.of_nat (width f)) = Some (to_be (width f) (total_ticks s))) /\
     (forall f, mvhd s = Some f -> outside (omap id [mdhd s]) (offset f) (offset f + Z.of_nat (width f)) ->
        slice fmp4' (offset f) (offset f + Z.of_nat (width f)) = Some (to_be (width f) (total_ticks s)))).
Proof.
  intros s. unfold stamp_fragmented_duration. fold s. destruct (duration_secs s) as [d|]; [|split_and!; done].
  pose proof (stamp_fields_spec (omap id [mvhd s; mdhd s]) (total_ticks s) fmp4) as Hsp.
  destruct (stamp_fields (omap id [mvhd s; mdhd s]) (total_ticks s) fmp4) as [ok data']. destruct Hsp as (Hl & Ho & Hw).
  split_and!; [done|done|]. intros Hd. assert (ok = true) as Hok by (by destruct ok). specialize (Hw Hok). split.
  - intros f Hf. eapply (Hw f (omap id [mvhd s]) []); [|apply Forall_nil_2].
    cbn [omap list_omap]. rewrite Hf. unfold id. by destruct (mvhd s).
  - intros f Hf Hdis. eapply (Hw f [] (omap id [mdhd s])); [|done]. cbn [omap list_omap]. rewrite Hf. done.
Qed.

(** A movie header whose durations are zero, with the time scales of the movie and of its track. *)
Definition time_header (k : string) (scale : Z) : Box :=
  mkBox (lit k) (to_be 4 0 ++ to_be 4 0 ++ to_be 4 0 ++ to_be 4 scale ++ to_be 4 0).
Definition movie (movie_scale media_scale : Z) : Box :=
  mkBox (lit "moov") (renders [time_header "mvhd" movie_scale;
    mkBox (lit "trak") (renders [mkBox (lit "mdia") (renders [time_header "mdhd" media_scale])])]).

(** A fragment of [count] samples that last [ticks] each; its run carries no entries. *)
Definition plain_fragment (count ticks : Z) : list Box :=
  [mkBox (lit "moof") (renders [mkBox (lit "traf") (renders
     [tfhd_box (mkTfhdFields 8 1 0 0 ticks 0); mkBox (lit "trun") (to_be 4 0 ++ to_be 4 count)])]);
   mkBox (lit "mdat") [1; 2; 3]].
Definition demo_file (movie_scale count ticks : Z) : list Z :=
  renders (movie movie_scale 44100 :: plain_fragment count ticks).

Lemma stamp_writes_fields_witness :
  stamp_fragmented_duration (demo_file 44100 100 4096) =
    (Some (f64_div (f64_of_u 409600) (f64_of_u 44100)), snd (stamp_fragmented_duration (demo_file 44100 100 4096))) /\
  (let '(_, file) := stamp_fragmented_duration (demo_file 44100 100 4096) in slice file 76 80 = Some (to_be 4 409600)).
Proof.
  split; [by vm_compute|]. pose proof (stamp_writes_fields (demo_file 44100 100 4096)) as H. cbv zeta in H.
  destruct (stamp_fragmented_duration (demo_file 44100 100 4096)) as [d file] eqn:E. destruct H as (_ & _ & H).
  destruct H as [H _]; [intros ->; by vm_compute in E|].
  specialize (H (mkDurationField 76 false) ltac:(by vm_compute)). vm_compute in H |- *. exact H.
Defined.

(** A duration of 2^32 ticks and more does not fit the 32-bit field that most files have: 2^20 + 1 samples of
    4096 ticks, 27 hours of sound, are stamped as the 4096 ticks of one sample. *)
Theorem stamp_truncates_long_duration :
  exists fmp4, total_ticks (scan fmp4 (len fmp4)) = 2 ^ 32 + 4096 /\
    let '(duration, fmp4') := stamp_fragmented_duration fmp4 in
    duration = Some (f64_div (f64_of_u (2 ^ 32 + 4096)) (f64_of_u 44100)) /\
    exists f, mdhd (scan fmp4' (len fmp4')) = Some f /\ read_at fmp4' (offset f) (Z.of_nat (width f)) = Some 4096.
Proof.
  exists (demo_file 44100 (2 ^ 20 + 1) 4096). split; [by vm_compute|].
  destruct (stamp_fragmented_duration _) as [d file] eqn:E. vm_compute in E. injection E as <- <-.
  split; [by vm_compute|]. eexists. split; [by vm_compute|by vm_compute].
Qed.

(** The movie header has its own time scale, which the scan ignores when the track has one: the field of [mvhd]
    receives ticks of the track.  One second of sound under a movie scale of 1000 is stamped as 44100
    thousandths. *)
Theorem stamp_ignores_movie_timescale :
  exists fmp4, total_ticks (scan fmp4 (len fmp4)) = timescale (scan fmp4 (len fmp4)) /\
    let '(duration, fmp4') := stamp_fragmented_duration fmp4 in
    duration = Some (f64_of_u 1) /\
    exists f, mvhd (scan fmp4' (len fmp4')) = Some f /\
      read_at fmp4' (offset f - 4) 4 = Some 1000 /\ read_at fmp4' (offset f) (Z.of_nat (width f)) = Some 44100.
Proof.
  exists (demo_file 1000 44100 1). split; [by vm_compute|].
  destruct (stamp_fragmented_duration _) as [d file] eqn:E. vm_compute in E. injection E as <- <-.
  split; [by vm_compute|]. eexists. split; [by vm_compute|]. split; by vm_compute.
Qed.
