(* ===== verification/Widevine.v ===== *)
(** * Widevine: the licence of a CENC stream (crates/apple/src/wrapper/widevine.rs)

    The writer and the reader of protocol buffers, the licence request and the content keys of a licence.
    The codec, the ciphers, the random numbers and the clock are parameters; the reader is a function of
    the data and its position, which it moves also where it fails. *)
From S2P Require Import Prelude Text Bytes Boxes.

#[local] Open Scope rust_scope.

(** ** Writing *)

(** [put_varint]: seven bits a byte, of which ten are enough for 64 bits. *)
Fixpoint varint_bytes (fuel : nat) (value : Z) : list Z :=
  match fuel with
  | O => []
  | S f =>
      let byte := Z.land value 127 in
      let value := Z.shiftr value 7 in
      if value =? 0 then [byte] else Z.lor byte 128 :: varint_bytes f value
  end.
Definition put_varint (value : Z) : list Z := varint_bytes 10 value.

Definition pb_tag (field wire_type : Z) : list Z := put_varint (Z.lor (Z.shiftl field 3) wire_type).
Definition pb_varint (field value : Z) : list Z := pb_tag field 0 ++ put_varint value.
Definition pb_bytes (field : Z) (value : list Z) : list Z := pb_tag field 2 ++ put_varint (len value) ++ value.

(** ** Reading *)

Section Reader.
Variable data : list Z.

Fixpoint varint_loop (n : nat) (shift value pos : Z) : option Z * Z :=
  match n with
  | O => (None, pos)
  | S n =>
      match get data pos with
      | None => (None, pos)
      | Some byte =>
          let value := Z.lor value (wrap 64 (Z.shiftl (Z.land byte 127) shift)) in
          if Z.land byte 128 =? 0 then (Some value, pos + 1) else varint_loop n (shift + 7) value (pos + 1)
      end
  end.
Definition read_varint (pos : Z) : option Z * Z := varint_loop 10 0 0 pos.

(** The next field number and wire type. *)
Definition pb_next (pos : Z) : option (Z * Z) * Z :=
  if len data <=? pos then (None, pos)
  else match read_varint pos with
       | (None, pos) => (None, pos)
       | (Some tag, pos) => (Some (wrap 32 (Z.shiftr tag 3), Z.land tag 7), pos)
       end.

Definition read_bytes (pos : Z) : option (list Z) * Z :=
  match read_varint pos with
  | (None, pos) => (None, pos)
  | (Some n, start) =>
      match checked_add 64 start n with None => (None, start) | Some pos => (slice data start pos, pos) end
  end.

Definition pb_skip (wire_type pos : Z) : option unit * Z :=
  let moved :=
    if wire_type =? 0 then match read_varint pos with (None, pos) => (None, pos) | (Some _, pos) => (Some tt, pos) end
    else if wire_type =? 1 then match checked_add 64 pos 8 with None => (None, pos) | Some pos => (Some tt, pos) end
    else if wire_type =? 2 then
      match read_varint pos with
      | (None, pos) => (None, pos)
      | (Some n, pos) => match checked_add 64 pos n with None => (None, pos) | Some pos => (Some tt, pos) end
      end
    else if wire_type =? 5 then match checked_add 64 pos 4 with None => (None, pos) | Some pos => (Some tt, pos) end
    else (None, pos) in
  match moved with
  | (Some _, pos) => if len data <? pos then (None, pos) else (Some tt, pos)
  | none => none
  end.

Definition malformed (what : str) : WrapperError := Message (lit "Malformed license message (" ++ what ++ lit ")").

(** [reader.skip(wire).ok_or(malformed(what))?]. *)
Definition skip_field {S} (what : str) (wire : Z) (s : S) (pos : Z) : run (S * Z) :=
  match pb_skip wire pos with (None, _) => Fail (malformed what) | (Some _, pos) => mret (s, pos) end.

(** [while let Some((field, wire)) = reader.next()]. *)
Fixpoint read_fields {S} (fuel : nat) (body : Z -> Z -> S -> Z -> run (S * Z)) (s : S) (pos : Z) : run S :=
  match fuel with
  | O => Spin
  | Datatypes.S f =>
      match pb_next pos with
      | (None, _) => mret s
      | (Some (field, wire), pos) => r ← body field wire s pos; let '(s, pos) := r : S * Z in read_fields f body s pos
      end
  end.

(** The message and the wrapped session key of a licence. *)
Definition license_body (field wire : Z) (s : option (list Z) * option (list Z)) (pos : Z) :
    run (option (list Z) * option (list Z) * Z) :=
  if (field =? 2) && (wire =? 2) then let '(m, pos) := read_bytes pos in mret ((m, snd s), pos)
  else if (field =? 4) && (wire =? 2) then let '(k, pos) := read_bytes pos in mret ((fst s, k), pos)
  else skip_field (lit "license field") wire s pos.

(** The fields of a key container. *)
Record key_fields := mkKeyFields { k_id : option (list Z); k_iv : option (list Z); k_wrapped : option (list Z); k_type : option Z }.
Definition no_fields : key_fields := mkKeyFields None None None None.

Definition key_body (f w : Z) (s : key_fields) (pos : Z) : run (key_fields * Z) :=
  if (f =? 1) && (w =? 2) then let '(o, pos) := read_bytes pos in mret (mkKeyFields o (k_iv s) (k_wrapped s) (k_type s), pos)
  else if (f =? 2) && (w =? 2) then let '(o, pos) := read_bytes pos in mret (mkKeyFields (k_id s) o (k_wrapped s) (k_type s), pos)
  else if (f =? 3) && (w =? 2) then let '(o, pos) := read_bytes pos in mret (mkKeyFields (k_id s) (k_iv s) o (k_type s), pos)
  else if (f =? 4) && (w =? 0) then
    let '(o, pos) := read_varint pos in mret (mkKeyFields (k_id s) (k_iv s) (k_wrapped s) (wrap 32 <$> o), pos)
  else skip_field (lit "key field") w s pos.
End Reader.

(** ** The content decryption module *)

Record ContentKey := mkContentKey { key_id : list Z; key_value : list Z }.

(** What the ciphers and the codec do; [K] is a private key. *)
Record crypto (K : Type) := mkCrypto {
  c_private_key : result str K;                         (* the device's key, parsed *)
  c_client_id : result str (list Z);                    (* the device's identity, decoded *)
  c_b64_encode : list Z -> str;
  c_b64_decode : str -> result str (list Z);
  c_sha1 : list Z -> list Z;
  c_sign : K -> list Z -> result str (list Z);          (* PSS with a salt of 20 bytes *)
  c_oaep : K -> list Z -> result str (list Z);
  c_cmac : list Z -> list Z -> result str (list Z);
  c_cbc : list Z -> list Z -> list Z -> result str (list Z);   (* with padding, for 16-byte keys and vectors *)
}.
Arguments c_private_key {K}. Arguments c_client_id {K}. Arguments c_b64_encode {K}. Arguments c_b64_decode {K}.
Arguments c_sha1 {K}. Arguments c_sign {K}. Arguments c_oaep {K}. Arguments c_cmac {K}. Arguments c_cbc {K}.

Record Cdm (K : Type) := mkCdm { private_key : K; client_id : list Z; pssh_body : list Z; session_id : list Z; request_body : list Z }.
Arguments mkCdm {K}. Arguments private_key {K}. Arguments client_id {K}. Arguments pssh_body {K}. Arguments session_id {K}. Arguments request_body {K}.

(** [map_err(|e| WrapperError::Message(format!("what: {e}")))?]. *)
Definition try_message {A} (what : str) (r : result str A) : run A :=
  match r with Ok a => mret a | Err e => Fail (Message (what ++ lit ": " ++ e)) end.

Definition cenc_header (kid : list Z) : list Z := pb_varint 1 1 ++ pb_bytes 2 kid ++ pb_bytes 3 [] ++ pb_bytes 4 [] ++ pb_bytes 5 [].

(** The 32 bytes in front of the header. *)
Definition pssh_prefix : list Z := lit "0123456789abcdef0123456789abcdef".
Definition pssh_from_kid (kid : list Z) : list Z := pssh_prefix ++ cenc_header kid.

Definition alphabet : list Z := lit "ABCDEF0123456789".
(** Sixteen random digits, a counter of one and zeros. *)
Definition new_session_id (random : list Z) : list Z :=
  ((fun r => default 0 (get alphabet (r mod len alphabet))) <$> random) ++ lit "01" ++ replicate 14 48.

Section Cdm.
Context {K : Type}.
Variable c : crypto K.

Definition cdm_new (random : list Z) (kid : list Z) : run (Cdm K) :=
  key ← try_message (lit "Parse device private key") (c_private_key c);
  client ← try_message (lit "Decode device client id") (c_client_id c);
  mret (mkCdm key client (cenc_header kid) (new_session_id random) []).

Definition pssh_b64 (cdm : Cdm K) : str := c_b64_encode c (pssh_prefix ++ pb_bytes 1 (pssh_body cdm)).

Definition request_of (cdm : Cdm K) (now nonce : Z) : list Z :=
  let content_cenc := pb_bytes 1 (pssh_body cdm) ++ pb_varint 2 1 ++ pb_bytes 3 (session_id cdm) in
  let content_id := pb_bytes 1 content_cenc in
  pb_bytes 1 (client_id cdm) ++ pb_bytes 2 content_id ++ pb_varint 3 1 ++ pb_varint 4 now ++ pb_varint 6 21 ++ pb_varint 7 nonce.

Definition license_request (cdm : Cdm K) (now nonce : Z) : run (str * Cdm K) :=
  let body := request_of cdm now nonce in
  signature ← try_message (lit "Sign license request") (c_sign c (private_key cdm) (c_sha1 c body));
  let signed := pb_varint 1 1 ++ pb_bytes 2 body ++ pb_bytes 3 signature in
  mret (c_b64_encode c signed, mkCdm (private_key cdm) (client_id cdm) (pssh_body cdm) (session_id cdm) body).

Definition unwrap_key (kek iv wrapped : list Z) : run (list Z) :=
  if negb (len iv =? 16) then Fail (Message (lit "License key IV has " ++ show_u (len iv) ++ lit " bytes (want 16)"))
  else if negb (len wrapped mod 16 =? 0) || (len wrapped =? 0) then Fail (Message (lit "Wrapped license key is not block aligned"))
  else try_message (lit "Unwrap license key") (c_cbc c kek iv wrapped).

(** A container whose fields are read: the content key it holds, if it is one. *)
Definition content_key (kek : list Z) (s : key_fields) : run (option ContentKey) :=
  if bool_decide (k_type s = Some 2) then
    id ← or_fail (k_id s) (Message (lit "Key has no Id"));
    iv ← or_fail (k_iv s) (Message (lit "Key has no Iv"));
    wrapped ← or_fail (k_wrapped s) (Message (lit "Key has no Key"));
    decrypted ← unwrap_key kek iv wrapped;
    if len decrypted <? 16 then Fail (Message (lit "Unwrapped license key shorter than 16 bytes"))
    else mret (Some (mkContentKey id (take 16 decrypted)))
  else mret None.

Definition container_body (data kek : list Z) (field wire : Z) (keys : list ContentKey) (pos : Z) : run (list ContentKey * Z) :=
  if (field =? 3) && (wire =? 2) then
    match read_bytes data pos with
    | (None, _) => Fail (malformed (lit "key container"))
    | (Some container, pos) =>
        s ← read_fields container (S (length container)) (key_body container) no_fields 0;
        k ← content_key kek s;
        mret (match k with Some k => keys ++ [k] | None => keys end, pos)
    end
  else skip_field data (lit "license key field") wire keys pos.

Definition kek_prefix : list Z := [1] ++ lit "ENCRYPTION" ++ [0].

Definition content_keys (cdm : Cdm K) (license_b64 : str) : run (list ContentKey) :=
  license ← try_message (lit "Decode license") (c_b64_decode c license_b64);
  parsed ← read_fields license (S (length license)) (license_body license) (None, None) 0;
  let '(msg, enc) := parsed : option (list Z) * option (list Z) in
  license_msg ← or_fail msg (Message (lit "License has no Msg"));
  session_key_enc ← or_fail enc (Message (lit "License has no SessionKey"));
  session_key ← try_message (lit "Unwrap session key") (c_oaep c (private_key cdm) session_key_enc);
  kek ← try_message (lit "Session key size") (c_cmac c session_key (kek_prefix ++ request_body cdm ++ [0; 0; 0; 128]));
  if negb (len kek =? 16) then Fail (Message (lit "Derived KEK is not 16 bytes"))
  else read_fields license_msg (S (length license_msg)) (container_body license_msg kek) [] 0.
End Cdm.

(** ** The reference: messages made of fields *)

Inductive field :=
| FVarint (n v : Z)
| FBytes (n : Z) (l : list Z)
| FFixed64 (n : Z) (l : list Z)
| FFixed32 (n : Z) (l : list Z).

Definition field_number (f : field) : Z := match f with FVarint n _ | FBytes n _ | FFixed64 n _ | FFixed32 n _ => n end.
Definition wire_of (f : field) : Z := match f with FVarint _ _ => 0 | FFixed64 _ _ => 1 | FBytes _ _ => 2 | FFixed32 _ _ => 5 end.
Definition payload (f : field) : list Z :=
  match f with FVarint _ v => put_varint v | FBytes _ l => put_varint (len l) ++ l | FFixed64 _ l | FFixed32 _ l => l end.
Definition render_field (f : field) : list Z := pb_tag (field_number f) (wire_of f) ++ payload f.
Definition render_fields (fs : list field) : list Z := concat (render_field <$> fs).

Definition field_ok (f : field) : Prop :=
  0 < field_number f < 2 ^ 29 /\
  match f with FVarint _ v => in_u 64 v | FBytes _ l => True | FFixed64 _ l => len l = 8 | FFixed32 _ l => len l = 4 end.

(** What the fields of a licence, of a key container and of the licence's message say. *)
Definition license_step (s : option (list Z) * option (list Z)) (f : field) : option (list Z) * option (list Z) :=
  match f with
  | FBytes n l => if n =? 2 then (Some l, snd s) else if n =? 4 then (fst s, Some l) else s
  | _ => s
  end.

Definition key_step (s : key_fields) (f : field) : key_fields :=
  match f with
  | FBytes n l =>
      if n =? 1 then mkKeyFields (Some l) (k_iv s) (k_wrapped s) (k_type s)
      else if n =? 2 then mkKeyFields (k_id s) (Some l) (k_wrapped s) (k_type s)
      else if n =? 3 then mkKeyFields (k_id s) (k_iv s) (Some l) (k_type s) else s
  | FVarint n v => if n =? 4 then mkKeyFields (k_id s) (k_iv s) (k_wrapped s) (Some (wrap 32 v)) else s
  | _ => s
  end.

(** An item of the message: a key container or something else. *)
Inductive item := Container (fs : list field) | OtherItem (f : field).
Definition item_field (i : item) : field := match i with Container fs => FBytes 3 (render_fields fs) | OtherItem f => f end.
Definition item_ok (i : item) : Prop :=
  match i with
  | Container fs => Forall field_ok fs
  | OtherItem f => field_ok f /\ match f with FBytes n _ => n <> 3 | _ => True end
  end.

(** ** Lemmas *)

Lemma lor_shift a b s : 0 <= s -> 0 <= a < 2 ^ s -> Z.lor a (Z.shiftl b s) = a + b * 2 ^ s.
Proof.
  intros Hs Ha. rewrite <-Z.shiftl_mul_pow2 by done. assert (Hl : Z.land a (Z.shiftl b s) = 0).
  { apply Z.bits_inj'. intros n Hn. rewrite Z.land_spec, Z.shiftl_spec, Z.bits_0 by done.
    destruct (Z.ltb_spec n s) as [Hlt|Hge]; [rewrite (Z.testbit_neg_r b) by lia; apply andb_false_r|].
    replace a with (a mod 2 ^ s) by (by apply Z.mod_small). by rewrite Z.mod_pow2_bits_high by lia. }
  pose proof (Z.add_lor_land a (Z.shiftl b s)). lia.
Qed.

Lemma land_127 v : Z.land v 127 = v mod 128.
Proof. change 127 with (Z.ones 7). by rewrite Z.land_ones. Qed.

Lemma shiftr_7 v : Z.shiftr v 7 = v / 128.
Proof. by rewrite Z.shiftr_div_pow2. Qed.

(** The seven bits at [s] join the ones below. *)
Lemma varint_step v s :
  0 <= s <= 63 -> in_u 64 v -> Z.lor (v mod 2 ^ s) (wrap 64 (Z.shiftl ((v / 2 ^ s) mod 128) s)) = v mod 2 ^ (s + 7).
Proof.
  intros Hs [Hv0 Hv]. assert (H2 : 0 < 2 ^ s) by (apply Z.pow_pos_nonneg; lia).
  assert (Hm : (v / 2 ^ s) mod 128 * 2 ^ s <= v).
  { pose proof (Z.mod_le (v / 2 ^ s) 128 ltac:(apply Z.div_pos; lia) ltac:(lia)).
    pose proof (Z.mul_div_le v (2 ^ s) H2). nia. }
  rewrite wrap_small by (unfold in_u; rewrite Z.shiftl_mul_pow2 by lia; pose proof (Z.mod_pos_bound (v / 2 ^ s) 128); nia).
  rewrite lor_shift by (lia || by apply Z.mod_pos_bound).
  rewrite Z.pow_add_r by lia. change (2 ^ 7) with 128. rewrite Z.rem_mul_r by lia. lia.
Qed.

Lemma get_app_mid (pre : list Z) x post : get (pre ++ x :: post) (len pre) = Some x.
Proof. rewrite get_lookup by apply len_nonneg. rewrite len_to_nat. by rewrite list_lookup_middle. Qed.

Lemma land_lor_128 v : 0 <= v -> Z.land (Z.lor (v mod 128) 128) 127 = v mod 128 /\ Z.land (Z.lor (v mod 128) 128) 128 <> 0 /\ Z.land (v mod 128) 128 = 0.
Proof.
  intros Hv. pose proof (Z.mod_pos_bound v 128 ltac:(lia)).
  assert (Hl : Z.lor (v mod 128) 128 = v mod 128 + 1 * 2 ^ 7) by (change 128 with (Z.shiftl 1 7) at 2; apply lor_shift; lia).
  assert (H128 : Z.land (v mod 128) 128 = 0).
  { pose proof (Z.add_lor_land (v mod 128) 128). lia. }
  split_and!; [|rewrite Z.land_lor_distr_l, H128; done|done].
  rewrite Hl, land_127. change (1 * 2 ^ 7) with (1 * 128). rewrite Z.mod_add by lia. by rewrite Z.mod_mod.
Qed.

Lemma varint_loop_render v : in_u 64 v ->
  forall n s pre post, 0 <= s -> s + 7 * Z.of_nat n = 70 -> v / 2 ^ s < 2 ^ (7 * Z.of_nat n) -> (0 < n)%nat ->
  varint_loop (pre ++ varint_bytes n (v / 2 ^ s) ++ post) n s (v mod 2 ^ s) (len pre) =
  (Some v, len pre + len (varint_bytes n (v / 2 ^ s))).
Proof.
  intros Hv. induction n as [|n IH]; intros s pre post Hs Hsn Hw Hn; [lia|]. destruct Hv as [Hv0 Hv].
  assert (H2 : 0 < 2 ^ s) by (apply Z.pow_pos_nonneg; lia). assert (Hd : 0 <= v / 2 ^ s) by (apply Z.div_pos; lia).
  cbn [varint_bytes varint_loop]. rewrite land_127, shiftr_7.
  assert (Hdd : v / 2 ^ s / 128 = v / 2 ^ (s + 7)) by (rewrite Z.div_div, Z.pow_add_r by lia; done).
  destruct (land_lor_128 (v / 2 ^ s) Hd) as (L1 & L2 & L3).
  rewrite Hdd. destruct (Z.eqb_spec (v / 2 ^ (s + 7)) 0) as [Hz|Hz].
  - cbn [app]. rewrite get_app_mid, land_127, L3, Z.mod_mod by lia. rewrite varint_step by (done || lia). change (0 =? 0) with true. cbv iota.
    rewrite Z.mod_small; [done|]. split; [done|]. apply Z.div_small_iff in Hz as [?|?]; lia.
  - rewrite <-app_comm_cons. rewrite get_app_mid, L1, varint_step by (done || lia). rewrite (proj2 (Z.eqb_neq _ _) L2).
    assert (Hn1 : (0 < n)%nat).
    { destruct n; [|lia]. exfalso. apply Hz. replace s with 63 in * by lia. apply Z.div_small. change (2 ^ (63 + 7)) with (2 ^ 70). lia. }
    specialize (IH (s + 7) (pre ++ [Z.lor ((v / 2 ^ s) mod 128) 128]) post).
    rewrite <-app_assoc in IH. cbn [app] in IH. rewrite len_app in IH. change (len [_]) with 1 in IH.
    assert (Hb : v / 2 ^ (s + 7) < 2 ^ (7 * Z.of_nat n)).
    { rewrite <-Hdd. apply Z.div_lt_upper_bound; [lia|]. replace (7 * Z.of_nat (S n)) with (7 + 7 * Z.of_nat n) in Hw by lia.
      by rewrite Z.pow_add_r in Hw by lia. }
    rewrite IH by (done || lia).
    rewrite len_cons. f_equal. lia.
Qed.

Lemma read_varint_render pre v post :
  in_u 64 v -> read_varint (pre ++ put_varint v ++ post) (len pre) = (Some v, len pre + len (put_varint v)).
Proof.
  intros Hv. unfold read_varint, put_varint. pose proof (varint_loop_render v Hv 10 0 pre post ltac:(lia) ltac:(lia)) as H.
  rewrite Z.pow_0_r, Z.div_1_r, Z.mod_1_r in H. apply H; [|lia]. destruct Hv. change (2 ^ (7 * Z.of_nat 10)) with (2 ^ 70). lia.
Qed.

Lemma tag_value n w : 0 < n < 2 ^ 29 -> 0 <= w < 8 ->
  in_u 64 (Z.lor (Z.shiftl n 3) w) /\ wrap 32 (Z.shiftr (Z.lor (Z.shiftl n 3) w) 3) = n /\ Z.land (Z.lor (Z.shiftl n 3) w) 7 = w.
Proof.
  intros Hn Hw. rewrite Z.lor_comm, lor_shift by lia. change (2 ^ 3) with 8. change 7 with (Z.ones 3).
  rewrite Z.land_ones, Z.shiftr_div_pow2 by lia. change (2 ^ 3) with 8. rewrite Z.div_add, Z.mod_add, Z.div_small, Z.mod_small by lia.
  split_and!; [unfold in_u; lia|apply wrap_small; unfold in_u; lia|done].
Qed.

Lemma put_varint_pos v : 0 < len (put_varint v).
Proof.
  unfold put_varint. cbn [varint_bytes]. destruct (_ =? 0); [done|]. rewrite len_cons.
  match goal with |- context [len ?x] => pose proof (len_nonneg x) end. lia.
Qed.

Lemma wire_of_range f : 0 <= wire_of f < 8.
Proof. by destruct f. Qed.

Definition tag_len (f : field) : Z := len (pb_tag (field_number f) (wire_of f)).

Lemma pb_next_render pre f post :
  field_ok f -> pb_next (pre ++ render_field f ++ post) (len pre) = (Some (field_number f, wire_of f), len pre + tag_len f).
Proof.
  intros [Hn _]. destruct (tag_value (field_number f) (wire_of f) Hn (wire_of_range f)) as (Hu & Hf & Hw). unfold pb_next.
  assert (Hl : len pre < len (pre ++ render_field f ++ post)).
  { unfold render_field, pb_tag. rewrite !len_app. pose proof (put_varint_pos (Z.lor (Z.shiftl (field_number f) 3) (wire_of f))).
    pose proof (len_nonneg (payload f)). pose proof (len_nonneg post). lia. }
  decide_le. unfold render_field. rewrite <-app_assoc. unfold pb_tag at 1. rewrite read_varint_render by done. by rewrite Hf, Hw.
Qed.

Lemma read_bytes_render pre l post :
  len (pre ++ (put_varint (len l) ++ l) ++ post) < 2 ^ 63 ->
  read_bytes (pre ++ (put_varint (len l) ++ l) ++ post) (len pre) = (Some l, len pre + len (put_varint (len l) ++ l)).
Proof.
  intros Hlen. rewrite !len_app in Hlen. pose proof (len_nonneg pre). pose proof (len_nonneg post). pose proof (len_nonneg l).
  pose proof (put_varint_pos (len l)). unfold read_bytes. rewrite <-app_assoc, read_varint_render by (unfold in_u; lia).
  assert (Hadd : checked_add 64 (len pre + len (put_varint (len l))) (len l) = Some (len pre + len (put_varint (len l)) + len l)).
  { unfold checked_add. rewrite umax_64. by decide_le. }
  rewrite Hadd, (app_assoc pre), <-(len_app pre). rewrite slice_mid by (rewrite ?len_app; lia). rewrite !len_app. f_equal. lia.
Qed.

Lemma pb_skip_render pre f post :
  field_ok f -> len (pre ++ payload f ++ post) < 2 ^ 63 ->
  pb_skip (pre ++ payload f ++ post) (wire_of f) (len pre) = (Some tt, len pre + len (payload f)).
Proof.
  intros [_ Hf] Hlen. pose proof Hlen as Hl. rewrite !len_app in Hl. pose proof (len_nonneg pre). pose proof (len_nonneg post).
  pose proof (len_nonneg (payload f)). unfold pb_skip. rewrite !len_app.
  assert (Hadd : forall p n, 0 <= p -> 0 <= n -> p + n < 2 ^ 64 -> checked_add 64 p n = Some (p + n)).
  { intros p n Hp Hn0 Hb. unfold checked_add. rewrite umax_64. by decide_le. }
  destruct f as [n v|n l|n l|n l]; cbn [wire_of payload Z.eqb Pos.eqb] in *.
  - rewrite read_varint_render by done. by decide_le.
  - pose proof (put_varint_pos (len l)). pose proof (len_nonneg l). rewrite <-app_assoc, read_varint_render by (rewrite len_app in *; unfold in_u; lia).
    rewrite !len_app in *. rewrite Hadd by lia. decide_le. f_equal. lia.
  - rewrite Hf in *. rewrite Hadd by lia. by decide_le.
  - rewrite Hf in *. rewrite Hadd by lia. by decide_le.
Qed.

Lemma skip_field_render {S} pre f post what (s : S) :
  field_ok f -> len (pre ++ render_field f ++ post) < 2 ^ 63 ->
  skip_field (pre ++ render_field f ++ post) what (wire_of f) s (len pre + tag_len f) = Done (s, len pre + len (render_field f)).
Proof.
  intros Hf Hlen. unfold skip_field, render_field in *. rewrite <-app_assoc, (app_assoc pre) in *. unfold tag_len.
  rewrite <-len_app, pb_skip_render by done. rewrite !len_app. do 2 f_equal. lia.
Qed.

(** The steps of a loop over items. *)
Fixpoint run_steps {S X} (step : S -> X -> run S) (s : S) (xs : list X) : run S :=
  match xs with [] => mret s | x :: xs => s ← step s x; run_steps step s xs end.

Lemma run_steps_pure {S X} (step : S -> X -> S) s xs : run_steps (fun s x => mret (step s x)) s xs = Done (foldl step s xs).
Proof. revert s. induction xs as [|x xs IH]; intros s; [done|]. cbn [run_steps foldl]. run_simpl. apply IH. Qed.

Lemma render_field_pos f : 0 < len (render_field f).
Proof. unfold render_field, pb_tag. rewrite len_app. pose proof (put_varint_pos (Z.lor (Z.shiftl (field_number f) 3) (wire_of f))). pose proof (len_nonneg (payload f)). lia. Qed.

Lemma read_fields_render {S X} (fld : X -> field) (step : S -> X -> run S) (body : Z -> Z -> S -> Z -> run (S * Z)) data xs :
  (forall pre x post s, data = pre ++ render_field (fld x) ++ post -> x ∈ xs ->
     body (field_number (fld x)) (wire_of (fld x)) s (len pre + tag_len (fld x)) =
     s ← step s x; mret (s, len pre + len (render_field (fld x)))) ->
  Forall (fun x => field_ok (fld x)) xs ->
  forall pre s fuel, data = pre ++ render_fields (fld <$> xs) -> (length xs < fuel)%nat ->
  read_fields data fuel body s (len pre) = run_steps step s xs.
Proof.
  intros Hbody Hok. induction Hok as [|x xs Hx _ IH]; intros pre s fuel Hd Hf; (destruct fuel as [|f]; [cbn in Hf; lia|]); cbn [read_fields run_steps].
  - unfold pb_next. rewrite Hd. unfold render_fields. rewrite app_nil_r. by rewrite Z.leb_refl.
  - rewrite fmap_cons in Hd. change (render_fields (fld x :: (fld <$> xs))) with (render_field (fld x) ++ render_fields (fld <$> xs)) in Hd.
    rewrite Hd at 1. rewrite pb_next_render by done. rewrite (Hbody pre x _ s Hd) by left.
    destruct (step s x) as [s'| | |]; run_simpl; try done. rewrite <-len_app. apply IH.
    + intros pre' y post' s'' Hd' Hy. apply (Hbody pre' y post' s'' Hd'). by right.
    + rewrite Hd. by rewrite <-app_assoc.
    + cbn in Hf. lia.
Qed.

Lemma render_fields_length fs : Z.of_nat (length fs) <= len (render_fields fs).
Proof.
  induction fs as [|f fs IH]; [done|]. change (render_fields (f :: fs)) with (render_field f ++ render_fields fs).
  rewrite len_app. pose proof (render_field_pos f). cbn [length]. lia.
Qed.

Lemma read_bytes_field pre n l post :
  len (pre ++ render_field (FBytes n l) ++ post) < 2 ^ 63 ->
  read_bytes (pre ++ render_field (FBytes n l) ++ post) (len pre + tag_len (FBytes n l)) =
  (Some l, len pre + len (render_field (FBytes n l))).
Proof.
  intros Hlen. unfold render_field in *. rewrite <-app_assoc, (app_assoc pre) in *. unfold tag_len.
  rewrite <-(len_app pre). cbn [payload] in *. rewrite read_bytes_render by done. rewrite !len_app. f_equal. lia.
Qed.

Lemma read_varint_field pre n v post :
  in_u 64 v ->
  read_varint (pre ++ render_field (FVarint n v) ++ post) (len pre + tag_len (FVarint n v)) =
  (Some v, len pre + len (render_field (FVarint n v))).
Proof.
  intros Hv. unfold render_field. rewrite <-app_assoc, (app_assoc pre). unfold tag_len.
  rewrite <-(len_app pre). cbn [payload]. rewrite read_varint_render by done. rewrite !len_app. f_equal. lia.
Qed.

Lemma license_body_render pre f post s :
  field_ok f -> len (pre ++ render_field f ++ post) < 2 ^ 63 ->
  license_body (pre ++ render_field f ++ post) (field_number f) (wire_of f) s (len pre + tag_len f) =
  Done (license_step s f, len pre + len (render_field f)).
Proof.
  intros Hf Hlen. unfold license_body. pose proof (skip_field_render pre f post (lit "license field") s Hf Hlen) as Hskip.
  destruct f as [n v|n l|n l|n l]; cbn [field_number wire_of license_step] in *; rewrite ?andb_false_r; try exact Hskip.
  change (2 =? 2) with true. rewrite !andb_true_r. pose proof (read_bytes_field pre n l post Hlen) as Hrd.
  destruct (n =? 2); [by rewrite Hrd|]. destruct (n =? 4); [by rewrite Hrd|exact Hskip].
Qed.

Lemma key_body_render pre f post s :
  field_ok f -> len (pre ++ render_field f ++ post) < 2 ^ 63 ->
  key_body (pre ++ render_field f ++ post) (field_number f) (wire_of f) s (len pre + tag_len f) =
  Done (key_step s f, len pre + len (render_field f)).
Proof.
  intros Hf Hlen. unfold key_body. pose proof (skip_field_render pre f post (lit "key field") s Hf Hlen) as Hskip.
  destruct f as [n v|n l|n l|n l]; cbn [field_number wire_of key_step] in *; rewrite ?andb_false_r; try exact Hskip.
  - change (0 =? 0) with true. rewrite andb_true_r. destruct (n =? 4); [|exact Hskip]. destruct Hf as [_ Hv].
    by rewrite (read_varint_field pre n v post Hv).
  - change (2 =? 2) with true. rewrite !andb_true_r. pose proof (read_bytes_field pre n l post Hlen) as Hrd.
    destruct (n =? 1); [by rewrite Hrd|]. destruct (n =? 2); [by rewrite Hrd|]. destruct (n =? 3); [by rewrite Hrd|exact Hskip].
Qed.

Lemma container_read fs :
  Forall field_ok fs -> len (render_fields fs) < 2 ^ 63 ->
  read_fields (render_fields fs) (S (length (render_fields fs))) (key_body (render_fields fs)) no_fields 0 =
  Done (foldl key_step no_fields fs).
Proof.
  intros Hok Hlen. rewrite <-run_steps_pure. pose proof (render_fields_length fs) as Hl.
  apply (read_fields_render id (fun s f => mret (key_step s f)) (key_body (render_fields fs)) (render_fields fs) fs) with (pre := []).
  - intros pre f post s Hd Hin. rewrite Hd. rewrite Forall_forall in Hok. run_simpl. apply key_body_render; [by apply Hok|by rewrite <-Hd].
  - done.
  - by rewrite list_fmap_id.
  - unfold len in Hl. lia.
Qed.

Section Keys.
Context {K : Type}.
Variable c : crypto K.

(** What an item of the message adds to the keys. *)
Definition item_step (kek : list Z) (keys : list ContentKey) (i : item) : run (list ContentKey) :=
  match i with
  | Container fs => k ← content_key c kek (foldl key_step no_fields fs); mret (match k with Some k => keys ++ [k] | None => keys end)
  | OtherItem _ => mret keys
  end.

Lemma item_field_ok i : item_ok i -> field_ok (item_field i).
Proof. destruct i as [fs|f]; cbn [item_ok item_field]; [|by intros [? _]]. intros _. split; [cbn; lia|done]. Qed.

Lemma container_body_render kek pre i post keys :
  item_ok i -> len (pre ++ render_field (item_field i) ++ post) < 2 ^ 63 ->
  container_body c (pre ++ render_field (item_field i) ++ post) kek (field_number (item_field i)) (wire_of (item_field i)) keys
    (len pre + tag_len (item_field i)) =
  (keys ← item_step kek keys i; mret (keys, len pre + len (render_field (item_field i)))).
Proof.
  intros Hi Hlen. unfold container_body. destruct i as [fs|f]; cbn [item_field field_number wire_of item_step].
  - change ((3 =? 3) && (2 =? 2)) with true. cbv iota. rewrite read_bytes_field by done.
    assert (Hc : len (render_fields fs) < 2 ^ 63).
    { cbn [item_field] in Hlen. unfold render_field in Hlen. cbn [payload] in Hlen. rewrite !len_app in Hlen.
      pose proof (len_nonneg pre). pose proof (len_nonneg post). pose proof (len_nonneg (put_varint (len (render_fields fs)))).
      pose proof (len_nonneg (pb_tag (field_number (FBytes 3 (render_fields fs))) (wire_of (FBytes 3 (render_fields fs))))). lia. }
    rewrite container_read by done. run_simpl.
    destruct (content_key c kek (foldl key_step no_fields fs)) as [[k|]| | |]; reflexivity.
  - destruct Hi as [Hf Hn]. run_simpl. cbn [item_field] in Hlen.
    etrans; [|exact (skip_field_render pre f post (lit "license key field") keys Hf Hlen)].
    destruct f as [n v|n l|n l|n l]; cbn [field_number wire_of]; rewrite ?andb_false_r; try done.
    by rewrite (proj2 (Z.eqb_neq n 3) Hn).
Qed.

Lemma message_read kek items :
  Forall item_ok items -> len (render_fields (item_field <$> items)) < 2 ^ 63 ->
  let msg := render_fields (item_field <$> items) in
  read_fields msg (S (length msg)) (container_body c msg kek) [] 0 = run_steps (item_step kek) [] items.
Proof.
  intros Hok Hlen msg. pose proof (render_fields_length (item_field <$> items)) as Hl. rewrite length_fmap in Hl.
  apply (read_fields_render item_field (item_step kek) (container_body c msg kek) msg items) with (pre := []).
  - intros pre i post s Hd Hin. rewrite Hd. rewrite Forall_forall in Hok. apply container_body_render; [by apply Hok|by rewrite <-Hd].
  - eapply Forall_impl; [exact Hok|apply item_field_ok].
  - done.
  - subst msg. unfold len in Hl. lia.
Qed.

(** A container that holds a content key, whose bytes are [plain]. *)
Definition holds (kek : list Z) (s : key_fields) (id plain : list Z) : Prop :=
  k_type s = Some 2 /\ k_id s = Some id /\ 16 <= len plain /\
  exists iv wrapped, k_iv s = Some iv /\ k_wrapped s = Some wrapped /\ len iv = 16 /\ len wrapped mod 16 = 0 /\ wrapped <> [] /\
    c_cbc c kek iv wrapped = Ok plain.

(** The keys that the items of a message hold, in their order. *)
Inductive items_keys (kek : list Z) : list item -> list ContentKey -> Prop :=
| keys_nil : items_keys kek [] []
| keys_other f items ks : items_keys kek items ks -> items_keys kek (OtherItem f :: items) ks
| keys_signing fs items ks : k_type (foldl key_step no_fields fs) <> Some 2 -> items_keys kek items ks -> items_keys kek (Container fs :: items) ks
| keys_content fs id plain items ks :
    holds kek (foldl key_step no_fields fs) id plain -> items_keys kek items ks ->
    items_keys kek (Container fs :: items) (mkContentKey id (take 16 plain) :: ks).

Lemma holds_key kek s id plain : holds kek s id plain -> content_key c kek s = Done (Some (mkContentKey id (take 16 plain))).
Proof.
  intros (Ht & Hid & Hp & iv & wrapped & Hiv & Hw & H16 & Hmod & Hne & Hc). unfold content_key.
  rewrite bool_decide_eq_true_2, Hid, Hiv, Hw by done. run_simpl. unfold unwrap_key. rewrite H16, Hmod. change (16 =? 16) with true.
  assert (Hz : (len wrapped =? 0) = false) by (apply Z.eqb_neq; destruct wrapped; [done|]; rewrite len_cons; pose proof (len_nonneg wrapped); lia).
  rewrite Hz. change (0 =? 0) with true. cbn [negb orb]. rewrite Hc. cbn [try_message]. run_simpl. by decide_le.
Qed.

Lemma items_keys_run kek items ks acc : items_keys kek items ks -> run_steps (item_step kek) acc items = Done (acc ++ ks).
Proof.
  intros H. revert acc. induction H as [|f items ks _ IH|fs items ks Ht _ IH|fs id plain items ks Hh _ IH]; intros acc; cbn [run_steps item_step].
  - by rewrite app_nil_r.
  - run_simpl. apply IH.
  - unfold content_key. rewrite bool_decide_eq_false_2 by done. run_simpl. apply IH.
  - rewrite (holds_key _ _ _ _ Hh). run_simpl. rewrite IH. by rewrite <-app_assoc.
Qed.
End Keys.

(** *** The reader on any bytes *)

Lemma varint_loop_moves data n s v pos : pos <= snd (varint_loop data n s v pos) /\
  (forall r, fst (varint_loop data n s v pos) = Some r -> pos < snd (varint_loop data n s v pos)).
Proof.
  revert s v pos. induction n as [|n IH]; intros s v pos; cbn [varint_loop]; [split; [cbn; lia|done]|].
  destruct (get data pos) as [b|]; [|split; [cbn; lia|done]]. destruct (_ =? 0); [cbn; split; [lia|intros; lia]|].
  destruct (IH (s + 7) (Z.lor v (wrap 64 (Z.shiftl (Z.land b 127) s))) (pos + 1)) as [H1 H2]. split; [lia|]. intros r Hr. specialize (H2 r Hr). lia.
Qed.

Lemma checked_add_ge p n q : 0 <= n -> checked_add 64 p n = Some q -> p <= q.
Proof. unfold checked_add. destruct (_ <=? _); [|done]. intros ? [= <-]. lia. Qed.

Lemma varint_nonneg data n s v pos r : 0 <= v -> fst (varint_loop data n s v pos) = Some r -> 0 <= r.
Proof.
  revert s v pos. induction n as [|n IH]; intros s v pos Hv; cbn [varint_loop]; [done|]. destruct (get data pos) as [b|]; [|done].
  assert (Hl : 0 <= Z.lor v (wrap 64 (Z.shiftl (Z.land b 127) s))).
  { apply Z.lor_nonneg. split; [done|]. pose proof (wrap_range 64 (Z.shiftl (Z.land b 127) s)) as [? _]; [lia|done]. }
  destruct (_ =? 0); [by intros [= <-]|]. by apply IH.
Qed.

Lemma read_bytes_moves data pos : pos <= snd (read_bytes data pos).
Proof.
  unfold read_bytes, read_varint. destruct (varint_loop_moves data 10 0 0 pos) as [H _].
  pose proof (varint_nonneg data 10 0 0 pos) as Hn. destruct (varint_loop data 10 0 0 pos) as [[n|] p]; cbn in *; [|done].
  destruct (checked_add 64 p n) as [q|] eqn:E; [|done]. apply checked_add_ge in E; [cbn; lia|]. by apply Hn.
Qed.

Lemma skip_moves data w pos u q : pb_skip data w pos = (Some u, q) -> pos <= q.
Proof.
  unfold pb_skip, read_varint. destruct (varint_loop_moves data 10 0 0 pos) as [H _]. pose proof (varint_nonneg data 10 0 0 pos) as Hn.
  intros Hs. destruct (w =? 0); [|destruct (w =? 1); [|destruct (w =? 2); [|destruct (w =? 5); [|done]]]].
  - destruct (varint_loop data 10 0 0 pos) as [[n|] p]; [|done]. destruct (_ <? _); [done|]. cbn in H. by injection Hs as _ <-.
  - destruct (checked_add 64 pos 8) as [p|] eqn:E; [|done]. apply checked_add_ge in E; [|lia]. destruct (_ <? _); [done|]. by injection Hs as _ <-.
  - destruct (varint_loop data 10 0 0 pos) as [[n|] p]; cbn in *; [|done]. destruct (checked_add 64 p n) as [p'|] eqn:E; [|done].
    apply checked_add_ge in E; [|by apply Hn]. destruct (_ <? _); [done|]. injection Hs as _ <-. lia.
  - destruct (checked_add 64 pos 4) as [p|] eqn:E; [|done]. apply checked_add_ge in E; [|lia]. destruct (_ <? _); [done|]. by injection Hs as _ <-.
Qed.

(** A body that never goes back and neither panics nor hangs. *)
Definition advances {S} (body : Z -> Z -> S -> Z -> run (S * Z)) : Prop :=
  forall n w s pos, match body n w s pos with Done (_, q) => pos <= q | Fail _ => True | _ => False end.

Lemma read_fields_finish {S} data (body : Z -> Z -> S -> Z -> run (S * Z)) fuel s pos :
  advances body -> len data - pos < Z.of_nat fuel -> 0 < Z.of_nat fuel -> finished (read_fields data fuel body s pos) = true.
Proof.
  intros Hb. revert s pos. induction fuel as [|f IH]; intros s pos Hf H0; [lia|]. cbn [read_fields]. unfold pb_next, read_varint.
  destruct (Z.leb_spec (len data) pos) as [?|Hlt]; [done|].
  destruct (varint_loop_moves data 10 0 0 pos) as [_ Hm]. destruct (varint_loop data 10 0 0 pos) as [[tag|] p]; [|done].
  specialize (Hm tag eq_refl). cbn in Hm. specialize (Hb (wrap 32 (Z.shiftr tag 3)) (Z.land tag 7) s p).
  destruct (body _ _ s p) as [[s' q]|e| |]; try done. run_simpl. apply IH; lia.
Qed.

Lemma skip_field_advances {S} data what w (s : S) pos :
  match skip_field data what w s pos with Done (_, q) => pos <= q | Fail _ => True | _ => False end.
Proof. unfold skip_field. destruct (pb_skip data w pos) as [[u|] q] eqn:E; [|done]. cbn. by eapply skip_moves. Qed.

Lemma license_body_advances data : advances (license_body data).
Proof.
  intros n w s pos. unfold license_body. pose proof (read_bytes_moves data pos) as H. destruct (read_bytes data pos) as [o p]. cbn in H.
  destruct (_ && _); [done|]. destruct (_ && _); [done|]. apply skip_field_advances.
Qed.

Lemma key_body_advances data : advances (key_body data).
Proof.
  intros n w s pos. unfold key_body, read_varint. pose proof (read_bytes_moves data pos) as H. destruct (read_bytes data pos) as [o p]. cbn in H.
  destruct (varint_loop_moves data 10 0 0 pos) as [Hv _]. destruct (varint_loop data 10 0 0 pos) as [v q]. cbn in Hv.
  repeat (destruct (_ && _); [done|]). apply skip_field_advances.
Qed.

Lemma try_message_finish {A} what (r : result str A) : finished (try_message what r) = true.
Proof. by destruct r. Qed.

Lemma content_key_finish {K} (c : crypto K) kek s : finished (content_key c kek s) = true.
Proof.
  unfold content_key, unwrap_key. destruct (bool_decide _); [|done]. destruct (k_id s); [|done]. destruct (k_iv s); [|done].
  destruct (k_wrapped s); [|done]. run_simpl. destruct (negb _); [done|]. destruct (_ || _); [done|].
  destruct (c_cbc c _ _ _); cbn; [|done]. by destruct (_ <? _).
Qed.

Lemma container_body_advances {K} (c : crypto K) data kek : advances (container_body c data kek).
Proof.
  intros n w s pos. unfold container_body. destruct (_ && _); [|apply skip_field_advances].
  pose proof (read_bytes_moves data pos) as H. destruct (read_bytes data pos) as [[l|] p]; [|done]. cbn in H.
  pose proof (read_fields_finish l (key_body l) (S (length l)) no_fields 0 (key_body_advances l) ltac:(unfold len; lia) ltac:(lia)) as Hf.
  destruct (read_fields l _ _ _ 0) as [fs|e| |]; try done. run_simpl. pose proof (content_key_finish c kek fs) as Hk.
  destruct (content_key c kek fs); done.
Qed.

(** ** Theorems *)

(** C17: a licence, whatever its other fields: the content keys of its message come out in their order, each with its
    identifier and the first sixteen bytes of what unwrapping it yields, and keys of other types are
    passed over. *)
Theorem license_keys_read {K} (c : crypto K) (cdm : Cdm K) (text : str) (fs : list field) (items : list item)
    (enc session kek : list Z) (ks : list ContentKey) :
  c_b64_decode c text = Ok (render_fields fs) -> Forall field_ok fs -> len (render_fields fs) < 2 ^ 63 ->
  foldl license_step (None, None) fs = (Some (render_fields (item_field <$> items)), Some enc) ->
  Forall item_ok items -> len (render_fields (item_field <$> items)) < 2 ^ 63 ->
  c_oaep c (private_key cdm) enc = Ok session ->
  c_cmac c session (kek_prefix ++ request_body cdm ++ [0; 0; 0; 128]) = Ok kek -> len kek = 16 ->
  items_keys c kek items ks ->
  content_keys c cdm text = Done ks.
Proof.
  intros Hdec Hfs Hlen Hl Hitems Hmsg Hoaep Hcmac H16 Hks. unfold content_keys. rewrite Hdec. cbn [try_message]. run_simpl.
  assert (Hr : read_fields (render_fields fs) (S (length (render_fields fs))) (license_body (render_fields fs)) (None, None) 0 =
               Done (foldl license_step (None, None) fs)).
  { rewrite <-run_steps_pure. pose proof (render_fields_length fs) as Hlf.
    apply (read_fields_render id (fun s f => mret (license_step s f)) (license_body (render_fields fs)) (render_fields fs) fs) with (pre := []).
    - intros pre f post s Hd Hin. rewrite Hd. rewrite Forall_forall in Hfs. run_simpl. apply license_body_render; [by apply Hfs|by rewrite <-Hd].
    - done.
    - by rewrite list_fmap_id.
    - unfold len in Hlf. lia. }
  rewrite Hr, Hl. run_simpl. rewrite Hoaep. cbn [try_message]. run_simpl. rewrite Hcmac. cbn [try_message]. run_simpl.
  rewrite H16. change (negb (16 =? 16)) with false. cbv iota. rewrite message_read by done. rewrite (items_keys_run c kek items ks []) by done. done.
Qed.

(** Whatever a licence server answers, reading it ends in keys or an error. *)
Theorem license_never_hangs {K} (c : crypto K) (cdm : Cdm K) (text : str) : finished (content_keys c cdm text) = true.
Proof.
  unfold content_keys. destruct (c_b64_decode c text) as [license|]; [|done]. cbn [try_message]. run_simpl.
  pose proof (read_fields_finish license (license_body license) (S (length license)) (None, None) 0 (license_body_advances license)
    ltac:(unfold len; lia) ltac:(lia)) as Hf.
  destruct (read_fields license _ _ _ 0) as [[m k]|e| |]; try done. run_simpl.
  destruct m as [m|]; [|done]. destruct k as [k|]; [|done]. run_simpl. destruct (c_oaep c _ k) as [session|]; [|done]. cbn [try_message]. run_simpl.
  destruct (c_cmac c session _) as [kek|]; [|done]. cbn [try_message]. run_simpl. destruct (negb _); [done|].
  apply read_fields_finish; [apply container_body_advances|unfold len; lia|lia].
Qed.

Definition demo_crypto : crypto unit :=
  mkCrypto unit (Ok tt) (Ok [7; 7]) (fun l => l) (fun s => Ok s) (fun _ => replicate 20 1) (fun _ d => Ok d) (fun _ l => Ok l)
    (fun s _ => Ok (take 16 s)) (fun kek iv w => Ok (zip_with Z.lxor (take 16 w) kek)).
Definition demo_cdm : Cdm unit := mkCdm tt [7; 7] (cenc_header (replicate 16 1)) (new_session_id (replicate 16 5)) [1; 2; 3].
Definition demo_key_item (id : Z) (t : Z) : item :=
  Container [FBytes 1 [id]; FVarint 4 t; FFixed32 9 [0; 0; 0; 0]; FBytes 2 (replicate 16 3); FBytes 3 (replicate 32 id)].
Definition demo_items : list item := [demo_key_item 5 2; OtherItem (FVarint 6 1000); demo_key_item 6 1; demo_key_item 9 2].
Definition demo_license : list field := [FVarint 1 2; FBytes 2 (render_fields (item_field <$> demo_items)); FBytes 4 (replicate 16 0)].

(** Two content keys around a signing key. *)
Lemma license_keys_read_witness :
  content_keys demo_crypto demo_cdm (render_fields demo_license) =
  Done [mkContentKey [5] (replicate 16 5); mkContentKey [9] (replicate 16 9)].
Proof.
  apply (license_keys_read demo_crypto demo_cdm (render_fields demo_license) demo_license demo_items (replicate 16 0) (replicate 16 0) (replicate 16 0)).
  - done.
  - repeat (apply Forall_cons_2; [split; [cbn; lia|cbn; try done; unfold in_u; lia]|]). apply Forall_nil_2.
  - by vm_compute.
  - by vm_compute.
  - assert (Hk : forall id t, t = 1 \/ t = 2 -> item_ok (demo_key_item id t)).
    { intros id t Ht. cbn [item_ok demo_key_item]. repeat (apply Forall_cons_2; [split; [cbn; lia|cbn; try done; unfold in_u; lia]|]). apply Forall_nil_2. }
    apply Forall_cons_2; [apply Hk; by right|]. apply Forall_cons_2; [split; [split; [cbn; lia|unfold in_u; cbn; lia]|done]|].
    apply Forall_cons_2; [apply Hk; by left|]. apply Forall_cons_2; [apply Hk; by right|]. apply Forall_nil_2.
  - by vm_compute.
  - done.
  - done.
  - done.
  - apply (keys_content _ _ _ [5] (replicate 16 5)).
    { split_and!; [done|done|done|]. exists (replicate 16 3), (replicate 32 5). split_and!; (done || by vm_compute). }
    apply keys_other, keys_signing; [by vm_compute|]. apply (keys_content _ _ _ [9] (replicate 16 9)); [|constructor].
    split_and!; [done|done|done|]. exists (replicate 16 3), (replicate 32 9). split_and!; (done || by vm_compute).
Defined.
