(* ===== verification/WrapperClient.v ===== *)
(** * WrapperClient: the service that decrypts (crates/apple/src/wrapper/client.rs)

    The requests of [WrapperLiteClient] and what it makes of their answers.  What the HTTP client and the
    JSON decoders yield comes from a [wire]; the requests and the pauses of a call are logged. *)
From S2P Require Import Prelude Text Bytes Boxes Music.

(** ** The wire *)

Inductive client_request : Type := Get (url : str) | Post (url body : str).

(** An answer as it is looked at: the status, two headers and the body, read as text or as bytes. *)
Record http_answer := mkAnswer {
  status : Z; content_type : str; content_length : option Z;
  text : result HttpFault str; bytes : result HttpFault (list Z);
}.

Record ApiResponse (A : Type) := mkApi { code : Z; msg : str; data : option A }.
Arguments mkApi {A}. Arguments code {A}. Arguments msg {A}. Arguments data {A}.

Record TemplateData := mkTemplateData { ctx : str; state : str; rcx : str; rax : str; rdx : str; r9 : str; rbp : str }.

(** [T] is the template type of the decryption library. *)
Record wire (T : Type) := mkWire {
  send : nat -> client_request -> result HttpFault http_answer;    (* by attempt *)
  status_display : Z -> str;
  parse_status : str -> result str (ApiResponse (list str));
  parse_m3u8 : str -> result str (ApiResponse (option str));
  parse_license : str -> result str (ApiResponse str);
  parse_template : str -> result str (ApiResponse TemplateData);
  license_json : str -> str -> str -> result str str;             (* challenge, uri, adamId *)
  template_json : TemplateData -> result str str;
  template_from_json : str -> result str T;
}.
Arguments send {T}. Arguments status_display {T}. Arguments parse_status {T}. Arguments parse_m3u8 {T}. Arguments parse_license {T}.
Arguments parse_template {T}. Arguments license_json {T}. Arguments template_json {T}. Arguments template_from_json {T}.

Definition is_success (status : Z) : bool := (200 <=? status) && (status <? 300).
Definition is_server_error (status : Z) : bool := (500 <=? status) && (status <? 600).

(** ** Helpers *)

Definition urlencoding (s : str) : str := concat (encode_byte <$> as_bytes s).

Definition truncate_error_body (text : str) : str := take 120 text ++ (if (120 <? length text)%nat then [8230] else []).

Definition is_rejection (code : Z) : bool := (code =? 401) || (code =? 403).

Definition api_or_auth (code : Z) (message : str) : WrapperError := if is_rejection code then Auth code else Api code message.

(** [let Ok(..) = .. else return Err], for the answers and the decoders. *)
#[local] Notation "'try' x ':=' r 'as' E ; k" := (match r with Ok x => k | Err e => Err (E e) end)
  (at level 200, x name, r at level 100, E at level 0, k at level 200).

Section Client.
Context {T : Type}.
Variables (w : wire T) (base_url : str).

Definition auth_or_http (what : str) (status : Z) : WrapperError :=
  if is_rejection status then Auth status else Message (what ++ lit " HTTP " ++ status_display w status).

(** [WrapperLiteClient::new]. *)
Definition client_base (url : str) : str := trim_end_by (Z.eqb 47) url.
Definition api_key_header (valid : str -> bool) (api_key : option str) : option str :=     (* [valid]: [HeaderValue::from_str] *)
  match api_key with Some key => if decide (trim key = []) then None else if valid (trim key) then Some (trim key) else None | None => None end.

(** A success status or its error, then the envelope with code 0. *)
Definition envelope {A} (failed : Z -> WrapperError) (parse : str -> result str (ApiResponse A)) (refused : Z -> str -> WrapperError)
    (answer : result HttpFault http_answer) : result WrapperError (option A) :=
  try resp := answer as Http;
  if negb (is_success (status resp)) then Err (failed (status resp))
  else
    try body := text resp as Http;
    try env := parse body as Json;
    if negb (code env =? 0) then Err (refused (code env) (msg env)) else Ok (data env).

Definition check_status : result WrapperError (list str) :=
  match envelope (auth_or_http (lit "Wrapper /status")) (parse_status w) api_or_auth (send w 0 (Get (base_url ++ lit "/status"))) with
  | Ok regions => Ok (default [] regions)
  | Err e => Err e
  end.

(** [data.and_then(..).filter(|s| !s.is_empty()).ok_or_else(..)]. *)
Definition non_empty_or (empty : str) (o : option str) : result WrapperError str :=
  match o with Some (c :: s) => Ok (c :: s) | _ => Err (Message empty) end.

Definition m3u8_refused (code : Z) (message : str) : WrapperError :=
  if code =? 404 then Unavailable M3u8NotFound else api_or_auth code message.
Definition m3u8_failed (status : Z) : WrapperError :=
  if status =? 404 then Unavailable M3u8NotFound else auth_or_http (lit "Wrapper /m3u8") status.

Definition fetch_m3u8_url (adam_id : str) : result WrapperError str :=
  match envelope m3u8_failed (parse_m3u8 w) m3u8_refused (send w 0 (Get (base_url ++ lit "/m3u8?adamId=" ++ adam_id))) with
  | Ok d => non_empty_or (lit "Wrapper returned empty m3u8 URL") (d ≫= id)
  | Err e => Err e
  end.

Definition fetch_webplayback (adam_id : str) : result WrapperError str :=
  match envelope (auth_or_http (lit "Wrapper /webplayback")) (parse_m3u8 w) api_or_auth
          (send w 0 (Get (base_url ++ lit "/webplayback?adamId=" ++ adam_id))) with
  | Ok d => non_empty_or (lit "Wrapper returned empty web playback URL") (d ≫= id)
  | Err e => Err e
  end.

Definition fetch_license (adam_id challenge_b64 uri : str) : result WrapperError str :=
  try body := license_json w challenge_b64 uri adam_id as Json;
  try resp := send w 0 (Post (base_url ++ lit "/license") body) as Http;
  if negb (is_success (status resp)) then
    let truncated := truncate_error_body (default [] (ok (text resp))) in
    if is_rejection (status resp) then Err (Auth (status resp))
    else Err (Message (lit "Wrapper /license HTTP " ++ status_display w (status resp) ++ lit ": " ++ truncated))
  else
    try answer := text resp as Http;
    try env := parse_license w answer as Json;
    if negb (code env =? 0) then Err (api_or_auth (code env) (msg env))
    else non_empty_or (lit "Wrapper returned empty license") (data env).

(** *** The key template, with its retries *)

Inductive client_event : Type := Sent (r : client_request) | Slept (ms : Z).

Definition key_request (adam_id uri : str) : client_request :=
  Get (base_url ++ lit "/key?adamId=" ++ adam_id ++ lit "&uri=" ++ urlencoding uri).

(** What one turn of the loop decides: it ends the call, or it leaves an error and goes on. *)
Inductive turn : Type := Ends (r : result WrapperError T) | Continues (e : WrapperError).

Definition build_template (data : option TemplateData) : result WrapperError T :=
  match data with
  | None => Err (Message (lit "Wrapper returned empty key template data"))
  | Some data =>
      try json := template_json w data as Json;
      try template := template_from_json w json as Template;
      Ok template
  end.

Definition key_failed (uri : str) (resp : http_answer) : WrapperError :=
  Message (lit "Wrapper /key HTTP " ++ status_display w (status resp) ++ lit " for uri " ++ uri ++ lit ": " ++ default [] (ok (text resp))).

Definition key_turn (adam_id uri : str) (attempt : nat) : turn :=
  match send w attempt (key_request adam_id uri) with
  | Err e => Continues (Http e)
  | Ok resp =>
      if negb (is_success (status resp)) then
        if is_server_error (status resp) then Continues (key_failed uri resp) else Ends (Err (key_failed uri resp))
      else
        match text resp with
        | Err e => Continues (Http e)
        | Ok body =>
            match parse_template w body with
            | Err e => Continues (Json e)
            | Ok env =>
                if negb (code env =? 0) then
                  let e := Api (code env) (msg env) in if 500 <=? code env then Continues e else Ends (Err e)
                else Ends (build_template (data env))
            end
        end
  end.

(** The [for] over the attempts; [left_] are left. *)
Fixpoint template_loop (adam_id uri : str) (left_ attempt : nat) (last_error : option WrapperError) (log : list client_event) :
    result WrapperError T * list client_event :=
  match left_ with
  | O => (Err (default (Message (lit "Key template fetch failed")) last_error), log)
  | S left_ =>
      let log := if (0 <? attempt)%nat then log ++ [Slept 400] else log in
      let log := log ++ [Sent (key_request adam_id uri)] in
      match key_turn adam_id uri attempt with
      | Ends r => (r, log)
      | Continues e => template_loop adam_id uri left_ (S attempt) (Some e) log
      end
  end.

Definition fetch_template (adam_id uri : str) : result WrapperError T * list client_event :=
  template_loop adam_id uri 3 0 None [].
End Client.

(** ** Specification *)

(** The log of [n] attempts. *)
Fixpoint attempts (r : client_request) (n : nat) : list client_event :=
  match n with O => [] | S O => [Sent r] | S n => attempts r n ++ [Slept 400; Sent r] end.

Definition ended {T} (t : turn (T := T)) : bool := match t with Ends _ => true | Continues _ => false end.
Definition verdict {T} (t : turn (T := T)) : result WrapperError T := match t with Ends r => r | Continues e => Err e end.

(** ** Theorems *)

(** A key template is asked for once, twice or three times, four tenths of a second apart: again only after an
    answer that may pass (no connection, a server's error, an unreadable body), and the result is that of the last
    attempt, which is the first to decide or the third. *)
Theorem key_template_retries {T} (w : wire T) (base_url adam_id uri : str) :
  let turn := key_turn w base_url adam_id uri in
  exists n, (n < 3)%nat /\ (forall i, (i < n)%nat -> ended (turn i) = false) /\ (ended (turn n) = true \/ n = 2%nat) /\
    fetch_template w base_url adam_id uri = (verdict (turn n), attempts (key_request base_url adam_id uri) (S n)).
Proof.
  intros turn. unfold fetch_template. cbn [template_loop Nat.ltb Nat.leb app]. fold turn.
  destruct (turn 0%nat) as [r0|e0] eqn:E0.
  { exists 0%nat. split_and!; [lia|intros i Hi; lia|left; by rewrite E0|by rewrite E0]. }
  destruct (turn 1%nat) as [r1|e1] eqn:E1.
  { exists 1%nat. split_and!; [lia|intros i Hi; assert (i = 0%nat) as -> by lia; by rewrite E0|left; by rewrite E1|by rewrite E1]. }
  exists 2%nat. split_and!; [lia|intros i Hi; destruct i as [|[|i]]; [by rewrite E0|by rewrite E1|lia]|by right|].
  by destruct (turn 2%nat) as [r2|e2] eqn:E2.
Qed.

(** The service's refusal of the credentials, by its status or its envelope, is recognised in each of the calls
    but that of the key template. *)
Theorem rejection_recognised {T} (w : wire T) (base_url adam_id : str) (resp : http_answer) :
  is_rejection (status resp) = true -> (forall r, send w 0 r = Ok resp) ->
  check_status w base_url = Err (Auth (status resp)) /\
  fetch_m3u8_url w base_url adam_id = Err (Auth (status resp)) /\
  fetch_webplayback w base_url adam_id = Err (Auth (status resp)) /\
  forall challenge uri body, license_json w challenge uri adam_id = Ok body -> fetch_license w base_url adam_id challenge uri = Err (Auth (status resp)).
Proof.
  intros Hr Hs. assert (Hns : is_success (status resp) = false /\ (status resp =? 404) = false).
  { unfold is_rejection, is_success in *. apply orb_true_iff in Hr as [Hr|Hr]; to_prop; rewrite Hr; done. }
  destruct Hns as [Hns H404]. unfold check_status, fetch_m3u8_url, fetch_webplayback, fetch_license, envelope, m3u8_failed, auth_or_http.
  rewrite !Hs, Hns, H404, Hr. cbn [negb]. split_and!; [done..|]. intros challenge uri body Hj. by rewrite Hj, Hs, Hns, Hr.
Qed.

(** A wire that answers everything with one status. *)
Definition demo_wire (s : Z) : wire unit :=
  mkWire unit (fun _ _ => Ok (mkAnswer s [] None (Ok (lit "no")) (Ok []))) show_u (fun _ => Err []) (fun _ => Err []) (fun _ => Err [])
    (fun _ => Err []) (fun _ _ _ => Ok (lit "{}")) (fun _ => Ok []) (fun _ => Ok tt).

Lemma rejection_recognised_witness : fetch_license (demo_wire 403) (lit "http://w") (lit "1") [] [] = Err (Auth 403).
Proof.
  destruct (rejection_recognised (demo_wire 403) (lit "http://w") (lit "1") (mkAnswer 403 [] None (Ok (lit "no")) (Ok []))) as (_ & _ & _ & H); [done|done|].
  exact (H [] [] (lit "{}") eq_refl).
Defined.

(** The key template is the exception: the same refusal is reported as an ordinary message, so the caller takes it
    for a failed decryption. *)
Theorem key_rejection_not_recognised :
  fst (fetch_template (demo_wire 403) (lit "http://w") (lit "1") (lit "k")) = Err (Message (lit "Wrapper /key HTTP 403 for uri k: no")).
Proof. reflexivity. Qed.

Lemma urlencoding_urlencode s : urlencoding s = urlencode s.
Proof. unfold urlencoding. by rewrite urlencode_eq. Qed.

Lemma truncate_error_body_bound s : (length (truncate_error_body s) <= 121)%nat.
Proof.
  unfold truncate_error_body. rewrite length_app, length_take. destruct (120 <? length s)%nat; [change (length [8230]) with 1%nat|change (length (@nil Z)) with 0%nat]; lia.
Qed.
