(* ===== verification/WrapperEngine.v ===== *)
(** * WrapperEngine: a track from the decryption service (crates/apple/src/wrapper/engine.rs)

    [rip_track_with_outcome] with everything it calls: the playlists, the fallback over the web playback,
    the key templates and the assembly of the decrypted file, and the CENC way with its licence.  The
    answers of the network come from an environment; progress reports and log lines are left out. *)
From S2P Require Import Prelude Text Bytes Boxes Music Streaming MirrorPolicy Acquisition WrapperPlaylist CencStrip FragmentLayout CencDecrypt StartTime InitSegment FairPlay FragmentScan Widevine WrapperClient.

#[local] Open Scope rust_scope.

Abbreviation srun := (outcome StreamError).

(** [map_err(f)?]. *)
Definition map_fail {E F A} (f : E -> F) (o : outcome E A) : outcome F A :=
  match o with Done a => Done a | Fail e => Fail (f e) | Panic => Panic | Spin => Spin end.
Definition of_result {E F A} (f : E -> F) (r : result E A) : outcome F A := match r with Ok a => Done a | Err e => Fail (f e) end.

(** ** Recognising what was answered *)

Definition until (p : rchar -> bool) (s : str) : str := match list_find (fun c => p c = true) s with Some (i, _) => take i s | None => s end.

Definition is_direct_media_response (content_type media_url : str) : bool :=
  let media_type := to_ascii_lowercase (trim (until (Z.eqb 59) content_type)) in
  if starts_with (lit "video/") media_type || starts_with (lit "audio/") media_type ||
     bool_decide (media_type = lit "application/mp4") || bool_decide (media_type = lit "application/x-m4v") then true
  else
    let path := to_ascii_lowercase (until (fun c => (c =? 63) || (c =? 35)) media_url) in
    existsb (fun extension => ends_with extension path) [lit ".m4v"; lit ".mp4"; lit ".mov"; lit ".m4a"; lit ".mp3"].

Definition looks_like_master_playlist (text : str) : bool :=
  starts_with (lit "#EXTM3U") (trim_start_by is_whitespace text) && contains (lit "#EXT-X-STREAM-INF") text.

(** ** Errors *)

Section Errors.
Variable source : SourceId.

Definition map_client_error (what : str) (error : WrapperError) : StreamError :=
  match error with
  | Http error =>
      if is_timeout error then STimeout source 30
      else if is_connect error then SSourceOffline source
      else SMessage (what ++ lit ": " ++ fault_text error)
  | Auth _ => SAuthentication source
  | Api code message => SMessage (what ++ lit ": wrapper API error (code " ++ show_i code ++ lit "): " ++ message)
  | other => SMessage (what ++ lit ": " ++ wrapper_error_display other)
  end.

Definition map_reqwest_error (what : str) (error : HttpFault) : StreamError :=
  if is_timeout error then STimeout source 60
  else if is_connect error then SMessage (what ++ lit ": " ++ fault_text error)
  else match fault_status error with
       | Some code => if is_rejection code then SAuthentication source else SMessage (what ++ lit ": " ++ fault_text error)
       | None => SMessage (what ++ lit ": " ++ fault_text error)
       end.

Definition map_license_error (error : WrapperError) : StreamError :=
  match error with
  | Http error => if is_timeout error then STimeout source 30 else SLicense (lit "fetch license: " ++ fault_text error)
  | Auth status => SLicense (lit "license rejected (HTTP " ++ show_u status ++ lit ")")
  | Api code message => SLicense (lit "license error (code " ++ show_i code ++ lit "): " ++ message)
  | other => SLicense (wrapper_error_display other)
  end.
End Errors.

(** [SDecrypt] with what was being done. *)
Definition while_ (what : str) (e : WrapperError) : StreamError := SDecrypt (what ++ lit ": " ++ wrapper_error_display e).

(** ** Assembling the file *)

Definition init_bytes_of (raw_data : list Z) (media_info : MediaPlaylistInfo) : srun (list Z) :=
  let '(init_offset, init_len) := default (0, 1037) (init_byte_range media_info) in
  if len raw_data <? init_offset ⊕ init_len then Fail (SDecrypt (lit "raw stream shorter than init segment"))
  else must (slice raw_data init_offset (init_offset ⊕ init_len)).

Definition out_of_range (i start stop length : Z) : str :=
  lit "segment " ++ show_u i ++ lit " range " ++ show_u start ++ lit ".." ++ show_u stop ++ lit " out of bounds (" ++ show_u length ++ lit ")".

Definition segment_bytes (raw_data : list Z) (i : Z) (seg : MediaSegmentRef) : srun (list Z) :=
  range ← or_fail (byte_range seg) (SDecrypt (lit "segment " ++ show_u i ++ lit " missing byte range"));
  let '(off, n) := range : Z * Z in
  let start := off in
  let stop := off ⊕ n in
  if len raw_data <? stop then Fail (SDecrypt (out_of_range i start stop (len raw_data)))
  else must (slice raw_data start stop).

(** The start times and the duration of the assembled file; what they report is not looked at. *)
Definition finish_file (output : list Z) : srun (list Z) :=
  r ← map_fail (while_ []) (normalize_fragment_start_time output);
  mret (snd (stamp_fragmented_duration (snd (r : bool * list Z)))).

Section Assemble.
Context {T : Type}.
Variable cipher : T -> list Z -> list Z.             (* the decryption of a template *)
Variable order : list (str * T) -> list (str * T).   (* the order in which a hash map is read *)

Definition template_for (templates : list (str * T)) (key_uri : str) : option T :=
  snd <$> (snd <$> list_find (fun kv => kv.1 = key_uri) templates).

(** The template of the segments that name no key. *)
Definition default_template (templates : list (str * T)) : option T :=
  match list_find (fun kv => contains (lit "P000000000") kv.1 = false) (order templates) with
  | Some (_, (_, t)) => Some t
  | None => snd <$> head (order templates)
  end.

Definition template_of (templates : list (str * T)) (fallback : T) (seg : MediaSegmentRef) : T :=
  default fallback (seg_key_uri seg ≫= template_for templates).

Fixpoint decrypt_single (raw_data : list Z) (templates : list (str * T)) (fallback : T) (i : Z) (segs : list MediaSegmentRef)
    (output : list Z) : srun (list Z) :=
  match segs with
  | [] => mret output
  | seg :: segs =>
      frag_raw ← segment_bytes raw_data i seg;
      decrypted ← map_fail (while_ (lit "decrypt fragment " ++ show_u i)) (decrypt_fragment (cipher (template_of templates fallback seg)) frag_raw);
      decrypt_single raw_data templates fallback (i + 1) segs (output ++ decrypted)
  end.

Definition decrypt_single_file_stream (raw_data : list Z) (media_info : MediaPlaylistInfo) (templates : list (str * T)) :
    srun (list Z * option Z) :=
  init_raw ← init_bytes_of raw_data media_info;
  sample_rate ← map_fail (while_ []) (audio_sample_rate init_raw);
  transformed ← map_fail (while_ (lit "transform init segment")) (transform_init_segment init_raw);
  fallback ← or_fail (default_template templates) (SDecrypt (lit "no FairPlay decryption template available"));
  output ← decrypt_single raw_data templates fallback 0 (segments media_info) transformed;
  output ← finish_file output;
  mret (output, sample_rate).

(** The steps of a rip that use the network or look at the cancellation token. *)
Inductive engine_get : Type := GetMaster | GetFallback | GetMedia | GetAudio | GetInit | GetSegment (i : Z).
Inductive engine_look : Type := AtStart | BeforeFallback | BeforeLicense | BeforeDownload | BeforeSegment (i : Z).

Record engine_env := mkEngineEnv {
  web : engine_get -> str -> result HttpFault http_answer;
  status_fault : Z -> str -> HttpFault;                 (* [error_for_status], by address *)
  en_cancelled : engine_look -> bool;
}.

Variable env : engine_env.
Variable source : SourceId.

Definition get_bytes (step : engine_get) (url fetching reading : str) : srun (list Z) :=
  resp ← of_result (map_reqwest_error source fetching) (web env step url);
  of_result (map_reqwest_error source reading) (bytes resp).

Fixpoint decrypt_multi (templates : list (str * T)) (fallback : T) (i : Z) (segs : list MediaSegmentRef) (output : list Z) : srun (list Z) :=
  match segs with
  | [] => mret output
  | seg :: segs =>
      seg_bytes ← get_bytes (GetSegment i) (seg_uri seg) (lit "Fetch segment") (lit "Read segment bytes");
      dec ← map_fail (while_ (lit "decrypt segment " ++ show_u i)) (decrypt_fragment (cipher (template_of templates fallback seg)) seg_bytes);
      decrypt_multi templates fallback (i + 1) segs (output ++ dec)
  end.

Definition decrypt_multi_segment_stream (media_info : MediaPlaylistInfo) (templates : list (str * T)) : srun (list Z * option Z) :=
  init_raw ← get_bytes GetInit (init_uri media_info) (lit "Fetch init segment") (lit "Read init bytes");
  sample_rate ← map_fail (while_ []) (audio_sample_rate init_raw);
  transformed ← map_fail (while_ (lit "transform init segment")) (transform_init_segment init_raw);
  fallback ← or_fail (default_template templates) (SDecrypt (lit "no FairPlay template available"));
  output ← decrypt_multi templates fallback 0 (segments media_info) transformed;
  output ← finish_file output;
  mret (output, sample_rate).
End Assemble.

(** ** The rip *)

Section Rip.
Context {T K : Type}.
Variables (w : wire T) (base_url : str) (c : crypto K).
Variable cipher : T -> list Z -> list Z.
Variable order : list (str * T) -> list (str * T).
Variable keystream : list Z -> list Z -> Z -> Z.     (* AES-CTR: key, vector, position *)
Variable env : engine_env.
Variables (random : list Z) (now nonce : Z).         (* what the licence request draws and reads *)

Definition source : SourceId := WrapperLite base_url.

Definition direct_stream (master_url : str) : AlacStreamInfo := mkStreamInfo master_url (lit "mp4a.40.2") 44100 16.

(** [.error_for_status()]. *)
Definition error_for_status (url : str) (resp : http_answer) : result HttpFault http_answer :=
  if (400 <=? status resp) && (status resp <? 600) then Err (status_fault env (status resp) url) else Ok resp.

Definition webplayback_fallback (track_id : str) : srun (AlacStreamInfo * option MediaPlaylistInfo) :=
  if en_cancelled env BeforeFallback then Fail SCancelled else
  master_url ← of_result (map_client_error source (lit "fetch web playback")) (fetch_webplayback w base_url track_id);
  resp ← of_result (map_reqwest_error source (lit "Fetch web playback master")) (web env GetFallback master_url);
  resp ← of_result (map_reqwest_error source (lit "Fetch web playback master")) (error_for_status master_url resp);
  master_text ← of_result (map_reqwest_error source (lit "Read web playback master")) (text resp);
  match parse_master_playlist master_text master_url HighestQuality with
  | Done info => mret (info, None)
  | Fail error =>
      if negb (looks_like_master_playlist master_text) then
        media_info ← map_fail (fun media_error => SPlaylistParse (lit "web playback playlist")
            (lit "response is neither a master playlist (" ++ wrapper_error_display error ++ lit ") nor a media playlist (" ++
             wrapper_error_display media_error ++ lit ")")) (parse_media_playlist master_text master_url);
        if decide (segments media_info = []) then
          Fail (SPlaylistParse (lit "web playback playlist") (lit "media playlist contains no audio segments"))
        else mret (direct_stream master_url, Some media_info)
      else Fail (SPlaylistParse (lit "web playback master") (wrapper_error_display error))
  | Panic => Panic
  | Spin => Spin
  end.

(** *** The way of CENC *)

Definition license_key_uri (media_info : MediaPlaylistInfo) (kid_b64 : str) : str :=
  default (lit "data:;base64," ++ kid_b64) (find_map seg_key_uri (segments media_info)).

Definition pick_key (kid : list Z) (keys : list ContentKey) : option (list Z) :=
  match list_find (fun k => key_id k = kid) keys with Some (_, k) => Some (key_value k) | None => key_value <$> head keys end.

(** The content key, from the playlist's key identifier to the licence. *)
Definition cenc_key (track_id : str) (media_info : MediaPlaylistInfo) (kid_b64 : str) : srun (list Z) :=
  kid ← of_result (fun e => SDecrypt (lit "decode CENC key id: " ++ e)) (c_b64_decode c kid_b64);
  cdm ← map_fail (while_ (lit "init Widevine CDM")) (cdm_new c random kid);
  request ← map_fail (while_ (lit "build license request")) (license_request c cdm now nonce);
  let '(challenge, cdm) := request : str * Cdm K in
  license ← of_result (map_license_error source) (fetch_license w base_url track_id challenge (license_key_uri media_info kid_b64));
  content_keys ← map_fail (fun e => SLicense (lit "unwrap license keys: " ++ wrapper_error_display e)) (content_keys c cdm license);
  or_fail (pick_key kid content_keys) (SLicense (lit "license contained no content key")).

Definition truncated_stream (got expected : Z) : str :=
  lit "audio stream truncated: got " ++ show_u got ++ lit " of " ++ show_u expected ++ lit " advertised bytes (" ++ show_u (expected - got) ++ lit " missing)".

(** The file the segments are cut from: the playlist's single one, or the first segment's. *)
Definition cenc_url (media_info : MediaPlaylistInfo) : option str :=
  match single_file_url media_info with Some url => Some url | None => seg_uri <$> head (segments media_info) end.

Definition download_cenc (media_info : MediaPlaylistInfo) : srun (list Z) :=
  single_url ← or_fail (cenc_url media_info) (SPlaylistParse (lit "media") (lit "CENC playlist has no segments"));
  resp ← of_result (map_reqwest_error source (lit "Download audio stream")) (web env GetAudio single_url);
  raw_data ← of_result (map_reqwest_error source (lit "Read audio stream bytes")) (bytes resp);
  match content_length resp with
  | Some expected => if len raw_data <? expected then Fail (SDecrypt (truncated_stream (len raw_data) expected)) else mret raw_data
  | None => mret raw_data
  end.

Fixpoint decrypt_cenc (raw_data content_key : list Z) (i : Z) (segs : list MediaSegmentRef) (output : list Z) : srun (list Z) :=
  match segs with
  | [] => mret output
  | seg :: segs =>
      if en_cancelled env (BeforeSegment i) then Fail SCancelled else
      frag ← segment_bytes raw_data i seg;
      decrypted ← map_fail (while_ (lit "decrypt segment " ++ show_u i)) (decrypt_cenc_fragment keystream content_key frag);
      frag ← map_fail (while_ (lit "strip segment " ++ show_u i ++ lit " boxes")) (strip_encryption_boxes (snd (decrypted : bool * list Z)));
      decrypt_cenc raw_data content_key (i + 1) segs (output ++ frag)
  end.

(** One chunk with the whole file. *)
Definition audio_of (codec : str) (bit_depth sample_rate : Z) (output : list Z) : AudioStreamSource :=
  mkAudio [Ok output] source codec bit_depth sample_rate (Some (len output)).

Definition rip_cenc_stream (track_id : str) (media_info : MediaPlaylistInfo) (kid_b64 : str) : srun AudioStreamSource :=
  if en_cancelled env BeforeLicense then Fail SCancelled else
  content_key ← cenc_key track_id media_info kid_b64;
  if en_cancelled env BeforeDownload then Fail SCancelled else
  raw_data ← download_cenc media_info;
  init_raw ← init_bytes_of raw_data media_info;
  transformed ← map_fail (while_ (lit "transform init segment")) (transform_init_segment init_raw);
  output ← decrypt_cenc raw_data content_key 0 (segments media_info) transformed;
  mret (audio_of (lit "mp4a.40.2") 16 44100 (snd (stamp_fragmented_duration output))).

(** *** The way of FairPlay *)

Definition adam_for_key (track_id key_uri : str) : str :=
  if contains (lit "P000000000") key_uri || ends_with (lit "/s1/e1") key_uri then lit "0" else track_id.

(** The loop that fetches one template for each key. *)
Fixpoint fetch_templates (track_id : str) (segs : list MediaSegmentRef) (templates : list (str * T)) : srun (list (str * T)) :=
  match segs with
  | [] => mret templates
  | seg :: segs =>
      match seg_key_uri seg with
      | None => fetch_templates track_id segs templates
      | Some key_uri =>
          match template_for templates key_uri with
          | Some _ => fetch_templates track_id segs templates
          | None =>
              tmpl ← of_result (while_ (lit "fetch template for " ++ key_uri)) (fst (fetch_template w base_url (adam_for_key track_id key_uri) key_uri));
              fetch_templates track_id segs (templates ++ [(key_uri, tmpl)])
          end
      end
  end.

(** The stream of a track: from the master playlist, or the web playback where there is none. *)
Definition choose_stream (track_id master_url : str) (preference : CodecPreference) :
    srun (WrapperUnavailableReason + AlacStreamInfo * option MediaPlaylistInfo) :=
  master_resp ← of_result (map_reqwest_error source (lit "Fetch master playlist")) (web env GetMaster master_url);
  if is_direct_media_response (content_type master_resp) master_url
  then s ← webplayback_fallback track_id; mret (inr s)
  else
    master_text ← of_result (map_reqwest_error source (lit "Read master playlist")) (text master_resp);
    match parse_master_playlist master_text master_url preference with
    | Done info => mret (inr (info, None))
    | Fail (Boxes.Unavailable reason) => mret (inl reason)
    | Fail error =>
        if negb (looks_like_master_playlist master_text) then s ← webplayback_fallback track_id; mret (inr s)
        else Fail (SPlaylistParse (lit "master") (wrapper_error_display error))
    | Panic => Panic
    | Spin => Spin
    end.

Definition media_playlist (stream_info : AlacStreamInfo) : srun MediaPlaylistInfo :=
  media_resp ← of_result (map_reqwest_error source (lit "Fetch media playlist")) (web env GetMedia (stream_url stream_info));
  media_text ← of_result (map_reqwest_error source (lit "Read media playlist")) (text media_resp);
  map_fail (fun e => SPlaylistParse (lit "media") (wrapper_error_display e)) (parse_media_playlist media_text (stream_url stream_info)).

Definition rip_fairplay (track_id : str) (stream_info : AlacStreamInfo) (media_info : MediaPlaylistInfo) : srun AudioStreamSource :=
  key_templates ← fetch_templates track_id (segments media_info) [];
  decrypted ← match single_file_url media_info with
              | Some single_url =>
                  raw_data ← get_bytes env source GetAudio single_url (lit "Download audio stream") (lit "Read audio stream bytes");
                  decrypt_single_file_stream cipher order raw_data media_info key_templates
              | None => decrypt_multi_segment_stream cipher order env source media_info key_templates
              end;
  let '(decrypted_bytes, sample_rate) := decrypted : list Z * option Z in
  mret (audio_of (si_codec stream_info) (si_bit_depth stream_info) (default (si_sample_rate stream_info) sample_rate) decrypted_bytes).

Definition rip_track_with_outcome (track_id : str) (preference : CodecPreference) : srun WrapperTrackOutcome :=
  if en_cancelled env AtStart then Fail SCancelled else
  match fetch_m3u8_url w base_url track_id with
  | Err (Boxes.Unavailable reason) => mret (WrapperUnavailable reason)
  | Err error => Fail (map_client_error source (lit "fetch m3u8 url") error)
  | Ok master_url =>
      chosen ← choose_stream track_id master_url preference;
      match chosen : WrapperUnavailableReason + AlacStreamInfo * option MediaPlaylistInfo with
      | inl reason => mret (WrapperUnavailable reason)
      | inr (stream_info, direct_media_info) =>
          media_info ← match direct_media_info with Some media_info => mret media_info | None => media_playlist stream_info end;
          if decide (key_method media_info = Some (lit "ISO-23001-7")) then
            kid_b64 ← or_fail (cenc_kid_b64 media_info) (SPlaylistParse (lit "media") (lit "CENC playlist has no key id"));
            s ← rip_cenc_stream track_id media_info kid_b64;
            mret (WrapperSource s)
          else
            s ← rip_fairplay track_id stream_info media_info;
            mret (WrapperSource s)
      end
  end.

(** [rip_track]. *)
Definition rip_track (track_id : str) (preference : CodecPreference) : srun AudioStreamSource :=
  outcome ← rip_track_with_outcome track_id preference;
  match outcome : WrapperTrackOutcome with
  | WrapperSource s => mret s
  | WrapperUnavailable reason => Fail (SUnavailable (unavailable_display reason))
  end.
End Rip.

(** ** Lemmas *)

Lemma template_for_nil {T} k : template_for ([] : list (str * T)) k = None.
Proof. reflexivity. Qed.

Lemma template_for_cons {T} k t (ts : list (str * T)) k' : template_for ((k, t) :: ts) k' = if decide (k = k') then Some t else template_for ts k'.
Proof. unfold template_for. cbn [list_find]. destruct (decide _) as [|]; [done|]. destruct (list_find _ ts) as [[i [x y]]|]; done. Qed.

Lemma template_for_app {T} (ts : list (str * T)) k t k' :
  template_for (ts ++ [(k, t)]) k' = match template_for ts k' with Some t => Some t | None => if decide (k = k') then Some t else None end.
Proof.
  induction ts as [|[k0 t0] ts IH]; cbn [app]; [by rewrite template_for_cons|]. rewrite !template_for_cons, IH. by destruct (decide (k0 = k')).
Qed.

Lemma template_for_elem {T} (ts : list (str * T)) k t : template_for ts k = Some t -> (k, t) ∈ ts.
Proof.
  induction ts as [|[k0 t0] ts IH]; [done|]. rewrite template_for_cons. destruct (decide _) as [->|]; [intros [= ->]; left|]. intros H. right. by apply IH.
Qed.

Lemma template_for_none {T} (ts : list (str * T)) k : template_for ts k = None -> k ∉ ts.*1.
Proof.
  induction ts as [|[k0 t0] ts IH]; [by intros _ H; apply elem_of_nil in H|]. rewrite template_for_cons. destruct (decide _) as [->|Hk]; [discriminate|].
  intros H. rewrite fmap_cons. apply not_elem_of_cons. split; [intros E; by apply Hk|by apply IH].
Qed.

Section Facts.
Context {T K : Type}.
Variables (w : wire T) (base_url : str) (c : crypto K) (cipher : T -> list Z -> list Z) (order : list (str * T) -> list (str * T)).
Variables (keystream : list Z -> list Z -> Z -> Z) (env : engine_env) (random : list Z) (now nonce : Z).

(** What the service yields for a key. *)
Definition fetched (track_id k : str) : result WrapperError T := fst (fetch_template w base_url (adam_for_key track_id k) k).

(** The templates are those of the service, each asked for once. *)
Definition templates_ok (track_id : str) (ts : list (str * T)) : Prop :=
  NoDup ts.*1 /\ forall k t, template_for ts k = Some t -> fetched track_id k = Ok t.

Lemma templates_fetched track_id segs :
  (forall seg k, seg ∈ segs -> seg_key_uri seg = Some k -> is_ok (fetched track_id k) = true) ->
  forall ts0, templates_ok track_id ts0 ->
  exists ts, fetch_templates w base_url track_id segs ts0 = Done ts /\ templates_ok track_id ts /\
    (forall k t, template_for ts0 k = Some t -> template_for ts k = Some t) /\
    (forall seg k, seg ∈ segs -> seg_key_uri seg = Some k -> is_Some (template_for ts k)).
Proof.
  induction segs as [|seg segs IH]; intros Hok ts0 H0; cbn [fetch_templates].
  { exists ts0. split_and!; [done|done|done|]. intros seg k H. by apply elem_of_nil in H. }
  assert (Hrest : forall seg k, seg ∈ segs -> seg_key_uri seg = Some k -> is_ok (fetched track_id k) = true) by (intros s k Hs; apply Hok; by right).
  assert (Hskip : (forall k, seg_key_uri seg = Some k -> is_Some (template_for ts0 k)) ->
    exists ts, fetch_templates w base_url track_id segs ts0 = Done ts /\ templates_ok track_id ts /\
    (forall k t, template_for ts0 k = Some t -> template_for ts k = Some t) /\
    (forall s k, s ∈ seg :: segs -> seg_key_uri s = Some k -> is_Some (template_for ts k))).
  { intros Hin. destruct (IH Hrest ts0 H0) as (ts & Hf & Hts & Hm & Hall). exists ts. split_and!; [done..|].
    intros s k [-> |Hs]%elem_of_cons Hk; [|by eapply Hall]. destruct (Hin k Hk) as [t Ht]. exists t. by apply Hm. }
  destruct (seg_key_uri seg) as [k|] eqn:Ek; [|apply Hskip; done].
  destruct (template_for ts0 k) as [t|] eqn:Et; [apply Hskip; by intros k' [= <-]|].
  specialize (Hok seg k ltac:(left) Ek). fold (fetched track_id k). destruct (fetched track_id k) as [t|e] eqn:Ef; [|done].
  cbn [of_result]. run_simpl. destruct H0 as [Hnd H0].
  destruct (IH Hrest (ts0 ++ [(k, t)])) as (ts & Hf & Hts & Hm & Hall).
  { split.
    - rewrite fmap_app. apply NoDup_app. split_and!; [done| |by apply NoDup_singleton]. intros x Hx ->%list_elem_of_singleton. by apply template_for_none in Et.
    - intros k' t'. rewrite template_for_app. destruct (template_for ts0 k') as [t0|] eqn:E0; [intros [= <-]; by apply H0|].
      case_decide as Hk; [|done]. intros [= <-]. by subst k'. }
  assert (Hk : template_for ts k = Some t) by (apply Hm; rewrite template_for_app, Et; by rewrite decide_True).
  exists ts. split_and!; [done|done| |].
  - intros k' t' H. apply Hm. by rewrite template_for_app, H.
  - intros s k' [-> |Hs]%elem_of_cons Hk'; [|by eapply Hall]. rewrite Ek in Hk'. injection Hk' as <-. by exists t.
Qed.

Lemma default_template_some (ts : list (str * T)) : order ts ≡ₚ ts -> ts <> [] -> exists t, default_template order ts = Some t.
Proof.
  intros Hp Hne. unfold default_template. destruct (list_find _ (order ts)) as [[i [k t]]|]; [by exists t|].
  destruct (order ts) as [|[k t] l] eqn:E; [|by exists t]. apply Permutation_nil in Hp. by subst ts.
Qed.

Lemma segment_bytes_in raw i seg off n :
  byte_range seg = Some (off, n) -> 0 <= off -> 0 <= n -> off + n <= len raw -> len raw < 2 ^ 63 ->
  exists frag, slice raw off (off + n) = Some frag /\ segment_bytes raw i seg = Done frag.
Proof.
  intros Hb Ho Hn Hl Hr. destruct (slice_Some raw off (off + n)) as (frag & Hs & _); [lia..|]. exists frag. split; [done|].
  unfold segment_bytes. rewrite Hb. run_simpl. nowrap. decide_le. by rewrite Hs.
Qed.

(** A segment inside the file, with the template of its key, and what its fragment decrypts to. *)
Definition segment_decrypts (track_id : str) (raw : list Z) (seg : MediaSegmentRef) (dec : list Z) : Prop :=
  exists off n k t frag, byte_range seg = Some (off, n) /\ 0 <= off /\ 0 <= n /\ off + n <= len raw /\
    seg_key_uri seg = Some k /\ fetched track_id k = Ok t /\ slice raw off (off + n) = Some frag /\ decrypt_fragment (cipher t) frag = Done dec.

Lemma segments_decrypted track_id raw ts fallback segs decs :
  len raw < 2 ^ 63 -> templates_ok track_id ts -> (forall seg k, seg ∈ segs -> seg_key_uri seg = Some k -> is_Some (template_for ts k)) ->
  Forall2 (segment_decrypts track_id raw) segs decs ->
  forall i output, decrypt_single cipher raw ts fallback i segs output = Done (output ++ concat decs).
Proof.
  intros Hraw [_ Hts] Hall H. induction H as [|seg dec segs decs Hseg _ IH]; intros i output; cbn [decrypt_single concat]; [by rewrite app_nil_r|].
  destruct Hseg as (off & n & k & t & frag & Hb & Ho & Hn & Hl & Hk & Hf & Hs & Hd).
  destruct (segment_bytes_in raw i seg off n Hb Ho Hn Hl Hraw) as (frag' & Hs' & Hbytes). assert (frag' = frag) as -> by congruence.
  rewrite Hbytes. run_simpl. destruct (Hall seg k ltac:(left) Hk) as [t' Ht']. assert (t' = t) as -> by (apply Hts in Ht'; congruence).
  unfold template_of. rewrite Hk. cbn [mbind option_bind default]. rewrite Ht'. cbn [default id]. rewrite Hd. cbn [map_fail]. run_simpl.
  rewrite IH by (intros s k' Hs'' Hk'; apply (Hall s k'); [by right|done]). by rewrite <-app_assoc.
Qed.
End Facts.

(** What the places of the engine read outside the file or past its end. *)
Lemma segment_bytes_total raw i seg :
  (forall off n, byte_range seg = Some (off, n) -> 0 <= off /\ 0 <= n /\ off + n < 2 ^ 64) -> finished (segment_bytes raw i seg) = true.
Proof.
  intros H. unfold segment_bytes. destruct (byte_range seg) as [[off n]|]; [|done]. destruct (H off n eq_refl) as (H1 & H2 & H3).
  cbn [or_fail]. run_simpl. nowrap. destruct (Z.ltb_spec (len raw) (off + n)); [done|].
  destruct (slice_Some raw off (off + n)) as (frag & Hs & _); [lia..|]. by rewrite Hs.
Qed.

(** ** Theorems *)

(** C16: the file of a stream in one piece is its init segment without the protection, then every segment's part of the
    download, cut out at its byte range and decrypted with the template of its own key, in the order of the
    playlist, then the start times and the duration.  Nothing of it depends on the order of the hash map: when
    every segment names its key, the template that stands for a missing one is never used. *)
Theorem fairplay_file_assembled {T : Type} (w : wire T) (base_url : str) (cipher : T -> list Z -> list Z)
    (order : list (str * T) -> list (str * T)) (env : engine_env) (track_id url : str) (info : AlacStreamInfo) (media : MediaPlaylistInfo)
    (resp : http_answer) (raw init head : list Z) (rate : option Z) (decs : list (list Z)) (output : list Z) :
  (forall ts, order ts ≡ₚ ts) ->
  single_file_url media = Some url -> web env GetAudio url = Ok resp -> bytes resp = Ok raw -> len raw < 2 ^ 63 ->
  init_bytes_of raw media = Done init -> audio_sample_rate init = Done rate -> transform_init_segment init = Done head ->
  segments media <> [] -> Forall2 (segment_decrypts w base_url cipher track_id raw) (segments media) decs ->
  finish_file (head ++ concat decs) = Done output ->
  rip_fairplay w base_url cipher order env track_id info media =
  Done (audio_of base_url (si_codec info) (si_bit_depth info) (default (si_sample_rate info) rate) output).
Proof.
  intros Ho Hurl Hweb Hraw Hlen Hinit Hrate Hhead Hne Hsegs Hout.
  assert (Hkeys : forall seg k, seg ∈ segments media -> seg_key_uri seg = Some k -> is_ok (fetched w base_url track_id k) = true).
  { intros seg k Hs Hk. apply list_elem_of_lookup in Hs as [i Hi]. destruct (Forall2_lookup_l _ _ _ _ _ Hsegs Hi) as (dec & _ & Hd).
    destruct Hd as (? & ? & k' & t & ? & _ & _ & _ & _ & Hk' & Hf & _). assert (k' = k) as -> by congruence. by rewrite Hf. }
  destruct (templates_fetched w base_url track_id (segments media) Hkeys []) as (ts & Hf & Hok & _ & Hall).
  { split; [constructor|done]. }
  destruct (default_template_some order ts (Ho ts)) as [fallback Hd].
  { intros ->. destruct (segments media) as [|seg segs] eqn:E; [done|]. apply Forall2_cons_inv_l in Hsegs as (dec & decs' & Hd & _ & _).
    destruct Hd as (? & ? & k & t & ? & _ & _ & _ & _ & Hk & _). destruct (Hall seg k ltac:(left) Hk) as [t' Ht']. done. }
  unfold rip_fairplay. rewrite Hf. run_simpl. rewrite Hurl. unfold get_bytes. rewrite Hweb. cbn [of_result]. run_simpl. rewrite Hraw. cbn [of_result]. run_simpl.
  unfold decrypt_single_file_stream. rewrite Hinit. run_simpl. rewrite Hrate. cbn [map_fail]. run_simpl. rewrite Hhead. cbn [map_fail]. run_simpl.
  rewrite Hd. cbn [or_fail]. run_simpl.
  rewrite (segments_decrypted w base_url cipher track_id raw ts fallback _ _ Hlen Hok Hall Hsegs). run_simpl. rewrite Hout. run_simpl. done.
Qed.

(** A service that makes the template of a key from the song it is asked for. *)
Definition demo_service : wire Z :=
  mkWire Z (fun _ r => Ok (mkAnswer 200 [] None (Ok (match r with Get u => u | Post u _ => u end)) (Ok []))) show_u (fun _ => Err []) (fun _ => Err [])
    (fun _ => Err []) (fun u => Ok (mkApi 0 [] (Some (mkTemplateData u [] [] [] [] [] [])))) (fun _ _ _ => Err []) (fun d => Ok (ctx d))
    (fun u => Ok (if contains (lit "adamId=0&") u then 0x55 else 0x33)).
Definition demo_xor (t : Z) (l : list Z) : list Z := Z.lxor t <$> l.

Definition demo_head : list Z := init_bytes (demo_init 1 [] []).
Definition demo_secret : list Z := render_fragment (with_payload (demo_fair 0x201) (replicate 20 7 ++ [1; 2; 3; 4])).
Definition demo_raw : list Z := demo_head ++ demo_secret ++ demo_secret.
Definition demo_media : MediaPlaylistInfo :=
  mkMediaPlaylist (lit "a.mp4") (Some (0, len demo_head))
    [mkSegment (lit "a.mp4") (Some (len demo_head, len demo_secret)) (Some (lit "skd://itunes.apple.com/P000000000/s1/e1"));
     mkSegment (lit "a.mp4") (Some (len demo_head + len demo_secret, len demo_secret)) (Some (lit "skd://song/c23"))]
    (Some (lit "http://a/a.mp4")) None None.
Definition demo_web (answer : http_answer) : engine_env :=
  mkEngineEnv (fun _ _ => Ok answer) (fun s u => mkFault u false false (Some s)) (fun _ => false).
Definition demo_clear (t : Z) : list Z := match decrypt_fragment (demo_xor t) demo_secret with Done l => l | _ => [] end.
Definition demo_output : list Z :=
  match finish_file (init_bytes (transformed (demo_init 1 [] [])) ++ demo_clear 0x55 ++ demo_clear 0x33) with Done l => l | _ => [] end.
Lemma fairplay_file_assembled_witness :
  rip_fairplay demo_service (lit "http://w") demo_xor reverse (demo_web (mkAnswer 200 [] None (Ok []) (Ok demo_raw))) (lit "9")
    (mkStreamInfo (lit "http://a/a.m3u8") (lit "alac") 48000 24) demo_media =
  Done (audio_of (lit "http://w") (lit "alac") 24 48000 demo_output).
Proof.
  apply (fairplay_file_assembled demo_service (lit "http://w") demo_xor reverse (demo_web (mkAnswer 200 [] None (Ok []) (Ok demo_raw))) (lit "9")
    (lit "http://a/a.mp4") (mkStreamInfo (lit "http://a/a.m3u8") (lit "alac") 48000 24) demo_media (mkAnswer 200 [] None (Ok []) (Ok demo_raw)) demo_raw
    demo_head (init_bytes (transformed (demo_init 1 [] []))) None [demo_clear 0x55; demo_clear 0x33] demo_output).
  - intros ts. apply reverse_Permutation.
  - done.
  - done.
  - done.
  - by vm_compute.
  - by vm_compute.
  - by vm_compute.
  - by vm_compute.
  - done.
  - apply Forall2_cons_2; [|apply Forall2_cons_2; [|apply Forall2_nil_2]].
    + exists (len demo_head), (len demo_secret), (lit "skd://itunes.apple.com/P000000000/s1/e1"), 0x55, demo_secret. split_and!; by vm_compute.
    + exists (len demo_head + len demo_secret), (len demo_secret), (lit "skd://song/c23"), 0x33, demo_secret. split_and!; by vm_compute.
  - by vm_compute.
Defined.

(** The file of CENC is assembled from its segments in order, with the one key of the licence. *)
Lemma decrypt_cenc_parts keystream env raw key segs frags :
  len raw < 2 ^ 63 -> (forall i, en_cancelled env (BeforeSegment i) = false) ->
  Forall2 (fun seg dec => exists off n frag clear dropped, byte_range seg = Some (off, n) /\ 0 <= off /\ 0 <= n /\ off + n <= len raw /\
    slice raw off (off + n) = Some frag /\ decrypt_cenc_fragment keystream key frag = Done (dropped, clear) /\ strip_encryption_boxes clear = Done dec)
    segs frags ->
  forall i output, decrypt_cenc keystream env raw key i segs output = Done (output ++ concat frags).
Proof.
  intros Hraw Hc H. induction H as [|seg dec segs decs Hseg _ IH]; intros i output; cbn [decrypt_cenc concat]; [by rewrite app_nil_r|].
  destruct Hseg as (off & n & frag & clear & dropped & Hb & Ho & Hn & Hl & Hs & Hd & Hst).
  destruct (segment_bytes_in raw i seg off n Hb Ho Hn Hl Hraw) as (frag' & Hs' & Hbytes). assert (frag' = frag) as -> by congruence.
  rewrite Hc, Hbytes. run_simpl. rewrite Hd. cbn [map_fail]. run_simpl. cbn [snd]. rewrite Hst. cbn [map_fail]. run_simpl.
  rewrite IH. by rewrite <-app_assoc.
Qed.

(** What a rip can report: the service's 404 or a valid master playlist without the stream, and nothing else, makes the
    track unavailable; a source is a file in one chunk, of the advertised length, under the name of the service;
    and a rip that was cancelled before it began asks for nothing. *)
Definition single_chunk (base_url : str) (s : AudioStreamSource) : Prop :=
  exists output, stream s = [Ok output] /\ as_content_length s = Some (len output) /\ as_source s = WrapperLite base_url.

Lemma bind_done {E A B} (m : outcome E A) (f : A -> outcome E B) b : m ≫= f = Done b -> exists a, m = Done a /\ f a = Done b.
Proof. destruct m; try done. by exists a. Qed.

(** The service has no playlist for the track. *)
Definition m3u8_not_found {T} (w : wire T) (base_url track_id : str) : Prop :=
  exists resp, send w 0 (Get (base_url ++ lit "/m3u8?adamId=" ++ track_id)) = Ok resp /\
    (status resp = 404 \/ exists body e, text resp = Ok body /\ parse_m3u8 w body = Ok e /\ code e = 404).

Lemma fetch_m3u8_unavailable {T} (w : wire T) base_url track_id r :
  fetch_m3u8_url w base_url track_id = Err (Boxes.Unavailable r) -> r = M3u8NotFound /\ m3u8_not_found w base_url track_id.
Proof.
  unfold fetch_m3u8_url, envelope, m3u8_failed, m3u8_refused, auth_or_http, api_or_auth, m3u8_not_found.
  destruct (send w 0 _) as [resp|e] eqn:Es; [|done]. destruct (is_success (status resp)) eqn:Ei; cbn [negb].
  - destruct (text resp) as [body|e] eqn:Et; [|done]. destruct (parse_m3u8 w body) as [env|e] eqn:Ep; [|done].
    destruct (code env =? 0) eqn:E0; cbn [negb].
    + by destruct (data env ≫= id) as [[|x l]|].
    + destruct (Z.eqb_spec (code env) 404) as [E4|E4].
      * intros [= <-]. split; [done|]. exists resp. split; [done|]. right. by exists body, env.
      * by destruct (is_rejection (code env)).
  - destruct (Z.eqb_spec (status resp) 404) as [E4|E4].
    + intros [= <-]. split; [done|]. exists resp. split; [done|]. by left.
    + by destruct (is_rejection (status resp)).
Qed.

Section Outcome.
Context {T K : Type}.
Variables (w : wire T) (base_url : str) (c : crypto K) (cipher : T -> list Z -> list Z) (order : list (str * T) -> list (str * T)).
Variables (keystream : list Z -> list Z -> Z -> Z) (env : engine_env) (random : list Z) (now nonce : Z).

Lemma audio_of_chunk codec depth rate output : single_chunk base_url (audio_of base_url codec depth rate output).
Proof. by exists output. Qed.

Lemma rip_fairplay_chunk track_id info media s : rip_fairplay w base_url cipher order env track_id info media = Done s -> single_chunk base_url s.
Proof.
  unfold rip_fairplay. intros (ts & _ & H)%bind_done. apply bind_done in H as ([output rate] & _ & H). injection H as <-. apply audio_of_chunk.
Qed.

Lemma rip_cenc_chunk track_id media kid s :
  rip_cenc_stream w base_url c keystream env random now nonce track_id media kid = Done s -> single_chunk base_url s.
Proof.
  unfold rip_cenc_stream. destruct (en_cancelled env _); [done|]. intros (key & _ & H)%bind_done. destruct (en_cancelled env _); [done|].
  apply bind_done in H as (raw & _ & H). apply bind_done in H as (init & _ & H). apply bind_done in H as (head & _ & H).
  apply bind_done in H as (output & _ & H). injection H as <-. apply audio_of_chunk.
Qed.

(** A valid answer to the request for the master playlist, in which the stream asked for is not. *)
Definition not_in_master (track_id master_url : str) (preference : CodecPreference) (r : WrapperUnavailableReason) : Prop :=
  fetch_m3u8_url w base_url track_id = Ok master_url /\
  exists resp content, web env GetMaster master_url = Ok resp /\ is_direct_media_response (content_type resp) master_url = false /\
    text resp = Ok content /\ parse_master_playlist content master_url preference = Fail (Boxes.Unavailable r).

Lemma choose_unavailable track_id master_url preference r :
  fetch_m3u8_url w base_url track_id = Ok master_url ->
  choose_stream w base_url env track_id master_url preference = Done (inl r) -> not_in_master track_id master_url preference r.
Proof.
  intros Hf. unfold choose_stream. intros (resp & Hw & H)%bind_done. destruct (is_direct_media_response _ _) eqn:Ed.
  { by apply bind_done in H as (s & _ & H). }
  apply bind_done in H as (content & Ht & H). split; [done|]. exists resp, content.
  destruct (web env GetMaster master_url) as [resp'|]; [|done]. injection Hw as ->. destruct (text resp) as [content'|]; [|done]. injection Ht as ->.
  split_and!; [done..|]. destruct (parse_master_playlist content master_url preference) as [info|e| |] eqn:Ep; [done| |done|done].
  destruct e; try (destruct (negb _); [by apply bind_done in H as (s & _ & H)|done]). by injection H as ->.
Qed.
End Outcome.

(** What a rip reports. *)
Theorem rip_outcome_sound {T K : Type} (w : wire T) (base_url : str) (c : crypto K) (cipher : T -> list Z -> list Z)
    (order : list (str * T) -> list (str * T)) (keystream : list Z -> list Z -> Z -> Z) (env : engine_env) (random : list Z) (now nonce : Z)
    (track_id : str) (preference : CodecPreference) :
  match rip_track_with_outcome w base_url c cipher order keystream env random now nonce track_id preference with
  | Done (WrapperSource s) => en_cancelled env AtStart = false /\ single_chunk base_url s
  | Done (WrapperUnavailable r) =>
      en_cancelled env AtStart = false /\
      (r = M3u8NotFound /\ m3u8_not_found w base_url track_id \/ exists master_url, not_in_master w base_url env track_id master_url preference r)
  | Fail e => en_cancelled env AtStart = true -> e = SCancelled
  | Panic | Spin => en_cancelled env AtStart = false
  end.
Proof.
  destruct (en_cancelled env AtStart) eqn:Ec.
  { unfold rip_track_with_outcome. by rewrite Ec. }
  destruct (rip_track_with_outcome _ _ _ _ _ _ _ _ _ _ _ _) as [o|e| |] eqn:E; [|done..].
  unfold rip_track_with_outcome in E. rewrite Ec in E.
  destruct (fetch_m3u8_url w base_url track_id) as [master_url|e] eqn:Ef.
  2:{ destruct e; try done. injection E as <-. split; [done|]. left. by apply fetch_m3u8_unavailable. }
  apply bind_done in E as ([r|[info direct]] & Hc & E).
  { injection E as <-. split; [done|]. right. exists master_url. by apply choose_unavailable. }
  apply bind_done in E as (media & _ & E). case_decide.
  - apply bind_done in E as (kid & _ & E). apply bind_done in E as (s & Hs & E). injection E as <-. split; [done|]. by eapply rip_cenc_chunk.
  - apply bind_done in E as (s & Hs & E). injection E as <-. split; [done|]. by eapply rip_fairplay_chunk.
Qed.

(** A segment is taken out of the download exactly when its range lies in it, and is then as long as the playlist
    says; any other range is an error.  This needs a range whose end fits 64 bits, which the playlist's parser does
    not make sure of. *)
Theorem segment_ranges_checked (raw : list Z) (i off n : Z) (seg : MediaSegmentRef) :
  byte_range seg = Some (off, n) -> 0 <= off -> 0 <= n -> off + n < 2 ^ 64 ->
  (off + n <= len raw -> exists frag, segment_bytes raw i seg = Done frag /\ frag = take (Z.to_nat n) (drop (Z.to_nat off) raw) /\ len frag = n) /\
  (len raw < off + n -> segment_bytes raw i seg = Fail (SDecrypt (out_of_range i off (off + n) (len raw)))).
Proof.
  intros Hb Ho Hn Hf. unfold segment_bytes. rewrite Hb. cbn [or_fail]. run_simpl. nowrap. split; intros Hl.
  - decide_le. destruct (slice_Some raw off (off + n)) as (frag & Hs & Hlen); [lia..|]. rewrite Hs. exists frag. split; [done|].
    split; [|lia]. unfold slice in Hs. destruct (_ : bool) in Hs; [|done]. injection Hs as <-. f_equal; lia.
  - by destruct (Z.ltb_spec (len raw) (off + n)); [|lia].
Qed.

Lemma segment_ranges_checked_witness :
  segment_bytes [1; 2; 3; 4; 5] 0 (mkSegment [] (Some (1, 3)) None) = Done [2; 3; 4] /\
  segment_bytes [1; 2; 3; 4; 5] 7 (mkSegment [] (Some (4, 2)) None) = Fail (SDecrypt (out_of_range 7 4 6 5)).
Proof.
  split.
  - destruct (segment_ranges_checked [1; 2; 3; 4; 5] 0 1 3 (mkSegment [] (Some (1, 3)) None)) as [H _]; [done|lia..|].
    destruct H as (frag & H & -> & _); [by vm_compute|exact H].
  - destruct (segment_ranges_checked [1; 2; 3; 4; 5] 7 4 2 (mkSegment [] (Some (4, 2)) None)) as [_ H]; [done|lia..|].
    apply H. by vm_compute.
Defined.

Definition wrapping_playlist : str :=
  lit "#EXTM3U" ++ [10] ++ lit "#EXT-X-MAP:URI=" ++ [34] ++ lit "a.mp4" ++ [34] ++ [10] ++
  lit "#EXT-X-BYTERANGE:10@18446744073709551612" ++ [10] ++ lit "#EXTINF:1," ++ [10] ++ lit "a.mp4" ++ [10].

(** A range that the parser accepts and whose end wraps passes the comparison and panics at the slice, whatever was
    downloaded. *)
Theorem wrapping_range_panics :
  exists media seg, parse_media_playlist wrapping_playlist (lit "http://a/b.m3u8") = Done media /\ segments media = [seg] /\
    segment_bytes (replicate 100 0) 0 seg = Panic.
Proof. do 2 eexists. split_and!; [vm_compute; reflexivity|reflexivity|by vm_compute]. Qed.

(** A CENC playlist of several files is cut from the file of its first segment: the download is that one, and a
    segment of another file is not looked for. *)
Theorem cenc_reads_first_file (base_url a b : str) (env : engine_env) (media : MediaPlaylistInfo) (r1 r2 : option (Z * Z)) (resp : http_answer) (raw : list Z) :
  single_file_url media = None -> segments media = [mkSegment a r1 None; mkSegment b r2 None] ->
  web env GetAudio a = Ok resp -> content_length resp = None -> bytes resp = Ok raw ->
  download_cenc base_url env media = Done raw.
Proof. intros Hs Hl Hw Hc Hb. unfold download_cenc, cenc_url. rewrite Hs, Hl. change (seg_uri <$> head _) with (Some a). run_simpl. rewrite Hw. cbn [of_result]. run_simpl. by rewrite Hb, Hc. Qed.
