(* ===== verification/Programs.v ===== *)
(** * Programs: handlers that run side by side on a shared state

    A handler is the tree of the questions it asks (of the database, the caches, the clock); its code decides
    on the answers.  [eval] runs one alone; a [system] runs any number, and between two questions of one of
    them the others and the environment may do anything.  [safe] is the logic to reason about such runs: what
    a program may rely on is what it has seen, which the log of all answers keeps. *)
From S2P Require Import Prelude.

Inductive prog (Q : Type -> Type) (E A : Type) : Type :=
| Ret (r : result E A)
| Ask {B : Type} (q : Q B) (k : B -> prog Q E A).
Arguments Ret {Q E A}. Arguments Ask {Q E A B}.

Section Monad.
Context {Q : Type -> Type}.

(** Answers that are errors end the program: [?]. *)
Fixpoint prog_bind {E A B} (f : A -> prog Q E B) (p : prog Q E A) : prog Q E B :=
  match p with
  | Ret (Ok a) => f a
  | Ret (Err e) => Ret (Err e)
  | Ask q k => Ask q (fun b => prog_bind f (k b))
  end.

(** The result of a call that is looked at. *)
Fixpoint attempt {E F A} (p : prog Q E A) : prog Q F (result E A) :=
  match p with Ret r => Ret (Ok r) | Ask q k => Ask q (fun b => attempt (k b)) end.

Definition ask {E B} (q : Q B) : prog Q E B := Ask q (fun b => Ret (Ok b)).
Definition query_of {E B} (q : Q (result E B)) : prog Q E B := Ask q (fun r => Ret r).
Definition throw {E A} (e : E) : prog Q E A := Ret (Err e).

Fixpoint fail_as {E F A} (f : E -> F) (p : prog Q E A) : prog Q F A :=
  match p with Ret r => Ret (map_err f r) | Ask q k => Ask q (fun b => fail_as f (k b)) end.
End Monad.

#[global] Instance prog_ret {Q E} : MRet (prog Q E) := fun A a => Ret (Ok a).
#[global] Instance prog_mbind {Q E} : MBind (prog Q E) := fun A B f p => prog_bind f p.

(** A program over some questions is one over more of them. *)
Fixpoint embed {Q P : Type -> Type} {E A} (f : forall B, Q B -> P B) (p : prog Q E A) : prog P E A :=
  match p with Ret r => Ret r | Ask q k => Ask (f _ q) (fun b => embed f (k b)) end.

(** A run alone. *)
Fixpoint eval {Q : Type -> Type} {W E A} (step : forall B, Q B -> W -> B * W) (p : prog Q E A) (w : W) : result E A * W :=
  match p with
  | Ret r => (r, w)
  | Ask q k => let '(b, w) := step _ q w in eval step (k b) w
  end.

Lemma eval_bind {Q : Type -> Type} {W E A B} (step : forall B, Q B -> W -> B * W) (f : A -> prog Q E B) (p : prog Q E A) w :
  eval step (p ≫= f) w = match eval step p w with (Ok a, w) => eval step (f a) w | (Err e, w) => (Err e, w) end.
Proof.
  revert w. induction p as [[a|e]|B0 q k IH]; intros w; [done|done|]. cbn [mbind prog_mbind prog_bind eval].
  destruct (step _ q w) as [b w1]. apply IH.
Qed.

Lemma eval_fail_as {Q : Type -> Type} {W E F A} (step : forall B, Q B -> W -> B * W) (f : E -> F) (p : prog Q E A) w :
  eval step (fail_as f p) w = let '(r, w) := eval step p w in (map_err f r, w).
Proof. revert w. induction p as [r|B0 q k IH]; intros w; [done|]. cbn. destruct (step _ q w) as [b w1]. apply IH. Qed.

Lemma eval_attempt {Q : Type -> Type} {W E F A} (step : forall B, Q B -> W -> B * W) (p : prog Q E A) w :
  eval step (attempt (F := F) p) w = let '(r, w) := eval step p w in (Ok r, w).
Proof. revert w. induction p as [r|B0 q k IH]; intros w; [done|]. cbn. destruct (step _ q w) as [b w1]. apply IH. Qed.

Lemma eval_embed {Q P : Type -> Type} {W E A} (f : forall B, Q B -> P B) (step : forall B, P B -> W -> B * W) (p : prog Q E A) w :
  eval step (embed f p) w = eval (fun B q => step B (f B q)) p w.
Proof. revert w. induction p as [r|B0 q k IH]; intros w; [done|]. cbn. destruct (step _ _ w) as [b w1]. apply IH. Qed.

(** ** Side by side *)

Section System.
Context {Q : Type -> Type} {W R E A : Type}.
Variable answers : forall B, W -> Q B -> B -> W -> Prop.   (* the state before, the question, the answer, the state after *)
Variable changes : W -> W -> Prop.                         (* the environment *)
Variable program : R -> prog Q E A.                        (* the handler of a request *)

(** A question, its answer and the state it was put to. *)
Inductive happened : Type :=
| Happened {B : Type} (q : Q B) (b : B) (w : W).

Record system := mkSystem { state : W; log : list happened; handlers : list (R * prog Q E A) }.

Inductive system_step : system -> system -> Prop :=
| Arrives (s : system) (r : R) : system_step s (mkSystem (state s) (log s) (handlers s ++ [(r, program r)]))
| Changes (s : system) (w : W) : changes (state s) w -> system_step s (mkSystem w (log s) (handlers s))
| Goes_on (s : system) (i : nat) (r : R) (B : Type) (q : Q B) (k : B -> prog Q E A) (b : B) (w : W) :
    handlers s !! i = Some (r, Ask q k) -> answers B (state s) q b w ->
    system_step s (mkSystem w (log s ++ [Happened q b (state s)]) (<[i := (r, k b)]> (handlers s))).

Definition runs_to : system -> system -> Prop := rtc system_step.

(** [admits q l w]: what a program has to know, from the log, to put the question; in return it may rely on the
    invariant. *)
Variable admits : forall B, Q B -> list happened -> W -> Prop.
Variable invariant : W -> list happened -> Prop.

Fixpoint safe {F X} (post : result F X -> list happened -> Prop) (p : prog Q F X) (l : list happened) : Prop :=
  match p with
  | Ret r => post r l
  | Ask q k => forall l' w, l `prefix_of` l' -> invariant w l' ->
      admits _ q l' w /\ forall b w', answers _ w q b w' -> safe post (k b) (l' ++ [Happened q b w])
  end.

Definition stable (P : list happened -> Prop) : Prop := forall l l', l `prefix_of` l' -> P l -> P l'.

Lemma safe_later {F X} (post : result F X -> list happened -> Prop) (p : prog Q F X) l l' :
  (forall r, stable (post r)) -> l `prefix_of` l' -> safe post p l -> safe post p l'.
Proof.
  intros Hst. destruct p as [r|B q k]; intros Hl H; cbn in *; [by eapply Hst|]. intros l2 w Hl2. apply H. by etrans.
Qed.

Lemma safe_weaken {F X} (post post' : result F X -> list happened -> Prop) (p : prog Q F X) :
  (forall r l, post r l -> post' r l) -> forall l, safe post p l -> safe post' p l.
Proof.
  intros Hp. induction p as [r|B q k IH]; intros l H; cbn in *; [by apply Hp|]. intros l' w Hl Hw. destruct (H l' w Hl Hw) as [Ha Hs].
  split; [done|]. intros b w' Hb. apply IH. by apply (Hs b w').
Qed.

Lemma safe_bind {F X Y} (post : result F Y -> list happened -> Prop) (f : X -> prog Q F Y) (p : prog Q F X) : forall l,
  safe (fun r l => match r with Ok x => safe post (f x) l | Err e => post (Err e) l end) p l -> safe post (p ≫= f) l.
Proof.
  induction p as [[x|e]|B q k IH]; intros l H; [done|done|]. cbn in *. intros l' w Hl Hw. destruct (H l' w Hl Hw) as [Ha Hs].
  split; [done|]. intros b w' Hb. apply IH. by apply (Hs b w').
Qed.

Lemma safe_attempt {F G X} (post : result G (result F X) -> list happened -> Prop) (p : prog Q F X) : forall l,
  safe (fun r l => post (Ok r) l) p l -> safe post (attempt p) l.
Proof.
  induction p as [r|B q k IH]; intros l H; [done|]. cbn in *. intros l' w Hl Hw. destruct (H l' w Hl Hw) as [Ha Hs].
  split; [done|]. intros b w' Hb. apply IH. by apply (Hs b w').
Qed.

Lemma safe_fail_as {F G X} (f : F -> G) (post : result G X -> list happened -> Prop) (p : prog Q F X) : forall l,
  safe (fun r l => post (map_err f r) l) p l -> safe post (fail_as f p) l.
Proof.
  induction p as [r|B q k IH]; intros l H; [done|]. cbn in *. intros l' w Hl Hw. destruct (H l' w Hl Hw) as [Ha Hs].
  split; [done|]. intros b w' Hb. apply IH. by apply (Hs b w').
Qed.

(** A part whose questions need nothing. *)
Lemma safe_embed {P : Type -> Type} {F X} (f : forall B, P B -> Q B) (p : prog P F X) :
  (forall B (q : P B) l w, admits _ (f _ q) l w) -> forall l, safe (fun _ _ => True) (embed f p) l.
Proof.
  intros Ha. induction p as [r|B q k IH]; intros l; [done|]. cbn. intros l' w _ _. split; [apply Ha|]. intros b w' _. apply IH.
Qed.

(** Every handler is safe, so the invariant holds throughout, and what a handler returns it can answer for. *)
Variable answered : R -> result E A -> list happened -> Prop.

Definition in_order (s : system) : Prop :=
  invariant (state s) (log s) /\ Forall (fun h => safe (answered (fst h)) (snd h) (log s)) (handlers s).

Lemma system_in_order s s' :
  (forall r x, stable (answered r x)) ->
  (forall r l, safe (answered r) (program r) l) ->
  (forall w w' l, changes w w' -> invariant w l -> invariant w' l) ->
  (forall B (q : Q B) b w w' l, admits B q l w -> answers B w q b w' -> invariant w l -> invariant w' (l ++ [Happened q b w])) ->
  runs_to s s' -> in_order s -> in_order s'.
Proof.
  intros Hst Hprog Hchg Hans Hrun H0. induction Hrun as [|s s1 s2 Hstep _ IH]; [done|]. apply IH. clear IH s2. destruct H0 as [HI HF].
  destruct Hstep as [s r|s w Hc|s i r B q k b w Hi Hb]; cbn.
  - split; [done|]. apply Forall_app. split; [done|]. apply Forall_singleton. apply Hprog.
  - split; [by eapply Hchg|done].
  - pose proof (Forall_lookup_1 _ _ _ _ HF Hi) as Hs. cbn in Hs. destruct (Hs (log s) (state s)) as [Ha Hk]; [done|done|].
    split; [by eapply Hans|]. apply Forall_insert; [|by apply (Hk b w)]. eapply Forall_impl; [exact HF|]. intros [r' p] Hp. cbn in *.
    eapply safe_later; [apply Hst| |exact Hp]. by exists [Happened q b (state s)].
Qed.
End System.
