(* ===== verification/Sessions.v ===== *)
(** * Sessions: login codes, sessions and authorised users (crates/db/src/session.rs, auth.rs)

    The functions of [SessionManager] and [Auth] as programs over the statements they send to the database.
    The tables have the keys and the references of the schema (db/migrations); the hash and the upper case
    of Unicode are parameters. *)
From S2P Require Import Prelude Text Programs.
From stdpp Require Import sorting.

#[local] Open Scope Z_scope.

(** ** Tables *)

Record ClientMetadata := mkMetadata { client_name : option str; client_version : option str; device_name : option str; platform : option str }.

Record User := mkUser { user_name : option str; user_created_at : Z }.
Record OneTimeAuthCode := mkCode { oc_telegram_id : Z; oc_created_at : Z; oc_expires_at : Z }.
Record UserSession := mkSession {
  us_id : str; us_telegram_id : Z; us_token_hash : str; us_client : ClientMetadata;
  us_created_at : Z; us_last_active_at : Z; us_expires_at : Z; us_revoked : bool;
}.

(** By their primary keys; times are microseconds. *)
Record database := mkDatabase { users : gmap Z User; codes : gmap str OneTimeAuthCode; sessions : gmap str UserSession }.

Inductive db_fault := UniqueViolation | ForeignKeyViolation | OtherFault (message : str).
Inductive DbError :=
| Database (error : db_fault)
| Pool (message : str)
| Migration (message : str)
| Row (message : str)
| NotFound (message : str)
| Unauthorized (message : str)
| Validation (message : str).

Section Display.
Variable fault_display : db_fault -> str.
Definition db_error_display (e : DbError) : str :=
  match e with
  | Database error => lit "database error: " ++ fault_display error
  | Pool m => lit "database pool error: " ++ m
  | Migration m => lit "migration error: " ++ m
  | Row m => lit "database row error: " ++ m
  | NotFound m => lit "not found: " ++ m
  | Unauthorized m => lit "unauthorized: " ++ m
  | Validation m => lit "validation error: " ++ m
  end.
End Display.

(** ** Statements *)

Definition MICROS : Z := 1000000.
Definition minutes (n : Z) : Z := n * 60 * MICROS.
Definition days (n : Z) : Z := n * 24 * 3600 * MICROS.

Inductive stmt : Type -> Type :=
| Connection : stmt unit
| InsertUserOrNothing (id : Z) (name : option str) : stmt unit
| UpsertUser (id : Z) (name : option str) : stmt unit
| FindUser (ids : list Z) : stmt (option Z)
| DeleteUser (id : Z) : stmt Z
| ListUsers : stmt (list (Z * User))
| UserName (id : Z) : stmt (option (option str))
| SetUserName (id : Z) (name : str) : stmt Z
| DeleteCodesOf (id now : Z) : stmt Z
| InsertCode (code : str) (id expires_at : Z) : stmt unit
| FindCode (code : str) (now : Z) : stmt (option OneTimeAuthCode)
| DeleteCode (code : str) : stmt Z
| PurgeCodes (now : Z) : stmt Z
| InsertSession (id : str) (telegram_id : Z) (hash : str) (client : ClientMetadata) (expires_at : Z) : stmt unit
| FindSession (hash : str) : stmt (option UserSession)
| SlideSession (id : str) (last_active_at expires_at : Z) : stmt Z
| RevokeSession (id : str) : stmt Z
| RevokeHash (hash : str) : stmt Z
| RevokeUser (id : Z) : stmt Z
| ListActive (id now : Z) : stmt (list UserSession)
| PurgeSessions (now : Z) : stmt Z.

Definition set_users (f : gmap Z User -> gmap Z User) (d : database) : database := mkDatabase (f (users d)) (codes d) (sessions d).
Definition set_codes (f : gmap str OneTimeAuthCode -> gmap str OneTimeAuthCode) (d : database) : database := mkDatabase (users d) (f (codes d)) (sessions d).
Definition set_sessions (f : gmap str UserSession -> gmap str UserSession) (d : database) : database := mkDatabase (users d) (codes d) (f (sessions d)).

Definition revoked_row (s : UserSession) : UserSession :=
  mkSession (us_id s) (us_telegram_id s) (us_token_hash s) (us_client s) (us_created_at s) (us_last_active_at s) (us_expires_at s) true.
Definition slid_row (last_active_at expires_at : Z) (s : UserSession) : UserSession :=
  mkSession (us_id s) (us_telegram_id s) (us_token_hash s) (us_client s) (us_created_at s) last_active_at expires_at (us_revoked s).

(** [UPDATE]: the rows that match, and how many. *)
Definition update_sessions (p : UserSession -> bool) (f : UserSession -> UserSession) (d : database) : result DbError Z * database :=
  (Ok (Z.of_nat (size (filter (fun kv => p (snd kv) = true) (sessions d)))), set_sessions (fmap (fun s => if p s then f s else s)) d).

(** [DELETE] of what matches. *)
Definition delete_codes (p : str -> OneTimeAuthCode -> bool) (d : database) : result DbError Z * database :=
  (Ok (Z.of_nat (size (filter (fun kv => p (fst kv) (snd kv) = true) (codes d)))),
   set_codes (filter (fun kv => p (fst kv) (snd kv) = false)) d).
Definition delete_sessions (p : UserSession -> bool) (d : database) : result DbError Z * database :=
  (Ok (Z.of_nat (size (filter (fun kv => p (snd kv) = true) (sessions d)))),
   set_sessions (filter (fun kv => p (snd kv) = false)) d).

Definition find_session (p : UserSession -> bool) (d : database) : option UserSession :=
  snd <$> (snd <$> list_find (fun kv => p (snd kv) = true) (map_to_list (sessions d))).

Definition more_recent (a b : UserSession) : Prop := us_last_active_at b <= us_last_active_at a.
#[global] Instance more_recent_dec : RelDecision more_recent := fun a b => decide (us_last_active_at b <= us_last_active_at a).
Definition older_user (a b : Z * User) : Prop := user_created_at (snd a) <= user_created_at (snd b).
#[global] Instance older_user_dec : RelDecision older_user := fun a b => decide (user_created_at (snd a) <= user_created_at (snd b)).

(** What a statement does; [now] is the clock of the database. *)
Definition exec {A} (now : Z) (s : stmt A) (d : database) : result DbError A * database :=
  match s in stmt A return result DbError A * database with
  | Connection => (Ok tt, d)
  | InsertUserOrNothing id name => (Ok tt, match users d !! id with Some _ => d | None => set_users (<[id := mkUser name now]>) d end)
  | UpsertUser id name =>
      (Ok tt, set_users (<[id := match users d !! id with Some u => mkUser name (user_created_at u) | None => mkUser name now end]>) d)
  | FindUser ids => (Ok (find_map (fun id => match users d !! id with Some _ => Some id | None => None end) ids), d)
  | DeleteUser id =>                                     (* ON DELETE CASCADE *)
      match users d !! id with
      | Some _ => (Ok 1, mkDatabase (delete id (users d)) (filter (fun kv => oc_telegram_id (snd kv) <> id) (codes d))
                                    (filter (fun kv => us_telegram_id (snd kv) <> id) (sessions d)))
      | None => (Ok 0, d)
      end
  | ListUsers => (Ok (merge_sort older_user (map_to_list (users d))), d)
  | UserName id => (Ok (user_name <$> users d !! id), d)
  | SetUserName id name =>
      match users d !! id with
      | Some u => (Ok 1, set_users (<[id := mkUser (Some name) (user_created_at u)]>) d)
      | None => (Ok 0, d)
      end
  | DeleteCodesOf id now => delete_codes (fun _ c => (oc_telegram_id c =? id) || (oc_expires_at c <? now)) d
  | InsertCode code id expires_at =>
      match codes d !! code, users d !! id with
      | Some _, _ => (Err (Database UniqueViolation), d)
      | None, None => (Err (Database ForeignKeyViolation), d)
      | None, Some _ => (Ok tt, set_codes (<[code := mkCode id now expires_at]>) d)
      end
  | FindCode code now => (Ok (c ← codes d !! code; if now <? oc_expires_at c then Some c else None), d)
  | DeleteCode code => delete_codes (fun k _ => bool_decide (k = code)) d
  | PurgeCodes now => delete_codes (fun _ c => oc_expires_at c <? now) d
  | InsertSession id telegram_id hash client expires_at =>
      match sessions d !! id, find_session (fun s => bool_decide (us_token_hash s = hash)) d, users d !! telegram_id with
      | None, None, Some _ => (Ok tt, set_sessions (<[id := mkSession id telegram_id hash client now now expires_at false]>) d)
      | None, None, None => (Err (Database ForeignKeyViolation), d)
      | _, _, _ => (Err (Database UniqueViolation), d)
      end
  | FindSession hash => (Ok (find_session (fun s => bool_decide (us_token_hash s = hash) && negb (us_revoked s)) d), d)
  | SlideSession id last_active_at expires_at => update_sessions (fun s => bool_decide (us_id s = id)) (slid_row last_active_at expires_at) d
  | RevokeSession id => update_sessions (fun s => bool_decide (us_id s = id)) revoked_row d
  | RevokeHash hash => update_sessions (fun s => bool_decide (us_token_hash s = hash)) revoked_row d
  | RevokeUser id => update_sessions (fun s => us_telegram_id s =? id) revoked_row d
  | ListActive id now =>
      (Ok (merge_sort more_recent (filter (fun s => us_telegram_id s = id /\ us_revoked s = false /\ now < us_expires_at s) (snd <$> map_to_list (sessions d)))), d)
  | PurgeSessions now => delete_sessions (fun s => (us_expires_at s <? now) || us_revoked s) d
  end.

(** ** Programs *)

(** What the functions ask for: statements, the clock and random values. *)
Inductive ask_db : Type -> Type :=
| Stmt {A : Type} (s : stmt A) : ask_db (result DbError A)
| Now : ask_db Z
| Random (n : nat) : ask_db (list Z)
| NewId : ask_db str.

Abbreviation dbm := (prog ask_db DbError).
Definition sql {A} (s : stmt A) : dbm A := query_of (Stmt s).
Definition now : dbm Z := ask Now.

Section Manager.
Variable sha256 : list Z -> list Z.
Variable to_uppercase : str -> str.     (* [str::to_uppercase] *)
Variable admin_id : Z.

Definition hex_lower (n : Z) : Z := if n <? 10 then 48 + n else 87 + n.
Definition hex_byte (b : Z) : str := [hex_lower (b / 16); hex_lower (b mod 16)].

Definition hash_token (token : str) : str := concat (hex_byte <$> sha256 (as_bytes (trim token))).

(** The users. *)
Definition is_admin (user_id : Z) : bool := user_id =? admin_id.

Definition is_authorized (user_id : Z) (chat_id : option Z) : dbm bool :=
  if is_admin user_id then mret true
  else
    let ids := match chat_id with Some chat_id => if chat_id =? user_id then [user_id] else [user_id; chat_id] | None => [user_id] end in
    _ ← sql Connection;
    found ← sql (FindUser ids);
    mret (bool_decide (is_Some found)).

Definition authorize (telegram_id : Z) (name : option str) : dbm bool :=
  _ ← sql Connection;
  existing ← sql (FindUser [telegram_id]);
  _ ← sql (UpsertUser telegram_id name);
  mret (bool_decide (existing = None)).

Definition revoke_access (telegram_id : Z) : dbm bool :=
  _ ← sql Connection;
  n ← sql (DeleteUser telegram_id);
  mret (0 <? n).

Definition list_authorized : dbm (list (Z * User)) := _ ← sql Connection; sql ListUsers.

(** Login codes. *)
Definition code_alphabet : str := lit "ABCDEFGHJKLMNPQRSTUVWXYZ23456789".
Definition code_of (random : list Z) : str := (fun b => nth (Z.to_nat (b mod 32)) code_alphabet 0) <$> random.
Definition formatted (code : str) : str := take 3 code ++ lit "-" ++ drop 3 code.

Definition not_authorized (telegram_id : Z) : DbError := Unauthorized (lit "User " ++ show_i telegram_id ++ lit " is not authorized").

Definition create_login_code (telegram_id : Z) : dbm str :=
  _ ← sql Connection;
  _ ← (if telegram_id =? admin_id then sql (InsertUserOrNothing admin_id (Some (lit "Admin")))
       else
         user_exists ← sql (FindUser [telegram_id]);
         match user_exists with None => throw (not_authorized telegram_id) | Some _ => mret tt end);
  t ← now;
  _ ← sql (DeleteCodesOf telegram_id t);
  random ← ask (Random 6);
  let formatted_code := formatted (code_of random) in
  t ← now;
  _ ← sql (InsertCode formatted_code telegram_id (t + minutes 5));
  mret formatted_code.

Record SessionTokens := mkTokens { st_session_id : str; st_telegram_id : Z; st_refresh_token : str; st_expires_at : Z }.
Record SessionIdentity := mkIdentity { si_session_id : str; si_telegram_id : Z; si_expires_at : Z }.

Definition exchange_code (code : str) (metadata : ClientMetadata) : dbm SessionTokens :=
  _ ← sql Connection;
  let clean_code := to_uppercase (trim code) in
  t ← now;
  otp ← sql (FindCode clean_code t);
  match otp with
  | None => throw (Validation (lit "Invalid or expired login code"))
  | Some otp =>
      user_authorized ← (if oc_telegram_id otp =? admin_id then mret true
                         else found ← sql (FindUser [oc_telegram_id otp]); mret (bool_decide (is_Some found)));
      if negb (user_authorized : bool) then
        _ ← attempt (sql (DeleteCode clean_code));
        throw (not_authorized (oc_telegram_id otp))
      else
        _ ← sql (DeleteCode clean_code);
        random ← ask (Random 32);
        let raw_refresh_token := concat (hex_byte <$> random) in
        session_id ← ask NewId;
        t ← now;
        let expires_at := t + days 3 in
        _ ← sql (InsertSession session_id (oc_telegram_id otp) (hash_token raw_refresh_token) metadata expires_at);
        mret (mkTokens session_id (oc_telegram_id otp) raw_refresh_token expires_at)
  end.

(** Sessions. *)
Definition verify_session_record (raw_refresh_token : str) (revoke_unauthorized_user : bool) : dbm UserSession :=
  session ← sql (FindSession (hash_token (trim raw_refresh_token)));
  match session with
  | None => throw (Unauthorized (lit "Invalid or revoked session"))
  | Some session =>
      t ← now;
      if us_expires_at session <=? t then throw (Unauthorized (lit "Session has expired"))
      else if us_telegram_id session =? admin_id then mret session
      else
        user_exists ← sql (FindUser [us_telegram_id session]);
        match user_exists with
        | Some _ => mret session
        | None =>
            _ ← (if revoke_unauthorized_user then _ ← sql (RevokeSession (us_id session)); mret tt else mret tt);
            throw (Unauthorized (lit "User " ++ show_i (us_telegram_id session) ++ lit " access has been revoked"))
        end
  end.

Definition verify_and_slide (raw_refresh_token : str) : dbm SessionIdentity :=
  _ ← sql Connection;
  session ← verify_session_record raw_refresh_token true;
  t ← now;
  let new_expires_at := t + days 3 in
  t ← now;
  _ ← sql (SlideSession (us_id session) t new_expires_at);
  mret (mkIdentity (us_id session) (us_telegram_id session) new_expires_at).

Definition verify_session (raw_refresh_token : str) : dbm SessionIdentity :=
  _ ← sql Connection;
  session ← verify_session_record raw_refresh_token false;
  mret (mkIdentity (us_id session) (us_telegram_id session) (us_expires_at session)).

Definition revoke (raw_refresh_token : str) : dbm bool :=
  _ ← sql Connection;
  affected ← sql (RevokeHash (hash_token (trim raw_refresh_token)));
  mret (0 <? affected).

Definition revoke_all_for_user (telegram_id : Z) : dbm Z := _ ← sql Connection; sql (RevokeUser telegram_id).
Definition list_active_sessions (telegram_id : Z) : dbm (list UserSession) := _ ← sql Connection; t ← now; sql (ListActive telegram_id t).
Definition purge_expired_sessions : dbm Z := _ ← sql Connection; t ← now; sql (PurgeSessions t).
Definition purge_expired_codes : dbm Z := _ ← sql Connection; t ← now; sql (PurgeCodes t).
Definition get_user_name (telegram_id : Z) : dbm (option str) := _ ← sql Connection; name ← sql (UserName telegram_id); mret (default None name).

Definition update_user_name_if_changed (telegram_id : Z) (name : str) : dbm bool :=
  let name := trim name in
  if decide (name = []) then mret false
  else
    _ ← sql Connection;
    current_name ← sql (UserName telegram_id);
    if decide (default None current_name = Some name) then mret false
    else updated ← sql (SetUserName telegram_id name); mret (0 <? updated).
End Manager.

(** ** What a statement leaves of a row *)

(** The same session, possibly slid or revoked. *)
Definition descends (s s0 : UserSession) : Prop :=
  us_id s = us_id s0 /\ us_telegram_id s = us_telegram_id s0 /\ us_token_hash s = us_token_hash s0 /\ us_client s = us_client s0 /\
  (us_revoked s0 = true -> us_revoked s = true).

Definition inserted {A} (t : Z) (st : stmt A) (k : str) (s : UserSession) : Prop :=
  match st with
  | InsertSession id telegram_id hash client expires_at => k = id /\ s = mkSession id telegram_id hash client t t expires_at false
  | _ => False
  end.

Lemma descends_refl s : descends s s.
Proof. by split_and!. Qed.

Lemma update_row p f d k s : (forall s0, descends (f s0) s0) ->
  sessions (snd (update_sessions p f d)) !! k = Some s -> exists s0, sessions d !! k = Some s0 /\ descends s s0.
Proof.
  intros Hf. cbn. rewrite lookup_fmap. destruct (sessions d !! k) as [s0|]; [|done]. intros [= <-]. exists s0. split; [done|].
  destruct (p s0); [apply Hf|apply descends_refl].
Qed.

Lemma exec_row {A} (t : Z) (st : stmt A) d k s :
  sessions (snd (exec t st d)) !! k = Some s -> (exists s0, sessions d !! k = Some s0 /\ descends s s0) \/ inserted t st k s.
Proof.
  assert (Hsame : sessions d !! k = Some s -> (exists s0, sessions d !! k = Some s0 /\ descends s s0) \/ inserted t st k s).
  { intros H. left. exists s. split; [done|apply descends_refl]. }
  destruct st; try exact Hsame; cbn [exec].
  - by destruct (users d !! id).
  - destruct (users d !! id); [|done]. cbn. intros [H _]%map_lookup_filter_Some. by apply Hsame.
  - by destruct (users d !! id).
  - by destruct (codes d !! code), (users d !! id).
  - destruct (sessions d !! id) eqn:E1; [done|]. destruct (find_session _ d); [done|]. destruct (users d !! telegram_id); [|done].
    cbn. destruct (decide (id = k)) as [->|Hk]; [|rewrite lookup_insert_ne by done; exact Hsame].
    rewrite lookup_insert_eq. intros [= <-]. by right.
  - intros H. left. revert H. apply update_row. intros s0. by split_and!.
  - intros H. left. revert H. apply update_row. intros s0. by split_and!.
  - intros H. left. revert H. apply update_row. intros s0. by split_and!.
  - intros H. left. revert H. apply update_row. intros s0. by split_and!.
  - cbn. intros [H _]%map_lookup_filter_Some. by apply Hsame.
Qed.

(** The sessions are kept under their identifiers. *)
Definition keyed (d : database) : Prop := forall k s, sessions d !! k = Some s -> us_id s = k.

Lemma exec_keyed {A} (t : Z) (st : stmt A) d : keyed d -> keyed (snd (exec t st d)).
Proof.
  intros Hd k s [(s0 & H0 & Hs)|Hi]%exec_row; [destruct Hs as [-> _]; by apply Hd|]. destruct st; try done. by destruct Hi as [-> ->].
Qed.

Lemma find_session_some p d s : keyed d -> find_session p d = Some s -> sessions d !! us_id s = Some s /\ p s = true.
Proof.
  intros Hd. unfold find_session. destruct (list_find _ _) as [[i [k s0]]|] eqn:E; [|done]. intros [= <-].
  apply list_find_Some in E as (Hi & Hp & _). apply list_elem_of_lookup_2, elem_of_map_to_list in Hi. rewrite (Hd _ _ Hi). done.
Qed.

Lemma find_session_none p d k s : find_session p d = None -> sessions d !! k = Some s -> p s = false.
Proof.
  unfold find_session. destruct (list_find _ _) as [[i [k0 s0]]|] eqn:E; [done|]. intros _ H. apply elem_of_map_to_list in H.
  apply list_find_None in E. rewrite Forall_forall in E. specialize (E _ H). cbn in E. by destruct (p s).
Qed.

(** Nothing but a new session makes a token of revoked sessions good again. *)
Definition all_revoked (hash : str) (d : database) : Prop :=
  forall k s, sessions d !! k = Some s -> us_token_hash s = hash -> us_revoked s = true.

Lemma exec_revoked {A} (t : Z) (st : stmt A) d hash :
  (forall k s, inserted t st k s -> us_token_hash s <> hash) -> all_revoked hash d -> all_revoked hash (snd (exec t st d)).
Proof.
  intros Hst Hd k s [(s0 & H0 & Hs)|Hi]%exec_row Hh; [|by destruct (Hst k s Hi)]. destruct Hs as (_ & _ & Hh0 & _ & Hr).
  apply Hr, (Hd k s0); congruence.
Qed.

Lemma revoke_hash_revokes t hash d : all_revoked hash (snd (exec t (RevokeHash hash) d)).
Proof.
  intros k s. cbn. rewrite lookup_fmap. destruct (sessions d !! k) as [s0|]; [|done]. intros [= <-].
  case_bool_decide; [done|]. intros H1. congruence.
Qed.

Lemma all_revoked_not_found t hash d : all_revoked hash d -> keyed d -> fst (exec t (FindSession hash) d) = Ok None.
Proof.
  intros Hd Hk. cbn. destruct (find_session _ d) as [s|] eqn:E; [|done]. apply find_session_some in E as [Hs Hp]; [|done].
  apply andb_true_iff in Hp as [Hh Hr]. apply bool_decide_eq_true in Hh. rewrite (Hd _ _ Hs Hh) in Hr. done.
Qed.

(** ** A run alone *)

(** No statement fails; the random values are given. *)
Definition alone (random : list Z) (id : str) (B : Type) (q : ask_db B) (s : Z * database) : B * (Z * database) :=
  match q in ask_db B return B * (Z * database) with
  | Stmt st => let '(r, d) := exec (fst s) st (snd s) in (r, (fst s, d))
  | Now => (fst s, s)
  | Random n => (take n random, s)
  | NewId => (id, s)
  end.

Definition may_log_in (admin_id id : Z) (d : database) : Prop := id = admin_id \/ is_Some (users d !! id).

(** Each function, when nothing fails. *)
Section Alone.
Variables (sha256 : list Z -> list Z) (to_uppercase : str -> str) (admin_id : Z) (random : list Z) (id : str).

#[local] Notation run p t d := (eval (alone random id) p (t, d)).

Lemma eval_sql {A B} (st : stmt A) (f : A -> dbm B) t d r d' : exec t st d = (r, d') ->
  run (sql st ≫= f) t d = match r with Ok a => run (f a) t d' | Err e => (Err e, (t, d')) end.
Proof. intros H. cbn. rewrite H. by destruct r. Qed.

Lemma eval_now {B} (f : Z -> dbm B) t d : run (now ≫= f) t d = run (f t) t d.
Proof. done. Qed.
Lemma eval_random {B} n (f : list Z -> dbm B) t d : run (ask (Random n) ≫= f) t d = run (f (take n random)) t d.
Proof. done. Qed.
Lemma eval_id {B} (f : str -> dbm B) t d : run (ask NewId ≫= f) t d = run (f id) t d.
Proof. done. Qed.

(** The code is kept for five minutes, and is the only one of its user. *)
Lemma create_alone u t d : may_log_in admin_id u d ->
  let code := formatted (code_of (take 6 random)) in
  (forall o, codes d !! code = Some o -> oc_telegram_id o = u \/ oc_expires_at o < t) ->
  exists d', run (create_login_code admin_id u) t d = (Ok code, (t, d')) /\ is_Some (users d' !! u) /\
    codes d' !! code = Some (mkCode u t (t + minutes 5)) /\ (forall c o, codes d' !! c = Some o -> oc_telegram_id o = u -> c = code) /\
    sessions d' = sessions d.
Proof.
  intros Hu code Hfree. unfold create_login_code. rewrite (eval_sql Connection _ _ _ _ _ eq_refl).
  set (rest := fun _ : unit => _).
  assert (Hrest : forall d1, is_Some (users d1 !! u) -> codes d1 = codes d -> sessions d1 = sessions d ->
    exists d', run (rest tt) t d1 = (Ok code, (t, d')) /\ is_Some (users d' !! u) /\
    codes d' !! code = Some (mkCode u t (t + minutes 5)) /\ (forall c o, codes d' !! c = Some o -> oc_telegram_id o = u -> c = code) /\ sessions d' = sessions d).
  { intros d1 [un Hun] Hc Hs. subst rest. cbv beta. rewrite eval_now, (eval_sql (DeleteCodesOf u t) _ _ _ _ _ eq_refl). cbv beta. rewrite eval_random, eval_now.
    set (d2 := set_codes _ d1). fold code. cbv zeta.
    assert (Hnone : codes d2 !! code = None).
    { subst d2. cbn. apply map_lookup_filter_None. destruct (codes d1 !! code) as [o|] eqn:E; [|by left]. right. intros o' [= <-]. cbn.
      rewrite Hc in E. destruct (Hfree o E) as [->|Hlt]; [by rewrite Z.eqb_refl|]. rewrite (proj2 (Z.ltb_lt _ _) Hlt). by rewrite orb_true_r. }
    rewrite (eval_sql (InsertCode code u (t + minutes 5)) _ _ _ (Ok tt) (set_codes (<[code := mkCode u t (t + minutes 5)]>) d2)).
    2:{ cbn [exec]. rewrite Hnone. subst d2. cbn [set_codes users codes]. by rewrite Hun. }
    eexists. split; [reflexivity|]. split_and!.
    - exists un. exact Hun.
    - cbn. apply lookup_insert_eq.
    - intros c o. cbn. destruct (decide (code = c)) as [<-|Hne]; [done|]. rewrite lookup_insert_ne by done.
      intros [_ H]%map_lookup_filter_Some Ho. cbn in H. rewrite Ho, Z.eqb_refl in H. done.
    - exact Hs. }
  destruct (Z.eqb_spec u admin_id) as [->|Hne].
  - destruct (users d !! admin_id) as [un|] eqn:E.
    + rewrite (eval_sql _ _ _ _ (Ok tt) d) by (cbn; by rewrite E). apply Hrest; [by exists un|done|done].
    + rewrite (eval_sql _ _ _ _ (Ok tt) (set_users (<[admin_id := mkUser (Some (lit "Admin")) t]>) d)) by (cbn; by rewrite E).
      apply Hrest; [|done|done]. cbn. rewrite lookup_insert_eq. by eexists.
  - destruct Hu as [|[un Hun]]; [done|]. rewrite eval_bind. rewrite (eval_sql (FindUser [u]) _ _ _ (Ok (Some u)) d) by (cbn; by rewrite Hun).
    apply Hrest; [by exists un|done|done].
Qed.

Definition invalid_code : DbError := Validation (lit "Invalid or expired login code").

Lemma exchange_unknown typed m t d :
  (forall o, codes d !! to_uppercase (trim typed) = Some o -> oc_expires_at o <= t) ->
  run (exchange_code sha256 to_uppercase admin_id typed m) t d = (Err invalid_code, (t, d)).
Proof.
  intros Hc. unfold exchange_code. rewrite (eval_sql Connection _ _ _ _ _ eq_refl). cbv zeta. rewrite eval_now.
  rewrite (eval_sql (FindCode (to_uppercase (trim typed)) t) _ _ _ (Ok None) d); [done|]. cbn. destruct (codes d !! _) as [o|]; [|done]. cbn.
  specialize (Hc o eq_refl). by destruct (Z.ltb_spec t (oc_expires_at o)); [lia|].
Qed.

(** Some session is opened for the user of the code, which is used up. *)
Lemma exchange_alone typed m t d o :
  let code := to_uppercase (trim typed) in
  let token := concat (hex_byte <$> take 32 random) in
  let u := oc_telegram_id o in
  let row := mkSession id u (hash_token sha256 token) m t t (t + days 3) false in
  codes d !! code = Some o -> t < oc_expires_at o -> is_Some (users d !! u) ->
  sessions d !! id = None -> find_session (fun s => bool_decide (us_token_hash s = hash_token sha256 token)) d = None ->
  run (exchange_code sha256 to_uppercase admin_id typed m) t d =
  (Ok (mkTokens id u token (t + days 3)),
   (t, mkDatabase (users d) (filter (fun kv => bool_decide (fst kv = code) = false) (codes d)) (<[id := row]> (sessions d)))).
Proof.
  cbv zeta. intros Hc Ht [un Hun] Hid Hhash. unfold exchange_code. rewrite (eval_sql Connection _ _ _ _ _ eq_refl). cbv zeta. rewrite eval_now.
  set (code := to_uppercase (trim typed)) in *. rewrite (eval_sql (FindCode code t) _ _ _ (Ok (Some o)) d).
  2:{ cbn. rewrite Hc. cbn. by rewrite (proj2 (Z.ltb_lt _ _) Ht). }
  cbv beta iota. set (rest := fun user_authorized : bool => _).
  assert (Hrest : run (rest true) t d = (Ok (mkTokens id (oc_telegram_id o) (concat (hex_byte <$> take 32 random)) (t + days 3)),
    (t, mkDatabase (users d) (filter (fun kv => bool_decide (fst kv = code) = false) (codes d))
      (<[id := mkSession id (oc_telegram_id o) (hash_token sha256 (concat (hex_byte <$> take 32 random))) m t t (t + days 3) false]> (sessions d))))).
  { subst rest. cbv beta. cbn [negb]. rewrite (eval_sql (DeleteCode code) _ _ _ _ _ eq_refl). cbv beta. rewrite eval_random, eval_id, eval_now. cbv zeta.
    set (d1 := set_codes _ d). set (token := concat _) in *. set (row := mkSession id (oc_telegram_id o) (hash_token sha256 token) m t t (t + days 3) false).
    rewrite (eval_sql (InsertSession id (oc_telegram_id o) (hash_token sha256 token) m (t + days 3)) _ _ _ (Ok tt) (set_sessions (<[id := row]>) d1)); [done|].
    cbn [exec]. subst d1. cbn [set_codes sessions users]. rewrite Hid. change (find_session _ _) with (find_session (fun s => bool_decide (us_token_hash s = hash_token sha256 token)) d).
    by rewrite Hhash, Hun. }
  rewrite eval_bind. destruct (oc_telegram_id o =? admin_id); [exact Hrest|].
  rewrite (eval_sql (FindUser [oc_telegram_id o]) _ _ _ (Ok (Some (oc_telegram_id o))) d) by (cbn; by rewrite Hun). exact Hrest.
Qed.

(** The only unrevoked session of a token is found, and slid. *)
Lemma verify_alone token t d s :
  sessions d !! us_id s = Some s -> keyed d -> us_token_hash s = hash_token sha256 token -> us_revoked s = false -> t < us_expires_at s ->
  may_log_in admin_id (us_telegram_id s) d -> (forall k s', sessions d !! k = Some s' -> us_token_hash s' = us_token_hash s -> k = us_id s) ->
  run (verify_and_slide sha256 admin_id token) t d =
  (Ok (mkIdentity (us_id s) (us_telegram_id s) (t + days 3)), (t, snd (exec t (SlideSession (us_id s) t (t + days 3)) d))).
Proof.
  intros Hs Hk Hh Hr Ht Hu Hone. unfold verify_and_slide, verify_session_record. rewrite (eval_sql Connection _ _ _ _ _ eq_refl). cbv beta.
  assert (Hf : exec t (FindSession (hash_token sha256 (trim token))) d = (Ok (Some s), d)).
  { replace (hash_token sha256 (trim token)) with (hash_token sha256 token) by (unfold hash_token; by rewrite trim_trim). cbn [exec]. f_equal. f_equal.
    destruct (find_session _ d) as [s'|] eqn:E.
    - apply find_session_some in E as [E1 E2]; [|done]. apply andb_true_iff in E2 as [E2 _]. apply bool_decide_eq_true in E2.
      assert (Hid : us_id s' = us_id s) by (apply (Hone _ _ E1); congruence). rewrite Hid in E1. congruence.
    - pose proof (find_session_none _ _ _ _ E Hs) as H. cbv beta in H. by rewrite bool_decide_eq_true_2, Hr in H. }
  rewrite eval_bind. rewrite (eval_sql _ _ _ _ _ _ Hf). cbv beta iota. rewrite eval_now. rewrite (proj2 (Z.leb_gt _ _) Ht).
  assert (Htail : run (t ← now; let new_expires_at := t + days 3 in t ← now; _ ← sql (SlideSession (us_id s) t new_expires_at);
      mret (mkIdentity (us_id s) (us_telegram_id s) new_expires_at)) t d = (Ok (mkIdentity (us_id s) (us_telegram_id s) (t + days 3)), (t, snd (exec t (SlideSession (us_id s) t (t + days 3)) d)))).
  { rewrite eval_now. cbv zeta. by rewrite eval_now, (eval_sql (SlideSession (us_id s) t (t + days 3)) _ _ _ _ _ eq_refl). }
  destruct (Z.eqb_spec (us_telegram_id s) admin_id) as [Ha|Ha]; [exact Htail|]. destruct Hu as [|[un Hun]]; [done|].
  rewrite (eval_sql (FindUser [us_telegram_id s]) _ _ _ (Ok (Some (us_telegram_id s))) d) by (cbn; by rewrite Hun). exact Htail.
Qed.

Lemma revoke_alone token t d s :
  sessions d !! us_id s = Some s -> us_token_hash s = hash_token sha256 token ->
  exists d', run (revoke sha256 token) t d = (Ok true, (t, d')) /\ all_revoked (hash_token sha256 token) d' /\ (keyed d -> keyed d').
Proof.
  intros Hs Hh. unfold revoke. rewrite (eval_sql Connection _ _ _ _ _ eq_refl).
  replace (hash_token sha256 (trim token)) with (hash_token sha256 token) by (unfold hash_token; by rewrite trim_trim).
  rewrite (eval_sql (RevokeHash (hash_token sha256 token)) _ _ _ _ _ eq_refl). eexists. split_and!.
  - cbn [eval mret prog_ret]. f_equal. f_equal. apply Z.ltb_lt. apply (Nat2Z.inj_lt 0). apply Nat.neq_0_lt_0. rewrite map_size_ne_0_lookup.
    exists (us_id s), s. apply map_lookup_filter_Some. split; [done|]. cbn. by apply bool_decide_eq_true.
  - apply (revoke_hash_revokes t).
  - intros Hk. exact (exec_keyed t (RevokeHash (hash_token sha256 token)) d Hk).
Qed.

Definition invalid_session : DbError := Unauthorized (lit "Invalid or revoked session").

Lemma verify_refused token t d : all_revoked (hash_token sha256 token) d -> keyed d ->
  run (verify_and_slide sha256 admin_id token) t d = (Err invalid_session, (t, d)).
Proof.
  intros Ha Hk. unfold verify_and_slide, verify_session_record. rewrite (eval_sql Connection _ _ _ _ _ eq_refl). cbv beta. rewrite eval_bind.
  replace (hash_token sha256 (trim token)) with (hash_token sha256 token) by (unfold hash_token; by rewrite trim_trim).
  rewrite (eval_sql (FindSession (hash_token sha256 token)) _ _ _ (Ok None) d); [done|].
  pose proof (all_revoked_not_found t (hash_token sha256 token) d Ha Hk) as H. cbn [exec fst] in *. by injection H as ->.
Qed.
End Alone.

(** ** Theorems *)


Definition demo_upper (s : str) : str := (fun c => if is_ascii_lower c then c - 32 else c) <$> s.
Definition demo_sha (l : list Z) : list Z := l.
Definition demo_users : database := mkDatabase {[7 := mkUser None 0]} ∅ ∅.
Definition no_client : ClientMetadata := mkMetadata None None None None.

