(* ===== verification/Auth.v ===== *)
(** * Auth: who a request comes from (crates/server/src/auth.rs, playback_sync.rs)

    The handlers of the session's life: the exchange of a login code, the bearer token of every request with
    its cache of one minute, the refresh, the logout, the profile.  They are programs over the statements of
    Sessions.v, the two caches and the Telegram client, and run side by side in one system. *)
From S2P Require Import Prelude Text Programs Sessions.

(** ** Errors (error.rs) *)

Inductive ServerError :=
| Unauthorized (message : str)
| Forbidden (message : str)
| NotFound (message : str)
| BadRequest (message : str)
| Internal (message : str).

(** The status, the code and the message of the answer; what is internal is not shown. *)
Definition into_response (e : ServerError) : Z * str * str :=
  match e with
  | Unauthorized msg => (401, lit "UNAUTHORIZED", msg)
  | Forbidden msg => (403, lit "FORBIDDEN", msg)
  | NotFound msg => (404, lit "NOT_FOUND", msg)
  | BadRequest msg => (400, lit "BAD_REQUEST", msg)
  | Internal msg => (500, lit "INTERNAL_SERVER_ERROR", lit "An internal server error occurred")
  end.

(** ** What the handlers ask for *)

Record AuthedUser := mkAuthed { telegram_id : Z; session_id : str }.

(** What is looked at of a Telegram user. *)
Record profile := mkProfile { p_first_name : option str; p_last_name : option str; p_username : option str }.

Inductive query : Type -> Type :=
| Db {A : Type} (q : ask_db A) : query A
| CacheGet (token : str) : query (option AuthedUser)
| CacheInsert (token : str) (user : AuthedUser) : query unit
| CacheRemove (token : str) : query unit
| CacheInvalidateAll : query unit
| TelegramUsers (id : Z) : query (option (result str (list (option profile))))    (* [None]: no client *)
| LyricspornUrl : query (option str)
| AvatarGet (id : Z) : query (option (option (list Z)))
| AvatarInsert (id : Z) (photo : option (list Z)) : query unit
| HasClient : query bool
| ProfilePhotos (id : Z) : query (result str (option (list Z)))                   (* the thumbnail's bytes *).

Abbreviation handler := (prog query ServerError).

Section Handlers.
Variables (sha256 : list Z -> list Z) (to_uppercase : str -> str) (fault_display : db_fault -> str) (admin_id : Z).

Definition server_error_of (err : DbError) : ServerError :=
  match err with
  | Sessions.NotFound msg => NotFound msg
  | Sessions.Unauthorized msg => Unauthorized msg
  | Sessions.Validation msg => BadRequest msg
  | Database e => Internal (fault_display e)
  | Pool e | Migration e | Row e => Internal e
  end.

Definition manager {A} (f : DbError -> ServerError) (p : dbm A) : handler A := fail_as f (embed (fun _ q => Db q) p).
(** [.map_err(|e| ServerError::Unauthorized(e.to_string()))]. *)
Definition refused (e : DbError) : ServerError := Unauthorized (db_error_display fault_display e).
Definition failed (e : DbError) : ServerError := Internal (db_error_display fault_display e).
(** [let _ = ..]. *)
Definition ignored {A} (p : dbm A) : handler unit := _ ← attempt (manager failed p); mret tt.

Definition bearer : str := lit "Bearer ".

(** [AuthedUser::from_request_parts], from the header. *)
Definition verified (token : str) : handler AuthedUser :=
  user ← ask (CacheGet token);
  match user with
  | Some user => mret user
  | None =>
      identity ← manager refused (verify_and_slide sha256 admin_id token);
      let user := mkAuthed (si_telegram_id identity) (si_session_id identity) in
      _ ← ask (CacheInsert token user);
      mret user
  end.

Definition from_request_parts (auth_header : option str) : handler AuthedUser :=
  match auth_header with
  | None => throw (Unauthorized (lit "Missing Authorization header"))
  | Some auth_header =>
      match strip_prefix bearer auth_header with
      | None => throw (Unauthorized (lit "Invalid Authorization format, expected 'Bearer <token>'"))
      | Some token => verified (trim token)
      end
  end.

(** [MaybeAuthedUser]. *)
Definition maybe_authed (auth_header : option str) : handler (option AuthedUser) :=
  user ← attempt (from_request_parts auth_header);
  mret (match user with Ok user => Some user | Err _ => None end).

(** The handshake of the playback socket, [ws_handler]. *)
Definition ws_connect (auth_header : option str) : handler (Z * str) :=
  match auth_header with
  | None => throw (Unauthorized (lit "Missing Authorization header"))
  | Some auth_val =>
      let stripped := trim (default auth_val (strip_prefix bearer auth_val)) in
      if decide (stripped = []) then throw (Unauthorized (lit "Empty authorization token"))
      else user ← verified stripped; mret (telegram_id user, stripped)
  end.

(** The profile. *)
Record UserDto := mkUserDto { ud_telegram_id : Z; ud_name : option str; ud_username : option str; ud_first_name : option str; ud_last_name : option str }.

Definition non_blank (name : option str) : option str :=
  match name with Some name => if decide (trim name = []) then None else Some (trim name) | None => None end.

Definition profile_display_name (first_name last_name username stored_name : option str) : option str :=
  let parts := omap id [non_blank first_name; non_blank last_name] in
  let full_name := match parts with [] => [] | [a] => a | a :: b :: _ => a ++ lit " " ++ b end in
  if decide (full_name <> []) then Some full_name
  else match non_blank username with
       | Some username => Some (lit "@" ++ username)
       | None => non_blank stored_name
       end.

Definition load_user_profile (id : Z) : handler UserDto :=
  stored ← attempt (manager failed (get_user_name id));
  let stored_name := default None (ok (stored : result ServerError (option str))) in
  users ← ask (TelegramUsers id);
  let telegram_user := match users : option (result str (list (option profile))) with Some (Ok users) => default None (last users) | _ => None end in
  let first_name := telegram_user ≫= p_first_name in
  let last_name := telegram_user ≫= p_last_name in
  let username := telegram_user ≫= p_username in
  name ← match profile_display_name first_name last_name username None with
         | Some telegram_name =>
             _ ← (if decide (stored_name = Some telegram_name) then mret tt else ignored (update_user_name_if_changed id telegram_name));
             mret (Some telegram_name)
         | None => mret stored_name
         end;
  mret (mkUserDto id name username first_name last_name).

(** The life of a session. *)
Record token_response := mkTokenResponse { tr_token : str; tr_expires_in : Z; tr_expires_at : Z; tr_expires_at_unix : Z }.

Definition EXPIRES_IN : Z := 259200.
Definition bearer_response (token : str) (expires_at : Z) : token_response := mkTokenResponse token EXPIRES_IN expires_at (expires_at / MICROS).

Definition exchange (code : str) (metadata : ClientMetadata) : handler (token_response * UserDto * option str) :=
  session ← manager refused (exchange_code sha256 to_uppercase admin_id code metadata);
  _ ← ask (CacheInsert (st_refresh_token session) (mkAuthed (st_telegram_id session) (st_session_id session)));
  user ← load_user_profile (st_telegram_id session);
  url ← ask LyricspornUrl;
  mret (bearer_response (st_refresh_token session) (st_expires_at session), user, url).

Definition refresh (token refresh_token : option str) : handler token_response :=
  match (match refresh_token with Some t => Some t | None => token end) with
  | None => throw (BadRequest (lit "Missing token or refresh_token"))
  | Some token =>
      identity ← manager refused (verify_and_slide sha256 admin_id token);
      _ ← ask (CacheInsert token (mkAuthed (si_telegram_id identity) (si_session_id identity)));
      mret (bearer_response token (si_expires_at identity))
  end.

Definition logout (auth_header token refresh_token : option str) : handler unit :=
  maybe_user ← maybe_authed auth_header;
  match (match refresh_token with Some t => Some t | None => token end) with
  | Some token => _ ← ask (CacheRemove token); ignored (revoke sha256 token)
  | None =>
      match maybe_user : option AuthedUser with
      | Some user => _ ← ask CacheInvalidateAll; ignored (revoke_all_for_user (telegram_id user))
      | None => throw (Unauthorized (lit "Missing refresh_token or Bearer authorization header"))
      end
  end.

Definition me (auth_header : option str) : handler (UserDto * list UserSession) :=
  user ← from_request_parts auth_header;
  sessions ← manager failed (list_active_sessions (telegram_id user));
  dto ← load_user_profile (telegram_id user);
  mret (dto, sessions).

Definition no_photo : ServerError := NotFound (lit "Telegram profile photo is unavailable").

Definition me_avatar (auth_header : option str) : handler (list Z) :=
  user ← from_request_parts auth_header;
  client ← ask HasClient;
  if negb (client : bool) then throw no_photo else
  cached ← ask (AvatarGet (telegram_id user));
  avatar ← match cached : option (option (list Z)) with
           | Some cached => mret cached
           | None =>
               photo ← ask (ProfilePhotos (telegram_id user));
               match photo : result str (option (list Z)) with
               | Err message => throw (Internal message)
               | Ok photo =>
                   let photo_bytes := match photo with Some [] => None | _ => photo end in
                   _ ← ask (AvatarInsert (telegram_id user) photo_bytes);
                   mret photo_bytes
               end
           end;
  match avatar : option (list Z) with Some avatar => mret avatar | None => throw no_photo end.
End Handlers.

(** ** Side by side *)

Definition TOKEN_TTL : Z := 60 * MICROS.

(** Each entry of the token cache with the time it was put there. *)
Record world := mkWorld { clock : Z; db : database; tokens : gmap str (AuthedUser * Z) }.

Definition set_db (d : database) (w : world) : world := mkWorld (clock w) d (tokens w).
Definition set_tokens (t : gmap str (AuthedUser * Z)) (w : world) : world := mkWorld (clock w) (db w) t.

(** A statement answers as in [exec], or fails, before or after its effect; the cache may lose entries, and yields
    none of a minute's age; the rest may answer anything. *)
Definition answers (B : Type) (w : world) (q : query B) : B -> world -> Prop :=
  match q in query B return B -> world -> Prop with
  | Db q =>
      match q in ask_db B return B -> world -> Prop with
      | Stmt s => fun b w' =>
          let '(r, d) := exec (clock w) s (db w) in
          b = r /\ w' = set_db d w \/ (exists e, b = Err e) /\ (w' = w \/ w' = set_db d w)
      | Now => fun b w' => b = clock w /\ w' = w
      | Random n => fun b w' => length b = n /\ w' = w
      | NewId => fun _ w' => w' = w
      end
  | CacheGet token => fun b w' => w' = w /\ (b = None \/ exists u at_, b = Some u /\ tokens w !! token = Some (u, at_) /\ clock w < at_ + TOKEN_TTL)
  | CacheInsert token u => fun _ w' => w' = set_tokens (<[token := (u, clock w)]> (tokens w)) w
  | CacheRemove token => fun _ w' => w' = set_tokens (delete token (tokens w)) w
  | CacheInvalidateAll => fun _ w' => w' = set_tokens ∅ w
  | _ => fun _ w' => w' = w
  end.

(** Time passes. *)
Definition passes (w w' : world) : Prop := clock w <= clock w' /\ db w' = db w /\ tokens w' = tokens w.

(** The requests to the server, and what the bot and the housekeeping ask of the managers. *)
Inductive request :=
| RAuthed (auth_header : option str)
| RConnect (auth_header : option str)
| RExchange (code : str) (metadata : ClientMetadata)
| RRefresh (token refresh_token : option str)
| RLogout (auth_header token refresh_token : option str)
| RMe (auth_header : option str)
| RAvatar (auth_header : option str)
| RVerify (token : str)
| RLoginCode (id : Z)
| RAuthorize (id : Z) (name : option str)
| RRevokeAccess (id : Z)
| RPurge.

Inductive reply :=
| Authed (user : AuthedUser)
| Connected (telegram_id : Z) (token : str)
| Exchanged (r : token_response * UserDto * option str)
| Refreshed (r : token_response)
| Me (r : UserDto * list UserSession)
| Identity (i : SessionIdentity)
| Code (code : str)
| Done_.

Section Server.
Variables (sha256 : list Z -> list Z) (to_uppercase : str -> str) (fault_display : db_fault -> str) (admin_id : Z).

#[local] Notation authed := (from_request_parts sha256 fault_display admin_id).

Definition program (r : request) : handler reply :=
  match r with
  | RAuthed h => u ← authed h; mret (Authed u)
  | RConnect h => c ← ws_connect sha256 fault_display admin_id h; mret (Connected (fst (c : Z * str)) (snd (c : Z * str)))
  | RExchange code m => x ← exchange sha256 to_uppercase fault_display admin_id code m; mret (Exchanged x)
  | RRefresh t r => x ← refresh sha256 fault_display admin_id t r; mret (Refreshed x)
  | RLogout h t r => _ ← logout sha256 fault_display admin_id h t r; mret Done_
  | RMe h => x ← me sha256 fault_display admin_id h; mret (Me x)
  | RAvatar h => _ ← me_avatar sha256 fault_display admin_id h; mret Done_
  | RVerify t => i ← manager (server_error_of fault_display) (verify_session sha256 admin_id t); mret (Identity i)
  | RLoginCode id => c ← manager (server_error_of fault_display) (create_login_code admin_id id); mret (Code c)
  | RAuthorize id name => _ ← manager (server_error_of fault_display) (authorize id name); mret Done_
  | RRevokeAccess id => _ ← manager (server_error_of fault_display) (revoke_access id); mret Done_
  | RPurge => _ ← manager (server_error_of fault_display) purge_expired_sessions;
              _ ← manager (server_error_of fault_display) purge_expired_codes; mret Done_
  end.

Abbreviation event := (happened (Q := query) (W := world)).
Abbreviation server := (system (Q := query) (W := world) (R := request) (E := ServerError) (A := reply)).
Definition serves : server -> server -> Prop := runs_to answers passes program.
Definition start (w : world) : server := mkSystem w [] [].

(** *** What stands behind an accepted token *)

(** An unrevoked session of the token that was found in the table, had not expired, and whose user was there, or
    is the administrator. *)
Definition verified_session (token : str) (user : AuthedUser) (l : list event) : Prop :=
  exists s w t w1, Happened (Db (Stmt (FindSession (hash_token sha256 token)))) (Ok (Some s)) w ∈ l /\
    sessions (db w) !! us_id s = Some s /\ us_token_hash s = hash_token sha256 token /\ us_revoked s = false /\
    Happened (Db Now) t w1 ∈ l /\ clock w1 = t /\ t < us_expires_at s /\
    user = mkAuthed (us_telegram_id s) (us_id s) /\
    (us_telegram_id s = admin_id \/ exists w2, Happened (Db (Stmt (FindUser [us_telegram_id s]))) (Ok (Some (us_telegram_id s))) w2 ∈ l).

(** An unexpired login code of the user, for which the session of the token was made. *)
Definition exchanged_code (token : str) (user : AuthedUser) (l : list event) : Prop :=
  exists c t w o client expires_at w1, Happened (Db (Stmt (FindCode c t))) (Ok (Some o)) w ∈ l /\
    codes (db w) !! c = Some o /\ t < oc_expires_at o /\ oc_telegram_id o = telegram_id user /\
    Happened (Db (Stmt (InsertSession (session_id user) (telegram_id user) (hash_token sha256 token) client expires_at))) (Ok tt) w1 ∈ l.

Definition vouched (token : str) (user : AuthedUser) (l : list event) : Prop := verified_session token user l \/ exchanged_code token user l.

(** Either the session is looked up after the cache had nothing, or the cache had an entry of less than a minute, made
    for a session that had been looked up or exchanged before. *)
Definition accepted (token : str) (user : AuthedUser) (l : list event) : Prop :=
  (exists l1 w l2, l = l1 ++ Happened (CacheGet token) None w :: l2 /\ verified_session token user l2) \/
  (exists l1 w0 l2 w, l = l1 ++ Happened (CacheInsert token user) tt w0 :: l2 /\ vouched token user l1 /\
    Happened (CacheGet token) (Some user) w ∈ l2 /\ clock w < clock w0 + TOKEN_TTL).

(** *** Proof *)

Definition admits (B : Type) (q : query B) (l : list event) (w : world) : Prop :=
  match q with CacheInsert token user => vouched token user l | _ => True end.

Definition invariant (w : world) (l : list event) : Prop :=
  keyed (db w) /\
  forall token user at_, tokens w !! token = Some (user, at_) ->
    exists l1 w0 l2, l = l1 ++ Happened (CacheInsert token user) tt w0 :: l2 /\ vouched token user l1 /\ clock w0 = at_.

Abbreviation safely := (safe answers admits invariant).

Lemma elem_prefix (e : event) l l' : l `prefix_of` l' -> e ∈ l -> e ∈ l'.
Proof. intros [m ->] H. apply elem_of_app. by left. Qed.

Lemma verified_within token user (l l' : list event) : (forall e, e ∈ l -> e ∈ l') -> verified_session token user l -> verified_session token user l'.
Proof.
  intros Hl (s & w & t & w1 & H1 & H2 & H3 & H4 & H5 & H6 & H7 & H8 & H9). exists s, w, t, w1.
  split_and!; [by apply Hl|done..|by apply Hl|done|done|done|]. destruct H9 as [H9|[w2 H9]]; [by left|]. right. exists w2. by apply Hl.
Qed.

Lemma verified_later token user : stable (verified_session token user).
Proof. intros l l' Hl. apply verified_within. intros e. by apply elem_prefix. Qed.

Lemma exchanged_later token user : stable (exchanged_code token user).
Proof.
  intros l l' Hl (c & t & w & o & cl & e & w1 & H1 & H2 & H3 & H4 & H5). exists c, t, w, o, cl, e, w1. split_and!; [by eapply elem_prefix|done..|by eapply elem_prefix].
Qed.

Lemma vouched_later token user : stable (vouched token user).
Proof. intros l l' Hl [H|H]; [left; by eapply verified_later|right; by eapply exchanged_later]. Qed.

Lemma accepted_later token user : stable (accepted token user).
Proof.
  intros l l' [m ->] [(l1 & w & l2 & -> & H)|(l1 & w0 & l2 & w & -> & H1 & H2 & H3)].
  - left. exists l1, w, (l2 ++ m). split; [by rewrite <-app_assoc|]. eapply verified_later; [|exact H]. by exists m.
  - right. exists l1, w0, (l2 ++ m), w. split_and!; [by rewrite <-app_assoc|done| |done]. apply elem_of_app. by left.
Qed.

(** What happened after [l0]. *)
Definition since (l0 : list event) (P : list event -> Prop) (l : list event) : Prop := exists m, l = l0 ++ m /\ P m.

Ltac in_log :=
  lazymatch goal with
  | |- _ ∈ [_] => by apply list_elem_of_singleton
  | |- _ ∈ _ ++ _ => apply elem_of_app; first [left; in_log|right; in_log]
  end.
Ltac step := cbn [safe fail_as embed attempt mbind prog_mbind prog_bind mret prog_ret ask query_of throw sql now manager Sessions.now].

Lemma hash_token_trim token : hash_token sha256 (trim token) = hash_token sha256 token.
Proof. unfold hash_token. by rewrite trim_trim. Qed.

Lemma find_user_answer w id b w' : answers _ w (Db (Stmt (FindUser [id]))) (Ok (Some b)) w' -> b = id.
Proof.
  cbn. intros [[H _]|[[e He] _]]; [|done]. injection H as H. destruct (users (db w) !! id); [by injection H|done].
Qed.

Lemma find_session_answer w hash s w' : keyed (db w) -> answers _ w (Db (Stmt (FindSession hash))) (Ok (Some s)) w' ->
  sessions (db w) !! us_id s = Some s /\ us_token_hash s = hash /\ us_revoked s = false.
Proof.
  intros Hk. cbn. intros [[H _]|[[e He] _]]; [|done]. injection H as H. symmetry in H. apply find_session_some in H as [H1 H2]; [|done].
  apply andb_true_iff in H2 as [H2 H3]. apply bool_decide_eq_true in H2. apply negb_true_iff in H3. done.
Qed.

Lemma safe_manager_bind {X Y} (f : DbError -> ServerError) (post : result ServerError Y -> list event -> Prop) (p : dbm X) (g : X -> dbm Y) : forall l,
  safely (fun r l => match r with Ok x => safely post (manager f (g x)) l | Err e => post (Err e) l end) (manager f p) l ->
  safely post (manager f (p ≫= g)) l.
Proof.
  induction p as [[x|e]|B q k IH]; intros l H; [done|done|]. cbn in *. intros l' w Hl Hw. destruct (H l' w Hl Hw) as [Ha Hs].
  split; [done|]. intros b w' Hb. apply IH. by apply (Hs b w').
Qed.

Lemma record_safe f token flag l0 :
  safely (fun r l => match r with Ok s => since l0 (verified_session token (mkAuthed (us_telegram_id s) (us_id s))) l | Err _ => True end)
    (manager f (verify_session_record sha256 admin_id token flag)) l0.
Proof.
  unfold verify_session_record. rewrite hash_token_trim. step. intros l2 w2 [m2 ->] [Hk _]. split; [done|]. intros [[s|]|e] w2' Ha; step; [|done..].
  apply find_session_answer in Ha as (Hs & Hh & Hr); [|done].
  intros l3 w3 [m3 ->] _. split; [done|]. intros t w3' [-> _]. destruct (Z.leb_spec (us_expires_at s) (clock w3)) as [|Hexp]; [done|].
  set (user := mkAuthed (us_telegram_id s) (us_id s)).
  assert (Hver : forall m, (us_telegram_id s = admin_id \/ exists w2, Happened (Db (Stmt (FindUser [us_telegram_id s]))) (Ok (Some (us_telegram_id s))) w2 ∈ m) ->
    Happened (Db (Stmt (FindSession (hash_token sha256 token)))) (Ok (Some s)) w2 ∈ m -> Happened (Db Now) (clock w3) w3 ∈ m -> verified_session token user m).
  { intros m Hu H1 H2. exists s, w2, (clock w3), w3. by split_and!. }
  destruct (Z.eqb_spec (us_telegram_id s) admin_id) as [Hadm|Hadm].
  { step. eexists. rewrite <-!app_assoc. split; [reflexivity|]. apply Hver; [by left|in_log|in_log]. }
  step. intros l4 w4 [m4 ->] _. split; [done|]. intros [[u|]|e] w4' Hu; step; [| |done].
  - apply find_user_answer in Hu as ->. eexists. rewrite <-!app_assoc. split; [reflexivity|]. apply Hver; [right; exists w4|..]; in_log.
  - destruct flag; step; [|done]. intros l5 w5 _ _. split; [done|]. by intros [n|e] w5' _.
Qed.

Lemma since_later l0 P (l l' : list event) : stable P -> l `prefix_of` l' -> since l0 P l -> since l0 P l'.
Proof. intros HP [n ->] (m & -> & Hm). exists (m ++ n). split; [by rewrite <-app_assoc|]. eapply HP; [|exact Hm]. by exists n. Qed.

Lemma since_start l0 token user (l : list event) l1 : l0 `prefix_of` l1 -> since l1 (verified_session token user) l -> since l0 (verified_session token user) l.
Proof.
  intros [n ->] (m & -> & Hm). exists (n ++ m). split; [by rewrite <-app_assoc|]. eapply verified_within; [|exact Hm]. intros e He. apply elem_of_app. by right.
Qed.

Lemma verify_session_safe f token l0 :
  safely (fun r l => match r with Ok i => since l0 (verified_session token (mkAuthed (si_telegram_id i) (si_session_id i))) l | Err _ => True end)
    (manager f (verify_session sha256 admin_id token)) l0.
Proof.
  unfold verify_session. apply safe_manager_bind. step. intros l1 w1 Hl1 _. split; [done|]. intros [[]|e] w1' _; [|done].
  apply safe_manager_bind. eapply safe_weaken; [|apply record_safe]. intros [s|e] l2; [|done]. apply since_start. etrans; [exact Hl1|by eexists].
Qed.

Lemma verify_safe token l0 :
  safely (fun r l => match r with Ok i => since l0 (verified_session token (mkAuthed (si_telegram_id i) (si_session_id i))) l | Err _ => True end)
    (manager (refused fault_display) (verify_and_slide sha256 admin_id token)) l0.
Proof.
  unfold verify_and_slide. apply safe_manager_bind. step. intros l1 w1 Hl1 _. split; [done|]. intros [[]|e] w1' _; [|done].
  apply safe_manager_bind. eapply safe_weaken; [|apply record_safe]. intros [s|e] l2; [|done]. intros H.
  apply (since_start l0) in H; [|etrans; [exact Hl1|by eexists]]. cbv zeta. step.
  intros l4 w4 Hl4 _. split; [done|]. intros t4 w4' _. intros l5 w5 Hl5 _. split; [done|]. intros t5 w5' _. intros l6 w6 Hl6 _. split; [done|].
  intros [n|e] w6' _; step; [|done]. eapply since_later; [apply verified_later| |exact H].
  etrans; [exact Hl4|]. etrans; [by eexists|]. etrans; [exact Hl5|]. etrans; [by eexists|]. etrans; [exact Hl6|]. by eexists.
Qed.

Lemma manager_free {A} (f : DbError -> ServerError) (p : dbm A) l : safely (fun _ _ => True) (manager f p) l.
Proof. apply safe_fail_as. eapply safe_weaken; [|by apply safe_embed]. done. Qed.

(** A prefix of the handler that matters no more. *)
Lemma safe_skip {F X Y} (post : result F Y -> list event -> Prop) (p : prog query F X) (f : X -> prog query F Y) l :
  safely (fun r l' => l `prefix_of` l') p l -> (forall e l', post (Err e) l') -> (forall x l', l `prefix_of` l' -> safely post (f x) l') -> safely post (p ≫= f) l.
Proof.
  intros Hp He Hf. apply safe_bind. eapply safe_weaken; [|exact Hp]. intros [x|e] l' Hl; [by apply Hf|apply He].
Qed.

Lemma safe_extends {F X} (p : prog query F X) l0 : forall l, l0 `prefix_of` l -> safely (fun _ _ => True) p l -> safely (fun _ l' => l0 `prefix_of` l') p l.
Proof.
  induction p as [r|B q k IH]; intros l Hl H; [done|]. cbn in *. intros l' w Hl' Hw. destruct (H l' w Hl' Hw) as [Ha Hs]. split; [done|].
  intros b w' Hb. apply IH; [|by apply (Hs b w')]. etrans; [exact Hl|]. etrans; [exact Hl'|]. by eexists.
Qed.

Lemma verified_safe token l :
  safely (fun r l => match r with Ok user => accepted token user l | Err _ => True end) (verified sha256 fault_display admin_id token) l.
Proof.
  unfold verified. step. intros l1 w1 _ [Hk Htok]. split; [done|]. intros [user|] w1' [-> Hget].
  - step. destruct Hget as [|(u & at_ & [= <-] & Hu & Hage)]; [done|]. destruct (Htok _ _ _ Hu) as (la & w0 & lb & -> & Hv & <-).
    right. exists la, w0, (lb ++ [Happened (CacheGet token) (Some user) w1]), w1. split_and!; [by rewrite <-app_assoc|done|in_log|done].
  - clear Hget. set (l2 := l1 ++ _). apply (safe_bind answers admits invariant). eapply safe_weaken; [|apply verify_safe]. intros [i|e] l3; [|done].
    intros (m & -> & Hm). set (user := mkAuthed _ _) in *. step. intros l4 w4 [n ->] _. split.
    { left. eapply verified_within; [|exact Hm]. intros e He. rewrite !elem_of_app. by left; right. }
    intros [] w4' _. step. left. exists l1, w1, (m ++ n ++ [Happened (CacheInsert token user) tt w4]). split; [subst l2; by rewrite <-!app_assoc|].
    eapply verified_later; [by eexists|exact Hm].
Qed.

Lemma find_code_answer w c t o w' : answers _ w (Db (Stmt (FindCode c t))) (Ok (Some o)) w' -> codes (db w) !! c = Some o /\ t < oc_expires_at o.
Proof.
  cbn. intros [[H _]|[[e He] _]]; [|done]. injection H as H. destruct (codes (db w) !! c) as [o'|]; [|done]. cbn in H.
  destruct (Z.ltb_spec t (oc_expires_at o')); [|done]. by injection H as <-.
Qed.

Lemma exchange_safe code metadata l0 :
  safely (fun r l => match r with Ok x => exchanged_code (st_refresh_token x) (mkAuthed (st_telegram_id x) (st_session_id x)) l | Err _ => True end)
    (manager (refused fault_display) (exchange_code sha256 to_uppercase admin_id code metadata)) l0.
Proof.
  unfold exchange_code. cbv zeta. step. intros l1 w1 _ _. split; [done|]. intros [[]|e] w1' _; step; [|done].
  intros l2 w2 _ _. split; [done|]. intros t w2' _. intros l3 w3 _ _. split; [done|]. intros [[o|]|e] w3' Ho; step; [|done..].
  apply find_code_answer in Ho as [Ho Hexp]. set (rest := fun user_authorized : bool => if negb user_authorized then _ else _).
  set (l4 := l3 ++ _).
  assert (Htail : forall b l, l4 `prefix_of` l -> safely (fun r l => match r with
      | Ok x => exchanged_code (st_refresh_token x) (mkAuthed (st_telegram_id x) (st_session_id x)) l | Err _ => True end)
      (fail_as (refused fault_display) (embed (fun B q => Db q) (rest b))) l).
  { intros [|] l Hl; subst rest; cbn [negb]; step.
    - intros l5 w5 Hl5 _. split; [done|]. intros [n|e] w5' _; step; [|done]. intros l6 w6 Hl6 _. split; [done|]. intros random w6' _.
      intros l7 w7 Hl7 _. split; [done|]. intros session_id w7' _. intros l8 w8 Hl8 _. split; [done|]. intros t' w8' _.
      intros l9 w9 Hl9 _. split; [done|]. intros [[]|e] w9' _; step; [|done]. cbn [st_refresh_token st_telegram_id st_session_id].
      exists (to_uppercase (trim code)), t, w3, o, metadata, (t' + days 3), w9. split_and!; [|done..|in_log].
      assert (Hpre : l4 `prefix_of` l9).
      { etrans; [exact Hl|]. etrans; [exact Hl5|]. etrans; [by eexists|]. etrans; [exact Hl6|]. etrans; [by eexists|]. etrans; [exact Hl7|].
        etrans; [by eexists|]. etrans; [exact Hl8|]. etrans; [by eexists|]. exact Hl9. }
      apply elem_of_app. left. eapply elem_prefix; [exact Hpre|]. subst l4. in_log.
    - intros l5 w5 _ _. split; [done|]. by intros b w5' _. }
  destruct (Z.eqb_spec (oc_telegram_id o) admin_id) as [Ha|Ha].
  - change (prog_bind rest (mret true)) with (rest true). by apply Htail.
  - step. intros l5 w5 Hl5 _. split; [done|]. intros [u|e] w5' _; step; [|done].
    apply Htail. etrans; [exact Hl5|]. by eexists.
Qed.

Lemma from_header_safe header l :
  safely (fun r l => match r with Ok user => exists hd token, header = Some hd /\ strip_prefix bearer hd = Some token /\ accepted (trim token) user l | Err _ => True end)
    (authed header) l.
Proof.
  destruct header as [hd|]; [|done]. cbn [from_request_parts]. destruct (strip_prefix bearer hd) as [token|] eqn:E; [|done].
  eapply safe_weaken; [|apply verified_safe]. intros [user|e] l'; [|done]. intros H. by exists hd, token.
Qed.

(** Nothing more is known of a handler's result than that its questions were in order. *)
Definition free {X} (p : handler X) : Prop := forall l, safely (fun _ _ => True) p l.

Lemma free_bind {X Y} (p : handler X) (f : X -> handler Y) : free p -> (forall x, free (f x)) -> free (p ≫= f).
Proof. intros Hp Hf l. apply safe_bind. eapply safe_weaken; [|apply Hp]. intros [x|e] l' _; [apply Hf|done]. Qed.

Lemma free_manager {A} (f : DbError -> ServerError) (p : dbm A) : free (manager f p).
Proof. intros l. apply manager_free. Qed.

Lemma free_attempt {X} (p : handler X) : free p -> free (attempt p).
Proof. intros H l. apply safe_attempt, H. Qed.

Lemma free_ret {X} (r : result ServerError X) : free (Ret r).
Proof. done. Qed.

Lemma free_ask {B} (q : query B) : (forall l w, admits _ q l w) -> free (ask q).
Proof. intros H l. step. intros l' w _ _. by split. Qed.

Lemma free_weaken {X} post (p : handler X) : (forall l, safely post p l) -> free p.
Proof. intros H l. eapply safe_weaken; [|apply H]. done. Qed.

(** A fact stays true while a handler runs. *)
Lemma safe_and {X} (P : list event -> Prop) (post : result ServerError X -> list event -> Prop) (p : handler X) :
  stable P -> forall l, P l -> safely post p l -> safely (fun r l' => post r l' /\ P l') p l.
Proof.
  intros HP. induction p as [r|B q k IH]; intros l Hl H; [done|]. cbn in *. intros l' w Hl' Hw. destruct (H l' w Hl' Hw) as [Ha Hs]. split; [done|].
  intros b w' Hb. apply IH; [|by apply (Hs b w')]. eapply HP; [|exact Hl]. etrans; [exact Hl'|]. by eexists.
Qed.

Lemma safe_then {X Y} (P : list event -> Prop) (post : result ServerError Y -> list event -> Prop) (p : handler X) (f : X -> handler Y) l :
  stable P -> P l -> free p -> (forall e l', post (Err e) l') -> (forall x l', P l' -> safely post (f x) l') -> safely post (p ≫= f) l.
Proof.
  intros HP Hl Hp He Hf. apply safe_bind. eapply safe_weaken; [|exact (safe_and P _ p HP l Hl (Hp l))]. intros [x|e] l' [_ H]; [by apply Hf|apply He].
Qed.

Lemma true_stable : stable (fun _ : list event => True).
Proof. done. Qed.

Definition profile_of (id : Z) (r : result ServerError UserDto) (_ : list event) : Prop :=
  match r with Ok dto => ud_telegram_id dto = id | Err _ => True end.

Lemma profile_safe id l : safely (profile_of id) (load_user_profile fault_display id) l.
Proof.
  unfold load_user_profile. eapply safe_then; [exact true_stable|done|apply free_attempt, free_manager|done|]. intros stored l1 _.
  eapply safe_then; [exact true_stable|done|by apply free_ask|done|]. intros users l2 _.
  eapply safe_then; [exact true_stable|done| |done|by intros name l3 _].
  destruct (profile_display_name _ _ _ _) as [name|]; [|done]. apply free_bind; [|done]. case_decide; [done|].
  apply free_bind; [apply free_attempt, free_manager|done].
Qed.

(** What the replies stand for. *)
Definition answered (r : request) (x : result ServerError reply) (l : list event) : Prop :=
  match r, x with
  | RAuthed header, Ok (Authed user) => exists hd token, header = Some hd /\ strip_prefix bearer hd = Some token /\ accepted (trim token) user l
  | RConnect header, Ok (Connected id token) => exists user, telegram_id user = id /\ accepted token user l
  | RMe header, Ok (Me (dto, _)) =>
      exists hd token user, header = Some hd /\ strip_prefix bearer hd = Some token /\ accepted (trim token) user l /\ ud_telegram_id dto = telegram_id user
  | RExchange _ _, Ok (Exchanged (x, dto, _)) => exists user, exchanged_code (tr_token x) user l /\ ud_telegram_id dto = telegram_id user
  | RRefresh _ _, Ok (Refreshed x) => exists user, verified_session (tr_token x) user l
  | RVerify token, Ok (Identity i) => verified_session token (mkAuthed (si_telegram_id i) (si_session_id i)) l
  | _, _ => True
  end.

Lemma answered_later r x : stable (answered r x).
Proof.
  intros l l' Hl. destruct r, x as [[]|]; try done; cbn.
  - intros (hd & t & H1 & H2 & H3). exists hd, t. split_and!; [done|done|]. by eapply accepted_later.
  - intros (u & H1 & H2). exists u. split; [done|]. by eapply accepted_later.
  - destruct r as [[x dto] url]. intros (u & H1 & H2). exists u. split; [|done]. by eapply exchanged_later.
  - intros [u H]. exists u. by eapply verified_later.
  - destruct r as [dto ss]. intros (hd & t & u & H1 & H2 & H3 & H4). exists hd, t, u. split_and!; [done|done| |done]. by eapply accepted_later.
  - by apply verified_later.
Qed.

Lemma exchanged_safe code metadata l :
  safely (fun r l => match r with Ok (x, dto, _) => exists user, exchanged_code (tr_token x) user l /\ ud_telegram_id dto = telegram_id user | Err _ => True end)
    (exchange sha256 to_uppercase fault_display admin_id code metadata) l.
Proof.
  unfold exchange. apply safe_bind. eapply safe_weaken; [|apply exchange_safe]. intros [x|e] l1; [|done]. intros H.
  set (user := mkAuthed _ _) in *. pose proof (exchanged_later (st_refresh_token x) user) as Hst.
  apply safe_bind. step. intros l2 w2 Hl2 _. split; [right; by eapply Hst|]. intros [] w2' _.
  apply safe_bind. eapply safe_weaken; [|eapply (safe_and _ _ _ Hst); [|apply profile_safe]].
  2:{ eapply Hst; [|exact H]. etrans; [exact Hl2|]. by eexists. }
  intros [dto|e] l3 [Hd H3]; [|done]. step. intros l4 w4 Hl4 _. split; [done|]. intros url w4' _.
  exists user. split; [|exact Hd]. eapply Hst; [|exact H3]. etrans; [exact Hl4|]. by eexists.
Qed.

Lemma program_safe r l : safely (answered r) (program r) l.
Proof.
  destruct r; cbn [program].
  - apply safe_bind. eapply safe_weaken; [|apply from_header_safe]. by intros [u|e] l'.
  - apply safe_bind. destruct auth_header as [hd|]; [|done]. cbn [ws_connect]. case_decide; [done|].
    apply safe_bind. eapply safe_weaken; [|apply verified_safe]. intros [u|e] l'; [|done]. intros H1. cbn. by exists u.
  - apply safe_bind. eapply safe_weaken; [|apply exchanged_safe]. by intros [[[x dto] url]|e] l'.
  - apply safe_bind. unfold refresh. destruct (match refresh_token with Some _ => _ | None => _ end) as [t|]; [|done].
    apply safe_bind. eapply safe_weaken; [|apply verify_safe]. intros [i|e] l1; [|done]. intros (m & -> & Hm).
    set (user := mkAuthed _ _) in *. assert (H : verified_session t user (l ++ m)).
    { eapply verified_within; [|exact Hm]. intros e He. apply elem_of_app. by right. }
    step. intros l2 w2 Hl2 _. split; [left; by eapply verified_later|]. intros [] w2' _. cbn. exists user. eapply verified_later; [|exact H].
    etrans; [exact Hl2|]. by eexists.
  - apply free_bind; [|done]. unfold logout. apply free_bind.
    { unfold maybe_authed. apply free_bind; [|done]. apply free_attempt. eapply free_weaken. apply from_header_safe. }
    intros user. destruct (match refresh_token with Some _ => _ | None => _ end) as [t|].
    + apply free_bind; [by apply free_ask|]. intros _. apply free_bind; [apply free_attempt, free_manager|done].
    + destruct user as [user|]; [|done]. apply free_bind; [by apply free_ask|]. intros _. apply free_bind; [apply free_attempt, free_manager|done].
  - apply safe_bind. unfold me. apply safe_bind. eapply safe_weaken; [|apply from_header_safe]. intros [user|e] l1; [|done].
    intros (hd & t & -> & Ht & Hacc). set (P := fun l => accepted (trim t) user l).
    assert (HP : stable P) by apply accepted_later.
    eapply (safe_then P); [exact HP|exact Hacc|apply free_manager|done|]. intros ss l2 H2.
    apply safe_bind. eapply safe_weaken; [|eapply (safe_and P); [exact HP|exact H2|apply profile_safe]].
    intros [dto|e] l3 [Hd H3]; [|done]. cbn. exists hd, t, user. by split_and!.
  - apply free_bind; [|done]. unfold me_avatar. apply free_bind; [eapply free_weaken; apply from_header_safe|]. intros user.
    apply free_bind; [by apply free_ask|]. intros [|]; [|done]. cbn [negb]. apply free_bind; [by apply free_ask|]. intros cached.
    apply free_bind; [|by intros []]. destruct cached as [c|]; [done|]. apply free_bind; [by apply free_ask|]. intros [p|e]; [|done].
    apply free_bind; [by apply free_ask|done].
  - apply safe_bind. eapply safe_weaken; [|apply verify_session_safe]. intros [i|e] l'; [|done]. intros (m & -> & Hm). cbn.
    eapply verified_within; [|exact Hm]. intros e He. apply elem_of_app. by right.
  - apply free_bind; [apply free_manager|done].
  - apply free_bind; [apply free_manager|done].
  - apply free_bind; [apply free_manager|done].
  - apply free_bind; [apply free_manager|]. intros _. apply free_bind; [apply free_manager|done].
Qed.

Definition backed (w : world) (l : list event) : Prop :=
  forall token user at_, tokens w !! token = Some (user, at_) ->
    exists l1 w0 l2, l = l1 ++ Happened (CacheInsert token user) tt w0 :: l2 /\ vouched token user l1 /\ clock w0 = at_.

Lemma backed_later w w' l e : (forall token x, tokens w' !! token = Some x -> tokens w !! token = Some x) -> backed w l -> backed w' (l ++ [e]).
Proof.
  intros Ht Hb token user at_ H. destruct (Hb token user at_ (Ht _ _ H)) as (l1 & w0 & l2 & -> & Hv & Hc). exists l1, w0, (l2 ++ [e]).
  split_and!; [by rewrite <-app_assoc|done|done].
Qed.

Lemma answer_keeps B (q : query B) b w w' l : admits B q l w -> answers B w q b w' -> invariant w l -> invariant w' (l ++ [Happened q b w]).
Proof.
  intros Ha Hb [Hk Ht]. pose proof (Ht : backed w l) as Hbk.
  assert (Hid : w' = w -> invariant w' (l ++ [Happened q b w])) by (intros ->; split; [done|by eapply backed_later]).
  destruct q as [A q|token|token user|token| | | | | | |]; try (apply Hid; by destruct Hb).
  - destruct q as [A' st| |n|]; try (apply Hid; by destruct Hb).
    cbn in Hb. pose proof (exec_keyed (clock w) st (db w) Hk) as Hk'. destruct (exec (clock w) st (db w)) as [r d]. cbn in Hk'.
    destruct Hb as [[-> ->]|[_ [->| ->]]]; (split; [done|by eapply backed_later]).
  - cbn in Hb. subst w'. destruct b. split; [done|]. intros token' user' at_. cbn. destruct (decide (token = token')) as [<-|Hne].
    + rewrite lookup_insert_eq. intros [= <- <-]. by exists l, w, [].
    + rewrite lookup_insert_ne by done. intros H. destruct (Hbk _ _ _ H) as (l1 & w0 & l2 & -> & Hv & Hc).
      exists l1, w0, (l2 ++ [Happened (CacheInsert token user) tt w]). split_and!; [by rewrite <-app_assoc|done|done].
  - cbn in Hb. subst w'. split; [done|]. eapply backed_later; [|done]. cbn. intros t x H. by apply lookup_delete_Some in H as [_ H].
  - cbn in Hb. subst w'. split; [done|]. eapply backed_later; [|done]. done.
Qed.

Lemma served_in_order w s : keyed (db w) -> tokens w = ∅ -> serves (start w) s -> in_order answers admits invariant answered s.
Proof.
  intros Hk Ht Hs. eapply (system_in_order answers passes program admits invariant answered); [exact answered_later|exact program_safe| |exact answer_keeps|exact Hs|].
  - intros w1 w2 l (_ & Hd & He) [H1 H2]. split; [by rewrite Hd|]. intros t u a. rewrite He. apply H2.
  - split; [|apply Forall_nil_2]. split; [exact Hk|]. intros t u a. cbn. by rewrite Ht.
Qed.

(** *** Revocation *)

(** The session of a token is revoked, opened, found. *)
Definition on_stmt (P : forall A, stmt A -> result DbError A -> Prop) (e : event) : Prop :=
  match e with
  | Happened q b _ =>
      match q in query B return B -> Prop with
      | Db q' => match q' in ask_db B return B -> Prop with Stmt st => fun b => P _ st b | _ => fun _ => False end
      | _ => fun _ => False
      end b
  end.

Definition revokes (hash : str) : event -> Prop :=
  on_stmt (fun A st b => match st with RevokeHash h => h = hash /\ is_ok b = true | _ => False end).
Definition opens (hash : str) : event -> Prop :=
  on_stmt (fun A st _ => match st with InsertSession _ _ h _ _ => h = hash | _ => False end).
Definition finds (hash : str) : event -> Prop :=
  on_stmt (fun A st => match st in stmt A return result DbError A -> Prop with
                       | FindSession h => fun b => h = hash /\ match b with Ok (Some _) => True | _ => False end
                       | _ => fun _ => False
                       end).

Definition revoked_for_good (w : world) (l : list event) : Prop :=
  forall hash l1 e l2, l = l1 ++ e :: l2 -> revokes hash e -> Forall (fun e => ~ opens hash e) l2 ->
  all_revoked hash (db w) /\ Forall (fun e => ~ finds hash e) l2.

Lemma last_split {X} (l : list X) x l1 e l2 : l ++ [x] = l1 ++ e :: l2 -> (l2 = [] /\ l1 = l /\ e = x) \/ exists l2', l2 = l2' ++ [x] /\ l = l1 ++ e :: l2'.
Proof.
  destruct l2 as [|y l2 _] using rev_ind; intros H.
  - apply app_inj_tail in H as [-> ->]. by left.
  - right. rewrite app_comm_cons, app_assoc in H. apply app_inj_tail in H as [-> ->]. by exists l2.
Qed.

Lemma answer_db B (q : query B) b w w' : answers B w q b w' ->
  db w' = db w \/ exists A (st : stmt A), db w' = snd (exec (clock w) st (db w)) /\
    forall hash, ~ opens hash (Happened q b w) -> forall k s, inserted (clock w) st k s -> us_token_hash s <> hash.
Proof.
  destruct q as [A q|token|token user|token| | | | | | |]; [|cbn; intros H; left; by destruct_and?; subst..].
  destruct q as [A' st| |n|]; [|cbn; intros H; left; by destruct_and?; subst..].
  cbn. destruct (exec (clock w) st (db w)) as [r d] eqn:E. intros H.
  assert (Hd : db w' = db w \/ db w' = d) by (destruct H as [[_ ->]|[_ [->| ->]]]; [by right|by left|by right]).
  destruct Hd as [Hd|Hd]; [by left|]. right. exists A', st. rewrite Hd, E. split; [done|]. intros hash Ho k s Hi.
  destruct st; try done. cbn in Ho. destruct Hi as [_ ->]. exact Ho.
Qed.

Lemma revoked_step B (q : query B) b w w' l : answers B w q b w' -> keyed (db w) -> revoked_for_good w l -> revoked_for_good w' (l ++ [Happened q b w]).
Proof.
  intros Ha Hk Hr hash l1 e l2 Hl He Ho. apply last_split in Hl as [(-> & -> & ->)|(l2' & -> & ->)].
  - split; [|constructor]. destruct q as [A q|token|token user|token| | | | | | |]; try done. destruct q as [A' st| |n|]; try done.
    destruct st; try done. destruct He as [-> Hok]. cbn in Ha. destruct Ha as [[_ ->]|[[e ->] _]]; [|done]. apply (revoke_hash_revokes (clock w)).
  - apply Forall_app in Ho as [Ho Ho']. rewrite Forall_singleton in Ho'. destruct (Hr hash l1 e l2' eq_refl He Ho) as [Hd Hf]. split.
    + destruct (answer_db _ _ _ _ _ Ha) as [-> |(A & st & -> & Hst)]; [done|]. apply exec_revoked; [|done]. by apply Hst.
    + apply Forall_app. split; [done|]. apply Forall_singleton.
      destruct q as [A q|token|token user|token| | | | | | |]; try (intros []; fail). destruct q as [A' st| |n|]; try (intros []; fail).
      destruct st; try (intros []; fail). intros [-> Hb]. pose proof (all_revoked_not_found (clock w) hash (db w) Hd Hk) as Hn.
      cbn in Ha. destruct Ha as [[-> _]|[[e0 ->] _]]; [|done]. cbn in Hn. injection Hn as Hn. by rewrite Hn in Hb.
Qed.

Lemma step_keyed B (q : query B) b w w' : answers B w q b w' -> keyed (db w) -> keyed (db w').
Proof. intros Ha Hk. destruct (answer_db _ _ _ _ _ Ha) as [-> |(A & st & -> & _)]; [done|by apply exec_keyed]. Qed.

Lemma served_revoked w s : keyed (db w) -> serves (start w) s -> keyed (db (state s)) /\ revoked_for_good (state s) (log s).
Proof.
  intros Hk Hs. cut (forall s0, serves s0 s -> keyed (db (state s0)) /\ revoked_for_good (state s0) (log s0) -> keyed (db (state s)) /\ revoked_for_good (state s) (log s)).
  { intros H. apply (H _ Hs). split; [done|]. intros hash l1 e l2 Hl. by destruct l1. }
  clear w Hk Hs. intros s0 Hs. induction Hs as [|s0 s1 s2 Hstep _ IH]; [done|]. intros [Hk Hr]. apply IH. clear IH.
  destruct Hstep as [s r|s w (_ & Hd & _)|s i r B q k b w Hi Ha]; cbn.
  - done.
  - split; [by rewrite Hd|]. intros hash l1 e l2 Hl. rewrite Hd. exact (Hr hash l1 e l2 Hl).
  - split; [by eapply step_keyed|by apply revoked_step].
Qed.
End Server.

(** ** Theorems *)

(** C18: whatever requests, answers and failures interleave, a reply stands on what the database said: a request is taken
    for a user's when an unrevoked, unexpired session of its token was found for an authorised user, after the cache
    had been asked, or less than a minute before it was asked an entry was made for such a session or for the one
    just opened with a login code.  The refresh and the socket's checks look the session up themselves. *)
Theorem replies_vouched_for (sha256 : list Z -> list Z) (to_uppercase : str -> str) (fault_display : db_fault -> str) (admin_id : Z)
    (w : world) (s : system (Q := query) (W := world) (R := request) (E := ServerError) (A := reply)) :
  keyed (db w) -> tokens w = ∅ -> serves sha256 to_uppercase fault_display admin_id (start w) s ->
  forall r x, (r, Ret x) ∈ handlers s -> answered sha256 admin_id r x (log s).
Proof.
  intros Hk Ht Hs r x Hx. destruct (served_in_order sha256 to_uppercase fault_display admin_id w s Hk Ht Hs) as [_ HF].
  rewrite Forall_forall in HF. exact (HF _ Hx).
Qed.


(** ** Schedules *)

(** One answer to each question: no statement fails, nothing is lost from the cache. *)
Definition one_answer (random : list Z) (id : str) (B : Type) (q : query B) (w : world) : B * world :=
  match q in query B return B * world with
  | Db q => let '(b, (_, d)) := alone random id _ q (clock w, db w) in (b, set_db d w)
  | CacheGet token => (match tokens w !! token with Some (u, at_) => if clock w <? at_ + TOKEN_TTL then Some u else None | None => None end, w)
  | CacheInsert token u => (tt, set_tokens (<[token := (u, clock w)]> (tokens w)) w)
  | CacheRemove token => (tt, set_tokens (delete token (tokens w)) w)
  | CacheInvalidateAll => (tt, set_tokens ∅ w)
  | TelegramUsers _ => (None, w)
  | LyricspornUrl => (None, w)
  | AvatarGet _ => (None, w)
  | AvatarInsert _ _ => (tt, w)
  | HasClient => (false, w)
  | ProfilePhotos _ => (Ok None, w)
  end.

(** [random] has as many bytes as are asked for. *)
Definition enough (random : list Z) {B} (q : query B) : bool := match q with Db q => match q with Random n => (n <=? length random)%nat | _ => true end | _ => true end.

Lemma one_answer_ok random id B (q : query B) w : enough random q = true -> let '(b, w') := one_answer random id B q w in answers B w q b w'.
Proof.
  destruct q as [A q|token|token u|token| | | | | | |]; cbn; try done; intros He.
  - destruct q as [A' st| |n|]; cbn in *; [|by destruct w|split; [by rewrite length_take_le by (by apply Nat.leb_le)|by destruct w]|by destruct w].
    destruct (exec (clock w) st (db w)) as [r d]. by left.
  - split; [done|]. destruct (tokens w !! token) as [[u at_]|]; [|by left]. destruct (Z.ltb_spec (clock w) (at_ + TOKEN_TTL)); [|by left].
    right. by exists u, at_.
Qed.

Inductive move := Come (r : request) | Wait (dt : Z) | Turn (i : nat) (random : list Z) (id : str).

Section Schedule.
Variables (sha256 : list Z -> list Z) (to_uppercase : str -> str) (fault_display : db_fault -> str) (admin_id : Z).

#[local] Notation server := (system (Q := query) (W := world) (R := request) (E := ServerError) (A := reply)).
#[local] Notation prog_of := (program sha256 to_uppercase fault_display admin_id).
#[local] Notation serve := (serves sha256 to_uppercase fault_display admin_id).

(** A move that cannot be made leaves the system alone. *)
Definition make_move (m : move) (s : server) : server :=
  match m with
  | Come r => mkSystem (state s) (log s) (handlers s ++ [(r, prog_of r)])
  | Wait dt => mkSystem (mkWorld (clock (state s) + Z.max 0 dt) (db (state s)) (tokens (state s))) (log s) (handlers s)
  | Turn i random id =>
      match handlers s !! i with
      | Some (r, Ask q k) =>
          if enough random q then
            let '(b, w) := one_answer random id _ q (state s) in
            mkSystem w (log s ++ [Happened q b (state s)]) (<[i := (r, k b)]> (handlers s))
          else s
      | _ => s
      end
  end.

Definition play (ms : list move) (s : server) : server := foldl (fun s m => make_move m s) s ms.

Lemma play_serves ms : forall s, serve s (play ms s).
Proof.
  induction ms as [|m ms IH]; intros s; [apply rtc_refl|]. etrans; [|apply IH]. destruct m as [r|dt|i random id]; cbn [make_move].
  - apply rtc_once, Arrives.
  - apply rtc_once, Changes. split_and!; cbn; [lia|done|done].
  - destruct (handlers s !! i) as [[r [x|B q k]]|] eqn:E; [apply rtc_refl| |apply rtc_refl]. destruct (enough random q) eqn:En; [|apply rtc_refl].
    pose proof (one_answer_ok random id B q (state s) En) as Ha. destruct (one_answer random id B q (state s)) as [b w].
    by apply rtc_once, (Goes_on _ _ _ s i r B q k).
Qed.

(** A turn after the other until a handler is done, and what it replied. *)
Definition turns (i : nat) (n : nat) (random : list Z) (id : str) : list move := replicate n (Turn i random id).
Definition replied (s : server) (i : nat) : option (result ServerError reply) :=
  match handlers s !! i with Some (_, Ret x) => Some x | _ => None end.
End Schedule.

Definition demo_world : world := mkWorld 0 demo_users ∅.
Definition demo_play (ms : list move) : system (Q := query) (W := world) (R := request) (E := ServerError) (A := reply) :=
  play demo_sha demo_upper (fun _ => []) 1 ms (start demo_world).
Definition demo_reply (ms : list move) (i : nat) : option (result ServerError reply) := replied (demo_play ms) i.

Definition demo_code : str := lit "ABC-BC9".
Definition demo_token (b : Z) : str := concat (hex_byte <$> replicate 32 b).
(** A code for user 7, and its exchange. *)
Definition demo_login : list move :=
  Come (RLoginCode 7) :: turns 0 12 [0; 1; 2; 33; 34; 255] [] ++ Come (RExchange demo_code no_client) :: turns 1 20 (replicate 32 1) (lit "s").
Definition demo_bearer : option str := Some (bearer ++ demo_token 1).
Definition session_of_7 : AuthedUser := mkAuthed 7 (lit "s").

(** A request half a minute after the login, served from the cache. *)
Lemma replies_vouched_for_witness :
  exists s : system (Q := query) (W := world) (R := request) (E := ServerError) (A := reply), accepted demo_sha 1 (demo_token 1) session_of_7 (log s) /\ clock (state s) = 30 * MICROS.
Proof.
  set (ms := demo_login ++ Wait (30 * MICROS) :: Come (RAuthed demo_bearer) :: turns 2 12 [] []).
  exists (demo_play ms). split; [|by vm_compute].
  destruct (replies_vouched_for demo_sha demo_upper (fun _ => []) 1 demo_world (demo_play ms)) with (r := RAuthed demo_bearer) (x := @Ok ServerError reply (Authed session_of_7))
    as (hd & token & [= <-] & [= <-] & H).
  - intros k x H. destruct (lookup_empty_Some k x H).
  - done.
  - apply play_serves.
  - apply list_elem_of_lookup_2 with (i := 2%nat). by vm_compute.
  - exact H.
Defined.

Definition demo_logout : list move :=
  demo_login ++ Come (RLogout None (Some (demo_token 1)) None) :: turns 2 12 [] [] ++ Come (RVerify (demo_token 1)) :: turns 3 12 [] [].


(** The tokens that replies carry. *)
Definition token_of (x : option (result ServerError reply)) : option str :=
  match x with Some (Ok (Exchanged (r, _, _))) => Some (tr_token r) | _ => None end.

(** A login code is not single-use: the code is read, and deleted, in two statements, and the number of rows deleted is
    not looked at, so two exchanges that overlap both open a session. *)
Theorem code_exchanged_twice :
  exists ms, token_of (demo_reply ms 1) = Some (demo_token 1) /\ token_of (demo_reply ms 2) = Some (demo_token 2) /\
    (fst <$> handlers (demo_play ms)) = [RLoginCode 7; RExchange demo_code no_client; RExchange demo_code no_client] /\
    size (sessions (db (state (demo_play ms)))) = 2%nat.
Proof.
  exists (Come (RLoginCode 7) :: turns 0 12 [0; 1; 2; 33; 34; 255] [] ++ [Come (RExchange demo_code no_client); Come (RExchange demo_code no_client)] ++
    turns 1 3 [] [] ++ turns 2 3 [] [] ++ turns 1 20 (replicate 32 1) (lit "s") ++ turns 2 20 (replicate 32 2) (lit "t")).
  repeat (split; [by vm_compute|]). by vm_compute.
Qed.

(** A logout that names the token with a blank revokes the session but drops another entry of the cache: the token
    keeps being accepted until its entry is a minute old. *)
Theorem untrimmed_logout_keeps_cache :
  exists ms, demo_reply ms 2 = Some (Ok Done_) /\ demo_reply ms 3 = Some (Ok (Authed session_of_7)) /\
    (us_revoked <$> sessions (db (state (demo_play ms))) !! lit "s") = Some true.
Proof.
  exists (demo_login ++ Come (RLogout None (Some (lit " " ++ demo_token 1)) None) :: turns 2 12 [] [] ++ Wait (59 * MICROS) :: Come (RAuthed demo_bearer) :: turns 3 12 [] []).
  repeat (split; [by vm_compute|]). by vm_compute.
Qed.

(** So does a request whose look-up was under way during the logout: it puts the entry back, for another minute. *)
Theorem revoked_while_verifying :
  exists ms, demo_reply ms 3 = Some (Ok Done_) /\ demo_reply ms 4 = Some (Ok (Authed session_of_7)) /\
    (us_revoked <$> sessions (db (state (demo_play ms))) !! lit "s") = Some true /\ clock (state (demo_play ms)) = 61 * MICROS + 59 * MICROS.
Proof.
  exists (demo_login ++ Wait (61 * MICROS) :: Come (RAuthed demo_bearer) :: turns 2 4 [] [] ++ Come (RLogout None (Some (demo_token 1)) None) :: turns 3 12 [] [] ++
    turns 2 12 [] [] ++ Wait (59 * MICROS) :: Come (RAuthed demo_bearer) :: turns 4 12 [] []).
  repeat (split; [by vm_compute|]). by vm_compute.
Qed.
