(* ===== verification/Tickets.v ===== *)
(** * Tickets: signed addresses for playback (crates/server/src/streaming.rs)

    A ticket names a track, a user and an expiry, and carries their signature; whoever has it may stream the
    track without another look at the session.  The signature and base64 are parameters with the laws they
    are used by. *)
From S2P Require Import Prelude Text Interfaces Music Streaming StreamTypes ChunkCache CircuitBreaker WorkerPool WorkerFetch StreamEngine Sessions Auth.

(** [str::parse] at a signed width. *)
Definition parse_i (w : Z) (s : str) : option Z :=
  let bounded n := if (- 2 ^ (w - 1) <=? n) && (n <? 2 ^ (w - 1)) then Some n else None in
  match s with
  | [] | [43] | [45] => None
  | 45 :: s => n ← parse_digits 64 0 s; bounded (- n)
  | 43 :: s => n ← parse_digits 64 0 s; bounded n
  | _ => n ← parse_digits 64 0 s; bounded n
  end.

(** [String::from_utf8]: the text of these bytes, if there is one. *)
Definition from_utf8 (bs : list Z) : option str :=
  let s := from_utf8_lossy bs in if decide (as_bytes s = bs) then Some s else None.

(** [URL_SAFE_NO_PAD]. *)
Class Base64 := {
  b64_encode : list Z -> str;
  b64_decode : str -> option (list Z);
  b64_roundtrip l : Forall (fun b => 0 <= b < 256) l -> b64_decode (b64_encode l) = Some l;
  b64_plain l : Forall (fun c => 33 <= c < 127 /\ c <> 58) (b64_encode l);
  b64_nonempty l : l <> [] -> b64_encode l <> [];
}.

(** HMAC-SHA256: the key and the message to the 32 bytes of the signature. *)
Class Signature := {
  hmac : list Z -> list Z -> list Z;
  hmac_bytes k m : Forall (fun b => 0 <= b < 256) m -> Forall (fun b => 0 <= b < 256) (hmac k m);
}.

Section Tickets.
Context {base : Base64} {signer : Signature}.

Record StreamTicket := mkTicket { db_track_id : Z; user_id : Z; expires_at : Z }.

(** [now] is [Utc::now().timestamp()]. *)
Definition new_ticket (now track user ttl_secs : Z) : StreamTicket := mkTicket track user (now + ttl_secs).

Definition payload (t : StreamTicket) : str := show_i (db_track_id t) ++ lit ":" ++ show_i (user_id t) ++ lit ":" ++ show_i (expires_at t).

Definition sign (secret : str) (t : StreamTicket) : list Z := hmac (as_bytes secret) (as_bytes (payload t)).

Definition encode (secret : str) (t : StreamTicket) : str :=
  b64_encode (as_bytes (payload t ++ lit ":" ++ b64_encode (sign secret t))).

Definition denied (message : string) : ServerError := Auth.Unauthorized (lit message).

Definition decode (secret : str) (now : Z) (ticket_str : str) : result ServerError StreamTicket :=
  decoded ← ok_or (b64_decode (trim ticket_str)) (denied "Invalid ticket encoding");
  ticket_payload ← ok_or (from_utf8 decoded) (denied "Invalid ticket format");
  match split_on 58 ticket_payload with
  | [p0; p1; p2; provided_sig] =>
      db_track_id ← ok_or (parse_i 32 p0) (denied "Invalid track ID in ticket");
      user_id ← ok_or (parse_i 64 p1) (denied "Invalid user ID in ticket");
      expires_at ← ok_or (parse_i 64 p2) (denied "Invalid expiry in ticket");
      if expires_at <? now then Err (denied "Stream ticket has expired")
      else
        let ticket := mkTicket db_track_id user_id expires_at in
        decoded_sig ← ok_or (b64_decode provided_sig) (denied "Invalid ticket signature format");
        if decide (decoded_sig = sign secret ticket) then Ok ticket else Err (denied "Invalid stream ticket signature")
  | _ => Err (denied "Malformed stream ticket")
  end.

Definition create_stream_ticket (secret : str) (now track user ttl_secs : Z) : str := encode secret (new_ticket now track user ttl_secs).
Definition verify_stream_ticket (secret : str) (now : Z) (ticket : str) : result ServerError (Z * Z) :=
  t ← decode secret now ticket; Ok (db_track_id t, user_id t).

(** ** Handlers *)

Record PlaybackInfo := mkPlaybackInfo {
  stream_url : str; expires_in : Z; pi_mime_type : str; pi_codec : str;
  pi_duration : option Z; pi_bit_depth : option Z; pi_sample_rate : option Z; pi_file_size : Z
}.

Definition TICKET_SECS : Z := 7200.
Definition url_of (track : Z) (ticket : str) : str := lit "/api/v1/tracks/" ++ show_i track ++ lit "/stream?ticket=" ++ ticket.

(** What the handler asks: the Last.fm connection, the track, its media. *)
Definition issue_playback_ticket (app_key : str) (now : Z) (user : AuthedUser) (track : Z)
    (has_lastfm : result ServerError bool) (find_track : result str (option Codec)) (media : result StreamError TrackMediaMetadata) :
    result ServerError PlaybackInfo :=
  has_lastfm ← has_lastfm;
  if negb has_lastfm then Err (Auth.Forbidden (lit "Connect your Last.fm account to stream audio"))
  else
    found ← map_err Auth.Internal find_track;
    codec ← ok_or found (Auth.NotFound (lit "Track " ++ show_i track ++ lit " not found"));
    let ticket := create_stream_ticket app_key now track (telegram_id user) TICKET_SECS in
    Ok (mkPlaybackInfo (url_of track ticket) TICKET_SECS (mime_type codec) (as_str codec) None None None
          (match media with Ok meta => swrap 64 (file_size meta) | Err _ => 0 end)).

(** [ServerError::from(StreamError)]; the text of a database error does not say its kind. *)
Definition server_error_of_stream (of_db : str -> ServerError) (invocation : InvocationError -> str) (err : StreamError) : ServerError :=
  match err with
  | TrackNotFound id => Auth.NotFound (lit "Track " ++ show_i id ++ lit " not found")
  | NoMediaDocument id => Auth.NotFound (lit "No media document found for track " ++ show_i id)
  | InvalidRange msg => Auth.BadRequest msg
  | FileReferenceExpired => Auth.Internal (lit "Telegram file reference expired")
  | FloodWait secs => Auth.Internal (lit "Telegram flood wait: " ++ show_u secs ++ lit "s")
  | AllWorkersUnavailable => Auth.Internal (lit "All streaming workers are currently unavailable")
  | UnsupportedCdnRedirect => Auth.Internal (lit "Unsupported CDN redirect")
  | ChunkFetchFailed msg => Auth.Internal msg
  | Connect e => Auth.Internal e
  | Telegram e => Auth.Internal (invocation e)
  | StreamTypes.Db e => of_db e
  end.

(** The answer: its status, its headers and whether it has a body. *)
Record http_response := mkHttpResponse { rs_status : Z; rs_headers : list (str * str); rs_streams : bool }.

Definition CACHE_CONTROL : str := lit "public, max-age=2592000, immutable".
Definition response_of (streams : bool) (h : AudioStreamHeaders) : http_response :=
  mkHttpResponse (if (100 <=? status h) && (status h <? 1000) then status h else 200)
    ([(lit "content-type", content_type h); (lit "accept-ranges", accept_ranges h); (lit "content-length", show_u (content_length h));
      (lit "cache-control", CACHE_CONTROL)] ++ match content_range h with Some r => [(lit "content-range", r)] | None => [] end) streams.

(** *** The stream, composed with the engine *)

Section Handler.
Context {C G : Type} {cache : MokaCache (Z * Z) TrackMediaMetadata C} {gate : WorkerGate G}.
Context (find_track_by_id : nat -> Z -> result StreamError (option track_row))
  (primary_get_messages : option (nat -> Z -> result StreamError (list (option document))))
  (get_messages_for_worker : nat -> Z -> Z -> result StreamError (list (option document)))
  (to_server : StreamError -> ServerError).

(** What the handler changes: the workers of the pool and the metadata of the engine. *)
Definition server_io : Type := StreamWorkerPool G * engine (C := C).

(** [now] is the clock of the worker pool. *)
Definition stream_audio_internal (now id : Z) (head : bool) (range_header : option str) (io : server_io) :
    result ServerError http_response * server_io :=
  let '(p, e) := io in
  if head then
    let '(headers, e) := open_stream_headers find_track_by_id primary_get_messages get_messages_for_worker id range_header e in
    (response_of false <$> map_err to_server headers, (p, e))
  else
    let '(response, p, e) := open_stream find_track_by_id primary_get_messages get_messages_for_worker now id range_header p e in
    ((fun r => response_of true (response_headers r)) <$> map_err to_server response, (p, e)).

(** What a request must show before the engine is asked. *)
Definition ticketed (app_key : str) (secs id : Z) (ticket : option str) : result ServerError Z :=
  ticket ← ok_or (match ticket with Some t => if decide (trim t = []) then None else Some (trim t) | None => None end)
             (Auth.BadRequest (lit "Missing 'ticket' query parameter"));
  '(track, _) ← verify_stream_ticket app_key secs ticket;
  if negb (id =? track) then Err (Auth.Forbidden (lit "Ticket does not match requested track")) else Ok track.

Definition stream_handler (app_key : str) (secs now id : Z) (head : bool) (range_header ticket : option str) (io : server_io) :
    result ServerError http_response * server_io :=
  match ticketed app_key secs id ticket with
  | Err e => (Err e, io)
  | Ok track => stream_audio_internal now track head range_header io
  end.
End Handler.

(** ** Lemmas *)

(** What the [i32] and the two [i64]s of a ticket can hold. *)
Definition ticket_ok (t : StreamTicket) : Prop :=
  - 2 ^ 31 <= db_track_id t < 2 ^ 31 /\ - 2 ^ 63 <= user_id t < 2 ^ 63 /\ - 2 ^ 63 <= expires_at t < 2 ^ 63.

Lemma parse_digits_show (n : Z) : in_u 64 n -> parse_digits 64 0 (show_u n) = Some n.
Proof.
  intros H. unfold show_u. rewrite (parse_show_digits 64 20 n []); [done| |lia|]; unfold in_u in H.
  - change (10 ^ Z.of_nat 20) with 100000000000000000000. lia.
  - rewrite umax_64. lia.
Qed.

Lemma parse_i_digits (w : Z) (s : str) : Forall (fun c => is_ascii_digit c = true) s -> s <> [] ->
  parse_i w s = (n ← parse_digits 64 0 s; if (- 2 ^ (w - 1) <=? n) && (n <? 2 ^ (w - 1)) then Some n else None).
Proof.
  intros H Hne. destruct H as [|c s Hc H]; [done|]. unfold is_ascii_digit in Hc. to_prop.
  unfold parse_i. repeat case_match; simplify_eq; try done; lia.
Qed.

(** [format!("{n}").parse() == Ok(n)] at a signed width. *)
Lemma parse_show_i (w n : Z) : 1 <= w <= 64 -> - 2 ^ (w - 1) <= n < 2 ^ (w - 1) -> parse_i w (show_i n) = Some n.
Proof.
  intros Hw Hn. assert (2 ^ (w - 1) <= 2 ^ 63) by (apply Z.pow_le_mono_r; lia).
  unfold show_i. destruct (Z.ltb_spec n 0).
  - transitivity (m ← parse_digits 64 0 (show_u (- n)); if (- 2 ^ (w - 1) <=? - m) && (- m <? 2 ^ (w - 1)) then Some (- m) else None).
    + pose proof (show_u_ne (- n)). unfold parse_i. destruct (show_u (- n)); [done|]. by repeat case_match.
    + rewrite parse_digits_show by (unfold in_u; lia). cbn [mbind option_bind]. rewrite Z.opp_involutive. decide_ifs. done.
  - rewrite parse_i_digits by auto with peerless. rewrite parse_digits_show by (unfold in_u; lia).
    cbn [mbind option_bind]. decide_ifs. done.
Qed.

Lemma show_i_visible (n : Z) : Forall (fun c => 33 <= c < 127 /\ c <> 58) (show_i n).
Proof.
  eapply Forall_impl; [apply show_i_chars|]. intros c [->|Hc]; [lia|]. unfold is_ascii_digit in Hc. to_prop. lia.
Qed.

Lemma visible_not_ws (c : rchar) : 33 <= c < 127 -> is_whitespace c = false.
Proof. intros H. unfold is_whitespace. by decide_ifs. Qed.

Lemma visible_chars (s : str) : Forall (fun c => 33 <= c < 127) s -> Forall is_char s.
Proof. intros H. eapply Forall_impl; [done|]. intros c Hc. cbn in Hc. unfold is_char, scalar. lia. Qed.

Lemma from_utf8_bytes (s : str) : Forall is_char s -> from_utf8 (as_bytes s) = Some s.
Proof. intros H. unfold from_utf8, from_utf8_lossy. rewrite decode_lossy_bytes by done. cbv zeta. by rewrite decide_True. Qed.

(** The text that is signed and the text that is sent. *)
Lemma payload_visible (t : StreamTicket) : Forall (fun c => 33 <= c < 127) (payload t).
Proof.
  assert (forall n, Forall (fun c => 33 <= c < 127) (show_i n)) as Hs.
  { intros n. eapply Forall_impl; [apply show_i_visible|]. by intros c [Hc _]. }
  unfold payload. change (lit ":") with [58]. rewrite !Forall_app, !Forall_singleton. repeat split; (apply Hs || lia).
Qed.

Lemma payload_byte (t : StreamTicket) : Forall (fun b => 0 <= b < 256) (as_bytes (payload t)).
Proof. apply as_bytes_byte. eapply Forall_impl; [apply payload_visible|]. intros c Hc. cbn in Hc. unfold scalar. lia. Qed.

Lemma split_payload (t : StreamTicket) (sg : str) : Forall (fun c => c <> 58) sg ->
  split_on 58 (payload t ++ lit ":" ++ sg) = [show_i (db_track_id t); show_i (user_id t); show_i (expires_at t); sg].
Proof.
  intros Hsg. assert (forall n, Forall (fun c => c <> 58) (show_i n)) as Hs.
  { intros n. eapply Forall_impl; [apply show_i_visible|]. by intros c [_ Hc]. }
  unfold payload. rewrite <-!app_assoc. change (lit ":") with [58]. cbn [app].
  by rewrite !split_on_app, split_on_none by auto.
Qed.

Lemma payload_inj (t t' : StreamTicket) : ticket_ok t -> ticket_ok t' -> payload t = payload t' -> t = t'.
Proof.
  intros (H1 & H2 & H3) (H1' & H2' & H3') E.
  pose proof (split_payload t [] (Forall_nil_2 _)) as S. rewrite E, (split_payload t' []) in S by constructor.
  assert (forall w a b, 1 <= w <= 64 -> - 2 ^ (w - 1) <= a < 2 ^ (w - 1) -> - 2 ^ (w - 1) <= b < 2 ^ (w - 1) ->
            show_i a = show_i b -> a = b) as Hi.
  { intros w a b Hw Ha Hb Eab. apply (parse_show_i w) in Ha, Hb; [|done..]. congruence. }
  destruct t, t'. cbn in *. injection S as E1 E2 E3. f_equal.
  - by apply (Hi 32).
  - by apply (Hi 64).
  - by apply (Hi 64).
Qed.

(** What is decoded was sent: the address carries, after three numbers, the signature of the ticket they spell. *)
Definition carries (ticket_str : str) (sg : list Z) : Prop :=
  exists bs text fields sgt, b64_decode (trim ticket_str) = Some bs /\ from_utf8 bs = Some text /\ split_on 58 text = fields ++ [sgt] /\ b64_decode sgt = Some sg.

Lemma carries_unique (s : str) (a b : list Z) : carries s a -> carries s b -> a = b.
Proof.
  intros (bs & text & fields & sgt & E1 & E2 & E3 & E4) (bs' & text' & fields' & sgt' & E1' & E2' & E3' & E4').
  assert (bs' = bs) as -> by congruence. assert (text' = text) as -> by congruence.
  rewrite E3' in E3. apply app_inj_tail in E3 as [_ ->]. congruence.
Qed.

Lemma parse_i_range (w : Z) (s : str) (n : Z) : parse_i w s = Some n -> - 2 ^ (w - 1) <= n < 2 ^ (w - 1).
Proof.
  assert (forall o : option Z, (n ← o; if (- 2 ^ (w - 1) <=? n) && (n <? 2 ^ (w - 1)) then Some n else None) = Some n ->
            - 2 ^ (w - 1) <= n < 2 ^ (w - 1)) as H1.
  { intros [m|]; cbn [mbind option_bind]; [|done]. case_match; [|done]. intros [= ->]. to_prop. lia. }
  assert (forall o : option Z, (n ← o; if (- 2 ^ (w - 1) <=? - n) && (- n <? 2 ^ (w - 1)) then Some (- n) else None) = Some n ->
            - 2 ^ (w - 1) <= n < 2 ^ (w - 1)) as H2.
  { intros [m|]; cbn [mbind option_bind]; [|done]. case_match; [|done]. intros [= <-]. to_prop. lia. }
  unfold parse_i. repeat case_match; simplify_eq; try done; solve [apply H1|apply H2].
Qed.

Lemma ok_or_Ok {E A} (o : option A) (e : E) (a : A) : ok_or o e = Ok a -> o = Some a.
Proof. destruct o; cbn; congruence. Qed.

Lemma decode_Ok (secret : str) (now : Z) (s : str) (t : StreamTicket) : decode secret now s = Ok t ->
  ticket_ok t /\ now <= expires_at t /\ carries s (sign secret t).
Proof.
  unfold decode. intros H.
  destruct (ok_or (b64_decode (trim s)) _) as [bs|] eqn:E1; [|done]. apply ok_or_Ok in E1. cbn [mbind result_bind] in H.
  destruct (ok_or (from_utf8 bs) _) as [text|] eqn:E2; [|done]. apply ok_or_Ok in E2. cbn [mbind result_bind] in H.
  destruct (split_on 58 text) as [|p0 [|p1 [|p2 [|sgt [|]]]]] eqn:E3; try done.
  destruct (ok_or (parse_i 32 p0) _) as [a|] eqn:P0; [|done]. apply ok_or_Ok, parse_i_range in P0. cbn [mbind result_bind] in H.
  destruct (ok_or (parse_i 64 p1) _) as [b|] eqn:P1; [|done]. apply ok_or_Ok, parse_i_range in P1. cbn [mbind result_bind] in H.
  destruct (ok_or (parse_i 64 p2) _) as [c|] eqn:P2; [|done]. apply ok_or_Ok, parse_i_range in P2. cbn [mbind result_bind] in H.
  destruct (Z.ltb_spec c now); [done|]. cbv zeta in H.
  destruct (ok_or (b64_decode sgt) _) as [sg|] eqn:P3; [|done]. apply ok_or_Ok in P3. cbn [mbind result_bind] in H.
  destruct (decide (sg = _)) as [->|]; [|done]. injection H as <-. split; [done|]. split; [done|].
  by exists bs, text, [p0; p1; p2], sgt.
Qed.

Lemma decode_encoded (secret : str) (now : Z) (t : StreamTicket) : ticket_ok t ->
  decode secret now (encode secret t) = (if expires_at t <? now then Err (denied "Stream ticket has expired") else Ok t).
Proof.
  intros (H1 & H2 & H3). set (text := payload t ++ lit ":" ++ b64_encode (sign secret t)).
  assert (Forall (fun c => 33 <= c < 127) text) as Hv.
  { apply Forall_app. split; [apply payload_visible|]. change (lit ":") with [58]. apply Forall_cons. split; [lia|].
    eapply Forall_impl; [apply b64_plain|]. by intros c [Hc _]. }
  assert (Forall is_char text) as Hc by by apply visible_chars.
  unfold decode, encode. rewrite trim_no_ws.
  2: { eapply Forall_impl; [apply b64_plain|]. intros c [Hc' _]. by apply visible_not_ws. }
  fold text. rewrite b64_roundtrip.
  2: { apply as_bytes_byte. eapply Forall_impl; [exact Hc|]. by intros c [Hs _]. }
  cbn [ok_or mbind result_bind]. rewrite from_utf8_bytes by done. cbn [ok_or mbind result_bind].
  unfold text at 1. rewrite split_payload.
  2: { eapply Forall_impl; [apply b64_plain|]. by intros c [_ Hn]. }
  rewrite !parse_show_i by (done || lia). cbn [ok_or mbind result_bind]. case_match; [done|].
  cbv zeta. rewrite b64_roundtrip by apply hmac_bytes, payload_byte. cbn [ok_or mbind result_bind].
  destruct t as [a b c]. cbn. by rewrite decide_True.
Qed.

Lemma encode_nonempty (secret : str) (t : StreamTicket) : encode secret t <> [].
Proof.
  apply b64_nonempty. intros E. apply (f_equal length) in E.
  assert (length (payload t) <> 0%nat) as Hp.
  { unfold payload. change (lit ":") with [58]. rewrite !length_app. cbn [length]. lia. }
  destruct (payload t) as [|c text]; [done|]. cbn [app] in E. unfold as_bytes in E. cbn [fmap list_fmap concat] in E.
  rewrite length_app in E. pose proof (encode_utf8_length c) as L. pose proof (len_utf8_pos c). cbn in E. lia.
Qed.

Lemma ticketed_Ok (secret : str) (secs id : Z) (ticket : option str) (track : Z) : ticketed secret secs id ticket = Ok track ->
  exists s t, ticket = Some s /\ ticket_ok t /\ db_track_id t = id /\ secs <= expires_at t /\ carries s (sign secret t).
Proof.
  unfold ticketed. destruct ticket as [s|]; [|done]. case_decide; [done|]. cbn [ok_or mbind result_bind].
  unfold verify_stream_ticket. destruct (decode secret secs (trim s)) as [t|] eqn:E; [|done]. cbn [mbind result_bind].
  apply decode_Ok in E as (Hok & Hexp & bs & text & fields & sgt & E1 & Hc). rewrite trim_trim in E1.
  destruct (Z.eqb_spec id (db_track_id t)) as [->|]; [|done]. intros _. exists s, t. do 4 (split; [done|]). by exists bs, text, fields, sgt.
Qed.

(** Every refusal of a ticket is one of the client's. *)
Definition unauthorised {A} (r : result ServerError A) : Prop := forall e, r = Err e -> exists m, e = Auth.Unauthorized m.

Lemma unauthorised_or {A B} (o : option A) (m : string) (k : A -> result ServerError B) :
  (forall a, unauthorised (k a)) -> unauthorised (ok_or o (denied m) ≫= k).
Proof. intros Hk. destruct o; cbn; [apply Hk|]. intros e [= <-]. by eexists. Qed.

Lemma unauthorised_err {A} (m : string) : unauthorised (Err (denied m) : result ServerError A).
Proof. intros e [= <-]. by eexists. Qed.

Lemma decode_Err (secret : str) (now : Z) (s : str) : unauthorised (decode secret now s).
Proof.
  unfold decode. do 2 (apply unauthorised_or; intros ?).
  repeat case_match; try apply unauthorised_err.
  do 3 (apply unauthorised_or; intros ?). case_match; [apply unauthorised_err|].
  apply unauthorised_or. intros ?. case_match; [done|apply unauthorised_err].
Qed.

Lemma ticketed_Err (secret : str) (secs id : Z) (ticket : option str) (e : ServerError) : ticketed secret secs id ticket = Err e ->
  (into_response e).1.1 ∈ [400; 401; 403].
Proof.
  unfold ticketed. destruct ticket as [s|]; [|intros [= <-]; set_solver]. case_decide; [intros [= <-]; set_solver|].
  cbn [ok_or mbind result_bind]. unfold verify_stream_ticket.
  destruct (decode secret secs (trim s)) as [t|] eqn:E; cbn [mbind result_bind].
  - case_match; [|done]. intros [= <-]. set_solver.
  - intros [= <-]. apply decode_Err in E as [m ->]. set_solver.
Qed.

Lemma ticketed_issued (secret : str) (now secs id track user ttl : Z) :
  let t := new_ticket now track user ttl in ticket_ok t ->
  ticketed secret secs id (Some (create_stream_ticket secret now track user ttl)) =
    (if now + ttl <? secs then Err (denied "Stream ticket has expired")
     else if id =? track then Ok track else Err (Auth.Forbidden (lit "Ticket does not match requested track"))).
Proof.
  intros t Ht. set (s := create_stream_ticket secret now track user ttl).
  assert (Forall (fun c => is_whitespace c = false) s) as Hws.
  { eapply Forall_impl; [apply b64_plain|]. intros c [Hc _]. by apply visible_not_ws. }
  unfold ticketed. rewrite trim_no_ws by done. rewrite decide_False.
  2: { apply encode_nonempty. }
  cbn [ok_or mbind result_bind]. unfold verify_stream_ticket, s, create_stream_ticket. rewrite decode_encoded by done.
  change (expires_at (new_ticket now track user ttl)) with (now + ttl). case_match; [done|]. cbn. by destruct (id =? track).
Qed.

(** ** Properties *)

(** A ticket the server encodes is decoded to itself until the second it expires, and refused after. *)
Theorem ticket_roundtrip (secret : str) (now : Z) (t : StreamTicket) : ticket_ok t ->
  decode secret now (encode secret t) = (if expires_at t <? now then Err (denied "Stream ticket has expired") else Ok t).
Proof. apply decode_encoded. Qed.

(** C21: nothing is streamed without a ticket of the server: if the signatures a client can present under the
    key are those of the tickets that were issued, then a request shows a ticket issued for this very track
    that has not expired, or it is refused with 400, 401 or 403 and neither the workers nor the metadata of
    the engine are touched. *)
Theorem streamed_only_when_issued {C G : Type} {cache : MokaCache (Z * Z) TrackMediaMetadata C} {gate : WorkerGate G}
    find primary get to_server (secret : str) (issued : StreamTicket -> Prop)
    (secs now id : Z) (head : bool) (range_header ticket : option str) (io : server_io (C := C) (G := G)) :
  (forall t, issued t -> ticket_ok t) ->
  (forall s t, ticket = Some s -> carries s (sign secret t) -> exists t', issued t' /\ payload t' = payload t) ->
  (exists t, issued t /\ db_track_id t = id /\ secs <= expires_at t) \/
  (exists e, stream_handler find primary get to_server secret secs now id head range_header ticket io = (Err e, io) /\
     (into_response e).1.1 ∈ [400; 401; 403]).
Proof.
  intros Hok Hissued. unfold stream_handler.
  destruct (ticketed secret secs id ticket) as [track|e] eqn:E.
  - left. apply ticketed_Ok in E as (s & t & -> & Ht & Hid & Hexp & Hc).
    destruct (Hissued s t eq_refl Hc) as (t' & Hi & Hp). assert (t' = t) as -> by (apply payload_inj; auto).
    exists t. auto.
  - right. exists e. split; [done|]. by eapply ticketed_Err.
Qed.

(** A ticket that playback issued streams its track, by GET or HEAD and with any range, for two hours: the
    request is the engine's answer to the range; a second later it is refused with 401, and for another track
    with 403, and the engine is left alone. *)
Theorem issued_ticket_streams {C G : Type} {cache : MokaCache (Z * Z) TrackMediaMetadata C} {gate : WorkerGate G}
    find primary get to_server (secret : str) (issued_at : Z) (user : AuthedUser) (track : Z) (linked : bool)
    (codec : Codec) (media : result StreamError TrackMediaMetadata) (info : PlaybackInfo)
    (secs now id : Z) (head : bool) (range_header : option str) (io : server_io (C := C) (G := G)) :
  ticket_ok (new_ticket issued_at track (telegram_id user) TICKET_SECS) ->
  issue_playback_ticket secret issued_at user track (Ok linked) (Ok (Some codec)) media = Ok info ->
  linked = true /\
  exists ticket, stream_url info = url_of track ticket /\
    stream_handler find primary get to_server secret secs now id head range_header (Some ticket) io =
      (if issued_at + 7200 <? secs then (Err (denied "Stream ticket has expired"), io)
       else if id =? track then stream_audio_internal find primary get to_server now track head range_header io
       else (Err (Auth.Forbidden (lit "Ticket does not match requested track")), io)).
Proof.
  intros Ht H. unfold issue_playback_ticket in H. destruct linked; [|discriminate H]. cbn in H. injection H as <-. split; [done|].
  eexists. split; [reflexivity|]. unfold stream_handler. rewrite ticketed_issued by done.
  change (issued_at + TICKET_SECS) with (issued_at + 7200). destruct (_ <? secs).
  - reflexivity.
  - by destruct (id =? track).
Qed.
End Tickets.

(** ** Witnesses: letters for the halves of a byte, and a signature that is the message *)

Definition letters (b : Z) : str := [65 + b / 16; 65 + b mod 16].
Fixpoint of_letters (s : str) : option (list Z) :=
  match s with
  | [] => Some []
  | a :: b :: s => l ← of_letters s; Some ((a - 65) * 16 + (b - 65) :: l)
  | _ => None
  end.

Lemma of_letters_letters l : of_letters (concat (letters <$> l)) = Some l.
Proof.
  induction l as [|b l IH]; [done|]. cbn. rewrite IH. cbn. do 2 f_equal. pose proof (Z.div_mod b 16 ltac:(lia)). lia.
Qed.

Definition halve (l : list Z) : str := concat ((fun b => letters (b mod 256)) <$> l).

Lemma halve_roundtrip l : Forall (fun b => 0 <= b < 256) l -> of_letters (halve l) = Some l.
Proof.
  intros H. unfold halve. rewrite <-(of_letters_letters l). do 2 f_equal.
  induction H as [|b l Hb _ IH]; [done|]. cbn. rewrite IH, Z.mod_small by lia. done.
Qed.

Lemma halve_plain l : Forall (fun c => 33 <= c < 127 /\ c <> 58) (halve l).
Proof.
  induction l as [|b l IH]; [constructor|]. unfold halve in *. cbn. pose proof (Z.mod_pos_bound b 256 ltac:(lia)).
  pose proof (Z.mod_pos_bound (b mod 256) 16 ltac:(lia)). pose proof (Z.div_mod (b mod 256) 16 ltac:(lia)).
  repeat constructor; lia || done.
Qed.

Lemma halve_nonempty l : l <> [] -> halve l <> [].
Proof. by destruct l. Qed.

#[local] Instance demo_base64 : Base64 := Build_Base64 halve of_letters halve_roundtrip halve_plain halve_nonempty.
#[local] Instance demo_hmac : Signature := Build_Signature (fun _ m => m) (fun _ _ H => H).

Definition demo_ticket : StreamTicket := mkTicket 415 77 1007200.

Lemma demo_ticket_ok : ticket_ok demo_ticket.
Proof. unfold ticket_ok; cbn; lia. Qed.

Lemma ticket_roundtrip_witness :
  decode (lit "key") 1007200 (encode (lit "key") demo_ticket) = Ok demo_ticket /\
  decode (lit "key") 1007201 (encode (lit "key") demo_ticket) = Err (denied "Stream ticket has expired").
Proof.
  split.
  - exact (ticket_roundtrip (lit "key") 1007200 demo_ticket demo_ticket_ok).
  - exact (ticket_roundtrip (lit "key") 1007201 demo_ticket demo_ticket_ok).
Defined.

Definition demo_to_server (e : StreamError) : ServerError := Auth.Internal [].
Definition demo_io : server_io (C := gmap (Z * Z) TrackMediaMetadata) (G := breaker) := (demo_pool, demo_engine).

Lemma demo_signature (s : str) (t : StreamTicket) :
  Some (encode (lit "key") demo_ticket) = Some s -> carries s (sign (lit "key") t) -> exists t', t' = demo_ticket /\ payload t' = payload t.
Proof.
  intros [= <-] Hc. exists demo_ticket. split; [done|].
  assert (carries (encode (lit "key") demo_ticket) (sign (lit "key") demo_ticket)) as Hd.
  { apply (decode_Ok (lit "key") 0). by rewrite decode_encoded by apply demo_ticket_ok. }
  pose proof (carries_unique _ _ _ Hd Hc) as E. apply as_bytes_inj in E; [done|..];
    (eapply Forall_impl; [apply payload_visible|]; intros c Hv; cbn in Hv; unfold scalar; lia).
Qed.

Lemma streamed_only_when_issued_witness :
  (exists t, t = demo_ticket /\ db_track_id t = 1 /\ 1000000 <= expires_at t) \/
  (exists e, stream_handler demo_find None demo_get demo_to_server (lit "key") 1000000 0 1 false None
     (Some (encode (lit "key") demo_ticket)) demo_io = (Err e, demo_io) /\ (into_response e).1.1 ∈ [400; 401; 403]).
Proof.
  apply (streamed_only_when_issued demo_find None demo_get demo_to_server (lit "key") (fun t => t = demo_ticket) 1000000 0 1 false None
    (Some (encode (lit "key") demo_ticket)) demo_io); [by intros t ->; apply demo_ticket_ok|apply demo_signature].
Defined.

Lemma issued_ticket_streams_witness :
  exists info ticket, issue_playback_ticket (lit "key") 1000000 (mkAuthed 77 []) 1 (Ok true) (Ok (Some Alac)) (Ok demo_meta) = Ok info /\
    stream_url info = url_of 1 ticket /\
    stream_handler demo_find None demo_get demo_to_server (lit "key") 1007200 0 1 false None (Some ticket) demo_io =
      stream_audio_internal demo_find None demo_get demo_to_server 0 1 false None demo_io.
Proof.
  eexists. destruct (issued_ticket_streams demo_find None demo_get demo_to_server (lit "key") 1000000 (mkAuthed 77 []) 1 true
    Alac (Ok demo_meta) _ 1007200 0 1 false None demo_io ltac:(unfold ticket_ok, TICKET_SECS; cbn; unfold TICKET_SECS; lia) eq_refl) as (_ & ticket & Hu & Hs).
  exists ticket. split; [reflexivity|]. split; [exact Hu|]. exact Hs.
Defined.
