(* ===== verification/Lookup.v ===== *)
(** * Lookup: what of a request is in the cache (crates/server/src/lookup.rs)

    The identifiers of a request are cleaned, the rows of the three tables are joined with them, the sizes are
    asked of the stream engine, and an album's archive counts when all its parts are there.  The rows come as
    the repositories answer; the engine is that of StreamEngine.v. *)
From S2P Require Import Prelude Text Music StreamTypes ChunkCache StreamEngine Sessions Auth.
From stdpp Require Import sorting.

#[local] Open Scope Z_scope.

(** ** Rows and answers *)

(** What is looked at of a row of [albums]: one part of an archive. *)
Record Album := mkAlbum {
  al_id : Z; album_id : str; al_codec : Codec; part_index : Z; total_parts : Z; al_file_size : Z; generation_hash : str;
}.

Record TrackFormatResult := mkFormat { tf_id : Z; tf_format : str; tf_file_size_bytes : option Z }.
Record TrackLookupResult := mkTrackResult { apple_track_id : str; is_favorite : bool; formats : list TrackFormatResult }.
Record AlbumZipPartResult := mkZipPart { zp_id : Z; zp_format : str; zp_file_size_bytes : Z; zp_part : Z; zp_total_parts : Z }.
Record AlbumLookupResult := mkAlbumResult { apple_album_id : str; zip_available : bool; zip_formats : list AlbumZipPartResult }.
Record LookupResponse := mkLookupResponse { lr_tracks : list TrackLookupResult; lr_albums : list AlbumLookupResult }.

(** ** Identifiers *)

Definition blank_id (field : str) : ServerError := Auth.BadRequest (lit "IDs in '" ++ field ++ lit "' must not be empty").

Fixpoint normalize_loop (field : str) (seen : gset str) (unique_ids ids : list str) : result ServerError (list str) :=
  match ids with
  | [] => Ok unique_ids
  | id :: ids =>
      let id := trim id in
      if decide (id = []) then Err (blank_id field)
      else if decide (id ∈ seen) then normalize_loop field seen unique_ids ids
      else normalize_loop field ({[id]} ∪ seen) (unique_ids ++ [id]) ids
  end.

Definition normalize_ids (ids : option (list str)) (field : str) : result ServerError (list str) :=
  normalize_loop field ∅ [] (default [] ids).

(** ** Formats and parts *)

Definition apple_format (c : Codec) : option str :=
  match c with Alac => Some (lit "alac") | Aac => Some (lit "aac") | Ec3 => Some (lit "ec-3") end.

Definition format_order : list Codec := [Alac; Aac; Ec3].

Definition ordered_track_formats (formats : gmap Codec (Z * option Z)) : list TrackFormatResult :=
  omap (fun c => '(id, size) ← formats !! c; f ← apple_format c; Some (mkFormat id f size)) format_order.

(** [part_index.checked_sub(1)] at [i32], then [usize::try_from]. *)
Definition part_slot (p : Album) : option Z :=
  if (- 2 ^ 31 <=? part_index p - 1) && (0 <=? part_index p - 1) then Some (part_index p - 1) else None.

(** The loop over the parts; [None] is [return false]. *)
Fixpoint mark_parts (first : Album) (seen : list bool) (parts : list Album) : option (list bool) :=
  match parts with
  | [] => Some seen
  | p :: parts =>
      if negb (total_parts p =? total_parts first) || bool_decide (generation_hash p <> generation_hash first) then None
      else
        i ← part_slot p;
        marked ← get seen i;
        if (marked : bool) then None else mark_parts first (set_at seen i true) parts
  end.

Definition has_complete_archive_parts (parts : list Album) : bool :=
  match parts with
  | [] => false
  | first :: _ =>
      if (total_parts first <? 0) || (total_parts first =? 0) || negb (Z.of_nat (length parts) =? total_parts first) then false
      else match mark_parts first (replicate (Z.to_nat (total_parts first)) false) parts with
           | Some seen => forallb id seen
           | None => false
           end
  end.

Definition part_before (a b : Album) : Prop := part_index a <= part_index b.
#[global] Instance part_before_dec : RelDecision part_before := fun a b => decide (part_index a <= part_index b).

(** The parts of one codec, when they make a whole archive. *)
Definition complete_rendition (parts : list Album) (c : Codec) : option (list AlbumZipPartResult) :=
  let codec_parts := filter (fun p => al_codec p = c) parts in
  if negb (has_complete_archive_parts codec_parts) then None
  else
    format ← apple_format c;
    mapM (fun p => if al_file_size p <? 0 then None
                   else Some (mkZipPart (al_id p) format (al_file_size p) (part_index p) (total_parts p)))
         (merge_sort part_before codec_parts).

Definition complete_zip_parts (parts : list Album) : list AlbumZipPartResult := concat (omap (complete_rendition parts) format_order).

(** ** The handler *)

Section Handler.
Context {C : Type} {cache : MokaCache (Z * Z) TrackMediaMetadata C}.
Context (find_track_by_id : nat -> Z -> result StreamError (option track_row))
  (primary_get_messages : option (nat -> Z -> result StreamError (list (option document))))
  (get_messages_for_worker : nat -> Z -> Z -> result StreamError (list (option document))).

#[local] Abbreviation track_formats := (gmap str (gmap Codec (Z * option Z))).

(** The sizes, row by row; a row of the same track and codec replaces an earlier one. *)
Fixpoint collect_formats (rows : list (Z * str * Codec)) (acc : track_formats) (e : engine (C := C)) : track_formats * engine (C := C) :=
  match rows with
  | [] => (acc, e)
  | (db_track_id, track_id, codec) :: rows =>
      match apple_format codec with
      | None => collect_formats rows acc e
      | Some _ =>
          let '(media, e) := resolve_track_media find_track_by_id primary_get_messages get_messages_for_worker db_track_id false e in
          collect_formats rows (<[track_id := <[codec := (db_track_id, file_size <$> ok media)]> (default ∅ (acc !! track_id))]> acc) e
      end
  end.

Fixpoint track_results (favorites : list str) (ids : list str) (formats : track_formats) : list TrackLookupResult :=
  match ids with
  | [] => []
  | id :: ids =>
      mkTrackResult id (bool_decide (id ∈ favorites)) (match formats !! id with Some f => ordered_track_formats f | None => [] end)
        :: track_results favorites ids (delete id formats)
  end.

Definition group_albums (rows : list Album) : gmap str (list Album) :=
  foldl (fun m part => <[album_id part := default [] (m !! album_id part) ++ [part]]> m) ∅ rows.

Definition album_result (grouped : gmap str (list Album)) (id : str) : AlbumLookupResult :=
  let zip_formats := match grouped !! id with Some parts => complete_zip_parts parts | None => [] end in
  mkAlbumResult id (negb (bool_decide (zip_formats = []))) zip_formats.

Definition no_ids : ServerError := Auth.BadRequest (lit "At least one ID is required in 'track_ids' or 'album_ids'").

(** [joined] is the answer of the three queries together, for the cleaned identifiers. *)
Definition lookup (track_ids album_ids : option (list str))
    (joined : list str -> list str -> result ServerError (list (Z * str * Codec) * list str * list Album))
    (e : engine (C := C)) : result ServerError LookupResponse * engine (C := C) :=
  match (track_ids ← normalize_ids track_ids (lit "track_ids"); album_ids ← normalize_ids album_ids (lit "album_ids"); Ok (track_ids, album_ids)) with
  | Err error => (Err error, e)
  | Ok (track_ids, album_ids) =>
      if decide (track_ids = [] /\ album_ids = []) then (Err no_ids, e)
      else
        match joined track_ids album_ids with
        | Err error => (Err error, e)
        | Ok (track_rows, favorites, album_rows) =>
            let '(formats, e) := collect_formats track_rows ∅ e in
            (Ok (mkLookupResponse (track_results favorites track_ids formats) (album_result (group_albums album_rows) <$> album_ids)), e)
        end
  end.
End Handler.

(** ** Lemmas *)

(** First occurrences, in order. *)
Fixpoint uniques (seen : list str) (ids : list str) : list str :=
  match ids with
  | [] => []
  | id :: ids => if decide (id ∈ seen) then uniques seen ids else id :: uniques (id :: seen) ids
  end.

Lemma uniques_spec ids : forall seen, NoDup (uniques seen ids) /\ forall x, x ∈ uniques seen ids <-> x ∈ ids /\ x ∉ seen.
Proof.
  induction ids as [|id ids IH]; intros seen; cbn [uniques]; [split; [constructor|set_solver]|].
  destruct (decide (id ∈ seen)) as [Hs|Hs]; [destruct (IH seen) as [H1 H2]|destruct (IH (id :: seen)) as [H1 H2]].
  - split; [done|]. intros x. rewrite H2. set_solver.
  - split; [constructor; [rewrite H2; set_solver|done]|]. intros x. rewrite elem_of_cons, H2. destruct (decide (x = id)); set_solver.
Qed.

Lemma normalize_loop_spec field ids : forall seen acc, normalize_loop field (list_to_set seen) acc ids =
  (if decide ([] ∈ trim <$> ids) then Err (blank_id field) else Ok (acc ++ uniques seen (trim <$> ids))).
Proof.
  induction ids as [|id ids IH]; intros seen acc; cbn [normalize_loop fmap list_fmap uniques].
  { rewrite decide_False by set_solver. by rewrite app_nil_r. }
  destruct (decide (trim id = [])) as [E|E]; [rewrite decide_True by set_solver; done|].
  assert (Hiff : [] ∈ trim id :: (trim <$> ids) <-> [] ∈ trim <$> ids) by (rewrite elem_of_cons; naive_solver).
  destruct (decide (trim id ∈ list_to_set (C := gset str) seen)) as [Hs|Hs].
  - rewrite IH, (decide_ext _ _ _ _ Hiff). case_decide; [done|]. rewrite elem_of_list_to_set in Hs. by rewrite decide_True.
  - change ({[trim id]} ∪ list_to_set (C := gset str) seen) with (list_to_set (C := gset str) (trim id :: seen)).
    rewrite IH, (decide_ext _ _ _ _ Hiff). case_decide; [done|]. rewrite elem_of_list_to_set in Hs. rewrite decide_False by done.
    by rewrite <-app_assoc.
Qed.

Lemma normalize_Ok ids field l : normalize_ids ids field = Ok l -> l = uniques [] (trim <$> default [] ids) /\ [] ∉ l.
Proof.
  unfold normalize_ids. change (∅ : gset str) with (list_to_set (C := gset str) []). rewrite normalize_loop_spec. case_decide as H; [done|].
  intros [= <-]. split; [done|]. cbn. destruct (uniques_spec (trim <$> default [] ids) []) as [_ Hu]. rewrite Hu. naive_solver.
Qed.

(** The parts that were marked. *)
Definition slot_ok (first p : Album) (n : nat) : Prop :=
  total_parts p = total_parts first /\ generation_hash p = generation_hash first /\ 1 <= part_index p <= Z.of_nat n.

Lemma part_slot_Some p i : part_slot p = Some i <-> i = part_index p - 1 /\ 1 <= part_index p.
Proof.
  unfold part_slot. split.
  - case_match; [|done]. intros [= <-]. to_prop. lia.
  - intros [-> H]. rewrite !(proj2 (Z.leb_le _ _)) by lia. done.
Qed.

Lemma mark_parts_spec first parts : forall seen,
  (exists seen', mark_parts first seen parts = Some seen' /\ length seen' = length seen /\
     forall i, get seen' i = Some true <-> get seen i = Some true \/ i + 1 ∈ part_index <$> parts) /\
  Forall (fun p => slot_ok first p (length seen)) parts /\ NoDup (part_index <$> parts) /\
  Forall (fun p => get seen (part_index p - 1) = Some false) parts \/
  mark_parts first seen parts = None /\
  ~ (Forall (fun p => slot_ok first p (length seen)) parts /\ NoDup (part_index <$> parts) /\
     Forall (fun p => get seen (part_index p - 1) = Some false) parts).
Proof.
  induction parts as [|p parts IH]; intros seen; cbn [mark_parts].
  { left. split; [|repeat split; constructor]. exists seen. do 2 (split; [done|]). intros i. cbn. set_solver. }
  destruct (Z.eqb_spec (total_parts p) (total_parts first)) as [Et|Et]; cbn [negb orb].
  2: { right. split; [done|]. intros (H & _). apply Forall_cons in H as [H _]. by destruct H. }
  case_bool_decide as Eg.
  { right. split; [done|]. intros (H & _). apply Forall_cons in H as [H _]. by destruct H as (_ & ? & _). }
  destruct (part_slot p) as [i|] eqn:Es; cbn [mbind option_bind].
  2: { right. split; [done|]. intros (H & _). apply Forall_cons in H as [(_ & _ & H) _].
       assert (part_slot p = Some (part_index p - 1)) as E by (apply part_slot_Some; lia). congruence. }
  apply part_slot_Some in Es as [-> Hi].
  destruct (get seen (part_index p - 1)) as [b|] eqn:Eb; cbn [mbind option_bind].
  2: { right. split; [done|]. intros (_ & _ & H). apply Forall_cons in H as [H _]. congruence. }
  pose proof (get_range _ _ _ Eb) as Hr. destruct b.
  { right. split; [done|]. intros (_ & _ & H). apply Forall_cons in H as [H _]. congruence. }
  assert (Hset : forall j, get (set_at seen (part_index p - 1) true) j = if j =? part_index p - 1 then Some true else get seen j).
  { intros j. destruct (Z.eqb_spec j (part_index p - 1)) as [->|Hne]; [by apply get_set_at_eq|by apply get_set_at_ne]. }
  destruct (IH (set_at seen (part_index p - 1) true)) as [((seen' & E1 & E2 & E3) & H1 & H2 & H3)|[E Hn]].
  - rewrite set_at_length in *. left. split.
    + exists seen'. do 2 (split; [done|]). intros j. rewrite E3, Hset, fmap_cons, elem_of_cons.
      destruct (Z.eqb_spec j (part_index p - 1)); [subst; split; [|naive_solver]; intros _; right; left; lia|].
      split; [naive_solver|]. intros [?|[?|?]]; [by left|lia|by right].
    + rewrite Forall_cons. split; [split; [|done]; split_and!; [done..|lia|lia]|]. split.
      * cbn. constructor; [|done]. intros (q & Hq & Hin)%list_elem_of_fmap. rewrite Forall_forall in H3. specialize (H3 q Hin).
        rewrite Hset in H3. rewrite <-Hq, Z.eqb_refl in H3. done.
      * constructor; [done|]. eapply Forall_impl; [exact H3|]. intros q Hq. cbn in Hq. rewrite Hset in Hq. case_match; [done|exact Hq].
  - rewrite set_at_length in *. right. split; [done|]. intros (H1 & H2 & H3). apply Hn. apply Forall_cons in H1 as [_ H1].
    rewrite fmap_cons in H2. apply NoDup_cons in H2 as [Hnot H2]. apply Forall_cons in H3 as [_ H3]. split; [done|]. split; [done|].
    rewrite Forall_forall in *. intros q Hq. rewrite Hset. destruct (Z.eqb_spec (part_index q - 1) (part_index p - 1)) as [Eq|]; [|by apply H3].
    destruct Hnot. apply list_elem_of_fmap. exists q. split; [lia|done].
Qed.

Lemma get_replicate {A} (a : A) n i : get (replicate n a) i = if (0 <=? i) && (i <? Z.of_nat n) then Some a else None.
Proof.
  destruct (Z.leb_spec 0 i); cbn [andb].
  - rewrite get_lookup by lia. destruct (Z.ltb_spec i (Z.of_nat n)); [apply lookup_replicate_2; lia|]. apply lookup_replicate_None. lia.
  - destruct (get (replicate n a) i) as [x|] eqn:E; [|done]. apply get_range in E. lia.
Qed.

Lemma forallb_id_get (l : list bool) : forallb id l = true <-> forall i, 0 <= i < Z.of_nat (length l) -> get l i = Some true.
Proof.
  rewrite forallb_forall. split.
  - intros H i Hi. destruct (get l i) as [b|] eqn:E; [|apply get_Some_iff in Hi as [? ?]; congruence].
    f_equal. apply (H b). rewrite get_lookup in E by lia. apply list_elem_of_lookup_2 in E. by apply list_elem_of_In.
  - intros H b Hb. apply list_elem_of_In, list_elem_of_lookup in Hb as [k Hk]. specialize (H (Z.of_nat k)).
    rewrite get_lookup, Nat2Z.id in H by lia. apply lookup_lt_Some in Hk as Hl. rewrite H in Hk by lia. by injection Hk as <-.
Qed.

(** What makes the parts a whole archive. *)
Definition whole_archive (parts : list Album) : Prop :=
  exists n gen, 0 < n /\ part_index <$> parts ≡ₚ seqZ 1 n /\ Forall (fun p => total_parts p = n /\ generation_hash p = gen) parts.

Lemma complete_whole parts : has_complete_archive_parts parts = true <-> whole_archive parts.
Proof.
  destruct parts as [|first rest].
  { split; [done|]. intros (n & gen & Hn & Hp & _). apply Permutation_length in Hp. rewrite length_seqZ in Hp. cbn in Hp. lia. }
  set (parts := first :: rest). unfold has_complete_archive_parts, parts at 1. fold parts.
  destruct (mark_parts_spec first parts (replicate (Z.to_nat (total_parts first)) false))
    as [((seen' & E1 & E2 & E3) & H1 & H2 & H3)|[E Hn]]; rewrite length_replicate in *.
  - rewrite E1. destruct (Z.ltb_spec (total_parts first) 0), (Z.eqb_spec (total_parts first) 0), (Z.eqb_spec (Z.of_nat (length parts)) (total_parts first));
      cbn [orb negb].
    7: { split; [intros _|intros _; apply forallb_id_get].
      - exists (total_parts first), (generation_hash first). split; [lia|]. split.
        + apply submseteq_length_Permutation; [|rewrite length_seqZ, length_fmap; lia]. apply NoDup_submseteq; [done|].
          intros x (p & -> & Hp)%list_elem_of_fmap. rewrite Forall_forall in H1. destruct (H1 p Hp) as (_ & _ & Hx). apply elem_of_seqZ. lia.
        + eapply Forall_impl; [exact H1|]. intros p (Ht & Hg & _). done.
      - intros i Hi. apply E3. right. assert (part_index <$> parts ≡ₚ seqZ 1 (total_parts first)) as ->; [|apply elem_of_seqZ; lia].
        apply submseteq_length_Permutation; [|rewrite length_seqZ, length_fmap; lia]. apply NoDup_submseteq; [done|].
        intros x (p & -> & Hp)%list_elem_of_fmap. rewrite Forall_forall in H1. destruct (H1 p Hp) as (_ & _ & Hx). apply elem_of_seqZ. lia. }
    all: split; [done|]; intros (n' & gen & Hn' & Hp & Hf); apply Forall_cons in Hf as [[Hf _] _];
      apply Permutation_length in Hp; rewrite length_fmap, length_seqZ in Hp; lia.
  - rewrite E. split; [repeat case_match; done|]. intros (n & gen & Hn' & Hp & Hf). destruct Hn.
    assert (Hfirst : total_parts first = n /\ generation_hash first = gen) by (by apply Forall_cons in Hf as [? _]).
    destruct Hfirst as [Hft Hfg]. assert (Hidx : forall p, p ∈ parts -> 1 <= part_index p <= n).
    { intros p Hin. assert (part_index p ∈ seqZ 1 n) as Hz by (rewrite <-Hp; apply list_elem_of_fmap; eauto). apply elem_of_seqZ in Hz. lia. }
    rewrite Forall_forall in Hf. split; [|split].
    + apply Forall_forall. intros p Hin. destruct (Hf p Hin). specialize (Hidx p Hin). unfold slot_ok. rewrite Z2Nat.id by lia. split; [congruence|]. split; [congruence|lia].
    + rewrite Hp. apply NoDup_seqZ.
    + apply Forall_forall. intros p Hin. specialize (Hidx p Hin). rewrite get_replicate, Z2Nat.id by lia.
      by rewrite (proj2 (Z.leb_le _ _)), (proj2 (Z.ltb_lt _ _)) by lia.
Qed.

#[global] Instance part_before_total : Total part_before.
Proof. intros a b. unfold part_before. lia. Qed.

Lemma sorted_parts parts n : part_index <$> parts ≡ₚ seqZ 1 n -> part_index <$> merge_sort part_before parts = seqZ 1 n.
Proof.
  intros Hp. apply (Sorted_unique Z.le).
  - assert (forall l, Sorted part_before l -> Sorted Z.le (part_index <$> l)) as Hmap.
    { induction 1 as [|p l _ IH Hd]; [constructor|]. cbn. constructor; [done|]. destruct Hd; constructor. done. }
    apply Hmap, Sorted_merge_sort. apply _.
  - assert (forall k m, Sorted Z.le (seqZ m (Z.of_nat k))) as Hs.
    { induction k as [|k IH]; intros m; [rewrite seqZ_nil by lia; constructor|]. rewrite seqZ_cons by lia.
      replace (Z.pred (Z.of_nat (S k))) with (Z.of_nat k) by lia. constructor; [apply IH|].
      destruct k; [rewrite seqZ_nil by lia; constructor|]. rewrite seqZ_cons by lia. constructor. lia. }
    destruct (decide (0 <= n)); [|rewrite seqZ_nil by lia; constructor]. rewrite <-(Z2Nat.id n) by lia. apply Hs.
  - by rewrite merge_sort_Permutation.
Qed.

Lemma rendition_parts parts c : let mine := filter (fun p => al_codec p = c) parts in
  (zp_part <$> default [] (complete_rendition parts c)) =
  (if has_complete_archive_parts mine && forallb (fun p => 0 <=? al_file_size p) mine then seqZ 1 (Z.of_nat (length mine)) else []) /\
  Forall (fun z => Some (zp_format z) = apple_format c /\ zp_total_parts z = Z.of_nat (length mine) /\ 0 <= zp_file_size_bytes z) (default [] (complete_rendition parts c)).
Proof.
  intros mine. unfold complete_rendition. fold mine. destruct (has_complete_archive_parts mine) eqn:E; cbn [negb andb]; [|by split].
  apply complete_whole in E as (n & gen & Hn & Hp & Hf).
  assert (Hlen : Z.of_nat (length mine) = n) by (apply Permutation_length in Hp; rewrite length_fmap, length_seqZ in Hp; lia).
  rewrite Hlen. destruct (apple_format c) as [f|] eqn:Ef; [|by destruct c]. cbn [mbind option_bind].
  assert (forall l, Forall (fun p => total_parts p = n /\ generation_hash p = gen) l ->
    match mapM (fun p => if al_file_size p <? 0 then None else Some (mkZipPart (al_id p) f (al_file_size p) (part_index p) (total_parts p))) l with
    | Some out => forallb (fun p => 0 <=? al_file_size p) l = true /\ zp_part <$> out = part_index <$> l /\
        Forall (fun z => zp_format z = f /\ zp_total_parts z = n /\ 0 <= zp_file_size_bytes z) out
    | None => forallb (fun p => 0 <=? al_file_size p) l = false
    end) as Hmap.
  { induction 1 as [|p l [Ht _] _ IH]; [by split_and!|]. cbn [mapM forallb]. destruct (Z.ltb_spec (al_file_size p) 0).
    { cbn. by rewrite (proj2 (Z.leb_gt _ _)). }
    rewrite (proj2 (Z.leb_le _ _)) by lia. cbn [mbind option_bind andb]. destruct (mapM _ l) as [out|]; [|done].
    destruct IH as (IH1 & IH2 & IH3). cbn. split; [done|]. split; [by f_equal|]. by constructor. }
  specialize (Hmap (merge_sort part_before mine) ltac:(by rewrite merge_sort_Permutation)).
  assert (forallb (fun p => 0 <=? al_file_size p) (merge_sort part_before mine) = forallb (fun p => 0 <=? al_file_size p) mine) as Hperm.
  { apply eq_true_iff_eq. rewrite !forallb_forall. pose proof (merge_sort_Permutation part_before mine) as Hs.
    split; intros H x Hx; apply H; (eapply Permutation_in; [|exact Hx]); done. }
  rewrite Hperm in Hmap. destruct (mapM _ _) as [out|].
  - destruct Hmap as (H1 & H2 & H3). rewrite H1. cbn [default from_option id]. rewrite H2. split; [by apply sorted_parts|].
    eapply Forall_impl; [exact H3|]. intros z (Hz & ? & ?). split; [congruence|done].
  - rewrite Hmap. by split.
Qed.

(** The row that is shown for a track and a codec: the last one. *)
Definition latest (t : str) (c : Codec) (rows : list (Z * str * Codec)) (start : option Z) : option Z :=
  foldl (fun acc '(id, t', c') => if decide (t' = t /\ c' = c) then Some id else acc) start rows.

Definition cleaned (ids : option (list str)) : list str := uniques [] (trim <$> default [] ids).

Section Facts.
Context {C : Type} {cache : MokaCache (Z * Z) TrackMediaMetadata C}.
Context (find : nat -> Z -> result StreamError (option track_row)) (primary : option (nat -> Z -> result StreamError (list (option document))))
  (get_for : nat -> Z -> Z -> result StreamError (list (option document))).

Definition row_id (m : gmap str (gmap Codec (Z * option Z))) (t : str) (c : Codec) : option Z := f ← m !! t; p ← f !! c; Some (fst (p : Z * option Z)).

Lemma collect_formats_spec rows : forall acc (e : engine (C := C)) t c,
  row_id (collect_formats find primary get_for rows acc e).1 t c = latest t c rows (row_id acc t c).
Proof.
  induction rows as [|[[id t'] c'] rows IH]; intros acc e t c; [done|]. cbn [collect_formats].
  destruct (apple_format c') as [f|] eqn:E; [|by destruct c']. destruct (resolve_track_media _ _ _ _ _ _) as [media e1].
  rewrite IH. unfold latest. cbn [foldl]. f_equal. unfold row_id.
  destruct (decide (t' = t)) as [->|Ht].
  - rewrite lookup_insert_eq. cbn. destruct (decide (c' = c)) as [->|Hc].
    + rewrite lookup_insert_eq, decide_True by done. done.
    + rewrite lookup_insert_ne, decide_False by naive_solver. destruct (acc !! t); cbn; [done|by rewrite lookup_empty].
  - rewrite lookup_insert_ne, decide_False by naive_solver. done.
Qed.

Lemma track_results_eq favorites ids : forall m, NoDup ids ->
  track_results favorites ids m =
    (fun id => mkTrackResult id (bool_decide (id ∈ favorites)) (match m !! id with Some f => ordered_track_formats f | None => [] end)) <$> ids.
Proof.
  induction ids as [|id ids IH]; intros m H; cbn; [done|]. apply NoDup_cons in H as [Hid H]. f_equal. rewrite IH by done.
  apply list_fmap_ext. intros i x Hx. f_equal. rewrite lookup_delete_ne; [done|]. intros ->. by apply list_elem_of_lookup_2 in Hx.
Qed.

Lemma ordered_formats_ids m t :
  (fun f => (tf_id f, tf_format f)) <$> (match m !! t with Some f => ordered_track_formats f | None => [] end) =
  omap (fun c => id ← row_id m t c; f ← apple_format c; Some (id, f)) format_order.
Proof.
  unfold ordered_track_formats, row_id, format_order. destruct (m !! t) as [f|]; cbn; [|done].
  destruct (f !! Alac) as [[? ?]|], (f !! Aac) as [[? ?]|], (f !! Ec3) as [[? ?]|]; done.
Qed.

Lemma group_albums_spec rows id : default [] (group_albums rows !! id) = filter (fun p => album_id p = id) rows.
Proof.
  unfold group_albums. assert (forall m, default [] (foldl (fun m part => <[album_id part := default [] (m !! album_id part) ++ [part]]> m) m rows !! id) =
    default [] ((m : gmap str (list Album)) !! id) ++ filter (fun p => album_id p = id) rows) as H; [|by rewrite H, lookup_empty].
  induction rows as [|p rows IH]; intros m; cbn [foldl]; [by rewrite app_nil_r|]. rewrite IH, filter_cons.
  destruct (decide (album_id p = id)) as [<-|Hne].
  - rewrite lookup_insert_eq. cbn. by rewrite <-app_assoc.
  - by rewrite lookup_insert_ne.
Qed.

Lemma album_result_eq rows id : album_result (group_albums rows) id =
  let zips := complete_zip_parts (filter (fun p => album_id p = id) rows) in mkAlbumResult id (negb (bool_decide (zips = []))) zips.
Proof.
  unfold album_result. rewrite <-group_albums_spec. by destruct (group_albums rows !! id).
Qed.

Lemma normalize_Err ids field e : normalize_ids ids field = Err e -> e = blank_id field /\ [] ∈ trim <$> default [] ids.
Proof.
  unfold normalize_ids. change (∅ : gset str) with (list_to_set (C := gset str) []). rewrite normalize_loop_spec. case_decide; [|done]. by intros [= <-].
Qed.
End Facts.

(** ** Properties *)

(** C22: an archive is taken for whole exactly when its parts are numbered from one to their number, each once, and
    all say that number and the same generation. *)
Theorem archive_complete_iff (parts : list Album) :
  has_complete_archive_parts parts = true <->
  exists n gen, 0 < n /\ part_index <$> parts ≡ₚ seqZ 1 n /\ Forall (fun p => total_parts p = n /\ generation_hash p = gen) parts.
Proof. apply complete_whole. Qed.

(** What is offered of an album in one codec is a whole archive in the order of its parts, or nothing. *)
Theorem zip_parts_in_order (parts : list Album) (c : Codec) :
  let mine := filter (fun p => al_codec p = c) parts in
  filter (fun z => Some (zp_format z) = apple_format c) (complete_zip_parts parts) = default [] (complete_rendition parts c) /\
  zp_part <$> default [] (complete_rendition parts c) =
    (if has_complete_archive_parts mine && forallb (fun p => 0 <=? al_file_size p) mine then seqZ 1 (Z.of_nat (length mine)) else []).
Proof.
  intros mine. split; [|apply (proj1 (rendition_parts parts c))].
  assert (forall c', filter (fun z => Some (zp_format z) = apple_format c) (default [] (complete_rendition parts c')) =
    if decide (c' = c) then default [] (complete_rendition parts c) else []) as Hf.
  { intros c'. destruct (rendition_parts parts c') as [_ H]. case_decide as Hc; [subst c'|].
    - induction H as [|z l [Hz _] _ IH]; [done|]. rewrite filter_cons, decide_True by done. by f_equal.
    - induction H as [|z l [Hz _] _ IH]; [done|]. rewrite filter_cons, decide_False; [done|]. rewrite Hz. by destruct c, c'. }
  assert (complete_zip_parts parts = default [] (complete_rendition parts Alac) ++ default [] (complete_rendition parts Aac) ++ default [] (complete_rendition parts Ec3)) as ->.
  { unfold complete_zip_parts, format_order. cbn.
    destruct (complete_rendition parts Alac), (complete_rendition parts Aac), (complete_rendition parts Ec3); cbn; by rewrite ?app_nil_r. }
  rewrite !filter_app, !Hf. destruct c; cbn; by rewrite ?app_nil_r.
Qed.

(** Every request is answered: with 400 when an identifier is blank or there is none, with the error of the
    queries, or with one entry for each distinct identifier in the order of its first appearance — the formats of
    a track from its last rows, best first, and an album's whole archives. *)
Theorem lookup_answers {C : Type} {cache : MokaCache (Z * Z) TrackMediaMetadata C} find primary get_for
    (track_ids album_ids : option (list str)) joined (e : engine (C := C)) :
  let ts := cleaned track_ids in let als := cleaned album_ids in
  match lookup find primary get_for track_ids album_ids joined e with
  | (Err x, e') => e' = e /\
      ((into_response x).1.1 = 400 /\ ([] ∈ trim <$> default [] track_ids ++ default [] album_ids \/ ts = [] /\ als = []) \/ joined ts als = Err x)
  | (Ok r, _) => NoDup ts /\ NoDup als /\ exists rows favorites parts, joined ts als = Ok (rows, favorites, parts) /\
      Forall2 (fun t x => apple_track_id x = t /\ is_favorite x = bool_decide (t ∈ favorites) /\
        (fun f => (tf_id f, tf_format f)) <$> formats x =
          omap (fun c => id ← latest t c rows None; f ← apple_format c; Some (id, f)) format_order) ts (lr_tracks r) /\
      lr_albums r = (fun a => let zips := complete_zip_parts (filter (fun p => album_id p = a) parts) in
                              mkAlbumResult a (negb (bool_decide (zips = []))) zips) <$> als
  end.
Proof.
  intros ts als. unfold lookup.
  destruct (normalize_ids track_ids _) as [l|x] eqn:E1; cbn [mbind result_bind].
  2: { apply normalize_Err in E1 as [-> H]. split; [done|]. left. split; [done|]. left. rewrite fmap_app. set_solver. }
  destruct (normalize_ids album_ids _) as [l'|x] eqn:E2; cbn [mbind result_bind].
  2: { apply normalize_Err in E2 as [-> H]. split; [done|]. left. split; [done|]. left. rewrite fmap_app. set_solver. }
  apply normalize_Ok in E1 as [-> _], E2 as [-> _]. fold (cleaned track_ids) (cleaned album_ids) ts als.
  case_decide as Hnone; [split; [done|]; left; split; [done|by right]|].
  destruct (joined ts als) as [[[rows favorites] parts]|x] eqn:Ej; [|split; [done|by right]].
  pose proof (collect_formats_spec find primary get_for rows ∅ e) as Hc.
  destruct (collect_formats _ _ _ _ _ _) as [m e1]. cbn [fst] in Hc.
  assert (Hts : NoDup ts) by apply uniques_spec. split; [done|]. split; [apply uniques_spec|].
  exists rows, favorites, parts. split; [done|]. cbn [lr_tracks lr_albums]. split.
  - rewrite track_results_eq by done. apply Forall2_fmap_r, Forall_Forall2_diag, Forall_forall. intros t _. cbn [apple_track_id is_favorite formats].
    split; [done|]. split; [done|]. etransitivity; [exact (ordered_formats_ids m t)|]. unfold format_order. cbn [omap list_omap]. by rewrite !Hc.
  - apply list_fmap_ext. intros i a _. by rewrite album_result_eq.
Qed.
