(* ===== verification/BotText.v ===== *)
(** * BotText: the texts the bot writes and reads back (crates/bot/src/html.rs, caption.rs, main.rs)

    A job's header is HTML written by the orchestrator (JobResolve.v, [job_header]); the bot's event handler
    strips the tags, undoes the entities and cuts the text into title and artist.  Entities are undone here with
    the scanner of html.rs. *)
From S2P Require Import Prelude Text Captions JobResolve.

(** ** html.rs *)

(** The characters that a final message does not keep. *)
Definition decorations : list rchar :=
  [9989; 10060; 9888; 127925; 127911; 128192; 128193; 128202; 128260; 9203; 128465; 128269; 127922; 128190; 128229; 128228;
   128279; 128736; 9881; 8505; 128683; 128075; 128293; 128191; 128203; 129529; 128466; 128994; 128308; 128993; 128233; 127955;
   9889; 127760; 128161; 128680; 9986; 127991; 9997; 128721; 128225; 128281; 11013; 128073; 128640; 128189; 127380; 128421;
   128274; 9940; 65039].
Definition parse_dynamic_html (content : str) : str := filter (fun ch => ch ∉ decorations) content.

(** [u32::from_str_radix(s, 16)]. *)
Definition hex_value (c : rchar) : option Z :=
  if is_ascii_digit c then Some (c - 48)
  else if (97 <=? c) && (c <=? 102) then Some (c - 87)
  else if (65 <=? c) && (c <=? 70) then Some (c - 55)
  else None.
Fixpoint hex_digits (acc : Z) (s : str) : option Z :=
  match s with
  | [] => Some acc
  | c :: s => d ← hex_value c; if acc * 16 + d <? 2 ^ 32 then hex_digits (acc * 16 + d) s else None
  end.
Definition from_str_radix_16 (s : str) : option Z :=
  match s with [] => None | [43] => None | 43 :: s => hex_digits 0 s | _ => hex_digits 0 s end.

Definition from_u32 (code : Z) : option rchar :=
  if (code <? 1114112) && negb ((55296 <=? code) && (code <? 57344)) then Some code else None.

(** The scan of one entity, after the ampersand: its name, what is left, and whether the semicolon was met. *)
Fixpoint scan_entity (entity s : str) : str * str * bool :=
  match s with
  | [] => (entity, [], false)
  | c :: rest =>
      if c =? 59 then (entity, rest, true)
      else if (c =? 38) || is_whitespace c || (10 <? byte_len entity) then (entity, s, false)
      else scan_entity (entity ++ [c]) rest
  end.

Definition kept_entity (entity : str) : str := 38 :: entity ++ [59].
Definition or_kept (entity : str) (code : option Z) : str :=
  match code ≫= from_u32 with Some c => [c] | None => kept_entity entity end.

Definition decode_name (entity : str) : str :=
  if decide (entity = lit "amp") then [38]
  else if decide (entity = lit "lt") then [60]
  else if decide (entity = lit "gt") then [62]
  else if decide (entity = lit "quot") then [34]
  else if decide (entity = lit "apos" \/ entity = lit "#39") then [39]
  else match entity with
       | 35 :: 120 :: digits => or_kept entity (from_str_radix_16 digits)
       | 35 :: 88 :: digits => or_kept entity (from_str_radix_16 digits)
       | 35 :: digits => or_kept entity (parse_u 32 digits)
       | _ => kept_entity entity
       end.

(** Every turn consumes a character: the length is fuel enough. *)
Fixpoint unescape_loop (fuel : nat) (s : str) : str :=
  match fuel, s with
  | S f, c :: rest =>
      if c =? 38 then
        let '(entity, rest, matched) := scan_entity [] rest in
        (if matched then decode_name entity else 38 :: entity) ++ unescape_loop f rest
      else c :: unescape_loop f rest
  | _, _ => []
  end.

Definition unescape (value : str) : str := if decide (38 ∈ value) then unescape_loop (length value) value else value.

(** ** main.rs *)

(** [str::split_whitespace]. *)
Fixpoint split_words (word s : str) : list str :=
  match s with
  | [] => if decide (word = []) then [] else [word]
  | c :: rest =>
      if is_whitespace c then (if decide (word = []) then split_words [] rest else word :: split_words [] rest)
      else split_words (word ++ [c]) rest
  end.
Definition split_whitespace (s : str) : list str := split_words [] s.

(** [join(" ")]. *)
Fixpoint join_words (ws : list str) : str :=
  match ws with [] => [] | [w] => w | w :: ws => w ++ 32 :: join_words ws end.

Fixpoint strip_tags (in_tag : bool) (s : str) : str :=
  match s with
  | [] => []
  | c :: s => if c =? 60 then strip_tags true s else if c =? 62 then strip_tags false s
              else if in_tag then strip_tags in_tag s else c :: strip_tags in_tag s
  end.

Definition plain_job_title (value : str) : str := unescape (join_words (split_whitespace (strip_tags false value))).

(** [str::split_once] of a text. *)
Fixpoint split_once_str (p s : str) : option (str * str) :=
  match strip_prefix p s with
  | Some rest => Some ([], rest)
  | None => match s with [] => None | c :: s => '(a, b) ← split_once_str p s; Some (c :: a, b) end
  end.

Definition parse_job_title_and_artist (value : str) (is_album : bool) : str * option str :=
  let plain := plain_job_title value in
  let trimmed := default plain (strip_prefix (lit "Album: ") plain) in
  if is_album || bool_decide (is_Some (strip_prefix (lit "Album: ") plain)) then
    match split_once_str (lit " by ") trimmed with
    | Some (album, artist) => (trim album, Some (trim artist))
    | None => (trim trimmed, None)
    end
  else (plain, None).

(** The tags of an archive's name: the last one names the codec. *)
Fixpoint archive_tags (fuel : nat) (parts : list str) (current : str) : list str :=
  match fuel with
  | O => parts
  | S f =>
      match split_once_str [91] current with
      | None => parts
      | Some (_, remainder) =>
          match split_once_str [93] remainder with
          | None => parts
          | Some (tag, rest) =>
              let tag := trim tag in
              archive_tags f (if decide (tag <> lit "Partial" /\ tag <> []) then parts ++ [tag] else parts) rest
          end
      end
  end.

Definition extract_archive_codec (archive_name : str) : option str :=
  let name := default archive_name (strip_suffix (lit ".zip") archive_name) in
  last (archive_tags (S (length name)) [] name).

(** ** Lemmas *)

(** *** Entities *)

Lemma unescape_plain s : forall fuel, (length s <= fuel)%nat -> 38 ∉ s -> unescape_loop fuel s = s.
Proof.
  induction s as [|c s IH]; intros [|fuel] Hf Hs; cbn [length] in *; try done; [lia|]. cbn [unescape_loop].
  apply not_elem_of_cons in Hs as [Hc Hs]. rewrite (proj2 (Z.eqb_neq c 38)) by done. f_equal. apply IH; [lia|done].
Qed.

Lemma unescape_loop_eq value : unescape value = unescape_loop (length value) value.
Proof. unfold unescape. case_decide; [done|]. by rewrite unescape_plain. Qed.

Lemma unescape_char fuel c rest : unescape_loop (S fuel) (escape_char c ++ rest) = c :: unescape_loop fuel rest.
Proof.
  unfold escape_char. repeat (case_match; to_prop; [subst; reflexivity|]). cbn [app unescape_loop].
  by rewrite (proj2 (Z.eqb_neq c 38)).
Qed.

Lemma html_escape_cons c s : html_escape (c :: s) = escape_char c ++ html_escape s.
Proof. rewrite !html_escape_eq. done. Qed.

Lemma html_escape_app a b : html_escape (a ++ b) = html_escape a ++ html_escape b.
Proof. rewrite !html_escape_eq, fmap_app, concat_app. done. Qed.

Lemma escape_char_ne c : (1 <= length (escape_char c))%nat.
Proof. unfold escape_char. repeat case_match; cbn; lia. Qed.

Lemma unescape_escaped s : forall fuel, (length (html_escape s) <= fuel)%nat -> unescape_loop fuel (html_escape s) = s.
Proof.
  induction s as [|c s IH]; intros fuel Hf; [by destruct fuel|]. rewrite html_escape_cons in *. rewrite length_app in Hf.
  pose proof (escape_char_ne c). destruct fuel as [|fuel]; [lia|]. rewrite unescape_char. f_equal. apply IH. lia.
Qed.

Lemma unescape_html s : unescape (html_escape s) = s.
Proof. rewrite unescape_loop_eq. by apply unescape_escaped. Qed.

(** *** Words *)

Lemma split_words_app s1 c s2 : is_whitespace c = true -> forall w, split_words w (s1 ++ c :: s2) = split_words w s1 ++ split_words [] s2.
Proof.
  intros Hc. induction s1 as [|x s1 IH]; intros w; cbn [app split_words].
  - rewrite Hc. by case_decide.
  - destruct (is_whitespace x); [|apply IH]. case_decide; [apply IH|]. cbn. by rewrite IH.
Qed.

Definition wordy (w : str) : Prop := w <> [] /\ Forall (fun c => is_whitespace c = false) w.

Lemma split_words_wordy s : forall w, Forall (fun c => is_whitespace c = false) w -> Forall wordy (split_words w s).
Proof.
  induction s as [|c s IH]; intros w Hw; cbn [split_words].
  - case_decide; [constructor|]. by repeat constructor.
  - destruct (is_whitespace c) eqn:E; [|apply IH, Forall_app; by repeat constructor].
    case_decide; [by apply IH|]. constructor; [done|]. by apply IH.
Qed.

Lemma split_words_prefix e : Forall (fun c => is_whitespace c = false) e -> forall w s, split_words w (e ++ s) = split_words (w ++ e) s.
Proof.
  induction 1 as [|c e Hc _ IH]; intros w s; cbn [app split_words]; [by rewrite app_nil_r|]. rewrite Hc, IH. by rewrite <-app_assoc.
Qed.

Lemma escape_char_ws c : is_whitespace c = true -> escape_char c = [c].
Proof. intros H. unfold escape_char. repeat (case_match; to_prop; [subst; by vm_compute in H|]). done. Qed.

Lemma escape_char_nws c : is_whitespace c = false -> Forall (fun c => is_whitespace c = false) (escape_char c).
Proof. intros H. unfold escape_char. repeat (case_match; [by repeat constructor|]). by repeat constructor. Qed.

Lemma html_escape_nil s : html_escape s = [] <-> s = [].
Proof.
  split; [|by intros ->]. destruct s as [|c s]; [done|]. rewrite html_escape_cons. intros E. apply (f_equal length) in E.
  rewrite length_app in E. pose proof (escape_char_ne c). cbn in E. lia.
Qed.

Lemma split_words_escape s : forall w, split_words (html_escape w) (html_escape s) = html_escape <$> split_words w s.
Proof.
  assert (forall (A : Type) w (a b : A), (if decide (html_escape w = []) then a else b) = if decide (w = []) then a else b) as Hd.
  { intros A w a b. pose proof (html_escape_nil w). destruct (decide (w = [])); [rewrite decide_True|rewrite decide_False]; tauto. }
  induction s as [|c s IH]; intros w; cbn [split_words].
  - change (html_escape []) with (@nil rchar). cbn [split_words]. rewrite Hd. by case_decide.
  - rewrite html_escape_cons. destruct (is_whitespace c) eqn:E.
    + rewrite escape_char_ws by done. cbn [app split_words]. rewrite E, Hd.
      specialize (IH []). change (html_escape []) with (@nil rchar) in IH. rewrite IH. by case_decide.
    + rewrite split_words_prefix by (by apply escape_char_nws). rewrite <-IH. f_equal. rewrite html_escape_app, html_escape_cons.
      change (html_escape []) with (@nil rchar). by rewrite app_nil_r.
Qed.

Lemma join_words_escape ws : join_words (html_escape <$> ws) = html_escape (join_words ws).
Proof.
  induction ws as [|w ws IH]; [done|]. destruct ws as [|w' ws]; [done|]. change (join_words (w :: w' :: ws)) with (w ++ 32 :: join_words (w' :: ws)).
  change (join_words (html_escape <$> w :: w' :: ws)) with (html_escape w ++ 32 :: join_words (html_escape <$> w' :: ws)).
  rewrite IH, html_escape_app, html_escape_cons. done.
Qed.

(** *** Tags *)

Lemma strip_tags_escaped s rest : strip_tags false (html_escape s ++ rest) = html_escape s ++ strip_tags false rest.
Proof.
  assert (Forall (fun x => x <> 60 /\ x <> 62) (html_escape s)) as H.
  { induction s as [|c s IH]; [constructor|]. rewrite html_escape_cons. apply Forall_app. split; [|done].
    eapply Forall_impl; [apply escape_char_safe|]. intros x (H1 & H2 & _). done. }
  induction H as [|c l [Hc1 Hc2] _ IH]; [done|]. cbn [app strip_tags]. rewrite !(proj2 (Z.eqb_neq c _)) by done. by f_equal.
Qed.

Lemma strip_tags_inside s rest : Forall (fun c => c <> 60 /\ c <> 62) s -> strip_tags true (s ++ rest) = strip_tags true rest.
Proof. induction 1 as [|c l [Hc1 Hc2] _ IH]; [done|]. cbn [app strip_tags]. by rewrite !(proj2 (Z.eqb_neq c _)). Qed.

Lemma strip_bold s rest : strip_tags false (bold s ++ rest) = html_escape s ++ strip_tags false rest.
Proof.
  unfold bold. rewrite <-!app_assoc. change (strip_tags false (lit "<b>" ++ html_escape s ++ lit "</b>" ++ rest)) with (strip_tags false (html_escape s ++ lit "</b>" ++ rest)).
  rewrite strip_tags_escaped. done.
Qed.

(** What a reader sees of a header: its words, with the entities undone. *)
Lemma plain_escaped s : unescape (join_words (split_whitespace (html_escape s))) = join_words (split_whitespace s).
Proof.
  unfold split_whitespace. pose proof (split_words_escape s []) as H. change (html_escape []) with (@nil rchar) in H.
  rewrite H, join_words_escape. apply unescape_html.
Qed.

Lemma album_header_text album_url i name artist :
  (forall id sf url, album_url id sf = Some url -> Forall (fun c => c <> 60 /\ c <> 62) url) ->
  strip_tags false (album_header album_url i name artist) = html_escape (lit "Album: " ++ name ++ lit " by " ++ artist).
Proof.
  intros Hurl. rewrite !html_escape_app. change (html_escape (lit "Album: ")) with (lit "Album: "). change (html_escape (lit " by ")) with (lit " by ").
  assert (forall rest, strip_tags false (lit "Album: " ++ bold name ++ rest) = lit "Album: " ++ html_escape name ++ strip_tags false rest) as Hname.
  { intros rest. change (strip_tags false (lit "Album: " ++ bold name ++ rest)) with (lit "Album: " ++ strip_tags false (bold name ++ rest)). by rewrite strip_bold. }
  assert (strip_tags false (lit " by " ++ bold artist) = lit " by " ++ html_escape artist) as Hartist.
  { change (strip_tags false (lit " by " ++ bold artist)) with (lit " by " ++ strip_tags false (bold artist)).
    rewrite <-(app_nil_r (bold artist)), strip_bold. cbn [strip_tags]. by rewrite app_nil_r. }
  unfold album_header. destruct (JobResolve.album_id i) as [id|]; [destruct (JobResolve.album_sf i) as [sf|]|]; [|by rewrite Hname, Hartist..].
  destruct (album_url id sf) as [url|] eqn:E; [|by rewrite Hname, Hartist].
  change (strip_tags false (lit "Album: <a href=" ++ [34] ++ url ++ [34] ++ lit ">" ++ bold name ++ lit "</a> by " ++ bold artist))
    with (lit "Album: " ++ strip_tags true ([34] ++ url ++ [34] ++ lit ">" ++ bold name ++ lit "</a> by " ++ bold artist)).
  f_equal.
  transitivity (strip_tags true (url ++ 34 :: lit ">" ++ bold name ++ lit "</a> by " ++ bold artist)); [done|].
  rewrite strip_tags_inside by by eapply Hurl.
  transitivity (strip_tags false (bold name ++ lit "</a> by " ++ bold artist)); [done|]. rewrite strip_bold. f_equal. exact Hartist.
Qed.

(** *** The cut *)

Definition flat (ws : list str) : str := concat (cons 32 <$> ws).

Lemma join_flat w ws : join_words (w :: ws) = w ++ flat ws.
Proof.
  revert w. induction ws as [|w' ws IH]; intros w; [by rewrite app_nil_r|].
  change (join_words (w :: w' :: ws)) with (w ++ 32 :: join_words (w' :: ws)). by rewrite IH.
Qed.

Lemma flat_words_app a b : flat (a ++ b) = flat a ++ flat b.
Proof. unfold flat. by rewrite fmap_app, concat_app. Qed.

Lemma wordy_no_space w : wordy w -> Forall (fun c => c <> 32) w.
Proof. intros [_ H]. eapply Forall_impl; [exact H|]. intros c Hc ->. by vm_compute in Hc. Qed.

Lemma split_skip w s : Forall (fun c => c <> 32) w -> split_once_str (lit " by ") (w ++ s) = (fun p => (w ++ fst p, snd p)) <$> split_once_str (lit " by ") s.
Proof.
  induction 1 as [|c w Hc _ IH]; cbn [app]; [by destruct (split_once_str _ s) as [[? ?]|]|].
  change (split_once_str (lit " by ") (c :: w ++ s)) with (match strip_prefix (lit " by ") (c :: w ++ s) with
    | Some rest => Some ([], rest) | None => '(a, b) ← split_once_str (lit " by ") (w ++ s); Some (c :: a, b) end).
  assert (strip_prefix (lit " by ") (c :: w ++ s) = None) as ->.
  { destruct (strip_prefix _ _) as [r|] eqn:E; [|done]. apply strip_prefix_Some in E. injection E as E _. by destruct Hc. }
  rewrite IH. by destruct (split_once_str _ s) as [[? ?]|].
Qed.

Lemma split_words_flat ws rest : Forall wordy ws -> lit "by" ∉ ws ->
  split_once_str (lit " by ") (flat ws ++ lit " by " ++ rest) = Some (flat ws, rest).
Proof.
  induction 1 as [|w ws Hw _ IH]; intros Hby; [by cbn|]. apply not_elem_of_cons in Hby as [Hne Hby]. specialize (IH Hby).
  change (flat (w :: ws)) with (32 :: w ++ flat ws). cbn [app]. rewrite <-app_assoc.
  set (tail_ := flat ws ++ lit " by " ++ rest) in *.
  assert (exists r, tail_ = 32 :: r) as [r Hr] by (subst tail_; destruct ws; by eexists).
  change (split_once_str (lit " by ") (32 :: w ++ tail_)) with (match strip_prefix (lit " by ") (32 :: w ++ tail_) with
    | Some rest => Some ([], rest) | None => '(a, b) ← split_once_str (lit " by ") (w ++ tail_); Some (32 :: a, b) end).
  assert (strip_prefix (lit " by ") (32 :: w ++ tail_) = None) as ->.
  { destruct (strip_prefix _ _) as [q|] eqn:E; [|done]. apply strip_prefix_Some in E. change (lit " by " ++ q) with (32 :: 98 :: 121 :: 32 :: q) in E.
    injection E as E. pose proof (wordy_no_space w Hw) as Hs. destruct Hw as [Hnil _]. exfalso. rewrite Hr in E.
    destruct w as [|a [|b [|c w]]]; [done|..]; cbn in E.
    - discriminate E.
    - injection E as -> -> _. by destruct Hne.
    - injection E as -> -> -> _. apply Forall_cons in Hs as [_ Hs]. apply Forall_cons in Hs as [_ Hs]. by apply Forall_cons in Hs as [? _]. }
  rewrite split_skip by by apply wordy_no_space. rewrite IH. done.
Qed.

Lemma join_trim ws : Forall wordy ws -> ws <> [] -> trim (join_words ws) = join_words ws.
Proof.
  intros H Hne. destruct H as [|w ws [Hw1 Hw2] H]; [done|]. rewrite join_flat.
  assert (exists s b, w ++ flat ws = s ++ [b] /\ is_whitespace b = false) as (s & b & E & Hb).
  { destruct ws as [|v ws _] using rev_ind.
    - rewrite app_nil_r. destruct w as [|b s _] using rev_ind; [done|]. exists s, b. split; [done|]. apply Forall_app in Hw2 as [_ Hb]. by apply Forall_inv in Hb.
    - apply Forall_app in H as [_ [[Hv1 Hv2] _]%Forall_cons]. destruct v as [|b s _] using rev_ind; [done|].
      exists (w ++ flat ws ++ 32 :: s), b. split.
      + rewrite flat_words_app. cbn. rewrite app_nil_r, <-!app_assoc. done.
      + apply Forall_app in Hv2 as [_ Hb]. by apply Forall_inv in Hb. }
  destruct w as [|a w]; [done|]. apply Forall_cons in Hw2 as [Ha _]. destruct s as [|a' s].
  - rewrite E. apply trim_no_ws. by repeat constructor.
  - rewrite E. injection E as -> _. by apply (trim_id a' s b).
Qed.

(** ** Properties *)

(** What the bot escapes, it undoes. *)
Theorem unescape_escape (s : str) : unescape (html_escape s) = s.
Proof. apply unescape_html. Qed.

(** The header of an album's job, which the orchestrator writes as HTML with a link, is read back by the bot's
    event handler: the album and its artist, their words one space apart, unless a word of the title after its
    first is "by". *)
Theorem album_header_read_back (album_url : str -> str -> option str) (i : album_info) (name artist : str) (is_album : bool) :
  (forall id sf url, album_url id sf = Some url -> Forall (fun c => c <> 60 /\ c <> 62) url) ->
  split_whitespace name <> [] -> split_whitespace artist <> [] -> lit "by" ∉ tail (split_whitespace name) ->
  parse_job_title_and_artist (album_header album_url i name artist) is_album =
    (join_words (split_whitespace name), Some (join_words (split_whitespace artist))).
Proof.
  intros Hurl Hname Hartist Hby.
  assert (Forall wordy (split_whitespace name) /\ Forall wordy (split_whitespace artist)) as [Wn Wa].
  { split; apply split_words_wordy; constructor. }
  assert (plain_job_title (album_header album_url i name artist) =
    lit "Album: " ++ join_words (split_whitespace name) ++ lit " by " ++ join_words (split_whitespace artist)) as Hplain.
  { unfold plain_job_title. rewrite album_header_text by done. rewrite plain_escaped. unfold split_whitespace.
    change (lit "Album: " ++ name ++ lit " by " ++ artist) with (lit "Album:" ++ 32 :: (name ++ 32 :: (lit "by" ++ 32 :: artist))).
    rewrite !split_words_app by done. change (split_words [] (lit "Album:")) with [lit "Album:"]. change (split_words [] (lit "by")) with [lit "by"].
    fold (split_whitespace name) (split_whitespace artist). cbn [app]. rewrite join_flat.
    destruct (split_whitespace name) as [|n ns]; [done|]. destruct (split_whitespace artist) as [|a l]; [done|].
    rewrite !join_flat. cbn [app]. change (flat (n :: ?x)) with (32 :: n ++ flat x). rewrite flat_words_app.
    change (flat (lit "by" :: a :: l)) with (lit " by " ++ a ++ flat l). by rewrite <-!app_assoc. }
  unfold parse_job_title_and_artist. rewrite Hplain.
  assert (strip_prefix (lit "Album: ") (lit "Album: " ++ join_words (split_whitespace name) ++ lit " by " ++ join_words (split_whitespace artist)) =
    Some (join_words (split_whitespace name) ++ lit " by " ++ join_words (split_whitespace artist))) as -> by by apply strip_prefix_Some.
  rewrite bool_decide_eq_true_2 by done. rewrite orb_true_r. cbn [default from_option id].
  assert (split_once_str (lit " by ") (join_words (split_whitespace name) ++ lit " by " ++ join_words (split_whitespace artist)) =
    Some (join_words (split_whitespace name), join_words (split_whitespace artist))) as ->.
  { destruct (split_whitespace name) as [|n ns]; [done|]. apply Forall_cons in Wn as [Wn1 Wn2]. rewrite join_flat, <-app_assoc.
    rewrite split_skip by by apply wordy_no_space. by rewrite split_words_flat. }
  by rewrite !join_trim.
Qed.

Lemma album_header_read_back_witness :
  parse_job_title_and_artist (album_header (fun _ _ => Some (lit "https://music.apple.com/us/album/1")) (mkAlbumInfo None None None None None None None (Some (lit "1")) (Some (lit "us"))) (lit "Tom & Jerry's  <Best>") (lit "A by B")) true =
    (lit "Tom & Jerry's <Best>", Some (lit "A by B")).
Proof.
  apply (album_header_read_back (fun _ _ => Some (lit "https://music.apple.com/us/album/1")) (mkAlbumInfo None None None None None None None (Some (lit "1")) (Some (lit "us"))) (lit "Tom & Jerry's  <Best>") (lit "A by B") true).
  - intros id sf url [= <-]. apply (bool_decide_unpack _). by vm_compute.
  - by vm_compute.
  - by vm_compute.
  - apply (bool_decide_unpack _). by vm_compute.
Defined.

(** A title that has " by " in it is cut there: the rest of it is taken for the artist. *)
Theorem title_with_by_misread (i : album_info) :
  parse_job_title_and_artist (album_header (fun _ _ => None) i (lit "Stand by Me") (lit "Ben E. King")) true =
    (lit "Stand", Some (lit "Me by Ben E. King")).
Proof. unfold album_header. by destruct (JobResolve.album_id i), (JobResolve.album_sf i). Qed.
