(* ===== verification/Stages.v ===== *)
(** * Stages: what a job is doing (crates/engine/src/orchestrator/types.rs)

    The lanes of a running job, their names on the wire and the bytes they have moved; percentages are IEEE
    binary32 with the standard library's [SpecFloat]. *)
From Stdlib Require Import SpecFloat.
From S2P Require Import Prelude Text StartTask.

(** ** Percentages *)

Abbreviation f32 := spec_float.
Definition f32_of_u (n : Z) : f32 := binary_normalize 24 128 n 0 false.
Definition f32_add : f32 -> f32 -> f32 := SFadd 24 128.
Definition f32_mul : f32 -> f32 -> f32 := SFmul 24 128.
Definition f32_div : f32 -> f32 -> f32 := SFdiv 24 128.

Record ByteProgress := mkBytes { bp_completed : Z; bp_total : option Z }.
#[global] Instance ByteProgress_eq_dec : EqDecision ByteProgress.
Proof. solve_decision. Defined.

Definition percent (p : ByteProgress) : option f32 :=
  total ← bp_total p;
  if 0 <? total then Some (f32_mul (f32_div (f32_of_u (bp_completed p)) (f32_of_u total)) (f32_of_u 100)) else None.

(** ** Lanes *)

Record TrackLabel := mkLabel {
  lb_title : str; lb_artist : str; lb_artwork_url : option str; lb_track_index : option Z; lb_total_tracks : option Z;
}.
#[global] Instance TrackLabel_eq_dec : EqDecision TrackLabel.
Proof. solve_decision. Defined.

Definition label (title artist : str) : TrackLabel := mkLabel title artist None None None.
Definition with_position (track_index total_tracks : option Z) (l : TrackLabel) : TrackLabel :=
  mkLabel (lb_title l) (lb_artist l) (lb_artwork_url l) track_index total_tracks.
Definition with_artwork_url (artwork_url : option str) (l : TrackLabel) : TrackLabel :=
  mkLabel (lb_title l) (lb_artist l) (u ← artwork_url; if decide (u = []) then None else Some u) (lb_track_index l) (lb_total_tracks l).

(** What is looked at of a track's metadata; the numbers are [i32]. *)
Record label_meta := mkLabelMeta { lm_title : str; lm_artist : str; lm_artwork_url : str; lm_track_number : option Z; lm_track_count : option Z }.
Definition label_number (n : option Z) : option Z := n ← n; if 0 <? n then Some n else None.
Definition label_from_meta (m : label_meta) : TrackLabel :=
  mkLabel (lm_title m) (lm_artist m) (if decide (lm_artwork_url m = []) then None else Some (lm_artwork_url m))
    (label_number (lm_track_number m)) (label_number (lm_track_count m)).

Inductive RipActivity :=
| ResolvingMetadata
| Connecting (track : TrackLabel)
| Downloading (track : TrackLabel) (progress : ByteProgress)
| MaterializingCachedMedia (track : TrackLabel) (progress : ByteProgress)
| Decrypting (track : TrackLabel)
| Tagging (track : TrackLabel).

Inductive DownloadLane := Rip (activity : RipActivity) | CachedDelivery (track : TrackLabel).

Inductive UploadLane :=
| UTrack (track : TrackLabel) (progress : ByteProgress) (worker_id dc_id : option Z)
| ArchiveBuild (archive : str) (progress : ByteProgress)
| ArchiveUpload (archive : str) (progress : ByteProgress) (worker_id dc_id : option Z).

Inductive TaskActivity :=
| Resolving
| CheckingCache (item : str)
| Queued (position : Z)
| SkippingUncached
| CachedDelivered
| ProcessingNext
| WaitingDuplicate (inflight_job_id : str).

(** ** Names and contents *)

Definition activity_stage (a : RipActivity) : str :=
  match a with
  | ResolvingMetadata => lit "resolving_metadata"
  | Connecting _ => lit "connecting"
  | Downloading _ _ => lit "downloading"
  | MaterializingCachedMedia _ _ => lit "materializing_cached_media"
  | Decrypting _ => lit "decrypting"
  | Tagging _ => lit "tagging"
  end.
Definition activity_track (a : RipActivity) : option TrackLabel :=
  match a with
  | ResolvingMetadata => None
  | Connecting t | Downloading t _ | MaterializingCachedMedia t _ | Decrypting t | Tagging t => Some t
  end.
Definition activity_bytes (a : RipActivity) : option ByteProgress :=
  match a with Downloading _ p | MaterializingCachedMedia _ p => Some p | _ => None end.

Definition download_stage (l : DownloadLane) : str := match l with Rip a => activity_stage a | CachedDelivery _ => lit "cached_delivery" end.
Definition download_track (l : DownloadLane) : option TrackLabel := match l with Rip a => activity_track a | CachedDelivery t => Some t end.
Definition download_bytes (l : DownloadLane) : option ByteProgress := match l with Rip a => activity_bytes a | CachedDelivery _ => None end.

Definition ARCHIVE_BUILD_STAGE : str := lit "building_archive".
Definition ARCHIVE_UPLOAD_STAGE : str := lit "uploading_archive".

Definition upload_bytes (l : UploadLane) : ByteProgress :=
  match l with UTrack _ p _ _ | ArchiveBuild _ p | ArchiveUpload _ p _ _ => p end.
Definition upload_worker (l : UploadLane) : option Z := match l with UTrack _ _ w _ | ArchiveUpload _ _ w _ => w | ArchiveBuild _ _ => None end.
Definition upload_dc (l : UploadLane) : option Z := match l with UTrack _ _ _ d | ArchiveUpload _ _ _ d => d | ArchiveBuild _ _ => None end.
Definition upload_index (l : UploadLane) : option Z := match l with UTrack t _ _ _ => lb_track_index t | _ => None end.
Definition is_archive (l : UploadLane) : bool := match l with ArchiveBuild _ _ | ArchiveUpload _ _ _ _ => true | _ => false end.
Definition is_archive_stage (stage : str) : bool := bool_decide (stage = ARCHIVE_BUILD_STAGE \/ stage = ARCHIVE_UPLOAD_STAGE).
Definition upload_stage (l : UploadLane) : str :=
  match l with UTrack _ _ _ _ => lit "uploading_track" | ArchiveBuild _ _ => ARCHIVE_BUILD_STAGE | ArchiveUpload _ _ _ _ => ARCHIVE_UPLOAD_STAGE end.

Definition task_stage (a : TaskActivity) : str :=
  match a with
  | Resolving => lit "resolving"
  | CheckingCache _ => lit "checking_cache"
  | Queued _ => lit "queued"
  | SkippingUncached => lit "skipping_uncached"
  | CachedDelivered => lit "cached_delivered"
  | ProcessingNext => lit "processing_next"
  | WaitingDuplicate _ => lit "waiting_duplicate"
  end.

(** ** Phases *)

Definition is_working (p : TaskPhase) : bool :=
  match p with StartTask.Resolving | StartTask.CheckingCache | Processing => true | _ => false end.
Definition has_lane_activity (p : TaskPhase) : bool :=
  match p with StartTask.Queued | StartTask.WaitingDuplicate => false | _ => true end.
Definition display_rank (p : TaskPhase) : Z := match p with StartTask.Queued => 1 | StartTask.WaitingDuplicate => 2 | _ => 0 end.
Definition fallback_activity (p : TaskPhase) (header : str) (queue_position : option Z) : option TaskActivity :=
  match p with
  | StartTask.Resolving => Some Resolving
  | StartTask.CheckingCache => Some (CheckingCache header)
  | StartTask.Queued => Some (Queued (default 1 (n ← queue_position; if n <? 2 ^ 32 then Some n else None)))
  | Delivering => Some CachedDelivered
  | Processing | StartTask.WaitingDuplicate => None
  end.

(** ** Properties *)

(** The name of an upload's stage says whether it moves an archive. *)
Theorem archive_stage_named (l : UploadLane) : is_archive_stage (upload_stage l) = is_archive l.
Proof. by destruct l. Qed.

(** The stage names tell the kinds of activity apart, and no name serves two lanes. *)
Theorem stage_names_distinct :
  NoDup ([lit "resolving_metadata"; lit "connecting"; lit "downloading"; lit "materializing_cached_media"; lit "decrypting"; lit "tagging";
          lit "cached_delivery"; lit "uploading_track"; ARCHIVE_BUILD_STAGE; ARCHIVE_UPLOAD_STAGE]) /\
  (forall l, download_stage l ∈ [lit "resolving_metadata"; lit "connecting"; lit "downloading"; lit "materializing_cached_media"; lit "decrypting"; lit "tagging"; lit "cached_delivery"]) /\
  forall l, upload_stage l ∈ [lit "uploading_track"; ARCHIVE_BUILD_STAGE; ARCHIVE_UPLOAD_STAGE].
Proof.
  split; [apply (bool_decide_unpack _); by vm_compute|]. split.
  - intros [[]|]; apply (bool_decide_unpack _); by vm_compute.
  - intros []; apply (bool_decide_unpack _); by vm_compute.
Qed.
