(* ===== verification/ServerTasks.v ===== *)
(** * ServerTasks: the rip tasks that clients see (crates/server/src/task_registry.rs, rip_tasks.rs,
      rip_task_rpc.rs, lib.rs; crates/bot/src/main.rs, the runner and the event handler)

    A registry of tasks under one lock, the two requests of a client, the runner that starts a job for a task,
    and the handler that follows the orchestrator's events: it finds or registers the task of a job, links their
    cancellation tokens, merges and throttles progress, and takes ended tasks away after a while.  A token is a
    number; [cancelled] holds those that are.  What is spawned is kept as work to be done: links between tokens,
    removals with their time, and runs. *)
From Stdlib Require Import SpecFloat Sorted.
From S2P Require Import Prelude Text Music Priority StartTask Settings Sessions Auth Lookup BotText Stages.

#[local] Open Scope Z_scope.

(** ** Tasks (rip_tasks.rs) *)

Record RipTaskRequest := mkTaskRequest { rq_track_id : option str; rq_album_id : option str }.

Definition non_blank_id (s : option str) : option str := s ← s; if decide (trim s = []) then None else Some (trim s).
Definition target (r : RipTaskRequest) : option (str * bool) :=
  match non_blank_id (rq_album_id r) with
  | Some album_id => Some (album_id, true)
  | None => (fun track_id => (track_id, false)) <$> non_blank_id (rq_track_id r)
  end.

Record RipTaskDownloadLane := mkDownload {
  dl_stage : str; dl_title : option str; dl_artist : option str; dl_artwork_url : option str; dl_bytes_done : option Z; dl_bytes_total : option Z;
  dl_percent : option f32; dl_codec : option str; dl_track_index : option Z; dl_total_tracks : option Z;
}.
Record RipTaskUploadLane := mkUpload {
  ul_stage : str; ul_title : option str; ul_artist : option str; ul_artwork_url : option str; ul_bytes_done : option Z; ul_bytes_total : option Z;
  ul_percent : option f32; ul_codec : option str; ul_track_index : option Z; ul_total_tracks : option Z; ul_worker_id : option Z; ul_dc_id : option Z;
}.
Record RipTaskProgress := mkProgress {
  job_stage : option str; tp_download : option RipTaskDownloadLane; tp_upload : option RipTaskUploadLane; tp_uploads : list RipTaskUploadLane;
  tp_percent : option f32; current_track_title : option str; current_track_artist : option str; current_track_artwork_url : option str;
  current_track_index : option Z; tp_total_tracks : option Z; completed_tracks : option Z; failed_tracks : option Z;
}.

(** [controller] is the task's token; the time of its creation is not looked at. *)
Record ServerTaskMeta := mkMeta {
  task_id : str; rip_task_id : str; owner_id : Z; track_id : str; tm_codec : option str; tm_title : option str; tm_artist : option str;
  tm_album : option str; tm_duration : option Z; tm_artwork_url : option str; tm_controller : Z; latest_progress : RipTaskProgress;
  tm_is_album : bool; tm_completed : bool; result_track_id : option Z; tm_error : option str;
}.

(** What a client is shown; the fields of the progress are its own. *)
Record RipTaskSnapshot := mkSnapshot {
  sn_task_id : str; sn_source_track_id : str; sn_title : option str; sn_artist : option str; sn_album : option str; sn_duration : option Z;
  sn_artwork_url : option str; sn_progress : RipTaskProgress; sn_result_track_id : option Z; sn_is_cached : option bool; sn_completed : bool;
  sn_error : option str; sn_owner_id : option Z; sn_is_owner : bool; sn_is_album : bool;
}.
Definition snapshot (m : ServerTaskMeta) (is_owner : bool) : RipTaskSnapshot :=
  mkSnapshot (task_id m) (track_id m) (tm_title m) (tm_artist m) (tm_album m) (tm_duration m) (tm_artwork_url m) (latest_progress m)
    (result_track_id m) None (tm_completed m) (tm_error m) (Some (owner_id m)) is_owner (tm_is_album m).

Inductive TaskSyncEvent := Updated (id : str) | Dismissed (id : str).

(** The setters of the fields that are written. *)
Definition set_rip_task_id (v : str) (m : ServerTaskMeta) : ServerTaskMeta :=
  mkMeta (task_id m) v (owner_id m) (track_id m) (tm_codec m) (tm_title m) (tm_artist m) (tm_album m) (tm_duration m) (tm_artwork_url m)
    (tm_controller m) (latest_progress m) (tm_is_album m) (tm_completed m) (result_track_id m) (tm_error m).
Definition set_title (v : option str) (m : ServerTaskMeta) : ServerTaskMeta :=
  mkMeta (task_id m) (rip_task_id m) (owner_id m) (track_id m) (tm_codec m) v (tm_artist m) (tm_album m) (tm_duration m) (tm_artwork_url m)
    (tm_controller m) (latest_progress m) (tm_is_album m) (tm_completed m) (result_track_id m) (tm_error m).
Definition set_artist (v : option str) (m : ServerTaskMeta) : ServerTaskMeta :=
  mkMeta (task_id m) (rip_task_id m) (owner_id m) (track_id m) (tm_codec m) (tm_title m) v (tm_album m) (tm_duration m) (tm_artwork_url m)
    (tm_controller m) (latest_progress m) (tm_is_album m) (tm_completed m) (result_track_id m) (tm_error m).
Definition set_codec (v : option str) (m : ServerTaskMeta) : ServerTaskMeta :=
  mkMeta (task_id m) (rip_task_id m) (owner_id m) (track_id m) v (tm_title m) (tm_artist m) (tm_album m) (tm_duration m) (tm_artwork_url m)
    (tm_controller m) (latest_progress m) (tm_is_album m) (tm_completed m) (result_track_id m) (tm_error m).
Definition set_is_album (v : bool) (m : ServerTaskMeta) : ServerTaskMeta :=
  mkMeta (task_id m) (rip_task_id m) (owner_id m) (track_id m) (tm_codec m) (tm_title m) (tm_artist m) (tm_album m) (tm_duration m) (tm_artwork_url m)
    (tm_controller m) (latest_progress m) v (tm_completed m) (result_track_id m) (tm_error m).
Definition set_error (v : option str) (m : ServerTaskMeta) : ServerTaskMeta :=
  mkMeta (task_id m) (rip_task_id m) (owner_id m) (track_id m) (tm_codec m) (tm_title m) (tm_artist m) (tm_album m) (tm_duration m) (tm_artwork_url m)
    (tm_controller m) (latest_progress m) (tm_is_album m) (tm_completed m) (result_track_id m) v.
Definition set_completed (v : bool) (m : ServerTaskMeta) : ServerTaskMeta :=
  mkMeta (task_id m) (rip_task_id m) (owner_id m) (track_id m) (tm_codec m) (tm_title m) (tm_artist m) (tm_album m) (tm_duration m) (tm_artwork_url m)
    (tm_controller m) (latest_progress m) (tm_is_album m) v (result_track_id m) (tm_error m).
Definition set_progress (artwork : option str) (v : RipTaskProgress) (m : ServerTaskMeta) : ServerTaskMeta :=
  mkMeta (task_id m) (rip_task_id m) (owner_id m) (track_id m) (tm_codec m) (tm_title m) (tm_artist m) (tm_album m) (tm_duration m) artwork
    (tm_controller m) v (tm_is_album m) (tm_completed m) (result_track_id m) (tm_error m).

(** ** The state *)

Record ProgressThrottle := mkThrottle { last_emitted_at : Z; last_progress : RipTaskProgress }.

(** A run: the task, its target, its owner and its token. *)
Record run := mkRun { rn_task : str; rn_target : str; rn_is_album : bool; rn_user : Z; rn_controller : Z }.

Record server := mkServer {
  tasks : gmap str ServerTaskMeta;
  cancelled : gset Z;
  links : list (Z * Z);                       (* of two tokens, the other is cancelled when one is *)
  notices : list TaskSyncEvent;               (* newest last *)
  throttles : gmap str ProgressThrottle;
  leaving : list (Z * str);                   (* removals, with their time *)
  runs : list run;
  orders : list str;                          (* [RipOrchestrator::cancel_task] *)
  next_token : Z;
}.

Definition set_tasks (t : gmap str ServerTaskMeta) (s : server) : server :=
  mkServer t (cancelled s) (links s) (notices s) (throttles s) (leaving s) (runs s) (orders s) (next_token s).
Definition notify (e : TaskSyncEvent) (s : server) : server :=
  mkServer (tasks s) (cancelled s) (links s) (notices s ++ [e]) (throttles s) (leaving s) (runs s) (orders s) (next_token s).
Definition cancel_token (t : Z) (s : server) : server :=
  mkServer (tasks s) ({[t]} ∪ cancelled s) (links s) (notices s) (throttles s) (leaving s) (runs s) (orders s) (next_token s).
Definition link (a b : Z) (s : server) : server :=
  mkServer (tasks s) (cancelled s) (links s ++ [(a, b)]) (notices s) (throttles s) (leaving s) (runs s) (orders s) (next_token s).
Definition set_throttles (t : gmap str ProgressThrottle) (s : server) : server :=
  mkServer (tasks s) (cancelled s) (links s) (notices s) t (leaving s) (runs s) (orders s) (next_token s).
Definition leave_at (due : Z) (id : str) (s : server) : server :=
  mkServer (tasks s) (cancelled s) (links s) (notices s) (throttles s) (leaving s ++ [(due, id)]) (runs s) (orders s) (next_token s).
Definition spawn_run (r : run) (s : server) : server :=
  mkServer (tasks s) (cancelled s) (links s) (notices s) (throttles s) (leaving s) (runs s ++ [r]) (orders s) (next_token s).
Definition order_cancel (id : str) (s : server) : server :=
  mkServer (tasks s) (cancelled s) (links s) (notices s) (throttles s) (leaving s) (runs s) (orders s ++ [id]) (next_token s).
(** [CancellationToken::new()]. *)
Definition fresh_token (s : server) : Z * server :=
  (next_token s, mkServer (tasks s) (cancelled s) (links s) (notices s) (throttles s) (leaving s) (runs s) (orders s) (next_token s + 1)).

(** ** The registry (task_registry.rs) *)

Section Registry.
(** The order of a hash map's values is not specified. *)
Variable iter : gmap str ServerTaskMeta -> list (str * ServerTaskMeta).

Definition remove (id : str) (s : server) : option ServerTaskMeta * server :=
  (tasks s !! id, set_tasks (delete id (tasks s)) s).
Definition insert_task (id : str) (m : ServerTaskMeta) (s : server) : server := set_tasks (<[id := m]> (tasks s)) s.

(** [Err tt] is the rejection. *)
Definition remove_if (id : str) (allow : ServerTaskMeta -> bool) (s : server) : result unit (option ServerTaskMeta) * server :=
  match tasks s !! id with
  | None => (Ok None, s)
  | Some task => if negb (allow task) then (Err tt, s) else (Ok (Some task), set_tasks (delete id (tasks s)) s)
  end.

Definition first_matching (p : ServerTaskMeta -> bool) (s : server) : option (str * ServerTaskMeta) :=
  snd <$> list_find (fun kv => p (snd kv) = true) (iter (tasks s)).

Definition insert_unique (m : ServerTaskMeta) (equivalent : ServerTaskMeta -> ServerTaskMeta -> bool) (s : server) : result str str * server :=
  match first_matching (fun task => equivalent task m) s with
  | Some (_, existing) => (Err (task_id existing), s)
  | None => (Ok (task_id m), insert_task (task_id m) m s)
  end.

Definition update (id : str) (f : ServerTaskMeta -> ServerTaskMeta) (s : server) : bool * server :=
  match tasks s !! id with
  | None => (false, s)
  | Some task => (true, insert_task id (f task) s)
  end.

Definition update_and_get (id : str) (f : ServerTaskMeta -> ServerTaskMeta) (s : server) : option ServerTaskMeta * server :=
  match tasks s !! id with
  | None => (None, s)
  | Some task => (Some (f task), insert_task id (f task) s)
  end.

Definition update_first_matching (p : ServerTaskMeta -> bool) (f : ServerTaskMeta -> ServerTaskMeta) (s : server) : option ServerTaskMeta * server :=
  match first_matching p s with
  | None => (None, s)
  | Some (id, task) => (Some (f task), insert_task id (f task) s)
  end.

(** ** The server's operations (lib.rs) *)

Definition remove_active_task (id : str) (s : server) : option ServerTaskMeta * server :=
  match remove id s with
  | (None, s) => (None, s)
  | (Some task, s) => (Some task, notify (Dismissed id) s)
  end.

Definition complete_task (id : str) (s : server) : server := snd (remove_active_task id s).
Definition fail_task (id : str) (s : server) : server := snd (remove_active_task id s).

(** The token, and the job when it is known. *)
Definition stop_task (task : ServerTaskMeta) (s : server) : server :=
  let s := cancel_token (tm_controller task) s in
  if decide (rip_task_id task = []) then s else order_cancel (rip_task_id task) s.

Definition cancel_active_task (id : str) (s : server) : server :=
  match remove_active_task id s with
  | (None, s) => s
  | (Some task, s) => stop_task task s
  end.

Definition or_else {A} (a b : option A) : option A := match a with Some _ => a | None => b end.

Definition zip_title : str := lit "Album ZIP archive".

(** What the new progress keeps of the old. *)
Definition merged (previous progress : RipTaskProgress) : RipTaskProgress :=
  let is_archive_stage := match tp_upload progress with Some lane => is_archive_stage (ul_stage lane) | None => false end in
  let total := or_else (tp_total_tracks progress) (tp_total_tracks previous) in
  let artwork := or_else (current_track_artwork_url progress) (current_track_artwork_url previous) in
  if is_archive_stage then
    mkProgress (job_stage progress) (tp_download progress) (tp_upload progress) (tp_uploads progress) (tp_percent progress)
      (or_else (current_track_title progress) (Some zip_title)) None artwork None total total (failed_tracks progress)
  else
    mkProgress (job_stage progress) (tp_download progress) (tp_upload progress) (tp_uploads progress) (tp_percent progress)
      (or_else (current_track_title progress) (current_track_title previous)) (or_else (current_track_artist progress) (current_track_artist previous))
      artwork (or_else (current_track_index progress) (current_track_index previous)) total
      (or_else (completed_tracks progress) (completed_tracks previous)) (failed_tracks progress).

Definition with_progress (progress : RipTaskProgress) (task : ServerTaskMeta) : ServerTaskMeta :=
  let progress := merged (latest_progress task) progress in
  let task := set_title (or_else (tm_title task) (current_track_title progress)) task in
  let task := set_artist (or_else (tm_artist task) (current_track_artist progress)) task in
  set_progress (or_else (current_track_artwork_url progress) (tm_artwork_url task)) progress task.

Definition update_task_progress_extended (id : str) (progress : RipTaskProgress) (s : server) : server :=
  match update id (with_progress progress) s with
  | (true, s) => notify (Updated id) s
  | (false, s) => s
  end.

(** ** The requests of a client (rip_task_rpc.rs) *)

Inductive RipTaskRpcErrorCode := Validation | NotFoundCode | NotAuthorized | Unavailable | InternalCode.
Definition retryable (c : RipTaskRpcErrorCode) : bool := match c with Unavailable => true | _ => false end.

Record RipTaskRpcError := mkRpcError { re_request_id : option str; re_code : RipTaskRpcErrorCode; re_message : str; re_retryable : bool }.
Definition rpc_error (request_id : option str) (code : RipTaskRpcErrorCode) (message : string) : RipTaskRpcError :=
  mkRpcError request_id code (lit message) (retryable code).

Definition map_server_error (request_id : option str) (error : ServerError) : RipTaskRpcError :=
  match error with
  | Auth.BadRequest _ => rpc_error request_id Validation "invalid rip-task request"
  | Auth.NotFound _ => rpc_error request_id NotFoundCode "rip task not found"
  | Auth.Unauthorized _ | Auth.Forbidden _ => rpc_error request_id NotAuthorized "not authorized to perform this rip-task operation"
  | Auth.Internal _ => rpc_error request_id InternalCode "rip-task request failed"
  end.
Definition map_cache_lookup_error (request_id : option str) : RipTaskRpcError :=
  rpc_error request_id Unavailable "rip-task cache lookup is temporarily unavailable".

Inductive RipTaskRpcStatus := SQueued | SCompleted.
Inductive RipTaskRpcSuccess :=
| RCreated (request_id task_id : str) (status : RipTaskRpcStatus) (result_track_id : option Z)
| RCancelled (request_id task_id : str).

Definition reserve_task (m : ServerTaskMeta) (s : server) : result str str * server :=
  insert_unique m (fun existing candidate => Bool.eqb (tm_is_album existing) (tm_is_album candidate) && bool_decide (track_id existing = track_id candidate)) s.

Definition no_progress (percent : option f32) (total completed failed : option Z) : RipTaskProgress :=
  mkProgress (Some (task_stage (Stages.Queued 1))) None None [] percent None None None None total completed failed.

(** What the cache has: the row of a track, or a whole archive of an album. *)
Definition cached_album (parts : list Lookup.Album) : bool :=
  has_complete_archive_parts (filter (fun p => al_codec p = Alac) parts) || has_complete_archive_parts (filter (fun p => al_codec p = Aac) parts).
Definition cached_track (rows : list (Z * Codec)) : option Z :=
  fst <$> or_else (snd <$> list_find (fun r => snd r = Alac) rows) (snd <$> list_find (fun r => snd r = Aac) rows).

(** [album_parts] and [track_rows] are the answers of the two repositories, [cuid] the new identifier. *)
Definition create_task (user_telegram_id : Z) (request_id : str) (request : RipTaskRequest)
    (album_parts : str -> option (list Lookup.Album)) (track_rows : str -> option (list (Z * Codec))) (cuid : str) (s : server) :
    result RipTaskRpcError RipTaskRpcSuccess * server :=
  if decide (trim request_id = []) then (Err (rpc_error (Some request_id) Validation "request_id must not be empty"), s)
  else
    match target request with
    | None => (Err (rpc_error (Some request_id) Validation "track_id or album_id must not be empty"), s)
    | Some (target_id, is_album) =>
        let cached :=
          if is_album : bool then (fun parts => (cached_album parts, None)) <$> album_parts target_id
          else (fun rows => (bool_decide (is_Some (cached_track rows)), cached_track rows)) <$> track_rows target_id in
        match cached with
        | None => (Err (map_cache_lookup_error (Some request_id)), s)
        | Some (true, found) => (Ok (RCreated request_id [] SCompleted found), s)
        | Some (false, _) =>
            let '(controller, s) := fresh_token s in
            let id := lit "task_" ++ cuid in
            let meta := mkMeta id [] user_telegram_id target_id None None None None None None controller
                          (no_progress (Some (f32_of_u 0)) None None None) is_album false None None in
            match reserve_task meta s with
            | (Err existing, s) => (Ok (RCreated request_id existing SQueued None), s)
            | (Ok reserved, s) =>
                let s := notify (Updated reserved) s in
                let s := spawn_run (mkRun reserved target_id is_album user_telegram_id controller) s in
                (Ok (RCreated request_id reserved SQueued None), s)
            end
        end
    end.

Inductive CancelFailure := CNotFound | CNotAuthorized.
Definition remove_task_if_authorized (id : str) (user admin_id : Z) (s : server) : result CancelFailure ServerTaskMeta * server :=
  match remove_if id (fun task => (user =? owner_id task) || (user =? admin_id)) s with
  | (Ok (Some task), s) => (Ok task, s)
  | (Ok None, s) => (Err CNotFound, s)
  | (Err _, s) => (Err CNotAuthorized, s)
  end.

Definition cancel_task (user admin_id : Z) (request_id id : str) (s : server) : result RipTaskRpcError RipTaskRpcSuccess * server :=
  if decide (trim request_id = [] \/ trim id = []) then (Err (rpc_error (Some request_id) Validation "request_id and task_id must not be empty"), s)
  else
    match remove_task_if_authorized id user admin_id s with
    | (Err CNotFound, s) => (Err (map_server_error (Some request_id) (Auth.NotFound (lit "active task missing"))), s)
    | (Err CNotAuthorized, s) => (Err (map_server_error (Some request_id) (Auth.Forbidden (lit "task owner/admin required"))), s)
    | (Ok task, s) => (Ok (RCancelled request_id id), stop_task task (notify (Dismissed id) s))
    end.

(** ** The runner (main.rs) *)

(** [None]: the task was cancelled before; otherwise the job that is started, with the operator's settings. *)
Definition run_options (settings : BotSettings) (admin_id : Z) (r : run) (s : server) : option RipTaskOptions :=
  if decide (rn_controller r ∈ cancelled s) then None
  else
    let default_storefront := resolve_default_storefront settings in
    Some (mkRipOptions 0 (rn_user r) (Some (rn_task r)) 0 false false true (Some default_storefront)
            [mkTarget (rn_target r) (if rn_is_album r then KAlbum else KTrack) (Some default_storefront)]
            None (rn_user r =? admin_id) (Some HighestQuality) PrimaryWithOptionalAtmos (mkOrigin Client false)).

(** A job that could not run. *)
Definition run_failed (r : run) (s : server) : server := fail_task (rn_task r) s.

(** ** Following the orchestrator (main.rs) *)

(** What is looked at of [ActiveRipTask] and of the orchestrator's progress and summary. *)
Record active_job := mkActive {
  aj_id : str; source_track_ids : list str; aj_user_id : Z; aj_user_name : option str; job_header_ : str; aj_total_tracks : Z; aj_controller : Z;
  cached_count : Z; ripped_count : Z; failed_count : Z;
}.
Record job_progress := mkJobProgress {
  jp_activity : option TaskActivity; jp_download : option DownloadLane; jp_upload : option UploadLane; jp_uploads : list UploadLane; jp_codec : option str;
}.
(** The count of failures and the messages of the failed tracks. *)
Record job_summary := mkSummary { js_failed_count : Z; js_failed_tracks : list str; js_codec : option str }.

Definition album_job (job : active_job) : bool := 1 <? aj_total_tracks job.
Definition tracks_text (job : active_job) : str := show_u (aj_total_tracks job) ++ lit " tracks".

Definition named_update (job : active_job) (title : str) (artist : option str) (task : ServerTaskMeta) : ServerTaskMeta :=
  let task := if decide (rip_task_id task = []) then set_rip_task_id (aj_id job) task else task in
  let task := if album_job job then set_is_album true task else task in
  let task := if decide (tm_title task = None /\ title <> []) then set_title (Some title) task else task in
  match tm_artist task with
  | Some _ => task
  | None => set_artist (or_else artist (if album_job job then Some (tracks_text job) else None)) task
  end.

Definition bot_update (job : active_job) (title : str) (artist : option str) (task : ServerTaskMeta) : ServerTaskMeta :=
  match strip_prefix (lit "bot_") (task_id task) with
  | None => task
  | Some _ => set_artist (or_else artist (if album_job job then Some (tracks_text job) else None)) (set_title (Some title) (set_is_album (album_job job) task))
  end.

Definition claims (job : active_job) (task : ServerTaskMeta) : bool :=
  bool_decide (rip_task_id task = []) && ((owner_id task =? aj_user_id job) || (aj_user_id job =? 0)) && bool_decide (track_id task ∈ source_track_ids job).
Definition claimed_update (job : active_job) (task : ServerTaskMeta) : ServerTaskMeta :=
  let task := set_rip_task_id (aj_id job) task in if album_job job then set_is_album true task else task.

Definition bot_task (job : active_job) (title : str) (artist : option str) (controller : Z) : ServerTaskMeta :=
  let count n := if album_job job then Some (wrap 32 n) else None in
  mkMeta (lit "bot_" ++ aj_id job) (aj_id job) (aj_user_id job) (default (aj_id job) (head (source_track_ids job))) None (Some title)
    (or_else artist (if album_job job then Some (tracks_text job) else None)) None None None controller
    (no_progress (Some (f32_of_u 0)) (count (aj_total_tracks job)) (count 0) (count 0)) (album_job job) false None None.

(** By the name the runner gave the job, by its identifier, by its tracks; else a task of its own. *)
Definition find_task (job : active_job) (register_if_missing : bool) (s : server) : option ServerTaskMeta * server :=
  let '(title, artist) := parse_job_title_and_artist (job_header_ job) (album_job job) in
  let '(named, s) := match aj_user_name job with Some uname => update_and_get uname (named_update job title artist) s | None => (None, s) end in
  match named with
  | Some task => (Some task, s)
  | None =>
      match update_first_matching (fun task => bool_decide (rip_task_id task = aj_id job)) (bot_update job title artist) s with
      | (Some task, s) => (Some task, s)
      | (None, s) =>
          match update_first_matching (claims job) (claimed_update job) s with
          | (Some task, s) => (Some task, s)
          | (None, s) =>
              if negb register_if_missing then (None, s)
              else
                let '(controller, s) := fresh_token s in
                let meta := bot_task job title artist controller in
                (Some meta, notify (Updated (task_id meta)) (insert_task (task_id meta) meta s))
          end
      end
  end.

(** *** Progress *)

Definition download_lane (progress : job_progress) (task : ServerTaskMeta) (lane : DownloadLane) : RipTaskDownloadLane :=
  let track := download_track lane in
  mkDownload (download_stage lane) (lb_title <$> track) (lb_artist <$> track) (track ≫= lb_artwork_url)
    (bp_completed <$> download_bytes lane) (download_bytes lane ≫= bp_total) (download_bytes lane ≫= percent)
    (or_else (or_else (jp_codec progress) (tm_codec task)) (Some (lit "alac"))) (track ≫= lb_track_index) (track ≫= lb_total_tracks).

Definition upload_lane (progress : job_progress) (task : ServerTaskMeta) (lane : UploadLane) : RipTaskUploadLane :=
  let bytes := upload_bytes lane in
  match lane with
  | UTrack track _ _ _ =>
      mkUpload (upload_stage lane) (Some (lb_title track)) (Some (lb_artist track)) (lb_artwork_url track) (Some (bp_completed bytes)) (bp_total bytes)
        (percent bytes) (or_else (or_else (jp_codec progress) (tm_codec task)) (Some (lit "alac"))) (lb_track_index track) (lb_total_tracks track)
        (upload_worker lane) (upload_dc lane)
  | ArchiveBuild archive _ | ArchiveUpload archive _ _ _ =>
      mkUpload (upload_stage lane) (Some archive) None (tm_artwork_url task) (Some (bp_completed bytes)) (bp_total bytes) (percent bytes)
        (or_else (or_else (extract_archive_codec archive) (jp_codec progress)) (tm_codec task)) None None (upload_worker lane) (upload_dc lane)
  end.

Definition lane_percent (progress : job_progress) : option f32 :=
  or_else (jp_upload progress ≫= fun lane => percent (upload_bytes lane)) (jp_download progress ≫= fun lane => download_bytes lane ≫= percent).

Definition archiving (progress : job_progress) : bool := match jp_upload progress with Some lane => is_archive lane | None => false end.

Definition overall_percent (job : active_job) (progress : job_progress) : option f32 :=
  if archiving progress then lane_percent progress
  else
    match lane_percent progress with
    | Some track_percent =>
        if 0 <? aj_total_tracks job then
          let finished := cached_count job + ripped_count job + failed_count job in
          Some (f32_mul (f32_div (f32_add (f32_of_u finished) (f32_div track_percent (f32_of_u 100))) (f32_of_u (aj_total_tracks job))) (f32_of_u 100))
        else Some track_percent
    | None => None
    end.

Definition next_progress (job : active_job) (progress : job_progress) (task : ServerTaskMeta) : RipTaskProgress :=
  let download := download_lane progress task <$> jp_download progress in
  let uploads := upload_lane progress task <$> jp_uploads progress in
  let upload := head uploads in
  let '(title, artist, artwork) :=
    match upload, download with
    | Some u, _ => (ul_title u, ul_artist u, ul_artwork_url u)
    | None, Some d => (dl_title d, dl_artist d, dl_artwork_url d)
    | None, None => (None, None, None)
    end in
  let total := wrap 32 (aj_total_tracks job) in
  let failed := if 0 <? failed_count job then Some (wrap 32 (failed_count job)) else None in
  let finished := wrap 32 (cached_count job + ripped_count job) in
  let '(index, total, completed, failed) :=
    if album_job job then
      if archiving progress then (None, Some total, Some total, failed)
      else (Some (Z.min (finished + 1) total), Some total, Some finished, failed)
    else (None, None, None, None) in
  mkProgress (task_stage <$> jp_activity progress) download upload uploads (overall_percent job progress) title artist artwork index total completed failed.

(** *** The throttle *)

Definition PROGRESS_UPDATE_INTERVAL : Z := 250.

Definition same_download_phase (a b : option RipTaskDownloadLane) : bool :=
  match a, b with
  | Some a, Some b => bool_decide (dl_stage a = dl_stage b /\ dl_title a = dl_title b /\ dl_artist a = dl_artist b)
  | None, None => true
  | _, _ => false
  end.
Definition same_upload_lane (a b : RipTaskUploadLane) : bool :=
  bool_decide (ul_stage a = ul_stage b /\ ul_title a = ul_title b /\ ul_artist a = ul_artist b /\ ul_worker_id a = ul_worker_id b /\ ul_dc_id a = ul_dc_id b).
Definition same_upload_phase (a b : option RipTaskUploadLane) : bool :=
  match a, b with Some a, Some b => same_upload_lane a b | None, None => true | _, _ => false end.
Definition same_uploads_phase (a b : list RipTaskUploadLane) : bool :=
  (length a =? length b)%nat && forallb (fun p => same_upload_lane (fst p) (snd p)) (zip a b).
Definition same_progress_phase (a b : RipTaskProgress) : bool :=
  same_download_phase (tp_download a) (tp_download b) && same_upload_phase (tp_upload a) (tp_upload b) && same_uploads_phase (tp_uploads a) (tp_uploads b) &&
  bool_decide (job_stage a = job_stage b /\ current_track_title a = current_track_title b /\ current_track_artist a = current_track_artist b /\
               current_track_index a = current_track_index b /\ tp_total_tracks a = tp_total_tracks b /\ completed_tracks a = completed_tracks b).

(** [PartialEq]: no percentage is equal to NaN. *)
Definition percent_eqb (a b : option f32) : bool := match a, b with Some a, Some b => SFeqb a b | None, None => true | _, _ => false end.
Definition download_eqb (a b : option RipTaskDownloadLane) : bool :=
  match a, b with
  | Some a, Some b => percent_eqb (dl_percent a) (dl_percent b) &&
      bool_decide (dl_stage a = dl_stage b /\ dl_title a = dl_title b /\ dl_artist a = dl_artist b /\ dl_artwork_url a = dl_artwork_url b /\ dl_bytes_done a = dl_bytes_done b /\
        dl_bytes_total a = dl_bytes_total b /\ dl_codec a = dl_codec b /\ dl_track_index a = dl_track_index b /\ dl_total_tracks a = dl_total_tracks b)
  | None, None => true
  | _, _ => false
  end.
Definition upload_eqb (a b : RipTaskUploadLane) : bool :=
  same_upload_lane a b && percent_eqb (ul_percent a) (ul_percent b) &&
  bool_decide (ul_artwork_url a = ul_artwork_url b /\ ul_bytes_done a = ul_bytes_done b /\ ul_bytes_total a = ul_bytes_total b /\ ul_codec a = ul_codec b /\
    ul_track_index a = ul_track_index b /\ ul_total_tracks a = ul_total_tracks b).
Definition progress_eqb (a b : RipTaskProgress) : bool :=
  download_eqb (tp_download a) (tp_download b) &&
  (match tp_upload a, tp_upload b with Some a, Some b => upload_eqb a b | None, None => true | _, _ => false end) &&
  ((length (tp_uploads a) =? length (tp_uploads b))%nat && forallb (fun p => upload_eqb (fst p) (snd p)) (zip (tp_uploads a) (tp_uploads b))) &&
  percent_eqb (tp_percent a) (tp_percent b) &&
  bool_decide (job_stage a = job_stage b /\ current_track_title a = current_track_title b /\ current_track_artist a = current_track_artist b /\
    current_track_artwork_url a = current_track_artwork_url b /\ current_track_index a = current_track_index b /\ tp_total_tracks a = tp_total_tracks b /\
    completed_tracks a = completed_tracks b /\ failed_tracks a = failed_tracks b).

(** [should_emit]; the clock is in milliseconds, and the throttle is empty before the first progress. *)
Definition should_emit (now : Z) (progress : RipTaskProgress) (t : option ProgressThrottle) : bool * option ProgressThrottle :=
  match t with
  | None => (true, Some (mkThrottle now progress))
  | Some th =>
      let phase_changed := negb (same_progress_phase (last_progress th) progress) in
      let progress_changed := negb (progress_eqb (last_progress th) progress) in
      let interval_elapsed := PROGRESS_UPDATE_INTERVAL <=? saturating_sub now (last_emitted_at th) in
      if phase_changed || (progress_changed && interval_elapsed) then (true, Some (mkThrottle now progress)) else (false, t)
  end.

(** *** The handler *)

Inductive orchestrator_event :=
| Created (job : active_job)
| Started (job : active_job)
| Progress (job : active_job) (progress : job_progress)
| Completed (job : active_job) (summary : job_summary)
| Cancelled (job : active_job)
| Failed (job : active_job) (error : str).

Definition REMOVAL_DELAY : Z := 1500.

Definition drop_throttle (id : str) (s : server) : server := set_throttles (delete id (throttles s)) s.

(** The end of a job that went wrong: the message is shown, and the task leaves. *)
Definition end_with_error (now : Z) (id error : str) (s : server) : server :=
  leave_at (now + REMOVAL_DELAY) id (notify (Updated id) (snd (update id (set_error (Some error)) s))).

Definition finish_task (task : ServerTaskMeta) : ServerTaskMeta :=
  let p := latest_progress task in
  set_completed true (set_progress (tm_artwork_url task)
    (mkProgress (Some (lit "completed")) (tp_download p) (tp_upload p) (tp_uploads p) (Some (f32_of_u 100)) (current_track_title p) (current_track_artist p)
       (current_track_artwork_url p) (current_track_index p) (tp_total_tracks p) (if tm_is_album task then tp_total_tracks p else completed_tracks p) (failed_tracks p)) task).

Definition on_created (job : active_job) (s : server) : server :=
  match find_task job true s with
  | (None, s) => s
  | (Some task, s) =>
      if decide (tm_controller task ∈ cancelled s) then cancel_token (aj_controller job) s else link (tm_controller task) (aj_controller job) s
  end.

Definition on_progress (now : Z) (job : active_job) (progress : job_progress) (s : server) : server :=
  match find_task job true s with
  | (None, s) => s
  | (Some task, s) =>
      let next := next_progress job progress task in
      let '(emit, t) := should_emit now next (throttles s !! task_id task) in
      let s := set_throttles (match t with Some t => <[task_id task := t]> (throttles s) | None => throttles s end) s in
      if emit then update_task_progress_extended (task_id task) next s else s
  end.

Definition on_completed (now : Z) (job : active_job) (summary : job_summary) (s : server) : server :=
  match find_task job false s with
  | (None, s) => s
  | (Some task, s) =>
      let id := task_id task in
      let s := match js_codec summary with Some c => snd (update id (set_codec (Some c)) s) | None => s end in
      let s := drop_throttle id s in
      if (0 <? js_failed_count summary) || negb (bool_decide (js_failed_tracks summary = [])) then
        end_with_error now id (default (lit "One or more tracks failed") (head (js_failed_tracks summary))) s
      else leave_at (now + REMOVAL_DELAY) id (notify (Updated id) (snd (update id finish_task s)))
  end.

Definition on_event (now : Z) (e : orchestrator_event) (s : server) : server :=
  match e with
  | Created job => on_created job s
  | Started _ => s
  | Progress job progress => on_progress now job progress s
  | Completed job summary => on_completed now job summary s
  | Cancelled job =>
      match find_task job false s with (None, s) => s | (Some task, s) => cancel_active_task (task_id task) (drop_throttle (task_id task) s) end
  | Failed job error =>
      match find_task job false s with (None, s) => s | (Some task, s) => end_with_error now (task_id task) error (drop_throttle (task_id task) s) end
  end.

(** What was spawned: a link passes a cancellation on, in either direction, and a removal is done once its time has come
    ([fail_task] and [complete_task] do the same). *)
Definition pass_on (ab : Z * Z) (s : server) : option server :=
  if decide (fst ab ∈ cancelled s) then Some (cancel_token (snd ab) s)
  else if decide (snd ab ∈ cancelled s) then Some (cancel_token (fst ab) s)
  else None.
Definition take_away (now : Z) (i : nat) (s : server) : option server :=
  '(due, id) ← leaving s !! i;
  if now <? due then None
  else Some (complete_task id (mkServer (tasks s) (cancelled s) (links s) (notices s) (throttles s) (take i (leaving s) ++ drop (S i) (leaving s)) (runs s) (orders s) (next_token s))).
End Registry.

(** ** The system *)

Section System.
Variable iter : gmap str ServerTaskMeta -> list (str * ServerTaskMeta).
Hypothesis iter_perm : forall m, iter m ≡ₚ map_to_list m.
Variable admin_id : Z.

(** With the clock in milliseconds: the requests, the runs that fail, the events, what was spawned, and time. *)
Inductive server_step : Z * server -> Z * server -> Prop :=
| step_create now s user request_id request album_parts track_rows cuid :
    server_step (now, s) (now, snd (create_task iter user request_id request album_parts track_rows cuid s))
| step_cancel now s user request_id id : server_step (now, s) (now, snd (cancel_task user admin_id request_id id s))
| step_run_failed now s r : r ∈ runs s -> server_step (now, s) (now, run_failed r s)
| step_event now s e : server_step (now, s) (now, on_event iter now e s)
| step_link now s ab s' : ab ∈ links s -> pass_on ab s = Some s' -> server_step (now, s) (now, s')
| step_leave now s i s' : take_away now i s = Some s' -> server_step (now, s) (now, s')
| step_time now now' s : now <= now' -> server_step (now, s) (now', s).

Definition empty_server : server := mkServer ∅ ∅ [] [] ∅ [] [] [] 0.

Definition ended (m : ServerTaskMeta) : Prop := tm_completed m = true \/ tm_error m <> None.
Definition leaves (now : Z) (s : server) (id : str) : Prop := exists due, (due, id) ∈ leaving s /\ due <= now + REMOVAL_DELAY.
Definition entry_ok (now : Z) (l : list (Z * str)) (id : str) (m : ServerTaskMeta) : Prop :=
  task_id m = id /\ (ended m -> exists due, (due, id) ∈ l /\ due <= now + REMOVAL_DELAY).
Definition tasks_ok (now : Z) (s : server) : Prop := forall id m, tasks s !! id = Some m -> entry_ok now (leaving s) id m.

(** A change that leaves the name and the end of a task alone. *)
Definition keeps (f : ServerTaskMeta -> ServerTaskMeta) : Prop :=
  forall m, task_id (f m) = task_id m /\ tm_completed (f m) = tm_completed m /\ tm_error (f m) = tm_error m.

Lemma keeps_ok now l f id m : keeps f -> entry_ok now l id m -> entry_ok now l id (f m).
Proof. intros Hf [H1 H2]. destruct (Hf m) as (E1 & E2 & E3). split; [congruence|]. unfold ended. by rewrite E2, E3. Qed.

Lemma insert_ok now id m s : tasks_ok now s -> entry_ok now (leaving s) id m -> tasks_ok now (insert_task id m s).
Proof.
  intros H Hm k m'. cbn. intros [[<- <-]|[Hne Hk]]%lookup_insert_Some; [exact Hm|by apply H].
Qed.

Lemma first_matching_in p s id m : first_matching iter p s = Some (id, m) -> tasks s !! id = Some m /\ p m = true.
Proof.
  unfold first_matching. destruct (list_find _ _) as [[i kv]|] eqn:E; [|done]. intros [= ->].
  apply list_find_Some in E as (Hi & Hp & _). split; [|done]. apply elem_of_map_to_list. rewrite <-iter_perm.
  by apply list_elem_of_lookup_2 in Hi.
Qed.

Lemma named_keeps job title artist : keeps (named_update job title artist).
Proof. intros m. unfold named_update. repeat case_match; done. Qed.
Lemma bot_keeps job title artist : keeps (bot_update job title artist).
Proof. intros m. unfold bot_update. by case_match. Qed.
Lemma claimed_keeps job : keeps (claimed_update job).
Proof. intros m. unfold claimed_update. by case_match. Qed.
Lemma progress_keeps p : keeps (with_progress p).
Proof. done. Qed.
Lemma codec_keeps c : keeps (set_codec c).
Proof. done. Qed.

(** What [find_task] returns is registered under its name; nothing else changes hands. *)
Lemma find_task_spec now job reg s o s' : tasks_ok now s -> find_task iter job reg s = (o, s') ->
  tasks_ok now s' /\ leaving s' = leaving s /\ forall task, o = Some task -> tasks s' !! task_id task = Some task.
Proof.
  intros H. unfold find_task. destruct (parse_job_title_and_artist _ _) as [title artist].
  set (first := match aj_user_name job with Some uname => _ | None => _ end).
  assert (forall o' s1, first = (o', s1) -> tasks_ok now s1 /\ leaving s1 = leaving s /\
    (forall task, o' = Some task -> tasks s1 !! task_id task = Some task) /\ (o' = None -> s1 = s)) as Hfirst.
  { intros o' s1. subst first. destruct (aj_user_name job) as [uname|]; [|intros [= <- <-]; by split_and!].
    unfold update_and_get. destruct (tasks s !! uname) as [m|] eqn:E; intros [= <- <-]; [|by split_and!].
    specialize (H _ _ E) as Hm. split; [by apply insert_ok, keeps_ok; [..|apply named_keeps|]|]. split; [done|]. split; [|done].
    intros task [= <-]. destruct (named_keeps job title artist m) as (-> & _). destruct Hm as [-> _]. cbn. apply lookup_insert_eq. }
  destruct first as [named s1]. destruct (Hfirst _ _ eq_refl) as (H1 & L1 & T1 & N1). destruct named as [task|]; [intros [= <- <-]; by split_and!|].
  specialize (N1 eq_refl) as ->. clear Hfirst T1 H1 L1.
  assert (forall p f, keeps f -> forall o' s1, update_first_matching iter p f s = (o', s1) -> tasks_ok now s1 /\ leaving s1 = leaving s /\
    (forall task, o' = Some task -> tasks s1 !! task_id task = Some task) /\ (o' = None -> s1 = s)) as Hmatch.
  { intros p f Hf o' s1. unfold update_first_matching. destruct (first_matching iter p s) as [[id m]|] eqn:E; intros [= <- <-]; [|by split_and!].
    apply first_matching_in in E as [E _]. specialize (H _ _ E) as Hm. split; [by apply insert_ok, keeps_ok|]. split; [done|]. split; [|done].
    intros task [= <-]. destruct (Hf m) as (-> & _). destruct Hm as [-> _]. cbn. apply lookup_insert_eq. }
  destruct (update_first_matching iter _ (bot_update job title artist) s) as [o1 s1] eqn:E1.
  destruct (Hmatch _ _ (bot_keeps job title artist) _ _ E1) as (H1 & L1 & T1 & N1). destruct o1 as [task|]; [intros [= <- <-]; by split_and!|].
  specialize (N1 eq_refl) as ->. clear E1 T1 H1 L1.
  destruct (update_first_matching iter _ (claimed_update job) s) as [o1 s1] eqn:E1.
  destruct (Hmatch _ _ (claimed_keeps job) _ _ E1) as (H1 & L1 & T1 & N1). destruct o1 as [task|]; [intros [= <- <-]; by split_and!|].
  specialize (N1 eq_refl) as ->. destruct reg; cbn [negb]; [|intros [= <- <-]; by split_and!].
  cbn. intros [= <- <-]. split; [|split; [done|intros task [= <-]; apply lookup_insert_eq]].
  apply (insert_ok now _ (bot_task job title artist (next_token s)) (snd (fresh_token s))); [done|]. split; [done|]. by intros [?|?].
Qed.

Lemma update_lookup id f s m : tasks s !! id = Some m -> update id f s = (true, insert_task id (f m) s).
Proof. unfold update. by intros ->. Qed.

Lemma removal_ok now s id l : (forall d k, (d, k) ∈ leaving s -> k <> id -> (d, k) ∈ l) -> tasks_ok now s ->
  forall k m, delete id (tasks s) !! k = Some m -> entry_ok now l k m.
Proof.
  intros Hl H k m [Hne Hk]%lookup_delete_Some. destruct (H _ _ Hk) as [H1 H2]. split; [done|]. intros He. destruct (H2 He) as (due & Hd & Hle).
  exists due. split; [by apply Hl|done].
Qed.

Lemma remove_active_ok now id s : tasks_ok now s -> tasks_ok now (snd (remove_active_task id s)).
Proof.
  intros H. unfold remove_active_task, remove. destruct (tasks s !! id) eqn:E; cbn; intros k m; cbn; by apply (removal_ok now s id (leaving s)).
Qed.

Lemma stop_task_frame task s : tasks (stop_task task s) = tasks s /\ leaving (stop_task task s) = leaving s.
Proof. unfold stop_task. by case_decide. Qed.

Lemma frame_ok now s s' : tasks s' = tasks s -> leaving s' = leaving s -> tasks_ok now s -> tasks_ok now s'.
Proof. intros E1 E2 H id m. rewrite E1, E2. apply H. Qed.

(** The end of a task: it is marked, and leaves. *)
Lemma ending_ok now id f s : (forall m, task_id (f m) = task_id m) -> tasks_ok now s ->
  tasks_ok now (leave_at (now + REMOVAL_DELAY) id (notify (Updated id) (snd (update id f s)))).
Proof.
  intros Hf H k m. unfold update. destruct (tasks s !! id) as [m0|] eqn:E; cbn.
  - intros [[<- <-]|[Hne Hk]]%lookup_insert_Some.
    + split; [rewrite Hf; by apply (H _ _ E)|]. intros _. exists (now + REMOVAL_DELAY). split; [|lia]. apply elem_of_app. right. by apply list_elem_of_singleton.
    + destruct (H _ _ Hk) as [H1 H2]. split; [done|]. intros He. destruct (H2 He) as (due & Hd & Hle). exists due. split; [|done]. apply elem_of_app. by left.
  - intros Hk. destruct (H _ _ Hk) as [H1 H2]. split; [done|]. intros He. destruct (H2 He) as (due & Hd & Hle). exists due. split; [|done]. apply elem_of_app. by left.
Qed.

Lemma event_ok now e s : tasks_ok now s -> tasks_ok now (on_event iter now e s).
Proof.
  intros H. destruct e as [job|job|job progress|job summary|job|job error]; cbn; [..|].
  - unfold on_created. destruct (find_task iter job true s) as [o s1] eqn:E. destruct (find_task_spec now _ _ _ _ _ H E) as (H1 & L1 & T1).
    destruct o as [task|]; [|done]. by case_decide; eapply frame_ok.
  - done.
  - unfold on_progress. destruct (find_task iter job true s) as [o s1] eqn:E. destruct (find_task_spec now _ _ _ _ _ H E) as (H1 & L1 & T1).
    destruct o as [task|]; [|done]. destruct (should_emit _ _ _) as [emit t]. set (s2 := set_throttles _ s1).
    assert (tasks_ok now s2) as H2 by by eapply frame_ok. destruct emit; [|done]. unfold update_task_progress_extended.
    rewrite (update_lookup (task_id task) _ s2 task) by by apply T1. cbn. eapply frame_ok; [..|apply (insert_ok now (task_id task) (with_progress (next_progress job progress task) task) s2 H2)]; [done..|].
    apply keeps_ok; [apply progress_keeps|]. apply H2. by apply T1.
  - unfold on_completed. destruct (find_task iter job false s) as [o s1] eqn:E. destruct (find_task_spec now _ _ _ _ _ H E) as (H1 & L1 & T1).
    destruct o as [task|]; [|done]. set (s2 := match js_codec summary with Some c => _ | None => s1 end).
    assert (tasks_ok now s2) as H2.
    { subst s2. destruct (js_codec summary) as [c|]; [|done]. rewrite (update_lookup (task_id task) _ s1 task) by by apply T1.
      apply insert_ok; [done|]. apply keeps_ok; [apply codec_keeps|]. apply H1. by apply T1. }
    assert (tasks_ok now (drop_throttle (task_id task) s2)) as H3 by by eapply frame_ok.
    case_match; [by apply ending_ok|]. by apply ending_ok.
  - destruct (find_task iter job false s) as [o s1] eqn:E. destruct (find_task_spec now _ _ _ _ _ H E) as (H1 & L1 & T1).
    destruct o as [task|]; [|done]. set (s2 := drop_throttle (task_id task) s1). assert (tasks_ok now s2) as H2 by by eapply frame_ok.
    pose proof (remove_active_ok now (task_id task) s2 H2) as H3. unfold cancel_active_task. destruct (remove_active_task (task_id task) s2) as [[t|] s3]; [|done].
    destruct (stop_task_frame t s3). by eapply frame_ok.
  - destruct (find_task iter job false s) as [o s1] eqn:E. destruct (find_task_spec now _ _ _ _ _ H E) as (H1 & L1 & T1).
    destruct o as [task|]; [|done]. apply ending_ok; [done|]. by eapply frame_ok.
Qed.

Lemma create_ok now user request_id request ap tr cuid s : tasks_ok now s -> tasks_ok now (snd (create_task iter user request_id request ap tr cuid s)).
Proof.
  intros H. unfold create_task. case_decide; [done|]. destruct (target request) as [[id is_album]|]; [|done].
  destruct (if is_album then _ else _) as [[[] found]|]; [done| |done]. cbn. unfold reserve_task, insert_unique.
  destruct (first_matching iter _ _) as [[k existing]|]; cbn; [by eapply frame_ok|].
  set (m := mkMeta _ _ _ _ _ _ _ _ _ _ _ _ _ _ _ _). set (s1 := mkServer _ _ _ _ _ _ _ _ _) at 1.
  eapply (frame_ok now (insert_task (task_id m) m s)); [done..|]. apply insert_ok; [done|]. split; [done|]. by intros [?|?].
Qed.

Lemma cancel_ok now user request_id id s : tasks_ok now s -> tasks_ok now (snd (cancel_task user admin_id request_id id s)).
Proof.
  intros H. unfold cancel_task, remove_task_if_authorized, remove_if. case_decide; [done|].
  destruct (tasks s !! id) as [task|]; [|done]. destruct ((user =? owner_id task) || (user =? admin_id)); cbn; [|done].
  destruct (stop_task_frame task (notify (Dismissed id) (set_tasks (delete id (tasks s)) s))) as [E1 E2].
  intros k m. rewrite E1, E2. by apply (removal_ok now s id (leaving s)).
Qed.

Lemma leave_ok now i s s' : tasks_ok now s -> take_away now i s = Some s' -> tasks_ok now s'.
Proof.
  intros H. unfold take_away. destruct (leaving s !! i) as [[due id]|] eqn:E; cbn [mbind option_bind]; [|done]. destruct (now <? due); [done|]. intros [= <-].
  unfold complete_task, remove_active_task, remove. cbn.
  assert (forall d k, (d, k) ∈ leaving s -> k <> id -> (d, k) ∈ take i (leaving s) ++ drop (S i) (leaving s)) as Hl.
  { intros d k Hin Hne. rewrite <-(take_drop_middle _ _ _ E), elem_of_app, elem_of_cons in Hin. apply elem_of_app. destruct Hin as [?|[[= -> ->]|?]]; [by left|done|by right]. }
  destruct (tasks s !! id); cbn; intros k m; cbn; by apply (removal_ok now s id).
Qed.

Lemma step_ok x x' : server_step x x' -> tasks_ok x.1 x.2 -> tasks_ok x'.1 x'.2.
Proof.
  intros Hs H. destruct Hs as [now s user rid r ap tr cuid|now s user rid id|now s r Hr|now s e|now s ab s' Hin Hp|now s i s' Hp|now now' s Hle]; cbn in *.
  - by apply create_ok.
  - by apply cancel_ok.
  - by apply remove_active_ok.
  - by apply event_ok.
  - unfold pass_on in Hp. repeat case_decide; simplify_eq; by eapply frame_ok.
  - by eapply leave_ok.
  - intros id m Hm. destruct (H _ _ Hm) as [H1 H2]. split; [done|]. intros He. destruct (H2 He) as (due & Hd & Hdue). exists due. split; [done|lia].
Qed.

Lemma steps_ok x : steps server_step (0, empty_server) x -> tasks_ok x.1 x.2.
Proof.
  intros H. refine (steps_invariant server_step (fun x => tasks_ok x.1 x.2) _ _ _ H _); [intros s s' Hs Hstep; by apply (step_ok s s')|].
  intros id m Hm. cbn in Hm. destruct (lookup_empty_Some id m Hm).
Qed.

(** ** Properties *)

(** C24: every task is registered under its own name, and a task that has ended is taken away within a second and a
    half: while it is there its removal is scheduled, no later than that from now, and once its time has come the
    removal takes it out. *)
Theorem ended_tasks_leave (x : Z * server) (id : str) (m : ServerTaskMeta) :
  steps server_step (0, empty_server) x -> tasks x.2 !! id = Some m ->
  task_id m = id /\
  (tm_completed m = true \/ tm_error m <> None ->
   exists i due, leaving x.2 !! i = Some (due, id) /\ due <= x.1 + 1500 /\
     forall now', due <= now' -> exists s', take_away now' i x.2 = Some s' /\ tasks s' !! id = None).
Proof.
  intros Hs Hm. destruct (steps_ok x Hs id m Hm) as [H1 H2]. split; [done|]. intros He. destruct (H2 He) as (due & (i & Hi)%list_elem_of_lookup & Hdue).
  exists i, due. split; [done|]. split; [exact Hdue|]. intros now' Hn. unfold take_away. rewrite Hi. cbn [mbind option_bind].
  rewrite (proj2 (Z.ltb_ge now' due)) by done. eexists. split; [done|]. unfold complete_task, remove_active_task, remove. cbn. rewrite Hm. cbn. apply lookup_delete_eq.
Qed.
End System.

(** C23: only its owner or the administrator cancels a task; then it is gone, its token is cancelled, the job it is
    known to belong to is told to stop, and the clients are told.  Otherwise nothing changes. *)
Theorem cancel_only_by_owner (user admin_id : Z) (request_id id : str) (s : server) :
  match cancel_task user admin_id request_id id s with
  | (Ok _, s') => exists task, tasks s !! id = Some task /\ (user = owner_id task \/ user = admin_id) /\ tasks s' = delete id (tasks s) /\
      tm_controller task ∈ cancelled s' /\ notices s' = notices s ++ [Dismissed id] /\
      orders s' = orders s ++ (if decide (rip_task_id task = []) then [] else [rip_task_id task])
  | (Err e, s') => s' = s /\
      match re_code e with
      | Validation => trim request_id = [] \/ trim id = []
      | NotFoundCode => tasks s !! id = None
      | NotAuthorized => exists task, tasks s !! id = Some task /\ user <> owner_id task /\ user <> admin_id
      | _ => False
      end
  end.
Proof.
  unfold cancel_task, remove_task_if_authorized, remove_if. case_decide as Hv; [by split|].
  destruct (tasks s !! id) as [task|] eqn:E; [|by split].
  destruct (Z.eqb_spec user (owner_id task)), (Z.eqb_spec user admin_id); cbn; [..|split; [done|by exists task]];
    (exists task; split; [done|]; split; [tauto|]; unfold stop_task; case_decide; cbn; split_and!; try done; try set_solver; by rewrite app_nil_r).
Qed.

(** What a task shows is not forgotten: a title, an artwork or a total once known stays known, and while an archive
    is moved the tracks count as done. *)
Theorem progress_never_forgets (progress : RipTaskProgress) (task : ServerTaskMeta) :
  let task' := with_progress progress task in
  (is_Some (tm_title task) -> tm_title task' = tm_title task) /\ (is_Some (tm_artist task) -> tm_artist task' = tm_artist task) /\
  (is_Some (tm_artwork_url task) -> is_Some (tm_artwork_url task')) /\
  (is_Some (tp_total_tracks (latest_progress task)) -> is_Some (tp_total_tracks (latest_progress task'))) /\
  (is_Some (current_track_title (latest_progress task)) -> is_Some (current_track_title (latest_progress task'))) /\
  (match tp_upload progress with Some lane => is_archive_stage (ul_stage lane) | None => false end = true ->
     completed_tracks (latest_progress task') = tp_total_tracks (latest_progress task') /\ is_Some (tm_title task')).
Proof.
  unfold with_progress, merged. destruct (match tp_upload progress with Some lane => _ | None => _ end); cbn; unfold or_else; split_and!; intros; destruct_and?;
    repeat match goal with H : is_Some _ |- _ => destruct H as [? ->] end; repeat case_match; eauto; done.
Qed.

(** The progress that passes the throttle. *)
Fixpoint emissions (t : option ProgressThrottle) (ps : list (Z * RipTaskProgress)) : list (Z * RipTaskProgress) :=
  match ps with
  | [] => []
  | (now, p) :: ps => let '(emit, t) := should_emit now p t in (if emit then [(now, p)] else []) ++ emissions t ps
  end.

Fixpoint spaced (a : Z * RipTaskProgress) (es : list (Z * RipTaskProgress)) : Prop :=
  match es with
  | [] => True
  | b :: es => (same_progress_phase a.2 b.2 = false \/ a.1 + PROGRESS_UPDATE_INTERVAL <= b.1) /\ spaced b es
  end.

Lemma emissions_spaced ps : forall th, StronglySorted (fun a b => a.1 <= b.1) ((last_emitted_at th, last_progress th) :: ps) ->
  spaced (last_emitted_at th, last_progress th) (emissions (Some th) ps).
Proof.
  induction ps as [|[now p] ps IH]; intros th Hs; [done|]. apply StronglySorted_inv in Hs as [Hs Hall]. apply Forall_cons in Hall as [Hle Hall]. cbn in Hle.
  apply StronglySorted_inv in Hs as [Hs Hnow]. cbn [emissions should_emit].
  destruct (negb (same_progress_phase (last_progress th) p) || _) eqn:E; cbn [app].
  - split; [|apply (IH (mkThrottle now p)); by constructor]. cbn.
    apply orb_true_iff in E as [E|E]; [left; by apply negb_true_iff in E|right].
    apply andb_true_iff in E as [_ E]. to_prop. unfold saturating_sub, PROGRESS_UPDATE_INTERVAL in *. lia.
  - apply IH. by constructor.
Qed.

(** The updates that clients are sent of a job are a quarter of a second apart, unless its phase has changed; the
    first is always sent. *)
Theorem progress_throttled (now : Z) (p : RipTaskProgress) (ps : list (Z * RipTaskProgress)) :
  StronglySorted (fun a b => a.1 <= b.1) ((now, p) :: ps) ->
  exists es, emissions None ((now, p) :: ps) = (now, p) :: es /\ spaced (now, p) es.
Proof. intros H. eexists. split; [reflexivity|]. by apply (emissions_spaced ps (mkThrottle now p)). Qed.

(** ** Witnesses *)

Definition demo_shown (stage : string) : RipTaskProgress := mkProgress (Some (lit stage)) None None [] None None None None None None None None.

Lemma progress_throttled_witness :
  exists es, emissions None [(0, demo_shown "resolving"); (10, demo_shown "queued")] = (0, demo_shown "resolving") :: es /\ spaced (0, demo_shown "resolving") es.
Proof. apply (progress_throttled 0 (demo_shown "resolving") [(10, demo_shown "queued")]). repeat first [cbn; lia | constructor]. Defined.

Definition demo_iter (m : gmap str ServerTaskMeta) : list (str * ServerTaskMeta) := map_to_list m.
Definition demo_asked : RipTaskRequest := mkTaskRequest (Some (lit "415")) None.
Definition demo_job : active_job := mkActive (lit "j") [lit "415"] 7 (Some (lit "task_x")) (lit "<b>Song</b> - <b>Artist</b>") 1 100 0 0 0.
(** Nothing is cached, and user 7 asks for a track. *)
Definition demo_create (request_id cuid : string) (s : server) : result RipTaskRpcError RipTaskRpcSuccess * server :=
  create_task demo_iter 7 (lit request_id) demo_asked (fun _ => Some []) (fun _ => Some []) (lit cuid) s.
Definition demo_failed : server := on_event demo_iter 0 (Failed demo_job (lit "offline")) (snd (demo_create "r" "x" empty_server)).

Lemma ended_tasks_leave_witness :
  exists m, tasks demo_failed !! lit "task_x" = Some m /\ task_id m = lit "task_x" /\
    exists i due, leaving demo_failed !! i = Some (due, lit "task_x") /\ due <= 0 + 1500 /\
      forall now', due <= now' -> exists s', take_away now' i demo_failed = Some s' /\ tasks s' !! lit "task_x" = None.
Proof.
  destruct (tasks demo_failed !! lit "task_x") as [m|] eqn:E; [|by vm_compute in E]. exists m. split; [done|].
  destruct (ended_tasks_leave demo_iter (fun m => reflexivity _) 1 (0, demo_failed) (lit "task_x") m) as [H1 H2].
  - eapply steps_cons; [apply (step_create demo_iter 1 0 empty_server 7 (lit "r") demo_asked (fun _ => Some []) (fun _ => Some []) (lit "x"))|].
    eapply steps_cons; [apply (step_event demo_iter 1 0 _ (Failed demo_job (lit "offline")))|]. apply steps_refl.
  - exact E.
  - split; [exact H1|]. apply H2. right. vm_compute in E. by injection E as <-.
Defined.

(** ** Shortcomings *)

(** A cancellation between the start of the runner and the creation of the job is lost: the task is gone when the
    job is announced, the job gets a task of its own with a new token, and runs on. *)
Theorem cancelled_before_created_runs_on (settings : BotSettings) :
  let s1 := snd (demo_create "r" "x" empty_server) in
  let '(reply, s2) := cancel_task 7 1 (lit "r2") (lit "task_x") s1 in
  let s3 := on_event demo_iter 0 (Created demo_job) s2 in
  (exists r, runs s1 = [r] /\ is_Some (run_options settings 1 r s1)) /\ reply = Ok (RCancelled (lit "r2") (lit "task_x")) /\
  orders s3 = [] /\ aj_controller demo_job ∉ cancelled s3 /\ (forall ab, ab ∈ links s3 -> pass_on ab s3 = None) /\
  is_Some (tasks s3 !! lit "bot_j").
Proof.
  split; [eexists; split; [reflexivity|]; unfold run_options; rewrite decide_False; [by eexists|]; apply (bool_decide_unpack _); by vm_compute|].
  split; [by vm_compute|]. split; [by vm_compute|]. split; [apply (bool_decide_unpack _); by vm_compute|]. split.
  - intros ab Hab. change (ab ∈ [(1, 100)]) in Hab. apply list_elem_of_singleton in Hab as ->. by vm_compute.
  - apply (bool_decide_unpack _); by vm_compute.
Qed.

(** Until a failed task is taken away a new request for its track is told to wait for it: no run is started, and
    the task it was given disappears. *)
Theorem create_joins_failed_task :
  fst (demo_create "again" "y" demo_failed) = Ok (RCreated (lit "again") (lit "task_x") SQueued None) /\
  runs (snd (demo_create "again" "y" demo_failed)) = runs demo_failed /\
  (tasks (snd (demo_create "again" "y" demo_failed)) !! lit "task_x" ≫= tm_error) = Some (lit "offline") /\
  (tasks <$> take_away 1500 0 (snd (demo_create "again" "y" demo_failed))) = Some ∅.
Proof. split; [by vm_compute|]. split; [by vm_compute|]. split; by vm_compute. Qed.
