(* ===== verification/TelegramSink.v ===== *)
(** * TelegramSink: delivery over Telegram (crates/bot/src/telegram_sink.rs)

    The watch over an upload, which drops a transfer that makes no progress; the attempts of a publication to the
    dump chat, with the worker pool they lease their clients from; the deliveries to a chat and the retraction of
    dump messages.  The Telegram client is met through its answers; what the code asks of it is kept in order. *)
From Stdlib Require Import Sorted.
From stdpp Require Import sorting.
From S2P Require Import Prelude Text Interfaces StreamTypes CircuitBreaker WorkerPool Delivery Captions.

#[local] Open Scope Z_scope.

Definition MAX_CAPTION_UTF16_LEN : Z := 1024.
Definition MAX_TELEGRAM_TRACK_BYTES : Z := 2000000000.
Definition MAX_UPLOAD_ATTEMPTS : nat := 3.
(** Milliseconds. *)
Definition UPLOAD_STALL_TIMEOUT : Z := 45000.

(** ** The watch over an upload *)

Section Watch.
Context {T : Type}.

(** One wake-up of the select: its time, what the transfer answers, whether the interval ticks, and the counters
    ([done], [total]) as they are read. *)
Record poll := mkPoll { at_ : Z; answer : option (result DeliveryError T); tick : bool; done_ : Z; total : Z }.

Record watch := mkWatch { last_done : Z; deadline : Z }.

Definition invalid_progress (p : poll) : bool := (0 <? total p) && (total p <? done_ p).
Definition invalid_error (p : poll) : DeliveryError :=
  Transient (lit "invalid upload progress: " ++ show_u (done_ p) ++ lit " exceeds " ++ show_u (total p) ++ lit " bytes").
Definition stall_error (stall : Z) (p : poll) : DeliveryError :=
  Transient (lit "upload made no progress for " ++ show_u (stall / 1000) ++ lit " seconds (" ++
             show_u (done_ p) ++ lit "/" ++ show_u (total p) ++ lit " bytes)").

(** One turn of the loop: the result, or the next state; and what the callback is told. *)
Definition watch_turn (stall : Z) (w : watch) (p : poll) : (result DeliveryError T + watch) * list (Z * Z) :=
  match answer p with
  | Some (Ok v) => if invalid_progress p then (inl (Err (invalid_error p)), []) else (inl (Ok v), [(done_ p, total p)])
  | Some (Err e) => (inl (Err e), [])
  | None =>
      if deadline w <=? at_ p then
        if negb (done_ p =? last_done w) then (inr (mkWatch (done_ p) (at_ p + stall)), [])
        else (inl (Err (stall_error stall p)), [])
      else if tick p then
        if invalid_progress p then (inl (Err (invalid_error p)), [])
        else (inr (if negb (done_ p =? last_done w) then mkWatch (done_ p) (at_ p + stall) else w), [(done_ p, total p)])
      else (inr w, [])
  end.

(** The loop over the wake-ups so far; [inr] while it still watches. *)
Fixpoint watch_loop (stall : Z) (w : watch) (ps : list poll) (reports : list (Z * Z)) :
    (result DeliveryError T + watch) * list (Z * Z) :=
  match ps with
  | [] => (inr w, reports)
  | p :: ps =>
      match watch_turn stall w p with
      | (inl r, more) => (inl r, reports ++ more)
      | (inr w, more) => watch_loop stall w ps (reports ++ more)
      end
  end.

Definition monitor_upload (start done0 stall : Z) (ps : list poll) : (result DeliveryError T + watch) * list (Z * Z) :=
  watch_loop stall (mkWatch done0 (start + stall)) ps [].

(** *** Lemmas *)

Lemma watch_loop_app stall ps1 ps2 w rs :
  watch_loop stall w (ps1 ++ ps2) rs =
    match watch_loop stall w ps1 rs with
    | (inl r, rs) => (inl r, rs)
    | (inr w, rs) => watch_loop stall w ps2 rs
    end.
Proof.
  revert w rs. induction ps1 as [|p ps1 IH]; intros w rs; [done|]. cbn.
  destruct (watch_turn stall w p) as [[r|w'] more]; [done|apply IH].
Qed.

Lemma watch_loop_snoc stall ps p w rs w' rs' :
  watch_loop stall w ps rs = (inr w', rs') ->
  watch_loop stall w (ps ++ [p]) rs = (fst (watch_turn stall w' p), rs' ++ snd (watch_turn stall w' p)).
Proof. intros H. rewrite watch_loop_app, H. cbn. by destruct (watch_turn stall w' p) as [[]?]. Qed.

(** A turn that goes on samples the counters at a tick or at the deadline, or leaves the state alone. *)
Lemma watch_turn_goes_on stall w p w' rs :
  watch_turn stall w p = (inr w', rs) ->
  answer p = None /\
  (w' = mkWatch (done_ p) (at_ p + stall) /\ done_ p <> last_done w /\ (deadline w <= at_ p \/ tick p = true) \/
   w' = w /\ at_ p < deadline w /\ (tick p = true -> done_ p = last_done w)).
Proof.
  unfold watch_turn. destruct (answer p) as [[]|]; [by case_match|done|]. intros H. split; [done|].
  destruct (Z.leb_spec (deadline w) (at_ p)); [|destruct (tick p); [destruct (invalid_progress p); [done|]|]];
    try (destruct (Z.eqb_spec (done_ p) (last_done w)); cbn in H; simplify_eq/=); naive_solver.
Qed.

(** The deadline is the time of the last change plus the timeout, and every sample since shows the same count. *)
Definition watched (stall t0 : Z) (seen : list poll) (w : watch) : Prop :=
  t0 + stall <= deadline w /\
  forall p, p ∈ seen -> tick p = true -> deadline w - stall < at_ p -> done_ p = last_done w.

Lemma watch_loop_watched stall t0 : 0 <= stall -> forall ps w rs seen w' rs',
  StronglySorted Z.le (at_ <$> seen ++ ps) -> watched stall t0 seen w -> Forall (fun p => t0 <= at_ p) ps ->
  watch_loop stall w ps rs = (inr w', rs') -> watched stall t0 (seen ++ ps) w'.
Proof.
  intros Hstall. induction ps as [|p ps IH]; intros w rs seen w' rs' Hsort Hw Hfrom Hrun.
  { cbn in Hrun. simplify_eq. by rewrite app_nil_r. }
  apply Forall_cons in Hfrom as [Hp Hfrom]. cbn in Hrun.
  destruct (watch_turn stall w p) as [[r|w1] more] eqn:E; [done|].
  rewrite (app_assoc seen [p] ps : seen ++ p :: ps = _) in Hsort |- *.
  eapply IH; [exact Hsort| |exact Hfrom|exact Hrun].
  apply watch_turn_goes_on in E as (_ & [(-> & _ & _)|(-> & Hlt & Hsame)]); destruct Hw as [Hd Hsince].
  - split; cbn; [lia|]. intros q Hq _ Hlt. exfalso.
    apply elem_of_app in Hq as [Hq|Hq%list_elem_of_singleton]; [|subst; lia].
    enough (at_ q <= at_ p) by lia. rewrite <-app_assoc, fmap_app in Hsort.
    eapply StronglySorted_app_1_elem_of; [exact Hsort|by apply list_elem_of_fmap_2|cbn; left].
  - split; [done|]. intros q [Hq|Hq%list_elem_of_singleton]%elem_of_app Ht Hlt'; [by apply Hsince|]. subst q. by apply Hsame.
Qed.

(** While the count stays [d], the state changes once at most, to [d]. *)
Lemma watch_loop_steady stall d bound ps : forall w rs w' rs',
  Forall (fun p => done_ p = d /\ at_ p <= bound) ps -> watch_loop stall w ps rs = (inr w', rs') ->
  w' = w \/ last_done w <> d /\ last_done w' = d /\ deadline w' <= bound + stall.
Proof.
  induction ps as [|p ps IH]; intros w rs w' rs' Hall Hrun; cbn in Hrun; [simplify_eq; by left|].
  apply Forall_cons in Hall as [[Hd Hat] Hall].
  destruct (watch_turn stall w p) as [[r|w1] more] eqn:E; [done|]. specialize (IH _ _ _ _ Hall Hrun).
  apply watch_turn_goes_on in E as (_ & [(-> & Hne & _)|(-> & _)]); [|done].
  right. cbn in IH. destruct IH as [->|(Habs & _)]; cbn; [|congruence]. split_and!; [congruence|done|lia].
Qed.

(** A turn at or past the deadline with the count unchanged ends. *)
Lemma watch_turn_overdue stall w p : deadline w <= at_ p -> done_ p = last_done w -> exists r rs, watch_turn stall w p = (inl r, rs).
Proof.
  intros Hd Hs. unfold watch_turn. destruct (answer p) as [[]|]; [case_match|..]; eauto.
  rewrite (proj2 (Z.leb_le _ _) Hd), (proj2 (Z.eqb_eq _ _) Hs). cbn. eauto.
Qed.

(** C29: the watch gives up a pending transfer only when its counter passes its total, or when at least the timeout has
    passed and every sample of the last [stall] milliseconds shows the same count. *)
Theorem upload_dropped_only_when_stalled start done0 stall ps q w rs r rs' :
  0 <= stall -> StronglySorted Z.le (at_ <$> ps ++ [q]) -> Forall (fun p => start <= at_ p) ps ->
  monitor_upload start done0 stall ps = (inr w, rs) -> answer q = None ->
  monitor_upload start done0 stall (ps ++ [q]) = (inl r, rs') ->
  r = Err (invalid_error q) /\ 0 < total q < done_ q \/
  r = Err (stall_error stall q) /\ start + stall <= at_ q /\
    forall p, p ∈ ps -> tick p = true -> at_ q - stall < at_ p -> done_ p = done_ q.
Proof.
  intros Hst Hsort Hfrom Hw Hans Hend. unfold monitor_upload in *. rewrite (watch_loop_snoc _ _ _ _ _ _ _ Hw) in Hend.
  assert (watched stall start ps w) as [Hd Hsince].
  { apply (watch_loop_watched stall start Hst ps (mkWatch done0 (start + stall)) [] [] w rs); [|split; cbn; [lia|set_solver]|done|done].
    rewrite fmap_app in Hsort. by apply StronglySorted_app_1_l in Hsort. }
  unfold watch_turn in Hend. rewrite Hans in Hend. unfold invalid_progress in Hend.
  destruct (Z.leb_spec (deadline w) (at_ q)).
  - destruct (Z.eqb_spec (done_ q) (last_done w)) as [Hq|]; cbn in Hend; simplify_eq/=.
    right. split_and!; [done|lia|]. intros p Hp Ht Hlt. rewrite Hq. apply Hsince; [done|done|lia].
  - destruct (tick q); [|by cbn in Hend]. destruct (_ && _) eqn:E; [|by cbn in Hend].
    cbn in Hend. simplify_eq. left. split; [done|zb].
Qed.

(** C30: a transfer whose count does not change any more never outlives two timeouts: once a wake-up comes after the
    first deadline and another a timeout later, the watch has ended. *)
Theorem stalled_upload_ends start done0 stall d ps1 p1 ps2 p2 :
  0 <= stall -> StronglySorted Z.le (at_ <$> ps1 ++ p1 :: ps2 ++ [p2]) ->
  Forall (fun p => done_ p = d) (ps1 ++ p1 :: ps2 ++ [p2]) ->
  start + stall <= at_ p1 -> at_ p1 + stall <= at_ p2 ->
  exists r rs, monitor_upload start done0 stall (ps1 ++ p1 :: ps2 ++ [p2]) = (inl r, rs).
Proof.
  intros Hst Hsort Hall H1 H2. unfold monitor_upload.
  change (p1 :: ps2 ++ [p2]) with ([p1] ++ ps2 ++ [p2]) in *.
  apply Forall_app in Hall as [Hd1 Hall]. apply Forall_app in Hall as [Hp1 Hall]. apply Forall_app in Hall as [Hd2 Hp2].
  rewrite Forall_singleton in Hp1. rewrite Forall_singleton in Hp2. rewrite fmap_app in Hsort.
  assert (Hb : Forall (fun p => done_ p = d /\ at_ p <= at_ p1) ps1).
  { apply Forall_forall. intros p Hp. rewrite Forall_forall in Hd1. split; [by apply Hd1|].
    eapply StronglySorted_app_1_elem_of; [exact Hsort|by apply list_elem_of_fmap_2|cbn; left]. }
  rewrite watch_loop_app. destruct (watch_loop stall _ ps1 _) as [[r|w1] rs1] eqn:E1; [by eauto|].
  apply (watch_loop_steady _ d (at_ p1)) in E1; [|done].
  rewrite watch_loop_app. destruct (watch_loop stall w1 [p1] rs1) as [[r|w2] rs2] eqn:E2; [by eauto|].
  assert (Hw2 : last_done w2 = d /\ deadline w2 <= at_ p1 + stall).
  { cbn in E2. destruct (watch_turn stall w1 p1) as [[r|w] more] eqn:Et; [done|]. simplify_eq/=.
    apply watch_turn_goes_on in Et as (_ & [(-> & _)|(-> & Hlt & _)]); [cbn; by split; [|lia]|].
    destruct E1 as [->|(_ & Hl & Hdl)]; [cbn in Hlt; lia|by split]. }
  rewrite watch_loop_app. destruct (watch_loop stall w2 ps2 rs2) as [[r|w3] rs3] eqn:E3; [by eauto|].
  assert (w3 = w2) as ->.
  { destruct (decide (ps2 = [])) as [->|Hne]; [by cbn in E3; simplify_eq|].
    apply (watch_loop_steady _ d (foldr Z.max 0 (at_ <$> ps2))) in E3 as [?|(? & _)]; [done|naive_solver|].
    clear -Hd2. apply Forall_forall. intros p Hp. rewrite Forall_forall in Hd2. split; [by apply Hd2|].
    clear Hd2. induction ps2 as [|x ps2 IH]; [set_solver|]. cbn. apply elem_of_cons in Hp as [->|Hp%IH]; lia. }
  cbn. destruct (watch_turn_overdue stall w2 p2) as (r & more & ->); [lia|by destruct Hw2; congruence|eauto].
Qed.
End Watch.

(** ** Errors of the client *)

Inductive ErrorKind :=
| FloodWait (seconds : Z) | Network | Migration (dc : Z) | Transfer | FileReferenceExpired | Rpc (code : Z) (name : str)
| KAuth | KCancelled | KOther | KUnknown.

(** What is looked at of the client's error; [stale] holds of [StaleHash] and [PeerNotCached]. *)
Record InvocationError := mkInvocation { stale : bool; kind : ErrorKind; ie_display : str }.

Definition map_invocation (error : InvocationError) : DeliveryError :=
  let detail := ie_display error in
  if stale error then Transient detail
  else
    match kind error with
    | FloodWait _ | Network | Migration _ | Transfer => Transient detail
    | FileReferenceExpired => Transient detail
    | Rpc code name =>
        if 500 <=? code then Transient detail
        else if decide (name = lit "ENTITY_BOUNDS_INVALID") then Rejected EntityBoundsInvalid
        else if decide (name = lit "MEDIA_CAPTION_TOO_LONG") then Rejected CaptionTooLong
        else Rejected (OtherRejection detail)
    | KAuth | KCancelled | KOther => DeliveryUnavailable detail
    | KUnknown => DeliveryUnavailable detail
    end.

(** [None]: no answer within the timeout. *)
Definition telegram_request {A} (stage : string) (answer : option (result InvocationError A)) : result DeliveryError A :=
  match answer with
  | None => Err (Transient (lit stage ++ lit " timed out after 90 seconds"))
  | Some r => map_err map_invocation r
  end.

(** ** Captions *)

Definition clamp_plain_text (text : str) (max_utf16 : Z) : str := clamp_scan max_utf16 0 text ++ [8230].

(** The message that is sent: the markup, or plain text. *)
Inductive media_caption := AsHtml (html : str) | AsText (text : str).

(** [html_text] is the text the client reads off the markup. *)
Definition prepare_media_caption (html_text : str -> str) (caption_html : str) : media_caption :=
  let text := html_text caption_html in
  if utf16_len text <=? MAX_CAPTION_UTF16_LEN then AsHtml caption_html
  else AsText (clamp_plain_text text MAX_CAPTION_UTF16_LEN).

Definition shown_text (html_text : str -> str) (c : media_caption) : str :=
  match c with AsHtml html => html_text html | AsText text => text end.

(** ** Documents *)

Section Documents.
(** Attributes that are not looked at, and uploaded files. *)
Context {Attr File : Type}.

Inductive DocumentAttribute :=
| AAudio (voice : bool) (duration : Z) (title performer : option str)
| AFilename (file_name : str)
| AOther (a : Attr).

Record UploadedDocument := mkDocument { mime_type : str; attributes : list DocumentAttribute; thumb : option File }.

Inductive InputMedia := MDocument (d : UploadedDocument) | MPhoto (file : File) | MOther.

(** [Path::extension]: of the last component, what follows its last dot, unless it starts with it. *)
Definition extension (path : str) : option str :=
  match last (filter (fun c => c <> [] /\ c <> lit ".") (split_on 47 path)) with
  | None => None
  | Some name =>
      if decide (name = lit "..") then None
      else
        match reverse (split_on 46 name) with
        | _ :: [] | [] => None
        | ext :: before => if decide (concat before = [] /\ length before = 1%nat) then None else Some ext
        end
  end.

Definition audio_mime_for (file_path : str) : str :=
  match to_ascii_lowercase <$> extension file_path with
  | Some ext =>
      if decide (ext = lit "flac") then lit "audio/flac"
      else if decide (ext ∈ [lit "m4a"; lit "mp4"; lit "m4b"]) then lit "audio/mp4"
      else if decide (ext ∈ [lit "ogg"; lit "oga"]) then lit "audio/ogg"
      else if decide (ext = lit "opus") then lit "audio/opus"
      else if decide (ext = lit "mp3") then lit "audio/mpeg"
      else lit "audio/mp4"
  | None => lit "audio/mp4"
  end.

Definition filename_of (attribute : DocumentAttribute) : option str :=
  match attribute with AFilename name => Some name | _ => None end.

Definition force_audio_document (document : UploadedDocument) (file_path : str) (duration : Z) (title performer : str) : UploadedDocument :=
  let mime := match strip_prefix (lit "audio/") (mime_type document) with
              | Some _ => mime_type document
              | None => audio_mime_for file_path
              end in
  let filename := find_map filename_of (attributes document) in
  mkDocument mime
    (AAudio false duration (Some title) (Some performer) :: match filename with Some name => [AFilename name] | None => [] end)
    (thumb document).

(** A message as it was sent: its number, the peer it landed in, and its document. *)
Record sent_document := mkSentDocument { sd_attributes : list DocumentAttribute; sd_dc : Z; sd_id : Z; sd_access_hash : Z }.
Record sent_message := mkSent { sm_id : Z; sm_peer : option Z; sm_document : option sent_document }.

Definition file_ids (d : sent_document) : str * str :=
  (lit "mtproto:v1:" ++ show_i (sd_dc d) ++ lit ":" ++ show_i (sd_id d) ++ lit ":" ++ show_i (sd_access_hash d),
   lit "mtproto:document:" ++ show_i (sd_id d)).

Definition is_audio (d : sent_document) : bool :=
  existsb (fun a => match a with AAudio _ _ _ _ => true | _ => false end) (sd_attributes d).

Definition publication (m : sent_message) (d : sent_document) : DumpPublication :=
  let '(file_id, file_unique_id) := file_ids d in mkPublication (sm_id m) file_id file_unique_id.

(** What is made of the message that carries a track. *)
Definition track_receipt (dump_peer_native_id : Z) (m : sent_message) : result DeliveryError DumpPublication :=
  if decide (sm_peer m <> Some dump_peer_native_id) then
    Err (DeliveryUnavailable (lit "dump upload landed in unexpected peer (expected " ++ show_i dump_peer_native_id ++ lit ", got " ++
           match sm_peer m with Some p => lit "Some(" ++ show_i p ++ lit ")" | None => lit "None" end ++ lit ")"))
  else
    match sm_document m with
    | None => Err UnexpectedMedia
    | Some document => if negb (is_audio document) then Err UnexpectedMedia else Ok (publication m document)
    end.

(** What is made of the message that carries an archive. *)
Definition zip_receipt (m : sent_message) : result DeliveryError DumpPublication :=
  match sm_document m with
  | None => Err UnexpectedMedia
  | Some document => Ok (publication m document)
  end.

(** ** Publication to the dump chat *)

Section Publish.
Context {G : Type} `{!WorkerGate G} {U : Type}.
(** The caption, as [prepare_media_caption] makes it. *)
Variable caption : media_caption.

(** What one attempt meets: the time of its lease, what the others do to the pool while the primary slot is awaited,
    whether that semaphore is open, the upload, the time of its failure, the thumbnail and the message. *)
Record attempt_env := mkAttempt {
  ae_now : Z; ae_wait : StreamWorkerPool G -> StreamWorkerPool G; ae_open : bool;
  ae_upload : option Z -> result DeliveryError U; ae_failed_at : Z;
  ae_thumb : str -> result DeliveryError File;
  ae_send : InputMedia -> option (result InvocationError sent_message);
}.

(** A request, with the worker whose client makes it. *)
Inductive request :=
| RUpload (via : option Z)
| RThumb (via : option Z)
| RSend (via : option Z) (caption : media_caption) (media : InputMedia).

(** A sink without a pool has a primary slot of its own, which is then that of [pool_]. *)
Record sink := mkSink { has_pool : bool; pool_ : StreamWorkerPool G }.

(** What an attempt ends with: the function returns, or the next attempt is made with this error. *)
Inductive attempt_end := Return (r : result DeliveryError DumpPublication) | TryAgain (last_error : DeliveryError).

Definition lease_for (attempt : nat) (now : Z) (s : sink) : option UploadWorkerLease * sink :=
  if decide (attempt = MAX_UPLOAD_ATTEMPTS - 1)%nat then (None, s)
  else if has_pool s then
    match lease_upload_worker now (pool_ s) with
    | (Ok lease, p) => (Some lease, mkSink (has_pool s) p)
    | (Err _, p) => (None, mkSink (has_pool s) p)
    end
  else (None, s).

Definition via_of (lease : option UploadWorkerLease) : option Z := lease_worker <$> lease.

(** The end of an attempt's scope. *)
Definition release (lease : option UploadWorkerLease) (s : sink) : sink :=
  mkSink (has_pool s)
    (match lease with
     | Some l => drop_lease l (pool_ s)
     | None => with_slots (give_permit (primary_upload_slot (pool_ s))) (pool_ s)
     end).

Definition retry_or_return (attempt : nat) (error : DeliveryError) : attempt_end :=
  if decide (attempt + 1 < MAX_UPLOAD_ATTEMPTS)%nat then TryAgain error else Return (Err error).

(** The rest of an attempt, once it holds a client. *)
Definition attempt_with (media_of : attempt_env -> option Z -> U -> InputMedia * list request)
    (receipt : sent_message -> result DeliveryError DumpPublication) (attempt : nat) (e : attempt_env)
    (lease : option UploadWorkerLease) (s : sink) : attempt_end * sink * list request :=
  let via := via_of lease in
  match ae_upload e via with
  | Err mapped =>
      let s := match lease with
               | Some l => mkSink (has_pool s) (mark_worker_slow (ae_failed_at e) 120000 (lease_worker l) (pool_ s))
               | None => s
               end in
      (retry_or_return attempt mapped, s, [RUpload via])
  | Ok uploaded =>
      let '(media, more) := media_of e via uploaded in
      let log := RUpload via :: more ++ [RSend via caption media] in
      match telegram_request "message publication" (ae_send e media) with
      | Err mapped => (retry_or_return attempt mapped, s, log)
      | Ok message => (Return (receipt message), s, log)
      end
  end.

(** [None]: the attempt waits for the primary slot for ever. *)
Definition publish_attempt (media_of : attempt_env -> option Z -> U -> InputMedia * list request)
    (receipt : sent_message -> result DeliveryError DumpPublication) (attempt : nat) (e : attempt_env) (s : sink) :
    option (attempt_end * sink * list request) :=
  match lease_for attempt (ae_now e) s with
  | (Some lease, s) =>
      let '(r, s, log) := attempt_with media_of receipt attempt e (Some lease) s in
      Some (r, release (Some lease) s, log)
  | (None, s) =>
      if negb (ae_open e) then Some (Return (Err (DeliveryUnavailable (lit "primary upload limiter closed"))), s, [])
      else
        match acquire_primary (ae_wait e (pool_ s)) with
        | None => None
        | Some p =>
            let '(r, s, log) := attempt_with media_of receipt attempt e None (mkSink (has_pool s) p) in
            Some (r, release None s, log)
        end
  end.

(** The loop over the attempts that are [left_]. *)
Fixpoint publish_loop (media_of : attempt_env -> option Z -> U -> InputMedia * list request)
    (receipt : sent_message -> result DeliveryError DumpPublication) (env : nat -> attempt_env)
    (left_ attempt : nat) (last_error : option DeliveryError) (s : sink) (log : list request) :
    option (result DeliveryError DumpPublication * sink * list request) :=
  match left_ with
  | O => Some (Err (default (Transient (lit "All worker upload attempts failed")) last_error), s, log)
  | S left_ =>
      match publish_attempt media_of receipt attempt (env attempt) s with
      | None => None
      | Some (Return r, s, more) => Some (r, s, log ++ more)
      | Some (TryAgain error, s, more) => publish_loop media_of receipt env left_ (S attempt) (Some error) s (log ++ more)
      end
  end.

(** The media of a track: the client's guess, made an audio document. *)
Definition track_media (as_auto_media : U -> InputMedia) (file_path : str) (duration : Z) (title performer : str)
    (e : attempt_env) (via : option Z) (uploaded : U) : InputMedia * list request :=
  (match as_auto_media uploaded with
   | MDocument document => MDocument (force_audio_document document file_path duration title performer)
   | media => media
   end, []).

(** The media of an archive: a document, with its thumbnail if it could be uploaded. *)
Definition zip_media (as_document_media : U -> InputMedia) (thumb_path : option str)
    (e : attempt_env) (via : option Z) (uploaded : U) : InputMedia * list request :=
  let media := as_document_media uploaded in
  match thumb_path with
  | None => (media, [])
  | Some path =>
      (match ae_thumb e path, media with
       | Ok t, MDocument document => MDocument (mkDocument (mime_type document) (attributes document) (Some t))
       | _, _ => media
       end, [RThumb via])
  end.

(** What happens before the first attempt: the limiter, and for a track its size and its duration. *)
Record publish_env := mkPublishEnv { pe_slots_open : bool; pe_metadata : result str Z; pe_attempts : nat -> attempt_env }.

Definition out_of_range : str := lit "out of range integral type conversion attempted".
Definition i32_try_from (n : Z) : result str Z := if (- 2 ^ 31 <=? n) && (n <? 2 ^ 31) then Ok n else Err out_of_range.

Definition publish_track (as_auto_media : U -> InputMedia) (dump_peer : Z) (file_path title performer : str) (duration : Z)
    (env : publish_env) (s : sink) : option (result DeliveryError DumpPublication * sink * list request) :=
  if negb (pe_slots_open env) then Some (Err (DeliveryUnavailable (lit "upload limiter closed")), s, [])
  else
    match pe_metadata env with
    | Err error => Some (Err (LocalIo error), s, [])
    | Ok size =>
        if MAX_TELEGRAM_TRACK_BYTES <? size then
          Some (Err (Rejected (OtherRejection (lit "track exceeds Telegram's 2000 MB per-track upload limit (" ++ show_u size ++ lit " bytes)"))), s, [])
        else
          match i32_try_from duration with
          | Err error => Some (Err (LocalIo (lit "duration out of range: " ++ error)), s, [])
          | Ok duration =>
              publish_loop (track_media as_auto_media file_path duration title performer) (track_receipt dump_peer)
                (pe_attempts env) MAX_UPLOAD_ATTEMPTS 0 None s []
          end
    end.

Definition publish_zip (as_document_media : U -> InputMedia) (thumb_path : option str) (env : publish_env) (s : sink) :
    option (result DeliveryError DumpPublication * sink * list request) :=
  if negb (pe_slots_open env) then Some (Err (DeliveryUnavailable (lit "upload limiter closed")), s, [])
  else publish_loop (zip_media as_document_media thumb_path) zip_receipt (pe_attempts env) MAX_UPLOAD_ATTEMPTS 0 None s [].

(** *** Lemmas *)

Lemma mark_worker_slow_gates now d w (p : StreamWorkerPool G) : same_gates p (mark_worker_slow now d w p).
Proof.
  unfold mark_worker_slow. case_match; [|done]. split_and!; [done|done|..]; cbn.
  - rewrite <-list_fmap_compose. apply list_fmap_ext. intros i x _. cbn. by case_match.
  - destruct (primary_fallback p); cbn; [|done]. by case_match.
Qed.

Lemma attempt_with_pool media_of receipt attempt e lease s r s' log :
  attempt_with media_of receipt attempt e lease s = (r, s', log) -> has_pool s' = has_pool s /\ same_gates (pool_ s) (pool_ s').
Proof.
  unfold attempt_with. destruct (ae_upload _ _) as [u|err].
  - destruct (media_of _ _ _). destruct (telegram_request _ _); intros; by simplify_eq.
  - intros; simplify_eq. destruct lease; cbn; [|done]. split; [done|apply mark_worker_slow_gates].
Qed.

(** With all gates free before, an attempt comes to an end and leaves them free. *)
Lemma publish_attempt_permits media_of receipt attempt e s :
  upload_inv (mkUpload (pool_ s) [] false) -> same_gates (pool_ s) (ae_wait e (pool_ s)) ->
  exists r s' log, publish_attempt media_of receipt attempt e s = Some (r, s', log) /\ upload_inv (mkUpload (pool_ s') [] false).
Proof.
  intros Hinv Hwait. unfold publish_attempt. destruct (lease_for attempt (ae_now e) s) as [[l|] s1] eqn:El.
  - assert (Hl : has_pool s1 = has_pool s /\ lease_upload_worker (ae_now e) (pool_ s) = (Ok l, pool_ s1)).
    { unfold lease_for in El. case_decide; [done|]. destruct (has_pool s) eqn:Ep; [|done].
      destruct (lease_upload_worker _ _) as [[] p] eqn:E; by simplify_eq. }
    destruct Hl as [_ Hl]. destruct (attempt_with _ _ _ _ _ _) as [[r s2] log] eqn:Ea.
    apply attempt_with_pool in Ea as [_ Hgates]. eexists _, _, _. split; [done|]. cbn.
    eapply upload_step_inv; [|exact (US_drop (pool_ s2) [] l [] false)].
    eapply upload_step_inv; [|exact (US_other _ _ _ _ Hgates)].
    eapply upload_step_inv; [exact Hinv|by eapply US_lease].
  - assert (Hs : pool_ s1 = pool_ s).
    { unfold lease_for in El. case_decide; [by simplify_eq|]. destruct (has_pool s) eqn:Ep; [|by simplify_eq].
      pose proof (lease_upload_worker_correct (ae_now e) (pool_ s)) as Hc.
      destruct (lease_upload_worker _ _) as [[] p]; simplify_eq; naive_solver. }
    rewrite Hs. destruct (ae_open e); cbn; [|eexists _, _, _; split; [done|by rewrite Hs]].
    assert (Hinv1 : upload_inv (mkUpload (ae_wait e (pool_ s)) [] false))
      by (eapply upload_step_inv; [exact Hinv|by apply US_other]).
    destruct (acquire_primary _) as [p|] eqn:Ea.
    2: { exfalso. unfold acquire_primary in Ea. destruct (Z.ltb_spec 0 (slots (ae_wait e (pool_ s)) (primary_upload_slot (ae_wait e (pool_ s)))));
           [done|]. destruct Hinv1 as (Hbal & _).
         specialize (Hbal (primary_upload_slot (ae_wait e (pool_ s)))). unfold holders in Hbal. cbn in Hbal. lia. }
    destruct (attempt_with _ _ _ _ _ _) as [[r s2] log] eqn:Eb.
    apply attempt_with_pool in Eb as [_ Hgates]. eexists _, _, _. split; [done|]. cbn.
    eapply upload_step_inv; [|exact (US_release (pool_ s2) [])].
    eapply upload_step_inv; [|exact (US_other _ _ _ _ Hgates)].
    eapply upload_step_inv; [exact Hinv1|by apply US_acquire].
Qed.

Lemma publish_loop_permits media_of receipt (env : nat -> attempt_env) left_ : forall attempt last_error s log,
  upload_inv (mkUpload (pool_ s) [] false) -> (forall k p, same_gates p (ae_wait (env k) p)) ->
  exists r s' log', publish_loop media_of receipt env left_ attempt last_error s log = Some (r, s', log') /\
    upload_inv (mkUpload (pool_ s') [] false).
Proof.
  induction left_ as [|left_ IH]; intros attempt last_error s log Hinv Hwait; cbn; [eauto|].
  destruct (publish_attempt_permits media_of receipt attempt (env attempt) s Hinv (Hwait _ _)) as ([r|err] & s' & more & -> & Hinv');
    [eauto|by apply IH].
Qed.

Definition is_upload (r : request) : bool := match r with RUpload _ => true | _ => false end.

(** How attempt [k] failed: the transfer, or the message. *)
Definition attempt_failed (media_of : attempt_env -> option Z -> U -> InputMedia * list request) (e : attempt_env) (via : option Z)
    (error : DeliveryError) : Prop :=
  ae_upload e via = Err error \/
  exists u, ae_upload e via = Ok u /\ telegram_request "message publication" (ae_send e (fst (media_of e via u))) = Err error.

(** How it was published: the transfer, then the message. *)
Definition attempt_sent (media_of : attempt_env -> option Z -> U -> InputMedia * list request) (e : attempt_env) (via : option Z)
    (m : sent_message) : Prop :=
  exists u, ae_upload e via = Ok u /\ ae_send e (fst (media_of e via u)) = Some (Ok m).

Lemma attempt_with_outcome media_of receipt attempt e lease s r s' log :
  (forall e via u, Forall (fun q => is_upload q = false) (snd (media_of e via u))) ->
  attempt_with media_of receipt attempt e lease s = (r, s', log) ->
  filter (fun q => is_upload q = true) log = [RUpload (via_of lease)] /\
  ((exists error, attempt_failed media_of e (via_of lease) error /\ r = retry_or_return attempt error) \/
   (exists m, attempt_sent media_of e (via_of lease) m /\ r = Return (receipt m))).
Proof.
  intros Hmore. unfold attempt_with, attempt_failed, attempt_sent. destruct (ae_upload _ _) as [u|err].
  - specialize (Hmore e (via_of lease) u). destruct (media_of _ _ _) as [media more] eqn:Em. cbn in Hmore.
    assert (Hf : filter (fun q => is_upload q = true) (RUpload (via_of lease) :: more ++ [RSend (via_of lease) caption media]) = [RUpload (via_of lease)]).
    { rewrite filter_cons_True by done. f_equal. rewrite filter_app, (filter_cons_False _ (RSend _ _ _)), filter_nil, app_nil_r by done. clear Em.
      induction Hmore as [|q l Hq _ IH]; [done|]. rewrite filter_cons_False by (rewrite Hq; done). exact IH. }
    destruct (telegram_request _ _) as [m|err] eqn:Et; intros; simplify_eq; (split; [done|]).
    + right. exists m. split; [|done]. exists u. rewrite Em. split; [done|]. unfold telegram_request in Et. cbn.
      destruct (ae_send e media) as [[]|]; by simplify_eq/=.
    + left. exists err. split; [|done]. right. exists u. by rewrite Em.
  - intros; simplify_eq. split; [by rewrite filter_cons_True, filter_nil|]. left. eauto.
Qed.

(** An attempt returns what became of its message, or the error of its failure when it is the last; the last one is
    the main client's. *)
Lemma publish_attempt_outcome media_of receipt attempt e s r s' log :
  (forall e via u, Forall (fun q => is_upload q = false) (snd (media_of e via u))) ->
  publish_attempt media_of receipt attempt e s = Some (r, s', log) ->
  (r = Return (Err (DeliveryUnavailable (lit "primary upload limiter closed"))) /\ ae_open e = false /\ log = []) \/
  exists via, filter (fun q => is_upload q = true) log = [RUpload via] /\ (attempt = 2%nat -> via = None) /\
    ((exists error, attempt_failed media_of e via error /\ r = retry_or_return attempt error) \/
     (exists m, attempt_sent media_of e via m /\ r = Return (receipt m))).
Proof.
  intros Hmore. unfold publish_attempt. destruct (lease_for attempt (ae_now e) s) as [[l|] s1] eqn:El.
  - destruct (attempt_with _ _ _ _ _ _) as [[r1 s2] log1] eqn:Ea. intros; simplify_eq. right. exists (Some (lease_worker l)).
    apply attempt_with_outcome in Ea as [Hf Ho]; [|done]. split_and!; [done| |done].
    intros ->. by unfold lease_for in El.
  - destruct (ae_open e); cbn; [|intros; simplify_eq; by left].
    destruct (acquire_primary _) as [p|]; [|done]. destruct (attempt_with _ _ _ _ _ _) as [[r1 s2] log1] eqn:Ea. intros; simplify_eq.
    right. exists None. apply attempt_with_outcome in Ea as [Hf Ho]; [|done]. by split_and!.
Qed.

Lemma publish_loop_outcome media_of receipt (env : nat -> attempt_env) :
  (forall e via u, Forall (fun q => is_upload q = false) (snd (media_of e via u))) ->
  forall left_ attempt last_error s log r s' log',
  (attempt + S left_ = MAX_UPLOAD_ATTEMPTS)%nat ->
  publish_loop media_of receipt env (S left_) attempt last_error s log = Some (r, s', log') ->
  (length (filter (fun q => is_upload q = true) log') <= length (filter (fun q => is_upload q = true) log) + S left_)%nat /\
  ((exists k via m, (k < MAX_UPLOAD_ATTEMPTS)%nat /\ attempt_sent media_of (env k) via m /\ r = receipt m) \/
   (exists k, ae_open (env k) = false /\ r = Err (DeliveryUnavailable (lit "primary upload limiter closed"))) \/
   (exists error, attempt_failed media_of (env 2%nat) None error /\ r = Err error)).
Proof.
  intros Hmore. induction left_ as [|left_ IH]; intros attempt last_error s log r s' log' Hn Hrun; cbn [publish_loop] in Hrun;
    (destruct (publish_attempt _ _ _ _ _) as [[[end_ s1] more]|] eqn:Ea; [|done]);
    (apply publish_attempt_outcome in Ea; [|done]);
    destruct Ea as [(-> & Ho & ->)|(via & Hf & Hvia & [(error & Hfail & ->)|(m & Hm & ->)])];
    unfold retry_or_return in Hrun; try case_decide; unfold MAX_UPLOAD_ATTEMPTS in *; try lia; simplify_eq;
    rewrite ?filter_app, ?length_app, ?Hf; cbn [length];
    try (split; [rewrite ?filter_nil; cbn; lia|]; try (right; left; by eauto); try (left; eexists attempt, via, m; split_and!; [lia|done..])).
  - right. right. exists error. split; [|done]. rewrite <-(Hvia ltac:(lia)). by replace 2%nat with attempt by lia.
  - apply (IH (S attempt) (Some error) s1 (log ++ more)) in Hrun as [Hl Hout]; [|lia].
    split; [|exact Hout]. rewrite filter_app, length_app, Hf in Hl. cbn in Hl. lia.
Qed.

(** C32: publishing never keeps a permit and never waits for ever: with every gate of the pool free, and given back by
    whoever takes it meanwhile, it returns whatever the client answers, and every gate is free again. *)
Theorem publication_keeps_permits media_of receipt (env : nat -> attempt_env) s :
  upload_inv (mkUpload (pool_ s) [] false) -> (forall k p, same_gates p (ae_wait (env k) p)) ->
  exists r s' log, publish_loop media_of receipt env MAX_UPLOAD_ATTEMPTS 0 None s [] = Some (r, s', log) /\
    upload_inv (mkUpload (pool_ s') [] false).
Proof. apply publish_loop_permits. Qed.

Lemma track_media_requests as_auto_media file_path duration title performer e via u :
  Forall (fun q => is_upload q = false) (snd (track_media as_auto_media file_path duration title performer e via u)).
Proof. apply Forall_nil_2. Qed.
Lemma zip_media_requests as_document_media thumb_path e via u :
  Forall (fun q => is_upload q = false) (snd (zip_media as_document_media thumb_path e via u)).
Proof. unfold zip_media. destruct thumb_path; [|apply Forall_nil_2]. by apply Forall_singleton. Qed.

(** The guess of the client never survives: the document is audio, with the track's duration and names, and keeps its
    file name. *)
Theorem audio_document_forced document file_path duration title performer :
  let forced := force_audio_document document file_path duration title performer in
  (exists rest, mime_type forced = lit "audio/" ++ rest) /\ thumb forced = thumb document /\
  attributes forced = AAudio false duration (Some title) (Some performer) :: (AFilename <$> option_list (find_map filename_of (attributes document))).
Proof.
  intros forced. unfold forced, force_audio_document. cbn [mime_type thumb attributes].
  split_and!; [|done|by destruct (find_map filename_of (attributes document))].
  destruct (strip_prefix (lit "audio/") (mime_type document)) as [rest|] eqn:E.
  - exists rest. by apply strip_prefix_Some in E.
  - unfold audio_mime_for. destruct (to_ascii_lowercase <$> _); [|by eexists (lit "mp4")].
    repeat (case_decide; [first [by exists (lit "flac")|by exists (lit "mp4")|by exists (lit "ogg")|by exists (lit "opus")|by exists (lit "mpeg")]|]).
    by exists (lit "mp4").
Qed.

(** C31: a track is published when one of at most three attempts uploaded it and sent the message, which landed in the dump
    chat and carries audio; a transient error means that the last attempt, with the main client, failed with it. *)
Theorem track_publication_outcome as_auto_media dump_peer file_path title performer duration env s r s' log :
  publish_track as_auto_media dump_peer file_path title performer duration env s = Some (r, s', log) ->
  let media_of := track_media as_auto_media file_path duration title performer in
  (length (filter (fun q => is_upload q = true) log) <= 3)%nat /\
  match r with
  | Ok pub => exists k via m d, (k < 3)%nat /\ attempt_sent media_of (pe_attempts env k) via m /\
      sm_peer m = Some dump_peer /\ sm_document m = Some d /\ is_audio d = true /\ pub = publication m d
  | Err error => is_transient error = true -> attempt_failed media_of (pe_attempts env 2) None error
  end.
Proof.
  unfold publish_track, i32_try_from. destruct (pe_slots_open env); cbn [negb]; [|intros [= <- <- <-]; split; [cbn; lia|done]].
  destruct (pe_metadata env) as [size|error]; [|intros [= <- <- <-]; split; [cbn; lia|done]].
  destruct (MAX_TELEGRAM_TRACK_BYTES <? size); [intros [= <- <- <-]; split; [cbn; lia|done]|].
  destruct (_ && _); [|intros [= <- <- <-]; split; [cbn; lia|done]].
  intros Hrun. apply publish_loop_outcome in Hrun as [Hlen Hout]; [|intros; apply track_media_requests|done].
  split; [exact Hlen|].
  destruct Hout as [(k & via & m & Hk & Hm & ->)|[(k & _ & ->)|(error & Hfail & ->)]]; [|done|done].
  unfold track_receipt. case_decide; [done|]. destruct (sm_document m) as [d|] eqn:Ed; [|done].
  destruct (is_audio d) eqn:Ea; cbn; [|done]. exists k, via, m, d. split_and!; try done.
Qed.

(** An archive is published wherever its message lands: the chat is not looked at. *)
Theorem zip_lands_anywhere as_document_media e u m d peer s :
  ae_open e = true -> has_pool s = false -> is_Some (acquire_primary (ae_wait e (pool_ s))) ->
  ae_upload e None = Ok u -> ae_send e (as_document_media u) = Some (Ok m) -> sm_document m = Some d ->
  sm_peer m = Some peer ->
  exists s' log, publish_zip as_document_media None (mkPublishEnv true (Ok 0) (fun _ => e)) s = Some (Ok (publication m d), s', log).
Proof.
  intros Ho Hp [p Hacq] Hu Hs Hd _.
  assert (exists s' log, publish_attempt (zip_media as_document_media None) zip_receipt 0 e s = Some (Return (Ok (publication m d)), s', log))
    as (s' & log & H).
  { unfold publish_attempt, lease_for. rewrite decide_False by done. rewrite Hp, Ho, Hacq. cbn [negb].
    unfold attempt_with. cbn [via_of fmap option_fmap option_map]. rewrite Hu. cbn [zip_media]. rewrite Hs. cbn.
    unfold zip_receipt. rewrite Hd. eauto. }
  unfold publish_zip, MAX_UPLOAD_ATTEMPTS. cbn [negb pe_slots_open pe_attempts publish_loop]. rewrite H. eauto.
Qed.
End Publish.
End Documents.

(** ** Deliveries to a chat, and retraction *)

Section Chat.
Context {Media U : Type}.

(** A message of the dump chat, with the media it can be sent again as. *)
Record dump_message := mkDumpMessage { dm_photo : option Media; dm_document : option Media }.

Inductive chat_request :=
| GetMessages (ids : list Z)
| UploadFile
| UploadThumb
| UploadCover
| SendMessage (destination : Z) (caption : media_caption) (reply_to : option Z) (silent : bool) (media : Media)
| Delete (id : Z).

Definition zero_destination : DeliveryError := DeliveryUnavailable (lit "destination chat id cannot be 0").

Definition opt_i32 (what : string) (id : option Z) : result DeliveryError (option Z) :=
  match id with
  | None => Ok None
  | Some id => match i32_try_from id with
               | Ok id => Ok (Some id)
               | Err error => Err (LocalIo (lit what ++ lit " message id out of range: " ++ error))
               end
  end.

(** [ChatDelivery::DumpCopy]: [get] answers for the dump's message, [send] with the new message's number. *)
Definition deliver_copy (destination source : Z) (reply_to : option Z) (silent : bool)
    (get : option (result InvocationError (list dump_message))) (send : Media -> option (result InvocationError Z)) :
    result DeliveryError DeliveryReceipt * list chat_request :=
  if destination =? 0 then (Err zero_destination, [])
  else
    match opt_i32 "source" (Some source), opt_i32 "reply" reply_to with
    | Err error, _ | Ok _, Err error => (Err error, [])
    | Ok source_id, Ok reply_to =>
        let asked := [GetMessages (option_list source_id)] in
        match telegram_request "dump message lookup" get with
        | Err error => (Err error, asked)
        | Ok messages =>
            match head messages with
            | None => (Err UnexpectedMedia, asked)
            | Some source =>
                match (match dm_photo source with Some photo => Some photo | None => dm_document source end) with
                | None => (Err UnexpectedMedia, asked)
                | Some media =>
                    let asked := asked ++ [SendMessage destination (AsText []) reply_to silent media] in
                    match telegram_request "message publication" (send media) with
                    | Err error => (Err error, asked)
                    | Ok id => (Ok (Message id), asked)
                    end
                end
            end
        end
    end.

(** The two semaphores of a direct upload: the limiter, then the primary slot. *)
Definition direct_slots (slots_open primary_open : bool) : option DeliveryError :=
  if negb slots_open then Some (DeliveryUnavailable (lit "upload limiter closed"))
  else if negb primary_open then Some (DeliveryUnavailable (lit "primary upload limiter closed"))
  else None.

(** [ChatDelivery::ZipDocument]; [thumb] is the answer for the thumbnail, if there is one. *)
Definition deliver_zip (destination : Z) (caption : media_caption) (slots_open primary_open : bool)
    (upload : result DeliveryError U) (as_document_media : U -> Media) (with_thumb : Media -> Media)
    (thumb : option (result DeliveryError unit)) (send : Media -> option (result InvocationError Z)) :
    result DeliveryError DeliveryReceipt * list chat_request :=
  if destination =? 0 then (Err zero_destination, [])
  else
    match direct_slots slots_open primary_open with
    | Some error => (Err error, [])
    | None =>
        match upload with
        | Err error => (Err error, [UploadFile])
        | Ok uploaded =>
            let media := match thumb with Some (Ok _) => with_thumb (as_document_media uploaded) | _ => as_document_media uploaded end in
            let asked := UploadFile :: (match thumb with Some _ => [UploadThumb] | None => [] end)
                           ++ [SendMessage destination caption None false media] in
            match telegram_request "message publication" (send media) with
            | Err error => (Err error, asked)
            | Ok id => (Ok (Message id), asked)
            end
        end
    end.

(** [ChatDelivery::Photo]. *)
Definition deliver_photo (destination : Z) (caption : media_caption) (slots_open primary_open : bool)
    (upload : option (result InvocationError U)) (as_photo_media : U -> Media) (send : Media -> option (result InvocationError Z)) :
    result DeliveryError DeliveryReceipt * list chat_request :=
  if destination =? 0 then (Err zero_destination, [])
  else
    match direct_slots slots_open primary_open with
    | Some error => (Err error, [])
    | None =>
        match telegram_request "cover upload" upload with
        | Err error => (Err error, [UploadCover])
        | Ok uploaded =>
            let media := as_photo_media uploaded in
            let asked := [UploadCover; SendMessage destination caption None false media] in
            match telegram_request "message publication" (send media) with
            | Err error => (Err error, asked)
            | Ok _ => (Ok PreviewDelivered, asked)
            end
        end
    end.

(** [materialize_cached]: the document of the dump's message is downloaded; [download] is its answer. *)
Definition materialize_cached (source : Z) (get : result InvocationError (list dump_message))
    (download : Media -> result InvocationError unit) : result DeliveryError unit * list chat_request :=
  match opt_i32 "source" (Some source) with
  | Err error => (Err error, [])
  | Ok source_id =>
      let asked := [GetMessages (option_list source_id)] in
      match map_err map_invocation get with
      | Err error => (Err error, asked)
      | Ok messages =>
          match head messages ≫= dm_document with
          | None => (Err UnexpectedMedia, asked)
          | Some document => (map_err map_invocation (download document), asked)
          end
      end
  end.

(** The messages are deleted one after the other; the first error is kept. *)
Fixpoint delete_all (delete : Z -> result InvocationError unit) (messages : list Z) (first_error : option DeliveryError) :
    option DeliveryError * list chat_request :=
  match messages with
  | [] => (first_error, [])
  | message :: messages =>
      let first_error :=
        match delete message with
        | Ok _ => first_error
        | Err error => match first_error with None => Some (map_invocation error) | Some e => Some e end
        end in
      let '(first_error, asked) := delete_all delete messages first_error in
      (first_error, Delete message :: asked)
  end.

Definition retract_dump (get : list Z -> result InvocationError (list Z)) (delete : Z -> result InvocationError unit) (messages : list Z) :
    result DeliveryError unit * list chat_request :=
  let ids := filter (fun id => is_ok (i32_try_from id) = true) messages in
  if decide (ids = []) then (Ok tt, [])
  else
    match map_err map_invocation (get ids) with
    | Err error => (Err error, [GetMessages ids])
    | Ok messages =>
        let '(first_error, asked) := delete_all delete messages None in
        (match first_error with None => Ok tt | Some error => Err error end, GetMessages ids :: asked)
    end.

Lemma delete_all_spec delete messages : forall first_error,
  delete_all delete messages first_error =
    (match first_error with
     | Some e => Some e
     | None => find_map (fun m => match delete m with Ok _ => None | Err error => Some (map_invocation error) end) messages
     end, Delete <$> messages).
Proof.
  induction messages as [|m messages IH]; intros first_error; cbn; [by destruct first_error|]. rewrite IH.
  destruct (delete m), first_error; done.
Qed.

(** Retraction tries every message the dump still has, whatever happens to the others, and succeeds only when all are gone. *)
Theorem retract_tries_all get delete messages ids found :
  ids = filter (fun id => is_ok (i32_try_from id) = true) messages -> ids <> [] -> get ids = Ok found ->
  snd (retract_dump get delete messages) = GetMessages ids :: (Delete <$> found) /\
  (fst (retract_dump get delete messages) = Ok tt <-> forall m, m ∈ found -> exists u, delete m = Ok u).
Proof.
  intros Hids Hne Hget. unfold retract_dump. rewrite <-Hids, decide_False, Hget by done. cbn.
  rewrite delete_all_spec. cbn. split; [done|]. rewrite <-Forall_forall.
  destruct (find_map _ _) as [error|] eqn:E.
  - split; [done|]. intros Hall. apply find_map_Some in E as (l1 & m & l2 & -> & Hm & _).
    apply Forall_app in Hall as [_ Hall]. apply Forall_cons in Hall as [[u Hu] _]. by rewrite Hu in Hm.
  - split; [intros _|done]. apply find_map_None in E. eapply Forall_impl; [exact E|]. intros m Hm. cbn in Hm.
    destruct (delete m); [eauto|done].
Qed.
End Chat.

(** ** Instances *)

(** A transfer that stops at 7 of 10. *)
Definition demo_poll (t done : Z) : @poll unit := mkPoll t None true done 10.

Lemma upload_dropped_only_when_stalled_witness :
  (Err (stall_error 45000 (demo_poll 50000 7)) : result DeliveryError unit) = Err (invalid_error (demo_poll 50000 7)) /\
    0 < total (demo_poll 50000 7) < done_ (demo_poll 50000 7) \/
  (Err (stall_error 45000 (demo_poll 50000 7)) : result DeliveryError unit) = Err (stall_error 45000 (demo_poll 50000 7)) /\ 0 + 45000 <= 50000 /\
    forall p, p ∈ [demo_poll 500 0; demo_poll 1000 7; demo_poll 1500 7] -> tick p = true -> 50000 - 45000 < at_ p -> done_ p = 7.
Proof.
  refine (upload_dropped_only_when_stalled 0 0 45000 [demo_poll 500 0; demo_poll 1000 7; demo_poll 1500 7] (demo_poll 50000 7) _ _ _ _ _ _ _ _ eq_refl _).
  all: try (vm_compute; reflexivity).
  - lia.
  - cbn. repeat constructor; lia.
  - repeat constructor; cbn; lia.
Defined.

Lemma stalled_upload_ends_witness :
  exists r rs, monitor_upload 0 0 45000 ([demo_poll 500 7] ++ demo_poll 45000 7 :: [] ++ [demo_poll 90000 7]) = (inl r, rs).
Proof. apply (stalled_upload_ends 0 0 45000 7); [lia|cbn; repeat constructor; lia|repeat constructor|cbn; lia|cbn; lia]. Defined.

(** Worker 1 cannot upload, worker 0 can; the message is sent at once. *)
Definition demo_sent : @sent_message unit :=
  mkSent 9 (Some 5) (Some (mkSentDocument [AAudio false 3 None None] 2 7 11)).
Definition demo_attempt (k : nat) : @attempt_env unit unit breaker unit :=
  mkAttempt (Z.of_nat k) (fun p => p) true
    (fun via => if decide (via = Some 1) then Err (Transient (lit "slow")) else Ok tt)
    (Z.of_nat k) (fun _ => Err UnexpectedMedia) (fun _ => Some (Ok demo_sent)).
Definition demo_sink : @sink breaker := mkSink true demo_pool.
Definition demo_media (_ : unit) : @InputMedia unit unit := MDocument (mkDocument (lit "video/mp4") [AFilename (lit "a.m4a")] None).

Lemma publication_keeps_permits_witness :
  exists r s' log, publish_loop (AsText []) (track_media demo_media (lit "a.m4a") 3 [] []) (track_receipt 5) demo_attempt MAX_UPLOAD_ATTEMPTS 0 None demo_sink []
      = Some (r, s', log) /\ upload_inv (mkUpload (pool_ s') [] false).
Proof. apply (publication_keeps_permits (AsText []) (track_media demo_media (lit "a.m4a") 3 [] [])); [exact demo_upload_inv|done]. Defined.

Definition demo_publish := publish_track (AsText []) demo_media 5 (lit "a.m4a") [] [] 3 (mkPublishEnv true (Ok 100) demo_attempt) demo_sink.
Definition demo_log : list (@request unit unit) :=
  match demo_publish with Some (_, _, log) => log | None => [] end.

Lemma track_publication_outcome_witness :
  (length (filter (fun q => is_upload q = true) demo_log) <= 3)%nat /\
  exists k via m d, (k < 3)%nat /\ attempt_sent (track_media demo_media (lit "a.m4a") 3 [] []) (demo_attempt k) via m /\
    sm_peer m = Some 5 /\ sm_document m = Some d /\ is_audio d = true /\
    mkPublication 9 (lit "mtproto:v1:2:7:11") (lit "mtproto:document:7") = publication m d.
Proof.
  destruct demo_publish as [[[r s'] log]|] eqn:E; [|by vm_compute in E].
  assert (Hr : r = Ok (mkPublication 9 (lit "mtproto:v1:2:7:11") (lit "mtproto:document:7"))) by (vm_compute in E; injection E as <- _ _; vm_compute; reflexivity).
  assert (Hl : demo_log = log) by (unfold demo_log; by rewrite E). rewrite Hl. subst r.
  exact (track_publication_outcome (AsText []) demo_media 5 (lit "a.m4a") [] [] 3 (mkPublishEnv true (Ok 100) demo_attempt) demo_sink _ s' log E).
Defined.

Lemma zip_lands_anywhere_witness :
  exists s' log, publish_zip (AsText []) demo_media None (mkPublishEnv true (Ok 0) (fun _ => demo_attempt 2)) (mkSink false demo_pool)
    = Some (Ok (mkPublication 9 (lit "mtproto:v1:2:7:11") (lit "mtproto:document:7")), s', log).
Proof.
  exact (zip_lands_anywhere (AsText []) demo_media (demo_attempt 2) tt demo_sent (mkSentDocument [AAudio false 3 None None] 2 7 11) 5 (mkSink false demo_pool)
           eq_refl eq_refl (ex_intro _ _ eq_refl) eq_refl eq_refl eq_refl eq_refl).
Defined.

Lemma retract_tries_all_witness :
  snd (retract_dump (Media := unit) (fun _ => Ok [4; 6]) (fun _ => Ok tt) [4; 5000000000; 6]) = GetMessages [4; 6] :: (Delete <$> [4; 6]) /\
  (fst (retract_dump (Media := unit) (fun _ => Ok [4; 6]) (fun _ => Ok tt) [4; 5000000000; 6]) = Ok tt <->
   forall m : Z, m ∈ [4; 6] -> exists u, (Ok tt : result InvocationError unit) = Ok u).
Proof. exact (retract_tries_all (Media := unit) (fun _ => Ok [4; 6]) (fun _ => Ok tt) [4; 5000000000; 6] [4; 6] [4; 6] eq_refl ltac:(done) eq_refl). Defined.
