(* ===== verification/DumpCaption.v ===== *)
(** * DumpCaption: the machine records in the captions of the dump chat (crates/bot/src/caption.rs)

    A message of the dump chat carries a JSON record as its caption; it is shortened until Telegram takes it, and the
    index of the chat reads it back.  The JSON library is a parameter; what is relied on is that it writes and reads
    JSON objects, by the grammar of their texts below. *)
From S2P Require Import Prelude Text Music Delivery Captions.

#[local] Open Scope Z_scope.

Definition MAX_MEDIA_CAPTION_UTF16_LEN : Z := 1024.

(** ** The length a caption has on Telegram *)

(** The name of a tag, up to its closing bracket, and what follows. *)
Fixpoint skip_tag (s : str) : str * str :=
  match s with
  | [] => ([], [])
  | c :: s => if c =? 62 then ([], s) else let '(name, rest) := skip_tag s in (c :: name, rest)
  end.

(** What follows an entity: its semicolon is skipped, a space or a tag ends it. *)
Fixpoint skip_entity (s : str) : str :=
  match s with
  | [] => []
  | c :: rest => if c =? 59 then rest else if (c =? 32) || (c =? 60) then s else skip_entity rest
  end.

(** Of the tag's lower case only its first two letters are looked at, and no other character has [b] or [r] as its lower
    case than [B] and [R]. *)
Definition is_break (tag_name : str) : bool :=
  match strip_prefix (lit "br") (to_ascii_lowercase (trim tag_name)) with Some _ => true | None => false end.

Fixpoint estimate_loop (fuel : nat) (s : str) (count : Z) : Z :=
  match fuel, s with
  | O, _ | _, [] => count
  | S f, ch :: s =>
      if ch =? 60 then
        let '(tag_name, s) := skip_tag s in estimate_loop f s (if is_break tag_name then count + 1 else count)
      else if ch =? 38 then estimate_loop f (skip_entity s) (count + 1)
      else estimate_loop f s (count + len_utf16 ch)
  end.

Definition estimate_html_utf16_len (html : str) : Z := estimate_loop (length html) html 0.

(** ** JSON objects *)

Inductive jvalue := JString (s : str) | JNumber (n : Z) | JOtherValue.
(** The fields of an object, in the order of its map. *)
Abbreviation fields := (list (str * jvalue)).
Inductive json := JObject (fs : fields) | JOther.

Definition get_field (key : str) (parsed : json) : option jvalue :=
  match parsed with
  | JObject fs => snd <$> (snd <$> list_find (fun kv => kv.1 = key) fs)
  | JOther => None
  end.

Definition as_string (v : jvalue) : option str := match v with JString s => Some s | _ => None end.
Definition as_i64 (v : jvalue) : option Z := match v with JNumber n => Some n | _ => None end.

(** [payload[&key] = value]. *)
Definition set_field (key : str) (v : jvalue) (fs : fields) : fields :=
  (fun kv => if decide (kv.1 = key) then (key, v) else kv) <$> fs.

(** ** Writing *)

(** [str::replace] with one character as the pattern. *)
Definition replace_char (c : rchar) (to_ s : str) : str := concat ((fun x => if x =? c then to_ else [x]) <$> s).

Definition unicode_escape (hex : string) : str := 92 :: lit hex.

Definition html_safe (serialized : str) : str :=
  replace_char 62 (unicode_escape "u003e") (replace_char 60 (unicode_escape "u003c") (replace_char 38 (unicode_escape "u0026") serialized)).

(** [max_by_key]: the last of the greatest. *)
Definition longer_string (best : option (str * str)) (kv : str * jvalue) : option (str * str) :=
  match as_string kv.2 with
  | None => best
  | Some text =>
      match best with
      | Some (_, longest) => if utf16_len longest <=? utf16_len text then Some (kv.1, text) else best
      | None => Some (kv.1, text)
      end
  end.
Definition longest_string (payload : fields) : option (str * str) := foldl longer_string None payload.

Section Json.
(** [serde_json::to_string] of an object, [serde_json::from_str]. *)
Variable to_string : fields -> str.
Variable from_str : str -> option json.

(** [None]: out of fuel, or no string is left to shorten, which panics. *)
Fixpoint serialize_caption_payload (fuel : nat) (payload : fields) : option str :=
  match fuel with
  | O => None
  | S f =>
      let caption := html_safe (to_string payload) in
      let length := estimate_html_utf16_len caption in
      if length <=? MAX_MEDIA_CAPTION_UTF16_LEN then Some caption
      else
        match longest_string payload with
        | None => None
        | Some (key, value) =>
            let value_len := utf16_len value in
            let excess := length - MAX_MEDIA_CAPTION_UTF16_LEN in
            let target_len := saturating_sub value_len (Z.max excess 1) in
            let shortened := if target_len =? 0 then [] else clamp_str_utf16 value target_len in
            serialize_caption_payload f (set_field key (JString shortened) payload)
        end
  end.

(** Every turn shortens a string. *)
Definition strings_len (payload : fields) : Z := sumZ ((fun kv => match kv.2 with JString s => utf16_len s | _ => 0 end) <$> payload).
Definition caption_fuel (payload : fields) : nat := S (Z.to_nat (strings_len payload)).

Definition track_payload (track_id : str) (codec : option str) : fields :=
  let canonical_codec := match codec with
                         | Some c => match Codec_from_str c with Ok c => as_str c | Err _ => lit "alac" end
                         | None => lit "alac"
                         end in
  [(lit "codec", JString canonical_codec); (lit "track_id", JString track_id)].

Definition format_dump_caption (track_id : str) (codec : option str) : option str :=
  let payload := track_payload track_id codec in serialize_caption_payload (caption_fuel payload) payload.

Record DumpZipCaptionMetadata := mkZipCaption { zc_album_id : str; zc_codec : option str; zc_part : Z; zc_total : Z; zc_hash : str }.

Definition zip_payload (meta : DumpZipCaptionMetadata) : fields :=
  [(lit "album_id", JString (zc_album_id meta)); (lit "codec", JString (default (lit "alac") (zc_codec meta)));
   (lit "hash", JString (zc_hash meta)); (lit "part", JNumber (zc_part meta)); (lit "total_parts", JNumber (zc_total meta));
   (lit "type", JString (lit "album_zip"))].

Definition format_zip_dump_caption (meta : DumpZipCaptionMetadata) (is_complete : bool) : option str :=
  if negb is_complete then Some []
  else let payload := zip_payload meta in serialize_caption_payload (caption_fuel payload) payload.

(** telegram_sink.rs: the caption of a publication. *)
Definition render_track_caption (caption : TrackCaption) : option str :=
  match caption with
  | Machine track_id codec => format_dump_caption track_id (Some codec)
  | Plain text => Some text
  end.
Definition render_zip_caption (caption : DumpZipCaptionMetadata) (is_complete : bool) : option str := format_zip_dump_caption caption is_complete.

(** ** Reading *)

(** [str::replace]. *)
Fixpoint replace_loop (fuel : nat) (pat to_ s : str) : str :=
  match fuel, s with
  | O, _ | _, [] => s
  | S f, c :: rest =>
      match strip_prefix pat s with
      | Some after => to_ ++ replace_loop f pat to_ after
      | None => c :: replace_loop f pat to_ rest
      end
  end.
Definition replace (pat to_ : string) (s : str) : str := replace_loop (length s) (lit pat) (lit to_) s.

Definition normalized (text : str) : str :=
  let s := replace "<br>" (String (Ascii.ascii_of_nat 10) EmptyString) (replace "<br/>" (String (Ascii.ascii_of_nat 10) EmptyString) text) in
  let s := replace "&#39;" "'" (replace "&quot;" (String (Ascii.ascii_of_nat 34) EmptyString) s) in
  replace "&amp;" "&" (replace "&gt;" ">" (replace "&lt;" "<" s)).

(** The scan for the brace that closes the first one: what it covers. *)
Record scan_state := mkScan { depth : Z; in_str : bool; escape : bool }.
Definition scan_char (ch : rchar) (s : scan_state) : scan_state * bool :=
  if escape s then (mkScan (depth s) (in_str s) false, false)
  else if (ch =? 92) && in_str s then (mkScan (depth s) (in_str s) true, false)
  else if ch =? 34 then (mkScan (depth s) (negb (in_str s)) false, false)
  else if in_str s then (s, false)
  else if ch =? 123 then (mkScan (depth s + 1) false false, false)
  else if ch =? 125 then (mkScan (depth s - 1) false false, depth s - 1 =? 0)
  else (s, false).

Fixpoint balanced (candidate : str) (s : scan_state) : option str :=
  match candidate with
  | [] => None
  | ch :: rest =>
      let '(s, closed) := scan_char ch s in
      if closed then Some [ch] else cons ch <$> balanced rest s
  end.

Definition quote (key : str) : str := 34 :: key ++ [34].

(** One candidate, which starts with a brace. *)
Definition try_candidate (key candidate : str) : option str :=
  if negb (contains (quote key) candidate) then None
  else
    match balanced candidate (mkScan 0 false false) with
    | None => None
    | Some json_str =>
        match from_str json_str with
        | None => None
        | Some parsed => match get_field key parsed with Some _ => Some json_str | None => None end
        end
    end.

(** [match_indices('{')]. *)
Fixpoint first_candidate (key s : str) : option str :=
  match s with
  | [] => None
  | c :: rest =>
      if c =? 123 then
        match try_candidate key s with Some json_str => Some json_str | None => first_candidate key rest end
      else first_candidate key rest
  end.

Definition extract_balanced_json (text key : str) : option str := first_candidate key (normalized text).

Definition codec_field (parsed : json) : Codec :=
  match get_field (lit "codec") parsed ≫= as_string with
  | Some s => match Codec_from_str s with Ok c => c | Err _ => Alac end
  | None => Alac
  end.
Definition string_field (parsed : json) (key : string) : str :=
  match get_field (lit key) parsed with Some (JString s) => s | _ => [] end.
Definition number_field (parsed : json) (key : string) (dflt : Z) : Z :=
  match get_field (lit key) parsed with Some v => default dflt (as_i64 v) | None => dflt end.
(** [as i32]. *)
Definition as_i32 (n : Z) : Z := swrap 32 n.

Definition parse_dump_caption (text : option str) : option (str * Codec) :=
  text ← text;
  payload ← extract_balanced_json text (lit "track_id");
  parsed ← from_str payload;
  v ← get_field (lit "track_id") parsed;
  track_id ← as_string v;
  if decide (track_id = []) then None else Some (track_id, codec_field parsed).

Record ParsedZipDumpMetadata := mkParsedZip { pz_album_id : str; pz_codec : Codec; pz_part : Z; pz_total : Z; pz_hash : str }.

Definition parse_zip_dump_caption (text : option str) : option ParsedZipDumpMetadata :=
  text ← text;
  payload ← extract_balanced_json text (lit "album_id");
  parsed ← from_str payload;
  v ← get_field (lit "album_id") parsed;
  album_id ← as_string v;
  if decide (album_id = []) then None
  else Some (mkParsedZip album_id (codec_field parsed) (as_i32 (Z.max (number_field parsed "part" 1) 1))
               (as_i32 (Z.max (number_field parsed "total_parts" 1) 1)) (string_field parsed "hash")).
End Json.

(** ** The texts of JSON objects

    [E] holds of the characters that may be escaped though they need not be. *)
Definition must_escape (c : rchar) : Prop := c < 32 \/ c = 34 \/ c = 92.
Definition short_escapes : list (rchar * rchar) :=
  [(34, 34); (92, 92); (47, 47); (98, 8); (102, 12); (110, 10); (114, 13); (116, 9)].
Definition hex_digit_value (c : rchar) : option Z :=
  if is_ascii_digit c then Some (c - 48)
  else if (97 <=? c) && (c <=? 102) then Some (c - 87)
  else if (65 <=? c) && (c <=? 70) then Some (c - 55) else None.
Definition hex4 (a b c d : rchar) : option Z :=
  x ← hex_digit_value a; y ← hex_digit_value b; z ← hex_digit_value c; w ← hex_digit_value d;
  Some (((x * 16 + y) * 16 + z) * 16 + w).

Inductive string_body (E : rchar -> Prop) : str -> str -> Prop :=
| SB_nil : string_body E [] []
| SB_char c t v : ~ must_escape c -> string_body E t v -> string_body E (c :: t) (c :: v)
| SB_short e c t v : must_escape c \/ E c -> (e, c) ∈ short_escapes -> string_body E t v -> string_body E (92 :: e :: t) (c :: v)
| SB_hex h1 h2 h3 h4 c t v : must_escape c \/ E c -> hex4 h1 h2 h3 h4 = Some c -> string_body E t v ->
    string_body E (92 :: 117 :: h1 :: h2 :: h3 :: h4 :: t) (c :: v).

Inductive value_text (E : rchar -> Prop) : str -> jvalue -> Prop :=
| VT_string t v : string_body E t v -> value_text E (quote t) (JString v)
| VT_number n : value_text E (show_i n) (JNumber n).

Definition field_text (E : rchar -> Prop) (t : str) (kv : str * jvalue) : Prop :=
  exists k v, string_body E k kv.1 /\ value_text E v kv.2 /\ t = quote k ++ 58 :: v.

(** Without white space. *)
Fixpoint commas (ts : list str) : str :=
  match ts with [] => [] | [t] => t | t :: ts => t ++ 44 :: commas ts end.
Definition object_text (E : rchar -> Prop) (t : str) (fs : fields) : Prop :=
  exists ts, Forall2 (field_text E) ts fs /\ t = 123 :: commas ts ++ [125].

Definition never (_ : rchar) : Prop := False.
Definition always (_ : rchar) : Prop := True.
Definition markup (c : rchar) : Prop := c = 38 \/ c = 60 \/ c = 62.

(** What a payload holds: texts, and numbers of 32 bits. *)
Definition value_ok (v : jvalue) : Prop :=
  match v with JString s => Forall scalar s | JNumber n => - 2 ^ 31 <= n < 2 ^ 31 | JOtherValue => False end.
Definition payload_ok (fs : fields) : Prop :=
  Forall (fun kv => Forall (fun c => ~ must_escape c /\ ~ markup c) kv.1 /\ value_ok kv.2) fs /\ NoDup fs.*1.

(** ** Lemmas *)

Definition safe_char (x : rchar) : str :=
  if x =? 38 then unicode_escape "u0026" else if x =? 60 then unicode_escape "u003c" else if x =? 62 then unicode_escape "u003e" else [x].

Lemma replace_char_id c to_ s : Forall (fun x => x <> c) s -> replace_char c to_ s = s.
Proof. unfold replace_char. induction 1 as [|x s Hx _ IH]; [done|]. cbn. rewrite (proj2 (Z.eqb_neq x c) Hx). cbn. by f_equal. Qed.

Lemma replace_char_app c to_ s1 s2 : replace_char c to_ (s1 ++ s2) = replace_char c to_ s1 ++ replace_char c to_ s2.
Proof. unfold replace_char. by rewrite fmap_app, concat_app. Qed.

Lemma html_safe_app s1 s2 : html_safe (s1 ++ s2) = html_safe s1 ++ html_safe s2.
Proof. unfold html_safe. by rewrite !replace_char_app. Qed.

Lemma html_safe_cons c s : html_safe (c :: s) = safe_char c ++ html_safe s.
Proof.
  change (c :: s) with ([c] ++ s). rewrite html_safe_app. f_equal. unfold safe_char, html_safe, replace_char. cbn.
  destruct (Z.eqb_spec c 38); [reflexivity|]. cbn.
  destruct (Z.eqb_spec c 60); [reflexivity|]. cbn. by destruct (c =? 62).
Qed.

Lemma html_safe_id s : Forall (fun c => ~ markup c) s -> html_safe s = s.
Proof.
  unfold markup. induction 1 as [|c s Hc _ IH]; [done|]. rewrite html_safe_cons, IH. unfold safe_char.
  rewrite !(proj2 (Z.eqb_neq c _)) by naive_solver. done.
Qed.

Lemma html_safe_none s : Forall (fun c => ~ markup c) (html_safe s).
Proof.
  induction s as [|c s IH]; [apply Forall_nil_2|]. rewrite html_safe_cons. apply Forall_app. split; [|done].
  unfold safe_char, markup. repeat (case_match; to_prop; [repeat (apply Forall_cons; split; [cbn; lia|]); apply Forall_nil_2|]).
  apply Forall_singleton. naive_solver.
Qed.

Lemma hex_digit_plain c x : hex_digit_value c = Some x -> ~ markup c /\ c <> 34 /\ c <> 92.
Proof. unfold hex_digit_value, is_ascii_digit, markup. intros H. repeat (case_match; to_prop; try lia; try done). Qed.

Lemma hex4_digits a b c d n : hex4 a b c d = Some n ->
  Forall (fun c => ~ markup c /\ c <> 34 /\ c <> 92) [a; b; c; d].
Proof.
  unfold hex4. intros H. repeat (apply bind_Some in H as (? & ?%hex_digit_plain & H)). repeat (apply Forall_cons; split; [done|]). apply Forall_nil_2.
Qed.

Lemma short_plain e c : (e, c) ∈ short_escapes -> ~ markup e /\ ~ markup c.
Proof. unfold short_escapes, markup. rewrite !elem_of_cons, elem_of_nil. intros H. destruct_or!; simplify_eq; split; lia. Qed.

(** Escaping the markup keeps what a text says. *)
Lemma html_safe_body E t v : string_body E t v -> string_body (fun c => E c \/ markup c) (html_safe t) v.
Proof.
  induction 1 as [|c t v Hc _ IH|e c t v Hc He _ IH|h1 h2 h3 h4 c t v Hc Hh _ IH].
  - apply SB_nil.
  - rewrite html_safe_cons. unfold safe_char.
    destruct (Z.eqb_spec c 38) as [->|]; [apply SB_hex; [unfold markup; lia|reflexivity|exact IH]|].
    destruct (Z.eqb_spec c 60) as [->|]; [apply SB_hex; [unfold markup; lia|reflexivity|exact IH]|].
    destruct (Z.eqb_spec c 62) as [->|]; [apply SB_hex; [unfold markup; lia|reflexivity|exact IH]|]. by apply SB_char.
  - rewrite !html_safe_cons. pose proof (short_plain e c He) as [He' _]. change (safe_char 92) with [92].
    replace (safe_char e) with [e]; [apply SB_short; [tauto|done|done]|].
    rewrite <-(html_safe_id [e]) at 1 by (by apply Forall_singleton). rewrite html_safe_cons. by rewrite app_nil_r.
  - change (92 :: 117 :: h1 :: h2 :: h3 :: h4 :: t) with ([92; 117; h1; h2; h3; h4] ++ t).
    rewrite html_safe_app, html_safe_id; [apply SB_hex; [tauto|done|done]|].
    apply hex4_digits in Hh. do 2 (apply Forall_cons; split; [unfold markup; lia|]).
    eapply Forall_impl; [exact Hh|]. naive_solver.
Qed.

Lemma html_safe_quote t : html_safe (quote t) = quote (html_safe t).
Proof. unfold quote. by rewrite html_safe_cons, html_safe_app. Qed.

Lemma html_safe_field E t kv : field_text E t kv -> field_text (fun c => E c \/ markup c) (html_safe t) kv.
Proof.
  intros (k & v & Hk & Hv & ->). exists (html_safe k), (html_safe v). split_and!; [by apply html_safe_body| |].
  - inversion Hv as [t' w Hw Ht|n Ht]; subst.
    + rewrite html_safe_quote. by apply VT_string, html_safe_body.
    + rewrite html_safe_id; [apply VT_number|]. eapply Forall_impl; [apply show_i_chars|].
      intros c Hc. unfold markup, is_ascii_digit in *. zb.
  - by rewrite html_safe_app, html_safe_quote, html_safe_cons.
Qed.

Lemma html_safe_commas ts : html_safe (commas ts) = commas (html_safe <$> ts).
Proof.
  induction ts as [|t ts IH]; [done|]. destruct ts as [|t' ts]; [done|]. cbn [commas fmap list_fmap] in *.
  by rewrite html_safe_app, html_safe_cons, IH.
Qed.

Lemma html_safe_object E t fs : object_text E t fs -> object_text (fun c => E c \/ markup c) (html_safe t) fs.
Proof.
  intros (ts & Hts & ->). exists (html_safe <$> ts). split.
  - apply Forall2_fmap_l. eapply Forall2_impl; [exact Hts|]. intros. by apply html_safe_field.
  - by rewrite html_safe_cons, html_safe_app, html_safe_commas.
Qed.

(** More may be escaped. *)
Lemma string_body_mono (E1 E2 : rchar -> Prop) t v : (forall c, E1 c -> E2 c) -> string_body E1 t v -> string_body E2 t v.
Proof. intros HE. induction 1; [apply SB_nil|by apply SB_char|apply SB_short; [naive_solver|done|done]|apply SB_hex; [naive_solver|done|done]]. Qed.

Lemma object_text_mono (E1 E2 : rchar -> Prop) t fs : (forall c, E1 c -> E2 c) -> object_text E1 t fs -> object_text E2 t fs.
Proof.
  intros HE (ts & Hts & ->). exists ts. split; [|done]. eapply Forall2_impl; [exact Hts|].
  intros t kv (k & v & Hk & Hv & ->). exists k, v. split_and!; [by eapply string_body_mono| |done].
  inversion Hv; subst; [apply VT_string; by eapply string_body_mono|apply VT_number].
Qed.

(** A text none of whose characters is escaped is written as it is. *)
Lemma string_body_plain E t v : Forall (fun c => ~ must_escape c /\ ~ E c) v -> string_body E t v -> t = v.
Proof.
  intros Hv Ht. induction Ht as [|c t v _ _ IH|e c t v Hc _ _ IH|h1 h2 h3 h4 c t v Hc _ _ IH];
    [done|..]; apply Forall_cons in Hv as [Hc' Hv]; [by rewrite IH|tauto|tauto].
Qed.

(** Without markup, the length is that of the text. *)
Lemma estimate_plain s : Forall (fun c => ~ markup c) s -> estimate_html_utf16_len s = utf16_len s.
Proof.
  intros Hs. unfold estimate_html_utf16_len. enough (H : forall n, estimate_loop (length s) s n = n + utf16_len s) by (rewrite H; lia).
  induction Hs as [|c s Hc _ IH]; intros n; [cbn; lia|]. cbn [length estimate_loop]. unfold markup in Hc.
  rewrite !(proj2 (Z.eqb_neq c _)) by naive_solver. rewrite IH, utf16_len_cons. lia.
Qed.

(** *** The scan for the closing brace *)

(** Scanning [t] closes nothing and leads to [s']. *)
Definition scans (s : scan_state) (t : str) (s' : scan_state) : Prop :=
  forall rest, balanced (t ++ rest) s = app t <$> balanced rest s'.

Lemma scans_nil s : scans s [] s.
Proof. intros rest. cbn. by destruct (balanced rest s). Qed.

Lemma scans_cons c t s s1 s2 : scan_char c s = (s1, false) -> scans s1 t s2 -> scans s (c :: t) s2.
Proof. intros Hc Ht rest. cbn. rewrite Hc, Ht. by destruct (balanced rest s2). Qed.

Lemma scans_app t1 t2 s s1 s2 : scans s t1 s1 -> scans s1 t2 s2 -> scans s (t1 ++ t2) s2.
Proof. intros H1 H2 rest. rewrite <-app_assoc, H1, H2. destruct (balanced rest s2); cbn; [by rewrite app_assoc|done]. Qed.

Lemma scans_body E t v d : string_body E t v -> scans (mkScan d true false) t (mkScan d true false).
Proof.
  induction 1 as [|c t v Hc _ IH|e c t v Hc He _ IH|h1 h2 h3 h4 c t v Hc Hh _ IH]; [apply scans_nil|..].
  - eapply scans_cons; [|exact IH]. unfold scan_char, must_escape in *. cbn. rewrite !(proj2 (Z.eqb_neq c _)) by naive_solver. done.
  - eapply scans_cons; [reflexivity|]. by eapply scans_cons; [reflexivity|].
  - eapply scans_cons; [reflexivity|]. eapply scans_cons; [reflexivity|].
    apply hex4_digits in Hh. rewrite !Forall_cons in Hh. destruct Hh as (H1 & H2 & H3 & H4 & _).
    repeat (eapply scans_cons; [unfold scan_char; cbn; rewrite !(proj2 (Z.eqb_neq _ _)) by naive_solver; reflexivity|]). exact IH.
Qed.

Lemma scans_quote E t v d : string_body E t v -> scans (mkScan d false false) (quote t) (mkScan d false false).
Proof.
  intros H. eapply scans_cons; [reflexivity|]. eapply scans_app; [by eapply scans_body|].
  eapply scans_cons; [reflexivity|apply scans_nil].
Qed.

Lemma scans_field E t kv d : field_text E t kv -> scans (mkScan d false false) t (mkScan d false false).
Proof.
  intros (k & v & Hk & Hv & ->). eapply scans_app; [by eapply scans_quote|]. eapply scans_cons; [reflexivity|].
  inversion Hv as [t' w Hw Ht|n Ht]; subst; [by eapply scans_quote|].
  pose proof (show_i_chars n) as Hn. clear Hv. revert Hn. generalize (show_i n). intros t Ht.
  induction Ht as [|c t Hc _ IH]; [apply scans_nil|]. eapply scans_cons; [|exact IH].
  unfold scan_char, is_ascii_digit in *. cbn. rewrite andb_false_r. rewrite !(proj2 (Z.eqb_neq c _)) by zb. done.
Qed.

Lemma scans_commas E ts fs d : Forall2 (field_text E) ts fs -> scans (mkScan d false false) (commas ts) (mkScan d false false).
Proof.
  induction 1 as [|t kv ts fs Ht Hts IH]; [apply scans_nil|].
  destruct ts as [|t' ts]; [by eapply scans_field|]. cbn [commas].
  eapply scans_app; [by eapply scans_field|]. by eapply scans_cons; [reflexivity|].
Qed.

(** The text of an object is found to be balanced as a whole. *)
Lemma balanced_object E t fs : object_text E t fs -> balanced t (mkScan 0 false false) = Some t.
Proof.
  intros (ts & Hts & ->). cbn [balanced scan_char escape depth in_str andb Z.eqb Pos.eqb Z.add].
  change (scan_char 123 (mkScan 0 false false)) with (mkScan 1 false false, false). cbn iota.
  rewrite (scans_commas E ts fs 1 Hts). reflexivity.
Qed.

(** *** Reading back *)

Lemma replace_id pat to_ c p s : lit pat = c :: p -> Forall (fun x => x <> c) s -> replace pat to_ s = s.
Proof.
  intros Hp Hs. unfold replace. generalize (length s) as fuel. induction Hs as [|x s Hx _ IH]; intros [|fuel]; [done..|].
  cbn [replace_loop]. rewrite Hp. cbn [strip_prefix]. rewrite (proj2 (Z.eqb_neq c x)) by congruence. by rewrite <-Hp, IH.
Qed.

Lemma normalized_plain s : Forall (fun c => ~ markup c) s -> normalized s = s.
Proof.
  intros Hs. assert (H38 : Forall (fun x => x <> 38) s) by (eapply Forall_impl; [exact Hs|unfold markup; naive_solver]).
  assert (H60 : Forall (fun x => x <> 60) s) by (eapply Forall_impl; [exact Hs|unfold markup; naive_solver]).
  unfold normalized.
  rewrite (replace_id "<br/>" _ 60 (lit "br/>") s eq_refl H60), (replace_id "<br>" _ 60 (lit "br>") s eq_refl H60),
    (replace_id "&quot;" _ 38 (lit "quot;") s eq_refl H38), (replace_id "&#39;" _ 38 (lit "#39;") s eq_refl H38),
    (replace_id "&lt;" _ 38 (lit "lt;") s eq_refl H38), (replace_id "&gt;" _ 38 (lit "gt;") s eq_refl H38).
  apply (replace_id "&amp;" _ 38 (lit "amp;") s eq_refl H38).
Qed.

Lemma commas_elem t ts : t ∈ ts -> exists a b, commas ts = a ++ t ++ b.
Proof.
  induction ts as [|x ts IH]; [set_solver|]. intros [->|(a & b & Hab)%IH]%elem_of_cons; destruct ts as [|y ts].
  - exists [], []. by rewrite app_nil_r.
  - exists [], (44 :: commas (y :: ts)). done.
  - destruct a, t; try done. exists [], x. cbn in *. done.
  - exists (x ++ 44 :: a), b. cbn [commas] in *. rewrite Hab. by rewrite <-app_assoc.
Qed.

Lemma get_field_elem key v fs : NoDup fs.*1 -> (key, v) ∈ fs -> get_field key (JObject fs) = Some v.
Proof.
  cbn. induction fs as [|[k w] fs IH]; [set_solver|]. cbn [fmap list_fmap list_find fst]. intros [Hk Hnd]%NoDup_cons Hin.
  destruct (decide (k = key)) as [->|Hne].
  - apply elem_of_cons in Hin as [[= <-]|Hin]; [done|]. exfalso. apply Hk. by apply (list_elem_of_fmap_2 fst) in Hin.
  - apply elem_of_cons in Hin as [[= <- <-]|Hin]; [done|]. specialize (IH Hnd Hin).
    destruct (list_find _ fs) as [[? ?]|]; by cbn in *.
Qed.

(** *** Lengths *)

Lemma utf16_le_bytes s : utf16_len s <= byte_len s.
Proof.
  induction s as [|c s IH]; [done|]. rewrite utf16_len_cons.
  change (byte_len (c :: s)) with (len_utf8 c + byte_len s).
  assert (len_utf16 c <= len_utf8 c) by (unfold len_utf16, len_utf8; destruct (Z.ltb_spec c 65536), (Z.ltb_spec c 128), (Z.ltb_spec c 2048); lia). lia.
Qed.

Lemma hex_digit_len c x : hex_digit_value c = Some x -> len_utf16 c = 1.
Proof. unfold hex_digit_value, is_ascii_digit, len_utf16. intros H. repeat (case_match; to_prop; try lia; try done). Qed.

Lemma string_body_len E t v : string_body E t v -> utf16_len t <= 6 * utf16_len v.
Proof.
  induction 1 as [|c t v _ _ IH|e c t v _ He _ IH|h1 h2 h3 h4 c t v _ Hh _ IH]; [done|..];
    rewrite !utf16_len_cons; pose proof (len_utf16_pos c); change (len_utf16 92) with 1.
  - lia.
  - pose proof (len_utf16_pos e). lia.
  - unfold hex4 in Hh. repeat (apply bind_Some in Hh as (? & ->%hex_digit_len & Hh)). change (len_utf16 117) with 1. lia.
Qed.

Definition value_base (v : jvalue) : Z := match v with JString _ => 2 | _ => 21 end.
Definition payload_base (fs : fields) : Z := 2 + sumZ ((fun kv => utf16_len kv.1 + 4 + value_base kv.2) <$> fs).

Definition value_strings (v : jvalue) : Z := match v with JString s => utf16_len s | _ => 0 end.
Lemma strings_len_cons kv fs : strings_len (kv :: fs) = value_strings kv.2 + strings_len fs.
Proof. done. Qed.
Lemma strings_len_nonneg fs : 0 <= strings_len fs.
Proof.
  induction fs as [|[k w] fs IH]; [done|]. rewrite strings_len_cons.
  destruct w as [s|n|]; cbn [value_strings snd]; [pose proof (utf16_len_nonneg s)|..]; lia.
Qed.
Lemma payload_base_cons kv fs : payload_base (kv :: fs) = utf16_len kv.1 + 4 + value_base kv.2 + payload_base fs.
Proof.
  unfold payload_base. rewrite fmap_cons.
  unfold sumZ at 1. cbn [foldr]. fold sumZ. unfold sumZ. lia.
Qed.

Lemma quote_len t : utf16_len (quote t) = utf16_len t + 2.
Proof. unfold quote. rewrite utf16_len_cons, utf16_len_app. change (len_utf16 34) with 1. change (utf16_len [34]) with 1. lia. Qed.

Lemma value_text_len E t v : value_ok v -> value_text E t v -> utf16_len t <= value_base v + 6 * value_strings v.
Proof.
  intros Hok [t' w Hw|n]; cbn [value_base value_strings].
  - rewrite quote_len. apply string_body_len in Hw. lia.
  - pose proof (utf16_le_bytes (show_u n)). pose proof (utf16_le_bytes (show_u (- n))). unfold show_i.
    destruct (Z.ltb_spec n 0).
    + pose proof (show_u_byte_len (- n) ltac:(lia)). rewrite utf16_len_cons. change (len_utf16 45) with 1. lia.
    + pose proof (show_u_byte_len n ltac:(lia)). lia.
Qed.

Lemma commas_len E ts fs : (forall c, E c -> markup c) -> Forall2 (field_text E) ts fs -> payload_ok fs ->
  utf16_len (commas ts) + 2 <= payload_base fs + 6 * strings_len fs.
Proof.
  intros HE Hts [Hok _]. induction Hts as [|t kv ts fs (k & v & Hk & Hv & ->) Hts IH]; [done|].
  apply Forall_cons in Hok as [[Hkey Hval] Hok]. specialize (IH Hok).
  apply string_body_plain in Hk as ->; [|eapply Forall_impl; [exact Hkey|naive_solver]].
  apply value_text_len in Hv; [|done]. rewrite payload_base_cons, strings_len_cons.
  assert (Hc : utf16_len (commas ((quote kv.1 ++ 58 :: v) :: ts)) <= utf16_len (quote kv.1 ++ 58 :: v) + 1 + utf16_len (commas ts)).
  { destruct ts; cbn [commas]; [rewrite (eq_refl : utf16_len [] = 0); lia|].
    rewrite utf16_len_app, utf16_len_cons. change (len_utf16 44) with 1. lia. }
  rewrite utf16_len_app, quote_len, utf16_len_cons in Hc. change (len_utf16 58) with 1 in Hc. lia.
Qed.

(** *** The string that is shortened *)

Lemma longer_spec fs : forall best,
  match foldl longer_string best fs with
  | Some (k, s) => (best = Some (k, s) \/ (k, JString s) ∈ fs) /\ (forall k' s', best = Some (k', s') \/ (k', JString s') ∈ fs -> utf16_len s' <= utf16_len s)
  | None => best = None /\ forall k s, (k, JString s) ∉ fs
  end.
Proof.
  induction fs as [|[k v] fs IH]; intros best.
  { cbn. destruct best as [[k s]|]; [|set_solver]. split; [by left|]. intros k' s' [[= <- <-]|?%not_elem_of_nil]; done. }
  cbn [foldl]. specialize (IH (longer_string best (k, v))). unfold longer_string in *. cbn [fst snd] in *.
  destruct v as [t|n|]; cbn [as_string] in *.
  2-3: destruct (foldl _ _ _) as [[k1 s1]|]; set_solver.
  destruct best as [[k0 s0]|].
  - destruct (Z.leb_spec (utf16_len s0) (utf16_len t)).
    + destruct (foldl _ _ _) as [[k1 s1]|]; [|naive_solver]. destruct IH as [Hin Hmax].
      assert (utf16_len t <= utf16_len s1) by (eapply Hmax; by left).
      split; [set_solver|]. intros k' s' [[= <- <-]|[[= <- <-]|Hin']%elem_of_cons]; [lia|done|eapply Hmax; by right].
    + destruct (foldl _ _ _) as [[k1 s1]|]; [|naive_solver]. destruct IH as [Hin Hmax].
      assert (utf16_len s0 <= utf16_len s1) by (eapply Hmax; by left).
      split; [set_solver|]. intros k' s' [[= <- <-]|[[= <- <-]|Hin']%elem_of_cons]; [done|lia|eapply Hmax; by right].
  - destruct (foldl _ _ _) as [[k1 s1]|]; [|naive_solver]. destruct IH as [Hin Hmax].
    assert (utf16_len t <= utf16_len s1) by (eapply Hmax; by left).
    split; [set_solver|]. intros k' s' [?|[[= <- <-]|Hin']%elem_of_cons]; [done|done|eapply Hmax; by right].
Qed.

Lemma strings_len_pos fs : 0 < strings_len fs -> exists k s, (k, JString s) ∈ fs /\ 0 < utf16_len s.
Proof.
  induction fs as [|[k v] fs IH]; [done|]. rewrite strings_len_cons. intros H.
  destruct (decide (0 < value_strings v)) as [Hv|Hv].
  - destruct v as [s|n|]; cbn in Hv; [|lia..]. exists k, s. split; [left|done].
  - destruct IH as (k' & s & Hin & Hs); [cbn in *; lia|]. exists k', s. split; [by right|done].
Qed.

Lemma set_field_absent key v fs : key ∉ fs.*1 -> set_field key v fs = fs.
Proof.
  intros H. unfold set_field. induction fs as [|[k w] fs IH]; [done|]. cbn in *. apply not_elem_of_cons in H as [Hk H].
  rewrite decide_False by congruence. by rewrite IH.
Qed.

Lemma set_field_spec key s t fs : NoDup fs.*1 -> (key, JString s) ∈ fs ->
  (set_field key (JString t) fs).*1 = fs.*1 /\
  payload_base (set_field key (JString t) fs) = payload_base fs /\
  strings_len (set_field key (JString t) fs) = strings_len fs - utf16_len s + utf16_len t /\
  (forall kv, kv ∈ set_field key (JString t) fs -> kv ∈ fs \/ kv = (key, JString t)).
Proof.
  induction fs as [|[k w] fs IH]; [set_solver|]. cbn [fmap list_fmap fst]. intros [Hk Hnd]%NoDup_cons Hin.
  apply elem_of_cons in Hin as [[= <- <-]|Hin].
  - unfold set_field. cbn [fmap list_fmap fst]. rewrite decide_True by done. fold (set_field key (JString t) fs).
    rewrite set_field_absent by done. rewrite !payload_base_cons, !strings_len_cons. cbn. split_and!; [done|done|lia|set_solver].
  - assert (k <> key) by (intros ->; apply Hk; by apply (list_elem_of_fmap_2 fst) in Hin).
    specialize (IH Hnd Hin) as (H1 & H2 & H3 & H4). unfold set_field. cbn [fmap list_fmap fst]. rewrite decide_False by done.
    fold (set_field key (JString t) fs). rewrite !payload_base_cons, !strings_len_cons, H2, H3, H1. cbn.
    split_and!; [done|done|lia|]. intros kv [->|Hkv%H4]%elem_of_cons; set_solver.
Qed.

Lemma clamped value target : 1 <= target -> Forall scalar value ->
  utf16_len (clamp_str_utf16 value target) <= target /\ Forall scalar (clamp_str_utf16 value target).
Proof.
  intros Ht Hv. unfold clamp_str_utf16. destruct (Z.leb_spec (utf16_len value) target); [done|].
  destruct (clamp_scan_spec target value 0) as (rest & Hs & Hb & _). unfold saturating_sub in Hb.
  rewrite utf16_len_app. change (utf16_len [8230]) with 1. split; [lia|].
  rewrite Hs in Hv. apply Forall_app in Hv as [Hv _]. apply Forall_app. split; [done|]. apply Forall_singleton. unfold scalar. lia.
Qed.

Section RoundTrip.
Context (to_string : fields -> str) (from_str : str -> option json).
(** The library writes an object as JSON, escaping only what it must, and reads every text of an object, giving it its fields. *)
Hypothesis to_string_text : forall fs, payload_ok fs -> object_text never (to_string fs) fs.
Hypothesis from_str_text : forall t fs, payload_ok fs -> object_text always t fs -> exists fs', from_str t = Some (JObject fs') /\ fs' ≡ₚ fs.

Lemma caption_text fs : payload_ok fs -> object_text (fun c => never c \/ markup c) (html_safe (to_string fs)) fs.
Proof. intros H. by apply html_safe_object, to_string_text. Qed.

Lemma caption_read fs : payload_ok fs ->
  exists fs', from_str (html_safe (to_string fs)) = Some (JObject fs') /\ fs' ≡ₚ fs.
Proof. intros H. apply from_str_text; [done|]. eapply object_text_mono; [|by apply caption_text]. done. Qed.

Lemma caption_field fs fs' key v : payload_ok fs -> fs' ≡ₚ fs -> (key, v) ∈ fs -> get_field key (JObject fs') = Some v.
Proof. intros [_ Hnd] Hp Hin. apply get_field_elem; rewrite Hp; done. Qed.

(** The whole caption is what the reader cuts out of it. *)
Lemma extract_caption fs key v : payload_ok fs -> (key, v) ∈ fs ->
  extract_balanced_json from_str (html_safe (to_string fs)) key = Some (html_safe (to_string fs)).
Proof.
  intros Hok Hin. pose proof (caption_text fs Hok) as Ht. destruct (caption_read fs Hok) as (fs' & Hread & Hperm).
  unfold extract_balanced_json. rewrite normalized_plain by apply html_safe_none.
  assert (Htry : try_candidate from_str key (html_safe (to_string fs)) = Some (html_safe (to_string fs))).
  { unfold try_candidate. rewrite (proj2 (contains_spec _ _)); cbn [negb].
    - rewrite (balanced_object _ _ _ Ht), Hread, (caption_field fs fs' key v) by done. done.
    - destruct Ht as (ts & Hts & ->). apply list_elem_of_lookup in Hin as [i Hi].
      destruct (Forall2_lookup_r _ _ _ _ _ Hts Hi) as (t & Hti & k & w & Hk & _ & ->).
      apply string_body_plain in Hk as ->.
      + apply list_elem_of_lookup_2, commas_elem in Hti as (a & b & ->). exists (123 :: a), ((58 :: w) ++ b ++ [125]).
        cbn [fst]. rewrite <-!app_assoc. cbn. by rewrite <-!app_assoc.
      + destruct Hok as [Hok _]. apply Forall_lookup_1 with (i := i) (x := (key, v)) in Hok as [Hkey _]; [|done].
        eapply Forall_impl; [exact Hkey|]. cbn. unfold never. naive_solver. }
  destruct Ht as (ts & Hts & Heq). rewrite Heq in *. cbn [first_candidate]. cbn [Z.eqb Pos.eqb]. by rewrite Htry.
Qed.

Lemma caption_len fs : payload_ok fs ->
  estimate_html_utf16_len (html_safe (to_string fs)) <= payload_base fs + 6 * strings_len fs.
Proof.
  intros Hok. rewrite estimate_plain by apply html_safe_none. destruct (caption_text fs Hok) as (ts & Hts & Heq). rewrite Heq.
  assert (Hl : utf16_len (commas ts) + 2 <= payload_base fs + 6 * strings_len fs)
    by (eapply commas_len; [|exact Hts|done]; unfold never; naive_solver).
  rewrite utf16_len_cons, utf16_len_app. change (len_utf16 123) with 1. change (utf16_len [125]) with 1. lia.
Qed.

(** A turn that does not return shortens a string, and leaves a payload of the same kind. *)
Lemma serialize_turn f fs : payload_ok fs -> payload_base fs <= 1024 ->
  (serialize_caption_payload to_string (S f) fs = Some (html_safe (to_string fs)) /\
   estimate_html_utf16_len (html_safe (to_string fs)) <= 1024) \/
  exists fs', serialize_caption_payload to_string (S f) fs = serialize_caption_payload to_string f fs' /\ payload_ok fs' /\
    payload_base fs' <= 1024 /\ 0 <= strings_len fs' < strings_len fs.
Proof.
  intros Hok Hbase. cbn [serialize_caption_payload]. unfold MAX_MEDIA_CAPTION_UTF16_LEN.
  pose proof (caption_len fs Hok) as Hlen. destruct (Z.leb_spec (estimate_html_utf16_len (html_safe (to_string fs))) 1024); [by left|].
  right. destruct (strings_len_pos fs) as (k0 & s0 & Hin0 & Hs0); [lia|].
  pose proof (longer_spec fs None) as Hbest. fold (longest_string fs) in Hbest.
  destruct (longest_string fs) as [[key value]|]; [|destruct Hbest as [_ Hnone]; by destruct (Hnone k0 s0)].
  destruct Hbest as [[?|Hin] Hmax]; [done|]. assert (Hpos : utf16_len s0 <= utf16_len value) by (eapply Hmax; by right).
  set (target := saturating_sub _ _). eexists. split; [reflexivity|].
  assert (Hval : Forall scalar value).
  { destruct Hok as [Hall _]. rewrite Forall_forall in Hall. by apply Hall in Hin as [_ ?]. }
  set (shortened := if target =? 0 then [] else _).
  assert (Hsh : utf16_len shortened < utf16_len value /\ Forall scalar shortened).
  { subst shortened. destruct (Z.eqb_spec target 0); [split; [cbn; lia|apply Forall_nil_2]|].
    unfold saturating_sub in target. destruct (clamped value target ltac:(lia) Hval). split; [lia|done]. }
  destruct Hok as [Hall Hnd]. destruct (set_field_spec key value shortened fs Hnd Hin) as (Hk & Hb & Hs & Hel).
  pose proof (utf16_len_nonneg shortened). split_and!; [|lia| |lia].
  - split; [|by rewrite Hk]. apply Forall_forall. rewrite Forall_forall in Hall. intros kv [Hkv| ->]%Hel; [by apply Hall|].
    split; [by apply Hall in Hin as [? _]|]. by destruct Hsh.
  - rewrite Hs. enough (utf16_len value <= strings_len fs) by lia.
    clear -Hin. induction fs as [|[k w] fs IH]; [set_solver|]. rewrite strings_len_cons.
    pose proof (strings_len_nonneg fs). apply elem_of_cons in Hin as [[= <- <-]|Hin%IH]; cbn [value_strings snd]; [lia|].
    destruct w as [s|n|]; cbn [value_strings snd]; [pose proof (utf16_len_nonneg s)|..]; lia.
Qed.

Lemma serialize_fits fs f : payload_ok fs -> payload_base fs <= 1024 -> strings_len fs < Z.of_nat f ->
  exists fs', serialize_caption_payload to_string f fs = Some (html_safe (to_string fs')) /\ payload_ok fs' /\
    estimate_html_utf16_len (html_safe (to_string fs')) <= 1024.
Proof.
  revert fs. induction f as [|f IH]; intros fs Hok Hbase Hf.
  - pose proof (strings_len_nonneg fs). lia.
  - destruct (serialize_turn f fs Hok Hbase) as [[-> Hl]|(fs' & -> & Hok' & Hbase' & Hlt)]; [by eauto|]. apply IH; [done|done|lia].
Qed.

Lemma serialize_at_once fs : payload_ok fs -> payload_base fs + 6 * strings_len fs <= 1024 ->
  serialize_caption_payload to_string (caption_fuel fs) fs = Some (html_safe (to_string fs)).
Proof.
  intros Hok Hb. unfold caption_fuel. cbn [serialize_caption_payload]. pose proof (caption_len fs Hok).
  unfold MAX_MEDIA_CAPTION_UTF16_LEN. by rewrite (proj2 (Z.leb_le _ _)) by lia.
Qed.

(** Keys of ASCII characters that are neither escaped nor markup. *)
Definition plain_key (s : str) : bool :=
  forallb (fun c => (32 <=? c) && negb (c =? 34) && negb (c =? 92) && negb (c =? 38) && negb (c =? 60) && negb (c =? 62)) s.
Lemma plain_key_ok s : plain_key s = true -> Forall (fun c => ~ must_escape c /\ ~ markup c) s.
Proof.
  intros H. apply Forall_forall. intros c Hc. unfold plain_key in H. rewrite forallb_forall in H. apply list_elem_of_In in Hc.
  specialize (H c Hc). unfold must_escape, markup. zb.
Qed.

Lemma lit_scalars s : Forall scalar (lit s).
Proof.
  unfold lit. apply Forall_fmap, Forall_forall. intros a _. unfold scalar. cbn. pose proof (Ascii.N_ascii_bounded a). lia.
Qed.

Lemma payload_ok_intro fs : forallb plain_key fs.*1 = true -> bool_decide (NoDup fs.*1) = true -> Forall (fun kv => value_ok kv.2) fs -> payload_ok fs.
Proof.
  intros Hk Hnd Hv. split; [|by apply bool_decide_eq_true_1 in Hnd]. induction Hv as [|[k v] fs Hv _ IH]; [apply Forall_nil_2|].
  cbn in Hk, Hnd. apply andb_true_iff in Hk as [Hk Hks]. apply bool_decide_eq_true_1, NoDup_cons in Hnd as [_ Hnd].
  apply Forall_cons. split; [split; [by apply plain_key_ok|done]|]. apply IH; [done|by apply bool_decide_eq_true_2].
Qed.

Lemma as_i32_small n : 1 <= n < 2 ^ 31 -> as_i32 (Z.max n 1) = n.
Proof. intros H. unfold as_i32. rewrite Z.max_l by lia. apply swrap_small; [lia|]. change (32 - 1) with 31. lia. Qed.

Lemma track_payload_ok track_id codec : Forall scalar track_id -> payload_ok (track_payload track_id codec).
Proof.
  intros Hs. apply payload_ok_intro; [reflexivity|vm_compute; reflexivity|].
  apply Forall_cons. split; [|by apply Forall_singleton]. cbn [snd value_ok]. destruct codec as [c|]; [|apply lit_scalars].
  destruct (Codec_from_str c) as [[]|]; apply lit_scalars.
Qed.

Lemma zip_payload_ok meta :
  Forall scalar (zc_album_id meta) -> Forall scalar (default (lit "alac") (zc_codec meta)) -> Forall scalar (zc_hash meta) ->
  - 2 ^ 31 <= zc_part meta < 2 ^ 31 -> - 2 ^ 31 <= zc_total meta < 2 ^ 31 -> payload_ok (zip_payload meta).
Proof.
  intros Ha Hc Hh Hp Ht. apply payload_ok_intro; [reflexivity|vm_compute; reflexivity|].
  repeat (apply Forall_cons; split; [done|]). apply Forall_singleton, lit_scalars.
Qed.

(** C27: however long its texts are, the record of a track or of an archive part is brought to a caption that Telegram takes, of
    at most 1024 code units. *)
Theorem caption_within_limit track_id codec meta :
  Forall scalar track_id -> Forall scalar (zc_album_id meta) -> Forall scalar (default (lit "alac") (zc_codec meta)) -> Forall scalar (zc_hash meta) ->
  - 2 ^ 31 <= zc_part meta < 2 ^ 31 -> - 2 ^ 31 <= zc_total meta < 2 ^ 31 ->
  (exists caption, format_dump_caption to_string track_id codec = Some caption /\ utf16_len caption <= 1024) /\
  forall is_complete, exists caption, format_zip_dump_caption to_string meta is_complete = Some caption /\ utf16_len caption <= 1024.
Proof.
  intros Hs Ha Hc Hh Hp Ht.
  assert (Hfits : forall fs, payload_ok fs -> payload_base fs <= 1024 ->
            exists caption, serialize_caption_payload to_string (caption_fuel fs) fs = Some caption /\ utf16_len caption <= 1024).
  { intros fs Hok Hb. destruct (serialize_fits fs (caption_fuel fs) Hok Hb) as (fs' & Heq & _ & Hl).
    - unfold caption_fuel. pose proof (strings_len_nonneg fs). lia.
    - eexists. split; [exact Heq|]. by rewrite estimate_plain in Hl by apply html_safe_none. }
  split; [apply Hfits; [by apply track_payload_ok|done]|].
  intros []; [apply Hfits; [by apply zip_payload_ok|done]|]. exists []. split; [done|cbn; lia].
Qed.

(** The record of a track is read back from its caption: its number, and its codec as the code knows it. *)
Theorem dump_caption_roundtrip track_id codec :
  Forall scalar track_id -> track_id <> [] -> utf16_len track_id <= 150 ->
  parse_dump_caption from_str (format_dump_caption to_string track_id codec) =
    Some (track_id, match codec with Some c => default Alac (ok (Codec_from_str c)) | None => Alac end).
Proof.
  intros Hs Hne Hl. pose proof (track_payload_ok track_id codec Hs) as Hok. set (fs := track_payload track_id codec) in *.
  unfold format_dump_caption. fold fs. rewrite serialize_at_once; [|done|].
  2: { unfold fs, track_payload. rewrite !payload_base_cons, !strings_len_cons. cbn [value_base value_strings snd fst].
       assert (utf16_len match codec with Some c => match Codec_from_str c with Ok c => as_str c | Err _ => lit "alac" end | None => lit "alac" end <= 4)
         by (destruct codec as [c|]; [destruct (Codec_from_str c) as [[]|]|]; vm_compute; done).
       change (payload_base []) with 2. change (strings_len []) with 0. change (utf16_len (lit "codec")) with 5.
       change (utf16_len (lit "track_id")) with 8. lia. }
  destruct (caption_read fs Hok) as (fs' & Hread & Hperm).
  assert (Hid : get_field (lit "track_id") (JObject fs') = Some (JString track_id)) by (eapply caption_field; [done|done|right; left]).
  assert (Hc : get_field (lit "codec") (JObject fs') = snd <$> head fs) by (eapply caption_field; [done|done|left]).
  unfold parse_dump_caption. cbn [mbind option_bind]. erewrite extract_caption; [|done|right; left]. cbn [mbind option_bind].
  rewrite Hread. cbn [mbind option_bind]. rewrite Hid. cbn [mbind option_bind as_string]. rewrite decide_False by done.
  do 2 f_equal. unfold codec_field. rewrite Hc. cbn. destruct codec as [c|]; [|reflexivity].
  destruct (Codec_from_str c) as [[]|]; reflexivity.
Qed.

(** C28: the record of an archive part is read back from its caption. *)
Theorem zip_caption_roundtrip meta :
  Forall scalar (zc_album_id meta) -> Forall scalar (default (lit "alac") (zc_codec meta)) -> Forall scalar (zc_hash meta) ->
  zc_album_id meta <> [] -> 1 <= zc_part meta < 2 ^ 31 -> 1 <= zc_total meta < 2 ^ 31 ->
  utf16_len (zc_album_id meta) + utf16_len (default (lit "alac") (zc_codec meta)) + utf16_len (zc_hash meta) <= 130 ->
  parse_zip_dump_caption from_str (format_zip_dump_caption to_string meta true) =
    Some (mkParsedZip (zc_album_id meta) (default Alac (ok (Codec_from_str (default (lit "alac") (zc_codec meta))))) (zc_part meta) (zc_total meta) (zc_hash meta)).
Proof.
  intros Ha Hc Hh Hne Hp Ht Hl. pose proof (zip_payload_ok meta Ha Hc Hh ltac:(lia) ltac:(lia)) as Hok. set (fs := zip_payload meta) in *.
  unfold format_zip_dump_caption. cbn [negb]. fold fs. rewrite serialize_at_once; [|done|].
  2: { unfold fs, zip_payload. rewrite !payload_base_cons, !strings_len_cons. cbn [value_base value_strings snd fst].
       change (payload_base []) with 2. change (strings_len []) with 0. change (utf16_len (lit "album_id")) with 8. change (utf16_len (lit "codec")) with 5.
       change (utf16_len (lit "hash")) with 4. change (utf16_len (lit "part")) with 4. change (utf16_len (lit "total_parts")) with 11.
       change (utf16_len (lit "type")) with 4. change (utf16_len (lit "album_zip")) with 9. lia. }
  destruct (caption_read fs Hok) as (fs' & Hread & Hperm).
  assert (Hget : forall k v, (k, v) ∈ fs -> get_field k (JObject fs') = Some v) by (intros; by eapply caption_field).
  unfold parse_zip_dump_caption. cbn [mbind option_bind]. erewrite extract_caption; [|done|left]. cbn [mbind option_bind].
  rewrite Hread. cbn [mbind option_bind]. rewrite (Hget _ (JString (zc_album_id meta))) by left. cbn [mbind option_bind as_string].
  rewrite decide_False by done. do 2 f_equal.
  - unfold codec_field. rewrite (Hget _ (JString (default (lit "alac") (zc_codec meta)))) by (right; left). cbn [mbind option_bind as_string].
    by destruct (Codec_from_str _).
  - unfold number_field. rewrite (Hget _ (JNumber (zc_part meta))) by (do 3 right; left). cbn [as_i64 default]. by apply as_i32_small.
  - unfold number_field. rewrite (Hget _ (JNumber (zc_total meta))) by (do 4 right; left). cbn [as_i64 default]. by apply as_i32_small.
  - unfold string_field. by rewrite (Hget _ (JString (zc_hash meta))) by (do 2 right; left).
Qed.
End RoundTrip.

(** ** An instance: a writer and a reader of flat objects *)

Definition demo_hex (n : Z) : rchar := if n <? 10 then 48 + n else 87 + n.
Definition demo_escape (c : rchar) : str :=
  if c =? 34 then [92; 34] else if c =? 92 then [92; 92]
  else if c <? 32 then [92; 117; 48; 48; demo_hex (c / 16); demo_hex (c mod 16)] else [c].
Definition demo_body (s : str) : str := concat (demo_escape <$> s).
Definition demo_value (v : jvalue) : str :=
  match v with JString s => quote (demo_body s) | JNumber n => show_i n | JOtherValue => lit "null" end.
Definition demo_field (kv : str * jvalue) : str := quote (demo_body kv.1) ++ 58 :: demo_value kv.2.
Definition demo_to_string (fs : fields) : str := 123 :: commas (demo_field <$> fs) ++ [125].

Fixpoint read_body (t : str) : option (str * str) :=
  match t with
  | [] => None
  | c :: rest =>
      if c =? 34 then Some ([], rest)
      else if c =? 92 then
        match rest with
        | e :: rest =>
            if e =? 117 then
              match rest with
              | h1 :: h2 :: h3 :: h4 :: rest => x ← hex4 h1 h2 h3 h4; p ← read_body rest; Some (x :: p.1, p.2)
              | _ => None
              end
            else x ← snd <$> (snd <$> list_find (fun kv => kv.1 = e) short_escapes); p ← read_body rest; Some (x :: p.1, p.2)
        | [] => None
        end
      else p ← read_body rest; Some (c :: p.1, p.2)
  end.

Fixpoint read_digits (t : str) : str * str :=
  match t with
  | c :: rest => if is_ascii_digit c then let '(ds, rest) := read_digits rest in (c :: ds, rest) else ([], t)
  | [] => ([], [])
  end.

Definition read_value (t : str) : option (jvalue * str) :=
  match t with
  | [] => None
  | c :: rest =>
      if c =? 34 then p ← read_body rest; Some (JString p.1, p.2)
      else if c =? 45 then let '(ds, rest) := read_digits rest in n ← parse_u 64 ds; Some (JNumber (- n), rest)
      else let '(ds, rest) := read_digits t in n ← parse_u 64 ds; Some (JNumber n, rest)
  end.

Fixpoint read_fields (fuel : nat) (t : str) : option fields :=
  match fuel, t with
  | S f, c :: t =>
      if negb (c =? 34) then None
      else
        p ← read_body t;
        q ← match p.2 with c :: t => if c =? 58 then read_value t else None | [] => None end;
        match q.2 with
        | c :: t => if c =? 44 then fs ← read_fields f t; Some ((p.1, q.1) :: fs)
                    else if (c =? 125) && bool_decide (t = []) then Some [(p.1, q.1)] else None
        | [] => None
        end
  | _, _ => None
  end.

Definition demo_from_str (t : str) : option json :=
  match t with
  | c :: rest => if c =? 123 then (if decide (rest = [125]) then Some (JObject []) else JObject <$> read_fields (length rest) rest) else None
  | [] => None
  end.

Lemma demo_body_text s : Forall scalar s -> string_body never (demo_body s) s.
Proof.
  induction 1 as [|c s Hc _ IH]; [apply SB_nil|]. unfold demo_body in *. cbn [fmap list_fmap concat]. unfold demo_escape.
  destruct (Z.eqb_spec c 34) as [->|]; [apply SB_short; [left; unfold must_escape; lia|left|done]|].
  destruct (Z.eqb_spec c 92) as [->|]; [apply SB_short; [left; unfold must_escape; lia|right; left|done]|].
  destruct (Z.ltb_spec c 32); [|apply SB_char; [unfold must_escape; lia|done]].
  apply SB_hex; [left; by left| |done]. unfold scalar in Hc.
  assert (Hcase : forallb (fun c => bool_decide (hex4 48 48 (demo_hex (c / 16)) (demo_hex (c mod 16)) = Some c)) (Z.of_nat <$> seq 0 32) = true) by (vm_compute; reflexivity).
  rewrite forallb_forall in Hcase. apply (bool_decide_eq_true_1 (hex4 _ _ _ _ = Some c)), Hcase, list_elem_of_In, list_elem_of_fmap.
  exists (Z.to_nat c). split; [lia|]. apply elem_of_seq. lia.
Qed.

Lemma demo_to_string_text fs : payload_ok fs -> object_text never (demo_to_string fs) fs.
Proof.
  intros [Hok _]. exists (demo_field <$> fs). split; [|done]. induction Hok as [|[k v] fs [Hk Hv] _ IH]; [constructor|].
  constructor; [|done]. exists (demo_body k), (demo_value v). split_and!; [| |done].
  - assert (demo_body k = k) as ->; [|].
    + unfold demo_body. clear -Hk. cbn in Hk. induction Hk as [|c k [Hc _] _ IH]; [done|]. cbn. rewrite IH. unfold demo_escape, must_escape in *.
      rewrite !(proj2 (Z.eqb_neq c _)), (proj2 (Z.ltb_ge c _)) by lia. done.
    + cbn in Hk. clear -Hk. induction Hk as [|c k [Hc _] _ IH]; [apply SB_nil|by apply SB_char].
  - cbn in *. destruct v; [by apply VT_string, demo_body_text|apply VT_number|done].
Qed.

Lemma read_body_text E t v rest : string_body E t v -> read_body (t ++ 34 :: rest) = Some (v, rest).
Proof.
  induction 1 as [|c t v Hc _ IH|e c t v _ He _ IH|h1 h2 h3 h4 c t v _ Hh _ IH]; [done|..]; cbn [app read_body].
  - unfold must_escape in Hc. rewrite !(proj2 (Z.eqb_neq c _)) by lia. by rewrite IH.
  - cbn. rewrite IH. unfold short_escapes in He. rewrite !elem_of_cons, elem_of_nil in He. destruct_or!; simplify_eq; reflexivity.
  - cbn. by rewrite Hh, IH.
Qed.

Lemma read_digits_all ds rest : Forall (fun c => is_ascii_digit c = true) ds -> (forall c l, rest = c :: l -> is_ascii_digit c = false) ->
  read_digits (ds ++ rest) = (ds, rest).
Proof.
  intros Hds Hrest. induction Hds as [|c ds Hc _ IH]; cbn; [|by rewrite Hc, IH].
  destruct rest as [|c l]; [done|]. cbn. by rewrite (Hrest c l).
Qed.

Lemma read_value_text E t v rest : value_ok v -> value_text E t v -> (forall c l, rest = c :: l -> is_ascii_digit c = false) ->
  read_value (t ++ rest) = Some (v, rest).
Proof.
  intros Hok Hv Hrest. revert Hok. destruct Hv as [t' w Hw|n]; intros Hok.
  - unfold quote. cbn. rewrite <-app_assoc. cbn. by rewrite (read_body_text E t' w).
  - cbn in Hok. unfold show_i. destruct (Z.ltb_spec n 0).
    + cbn [app read_value Z.eqb Pos.eqb]. rewrite read_digits_all; [|apply show_u_digits; lia|done].
      rewrite parse_show_u by (split; [lia|]; change (2 ^ 64) with 18446744073709551616; lia). cbn [mbind option_bind]. by rewrite Z.opp_involutive.
    + pose proof (show_u_digits n ltac:(lia)) as Hd.
      assert (Hp : parse_u 64 (show_u n) = Some n) by (apply parse_show_u; split; [lia|]; change (2 ^ 64) with 18446744073709551616; lia).
      destruct (show_u n) as [|c ds] eqn:Es; [done|]. unfold read_value. cbn [app].
      assert (Hc : is_ascii_digit c = true) by (by apply Forall_cons in Hd as [? _]). unfold is_ascii_digit in Hc.
      rewrite !(proj2 (Z.eqb_neq c _)) by zb. change (c :: ds ++ rest) with ((c :: ds) ++ rest). rewrite read_digits_all by done. by rewrite Hp.
Qed.

Lemma demo_read_fields E ts fs : Forall2 (field_text E) ts fs -> Forall (fun kv => value_ok kv.2) fs -> ts <> [] ->
  forall fuel, (length ts <= fuel)%nat -> read_fields fuel (commas ts ++ [125]) = Some fs.
Proof.
  induction 1 as [|t [k v] ts fs (kt & vt & Hk & Hv & ->) Hts IH]; [done|]. intros Hok _ [|fuel] Hf; [cbn in Hf; lia|].
  apply Forall_cons in Hok as [Hv' Hok].
  assert (Hrest : exists rest, commas ((quote kt ++ 58 :: vt) :: ts) ++ [125] = 34 :: kt ++ 34 :: 58 :: vt ++ rest /\
            rest = match ts with [] => [125] | _ => 44 :: commas ts ++ [125] end).
  { eexists. split; [|done]. unfold quote. destruct ts; cbn [commas]; repeat (cbn [app]; rewrite <-?app_assoc); reflexivity. }
  destruct Hrest as (rest & -> & Hrest). cbn [read_fields]. cbn [negb Z.eqb Pos.eqb].
  rewrite (read_body_text E kt k) by done. cbn [mbind option_bind fst snd]. cbn [Z.eqb Pos.eqb].
  rewrite (read_value_text E vt v) by (try done; intros c l ->; destruct ts; by simplify_eq). cbn [mbind option_bind fst snd]. rewrite Hrest.
  destruct ts as [|t' ts].
  - inversion Hts; subst. reflexivity.
  - cbn [Z.eqb Pos.eqb]. rewrite IH; [done|done|done|cbn in *; lia].
Qed.

Lemma demo_from_str_text t fs : payload_ok fs -> object_text always t fs -> exists fs', demo_from_str t = Some (JObject fs') /\ fs' ≡ₚ fs.
Proof.
  intros [Hok _] (ts & Hts & ->). exists fs. split; [|done]. unfold demo_from_str. cbn [Z.eqb Pos.eqb].
  destruct ts as [|t ts]; [inversion Hts; by subst|]. rewrite decide_False.
  - rewrite (demo_read_fields always (t :: ts) fs); [done|done|by eapply Forall_impl; [exact Hok|]; intros kv [_ ?]|done|].
    rewrite length_app. clear. induction (t :: ts) as [|x [|y l] IH]; cbn in *; [lia|lia|]. rewrite length_app. cbn in *. lia.
  - inversion Hts as [|? kv ? ? (k & v & _ & _ & ->)]; subst. unfold quote. destruct ts; done.
Qed.

Definition demo_meta : DumpZipCaptionMetadata := mkZipCaption (lit "1440<8>78") (Some (lit "aac")) 1 2 (lit "g&1").

Lemma caption_within_limit_witness :
  (exists caption, format_dump_caption demo_to_string (replicate 2000 38) (Some (lit "dolby")) = Some caption /\ utf16_len caption <= 1024) /\
  forall is_complete, exists caption, format_zip_dump_caption demo_to_string demo_meta is_complete = Some caption /\ utf16_len caption <= 1024.
Proof.
  apply (caption_within_limit demo_to_string demo_to_string_text); [|apply lit_scalars..|cbn; lia|cbn; lia].
  apply Forall_replicate. unfold scalar. lia.
Defined.

Lemma dump_caption_roundtrip_witness :
  parse_dump_caption demo_from_str (format_dump_caption demo_to_string (lit "14<4>0&8") (Some (lit "dolby"))) = Some (lit "14<4>0&8", Ec3).
Proof.
  apply (dump_caption_roundtrip demo_to_string demo_from_str demo_to_string_text demo_from_str_text (lit "14<4>0&8") (Some (lit "dolby")));
    [apply lit_scalars|done|by vm_compute].
Defined.

Lemma zip_caption_roundtrip_witness :
  parse_zip_dump_caption demo_from_str (format_zip_dump_caption demo_to_string demo_meta true) =
    Some (mkParsedZip (lit "1440<8>78") Aac 1 2 (lit "g&1")).
Proof.
  apply (zip_caption_roundtrip demo_to_string demo_from_str demo_to_string_text demo_from_str_text demo_meta);
    [apply lit_scalars..|done|cbn; lia|cbn; lia|by vm_compute].
Defined.
