(* ===== verification/Store.v ===== *)
(** * Store: the tracks and the archives in the database (crates/db/src/tracks.rs, albums.rs, with the constraints of
      migrations/20261006000000_initial_schema)

    The two tables are lists of rows; a statement is what it does to them, with the constraints it may break.  Every
    method first takes a connection, which may fail; a transaction that fails leaves the tables as they were. *)
From stdpp Require Import sorting.
From S2P Require Import Prelude Text Music JobPlan Finalize.

#[local] Open Scope Z_scope.

Record Track := mkTrack { tr_id : Z; tr_track_id : str; tr_codec : Codec; tr_message_id : Z; tr_file_id : str; tr_file_unique_id : str }.
Record NewTrack := mkNewTrack { nt_track_id : str; nt_codec : Codec; nt_message_id : Z; nt_file_id : str; nt_file_unique_id : str }.

Record NewAlbum := mkNewAlbum {
  na_album_id : str; na_codec : Codec; na_part_index : Z; na_total_parts : Z; na_message_id : Z; na_file_id : str; na_file_unique_id : str;
  na_file_size : Z; na_generation_hash : str;
}.
(** A row of albums: its number, and what was saved. *)
Record Album := mkAlbum { ab_id : Z; ab_data : NewAlbum }.

#[export] Instance Track_eq_dec : EqDecision Track.
Proof. solve_decision. Defined.
#[export] Instance NewAlbum_eq_dec : EqDecision NewAlbum.
Proof. solve_decision. Defined.
#[export] Instance Album_eq_dec : EqDecision Album.
Proof. solve_decision. Defined.

Definition track_key (t : Track) : str * Codec := (tr_track_id t, tr_codec t).
Definition new_key (n : NewTrack) : str * Codec := (nt_track_id n, nt_codec n).
Definition part_key (n : NewAlbum) : str * Codec * Z := (na_album_id n, na_codec n, na_part_index n).
Definition album_key (a : Album) : str * Codec * Z := part_key (ab_data a).
Definition album_unique (a : Album) : str := na_file_unique_id (ab_data a).

(** The tables, their sequences, and how many connections were asked for. *)
Record database := mkDatabase { tracks : list Track; albums : list Album; next_track : Z; next_album : Z; calls : nat }.

Inductive DbError := Pool | Query | Row (detail : str).

Definition dbm (A : Type) : Type := database -> result DbError A * database.
Definition ret {A} (a : A) : dbm A := fun d => (Ok a, d).
Definition fail {A} (e : DbError) : dbm A := fun d => (Err e, d).
Definition bind {A B} (m : dbm A) (k : A -> dbm B) : dbm B :=
  fun d => match m d with (Ok a, d) => k a d | (Err e, d) => (Err e, d) end.
#[local] Notation "x <-- m ;; k" := (bind m (fun x => k)) (at level 100, m at next level, right associativity).

Definition with_tracks (ts : list Track) (d : database) : database := mkDatabase ts (albums d) (next_track d) (next_album d) (calls d).
Definition with_albums (rows : list Album) (d : database) : database := mkDatabase (tracks d) rows (next_track d) (next_album d) (calls d).
Definition load {A} (f : database -> A) : dbm A := fun d => (Ok (f d), d).

(** The orders of the queries, by the rows' numbers. *)
Definition descending {A} (id : A -> Z) (a b : A) : Prop := id b <= id a.
Definition ascending {A} (id : A -> Z) (a b : A) : Prop := id a <= id b.
#[export] Instance descending_dec {A} (id : A -> Z) a b : Decision (descending id a b).
Proof. unfold descending. solve_decision. Defined.
#[export] Instance ascending_dec {A} (id : A -> Z) a b : Decision (ascending id a b).
Proof. unfold ascending. solve_decision. Defined.

Section Store.
(** The connections that cannot be had. *)
Variable down : nat -> bool.

Definition connection : dbm unit := fun d =>
  (if down (calls d) then Err Pool else Ok tt, mkDatabase (tracks d) (albums d) (next_track d) (next_album d) (S (calls d))).

(** ** Tracks *)

(** [INSERT .. ON CONFLICT (track_id, codec) DO UPDATE]: the row of the key is written over; another row with the same
    file is a conflict.  The sequence moves on either way. *)
Definition upsert_track (n : NewTrack) : dbm unit := fun d =>
  let row id := mkTrack id (nt_track_id n) (nt_codec n) (nt_message_id n) (nt_file_id n) (nt_file_unique_id n) in
  let moved := mkDatabase (tracks d) (albums d) (next_track d + 1) (next_album d) (calls d) in
  if existsb (fun t => bool_decide (track_key t <> new_key n /\ tr_file_unique_id t = nt_file_unique_id n)) (tracks d) then (Err Query, moved)
  else if existsb (fun t => bool_decide (track_key t = new_key n)) (tracks d) then
    (Ok tt, with_tracks ((fun t => if decide (track_key t = new_key n) then row (tr_id t) else t) <$> tracks d) moved)
  else (Ok tt, with_tracks (tracks d ++ [row (next_track d)]) moved).

Definition in_i32 (n : Z) : bool := (- 2 ^ 31 <=? n) && (n <? 2 ^ 31).

(** [first()]: a row, or not found. *)
Definition first {A} (l : list A) : dbm A := match l with a :: _ => ret a | [] => fail Query end.

Definition save_track (input : NewTrack) : dbm Track :=
  if negb (in_i32 (nt_message_id input)) then fail (Row (lit "message_id out of range: out of range integral type conversion attempted"))
  else
    _ <-- connection ;;
    _ <-- upsert_track input ;;
    rows <-- load (fun d => filter (fun t => track_key t = new_key input) (tracks d)) ;;
    first rows.

(** The rows of the tracks that are asked for, by their key. *)
Definition find_cached_tracks (track_ids : list str) : dbm (gmap (str * Codec) Track) :=
  let unique_ids := filter (fun id => id <> []) track_ids in
  if decide (unique_ids = []) then ret ∅
  else
    _ <-- connection ;;
    rows <-- load (fun d => filter (fun t => tr_track_id t ∈ unique_ids) (tracks d)) ;;
    ret (foldl (fun m t => <[track_key t := t]> m) ∅ rows).

Definition find_track_by_file_unique_id (file_unique_id : str) : dbm (option Track) :=
  _ <-- connection ;; load (fun d => head (filter (fun t => tr_file_unique_id t = file_unique_id) (tracks d))).
Definition find_track_by_id (id : Z) : dbm (option Track) :=
  _ <-- connection ;; load (fun d => head (filter (fun t => tr_id t = id) (tracks d))).
Definition get_track_by_apple_id (track_id : str) : dbm (option Track) :=
  _ <-- connection ;;
  load (fun d => head (merge_sort (descending tr_id) (filter (fun t => tr_track_id t = track_id) (tracks d)))).
Definition find_track_formats (track_ids : list str) : dbm (list (Z * str * Codec)) :=
  if decide (track_ids = []) then ret []
  else
    _ <-- connection ;;
    load (fun d => (fun t => (tr_id t, tr_track_id t, tr_codec t)) <$> filter (fun t => tr_track_id t ∈ track_ids) (tracks d)).
Definition get_all_track_ids : dbm (list (str * Codec)) := _ <-- connection ;; load (fun d => track_key <$> tracks d).
Definition find_all_by_track_id (track_id : str) : dbm (list Track) :=
  _ <-- connection ;; load (fun d => merge_sort (ascending tr_id) (filter (fun t => tr_track_id t = track_id) (tracks d))).

(** A statement that deletes, with the number of rows it deleted. *)
Definition delete_tracks_where (p : Track -> bool) : dbm Z := fun d =>
  (Ok (Z.of_nat (length (filter (fun t => p t = true) (tracks d)))), with_tracks (filter (fun t => p t = false) (tracks d)) d).

Definition delete_track (track_id : str) (codec : option Codec) : dbm bool :=
  _ <-- connection ;;
  n <-- delete_tracks_where (fun t => bool_decide (tr_track_id t = track_id) && match codec with Some c => bool_decide (tr_codec t = c) | None => true end) ;;
  ret (0 <? n).

Definition delete_tracks_not_in (valid : list (str * Codec)) : dbm Z :=
  _ <-- connection ;;
  stale_ids <-- load (fun d => tr_id <$> filter (fun t => track_key t ∉ valid) (tracks d)) ;;
  if decide (stale_ids = []) then ret 0 else delete_tracks_where (fun t => bool_decide (tr_id t ∈ stale_ids)).

(** ** Archives *)

Definition of_album (album_id : str) (codec : option Codec) (a : Album) : bool :=
  bool_decide (na_album_id (ab_data a) = album_id) && match codec with Some c => bool_decide (na_codec (ab_data a) = c) | None => true end.

Definition find_albums (album_id : str) (codec : option Codec) : dbm (list Album) :=
  _ <-- connection ;; load (fun d => merge_sort (ascending (na_part_index ∘ ab_data)) (filter (fun a => of_album album_id codec a = true) (albums d))).

Definition find_by_file_unique_id (file_unique_id : str) : dbm (option Album) :=
  _ <-- connection ;; load (fun d => head (filter (fun a => album_unique a = file_unique_id) (albums d))).

Definition list_albums : dbm (list Album) :=
  _ <-- connection ;; load (fun d => merge_sort (descending ab_id) (albums d)).

(** The checks of the table. *)
Definition checked (n : NewAlbum) : bool :=
  (0 <? na_part_index n) && (0 <? na_total_parts n) && (na_part_index n <=? na_total_parts n) && (0 <? na_message_id n) && (0 <? na_file_size n).

Definition upsert_album (n : NewAlbum) : dbm unit := fun d =>
  let moved := mkDatabase (tracks d) (albums d) (next_track d) (next_album d + 1) (calls d) in
  if negb (checked n) || existsb (fun a => bool_decide (album_key a <> part_key n /\ album_unique a = na_file_unique_id n)) (albums d) then (Err Query, moved)
  else if existsb (fun a => bool_decide (album_key a = part_key n)) (albums d) then
    (Ok tt, with_albums ((fun a => if decide (album_key a = part_key n) then mkAlbum (ab_id a) n else a) <$> albums d) moved)
  else (Ok tt, with_albums (albums d ++ [mkAlbum (next_album d) n]) moved).

Definition save_album (input : NewAlbum) : dbm Album :=
  _ <-- connection ;;
  _ <-- upsert_album input ;;
  rows <-- load (fun d => filter (fun a => album_key a = part_key input) (albums d)) ;;
  first rows.

(** The codecs that stand for the same rendition. *)
Definition codec_group (c : Codec) : list Codec := match c with Alac | Aac => [Alac; Aac] | Ec3 => [Ec3] end.
Definition in_group (album_id : str) (c : Codec) (a : Album) : bool :=
  bool_decide (na_album_id (ab_data a) = album_id) && bool_decide (na_codec (ab_data a) ∈ codec_group c).

(** [INSERT] of several rows, one after the other. *)
Fixpoint insert_albums (news : list NewAlbum) (rows : list Album) (next : Z) : option (list Album * Z) :=
  match news with
  | [] => Some (rows, next)
  | n :: news =>
      if negb (checked n) || existsb (fun a => bool_decide (album_key a = part_key n \/ album_unique a = na_file_unique_id n)) rows then None
      else insert_albums news (rows ++ [mkAlbum next n]) (next + 1)
  end.

Definition matches_expected (expected : AlbumReplacementExpectation) (existing : list Album) : bool :=
  match expected with
  | EmptyRows => bool_decide (existing = [])
  | Generation generation => bool_decide (existing <> []) && forallb (fun a => bool_decide (na_generation_hash (ab_data a) = generation)) existing
  | Mixed => false
  end.

(** The uploads, as the rows they become. *)
Definition checked_upload (album_id : str) (codec : Codec) (u : NewAlbum) : result DbError NewAlbum :=
  if bool_decide (na_album_id u <> album_id) || bool_decide (na_codec u <> codec) then Err (Row (lit "album replacement contains a mismatched part"))
  else if negb (in_i32 (na_message_id u)) then Err (Row (lit "out of range integral type conversion attempted"))
  else Ok u.

(** The first error, or all of them. *)
Fixpoint collect {A E} (l : list (result E A)) : result E (list A) :=
  match l with
  | [] => Ok []
  | Ok a :: l => match collect l with Ok l => Ok (a :: l) | Err e => Err e end
  | Err e :: _ => Err e
  end.

(** The body of the transaction; the lock serialises those of one album and group. *)
Definition replacement (album_id : str) (codec : Codec) (expected : AlbumReplacementExpectation) (new_albums : list NewAlbum) :
    dbm AlbumReplacementResult := fun d =>
  let existing := filter (fun a => in_group album_id codec a = true) (albums d) in
  if negb (matches_expected expected existing) then (Ok Stale, d)
  else
    let displaced := na_message_id ∘ ab_data <$> existing in
    match insert_albums new_albums (filter (fun a => in_group album_id codec a = false) (albums d)) (next_album d) with
    | None => (Err Query, d)                    (* rolled back *)
    | Some (rows, next) => (Ok (Committed displaced), mkDatabase (tracks d) rows (next_track d) next (calls d))
    end.

Definition replace_albums (album_id : str) (codec : Codec) (expected : AlbumReplacementExpectation) (uploads : list NewAlbum) :
    dbm AlbumReplacementResult :=
  match collect (checked_upload album_id codec <$> uploads) with
  | Err e => fail e
  | Ok new_albums => _ <-- connection ;; replacement album_id codec expected new_albums
  end.

Definition delete_albums (album_id : str) (codec : option Codec) : dbm (list Album) :=
  existing <-- find_albums album_id codec ;;
  if decide (existing = []) then ret []
  else
    _ <-- connection ;;
    fun d => (Ok existing, with_albums (filter (fun a => of_album album_id codec a = false) (albums d)) d).
End Store.

(** ** What the tables keep to *)

Record table_ok {A K} (id : A -> Z) (key : A -> K) (unique : A -> str) (rows : list A) (next : Z) : Prop := mkTableOk {
  ids_distinct : NoDup (id <$> rows);
  ids_used : Forall (fun a => id a < next) rows;
  keys_distinct : NoDup (key <$> rows);
  files_distinct : NoDup (unique <$> rows);
}.
Definition tracks_ok (ts : list Track) (next : Z) : Prop := table_ok tr_id track_key tr_file_unique_id ts next.
Definition albums_ok (rows : list Album) (next : Z) : Prop :=
  table_ok ab_id album_key album_unique rows next /\ Forall (fun a => checked (ab_data a) = true) rows.
Definition db_ok (d : database) : Prop := tracks_ok (tracks d) (next_track d) /\ albums_ok (albums d) (next_album d).

(** What the server does to the tables. *)
Inductive store_step (down : nat -> bool) : database -> database -> Prop :=
| SS_save_track n d : store_step down d (snd (save_track down n d))
| SS_delete_track id codec d : store_step down d (snd (delete_track down id codec d))
| SS_delete_tracks valid d : store_step down d (snd (delete_tracks_not_in down valid d))
| SS_save_album n d : store_step down d (snd (save_album down n d))
| SS_replace id codec expected uploads d : store_step down d (snd (replace_albums down id codec expected uploads d))
| SS_delete_albums id codec d : store_step down d (snd (delete_albums down id codec d)).

(** ** Lemmas *)

Section Tables.
Context {A K : Type} `{EqDecision K} (id : A -> Z) (key : A -> K) (unique : A -> str).

Lemma table_filter (P : A -> Prop) `{forall a, Decision (P a)} rows next :
  table_ok id key unique rows next -> table_ok id key unique (filter P rows) next.
Proof.
  intros [H1 H2 H3 H4]. assert (Hsub : filter P rows `sublist_of` rows) by apply sublist_filter.
  split; [..|by eapply sublist_NoDup; [|apply (fmap_sublist unique), Hsub]].
  - by eapply sublist_NoDup; [|apply (fmap_sublist id), Hsub].
  - rewrite Forall_forall in *. intros a [_ Ha]%list_elem_of_filter. by apply H2.
  - by eapply sublist_NoDup; [|apply (fmap_sublist key), Hsub].
Qed.

(** The row of a key is written over. *)
Lemma table_update (f : A -> A) k u rows next :
  (forall a, a ∈ rows -> key a = k -> id (f a) = id a /\ key (f a) = k /\ unique (f a) = u) ->
  (forall a, a ∈ rows -> key a <> k -> unique a <> u) ->
  table_ok id key unique rows next -> table_ok id key unique ((fun a => if decide (key a = k) then f a else a) <$> rows) next.
Proof.
  intros Hf Hu [H1 H2 H3 H4]. set (g := fun a => if decide (key a = k) then f a else a).
  assert (Hid : id <$> (g <$> rows) = id <$> rows).
  { rewrite <-list_fmap_compose. apply list_fmap_ext. intros i a Ha%list_elem_of_lookup_2. unfold g. cbn. case_decide; [by apply Hf|done]. }
  assert (Hkey : key <$> (g <$> rows) = key <$> rows).
  { rewrite <-list_fmap_compose. apply list_fmap_ext. intros i a Ha%list_elem_of_lookup_2. unfold g. cbn. case_decide; [|done].
    transitivity k; [by apply Hf|done]. }
  split; [by rewrite Hid| |by rewrite Hkey|].
  - apply Forall_forall. intros b (a & -> & Ha)%list_elem_of_fmap. rewrite Forall_forall in H2. unfold g.
    destruct (decide (key a = k)) as [Hka|]; [|by apply H2]. rewrite (proj1 (Hf a Ha Hka)). by apply H2.
  - clear Hid Hkey H1 H2. induction rows as [|a rows IH]; [done|]. cbn [fmap list_fmap] in *.
    apply NoDup_cons in H3 as [Hk3 H3], H4 as [Hk4 H4]. apply NoDup_cons. split.
    2: { apply IH; [intros; apply Hf; [by right|done]|intros; apply Hu; [by right|done]|done|done]. }
    intros (b' & Hb & (b & -> & Hbin)%list_elem_of_fmap)%list_elem_of_fmap. unfold g in Hb.
    assert (Hne : key b <> key a) by (intros Heq; apply Hk3, list_elem_of_fmap; eauto).
    destruct (decide (key a = k)) as [Ha|Ha], (decide (key b = k)) as [Hbk|Hbk].
    + congruence.
    + destruct (Hf a ltac:(left) Ha) as (_ & _ & Hfa). rewrite Hfa in Hb. by apply (Hu b); [by right|..].
    + destruct (Hf b ltac:(by right) Hbk) as (_ & _ & Hfb). rewrite Hfb in Hb. by apply (Hu a); [left|..].
    + apply Hk4, list_elem_of_fmap. eauto.
Qed.

(** A row with a new key and a new file is added. *)
Lemma table_insert a rows next :
  id a = next -> (forall b, b ∈ rows -> key b <> key a) -> (forall b, b ∈ rows -> unique b <> unique a) ->
  table_ok id key unique rows next -> table_ok id key unique (rows ++ [a]) (next + 1).
Proof.
  intros Hid Hk Hu [H1 H2 H3 H4]. rewrite Forall_forall in H2.
  assert (Hsnoc : forall {B} (f : A -> B), NoDup (f <$> rows) -> (forall b, b ∈ rows -> f b <> f a) -> NoDup (f <$> rows ++ [a])).
  { intros B f Hnd Hf. rewrite fmap_app. apply NoDup_app. split_and!; [done| |apply NoDup_singleton].
    intros x (b & Hx & Hb)%list_elem_of_fmap Hxa%list_elem_of_singleton. apply (Hf b Hb). by rewrite <-Hx, Hxa. }
  split; [apply Hsnoc; [done|intros b Hb; specialize (H2 b Hb); lia]| |by apply Hsnoc|by apply Hsnoc].
  apply Forall_app. split; [|apply Forall_singleton; lia]. apply Forall_forall. intros b Hb. specialize (H2 b Hb). lia.
Qed.

Lemma table_next rows next next' : next <= next' -> table_ok id key unique rows next -> table_ok id key unique rows next'.
Proof. intros Hn [H1 H2 H3 H4]. split; [done| |done|done]. eapply Forall_impl; [exact H2|]. cbn. lia. Qed.
End Tables.

Lemma existsb_false {A} (f : A -> bool) l : existsb f l = false -> forall a, a ∈ l -> f a = false.
Proof.
  intros H a Ha. destruct (f a) eqn:E; [|done]. rewrite <-H. symmetry. apply existsb_exists. exists a. split; [by apply list_elem_of_In|done].
Qed.

Lemma upsert_track_ok n d : db_ok d -> db_ok (snd (upsert_track n d)).
Proof.
  intros [Ht Ha]. unfold upsert_track. cbn zeta. destruct (existsb _ (tracks d)) eqn:Eu.
  { split; [cbn; eapply table_next; [|exact Ht]; lia|done]. }
  assert (Hu : forall t, t ∈ tracks d -> track_key t <> new_key n -> tr_file_unique_id t <> nt_file_unique_id n).
  { intros t Hin Hk Heq. apply (existsb_false _ _ Eu) in Hin. apply bool_decide_eq_false_1 in Hin; cbn in *; intuition congruence. }
  destruct (existsb _ (tracks d)) eqn:Ek in |- *; (split; [|done]); cbn.
  - eapply table_next; [|eapply (table_update tr_id track_key tr_file_unique_id
      (fun t => mkTrack (tr_id t) (nt_track_id n) (nt_codec n) (nt_message_id n) (nt_file_id n) (nt_file_unique_id n)) (new_key n)); [|exact Hu|exact Ht]]; [lia|done].
  - apply table_insert; [done| |intros t Hin; apply Hu; [done|]|exact Ht]; cbn;
      try intros t Hin; apply (existsb_false _ _ Ek) in Hin; apply bool_decide_eq_false_1 in Hin; cbn in *; intuition congruence.
Qed.

Lemma upsert_album_ok n d : db_ok d -> db_ok (snd (upsert_album n d)).
Proof.
  intros [Ht [Ha Hc]]. unfold upsert_album. cbn zeta. destruct (negb (checked n) || _) eqn:Eu.
  { split; [done|]. split; [by eapply table_next; [|exact Ha]; cbn; lia|done]. }
  apply orb_false_iff in Eu as [Hn Eu]. apply negb_false_iff in Hn.
  assert (Hu : forall a, a ∈ albums d -> album_key a <> part_key n -> album_unique a <> na_file_unique_id n).
  { intros a Hin Hk Heq. apply (existsb_false _ _ Eu) in Hin. apply bool_decide_eq_false_1 in Hin; cbn in *; intuition congruence. }
  destruct (existsb _ (albums d)) eqn:Ek in |- *; (split; [done|]); split; cbn.
  - eapply table_next; [|eapply (table_update ab_id album_key album_unique (fun a => mkAlbum (ab_id a) n) (part_key n)); [|exact Hu|exact Ha]]; [lia|done].
  - apply Forall_fmap. eapply Forall_impl; [exact Hc|]. intros a Hca. cbn. by case_decide.
  - apply table_insert; [done| |intros a Hin; apply Hu; [done|]|exact Ha]; cbn;
      try intros a Hin; apply (existsb_false _ _ Ek) in Hin; apply bool_decide_eq_false_1 in Hin; cbn in *; intuition congruence.
  - apply Forall_app. split; [done|]. by apply Forall_singleton.
Qed.

Lemma insert_albums_ok news : forall rows next rows' next', albums_ok rows next -> insert_albums news rows next = Some (rows', next') ->
  albums_ok rows' next' /\ next <= next' /\ ab_data <$> rows' = (ab_data <$> rows) ++ news /\ exists added, rows' = rows ++ added.
Proof.
  induction news as [|n news IH]; intros rows next rows' next' [Ht Hc] Hins; cbn in Hins.
  { simplify_eq. rewrite app_nil_r. split_and!; [done|lia|done|exists []; by rewrite app_nil_r]. }
  destruct (negb (checked n) || _) eqn:Eu; [done|]. apply orb_false_iff in Eu as [Hn Eu]. apply negb_false_iff in Hn.
  apply IH in Hins as (Hok & Hnext & Hdata & added & ->).
  - split_and!; [done|lia| |exists (mkAlbum next n :: added); by rewrite <-app_assoc].
    rewrite Hdata, fmap_app. cbn. by rewrite <-app_assoc.
  - split; [|apply Forall_app; split; [done|by apply Forall_singleton]].
    apply table_insert; [done|..|exact Ht]; intros a Hin Heq; apply (existsb_false _ _ Eu) in Hin; apply bool_decide_eq_false_1 in Hin; tauto.
Qed.

Lemma db_ok_filter_tracks (P : Track -> Prop) `{forall t, Decision (P t)} d : db_ok d -> db_ok (with_tracks (filter P (tracks d)) d).
Proof. intros [Ht Ha]. split; [by apply table_filter|done]. Qed.
Lemma db_ok_filter_albums (P : Album -> Prop) `{forall a, Decision (P a)} d : db_ok d -> db_ok (with_albums (filter P (albums d)) d).
Proof.
  intros [Ht [Ha Hc]]. split; [done|]. split; [by apply table_filter|]. rewrite Forall_forall in *. intros a [_ Hin]%list_elem_of_filter. by apply Hc.
Qed.

(** What a computation leaves, whatever it answers. *)
Definition keeps_ok {A} (m : dbm A) : Prop := forall d, db_ok d -> db_ok (snd (m d)).
Lemma keeps_ok_bind {A B} (m : dbm A) (k : A -> dbm B) : keeps_ok m -> (forall a, keeps_ok (k a)) -> keeps_ok (bind m k).
Proof. intros Hm Hk d Hd. specialize (Hm d Hd). unfold bind. destruct (m d) as [[a|e] d']; [by apply Hk|done]. Qed.
Lemma keeps_same {A} (m : dbm A) : (forall d, snd (m d) = d) -> keeps_ok m.
Proof. intros H d Hd. by rewrite H. Qed.
Lemma keeps_connection down : keeps_ok (connection down).
Proof. intros d Hd. exact Hd. Qed.
Lemma keeps_delete_tracks p : keeps_ok (delete_tracks_where p).
Proof. intros d Hd. apply (db_ok_filter_tracks (fun t => p t = false)), Hd. Qed.
#[local] Hint Resolve keeps_ok_bind keeps_connection keeps_delete_tracks : core.

Lemma keeps_replacement album_id codec expected news : keeps_ok (replacement album_id codec expected news).
Proof.
  intros d [Ht Ha]. unfold replacement. destruct (negb _); [done|]. destruct (insert_albums _ _ _) as [[rows next]|] eqn:E; [|done].
  cbn. split; [done|]. apply insert_albums_ok in E as [H _]; [exact H|].
  exact (proj2 (db_ok_filter_albums (fun a => in_group album_id codec a = false) d (conj Ht Ha))).
Qed.

Lemma keeps_first {A} (f : database -> list A) : keeps_ok (bind (load f) first).
Proof. apply keeps_same. intros d. unfold bind, load, first. by destruct (f d). Qed.
Lemma keeps_save_track down n : keeps_ok (save_track down n).
Proof.
  unfold save_track. destruct (negb _); [by apply keeps_same|]. apply keeps_ok_bind; [auto|intros _].
  apply keeps_ok_bind; [intros d; apply upsert_track_ok|intros _; apply keeps_first].
Qed.
Lemma keeps_save_album down n : keeps_ok (save_album down n).
Proof. apply keeps_ok_bind; [auto|intros _]. apply keeps_ok_bind; [intros d; apply upsert_album_ok|intros _; apply keeps_first]. Qed.

(** In every state the server reaches, no two tracks share a key or a file, no two archive parts do, and every part is
    within its archive. *)
Theorem store_invariant down d d' : db_ok d -> steps (store_step down) d d' -> db_ok d'.
Proof.
  intros Hd Hsteps. eapply steps_invariant; [|exact Hsteps|exact Hd]. clear. intros d d' Hd Hstep. destruct Hstep.
  - by apply keeps_save_track.
  - revert d Hd. apply keeps_ok_bind; [auto|intros _]. apply keeps_ok_bind; [auto|]. intros n. by apply keeps_same.
  - revert d Hd. apply keeps_ok_bind; [auto|intros _]. apply keeps_ok_bind; [by apply keeps_same|]. intros ids. case_decide; [by apply keeps_same|auto].
  - by apply keeps_save_album.
  - unfold replace_albums. destruct (collect _); [|done]. revert d Hd. apply keeps_ok_bind; [auto|intros _]. apply keeps_replacement.
  - revert d Hd. apply keeps_ok_bind; [apply keeps_ok_bind; [auto|intros _; by apply keeps_same]|]. intros existing. case_decide; [by apply keeps_same|].
    apply keeps_ok_bind; [auto|intros _]. intros d. apply (db_ok_filter_albums (fun a => of_album id codec a = false)).
Qed.

Lemma collect_Ok {A E} (l : list (result E A)) l' : collect l = Ok l' -> l = Ok <$> l'.
Proof.
  revert l'. induction l as [|[a|e] l IH]; intros l' H; cbn in H; simplify_eq/=; [done|].
  destruct (collect l) as [l1|]; simplify_eq/=. by rewrite (IH l1).
Qed.

Lemma checked_uploads album_id codec uploads news :
  collect (checked_upload album_id codec <$> uploads) = Ok news ->
  news = uploads /\ Forall (fun u => na_album_id u = album_id /\ na_codec u = codec) uploads.
Proof.
  intros H%collect_Ok. revert news H. induction uploads as [|u uploads IH]; intros [|n news] H; try done.
  cbn in H. injection H as Hu H. destruct (IH news H) as [-> Hall]. unfold checked_upload in Hu.
  destruct (bool_decide (na_album_id u <> album_id)) eqn:E1; [done|]. destruct (bool_decide (na_codec u <> codec)) eqn:E2; [done|].
  cbn in Hu. destruct (negb _); [done|]. simplify_eq. apply bool_decide_eq_false_1, dec_stable in E1, E2. split; [done|]. by apply Forall_cons.
Qed.

(** C26: replacing an archive is a compare-and-swap on the rows of its group: it is stale, and changes nothing, exactly when they
    are not what was expected; otherwise they become the uploads, every other row stays, and the messages of the old ones
    are handed back.  An error changes nothing. *)
Theorem replace_albums_swaps down album_id codec expected uploads d r d' :
  db_ok d -> replace_albums down album_id codec expected uploads d = (r, d') ->
  let group := filter (fun a => in_group album_id codec a = true) (albums d) in
  let others := filter (fun a => in_group album_id codec a = false) (albums d) in
  tracks d' = tracks d /\
  match r with
  | Err _ => albums d' = albums d
  | Ok Stale => albums d' = albums d /\ matches_expected expected group = false
  | Ok (Committed displaced) => matches_expected expected group = true /\ displaced = na_message_id ∘ ab_data <$> group /\
      exists added, albums d' = others ++ added /\ ab_data <$> added = uploads /\ Forall (fun a => in_group album_id codec a = true) added
  end.
Proof.
  intros Hd Hrun. cbn zeta. unfold replace_albums in Hrun. destruct (collect _) as [news|e] eqn:Ec; [|unfold fail in Hrun; by simplify_eq].
  apply checked_uploads in Ec as [-> Hup]. unfold bind, connection in Hrun. destruct (down (calls d)); [by simplify_eq/=|].
  unfold replacement in Hrun. cbn [albums tracks next_album next_track calls] in Hrun.
  destruct (matches_expected _ _) eqn:Em; cbn [negb] in Hrun; [|by simplify_eq/=].
  destruct (insert_albums _ _ _) as [[rows next]|] eqn:Ei; simplify_eq/=; [|done]. split; [done|].
  apply insert_albums_ok in Ei as (_ & _ & Hdata & added & ->).
  - split_and!; [done|done|]. exists added. rewrite fmap_app in Hdata. apply app_inv_head in Hdata. split_and!; [done|done|].
    apply Forall_forall. intros a Ha. rewrite Forall_forall in Hup.
    assert (Hin : ab_data a ∈ uploads) by (rewrite <-Hdata; by apply list_elem_of_fmap_2). apply Hup in Hin as [Hid Hc].
    unfold in_group. rewrite Hid, Hc, !bool_decide_eq_true_2; [done| |done]. destruct codec; set_solver.
  - exact (proj2 (db_ok_filter_albums (fun a => in_group album_id codec a = false) d Hd)).
Qed.

Lemma filter_update_others k (f : Track -> Track) (ts : list Track) : (forall t, track_key t = k -> track_key (f t) = k) ->
  filter (fun t => track_key t <> k) ((fun t => if decide (track_key t = k) then f t else t) <$> ts) = filter (fun t => track_key t <> k) ts.
Proof.
  intros Hf. induction ts as [|x ts IH]; [done|]. rewrite fmap_cons. destruct (decide (track_key x = k)) as [Hx|Hx].
  - rewrite !filter_cons_False; [exact IH|tauto|]. specialize (Hf x Hx). tauto.
  - rewrite !filter_cons_True by done. by f_equal.
Qed.

(** A track that is saved is the one row of its key; every other row stays. *)
Lemma saved_track_found down n d t d' :
  db_ok d -> save_track down n d = (Ok t, d') ->
  t = mkTrack (tr_id t) (nt_track_id n) (nt_codec n) (nt_message_id n) (nt_file_id n) (nt_file_unique_id n) /\
  filter (fun t => track_key t = new_key n) (tracks d') = [t] /\
  filter (fun t => track_key t <> new_key n) (tracks d') = filter (fun t => track_key t <> new_key n) (tracks d).
Proof.
  intros Hd Hrun. pose proof (upsert_track_ok n _ (keeps_connection down d Hd)) as Hok.
  unfold save_track in Hrun. destruct (negb _); [done|]. unfold bind in Hrun. destruct (connection down d) as [[[]|] d1] eqn:Ec; [|done].
  cbn [snd] in Hok. assert (Htr : tracks d1 = tracks d) by (unfold connection in Ec; by simplify_eq/=).
  destruct (upsert_track n d1) as [[[]|] d2] eqn:Eu; [|done]. cbn in Hrun, Hok.
  destruct (filter _ (tracks d2)) as [|t' l] eqn:Ef; [done|]. unfold ret in Hrun. injection Hrun as -> ->.
  assert (Hrow : t ∈ filter (fun t => track_key t = new_key n) (tracks d')) by (rewrite Ef; left).
  apply list_elem_of_filter in Hrow as [Hk Hin].
  assert (l = []) as ->.
  { destruct l as [|t' l]; [done|]. exfalso. destruct Hok as [[_ _ Hnd _] _].
    pose proof (fmap_sublist track_key _ _ (sublist_filter (fun t => track_key t = new_key n) (tracks d'))) as Hsub.
    rewrite Ef in Hsub. apply sublist_NoDup in Hsub; [|done]. cbn in Hsub. apply NoDup_cons in Hsub as [Hnot _]. apply Hnot.
    assert (Ht' : t' ∈ filter (fun t => track_key t = new_key n) (tracks d')) by (rewrite Ef; right; left).
    apply list_elem_of_filter in Ht' as [Hk' _]. rewrite Hk, Hk'. left. }
  unfold upsert_track in Eu. cbn zeta in Eu. destruct (existsb _ (tracks d1)); [done|].
  destruct (existsb _ (tracks d1)) eqn:Ee in Eu; simplify_eq; cbn in *; rewrite Htr in *.
  - apply list_elem_of_fmap in Hin as (t0 & -> & Hin0). split_and!; [|done|].
    + case_decide; [done|]. by rewrite Hk in *.
    + exact (filter_update_others (new_key n)
        (fun t => mkTrack (tr_id t) (nt_track_id n) (nt_codec n) (nt_message_id n) (nt_file_id n) (nt_file_unique_id n)) (tracks d) (fun _ _ => eq_refl)).
  - split_and!; [|done|].
    + apply elem_of_app in Hin as [Hin|Hin%list_elem_of_singleton]; [|by rewrite Hin]. exfalso. apply (existsb_false _ _ Ee) in Hin.
      by apply bool_decide_eq_false_1 in Hin.
    + rewrite filter_app, filter_cons_False, filter_nil, app_nil_r; [done|]. cbn. tauto.
Qed.

(** What is not valid is deleted, and nothing else. *)
Lemma delete_tracks_spec down valid d n d' : db_ok d -> delete_tracks_not_in down valid d = (Ok n, d') ->
  tracks d' = filter (fun t => track_key t ∈ valid) (tracks d) /\ albums d' = albums d.
Proof.
  intros [[Hids _ _ _] _]. unfold delete_tracks_not_in, bind, connection, load. destruct (down (calls d)); [done|]. cbn [tracks].
  set (stale := filter (fun t => track_key t ∉ valid) (tracks d)).
  assert (Hkeep : forall t, t ∈ tracks d -> track_key t ∈ valid <-> tr_id t ∉ tr_id <$> stale).
  { intros t Hin. split.
    - intros Hv (t' & Heq & [Hv' Hin']%list_elem_of_filter)%list_elem_of_fmap. apply Hv'. enough (t = t') as <- by done.
      clear -Hids Hin Hin' Heq. induction (tracks d) as [|x ts IH]; [set_solver|]. cbn in Hids. apply NoDup_cons in Hids as [Hx Hids].
      apply elem_of_cons in Hin as [->|Hin], Hin' as [->|Hin']; [done|..|by apply IH]; exfalso; apply Hx, list_elem_of_fmap; eauto.
    - intros Hs. destruct (decide (track_key t ∈ valid)) as [?|Hv]; [done|]. exfalso. apply Hs, list_elem_of_fmap_2, list_elem_of_filter. done. }
  unfold ret, delete_tracks_where. destruct (decide (tr_id <$> stale = [])) as [He|He]; intros [= _ <-]; (split; [|done]); cbn [tracks with_tracks].
  - rewrite He in Hkeep. symmetry. revert Hkeep. clear. intros Hkeep. induction (tracks d) as [|x ts IH]; [done|]. rewrite filter_cons_True.
    + f_equal. apply IH. intros t Ht. apply Hkeep. by right.
    + apply Hkeep; [left|set_solver].
  - clear He. revert Hkeep. generalize (tr_id <$> stale) as ids. clear. intros ids Hkeep. induction (tracks d) as [|x ts IH]; [done|].
    assert (Hts : forall t, t ∈ ts -> track_key t ∈ valid <-> tr_id t ∉ ids) by (intros; apply Hkeep; by right).
    specialize (IH Hts). destruct (decide (track_key x ∈ valid)) as [Hx|Hx].
    + rewrite !filter_cons_True; [by f_equal|done|]. apply bool_decide_eq_false_2, Hkeep; [left|done].
    + rewrite !filter_cons_False; [done|done|]. rewrite bool_decide_eq_false. intros Hn. apply Hx, Hkeep; [left|done].
Qed.

(** ** Instances *)

Definition demo_part (i total message : Z) (generation : string) : NewAlbum :=
  mkNewAlbum (lit "77") Alac i total message (lit "f" ++ show_i message) (lit "u" ++ show_i message) 100 (lit generation).
Definition demo_database : database :=
  mkDatabase [mkTrack 1 (lit "5") Alac 3 (lit "f3") (lit "u3")] [mkAlbum 1 (demo_part 1 2 10 "old"); mkAlbum 2 (demo_part 2 2 11 "old")] 2 3 0.

Lemma demo_database_ok : db_ok demo_database.
Proof. split; [|split]; [split| split|]; apply (bool_decide_unpack _); vm_compute; exact I. Qed.

Lemma store_invariant_witness : db_ok (snd (save_track (fun _ => false) (mkNewTrack (lit "5") Alac 4 (lit "f4") (lit "u4")) demo_database)).
Proof.
  apply (store_invariant (fun _ => false) demo_database); [exact demo_database_ok|].
  eapply steps_cons; [apply SS_save_track|apply steps_refl].
Defined.

Lemma replace_albums_swaps_witness :
  let d' := snd (replace_albums (fun _ => false) (lit "77") Aac (Generation (lit "old")) [] demo_database) in
  tracks d' = tracks demo_database /\ matches_expected (Generation (lit "old")) (albums demo_database) = true /\ [10; 11] = [10; 11] /\
  exists added, albums d' = [] ++ added /\ ab_data <$> added = [] /\ Forall (fun a => in_group (lit "77") Aac a = true) added.
Proof.
  exact (replace_albums_swaps (fun _ => false) (lit "77") Aac (Generation (lit "old")) [] demo_database (Ok (Committed [10; 11])) _ demo_database_ok eq_refl).
Defined.

Lemma saved_track_found_witness :
  let d' := snd (save_track (fun _ => false) (mkNewTrack (lit "5") Alac 4 (lit "f4") (lit "u4")) demo_database) in
  mkTrack 1 (lit "5") Alac 4 (lit "f4") (lit "u4") = mkTrack 1 (lit "5") Alac 4 (lit "f4") (lit "u4") /\
  filter (fun t => track_key t = (lit "5", Alac)) (tracks d') = [mkTrack 1 (lit "5") Alac 4 (lit "f4") (lit "u4")] /\
  filter (fun t => track_key t <> (lit "5", Alac)) (tracks d') = filter (fun t => track_key t <> (lit "5", Alac)) (tracks demo_database).
Proof.
  exact (saved_track_found (fun _ => false) (mkNewTrack (lit "5") Alac 4 (lit "f4") (lit "u4")) demo_database
           (mkTrack 1 (lit "5") Alac 4 (lit "f4") (lit "u4")) _ demo_database_ok eq_refl).
Defined.
