(* ===== verification/IndexSync.v ===== *)
(** * IndexSync: the index of the dump chat (crates/bot/src/handlers/index.rs)

    The command that rebuilds the two tables from the messages of the dump chat: it reads the chat in batches from its
    newest message down, saves what the captions say, and prunes what was not seen.  The chat is met through its answers;
    the tables are those of Store.v, the captions those of DumpCaption.v. *)
From S2P Require Import Prelude Text Music Retry DumpCaption Store.

#[local] Open Scope Z_scope.

Definition INDEX_BATCH_SIZE : Z := 100.
Definition INDEX_BATCH_RETRIES : nat := 3.
Definition INDEX_BATCH_RETRY_BASE_MS : Z := 250.

(** What is looked at of a message: its number, its text, and of its document whether each of its audio attributes is a
    voice note, its numbers and its size. *)
Record dump_document := mkDumpDocument { dd_voices : list bool; dd_dc : Z; dd_id : Z; dd_access_hash : Z; dd_size : Z }.
Record dump_message := mkDumpMessage { dm_id : Z; dm_text : option str; dm_document : option dump_document }.

Inductive index_error := Telegram (detail : str) | Batch (batch_end : Z) (last_error : str) | Database (e : DbError).

Record IndexSummary := mkSummary { sm_scanned : Z; sm_synced : Z; sm_pruned : Z; sm_skipped : Z }.

Definition batch_ids (end_ batch_size : Z) : list Z :=
  let start := Z.max 1 (end_ - batch_size + 1) in reverse (seqZ start (end_ - start + 1)).

Definition file_ids (document : dump_document) : str * str :=
  (lit "mtproto:v1:" ++ show_i (dd_dc document) ++ lit ":" ++ show_i (dd_id document) ++ lit ":" ++ show_i (dd_access_hash document),
   lit "mtproto:document:" ++ show_i (dd_id document)).

Definition is_audio (document : dump_document) : bool := existsb negb (dd_voices document).

(** The scan so far: the counters, the keys and messages that are valid. *)
Record index_state := mkIndex { scanned : Z; synced : Z; skipped : Z; valid_track_ids : list (str * Codec); valid_zip_msg_ids : list Z }.
Definition skip (s : index_state) : index_state := mkIndex (scanned s) (synced s) (skipped s + 1) (valid_track_ids s) (valid_zip_msg_ids s).

Section Index.
Variable from_str : str -> option json.
Variable down : nat -> bool.

(** What a message says, if it is counted as synced. *)
Definition track_of (m : dump_message) : option NewTrack :=
  document ← dm_document m;
  if is_audio document then
    meta ← parse_dump_caption from_str (dm_text m);
    Some (mkNewTrack meta.1 meta.2 (dm_id m) (file_ids document).1 (file_ids document).2)
  else None.
Definition part_of (m : dump_message) : option NewAlbum :=
  document ← dm_document m;
  if is_audio document then None
  else
    z ← parse_zip_dump_caption from_str (dm_text m);
    Some (mkNewAlbum (pz_album_id z) (pz_codec z) (pz_part z) (pz_total z) (dm_id m) (file_ids document).1 (file_ids document).2 (dd_size document) (pz_hash z)).

(** One message. *)
Definition index_message (m : dump_message) (s : index_state) (d : database) : result index_error index_state * database :=
  let s := mkIndex (scanned s + 1) (synced s) (skipped s) (valid_track_ids s) (valid_zip_msg_ids s) in
  match dm_document m with
  | None => (Ok (skip s), d)
  | Some document =>
      let '(file_id, file_unique_id) := file_ids document in
      if is_audio document then
        match parse_dump_caption from_str (dm_text m) with
        | None => (Ok (skip s), d)
        | Some (track_id, codec) =>
            match save_track down (mkNewTrack track_id codec (dm_id m) file_id file_unique_id) d with
            | (Err error, d) => (Err (Database error), d)
            | (Ok _, d) => (Ok (mkIndex (scanned s) (synced s + 1) (skipped s) ((track_id, codec) :: valid_track_ids s) (valid_zip_msg_ids s)), d)
            end
        end
      else
        match parse_zip_dump_caption from_str (dm_text m) with
        | Some z =>
            match save_album down (mkNewAlbum (pz_album_id z) (pz_codec z) (pz_part z) (pz_total z) (dm_id m) file_id file_unique_id
                                     (dd_size document) (pz_hash z)) d with
            | (Ok _, d) => (Ok (mkIndex (scanned s) (synced s + 1) (skipped s) (valid_track_ids s) (dm_id m :: valid_zip_msg_ids s)), d)
            | (Err _, d) => (Ok (skip s), d)
            end
        | None => (Ok (skip s), d)
        end
  end.

Fixpoint index_messages (ms : list dump_message) (s : index_state) (d : database) : result index_error index_state * database :=
  match ms with
  | [] => (Ok s, d)
  | m :: ms =>
      match index_message m s d with
      | (Ok s, d) => index_messages ms s d
      | (Err e, d) => (Err e, d)
      end
  end.

(** What the chat answers to the attempts for a batch, numbered from 0. *)
Variable get_messages : list Z -> nat -> result str (list dump_message).

(** The attempts that are [left_]; with the delays that are slept. *)
Fixpoint retry_batch (ids : list Z) (batch_end : Z) (left_ retry_index : nat) (last_error : str) (slept : list Z) :
    result index_error (list dump_message) * list Z :=
  match left_ with
  | O => (Err (Batch batch_end last_error), slept)
  | S left_ =>
      match get_messages ids retry_index with
      | Ok messages => (Ok messages, slept)
      | Err error =>
          let slept := if decide (retry_index + 1 < INDEX_BATCH_RETRIES)%nat
                       then slept ++ [exponential_delay INDEX_BATCH_RETRY_BASE_MS (Z.of_nat retry_index)] else slept in
          retry_batch ids batch_end left_ (S retry_index) error slept
      end
  end.
Definition get_messages_with_retry (ids : list Z) (batch_end : Z) : result index_error (list dump_message) * list Z :=
  retry_batch ids batch_end INDEX_BATCH_RETRIES 0 [] [].

(** The loop over the batches; the last message looked at has number 1. *)
Fixpoint index_loop (fuel : nat) (end_ : Z) (s : index_state) (d : database) : option (result index_error index_state * database) :=
  match fuel with
  | O => None
  | S f =>
      if end_ <? 1 then Some (Ok s, d)
      else
        match get_messages_with_retry (batch_ids end_ INDEX_BATCH_SIZE) end_ with
        | (Err e, _) => Some (Err e, d)
        | (Ok messages, _) =>
            match index_messages messages s d with
            | (Err e, d) => Some (Err e, d)
            | (Ok s, d) =>
                let start := Z.max 1 (end_ - (INDEX_BATCH_SIZE - 1)) in
                if start =? 1 then Some (Ok s, d) else index_loop f (end_ - INDEX_BATCH_SIZE) s d
            end
        end
  end.

(** The archives whose message was not seen: the whole archive of such a row is deleted, and an error is not looked at. *)
Fixpoint prune_albums (rows : list Album) (valid : list Z) (pruned : Z) (d : database) : Z * database :=
  match rows with
  | [] => (pruned, d)
  | row :: rows =>
      if decide (na_message_id (ab_data row) ∈ valid) then prune_albums rows valid pruned d
      else prune_albums rows valid (pruned + 1) (snd (delete_albums down (na_album_id (ab_data row)) (Some (na_codec (ab_data row))) d))
  end.

Definition prune (s : index_state) (d : database) : result index_error IndexSummary * database :=
  match delete_tracks_not_in down (valid_track_ids s) d with
  | (Err error, d) => (Err (Database error), d)
  | (Ok pruned, d) =>
      let '(pruned, d) :=
        match list_albums down d with
        | (Ok rows, d) => prune_albums rows (valid_zip_msg_ids s) pruned d
        | (Err _, d) => (pruned, d)
        end in
      (Ok (mkSummary (scanned s) (synced s) pruned (skipped s)), d)
  end.

Definition index_start : index_state := mkIndex 0 0 0 [] [].
(** A turn for every hundred messages. *)
Definition index_fuel (max_id : Z) : nat := S (Z.to_nat max_id).

(** [probe]: the number of the message that is sent to learn where the chat ends. *)
Definition index_dump_channel (probe : result str Z) (d : database) : option (result index_error IndexSummary * database) :=
  match probe with
  | Err error => Some (Err (Telegram error), d)
  | Ok max_id =>
      match index_loop (index_fuel max_id) (max_id - 1) index_start d with
      | None => None
      | Some (Err e, d) => Some (Err e, d)
      | Some (Ok s, d) => Some (prune s d)
      end
  end.
End Index.

(** The flag of the command, which one task at a time may hold: [None] when the command is refused. *)
Definition try_begin (indexing : bool) : option bool := if indexing then None else Some true.
Definition handle_index (is_admin indexing : bool) : option bool := if is_admin then try_begin indexing else None.

(** ** Lemmas *)

(** The batches of the loop. *)
Fixpoint batches (fuel : nat) (end_ : Z) : list (list Z) :=
  match fuel with
  | O => []
  | S f =>
      if end_ <? 1 then []
      else batch_ids end_ INDEX_BATCH_SIZE
             :: if Z.max 1 (end_ - (INDEX_BATCH_SIZE - 1)) =? 1 then [] else batches f (end_ - INDEX_BATCH_SIZE)
  end.

Lemma batches_cover fuel : forall end_, end_ < Z.of_nat fuel -> concat (batches fuel end_) = reverse (seqZ 1 end_).
Proof.
  induction fuel as [|f IH]; intros end_ Hf; cbn [batches]; unfold INDEX_BATCH_SIZE.
  { rewrite seqZ_nil by lia. done. }
  destruct (Z.ltb_spec end_ 1); [by rewrite seqZ_nil by lia|]. unfold batch_ids. cbn [concat].
  destruct (Z.eqb_spec (Z.max 1 (end_ - (100 - 1))) 1) as [Hs|Hs].
  - rewrite app_nil_r. replace (Z.max 1 (end_ - 100 + 1)) with 1 by lia. by replace (end_ - 1 + 1) with end_ by lia.
  - rewrite IH by lia. rewrite <-reverse_app. f_equal.
    replace (Z.max 1 (end_ - 100 + 1)) with (1 + (end_ - 100)) by lia. rewrite <-seqZ_app by lia. f_equal. lia.
Qed.

Section Facts.
Context (from_str : str -> option json) (down : nat -> bool) (get_messages : list Z -> nat -> result str (list dump_message)).
#[local] Abbreviation messages_of := (index_messages from_str down).

Lemma index_messages_app ms1 ms2 s d :
  messages_of (ms1 ++ ms2) s d = match messages_of ms1 s d with (Ok s, d) => messages_of ms2 s d | (Err e, d) => (Err e, d) end.
Proof. revert s d. induction ms1 as [|m ms1 IH]; intros s d; [done|]. cbn. destruct (index_message _ _ _ _ _) as [[s'|e] d']; [apply IH|done]. Qed.

Lemma retry_batch_Ok ids batch_end left_ : forall k last_error slept ms slept',
  retry_batch get_messages ids batch_end left_ k last_error slept = (Ok ms, slept') ->
  exists j, (k <= j < k + left_)%nat /\ get_messages ids j = Ok ms.
Proof.
  induction left_ as [|left_ IH]; intros k last_error slept ms slept' H; cbn in H; [done|].
  destruct (get_messages ids k) as [ms'|e] eqn:E; [simplify_eq; exists k; split; [lia|done]|].
  apply IH in H as (j & Hj & Heq). exists j. split; [lia|done].
Qed.

Lemma index_loop_total fuel : forall end_ s d, Z.max 0 end_ < Z.of_nat fuel -> is_Some (index_loop from_str down get_messages fuel end_ s d).
Proof.
  induction fuel as [|f IH]; intros end_ s d Hf; cbn [index_loop].
  - lia.
  - destruct (Z.ltb_spec end_ 1); [done|]. destruct (get_messages_with_retry _ _ _) as [[ms|e] slept]; [|done].
    destruct (index_messages _ _ _ _ _) as [[s'|e] d']; [|done]. destruct (_ =? 1); [done|]. apply IH. unfold INDEX_BATCH_SIZE. lia.
Qed.

Lemma index_loop_Ok fuel : forall end_ s d s' d',
  index_loop from_str down get_messages fuel end_ s d = Some (Ok s', d') ->
  exists pages, Forall2 (fun ids ms => exists k, (k < INDEX_BATCH_RETRIES)%nat /\ get_messages ids k = Ok ms) (batches fuel end_) pages /\
    messages_of (concat pages) s d = (Ok s', d').
Proof.
  induction fuel as [|f IH]; intros end_ s d s' d' H; cbn [index_loop batches] in *; [done|].
  destruct (end_ <? 1); [simplify_eq; by exists []|].
  destruct (get_messages_with_retry _ _ _) as [[ms|e] slept] eqn:Eg; [|done].
  apply retry_batch_Ok in Eg as (k & Hk & Hget).
  destruct (messages_of ms s d) as [[s1|e] d1] eqn:Em; [|done].
  destruct (_ =? 1).
  - simplify_eq. exists [ms]. split; [constructor; [|constructor]; exists k; split; [unfold INDEX_BATCH_RETRIES in *; lia|done]|].
    cbn. by rewrite app_nil_r.
  - apply IH in H as (pages & Hp & Hm). exists (ms :: pages). split.
    + constructor; [|done]. exists k. split; [unfold INDEX_BATCH_RETRIES in *; lia|done].
    + cbn. by rewrite index_messages_app, Em.
Qed.

(** *** What a scan leaves *)

(** The track a key is given by the messages: the last one looked at wins. *)
Definition track_for (key : str * Codec) (ms : list dump_message) : option NewTrack :=
  last (filter (fun n => new_key n = key) (omap (track_of from_str) ms)).

Definition same_track (n : NewTrack) (t : Track) : Prop :=
  t = mkTrack (tr_id t) (nt_track_id n) (nt_codec n) (nt_message_id n) (nt_file_id n) (nt_file_unique_id n).

(** The rows of every key are those of the messages, or of before; the valid keys and messages are those seen. *)
Record scanned_ok (ms : list dump_message) (d0 : database) (s : index_state) (d : database) : Prop := mkScanned {
  so_db : db_ok d;
  so_rows : forall key, match track_for key ms with
                        | Some n => exists t, filter (fun t => track_key t = key) (tracks d) = [t] /\ same_track n t
                        | None => filter (fun t => track_key t = key) (tracks d) = filter (fun t => track_key t = key) (tracks d0)
                        end;
  so_valid : forall key, key ∈ valid_track_ids s <-> is_Some (track_for key ms);
  so_zips : forall i, i ∈ valid_zip_msg_ids s -> exists m, m ∈ ms /\ dm_id m = i /\ is_Some (part_of from_str m);
}.

Lemma track_for_snoc key ms m :
  track_for key (ms ++ [m]) =
    match track_of from_str m with
    | Some n => if decide (new_key n = key) then Some n else track_for key ms
    | None => track_for key ms
    end.
Proof.
  unfold track_for. rewrite omap_app. cbn [omap list_omap]. rewrite filter_app.
  destruct (track_of from_str m) as [n|]; [|by rewrite filter_nil, app_nil_r].
  destruct (decide (new_key n = key)).
  - rewrite filter_cons_True, filter_nil, last_snoc; done.
  - rewrite filter_cons_False, filter_nil, app_nil_r; done.
Qed.

Lemma save_album_tracks n d r d' : save_album down n d = (r, d') -> tracks d' = tracks d.
Proof.
  unfold save_album, bind, connection, upsert_album, load, first, ret, fail. destruct (down (calls d)); intros; simplify_eq/=; [done|].
  repeat (case_match; simplify_eq/=; try done).
Qed.

Lemma index_message_ok ms d0 m s d s' d' :
  scanned_ok ms d0 s d -> index_message from_str down m s d = (Ok s', d') -> scanned_ok (ms ++ [m]) d0 s' d'.
Proof.
  intros [Hdb Hrows Hvalid Hzips] H. unfold index_message in H.
  assert (Hskip : forall s', track_of from_str m = None -> valid_track_ids s' = valid_track_ids s -> 
    (forall i, i ∈ valid_zip_msg_ids s' -> i ∈ valid_zip_msg_ids s \/ (i = dm_id m /\ is_Some (part_of from_str m))) ->
    forall d', db_ok d' -> tracks d' = tracks d -> scanned_ok (ms ++ [m]) d0 s' d').
  { intros s1 Ht Hv Hz d1 Hd1 Htr. split; [done|..].
    - intros key. rewrite track_for_snoc, Ht, Htr. apply Hrows.
    - intros key. rewrite track_for_snoc, Ht, Hv. apply Hvalid.
    - intros i [Hi|[-> Hp]]%Hz; [destruct (Hzips i Hi) as (m' & Hm' & Hr)|]; [exists m'; split; [set_solver|done]|exists m; split; [set_solver|done]]. }
  destruct (dm_document m) as [document|] eqn:Ed; cbn [mbind option_bind] in H.
  2: { simplify_eq. apply Hskip; try done; [unfold track_of; by rewrite Ed|cbn; tauto]. }
  destruct (file_ids document) as [file_id file_unique_id] eqn:Ef.
  destruct (is_audio document) eqn:Ea.
  - destruct (parse_dump_caption from_str (dm_text m)) as [[track_id codec]|] eqn:Ep.
    2: { simplify_eq. apply Hskip; try done; [unfold track_of; cbn; by rewrite Ed; cbn; rewrite Ea, Ep|cbn; tauto]. }
    set (n := mkNewTrack track_id codec (dm_id m) file_id file_unique_id) in *.
    assert (Ht : track_of from_str m = Some n) by (unfold track_of; rewrite Ed; cbn [mbind option_bind]; rewrite Ea, Ep; cbn [mbind option_bind]; by rewrite Ef).
    destruct (save_track down n d) as [[t|e] d1] eqn:Es; simplify_eq.
    pose proof (keeps_save_track down n d Hdb) as Hdb'. rewrite Es in Hdb'. cbn in Hdb'.
    apply saved_track_found in Es as (Hst & Hone & Hothers); [|done]. split; [done|..].
    + intros key. rewrite track_for_snoc, Ht. case_decide as Hk; [subst key; by exists t|]. specialize (Hrows key).
      assert (Hsame : filter (fun t => track_key t = key) (tracks d') = filter (fun t => track_key t = key) (tracks d)).
      { assert (Hsub : forall ts : list Track, filter (fun t => track_key t = key) ts = filter (fun t => track_key t = key) (filter (fun t => track_key t <> new_key n) ts)).
        { intros ts. rewrite list_filter_filter. apply list_filter_iff. intros x. split; [intros <-; split; [done|congruence]|tauto]. }
        rewrite Hsub, Hothers, <-Hsub. done. }
      rewrite Hsame. exact Hrows.
    + intros key. rewrite track_for_snoc, Ht. cbn. rewrite elem_of_cons, Hvalid. case_decide as Hk; [subst key; split; [done|by left]|].
      split; [intros [->|?]; [by destruct Hk|done]|by right].
    + intros i Hi. destruct (Hzips i Hi) as (m' & Hm' & Hr). exists m'. split; [set_solver|done].
  - assert (Ht : track_of from_str m = None) by (unfold track_of; rewrite Ed; cbn; by rewrite Ea).
    destruct (parse_zip_dump_caption from_str (dm_text m)) as [z|] eqn:Ep; [|simplify_eq; apply Hskip; try done; cbn; tauto].
    set (n := mkNewAlbum _ _ _ _ _ _ _ _ _) in *.
    pose proof (keeps_save_album down n d Hdb) as Hdb'. destruct (save_album down n d) as [[a|e] d1] eqn:Es; cbn in Hdb'; simplify_eq;
      (apply Hskip; [done|done| |done|by eapply save_album_tracks]); cbn; [|tauto].
    intros i [->|Hi]%elem_of_cons; [right|by left]. split; [done|]. unfold part_of. rewrite Ed. cbn. by rewrite Ea, Ep.
Qed.

Lemma index_messages_ok ms : forall before d0 s d s' d',
  scanned_ok before d0 s d -> messages_of ms s d = (Ok s', d') -> scanned_ok (before ++ ms) d0 s' d'.
Proof.
  induction ms as [|m ms IH]; intros before d0 s d s' d' Hok H; cbn in H; [simplify_eq; by rewrite app_nil_r|].
  destruct (index_message from_str down m s d) as [[s1|e] d1] eqn:Em; [|done].
  rewrite (app_assoc before [m] ms : before ++ m :: ms = _). eapply IH; [|exact H]. by eapply index_message_ok.
Qed.

Lemma delete_albums_rows id codec d : (forall n, down n = false) ->
  albums (snd (delete_albums down id codec d)) = filter (fun a => of_album id codec a = false) (albums d) /\
  tracks (snd (delete_albums down id codec d)) = tracks d.
Proof.
  intros Hdown. unfold delete_albums, find_albums, bind, connection, load, ret. rewrite Hdown. cbn [albums].
  destruct (decide _) as [He|He]; cbn; [|by rewrite Hdown]. split; [|done].
  pose proof (sorting.merge_sort_Permutation (ascending (na_part_index ∘ ab_data)) (filter (fun a => of_album id codec a = true) (albums d))) as Hp.
  rewrite He in Hp. apply Permutation_nil_l in Hp. clear He. induction (albums d) as [|a rows IH]; [done|].
  destruct (of_album id codec a) eqn:E; [by rewrite filter_cons_True in Hp|].
  rewrite filter_cons_False in Hp by congruence. rewrite filter_cons_True by done. f_equal. by apply IH.
Qed.

Lemma prune_albums_tracks valid rows : forall pruned d, tracks (snd (prune_albums down rows valid pruned d)) = tracks d.
Proof.
  induction rows as [|row rows IH]; intros pruned d; cbn [prune_albums]; [done|]. case_decide; rewrite IH; [done|].
  unfold delete_albums, find_albums, bind, connection, load, ret. destruct (down (calls d)); [done|]. case_decide; [done|]. cbn.
  by destruct (down _).
Qed.

(** Without a failure, no row of the list is left whose message was not seen. *)
Lemma prune_albums_rows valid : (forall n, down n = false) -> forall rows pruned d,
  tracks (snd (prune_albums down rows valid pruned d)) = tracks d /\
  forall a, a ∈ albums (snd (prune_albums down rows valid pruned d)) ->
    a ∈ albums d /\ (a ∈ rows -> na_message_id (ab_data a) ∈ valid).
Proof.
  intros Hdown. induction rows as [|row rows IH]; intros pruned d; cbn [prune_albums]; [split; [done|set_solver]|].
  case_decide as Hv.
  - destruct (IH pruned d) as [Ht Ha]. split; [done|]. intros a Hin%Ha. set_solver.
  - destruct (IH (pruned + 1) (snd (delete_albums down (na_album_id (ab_data row)) (Some (na_codec (ab_data row))) d))) as [Ht Ha].
    destruct (delete_albums_rows (na_album_id (ab_data row)) (Some (na_codec (ab_data row))) d Hdown) as [Hrows Htr].
    split; [by rewrite Ht|]. intros a Hin%Ha. rewrite Hrows in Hin. destruct Hin as [[Hof Hin]%list_elem_of_filter Hr].
    split; [done|]. intros [->|Hin']%elem_of_cons; [|by apply Hr]. unfold of_album in Hof. by rewrite !bool_decide_eq_true_2 in Hof.
Qed.

(** The command always comes to an end: the fuel is enough. *)
Lemma index_ends probe d : is_Some (index_dump_channel from_str down get_messages probe d).
Proof.
  unfold index_dump_channel. destruct probe as [max_id|]; [|done].
  destruct (index_loop_total (index_fuel max_id) (max_id - 1) index_start d) as [[[s|e] d'] ->]; [unfold index_fuel; lia|done..].
Qed.

(** C25: after a sync, the tracks are those of the chat and no archive part is a ghost: every message below the probe was asked
    for exactly once, newest first; each key that a message's caption names has one row, of the last such message looked
    at, and no other key has any; and, unless a connection failed, each archive row stands for a message with such a
    caption.  The sync always ends. *)
Theorem index_matches_chat max_id d :
  db_ok d ->
  exists r d', index_dump_channel from_str down get_messages (Ok max_id) d = Some (r, d') /\
  forall summary, r = Ok summary ->
  exists pages,
    Forall2 (fun ids ms => exists k, (k < INDEX_BATCH_RETRIES)%nat /\ get_messages ids k = Ok ms) (batches (index_fuel max_id) (max_id - 1)) pages /\
    concat (batches (index_fuel max_id) (max_id - 1)) = reverse (seqZ 1 (max_id - 1)) /\
    (forall key, match track_for key (concat pages) with
                 | Some n => exists t, filter (fun t => track_key t = key) (tracks d') = [t] /\ same_track n t
                 | None => filter (fun t => track_key t = key) (tracks d') = []
                 end) /\
    ((forall n, down n = false) -> forall a, a ∈ albums d' ->
       exists m, m ∈ concat pages /\ dm_id m = na_message_id (ab_data a) /\ is_Some (part_of from_str m)).
Proof.
  intros Hd. destruct (index_ends (Ok max_id) d) as [[r d'] Hrun]. exists r, d'. split; [done|]. intros summary ->.
  unfold index_dump_channel in Hrun. destruct (index_loop _ _ _ _ _ _ _) as [[[s|e] d1]|] eqn:El; [|done..].
  apply index_loop_Ok in El as (pages & Hpages & Hms). exists pages. split; [done|].
  split; [apply batches_cover; unfold index_fuel; lia|].
  apply (index_messages_ok _ [] d) in Hms as [Hdb Hrows Hvalid Hzips]; [|split; [done|done|intros key; cbn; split; [by intros ?%not_elem_of_nil|by intros []]|by intros i ?%not_elem_of_nil]].
  cbn [app] in *. injection Hrun as Hrun. unfold prune in Hrun.
  destruct (delete_tracks_not_in down (valid_track_ids s) d1) as [[n|e] d2] eqn:Edel; [|done].
  apply delete_tracks_spec in Edel as [Htr Hal]; [|done].
  assert (Hkeys : forall key, match track_for key (concat pages) with
                 | Some n => exists t, filter (fun t => track_key t = key) (tracks d2) = [t] /\ same_track n t
                 | None => filter (fun t => track_key t = key) (tracks d2) = [] end).
  { intros key. rewrite Htr, list_filter_filter. specialize (Hrows key). specialize (Hvalid key). destruct (track_for key _) as [nt|].
    - destruct Hrows as (t & Ht & Hsame). exists t. split; [|done]. rewrite <-Ht. apply list_filter_iff. intros x. split; [tauto|].
      intros Hx. split; [done|]. rewrite Hx. apply Hvalid. eauto.
    - apply elem_of_nil_inv. intros x [[Hx Hin] _]%list_elem_of_filter. rewrite Hx in Hin. apply Hvalid in Hin as [? ?]. done. }
  destruct (list_albums down d2) as [[rows|e] d3] eqn:Ell.
  - assert (H3 : tracks d3 = tracks d2 /\ (albums d3 = albums d2) /\ rows ≡ₚ albums d2).
    { unfold list_albums, bind, connection, load in Ell. destruct (down (calls d2)); simplify_eq/=. split_and!; [done..|]. apply sorting.merge_sort_Permutation. }
    destruct H3 as (Ht3 & Ha3 & Hp3). destruct (prune_albums down rows (valid_zip_msg_ids s) n d3) as [p d4] eqn:Epr. simplify_eq.
    split.
    + intros key. replace (tracks d') with (tracks d2); [apply Hkeys|]. rewrite <-Ht3.
      pose proof (prune_albums_tracks (valid_zip_msg_ids s) rows n d3) as Hpt. by rewrite Epr in Hpt.
    + intros Hdown a Ha. destruct (prune_albums_rows (valid_zip_msg_ids s) Hdown rows n d3) as [_ Hal4]. rewrite Epr in Hal4.
      apply Hal4 in Ha as [Hin Hv]. rewrite Ha3, <-Hp3 in Hin. apply Hzips. by apply Hv.
  - simplify_eq. assert (Ht3 : tracks d' = tracks d2).
    { unfold list_albums, bind, connection, load in Ell. destruct (down (calls d2)); by simplify_eq/=. }
    rewrite Ht3. split; [exact Hkeys|]. intros Hdown. unfold list_albums, bind, connection, load in Ell. rewrite Hdown in Ell. done.
Qed.
End Facts.

(** ** Instances

    A chat with the two parts of a new archive, and two copies of a track; the tables still have three parts of the old one. *)
Definition demo_zip_message (id part : Z) : dump_message :=
  mkDumpMessage id (format_zip_dump_caption demo_to_string (mkZipCaption (lit "77") (Some (lit "alac")) part 2 (lit "new")) true)
    (Some (mkDumpDocument [] 2 (100 + id) 9 1000)).
Definition demo_track_message (id : Z) : dump_message :=
  mkDumpMessage id (format_dump_caption demo_to_string (lit "5") (Some (lit "alac"))) (Some (mkDumpDocument [false] 2 (100 + id) 9 1000)).
Definition demo_chat : list dump_message := [demo_track_message 9; demo_track_message 8; demo_zip_message 7 2; demo_zip_message 6 1].
Definition demo_get (ids : list Z) (k : nat) : result str (list dump_message) := Ok (filter (fun m => dm_id m ∈ ids) demo_chat).
Definition demo_tables : database :=
  mkDatabase [] [mkAlbum 1 (demo_part 1 3 1 "old"); mkAlbum 2 (demo_part 2 3 2 "old"); mkAlbum 3 (demo_part 3 3 3 "old")] 1 4 0.
Definition demo_sync (d : database) : option (result index_error IndexSummary * database) :=
  index_dump_channel demo_from_str (fun _ => false) demo_get (Ok 10) d.

Lemma index_matches_chat_witness : exists r d', demo_sync demo_tables = Some (r, d').
Proof.
  destruct (index_matches_chat demo_from_str (fun _ => false) demo_get 10 demo_tables) as (r & d' & H & _); [|by exists r, d'].
  split; [|split]; [split|split|]; apply (bool_decide_unpack _); vm_compute; exact I.
Defined.

(** One stale row takes the archive that was just synced with it: both parts are counted as synced, and none is left.  A
    second sync finds them again. *)
Theorem synced_archive_deleted :
  match demo_sync demo_tables with
  | Some (Ok summary, d) => sm_synced summary = 4 /\ albums d = [] /\
      match demo_sync d with Some (Ok _, d) => ab_data <$> albums d = [mkNewAlbum (lit "77") Alac 2 2 7 (lit "mtproto:v1:2:107:9") (lit "mtproto:document:107") 1000 (lit "new");
                                                                mkNewAlbum (lit "77") Alac 1 2 6 (lit "mtproto:v1:2:106:9") (lit "mtproto:document:106") 1000 (lit "new")]
      | _ => False
      end
  | _ => False
  end.
Proof. vm_compute. repeat split. Qed.

(** Of two copies of a track, the sync keeps the older one. *)
Theorem older_copy_wins :
  match demo_sync demo_tables with
  | Some (Ok _, d) => tr_message_id <$> tracks d = [8]
  | _ => False
  end.
Proof. vm_compute. reflexivity. Qed.
